(* ===== verification/_CoqProject ===== *)
-Q . S2P
Prelude.v
ReadyQueue.v
Timers.v
Frames.v
EventLoop.v
RunLoop.v
SleepProtocol.v
Runtime.v
LockM.v
SemaphoreM.v
EventPrim.v
ConditionM.v
QueueM.v
ChannelM.v
SelectM.v
GateM.v
SelectSafe.v
RateLimit.v
TimerObj.v
StreamIO.v
FutureM.v
PoolM.v
ContextM.v
Radix.v
JoinM.v
TaskGroupM.v
TaskM.v
AwaitM.v
HttpMsg.v
HttpUrl.v
Middleware.v
RadixShape.v
WebRouter.v
HttpParse.v
WebServer.v
WebConns.v
RegistryM.v
SchedulerM.v
ThreadPoolM.v
HttpClientM.v
ClientConns.v
ClientFlight.v
WaitForM.v
WatchEvents.v
FsWatchWin.v
FsWatch.v
SignalM.v
ServiceM.v
UringM.v
UringInv.v
IocpM.v
WinArgs.v
ProcessM.v
ProcessWin.v
Descriptors.v
NetM.v
NetInv.v
UnixM.v
IoErrors.v
FsM.v
TlsM.v
NetIocp.v
DnsM.v
TlsSource.v
ScheduleM.v
ExceptionsM.v
ChannelHandles.v
UdpServerM.v
