(* ===== verification/Prelude.v ===== *)
(** * Verification of the coro C++20 coroutine runtime

    The repository is a runtime for C++20 coroutines (an event loop with ready queues,
    timers and cross-thread wake-up; the synchronisation, channel, timer, future, pool
    and structured-concurrency types built on it; a scheduler over several loops; sockets,
    pipes, files, signals and processes over io_uring and over I/O completion ports; TLS), with
    an HTTP client and a small web framework on top.  This library models the logic of
    the runtime, of its I/O on both platforms, of the HTTP messages, the router, the server and
    the client, and proves what makes them correct.

    ** Layers and files

    Every file opens with the part of [src/] it models; operations keep the names of
    the code, with a short prefix per component.

    The event loop, [src/include/coro/event_loop.hpp] and [event_source.hpp]:
    - [ReadyQueue]: the vector-with-head FIFO; it refines a list.
    - [Timers]: [TimerHeap], with lazy deletion, compaction and the shared tokens and
      outcomes, kept in a store of cells ([std::shared_ptr] aliases are equal locations).
    - [Frames]: [FrameTracker], the generation, scheduled flag and wait epoch per frame.
    - [EventLoop]: the record [EventLoop] and every method that runs under
      [queue_mutex_].  An interleaving of threads is a sequence of these methods, the
      relation behind [el_no_double_resume] and [el_stale_epoch_refused].
    - [RunLoop]: [run_impl], its phases and its exits by exception.
    - [SleepProtocol]: the loop thread against producers around [awake_], at the
      granularity of atomic accesses: no wake-up is lost.

    The interface, [Runtime]: the class [Runtime] lists the calls the other types make
    (current loop and task, wait epochs, schedule, schedule_if_current, dispatch,
    timers), [RuntimeLaws] what they are promised; the instance on [world] (several
    event loops and the cells they share) discharges the laws with the theorems of
    [EventLoop].  The files below are sections over an arbitrary runtime with laws, and
    their witnesses run on [world].

    The types built on it:
    - [LockM], [SemaphoreM], [EventPrim], [ConditionM]: [src/include/coro/sync.hpp].
    - [QueueM]: [queue.hpp]; [ChannelM]: [channel.hpp] with the commit gate of
      [select.hpp]; [ChannelHandles]: its handles and their counts; [SelectM]: [select.hpp], [GateM] the calls of other coroutines that a
      waiting select meets, as a relation, and [SelectSafe] its invariant; [RateLimit]: [rate_limit.hpp]; [TimerObj]: [timer.hpp];
      [FutureM]: [future.hpp]; [PoolM]: [pool.hpp]; [ContextM]: [context.hpp].
    - [JoinM]: [wait_tasks] of [wait.hpp] and [gather.hpp]; [TaskGroupM]:
      [task_group.hpp]; [WaitForM]: [sleep.hpp], and [wait_for] of [wait.hpp] as the race of a task
      with a timer.
    - [TaskM]: [task.hpp], the frames of coroutines and the [Task] objects that own them,
      as two stores with pointers into each other, over the class [FrameRuntime]; [AwaitM]:
      the wrapper around every [co_await], over an arbitrary operand; [ScheduleM]: [schedule.hpp],
      the detached coroutine behind [call_soon], [call_later] and [call_at], over both;
      [ExceptionsM]: the classes of [exceptions.hpp], what catches them and what they say.
    - [StreamIO]: the buffered reader and writer of [stream.hpp], over the class of byte
      sources [Source] (the stream is a template parameter of the code).

    Threads:
    - [RegistryM]: [task_registry.hpp], the tasks of a service and the wait until none is left.
    - [SchedulerM]: [scheduler.hpp], several loops with [spawn_any], [wait_all] and [join].
    - [ThreadPoolM]: [thread.hpp], the workers behind [to_thread].
    In these three an atomic access or a critical section is a step, and steps of
    different threads come in any order.

    The operating system:
    - [WatchEvents], [FsWatchWin], [FsWatch]: the directory watchers of [fs_watch.hpp], from the
      records in the buffer to [next]; the kernel is a class.
    - [SignalM]: [signal.hpp], the registry, the transport from a handler to the thread that dispatches
      on both platforms, and the two coroutines of [handle].
    - [UringM]: [uring_event_source.hpp] with the submission queue of the vendored liburing, against a
      kernel that answers and completes in any order; [UringInv] its invariants.  [IocpM]:
      [iocp_event_source.hpp].
    - [Descriptors]: the set of open descriptors and who holds them, shared by the next files.
    - [NetM]: the awaiters and objects of [net_uring.hpp], and of [pipe.hpp], [unix.hpp] and [fs.hpp] on
      Linux, whose submissions are calls of [UringM]; [NetInv] their invariants.  [NetIocp]: the same of
      [net_iocp.hpp], [pipe.hpp] and [fs.hpp] on Windows, over [IocpM].
    - [UnixM]: addresses, [bind], [connect] and [close] of [unix.hpp] over a file system; [FsM]: the
      modes of [fs::open], [stat], [read_all] and [write_all]; [DnsM]: [dns.hpp]; [IoErrors]: the last
      error of a thread and the codes of Windows, [io.hpp].
    - [WinArgs]: the command line of Windows; [ProcessM], [ProcessWin]: [process.hpp] on both platforms.
    What the system answers is an argument of each operation or a step of its own, so that the theorems
    hold for every answer in every order.

    TLS, [src/src/tls.cpp]: [TlsM], a session as steps over an arbitrary engine and socket, and the
    choice of a protocol; [TlsSource] shows that a session is a [Source] in the sense of [StreamIO], with
    the class [Decrypts] for what the engine promises, so that the theorems on readers apply to it.

    HTTP and the web framework:
    - [HttpMsg]: [thirdparty/http/src/http_protocol.cpp] and [Web/src/http_types.cpp], messages
      and their serialization; [HttpParse]: [thirdparty/http/src/http_parse.cpp], the callbacks
      around llhttp, which is generated code and the class [Llhttp] here: an execution is a tree of
      callbacks, each steered by the answer to the one before.
    - [Radix]: [src/router/radix_router.h], a segment trie with backtracking search; [RadixShape]
      what insertion keeps of its shape; [Middleware], [WebRouter]: [Web/src/middleware.h] and
      [router.h], registration, inclusion, dispatch and static files.
    - [WebServer]: the coroutine of a connection in [Web/src/web_server.cpp], over the parser;
      [WebConns]: its accept loop, the set of connections and [stop].
    - [HttpUrl]: URLs and requests of [src/src/http_client.cpp]; [HttpClientM]: reading a response;
      [ClientConns]: requests and streams over pools and a transport; [ClientFlight]: the requests
      in flight and [aclose].
    - [ServiceM]: [tcp_udp/tcp_server.hpp] and [udp_server.hpp], the phases of a service with its
      supervisor, the accept loop and the receive loop; [UdpServerM]: the UDP server as an object with its
      configuration and its buffer.
    The router's middlewares and handlers, the sockets, the file system and the engine of
    the parser are arguments; a handler is any function on a world.

    ** How the code is modelled

    A method is a function from the state to its result and the new state; a method that
    may throw answers [res], whose error type [exn] has the constructors of
    [exceptions.hpp].  A method that touches the runtime threads the world [w].  A
    coroutine that suspends is cut at its suspension points: [await_ready],
    [await_suspend], [await_resume], the destruction of the awaiter (which is how a
    cancellation arrives), and the rounds of the coroutines that loop.  Components
    with a life of their own have a step relation over these functions, whose
    constructors are the calls in every order the code permits, and an invariant
    proved by induction on it.  Code that takes a mutex twice, or reads an atomic without it, is two steps.
    Handles are numbers, 0 is the null handle; epochs and generations are [uint64_t] and
    wrap; times are integers.  Where the code keeps pointers to nodes in suspended
    frames or in [shared_ptr], the nodes are a store indexed by identity.

    ** What the theorems show

    - The loop: a live frame is marked scheduled exactly when it is queued, and queued
      once; a notification of an earlier wait never wakes a later one; no lost wake-up;
      [drain] fires exactly the due live timers in order; every exit of a run restores
      the state it took.
    - The primitives: the lock refines an abstract queue lock; permits, reservations and
      pool slots are conserved; bounds hold; nobody waits in vain; a cancelled
      party passes on what had been handed to it; values come out in the order they went in.
    - Outcomes: futures, timers and cancellations are decided once.
    - Joins: the caller of [wait_tasks] is woken once, exactly on the condition of its
      mode, with the answer of that mode; [gather] simulates it; a task group
      is a barrier and its first failure cancels the others.
    - Rates: no more tokens than the rate allows, in a bucket with 64-bit clamping.
    - Select: at most one branch commits, as a lone operation would, and nothing of a
      select outlives it in a channel.
    - Tasks: no operation follows a pointer to a frame or task that is gone; the
      outcome of a body is delivered once and wakes the waiter on its own loop; a
      cancellation is consumed by one await, and an operand that was made to wait is told.
    - Handles and calls: the count of a side of a channel is the number of its handles, and a side that
      has lost its last is over; a scheduled call is made at most once, not before its time, and its
      frame lives as long as its body.
    - Streams: what a read returns followed by what is left is the stream, however the
      source splits it.
    - Routes: insertion and search against the list of patterns; a router answers with the
      preferred pattern, 405 or 404; what it serves from a directory stays below it.
    - Threads: [join], [wait_empty] and the workers of a pool miss no wake-up, under the
      conditions the theorems state; accepted tasks run, in order, and nothing is lost
      at a shutdown; the counters are exact in every interleaving.
    - Directory watching: the parsers stay in their buffers; a rename is reported once, however the
      kernel splits its halves; the watches follow the tree of directories through every change.
    - Descriptors: in any order of operations on sockets, pipes, files, processes and their awaiters each
      open descriptor is held once and none is closed that is not open, on both platforms and on every
      path of an error; what was asked of a descriptor that is closed has been asked to end.
    - The rings: the requests counted are those whose completion is to come; the kernel writes to no
      operation that is gone; a wake-up is not lost.
    - Signals and processes: a handler needs an arrival for each run and follows the last one; the
      arguments of a process are read back as they were given.
    - TLS: the tunnels are queues; a session that may go on being used had a verified handshake and no
      operation that failed or was dropped; the end of the stream is the peer's [close_notify] only; a
      reader over a session gets the decrypted text.
    - HTTP: what is built is read back as it was given; whatever the peer sends, what a parser, a
      response or a stream holds is within its limits; a server's responses come in the order of the
      requests; a client's request settles its lease and its place once on every path.
    - Defects found are theorems too: the situations in which the code strands a waiter,
      loses a line end or credits a period twice.

    ** Fuel

    Loops that are not structural take fuel and are started with enough of it; the
    theorems state the result, so that running out is excluded.  [read_until] and
    [read_line] take [max + 2] rounds, since every round but the last adds a byte and
    the buffer is limited by [max]; [read_exactly] takes [n] and [write_all] the
    length of the data, for the same reason; [feed_response] takes the length of the data
    (a feed consumes something or fails); [read_loop] of [FsM] the size of the file plus one and its
    [write_loop] the length of the data plus one (a round moves a byte or ends); [wait_for] of [UringM]
    more than the completions that are queued or arrive while it blocks ([wait_for_drains]); [alpn_scan] the length of
    the list plus one (a name has its length in front), and [send_all] of [TlsSource] the length of what
    is to be sent plus one; and [read_response] a read for each byte of the wire limit
    and one more; [connection_loop] of the server takes one unit for each read, and ends when the
    peer does; the parsers of [FsWatchWin] and [FsWatch] take the length of the buffer plus one (a
    record is not empty), and [next] of [FsWatch] two units for each poll and two more; the loops of the route table take the length
    of the path plus one (each step consumes a segment); the waking loops of
    [ContextM] and [PoolM] the number of waiters.  [el_run_impl] takes the number of
    iterations as an argument (a loop may run for ever) and its theorems hold for
    every number; [None] is "has not returned yet".

    ** What is not modelled

    The locals of a coroutine and what the compiler makes of its body: a coroutine is the
    sequence of calls it makes.
    The options of sockets, the number of a port and the sender of a datagram; the settings of a TLS
    context that only call OpenSSL; logging and the texts of errors, those of [exceptions.hpp] apart; the demonstration programs
    ([Web/main.cpp], examples, benchmarks, playground) and the tests.  The systems themselves,
    OpenSSL, llhttp and other vendored code are out of scope: what the models need of them is an
    argument or a class, and where a theorem relies on what they document it says so.  Memory orders weaker than sequential consistency are not modelled.  Allocation does not
    fail and moving a value does not throw, except where a file says otherwise. *)

From stdpp Require Export base tactics numbers list gmap fin_maps sorting relations strings.
From stdpp Require Import options.
From Stdlib Require Import Lia ZArith.

(** ** Scalars of the program *)

Local Open Scope Z_scope.

(** A [std::coroutine_handle<>] is its frame address; [0] is the null handle. *)
Abbreviation handle := nat.
Definition null_handle : handle := 0%nat.

(** Identity of an [EventLoop] object (the pointer compared by the code). *)
Abbreviation loop_id := nat.

(** Location of a heap cell shared through a [std::shared_ptr]. *)
Abbreviation loc := nat.

(** [std::string] and [std::string_view]. *)
Abbreviation str := (list Ascii.ascii).
Definition lit (s : String.string) : str := String.list_ascii_of_string s.

(** Machine-width arithmetic: an unsigned [w]-bit integer is a [Z] reduced modulo [2^w]. *)
Definition u64_modulus : Z := 2 ^ 64.
Definition u64_succ (x : Z) : Z := (x + 1) `mod` u64_modulus.
Definition u64_pred (x : Z) : Z := (x - 1) `mod` u64_modulus.
Definition u32_modulus : Z := 2 ^ 32.
Definition u32_succ (x : Z) : Z := (x + 1) `mod` u32_modulus.
Definition int64_max : Z := 2 ^ 63 - 1.
Definition int64_min : Z := - 2 ^ 63.

Lemma u64_succ_small (x : Z) : 0 ≤ x < u64_modulus - 1 → u64_succ x = x + 1.
Proof. intros. unfold u64_succ. apply Z.mod_small. lia. Qed.

Lemma u64_succ_range (x : Z) : 0 ≤ u64_succ x < u64_modulus.
Proof. unfold u64_succ. apply Z.mod_pos_bound. unfold u64_modulus; lia. Qed.

Local Close Scope Z_scope.

(** ** Errors as values *)

(** The exceptions the modelled code throws, by their C++ class. *)
Inductive exn : Type :=
  | LogicError
  | InvalidArgument
  | RuntimeError
  | SystemError
  | CancelledError
  | TimeoutError
  | ClosedChannelError
  | BrokenPromiseError
  | StructuredConcurrencyError
  | IncompleteStreamError (requested received : Z)
  | StreamOverflowError (limit : Z)
  | QueueShutDown
  | OverloadError
  | HttpError
  | UserError (code : Z).

#[export] Instance exn_eq_dec : EqDecision exn.
Proof. solve_decision. Defined.

(** Result of an operation that may throw. *)
Inductive res (A : Type) : Type :=
  | Ok (a : A)
  | Throw (e : exn).
Arguments Ok {A} _.
Arguments Throw {A} _.

Declare Scope res_scope.
Delimit Scope res_scope with res.
Notation "'try!' x ':=' c 'in' k" :=
  (match c with Ok x => k | Throw e => Throw e end)
  (at level 10, x pattern, k at level 200) : res_scope.

(** ** Automation *)

Create HintDb coro.

(** Case split on the scrutinee of every [match]/[if] of the goal. *)
Ltac case_all := repeat (case_match; simplify_eq/=).

(** Turn boolean tests of the context into propositions. *)
Ltac bool_to_prop :=
  repeat match goal with
  | H : (_ && _) = true |- _ => apply andb_true_iff in H; destruct H
  | H : (_ || _) = false |- _ => apply orb_false_iff in H; destruct H
  | H : negb _ = true |- _ => apply negb_true_iff in H
  | H : negb _ = false |- _ => apply negb_false_iff in H
  | H : bool_decide _ = true |- _ => apply bool_decide_eq_true in H
  | H : bool_decide _ = false |- _ => apply bool_decide_eq_false in H
  | H : (_ =? _)%Z = true |- _ => apply Z.eqb_eq in H
  | H : (_ =? _)%Z = false |- _ => apply Z.eqb_neq in H
  | H : (_ <? _)%Z = true |- _ => apply Z.ltb_lt in H
  | H : (_ <? _)%Z = false |- _ => apply Z.ltb_ge in H
  | H : (_ <=? _)%Z = true |- _ => apply Z.leb_le in H
  | H : (_ <=? _)%Z = false |- _ => apply Z.leb_gt in H
  | H : (_ =? _)%nat = true |- _ => apply Nat.eqb_eq in H
  | H : (_ =? _)%nat = false |- _ => apply Nat.eqb_neq in H
  | H : (_ <? _)%nat = true |- _ => apply Nat.ltb_lt in H
  | H : (_ <? _)%nat = false |- _ => apply Nat.ltb_ge in H
  | H : (_ <=? _)%nat = true |- _ => apply Nat.leb_le in H
  | H : (_ <=? _)%nat = false |- _ => apply Nat.leb_gt in H
  end.

(** ** Lists: removal of one element, as [std::find] followed by [erase] does *)

Section remove_first.
Context {A : Type} `{EqDecision A}.

(** Erase the first element equal to [x]; nothing when there is none. *)
Fixpoint erase_first (x : A) (l : list A) : list A :=
  match l with
  | [] => []
  | y :: l' => if decide (y = x) then l' else y :: erase_first x l'
  end.

Lemma erase_first_not_in x l : x ∉ l → erase_first x l = l.
Proof.
  induction l as [|y l IH]; simpl; [done|]. intros Hn.
  rewrite decide_False by set_solver. rewrite IH by set_solver. done.
Qed.

Lemma erase_first_sublist x l : erase_first x l `sublist_of` l.
Proof.
  induction l as [|y l IH]; simpl; [done|].
  case_decide; [by apply sublist_cons | by apply sublist_skip].
Qed.

Lemma erase_first_perm x l : x ∈ l → l ≡ₚ x :: erase_first x l.
Proof.
  induction l as [|y l IH]; simpl; [set_solver|]. intros Hin.
  case_decide; [by subst|].
  rewrite IH at 1 by set_solver. by rewrite Permutation_swap.
Qed.

Lemma erase_first_not_elem x l : NoDup l → x ∉ erase_first x l.
Proof.
  intros Hnd Hin. destruct (decide (x ∈ l)) as [Hx|Hx].
  - rewrite erase_first_perm in Hnd by done. by apply NoDup_cons in Hnd as [? _].
  - rewrite erase_first_not_in in Hin by done. done.
Qed.

Lemma elem_of_erase_first x y l : y ∈ erase_first x l → y ∈ l.
Proof. intros H. eapply elem_of_sublist; [apply H | apply erase_first_sublist]. Qed.

Lemma elem_of_erase_first_ne x y l : x ≠ y → y ∈ l → y ∈ erase_first x l.
Proof.
  intros Hne. induction l as [|z l IH]; simpl; [set_solver|].
  intros [->|Hin]%elem_of_cons; case_decide; set_solver.
Qed.

Lemma erase_first_NoDup x l : NoDup l → NoDup (erase_first x l).
Proof. intros. by eapply sublist_NoDup, erase_first_sublist. Qed.

Lemma length_erase_first x l :
  x ∈ l → length l = S (length (erase_first x l)).
Proof. intros H. by rewrite (erase_first_perm x l) at 1. Qed.
End remove_first.

(** ** Lists: filtering *)

Section filtering.
Context {A : Type} (P Q : A → Prop).
Context `{∀ x, Decision (P x)} `{∀ x, Decision (Q x)}.

Lemma filter_impl_nil l : Forall (λ x, ¬ P x) l → filter P l = [].
Proof. induction 1 as [|x l Hx _ IH]; [done|]. by rewrite filter_cons_False. Qed.

Lemma filter_impl_all l : Forall P l → filter P l = l.
Proof. induction 1 as [|x l Hx _ IH]; [done|]. rewrite filter_cons_True by done. by f_equal. Qed.

Lemma Forall_filter_sub (R : A → Prop) l : Forall R l → Forall R (filter P l).
Proof. rewrite !Forall_forall. intros HR x [_ Hx]%list_elem_of_filter. auto. Qed.

(** Filters by predicates that agree on the elements of the list. *)
Lemma list_filter_iff_Forall l : Forall (λ x, P x ↔ Q x) l → filter P l = filter Q l.
Proof.
  induction 1 as [|x l Hx _ IH]; [done|].
  rewrite !filter_cons, IH. destruct (decide (P x)), (decide (Q x)); naive_solver.
Qed.

Lemma sorted_filter (R : A → A → Prop) l :
  StronglySorted R l → StronglySorted R (filter P l).
Proof.
  induction 1 as [|x l Hs IH Hf]; [constructor|].
  rewrite filter_cons. case_decide; [|done]. constructor; [done|].
  rewrite Forall_forall in *. intros y [_ Hy]%list_elem_of_filter. auto.
Qed.
End filtering.

(** ** Maps: counting the entries that satisfy a test *)

Section counting.
Context {V : Type} (p : V → bool).

Definition map_count (m : gmap nat V) : nat := size (filter (λ e, p e.2 = true) m).

Lemma map_count_empty : map_count ∅ = 0.
Proof. unfold map_count. by rewrite map_filter_empty, map_size_empty. Qed.

Lemma map_count_insert m n x :
  m !! n = None → map_count (<[n := x]> m) = map_count m + Nat.b2n (p x).
Proof.
  intros Hn. unfold map_count. destruct (p x) eqn:Hx; simpl.
  - rewrite map_filter_insert_True by done. rewrite map_size_insert_None; [lia|].
    by apply map_lookup_filter_None; left.
  - rewrite map_filter_insert_False by (simpl; congruence).
    rewrite delete_id by done. lia.
Qed.

Lemma map_count_delete m n x :
  m !! n = Some x → map_count m = map_count (delete n m) + Nat.b2n (p x).
Proof.
  intros Hn. rewrite <- (insert_delete_id m n x Hn) at 1.
  by apply map_count_insert, lookup_delete_eq.
Qed.

Lemma map_count_update m n x y :
  m !! n = Some x →
  map_count (<[n := y]> m) + Nat.b2n (p x) = map_count m + Nat.b2n (p y).
Proof.
  intros Hn. rewrite <- insert_delete_eq.
  rewrite map_count_insert by apply lookup_delete_eq.
  rewrite (map_count_delete m n x Hn). lia.
Qed.
End counting.
