(* ===== verification/ReadyQueue.v ===== *)
(** * ReadyQueue: the FIFO of runnable coroutines ([coro::detail::ReadyQueue])

    [src/include/coro/event_loop.hpp], class [ReadyQueue]: a vector with a head
    index; popping advances the index and the storage is only reclaimed when the
    index reaches the end.  The specification is a plain list; the section
    [Refinement] relates the two. *)

From S2P Require Import Prelude.
From stdpp Require Import options.

(** ** Data *)

(** [struct ReadyEntry]: a handle with the generation of its frame. *)
Record ReadyEntry : Type := mkReadyEntry {
  re_handle : handle;
  re_generation : Z;
}.

#[export] Instance ReadyEntry_eq_dec : EqDecision ReadyEntry.
Proof. solve_decision. Defined.

(** [class ReadyQueue]: [items_] and [head_]. *)
Record ReadyQueue : Type := mkReadyQueue {
  rq_items : list ReadyEntry;
  rq_head : nat;
}.

Definition rq_init : ReadyQueue := {| rq_items := []; rq_head := 0 |}.

(** ** Operations *)

Definition rq_push (e : ReadyEntry) (q : ReadyQueue) : ReadyQueue :=
  {| rq_items := rq_items q ++ [e]; rq_head := rq_head q |}.

Definition rq_empty (q : ReadyQueue) : bool :=
  bool_decide (length (rq_items q) ≤ rq_head q).

(** [items_[head_]]: undefined behaviour out of range, hence an option. *)
Definition rq_front (q : ReadyQueue) : option ReadyEntry :=
  rq_items q !! rq_head q.

Definition rq_pop (q : ReadyQueue) : ReadyQueue :=
  let head := S (rq_head q) in
  if decide (head = length (rq_items q))
  then {| rq_items := []; rq_head := 0 |}
  else {| rq_items := rq_items q; rq_head := head |}.

Definition rq_swap (q other : ReadyQueue) : ReadyQueue * ReadyQueue :=
  (other, q).

(** ** Invariant and abstraction *)

(** The head index is inside the vector, or the queue has been reclaimed. *)
Definition rq_wf (q : ReadyQueue) : Prop :=
  rq_head q < length (rq_items q) ∨ rq_items q = [] ∧ rq_head q = 0.

(** The entries still to be consumed, oldest first. *)
Definition rq_model (q : ReadyQueue) : list ReadyEntry :=
  drop (rq_head q) (rq_items q).

Lemma rq_init_wf : rq_wf rq_init.
Proof. by right. Qed.

Lemma rq_push_wf e q : rq_wf q → rq_wf (rq_push e q).
Proof.
  unfold rq_wf; destruct q as [items head]; simpl; rewrite length_app; simpl.
  intros [?|[-> ->]]; left; simpl; lia.
Qed.

Lemma rq_pop_wf q : rq_wf q → rq_empty q = false → rq_wf (rq_pop q).
Proof.
  unfold rq_wf, rq_pop, rq_empty. intros _ Hne%bool_decide_eq_false.
  case_decide; simpl; [by right | left; lia].
Qed.

Lemma rq_model_init : rq_model rq_init = [].
Proof. done. Qed.

Lemma rq_model_push e q : rq_wf q → rq_model (rq_push e q) = rq_model q ++ [e].
Proof.
  unfold rq_wf, rq_model; destruct q as [items head]; simpl.
  intros [?|[-> ->]]; [|done]. rewrite drop_app_le by lia. done.
Qed.

Lemma rq_model_empty q : rq_empty q = true ↔ rq_model q = [].
Proof.
  unfold rq_empty, rq_model. rewrite bool_decide_eq_true. split.
  - intros. by apply drop_ge.
  - intros H%(f_equal length). rewrite length_drop in H. simpl in H. lia.
Qed.

Lemma rq_front_model q : rq_front q = head (rq_model q).
Proof.
  unfold rq_front, rq_model. destruct q as [items hd]; simpl.
  rewrite head_lookup, lookup_drop. f_equal. lia.
Qed.

Lemma rq_model_pop q : rq_model (rq_pop q) = tail (rq_model q).
Proof.
  unfold rq_pop, rq_model. destruct q as [items hd]; simpl.
  case_decide as Hd; simpl.
  - destruct (drop hd items) as [|x l] eqn:Heq; [done|].
    apply (f_equal length) in Heq. rewrite length_drop in Heq. simpl in *.
    destruct l; simpl in *; [done | lia].
  - replace (S hd) with (hd + 1) by lia.
    rewrite <- drop_drop. by destruct (drop hd items).
Qed.

Lemma rq_model_cons q e l :
  rq_model q = e :: l → rq_front q = Some e ∧ rq_model (rq_pop q) = l ∧ rq_empty q = false.
Proof.
  intros H. rewrite rq_front_model, rq_model_pop, H. split_and!; try done.
  apply not_true_is_false. rewrite rq_model_empty, H. done.
Qed.

Lemma rq_empty_false q :
  rq_empty q = false → ∃ e l, rq_model q = e :: l ∧ rq_front q = Some e.
Proof.
  intros H. destruct (rq_model q) as [|e l] eqn:Heq.
  - apply rq_model_empty in Heq. congruence.
  - exists e, l. by rewrite rq_front_model, Heq.
Qed.

(** ** Refinement of the FIFO specification

    A client script is a list of calls; the implementation and the list
    specification give the same observations. *)

Inductive rq_call : Type :=
  | RqPush (e : ReadyEntry)
  | RqPop.

(** Observation of one call: a pop reads [front] before it, when not empty. *)
Definition rq_exec (c : rq_call) (q : ReadyQueue) : option ReadyEntry * ReadyQueue :=
  match c with
  | RqPush e => (None, rq_push e q)
  | RqPop => if rq_empty q then (None, q) else (rq_front q, rq_pop q)
  end.

Definition fifo_exec (c : rq_call) (l : list ReadyEntry) : option ReadyEntry * list ReadyEntry :=
  match c with
  | RqPush e => (None, l ++ [e])
  | RqPop => (head l, tail l)
  end.

Fixpoint rq_run (cs : list rq_call) (q : ReadyQueue) : list (option ReadyEntry) :=
  match cs with
  | [] => []
  | c :: cs' => let '(o, q') := rq_exec c q in o :: rq_run cs' q'
  end.

Fixpoint fifo_run (cs : list rq_call) (l : list ReadyEntry) : list (option ReadyEntry) :=
  match cs with
  | [] => []
  | c :: cs' => let '(o, l') := fifo_exec c l in o :: fifo_run cs' l'
  end.

Lemma rq_exec_refines c q :
  rq_wf q →
  let '(o, q') := rq_exec c q in
  rq_wf q' ∧ fifo_exec c (rq_model q) = (o, rq_model q').
Proof.
  intros Hwf. destruct c as [e|]; simpl.
  - split; [by apply rq_push_wf | by rewrite rq_model_push].
  - destruct (rq_empty q) eqn:He.
    + split; [done|]. apply rq_model_empty in He as ->. done.
    + split; [by apply rq_pop_wf | by rewrite rq_front_model, rq_model_pop].
Qed.

Lemma rq_run_refines cs q : rq_wf q → rq_run cs q = fifo_run cs (rq_model q).
Proof.
  revert q. induction cs as [|c cs IH]; intros q Hwf; simpl; [done|].
  pose proof (rq_exec_refines c q Hwf) as H.
  destruct (rq_exec c q) as [o q']. destruct H as [Hwf' ->]. f_equal. auto.
Qed.

#[export] Hint Resolve rq_init_wf rq_push_wf rq_pop_wf : coro.
