(* ===== verification/Timers.v ===== *)
(** * Timers: the timer heap of an event loop ([coro::detail::TimerHeap])

    [src/include/coro/event_loop.hpp], [TimerEntry] and [TimerHeap].  The
    [std::priority_queue] is a list with the operation that removes an element of
    smallest deadline; which of several equal deadlines comes first is not
    specified by the C++ library, so the operation is the class [MinSelect] and
    every theorem holds for any instance.  Tokens and outcomes are cells shared
    through [std::shared_ptr], kept in a store. *)

From S2P Require Import Prelude ReadyQueue.
From stdpp Require Import options.

(** ** Shared cells *)

(** [std::shared_ptr<std::atomic<bool>>] and [std::shared_ptr<std::atomic<int>>]. *)
Record cells : Type := mkCells {
  c_flags : gmap loc bool;
  c_ints : gmap loc Z;
}.

Definition flag_load (c : cells) (l : loc) : bool := default false (c_flags c !! l).
Definition flag_store (l : loc) (b : bool) (c : cells) : cells :=
  {| c_flags := <[l := b]> (c_flags c); c_ints := c_ints c |}.
Definition int_load (c : cells) (l : loc) : Z := default 0%Z (c_ints c !! l).
Definition int_store (l : loc) (v : Z) (c : cells) : cells :=
  {| c_flags := c_flags c; c_ints := <[l := v]> (c_ints c) |}.

(** [compare_exchange_strong(expected, desired)]. *)
Definition int_cas (l : loc) (expected desired : Z) (c : cells) : bool * cells :=
  if decide (int_load c l = expected) then (true, int_store l desired c) else (false, c).

Lemma flag_load_int_store l l' v c : flag_load (int_store l v c) l' = flag_load c l'.
Proof. done. Qed.

Lemma int_load_flag_store l l' b c : int_load (flag_store l b c) l' = int_load c l'.
Proof. done. Qed.

Lemma int_load_store_eq l v c : int_load (int_store l v c) l = v.
Proof. unfold int_load, int_store; simpl. by rewrite lookup_insert_eq. Qed.

Lemma int_load_store_ne l l' v c : l ≠ l' → int_load (int_store l v c) l' = int_load c l'.
Proof. intros. unfold int_load, int_store; simpl. by rewrite lookup_insert_ne. Qed.

Lemma flag_load_store_eq l b c : flag_load (flag_store l b c) l = b.
Proof. unfold flag_load, flag_store; simpl. by rewrite lookup_insert_eq. Qed.

Lemma flag_load_store_ne l l' b c : l ≠ l' → flag_load (flag_store l b c) l' = flag_load c l'.
Proof. intros. unfold flag_load, flag_store; simpl. by rewrite lookup_insert_ne. Qed.

Lemma int_cas_flags l e d c l' : flag_load (int_cas l e d c).2 l' = flag_load c l'.
Proof. unfold int_cas. by case_decide. Qed.

#[export] Hint Rewrite flag_load_int_store int_load_flag_store int_load_store_eq
  flag_load_store_eq int_cas_flags : coro.

(** ** Data *)

(** [struct TimerEntry]. *)
Record TimerEntry : Type := mkTimerEntry {
  te_deadline : Z;
  te_entry : ReadyEntry;
  te_token : option loc;
  te_outcome : option loc;
  te_expire_value : Z;
}.

#[export] Instance TimerEntry_eq_dec : EqDecision TimerEntry.
Proof. solve_decision. Defined.

(** [TimerEntry::operator<] makes the queue a min-heap on the deadline. *)
Definition te_before (x y : TimerEntry) : Prop := (te_deadline x ≤ te_deadline y)%Z.

(** What [std::priority_queue::top]/[pop] promise. *)
Class MinSelect : Type := {
  ms_pop : list TimerEntry → option (TimerEntry * list TimerEntry);
  ms_pop_none : ∀ l, ms_pop l = None → l = [];
  ms_pop_nil : ms_pop [] = None;
  ms_pop_perm : ∀ l e l', ms_pop l = Some (e, l') → l ≡ₚ e :: l';
  ms_pop_min : ∀ l e l', ms_pop l = Some (e, l') → Forall (te_before e) l';
}.

(** [class TimerHeap]: [heap_] and [compact_tick_]. *)
Record TimerHeap : Type := mkTimerHeap {
  th_heap : list TimerEntry;
  th_compact_tick : Z;
}.

Definition th_init : TimerHeap := {| th_heap := []; th_compact_tick := 0 |}.

Definition th_push (e : TimerEntry) (t : TimerHeap) : TimerHeap :=
  {| th_heap := e :: th_heap t; th_compact_tick := th_compact_tick t |}.
Definition th_empty (t : TimerHeap) : bool := bool_decide (th_heap t = []).
Definition th_size (t : TimerHeap) : nat := length (th_heap t).

(** [entry.token && entry.token->load()]. *)
Definition te_stale (c : cells) (e : TimerEntry) : bool :=
  match te_token e with Some l => flag_load c l | None => false end.
Definition te_due (now : Z) (e : TimerEntry) : bool := (te_deadline e <=? now)%Z.

Section heap.
Context `{MinSelect}.

(** [heap_.top().deadline]. *)
Definition th_top_deadline (t : TimerHeap) : option Z :=
  (λ p, te_deadline p.1) <$> ms_pop (th_heap t).

(** The copying loop of [compact_if_stale]: the kept entries and the number of stale ones. *)
Fixpoint th_collect (fuel : nat) (c : cells) (copy : list TimerEntry)
    (kept : list TimerEntry) (stale : nat) : list TimerEntry * nat :=
  match fuel with
  | 0 => (kept, stale)
  | S fuel' =>
      match ms_pop copy with
      | None => (kept, stale)
      | Some (e, copy') =>
          if te_stale c e then th_collect fuel' c copy' kept (S stale)
          else th_collect fuel' c copy' (kept ++ [e]) stale
      end
  end.

Definition th_compact_if_stale (c : cells) (t : TimerHeap) : TimerHeap :=
  let tick := u32_succ (th_compact_tick t) in
  if decide ((tick < 64)%Z ∨ th_size t ≤ 128)
  then {| th_heap := th_heap t; th_compact_tick := tick |}
  else
    let '(kept, stale) := th_collect (th_size t) c (th_heap t) [] 0 in
    if decide (th_size t < stale * 2)
    then foldl (λ t e, th_push e t) {| th_heap := []; th_compact_tick := 0 |} kept
    else {| th_heap := th_heap t; th_compact_tick := 0 |}.

(** First loop of [drain]: drop stale entries from the top, due or not. *)
Fixpoint th_drop_stale (fuel : nat) (c : cells) (h : list TimerEntry) : list TimerEntry :=
  match fuel with
  | 0 => h
  | S fuel' =>
      match ms_pop h with
      | Some (e, h') => if te_stale c e then th_drop_stale fuel' c h' else h
      | None => h
      end
  end.

(** Body of the second loop: stale entries are dropped, the others commit
    their outcome; the entry is appended when nobody had decided before. *)
Definition th_fire (c : cells) (e : TimerEntry) (expired : list ReadyEntry)
    : cells * list ReadyEntry :=
  if te_stale c e then (c, expired)
  else match te_outcome e with
  | Some o =>
      let '(won, c') := int_cas o 0 (te_expire_value e) c in
      if won then (c', expired ++ [te_entry e]) else (c', expired)
  | None => (c, expired ++ [te_entry e])
  end.

Fixpoint th_drain_due (fuel : nat) (now : Z) (c : cells) (h : list TimerEntry)
    (expired : list ReadyEntry) : cells * list TimerEntry * list ReadyEntry :=
  match fuel with
  | 0 => (c, h, expired)
  | S fuel' =>
      match ms_pop h with
      | Some (e, h') =>
          if te_due now e then
            let '(c', expired') := th_fire c e expired in
            th_drain_due fuel' now c' h' expired'
          else (c, h, expired)
      | None => (c, h, expired)
      end
  end.

(** [TimerHeap::drain]. *)
Definition th_drain (now : Z) (c : cells) (t : TimerHeap) (expired : list ReadyEntry)
    : cells * TimerHeap * list ReadyEntry :=
  let t := th_compact_if_stale c t in
  let h := th_drop_stale (th_size t) c (th_heap t) in
  let '(c', h', expired') := th_drain_due (length h) now c h expired in
  (c', {| th_heap := h'; th_compact_tick := th_compact_tick t |}, expired').
End heap.

(** A concrete priority queue: among equal deadlines, the earliest in the list. *)
Fixpoint first_min (l : list TimerEntry) : option (TimerEntry * list TimerEntry) :=
  match l with
  | [] => None
  | x :: l' =>
      match first_min l' with
      | None => Some (x, [])
      | Some (m, r) =>
          if (te_deadline x <=? te_deadline m)%Z then Some (x, l') else Some (m, x :: r)
      end
  end.

Lemma first_min_spec l e l' :
  first_min l = Some (e, l') → l ≡ₚ e :: l' ∧ Forall (te_before e) l'.
Proof.
  revert e l'. induction l as [|x l IH]; intros e l'; simpl; [done|].
  destruct (first_min l) as [[m r]|] eqn:Hm.
  - destruct (IH m r eq_refl) as [Hp Hf].
    destruct (Z.leb_spec (te_deadline x) (te_deadline m)); intros [= <- <-].
    + split; [done|]. rewrite Hp. constructor; [done|].
      eapply Forall_impl; [done|]. unfold te_before; simpl; intros; lia.
    + split; [by rewrite Hp; constructor|].
      constructor; [unfold te_before; lia | done].
  - intros [= <- <-]. destruct l as [|y l]; [by split|].
    simpl in Hm. destruct (first_min l) as [[? ?]|]; [|done].
    by destruct (_ <=? _)%Z.
Qed.

#[export] Program Instance first_min_select : MinSelect := {| ms_pop := first_min |}.
Next Obligation.
  intros [|x l] Hl; simpl in *; [done|].
  destruct (first_min l) as [[? ?]|]; [|done]. by destruct (_ <=? _)%Z.
Qed.
Next Obligation. done. Qed.
Next Obligation. intros. by apply first_min_spec. Qed.
Next Obligation. intros l e l' Hl. by apply first_min_spec in Hl as [_ ?]. Qed.

(** ** Specification of [drain]

    The reference: the live entries that are due, in deadline order, each
    committing its outcome in turn. *)

Definition fire_all (c : cells) (es : list TimerEntry) (expired : list ReadyEntry)
    : cells * list ReadyEntry :=
  foldl (λ p e, th_fire p.1 e p.2) (c, expired) es.

Definition te_live (c : cells) (e : TimerEntry) : Prop := te_stale c e = false.

Definition te_live_due (c : cells) (now : Z) (e : TimerEntry) : Prop :=
  te_stale c e = false ∧ te_due now e = true.
Definition te_live_pending (c : cells) (now : Z) (e : TimerEntry) : Prop :=
  te_stale c e = false ∧ te_due now e = false.

#[export] Instance te_live_dec c e : Decision (te_live c e).
Proof. unfold te_live. apply _. Defined.
#[export] Instance te_live_due_dec c now e : Decision (te_live_due c now e).
Proof. unfold te_live_due. apply _. Defined.
#[export] Instance te_live_pending_dec c now e : Decision (te_live_pending c now e).
Proof. unfold te_live_pending. apply _. Defined.

Lemma te_stale_fire c e x ex : te_stale (th_fire c e ex).1 x = te_stale c x.
Proof.
  unfold th_fire. destruct (te_stale c e); [done|].
  destruct (te_outcome e) as [o|]; [|done].
  destruct (int_cas o 0 (te_expire_value e) c) as [won c'] eqn:Hcas.
  assert (c' = (int_cas o 0 (te_expire_value e) c).2) as -> by by rewrite Hcas.
  destruct won; simpl; unfold te_stale; destruct (te_token x); auto using int_cas_flags.
Qed.

Lemma th_fire_stale c e ex : te_stale c e = true → th_fire c e ex = (c, ex).
Proof. unfold th_fire. by intros ->. Qed.

Lemma th_fire_int_stable c e ex o :
  int_load c o ≠ 0%Z → int_load (th_fire c e ex).1 o = int_load c o.
Proof.
  intros Ho. unfold th_fire. destruct (te_stale c e); [done|].
  destruct (te_outcome e) as [o'|]; [|done].
  unfold int_cas. case_decide as Hd; simpl; [|done].
  rewrite int_load_store_ne; [done|]. intros ->. done.
Qed.

Lemma fire_all_int_stable es c ex o :
  int_load c o ≠ 0%Z → int_load (fire_all c es ex).1 o = int_load c o.
Proof.
  unfold fire_all. revert c ex. induction es as [|e es IH]; intros c ex Ho; simpl; [done|].
  destruct (th_fire c e ex) as [c1 ex1] eqn:Hf.
  pose proof (th_fire_int_stable c e ex o Ho) as H. rewrite Hf in H. simpl in H.
  rewrite IH; congruence.
Qed.

Lemma te_stale_fire_all c es ex x : te_stale (fire_all c es ex).1 x = te_stale c x.
Proof.
  unfold fire_all. revert c ex. induction es as [|e es IH]; intros c ex; simpl; [done|].
  pose proof (te_stale_fire c e x ex) as H. destruct (th_fire c e ex) as [c1 ex1].
  by rewrite IH.
Qed.

Section drain.
Context `{MinSelect}.

Lemma ms_pop_length l e l' : ms_pop l = Some (e, l') → length l = S (length l').
Proof. intros Hp%ms_pop_perm. by rewrite Hp. Qed.

(** [h'] is [h] without some stale entries. *)
Definition sheds (c : cells) (h h' : list TimerEntry) : Prop :=
  ∃ dropped, h ≡ₚ dropped ++ h' ∧ Forall (λ e, te_stale c e = true) dropped.

Lemma sheds_refl c h h' : h ≡ₚ h' → sheds c h h'.
Proof. by exists []. Qed.

Lemma sheds_trans c h1 h2 h3 : sheds c h1 h2 → sheds c h2 h3 → sheds c h1 h3.
Proof.
  intros (d1 & H1 & Hd1) (d2 & H2 & Hd2). exists (d1 ++ d2).
  rewrite Forall_app. split; [|done]. by rewrite H1, H2, (assoc_L (++)).
Qed.

Lemma sheds_filter c h h' P `{∀ x, Decision (P x)} :
  (∀ e, P e → te_stale c e = false) → sheds c h h' → filter P h ≡ₚ filter P h'.
Proof.
  intros HP (d & Hh & Hd). rewrite Hh, filter_app.
  rewrite filter_impl_nil; [done|].
  eapply Forall_impl; [exact Hd|]. intros e He HPe. apply HP in HPe. simpl in He. congruence.
Qed.

Lemma th_collect_spec fuel c copy kept stale kept' stale' :
  length copy ≤ fuel →
  th_collect fuel c copy kept stale = (kept', stale') →
  ∃ live, kept' = kept ++ live ∧ sheds c copy live ∧ Forall (te_live c) live ∧
          stale' + length live = stale + length copy.
Proof.
  revert copy kept stale. induction fuel as [|fuel IH]; intros copy kept stale Hlen; simpl.
  { intros [= <- <-]. exists []. destruct copy; [|simpl in *; lia].
    rewrite app_nil_r. split_and!; [done|by apply sheds_refl|done|simpl; lia]. }
  destruct (ms_pop copy) as [[e copy']|] eqn:Hp; last first.
  { apply ms_pop_none in Hp as ->. intros [= <- <-]. exists [].
    rewrite app_nil_r. split_and!; [done|by apply sheds_refl|done|simpl; lia]. }
  pose proof (ms_pop_length _ _ _ Hp) as Hl. apply ms_pop_perm in Hp.
  destruct (te_stale c e) eqn:Hs; intros Hc; apply IH in Hc as (live & -> & Hsh & Hlive & Hn); try lia.
  - exists live. split_and!; [done| |done|lia].
    eapply (sheds_trans _ _ copy'); [|done]. exists [e]. split; [done|by constructor].
  - exists (e :: live). rewrite <- (assoc_L (++)). split_and!; [done| |by constructor|simpl; lia].
    destruct Hsh as (d & Hd & Hf). exists d. split; [|done].
    rewrite Hp, Hd. by rewrite Permutation_middle.
Qed.

Lemma foldl_push_heap l t : th_heap (foldl (λ t e, th_push e t) t l) ≡ₚ th_heap t ++ l.
Proof.
  revert t. induction l as [|e l IH]; intros t; simpl; [by rewrite app_nil_r|].
  rewrite IH; simpl. by rewrite Permutation_middle.
Qed.

Lemma th_compact_sheds c t : sheds c (th_heap t) (th_heap (th_compact_if_stale c t)).
Proof.
  unfold th_compact_if_stale. case_decide; [by apply sheds_refl|].
  destruct (th_collect _ _ _ _ _) as [kept stale] eqn:Hc.
  apply th_collect_spec in Hc as (live & -> & Hsh & _); [|done].
  case_decide; [|by apply sheds_refl].
  eapply sheds_trans; [exact Hsh|]. apply sheds_refl. by rewrite foldl_push_heap.
Qed.

Lemma th_drop_stale_sheds fuel c h : sheds c h (th_drop_stale fuel c h).
Proof.
  revert h. induction fuel as [|fuel IH]; intros h; simpl; [by apply sheds_refl|].
  destruct (ms_pop h) as [[e h']|] eqn:Hp; [|by apply sheds_refl].
  destruct (te_stale c e) eqn:Hs; [|by apply sheds_refl].
  eapply (sheds_trans _ _ h'); [|apply IH]. exists [e].
  split; [by apply ms_pop_perm in Hp | by constructor].
Qed.

(** The second loop processes exactly the due entries, in deadline order. *)
Lemma th_drain_due_spec fuel now c h ex c' h' ex' :
  length h ≤ fuel →
  th_drain_due fuel now c h ex = (c', h', ex') →
  ∃ due, StronglySorted te_before due ∧ h ≡ₚ due ++ h' ∧
         Forall (λ e, te_due now e = true) due ∧ Forall (λ e, te_due now e = false) h' ∧
         fire_all c due ex = (c', ex').
Proof.
  revert c h ex. induction fuel as [|fuel IH]; intros c h ex Hlen; simpl.
  { destruct h; [|simpl in *; lia]. intros [= <- <- <-]. exists []. repeat split; constructor. }
  destruct (ms_pop h) as [[e h1]|] eqn:Hp; last first.
  { apply ms_pop_none in Hp as ->. intros [= <- <- <-]. exists []. repeat split; constructor. }
  pose proof (ms_pop_length _ _ _ Hp). pose proof (ms_pop_min _ _ _ Hp) as Hmin.
  apply ms_pop_perm in Hp.
  destruct (te_due now e) eqn:Hd.
  - destruct (th_fire c e ex) as [c1 ex1] eqn:Hf. intros Hr.
    apply IH in Hr as (due & Hs & Hperm & Hdue & Hnd & Hfire); [|lia].
    exists (e :: due). split_and!; [|by rewrite Hp, Hperm|by constructor|done|].
    + constructor; [done|]. rewrite Hperm in Hmin. by apply Forall_app in Hmin as [? _].
    + unfold fire_all in *; simpl. by rewrite Hf.
  - intros [= <- <- <-]. exists []. split_and!; [constructor|done|constructor| |done].
    rewrite Hp. constructor; [done|]. eapply Forall_impl; [exact Hmin|].
    unfold te_before, te_due in *. intros x Hx.
    apply Z.leb_gt in Hd. apply Z.leb_gt. simpl in Hx. lia.
Qed.

(** Stale entries among the due ones have no effect. *)
Lemma fire_all_live c es ex : fire_all c es ex = fire_all c (filter (te_live c) es) ex.
Proof.
  unfold fire_all. revert c ex. induction es as [|e es IH]; intros c ex; simpl; [done|].
  rewrite filter_cons. case_decide as Hd; simpl.
  - destruct (th_fire c e ex) as [c1 ex1] eqn:Hf. rewrite IH. f_equal.
    apply list_filter_iff. intros x. unfold te_live.
    pose proof (te_stale_fire c e x ex) as Hx. rewrite Hf in Hx. simpl in Hx. by rewrite Hx.
  - unfold te_live in Hd. apply not_false_is_true in Hd.
    by rewrite (th_fire_stale c e ex Hd), IH.
Qed.

Lemma th_drain_fires now c t ex c' t' ex' :
  th_drain now c t ex = (c', t', ex') → ∃ due, fire_all c due ex = (c', ex').
Proof.
  unfold th_drain. destruct (th_drain_due _ _ _ _ _) as [[c2 h2] ex2] eqn:Hd.
  intros [= <- <- <-]. apply th_drain_due_spec in Hd as (due & _ & _ & _ & _ & Hf); [|done].
  by exists due.
Qed.
End drain.

(** What a drain takes and what it leaves. *)
Lemma th_drain_takes `{MinSelect} now c t ex c' t' ex' :
  th_drain now c t ex = (c', t', ex') →
  (∃ due, StronglySorted te_before due ∧
          due ≡ₚ filter (te_live_due c now) (th_heap t) ∧
          fire_all c due ex = (c', ex')) ∧
  filter (te_live c) (th_heap t') ≡ₚ filter (te_live_pending c now) (th_heap t) ∧
  Forall (λ e, te_due now e = false ∧ e ∈ th_heap t) (th_heap t').
Proof.
  unfold th_drain. set (t1 := th_compact_if_stale c t).
  set (h1 := th_drop_stale _ c _).
  destruct (th_drain_due _ now c h1 ex) as [[c2 h2] ex2] eqn:Hd. intros [= <- <- <-].
  apply th_drain_due_spec in Hd as (due & Hs & Hperm & Hdue & Hnd & Hfire); [|done].
  assert (sheds c (th_heap t) h1) as Hsh.
  { eapply sheds_trans; [apply th_compact_sheds | apply th_drop_stale_sheds]. }
  assert (∀ P `{∀ x, Decision (P x)}, (∀ e, P e → te_stale c e = false) →
    filter P (th_heap t) ≡ₚ filter P due ++ filter P h2) as Hfil.
  { intros P ? HP. by rewrite (sheds_filter _ _ _ P HP Hsh), Hperm, filter_app. }
  split_and!; simpl.
  - exists (filter (te_live c) due). split_and!; [by apply sorted_filter| |by rewrite <- fire_all_live].
    rewrite (Hfil (te_live_due c now)) by (by intros e []).
    rewrite (filter_impl_nil _ h2), app_nil_r.
    + apply Permutation_refl', list_filter_iff_Forall.
      eapply Forall_impl; [exact Hdue|]. unfold te_live, te_live_due. intros e ->. naive_solver.
    + eapply Forall_impl; [exact Hnd|]. intros e He [_ ?]. simpl in He. congruence.
  - rewrite (Hfil (te_live_pending c now)) by (by intros e []).
    rewrite (filter_impl_nil _ due), (app_nil_l (filter _ h2)).
    + apply Permutation_refl', list_filter_iff_Forall.
      eapply Forall_impl; [exact Hnd|]. intros e He. simpl in He.
      unfold te_live, te_live_pending. naive_solver.
    + eapply Forall_impl; [exact Hdue|]. intros e He [_ ?]. simpl in He. congruence.
  - rewrite Forall_forall in *. intros e He. split; [auto|].
    destruct Hsh as (d & Hh & _). rewrite Hh, Hperm. set_solver.
Qed.

(** C3 [drain] meets its specification, for any priority queue: the entries it
    fires are exactly the due entries whose token is not set, taken in deadline
    order, each one committing its outcome; the live entries that are not due
    stay in the heap, nothing due stays, and nothing is added. *)
Theorem th_drain_spec `{MinSelect} now c t ex c' t' ex' :
  th_drain now c t ex = (c', t', ex') →
  (∃ due, StronglySorted te_before due ∧
          due ≡ₚ filter (te_live_due c now) (th_heap t) ∧
          fire_all c due ex = (c', ex')) ∧
  filter (te_live c) (th_heap t') ≡ₚ filter (te_live_pending c now) (th_heap t) ∧
  Forall (λ e, te_due now e = false ∧ e ∈ th_heap t) (th_heap t').
Proof. apply th_drain_takes. Qed.

(** Scenario: a stale entry, a due entry whose outcome is already decided, a due
    entry that commits, and one for later. *)
Definition ex_cells : cells := {| c_flags := {[ 1 := true ]}; c_ints := {[ 2 := 7%Z ]} |}.
Definition ex_heap : TimerHeap :=
  let e d h tok out := mkTimerEntry d (mkReadyEntry h 1) tok out 5 in
  foldr th_push th_init
    [e 30%Z 13 None (Some 4); e 10%Z 10 (Some 1) None; e 9%Z 11 None (Some 2); e 50%Z 12 None None].

Lemma th_drain_spec_witness :
  ∃ c' t' ex', th_drain 40 ex_cells ex_heap [] = (c', t', ex') ∧
  ex' = [mkReadyEntry 13 1] ∧ int_load c' 4 = 5%Z ∧ int_load c' 2 = 7%Z ∧
  Forall (λ e, te_due 40 e = false ∧ e ∈ th_heap ex_heap) (th_heap t').
Proof.
  destruct (th_drain 40 ex_cells ex_heap []) as [[c' t'] ex'] eqn:Hd.
  exists c', t', ex'. pose proof (th_drain_spec 40 _ _ _ _ _ _ Hd) as (_ & _ & H).
  vm_compute in Hd. injection Hd as Hc Ht Hx.
  split_and!; [done|by subst|by subst|by subst|exact H].
Defined.

(** An outcome that is already decided (a cancellation that was committed
    first, or another timer) is never overwritten by a drain. *)
Theorem th_drain_outcome_stable `{MinSelect} now c t ex c' t' ex' o :
  th_drain now c t ex = (c', t', ex') →
  int_load c o ≠ 0%Z → int_load c' o = int_load c o.
Proof.
  intros Hd Ho. apply th_drain_fires in Hd as (due & Hf).
  pose proof (fire_all_int_stable due c ex o Ho) as H1. by rewrite Hf in H1.
Qed.

Lemma th_drain_outcome_stable_witness :
  ∃ c' t' ex', th_drain 40 ex_cells ex_heap [] = (c', t', ex') ∧
  int_load ex_cells 2 ≠ 0%Z ∧ int_load c' 2 = int_load ex_cells 2.
Proof.
  destruct (th_drain 40 ex_cells ex_heap []) as [[c' t'] ex'] eqn:Hd.
  exists c', t', ex'. split_and!; [done|by vm_compute|].
  by apply (th_drain_outcome_stable 40 _ _ _ _ _ _ 2 Hd).
Defined.
