(* ===== verification/Frames.v ===== *)
(** * Frames: the registry of live coroutine frames ([coro::detail::FrameTracker])

    [src/include/coro/event_loop.hpp].  Each live frame has a generation (guards
    against address reuse), the [scheduled] flag (de-duplicates enqueueing) and
    the epoch of its current wait (guards against late notifications).  Counters
    are [uint64_t]; an atomic exchange or compare-exchange is one step, all the
    methods run under the loop's [queue_mutex_]. *)

From S2P Require Import Prelude ReadyQueue.
From stdpp Require Import options.

(** ** Data *)

(** [struct FrameState]. *)
Record FrameState : Type := mkFrameState {
  fs_generation : Z;
  fs_scheduled : bool;
  fs_wait_epoch : Z;
}.

#[export] Instance FrameState_eq_dec : EqDecision FrameState.
Proof. solve_decision. Defined.

(** [explicit FrameState(uint64_t gen)]. *)
Definition fs_new (gen : Z) : FrameState :=
  {| fs_generation := gen; fs_scheduled := false; fs_wait_epoch := 0 |}.

Definition fs_set_scheduled (b : bool) (s : FrameState) : FrameState :=
  {| fs_generation := fs_generation s; fs_scheduled := b; fs_wait_epoch := fs_wait_epoch s |}.
Definition fs_set_epoch (e : Z) (s : FrameState) : FrameState :=
  {| fs_generation := fs_generation s; fs_scheduled := fs_scheduled s; fs_wait_epoch := e |}.

(** [class FrameTracker]. *)
Record FrameTracker : Type := mkFrameTracker {
  ft_live : gmap handle FrameState;
  ft_next_generation : Z;
  ft_next_wait_epoch : Z;
  ft_abandoned : gset handle;
}.

Definition ft_init : FrameTracker :=
  {| ft_live := ∅; ft_next_generation := 0; ft_next_wait_epoch := 0; ft_abandoned := ∅ |}.

Definition ft_set_live (m : gmap handle FrameState) (f : FrameTracker) : FrameTracker :=
  {| ft_live := m; ft_next_generation := ft_next_generation f;
     ft_next_wait_epoch := ft_next_wait_epoch f; ft_abandoned := ft_abandoned f |}.
Definition ft_set_abandoned (a : gset handle) (f : FrameTracker) : FrameTracker :=
  {| ft_live := ft_live f; ft_next_generation := ft_next_generation f;
     ft_next_wait_epoch := ft_next_wait_epoch f; ft_abandoned := a |}.

(** ** Operations *)

Definition ft_add (h : handle) (f : FrameTracker) : Z * FrameTracker :=
  let generation := u64_succ (ft_next_generation f) in
  (generation,
   {| (* [try_emplace] keeps an existing entry *)
      ft_live := match ft_live f !! h with
                 | Some _ => ft_live f
                 | None => <[h := fs_new generation]> (ft_live f)
                 end;
      ft_next_generation := generation;
      ft_next_wait_epoch := ft_next_wait_epoch f;
      ft_abandoned := ft_abandoned f |}).

Definition ft_remove (h : handle) (f : FrameTracker) : FrameTracker :=
  ft_set_live (delete h (ft_live f)) f.

(** [scheduled.exchange(true)] on a frame that is live. *)
Definition ft_exchange (h : handle) (s : FrameState) (f : FrameTracker) : bool * FrameTracker :=
  (fs_scheduled s, ft_set_live (<[h := fs_set_scheduled true s]> (ft_live f)) f).

(** [bool try_reserve(handle, ReadyEntry&)]. *)
Definition ft_try_reserve (h : handle) (f : FrameTracker) : option ReadyEntry * FrameTracker :=
  match ft_live f !! h with
  | None => (None, f)
  | Some s =>
      let '(was, f') := ft_exchange h s f in
      if was then (None, f') else (Some (mkReadyEntry h (fs_generation s)), f')
  end.

Definition ft_generation_of (h : handle) (f : FrameTracker) : option Z :=
  fs_generation <$> ft_live f !! h.

(** [bool try_reserve(ReadyEntry candidate)]: the timer path, with its generation. *)
Definition ft_try_reserve_entry (c : ReadyEntry) (f : FrameTracker) : bool * FrameTracker :=
  match ft_live f !! re_handle c with
  | None => (false, f)
  | Some s =>
      if decide (fs_generation s ≠ re_generation c) then (false, f)
      else
        let '(was, f') := ft_exchange (re_handle c) s f in
        (negb was, f')
  end.

Definition ft_release (c : ReadyEntry) (f : FrameTracker) : bool * FrameTracker :=
  match ft_live f !! re_handle c with
  | None => (false, f)
  | Some s =>
      if decide (fs_generation s ≠ re_generation c) then (false, f)
      else (true, ft_set_live (<[re_handle c := fs_set_scheduled false s]> (ft_live f)) f)
  end.

Definition ft_begin_wait (h : handle) (f : FrameTracker) : Z * FrameTracker :=
  let epoch := u64_succ (ft_next_wait_epoch f) in
  let f' := {| ft_live := ft_live f; ft_next_generation := ft_next_generation f;
               ft_next_wait_epoch := epoch; ft_abandoned := ft_abandoned f |} in
  if decide (h = null_handle) then (epoch, f')
  else match ft_live f !! h with
  | None => (epoch, f')
  | Some s => (epoch, ft_set_live (<[h := fs_set_epoch epoch s]> (ft_live f)) f')
  end.

Definition ft_try_reserve_if_current (h : handle) (epoch : Z) (f : FrameTracker)
    : option ReadyEntry * FrameTracker :=
  match ft_live f !! h with
  | None => (None, f)
  | Some s =>
      if decide (fs_wait_epoch s ≠ epoch) then (None, f)
      else
        let '(was, f') := ft_exchange h s f in
        if was then (None, f') else (Some (mkReadyEntry h (fs_generation s)), f')
  end.

Definition ft_end_wait (h : handle) (epoch : Z) (f : FrameTracker) : FrameTracker :=
  match ft_live f !! h with
  | None => f
  | Some s =>
      if decide (fs_wait_epoch s = epoch)
      then ft_set_live (<[h := fs_set_epoch 0 s]> (ft_live f)) f
      else f
  end.

Definition ft_wait_is_current (h : handle) (epoch : Z) (f : FrameTracker) : bool :=
  match ft_live f !! h with
  | None => false
  | Some s => bool_decide (fs_wait_epoch s = epoch)
  end.

Definition ft_mark_abandoned (h : handle) (f : FrameTracker) : bool * FrameTracker :=
  match ft_live f !! h with
  | None => (false, f)
  | Some s =>
      if fs_scheduled s then (true, ft_set_abandoned ({[h]} ∪ ft_abandoned f) f)
      else (false, f)
  end.

Definition ft_mark_io_abandoned (h : handle) (f : FrameTracker) : FrameTracker :=
  ft_set_abandoned ({[h]} ∪ ft_abandoned f) f.
Definition ft_is_abandoned (h : handle) (f : FrameTracker) : bool :=
  bool_decide (h ∈ ft_abandoned f).

(** [cleanup_abandoned] without [h.destroy()], which the caller performs. *)
Definition ft_forget_abandoned (h : handle) (f : FrameTracker) : FrameTracker :=
  ft_set_abandoned (ft_abandoned f ∖ {[h]}) f.

(** ** Invariant: the counters bound what was handed out

    The generations and epochs of live frames were issued before, generations are
    positive, and the counters have not wrapped. *)
Definition ft_wf (f : FrameTracker) : Prop :=
  (0 ≤ ft_next_generation f)%Z ∧ (0 ≤ ft_next_wait_epoch f)%Z ∧
  map_Forall (λ _ s, (0 < fs_generation s ≤ ft_next_generation f)%Z ∧
                     (0 ≤ fs_wait_epoch s ≤ ft_next_wait_epoch f)%Z) (ft_live f).

(** Room left in the 64-bit counters. *)
Definition ft_room (f : FrameTracker) : Prop :=
  (ft_next_generation f < u64_modulus - 1)%Z ∧ (ft_next_wait_epoch f < u64_modulus - 1)%Z.

Lemma ft_init_wf : ft_wf ft_init.
Proof. split_and!; [done|done|apply map_Forall_empty]. Qed.

Lemma ft_wf_insert f h s :
  ft_wf f → (0 < fs_generation s ≤ ft_next_generation f)%Z →
  (0 ≤ fs_wait_epoch s ≤ ft_next_wait_epoch f)%Z →
  ft_wf (ft_set_live (<[h := s]> (ft_live f)) f).
Proof. intros (?&?&?) ? ?. split_and!; [done|done|]. by apply map_Forall_insert_2. Qed.

Lemma ft_wf_lookup f h s : ft_wf f → ft_live f !! h = Some s →
  (0 < fs_generation s ≤ ft_next_generation f)%Z ∧ (0 ≤ fs_wait_epoch s ≤ ft_next_wait_epoch f)%Z.
Proof. intros (_&_&Hf) Hs. exact (Hf h s Hs). Qed.

Lemma ft_add_wf h f : ft_room f → ft_wf f → ft_wf (ft_add h f).2.
Proof.
  intros [Hr _] (Hg & He & Hf). unfold ft_add, ft_wf; simpl.
  rewrite u64_succ_small by lia. split_and!; [lia|lia|].
  assert (map_Forall (λ _ s, (0 < fs_generation s ≤ ft_next_generation f + 1)%Z ∧
    (0 ≤ fs_wait_epoch s ≤ ft_next_wait_epoch f)%Z) (ft_live f)).
  { eapply map_Forall_impl; [exact Hf|]. simpl; intros; lia. }
  destruct (ft_live f !! h); [done|]. apply map_Forall_insert_2; [simpl; lia|done].
Qed.

Lemma ft_remove_wf h f : ft_wf f → ft_wf (ft_remove h f).
Proof. intros (?&?&?). split_and!; [done|done|]. by apply map_Forall_delete. Qed.

Lemma ft_exchange_wf h s f :
  ft_wf f → ft_live f !! h = Some s → ft_wf (ft_exchange h s f).2.
Proof. intros Hwf Hs. destruct (ft_wf_lookup f h s Hwf Hs). by apply ft_wf_insert. Qed.

Lemma ft_begin_wait_wf h f : ft_room f → ft_wf f → ft_wf (ft_begin_wait h f).2.
Proof.
  intros [_ Hr] Hwf. pose proof Hwf as (Hg & He & Hf).
  unfold ft_begin_wait; simpl. rewrite u64_succ_small by lia.
  set (f' := mkFrameTracker _ _ _ _).
  assert (ft_wf f') as Hwf'.
  { split_and!; simpl; [lia|lia|]. eapply map_Forall_impl; [exact Hf|]. simpl; intros; lia. }
  case_decide; [done|]. destruct (ft_live f !! h) as [s|] eqn:Hs; [|done].
  destruct (ft_wf_lookup f h s Hwf Hs). apply (ft_wf_insert f'); simpl; [done|lia|lia].
Qed.

Lemma ft_end_wait_wf h e f : ft_wf f → ft_wf (ft_end_wait h e f).
Proof.
  intros Hwf. unfold ft_end_wait. destruct (ft_live f !! h) as [s|] eqn:Hs; [|done].
  case_decide; [|done]. destruct (ft_wf_lookup f h s Hwf Hs).
  apply ft_wf_insert; simpl; [done|lia|]. destruct Hwf as (?&?&?). lia.
Qed.

(** A new wait gets an epoch no frame has ever had: every earlier epoch of every
    frame is different from it. *)
Lemma ft_begin_wait_fresh h f h' s :
  ft_room f → ft_wf f → ft_live f !! h' = Some s →
  (fs_wait_epoch s < (ft_begin_wait h f).1)%Z.
Proof.
  intros [_ Hr] Hwf Hs. destruct (ft_wf_lookup f h' s Hwf Hs).
  unfold ft_begin_wait. pose proof Hwf as (_&?&_).
  rewrite u64_succ_small by lia. repeat case_match; simpl; lia.
Qed.

Lemma ft_begin_wait_current h f s :
  h ≠ null_handle → ft_live f !! h = Some s →
  ft_wait_is_current h (ft_begin_wait h f).1 (ft_begin_wait h f).2 = true.
Proof.
  intros Hh Hs. unfold ft_begin_wait. rewrite decide_False, Hs by done. simpl.
  unfold ft_wait_is_current; simpl. rewrite lookup_insert_eq. by apply bool_decide_eq_true.
Qed.

#[export] Hint Resolve ft_init_wf ft_add_wf ft_remove_wf ft_begin_wait_wf ft_end_wait_wf : coro.
