(* ===== verification/EventLoop.v ===== *)
(** * EventLoop: one event loop ([coro::EventLoop])

    [src/include/coro/event_loop.hpp] and [event_source.hpp].  The state is the
    record [EventLoop]; every method that runs under [queue_mutex_] is a function
    on it, so an interleaving of threads is a sequence of these functions.
    [run_impl] is the function [el_run_impl]: the coroutines it resumes, the
    functions it calls, the clock and what the other threads do while it blocks
    are arguments. *)

From S2P Require Import Prelude ReadyQueue Timers Frames.
From stdpp Require Import options.

(** ** Event sources *)

(** The virtual interface [EventSource]: [es_waited] is the source after
    [wait_for] returned. *)
Class EventSource (E : Type) : Type := {
  es_set_handler : loop_id → E → E;
  es_waited : E → E;
  es_wake : E → E;
  es_has_pending : E → bool;
}.

(** [class CVEventSource]: [woken_] and the base class's completion context. *)
Record CVEventSource : Type := mkCV {
  cv_woken : bool;
  cv_ctx : option loop_id;
}.

Definition cv_init : CVEventSource := {| cv_woken := false; cv_ctx := None |}.

(** [wait_for(timeout)] returns once the predicate holds or the time is over... *)
Definition cv_wait_returns (elapsed timeout : Z) (s : CVEventSource) : bool :=
  cv_woken s || (timeout <=? elapsed)%Z.
(** ... and consumes the flag. *)
Definition cv_wait_for (s : CVEventSource) : CVEventSource :=
  {| cv_woken := false; cv_ctx := cv_ctx s |}.
Definition cv_wake (s : CVEventSource) : CVEventSource :=
  {| cv_woken := true; cv_ctx := cv_ctx s |}.
Definition cv_set_completion_handler (l : loop_id) (s : CVEventSource) : CVEventSource :=
  {| cv_woken := cv_woken s; cv_ctx := Some l |}.

#[export] Instance cv_event_source : EventSource CVEventSource := {|
  es_set_handler := cv_set_completion_handler;
  es_waited := cv_wait_for;
  es_wake := cv_wake;
  es_has_pending := λ _, false;
|}.

(** ** State *)

(** A [std::function<void()>] handed to [dispatch], by identity. *)
Abbreviation fn_id := nat.

Record EventLoop (E : Type) : Type := mkEventLoop {
  el_ready : ReadyQueue;
  el_batch : ReadyQueue;
  el_frames : FrameTracker;
  el_timers : TimerHeap;
  el_fn_queue : list fn_id;
  el_fn_batch : list fn_id;
  el_running : bool;
  el_active : Z;
  el_awake : bool;
  el_has_pending_fn : bool;
  el_source : E;
  el_source_epoch : Z;
}.
Arguments mkEventLoop {E}.
Arguments el_ready {E}. Arguments el_batch {E}. Arguments el_frames {E}.
Arguments el_timers {E}. Arguments el_fn_queue {E}. Arguments el_fn_batch {E}.
Arguments el_running {E}. Arguments el_active {E}. Arguments el_awake {E}.
Arguments el_has_pending_fn {E}. Arguments el_source {E}. Arguments el_source_epoch {E}.

(** Field updates. *)
Section setters.
Context {E : Type}.
Implicit Types l : EventLoop E.

Definition el_set_queues (r b : ReadyQueue) (f : FrameTracker) l : EventLoop E :=
  mkEventLoop r b f (el_timers l) (el_fn_queue l) (el_fn_batch l) (el_running l)
    (el_active l) (el_awake l) (el_has_pending_fn l) (el_source l) (el_source_epoch l).
Definition el_set_frames f l := el_set_queues (el_ready l) (el_batch l) f l.
Definition el_set_timers (t : TimerHeap) l : EventLoop E :=
  mkEventLoop (el_ready l) (el_batch l) (el_frames l) t (el_fn_queue l) (el_fn_batch l)
    (el_running l) (el_active l) (el_awake l) (el_has_pending_fn l) (el_source l) (el_source_epoch l).
Definition el_set_fns (q b : list fn_id) (pending : bool) l : EventLoop E :=
  mkEventLoop (el_ready l) (el_batch l) (el_frames l) (el_timers l) q b
    (el_running l) (el_active l) (el_awake l) pending (el_source l) (el_source_epoch l).
Definition el_set_flags (running awake : bool) l : EventLoop E :=
  mkEventLoop (el_ready l) (el_batch l) (el_frames l) (el_timers l) (el_fn_queue l) (el_fn_batch l)
    running (el_active l) awake (el_has_pending_fn l) (el_source l) (el_source_epoch l).
Definition el_set_awake b l := el_set_flags (el_running l) b l.
Definition el_set_running b l := el_set_flags b (el_awake l) l.
Definition el_set_active (n : Z) l : EventLoop E :=
  mkEventLoop (el_ready l) (el_batch l) (el_frames l) (el_timers l) (el_fn_queue l) (el_fn_batch l)
    (el_running l) n (el_awake l) (el_has_pending_fn l) (el_source l) (el_source_epoch l).
Definition el_set_source (e : E) (n : Z) l : EventLoop E :=
  mkEventLoop (el_ready l) (el_batch l) (el_frames l) (el_timers l) (el_fn_queue l) (el_fn_batch l)
    (el_running l) (el_active l) (el_awake l) (el_has_pending_fn l) e n.
End setters.

(** ** Operations *)

Section operations.
Context {E : Type} `{EventSource E} `{MinSelect}.
Implicit Types l : EventLoop E.

(** Constructor: every member at its default, the handler installed. *)
Definition el_init (self : loop_id) (source : E) : EventLoop E :=
  mkEventLoop rq_init rq_init ft_init th_init [] [] false 0 true false
    (es_set_handler self source) 0.

Definition el_wake l : EventLoop E :=
  el_set_source (es_wake (el_source l)) (el_source_epoch l) l.

Definition el_stop l : EventLoop E := el_wake (el_set_running false l).

(** [same_loop]: the calling thread is bound to this loop. *)
Definition el_cross_thread_wake_if_asleep (same_loop : bool) l : EventLoop E :=
  if negb same_loop && el_running l then
    let was_awake := el_awake l in
    let l := el_set_awake true l in
    if was_awake then l else el_wake l
  else l.

Definition el_swap_event_source (self : loop_id) (src : option E) l : res (E * EventLoop E) :=
  match src with
  | None => Throw InvalidArgument
  | Some src =>
      if el_running l then Throw LogicError
      else if es_has_pending (el_source l) then Throw LogicError
      else Ok (el_source l,
               el_set_source (es_set_handler self src) (u64_succ (el_source_epoch l)) l)
  end.

Definition el_set_event_source (self : loop_id) (src : option E) l : res (EventLoop E) :=
  match src with
  | None => Throw InvalidArgument
  | Some src =>
      match el_swap_event_source self (Some src) l with
      | Ok (_, l') => Ok l'
      | Throw e => Throw e
      end
  end.

Definition el_dispatch (same_loop : bool) (fn : fn_id) l : EventLoop E :=
  el_cross_thread_wake_if_asleep same_loop
    (el_set_fns (el_fn_queue l ++ [fn]) (el_fn_batch l) true l).

(** The tail shared by the enqueueing critical sections: the entry that was
    reserved, if any, is pushed; [false] is the early return. *)
Definition el_push_reserved (r : option ReadyEntry * FrameTracker) l : bool * EventLoop E :=
  match r with
  | (None, f) => (false, el_set_frames f l)
  | (Some entry, f) => (true, el_set_queues (rq_push entry (el_ready l)) (el_batch l) f l)
  end.

(** The critical section of [schedule]. *)
Definition el_schedule_locked (h : handle) l : bool * EventLoop E :=
  el_push_reserved (ft_try_reserve h (el_frames l)) l.

Definition el_schedule (same_loop : bool) (h : handle) l : EventLoop E :=
  if decide (h = null_handle) then l
  else match el_schedule_locked h l with
  | (false, l') => l'
  | (true, l') => el_cross_thread_wake_if_asleep same_loop l'
  end.

Definition el_begin_wait (h : handle) l : Z * EventLoop E :=
  let '(e, f) := ft_begin_wait h (el_frames l) in (e, el_set_frames f l).

Definition el_end_wait (h : handle) (epoch : Z) l : EventLoop E :=
  if decide (h = null_handle ∨ epoch = 0%Z) then l
  else el_set_frames (ft_end_wait h epoch (el_frames l)) l.

Definition el_schedule_if_current (same_loop : bool) (h : handle) (epoch : Z) l
    : bool * EventLoop E :=
  if decide (h = null_handle) then (false, l)
  else match el_push_reserved (ft_try_reserve_if_current h epoch (el_frames l)) l with
  | (false, l') => (false, l')
  | (true, l') => (true, el_cross_thread_wake_if_asleep same_loop l')
  end.

Definition el_is_wait_current (h : handle) (epoch : Z) l : bool :=
  if decide (h = null_handle ∨ epoch = 0%Z) then false
  else ft_wait_is_current h epoch (el_frames l).

Definition el_schedule_timer (h : handle) (deadline : Z) (token outcome : option loc)
    (expire_value : Z) l : EventLoop E :=
  if decide (h = null_handle) then l
  else match ft_generation_of h (el_frames l) with
  | None => l
  | Some g =>
      el_set_timers (th_push (mkTimerEntry deadline (mkReadyEntry h g) token outcome expire_value)
                       (el_timers l)) l
  end.

Definition el_on_coroutine_started (h : handle) l : EventLoop E :=
  el_set_active (u64_succ (el_active l)) (el_set_frames (ft_add h (el_frames l)).2 l).
Definition el_on_coroutine_finished (h : handle) l : EventLoop E :=
  el_set_active (u64_pred (el_active l)) (el_set_frames (ft_remove h (el_frames l)) l).

Definition el_mark_abandoned (h : handle) l : bool * EventLoop E :=
  let '(b, f) := ft_mark_abandoned h (el_frames l) in (b, el_set_frames f l).
Definition el_mark_io_abandoned (h : handle) l : EventLoop E :=
  el_set_frames (ft_mark_io_abandoned h (el_frames l)) l.
Definition el_is_abandoned (h : handle) l : bool := ft_is_abandoned h (el_frames l).

Definition el_has_active_coroutines l : bool := (0 <? el_active l)%Z.

(** Body of the loop of [process_timers] over the expired buffer. *)
Definition el_enqueue_expired (l : EventLoop E) (entry : ReadyEntry) : EventLoop E :=
  let '(won, f) := ft_try_reserve_entry entry (el_frames l) in
  (el_push_reserved (if won then Some entry else None, f) l).2.

Definition el_process_timers (now : Z) (c : cells) l : cells * EventLoop E :=
  let '(c', t, expired) := th_drain now c (el_timers l) [] in
  (c', foldl el_enqueue_expired (el_set_timers t l) expired).

Definition el_has_work l : bool :=
  negb (rq_empty (el_ready l)) || negb (rq_empty (el_batch l)) ||
  negb (bool_decide (el_fn_queue l = [])) || negb (bool_decide (el_fn_batch l = [])) ||
  negb (th_empty (el_timers l)) || es_has_pending (el_source l) ||
  el_has_active_coroutines l.

(** ** The steps of one iteration of [run_impl] *)

(** Step 0, before the calls: take the functions dispatched so far. *)
Definition el_take_fns l : EventLoop E :=
  if bool_decide (el_fn_batch l = []) && el_has_pending_fn l
  then el_set_fns (el_fn_batch l) (el_fn_queue l) false l
  else l.

(** Decision of the second step, once [awake_] is false. *)
Inductive SleepDecision : Type :=
  | StayAwake
  | SleepUntil (ms : Z)
  | TimerDue
  | SleepForever
  | Leave.

Definition ns_per_ms : Z := 1000000.
(** [std::chrono::ceil<std::chrono::milliseconds>]. *)
Definition ceil_ms (d : Z) : Z := (- Z.div (- d) ns_per_ms)%Z.

(** [ready_queue_.empty() && batch_.empty() && fn_queue_.empty()]. *)
Definition el_nothing_ready l : bool :=
  rq_empty (el_ready l) && rq_empty (el_batch l) && bool_decide (el_fn_queue l = []).

Definition el_sleep_decision (stay : bool) (now : Z) l : SleepDecision :=
  if negb (el_nothing_ready l)
  then StayAwake
  else match th_top_deadline (el_timers l) with
  | Some next => if decide (now < next)%Z then SleepUntil (ceil_ms (next - now)) else TimerDue
  | None =>
      if stay || es_has_pending (el_source l) || el_has_active_coroutines l
      then SleepForever else Leave
  end.

(** Third step: take the whole ready queue. *)
Definition el_swap_batch l : EventLoop E :=
  if rq_empty (el_batch l) then
    let '(b, r) := rq_swap (el_batch l) (el_ready l) in el_set_queues r b (el_frames l) l
  else l.

(** One turn of the resuming loop up to the [continue] of a stale generation:
    the entry, and whether it still denotes the frame. *)
Definition el_pop_entry l : option (ReadyEntry * bool * EventLoop E) :=
  match rq_front (el_batch l) with
  | None => None
  | Some entry =>
      let l := el_set_queues (el_ready l) (rq_pop (el_batch l)) (el_frames l) l in
      let '(current, f) := ft_release entry (el_frames l) in
      Some (entry, current, el_set_frames f l)
  end.

(** The branch for an abandoned frame, without [h.destroy()]. *)
Definition el_reap_abandoned (h : handle) l : EventLoop E :=
  let l := el_on_coroutine_finished h l in
  el_set_frames (ft_forget_abandoned h (el_frames l)) l.
End operations.

(** ** The queueing invariant

    [el_pending] is what will be resumed, in order. *)

Section invariant.
Context {E : Type} `{EventSource E} `{MinSelect}.
Implicit Types l : EventLoop E.

Definition el_pending l : list ReadyEntry := rq_model (el_batch l) ++ rq_model (el_ready l).

(** A live frame is marked [scheduled] exactly when its entry is queued, no entry
    is queued twice, and queued generations were issued. *)
Record queued_ok (f : FrameTracker) (pending : list ReadyEntry) : Prop := {
  qo_frames : ft_wf f;
  qo_scheduled : ∀ h s, ft_live f !! h = Some s →
    (fs_scheduled s = true ↔ mkReadyEntry h (fs_generation s) ∈ pending);
  qo_nodup : NoDup pending;
  qo_issued : Forall (λ e, (re_generation e ≤ ft_next_generation f)%Z) pending;
}.

Record el_inv l : Prop := {
  ei_ready : rq_wf (el_ready l);
  ei_batch : rq_wf (el_batch l);
  ei_queued : queued_ok (el_frames l) (el_pending l);
}.

Lemma th_top_deadline_none t : th_top_deadline t = None → th_heap t = [].
Proof. unfold th_top_deadline. intros Ht%fmap_None. by apply ms_pop_none. Qed.

Lemma th_top_deadline_some t d :
  th_top_deadline t = Some d →
  ∃ e, e ∈ th_heap t ∧ te_deadline e = d ∧ Forall (te_before e) (th_heap t).
Proof.
  unfold th_top_deadline. intros ([e r] & Hp & ->)%fmap_Some. exists e. simpl.
  pose proof (ms_pop_min _ _ _ Hp) as Hm. apply ms_pop_perm in Hp. rewrite Hp.
  split_and!; [set_solver|done|]. constructor; [unfold te_before; lia|done].
Qed.

Lemma ceil_ms_bounds d : (0 < d → 0 < ceil_ms d ∧ d ≤ ceil_ms d * ns_per_ms < d + ns_per_ms)%Z.
Proof.
  intros Hd. unfold ceil_ms, ns_per_ms.
  pose proof (Z.div_mod (- d) 1000000 ltac:(lia)). pose proof (Z.mod_pos_bound (- d) 1000000). lia.
Qed.

Lemma queued_ok_perm f p p' : p ≡ₚ p' → queued_ok f p → queued_ok f p'.
Proof.
  intros Hp [Hf Hs Hn Hi]. constructor; [done| |by rewrite <- Hp|by rewrite <- Hp].
  intros h s Hl. rewrite <- Hp. auto.
Qed.

(** A change of the wait epochs only. *)
Lemma queued_ok_epochs f f' p :
  ft_wf f' → ft_next_generation f' = ft_next_generation f →
  (∀ h s', ft_live f' !! h = Some s' → ∃ s, ft_live f !! h = Some s ∧
     fs_generation s' = fs_generation s ∧ fs_scheduled s' = fs_scheduled s) →
  queued_ok f p → queued_ok f' p.
Proof.
  intros Hwf Hg Hl [Hf Hs Hn Hi]. constructor; [done| |done|by rewrite Hg].
  intros h s' Hs'. destruct (Hl h s' Hs') as (s & Hls & -> & ->). auto.
Qed.

(** Reserving an unqueued live frame and pushing its entry. *)
Lemma queued_ok_push f p h s :
  ft_live f !! h = Some s → fs_scheduled s = false → queued_ok f p →
  queued_ok (ft_exchange h s f).2 (p ++ [mkReadyEntry h (fs_generation s)]).
Proof.
  intros Hl Hns [Hf Hs Hn Hi]. pose proof (ft_wf_lookup f h s Hf Hl) as [Hg _].
  constructor; simpl.
  - by apply ft_exchange_wf.
  - intros h' s'. rewrite elem_of_app, list_elem_of_singleton. destruct (decide (h' = h)) as [->|Hne].
    + rewrite lookup_insert_eq. intros [= <-]. simpl. naive_solver.
    + rewrite lookup_insert_ne by done. intros Hl'. rewrite (Hs h' s' Hl'). naive_solver.
  - rewrite NoDup_app. split_and!; [done| |apply NoDup_singleton].
    intros e He ->%list_elem_of_singleton. apply (Hs h s Hl) in He. congruence.
  - rewrite Forall_app, Forall_singleton. simpl. split; [done|lia].
Qed.

(** Exchanging the flag of a frame that was already scheduled changes nothing. *)
Lemma ft_exchange_same f h s :
  ft_live f !! h = Some s → fs_scheduled s = true → (ft_exchange h s f).2 = f.
Proof.
  intros Hl Hs. destruct f as [live g e a], s as [gen sched ep]; simpl in *. subst.
  unfold ft_exchange, ft_set_live; simpl. unfold fs_set_scheduled; simpl. by rewrite insert_id.
Qed.

(** The shape shared by the three reservations. *)
Lemma ft_try_reserve_cases h f r f' :
  ft_try_reserve h f = (r, f') →
  (r = None ∧ f' = f) ∨
  ∃ s, ft_live f !! h = Some s ∧ fs_scheduled s = false ∧
       r = Some (mkReadyEntry h (fs_generation s)) ∧ f' = (ft_exchange h s f).2.
Proof.
  unfold ft_try_reserve. destruct (ft_live f !! h) as [s|] eqn:Hl; [|intros [= <- <-]; by left].
  destruct (fs_scheduled s) eqn:Hs; simpl; rewrite ?Hs; intros [= <- <-].
  - left. split; [done|]. by apply (ft_exchange_same f h s).
  - right. exists s. done.
Qed.

Lemma ft_try_reserve_entry_cases c f b f' :
  ft_try_reserve_entry c f = (b, f') →
  (b = false ∧ f' = f) ∨
  ∃ s, ft_live f !! re_handle c = Some s ∧ fs_scheduled s = false ∧ b = true ∧
       c = mkReadyEntry (re_handle c) (fs_generation s) ∧ f' = (ft_exchange (re_handle c) s f).2.
Proof.
  unfold ft_try_reserve_entry. destruct (ft_live f !! _) as [s|] eqn:Hl; [|intros [= <- <-]; by left].
  case_decide as Hg; [intros [= <- <-]; by left|].
  destruct (fs_scheduled s) eqn:Hs; simpl; rewrite ?Hs; intros [= <- <-].
  - left. split; [done|]. by apply (ft_exchange_same f _ s).
  - right. exists s. rewrite Hg. by destruct c.
Qed.

Lemma ft_try_reserve_if_current_cases h ep f r f' :
  ft_try_reserve_if_current h ep f = (r, f') →
  (r = None ∧ f' = f) ∨
  ∃ s, ft_live f !! h = Some s ∧ fs_scheduled s = false ∧ fs_wait_epoch s = ep ∧
       r = Some (mkReadyEntry h (fs_generation s)) ∧ f' = (ft_exchange h s f).2.
Proof.
  unfold ft_try_reserve_if_current.
  destruct (ft_live f !! h) as [s|] eqn:Hl; [|intros [= <- <-]; by left].
  case_decide as Hg; [intros [= <- <-]; by left|].
  destruct (fs_scheduled s) eqn:Hs; simpl; rewrite ?Hs; intros [= <- <-].
  - left. split; [done|]. by apply (ft_exchange_same f h s).
  - right. exists s. done.
Qed.

Lemma el_push_reserved_inv l h s :
  ft_live (el_frames l) !! h = Some s → fs_scheduled s = false → el_inv l →
  el_inv (el_push_reserved (Some (mkReadyEntry h (fs_generation s)),
                            (ft_exchange h s (el_frames l)).2) l).2.
Proof.
  intros Hl Hs [Hr Hb Hq]. constructor; simpl; [by apply rq_push_wf|done|].
  unfold el_pending; simpl. rewrite rq_model_push, (assoc_L (++)) by done.
  by apply queued_ok_push.
Qed.

Lemma el_set_frames_id l : el_set_frames (el_frames l) l = l.
Proof. by destruct l. Qed.

(** Operations that touch neither queue nor frames keep the invariant. *)
Lemma el_inv_ext l l' :
  el_ready l' = el_ready l → el_batch l' = el_batch l → el_frames l' = el_frames l →
  el_inv l → el_inv l'.
Proof. intros Hr Hb Hf [? ? Hq]. constructor; unfold el_pending in *; by rewrite ?Hr, ?Hb, ?Hf. Qed.

Lemma el_wake_if_asleep_ext same l :
  el_ready (el_cross_thread_wake_if_asleep same l) = el_ready l ∧
  el_batch (el_cross_thread_wake_if_asleep same l) = el_batch l ∧
  el_frames (el_cross_thread_wake_if_asleep same l) = el_frames l.
Proof. unfold el_cross_thread_wake_if_asleep. by destruct (_ && _), (el_awake l). Qed.

Lemma el_wake_if_asleep_inv same l :
  el_inv l → el_inv (el_cross_thread_wake_if_asleep same l).
Proof. pose proof (el_wake_if_asleep_ext same l) as (?&?&?). by apply el_inv_ext. Qed.

Lemma el_wake_if_asleep_pending same l :
  el_pending (el_cross_thread_wake_if_asleep same l) = el_pending l.
Proof. unfold el_pending. by destruct (el_wake_if_asleep_ext same l) as (-> & -> & _). Qed.

Lemma el_schedule_locked_inv h l : el_inv l → el_inv (el_schedule_locked h l).2.
Proof.
  intros Hi. unfold el_schedule_locked.
  destruct (ft_try_reserve h (el_frames l)) as [r f] eqn:Hr.
  apply ft_try_reserve_cases in Hr as [[-> ->]|(s & Hl & Hs & -> & ->)].
  - simpl. by rewrite el_set_frames_id.
  - by apply el_push_reserved_inv.
Qed.

Lemma el_schedule_inv same h l : el_inv l → el_inv (el_schedule same h l).
Proof.
  intros Hi. unfold el_schedule. case_decide; [done|].
  pose proof (el_schedule_locked_inv h l Hi) as Hl.
  destruct (el_schedule_locked h l) as [[] l']; [by apply el_wake_if_asleep_inv|done].
Qed.

Lemma el_schedule_if_current_inv same h ep l :
  el_inv l → el_inv (el_schedule_if_current same h ep l).2.
Proof.
  intros Hi. unfold el_schedule_if_current. case_decide; [done|].
  destruct (ft_try_reserve_if_current h ep (el_frames l)) as [r f] eqn:Hr.
  apply ft_try_reserve_if_current_cases in Hr as [[-> ->]|(s & Hl & Hs & _ & -> & ->)].
  - simpl. by rewrite el_set_frames_id.
  - pose proof (el_push_reserved_inv l h s Hl Hs Hi) as Hp. simpl in Hp |- *.
    by apply el_wake_if_asleep_inv.
Qed.

Lemma el_enqueue_expired_inv l e : el_inv l → el_inv (el_enqueue_expired l e).
Proof.
  intros Hi. unfold el_enqueue_expired.
  destruct (ft_try_reserve_entry e (el_frames l)) as [b f] eqn:Hr.
  apply ft_try_reserve_entry_cases in Hr as [[-> ->]|(s & Hl & Hs & -> & -> & ->)].
  - simpl. by rewrite el_set_frames_id.
  - by apply el_push_reserved_inv.
Qed.

Lemma el_process_timers_inv now c l : el_inv l → el_inv (el_process_timers now c l).2.
Proof.
  intros Hi. unfold el_process_timers. destruct (th_drain _ _ _ _) as [[c' t] ex]. simpl.
  assert (el_inv (el_set_timers t l)) as Hi' by by apply (el_inv_ext l).
  revert Hi'. generalize (el_set_timers t l). induction ex as [|e ex IH]; simpl; [done|].
  intros l0 Hi0. by apply IH, el_enqueue_expired_inv.
Qed.

Lemma el_begin_wait_inv h l :
  ft_room (el_frames l) → el_inv l → el_inv (el_begin_wait h l).2.
Proof.
  intros Hroom [Hr Hb Hq]. unfold el_begin_wait.
  destruct (ft_begin_wait h (el_frames l)) as [e f] eqn:Hw. simpl.
  constructor; simpl; [done|done|].
  apply (queued_ok_epochs (el_frames l)); [| | |done].
  - pose proof (ft_begin_wait_wf h _ Hroom (qo_frames _ _ Hq)) as Hf. by rewrite Hw in Hf.
  - revert Hw. unfold ft_begin_wait. repeat case_match; by intros [= <- <-].
  - intros h' s'. revert Hw. unfold ft_begin_wait. case_decide; [intros [= <- <-]; naive_solver|].
    destruct (ft_live (el_frames l) !! h) as [s|] eqn:Hl; intros [= <- <-]; simpl; [|naive_solver].
    destruct (decide (h' = h)) as [->|Hne]; [|rewrite lookup_insert_ne by done; naive_solver].
    rewrite lookup_insert_eq. intros [= <-]. by exists s.
Qed.

Lemma el_end_wait_inv h ep l : el_inv l → el_inv (el_end_wait h ep l).
Proof.
  intros [Hr Hb Hq]. unfold el_end_wait. case_decide; [done|].
  constructor; simpl; [done|done|].
  apply (queued_ok_epochs (el_frames l)); [by apply ft_end_wait_wf, (qo_frames _ _ Hq)| | |done].
  - unfold ft_end_wait. by repeat case_match.
  - intros h' s'. unfold ft_end_wait. destruct (ft_live (el_frames l) !! h) as [s|] eqn:Hl; [|naive_solver].
    case_decide; [|naive_solver]. simpl.
    destruct (decide (h' = h)) as [->|Hne]; [|rewrite lookup_insert_ne by done; naive_solver].
    rewrite lookup_insert_eq. intros [= <-]. by exists s.
Qed.

Lemma el_on_coroutine_started_inv h l :
  ft_room (el_frames l) → el_inv l → el_inv (el_on_coroutine_started h l).
Proof.
  intros Hroom [Hr Hb Hq]. constructor; simpl; [done|done|].
  change (el_pending _) with (el_pending l). destruct Hq as [Hf Hs Hn Hi].
  pose proof (ft_add_wf h _ Hroom Hf) as Hwf. pose proof Hroom as [Hroom' _].
  pose proof Hf as (Hg0 & _ & _).
  assert (ft_next_generation (ft_add h (el_frames l)).2 = (ft_next_generation (el_frames l) + 1)%Z) as Hg.
  { unfold ft_add; simpl. by rewrite u64_succ_small by lia. }
  constructor; [done| |done|]; rewrite ?Hg.
  - intros h' s'. unfold ft_add; simpl. destruct (ft_live (el_frames l) !! h) as [s|] eqn:Hl; [apply Hs|].
    destruct (decide (h' = h)) as [->|Hne]; [|rewrite lookup_insert_ne by done; apply Hs].
    rewrite lookup_insert_eq. intros [= <-]. simpl. split; [done|]. intros Hin.
    rewrite Forall_forall in Hi. apply Hi in Hin. simpl in Hin.
    rewrite u64_succ_small in Hin by lia. lia.
  - eapply Forall_impl; [exact Hi|]. simpl. intros x Hx. rewrite u64_succ_small by lia. lia.
Qed.

Lemma el_on_coroutine_finished_inv h l : el_inv l → el_inv (el_on_coroutine_finished h l).
Proof.
  intros [Hr Hb [Hf Hs Hn Hi]]. constructor; simpl; [done|done|].
  change (el_pending _) with (el_pending l).
  constructor; [by apply ft_remove_wf| |done|done].
  intros h' s'. unfold ft_remove; simpl. intros [_ Hl]%lookup_delete_Some. auto.
Qed.

Lemma el_abandon_inv a l :
  el_inv l → el_inv (el_set_frames (ft_set_abandoned a (el_frames l)) l).
Proof. intros [Hr Hb [Hf Hs Hn Hi]]. constructor; simpl; [done|done|]. by constructor. Qed.

Lemma el_mark_abandoned_inv h l : el_inv l → el_inv (el_mark_abandoned h l).2.
Proof.
  intros Hi. unfold el_mark_abandoned, ft_mark_abandoned.
  destruct (ft_live _ !! h) as [s|]; [destruct (fs_scheduled s)|]; simpl;
    rewrite ?el_set_frames_id; auto using el_abandon_inv.
Qed.

Lemma el_swap_batch_inv l : el_inv l → el_inv (el_swap_batch l).
Proof.
  intros [Hr Hb Hq]. unfold el_swap_batch. destruct (rq_empty (el_batch l)) eqn:He; [|done].
  apply rq_model_empty in He. constructor; simpl; [done|done|].
  revert Hq. unfold el_pending; simpl. rewrite He. apply queued_ok_perm. by rewrite app_nil_r.
Qed.

Lemma el_pop_entry_inv l e b l' : el_pop_entry l = Some (e, b, l') → el_inv l → el_inv l'.
Proof.
  unfold el_pop_entry. destruct (rq_front (el_batch l)) as [e0|] eqn:Hfr; [|done].
  intros Hp [Hr Hb Hq].
  assert (∃ r, rq_model (el_batch l) = e0 :: r) as [r Hm].
  { rewrite rq_front_model in Hfr. destruct (rq_model (el_batch l)); [done|].
    simpl in Hfr. injection Hfr as ->. eauto. }
  pose proof (rq_model_cons _ _ _ Hm) as (_ & Htl & Hne).
  destruct Hq as [Hf Hs Hn Hi]. unfold el_pending in *. rewrite Hm in *. simpl in *.
  apply NoDup_cons in Hn as [Hnin Hn]. apply Forall_cons in Hi as [_ Hi].
  destruct (ft_release e0 (el_frames l)) as [b' f] eqn:Hrel. injection Hp as <- <- <-.
  constructor; simpl; [done|by apply rq_pop_wf|].
  unfold el_pending; simpl. rewrite Htl.
  revert Hrel. unfold ft_release.
  destruct (ft_live (el_frames l) !! re_handle e0) as [s|] eqn:Hl; last first.
  { intros [= <- <-]. constructor; [done| |done|done].
    intros h s' Hs'. rewrite (Hs h s' Hs'), elem_of_cons. split; [|by right].
    intros [<-|?]; [|done]. simpl in Hl. congruence. }
  case_decide as Hg; intros [= <- <-].
  { constructor; [done| |done|done].
    intros h s' Hs'. rewrite (Hs h s' Hs'), elem_of_cons. split; [|by right].
    intros [<-|?]; [|done]. simpl in Hl, Hg. congruence. }
  constructor; simpl; [|..|done|done].
  - destruct (ft_wf_lookup _ _ _ Hf Hl). by apply ft_wf_insert.
  - intros h s'. destruct (decide (h = re_handle e0)) as [->|Hne'].
    + rewrite lookup_insert_eq. intros [= <-]. simpl. rewrite Hg. destruct e0; simpl in *. naive_solver.
    + rewrite lookup_insert_ne by done. intros Hs'. rewrite (Hs h s' Hs'), elem_of_cons.
      split; [|by right]. intros [<-|?]; [|done]. done.
Qed.
End invariant.

(** ** Steps of a loop, in any order and from any thread

    One constructor per critical section: the public operations, and the steps of
    [run_impl].  The two counters are assumed not to reach [2^64 - 1]. *)

Section reachability.
Context {E : Type} `{EventSource E} `{MinSelect}.
Implicit Types l : EventLoop E.

Inductive el_step : EventLoop E → EventLoop E → Prop :=
  | StepSchedule same h l : el_step l (el_schedule same h l)
  | StepScheduleIfCurrent same h ep l : el_step l (el_schedule_if_current same h ep l).2
  | StepBeginWait h l : ft_room (el_frames l) → el_step l (el_begin_wait h l).2
  | StepEndWait h ep l : el_step l (el_end_wait h ep l)
  | StepTimer h d tok out v l : el_step l (el_schedule_timer h d tok out v l)
  | StepStarted h l : ft_room (el_frames l) → el_step l (el_on_coroutine_started h l)
  | StepFinished h l : el_step l (el_on_coroutine_finished h l)
  | StepMarkAbandoned h l : el_step l (el_mark_abandoned h l).2
  | StepMarkIoAbandoned h l : el_step l (el_mark_io_abandoned h l)
  | StepDispatch same fn l : el_step l (el_dispatch same fn l)
  | StepStop l : el_step l (el_stop l)
  | StepSwapSource self src l old l' :
      el_swap_event_source self src l = Ok (old, l') → el_step l l'
  | StepTakeFns l : el_step l (el_take_fns l)
  | StepProcessTimers now c l : el_step l (el_process_timers now c l).2
  | StepSwapBatch l : el_step l (el_swap_batch l)
  | StepPop e b l l' : el_pop_entry l = Some (e, b, l') → el_step l l'
  | StepReap h l : el_step l (el_reap_abandoned h l)
  | StepFlags running awake l : el_step l (el_set_flags running awake l).

Lemma el_step_inv l l' : el_step l l' → el_inv l → el_inv l'.
Proof.
  destruct 1; intros Hi;
    eauto using el_schedule_inv, el_schedule_if_current_inv, el_begin_wait_inv, el_end_wait_inv,
      el_on_coroutine_started_inv, el_on_coroutine_finished_inv, el_mark_abandoned_inv,
      el_process_timers_inv, el_swap_batch_inv, el_pop_entry_inv.
  - unfold el_schedule_timer. repeat case_match; [done| |done]. by apply (el_inv_ext l).
  - by apply el_abandon_inv.
  - unfold el_dispatch. apply el_wake_if_asleep_inv. by apply (el_inv_ext l).
  - by apply (el_inv_ext l).
  - revert H1. unfold el_swap_event_source. repeat case_match; intros [= <- <-]. by apply (el_inv_ext l).
  - unfold el_take_fns. case_match; [|done]. by apply (el_inv_ext l).
  - by apply el_abandon_inv, el_on_coroutine_finished_inv.
  - by apply (el_inv_ext l).
Qed.

Lemma el_init_inv self source : el_inv (el_init self source).
Proof.
  constructor; simpl; [apply rq_init_wf|apply rq_init_wf|].
  constructor; simpl; [apply ft_init_wf| |by apply NoDup_nil_2|done].
  intros h s. by rewrite lookup_empty.
Qed.

Lemma el_steps_inv l l' : rtc el_step l l' → el_inv l → el_inv l'.
Proof. induction 1; eauto using el_step_inv. Qed.

(** C1 In every reachable state of a loop a live frame is marked [scheduled]
    exactly when its entry is queued, and no entry is queued twice: a coroutine is
    never resumed twice for one wake-up and a mark never outlives its entry. *)
Theorem el_no_double_resume self source l :
  rtc el_step (el_init self source) l →
  NoDup (el_pending l) ∧
  ∀ h s, ft_live (el_frames l) !! h = Some s →
    (fs_scheduled s = true ↔ mkReadyEntry h (fs_generation s) ∈ el_pending l).
Proof.
  intros Hr. destruct (el_steps_inv _ _ Hr (el_init_inv self source)) as [_ _ [_ Hs Hn _]]. done.
Qed.

(** ** Functional behaviour of the enqueueing operations *)

(** [schedule] of a live frame never loses the wake-up and never queues the
    frame a second time: the queue is unchanged when the frame was queued already,
    and otherwise its entry is appended at the tail. *)
Theorem el_schedule_enqueues same h s l :
  el_inv l → h ≠ null_handle → ft_live (el_frames l) !! h = Some s →
  let e := mkReadyEntry h (fs_generation s) in
  e ∈ el_pending (el_schedule same h l) ∧
  el_pending (el_schedule same h l) =
    (if fs_scheduled s then el_pending l else el_pending l ++ [e]).
Proof.
  intros Hi Hh Hl e.
  assert (el_pending (el_schedule same h l) =
    (if fs_scheduled s then el_pending l else el_pending l ++ [e])) as Heq.
  { unfold el_schedule. rewrite decide_False by done.
    unfold el_schedule_locked, ft_try_reserve. rewrite Hl. simpl.
    destruct (fs_scheduled s) eqn:Hs; simpl; [done|].
    rewrite el_wake_if_asleep_pending. unfold el_pending; simpl.
    rewrite rq_model_push by apply Hi. by rewrite (assoc_L (++)). }
  split; [|done]. rewrite Heq. destruct (fs_scheduled s) eqn:Hs; [|set_solver].
  by apply (qo_scheduled _ _ (ei_queued _ Hi) h s Hl).
Qed.

(** A notification for a frame that is not live is dropped. *)
Lemma el_schedule_dead same h l :
  ft_live (el_frames l) !! h = None → el_schedule same h l = l.
Proof.
  intros Hl. unfold el_schedule, el_schedule_locked, ft_try_reserve. rewrite Hl.
  case_decide; [done|]. simpl. by rewrite el_set_frames_id.
Qed.

(** ** Wait epochs across steps *)

(** The frame [h] has no epoch, or one at least [e]; the counter is past [e - 1]. *)
Definition epoch_floor (h : handle) (e : Z) l : Prop :=
  ft_wf (el_frames l) ∧ (e ≤ ft_next_wait_epoch (el_frames l))%Z ∧
  ∀ s, ft_live (el_frames l) !! h = Some s →
    fs_wait_epoch s = 0%Z ∨ (e ≤ fs_wait_epoch s)%Z.

(** Steps that change no epoch and no counter. *)
Lemma epoch_floor_ext h e l l' :
  ft_wf (el_frames l') →
  ft_next_wait_epoch (el_frames l') = ft_next_wait_epoch (el_frames l) →
  (∀ s', ft_live (el_frames l') !! h = Some s' →
     fs_wait_epoch s' = 0%Z ∨ ∃ s, ft_live (el_frames l) !! h = Some s ∧ fs_wait_epoch s' = fs_wait_epoch s) →
  epoch_floor h e l → epoch_floor h e l'.
Proof.
  intros Hwf Hn Hl (_ & Hc & Hf). split_and!; [done|lia|].
  intros s' Hs'. destruct (Hl s' Hs') as [?|(s & Hs & ->)]; [by left|]. auto.
Qed.

(** Operations that do not touch the frames. *)
Lemma epoch_floor_frames h e l l' :
  el_frames l' = el_frames l → epoch_floor h e l → epoch_floor h e l'.
Proof. unfold epoch_floor. by intros ->. Qed.

Lemma epoch_floor_exchange h e h' s f :
  ft_live f !! h' = Some s →
  (∀ s0, ft_live f !! h = Some s0 → fs_wait_epoch s0 = 0%Z ∨ (e ≤ fs_wait_epoch s0)%Z) →
  ∀ b s0, <[h' := fs_set_scheduled b s]> (ft_live f) !! h = Some s0 →
    fs_wait_epoch s0 = 0%Z ∨ (e ≤ fs_wait_epoch s0)%Z.
Proof.
  intros Hl Hf b s0. destruct (decide (h = h')) as [->|Hne].
  - rewrite lookup_insert_eq. intros [= <-]. simpl. auto.
  - rewrite lookup_insert_ne by done. auto.
Qed.

Lemma epoch_floor_reserved h e h' s l l' :
  ft_live (el_frames l) !! h' = Some s →
  el_frames l' = (ft_exchange h' s (el_frames l)).2 →
  epoch_floor h e l → epoch_floor h e l'.
Proof.
  intros Hl Hf (Hwf & Hc & Hfl). unfold epoch_floor. rewrite Hf. split_and!; [|done|].
  - by apply ft_exchange_wf.
  - intros s0. simpl. by eapply epoch_floor_exchange.
Qed.

Lemma epoch_floor_schedule same h e h' l :
  epoch_floor h e l → epoch_floor h e (el_schedule same h' l).
Proof.
  intros Hfl. unfold el_schedule, el_schedule_locked. case_decide; [done|].
  destruct (ft_try_reserve h' (el_frames l)) as [r f] eqn:Hr.
  apply ft_try_reserve_cases in Hr as [[-> ->]|(s & Hl & Hs & -> & ->)]; simpl.
  - by rewrite el_set_frames_id.
  - eapply epoch_floor_reserved; [exact Hl| |exact Hfl]. by apply el_wake_if_asleep_ext.
Qed.

Lemma epoch_floor_schedule_if_current same h e h' ep l :
  epoch_floor h e l → epoch_floor h e (el_schedule_if_current same h' ep l).2.
Proof.
  intros Hfl. unfold el_schedule_if_current. case_decide; [done|].
  destruct (ft_try_reserve_if_current h' ep (el_frames l)) as [r f] eqn:Hr.
  apply ft_try_reserve_if_current_cases in Hr as [[-> ->]|(s & Hl & Hs & _ & -> & ->)]; simpl.
  - by rewrite el_set_frames_id.
  - eapply epoch_floor_reserved; [exact Hl| |exact Hfl]. by apply el_wake_if_asleep_ext.
Qed.

Lemma epoch_floor_process_timers h e now c l :
  epoch_floor h e l → epoch_floor h e (el_process_timers now c l).2.
Proof.
  intros Hfl. unfold el_process_timers. destruct (th_drain _ _ _ _) as [[c' t] ex]. simpl.
  assert (epoch_floor h e (el_set_timers t l)) as Hi by by apply (epoch_floor_frames h e l).
  revert Hi. generalize (el_set_timers t l). induction ex as [|x ex IH]; simpl; [done|].
  intros l0 Hi. apply IH. unfold el_enqueue_expired.
  destruct (ft_try_reserve_entry x (el_frames l0)) as [b f] eqn:Hr.
  apply ft_try_reserve_entry_cases in Hr as [[-> ->]|(s & Hl & Hs & -> & _ & ->)]; simpl.
  - by rewrite el_set_frames_id.
  - by eapply epoch_floor_reserved.
Qed.

Lemma epoch_floor_begin_wait h e h' l :
  ft_room (el_frames l) → epoch_floor h e l → epoch_floor h e (el_begin_wait h' l).2.
Proof.
  intros Hroom (Hwf & Hc & Hfl). pose proof (ft_begin_wait_wf h' _ Hroom Hwf) as Hwf'.
  revert Hwf'. unfold epoch_floor, el_begin_wait, ft_begin_wait.
  destruct Hroom as [_ Hroom]. pose proof Hwf as (_ & Hn & _).
  rewrite u64_succ_small by lia.
  case_decide; [|destruct (ft_live (el_frames l) !! h') as [s|] eqn:Hl];
    simpl; intros Hwf'; (split_and!; [done|lia|]); try done.
  intros s'. destruct (decide (h = h')) as [->|Hne].
  - rewrite lookup_insert_eq. intros [= <-]. simpl. right. lia.
  - rewrite lookup_insert_ne by done. auto.
Qed.

Lemma epoch_floor_finished h e h' l :
  epoch_floor h e l → epoch_floor h e (el_on_coroutine_finished h' l).
Proof.
  intros Hfl. apply (epoch_floor_ext h e l); simpl; [by apply ft_remove_wf, Hfl|done| |done].
  intros s' [_ Hl]%lookup_delete_Some. eauto.
Qed.

Lemma epoch_floor_abandon h e a l :
  epoch_floor h e l → epoch_floor h e (el_set_frames (ft_set_abandoned a (el_frames l)) l).
Proof. done. Qed.

Lemma el_step_epoch_floor h e l l' : el_step l l' → epoch_floor h e l → epoch_floor h e l'.
Proof.
  destruct 1 as [same h' l|same h' ep l|h' l Hroom|h' ep l|h' d tok out v l|h' l Hroom|h' l|h' l|h' l
    |same fn l|l|self src l old l' Hsw|l|now c l|l|en b l l' Hpop|h' l|r a l]; intros Hfl;
    eauto using epoch_floor_schedule, epoch_floor_schedule_if_current, epoch_floor_process_timers,
      epoch_floor_begin_wait, epoch_floor_finished, epoch_floor_abandon.
  - unfold el_end_wait. case_decide; [done|].
    apply (epoch_floor_ext h e l); simpl; [by apply ft_end_wait_wf, Hfl| | |done].
    + unfold ft_end_wait. by repeat case_match.
    + unfold ft_end_wait. destruct (ft_live (el_frames l) !! h') as [s|] eqn:Hl; [|eauto].
      case_decide; [|eauto]. simpl. intros s'. destruct (decide (h = h')) as [->|Hne].
      * rewrite lookup_insert_eq. intros [= <-]. by left.
      * rewrite lookup_insert_ne by done. eauto.
  - unfold el_schedule_timer. repeat case_match; done.
  - pose proof Hfl as (Hwf & _). apply (epoch_floor_ext h e l); simpl; [by apply ft_add_wf|done| |done].
    intros s'. destruct (ft_live (el_frames l) !! h') as [s|] eqn:Hl; [eauto|].
    destruct (decide (h = h')) as [->|Hne].
    + rewrite lookup_insert_eq. intros [= <-]. by left.
    + rewrite lookup_insert_ne by done. eauto.
  - unfold el_mark_abandoned, ft_mark_abandoned. by repeat case_match; simplify_eq/=.
  - apply (epoch_floor_frames h e l); [|done].
    unfold el_dispatch. by destruct (el_wake_if_asleep_ext same
      (el_set_fns (el_fn_queue l ++ [fn]) (el_fn_batch l) true l)) as (_ & _ & ->).
  - revert Hsw. unfold el_swap_event_source. repeat case_match; by intros [= <- <-].
  - unfold el_take_fns. by case_match.
  - unfold el_swap_batch. by case_match.
  - revert Hpop. unfold el_pop_entry, ft_release. destruct (rq_front _); [|done]. simpl.
    destruct (ft_live (el_frames l) !! _) as [s|] eqn:Hl; [case_decide|];
      intros [= <- <- <-]; try done.
    pose proof Hfl as (Hwf & Hc & Hf). split_and!; simpl; [|done|].
    + destruct (ft_wf_lookup _ _ _ Hwf Hl). by apply ft_wf_insert.
    + by eapply epoch_floor_exchange.
Qed.

Lemma el_steps_epoch_floor h e l l' : rtc el_step l l' → epoch_floor h e l → epoch_floor h e l'.
Proof. induction 1; eauto using el_step_epoch_floor. Qed.

(** Once a frame began a wait, no epoch below it can be current for that frame. *)
Lemma el_begin_wait_floor h l :
  ft_room (el_frames l) → ft_wf (el_frames l) → h ≠ null_handle →
  epoch_floor h (el_begin_wait h l).1 (el_begin_wait h l).2.
Proof.
  intros Hroom Hwf Hh. pose proof (ft_begin_wait_wf h _ Hroom Hwf) as Hwf'. revert Hwf'.
  unfold epoch_floor, el_begin_wait, ft_begin_wait.
  rewrite u64_succ_small by (destruct Hwf as (?&?&?), Hroom; lia).
  rewrite decide_False by done.
  destruct (ft_live (el_frames l) !! h) as [s|] eqn:Hl; simpl; intros ?; (split_and!; [done|lia|]).
  - intros s'. rewrite lookup_insert_eq. intros [= <-]. right. simpl. lia.
  - intros s' Hs'. congruence.
Qed.

(** A late notification never wakes a later wait: once a frame has begun a new
    wait, a notification carrying the epoch of an earlier wait is refused and
    changes nothing, whatever happened in between and since, on any thread. *)
Theorem el_stale_epoch_refused self source same h l0 l1 l2 l3 l4 e1 e2 :
  h ≠ null_handle →
  rtc el_step (el_init self source) l0 →
  ft_room (el_frames l0) → el_begin_wait h l0 = (e1, l1) → rtc el_step l1 l2 →
  ft_room (el_frames l2) → el_begin_wait h l2 = (e2, l3) → rtc el_step l3 l4 →
  el_schedule_if_current same h e1 l4 = (false, l4).
Proof.
  intros Hh Hr0 Hroom0 Hb1 Hr1 Hroom2 Hb2 Hr2.
  pose proof (el_steps_inv _ _ Hr0 (el_init_inv self source)) as Hi0.
  pose proof (qo_frames _ _ (ei_queued _ Hi0)) as Hwf0.
  pose proof (el_begin_wait_floor h l0 Hroom0 Hwf0 Hh) as Hf1. rewrite Hb1 in Hf1.
  pose proof (el_steps_epoch_floor _ _ _ _ Hr1 Hf1) as (Hwf2 & Hc2 & _). simpl in Hc2.
  pose proof (el_begin_wait_floor h l2 Hroom2 Hwf2 Hh) as Hf2. rewrite Hb2 in Hf2.
  pose proof (el_steps_epoch_floor _ _ _ _ Hr2 Hf2) as (_ & _ & Hf4). simpl in Hf4.
  assert (e2 = ft_next_wait_epoch (el_frames l2) + 1)%Z as ->.
  { revert Hb2. unfold el_begin_wait, ft_begin_wait.
    rewrite u64_succ_small by (destruct Hwf2 as (?&?&?), Hroom2; lia).
    repeat case_match; intros; simplify_eq/=; lia. }
  assert (0 < e1)%Z.
  { revert Hb1. unfold el_begin_wait, ft_begin_wait.
    rewrite u64_succ_small by (destruct Hwf0 as (?&?&?), Hroom0; lia). destruct Hwf0 as (?&?&?).
    repeat case_match; intros; simplify_eq/=; lia. }
  unfold el_schedule_if_current. rewrite decide_False by done.
  destruct (ft_try_reserve_if_current h e1 (el_frames l4)) as [r f] eqn:Hr.
  apply ft_try_reserve_if_current_cases in Hr as [[-> ->]|(s & Hl & _ & He & _)].
  - simpl. by rewrite el_set_frames_id.
  - apply Hf4 in Hl. lia.
Qed.
End reachability.

(** ** Scenarios *)

(** A loop with one started coroutine, 10. *)
Definition loop_demo : EventLoop CVEventSource := el_on_coroutine_started 10 (el_init 1 cv_init).

Lemma ft_room_small f :
  bool_decide (ft_next_generation f < 1000)%Z && bool_decide (ft_next_wait_epoch f < 1000)%Z = true →
  ft_room f.
Proof. intros. bool_to_prop. split; unfold u64_modulus; lia. Qed.

Lemma loop_demo_reachable : rtc el_step (el_init 1 cv_init) loop_demo.
Proof. apply rtc_once, StepStarted. by apply ft_room_small. Qed.

Lemma el_no_double_resume_witness :
  rtc el_step (el_init 1 cv_init) (el_schedule false 10 (el_schedule true 10 loop_demo)) ∧
  NoDup (el_pending (el_schedule false 10 (el_schedule true 10 loop_demo))).
Proof.
  assert (rtc el_step (el_init 1 cv_init) (el_schedule false 10 (el_schedule true 10 loop_demo))) as Hr.
  { eapply rtc_r; [eapply rtc_r; [apply loop_demo_reachable|apply StepSchedule]|apply StepSchedule]. }
  split; [exact Hr|]. apply (el_no_double_resume _ _ _ Hr).
Defined.

Lemma el_schedule_enqueues_witness :
  el_pending (el_schedule false 10 loop_demo) = [mkReadyEntry 10 1].
Proof.
  assert (el_inv loop_demo) as Hi.
  { apply (el_steps_inv _ _ loop_demo_reachable), el_init_inv. }
  assert (ft_live (el_frames loop_demo) !! 10 = Some (fs_new 1)) as Hl by reflexivity.
  destruct (el_schedule_enqueues false 10 (fs_new 1) loop_demo Hi ltac:(done) Hl) as [_ Heq].
  etransitivity; [exact Heq|reflexivity].
Defined.

Lemma el_stale_epoch_refused_witness :
  ∃ e1 l1 e2 l3,
  el_begin_wait 10 loop_demo = (e1, l1) ∧ el_begin_wait 10 (el_end_wait 10 e1 l1) = (e2, l3) ∧
  el_schedule_if_current false 10 e1 l3 = (false, l3) ∧
  (el_schedule_if_current false 10 e2 l3).1 = true.
Proof.
  destruct (el_begin_wait 10 loop_demo) as [e1 l1] eqn:H1.
  destruct (el_begin_wait 10 (el_end_wait 10 e1 l1)) as [e2 l3] eqn:H2.
  exists e1, l1, e2, l3. split_and!; [done|done|..].
  - eapply (el_stale_epoch_refused 1 cv_init false 10 loop_demo l1 (el_end_wait 10 e1 l1) l3 l3 e1 e2);
      [done|apply loop_demo_reachable|by apply ft_room_small|exact H1|apply rtc_once, StepEndWait
      | |exact H2|apply rtc_refl].
    vm_compute in H1. injection H1 as <- <-. by apply ft_room_small.
  - vm_compute in H1. injection H1 as <- <-. vm_compute in H2. injection H2 as <- <-. reflexivity.
Defined.
