(* ===== verification/RunLoop.v ===== *)
(** * RunLoop: driving the loop ([EventLoop::run_impl])

    [src/include/coro/event_loop.hpp], [run_impl], [run], [run_until_stopped].
    The coroutines, the dispatched functions, the clock, [h.done()],
    [h.destroy()] and what other threads and I/O completions do while the loop
    blocks are the arguments of the section; everything the loop does between
    them is a definition.  Loops take fuel; [None] is out of fuel. *)

From S2P Require Import Prelude ReadyQueue Timers Frames EventLoop.
From stdpp Require Import options.

(** The thread running the loop: the loop, the shared cells, the thread-locals
    [t_current_loop] (0 is null) and [t_current_task], and the program's state. *)
Record rstate (E U : Type) : Type := mkRstate {
  rs_loop : EventLoop E;
  rs_cells : cells;
  rs_tl_loop : loop_id;
  rs_tl_task : handle;
  rs_user : U;
}.
Arguments mkRstate {E U}.
Arguments rs_loop {E U}. Arguments rs_cells {E U}. Arguments rs_tl_loop {E U}.
Arguments rs_tl_task {E U}. Arguments rs_user {E U}.

Section run.
Context {E U : Type} `{EventSource E} `{MinSelect}.
Implicit Types s : rstate E U.

Definition rs_set_loop (l : EventLoop E) s : rstate E U :=
  mkRstate l (rs_cells s) (rs_tl_loop s) (rs_tl_task s) (rs_user s).
Definition rs_set_task (h : handle) s : rstate E U :=
  mkRstate (rs_loop s) (rs_cells s) (rs_tl_loop s) h (rs_user s).
Definition rs_set_tl (l : loop_id) (h : handle) s : rstate E U :=
  mkRstate (rs_loop s) (rs_cells s) l h (rs_user s).

(** What the loop calls: the exception a call ended with, if any, and the state after it. *)
Context (resume : handle → rstate E U → option exn * rstate E U).
Context (call : fn_id → rstate E U → option exn * rstate E U).
Context (destroy : handle → rstate E U → rstate E U).
Context (is_done : rstate E U → handle → bool).
Context (now : rstate E U → Z).
Context (block : option Z → rstate E U → rstate E U).

(** [event_source_->wait_for(timeout)], [None] being [milliseconds::max()]. *)
Definition rs_wait_for (timeout : option Z) s : rstate E U :=
  let s := block timeout s in
  rs_set_loop (el_set_source (es_waited (el_source (rs_loop s)))
                 (el_source_epoch (rs_loop s)) (rs_loop s)) s.

(** Step 0: [while (!fn_batch_.empty())]; a function is removed before its call. *)
Fixpoint el_run_fns (fuel : nat) s : option (option exn * rstate E U) :=
  match fuel with
  | 0 => None
  | S fuel' =>
      let l := rs_loop s in
      match el_fn_batch l with
      | [] => Some (None, s)
      | fn :: rest =>
          let s := rs_set_loop (el_set_fns (el_fn_queue l) rest (el_has_pending_fn l) l) s in
          match call fn s with
          | (Some e, s') => Some (Some e, s')
          | (None, s') => el_run_fns fuel' s'
          end
      end
  end.

(** Third step: [while (!batch_.empty())]. *)
Fixpoint el_resume_batch (fuel : nat) s : option (option exn * rstate E U) :=
  match fuel with
  | 0 => None
  | S fuel' =>
      match el_pop_entry (rs_loop s) with
      | None => Some (None, s)
      | Some (entry, current, l) =>
          let h := re_handle entry in
          let s := rs_set_loop l s in
          if negb current then el_resume_batch fuel' s
          else if bool_decide (h ≠ null_handle) && negb (is_done s h) then
            if el_is_abandoned h (rs_loop s) then
              el_resume_batch fuel' (destroy h (rs_set_loop (el_reap_abandoned h (rs_loop s)) s))
            else
              match resume h (rs_set_task h s) with
              | (Some e, s') => Some (Some e, s')
              | (None, s') => el_resume_batch fuel' (rs_set_task null_handle s')
              end
          else el_resume_batch fuel' s
      end
  end.

(** The fairness poll before the second step. *)
Definition el_fair_poll s : rstate E U :=
  let l := rs_loop s in
  if negb (rq_empty (el_ready l) && rq_empty (el_batch l)) && es_has_pending (el_source l)
  then rs_wait_for (Some 0%Z) s else s.

(** Second step; [false] is the [break]. *)
Definition el_sleep (stay : bool) (t : Z) s : bool * rstate E U :=
  let s := rs_set_loop (el_set_awake false (rs_loop s)) s in
  let wake s := rs_set_loop (el_set_awake true (rs_loop s)) s in
  match el_sleep_decision stay t (rs_loop s) with
  | StayAwake => (true, wake s)
  | SleepUntil ms => (true, wake (rs_wait_for (Some ms) s))
  | TimerDue => (true, wake s)
  | SleepForever => (true, wake (rs_wait_for None s))
  | Leave => (false, wake s)
  end.

Inductive iteration_end : Type :=
  | Continue
  | Break
  | Raised (e : exn).

(** The body of [while (running_)]. *)
Definition el_iteration (fuel : nat) (stay : bool) s : option (iteration_end * rstate E U) :=
  if negb stay && negb (el_has_work (rs_loop s)) then Some (Break, s)
  else
    let s := rs_set_loop (el_take_fns (rs_loop s)) s in
    match el_run_fns fuel s with
    | None => None
    | Some (Some e, s) => Some (Raised e, s)
    | Some (None, s) =>
        let t := now s in
        let '(c, l) := el_process_timers t (rs_cells s) (rs_loop s) in
        let s := el_fair_poll (mkRstate l c (rs_tl_loop s) (rs_tl_task s) (rs_user s)) in
        match el_sleep stay t s with
        | (false, s) => Some (Break, s)
        | (true, s) =>
            let s := rs_set_loop (el_swap_batch (rs_loop s)) s in
            match el_resume_batch fuel s with
            | None => None
            | Some (Some e, s) => Some (Raised e, s)
            | Some (None, s) => Some (Continue, s)
            end
        end
    end.

Fixpoint el_while_running (fuel : nat) (stay : bool) s : option (option exn * rstate E U) :=
  match fuel with
  | 0 => None
  | S fuel' =>
      if el_running (rs_loop s) then
        match el_iteration fuel' stay s with
        | None => None
        | Some (Continue, s') => el_while_running fuel' stay s'
        | Some (Break, s') => Some (None, s')
        | Some (Raised e, s') => Some (Some e, s')
        end
      else Some (None, s)
  end.

(** Both exits of [run_impl] run the same cleanup. *)
Definition el_run_cleanup (prev_loop : loop_id) (prev_task : handle) s : rstate E U :=
  rs_set_tl prev_loop prev_task (rs_set_loop (el_set_flags false true (rs_loop s)) s).

Definition el_run_impl (fuel : nat) (self : loop_id) (stay : bool) s
    : option (option exn * rstate E U) :=
  if el_running (rs_loop s) then Some (Some RuntimeError, s)
  else
    let prev_loop := rs_tl_loop s in
    let prev_task := rs_tl_task s in
    let s0 := rs_set_tl self null_handle (rs_set_loop (el_set_flags true true (rs_loop s)) s) in
    match el_while_running fuel stay s0 with
    | None => None
    | Some (o, s') => Some (o, el_run_cleanup prev_loop prev_task s')
    end.

Definition el_run fuel self s := el_run_impl fuel self false s.
Definition el_run_until_stopped fuel self s := el_run_impl fuel self true s.

(** ** Theorems *)


(** The loop only goes to sleep when it may: a timed sleep means nothing is
    ready and lasts until the earliest timer, rounded up to a whole positive
    millisecond; an unbounded sleep means nothing is ready and no timer is armed;
    the loop leaves only when nothing is queued or armed, no I/O is pending and no
    coroutine is active, and only in the non-resident mode. *)
Theorem el_sleep_decision_sound stay t (l : EventLoop E) :
  match el_sleep_decision stay t l with
  | StayAwake => el_nothing_ready l = false
  | SleepUntil ms =>
      el_nothing_ready l = true ∧ (0 < ms)%Z ∧
      ∃ e, e ∈ th_heap (el_timers l) ∧ Forall (te_before e) (th_heap (el_timers l)) ∧
           (te_deadline e - t ≤ ms * ns_per_ms < te_deadline e - t + ns_per_ms)%Z
  | TimerDue => el_nothing_ready l = true ∧ ∃ e, e ∈ th_heap (el_timers l) ∧ te_due t e = true
  | SleepForever => el_nothing_ready l = true ∧ th_heap (el_timers l) = []
  | Leave => stay = false ∧ el_has_work l = negb (bool_decide (el_fn_batch l = []))
  end.
Proof.
  unfold el_sleep_decision. destruct (el_nothing_ready l) eqn:Hr; simpl; [|done].
  destruct (th_top_deadline (el_timers l)) as [d|] eqn:Ht.
  - apply th_top_deadline_some in Ht as (e & He & <- & Hmin). case_decide as Hlt.
    + pose proof (ceil_ms_bounds (te_deadline e - t)). split_and!; [done|lia|]. exists e. split_and!; [done|done|lia|lia].
    + split; [done|]. exists e. split; [done|]. unfold te_due. apply Z.leb_le. lia.
  - apply th_top_deadline_none in Ht. destruct (stay || _ || _) eqn:Hw; [done|].
    apply orb_false_iff in Hw as [[-> Hp]%orb_false_iff Ha].
    unfold el_nothing_ready in Hr. apply andb_true_iff in Hr as [[H1 H2]%andb_true_iff H3].
    split; [done|]. unfold el_has_work. rewrite H1, H2, H3, Hp, Ha.
    unfold th_empty. rewrite Ht. simpl. by rewrite !orb_false_r.
Qed.

(** What the API guarantees of a coroutine: it may schedule, wait, arm timers,
    dispatch and stop, none of which touches the batch being consumed. *)
Definition batch_stable (f : rstate E U → rstate E U) : Prop :=
  ∀ s, el_batch (rs_loop (f s)) = el_batch (rs_loop s).

Context (resume_stable : ∀ h, batch_stable (λ s, (resume h s).2)).
Context (destroy_stable : ∀ h, batch_stable (destroy h)).

Lemma el_pop_entry_none (l : EventLoop E) : el_pop_entry l = None → rq_model (el_batch l) = [].
Proof.
  unfold el_pop_entry. destruct (rq_front (el_batch l)) as [e|] eqn:Hf.
  - simpl. by destruct (ft_release e (el_frames l)).
  - intros _. rewrite rq_front_model in Hf. by destruct (rq_model _).
Qed.

Lemma el_pop_entry_some (l : EventLoop E) e b l' :
  el_pop_entry l = Some (e, b, l') → rq_model (el_batch l) = e :: rq_model (el_batch l').
Proof.
  unfold el_pop_entry. destruct (rq_front (el_batch l)) as [e0|] eqn:Hf; [|done]. simpl.
  destruct (ft_release e0 (el_frames l)) as [c f]. intros [= <- <- <-]. simpl.
  rewrite rq_model_pop. rewrite rq_front_model in Hf.
  destruct (rq_model (el_batch l)); simpl in *; congruence.
Qed.

(** The resuming loop terminates with one unit of fuel per queued entry: it
    consumes the whole batch, in order, or stops at the coroutine that threw and
    keeps every entry after it for the next run. *)
Theorem el_resume_batch_total fuel s :
  length (rq_model (el_batch (rs_loop s))) < fuel →
  ∃ o s' done, el_resume_batch fuel s = Some (o, s') ∧
    rq_model (el_batch (rs_loop s)) = done ++ rq_model (el_batch (rs_loop s')) ∧
    (o = None → rq_model (el_batch (rs_loop s')) = []).
Proof using Type resume_stable destroy_stable.
  revert s. induction fuel as [|fuel IH]; intros s Hlen; [lia|]. simpl.
  destruct (el_pop_entry (rs_loop s)) as [[[e cur] l]|] eqn:Hp; last first.
  { apply el_pop_entry_none in Hp. exists None, s, []. by rewrite Hp. }
  apply el_pop_entry_some in Hp. rewrite Hp in *. simpl in Hlen.
  assert (∀ s1, el_batch (rs_loop s1) = el_batch l →
    ∃ o s' done, el_resume_batch fuel s1 = Some (o, s') ∧
      e :: rq_model (el_batch l) = done ++ rq_model (el_batch (rs_loop s')) ∧
      (o = None → rq_model (el_batch (rs_loop s')) = [])) as Hrec.
  { intros s1 Hs1. destruct (IH s1) as (o & s' & done & Hr & Hd & Ho); [rewrite Hs1; lia|].
    exists o, s', (e :: done). rewrite Hr. rewrite <- Hs1, Hd. done. }
  destruct cur; simpl; [|by apply Hrec].
  destruct (bool_decide _ && _); simpl; [|by apply Hrec].
  destruct (el_is_abandoned _ _).
  { apply Hrec. by rewrite destroy_stable. }
  pose proof (resume_stable (re_handle e) (rs_set_task (re_handle e) (rs_set_loop l s))) as Hst.
  simpl in Hst. destruct (resume _ _) as [[x|] s']; simpl in Hst; [|by apply Hrec].
  exists (Some x), s', [e]. rewrite Hst. done.
Qed.
End run.

(** ** A run, executed

    Two coroutines: 10 is ready; 11 waits on a timer at 5ms.  Resuming a
    coroutine finishes it and logs its handle; blocking advances the clock. *)
Section example.

Let st := rstate CVEventSource (Z * list handle).

Definition demo_resume (h : handle) (s : st) : option exn * st :=
  (None, mkRstate (el_on_coroutine_finished h (rs_loop s)) (rs_cells s) (rs_tl_loop s) (rs_tl_task s)
           (fst (rs_user s), snd (rs_user s) ++ [h])).
Definition demo_block (t : option Z) (s : st) : st :=
  mkRstate (rs_loop s) (rs_cells s) (rs_tl_loop s) (rs_tl_task s)
    (fst (rs_user s) + default 0 t * ns_per_ms, snd (rs_user s))%Z.
Definition demo_start : st :=
  let l := el_init 1 cv_init in
  let l := el_on_coroutine_started 11 (el_on_coroutine_started 10 l) in
  let l := el_schedule true 10 (el_schedule_timer 11 5000000 None None 0 l) in
  mkRstate l {| c_flags := ∅; c_ints := ∅ |} 0 0 (0%Z, []).
Definition demo_run (fuel : nat) : option (option exn * st) :=
  el_run demo_resume (λ _ s, (None, s)) (λ _ s, s) (λ _ _, false) (λ s, fst (rs_user s)) demo_block fuel 1 demo_start.

Example demo_run_result :
  (λ r, (r.1, rs_user r.2)) <$> demo_run 10 = Some (None, (5000000%Z, [10; 11])).
Proof. vm_compute. reflexivity. Qed.


Lemma el_resume_batch_total_witness :
  ∃ o s' done,
    el_resume_batch demo_resume (λ _ s, s) (λ _ _, false) 2
      (rs_set_loop (el_swap_batch (rs_loop demo_start)) demo_start) = Some (o, s') ∧
    [mkReadyEntry 10 1] = done ++ rq_model (el_batch (rs_loop s')) ∧
    (o = None → rq_model (el_batch (rs_loop s')) = []).
Proof.
  apply (el_resume_batch_total demo_resume (λ _ s, s) (λ _ _, false)).
  - done.
  - done.
  - vm_compute. lia.
Defined.
End example.
