(* ===== verification/SleepProtocol.v ===== *)
(** * SleepProtocol: the loop thread and other threads around [awake_]

    [src/include/coro/event_loop.hpp]: the second step of [run_impl] against
    [schedule], [dispatch] and [stop] called from other threads, at the
    granularity of the atomic accesses and critical sections.  [awake_] is
    sequentially consistent, so an execution is an interleaving of these steps.
    The event source is [CVEventSource] and the wait is unbounded, the case where
    a lost wake-up would be fatal. *)

From S2P Require Import Prelude ReadyQueue Timers Frames EventLoop.
From stdpp Require Import options.

(** Where the loop thread is in [run_impl]. *)
Inductive loop_pc : Type :=
  | LTop          (* the test of [while (running_)] *)
  | LBody         (* running callbacks and coroutines *)
  | LDeclared     (* [awake_] is false, the queues not re-examined yet *)
  | LWaiting      (* inside [wait_for] *)
  | LReturning    (* [wait_for] returned, [awake_] not restored yet *)
  | LExit.

(** What another thread calls. *)
Inductive request : Type :=
  | ReqSchedule (h : handle)
  | ReqDispatch (fn : fn_id)
  | ReqStop.

(** Where that thread is in its call. *)
Inductive producer_pc : Type :=
  | PStart (r : request)  (* before the critical section *)
  | PCheck                (* enqueued; about to read [running_] *)
  | PExchange             (* about to [awake_.exchange(true)] *)
  | PSend.                (* about to call [event_source_->wake()] *)

Record sleep_state : Type := mkSleepState {
  sp_loop : EventLoop CVEventSource;
  sp_pc : loop_pc;
  sp_producers : gmap nat producer_pc;
}.

Definition sp_set_loop (l : EventLoop CVEventSource) (s : sleep_state) : sleep_state :=
  mkSleepState l (sp_pc s) (sp_producers s).
Definition sp_set_pc (p : loop_pc) (s : sleep_state) : sleep_state :=
  mkSleepState (sp_loop s) p (sp_producers s).
Definition sp_set_producer (t : nat) (p : option producer_pc) (s : sleep_state) : sleep_state :=
  mkSleepState (sp_loop s) (sp_pc s) (partial_alter (λ _, p) t (sp_producers s)).

(** [event_source_->wait_for] may return: the flag is set. *)
Definition sp_woken (s : sleep_state) : bool := cv_woken (el_source (sp_loop s)).

(** ** Steps of the loop thread *)

Definition sp_loop_step (s : sleep_state) : option sleep_state :=
  let l := sp_loop s in
  match sp_pc s with
  | LTop => Some (sp_set_pc (if el_running l then LBody else LExit) s)
  | LBody => Some (sp_set_pc LDeclared (sp_set_loop (el_set_awake false l) s))
  | LDeclared =>
      if el_nothing_ready l then Some (sp_set_pc LWaiting s)
      else Some (sp_set_pc LTop (sp_set_loop (el_set_awake true l) s))
  | LWaiting =>
      if sp_woken s
      then Some (sp_set_pc LReturning
                   (sp_set_loop (el_set_source (cv_wait_for (el_source l)) (el_source_epoch l) l) s))
      else None
  | LReturning => Some (sp_set_pc LTop (sp_set_loop (el_set_awake true l) s))
  | LExit => None
  end.

(** ** Steps of another thread *)

(** The first critical section (or the store of [stop]) of a request. *)
Definition sp_request (r : request) (l : EventLoop CVEventSource)
    : option producer_pc * EventLoop CVEventSource :=
  match r with
  | ReqSchedule h =>
      if decide (h = null_handle) then (None, l)
      else let '(pushed, l') := el_schedule_locked h l in
           (if pushed then Some PCheck else None, l')
  | ReqDispatch fn => (Some PCheck, el_set_fns (el_fn_queue l ++ [fn]) (el_fn_batch l) true l)
  | ReqStop => (Some PSend, el_set_running false l)
  end.

Definition sp_producer_step (p : producer_pc) (l : EventLoop CVEventSource)
    : option producer_pc * EventLoop CVEventSource :=
  match p with
  | PStart r => sp_request r l
  | PCheck => (if el_running l then Some PExchange else None, l)
  | PExchange => (if el_awake l then None else Some PSend, el_set_awake true l)
  | PSend => (None, el_wake l)
  end.

Inductive sp_step : sleep_state → sleep_state → Prop :=
  | SpLoop s s' : sp_loop_step s = Some s' → sp_step s s'
  | SpBody s l' :
      (* callbacks, timers and coroutines run on the loop thread; none of them
         changes [awake_] or the event source, and they run only while busy *)
      sp_pc s = LBody → el_awake l' = el_awake (sp_loop s) →
      el_source l' = el_source (sp_loop s) → el_running l' = el_running (sp_loop s) →
      sp_step s (sp_set_loop l' s)
  | SpCall s t r :
      sp_producers s !! t = None → sp_step s (sp_set_producer t (Some (PStart r)) s)
  | SpProducer s t p q l' :
      sp_producers s !! t = Some p → sp_producer_step p (sp_loop s) = (q, l') →
      sp_step s (sp_set_producer t q (sp_set_loop l' s)).

Definition sp_init : sleep_state :=
  mkSleepState (el_set_flags true true (el_init 1 cv_init)) LTop ∅.

(** A producer that runs its steps without interruption is the method of the loop. *)
Lemma sp_schedule_steps h l :
  let run q l := match q with None => (None, l) | Some p => sp_producer_step p l end in
  (let '(q, l) := sp_producer_step (PStart (ReqSchedule h)) l in
   let '(q, l) := run q l in let '(q, l) := run q l in run q l)
  = (None, el_schedule false h l).
Proof.
  simpl. unfold el_schedule. case_decide; [done|].
  destruct (el_schedule_locked h l) as [[] l']; simpl; [|done].
  unfold el_cross_thread_wake_if_asleep. simpl.
  destruct (el_running l') eqn:?; simpl; [|done]. by destruct (el_awake l').
Qed.

(** ** The invariant *)

Definition sp_sending (s : sleep_state) : Prop := ∃ t, sp_producers s !! t = Some PSend.
Definition sp_checking (s : sleep_state) : Prop :=
  ∃ t p, sp_producers s !! t = Some p ∧ (p = PCheck ∨ p = PExchange).

(** A wake-up is on its way. *)
Definition sp_coming (s : sleep_state) : Prop := sp_woken s = true ∨ sp_sending s.

Record sp_inv (s : sleep_state) : Prop := {
  si_awake : (sp_pc s = LDeclared ∨ sp_pc s = LWaiting) → el_awake (sp_loop s) = true → sp_coming s;
  si_ready : sp_pc s = LWaiting → el_nothing_ready (sp_loop s) = false →
    sp_coming s ∨ (el_awake (sp_loop s) = false ∧ sp_checking s);
  si_stop : (sp_pc s = LBody ∨ sp_pc s = LDeclared ∨ sp_pc s = LWaiting) →
    el_running (sp_loop s) = false → sp_coming s;
}.

(** Case analysis on where the loop thread is. *)
Ltac sp_solve := simpl in *; intros; destruct_or?; simplify_eq/=; auto; try done.

Lemma sp_init_inv : sp_inv sp_init.
Proof. constructor; simpl; [intros [?|?]; done|done|done]. Qed.

Lemma sp_loop_step_inv s s' : sp_loop_step s = Some s' → sp_inv s → sp_inv s'.
Proof.
  unfold sp_loop_step. intros Hs [Ha Hr Hst]. destruct s as [l pc ps]; simpl in *.
  assert (∀ pc' l', el_source l' = el_source l →
    sp_coming (mkSleepState l pc ps) → sp_coming (mkSleepState l' pc' ps)) as Hk.
  { intros pc' l' Hsrc [Hw|Hse]; [left|by right]. unfold sp_woken in *; simpl in *. by rewrite Hsrc. }
  destruct pc; simplify_eq/=.
  - destruct (el_running l) eqn:Hrun; constructor; sp_solve; congruence.
  - constructor; sp_solve.
  - destruct (el_nothing_ready l) eqn:Hn; simplify_eq/=; constructor; sp_solve; congruence.
  - destruct (sp_woken _); simplify_eq/=. constructor; sp_solve.
  - constructor; sp_solve.
Qed.

(** A producer other than [t] keeps its place. *)
Lemma sp_producer_other t q s t' p :
  t' ≠ t → sp_producers s !! t' = Some p → sp_producers (sp_set_producer t q s) !! t' = Some p.
Proof. intros. simpl. by rewrite lookup_partial_alter_ne by done. Qed.

Lemma sp_producer_self t q s : sp_producers (sp_set_producer t q s) !! t = q.
Proof. simpl. by rewrite lookup_partial_alter_eq. Qed.

(** A wake-up stays on its way unless its own sender delivers it. *)
Lemma sp_coming_keep s t p q l' :
  sp_producers s !! t = Some p → p ≠ PSend →
  el_source l' = el_source (sp_loop s) →
  sp_coming s → sp_coming (sp_set_producer t q (sp_set_loop l' s)).
Proof.
  intros Hp Hne Hsrc [Hw|[t' Ht']]; [left|right].
  - unfold sp_woken in *; simpl. by rewrite Hsrc.
  - exists t'. apply sp_producer_other; [congruence|done].
Qed.

(** ** What one step of a producer does to the loop and to its own place *)

Lemma sp_request_effect r l q l' :
  sp_request r l = (q, l') →
  el_source l' = el_source l ∧ el_awake l' = el_awake l ∧
  (q = None ∧ el_nothing_ready l' = el_nothing_ready l ∧ el_running l' = el_running l ∨
   q = Some PCheck ∧ el_running l' = el_running l ∨
   q = Some PSend).
Proof.
  destruct r as [h|fn|]; simpl; [|intros [= <- <-]; naive_solver..].
  case_decide; [intros [= <- <-]; naive_solver|].
  unfold el_schedule_locked. destruct (ft_try_reserve h (el_frames l)) as [[e|] f]; simpl;
    intros [= <- <-]; naive_solver.
Qed.

Lemma sp_call_inv s t r :
  sp_producers s !! t = None → sp_inv s → sp_inv (sp_set_producer t (Some (PStart r)) s).
Proof.
  intros Ht [Ha Hr Hst].
  assert (sp_coming s → sp_coming (sp_set_producer t (Some (PStart r)) s)) as Hk.
  { intros [Hw|[t' Ht']]; [by left|right]. exists t'. apply sp_producer_other; [congruence|done]. }
  constructor; simpl; [sp_solve| |sp_solve].
  intros Hpc Hn. destruct (Hr Hpc Hn) as [Hcm|(? & t' & p & Ht' & Hp)]; [auto|right].
  split; [done|]. exists t', p. split; [|done]. apply sp_producer_other; [congruence|done].
Qed.

Lemma sp_start_inv s t r q l' :
  sp_producers s !! t = Some (PStart r) → sp_request r (sp_loop s) = (q, l') →
  sp_inv s → sp_inv (sp_set_producer t q (sp_set_loop l' s)).
Proof.
  intros Ht Hq [Ha Hr Hst]. apply sp_request_effect in Hq as (Hsrc & Haw & Hq).
  assert (sp_coming s → sp_coming (sp_set_producer t q (sp_set_loop l' s))) as Hk.
  { by eapply sp_coming_keep. }
  destruct Hq as [(-> & Hn & Hrun)|[(-> & Hrun)| -> ]].
  - constructor; simpl; rewrite ?Haw, ?Hn, ?Hrun; [by auto| |by auto].
    intros Hpc Hne. destruct (Hr Hpc Hne) as [Hcm|(? & t' & p & Ht' & Hp)]; [auto|right].
    split; [done|]. exists t', p. split; [|done].
    apply (sp_producer_other t None (sp_set_loop l' s)); [intros ->; destruct Hp; congruence|done].
  - constructor; simpl; rewrite ?Haw, ?Hrun; [by auto| |by auto].
    intros Hpc _. destruct (el_awake (sp_loop s)) eqn:Haw0; [left; auto|right].
    split; [done|]. exists t, PCheck. split; [|by left].
    apply (sp_producer_self t _ (sp_set_loop l' s)).
  - assert (sp_coming (sp_set_producer t (Some PSend) (sp_set_loop l' s))).
    { right. exists t. apply (sp_producer_self t _ (sp_set_loop l' s)). }
    by constructor; auto.
Qed.

Lemma sp_producer_step_inv s t p q l' :
  sp_producers s !! t = Some p → sp_producer_step p (sp_loop s) = (q, l') →
  sp_inv s → sp_inv (sp_set_producer t q (sp_set_loop l' s)).
Proof.
  intros Ht Hq Hi. destruct p as [r| | |]; simpl in Hq; [by eapply sp_start_inv|..];
    destruct Hi as [Ha Hr Hst].
  - (* [running_] is read *)
    injection Hq as <- <-.
    assert (∀ q, sp_coming s → sp_coming (sp_set_producer t q (sp_set_loop (sp_loop s) s))) as Hk.
    { intros q. by eapply sp_coming_keep. }
    constructor; simpl; [by auto| |by auto].
    intros Hpc Hn. destruct (el_running (sp_loop s)) eqn:Hrun; [|by auto 8].
    destruct (Hr Hpc Hn) as [Hcm|[Haw _]]; [auto|right]. split; [done|].
    exists t, PExchange. split; [|by right]. apply (sp_producer_self t _ (sp_set_loop (sp_loop s) s)).
  - (* [awake_.exchange(true)] *)
    injection Hq as <- <-. destruct (el_awake (sp_loop s)) eqn:Haw.
    + assert (sp_coming s → sp_coming (sp_set_producer t None (sp_set_loop (el_set_awake true (sp_loop s)) s))) as Hk.
      { by eapply sp_coming_keep. }
      by constructor; simpl; auto.
    + assert (sp_coming (sp_set_producer t (Some PSend) (sp_set_loop (el_set_awake true (sp_loop s)) s))).
      { right. exists t. apply (sp_producer_self t _ (sp_set_loop _ s)). }
      by constructor; auto.
  - (* [wake()] *)
    injection Hq as <- <-. assert (sp_coming (sp_set_producer t None (sp_set_loop (el_wake (sp_loop s)) s))) by by left.
    by constructor; auto.
Qed.

Lemma sp_step_inv s s' : sp_step s s' → sp_inv s → sp_inv s'.
Proof.
  destruct 1 as [s s' Hs|s l' Hpc Haw Hsrc Hrun|s t r Ht|s t p q l' Ht Hq];
    eauto using sp_loop_step_inv, sp_call_inv, sp_producer_step_inv.
  intros [Ha Hr Hst]. constructor; simpl; rewrite Hpc; [sp_solve|sp_solve|].
  intros _ Hf. rewrite Hrun in Hf. destruct (Hst (or_introl Hpc) Hf) as [Hw|Hse]; [left|by right].
  unfold sp_woken in *; simpl. by rewrite Hsrc.
Qed.

(** C2 No wake-up is lost: in every interleaving, if the loop thread is inside
    its wait while a coroutine or a function is queued or a stop was requested,
    and every other thread has finished the call it was in, then the wait
    returns. *)
Theorem sp_no_lost_wakeup s :
  rtc sp_step sp_init s →
  sp_pc s = LWaiting → sp_producers s = ∅ →
  el_nothing_ready (sp_loop s) = false ∨ el_running (sp_loop s) = false →
  ∃ s', sp_loop_step s = Some s'.
Proof.
  intros Hr Hpc Hp Hw.
  assert (sp_inv s) as [_ Hready Hstop].
  { clear -Hr. remember sp_init as s0 eqn:Hs0. assert (sp_inv s0) as Hi by (subst; apply sp_init_inv).
    clear Hs0. induction Hr; eauto using sp_step_inv. }
  assert (sp_woken s = true) as Hwoken.
  { destruct Hw as [Hn|Hn].
    - destruct (Hready Hpc Hn) as [[Hcm|[t Ht]]|[_ (t & p & Ht & _)]]; [done|..];
        rewrite Hp in Ht; done.
    - destruct Hstop as [Hcm|[t Ht]]; [by right; right|done|done|]. by rewrite Hp in Ht. }
  unfold sp_loop_step. rewrite Hpc, Hwoken. eauto.
Qed.

(** The witness: a dispatch that arrives between the declaration and the wait. *)
Definition sp_race : list (sleep_state → option sleep_state) :=
  let prod s := match sp_producers s !! 7 with
    | Some p => let '(q, l) := sp_producer_step p (sp_loop s) in
                Some (sp_set_producer 7 q (sp_set_loop l s))
    | None => Some (sp_set_producer 7 (Some (PStart (ReqDispatch 3))) s)
    end in
  [sp_loop_step; sp_loop_step; sp_loop_step; prod; prod; prod; prod; prod].
Definition sp_race_end : option sleep_state :=
  foldl (λ o f, o ≫= f) (Some sp_init) sp_race.

Lemma sp_race_reachable s : sp_race_end = Some s → rtc sp_step sp_init s.
Proof.
  unfold sp_race_end.
  assert (∀ f, f ∈ sp_race → ∀ s0 s1, f s0 = Some s1 → sp_step s0 s1) as Hf.
  { intros f Hin s0 s1. unfold sp_race in Hin.
    repeat (apply elem_of_cons in Hin as [->|Hin]; [|]); [..|by apply elem_of_nil in Hin];
      try (by apply SpLoop);
      (destruct (sp_producers s0 !! 7) as [p|] eqn:Hp; simpl;
       [destruct (sp_producer_step p (sp_loop s0)) as [q l'] eqn:Hq; intros [= <-]; by eapply SpProducer
       |intros [= <-]; by apply SpCall]). }
  generalize sp_init as s0. revert Hf. generalize sp_race as fs.
  induction fs as [|f fs IH]; intros Hf s0; simpl; [by intros [= ->]|].
  destruct (f s0) as [s1|] eqn:Hs1.
  - intros Hr. eapply rtc_l; [eapply Hf; [left|exact Hs1]|]. apply IH; [|done]. intros. eapply Hf; [by right|done].
  - clear. induction fs; simpl; auto; done.
Qed.

Lemma sp_no_lost_wakeup_witness :
  ∃ s s', sp_race_end = Some s ∧ sp_pc s = LWaiting ∧ sp_loop_step s = Some s'.
Proof.
  destruct sp_race_end as [s|] eqn:He; [|vm_compute in He; discriminate He].
  pose proof (sp_race_reachable s He) as Hr. vm_compute in He. injection He as <-.
  destruct (sp_no_lost_wakeup _ Hr) as [s' Hs'];
    [reflexivity|reflexivity|left; reflexivity|].
  eexists _, s'. split_and!; [reflexivity|reflexivity|exact Hs'].
Defined.
