(* ===== verification/Runtime.v ===== *)
(** * Runtime: what the loops promise to the primitives built on them

    Locks, queues, channels and timers never look inside an [EventLoop]; they use
    the current loop and task of the thread, the wait epochs, scheduling on a
    waiter's home loop, timers and [dispatch].  The class [Runtime] lists those
    calls over an abstract world, [RuntimeLaws] what they guarantee; both are
    implemented by [world], a set of event loops with the cells they share.  The
    section at the end models the helpers of [src/include/coro/sync.hpp] that every
    primitive uses ([sync_waiter], [schedule_waiter], [erase_waiter]). *)

From S2P Require Import Prelude ReadyQueue Timers Frames EventLoop.
From stdpp Require Import options.
#[local] Set Default Proof Using "Type*".

(** ** Interface *)

Class Runtime (W : Type) : Type := {
  rt_loop : W → loop_id;                                     (* [&EventLoop::get()] *)
  rt_task : W → handle;                                      (* [EventLoop::current_task()] *)
  rt_now : W → Z;                                            (* [steady_clock::now()] *)
  rt_live : loop_id → handle → W → bool;                     (* registered, not finished *)
  rt_queued : loop_id → handle → W → bool;                   (* will be resumed *)
  rt_schedule : loop_id → handle → W → W;
  rt_begin_wait : loop_id → handle → W → Z * W;
  rt_end_wait : loop_id → handle → Z → W → W;
  rt_schedule_if_current : loop_id → handle → Z → W → bool * W;
  rt_is_wait_current : loop_id → handle → Z → W → bool;
  rt_dispatch : loop_id → fn_id → W → W;
  rt_schedule_timer : handle → Z → option loc → option loc → Z → W → W;
  rt_cells : W → cells;
  rt_set_cells : cells → W → W;
}.

(** The part of the world a primitive may rely on not changing under a call. *)
Definition rt_same_thread {W} `{Runtime W} (w w' : W) : Prop :=
  rt_loop w' = rt_loop w ∧ rt_task w' = rt_task w ∧ rt_now w' = rt_now w.

Class RuntimeLaws (W : Type) `{Runtime W} : Prop := {
  rl_schedule_thread l h w : rt_same_thread w (rt_schedule l h w);
  rl_begin_thread l h w : rt_same_thread w (rt_begin_wait l h w).2;
  rl_end_thread l h e w : rt_same_thread w (rt_end_wait l h e w);
  rl_sic_thread l h e w : rt_same_thread w (rt_schedule_if_current l h e w).2;
  (** scheduling a live frame queues it; nothing leaves the queues *)
  rl_schedule_queued l h w : h ≠ null_handle → rt_live l h w = true →
    rt_queued l h (rt_schedule l h w) = true;
  rl_schedule_mono l h l' h' w : rt_queued l' h' w = true →
    rt_queued l' h' (rt_schedule l h w) = true;
  (** a notification with the current epoch queues the frame, any other changes nothing *)
  rl_sic_queued l h e w : h ≠ null_handle → e ≠ 0%Z → rt_is_wait_current l h e w = true →
    rt_queued l h (rt_schedule_if_current l h e w).2 = true;
  rl_sic_stale l h e w : e ≠ 0%Z → rt_is_wait_current l h e w = false →
    rt_schedule_if_current l h e w = (false, w);
  rl_sic_mono l h e l' h' w : rt_queued l' h' w = true →
    rt_queued l' h' (rt_schedule_if_current l h e w).2 = true;
  (** scheduling does not end a wait *)
  rl_schedule_epochs l h l' h' e w :
    rt_is_wait_current l' h' e (rt_schedule l h w) = rt_is_wait_current l' h' e w;
  rl_sic_epochs l h e l' h' e' w :
    rt_is_wait_current l' h' e' (rt_schedule_if_current l h e w).2 = rt_is_wait_current l' h' e' w;
  (** a wait that begins is current, and it alone changes *)
  rl_begin_current l h w : h ≠ null_handle → (rt_begin_wait l h w).1 ≠ 0%Z → rt_live l h w = true →
    rt_is_wait_current l h (rt_begin_wait l h w).1 (rt_begin_wait l h w).2 = true;
  rl_begin_other l h l' h' e w : (l', h') ≠ (l, h) →
    rt_is_wait_current l' h' e (rt_begin_wait l h w).2 = rt_is_wait_current l' h' e w;
  rl_end_ended l h e w : e ≠ 0%Z → rt_is_wait_current l h e (rt_end_wait l h e w) = false;
  rl_end_other l h e l' h' e' w : (l', h') ≠ (l, h) →
    rt_is_wait_current l' h' e' (rt_end_wait l h e w) = rt_is_wait_current l' h' e' w;
  (** the shared cells are a component of their own *)
  rl_cells_get c w : rt_cells (rt_set_cells c w) = c;
  rl_schedule_live l h l' h' w : rt_live l' h' (rt_schedule l h w) = rt_live l' h' w;
  rl_cells_queued c l h w : rt_queued l h (rt_set_cells c w) = rt_queued l h w;
  rl_cells_live c l h w : rt_live l h (rt_set_cells c w) = rt_live l h w;
  rl_schedule_cells l h w : rt_cells (rt_schedule l h w) = rt_cells w;
  rl_dispatch_cells l fn w : rt_cells (rt_dispatch l fn w) = rt_cells w;
  rl_timer_cells h d t o v w : rt_cells (rt_schedule_timer h d t o v w) = rt_cells w;
}.

(** ** The loops implement it *)

(** The calling thread (its loop, its task, the time) and every loop. *)
Record world : Type := mkWorld {
  w_cur : loop_id;
  w_task : handle;
  w_now : Z;
  w_loops : loop_id → EventLoop CVEventSource;
  w_cells : cells;
}.

Definition w_set_loop (l : loop_id) (x : EventLoop CVEventSource) (w : world) : world :=
  mkWorld (w_cur w) (w_task w) (w_now w)
    (λ l', if decide (l' = l) then x else w_loops w l') (w_cells w).

Definition w_upd (l : loop_id) (f : EventLoop CVEventSource → EventLoop CVEventSource) (w : world) : world :=
  w_set_loop l (f (w_loops w l)) w.

Definition ft_scheduled (h : handle) (f : FrameTracker) : bool :=
  from_option fs_scheduled false (ft_live f !! h).

#[export] Instance world_runtime : Runtime world := {|
  rt_loop := w_cur;
  rt_task := w_task;
  rt_now := w_now;
  rt_live l h w := bool_decide (is_Some (ft_live (el_frames (w_loops w l)) !! h));
  rt_queued l h w := ft_scheduled h (el_frames (w_loops w l));
  rt_schedule l h w := w_upd l (el_schedule (bool_decide (w_cur w = l)) h) w;
  rt_begin_wait l h w := let '(e, x) := el_begin_wait h (w_loops w l) in (e, w_set_loop l x w);
  rt_end_wait l h e w := w_upd l (el_end_wait h e) w;
  rt_schedule_if_current l h e w :=
    let '(b, x) := el_schedule_if_current (bool_decide (w_cur w = l)) h e (w_loops w l) in
    (b, if b then w_set_loop l x w else w);
  rt_is_wait_current l h e w := el_is_wait_current h e (w_loops w l);
  rt_dispatch l fn w := w_upd l (el_dispatch (bool_decide (w_cur w = l)) fn) w;
  rt_schedule_timer h d tok out v w := w_upd (w_cur w) (el_schedule_timer h d tok out v) w;
  rt_cells := w_cells;
  rt_set_cells c w := mkWorld (w_cur w) (w_task w) (w_now w) (w_loops w) c;
|}.

(** ** Frame-level facts behind the laws *)

Section frame_laws.
Implicit Types l : EventLoop CVEventSource.

Lemma ft_scheduled_exchange h h' s f :
  ft_live f !! h = Some s →
  ft_scheduled h' (ft_exchange h s f).2 = (if decide (h' = h) then true else ft_scheduled h' f).
Proof.
  intros Hl. unfold ft_scheduled; simpl. case_decide as Hd.
  - subst. by rewrite lookup_insert_eq.
  - by rewrite lookup_insert_ne.
Qed.

Lemma ft_current_exchange h h' e s f :
  ft_live f !! h = Some s →
  ft_wait_is_current h' e (ft_exchange h s f).2 = ft_wait_is_current h' e f.
Proof.
  intros Hl. unfold ft_wait_is_current; simpl. destruct (decide (h' = h)) as [->|Hne].
  - by rewrite lookup_insert_eq, Hl.
  - by rewrite lookup_insert_ne.
Qed.

(** The frames after [schedule]: unchanged, or one flag exchanged. *)
Lemma el_schedule_frames same h l :
  el_frames (el_schedule same h l) = el_frames l ∨
  ∃ s, h ≠ null_handle ∧ ft_live (el_frames l) !! h = Some s ∧
       el_frames (el_schedule same h l) = (ft_exchange h s (el_frames l)).2.
Proof.
  unfold el_schedule, el_schedule_locked. case_decide; [by left|].
  destruct (ft_try_reserve h (el_frames l)) as [r f] eqn:Hr.
  apply ft_try_reserve_cases in Hr as [[-> ->]|(s & Hl & Hs & -> & ->)]; simpl; [by left|].
  right. exists s. split_and!; [done|done|]. apply el_wake_if_asleep_ext.
Qed.

Lemma el_schedule_if_current_frames same h e l :
  el_schedule_if_current same h e l = (false, l) ∨
  ∃ s, h ≠ null_handle ∧ ft_live (el_frames l) !! h = Some s ∧ fs_wait_epoch s = e ∧
       (el_schedule_if_current same h e l).1 = true ∧
       el_frames (el_schedule_if_current same h e l).2 = (ft_exchange h s (el_frames l)).2.
Proof.
  unfold el_schedule_if_current. case_decide; [by left|].
  destruct (ft_try_reserve_if_current h e (el_frames l)) as [r f] eqn:Hr.
  apply ft_try_reserve_if_current_cases in Hr as [[-> ->]|(s & Hl & Hs & He & -> & ->)]; simpl.
  - left. by rewrite el_set_frames_id.
  - right. exists s. split_and!; [done|done|done|done|]. apply el_wake_if_asleep_ext.
Qed.

Lemma el_begin_wait_frames_other h h' e l :
  h' ≠ h → ft_wait_is_current h' e (el_frames (el_begin_wait h l).2) = ft_wait_is_current h' e (el_frames l).
Proof.
  intros Hne. unfold el_begin_wait, ft_begin_wait, ft_wait_is_current.
  case_decide; [done|]. destruct (ft_live (el_frames l) !! h) eqn:Hl; simpl; [|done].
  by rewrite lookup_insert_ne.
Qed.

Lemma el_end_wait_frames_other h h' e e' l :
  h' ≠ h → ft_wait_is_current h' e' (el_frames (el_end_wait h e l)) = ft_wait_is_current h' e' (el_frames l).
Proof.
  intros Hne. unfold el_end_wait, ft_end_wait, ft_wait_is_current.
  case_decide; [done|]. simpl. destruct (ft_live (el_frames l) !! h) eqn:Hl; [|done].
  case_decide; [|done]. simpl. by rewrite lookup_insert_ne.
Qed.
End frame_laws.

Lemma w_loops_upd l f w l' :
  w_loops (w_upd l f w) l' = if decide (l' = l) then f (w_loops w l) else w_loops w l'.
Proof. done. Qed.

(** Case split on whether the loop looked at is the one updated. *)
Ltac at_loop :=
  simpl; unfold w_upd, w_set_loop; simpl;
  repeat match goal with
  | |- context [decide (?a = ?b)] => destruct (decide (a = b)); [subst|]
  end; simpl; try done.

Section world_laws.

Lemma world_schedule_mono l h l' h' w :
  rt_queued l' h' w = true → rt_queued l' h' (rt_schedule l h w) = true.
Proof.
  at_loop. destruct (el_schedule_frames (bool_decide (w_cur w = l)) h (w_loops w l))
    as [->|(s & _ & Hl & ->)]; [done|]. rewrite ft_scheduled_exchange by done. by case_decide.
Qed.

Lemma world_sic_cases l h e w :
  rt_schedule_if_current l h e w = (false, w) ∨
  ∃ s x, h ≠ null_handle ∧ ft_live (el_frames (w_loops w l)) !! h = Some s ∧ fs_wait_epoch s = e ∧
    rt_schedule_if_current l h e w = (true, w_set_loop l x w) ∧
    el_frames x = (ft_exchange h s (el_frames (w_loops w l))).2.
Proof.
  simpl. destruct (el_schedule_if_current_frames (bool_decide (w_cur w = l)) h e (w_loops w l))
    as [->|(s & Hh & Hl & He & Hb & Hf)]; [by left|right].
  destruct (el_schedule_if_current _ h e _) as [b x]; simpl in *. subst b. exists s, x. done.
Qed.

(** Scheduling a live frame queues it: it was queued, or its flag is set now. *)
Lemma world_schedule_queued l h (w : world) :
  h ≠ null_handle → rt_live l h w = true → rt_queued l h (rt_schedule l h w) = true.
Proof.
  intros Hh Hl. at_loop. apply bool_decide_eq_true in Hl as [s Hs].
  unfold el_schedule, el_schedule_locked. rewrite decide_False by done.
  destruct (ft_try_reserve h (el_frames (w_loops w l))) as [r f] eqn:Hr.
  unfold ft_try_reserve in Hr. rewrite Hs in Hr. simpl in Hr.
  destruct (fs_scheduled s) eqn:Hsch; simplify_eq/=.
  + unfold ft_scheduled; simpl. by rewrite lookup_insert_eq.
  + destruct (el_wake_if_asleep_ext (bool_decide (w_cur w = l))
      (el_set_queues (rq_push (mkReadyEntry h (fs_generation s)) (el_ready (w_loops w l)))
         (el_batch (w_loops w l))
         (ft_set_live (<[h:=fs_set_scheduled true s]> (ft_live (el_frames (w_loops w l)))) (el_frames (w_loops w l)))
         (w_loops w l))) as (_ & _ & ->).
    unfold ft_scheduled; simpl. by rewrite lookup_insert_eq.
Qed.

(** A notification with the current epoch queues the frame. *)
Lemma world_sic_queued l h e (w : world) :
  h ≠ null_handle → e ≠ 0%Z → rt_is_wait_current l h e w = true →
  rt_queued l h (rt_schedule_if_current l h e w).2 = true.
Proof.
  intros Hh He Hc. simpl in Hc. unfold el_is_wait_current in Hc.
  rewrite decide_False in Hc by naive_solver. unfold ft_wait_is_current in Hc.
  destruct (ft_live (el_frames (w_loops w l)) !! h) as [s|] eqn:Hl; [|done].
  apply bool_decide_eq_true in Hc.
  destruct (fs_scheduled s) eqn:Hs.
  + assert (rt_queued l h w = true) as Hq by (simpl; unfold ft_scheduled; by rewrite Hl).
    destruct (world_sic_cases l h e w) as [->|(s' & x & _ & Hl' & _ & -> & Hx)]; [done|].
    at_loop. rewrite Hx, ft_scheduled_exchange by done. by rewrite decide_True.
  + assert ((rt_schedule_if_current l h e w).1 = true) as Hb.
    { simpl. unfold el_schedule_if_current. rewrite decide_False by done.
      unfold ft_try_reserve_if_current. rewrite Hl, decide_False by naive_solver. simpl. by rewrite Hs. }
    destruct (world_sic_cases l h e w) as [Hn|(s' & x & _ & Hl' & _ & -> & Hx)]; [by rewrite Hn in Hb|].
    at_loop. rewrite Hx, ft_scheduled_exchange by done. by rewrite decide_True.
Qed.

(** One with another epoch changes nothing. *)
Lemma world_sic_stale l h e (w : world) :
  e ≠ 0%Z → rt_is_wait_current l h e w = false → rt_schedule_if_current l h e w = (false, w).
Proof.
  intros He Hc. destruct (world_sic_cases l h e w) as [->|(s & x & Hh & Hl & Hs & _)]; [done|].
  simpl in Hc. unfold el_is_wait_current, ft_wait_is_current in Hc.
  rewrite decide_False, Hl in Hc by naive_solver. by apply bool_decide_eq_false in Hc.
Qed.

Lemma world_sic_mono l h e l' h' (w : world) :
  rt_queued l' h' w = true → rt_queued l' h' (rt_schedule_if_current l h e w).2 = true.
Proof.
  intros Hq.
  destruct (world_sic_cases l h e w) as [->|(s & x & Hh & Hl & Hs & -> & Hx)]; [done|].
  revert Hq. at_loop. rewrite Hx, ft_scheduled_exchange by done. by case_decide.
Qed.

(** Scheduling ends no wait. *)
Lemma world_schedule_epochs l h l' h' e (w : world) :
  rt_is_wait_current l' h' e (rt_schedule l h w) = rt_is_wait_current l' h' e w.
Proof.
  at_loop. unfold el_is_wait_current. case_decide; [done|].
  destruct (el_schedule_frames (bool_decide (w_cur w = l)) h (w_loops w l))
    as [->|(s & _ & Hl & ->)]; [done|]. by apply ft_current_exchange.
Qed.

Lemma world_sic_epochs l h e l' h' e' (w : world) :
  rt_is_wait_current l' h' e' (rt_schedule_if_current l h e w).2 = rt_is_wait_current l' h' e' w.
Proof.
  destruct (world_sic_cases l h e w) as [->|(s & x & Hh & Hl & Hs & -> & Hx)]; [done|].
  at_loop. unfold el_is_wait_current. case_decide; [done|]. rewrite Hx. by apply ft_current_exchange.
Qed.

(** A wait that begins is current. *)
Lemma world_begin_current l h (w : world) :
  h ≠ null_handle → (rt_begin_wait l h w).1 ≠ 0%Z → rt_live l h w = true →
  rt_is_wait_current l h (rt_begin_wait l h w).1 (rt_begin_wait l h w).2 = true.
Proof.
  intros Hh He Hl. simpl in *. apply bool_decide_eq_true in Hl as [s Hs].
  unfold el_begin_wait in *.
  pose proof (ft_begin_wait_current h (el_frames (w_loops w l)) s Hh Hs) as Hc.
  destruct (ft_begin_wait h (el_frames (w_loops w l))) as [e f]. simpl in *.
  at_loop. unfold el_is_wait_current. by rewrite decide_False by naive_solver.
Qed.

Lemma world_begin_other l h l' h' e (w : world) :
  (l', h') ≠ (l, h) → rt_is_wait_current l' h' e (rt_begin_wait l h w).2 = rt_is_wait_current l' h' e w.
Proof.
  intros Hne. simpl. destruct (el_begin_wait h (w_loops w l)) as [e0 x] eqn:Hb.
  at_loop. unfold el_is_wait_current. case_decide; [done|].
  pose proof (el_begin_wait_frames_other h h' e (w_loops w l) ltac:(naive_solver)) as Hf.
  by rewrite Hb in Hf.
Qed.

(** A wait that ends is no longer current. *)
Lemma world_end_ended l h e (w : world) :
  e ≠ 0%Z → rt_is_wait_current l h e (rt_end_wait l h e w) = false.
Proof.
  intros He. at_loop. unfold el_is_wait_current, el_end_wait. case_decide; [done|].
  unfold ft_wait_is_current, ft_end_wait; simpl.
  destruct (ft_live (el_frames (w_loops w l)) !! h) as [s|] eqn:Hl; [|by rewrite Hl].
  case_decide as Hd; simpl.
  + rewrite lookup_insert_eq. apply bool_decide_eq_false. simpl. naive_solver.
  + rewrite Hl. by apply bool_decide_eq_false.
Qed.

(** Scheduling neither creates nor destroys a frame. *)
Lemma world_schedule_live l h l' h' (w : world) :
  rt_live l' h' (rt_schedule l h w) = rt_live l' h' w.
Proof.
  at_loop. destruct (el_schedule_frames (bool_decide (w_cur w = l)) h (w_loops w l))
    as [->|(s & _ & Hl & ->)]; [done|]. apply bool_decide_ext. simpl.
  destruct (decide (h' = h)) as [->|Hne].
  + rewrite lookup_insert_eq, Hl. split; intros; by eexists.
  + by rewrite lookup_insert_ne.
Qed.

#[export] Instance world_laws : RuntimeLaws world.
Proof.
  constructor; try done.
  - intros l h w. simpl. by destruct (el_begin_wait h (w_loops w l)).
  - intros l h e w. by destruct (world_sic_cases l h e w) as [->|(s & x & _ & _ & _ & -> & _)].
  - apply world_schedule_queued.
  - apply world_schedule_mono.
  - apply world_sic_queued.
  - apply world_sic_stale.
  - apply world_sic_mono.
  - apply world_schedule_epochs.
  - apply world_sic_epochs.
  - apply world_begin_current.
  - apply world_begin_other.
  - apply world_end_ended.
  - intros l h e l' h' e' w Hne. at_loop. unfold el_is_wait_current. case_decide; [done|].
    apply el_end_wait_frames_other. naive_solver.
  - apply world_schedule_live.
Qed.
End world_laws.

(** ** Waiters of the synchronisation primitives *)

(** [detail::sync_waiter]: a null loop is 0. *)
Record sync_waiter : Type := mkWaiter {
  sw_handle : handle;
  sw_loop : loop_id;
  sw_epoch : Z;
}.

#[export] Instance sync_waiter_eq_dec : EqDecision sync_waiter.
Proof. solve_decision. Defined.

(** [detail::erase_waiter]: every entry of the handle goes. *)
Definition erase_waiter (h : handle) (ws : list sync_waiter) : list sync_waiter :=
  filter (λ x, sw_handle x ≠ h) ws.

Section waiters.
Context {W : Type} `{Runtime W}.

(** [detail::schedule_waiter]. *)
Definition schedule_waiter (x : sync_waiter) (w : W) : W :=
  let target := if decide (sw_loop x = 0) then rt_loop w else sw_loop x in
  if decide (sw_epoch x ≠ 0%Z)
  then (rt_schedule_if_current target (sw_handle x) (sw_epoch x) w).2
  else rt_schedule target (sw_handle x) w.

(** Still waiting with the identity it registered. *)
Definition waiter_current (x : sync_waiter) (w : W) : Prop :=
  sw_handle x ≠ null_handle ∧ sw_loop x ≠ 0 ∧ sw_epoch x ≠ 0%Z ∧
  rt_is_wait_current (sw_loop x) (sw_handle x) (sw_epoch x) w = true.

Definition waiter_queued (x : sync_waiter) (w : W) : Prop :=
  rt_queued (sw_loop x) (sw_handle x) w = true.

(** Deliver a notification to each waiter, as the loops over a swapped-out list do. *)
Definition notify_current (x : sync_waiter) (w : W) : W :=
  (rt_schedule_if_current (sw_loop x) (sw_handle x) (sw_epoch x) w).2.

(** The identity an awaiter registers: [handle_], [loop_], [epoch_]. *)
Definition register_wait (h : handle) (w : W) : sync_waiter * W :=
  let '(e, w') := rt_begin_wait (rt_loop w) h w in (mkWaiter h (rt_loop w) e, w').

(** [if (loop_ && epoch_ != 0) loop_->end_wait(handle_, epoch_)]. *)
Definition finish_wait (x : sync_waiter) (w : W) : W :=
  if decide (sw_loop x ≠ 0 ∧ sw_epoch x ≠ 0%Z)
  then rt_end_wait (sw_loop x) (sw_handle x) (sw_epoch x) w
  else w.

Context `{!RuntimeLaws W}.

Lemma schedule_waiter_queued x w : waiter_current x w → waiter_queued x (schedule_waiter x w).
Proof.
  intros (Hh & Hl & He & Hc). unfold waiter_queued, schedule_waiter.
  rewrite (decide_False (P := sw_loop x = 0)), (decide_True (P := sw_epoch x ≠ 0%Z)) by done.
  by apply rl_sic_queued.
Qed.

Lemma schedule_waiter_epochs x l h e w :
  rt_is_wait_current l h e (schedule_waiter x w) = rt_is_wait_current l h e w.
Proof. unfold schedule_waiter. case_decide; [apply rl_sic_epochs|apply rl_schedule_epochs]. Qed.

Lemma schedule_waiter_mono x y w : waiter_queued y w → waiter_queued y (schedule_waiter x w).
Proof.
  unfold waiter_queued, schedule_waiter. case_decide; [apply rl_sic_mono|apply rl_schedule_mono].
Qed.

Lemma notify_current_queued x w : waiter_current x w → waiter_queued x (notify_current x w).
Proof. intros (Hh & Hl & He & Hc). by apply rl_sic_queued. Qed.

Lemma notify_current_mono x y w : waiter_queued y w → waiter_queued y (notify_current x w).
Proof. apply rl_sic_mono. Qed.

Lemma notify_current_keeps x y w : waiter_current y w → waiter_current y (notify_current x w).
Proof. unfold waiter_current, notify_current. by rewrite rl_sic_epochs. Qed.

Lemma schedule_waiter_keeps x y w : waiter_current y w → waiter_current y (schedule_waiter x w).
Proof. unfold waiter_current. by rewrite schedule_waiter_epochs. Qed.

(** Notifying a whole list queues every member that is still waiting. *)
Lemma notify_all_queued xs x w :
  x ∈ xs → waiter_current x w → waiter_queued x (foldl (λ w x, notify_current x w) w xs).
Proof.
  assert (∀ xs w, waiter_queued x w → waiter_queued x (foldl (λ w x, notify_current x w) w xs)) as Hq.
  { intros ys. induction ys as [|y ys IH]; simpl; [done|]. intros. by apply IH, notify_current_mono. }
  revert w. induction xs as [|y xs IH]; intros w Hin Hc; simpl; [by apply elem_of_nil in Hin|].
  apply elem_of_cons in Hin as [->|Hin].
  - by apply Hq, notify_current_queued.
  - by apply IH, notify_current_keeps.
Qed.

Lemma register_wait_current h w :
  h ≠ null_handle → rt_loop w ≠ 0 → rt_live (rt_loop w) h w = true →
  (rt_begin_wait (rt_loop w) h w).1 ≠ 0%Z →
  waiter_current (register_wait h w).1 (register_wait h w).2.
Proof.
  intros Hh Hl Hlive He. pose proof (rl_begin_current (rt_loop w) h w Hh He Hlive) as Hc.
  unfold register_wait. destruct (rt_begin_wait (rt_loop w) h w) as [e w']; simpl in *. by split_and!.
Qed.
End waiters.

Lemma erase_waiter_not_in h ws x : x ∈ erase_waiter h ws → sw_handle x ≠ h ∧ x ∈ ws.
Proof. unfold erase_waiter. by intros []%list_elem_of_filter. Qed.

#[export] Hint Resolve schedule_waiter_queued schedule_waiter_keeps notify_current_keeps
  schedule_waiter_mono notify_current_mono : coro.

(** ** A world for scenarios: one loop, 1, on which coroutines 10 to 15 are running *)

Definition w_demo : world :=
  let l := foldr (λ h x, el_on_coroutine_started h x) (el_init 1 cv_init) [10; 11; 12; 13; 14; 15] in
  mkWorld 1 10 0 (λ _, l) {| c_flags := ∅; c_ints := ∅ |}.
