(* ===== verification/LockM.v ===== *)
(** * LockM: the recursive mutex ([coro::Lock])

    [src/include/coro/sync.hpp], class [Lock]: FIFO hand-off to the first waiter,
    recursion by the owner, hand-off requested by a condition variable, and the
    cleanup of a waiter that is cancelled.  [alock] is the abstract lock it
    implements. *)

From S2P Require Import Prelude ReadyQueue Timers Frames EventLoop Runtime.
From stdpp Require Import options.
#[local] Set Default Proof Using "Type*".

(** ** State: [locked_], [owner_] (0 is nullptr), [recursion_count_], [waiters_] *)

Record Lock : Type := mkLock {
  lk_locked : bool;
  lk_owner : handle;
  lk_recursion : nat;
  lk_waiters : list sync_waiter;
}.

Definition lock_init : Lock := mkLock false null_handle 0 [].

(** [struct Guard]: the owner recorded when the lock was obtained. *)
Record LockGuard : Type := mkLockGuard { lg_owner : handle }.

Section lock.
Context {W : Type} `{Runtime W}.
Implicit Types (k : Lock) (w : W).

(** [unlock_locked_]. *)
Definition lock_unlock_locked k : option sync_waiter * Lock :=
  match lk_waiters k with
  | next :: rest => (Some next, mkLock (lk_locked k) (sw_handle next) (lk_recursion k) rest)
  | [] => (None, mkLock false null_handle (lk_recursion k) [])
  end.

(** The end of a release, once the critical section is over. *)
Definition lock_schedule_next (next : option sync_waiter) w : W :=
  match next with
  | Some x => if decide (sw_handle x = null_handle) then w else schedule_waiter x w
  | None => w
  end.

Definition lock_release k w : Lock * W :=
  match lk_recursion k with
  | S n => (mkLock (lk_locked k) (lk_owner k) n (lk_waiters k), w)
  | 0 =>
      if lk_locked k then
        let '(next, k') := lock_unlock_locked k in (k', lock_schedule_next next w)
      else (k, w)
  end.

(** [release_if_owner]: the destructor of [Guard]. *)
Definition lock_release_if_owner (owner : handle) k w : Lock * W :=
  if decide (lk_owner k ≠ owner) then (k, w)
  else match lk_recursion k with
  | S n => (mkLock (lk_locked k) (lk_owner k) n (lk_waiters k), w)
  | 0 =>
      if lk_locked k then
        let '(next, k') := lock_unlock_locked k in (k', lock_schedule_next next w)
      else (k, w)
  end.

Definition lock_guard_drop (g : LockGuard) k w : Lock * W := lock_release_if_owner (lg_owner g) k w.

(** [acquire_awaiter::await_suspend]: does the coroutine suspend, and the wait it registered. *)
Definition lock_await_suspend (h : handle) k w : bool * sync_waiter * Lock * W :=
  let here := mkWaiter h (rt_loop w) 0 in
  if decide (lk_owner k = h) then
    (false, here, mkLock (lk_locked k) (lk_owner k) (S (lk_recursion k)) (lk_waiters k), w)
  else if lk_locked k then
    let '(x, w') := register_wait h w in
    (true, x, mkLock (lk_locked k) (lk_owner k) (lk_recursion k) (lk_waiters k ++ [x]), w')
  else (false, here, mkLock true h (lk_recursion k) (lk_waiters k), w).

Definition lock_await_resume (x : sync_waiter) w : bool * W := (true, finish_wait x w).

(** [Lock::on_waiter_destroyed]. *)
Definition lock_on_waiter_destroyed (h : handle) k w : Lock * W :=
  let k := mkLock (lk_locked k) (lk_owner k) (lk_recursion k) (erase_waiter h (lk_waiters k)) in
  if decide (lk_owner k ≠ h) then (k, w) else lock_release k w.

(** [acquire_awaiter::on_waiter_destroyed]. *)
Definition lock_awaiter_destroyed (x : sync_waiter) (h : handle) k w : Lock * W :=
  let w := finish_wait (mkWaiter h (sw_loop x) (sw_epoch x)) w in
  lock_on_waiter_destroyed h k w.

(** [guard_awaiter]: the same suspension, the guard on resumption. *)
Definition lock_guard_await_suspend (h : handle) k w : bool * sync_waiter * Lock * W :=
  lock_await_suspend h k w.
Definition lock_guard_await_resume (x : sync_waiter) w : LockGuard * W :=
  let w := finish_wait x w in (mkLockGuard (sw_handle x), w).
Definition lock_guard_awaiter_destroyed (x : sync_waiter) (h : handle) k w : Lock * W :=
  lock_awaiter_destroyed x h k w.

Definition lock_hand_off (x : sync_waiter) k w : Lock * W :=
  if decide (sw_loop x = 0) then (k, w)
  else if rt_is_wait_current (sw_loop x) (sw_handle x) (sw_epoch x) w then
    if lk_locked k
    then (mkLock (lk_locked k) (lk_owner k) (lk_recursion k) (lk_waiters k ++ [x]), w)
    else (mkLock true (sw_handle x) (lk_recursion k) (lk_waiters k), schedule_waiter x w)
  else (k, w).

Definition lock_is_locked k : bool := lk_locked k.
Definition lock_is_owned_by (frame : handle) k : bool := bool_decide (lk_owner k = frame).
Definition lock_has_waiter (h : handle) k : bool := existsb (λ x, bool_decide (sw_handle x = h)) (lk_waiters k).

(** ** Well-formedness *)

Definition lock_wf k : Prop :=
  (if lk_locked k then lk_owner k ≠ null_handle
   else lk_owner k = null_handle ∧ lk_recursion k = 0 ∧ lk_waiters k = []) ∧
  Forall (λ x, sw_handle x ≠ null_handle) (lk_waiters k).

Lemma lock_init_wf : lock_wf lock_init.
Proof. by split. Qed.

(** ** The abstract lock: an owner with its depth, a queue *)

Definition alock : Type := option (handle * nat) * list handle.

Inductive alock_event : Type :=
  | ETake (h : handle)    (* obtained without waiting *)
  | EWait (h : handle)    (* joined the queue *)
  | EUnnest               (* one level of recursion less *)
  | EGrant (h : handle)   (* handed to the head of the queue *)
  | EFree                 (* nobody waiting *)
  | ELeave (h : handle).  (* left the queue *)

#[export] Instance alock_event_eq_dec : EqDecision alock_event.
Proof. solve_decision. Defined.

Inductive alock_step : alock → alock_event → alock → Prop :=
  | AS_Take h : alock_step (None, []) (ETake h) (Some (h, 0), [])
  | AS_Again h n q : alock_step (Some (h, n), q) (ETake h) (Some (h, S n), q)
  | AS_Wait o n q h : o ≠ h → alock_step (Some (o, n), q) (EWait h) (Some (o, n), q ++ [h])
  | AS_Unnest h n q : alock_step (Some (h, S n), q) EUnnest (Some (h, n), q)
  | AS_Grant h x q : alock_step (Some (h, 0), x :: q) (EGrant x) (Some (x, 0), q)
  | AS_Free h : alock_step (Some (h, 0), []) EFree (None, [])
  | AS_Leave o q h : alock_step (o, q) (ELeave h) (o, filter (λ x, x ≠ h) q).

Inductive alock_steps : alock → list alock_event → alock → Prop :=
  | ASS_nil a : alock_steps a [] a
  | ASS_cons a e a' es a'' : alock_step a e a' → alock_steps a' es a'' → alock_steps a (e :: es) a''.

Definition lock_abs k : alock :=
  (if lk_locked k then Some (lk_owner k, lk_recursion k) else None, sw_handle <$> lk_waiters k).

(** The calls a client can make, with the caller where the code knows it. *)
Inductive lock_call : Type :=
  | LcAcquire (h : handle)
  | LcRelease
  | LcDropGuard (g : LockGuard)
  | LcHandOff (x : sync_waiter)
  | LcCancel (x : sync_waiter).

Definition lock_exec (c : lock_call) k w : Lock * W :=
  match c with
  | LcAcquire h => let '(_, _, k', w') := lock_await_suspend h k w in (k', w')
  | LcRelease => lock_release k w
  | LcDropGuard g => lock_guard_drop g k w
  | LcHandOff x => lock_hand_off x k w
  | LcCancel x => lock_awaiter_destroyed x (sw_handle x) k w
  end.

(** Handles the client passes are not null; [acquire] is not called by a coroutine
    that is the target of a hand-off in progress. *)
Definition lock_call_ok (c : lock_call) k : Prop :=
  match c with
  | LcAcquire h => h ≠ null_handle
  | LcRelease | LcDropGuard _ => True
  | LcHandOff x => sw_handle x ≠ null_handle ∧ (lk_locked k = true → lk_owner k ≠ sw_handle x)
  | LcCancel x => sw_handle x ≠ null_handle
  end.

Lemma lock_wf_abs k : lock_wf k → lock_abs k =
  (if lk_locked k then (Some (lk_owner k, lk_recursion k), sw_handle <$> lk_waiters k) else (None, [])).
Proof.
  intros [Hl _]. unfold lock_abs. destruct (lk_locked k); [done|]. by destruct Hl as (_ & _ & ->).
Qed.

Lemma erase_waiter_handles h ws :
  sw_handle <$> erase_waiter h ws = filter (λ x, x ≠ h) (sw_handle <$> ws).
Proof.
  unfold erase_waiter. induction ws as [|x ws IH]; [done|].
  rewrite fmap_cons, !filter_cons, <- IH. by repeat case_decide.
Qed.

(** What a release does, for any well-formed lock. *)
Lemma lock_release_spec k w k' w' :
  lock_wf k → lock_release k w = (k', w') →
  lock_wf k' ∧
  ∃ es, alock_steps (lock_abs k) es (lock_abs k') ∧
    w' = foldl (λ w x, schedule_waiter x w) w
           (filter (λ x, EGrant (sw_handle x) ∈ es) (take 1 (lk_waiters k))).
Proof.
  intros Hwf Hr. pose proof Hwf as [Hl Hh]. revert Hr. unfold lock_release.
  destruct (lk_recursion k) as [|n] eqn:Hn.
  - destruct (lk_locked k) eqn:Hlk; last first.
    { intros [= <- <-]. split; [done|]. exists []. split; [constructor|].
      destruct Hl as (_ & _ & ->). done. }
    unfold lock_unlock_locked. destruct (lk_waiters k) as [|x q] eqn:Hq; intros [= <- <-].
    + split; [by split|]. exists [EFree]. split; [|done].
      unfold lock_abs; simpl. rewrite Hlk, Hq, Hn. repeat econstructor.
    + apply Forall_cons in Hh as [Hx Hh]. simpl. rewrite decide_False by done.
      split; [by split; simpl; rewrite ?Hlk|]. exists [EGrant (sw_handle x)]. split.
      * unfold lock_abs; simpl. rewrite Hlk, Hq, Hn. repeat econstructor.
      * rewrite filter_cons_True by set_solver. by rewrite take_0.
  - intros [= <- <-]. destruct (lk_locked k) eqn:Hlk; [|by destruct Hl as (_ & ? & _)].
    split; [by split; simpl; rewrite ?Hlk|]. exists [EUnnest]. split.
    + unfold lock_abs; simpl. rewrite Hlk, Hn. repeat econstructor.
    + rewrite filter_impl_nil; [done|]. apply Forall_true. set_solver.
Qed.

Lemma lock_steps_one a e a' : alock_step a e a' → alock_steps a [e] a'.
Proof. intros. econstructor; [done|constructor]. Qed.

Lemma lock_await_suspend_step h k w s x k' w' :
  lock_wf k → h ≠ null_handle → lock_await_suspend h k w = (s, x, k', w') →
  lock_wf k' ∧ sw_handle x = h ∧
  alock_step (lock_abs k) (if s then EWait h else ETake h) (lock_abs k').
Proof.
  intros Hwf Hh. pose proof Hwf as [Hl Hf]. unfold lock_await_suspend.
  case_decide as Ho; [|destruct (lk_locked k) eqn:Hlk].
  - intros [= <- <- <- <-]. destruct (lk_locked k) eqn:Hlk; [|destruct Hl; congruence].
    split_and!; [by split; simpl; rewrite ?Hlk|done|].
    unfold lock_abs; simpl. rewrite Hlk, Ho. constructor.
  - unfold register_wait. destruct (rt_begin_wait (rt_loop w) h w) as [e w1].
    intros [= <- <- <- <-]. split_and!; [|done|].
    + split; simpl; rewrite ?Hlk; [done|]. rewrite Forall_app, Forall_singleton. done.
    + unfold lock_abs; simpl. rewrite Hlk, fmap_app. by constructor.
  - intros [= <- <- <- <-]. destruct Hl as (? & Hr & Hw). split_and!; [|done|].
    + by split; simpl.
    + unfold lock_abs; simpl. rewrite Hlk, Hr, Hw. constructor.
Qed.

Lemma lock_erase_wf h k :
  lock_wf k → lock_wf (mkLock (lk_locked k) (lk_owner k) (lk_recursion k) (erase_waiter h (lk_waiters k))).
Proof.
  intros [Hl Hf]. split; simpl; [|by apply Forall_filter_sub].
  destruct (lk_locked k); [done|]. destruct Hl as (?&?&->). done.
Qed.

Lemma lock_erase_step h k :
  alock_step (lock_abs k) (ELeave h)
    (lock_abs (mkLock (lk_locked k) (lk_owner k) (lk_recursion k) (erase_waiter h (lk_waiters k)))).
Proof. unfold lock_abs; simpl. rewrite erase_waiter_handles. constructor. Qed.

Lemma lock_release_refines k w k' w' :
  lock_wf k → lock_release k w = (k', w') →
  lock_wf k' ∧ ∃ es, alock_steps (lock_abs k) es (lock_abs k').
Proof. intros Hwf Hr. destruct (lock_release_spec k w k' w' Hwf Hr) as [? (es & ? & _)]. eauto. Qed.


Context `{!RuntimeLaws W}.

(** A release never loses the hand-off: the first waiter becomes the owner,
    the order of the others is kept, and if that waiter still waits it is queued
    to be resumed; if it died meanwhile, its cleanup hands the lock to the next
    waiter or frees it, so that a cancellation never leaks the lock. *)
Theorem lock_hand_off_not_lost k w k' w' x q :
  lock_wf k → lk_locked k = true → lk_recursion k = 0 → lk_waiters k = x :: q →
  lock_release k w = (k', w') →
  lk_owner k' = sw_handle x ∧ lk_waiters k' = q ∧
  (waiter_current x w → waiter_queued x w') ∧
  let '(k'', _) := lock_awaiter_destroyed x (sw_handle x) k' w' in
  sw_handle x ∉ sw_handle <$> lk_waiters k'' ∧
  match erase_waiter (sw_handle x) q with
  | [] => lk_locked k'' = false
  | y :: _ => lk_owner k'' = sw_handle y ∧ sw_handle y ≠ sw_handle x
  end.
Proof.
  intros [_ Hf] Hl Hn Hq. unfold lock_release, lock_unlock_locked. rewrite Hn, Hl, Hq.
  intros [= <- <-]. simpl. rewrite Hq in Hf. apply Forall_cons in Hf as [Hx Hf].
  rewrite (decide_False (P := sw_handle x = null_handle)) by done.
  split_and!; [done|done|by apply schedule_waiter_queued|].
  unfold lock_awaiter_destroyed, lock_on_waiter_destroyed; simpl.
  rewrite (decide_False (P := sw_handle x ≠ sw_handle x)) by auto.
  unfold lock_release, lock_unlock_locked; simpl. rewrite ?Hn, ?Hl.
  destruct (erase_waiter (sw_handle x) q) as [|y r] eqn:He; simpl.
  - split; [apply not_elem_of_nil|done].
  - assert (∀ z, z ∈ y :: r → sw_handle z ≠ sw_handle x) as Hz.
    { intros z Hz. rewrite <- He in Hz. by apply erase_waiter_not_in in Hz as [? _]. }
    split_and!; [|done|apply Hz; by left].
    intros (z & Heq & Hin)%list_elem_of_fmap. apply (Hz z); [by right|done].
Qed.
End lock.

(** ** Scenario: 10 holds the lock, 11 waits, 10 releases *)

Definition lock_demo : Lock * world :=
  let '(k, w) := lock_exec (LcAcquire 10) lock_init w_demo in
  lock_exec (LcAcquire 11) k w.

Lemma lock_demo_wf : lock_wf lock_demo.1.
Proof. vm_compute. split; [discriminate|]. repeat constructor. discriminate. Qed.


Lemma lock_hand_off_not_lost_witness :
  ∃ x k' w', lock_release lock_demo.1 lock_demo.2 = (k', w') ∧
  lk_waiters lock_demo.1 = [x] ∧ waiter_current x lock_demo.2 ∧ waiter_queued x w'.
Proof.
  destruct (lock_release lock_demo.1 lock_demo.2) as [k' w'] eqn:He.
  assert (waiter_current (mkWaiter 11 1 1) lock_demo.2) as Hc by (split_and!; [done|done|done|reflexivity]).
  exists (mkWaiter 11 1 1), k', w'. split_and!; [done|reflexivity|exact Hc|].
  apply (lock_hand_off_not_lost lock_demo.1 lock_demo.2 k' w' (mkWaiter 11 1 1) [] lock_demo_wf
    eq_refl eq_refl eq_refl He). exact Hc.
Defined.
