(* ===== verification/SemaphoreM.v ===== *)
(** * SemaphoreM: counting semaphore ([coro::Semaphore])

    [src/include/coro/sync.hpp], class [Semaphore].  The waiter nodes live in the
    frames of the suspended coroutines; the queue holds pointers to them, so the
    nodes are a store indexed by node identity.  [release] reserves the permit for
    the first waiter; a reserved waiter that is cancelled passes it on. *)

From S2P Require Import Prelude ReadyQueue Timers Frames EventLoop Runtime.
From stdpp Require Import options.
#[local] Set Default Proof Using "Type*".

(** Identity of a node (its address). *)
Abbreviation node_id := nat.

(** [Semaphore::waiter]. *)
Record sem_node : Type := mkSemNode {
  sn_h : handle;
  sn_loop : loop_id;
  sn_reserved : bool;
  sn_epoch : Z;
}.

(** [permits_], [waiters_], and the nodes of the suspended coroutines. *)
Record Semaphore : Type := mkSem {
  sem_permits : Z;
  sem_waiters : list node_id;
  sem_nodes : gmap node_id sem_node;
}.

Definition sem_init (permits : Z) : Semaphore := mkSem permits [] ∅.

Section semaphore.
Context {W : Type} `{Runtime W}.
Implicit Types (s : Semaphore) (w : W).
Local Open Scope Z_scope.

(** [await_ready] and the check repeated under the lock by [await_suspend]. *)
Definition sem_try_acquire s : bool * Semaphore :=
  if 0 <? sem_permits s
  then (true, mkSem (sem_permits s - 1) (sem_waiters s) (sem_nodes s))
  else (false, s).

Definition sem_await_ready s : bool * Semaphore := sem_try_acquire s.

(** [await_suspend] of the node [n]. *)
Definition sem_await_suspend (n : node_id) (h : handle) s w : bool * Semaphore * W :=
  match sem_try_acquire s with
  | (true, s') => (false, s', w)
  | (false, _) =>
      let '(x, w') := register_wait h w in
      (true,
       mkSem (sem_permits s) (sem_waiters s ++ [n])
         (<[n := mkSemNode h (sw_loop x) false (sw_epoch x)]> (sem_nodes s)),
       w')
  end.

(** [guard_awaiter] shares the protocol. *)
Definition sem_guard_await_ready s : bool * Semaphore := sem_await_ready s.
Definition sem_guard_await_suspend (n : node_id) (h : handle) s w : bool * Semaphore * W :=
  sem_await_suspend n h s w.

(** [if (loop && epoch != 0) loop->end_wait(h, epoch)] on a node. *)
Definition sem_node_wait (x : sem_node) : sync_waiter := mkWaiter (sn_h x) (sn_loop x) (sn_epoch x).

(** [await_resume]; the awaiter, and its node, are destroyed afterwards. *)
Definition sem_await_resume (n : node_id) s w : Semaphore * W :=
  match sem_nodes s !! n with
  | Some x => (mkSem (sem_permits s) (sem_waiters s) (delete n (sem_nodes s)), finish_wait (sem_node_wait x) w)
  | None => (s, w)
  end.

Definition sem_release s w : Semaphore * W :=
  match sem_waiters s with
  | n :: rest =>
      match sem_nodes s !! n with
      | Some x =>
          let s' := mkSem (sem_permits s) rest
            (<[n := mkSemNode (sn_h x) (sn_loop x) true (sn_epoch x)]> (sem_nodes s)) in
          (s', if decide (sn_h x ≠ null_handle ∧ sn_loop x ≠ 0%nat)
               then notify_current (sem_node_wait x) w else w)
      | None => (s, w) (* a dangling node: the invariant excludes it *)
      end
  | [] => (mkSem (sem_permits s + 1) [] (sem_nodes s), w)
  end.

(** [Guard::~Guard]. *)
Definition sem_guard_drop s w : Semaphore * W := sem_release s w.

Definition sem_remove_waiter (n : node_id) s w : Semaphore * W :=
  match sem_nodes s !! n with
  | None => (s, w)
  | Some x =>
      let was_reserved := sn_reserved x in
      let s1 := mkSem (sem_permits s)
        (if was_reserved then sem_waiters s else erase_first n (sem_waiters s))
        (<[n := mkSemNode (sn_h x) (sn_loop x) false (sn_epoch x)]> (sem_nodes s)) in
      if was_reserved then sem_release s1 w else (s1, w)
  end.

(** [on_waiter_destroyed]; then the frame with the node goes. *)
Definition sem_on_waiter_destroyed (n : node_id) s w : Semaphore * W :=
  match sem_nodes s !! n with
  | None => (s, w)
  | Some x =>
      let w := finish_wait (sem_node_wait x) w in
      let '(s', w') := sem_remove_waiter n s w in
      (mkSem (sem_permits s') (sem_waiters s') (delete n (sem_nodes s')), w')
  end.

Definition sem_available s : Z := sem_permits s.

(** ** The system: the semaphore and how many permits the coroutines hold *)

Record sem_sys : Type := mkSemSys {
  ss_sem : Semaphore;
  ss_world : W;
  ss_held : Z;
}.

(** One constructor per thing that can happen.  A suspended coroutine is resumed
    only after its node was reserved: it waits under an epoch that only [release]
    notifies. *)
Inductive sem_step : sem_sys → sem_sys → Prop :=
  | SemReady s w held s' :
      sem_await_ready s = (true, s') →
      sem_step (mkSemSys s w held) (mkSemSys s' w (held + 1))
  | SemSuspend s w held n h b s' w' :
      sem_nodes s !! n = None → sem_await_suspend n h s w = (b, s', w') →
      sem_step (mkSemSys s w held) (mkSemSys s' w' (if b then held else held + 1))
  | SemResume s w held n x s' w' :
      sem_nodes s !! n = Some x → sn_reserved x = true → sem_await_resume n s w = (s', w') →
      sem_step (mkSemSys s w held) (mkSemSys s' w' (held + 1))
  | SemRelease s w held s' w' :
      0 < held → sem_release s w = (s', w') →
      sem_step (mkSemSys s w held) (mkSemSys s' w' (held - 1))
  | SemCancel s w held n s' w' :
      sem_on_waiter_destroyed n s w = (s', w') →
      sem_step (mkSemSys s w held) (mkSemSys s' w' held)
  | SemWorld s w held w' :  (* anything else *)
      sem_step (mkSemSys s w held) (mkSemSys s w' held).

(** Permits reserved for a suspended coroutine. *)
Definition sem_reserved (m : gmap node_id sem_node) : Z := Z.of_nat (map_count sn_reserved m).

Record sem_inv (total : Z) (y : sem_sys) : Prop := {
  sv_conserve : sem_permits (ss_sem y) + sem_reserved (sem_nodes (ss_sem y)) + ss_held y = total;
  sv_held : 0 ≤ ss_held y;
  sv_queue : ∀ n, n ∈ sem_waiters (ss_sem y) ↔
    ∃ x, sem_nodes (ss_sem y) !! n = Some x ∧ sn_reserved x = false;
  sv_nodup : NoDup (sem_waiters (ss_sem y));
  sv_starve : sem_waiters (ss_sem y) ≠ [] → sem_permits (ss_sem y) ≤ 0;
  sv_permits : 0 ≤ total → 0 ≤ sem_permits (ss_sem y);
}.

Lemma sem_reserved_insert m n x :
  m !! n = None → sem_reserved (<[n := x]> m) = sem_reserved m + (if sn_reserved x then 1 else 0).
Proof. intros Hn. unfold sem_reserved. rewrite map_count_insert by done. destruct (sn_reserved x); simpl; lia. Qed.

Lemma sem_reserved_delete m n x :
  m !! n = Some x → sem_reserved m = sem_reserved (delete n m) + (if sn_reserved x then 1 else 0).
Proof.
  intros Hn. unfold sem_reserved. rewrite (map_count_delete sn_reserved m n x) by done.
  destruct (sn_reserved x); simpl; lia.
Qed.

Lemma sem_reserved_update m n x y :
  m !! n = Some x →
  sem_reserved (<[n := y]> m) =
    sem_reserved m - (if sn_reserved x then 1 else 0) + (if sn_reserved y then 1 else 0).
Proof.
  intros Hn. unfold sem_reserved. pose proof (map_count_update sn_reserved m n x y Hn).
  destruct (sn_reserved x), (sn_reserved y); simpl in *; lia.
Qed.

(** [release] moves one permit to the queue head, or to the counter. *)
Lemma sem_release_inv total s w s' w' held :
  sem_inv total (mkSemSys s w (held + 1)) → 0 ≤ held → sem_release s w = (s', w') →
  sem_inv total (mkSemSys s' w' held).
Proof.
  intros [Hc Hh Hq Hn Hs Hp] H0. simpl in *. unfold sem_release.
  destruct (sem_waiters s) as [|n rest] eqn:Hw.
  - intros [= <- <-]. constructor; simpl; [lia|done| |by apply NoDup_nil_2|done|lia]. done.
  - apply NoDup_cons in Hn as [Hnin Hn]. destruct (proj1 (Hq n)) as (x & Hx & Hr); [by left|].
    rewrite Hx. intros [= <- _]. constructor; simpl.
    + rewrite (sem_reserved_update _ _ x) by done. simpl. rewrite Hr. lia.
    + done.
    + intros m. destruct (decide (m = n)) as [->|Hne].
      * rewrite lookup_insert_eq. naive_solver.
      * rewrite lookup_insert_ne by done. rewrite <- Hq, elem_of_cons. naive_solver.
    + done.
    + intros _. by apply Hs.
    + done.
Qed.

(** Releasing commutes with forgetting a node that is not queued. *)
Lemma sem_release_forget n y s w s' w' :
  n ∉ sem_waiters s →
  sem_release (mkSem (sem_permits s) (sem_waiters s) (<[n := y]> (sem_nodes s))) w = (s', w') →
  sem_release (mkSem (sem_permits s) (sem_waiters s) (delete n (sem_nodes s))) w =
    (mkSem (sem_permits s') (sem_waiters s') (delete n (sem_nodes s')), w').
Proof.
  intros Hn. unfold sem_release; simpl. destruct (sem_waiters s) as [|m rest] eqn:Hw; simpl.
  - intros [= <- <-]. simpl. by rewrite delete_insert_eq.
  - assert (m ≠ n) by set_solver. rewrite lookup_insert_ne, lookup_delete_ne by done.
    destruct (sem_nodes s !! m) as [x|]; intros [= <- <-]; simpl.
    + by rewrite delete_insert_ne, delete_insert_eq by done.
    + by rewrite delete_insert_eq.
Qed.

Lemma sem_forget_inv total s w held n x :
  sem_nodes s !! n = Some x → sn_reserved x = true → sem_inv total (mkSemSys s w held) →
  sem_inv total (mkSemSys (mkSem (sem_permits s) (sem_waiters s) (delete n (sem_nodes s))) w (held + 1)) ∧
  n ∉ sem_waiters s.
Proof.
  intros Hx Hr [Hc Hh Hq Hn Hs Hp]. simpl in *.
  assert (n ∉ sem_waiters s) as Hnin by (intros (y & Hy & ?)%Hq; congruence).
  split; [|done]. constructor; simpl; try done.
  - rewrite (sem_reserved_delete _ n x) in Hc by done. rewrite Hr in Hc. lia.
  - lia.
  - intros m. rewrite Hq. destruct (decide (m = n)) as [->|Hne].
    + rewrite lookup_delete_eq. naive_solver congruence.
    + by rewrite lookup_delete_ne.
Qed.

Lemma sem_cancel_inv total s w held n s' w' :
  sem_inv total (mkSemSys s w held) → sem_on_waiter_destroyed n s w = (s', w') →
  sem_inv total (mkSemSys s' w' held).
Proof.
  intros Hi. unfold sem_on_waiter_destroyed, sem_remove_waiter.
  destruct (sem_nodes s !! n) as [x|] eqn:Hx; [|intros [= <- <-]; by destruct Hi].
  destruct (sn_reserved x) eqn:Hr; simpl.
  - destruct (sem_forget_inv _ _ (finish_wait (sem_node_wait x) w) _ n x Hx Hr
      ltac:(destruct Hi; constructor; eauto)) as [Hi0 Hnin].
    destruct (sem_release _ _) as [s1 w1] eqn:Hrel. intros [= <- <-].
    apply (sem_release_forget n) in Hrel; [|done].
    pose proof (sv_held _ _ Hi). by apply (sem_release_inv _ _ _ _ _ _ Hi0).
  - destruct Hi as [Hc Hh Hq Hn Hs Hp]. simpl in *. intros [= <- <-].
    assert (n ∈ sem_waiters s) as Hin by (apply Hq; eauto).
    constructor; simpl; rewrite ?delete_insert_eq; try done.
    + rewrite (sem_reserved_delete _ n x) in Hc by done. rewrite Hr in Hc. lia.
    + intros m. destruct (decide (m = n)) as [->|Hne].
      * rewrite lookup_delete_eq. split; [by intros ?%erase_first_not_elem|naive_solver].
      * rewrite lookup_delete_ne by done. rewrite <- Hq.
        split; [apply elem_of_erase_first|by apply elem_of_erase_first_ne].
    + by apply erase_first_NoDup.
    + intros _. apply Hs. intros Hnil. rewrite Hnil in Hin. by apply elem_of_nil in Hin.
Qed.

Lemma sem_take_inv total s w w' held s' :
  sem_inv total (mkSemSys s w held) → sem_try_acquire s = (true, s') →
  sem_inv total (mkSemSys s' w' (held + 1)).
Proof.
  intros [Hc Hh Hq Hn Hs Hp]. simpl in *. unfold sem_try_acquire.
  destruct (Z.ltb_spec 0 (sem_permits s)); intros [= <-].
  constructor; simpl; [lia|lia|done|done| |lia]. intros Hne%Hs. lia.
Qed.

Lemma sem_step_inv total y y' : sem_step y y' → sem_inv total y → sem_inv total y'.
Proof.
  destruct 1 as [s w held s' Ha|s w held n h b s' w' Hfresh Ha|s w held n x s' w' Hx Hr Ha
    |s w held s' w' Hpos Ha|s w held n s' w' Ha|s w held w']; intros Hi.
  - by eapply sem_take_inv.
  - revert Ha. unfold sem_await_suspend. destruct (sem_try_acquire s) as [[] s1] eqn:Ht.
    + intros [= <- <- <-]. by eapply sem_take_inv.
    + unfold register_wait. destruct (rt_begin_wait (rt_loop w) h w) as [e w1].
      intros [= <- <- <-]. destruct Hi as [Hc Hh Hq Hn Hs Hp]. simpl in *.
      assert (n ∉ sem_waiters s) by (intros (? & ? & _)%Hq; congruence).
      constructor; simpl; try done.
      * rewrite sem_reserved_insert by done. simpl. lia.
      * intros m. rewrite elem_of_app, list_elem_of_singleton, Hq.
        destruct (decide (m = n)) as [->|Hne].
        -- rewrite lookup_insert_eq. naive_solver.
        -- rewrite lookup_insert_ne by done. naive_solver.
      * rewrite NoDup_app. split_and!; [done|set_solver|apply NoDup_singleton].
      * intros _. revert Ht. unfold sem_try_acquire. destruct (Z.ltb_spec 0 (sem_permits s)); [done|lia].
  - revert Ha. unfold sem_await_resume. rewrite Hx. intros [= <- <-].
    by destruct (sem_forget_inv _ _ w _ n x Hx Hr Hi) as [[] _]; constructor.
  - pose proof (sv_held _ _ Hi). eapply sem_release_inv; [|simpl in *; lia|exact Ha].
    by replace (held - 1 + 1) with held by lia.
  - by eapply sem_cancel_inv.
  - by destruct Hi; constructor.
Qed.

Lemma sem_init_inv total w : sem_inv total (mkSemSys (sem_init total) w 0).
Proof.
  constructor; simpl; try done.
  - unfold sem_reserved. rewrite map_count_empty. lia.
  - intros n. rewrite lookup_empty. set_solver.
  - by apply NoDup_nil_2.
Qed.

Lemma sem_steps_inv total y y' : rtc sem_step y y' → sem_inv total y → sem_inv total y'.
Proof. induction 1; eauto using sem_step_inv. Qed.

(** C6 Permits are conserved: in every state reachable by acquiring, waiting,
    releasing, cancelling and resuming in any order, the free permits, those
    reserved for a waiter about to resume and those held add up to the initial
    count; so never more than that many coroutines hold one, no cancellation loses
    a permit, and nobody waits while a permit is free. *)
Theorem sem_conservation total w y :
  0 ≤ total → rtc sem_step (mkSemSys (sem_init total) w 0) y →
  sem_permits (ss_sem y) + sem_reserved (sem_nodes (ss_sem y)) + ss_held y = total ∧
  0 ≤ ss_held y ≤ total ∧
  (sem_waiters (ss_sem y) ≠ [] → sem_permits (ss_sem y) = 0).
Proof.
  intros Ht Hr. destruct (sem_steps_inv total _ _ Hr (sem_init_inv total w)) as [Hc Hh _ _ Hs Hp].
  assert (0 ≤ sem_reserved (sem_nodes (ss_sem y))) by (unfold sem_reserved; lia).
  specialize (Hp Ht). split_and!; [done|lia|lia|]. intros Hne%Hs. lia.
Qed.

Context `{!RuntimeLaws W}.

(** A release with waiters reserves the permit for the first of them and, if it
    is still waiting, queues it to resume; if that waiter is cancelled before it
    runs, the permit goes to the next waiter, or back to the counter when there is
    none. *)
Theorem sem_release_passes_on s w s' w' n rest x :
  NoDup (sem_waiters s) → (∀ m, m ∈ sem_waiters s → is_Some (sem_nodes s !! m)) →
  sem_waiters s = n :: rest → sem_nodes s !! n = Some x →
  sem_release s w = (s', w') →
  sem_waiters s' = rest ∧ sem_permits s' = sem_permits s ∧
  sn_reserved <$> sem_nodes s' !! n = Some true ∧
  (waiter_current (sem_node_wait x) w → waiter_queued (sem_node_wait x) w') ∧
  let '(s'', _) := sem_on_waiter_destroyed n s' w' in
  match rest with
  | [] => sem_permits s'' = sem_permits s + 1
  | m :: rest' => sem_waiters s'' = rest' ∧ sem_permits s'' = sem_permits s ∧
      sn_reserved <$> sem_nodes s'' !! m = Some true
  end.
Proof.
  intros Hnd Hnodes Hw Hx. rewrite Hw in Hnd, Hnodes. apply NoDup_cons in Hnd as [Hnin _].
  unfold sem_release. rewrite Hw, Hx. intros [= <- <-]. simpl.
  split_and!; [done|done|by rewrite lookup_insert_eq| |].
  - intros Hc. pose proof Hc as (Hh & Hl & _). rewrite decide_True by done.
    by apply notify_current_queued.
  - unfold sem_on_waiter_destroyed, sem_remove_waiter; simpl. rewrite lookup_insert_eq. simpl.
    unfold sem_release; simpl. destruct rest as [|m rest']; simpl; [done|].
    assert (m ≠ n) by set_solver. rewrite !lookup_insert_ne by done.
    destruct (Hnodes m) as [y Hy]; [by right; left|]. rewrite Hy. simpl.
    split_and!; [done|done|]. rewrite lookup_delete_ne, lookup_insert_eq by done. done.
Qed.
End semaphore.

(** ** Scenario: two permits, two holders, nodes 1 and 2 waiting *)

Definition sem_demo : Semaphore * world :=
  let s := (sem_await_ready (sem_await_ready (sem_init 2)).2).2 in
  let '(_, s, w) := sem_await_suspend 1 11 s w_demo in
  let '(_, s, w) := sem_await_suspend 2 12 s w in (s, w).

Lemma sem_conservation_witness :
  ∃ y, rtc sem_step (mkSemSys (sem_init 1) w_demo 0) y ∧ ss_held y = 1%Z ∧
  sem_waiters (ss_sem y) = [1] ∧ sem_permits (ss_sem y) = 0%Z.
Proof.
  pose (s1 := (sem_await_ready (sem_init 1)).2).
  destruct (sem_await_suspend 1 11 s1 w_demo) as [[b s2] w2] eqn:He.
  assert (rtc sem_step (mkSemSys (sem_init 1) w_demo 0) (mkSemSys s2 w2 (if b then 1 else 2))) as Hr.
  { eapply rtc_l; [by apply (SemReady (sem_init 1) w_demo 0 s1)|].
    apply rtc_once. by apply (SemSuspend s1 w_demo 1 1 11 b). }
  assert (b = true ∧ sem_waiters s2 = [1]) as [-> Hw].
  { split; [apply (f_equal (λ p, p.1.1)) in He|apply (f_equal (λ p, sem_waiters p.1.2)) in He];
      vm_compute in He; done. }
  exists (mkSemSys s2 w2 1). split_and!; [exact Hr|reflexivity|exact Hw|].
  apply (sem_conservation 1 w_demo _ ltac:(lia) Hr). simpl. by rewrite Hw.
Defined.

Lemma sem_release_passes_on_witness :
  ∃ s' w' x, sem_release sem_demo.1 sem_demo.2 = (s', w') ∧ sem_waiters s' = [2] ∧
  sem_nodes sem_demo.1 !! 1 = Some x ∧ waiter_queued (sem_node_wait x) w'.
Proof.
  destruct (sem_release sem_demo.1 sem_demo.2) as [s' w'] eqn:He.
  assert (NoDup (sem_waiters sem_demo.1)) as Hnd by (vm_compute; repeat constructor; set_solver).
  assert (∀ m, m ∈ sem_waiters sem_demo.1 → is_Some (sem_nodes sem_demo.1 !! m)) as Hnodes.
  { intros m. change (sem_waiters sem_demo.1) with [1; 2].
    intros [->|[->|[]%elem_of_nil]%elem_of_cons]%elem_of_cons; vm_compute; eauto. }
  destruct (sem_release_passes_on _ _ s' w' 1 [2] (mkSemNode 11 1 false 1) Hnd Hnodes eq_refl eq_refl He)
    as (Hw & _ & _ & Hq & _).
  exists s', w', (mkSemNode 11 1 false 1). split_and!; [done|exact Hw|reflexivity|].
  apply Hq. split_and!; [done|done|done|reflexivity].
Defined.
