(* ===== verification/EventPrim.v ===== *)
(** * EventPrim: one-shot notification ([coro::Event])

    [src/include/coro/sync.hpp], class [Event].  [set_] is read without the mutex,
    so [set] is two steps (the store, then taking the waiters under the mutex) and
    a waiter can suspend between them; the theorem ranges over the interleavings. *)

From S2P Require Import Prelude ReadyQueue Timers Frames EventLoop Runtime.
From stdpp Require Import options.
#[local] Set Default Proof Using "Type*".

(** [set_] and [waiters_]. *)
Record Event : Type := mkEvent {
  ev_set : bool;
  ev_waiters : list sync_waiter;
}.

Definition event_init : Event := mkEvent false [].

Section event.
Context {W : Type} `{Runtime W}.
Implicit Types (e : Event) (w : W).

Definition event_is_set e : bool := ev_set e.
Definition event_await_ready e : bool := event_is_set e.

(** [wait_awaiter::await_suspend]: registered first, then checked under the mutex. *)
Definition event_await_suspend (h : handle) e w : bool * sync_waiter * Event * W :=
  let '(x, w) := register_wait h w in
  if ev_set e then (false, x, e, w)
  else (true, x, mkEvent (ev_set e) (ev_waiters e ++ [x]), w).

Definition event_await_resume (x : sync_waiter) w : W := finish_wait x w.

Definition event_on_waiter_destroyed (x : sync_waiter) (h : handle) e w : Event * W :=
  let w := finish_wait x w in
  (mkEvent (ev_set e) (erase_waiter h (ev_waiters e)), w).

(** The three parts of [set]. *)
Definition event_set_store e : Event := mkEvent true (ev_waiters e).
Definition event_take_waiters e : list sync_waiter * Event := (ev_waiters e, mkEvent (ev_set e) []).
Definition event_wake_one w (x : sync_waiter) : W :=
  if decide (sw_loop x = 0) then w else notify_current x w.
Definition event_wake_all (to_wake : list sync_waiter) w : W := foldl event_wake_one w to_wake.

Definition event_set e w : Event * W :=
  let '(to_wake, e) := event_take_waiters (event_set_store e) in
  (e, event_wake_all to_wake w).

Definition event_clear e : Event := mkEvent false (ev_waiters e).

(** ** Interleavings: setters between their store and their swap are counted, and
    the waiters they took are notified later. *)

Record event_sys : Type := mkEventSys {
  es_event : Event;
  es_world : W;
  es_setters : nat;
  es_taken : list sync_waiter;
}.

Inductive event_step : event_sys → event_sys → Prop :=
  | EvSuspend e w n t h b x e' w' :
      event_await_suspend h e w = (b, x, e', w') →
      event_step (mkEventSys e w n t) (mkEventSys e' w' n t)
  | EvDestroyed e w n t x h e' w' :
      event_on_waiter_destroyed x h e w = (e', w') →
      event_step (mkEventSys e w n t) (mkEventSys e' w' n t)
  | EvStore e w n t :
      event_step (mkEventSys e w n t) (mkEventSys (event_set_store e) w (S n) t)
  | EvTake e w n t ws e' :
      event_take_waiters e = (ws, e') →
      event_step (mkEventSys e w (S n) t) (mkEventSys e' w n (t ++ ws))
  | EvWake e w n x t :
      event_step (mkEventSys e w n (x :: t)) (mkEventSys e (event_wake_one w x) n t)
  | EvClear e w n t :
      event_step (mkEventSys e w n t) (mkEventSys (event_clear e) w n t)
  | EvWorld e w n t w' :
      event_step (mkEventSys e w n t) (mkEventSys e w' n t).

Definition event_inv (y : event_sys) : Prop :=
  ev_set (es_event y) = true → ev_waiters (es_event y) ≠ [] → 0 < es_setters y.

Lemma event_step_inv y y' : event_step y y' → event_inv y → event_inv y'.
Proof.
  unfold event_inv.
  destruct 1 as [e w n t h b x e' w' Hs|e w n t x h e' w' Hs|e w n t|e w n t ws e' Ht|e w n x t|e w n t|e w n t w'];
    simpl; intros Hi; try done; try lia.
  - revert Hs. unfold event_await_suspend. destruct (register_wait h w) as [y w1].
    destruct (ev_set e) eqn:He; intros [= <- <- <- <-]; [by rewrite He|done].
  - injection Hs as <- <-. simpl. intros Hset Hne. apply Hi; [done|]. intros Hnil. by rewrite Hnil in Hne.
  - injection Ht as <- <-. done.
Qed.

(** [Event] loses no wake-up, in any interleaving of waiters, setters, clears and
    cancellations: when the event is set and no [set] is between its two halves,
    nobody is left in the queue. *)
Theorem event_no_lost_wakeup w y :
  rtc event_step (mkEventSys event_init w 0 []) y →
  ev_set (es_event y) = true → es_setters y = 0 → ev_waiters (es_event y) = [].
Proof.
  intros Hr Hset H0.
  assert (event_inv y) as Hi.
  { remember (mkEventSys event_init w 0 []) as y0 eqn:Hy0.
    assert (event_inv y0) as Hi0 by (subst; done). clear Hy0.
    induction Hr; eauto using event_step_inv. }
  destruct (ev_waiters (es_event y)) as [|x ws] eqn:He; [done|].
  unfold event_inv in Hi. rewrite He in Hi. specialize (Hi Hset ltac:(done)). lia.
Qed.

Context `{!RuntimeLaws W}.

Lemma event_wake_one_keeps w x y : waiter_current y w → waiter_current y (event_wake_one w x).
Proof. unfold event_wake_one. case_decide; auto using notify_current_keeps. Qed.

Lemma event_wake_one_mono w x y : waiter_queued y w → waiter_queued y (event_wake_one w x).
Proof. unfold event_wake_one. case_decide; auto using notify_current_mono. Qed.

Lemma event_wake_all_mono ws w y : waiter_queued y w → waiter_queued y (event_wake_all ws w).
Proof. revert w. induction ws as [|x ws IH]; simpl; auto using event_wake_one_mono. Qed.

Lemma event_wake_all_queued ws w x :
  x ∈ ws → waiter_current x w → waiter_queued x (event_wake_all ws w).
Proof.
  revert w. induction ws as [|y ws IH]; intros w Hin Hc; simpl; [by apply elem_of_nil in Hin|].
  apply elem_of_cons in Hin as [->|Hin].
  - apply event_wake_all_mono. pose proof Hc as (_ & Hl & _).
    unfold event_wake_one. rewrite decide_False by done. by apply notify_current_queued.
  - by apply IH, event_wake_one_keeps.
Qed.

(** [set] leaves the event set with an empty queue and queues every waiter whose
    wait is still current; later waits do not suspend until [clear]. *)
Theorem event_set_wakes_all e w e' w' :
  event_set e w = (e', w') →
  ev_waiters e' = [] ∧ event_await_ready e' = true ∧
  (∀ x, x ∈ ev_waiters e → waiter_current x w → waiter_queued x w') ∧
  (∀ h w0, (event_await_suspend h e' w0).1.1.1 = false).
Proof.
  unfold event_set; simpl. intros [= <- <-]. split_and!; [done|done| |].
  - intros x Hin Hc. by apply event_wake_all_queued.
  - intros h w0. unfold event_await_suspend. by destruct (register_wait h w0).
Qed.
End event.

(** ** Scenario: 11 and 12 wait, then [set] *)

Definition event_demo : Event * world :=
  let '(_, _, e, w) := event_await_suspend 11 event_init w_demo in
  let '(_, _, e, w) := event_await_suspend 12 e w in (e, w).

Lemma event_no_lost_wakeup_witness :
  ∃ y, rtc event_step (mkEventSys event_init w_demo 0 []) y ∧
       ev_set (es_event y) = true ∧ ev_waiters (es_event y) = [].
Proof.
  destruct (event_await_suspend 11 event_init w_demo) as [[[b x] e1] w1] eqn:H1.
  destruct (event_take_waiters (event_set_store e1)) as [ws e2] eqn:H2.
  assert (rtc event_step (mkEventSys event_init w_demo 0 []) (mkEventSys e2 w1 0 ([] ++ ws))) as Hr.
  { eapply rtc_l; [by eapply EvSuspend|]. eapply rtc_l; [apply EvStore|]. by apply rtc_once, EvTake. }
  assert (ev_set e2 = true) as Hset by (injection H2 as <- <-; reflexivity).
  eexists. split_and!; [exact Hr|exact Hset|]. by apply (event_no_lost_wakeup _ _ Hr).
Defined.

Lemma event_set_wakes_all_witness :
  ∃ e' w', event_set event_demo.1 event_demo.2 = (e', w') ∧
    waiter_queued (mkWaiter 11 1 1) w' ∧ ev_waiters e' = [].
Proof.
  destruct (event_set event_demo.1 event_demo.2) as [e' w'] eqn:He.
  destruct (event_set_wakes_all _ _ _ _ He) as (Hw & _ & Hq & _).
  exists e', w'. split_and!; [done| |exact Hw].
  apply Hq; [vm_compute; left|split_and!; [done|done|done|reflexivity]].
Defined.
