(* ===== verification/ConditionM.v ===== *)
(** * ConditionM: condition variable over a lock ([coro::Condition])

    [src/include/coro/sync.hpp], class [Condition].  A notified waiter is moved to
    the queue of the lock, so that it resumes owning it; a cancelled waiter first
    gets the lock back. *)

From S2P Require Import Prelude ReadyQueue Timers Frames EventLoop Runtime LockM.
From stdpp Require Import options.
#[local] Set Default Proof Using "Type*".

(** [waiters_]; the lock it refers to is passed along. *)
Record Condition : Type := mkCond { cd_waiters : list sync_waiter }.

Definition cond_init : Condition := mkCond [].

Section condition.
Context {W : Type} `{Runtime W}.
Implicit Types (c : Condition) (k : Lock) (w : W).

(** [wait_awaiter::await_suspend]. *)
Definition cond_await_suspend (h : handle) c k w : sync_waiter * Condition * Lock * W :=
  let '(x, w) := register_wait h w in
  let c := mkCond (cd_waiters c ++ [x]) in
  let '(k, w) := lock_release k w in
  (x, c, k, w).

Definition cond_await_resume (x : sync_waiter) w : W := finish_wait x w.

(** [on_cancel_requested]: always takes over ([true]). *)
Definition cond_on_cancel_requested (x : sync_waiter) c k w : bool * Condition * Lock * W :=
  let c := mkCond (erase_waiter (sw_handle x) (cd_waiters c)) in
  if lock_is_owned_by (sw_handle x) k then
    (true, c, k, if decide (sw_loop x = 0) then w else notify_current x w)
  else if lock_has_waiter (sw_handle x) k then (true, c, k, w)
  else let '(k, w) := lock_hand_off x k w in (true, c, k, w).

Definition cond_on_waiter_destroyed (x : sync_waiter) (h : handle) c k w : Condition * Lock * W :=
  let w := finish_wait (mkWaiter h (sw_loop x) (sw_epoch x)) w in
  let c := mkCond (erase_waiter h (cd_waiters c)) in
  let '(k, w) := lock_on_waiter_destroyed h k w in
  (c, k, w).

(** [notify(n)]. *)
Fixpoint cond_notify_list (n : nat) (ws : list sync_waiter) k w : list sync_waiter * Lock * W :=
  match n with
  | 0 => (ws, k, w)
  | S n' =>
      match ws with
      | [] => ([], k, w)
      | x :: rest => let '(k, w) := lock_hand_off x k w in cond_notify_list n' rest k w
      end
  end.

Definition cond_notify (n : nat) c k w : Condition * Lock * W :=
  let '(ws, k, w) := cond_notify_list n (cd_waiters c) k w in (mkCond ws, k, w).

(** [notify_all]: until the queue is empty. *)
Fixpoint cond_notify_all_list (ws : list sync_waiter) k w : Lock * W :=
  match ws with
  | [] => (k, w)
  | x :: rest => let '(k, w) := lock_hand_off x k w in cond_notify_all_list rest k w
  end.

Definition cond_notify_all c k w : Condition * Lock * W :=
  let '(k, w) := cond_notify_all_list (cd_waiters c) k w in (mkCond [], k, w).

Definition cond_waiter_count c : nat := length (cd_waiters c).

(** A waiter the lock would accept: its wait is still registered. *)
Definition acceptable w (x : sync_waiter) : bool :=
  bool_decide (sw_loop x ≠ 0) && rt_is_wait_current (sw_loop x) (sw_handle x) (sw_epoch x) w.

Lemma lock_hand_off_locked x k w :
  lk_locked k = true →
  lock_hand_off x k w =
    (mkLock true (lk_owner k) (lk_recursion k)
       (lk_waiters k ++ filter (λ x, acceptable w x = true) [x]), w).
Proof.
  intros Hl. unfold lock_hand_off. destruct (acceptable w x) eqn:Ha.
  - rewrite filter_cons_True by done. unfold acceptable in Ha. bool_to_prop.
    rewrite decide_False by done. by rewrite H1, Hl.
  - rewrite filter_cons_False by congruence. rewrite app_nil_r.
    assert (k = mkLock true (lk_owner k) (lk_recursion k) (lk_waiters k)) as Hk.
    { destruct k; simpl in *; by subst. }
    case_decide; [by rewrite <- Hk|].
    unfold acceptable in Ha. rewrite bool_decide_eq_true_2 in Ha by done. simpl in Ha.
    rewrite Ha. by rewrite <- Hk.
Qed.

Lemma cond_notify_list_locked n ws k w :
  lk_locked k = true →
  cond_notify_list n ws k w =
    (drop n ws, mkLock true (lk_owner k) (lk_recursion k)
       (lk_waiters k ++ filter (λ x, acceptable w x = true) (take n ws)), w).
Proof.
  revert ws k. induction n as [|n IH]; intros ws k Hl; simpl.
  - rewrite app_nil_r. destruct k; simpl in *. by subst.
  - destruct ws as [|x ws]; simpl.
    + rewrite app_nil_r. destruct k; simpl in *. by subst.
    + rewrite lock_hand_off_locked, IH by done. simpl. rewrite <- (assoc_L (++)).
      by rewrite <- filter_app.
Qed.

Lemma cond_notify_all_list_spec ws k w :
  cond_notify_all_list ws k w =
    ((cond_notify_list (length ws) ws k w).1.2, (cond_notify_list (length ws) ws k w).2).
Proof.
  revert k w. induction ws as [|x ws IH]; intros k w; simpl; [done|].
  destruct (lock_hand_off x k w) as [k' w']. apply IH.
Qed.

(** Notifying while the lock is held moves exactly the first [n] waiters, in
    order, from the condition to the end of the queue of the lock, skipping those
    whose wait was cancelled; the owner does not change and nobody is resumed
    before the lock is released; [notify_all] is [notify] of all of them. *)
Theorem cond_notify_moves n c k w :
  lk_locked k = true →
  cond_notify n c k w =
    (mkCond (drop n (cd_waiters c)),
     mkLock true (lk_owner k) (lk_recursion k)
       (lk_waiters k ++ filter (λ x, acceptable w x = true) (take n (cd_waiters c))), w) ∧
  cond_notify_all c k w = cond_notify (cond_waiter_count c) c k w.
Proof.
  intros Hl. unfold cond_notify, cond_notify_all, cond_waiter_count.
  rewrite cond_notify_all_list_spec, !cond_notify_list_locked by done. by rewrite drop_all.
Qed.

Context `{!RuntimeLaws W}.

Lemma lock_has_waiter_true h k : lock_has_waiter h k = true ↔ ∃ x, x ∈ lk_waiters k ∧ sw_handle x = h.
Proof.
  unfold lock_has_waiter. rewrite existsb_exists. setoid_rewrite bool_decide_eq_true.
  setoid_rewrite list_elem_of_In. done.
Qed.

(** A cancelled waiter is never resumed outside the critical section: it leaves
    the condition, and either owns the lock and is queued to resume, or sits in the
    queue of a lock that somebody else holds, so that the next release reaches it. *)
Theorem cond_cancel_reacquires x c k w b c' k' w' :
  lock_wf k → waiter_current x w →
  cond_on_cancel_requested x c k w = (b, c', k', w') →
  b = true ∧ sw_handle x ∉ sw_handle <$> cd_waiters c' ∧ lock_wf k' ∧
  ((lk_owner k' = sw_handle x ∧ waiter_queued x w') ∨
   (lk_locked k' = true ∧ lk_owner k' ≠ sw_handle x ∧ lock_has_waiter (sw_handle x) k' = true)).
Proof.
  intros Hwf Hc. pose proof Hc as (Hh & Hl & He & Hcur). unfold cond_on_cancel_requested.
  assert (sw_handle x ∉ sw_handle <$> erase_waiter (sw_handle x) (cd_waiters c)) as Hnin.
  { intros (y & Heq & Hin)%list_elem_of_fmap. by apply erase_waiter_not_in in Hin as [? _]. }
  destruct (lock_is_owned_by (sw_handle x) k) eqn:Ho.
  - intros [= <- <- <- <-]. apply bool_decide_eq_true in Ho. rewrite decide_False by done.
    split_and!; [done|done|done|]. left. split; [done|]. by apply notify_current_queued.
  - apply bool_decide_eq_false in Ho. pose proof Hwf as [Hlk Hf].
    destruct (lock_has_waiter (sw_handle x) k) eqn:Hw.
    + intros [= <- <- <- <-]. split_and!; [done|done|done|]. right. split_and!; [|done|done].
      destruct (lk_locked k) eqn:?; [done|]. destruct Hlk as (_ & _ & Hnil).
      apply lock_has_waiter_true in Hw as (y & Hy & _). rewrite Hnil in Hy. by apply elem_of_nil in Hy.
    + unfold lock_hand_off. rewrite decide_False by done. rewrite Hcur.
      destruct (lk_locked k) eqn:Hlk'; intros [= <- <- <- <-].
      * split_and!; [done|done| |].
        -- split; simpl; [done|]. rewrite Forall_app, Forall_singleton. done.
        -- right. split_and!; [done|done|]. apply lock_has_waiter_true. exists x. set_solver.
      * split_and!; [done|done| |].
        -- by split.
        -- left. split; [done|]. by apply schedule_waiter_queued.
Qed.
End condition.

(** ** Scenario: 10 takes the lock and waits on the condition; 11 holds the lock *)

Definition cond_demo : sync_waiter * Condition * Lock * world :=
  let '(_, _, k, w) := lock_await_suspend 10 lock_init w_demo in
  let '(x, c, k, w) := cond_await_suspend 10 cond_init k w in
  let '(_, _, k, w) := lock_await_suspend 11 k w in
  (x, c, k, w).

Lemma cond_demo_state :
  cond_demo.1.1.1 = mkWaiter 10 1 1 ∧ cond_demo.1.1.2 = mkCond [mkWaiter 10 1 1] ∧
  cond_demo.1.2 = mkLock true 11 0 [].
Proof. by vm_compute. Qed.

Lemma cond_notify_moves_witness :
  ∃ w', cond_notify 1 cond_demo.1.1.2 cond_demo.1.2 cond_demo.2 =
    (mkCond [], mkLock true 11 0 [mkWaiter 10 1 1], w').
Proof.
  exists cond_demo.2.
  destruct (cond_notify_moves 1 cond_demo.1.1.2 cond_demo.1.2 cond_demo.2 eq_refl) as [Heq _].
  etransitivity; [exact Heq|]. f_equal.
Defined.

Lemma cond_cancel_reacquires_witness :
  ∃ c' k' w', cond_on_cancel_requested (mkWaiter 10 1 1) cond_demo.1.1.2 cond_demo.1.2 cond_demo.2
    = (true, c', k', w') ∧ lock_has_waiter 10 k' = true.
Proof.
  destruct (cond_on_cancel_requested (mkWaiter 10 1 1) cond_demo.1.1.2 cond_demo.1.2 cond_demo.2)
    as [[[b c'] k'] w'] eqn:He.
  assert (lock_wf cond_demo.1.2) as Hwf by (vm_compute; split; [discriminate|constructor]).
  assert (waiter_current (mkWaiter 10 1 1) cond_demo.2) as Hc by (split_and!; [done|done|done|reflexivity]).
  destruct (cond_cancel_reacquires _ _ _ _ _ _ _ _ Hwf Hc He) as (-> & _ & _ & Hor).
  exists c', k', w'. split; [done|].
  destruct Hor as [[Ho _]|(_ & _ & Hw)]; [|exact Hw].
  assert (lk_owner k' = 11) as Hk; [|simpl in Ho; congruence].
  change k' with ((true, c', k', w').1.2). rewrite <- He. reflexivity.
Defined.
