(* ===== verification/QueueM.v ===== *)
(** * QueueM: the producer-consumer queue ([coro::Queue<T>])

    [src/include/coro/queue.hpp].  A wake-up hands over a reservation (of an item to
    a getter, of a slot to a putter) recorded in the awaiter, which lives in the
    suspended frame: the awaiters are stores indexed by identity.  The queue is
    used from one thread.  Moving an element does not throw here. *)

From S2P Require Import Prelude ReadyQueue Timers Frames EventLoop Runtime.
From stdpp Require Import options.
#[local] Set Default Proof Using "Type*".

(** [get_awaiter] and [put_awaiter]: [handle_], [reserved_], [item_]. *)
Record get_node : Type := mkGetNode { gn_handle : handle; gn_reserved : bool }.
Record put_node (A : Type) : Type := mkPutNode { pn_handle : handle; pn_reserved : bool; pn_item : A }.
Arguments mkPutNode {A}. Arguments pn_handle {A}. Arguments pn_reserved {A}. Arguments pn_item {A}.

Record Queue (A : Type) : Type := mkQueue {
  q_maxsize : nat;
  q_items : list A;
  q_reserved_putters : nat;
  q_reserved_getters : nat;
  q_put_waiters : list nat;
  q_get_waiters : list nat;
  q_join_waiters : list handle;
  q_unfinished : nat;
  q_shut_down : bool;
  q_getters : gmap nat get_node;
  q_putters : gmap nat (put_node A);
}.
Arguments mkQueue {A}. Arguments q_maxsize {A}. Arguments q_items {A}.
Arguments q_reserved_putters {A}. Arguments q_reserved_getters {A}.
Arguments q_put_waiters {A}. Arguments q_get_waiters {A}. Arguments q_join_waiters {A}.
Arguments q_unfinished {A}. Arguments q_shut_down {A}. Arguments q_getters {A}. Arguments q_putters {A}.

Section queue.
Context {A W : Type} `{Runtime W}.
Implicit Types (q : Queue A) (w : W).

Definition queue_init (maxsize : nat) : Queue A :=
  mkQueue maxsize [] 0 0 [] [] [] 0 false ∅ ∅.

(** Field updates. *)
Definition q_set_items (l : list A) q : Queue A :=
  mkQueue (q_maxsize q) l (q_reserved_putters q) (q_reserved_getters q) (q_put_waiters q)
    (q_get_waiters q) (q_join_waiters q) (q_unfinished q) (q_shut_down q) (q_getters q) (q_putters q).
Definition q_set_get (r : nat) (ws : list nat) (m : gmap nat get_node) q : Queue A :=
  mkQueue (q_maxsize q) (q_items q) (q_reserved_putters q) r (q_put_waiters q)
    ws (q_join_waiters q) (q_unfinished q) (q_shut_down q) m (q_putters q).
Definition q_set_put (r : nat) (ws : list nat) (m : gmap nat (put_node A)) q : Queue A :=
  mkQueue (q_maxsize q) (q_items q) r (q_reserved_getters q) ws
    (q_get_waiters q) (q_join_waiters q) (q_unfinished q) (q_shut_down q) (q_getters q) m.
Definition q_set_join (u : nat) (ws : list handle) (shut : bool) q : Queue A :=
  mkQueue (q_maxsize q) (q_items q) (q_reserved_putters q) (q_reserved_getters q) (q_put_waiters q)
    (q_get_waiters q) ws u shut (q_getters q) (q_putters q).
Definition q_set_unfinished (u : nat) q : Queue A := q_set_join u (q_join_waiters q) (q_shut_down q) q.

(** [EventLoop::get().schedule(h)]. *)
Definition sched (h : handle) w : W := rt_schedule (rt_loop w) h w.

(** ** Private helpers *)

Definition queue_full q : bool :=
  bool_decide (0 < q_maxsize q) &&
  bool_decide (q_maxsize q ≤ length (q_items q) + q_reserved_putters q).

(** [notify_putters]: the list is what remains of [put_waiters_]. *)
Fixpoint q_notify_putters_list (ws : list nat) q w : Queue A * W :=
  match ws with
  | [] => (q_set_put (q_reserved_putters q) [] (q_putters q) q, w)
  | n :: rest =>
      if queue_full q then (q_set_put (q_reserved_putters q) ws (q_putters q) q, w)
      else match q_putters q !! n with
      | Some x =>
          let q := q_set_put (S (q_reserved_putters q)) rest
                     (<[n := mkPutNode (pn_handle x) true (pn_item x)]> (q_putters q)) q in
          q_notify_putters_list rest q (sched (pn_handle x) w)
      | None => (q, w) (* a dangling awaiter: excluded by the invariant *)
      end
  end.
Definition q_notify_putters q w : Queue A * W := q_notify_putters_list (q_put_waiters q) q w.

Fixpoint q_notify_getters_list (ws : list nat) q w : Queue A * W :=
  match ws with
  | [] => (q_set_get (q_reserved_getters q) [] (q_getters q) q, w)
  | n :: rest =>
      if decide (length (q_items q) ≤ q_reserved_getters q)
      then (q_set_get (q_reserved_getters q) ws (q_getters q) q, w)
      else match q_getters q !! n with
      | Some x =>
          let q := q_set_get (S (q_reserved_getters q)) rest
                     (<[n := mkGetNode (gn_handle x) true]> (q_getters q)) q in
          q_notify_getters_list rest q (sched (gn_handle x) w)
      | None => (q, w)
      end
  end.
Definition q_notify_getters q w : Queue A * W := q_notify_getters_list (q_get_waiters q) q w.

(** [remove_get_waiter]; the awaiter is destroyed by the caller's caller, so the
    node goes as well.  An awaiter that never suspended has no node. *)
Definition q_remove_get_waiter (n : nat) q : Queue A :=
  match q_getters q !! n with
  | None => q
  | Some x =>
      if gn_reserved x
      then q_set_get (pred (q_reserved_getters q)) (q_get_waiters q) (delete n (q_getters q)) q
      else q_set_get (q_reserved_getters q) (erase_first n (q_get_waiters q)) (delete n (q_getters q)) q
  end.

Definition q_remove_put_waiter (n : nat) q : Queue A :=
  match q_putters q !! n with
  | None => q
  | Some x =>
      if pn_reserved x
      then q_set_put (pred (q_reserved_putters q)) (q_put_waiters q) (delete n (q_putters q)) q
      else q_set_put (q_reserved_putters q) (erase_first n (q_put_waiters q)) (delete n (q_putters q)) q
  end.

(** ** get *)

Definition q_get_await_ready q : bool :=
  bool_decide (q_reserved_getters q = 0) && bool_decide (q_get_waiters q = []) &&
  (negb (bool_decide (length (q_items q) = 0)) || q_shut_down q).

Definition q_get_await_suspend (n : nat) (h : handle) q w : res (Queue A * W) :=
  if q_shut_down q && bool_decide (length (q_items q) = 0) then Throw QueueShutDown
  else
    let q := q_set_get (q_reserved_getters q) (q_get_waiters q ++ [n])
               (<[n := mkGetNode h false]> (q_getters q)) q in
    Ok (q_notify_getters q w).

Definition q_get_await_resume (n : nat) q w : res A * Queue A * W :=
  let q := q_remove_get_waiter n q in
  match q_items q with
  | [] =>
      if q_shut_down q then (Throw QueueShutDown, q, w)
      else let '(q, w) := q_notify_getters q w in (Throw QueueShutDown, q, w)
  | item :: rest =>
      let '(q, w) := q_notify_putters (q_set_items rest q) w in (Ok item, q, w)
  end.

Definition q_get_destroyed (n : nat) q w : Queue A * W :=
  q_notify_getters (q_remove_get_waiter n q) w.

(** ** put *)

Definition q_put_await_ready q : bool := negb (q_shut_down q) && negb (queue_full q).

Definition q_put_await_suspend (n : nat) (h : handle) (item : A) q w : res (Queue A * W) :=
  if q_shut_down q then Throw QueueShutDown
  else
    let q := q_set_put (q_reserved_putters q) (q_put_waiters q ++ [n])
               (<[n := mkPutNode h false item]> (q_putters q)) q in
    Ok (q_notify_putters q w).

Definition q_put_await_resume (n : nat) (item : A) q w : res unit * Queue A * W :=
  let q := q_remove_put_waiter n q in
  if q_shut_down q then (Throw QueueShutDown, q, w)
  else
    let q := q_set_items (q_items q ++ [item]) q in
    let q := q_set_unfinished (S (q_unfinished q)) q in
    let '(q, w) := q_notify_getters q w in (Ok tt, q, w).

Definition q_put_destroyed (n : nat) q w : Queue A * W :=
  q_notify_putters (q_remove_put_waiter n q) w.

(** ** Non-blocking calls *)

Definition q_get_nowait q w : res (option A) * Queue A * W :=
  match q_items q with
  | [] => if q_shut_down q then (Throw QueueShutDown, q, w) else (Ok None, q, w)
  | item :: rest =>
      if decide (q_reserved_getters q ≠ 0 ∨ q_get_waiters q ≠ []) then (Ok None, q, w)
      else let '(q, w) := q_notify_putters (q_set_items rest q) w in (Ok (Some item), q, w)
  end.

Definition q_put_nowait (item : A) q w : bool * Queue A * W :=
  if q_shut_down q || queue_full q then (false, q, w)
  else
    let q := q_set_items (q_items q ++ [item]) q in
    let q := q_set_unfinished (S (q_unfinished q)) q in
    let '(q, w) := q_notify_getters q w in (true, q, w).

(** ** task_done, join, shutdown *)

Definition sched_all (hs : list handle) w : W := foldl (λ w h, sched h w) w hs.

(** Wake and forget every [join] waiter. *)
Definition q_wake_joiners q w : Queue A * W :=
  (q_set_join (q_unfinished q) [] (q_shut_down q) q, sched_all (q_join_waiters q) w).

Definition q_task_done q w : res unit * Queue A * W :=
  match q_unfinished q with
  | 0 => (Throw LogicError, q, w)
  | S u =>
      let q := q_set_unfinished u q in
      if decide (u = 0) then let '(q, w) := q_wake_joiners q w in (Ok tt, q, w)
      else (Ok tt, q, w)
  end.

(** The waking loops of [shutdown]: each waiter loses its reservation and is scheduled. *)
Fixpoint q_expel_putters (ws : list nat) q w : Queue A * W :=
  match ws with
  | [] => (q_set_put (q_reserved_putters q) [] (q_putters q) q, w)
  | n :: rest =>
      match q_putters q !! n with
      | Some x =>
          let r := if pn_reserved x then pred (q_reserved_putters q) else q_reserved_putters q in
          q_expel_putters rest
            (q_set_put r rest (<[n := mkPutNode (pn_handle x) false (pn_item x)]> (q_putters q)) q)
            (sched (pn_handle x) w)
      | None => (q, w)
      end
  end.
Fixpoint q_expel_getters (ws : list nat) q w : Queue A * W :=
  match ws with
  | [] => (q_set_get (q_reserved_getters q) [] (q_getters q) q, w)
  | n :: rest =>
      match q_getters q !! n with
      | Some x =>
          let r := if gn_reserved x then pred (q_reserved_getters q) else q_reserved_getters q in
          q_expel_getters rest
            (q_set_get r rest (<[n := mkGetNode (gn_handle x) false]> (q_getters q)) q)
            (sched (gn_handle x) w)
      | None => (q, w)
      end
  end.

Definition q_shutdown (immediate : bool) q w : Queue A * W :=
  let was_shut := q_shut_down q in
  let q := q_set_join (q_unfinished q) (q_join_waiters q) true q in
  let q :=
    if immediate then
      let dropped := length (q_items q) in
      let q := q_set_items [] q in
      if decide (q_unfinished q ≤ dropped) then q_set_unfinished 0 q
      else q_set_unfinished (q_unfinished q - dropped) q
    else q in
  let '(q, w) := q_expel_putters (q_put_waiters q) q w in
  let '(q, w) := q_expel_getters (q_get_waiters q) q w in
  if negb was_shut && bool_decide (q_unfinished q = 0) then q_wake_joiners q w else (q, w).

Definition q_join_await_ready q : bool := bool_decide (q_unfinished q = 0).
Definition q_join_await_suspend (h : handle) q : Queue A :=
  q_set_join (q_unfinished q) (q_join_waiters q ++ [h]) (q_shut_down q) q.
Definition q_join_destroyed (h : handle) q : Queue A :=
  q_set_join (q_unfinished q) (filter (λ x, x ≠ h) (q_join_waiters q)) (q_shut_down q) q.

Definition q_size q : nat := length (q_items q).
Definition q_empty q : bool := bool_decide (length (q_items q) = 0).

(** ** Invariants of the two sides

    [getters_ok]: reservations are counted, the queued awaiters are unreserved and
    distinct, and while the queue is open every reservation is backed by an item.
    [putters_ok]: likewise, the reserved slots fit in the capacity. *)

Definition getters_ok (items : nat) (shut : bool) (r : nat) (ws : list nat) (m : gmap nat get_node) : Prop :=
  r = map_count gn_reserved m ∧
  (∀ n, n ∈ ws → ∃ x, m !! n = Some x ∧ gn_reserved x = false) ∧ NoDup ws ∧
  (shut = false → r ≤ items).

Definition putters_ok (items maxsize r : nat) (ws : list nat) (m : gmap nat (put_node A)) : Prop :=
  r = map_count pn_reserved m ∧
  (∀ n, n ∈ ws → ∃ x, m !! n = Some x ∧ pn_reserved x = false) ∧ NoDup ws ∧
  (0 < maxsize → items + r ≤ maxsize).

Lemma q_notify_getters_list_spec ws q w :
  getters_ok (length (q_items q)) (q_shut_down q) (q_reserved_getters q) ws (q_getters q) →
  ∃ r ws' m w', q_notify_getters_list ws q w = (q_set_get r ws' m q, w') ∧
    getters_ok (length (q_items q)) (q_shut_down q) r ws' m ∧
    (ws' ≠ [] → length (q_items q) ≤ r).
Proof.
  revert q w. induction ws as [|n ws IH]; intros q w Hok; simpl.
  { eexists _, _, _, _. split_and!; [done|done|done]. }
  case_decide as Hd.
  { eexists _, _, _, _. split_and!; [done|done|lia]. }
  destruct Hok as (Hr & Hws & Hnd & Hop).
  destruct (Hws n) as (x & Hx & Hxr); [by left|]. rewrite Hx.
  apply NoDup_cons in Hnd as [Hnin Hnd].
  pose proof (map_count_update gn_reserved _ n x (mkGetNode (gn_handle x) true) Hx) as Hc.
  rewrite Hxr in Hc. simpl in Hc.
  destruct (IH (q_set_get (S (q_reserved_getters q)) ws
      (<[n := mkGetNode (gn_handle x) true]> (q_getters q)) q) (sched (gn_handle x) w))
    as (r & ws' & m & w' & -> & Hok' & Hne); [|by eexists r, ws', m, w'].
  split_and!; simpl; [lia| |done|by intros Hs%Hop; lia].
  intros n' Hn'. rewrite lookup_insert_ne by (intros ->; done). apply Hws. by right.
Qed.

Lemma q_notify_putters_list_spec ws q w :
  putters_ok (length (q_items q)) (q_maxsize q) (q_reserved_putters q) ws (q_putters q) →
  ∃ r ws' m w', q_notify_putters_list ws q w = (q_set_put r ws' m q, w') ∧
    putters_ok (length (q_items q)) (q_maxsize q) r ws' m ∧
    (ws' ≠ [] → queue_full (q_set_put r ws' m q) = true) ∧ (ws = [] → ws' = []).
Proof.
  revert q w. induction ws as [|n ws IH]; intros q w Hok; simpl.
  { eexists _, _, _, _. split_and!; [done|done|done|done]. }
  destruct (queue_full q) eqn:Hd.
  { eexists _, _, _, _. split_and!; [done|done|intros _; exact Hd|done]. }
  destruct Hok as (Hr & Hws & Hnd & Hop).
  destruct (Hws n) as (x & Hx & Hxr); [by left|]. rewrite Hx.
  apply NoDup_cons in Hnd as [Hnin Hnd].
  pose proof (map_count_update pn_reserved _ n x (mkPutNode (pn_handle x) true (pn_item x)) Hx) as Hc.
  rewrite Hxr in Hc. simpl in Hc.
  destruct (IH (q_set_put (S (q_reserved_putters q)) ws
      (<[n := mkPutNode (pn_handle x) true (pn_item x)]> (q_putters q)) q) (sched (pn_handle x) w))
    as (r & ws' & m & w' & -> & Hok' & Hne & _); [|by eexists r, ws', m, w'].
  split_and!; simpl; [lia| |done|].
  - intros n' Hn'. rewrite lookup_insert_ne by (intros ->; done). apply Hws. by right.
  - intros Hm. unfold queue_full in Hd. rewrite bool_decide_eq_true_2 in Hd by done.
    simpl in Hd. bool_to_prop. lia.
Qed.

(** The expelling loops of [shutdown] keep each side consistent and empty its queue. *)
Lemma q_expel_getters_spec ws q w :
  getters_ok (length (q_items q)) true (q_reserved_getters q) ws (q_getters q) →
  ∃ r m w', q_expel_getters ws q w = (q_set_get r [] m q, w') ∧
    getters_ok (length (q_items q)) true r [] m.
Proof.
  revert q w. induction ws as [|n ws IH]; intros q w Hok; simpl; [by eexists _, _, _|].
  destruct Hok as (Hr & Hws & Hnd & Hop).
  destruct (Hws n) as (x & Hx & Hxr); [by left|]. rewrite Hx, Hxr.
  apply NoDup_cons in Hnd as [Hnin Hnd].
  pose proof (map_count_update gn_reserved _ n x (mkGetNode (gn_handle x) false) Hx) as Hc.
  rewrite Hxr in Hc. simpl in Hc.
  destruct (IH (q_set_get (q_reserved_getters q) ws
      (<[n := mkGetNode (gn_handle x) false]> (q_getters q)) q) (sched (gn_handle x) w))
    as (r & m & w' & -> & Hok'); [|by eexists r, m, w'].
  split_and!; simpl; [lia| |done|done].
  intros n' Hn'. rewrite lookup_insert_ne by (intros ->; done). apply Hws. by right.
Qed.

Lemma q_expel_putters_spec ws q w :
  putters_ok (length (q_items q)) (q_maxsize q) (q_reserved_putters q) ws (q_putters q) →
  ∃ r m w', q_expel_putters ws q w = (q_set_put r [] m q, w') ∧
    putters_ok (length (q_items q)) (q_maxsize q) r [] m.
Proof.
  revert q w. induction ws as [|n ws IH]; intros q w Hok; simpl; [by eexists _, _, _|].
  destruct Hok as (Hr & Hws & Hnd & Hop).
  destruct (Hws n) as (x & Hx & Hxr); [by left|]. rewrite Hx, Hxr.
  apply NoDup_cons in Hnd as [Hnin Hnd].
  pose proof (map_count_update pn_reserved _ n x (mkPutNode (pn_handle x) false (pn_item x)) Hx) as Hc.
  rewrite Hxr in Hc. simpl in Hc.
  destruct (IH (q_set_put (q_reserved_putters q) ws
      (<[n := mkPutNode (pn_handle x) false (pn_item x)]> (q_putters q)) q) (sched (pn_handle x) w))
    as (r & m & w' & -> & Hok'); [|by eexists r, m, w'].
  split_and!; simpl; [lia| |done|done].
  intros n' Hn'. rewrite lookup_insert_ne by (intros ->; done). apply Hws. by right.
Qed.

(** ** The invariant of the queue *)

Record queue_inv q : Prop := {
  qi_getters : getters_ok (length (q_items q)) (q_shut_down q) (q_reserved_getters q)
                 (q_get_waiters q) (q_getters q);
  qi_putters : putters_ok (length (q_items q)) (q_maxsize q) (q_reserved_putters q)
                 (q_put_waiters q) (q_putters q);
  qi_get_wait : q_get_waiters q ≠ [] → length (q_items q) ≤ q_reserved_getters q;
  qi_put_wait : q_put_waiters q ≠ [] → queue_full q = true;
  qi_shut : q_shut_down q = true → q_put_waiters q = [];
}.

(** Re-establishing it after one side changed: the notification loop of that side
    restores the waiting clause. *)
Lemma queue_inv_notify_getters q w q' w' :
  getters_ok (length (q_items q)) (q_shut_down q) (q_reserved_getters q) (q_get_waiters q) (q_getters q) →
  putters_ok (length (q_items q)) (q_maxsize q) (q_reserved_putters q) (q_put_waiters q) (q_putters q) →
  (q_put_waiters q ≠ [] → queue_full q = true) → (q_shut_down q = true → q_put_waiters q = []) →
  q_notify_getters q w = (q', w') → queue_inv q' ∧ q_items q' = q_items q ∧ q_shut_down q' = q_shut_down q.
Proof.
  intros Hg Hp Hf Hu. unfold q_notify_getters.
  destruct (q_notify_getters_list_spec _ q w Hg) as (r & ws & m & w1 & -> & Hg' & Hne).
  intros [= <- _]. split_and!; [|done|done]. by constructor.
Qed.

Lemma queue_inv_notify_putters q w q' w' :
  getters_ok (length (q_items q)) (q_shut_down q) (q_reserved_getters q) (q_get_waiters q) (q_getters q) →
  putters_ok (length (q_items q)) (q_maxsize q) (q_reserved_putters q) (q_put_waiters q) (q_putters q) →
  (q_get_waiters q ≠ [] → length (q_items q) ≤ q_reserved_getters q) →
  (q_shut_down q = true → q_put_waiters q = []) →
  q_notify_putters q w = (q', w') → queue_inv q' ∧ q_items q' = q_items q ∧ q_shut_down q' = q_shut_down q.
Proof.
  intros Hg Hp Hf Hu. unfold q_notify_putters.
  destruct (q_notify_putters_list_spec _ q w Hp) as (r & ws & m & w1 & -> & Hp' & Hne & Hnil).
  intros [= <- _]. split_and!; [|done|done]. by constructor; auto.
Qed.

Lemma getters_ok_remove items shut r ws m n x :
  m !! n = Some x → getters_ok items shut r ws m →
  getters_ok items shut (if gn_reserved x then pred r else r) (if gn_reserved x then ws else erase_first n ws)
    (delete n m).
Proof.
  intros Hx (Hr & Hws & Hnd & Hop). pose proof (map_count_delete gn_reserved m n x Hx) as Hc.
  destruct (gn_reserved x) eqn:Hxr; simpl in Hc.
  - split_and!; [lia| |done|by intros Hs%Hop; lia]. intros n' Hn'. destruct (Hws n' Hn') as (y & Hy & Hyr).
    rewrite lookup_delete_ne by congruence. eauto.
  - split_and!; [lia| |by apply erase_first_NoDup|done].
    intros n' Hn'. assert (n' ≠ n) by (intros ->; by eapply erase_first_not_elem).
    rewrite lookup_delete_ne by done. by eapply Hws, elem_of_erase_first.
Qed.

Lemma putters_ok_remove items mx r ws m n x :
  m !! n = Some x → putters_ok items mx r ws m →
  putters_ok items mx (if pn_reserved x then pred r else r) (if pn_reserved x then ws else erase_first n ws)
    (delete n m) ∧ (pn_reserved x = true → 0 < r).
Proof.
  intros Hx (Hr & Hws & Hnd & Hop). pose proof (map_count_delete pn_reserved m n x Hx) as Hc.
  destruct (pn_reserved x) eqn:Hxr; simpl in Hc; (split; [|lia]).
  - split_and!; [lia| |done|by intros Hs%Hop; lia]. intros n' Hn'. destruct (Hws n' Hn') as (y & Hy & Hyr).
    rewrite lookup_delete_ne by congruence. eauto.
  - split_and!; [lia| |by apply erase_first_NoDup|done].
    intros n' Hn'. assert (n' ≠ n) by (intros ->; by eapply erase_first_not_elem).
    rewrite lookup_delete_ne by done. by eapply Hws, elem_of_erase_first.
Qed.

Lemma erase_first_nil (n : nat) ws : erase_first n ws ≠ [] → ws ≠ [].
Proof. by destruct ws. Qed.

(** More items only help the getters. *)
Lemma getters_ok_mono items items' shut r ws m :
  items ≤ items' → getters_ok items shut r ws m → getters_ok items' shut r ws m.
Proof. intros Hle (?&?&?&Hop). split_and!; [done|done|done|]. intros Hs%Hop. lia. Qed.

(** ** Every operation keeps it

    A suspended awaiter is resumed only after it was given a reservation, or after
    the shutdown; an awaiter that never suspended has no node. *)

Definition get_may_resume (n : nat) q : Prop :=
  match q_getters q !! n with
  | Some x => gn_reserved x = true ∨ q_shut_down q = true
  | None => q_get_await_ready q = true
  end.
Definition put_may_resume (n : nat) q : Prop :=
  match q_putters q !! n with
  | Some x => pn_reserved x = true ∨ q_shut_down q = true
  | None => q_put_await_ready q = true
  end.

Lemma get_ready_state q :
  q_get_await_ready q = true →
  q_reserved_getters q = 0 ∧ q_get_waiters q = [] ∧ (q_items q ≠ [] ∨ q_shut_down q = true).
Proof.
  unfold q_get_await_ready. intros. bool_to_prop. split_and!; [done|done|].
  apply orb_true_iff in H1 as [Hi|Hs]; [left|by right]. bool_to_prop. intros Hn. by rewrite Hn in Hi.
Qed.

Lemma putters_ok_fewer items items' mx r ws m :
  items' ≤ items → putters_ok items mx r ws m → putters_ok items' mx r ws m.
Proof. intros Hle (?&?&?&Hop). split_and!; [done|done|done|]. intros Hs%Hop. lia. Qed.

Lemma q_get_resume_inv n q w r q' w' :
  queue_inv q → get_may_resume n q → q_get_await_resume n q w = (r, q', w') →
  queue_inv q' ∧ q_shut_down q' = q_shut_down q ∧
  match r with
  | Ok a => q_items q = a :: q_items q'
  | Throw e => q_items q = [] ∧ q_items q' = [] ∧ q_shut_down q = true
  end.
Proof.
  intros [Hg Hp Hgw Hpw Hsh] Hmay. unfold q_get_await_resume.
  set (q1 := q_remove_get_waiter n q).
  assert (q_items q1 = q_items q ∧ q_shut_down q1 = q_shut_down q ∧ q_put_waiters q1 = q_put_waiters q ∧
    putters_ok (length (q_items q)) (q_maxsize q1) (q_reserved_putters q1) (q_put_waiters q1) (q_putters q1) ∧
    getters_ok (length (q_items q)) (q_shut_down q) (q_reserved_getters q1) (q_get_waiters q1) (q_getters q1) ∧
    (q_get_waiters q1 ≠ [] → pred (length (q_items q)) ≤ q_reserved_getters q1) ∧
    (q_shut_down q = false → q_reserved_getters q1 ≤ pred (length (q_items q)) ∧ q_items q ≠ []) ∧
    (q_put_waiters q1 ≠ [] → queue_full q1 = true))
    as (Hi & Hs & Hpw1 & Hp1 & Hg1 & Hgw1 & Hop1 & Hf1).
  { unfold q1, q_remove_get_waiter, get_may_resume in *.
    destruct (q_getters q !! n) as [x|] eqn:Hx.
    - pose proof (getters_ok_remove _ _ _ _ _ _ _ Hx Hg) as Hg'.
      pose proof (map_count_delete gn_reserved _ n x Hx) as Hc.
      destruct Hg as (Hr & _ & _ & Hop).
      destruct (gn_reserved x) eqn:Hxr; simpl in *; split_and!; try done.
      + intros Hne%Hgw. lia.
      + intros Hs%Hop. assert (q_items q ≠ []) as Hne by (intros Hn; rewrite Hn in Hs; simpl in Hs; lia).
        split; [lia|done].
      + intros Hne%erase_first_nil%Hgw. lia.
      + destruct Hmay as [?|?]; congruence.
    - apply get_ready_state in Hmay as (Hr0 & Hw0 & Hne). split_and!; try done.
      + intros Hs. split; [lia|]. destruct Hne as [?|?]; [done|congruence]. }
  clearbody q1. destruct (q_items q1) as [|a rest] eqn:Hi1; rewrite <- Hi in *.
  - destruct (q_shut_down q1) eqn:Hs1.
    + intros [= <- <- <-]. split_and!; [|congruence|done|congruence|congruence].
      constructor; rewrite ?Hi1, ?Hs1; [by rewrite Hs|done|simpl; lia|done|].
      rewrite Hpw1. intros _. apply Hsh. congruence.
    + destruct Hop1 as [_ Hne]; [congruence|done].
  - destruct (q_notify_putters (q_set_items rest q1) w) as [q2 w2] eqn:Hn. intros [= <- <- <-].
    apply queue_inv_notify_putters in Hn as (Hinv & Hi2 & Hs2); simpl.
    + simpl in Hi2, Hs2. split_and!; [done|congruence|]. by rewrite Hi2.
    + destruct Hg1 as (? & ? & ? & Hop). rewrite Hs. split_and!; [done|done|done|].
      intros Ho%Hop1. simpl in Ho. lia.
    + eapply putters_ok_fewer; [|exact Hp1]. simpl. lia.
    + intros Hne%Hgw1. simpl in Hne. lia.
    + rewrite Hpw1, Hs. done.
Qed.

Lemma q_get_suspend_inv n h q w q' w' :
  queue_inv q → q_getters q !! n = None → q_get_await_suspend n h q w = Ok (q', w') →
  queue_inv q' ∧ q_items q' = q_items q ∧ q_shut_down q' = q_shut_down q.
Proof.
  intros [Hg Hp Hgw Hpw Hsh] Hn. unfold q_get_await_suspend. case_match; [done|]. intros [= Hq].
  apply queue_inv_notify_getters in Hq; simpl; try done.
  destruct Hg as (Hr & Hws & Hnd & Hop).
  assert (n ∉ q_get_waiters q) as Hnin by (intros (x & ? & _)%Hws; congruence).
  split_and!; [|..|done].
  - rewrite map_count_insert by done. simpl. lia.
  - intros m [Hm| ->%list_elem_of_singleton]%elem_of_app.
    + rewrite lookup_insert_ne by (intros ->; done). auto.
    + rewrite lookup_insert_eq. eauto.
  - rewrite NoDup_app. split_and!; [done|set_solver|apply NoDup_singleton].
Qed.

Lemma q_get_destroyed_inv n q w q' w' :
  queue_inv q → q_get_destroyed n q w = (q', w') →
  queue_inv q' ∧ q_items q' = q_items q ∧ q_shut_down q' = q_shut_down q.
Proof.
  intros [Hg Hp Hgw Hpw Hsh]. unfold q_get_destroyed, q_remove_get_waiter.
  destruct (q_getters q !! n) as [x|] eqn:Hx; intros Hq.
  - pose proof (getters_ok_remove _ _ _ _ _ _ _ Hx Hg) as Hg'.
    destruct (gn_reserved x); by apply queue_inv_notify_getters in Hq.
  - by apply queue_inv_notify_getters in Hq.
Qed.

Lemma q_put_resume_inv n a q w r q' w' :
  queue_inv q → put_may_resume n q → q_put_await_resume n a q w = (r, q', w') →
  queue_inv q' ∧ q_shut_down q' = q_shut_down q ∧
  match r with
  | Ok _ => q_items q' = q_items q ++ [a] ∧ q_shut_down q = false
  | Throw e => q_items q' = q_items q ∧ q_shut_down q = true
  end.
Proof.
  intros [Hg Hp Hgw Hpw Hsh] Hmay. unfold q_put_await_resume.
  set (q1 := q_remove_put_waiter n q).
  assert (q_items q1 = q_items q ∧ q_shut_down q1 = q_shut_down q ∧
    q_get_waiters q1 = q_get_waiters q ∧ q_reserved_getters q1 = q_reserved_getters q ∧
    q_getters q1 = q_getters q ∧ q_maxsize q1 = q_maxsize q ∧
    putters_ok (length (q_items q)) (q_maxsize q) (q_reserved_putters q1) (q_put_waiters q1) (q_putters q1) ∧
    (q_shut_down q = true → q_put_waiters q1 = []) ∧
    (q_shut_down q = false → (0 < q_maxsize q → S (length (q_items q)) + q_reserved_putters q1 ≤ q_maxsize q) ∧
       (q_put_waiters q1 ≠ [] → 0 < q_maxsize q ∧ q_maxsize q ≤ S (length (q_items q)) + q_reserved_putters q1)))
    as (Hi & Hs & Hgw1 & Hrg1 & Hg1 & Hm1 & Hp1 & Hsh1 & Hop1).
  { unfold q1, q_remove_put_waiter, put_may_resume in *.
    destruct (q_putters q !! n) as [x|] eqn:Hx.
    - destruct (putters_ok_remove _ _ _ _ _ _ _ Hx Hp) as [Hp' Hpos].
      destruct Hp as (Hr & _ & _ & Hcap).
      destruct (pn_reserved x) eqn:Hxr; simpl in *; split_and!; try done.
      + intros Hs. specialize (Hpos eq_refl). split; [intros Hc%Hcap; lia|].
        intros Hf%Hpw. unfold queue_full in Hf. bool_to_prop. lia.
      + intros Hs%Hsh. by rewrite Hs.
      + intros Hs. destruct Hmay; congruence.
    - split_and!; try done. intros Hs. unfold q_put_await_ready in Hmay. bool_to_prop. split.
      + intros Hc. unfold queue_full in H1. rewrite bool_decide_eq_true_2 in H1 by done.
        simpl in H1. bool_to_prop. lia.
      + intros Hf%Hpw. congruence. }
  clearbody q1. rewrite Hs. destruct (q_shut_down q) eqn:Hsd.
  - intros [= <- <- <-]. split_and!; [|done|done|done].
    constructor; rewrite ?Hi, ?Hs, ?Hgw1, ?Hrg1, ?Hg1, ?Hm1; try done.
    + intros Hne. by rewrite Hsh1 in Hne.
  - destruct (Hop1 eq_refl) as [Hcap Hful].
    destruct (q_notify_getters _ w) as [q2 w2] eqn:Hn. intros [= <- <- <-].
    apply queue_inv_notify_getters in Hn as (Hinv & Hi2 & Hs2); simpl in *.
    + split_and!; [done|congruence|by rewrite Hi2, Hi|done].
    + rewrite Hgw1, Hrg1, Hg1, Hs, Hi, length_app. simpl. eapply getters_ok_mono; [|exact Hg]. lia.
    + rewrite Hi, Hm1, length_app. simpl. destruct Hp1 as (?&?&?&_). split_and!; [done|done|done|].
      intros Hc%Hcap. lia.
    + intros Hne%Hful. unfold queue_full; simpl. rewrite Hi, Hm1, length_app. simpl.
      apply andb_true_iff. rewrite !bool_decide_eq_true. lia.
    + congruence.
Qed.

Lemma q_put_suspend_inv n h a q w q' w' :
  queue_inv q → q_putters q !! n = None → q_put_await_suspend n h a q w = Ok (q', w') →
  queue_inv q' ∧ q_items q' = q_items q ∧ q_shut_down q' = q_shut_down q.
Proof.
  intros [Hg Hp Hgw Hpw Hsh] Hn. unfold q_put_await_suspend.
  destruct (q_shut_down q) eqn:Hsd; [done|]. intros [= Hq].
  apply queue_inv_notify_putters in Hq; simpl; rewrite ?Hsd; try done.
  - simpl in Hq. by rewrite Hsd in Hq.
  - destruct Hp as (Hr & Hws & Hnd & Hop).
    assert (n ∉ q_put_waiters q) as Hnin by (intros (x & ? & _)%Hws; congruence).
    split_and!; [|..|done].
    + rewrite map_count_insert by done. simpl. lia.
    + intros m [Hm| ->%list_elem_of_singleton]%elem_of_app.
      * rewrite lookup_insert_ne by (intros ->; done). auto.
      * rewrite lookup_insert_eq. eauto.
    + rewrite NoDup_app. split_and!; [done|set_solver|apply NoDup_singleton].
Qed.

Lemma q_put_destroyed_inv n q w q' w' :
  queue_inv q → q_put_destroyed n q w = (q', w') →
  queue_inv q' ∧ q_items q' = q_items q ∧ q_shut_down q' = q_shut_down q.
Proof.
  intros [Hg Hp Hgw Hpw Hsh]. unfold q_put_destroyed, q_remove_put_waiter.
  destruct (q_putters q !! n) as [x|] eqn:Hx; intros Hq.
  - destruct (putters_ok_remove _ _ _ _ _ _ _ Hx Hp) as [Hp' _].
    destruct (pn_reserved x); apply queue_inv_notify_putters in Hq; simpl; try done.
    intros Hs%Hsh. by rewrite Hs.
  - by apply queue_inv_notify_putters in Hq.
Qed.

Lemma q_get_nowait_inv q w r q' w' :
  queue_inv q → q_get_nowait q w = (r, q', w') →
  queue_inv q' ∧ q_shut_down q' = q_shut_down q ∧
  match r with
  | Ok (Some a) => q_items q = a :: q_items q'
  | _ => q_items q' = q_items q
  end.
Proof.
  intros Hinv. pose proof Hinv as [Hg Hp Hgw Hpw Hsh]. unfold q_get_nowait.
  destruct (q_items q) as [|a rest] eqn:Hi; [case_match; by intros [= <- <- <-]|].
  case_decide as Hd; [by intros [= <- <- <-]|]. assert (q_reserved_getters q = 0 ∧ q_get_waiters q = []) as [Hr Hw] by (split; apply dec_stable; tauto).
  destruct (q_notify_putters _ w) as [q2 w2] eqn:Hn. intros [= <- <- <-].
  apply queue_inv_notify_putters in Hn as (Hinv' & Hi2 & Hs2); simpl in *.
  - split_and!; [done|congruence|by rewrite Hi2].
  - destruct Hg as (?&?&?&_). split_and!; [done|done|done|lia].
  - eapply putters_ok_fewer; [|exact Hp]. lia.
  - done.
  - done.
Qed.

Lemma q_put_nowait_inv a q w b q' w' :
  queue_inv q → q_put_nowait a q w = (b, q', w') →
  queue_inv q' ∧ q_shut_down q' = q_shut_down q ∧
  q_items q' = (if b then q_items q ++ [a] else q_items q).
Proof.
  intros Hinv. pose proof Hinv as [Hg Hp Hgw Hpw Hsh]. unfold q_put_nowait.
  destruct (q_shut_down q || queue_full q) eqn:Hc; [by intros [= <- <- <-]|].
  apply orb_false_iff in Hc as [Hs Hf].
  destruct (q_notify_getters _ w) as [q2 w2] eqn:Hn. intros [= <- <- <-].
  apply queue_inv_notify_getters in Hn as (Hinv' & Hi2 & Hs2); simpl in *.
  - split_and!; [done|congruence|by rewrite Hi2].
  - rewrite length_app. simpl. eapply getters_ok_mono; [|exact Hg]. lia.
  - rewrite length_app. simpl. destruct Hp as (?&?&?&_). split_and!; [done|done|done|].
    intros Hc. unfold queue_full in Hf. rewrite bool_decide_eq_true_2 in Hf by done.
    simpl in Hf. bool_to_prop. lia.
  - intros Hne%Hpw. congruence.
  - done.
Qed.

Lemma queue_inv_set_join u ws q : queue_inv q → queue_inv (q_set_join u ws (q_shut_down q) q).
Proof. by intros []; constructor. Qed.

Lemma q_shutdown_inv imm q w q' w' :
  queue_inv q → q_shutdown imm q w = (q', w') →
  queue_inv q' ∧ q_shut_down q' = true ∧ q_get_waiters q' = [] ∧ q_put_waiters q' = [] ∧
  q_items q' = (if imm then [] else q_items q).
Proof.
  intros [Hg Hp Hgw Hpw Hsh]. unfold q_shutdown.
  set (q1 := if imm then _ else _).
  assert (q_items q1 = (if imm then [] else q_items q) ∧ q_shut_down q1 = true ∧
    q_get_waiters q1 = q_get_waiters q ∧ q_put_waiters q1 = q_put_waiters q ∧
    getters_ok (length (q_items q1)) true (q_reserved_getters q1) (q_get_waiters q1) (q_getters q1) ∧
    putters_ok (length (q_items q1)) (q_maxsize q1) (q_reserved_putters q1) (q_put_waiters q1) (q_putters q1))
    as (Hi1 & Hs1 & _ & _ & Hg1 & Hp1).
  { assert (∀ items, getters_ok items true (q_reserved_getters q) (q_get_waiters q) (q_getters q)) as Hg'.
    { intros items. destruct Hg as (?&?&?&_). by split_and!. }
    pose proof (putters_ok_fewer _ 0 _ _ _ _ (Nat.le_0_l _) Hp).
    unfold q1. destruct imm; simpl; [case_decide|]; simpl; by split_and!. }
  destruct (q_expel_putters_spec _ q1 w Hp1) as (r & m & w1 & -> & Hp2).
  match goal with |- context [q_expel_getters ?ws ?x w1] =>
    destruct (q_expel_getters_spec ws x w1 Hg1) as (r' & m' & w2 & -> & Hg2) end.
  simpl in Hg2.
  match goal with |- context [if ?b then q_wake_joiners ?x w2 else (?x, w2)] => set (q2 := x) end.
  assert (queue_inv q2) as Hq2.
  { constructor; simpl; rewrite ?Hs1; done. }
  unfold q_wake_joiners. destruct (negb _ && bool_decide _); intros [= <- <-]; simpl.
  - split_and!; [exact (queue_inv_set_join _ _ q2 Hq2)|done|done|done|done].
  - split_and!; done.
Qed.

(** ** The system: the queue, what entered it and what left it *)

Record queue_sys : Type := mkQueueSys {
  qs_queue : Queue A;
  qs_world : W;
  qs_in : list A;
  qs_out : list A;
}.

Definition log_out (r : res A) (out : list A) : list A :=
  match r with Ok a => out ++ [a] | Throw _ => out end.
Definition log_in (r : res unit) (a : A) (l : list A) : list A :=
  match r with Ok _ => l ++ [a] | Throw _ => l end.

Inductive queue_step : queue_sys → queue_sys → Prop :=
  | QsGetNow q w i o n r q' w' :
      q_getters q !! n = None → q_get_await_ready q = true →
      q_get_await_resume n q w = (r, q', w') →
      queue_step (mkQueueSys q w i o) (mkQueueSys q' w' i (log_out r o))
  | QsGetWait q w i o n h q' w' :
      q_getters q !! n = None → q_get_await_ready q = false →
      q_get_await_suspend n h q w = Ok (q', w') →
      queue_step (mkQueueSys q w i o) (mkQueueSys q' w' i o)
  | QsGetResume q w i o n x r q' w' :
      q_getters q !! n = Some x → gn_reserved x = true ∨ q_shut_down q = true →
      q_get_await_resume n q w = (r, q', w') →
      queue_step (mkQueueSys q w i o) (mkQueueSys q' w' i (log_out r o))
  | QsGetDestroyed q w i o n q' w' :
      q_get_destroyed n q w = (q', w') →
      queue_step (mkQueueSys q w i o) (mkQueueSys q' w' i o)
  | QsPutNow q w i o n a r q' w' :
      q_putters q !! n = None → q_put_await_ready q = true →
      q_put_await_resume n a q w = (r, q', w') →
      queue_step (mkQueueSys q w i o) (mkQueueSys q' w' (log_in r a i) o)
  | QsPutWait q w i o n h a q' w' :
      q_putters q !! n = None → q_put_await_ready q = false →
      q_put_await_suspend n h a q w = Ok (q', w') →
      queue_step (mkQueueSys q w i o) (mkQueueSys q' w' i o)
  | QsPutResume q w i o n x r q' w' :
      q_putters q !! n = Some x → pn_reserved x = true ∨ q_shut_down q = true →
      q_put_await_resume n (pn_item x) q w = (r, q', w') →
      queue_step (mkQueueSys q w i o) (mkQueueSys q' w' (log_in r (pn_item x) i) o)
  | QsPutDestroyed q w i o n q' w' :
      q_put_destroyed n q w = (q', w') →
      queue_step (mkQueueSys q w i o) (mkQueueSys q' w' i o)
  | QsGetNowait q w i o r q' w' :
      q_get_nowait q w = (r, q', w') →
      queue_step (mkQueueSys q w i o)
        (mkQueueSys q' w' i (match r with Ok (Some a) => o ++ [a] | _ => o end))
  | QsPutNowait q w i o a (b : bool) q' w' :
      q_put_nowait a q w = (b, q', w') →
      queue_step (mkQueueSys q w i o) (mkQueueSys q' w' (if b then i ++ [a] else i) o)
  | QsTaskDone q w i o r q' w' :
      q_task_done q w = (r, q', w') →
      queue_step (mkQueueSys q w i o) (mkQueueSys q' w' i o)
  | QsShutdown q w i o imm q' w' :
      (* an immediate shutdown drops the items still queued *)
      q_shutdown imm q w = (q', w') →
      queue_step (mkQueueSys q w i o) (mkQueueSys q' w' (if imm then o else i) o)
  | QsJoin q w i o h :
      queue_step (mkQueueSys q w i o) (mkQueueSys (q_join_await_suspend h q) w i o)
  | QsJoinDestroyed q w i o h :
      queue_step (mkQueueSys q w i o) (mkQueueSys (q_join_destroyed h q) w i o)
  | QsWorld q w i o w' :
      queue_step (mkQueueSys q w i o) (mkQueueSys q w' i o).

Definition queue_sys_inv (y : queue_sys) : Prop :=
  queue_inv (qs_queue y) ∧ qs_in y = qs_out y ++ q_items (qs_queue y).

Lemma q_get_resume_log n q w r q' w' i o :
  queue_sys_inv (mkQueueSys q w i o) → get_may_resume n q → q_get_await_resume n q w = (r, q', w') →
  queue_sys_inv (mkQueueSys q' w' i (log_out r o)).
Proof.
  intros [Hi Hl] Hmay Hr. apply q_get_resume_inv in Hr as (Hi' & _ & Hres); [|done|done].
  split; [done|]. simpl in *. destruct r as [a|e]; simpl.
  - rewrite Hl, Hres. by rewrite <- (assoc_L (++)).
  - destruct Hres as (H1 & H2 & _). by rewrite Hl, H1, H2.
Qed.

Lemma q_put_resume_log n a q w r q' w' i o :
  queue_sys_inv (mkQueueSys q w i o) → put_may_resume n q → q_put_await_resume n a q w = (r, q', w') →
  queue_sys_inv (mkQueueSys q' w' (log_in r a i) o).
Proof.
  intros [Hi Hl] Hmay Hr. apply q_put_resume_inv in Hr as (Hi' & _ & Hres); [|done|done].
  split; [done|]. simpl in *. destruct r as [[]|e]; simpl.
  - destruct Hres as [-> _]. by rewrite Hl, (assoc_L (++)).
  - destruct Hres as [-> _]. done.
Qed.

Lemma q_same_log q w i o q' w' :
  queue_sys_inv (mkQueueSys q w i o) → queue_inv q' ∧ q_items q' = q_items q ∧ q_shut_down q' = q_shut_down q →
  queue_sys_inv (mkQueueSys q' w' i o).
Proof. intros [_ Hl] (Hi & Heq & _). split; [done|]. simpl in *. by rewrite Heq. Qed.

Lemma queue_step_inv y y' : queue_step y y' → queue_sys_inv y → queue_sys_inv y'.
Proof.
  destruct 1 as [q w i o n r q' w' Hn Hrdy Hr|q w i o n h q' w' Hn Hrdy Hr|q w i o n x r q' w' Hn Hx Hr
    |q w i o n q' w' Hr|q w i o n a r q' w' Hn Hrdy Hr|q w i o n h a q' w' Hn Hrdy Hr
    |q w i o n x r q' w' Hn Hx Hr|q w i o n q' w' Hr|q w i o r q' w' Hr|q w i o a b q' w' Hr
    |q w i o r q' w' Hr|q w i o imm q' w' Hr|q w i o h|q w i o h|q w i o w']; intros Hinv.
  - eapply q_get_resume_log; [done| |exact Hr]. unfold get_may_resume. by rewrite Hn.
  - eapply q_same_log; [done|]. eapply q_get_suspend_inv; [apply Hinv|done|exact Hr].
  - eapply q_get_resume_log; [done| |exact Hr]. unfold get_may_resume. by rewrite Hn.
  - eapply q_same_log; [done|]. eapply q_get_destroyed_inv; [apply Hinv|exact Hr].
  - eapply q_put_resume_log; [done| |exact Hr]. unfold put_may_resume. by rewrite Hn.
  - eapply q_same_log; [done|]. eapply q_put_suspend_inv; [apply Hinv|done|exact Hr].
  - eapply q_put_resume_log; [done| |exact Hr]. unfold put_may_resume. by rewrite Hn.
  - eapply q_same_log; [done|]. eapply q_put_destroyed_inv; [apply Hinv|exact Hr].
  - destruct Hinv as [Hi Hl]. apply q_get_nowait_inv in Hr as (Hi' & _ & Hres); [|done].
    split; [done|]. simpl in *. destruct r as [[a|]|e]; rewrite ?Hres; try done.
    rewrite Hl, Hres. by rewrite <- (assoc_L (++)).
  - destruct Hinv as [Hi Hl]. apply q_put_nowait_inv in Hr as (Hi' & _ & Hres); [|done].
    split; [done|]. simpl in *. rewrite Hres. destruct b; [|done]. by rewrite Hl, (assoc_L (++)).
  - destruct Hinv as [Hi Hl]. revert Hr. unfold q_task_done.
    destruct (q_unfinished q); [by intros [= <- <- <-]|].
    case_decide; intros [= <- <- <-]; (split; [simpl in *; destruct Hi; by constructor|done]).
  - destruct Hinv as [Hi Hl]. apply q_shutdown_inv in Hr as (Hi' & _ & _ & _ & Hres); [|done].
    split; [done|]. simpl in *. rewrite Hres. destruct imm; [by rewrite app_nil_r|done].
  - destruct Hinv as [Hi Hl]. split; [by apply queue_inv_set_join|done].
  - destruct Hinv as [Hi Hl]. split; [by apply queue_inv_set_join|done].
  - done.
Qed.

Lemma queue_init_inv mx w : queue_sys_inv (mkQueueSys (queue_init mx) w [] []).
Proof.
  split; [|done]. constructor; simpl; try done.
  - split_and!; [by rewrite map_count_empty|set_solver|by apply NoDup_nil_2|done].
  - split_and!; [by rewrite map_count_empty|set_solver|by apply NoDup_nil_2|simpl; lia].
Qed.

Lemma queue_steps_inv y y' : rtc queue_step y y' → queue_sys_inv y → queue_sys_inv y'.
Proof. induction 1; eauto using queue_step_inv. Qed.


(** The queue is a FIFO without loss or duplication: what producers put is what
    consumers got followed by what is still queued, in the same order; a cancelled
    put enters nothing, and only an immediate shutdown drops items. *)
Theorem queue_fifo mx w y :
  rtc queue_step (mkQueueSys (queue_init mx) w [] []) y →
  qs_in y = qs_out y ++ q_items (qs_queue y).
Proof. intros Hr. apply (queue_steps_inv _ _ Hr (queue_init_inv mx w)). Qed.

(** Upgrading a graceful shutdown to an immediate one leaves the [join] waiters
    suspended although the count of unfinished tasks reached zero: the guard
    [!was_shut] skips their wake-up, and no later [task_done] can run it. *)
Theorem queue_shutdown_upgrade_strands_join q w q' w' :
  queue_inv q → q_shut_down q = true → q_unfinished q ≤ length (q_items q) →
  q_shutdown true q w = (q', w') →
  q_unfinished q' = 0 ∧ q_join_waiters q' = q_join_waiters q ∧
  (∀ w0, q_task_done q' w0 = (Throw LogicError, q', w0)) ∧
  (∀ imm w0, q_join_waiters (q_shutdown imm q' w0).1 = q_join_waiters q).
Proof.
  intros Hinv Hs Hu Hsh.
  assert (q_unfinished q' = 0 ∧ q_join_waiters q' = q_join_waiters q ∧ q_shut_down q' = true ∧
    q_get_waiters q' = [] ∧ q_put_waiters q' = []) as (Hu' & Hj & Hs' & Hg & Hp).
  { pose proof (q_shutdown_inv _ _ _ _ _ Hinv Hsh) as (_ & Hs' & Hg & Hp & _).
    revert Hsh. unfold q_shutdown. rewrite Hs. simpl. rewrite decide_True by done. simpl.
    set (q1 := q_set_unfinished 0 _).
    destruct (q_expel_putters_spec (q_put_waiters q) q1 w) as (r & m & w1 & -> & _).
    { destruct (qi_putters _ Hinv) as (?&?&?&Hc). split_and!; simpl; try done. intros ?%Hc. lia. }
    match goal with |- context [q_expel_getters ?ws ?x w1] =>
      destruct (q_expel_getters_spec ws x w1) as (r' & m' & w2 & -> & _) end.
    { destruct (qi_getters _ Hinv) as (?&?&?&_). by split_and!. }
    by intros [= <- <-]. }
  split_and!; [done|done| |].
  - intros w0. unfold q_task_done. by rewrite Hu'.
  - intros imm w0. unfold q_shutdown.
    destruct imm; simpl; [case_decide|]; simpl; rewrite Hp; simpl; rewrite Hg; simpl; by rewrite Hs'.
Qed.

(** A [get] issued after a graceful shutdown while the last item is promised to
    an earlier consumer suspends, and the consumption of that item does not wake
    it: it stays in the queue of a closed, empty queue instead of failing with
    [QueueShutDown]. *)
Theorem queue_get_after_shutdown_strands q w n m h a x q1 w1 r q2 w2 :
  q_shut_down q = true → q_items q = [a] → q_reserved_getters q = 1 → q_put_waiters q = [] →
  q_get_waiters q = [] → q_getters q !! n = Some x → gn_reserved x = true →
  q_getters q !! m = None →
  q_get_await_ready q = false →
  q_get_await_suspend m h q w = Ok (q1, w1) → q_get_await_resume n q1 w1 = (r, q2, w2) →
  r = Ok a ∧ w2 = w ∧
  q_get_waiters q2 = [m] ∧ q_items q2 = [] ∧ q_shut_down q2 = true ∧
  q_get_await_suspend m h q2 w2 = Throw QueueShutDown.
Proof.
  intros Hs Hi Hr Hp Hg Hn Hx Hm _.
  unfold q_get_await_suspend. rewrite Hs, Hi, Hg. simpl.
  unfold q_notify_getters; simpl. rewrite Hi, Hr. simpl. intros [= <- <-].
  unfold q_get_await_resume, q_remove_get_waiter. simpl.
  rewrite lookup_insert_ne by congruence. rewrite Hn, Hx. simpl. rewrite Hi.
  unfold q_notify_putters. simpl. rewrite Hp. simpl. intros [= <- <- <-]. simpl. by rewrite Hs.
Qed.
End queue.

(** ** Scenarios *)

Section queue_demo.
Local Abbreviation Q := (Queue nat).

(** Consumer 11 waits (node 1), an item arrives and is promised to it, the queue is
    shut down gracefully. *)
Definition queue_demo1 : Q * world :=
  match q_get_await_suspend 1 11 (queue_init 2 : Q) w_demo with
  | Ok (q, w) => let '(_, q, w) := q_put_nowait 42 q w in q_shutdown false q w
  | Throw _ => (queue_init 2, w_demo)
  end.

Lemma queue_demo1_state :
  q_items queue_demo1.1 = [42] ∧ q_reserved_getters queue_demo1.1 = 1 ∧
  q_getters queue_demo1.1 !! 1 = Some (mkGetNode 11 true).
Proof. by vm_compute. Qed.

Lemma queue_get_after_shutdown_strands_witness :
  ∃ q1 w1 q2 w2, q_get_await_suspend 2 12 queue_demo1.1 queue_demo1.2 = Ok (q1, w1) ∧
    q_get_await_resume 1 q1 w1 = (Ok 42, q2, w2) ∧ q_get_waiters q2 = [2] ∧ q_items q2 = [].
Proof.
  destruct (q_get_await_suspend 2 12 queue_demo1.1 queue_demo1.2) as [[q1 w1]|e] eqn:Hs;
    [|vm_compute in Hs; discriminate Hs].
  destruct (q_get_await_resume 1 q1 w1) as [[r q2] w2] eqn:Hr.
  destruct (queue_get_after_shutdown_strands queue_demo1.1 queue_demo1.2 1 2 12 42 (mkGetNode 11 true)
    q1 w1 r q2 w2 eq_refl eq_refl eq_refl eq_refl eq_refl eq_refl eq_refl eq_refl eq_refl Hs Hr)
    as (-> & _ & Hw & Hi & _).
  by exists q1, w1, q2, w2.
Defined.

(** A put, a [join] by 12, a graceful shutdown; then the immediate one. *)
Lemma queue_demo_steps :
  ∃ (q : Q) w i o, rtc queue_step (mkQueueSys (queue_init 2 : Q) w_demo [] []) (mkQueueSys q w i o) ∧
    q_maxsize q = 2 ∧ q_shut_down q = true ∧ q_items q = [42] ∧ q_unfinished q = 1 ∧ q_join_waiters q = [12].
Proof.
  destruct (q_put_nowait 42 (queue_init 2 : Q) w_demo) as [[b q] w] eqn:Hp.
  destruct (q_shutdown false (q_join_await_suspend 12 q) w) as [q' w'] eqn:Hs.
  eexists q', w', _, _. split.
  { eapply rtc_l; [apply (QsPutNowait _ _ _ _ 42 b q w Hp)|].
    eapply rtc_l; [apply QsJoin|]. apply rtc_once. by eapply QsShutdown. }
  vm_compute in Hp. injection Hp as <- <- <-. vm_compute in Hs. injection Hs as <- <-.
  by split_and!.
Qed.

Lemma queue_shutdown_upgrade_strands_join_witness :
  ∃ (q q' : Q) w w', q_shutdown true q w = (q', w') ∧ q_unfinished q' = 0 ∧ q_join_waiters q' = [12].
Proof.
  destruct queue_demo_steps as (q & w & i & o & Hr & _ & Hsh & Hi & Hu & Hj).
  destruct (q_shutdown true q w) as [q' w'] eqn:Hs.
  destruct (queue_steps_inv _ _ Hr (queue_init_inv 2 w_demo)) as [Hinv _].
  assert (q_unfinished q ≤ length (q_items q)) as Hle by (rewrite Hu, Hi; simpl; lia).
  destruct (queue_shutdown_upgrade_strands_join _ _ _ _ Hinv Hsh Hle Hs) as (H1 & H2 & _).
  exists q, q', w, w'. split_and!; [exact Hs|exact H1|]. rewrite H2. exact Hj.
Defined.


Lemma queue_fifo_witness :
  ∃ (q : Q) w i o, rtc queue_step (mkQueueSys (queue_init 2 : Q) w_demo [] []) (mkQueueSys q w i o) ∧
    i = o ++ [42].
Proof.
  destruct queue_demo_steps as (q & w & i & o & Hr & _ & _ & Hi & _). exists q, w, i, o.
  split; [exact Hr|]. rewrite <- Hi. exact (queue_fifo _ _ _ Hr).
Defined.
End queue_demo.
