(* ===== verification/ChannelM.v ===== *)
(** * ChannelM: bounded and rendezvous channels ([coro::channel<T>])

    [src/include/coro/channel.hpp], with the commit gate of
    [src/include/coro/select.hpp].  Waiting nodes are heap objects held by
    [shared_ptr]: stores indexed by node identity.  A gate is the winner cell of a
    [select] ([-1] is undecided).  The channel is used from one thread. *)

From S2P Require Import Prelude ReadyQueue Timers Frames EventLoop Runtime.
From stdpp Require Import options.
#[local] Set Default Proof Using "Type*".

(** ** Nodes and state *)

(** [channel_sender_waiter] and [channel_receiver_waiter]. *)
Record send_node (A : Type) : Type := mkSendNode {
  sd_value : A; sd_handle : handle; sd_taken : bool; sd_gate : option loc; sd_tag : Z;
}.
Arguments mkSendNode {A}. Arguments sd_value {A}. Arguments sd_handle {A}.
Arguments sd_taken {A}. Arguments sd_gate {A}. Arguments sd_tag {A}.

Record recv_node (A : Type) : Type := mkRecvNode {
  rv_value : option A; rv_handle : handle; rv_delivered : bool; rv_gate : option loc; rv_tag : Z;
}.
Arguments mkRecvNode {A}. Arguments rv_value {A}. Arguments rv_handle {A}.
Arguments rv_delivered {A}. Arguments rv_gate {A}. Arguments rv_tag {A}.

(** [channel_state]; a capacity of [None] is [SIZE_MAX]. *)
Record channel (A : Type) : Type := mkChannel {
  ch_buffer : list A;
  ch_senders : list nat;
  ch_receivers : list nat;
  ch_capacity : option nat;
  ch_send_closed : bool;
  ch_all_receivers_gone : bool;
  ch_live_senders : nat;
  ch_live_receivers : nat;
  ch_owner : loop_id;
  ch_snodes : gmap nat (send_node A);
  ch_rnodes : gmap nat (recv_node A);
}.
Arguments mkChannel {A}. Arguments ch_buffer {A}. Arguments ch_senders {A}. Arguments ch_receivers {A}.
Arguments ch_capacity {A}. Arguments ch_send_closed {A}. Arguments ch_all_receivers_gone {A}.
Arguments ch_live_senders {A}. Arguments ch_live_receivers {A}. Arguments ch_owner {A}.
Arguments ch_snodes {A}. Arguments ch_rnodes {A}.

Section channel.
Context {A W : Type} `{Runtime W}.
Implicit Types (st : channel A) (w : W).

Definition channel_new (capacity : option nat) w : channel A :=
  mkChannel [] [] [] capacity false false 0 0 (rt_loop w) ∅ ∅.
Definition channel_bounded (n : nat) w : channel A := channel_new (Some n) w.
Definition channel_rendezvous w : channel A := channel_new (Some 0) w.
Definition channel_unbounded w : channel A := channel_new None w.

(** Field updates. *)
Definition ch_set_buffer (b : list A) st : channel A :=
  mkChannel b (ch_senders st) (ch_receivers st) (ch_capacity st) (ch_send_closed st)
    (ch_all_receivers_gone st) (ch_live_senders st) (ch_live_receivers st) (ch_owner st) (ch_snodes st) (ch_rnodes st).
Definition ch_set_senders (l : list nat) (m : gmap nat (send_node A)) st : channel A :=
  mkChannel (ch_buffer st) l (ch_receivers st) (ch_capacity st) (ch_send_closed st)
    (ch_all_receivers_gone st) (ch_live_senders st) (ch_live_receivers st) (ch_owner st) m (ch_rnodes st).
Definition ch_set_receivers (l : list nat) (m : gmap nat (recv_node A)) st : channel A :=
  mkChannel (ch_buffer st) (ch_senders st) l (ch_capacity st) (ch_send_closed st)
    (ch_all_receivers_gone st) (ch_live_senders st) (ch_live_receivers st) (ch_owner st) (ch_snodes st) m.
Definition ch_set_closed (sc rg : bool) st : channel A :=
  mkChannel (ch_buffer st) (ch_senders st) (ch_receivers st) (ch_capacity st) sc rg
    (ch_live_senders st) (ch_live_receivers st) (ch_owner st) (ch_snodes st) (ch_rnodes st).
Definition ch_set_live (s r : nat) st : channel A :=
  mkChannel (ch_buffer st) (ch_senders st) (ch_receivers st) (ch_capacity st) (ch_send_closed st)
    (ch_all_receivers_gone st) s r (ch_owner st) (ch_snodes st) (ch_rnodes st).

(** ** The commit gate *)

(** [select_state::can_admit] / [claim] on the winner cell. *)
Definition gate_can_admit (g : loc) w : bool := bool_decide (int_load (rt_cells w) g = (-1)%Z).
Definition gate_claim_cell (g : loc) (tag : Z) w : bool * W :=
  let '(won, c) := int_cas g (-1) tag (rt_cells w) in (won, if won then rt_set_cells c w else w).

(** [gate_open], [gate_claim]: no gate always admits. *)
Definition gate_open (g : option loc) w : bool :=
  match g with None => true | Some l => gate_can_admit l w end.
Definition gate_claim (g : option loc) (tag : Z) w : bool * W :=
  match g with None => (true, w) | Some l => gate_claim_cell l tag w end.

(** [gate_open(...) && gate_claim(...)]. *)
Definition gate_admit (g : option loc) (tag : Z) w : bool * W :=
  if gate_open g w then gate_claim g tag w else (false, w).

(** ** Helpers *)

Definition channel_has_room st : bool :=
  match ch_capacity st with None => true | Some c => bool_decide (length (ch_buffer st) < c) end.

Definition channel_wake st (h : handle) w : W :=
  if decide (ch_owner st ≠ 0 ∧ h ≠ null_handle) then rt_schedule (ch_owner st) h w else w.

(** The loop of [channel_deliver] over the candidates [it .. end). *)
Fixpoint channel_deliver_from (it : list nat) st (value : A) w : bool * channel A * W :=
  match it with
  | [] => (false, st, w)
  | n :: it' =>
      match ch_rnodes st !! n with
      | None => channel_deliver_from it' st value w
      | Some x =>
          let '(ok, w) := gate_admit (rv_gate x) (rv_tag x) w in
          if ok then
            let st := ch_set_receivers (erase_first n (ch_receivers st))
              (<[n := mkRecvNode (Some value) (rv_handle x) true (rv_gate x) (rv_tag x)]> (ch_rnodes st)) st in
            (true, st, channel_wake st (rv_handle x) w)
          else channel_deliver_from it' st value w
      end
  end.
Definition channel_deliver st (value : A) w : bool * channel A * W :=
  channel_deliver_from (ch_receivers st) st value w.

Definition channel_take_pending_sender st w : option A * channel A * W :=
  match ch_senders st with
  | [] => (None, st, w)
  | n :: rest =>
      match ch_snodes st !! n with
      | None => (None, st, w)
      | Some x =>
          let '(ok, w) := gate_admit (sd_gate x) (sd_tag x) w in
          if ok then
            let st := ch_set_senders rest
              (<[n := mkSendNode (sd_value x) (sd_handle x) true (sd_gate x) (sd_tag x)]> (ch_snodes st)) st in
            (Some (sd_value x), st, channel_wake st (sd_handle x) w)
          else (None, st, w)
      end
  end.

(** [channel_return_value]: [false] when the value is dropped. *)
Definition channel_return_value st (value : A) w : bool * channel A * W :=
  let '(delivered, st, w) := channel_deliver st value w in
  if delivered then (true, st, w)
  else if channel_has_room st then (true, ch_set_buffer (value :: ch_buffer st) st, w)
  else (false, st, w).

Fixpoint channel_promote_from (ss : list nat) st w : channel A * W :=
  match ss with
  | [] => (st, w)
  | n :: rest =>
      if channel_has_room st then
        match ch_snodes st !! n with
        | None => (st, w)
        | Some x =>
            let '(ok, w) := gate_admit (sd_gate x) (sd_tag x) w in
            if ok then
              let st := ch_set_buffer (ch_buffer st ++ [sd_value x])
                (ch_set_senders rest
                  (<[n := mkSendNode (sd_value x) (sd_handle x) true (sd_gate x) (sd_tag x)]> (ch_snodes st)) st) in
              channel_promote_from rest st (channel_wake st (sd_handle x) w)
            else (st, w)
        end
      else (st, w)
  end.
Definition channel_promote_senders st w : channel A * W :=
  channel_promote_from (ch_senders st) st w.

(** The waking loops of [channel_close]. *)
Definition channel_wake_senders st w : W :=
  foldl (λ w n, match ch_snodes st !! n with Some x => channel_wake st (sd_handle x) w | None => w end)
    w (ch_senders st).
Definition channel_wake_receivers st w : W :=
  foldl (λ w n, match ch_rnodes st !! n with Some x => channel_wake st (rv_handle x) w | None => w end)
    w (ch_receivers st).

Definition channel_close st w : channel A * W :=
  let st := ch_set_closed true (ch_all_receivers_gone st) st in
  let w := channel_wake_senders st w in
  let st := ch_set_senders [] (ch_snodes st) st in
  if bool_decide (length (ch_buffer st) = 0)
  then (ch_set_receivers [] (ch_rnodes st) st, channel_wake_receivers st w)
  else (st, w).

Definition channel_note_no_receivers st w : channel A * W :=
  channel_close (ch_set_closed (ch_send_closed st) true st) w.

Definition channel_drop_sender (n : nat) st w : channel A * W :=
  channel_promote_senders (ch_set_senders (erase_first n (ch_senders st)) (ch_snodes st) st) w.
Definition channel_drop_receiver (n : nat) st : channel A :=
  ch_set_receivers (erase_first n (ch_receivers st)) (ch_rnodes st) st.

(** ** Endpoints *)

Definition sender_bump st : channel A := ch_set_live (S (ch_live_senders st)) (ch_live_receivers st) st.
Definition sender_release st w : channel A * W :=
  let st := ch_set_live (pred (ch_live_senders st)) (ch_live_receivers st) st in
  if decide (ch_live_senders st = 0) then channel_close st w else (st, w).
Definition receiver_bump st : channel A := ch_set_live (ch_live_senders st) (S (ch_live_receivers st)) st.
Definition receiver_release st w : channel A * W :=
  let st := ch_set_live (ch_live_senders st) (pred (ch_live_receivers st)) st in
  if decide (ch_live_receivers st = 0) then channel_note_no_receivers st w else (st, w).

(** [commit_accept], and the fast path of the send awaiter. *)
Definition sender_commit_accept (value : A) st w : bool * channel A * W :=
  let '(delivered, st, w) := channel_deliver st value w in
  if delivered then (true, st, w)
  else if channel_has_room st then (true, ch_set_buffer (ch_buffer st ++ [value]) st, w)
  else (false, st, w).

Definition sender_try_send (value : A) st w : res bool * channel A * W :=
  if ch_send_closed st || ch_all_receivers_gone st then (Throw ClosedChannelError, st, w)
  else let '(b, st, w) := sender_commit_accept value st w in (Ok b, st, w).

Definition sender_probe_can_accept st w : bool :=
  if ch_send_closed st || ch_all_receivers_gone st then false
  else existsb (λ n, match ch_rnodes st !! n with Some x => gate_open (rv_gate x) w | None => false end)
         (ch_receivers st) || channel_has_room st.

Definition sender_arm_for_select (n : nat) (value : A) (g : loc) (tag : Z) (wake : handle) st : channel A :=
  ch_set_senders (ch_senders st ++ [n]) (<[n := mkSendNode value wake false (Some g) tag]> (ch_snodes st)) st.
Definition sender_disarm_for_select (n : nat) st w : channel A * W := channel_drop_sender n st w.

(** [commit_take]: [None] is "nothing to take", [Some None] is EOF. *)
Definition receiver_commit_take st w : option (option A) * channel A * W :=
  match ch_buffer st with
  | v :: rest =>
      let '(st, w) := channel_promote_senders (ch_set_buffer rest st) w in (Some (Some v), st, w)
  | [] =>
      match channel_take_pending_sender st w with
      | (Some v, st, w) => (Some (Some v), st, w)
      | (None, st, w) => if ch_send_closed st then (Some None, st, w) else (None, st, w)
      end
  end.

Definition receiver_try_recv st w : option A * channel A * W :=
  match ch_buffer st with
  | [] => channel_take_pending_sender st w
  | v :: rest =>
      let '(st, w) := channel_promote_senders (ch_set_buffer rest st) w in (Some v, st, w)
  end.

Definition receiver_closed st : bool := ch_send_closed st && bool_decide (length (ch_buffer st) = 0).

Definition receiver_probe_has_message st w : bool :=
  negb (bool_decide (length (ch_buffer st) = 0)) ||
  match ch_senders st with
  | n :: _ => match ch_snodes st !! n with Some x => gate_open (sd_gate x) w | None => false end
  | [] => false
  end || ch_send_closed st.

Definition receiver_arm_for_select (n : nat) (g : loc) (tag : Z) (wake : handle) st : channel A :=
  ch_set_receivers (ch_receivers st ++ [n]) (<[n := mkRecvNode None wake false (Some g) tag]> (ch_rnodes st)) st.
Definition receiver_disarm_for_select (n : nat) st : channel A := channel_drop_receiver n st.

(** ** The send awaiter *)

Definition send_await_ready (value : A) st w : bool * channel A * W :=
  if ch_send_closed st || ch_all_receivers_gone st then (false, st, w)
  else sender_commit_accept value st w.

Definition send_await_suspend (n : nat) (h : handle) (value : A) st w : channel A * W :=
  let st := ch_set_senders (ch_senders st ++ [n])
              (<[n := mkSendNode value h false None (-1)]> (ch_snodes st)) st in
  if ch_send_closed st || ch_all_receivers_gone st then
    let '(st, w) := channel_drop_sender n st w in (st, rt_schedule (rt_loop w) h w)
  else (st, w).

(** [await_resume] of a coroutine that suspended with node [n]. *)
Definition send_await_resume (n : nat) st w : res unit * channel A * W :=
  match ch_snodes st !! n with
  | Some x =>
      if sd_taken x then (Ok tt, st, w)
      else let '(st, w) := channel_drop_sender n st w in (Throw ClosedChannelError, st, w)
  | None => (Throw ClosedChannelError, st, w)
  end.

(** [~channel_send_awaiter]; the node goes with its last owner. *)
Definition send_awaiter_destroyed (n : nat) st w : channel A * W :=
  match ch_snodes st !! n with
  | Some x =>
      let '(st, w) := if sd_taken x then (st, w) else channel_drop_sender n st w in
      (ch_set_senders (ch_senders st) (delete n (ch_snodes st)) st, w)
  | None => (st, w)
  end.

(** ** The receive awaiter *)

(** [await_ready]: ready, with the inline value if any. *)
Definition recv_await_ready st w : bool * option A * channel A * W :=
  match ch_buffer st with
  | v :: rest =>
      let '(st, w) := channel_promote_senders (ch_set_buffer rest st) w in (true, Some v, st, w)
  | [] =>
      match channel_take_pending_sender st w with
      | (Some v, st, w) => (true, Some v, st, w)
      | (None, st, w) => (ch_send_closed st, None, st, w)
      end
  end.

Definition recv_land (n : nat) (value : option A) st : channel A :=
  match ch_rnodes st !! n with
  | Some x => ch_set_receivers (ch_receivers st)
                (<[n := mkRecvNode value (rv_handle x) true (rv_gate x) (rv_tag x)]> (ch_rnodes st)) st
  | None => st
  end.

Definition recv_await_suspend (n : nat) (h : handle) st w : channel A * W :=
  let st := ch_set_receivers (ch_receivers st ++ [n])
              (<[n := mkRecvNode None h false None (-1)]> (ch_rnodes st)) st in
  match ch_buffer st with
  | [] =>
      if ch_send_closed st then
        (channel_drop_receiver n st, rt_schedule (rt_loop w) h w)
      else
        match channel_take_pending_sender st w with
        | (Some got, st, w) => (recv_land n (Some got) st, rt_schedule (rt_loop w) h w)
        | (None, st, w) => (st, w)
        end
  | got :: rest =>
      let st := recv_land n (Some got) (ch_set_buffer rest (channel_drop_receiver n st)) in
      let '(st, w) := channel_promote_senders st w in
      (st, rt_schedule (rt_loop w) h w)
  end.

Definition recv_await_resume (n : nat) st : option A * channel A :=
  match ch_rnodes st !! n with
  | Some x =>
      if rv_delivered x then
        (rv_value x,
         ch_set_receivers (ch_receivers st)
           (<[n := mkRecvNode None (rv_handle x) true (rv_gate x) (rv_tag x)]> (ch_rnodes st)) st)
      else (None, st)
  | None => (None, st)
  end.

(** [~channel_recv_awaiter]: a value delivered but not taken goes back. *)
Definition recv_awaiter_destroyed (n : nat) st w : channel A * W :=
  match ch_rnodes st !! n with
  | Some x =>
      let '(st, w) :=
        if rv_delivered x then
          match rv_value x with
          | Some v => let '(_, st, w) := channel_return_value st v w in (st, w)
          | None => (st, w)
          end
        else (channel_drop_receiver n st, w) in
      (ch_set_receivers (ch_receivers st) (delete n (ch_rnodes st)) st, w)
  | None => (st, w)
  end.

(** A whole [co_await tx.send(v)] up to its suspension: did it complete at once? *)
Definition channel_send (n : nat) (h : handle) (v : A) st w : bool * channel A * W :=
  let '(ready, st, w) := send_await_ready v st w in
  if ready then (true, st, w)
  else let '(st, w) := send_await_suspend n h v st w in (false, st, w).

(** A whole [co_await rx.recv()] up to its suspension. *)
Definition channel_recv (n : nat) (h : handle) st w : bool * option A * channel A * W :=
  let '(ready, v, st, w) := recv_await_ready st w in
  if ready then (true, v, st, w)
  else let '(st, w) := recv_await_suspend n h st w in (false, None, st, w).

(** ** Invariant of a channel used without [select] *)

Definition senders_ok (ws : list nat) (m : gmap nat (send_node A)) : Prop :=
  NoDup ws ∧ ∀ n, n ∈ ws → ∃ x, m !! n = Some x ∧ sd_taken x = false ∧ sd_gate x = None.
Definition receivers_ok (ws : list nat) (m : gmap nat (recv_node A)) : Prop :=
  NoDup ws ∧ ∀ n, n ∈ ws → ∃ x, m !! n = Some x ∧ rv_delivered x = false ∧ rv_gate x = None.

Record channel_inv st : Prop := {
  ci_senders : senders_ok (ch_senders st) (ch_snodes st);
  ci_receivers : receivers_ok (ch_receivers st) (ch_rnodes st);
  ci_capacity : ∀ c, ch_capacity st = Some c → length (ch_buffer st) ≤ c;
  ci_recv_wait : ch_receivers st ≠ [] → ch_buffer st = [] ∧ ch_senders st = [];
  ci_send_wait : ch_senders st ≠ [] → channel_has_room st = false;
  ci_closed : ch_send_closed st = true → ch_senders st = [] ∧ ch_receivers st = [];
  ci_gone : ch_all_receivers_gone st = true → ch_send_closed st = true;
}.

(** The values of the suspended senders, and the virtual queue: what is buffered
    followed by what they hold. *)
Fixpoint sender_values (m : gmap nat (send_node A)) (ws : list nat) : list A :=
  match ws with
  | [] => []
  | n :: rest =>
      match m !! n with Some x => sd_value x :: sender_values m rest | None => sender_values m rest end
  end.
Definition channel_queue st : list A := ch_buffer st ++ sender_values (ch_snodes st) (ch_senders st).

Lemma sender_values_insert m n x ws :
  n ∉ ws → sender_values (<[n := x]> m) ws = sender_values m ws.
Proof.
  induction ws as [|k ws IH]; intros Hn; [done|].
  simpl. rewrite lookup_insert_ne by set_solver. rewrite IH by set_solver. done.
Qed.

Lemma sender_values_delete m n ws :
  n ∉ ws → sender_values (delete n m) ws = sender_values m ws.
Proof.
  induction ws as [|k ws IH]; intros Hn; [done|].
  simpl. rewrite lookup_delete_ne by set_solver. rewrite IH by set_solver. done.
Qed.

Lemma senders_ok_cons n ws m :
  senders_ok (n :: ws) m → n ∉ ws ∧ senders_ok ws m ∧
  ∃ x, m !! n = Some x ∧ sd_taken x = false ∧ sd_gate x = None.
Proof.
  intros [[Hn Hnd]%NoDup_cons Hx]. split_and!; [done| |apply Hx; by left].
  split; [done|]. intros. apply Hx. by right.
Qed.

Lemma senders_ok_insert n x ws m : n ∉ ws → senders_ok ws m → senders_ok ws (<[n := x]> m).
Proof.
  intros Hn [Hnd Hx]. split; [done|]. intros k Hk. rewrite lookup_insert_ne by (intros ->; done). auto.
Qed.

Lemma senders_ok_snoc n x ws m :
  m !! n = None → sd_taken x = false → sd_gate x = None →
  senders_ok ws m → senders_ok (ws ++ [n]) (<[n := x]> m).
Proof.
  intros Hm Ht Hg [Hnd Hx].
  assert (n ∉ ws) as Hn by (intros (y & Hy & _)%Hx; congruence).
  split; [rewrite NoDup_app; split_and!; [done|set_solver|apply NoDup_singleton]|].
  intros k [Hk| ->%list_elem_of_singleton]%elem_of_app.
  - rewrite lookup_insert_ne by (intros ->; done). auto.
  - rewrite lookup_insert_eq. eauto.
Qed.

Lemma receivers_ok_cons n ws m :
  receivers_ok (n :: ws) m → n ∉ ws ∧ receivers_ok ws m ∧
  ∃ x, m !! n = Some x ∧ rv_delivered x = false ∧ rv_gate x = None.
Proof.
  intros [[Hn Hnd]%NoDup_cons Hx]. split_and!; [done| |apply Hx; by left].
  split; [done|]. intros. apply Hx. by right.
Qed.

Lemma receivers_ok_insert n x ws m : n ∉ ws → receivers_ok ws m → receivers_ok ws (<[n := x]> m).
Proof.
  intros Hn [Hnd Hx]. split; [done|]. intros k Hk. rewrite lookup_insert_ne by (intros ->; done). auto.
Qed.

Lemma receivers_ok_snoc n x ws m :
  m !! n = None → rv_delivered x = false → rv_gate x = None →
  receivers_ok ws m → receivers_ok (ws ++ [n]) (<[n := x]> m).
Proof.
  intros Hm Ht Hg [Hnd Hx].
  assert (n ∉ ws) as Hn by (intros (y & Hy & _)%Hx; congruence).
  split; [rewrite NoDup_app; split_and!; [done|set_solver|apply NoDup_singleton]|].
  intros k [Hk| ->%list_elem_of_singleton]%elem_of_app.
  - rewrite lookup_insert_ne by (intros ->; done). auto.
  - rewrite lookup_insert_eq. eauto.
Qed.

Lemma erase_first_last (n : nat) ws : n ∉ ws → erase_first n (ws ++ [n]) = ws.
Proof.
  induction ws as [|k ws IH]; simpl; intros Hn; [by rewrite decide_True|].
  rewrite decide_False by set_solver. f_equal. apply IH. set_solver.
Qed.

(** ** What the helpers do without gates *)

Lemma channel_deliver_plain st v w :
  receivers_ok (ch_receivers st) (ch_rnodes st) →
  match ch_receivers st with
  | [] => channel_deliver st v w = (false, st, w)
  | n :: rs => ∃ x, ch_rnodes st !! n = Some x ∧
      channel_deliver st v w =
        (true, ch_set_receivers rs (<[n := mkRecvNode (Some v) (rv_handle x) true None (rv_tag x)]> (ch_rnodes st)) st,
         channel_wake st (rv_handle x) w)
  end.
Proof.
  intros Hok. unfold channel_deliver. destruct (ch_receivers st) as [|n rs] eqn:Hr; [done|].
  destruct (receivers_ok_cons _ _ _ Hok) as (_ & _ & x & Hx & _ & Hg). exists x. split; [done|].
  simpl. rewrite Hx, Hg. simpl. rewrite Hr. simpl. by rewrite decide_True.
Qed.

Lemma channel_take_plain st w :
  senders_ok (ch_senders st) (ch_snodes st) →
  match ch_senders st with
  | [] => channel_take_pending_sender st w = (None, st, w)
  | n :: ss => ∃ x, ch_snodes st !! n = Some x ∧
      channel_take_pending_sender st w =
        (Some (sd_value x), ch_set_senders ss (<[n := mkSendNode (sd_value x) (sd_handle x) true None (sd_tag x)]> (ch_snodes st)) st,
         channel_wake st (sd_handle x) w)
  end.
Proof.
  intros Hok. unfold channel_take_pending_sender. destruct (ch_senders st) as [|n ss] eqn:Hs; [done|].
  destruct (senders_ok_cons _ _ _ Hok) as (_ & _ & x & Hx & _ & Hg). exists x. split; [done|].
  rewrite Hx, Hg. done.
Qed.

Lemma channel_has_room_snoc st b v c :
  channel_has_room st = true → ch_capacity st = Some c → ch_buffer st = b → length (b ++ [v]) ≤ c.
Proof.
  unfold channel_has_room. intros Hr Hc <-. rewrite Hc in Hr. bool_to_prop.
  rewrite length_app. simpl. lia.
Qed.

Lemma channel_promote_plain ss st w :
  senders_ok ss (ch_snodes st) → ch_senders st = ss →
  (∀ c, ch_capacity st = Some c → length (ch_buffer st) ≤ c) →
  ∃ b rest m w', channel_promote_from ss st w = (ch_set_buffer b (ch_set_senders rest m st), w') ∧
    senders_ok rest m ∧ b ++ sender_values m rest = ch_buffer st ++ sender_values (ch_snodes st) ss ∧
    (rest ≠ [] → channel_has_room (ch_set_buffer b st) = false) ∧
    (∀ c, ch_capacity st = Some c → length b ≤ c) ∧ (ss = [] → rest = []).
Proof.
  revert st w. induction ss as [|n ss IH]; intros st w Hok Hss Hcap; simpl.
  { exists (ch_buffer st), [], (ch_snodes st), w.
    split_and!; [by destruct st; simpl in *; subst|done|done|done|done|done]. }
  destruct (channel_has_room st) eqn:Hroom; last first.
  { exists (ch_buffer st), (n :: ss), (ch_snodes st), w.
    split_and!; [by destruct st; simpl in *; subst|done|done|done|done|done]. }
  destruct (senders_ok_cons _ _ _ Hok) as (Hn & Hok' & x & Hx & _ & Hg). rewrite Hx, Hg. simpl.
  set (y := mkSendNode _ _ _ _ _).
  set (st1 := ch_set_buffer _ _).
  destruct (IH st1 (channel_wake st1 (sd_handle x) w)) as (b & rest & m & w' & -> & Hr1 & Hr2 & Hr3 & Hr4 & _).
  - by apply senders_ok_insert.
  - done.
  - intros c Hc. by eapply channel_has_room_snoc.
  - exists b, rest, m, w'. split_and!; try done. rewrite Hr2. simpl.
    rewrite sender_values_insert by done. by rewrite <- (assoc_L (++)).
Qed.

(** Promoting restores the clause about waiting senders and keeps the virtual queue. *)
Lemma channel_promote_inv st w st' w' :
  senders_ok (ch_senders st) (ch_snodes st) → receivers_ok (ch_receivers st) (ch_rnodes st) →
  (∀ c, ch_capacity st = Some c → length (ch_buffer st) ≤ c) →
  (ch_receivers st ≠ [] → ch_buffer st = [] ∧ ch_senders st = []) →
  (ch_send_closed st = true → ch_senders st = [] ∧ ch_receivers st = []) →
  (ch_all_receivers_gone st = true → ch_send_closed st = true) →
  channel_promote_senders st w = (st', w') →
  channel_inv st' ∧ channel_queue st' = channel_queue st ∧ ch_receivers st' = ch_receivers st ∧
  ch_rnodes st' = ch_rnodes st ∧ ch_send_closed st' = ch_send_closed st.
Proof.
  intros Hs Hr Hcap Hrw Hcl Hg. unfold channel_promote_senders.
  destruct (channel_promote_plain _ st w Hs eq_refl Hcap)
    as (b & rest & m & w1 & -> & Hs' & Hq & Hroom & Hcap' & Hnil).
  intros [= <- _]. split_and!; [|exact Hq|done|done|done].
  constructor; simpl; try done.
  - intros Hne. destruct (Hrw Hne) as [Hb Hss]. specialize (Hnil Hss). subst rest. split; [|done].
    rewrite Hss, Hb in Hq. simpl in Hq. by rewrite app_nil_r in Hq.
  - intros Hc. destruct (Hcl Hc) as [Hss ?]. by rewrite Hnil.
Qed.

(** Taking the head of the virtual queue: from the buffer, or from a waiting sender. *)
Lemma channel_take_inv st w r v st' w' :
  channel_inv st → recv_await_ready st w = (r, v, st', w') →
  channel_inv st' ∧ ch_receivers st' = ch_receivers st ∧ ch_rnodes st' = ch_rnodes st ∧
  ch_send_closed st' = ch_send_closed st ∧
  match channel_queue st with
  | x :: q => r = true ∧ v = Some x ∧ channel_queue st' = q
  | [] => r = ch_send_closed st ∧ v = None ∧ st' = st ∧ w' = w
  end.
Proof.
  intros [Hs Hr Hcap Hrw Hsw Hcl Hg]. unfold recv_await_ready, channel_queue.
  destruct (ch_buffer st) as [|x rest] eqn:Hb; simpl.
  - pose proof (channel_take_plain st w Hs) as Ht.
    destruct (ch_senders st) as [|n ss] eqn:Hss; simpl.
    + rewrite Ht. intros [= <- <- <- <-]. split_and!; try done. constructor; rewrite ?Hss, ?Hb; done.
    + destruct Ht as (x & Hx & ->). intros [= <- <- <- <-]. rewrite Hx.
      destruct (senders_ok_cons _ _ _ Hs) as (Hn & Hs' & _). simpl.
      split_and!; try done; last first.
      { rewrite Hb. simpl. by rewrite sender_values_insert. }
      assert (ch_receivers st = []) as Hrn.
      { destruct (ch_receivers st); [done|]. destruct Hrw; done. }
      constructor; simpl; rewrite ?Hrn, ?Hb; try done.
      * by apply senders_ok_insert.
      * by rewrite Hrn in Hr.
      * intros _. specialize (Hsw ltac:(done)). unfold channel_has_room in *. simpl. by rewrite Hb in *.
      * intros Hc%Hcl. destruct Hc; done.
  - assert (ch_receivers st = []) as Hrn.
    { destruct (ch_receivers st); [done|]. destruct Hrw; done. }
    destruct (channel_promote_senders _ w) as [st1 w1] eqn:Hp. intros [= <- <- <- <-].
    apply channel_promote_inv in Hp as (Hi & Hq & Hr' & Hm' & Hc'); simpl; rewrite ?Hrn; try done.
    + simpl in Hr'. split_and!; try done. congruence.
    + by rewrite Hrn in Hr.
    + intros c Hc. specialize (Hcap c Hc). simpl in Hcap. lia.
    + intros Hc%Hcl. by destruct Hc.
Qed.

(** Offering a value: to the first waiting receiver, else to the buffer. *)
Lemma channel_accept_inv st v w b st' w' :
  channel_inv st → ch_send_closed st = false → sender_commit_accept v st w = (b, st', w') →
  channel_inv st' ∧ ch_send_closed st' = false ∧ ch_snodes st' = ch_snodes st ∧
  match ch_receivers st with
  | n :: rs => b = true ∧ ch_receivers st' = rs ∧ channel_queue st' = [] ∧
      rv_value <$> ch_rnodes st' !! n = Some (Some v)
  | [] => ch_receivers st' = [] ∧
      if b then channel_queue st' = channel_queue st ++ [v] ∧ ch_senders st' = []
      else st' = st ∧ channel_has_room st = false
  end.
Proof.
  intros [Hs Hr Hcap Hrw Hsw Hcl Hg] Hopen. unfold sender_commit_accept.
  pose proof (channel_deliver_plain st v w Hr) as Hd.
  destruct (ch_receivers st) as [|n rs] eqn:Hrs.
  - rewrite Hd. destruct (channel_has_room st) eqn:Hroom; intros [= <- <- <-].
    + assert (ch_senders st = []) as Hss.
      { destruct (ch_senders st); [done|]. specialize (Hsw ltac:(done)). congruence. }
      unfold channel_queue; simpl. rewrite Hss. simpl. rewrite !app_nil_r. split_and!; try done.
      constructor; simpl; rewrite ?Hrs, ?Hss; try done.
      * by rewrite Hss in Hs.
      * intros c Hc. by eapply channel_has_room_snoc.
    + split_and!; try done. constructor; rewrite ?Hrs; done.
  - destruct Hd as (x & Hx & ->). intros [= <- <- <-]. destruct (Hrw ltac:(done)) as [Hb Hss].
    destruct (receivers_ok_cons _ _ _ Hr) as (Hn & Hr' & _).
    unfold channel_queue; simpl. rewrite Hb, Hss, lookup_insert_eq. split_and!; try done.
    constructor; simpl; try done.
    + by apply receivers_ok_insert.
    + intros Hc. congruence.
Qed.

Lemma channel_inv_new c w : channel_inv (channel_new c w).
Proof. by repeat constructor; simpl; try done; try lia; set_solver. Qed.

Lemma channel_close_inv st w st' w' :
  channel_inv st → channel_close st w = (st', w') →
  channel_inv st' ∧ ch_send_closed st' = true ∧ ch_buffer st' = ch_buffer st.
Proof.
  intros [Hs Hr Hcap Hrw Hsw Hcl Hg]. unfold channel_close; simpl.
  case_bool_decide as Hb; intros [= <- _]; (split_and!; [|done|done]).
  - constructor; simpl; try done; by repeat constructor; set_solver.
  - assert (ch_receivers st = []) as Hrn.
    { destruct (ch_receivers st) eqn:?; [done|]. destruct Hrw as [Hb' _]; [done|]. by rewrite Hb' in Hb. }
    constructor; simpl; rewrite ?Hrn; try done; repeat constructor; set_solver.
Qed.

(** Removing a waiting sender, then letting the others in. *)
Lemma channel_drop_sender_inv n st w st' w' :
  channel_inv st → channel_drop_sender n st w = (st', w') →
  channel_inv st' ∧ ch_send_closed st' = ch_send_closed st.
Proof.
  intros [[Hnd Hs] Hr Hcap Hrw Hsw Hcl Hg]. unfold channel_drop_sender. intros Hp.
  apply channel_promote_inv in Hp as (Hi & _ & _ & _ & Hc); simpl in *; try done.
  - split; [by apply erase_first_NoDup|]. intros k Hk%elem_of_erase_first. auto.
  - intros Hne. destruct (Hrw Hne) as [? ->]. done.
  - intros Hc. destruct (Hcl Hc) as [-> ?]. done.
Qed.

Lemma channel_drop_receiver_inv n st : channel_inv st → channel_inv (channel_drop_receiver n st).
Proof.
  intros [Hs [Hnd Hr] Hcap Hrw Hsw Hcl Hg]. constructor; simpl; try done.
  - split; [by apply erase_first_NoDup|]. intros k Hk%elem_of_erase_first. auto.
  - intros Hne. apply Hrw. by destruct (ch_receivers st).
  - intros Hc. destruct (Hcl Hc) as [? ->]. done.
Qed.

Lemma channel_queue_nil st : channel_inv st → channel_queue st = [] → ch_buffer st = [] ∧ ch_senders st = [].
Proof.
  intros [[_ Hs] _ _ _ _ _ _] [Hb Hv]%app_eq_nil. split; [done|].
  destruct (ch_senders st) as [|n ss]; [done|]. destruct (Hs n) as (x & Hx & _); [by left|].
  simpl in Hv. by rewrite Hx in Hv.
Qed.

(** Registering a node that the lists do not mention yet. *)
Lemma channel_inv_fresh_send n y st :
  ch_snodes st !! n = None → channel_inv st →
  channel_inv (ch_set_senders (ch_senders st) (<[n := y]> (ch_snodes st)) st) ∧ n ∉ ch_senders st.
Proof.
  intros Hn [[Hnd Hs] Hr Hcap Hrw Hsw Hcl Hg].
  assert (n ∉ ch_senders st) as Hnin by (intros (x & ? & _)%Hs; congruence).
  split; [|done]. constructor; simpl; try done. by apply senders_ok_insert.
Qed.

Lemma channel_send_inv n h v st w b st' w' :
  channel_inv st → ch_snodes st !! n = None → channel_send n h v st w = (b, st', w') →
  channel_inv st' ∧ ch_send_closed st' = ch_send_closed st ∧
  if ch_send_closed st then
    b = false ∧ channel_queue st' = channel_queue st ∧ sd_taken <$> ch_snodes st' !! n = Some false
  else match ch_receivers st with
  | m :: rs => b = true ∧ ch_receivers st' = rs ∧ channel_queue st' = [] ∧
      rv_value <$> ch_rnodes st' !! m = Some (Some v)
  | [] => ch_receivers st' = [] ∧ channel_queue st' = channel_queue st ++ [v]
  end.
Proof.
  intros Hi Hn. unfold channel_send, send_await_ready.
  destruct (ch_send_closed st) eqn:Hcl; simpl.
  - unfold send_await_suspend; simpl. rewrite Hcl. simpl. unfold channel_drop_sender; simpl.
    destruct (channel_inv_fresh_send n (mkSendNode v h false None (-1)) st Hn Hi) as [Hi1 Hnin].
    rewrite erase_first_last by done. unfold channel_promote_senders; simpl.
    destruct (ci_closed _ Hi Hcl) as [Hss Hrs]. rewrite Hss in *. simpl. intros [= <- <- <-].
    split_and!; try done.
    + unfold channel_queue; simpl. by rewrite Hss.
    + simpl. by rewrite lookup_insert_eq.
  - assert (ch_all_receivers_gone st = false) as Hgone.
    { destruct (ch_all_receivers_gone st) eqn:Hg; [|done]. apply (ci_gone _ Hi) in Hg. congruence. }
    rewrite Hgone. destruct (sender_commit_accept v st w) as [[b1 st1] w1] eqn:Hacc.
    apply channel_accept_inv in Hacc as (Hi1 & Hcl1 & Hsn & Hres); [|done|done].
    destruct b1.
    + intros [= <- <- <-]. split_and!; [done|done|].
      destruct (ch_receivers st); [by destruct Hres as (? & ? & _)|done].
    + destruct (ch_receivers st) as [|m rs] eqn:Hrs; [|by destruct Hres].
      destruct Hres as (_ & -> & Hroom). unfold send_await_suspend; simpl.
      rewrite Hcl, Hgone. simpl. intros [= <- <- <-]. destruct Hi as [Hs Hr Hcap Hrw Hsw Hcl' Hg].
      assert (n ∉ ch_senders st) as Hnin by (intros (x & ? & _)%Hs; congruence).
      split_and!; [|done|by simpl|].
      * constructor; simpl; rewrite ?Hrs; try done.
        -- by apply senders_ok_snoc.
        -- by rewrite Hrs in Hr.
        -- intros Hc. congruence.
      * unfold channel_queue; simpl. rewrite <- (assoc_L (++)). f_equal.
        clear -Hnin. induction (ch_senders st) as [|k ks IH]; simpl.
        -- by rewrite lookup_insert_eq.
        -- rewrite lookup_insert_ne by set_solver. rewrite IH by set_solver. by destruct (_ !! k).
Qed.

Lemma channel_recv_inv n h st w b v st' w' :
  channel_inv st → ch_rnodes st !! n = None → channel_recv n h st w = (b, v, st', w') →
  channel_inv st' ∧ ch_send_closed st' = ch_send_closed st ∧
  match channel_queue st with
  | x :: q => b = true ∧ v = Some x ∧ channel_queue st' = q ∧ ch_receivers st' = ch_receivers st
  | [] => v = None ∧ channel_queue st' = [] ∧
      if ch_send_closed st then b = true ∧ st' = st
      else b = false ∧ ch_receivers st' = ch_receivers st ++ [n]
  end.
Proof.
  intros Hi Hn. unfold channel_recv. destruct (recv_await_ready st w) as [[[r v1] st1] w1] eqn:Hr.
  apply channel_take_inv in Hr as (Hi1 & Hrs & Hrn & Hcl1 & Hres); [|done].
  destruct (channel_queue st) as [|x q] eqn:Hq.
  - destruct Hres as (-> & -> & -> & ->). destruct (ch_send_closed st) eqn:Hcl.
    { intros [= <- <- <- <-]. done. }
    destruct (channel_queue_nil st Hi Hq) as [Hb Hss].
    unfold recv_await_suspend; simpl. rewrite Hb, Hcl. unfold channel_take_pending_sender; simpl.
    rewrite Hss. intros [= <- <- <- <-]. simpl. destruct Hi as [Hs Hrc Hcap Hrw Hsw Hcl' Hg].
    split_and!; try done.
    + constructor; simpl; rewrite ?Hb, ?Hss; try done.
      * by rewrite Hss in Hs.
      * by apply receivers_ok_snoc.
      * intros c _. simpl. lia.
      * intros Hc. congruence.
  - destruct Hres as (-> & -> & Hq1). intros [= <- <- <- <-]. done.
Qed.

(** Sending is appending to one FIFO: on an open channel a value goes to the
    first suspended receiver when there is one, and otherwise to the end of the
    virtual queue made of the buffer and of the values the suspended senders hold;
    on a closed channel nothing is accepted and the sender gets an error. *)
Theorem channel_send_fifo n h v st w b st' w' :
  channel_inv st → ch_snodes st !! n = None → channel_send n h v st w = (b, st', w') →
  channel_inv st' ∧
  if ch_send_closed st then
    channel_queue st' = channel_queue st ∧ b = false ∧
    (send_await_resume n st' w').1.1 = Throw ClosedChannelError
  else match ch_receivers st with
  | m :: rs => b = true ∧ ch_receivers st' = rs ∧ channel_queue st = [] ∧ channel_queue st' = [] ∧
      rv_value <$> ch_rnodes st' !! m = Some (Some v)
  | [] => channel_queue st' = channel_queue st ++ [v]
  end.
Proof.
  intros Hi Hn Hs. pose proof (channel_send_inv _ _ _ _ _ _ _ _ Hi Hn Hs) as (Hi' & _ & Hres).
  split; [done|]. destruct (ch_send_closed st).
  - destruct Hres as (-> & Hq & Ht). split_and!; [done|done|]. unfold send_await_resume.
    destruct (ch_snodes st' !! n) as [x|]; [|done]. simpl in Ht. injection Ht as ->.
    by destruct (channel_drop_sender n st' w').
  - destruct (ch_receivers st) as [|m rs] eqn:Hrs; [by destruct Hres|].
    destruct Hres as (-> & Hr & Hq & Hv).
    destruct (ci_recv_wait _ Hi) as [Hb Hss]; [congruence|].
    split_and!; try done. unfold channel_queue. by rewrite Hb, Hss.
Qed.

(** Receiving takes the head of the same FIFO: the oldest value, buffered or held
    by a suspended sender, is returned at once; when there is none the receiver
    suspends behind the others, or gets the end-of-stream if the channel is closed,
    so that a closed channel is drained before it ends. *)
Theorem channel_recv_fifo n h st w b v st' w' :
  channel_inv st → ch_rnodes st !! n = None → channel_recv n h st w = (b, v, st', w') →
  channel_inv st' ∧
  match channel_queue st with
  | x :: q => b = true ∧ v = Some x ∧ channel_queue st' = q ∧ ch_receivers st' = ch_receivers st
  | [] => v = None ∧ channel_queue st' = [] ∧
      if ch_send_closed st then b = true ∧ st' = st
      else b = false ∧ ch_receivers st' = ch_receivers st ++ [n]
  end.
Proof.
  intros Hi Hn Hr. by pose proof (channel_recv_inv _ _ _ _ _ _ _ _ Hi Hn Hr) as (? & _ & ?).
Qed.

(** ** Every operation, in any order *)

Inductive channel_step : channel A * W → channel A * W → Prop :=
  | ChSend n h v st w b st' w' :
      ch_snodes st !! n = None → channel_send n h v st w = (b, st', w') →
      channel_step (st, w) (st', w')
  | ChSendResume n st w r st' w' :
      send_await_resume n st w = (r, st', w') → channel_step (st, w) (st', w')
  | ChSendDestroyed n st w st' w' :
      send_awaiter_destroyed n st w = (st', w') → channel_step (st, w) (st', w')
  | ChRecv n h st w b v st' w' :
      ch_rnodes st !! n = None → channel_recv n h st w = (b, v, st', w') →
      channel_step (st, w) (st', w')
  | ChRecvResume n st w v st' :
      recv_await_resume n st = (v, st') → channel_step (st, w) (st', w)
  | ChRecvDestroyed n st w st' w' :
      recv_awaiter_destroyed n st w = (st', w') → channel_step (st, w) (st', w')
  | ChTrySend v st w r st' w' :
      sender_try_send v st w = (r, st', w') → channel_step (st, w) (st', w')
  | ChTryRecv st w v st' w' :
      receiver_try_recv st w = (v, st', w') → channel_step (st, w) (st', w')
  | ChClose st w st' w' :
      channel_close st w = (st', w') → channel_step (st, w) (st', w')
  | ChSenderBump st w : channel_step (st, w) (sender_bump st, w)
  | ChSenderRelease st w st' w' :
      sender_release st w = (st', w') → channel_step (st, w) (st', w')
  | ChReceiverBump st w : channel_step (st, w) (receiver_bump st, w)
  | ChReceiverRelease st w st' w' :
      receiver_release st w = (st', w') → channel_step (st, w) (st', w')
  | ChWorld st w w' : channel_step (st, w) (st, w').

Lemma channel_inv_live s r st : channel_inv st → channel_inv (ch_set_live s r st).
Proof. by intros []; constructor. Qed.

Lemma channel_gone_inv st w st' w' :
  channel_inv st → channel_note_no_receivers st w = (st', w') → channel_inv st'.
Proof.
  intros Hi. unfold channel_note_no_receivers, channel_close; simpl.
  destruct Hi as [Hs Hr Hcap Hrw Hsw Hcl Hg].
  case_bool_decide as Hb; intros [= <- _].
  - constructor; simpl; try done; by repeat constructor; set_solver.
  - assert (ch_receivers st = []) as Hrn.
    { destruct (ch_receivers st) eqn:?; [done|]. destruct Hrw as [Hb' _]; [done|]. by rewrite Hb' in Hb. }
    constructor; simpl; rewrite ?Hrn; try done; repeat constructor; set_solver.
Qed.

(** Forgetting a node that no list mentions. *)
Lemma channel_forget_send n st :
  channel_inv st → n ∉ ch_senders st →
  channel_inv (ch_set_senders (ch_senders st) (delete n (ch_snodes st)) st).
Proof.
  intros [[Hnd Hs] Hr Hcap Hrw Hsw Hcl Hg] Hn. constructor; simpl; try done.
  split; [done|]. intros k Hk. rewrite lookup_delete_ne by (intros ->; done). auto.
Qed.

Lemma channel_forget_recv n st :
  channel_inv st → n ∉ ch_receivers st →
  channel_inv (ch_set_receivers (ch_receivers st) (delete n (ch_rnodes st)) st).
Proof.
  intros [Hs [Hnd Hr] Hcap Hrw Hsw Hcl Hg] Hn. constructor; simpl; try done.
  split; [done|]. intros k Hk. rewrite lookup_delete_ne by (intros ->; done). auto.
Qed.

Lemma channel_promote_senders_sub st w st' w' n :
  channel_promote_senders st w = (st', w') → n ∈ ch_senders st' → n ∈ ch_senders st.
Proof.
  unfold channel_promote_senders.
  assert (∀ ss st w st' w', ch_senders st = ss → channel_promote_from ss st w = (st', w') →
    n ∈ ch_senders st' → n ∈ ss) as Hgen; [|by apply Hgen].
  clear. induction ss as [|k ss IH]; intros st w st' w' Hss; simpl.
  { intros [= <- _]. by rewrite Hss. }
  destruct (channel_has_room st); [|intros [= <- _]; by rewrite Hss].
  destruct (ch_snodes st !! k); [|intros [= <- _]; by rewrite Hss].
  destruct (gate_admit _ _ w) as [[] w1]; [|intros [= <- _]; by rewrite Hss].
  intros Hp Hin. right. by eapply IH; [|exact Hp|].
Qed.

Lemma channel_return_inv st v w b st' w' :
  channel_inv st → channel_return_value st v w = (b, st', w') →
  channel_inv st' ∧ (∀ n, n ∈ ch_receivers st' → n ∈ ch_receivers st) ∧
  match ch_receivers st with
  | [] => if b then channel_queue st' = v :: channel_queue st else st' = st ∧ channel_has_room st = false
  | m :: rs => b = true ∧ rv_value <$> ch_rnodes st' !! m = Some (Some v) ∧ channel_queue st' = channel_queue st
  end.
Proof.
  intros [Hs Hr Hcap Hrw Hsw Hcl Hg]. unfold channel_return_value.
  pose proof (channel_deliver_plain st v w Hr) as Hd.
  destruct (ch_receivers st) as [|n rs] eqn:Hrs.
  - rewrite Hd. destruct (channel_has_room st) eqn:Hroom; intros [= <- <- <-].
    + assert (ch_senders st = []) as Hss.
      { destruct (ch_senders st); [done|]. specialize (Hsw ltac:(done)). congruence. }
      split_and!; [|simpl; rewrite Hrs; done|done].
      constructor; simpl; rewrite ?Hrs, ?Hss; try done.
      * by rewrite Hss in Hs.
      * intros c Hc. unfold channel_has_room in Hroom. rewrite Hc in Hroom. by bool_to_prop.
    + split_and!; [constructor; rewrite ?Hrs; done|rewrite Hrs; done|done|done].
  - destruct Hd as (x & Hx & ->). intros [= <- <- <-].
    destruct (receivers_ok_cons _ _ _ Hr) as (Hn & Hr' & _).
    split_and!; [|simpl; set_solver|done|simpl; by rewrite lookup_insert_eq|done].
    constructor; simpl; try done.
    + by apply receivers_ok_insert.
    + intros _. by apply Hrw.
    + intros Hc%Hcl. by destruct Hc.
Qed.

(** Resuming a send takes back a value that was not taken. *)
Lemma channel_send_resume_inv n st w r st' w' :
  channel_inv st → send_await_resume n st w = (r, st', w') → channel_inv st'.
Proof.
  intros Hi. unfold send_await_resume. destruct (ch_snodes st !! n) as [x|]; [|by intros [= _ <- _]].
  destruct (sd_taken x); [by intros [= _ <- _]|].
  destruct (channel_drop_sender n st w) as [st1 w1] eqn:Hd. intros [= _ <- _].
  by apply (channel_drop_sender_inv _ _ _ _ _ Hi Hd).
Qed.

(** Destroying a send forgets its node, and takes it off the queue when nobody took the value. *)
Lemma channel_send_destroyed_inv n st w st' w' :
  channel_inv st → send_awaiter_destroyed n st w = (st', w') → channel_inv st'.
Proof.
  intros Hi. unfold send_awaiter_destroyed. destruct (ch_snodes st !! n) as [x|] eqn:Hx; [|by intros [= <- _]].
  destruct (sd_taken x) eqn:Ht.
  - intros [= <- _]. apply channel_forget_send; [done|].
    intros Hin. destruct (ci_senders _ Hi) as [_ Hs]. destruct (Hs n Hin) as (y & Hy & Hty & _). congruence.
  - destruct (channel_drop_sender n st w) as [st1 w1] eqn:Hd. intros [= <- _].
    apply channel_forget_send; [by apply (channel_drop_sender_inv _ _ _ _ _ Hi Hd)|].
    intros Hin%(channel_promote_senders_sub _ _ _ _ _ Hd). simpl in Hin.
    by eapply erase_first_not_elem; [apply (ci_senders _ Hi)|].
Qed.

Lemma channel_recv_resume_inv n st v st' :
  channel_inv st → recv_await_resume n st = (v, st') → channel_inv st'.
Proof.
  intros Hi. unfold recv_await_resume. destruct (ch_rnodes st !! n) as [x|] eqn:Hx; [|by intros [= _ <-]].
  destruct (rv_delivered x) eqn:Hd; intros [= _ <-]; [|done].
  destruct Hi as [Hs [Hnd Hrc] Hcap Hrw Hsw Hcl Hg]. constructor; simpl; try done.
  split; [done|]. intros k Hk. rewrite lookup_insert_ne; [auto|].
  intros ->. destruct (Hrc k Hk) as (y & Hy & Hdy & _). congruence.
Qed.

(** Destroying a receive returns the value it was given and never took. *)
Lemma channel_recv_destroyed_inv n st w st' w' :
  channel_inv st → recv_awaiter_destroyed n st w = (st', w') → channel_inv st'.
Proof.
  intros Hi. unfold recv_awaiter_destroyed. destruct (ch_rnodes st !! n) as [x|] eqn:Hx; [|by intros [= <- _]].
  destruct (rv_delivered x) eqn:Hd.
  - assert (n ∉ ch_receivers st) as Hnin.
    { intros Hin. destruct (ci_receivers _ Hi) as [_ Hrc]. destruct (Hrc n Hin) as (y & Hy & Hdy & _). congruence. }
    destruct (rv_value x) as [v|]; [|intros [= <- _]; by apply channel_forget_recv].
    destruct (channel_return_value st v w) as [[b st1] w1] eqn:Hret. intros [= <- _].
    apply channel_return_inv in Hret as (Hi1 & Hsub & _); [|done]. apply channel_forget_recv; auto.
  - intros [= <- _]. apply (channel_forget_recv n (channel_drop_receiver n st)); [by apply channel_drop_receiver_inv|].
    simpl. intros Hin. by eapply erase_first_not_elem; [apply (ci_receivers _ Hi)|].
Qed.

Lemma channel_step_inv p p' : channel_step p p' → channel_inv p.1 → channel_inv p'.1.
Proof.
  destruct 1 as [n h v st w b st' w' Hn Hr|n st w r st' w' Hr|n st w st' w' Hr|n h st w b v st' w' Hn Hr
    |n st w v st' Hr|n st w st' w' Hr|v st w r st' w' Hr|st w v st' w' Hr|st w st' w' Hr|st w
    |st w st' w' Hr|st w|st w st' w' Hr|st w w']; simpl; intros Hi; try done.
  - by apply (channel_send_inv _ _ _ _ _ _ _ _ Hi Hn Hr).
  - by eapply channel_send_resume_inv.
  - by eapply channel_send_destroyed_inv.
  - by apply (channel_recv_inv _ _ _ _ _ _ _ _ Hi Hn Hr).
  - by eapply channel_recv_resume_inv.
  - by eapply channel_recv_destroyed_inv.
  - revert Hr. unfold sender_try_send. destruct (ch_send_closed st || ch_all_receivers_gone st) eqn:Hc;
      [by intros [= _ <- _]|]. apply orb_false_iff in Hc as [Hc _].
    destruct (sender_commit_accept v st w) as [[b st1] w1] eqn:Ha. intros [= _ <- _].
    by apply (channel_accept_inv _ _ _ _ _ _ Hi Hc Ha).
  - assert (∃ b, recv_await_ready st w = (b, v, st', w')) as [b Hb].
    { revert Hr. unfold receiver_try_recv, recv_await_ready. destruct (ch_buffer st) as [|x rest].
      - destruct (channel_take_pending_sender st w) as [[[y|] st1] w1]; intros [= <- <- <-]; eauto.
      - destruct (channel_promote_senders _ w) as [st1 w1]. intros [= <- <- <-]. eauto. }
    by apply (channel_take_inv _ _ _ _ _ _ Hi Hb).
  - by apply (channel_close_inv _ _ _ _ Hi Hr).
  - by apply channel_inv_live.
  - revert Hr. unfold sender_release. case_decide.
    + intros Hr. by apply (channel_close_inv _ _ _ _ (channel_inv_live _ _ _ Hi) Hr).
    + intros [= <- _]. by apply channel_inv_live.
  - by apply channel_inv_live.
  - revert Hr. unfold receiver_release. case_decide.
    + intros Hr. by apply (channel_gone_inv _ _ _ _ (channel_inv_live _ _ _ Hi) Hr).
    + intros [= <- _]. by apply channel_inv_live.
Qed.

Lemma channel_steps_inv p p' : rtc channel_step p p' → channel_inv p.1 → channel_inv p'.1.
Proof. induction 1; eauto using channel_step_inv. Qed.


(** A value delivered to a receiver that is cancelled before it resumes goes to
    the next receiver or back to the front of the channel, except when there is no
    room: then it is dropped, and on a rendezvous channel without another receiver
    waiting that is always the case, although the send completed. *)
Theorem channel_cancelled_delivery n x v st w st' w' :
  channel_inv st → ch_rnodes st !! n = Some x → rv_delivered x = true → rv_value x = Some v →
  recv_awaiter_destroyed n st w = (st', w') →
  match ch_receivers st with
  | m :: _ => m ≠ n → rv_value <$> ch_rnodes st' !! m = Some (Some v)
  | [] => if channel_has_room st then channel_queue st' = v :: channel_queue st
          else channel_queue st' = channel_queue st
  end ∧
  (ch_capacity st = Some 0 → ch_receivers st = [] → channel_queue st' = channel_queue st).
Proof.
  intros Hi Hx Hd Hv. unfold recv_awaiter_destroyed. rewrite Hx, Hd, Hv.
  destruct (channel_return_value st v w) as [[b st1] w1] eqn:Hret. intros [= <- _].
  pose proof Hret as Hret'. apply channel_return_inv in Hret as (Hi1 & _ & Hres); [|done].
  assert (∀ st2, channel_queue (ch_set_receivers (ch_receivers st2) (delete n (ch_rnodes st2)) st2)
    = channel_queue st2) as Hqeq by done.
  rewrite Hqeq. destruct (ch_receivers st) as [|m rs] eqn:Hrs.
  - destruct b.
    + assert (channel_has_room st = true) as Hroom.
      { revert Hret'. unfold channel_return_value, channel_deliver. rewrite Hrs. simpl.
        by destruct (channel_has_room st). }
      rewrite Hroom. split; [done|]. intros Hc. unfold channel_has_room in Hroom.
      rewrite Hc in Hroom. bool_to_prop. lia.
    + destruct Hres as [-> ->]. done.
  - split; [|done]. intros Hne. simpl. rewrite lookup_delete_ne by done. apply Hres.
Qed.
End channel.

(** ** Scenarios *)

Section channel_demo.
Local Abbreviation C := (channel nat).

Lemma channel_send_fifo_witness :
  ∃ (st' : C) w', channel_send 1 10 7 (channel_bounded 2 w_demo : C) w_demo = (true, st', w') ∧
    channel_queue st' = [7].
Proof.
  destruct (channel_send 1 10 7 (channel_bounded 2 w_demo : C) w_demo) as [[b st'] w'] eqn:Hs.
  destruct (channel_send_fifo 1 10 7 _ _ _ _ _ (channel_inv_new _ _) eq_refl Hs) as [_ Hq].
  exists st', w'. split; [|exact Hq].
  apply (f_equal (λ p, p.1.1)) in Hs as Hb.
  vm_compute in Hb. subst b. reflexivity.
Defined.

(** A rendezvous: 10 sends and suspends, then 11 receives. *)
Lemma channel_recv_fifo_witness :
  ∃ (st st' : C) w w', channel_recv 2 11 st w = (true, Some 7, st', w') ∧ channel_queue st' = [].
Proof.
  destruct (channel_send 1 10 7 (channel_rendezvous w_demo : C) w_demo) as [[b st] w] eqn:Hs.
  destruct (channel_send_fifo 1 10 7 _ _ _ _ _ (channel_inv_new _ _) eq_refl Hs) as [Hi Hq].
  assert (channel_queue st = [7]) as Hq7 by exact Hq.
  assert (ch_rnodes st !! 2 = None) as Hn.
  { vm_compute in Hs. injection Hs as <- <- <-. reflexivity. }
  destruct (channel_recv 2 11 st w) as [[[b' v] st'] w'] eqn:Hr.
  destruct (channel_recv_fifo 2 11 _ _ _ _ _ _ Hi Hn Hr) as [_ Hres]. rewrite Hq7 in Hres.
  destruct Hres as (-> & -> & Hnil & _). by exists st, st', w, w'.
Defined.


(** 11 waits on a rendezvous channel, 10 sends to it and completes, 11 is cancelled. *)
Lemma channel_cancelled_delivery_witness :
  ∃ (st st' : C) w w', recv_awaiter_destroyed 1 st w = (st', w') ∧
    rv_value <$> ch_rnodes st !! 1 = Some (Some 7) ∧ channel_queue st' = [].
Proof.
  destruct (channel_recv 1 11 (channel_rendezvous w_demo : C) w_demo) as [[[b v] st0] w0] eqn:H0.
  destruct (channel_recv_fifo 1 11 _ _ _ _ _ _ (channel_inv_new _ _) eq_refl H0) as [Hi0 _].
  destruct (channel_send 2 10 7 st0 w0) as [[b1 st] w] eqn:H1.
  assert (ch_snodes st0 !! 2 = None) as Hn0.
  { vm_compute in H0. injection H0 as <- <- <- <-. reflexivity. }
  destruct (channel_send_fifo 2 10 7 _ _ _ _ _ Hi0 Hn0 H1) as [Hi _].
  destruct (recv_awaiter_destroyed 1 st w) as [st' w'] eqn:Hd.
  assert (ch_rnodes st !! 1 = Some (mkRecvNode (Some 7) 11 true None (-1)%Z) ∧ ch_receivers st = [] ∧
    ch_capacity st = Some 0 ∧ channel_queue st = []) as (Hx & Hrs & Hc & Hq).
  { vm_compute in H0. injection H0 as <- <- <- <-. vm_compute in H1. injection H1 as <- <- <-. done. }
  exists st, st', w, w'. split_and!; [done|by rewrite Hx|].
  destruct (channel_cancelled_delivery 1 _ 7 _ _ _ _ Hi Hx eq_refl eq_refl Hd) as [_ Hz].
  rewrite (Hz Hc Hrs). exact Hq.
Defined.
End channel_demo.
