(* ===== verification/SelectM.v ===== *)
(** * SelectM: waiting on several channels ([coro::select])

    [src/include/coro/select.hpp].  A select is a winner cell (its gate) and branches;
    a branch that waits is a node with that gate in the queue of its channel.  The
    channels are a store indexed by identity, because several branches, and other
    coroutines, use the same one.  The endpoints are bound to a channel; their
    lifetime is a call of [ChannelM] made by the environment. *)

From S2P Require Import Prelude ReadyQueue Timers Frames EventLoop Runtime ChannelM.
From stdpp Require Import options.
#[local] Set Default Proof Using "Type*".

(** ** Data *)

(** [recv_spec], [send_spec], [timer_spec] (with its deadline), [default_spec]. *)
Inductive select_spec (A : Type) : Type :=
  | RecvOf (c : nat)
  | SendOf (c : nat) (v : A)
  | After (deadline : Z)
  | DefaultNowait.
Arguments RecvOf {A}.
Arguments SendOf {A}.
Arguments After {A}.
Arguments DefaultNowait {A}.

(** [select_branch]: [sb_outbound] is [Some] for a send branch; [sb_node] is its node in
    the channel once armed. *)
Record select_branch (A : Type) : Type := mkBranch {
  sb_index : Z;
  sb_chan : nat;
  sb_outbound : option A;
  sb_node : option nat;
  sb_inbound : option A;
}.
Arguments mkBranch {A}.
Arguments sb_index {A}.
Arguments sb_chan {A}.
Arguments sb_outbound {A}.
Arguments sb_node {A}.
Arguments sb_inbound {A}.

(** [select_body]; [sl_gate] is the winner cell of its [select_state]. *)
Record select_body (A : Type) : Type := mkBody {
  sl_gate : loc;
  sl_handle : handle;
  sl_branches : list (select_branch A);
  sl_timer : option (Z * Z);               (* index and deadline *)
  sl_timer_token : option loc;
  sl_default : option Z;
  sl_rotation : nat;
}.
Arguments mkBody {A}.
Arguments sl_gate {A}.
Arguments sl_handle {A}.
Arguments sl_branches {A}.
Arguments sl_timer {A}.
Arguments sl_timer_token {A}.
Arguments sl_default {A}.
Arguments sl_rotation {A}.

Record select_result (A : Type) : Type := mkResult {
  sr_index : Z;
  sr_value : option A;
  sr_timed_out : bool;
  sr_defaulted : bool;
}.
Arguments mkResult {A}.
Arguments sr_index {A}.
Arguments sr_value {A}.
Arguments sr_timed_out {A}.
Arguments sr_defaulted {A}.

(** The channels and the rest of the world. *)
Record sel_world (A W : Type) : Type := mkSel { sw_chans : nat → channel A; sw_w : W }.
Arguments mkSel {A W}.
Arguments sw_chans {A W}.
Arguments sw_w {A W}.

Section select.
Context {A W : Type} `{Runtime W}.
Implicit Types (s : sel_world A W) (b : select_body A) (br : select_branch A) (st : channel A) (w : W).

Definition sw_put (c : nat) st w s : sel_world A W :=
  mkSel (λ c', if decide (c' = c) then st else sw_chans s c') w.
Definition sw_set_w w s : sel_world A W := mkSel (sw_chans s) w.

Definition sel_winner (g : loc) s : Z := int_load (rt_cells (sw_w s)) g.

Definition sb_is_send br : bool := bool_decide (is_Some (sb_outbound br)).
Definition sb_set_node n br : select_branch A := mkBranch (sb_index br) (sb_chan br) (sb_outbound br) n (sb_inbound br).
Definition sb_set_inbound v br : select_branch A := mkBranch (sb_index br) (sb_chan br) (sb_outbound br) (sb_node br) v.

Definition sl_set_branches bs b : select_body A :=
  mkBody (sl_gate b) (sl_handle b) bs (sl_timer b) (sl_timer_token b) (sl_default b) (sl_rotation b).
Definition sl_set_rotation r b : select_body A :=
  mkBody (sl_gate b) (sl_handle b) (sl_branches b) (sl_timer b) (sl_timer_token b) (sl_default b) r.
Definition sl_set_wait h tok b : select_body A :=
  mkBody (sl_gate b) h (sl_branches b) (sl_timer b) tok (sl_default b) (sl_rotation b).

(** ** Construction: [add] of [select], in the order of the arguments *)

Definition select_add (index : Z) (sp : select_spec A) b : select_body A :=
  match sp with
  | RecvOf c => sl_set_branches (sl_branches b ++ [mkBranch index c None None None]) b
  | SendOf c v => sl_set_branches (sl_branches b ++ [mkBranch index c (Some v) None None]) b
  | After d => mkBody (sl_gate b) (sl_handle b) (sl_branches b) (Some (index, d)) (sl_timer_token b) (sl_default b) (sl_rotation b)
  | DefaultNowait => mkBody (sl_gate b) (sl_handle b) (sl_branches b) (sl_timer b) (sl_timer_token b) (Some index) (sl_rotation b)
  end.

Fixpoint select_build (index : Z) (sps : list (select_spec A)) b : select_body A :=
  match sps with
  | [] => b
  | sp :: sps => select_build (index + 1)%Z sps (select_add index sp b)
  end.

(** A new select: its winner cell starts at [-1]. *)
Definition select_new (g : loc) (sps : list (select_spec A)) s : select_body A * sel_world A W :=
  (select_build 0 sps (mkBody g null_handle [] None None None 0),
   sw_set_w (rt_set_cells (int_store g (-1) (rt_cells (sw_w s))) (sw_w s)) s).

(** [after(d)]. *)
Definition select_after (d : Z) w : select_spec A := After (rt_now w + d)%Z.

(** ** A branch *)

(** [try_now]: probe, claim, commit. *)
Definition try_now (g : loc) br s : bool * select_branch A * sel_world A W :=
  let c := sb_chan br in
  let st := sw_chans s c in
  let ready := match sb_outbound br with
               | Some _ => sender_probe_can_accept st (sw_w s)
               | None => receiver_probe_has_message st (sw_w s)
               end in
  if negb ready then (false, br, s)
  else
    let '(won, w) := gate_claim_cell g (sb_index br) (sw_w s) in
    if negb won then (false, br, sw_set_w w s)
    else
      let back w := rt_set_cells (int_store g (-1) (rt_cells w)) w in
      match sb_outbound br with
      | Some v =>
          let '(ok, st, w) := sender_commit_accept v st w in
          if ok then (true, br, sw_put c st w s) else (false, br, sw_put c st (back w) s)
      | None =>
          match receiver_commit_take st w with
          | (Some got, st, w) => (true, sb_set_inbound got br, sw_put c st w s)
          | (None, st, w) => (false, br, sw_put c st (back w) s)
          end
      end.

(** [arm]; the address of the new node is one that no live node has. *)
Definition arm (g : loc) (h : handle) br s : select_branch A * sel_world A W :=
  let c := sb_chan br in
  let st := sw_chans s c in
  match sb_outbound br with
  | Some v =>
      let n := fresh (dom (ch_snodes st) ∪ list_to_set (ch_senders st)) in
      (sb_set_node (Some n) br, sw_put c (sender_arm_for_select n v g (sb_index br) h st) (sw_w s) s)
  | None =>
      let n := fresh (dom (ch_rnodes st) ∪ list_to_set (ch_receivers st)) in
      (sb_set_node (Some n) br, sw_put c (receiver_arm_for_select n g (sb_index br) h st) (sw_w s) s)
  end.

(** [disarm]; the value given back to the branch goes with it. *)
Definition disarm br s : sel_world A W :=
  let c := sb_chan br in
  match sb_node br with
  | None => s
  | Some n =>
      if sb_is_send br
      then let '(st, w) := sender_disarm_for_select n (sw_chans s c) (sw_w s) in sw_put c st w s
      else sw_put c (receiver_disarm_for_select n (sw_chans s c)) (sw_w s) s
  end.

Definition settled_now br s : bool :=
  match sb_node br with
  | None => false
  | Some n =>
      if sb_is_send br
      then from_option sd_taken false (ch_snodes (sw_chans s (sb_chan br)) !! n)
      else from_option rv_delivered false (ch_rnodes (sw_chans s (sb_chan br)) !! n)
  end.

(** The value a delivered receive node holds. *)
Definition branch_value br s : option A :=
  match sb_node br with
  | Some n =>
      match ch_rnodes (sw_chans s (sb_chan br)) !! n with
      | Some x => if rv_delivered x then rv_value x else sb_inbound br
      | None => sb_inbound br
      end
  | None => sb_inbound br
  end.

(** ** The fast path *)

Definition timer_expired b w : bool :=
  match sl_timer b with Some (_, d) => bool_decide (d ≤ rt_now w)%Z | None => false end.

(** The scan of [run_select], [steps] branches from the rotation on. *)
Fixpoint select_scan (steps : nat) b s : option (select_result A) * select_body A * sel_world A W :=
  match steps with
  | 0 => (None, b, s)
  | S steps =>
      let n := length (sl_branches b) in
      let i := sl_rotation b mod n in
      match sl_branches b !! i with
      | None => (None, b, s)
      | Some br =>
          let b := sl_set_rotation ((sl_rotation b + 1) mod n) b in
          let '(ok, br, s) := try_now (sl_gate b) br s in
          let b := sl_set_branches (<[i := br]> (sl_branches b)) b in
          if ok
          then (Some (mkResult (sb_index br) (if sb_is_send br then None else sb_inbound br) false false), b, s)
          else select_scan steps b s
      end
  end.

(** [settle_guard]. *)
Definition select_settle b s : sel_world A W :=
  let s := foldl (λ s br, disarm br s) s (sl_branches b) in
  match sl_timer_token b with
  | Some t => sw_set_w (rt_set_cells (flag_store t true (rt_cells (sw_w s))) (sw_w s)) s
  | None => s
  end.

(** [run_select] up to its [co_await]. *)
Definition select_begin b s : option (select_result A) * select_body A * sel_world A W :=
  match select_scan (length (sl_branches b)) b s with
  | (Some r, b, s) => (Some r, b, select_settle b s)
  | (None, b, s) =>
      match sl_timer b with
      | Some (i, d) =>
          if bool_decide (d ≤ rt_now (sw_w s))%Z then (Some (mkResult i None true false), b, select_settle b s)
          else match sl_default b with
          | Some i => (Some (mkResult i None false true), b, select_settle b s)
          | None => (None, b, s)
          end
      | None =>
          match sl_default b with
          | Some i => (Some (mkResult i None false true), b, select_settle b s)
          | None => (None, b, s)
          end
      end
  end.

(** ** The slow path *)

Fixpoint arm_all (g : loc) (h : handle) (brs : list (select_branch A)) s : list (select_branch A) * sel_world A W :=
  match brs with
  | [] => ([], s)
  | br :: brs =>
      let '(br, s) := arm g h br s in
      let '(brs, s) := arm_all g h brs s in
      (br :: brs, s)
  end.

(** [await_suspend] with the address [tok] of the token it allocates; the boolean says
    that it stays suspended. *)
Definition select_await_suspend (h : handle) (tok : loc) b s : bool * select_body A * sel_world A W :=
  let '(brs, s) := arm_all (sl_gate b) h (sl_branches b) s in
  let '(t, s) :=
    match sl_timer b with
    | Some (_, d) =>
        (Some tok, sw_set_w (rt_schedule_timer h d (Some tok) None 0
                               (rt_set_cells (flag_store tok false (rt_cells (sw_w s))) (sw_w s))) s)
    | None => (sl_timer_token b, s)
    end in
  let b := sl_set_wait h t (sl_set_branches brs b) in
  let ready := bool_decide (0 ≤ sel_winner (sl_gate b) s)%Z || timer_expired b (sw_w s) || existsb (λ br, settled_now br s) brs in
  (negb ready, b, s).

(** The result once resumed. *)
Definition select_answer b s : select_result A :=
  let winner := sel_winner (sl_gate b) s in
  let expired :=
    if timer_expired b (sw_w s) then mkResult (from_option fst (-1)%Z (sl_timer b)) None true false
    else match list_find (λ br, sb_outbound br = None ∧ receiver_closed (sw_chans s (sb_chan br)) = true) (sl_branches b) with
    | Some (_, br) => mkResult (sb_index br) None false false
    | None => mkResult (-1) None false false
    end in
  if bool_decide (0 ≤ winner)%Z then
    match list_find (λ br, sb_index br = winner) (sl_branches b) with
    | Some (_, br) => mkResult winner (if sb_is_send br then None else branch_value br s) false false
    | None =>
        match sl_timer b with
        | Some (i, _) => if bool_decide (winner = i) then mkResult winner None true false else expired
        | None => expired
        end
    end
  else expired.

(** The rest of [run_select]: the answer, then the guard. *)
Definition select_resume b s : select_result A * sel_world A W := (select_answer b s, select_settle b s).
End select.
