(* ===== verification/GateM.v ===== *)
(** * GateM: the nodes of one select gate under the calls of a channel

    The channels of [src/include/coro/channel.hpp] ask the gate of a waiting node before they
    commit it.  Every call of [ChannelM] is a sequence of the elementary changes
    [gate_micro], whatever the other nodes are; [chan_env] lists the calls other
    coroutines may make while a select waits. *)

From S2P Require Import Prelude ReadyQueue Timers Frames EventLoop Runtime ChannelM SelectM.
From stdpp Require Import options.
#[local] Set Default Proof Using "Type*".

Section gate.
Context {A W : Type} `{Runtime W}.
Implicit Types (s : sel_world A W) (b : select_body A) (br : select_branch A) (st : channel A) (w : W).

(** ** What the calls on a channel do to the nodes of one gate

    [gate_micro g] are the elementary changes: the world with the cell of [g] unchanged,
    nodes leaving the queues, any change of the nodes of other gates, a node of another gate
    entering a queue, and the commit of a node of [g], which claims [g] first. *)

Context `{!RuntimeLaws W}.

Inductive gate_micro (g : loc) : channel A * W → channel A * W → Prop :=
  | GMWorld st w w' :
      int_load (rt_cells w') g = int_load (rt_cells w) g → gate_micro g (st, w) (st, w')
  | GMQueues st st' w :
      ch_snodes st' = ch_snodes st → ch_rnodes st' = ch_rnodes st →
      ch_senders st' `sublist_of` ch_senders st → ch_receivers st' `sublist_of` ch_receivers st →
      gate_micro g (st, w) (st', w)
  | GMSendOther st w m :
      (∀ n x, sd_gate x = Some g → m !! n = Some x ↔ ch_snodes st !! n = Some x) →
      gate_micro g (st, w) (ch_set_senders (ch_senders st) m st, w)
  | GMRecvOther st w m :
      (∀ n x, rv_gate x = Some g → m !! n = Some x ↔ ch_rnodes st !! n = Some x) →
      gate_micro g (st, w) (ch_set_receivers (ch_receivers st) m st, w)
  | GMSendPush st w n x :
      ch_snodes st !! n = Some x → sd_gate x ≠ Some g →
      gate_micro g (st, w) (ch_set_senders (ch_senders st ++ [n]) (ch_snodes st) st, w)
  | GMRecvPush st w n x :
      ch_rnodes st !! n = Some x → rv_gate x ≠ Some g →
      gate_micro g (st, w) (ch_set_receivers (ch_receivers st ++ [n]) (ch_rnodes st) st, w)
  | GMSendTake st w n x w' :
      ch_snodes st !! n = Some x → sd_gate x = Some g → gate_claim_cell g (sd_tag x) w = (true, w') →
      gate_micro g (st, w)
        (ch_set_senders (ch_senders st) (<[n := mkSendNode (sd_value x) (sd_handle x) true (Some g) (sd_tag x)]> (ch_snodes st)) st, w')
  | GMRecvTake st w n x v w' :
      ch_rnodes st !! n = Some x → rv_gate x = Some g → gate_claim_cell g (rv_tag x) w = (true, w') →
      gate_micro g (st, w)
        (ch_set_receivers (ch_receivers st) (<[n := mkRecvNode (Some v) (rv_handle x) true (Some g) (rv_tag x)]> (ch_rnodes st)) st, w').

Abbreviation gm g := (rtc (gate_micro g)).

Lemma gate_claim_cell_spec l tag w :
  gate_claim_cell l tag w =
    (bool_decide (int_load (rt_cells w) l = (-1)%Z),
     if bool_decide (int_load (rt_cells w) l = (-1)%Z) then rt_set_cells (int_store l tag (rt_cells w)) w else w).
Proof. unfold gate_claim_cell, int_cas. case_decide; case_bool_decide; done. Qed.

Lemma gate_claim_other g l tag w : l ≠ g →
  int_load (rt_cells (gate_claim_cell l tag w).2) g = int_load (rt_cells w) g.
Proof.
  intros Hne. rewrite gate_claim_cell_spec. simpl. case_bool_decide; [|done].
  by rewrite rl_cells_get, int_load_store_ne.
Qed.

Lemma gate_admit_cases gate tag w ok w' :
  gate_admit gate tag w = (ok, w') →
  if ok then gate = None ∧ w' = w ∨ ∃ l, gate = Some l ∧ gate_claim_cell l tag w = (true, w') else w' = w.
Proof.
  unfold gate_admit, gate_open, gate_claim, gate_can_admit. destruct gate as [l|]; [|intros [= <- <-]; by left].
  rewrite gate_claim_cell_spec. case_bool_decide as Hc; intros [= <- <-]; [|done].
  right. exists l. split; [done|]. rewrite gate_claim_cell_spec. by rewrite bool_decide_eq_true_2.
Qed.

Lemma gm_world g st w w' : int_load (rt_cells w') g = int_load (rt_cells w) g → gm g (st, w) (st, w').
Proof. intros. by apply rtc_once, GMWorld. Qed.

Lemma gm_schedule g st w l h : gm g (st, w) (st, rt_schedule l h w).
Proof. apply gm_world. by rewrite rl_schedule_cells. Qed.

Lemma gm_wake g st0 st h w : gm g (st, w) (st, channel_wake st0 h w).
Proof. unfold channel_wake. case_decide; [apply gm_schedule|done]. Qed.

Lemma gm_queues g st st' w :
  ch_snodes st' = ch_snodes st → ch_rnodes st' = ch_rnodes st →
  ch_senders st' `sublist_of` ch_senders st → ch_receivers st' `sublist_of` ch_receivers st → gm g (st, w) (st', w).
Proof. intros. by apply rtc_once, GMQueues. Qed.

(** The commit of one receive node, and of the first send node. *)
Lemma gm_deliver_node g st w n x v w' :
  ch_rnodes st !! n = Some x → gate_admit (rv_gate x) (rv_tag x) w = (true, w') →
  gm g (st, w) (ch_set_receivers (erase_first n (ch_receivers st))
    (<[n := mkRecvNode (Some v) (rv_handle x) true (rv_gate x) (rv_tag x)]> (ch_rnodes st)) st, w').
Proof.
  intros Hx Ha%gate_admit_cases.
  trans (ch_set_receivers (ch_receivers st)
    (<[n := mkRecvNode (Some v) (rv_handle x) true (rv_gate x) (rv_tag x)]> (ch_rnodes st)) st, w');
    [|apply gm_queues; simpl; by try apply erase_first_sublist].
  destruct (decide (rv_gate x = Some g)) as [Hg|Hg].
  - destruct Ha as [[Hn _]|(l & Hl & Hc)]; [congruence|]. assert (l = g) as -> by congruence.
    rewrite Hg. by apply rtc_once, GMRecvTake.
  - trans (st, w').
    + destruct Ha as [[_ ->]|(l & Hl & Hc)]; [done|]. apply gm_world.
      replace w' with (gate_claim_cell l (rv_tag x) w).2 by (by rewrite Hc). apply gate_claim_other. congruence.
    + apply rtc_once, GMRecvOther. intros k y Hy. destruct (decide (k = n)) as [->|Hk].
      * rewrite lookup_insert_eq, Hx. split; intros [= <-]; done.
      * by rewrite lookup_insert_ne.
Qed.

Lemma gm_take_node g st w n x rest w' :
  ch_snodes st !! n = Some x → ch_senders st = n :: rest → gate_admit (sd_gate x) (sd_tag x) w = (true, w') →
  gm g (st, w) (ch_set_senders rest
    (<[n := mkSendNode (sd_value x) (sd_handle x) true (sd_gate x) (sd_tag x)]> (ch_snodes st)) st, w').
Proof.
  intros Hx Hq Ha%gate_admit_cases.
  trans (ch_set_senders (ch_senders st)
    (<[n := mkSendNode (sd_value x) (sd_handle x) true (sd_gate x) (sd_tag x)]> (ch_snodes st)) st, w');
    [|apply gm_queues; simpl; rewrite ?Hq; try done; by apply sublist_cons].
  destruct (decide (sd_gate x = Some g)) as [Hg|Hg].
  - destruct Ha as [[Hn _]|(l & Hl & Hc)]; [congruence|]. assert (l = g) as -> by congruence.
    rewrite Hg. by apply rtc_once, GMSendTake.
  - trans (st, w').
    + destruct Ha as [[_ ->]|(l & Hl & Hc)]; [done|]. apply gm_world.
      replace w' with (gate_claim_cell l (sd_tag x) w).2 by (by rewrite Hc). apply gate_claim_other. congruence.
    + apply rtc_once, GMSendOther. intros k y Hy. destruct (decide (k = n)) as [->|Hk].
      * rewrite lookup_insert_eq, Hx. split; intros [= <-]; done.
      * by rewrite lookup_insert_ne.
Qed.

Lemma gm_deliver g st v w : gm g (st, w) ((channel_deliver st v w).1.2, (channel_deliver st v w).2).
Proof.
  unfold channel_deliver. generalize (ch_receivers st) as it. intros it. revert w.
  induction it as [|n it IH]; intros w; simpl; [done|].
  destruct (ch_rnodes st !! n) as [x|] eqn:Hx; [|apply IH].
  destruct (gate_admit _ _ w) as [[] w1] eqn:Ha.
  - simpl. etrans; [by eapply gm_deliver_node|]. apply gm_wake.
  - apply gate_admit_cases in Ha as ->. apply IH.
Qed.

Lemma gm_take g st w : gm g (st, w) ((channel_take_pending_sender st w).1.2, (channel_take_pending_sender st w).2).
Proof.
  unfold channel_take_pending_sender. destruct (ch_senders st) as [|n rest] eqn:Hq; [done|].
  destruct (ch_snodes st !! n) as [x|] eqn:Hx; [|done].
  destruct (gate_admit _ _ w) as [[] w1] eqn:Ha.
  - simpl. etrans; [by eapply gm_take_node|]. apply gm_wake.
  - by apply gate_admit_cases in Ha as ->.
Qed.

Lemma gm_promote g st w : gm g (st, w) (channel_promote_senders st w).
Proof.
  unfold channel_promote_senders.
  assert (∀ ss st w, ch_senders st = ss → gm g (st, w) (channel_promote_from ss st w)) as Hgen; [|by apply Hgen].
  clear st w. induction ss as [|n rest IH]; intros st w Hq; simpl; [done|].
  destruct (channel_has_room st); [|done]. destruct (ch_snodes st !! n) as [x|] eqn:Hx; [|done].
  destruct (gate_admit _ _ w) as [[] w1] eqn:Ha; [|by apply gate_admit_cases in Ha as ->].
  etrans; [by eapply gm_take_node|]. etrans; [|by apply IH].
  etrans; [apply (gm_queues _ _ (ch_set_buffer (ch_buffer st ++ [sd_value x]) (ch_set_senders rest
    (<[n := mkSendNode (sd_value x) (sd_handle x) true (sd_gate x) (sd_tag x)]> (ch_snodes st)) st))); done|].
  apply gm_wake.
Qed.

Lemma gm_drop_sender g n st w : gm g (st, w) (channel_drop_sender n st w).
Proof.
  unfold channel_drop_sender. etrans; [|apply gm_promote]. apply gm_queues; simpl; try done. apply erase_first_sublist.
Qed.

Lemma gm_drop_receiver g n st w : gm g (st, w) (channel_drop_receiver n st, w).
Proof. apply gm_queues; simpl; try done. apply erase_first_sublist. Qed.

Lemma gm_close g st w : gm g (st, w) (channel_close st w).
Proof.
  assert (∀ (f : W → nat → W) ns w, (∀ w n, rt_cells (f w n) = rt_cells w) → rt_cells (foldl f w ns) = rt_cells w) as Hf.
  { clear st w. intros f ns. induction ns as [|n ns IH]; intros w Hf; simpl; [done|]. by rewrite IH, Hf. }
  assert (∀ st0 h w, rt_cells (channel_wake st0 h w) = rt_cells w) as Hw.
  { intros. unfold channel_wake. case_decide; [apply rl_schedule_cells|done]. }
  assert (∀ st0 w, rt_cells (channel_wake_senders st0 w) = rt_cells w) as Hs.
  { intros. apply Hf. intros w1 n. by destruct (_ !! n). }
  assert (∀ st0 w, rt_cells (channel_wake_receivers st0 w) = rt_cells w) as Hr.
  { intros. apply Hf. intros w1 n. by destruct (_ !! n). }
  unfold channel_close. case_bool_decide.
  - trans (st, channel_wake_receivers (ch_set_senders [] (ch_snodes (ch_set_closed true (ch_all_receivers_gone st) st))
      (ch_set_closed true (ch_all_receivers_gone st) st)) (channel_wake_senders (ch_set_closed true (ch_all_receivers_gone st) st) w)).
    + apply gm_world. by rewrite Hr, Hs.
    + apply gm_queues; simpl; try done; apply sublist_nil_l.
  - trans (st, channel_wake_senders (ch_set_closed true (ch_all_receivers_gone st) st) w).
    + apply gm_world. by rewrite Hs.
    + apply gm_queues; simpl; try done; apply sublist_nil_l.
Qed.

(** A node is not one of the gate [g]. *)
Definition not_send (g : loc) n st : Prop := ∀ x, ch_snodes st !! n = Some x → sd_gate x ≠ Some g.
Definition not_recv (g : loc) n st : Prop := ∀ x, ch_rnodes st !! n = Some x → rv_gate x ≠ Some g.

Lemma gm_send_set g st w n y : not_send g n st → sd_gate y ≠ Some g →
  gm g (st, w) (ch_set_senders (ch_senders st) (<[n := y]> (ch_snodes st)) st, w).
Proof.
  intros Hn Hy. apply rtc_once, GMSendOther. intros k x Hx. destruct (decide (k = n)) as [->|Hk].
  - rewrite lookup_insert_eq. split; [by intros [= ->]|]. by intros ?%Hn.
  - by rewrite lookup_insert_ne.
Qed.

Lemma gm_recv_set g st w n y : not_recv g n st → rv_gate y ≠ Some g →
  gm g (st, w) (ch_set_receivers (ch_receivers st) (<[n := y]> (ch_rnodes st)) st, w).
Proof.
  intros Hn Hy. apply rtc_once, GMRecvOther. intros k x Hx. destruct (decide (k = n)) as [->|Hk].
  - rewrite lookup_insert_eq. split; [by intros [= ->]|]. by intros ?%Hn.
  - by rewrite lookup_insert_ne.
Qed.

Lemma gm_send_del g st w n : not_send g n st →
  gm g (st, w) (ch_set_senders (ch_senders st) (delete n (ch_snodes st)) st, w).
Proof.
  intros Hn. apply rtc_once, GMSendOther. intros k x Hx. destruct (decide (k = n)) as [->|Hk].
  - rewrite lookup_delete_eq. split; [done|]. by intros ?%Hn.
  - by rewrite lookup_delete_ne.
Qed.

Lemma gm_recv_del g st w n : not_recv g n st →
  gm g (st, w) (ch_set_receivers (ch_receivers st) (delete n (ch_rnodes st)) st, w).
Proof.
  intros Hn. apply rtc_once, GMRecvOther. intros k x Hx. destruct (decide (k = n)) as [->|Hk].
  - rewrite lookup_delete_eq. split; [done|]. by intros ?%Hn.
  - by rewrite lookup_delete_ne.
Qed.

(** A new node of another gate at the end of a queue. *)
Lemma gm_send_new g st w n y : not_send g n st → sd_gate y ≠ Some g →
  gm g (st, w) (ch_set_senders (ch_senders st ++ [n]) (<[n := y]> (ch_snodes st)) st, w).
Proof.
  intros Hn Hy. etrans; [by apply (gm_send_set g st w n y)|].
  apply rtc_once. refine (GMSendPush _ _ _ n y _ Hy). simpl. by rewrite lookup_insert_eq.
Qed.

Lemma gm_recv_new g st w n y : not_recv g n st → rv_gate y ≠ Some g →
  gm g (st, w) (ch_set_receivers (ch_receivers st ++ [n]) (<[n := y]> (ch_rnodes st)) st, w).
Proof.
  intros Hn Hy. etrans; [by apply (gm_recv_set g st w n y)|].
  apply rtc_once. refine (GMRecvPush _ _ _ n y _ Hy). simpl. by rewrite lookup_insert_eq.
Qed.

(** Nodes of other gates keep their gate: what is not a node of [g] stays so. *)
Lemma gm_not_send g p p' n : gm g p p' → not_send g n p.1 → not_send g n p'.1.
Proof.
  induction 1 as [|p p1 p2 Hm _ IH]; [done|]. intros Hn. apply IH. clear IH.
  destruct Hm as [| |st w m Hm| | | |st w k x w' Hx Hg Hc| ];
    unfold not_send in *; simpl in *; try done.
  - intros x. rewrite H0. apply Hn.
  - intros x Hx Hg. rewrite Hm in Hx by done. by apply (Hn x).
  - intros y. destruct (decide (n = k)) as [->|Hk]; [|rewrite lookup_insert_ne by done; apply Hn].
    by apply Hn in Hx.
Qed.

Lemma gm_not_recv g p p' n : gm g p p' → not_recv g n p.1 → not_recv g n p'.1.
Proof.
  induction 1 as [|p p1 p2 Hm _ IH]; [done|]. intros Hn. apply IH. clear IH.
  destruct Hm as [| | |st w m Hm| | | |st w k x v w' Hx Hg Hc];
    unfold not_recv in *; simpl in *; try done.
  - intros x. rewrite H1. apply Hn.
  - intros x Hx Hg. rewrite Hm in Hx by done. by apply (Hn x).
  - intros y. destruct (decide (n = k)) as [->|Hk]; [|rewrite lookup_insert_ne by done; apply Hn].
    by apply Hn in Hx.
Qed.

Lemma gm_accept g v st w : gm g (st, w) ((sender_commit_accept v st w).1.2, (sender_commit_accept v st w).2).
Proof.
  unfold sender_commit_accept. pose proof (gm_deliver g st v w) as Hd.
  destruct (channel_deliver st v w) as [[[] st1] w1]; simpl in Hd |- *; [done|].
  destruct (channel_has_room st1); simpl; [|done]. etrans; [done|]. by apply gm_queues.
Qed.

Lemma gm_pop g v rest st w : ch_buffer st = v :: rest → gm g (st, w) (channel_promote_senders (ch_set_buffer rest st) w).
Proof. intros _. etrans; [|apply gm_promote]. by apply gm_queues. Qed.

Lemma gm_commit_take g st w : gm g (st, w) ((receiver_commit_take st w).1.2, (receiver_commit_take st w).2).
Proof.
  unfold receiver_commit_take. destruct (ch_buffer st) as [|v rest] eqn:Hb.
  - pose proof (gm_take g st w) as Ht. destruct (channel_take_pending_sender st w) as [[[v|] st1] w1]; [done|].
    by destruct (ch_send_closed st1).
  - pose proof (gm_pop g v rest st w Hb) as Hp. by destruct (channel_promote_senders _ w).
Qed.

Lemma gm_try_recv g st w : gm g (st, w) ((receiver_try_recv st w).1.2, (receiver_try_recv st w).2).
Proof.
  unfold receiver_try_recv. destruct (ch_buffer st) as [|v rest] eqn:Hb; [apply gm_take|].
  pose proof (gm_pop g v rest st w Hb) as Hp. by destruct (channel_promote_senders _ w).
Qed.

Lemma gm_send_suspend g n h v st w : not_send g n st → gm g (st, w) (send_await_suspend n h v st w).
Proof.
  intros Hn. unfold send_await_suspend.
  pose proof (gm_send_new g st w n (mkSendNode v h false None (-1)) Hn ltac:(done)) as Hp.
  destruct (_ || _); [|done]. etrans; [done|].
  pose proof (gm_drop_sender g n (ch_set_senders (ch_senders st ++ [n])
    (<[n := mkSendNode v h false None (-1)]> (ch_snodes st)) st) w) as Hd.
  destruct (channel_drop_sender _ _ w) as [st1 w1]. etrans; [done|]. apply gm_schedule.
Qed.

Lemma gm_send g n h v st w :
  not_send g n st → gm g (st, w) ((channel_send n h v st w).1.2, (channel_send n h v st w).2).
Proof.
  intros Hn. unfold channel_send, send_await_ready.
  assert (∀ st w, not_send g n st → gm g (st, w) (send_await_suspend n h v st w)) as Hsu by (intros; by apply gm_send_suspend).
  destruct (_ || _).
  - specialize (Hsu st w Hn). by destruct (send_await_suspend n h v st w).
  - pose proof (gm_accept g v st w) as Ha. destruct (sender_commit_accept v st w) as [[ok st1] w1].
    apply gm_not_send with (n := n) in Ha as Hn1; [|done]. simpl in Ha, Hn1. destruct ok; [done|].
    specialize (Hsu st1 w1 Hn1). destruct (send_await_suspend n h v st1 w1). by etrans.
Qed.

Lemma gm_land g n v st w : not_recv g n st → gm g (st, w) (recv_land n v st, w).
Proof.
  intros Hn. unfold recv_land. destruct (ch_rnodes st !! n) as [x|] eqn:Hx; [|done].
  apply gm_recv_set; [done|exact (Hn x Hx)].
Qed.

Lemma gm_recv_suspend g n h st w : not_recv g n st → gm g (st, w) (recv_await_suspend n h st w).
Proof.
  intros Hn. unfold recv_await_suspend.
  set (st0 := ch_set_receivers (ch_receivers st ++ [n]) (<[n := mkRecvNode None h false None (-1)]> (ch_rnodes st)) st).
  assert (gm g (st, w) (st0, w)) as Hp by by apply gm_recv_new.
  apply gm_not_recv with (n := n) in Hp as Hn0; [|done]. simpl in Hn0. etrans; [exact Hp|]. clearbody st0. clear Hp.
  destruct (ch_buffer st0) as [|v rest] eqn:Hb.
  - destruct (ch_send_closed st0); [etrans; [apply gm_drop_receiver|apply gm_schedule]|].
    pose proof (gm_take g st0 w) as Ht. destruct (channel_take_pending_sender st0 w) as [[[v|] st1] w1]; [|done].
    simpl in Ht. apply gm_not_recv with (n := n) in Ht as Hn1; [|done].
    etrans; [exact Ht|]. etrans; [by apply gm_land|apply gm_schedule].
  - set (st1 := ch_set_buffer rest (channel_drop_receiver n st0)).
    assert (gm g (st0, w) (st1, w)) as H1.
    { etrans; [apply (gm_drop_receiver g n)|]. by apply gm_queues. }
    apply gm_not_recv with (n := n) in H1 as Hn1; [|done].
    pose proof (gm_promote g (recv_land n (Some v) st1) w) as Hp.
    destruct (channel_promote_senders _ w) as [st2 w2].
    etrans; [exact H1|]. etrans; [by apply gm_land|]. etrans; [exact Hp|]. apply gm_schedule.
Qed.

Lemma gm_recv g n h st w :
  not_recv g n st → gm g (st, w) ((channel_recv n h st w).1.2, (channel_recv n h st w).2).
Proof.
  intros Hn. unfold channel_recv.
  assert (gm g (st, w) ((recv_await_ready st w).1.2, (recv_await_ready st w).2)) as Hr.
  { unfold recv_await_ready. destruct (ch_buffer st) as [|v rest] eqn:Hb.
    - pose proof (gm_take g st w) as Ht. by destruct (channel_take_pending_sender st w) as [[[v|] st1] w1].
    - pose proof (gm_pop g v rest st w Hb) as Hp. by destruct (channel_promote_senders _ w). }
  destruct (recv_await_ready st w) as [[[r v] st1] w1]; simpl in Hr.
  apply gm_not_recv with (n := n) in Hr as Hn1; [|done]. simpl in Hn1. destruct r; [done|].
  pose proof (gm_recv_suspend g n h st1 w1 Hn1) as Hs. destruct (recv_await_suspend n h st1 w1). by etrans.
Qed.

Lemma gm_send_resume g n st w : gm g (st, w) ((send_await_resume n st w).1.2, (send_await_resume n st w).2).
Proof.
  unfold send_await_resume. destruct (ch_snodes st !! n) as [x|]; [|done]. destruct (sd_taken x); [done|].
  pose proof (gm_drop_sender g n st w) as Hd. by destruct (channel_drop_sender n st w).
Qed.

Lemma gm_send_destroyed g n st w : not_send g n st → gm g (st, w) (send_awaiter_destroyed n st w).
Proof.
  intros Hn. unfold send_awaiter_destroyed. destruct (ch_snodes st !! n) as [x|]; [|done].
  destruct (sd_taken x); [by apply gm_send_del|].
  pose proof (gm_drop_sender g n st w) as Hd. destruct (channel_drop_sender n st w) as [st1 w1].
  apply gm_not_send with (n := n) in Hd as Hn1; [|done]. etrans; [exact Hd|]. by apply gm_send_del.
Qed.

Lemma gm_recv_resume g n st w : not_recv g n st → gm g (st, w) ((recv_await_resume n st).2, w).
Proof.
  intros Hn. unfold recv_await_resume. destruct (ch_rnodes st !! n) as [x|] eqn:Hx; [|done].
  destruct (rv_delivered x); [|done]. apply gm_recv_set; [done|exact (Hn x Hx)].
Qed.

Lemma gm_return g v st w : gm g (st, w) ((channel_return_value st v w).1.2, (channel_return_value st v w).2).
Proof.
  unfold channel_return_value. pose proof (gm_deliver g st v w) as Hd.
  destruct (channel_deliver st v w) as [[[] st1] w1]; simpl in Hd |- *; [done|].
  destruct (channel_has_room st1); simpl; [|done]. etrans; [done|]. by apply gm_queues.
Qed.

Lemma gm_recv_destroyed g n st w : not_recv g n st → gm g (st, w) (recv_awaiter_destroyed n st w).
Proof.
  intros Hn. unfold recv_awaiter_destroyed. destruct (ch_rnodes st !! n) as [x|]; [|done].
  destruct (rv_delivered x); [destruct (rv_value x) as [v|]|].
  - pose proof (gm_return g v st w) as Hd. destruct (channel_return_value st v w) as [[b st1] w1]. simpl in Hd.
    apply gm_not_recv with (n := n) in Hd as Hn1; [|done]. etrans; [exact Hd|]. by apply gm_recv_del.
  - by apply gm_recv_del.
  - pose proof (gm_drop_receiver g n st w) as Hd.
    apply gm_not_recv with (n := n) in Hd as Hn1; [|done]. etrans; [exact Hd|]. by apply gm_recv_del.
Qed.

(** ** What other coroutines may do while a select with gate [g] waits: every call of
    the channels, with nodes that are not its own *)

Inductive chan_env (g : loc) : channel A * W → channel A * W → Prop :=
  | CESend n h v st w ok st' w' :
      ch_snodes st !! n = None → channel_send n h v st w = (ok, st', w') → chan_env g (st, w) (st', w')
  | CESendResume n st w r st' w' :
      not_send g n st → send_await_resume n st w = (r, st', w') → chan_env g (st, w) (st', w')
  | CESendDestroyed n st w p :
      not_send g n st → send_awaiter_destroyed n st w = p → chan_env g (st, w) p
  | CERecv n h st w ok v st' w' :
      ch_rnodes st !! n = None → channel_recv n h st w = (ok, v, st', w') → chan_env g (st, w) (st', w')
  | CERecvResume n st w v st' :
      not_recv g n st → recv_await_resume n st = (v, st') → chan_env g (st, w) (st', w)
  | CERecvDestroyed n st w p :
      not_recv g n st → recv_awaiter_destroyed n st w = p → chan_env g (st, w) p
  | CETrySend v st w r st' w' : sender_try_send v st w = (r, st', w') → chan_env g (st, w) (st', w')
  | CETryRecv st w v st' w' : receiver_try_recv st w = (v, st', w') → chan_env g (st, w) (st', w')
  | CEClose st w p : channel_close st w = p → chan_env g (st, w) p
  | CEBump st w : chan_env g (st, w) (sender_bump st, w)
  | CERelease st w p : sender_release st w = p → chan_env g (st, w) p
  | CERecvBump st w : chan_env g (st, w) (receiver_bump st, w)
  | CERecvRelease st w p : receiver_release st w = p → chan_env g (st, w) p
  (* the calls of another select *)
  | CEAccept v st w ok st' w' : sender_commit_accept v st w = (ok, st', w') → chan_env g (st, w) (st', w')
  | CETake st w v st' w' : receiver_commit_take st w = (v, st', w') → chan_env g (st, w) (st', w')
  | CEArmSend n v g' tag h st w :
      g' ≠ g → ch_snodes st !! n = None → chan_env g (st, w) (sender_arm_for_select n v g' tag h st, w)
  | CEArmRecv n g' tag h st w :
      g' ≠ g → ch_rnodes st !! n = None → chan_env g (st, w) (receiver_arm_for_select n g' tag h st, w)
  | CEDisarmSend n st w p : not_send g n st → sender_disarm_for_select n st w = p → chan_env g (st, w) p
  | CEDisarmRecv n st w : not_recv g n st → chan_env g (st, w) (receiver_disarm_for_select n st, w).

Inductive sel_env (g : loc) : sel_world A W → sel_world A W → Prop :=
  | SEChan c st' w' s :
      chan_env g (sw_chans s c, sw_w s) (st', w') → sel_env g s (sw_put c st' w' s)
  | SEWorld w' s :
      int_load (rt_cells w') g = int_load (rt_cells (sw_w s)) g → sel_env g s (sw_set_w w' s).

Lemma gm_fst_snd {X} g st w (f : X * channel A * W) x st' w' :
  gm g (st, w) (f.1.2, f.2) → f = (x, st', w') → gm g (st, w) (st', w').
Proof. by intros Hg ->. Qed.

Lemma not_send_none g n st : ch_snodes st !! n = None → not_send g n st.
Proof. intros Hn x. by rewrite Hn. Qed.
Lemma not_recv_none g n st : ch_rnodes st !! n = None → not_recv g n st.
Proof. intros Hn x. by rewrite Hn. Qed.

Lemma gm_release g st w : gm g (st, w) (sender_release st w).
Proof.
  unfold sender_release. case_decide; [etrans; [|apply gm_close]|]; by apply gm_queues.
Qed.

Lemma gm_recv_release g st w : gm g (st, w) (receiver_release st w).
Proof.
  unfold receiver_release, channel_note_no_receivers. case_decide; [etrans; [|apply gm_close]|]; by apply gm_queues.
Qed.

Lemma chan_env_gm g p p' : chan_env g p p' → gm g p p'.
Proof.
  destruct 1 as [n h v st w b st' w' Hn Hr|n st w r st' w' Hn Hr|n st w p Hn <-|n h st w b v st' w' Hn Hr
    |n st w v st' Hn Hr|n st w p Hn <-|v st w r st' w' Hr|st w v st' w' Hr|st w p <-|st w|st w p <-|st w|st w p <-
    |v st w b st' w' Hr|st w v st' w' Hr|n v g' tag h st w Hg Hn|n g' tag h st w Hg Hn|n st w p Hn <-|n st w Hn].
  - eapply gm_fst_snd, Hr. by apply gm_send, not_send_none.
  - eapply gm_fst_snd, Hr. apply gm_send_resume.
  - by apply gm_send_destroyed.
  - eapply gm_fst_snd, Hr. by apply gm_recv, not_recv_none.
  - pose proof (gm_recv_resume g n st w Hn) as Hx. by rewrite Hr in Hx.
  - by apply gm_recv_destroyed.
  - revert Hr. unfold sender_try_send. destruct (_ || _); [by intros [= _ <- <-]|].
    pose proof (gm_accept g v st w) as Hx. destruct (sender_commit_accept v st w) as [[b st1] w1].
    by intros [= _ <- <-].
  - eapply gm_fst_snd, Hr. apply gm_try_recv.
  - apply gm_close.
  - by apply gm_queues.
  - apply gm_release.
  - by apply gm_queues.
  - apply gm_recv_release.
  - eapply gm_fst_snd, Hr. apply gm_accept.
  - eapply gm_fst_snd, Hr. apply gm_commit_take.
  - apply gm_send_new; [by apply not_send_none|]. simpl. congruence.
  - apply gm_recv_new; [by apply not_recv_none|]. simpl. congruence.
  - apply gm_drop_sender.
  - apply gm_drop_receiver.
Qed.
End gate.

Abbreviation gm g := (rtc (gate_micro g)).
