(* ===== verification/SelectSafe.v ===== *)
(** * SelectSafe: what [coro::select] guarantees

    The invariant of a waiting select, kept by everything [chan_env] allows; the theorems on
    the commit of one branch, on the fast path, and the defects of the protocol. *)

From S2P Require Import Prelude ReadyQueue Timers Frames EventLoop Runtime ChannelM SelectM GateM.
From stdpp Require Import options.
#[local] Set Default Proof Using "Type*".

(** The address of a new node is neither live nor queued. *)
Lemma arm_fresh (m : gset nat) (l : list nat) n : n = fresh (m ∪ list_to_set l) → n ∉ m ∧ n ∉ l.
Proof. intros ->. pose proof (is_fresh (m ∪ list_to_set l)) as Hf. set_solver. Qed.

Section select_safe.
Context {A W : Type} `{Runtime W}.
Implicit Types (s : sel_world A W) (b : select_body A) (br : select_branch A) (st : channel A) (w : W).
Context `{!RuntimeLaws W}.

(** ** The invariant of a waiting select *)

Definition occ (n : nat) (l : list nat) : nat := length (filter (λ m, m = n) l).

Lemma occ_sublist n l l' : l `sublist_of` l' → occ n l ≤ occ n l'.
Proof.
  unfold occ. induction 1 as [|x l l' _ IH|x l l' _ IH]; [done| |]; rewrite ?filter_cons; case_decide; simpl; lia.
Qed.

Lemma occ_snoc_ne n m l : m ≠ n → occ n (l ++ [m]) = occ n l.
Proof. intros Hne. unfold occ. rewrite filter_app, filter_cons_False by done. simpl. by rewrite app_nil_r. Qed.

Lemma occ_none n l : n ∉ l ↔ occ n l = 0.
Proof.
  unfold occ. induction l as [|x l IH]; [split; [done|by intros _ ?%elem_of_nil]|].
  rewrite filter_cons. case_decide as Hx.
  - split; [intros Hn; exfalso; apply Hn; subst; by left|done].
  - rewrite <- IH, elem_of_cons. naive_solver.
Qed.

Lemma occ_erase n l : occ n l ≤ 1 → n ∉ erase_first n l.
Proof.
  induction l as [|x l IH]; simpl; [intros _; apply not_elem_of_nil|]. unfold occ. rewrite filter_cons.
  case_decide as Hx; simpl; intros Ho; [apply occ_none; unfold occ; lia|].
  rewrite elem_of_cons. intros [->|Hin]; [done|by apply IH in Hin].
Qed.

(** Nodes of the gate stay, with their tag, and enter no queue. *)
Definition gate_send (g : loc) n tag st : Prop := ∃ x, ch_snodes st !! n = Some x ∧ sd_gate x = Some g ∧ sd_tag x = tag.
Definition gate_recv (g : loc) n tag st : Prop := ∃ x, ch_rnodes st !! n = Some x ∧ rv_gate x = Some g ∧ rv_tag x = tag.

Lemma micro_keeps_send g p p' n tag : gate_micro g p p' → gate_send g n tag p.1 →
  gate_send g n tag p'.1 ∧ occ n (ch_senders p'.1) ≤ occ n (ch_senders p.1).
Proof.
  destruct 1 as [|st st' w Hs _ Hq _|st w m Hm| |st w k y Hk Hy| |st w k y w' Hk Hy Hc|]; unfold gate_send; simpl; try done.
  - intros (x & Hx & Hg & Ht). split; [exists x; by rewrite Hs|by apply occ_sublist].
  - intros (x & Hx & Hg & Ht). split; [|done]. exists x. by rewrite Hm.
  - intros (x & Hx & Hg & Ht). split; [by exists x|]. rewrite occ_snoc_ne; [done|]. intros ->. congruence.
  - intros (x & Hx & Hg & Ht). split; [|done]. destruct (decide (n = k)) as [->|Hne].
    + rewrite lookup_insert_eq. eexists. split; [done|]. simpl. split; congruence.
    + rewrite lookup_insert_ne by done. by exists x.
Qed.

Lemma micro_keeps_recv g p p' n tag : gate_micro g p p' → gate_recv g n tag p.1 →
  gate_recv g n tag p'.1 ∧ occ n (ch_receivers p'.1) ≤ occ n (ch_receivers p.1).
Proof.
  destruct 1 as [|st st' w _ Hs _ Hq| |st w m Hm| |st w k y Hk Hy| |st w k y v w' Hk Hy Hc]; unfold gate_recv; simpl; try done.
  - intros (x & Hx & Hg & Ht). split; [exists x; by rewrite Hs|by apply occ_sublist].
  - intros (x & Hx & Hg & Ht). split; [|done]. exists x. by rewrite Hm.
  - intros (x & Hx & Hg & Ht). split; [by exists x|]. rewrite occ_snoc_ne; [done|]. intros ->. congruence.
  - intros (x & Hx & Hg & Ht). split; [|done]. destruct (decide (n = k)) as [->|Hne].
    + rewrite lookup_insert_eq. eexists. split; [done|]. simpl. split; congruence.
    + rewrite lookup_insert_ne by done. by exists x.
Qed.

(** The node of an armed branch, its queue, and where it is. *)
Definition branch_queue br s : list nat :=
  if sb_is_send br then ch_senders (sw_chans s (sb_chan br)) else ch_receivers (sw_chans s (sb_chan br)).
Definition armed (g : loc) br s : Prop := ∃ n, sb_node br = Some n ∧
  if sb_is_send br then gate_send g n (sb_index br) (sw_chans s (sb_chan br))
  else gate_recv g n (sb_index br) (sw_chans s (sb_chan br)).
Definition is_node (send : bool) (c n : nat) br : Prop :=
  sb_is_send br = send ∧ sb_chan br = c ∧ sb_node br = Some n.

Definition branches_ok (brs : list (select_branch A)) : Prop :=
  NoDup (sb_index <$> brs) ∧ Forall (λ br, (0 ≤ sb_index br)%Z) brs.

Record sel_inv (g : loc) (brs : list (select_branch A)) s : Prop := {
  si_armed : ∀ br, br ∈ brs → armed g br s;
  si_send : ∀ c n x, ch_snodes (sw_chans s c) !! n = Some x → sd_gate x = Some g → ∃ br, br ∈ brs ∧ is_node true c n br;
  si_recv : ∀ c n x, ch_rnodes (sw_chans s c) !! n = Some x → rv_gate x = Some g → ∃ br, br ∈ brs ∧ is_node false c n br;
  si_settled : ∀ br, br ∈ brs → settled_now br s = true ↔ sel_winner g s = sb_index br;
  si_winner : sel_winner g s = (-1)%Z ∨ ∃ br, br ∈ brs ∧ sel_winner g s = sb_index br;
}.

Lemma index_inj brs br br' : branches_ok brs → br ∈ brs → br' ∈ brs → sb_index br = sb_index br' → br = br'.
Proof.
  intros [Hnd _] (i & Hi)%list_elem_of_lookup (j & Hj)%list_elem_of_lookup He.
  assert (i = j) as ->; [|congruence].
  eapply NoDup_lookup; [done| |]; rewrite list_lookup_fmap; [by rewrite Hi|by rewrite Hj, He].
Qed.

Lemma armed_put g br c st st' w w' s :
  (∀ n tag, gate_send g n tag st → gate_send g n tag st') → (∀ n tag, gate_recv g n tag st → gate_recv g n tag st') →
  armed g br (sw_put c st w s) → armed g br (sw_put c st' w' s).
Proof.
  intros Hs Hr (n & Hn & Ha). exists n. split; [done|]. simpl in *.
  case_decide; [|done]. destruct (sb_is_send br); auto.
Qed.

(** A change that keeps the nodes of the gate, and the winner. *)
Lemma sel_inv_keep g brs c st st' w w' s :
  sel_inv g brs (sw_put c st w s) →
  (∀ n x, sd_gate x = Some g → ch_snodes st' !! n = Some x ↔ ch_snodes st !! n = Some x) →
  (∀ n x, rv_gate x = Some g → ch_rnodes st' !! n = Some x ↔ ch_rnodes st !! n = Some x) →
  int_load (rt_cells w') g = int_load (rt_cells w) g →
  sel_inv g brs (sw_put c st' w' s).
Proof.
  intros [Ha Hs Hr Hse Hw] Hsn Hrn Hcell. unfold sel_winner in *; simpl in *. split; unfold sel_winner; simpl; rewrite ?Hcell; try done.
  - intros br Hbr. eapply armed_put; [| |by apply Ha].
    + intros n tag (x & Hx & Hg & Ht). exists x. split; [by apply Hsn|done].
    + intros n tag (x & Hx & Hg & Ht). exists x. split; [by apply Hrn|done].
  - intros c' n x Hx Hg. apply (Hs c' n x); [|done]. case_decide; [by apply Hsn|done].
  - intros c' n x Hx Hg. apply (Hr c' n x); [|done]. case_decide; [by apply Hrn|done].
  - intros br Hbr. rewrite <- (Hse br Hbr). destruct (Ha br Hbr) as (n & Hn & Hx).
    unfold settled_now. rewrite Hn. simpl in *. case_decide; [|done].
    destruct (sb_is_send br); destruct Hx as (x & Hx & Hg & _).
    + rewrite Hx. by apply Hsn in Hx as ->.
    + rewrite Hx. by apply Hrn in Hx as ->.
Qed.

(** The commit of one branch. *)
Lemma sel_inv_commit g brs s s' br0 :
  branches_ok brs → sel_inv g brs s → sel_winner g s = (-1)%Z → br0 ∈ brs → sel_winner g s' = sb_index br0 →
  (∀ br, br ∈ brs → armed g br s → armed g br s') →
  (∀ c n x, ch_snodes (sw_chans s' c) !! n = Some x → sd_gate x = Some g →
     ∃ y, ch_snodes (sw_chans s c) !! n = Some y ∧ sd_gate y = Some g) →
  (∀ c n x, ch_rnodes (sw_chans s' c) !! n = Some x → rv_gate x = Some g →
     ∃ y, ch_rnodes (sw_chans s c) !! n = Some y ∧ rv_gate y = Some g) →
  settled_now br0 s' = true → (∀ br, br ∈ brs → br ≠ br0 → settled_now br s' = settled_now br s) →
  sel_inv g brs s'.
Proof.
  intros Hok [Ha Hs Hr Hse Hw] Hwin H0 Hwin' Ha' Hs' Hr' Hset Hoth.
  assert (∀ br, br ∈ brs → (0 ≤ sb_index br)%Z) as Hpos by (by apply Forall_forall, Hok).
  split; [by auto| | | |].
  - intros c n x Hx Hg. destruct (Hs' c n x Hx Hg) as (y & Hy & Hgy). by eapply Hs.
  - intros c n x Hx Hg. destruct (Hr' c n x Hx Hg) as (y & Hy & Hgy). by eapply Hr.
  - intros br Hbr. rewrite Hwin'. split; intros Hx.
    + destruct (decide (sb_index br0 = sb_index br)) as [|Hne]; [done|].
      rewrite Hoth in Hx by (try done; intros ->; done).
      apply Hse in Hx; [|done]. specialize (Hpos br Hbr). lia.
    + apply (index_inj brs br0 br Hok H0 Hbr) in Hx as <-. done.
  - right. by exists br0.
Qed.

Lemma claim_cell_true g tag w w' : gate_claim_cell g tag w = (true, w') →
  int_load (rt_cells w) g = (-1)%Z ∧ int_load (rt_cells w') g = tag.
Proof.
  rewrite gate_claim_cell_spec. case_bool_decide as Hc; intros [= <-]. split; [done|].
  by rewrite rl_cells_get, int_load_store_eq.
Qed.

Lemma sel_inv_commit_send g brs c st w n x w' s :
  branches_ok brs → sel_inv g brs (sw_put c st w s) →
  ch_snodes st !! n = Some x → sd_gate x = Some g → gate_claim_cell g (sd_tag x) w = (true, w') →
  sel_inv g brs (sw_put c (ch_set_senders (ch_senders st)
    (<[n := mkSendNode (sd_value x) (sd_handle x) true (Some g) (sd_tag x)]> (ch_snodes st)) st) w' s).
Proof.
  intros Hok Hi Hx Hg Hc. pose proof (claim_cell_true _ _ _ _ Hc) as [Hold Hnew].
  pose proof (GMSendTake g st w n x w' Hx Hg Hc) as Hm.
  destruct (si_send _ _ _ Hi c n x) as (br0 & H0 & Hs0 & Hc0 & Hn0); [simpl; by rewrite decide_True|done|].
  assert (sd_tag x = sb_index br0) as Htag.
  { destruct (si_armed _ _ _ Hi br0 H0) as (n' & Hn' & Ha). simpl in Ha. rewrite Hs0, Hc0, decide_True in Ha by done.
    destruct Ha as (y & Hy & _ & <-). congruence. }
  eapply (sel_inv_commit g brs _ _ br0); [done|exact Hi|done|done|simpl; unfold sel_winner; simpl; congruence| | | | |].
  - intros br Hbr. apply armed_put; [|done]. intros k tag Hk. by apply (micro_keeps_send g _ _ k tag Hm).
  - intros c' k y. simpl. case_decide; [|eauto]. simpl. destruct (decide (k = n)) as [->|Hk]; [eauto|].
    rewrite lookup_insert_ne by done. eauto.
  - intros c' k y. simpl. case_decide; eauto.
  - unfold settled_now. rewrite Hn0, Hs0. simpl. rewrite Hc0, decide_True by done. simpl. by rewrite lookup_insert_eq.
  - intros br Hbr Hne. unfold settled_now. destruct (sb_node br) as [k|] eqn:Hk; [|done]. simpl.
    case_decide as Hcd; [|done]. simpl. destruct (sb_is_send br) eqn:Hsd; [|done].
    rewrite lookup_insert_ne; [done|]. intros <-. apply Hne. apply (index_inj brs); [done..|]. rewrite <- Htag.
    destruct (si_armed _ _ _ Hi br Hbr) as (n' & Hn' & Ha). simpl in Ha. rewrite Hsd, decide_True in Ha by done.
    destruct Ha as (y & Hy & _ & <-). congruence.
Qed.

Lemma sel_inv_commit_recv g brs c st w n x v w' s :
  branches_ok brs → sel_inv g brs (sw_put c st w s) →
  ch_rnodes st !! n = Some x → rv_gate x = Some g → gate_claim_cell g (rv_tag x) w = (true, w') →
  sel_inv g brs (sw_put c (ch_set_receivers (ch_receivers st)
    (<[n := mkRecvNode (Some v) (rv_handle x) true (Some g) (rv_tag x)]> (ch_rnodes st)) st) w' s).
Proof.
  intros Hok Hi Hx Hg Hc. pose proof (claim_cell_true _ _ _ _ Hc) as [Hold Hnew].
  pose proof (GMRecvTake g st w n x v w' Hx Hg Hc) as Hm.
  destruct (si_recv _ _ _ Hi c n x) as (br0 & H0 & Hs0 & Hc0 & Hn0); [simpl; by rewrite decide_True|done|].
  assert (rv_tag x = sb_index br0) as Htag.
  { destruct (si_armed _ _ _ Hi br0 H0) as (n' & Hn' & Ha). simpl in Ha. rewrite Hs0, Hc0, decide_True in Ha by done.
    destruct Ha as (y & Hy & _ & <-). congruence. }
  eapply (sel_inv_commit g brs _ _ br0); [done|exact Hi|done|done|simpl; unfold sel_winner; simpl; congruence| | | | |].
  - intros br Hbr. apply armed_put; [done|]. intros k tag Hk. by apply (micro_keeps_recv g _ _ k tag Hm).
  - intros c' k y. simpl. case_decide; eauto.
  - intros c' k y. simpl. case_decide; [|eauto]. simpl. destruct (decide (k = n)) as [->|Hk]; [eauto|].
    rewrite lookup_insert_ne by done. eauto.
  - unfold settled_now. rewrite Hn0, Hs0. simpl. rewrite Hc0, decide_True by done. simpl. by rewrite lookup_insert_eq.
  - intros br Hbr Hne. unfold settled_now. destruct (sb_node br) as [k|] eqn:Hk; [|done]. simpl.
    case_decide as Hcd; [|done]. simpl. destruct (sb_is_send br) eqn:Hsd; [done|].
    rewrite lookup_insert_ne; [done|]. intros <-. apply Hne. apply (index_inj brs); [done..|]. rewrite <- Htag.
    destruct (si_armed _ _ _ Hi br Hbr) as (n' & Hn' & Ha). simpl in Ha. rewrite Hsd, decide_True in Ha by done.
    destruct Ha as (y & Hy & _ & <-). congruence.
Qed.

Lemma sel_inv_micro g brs c p p' s :
  branches_ok brs → gate_micro g p p' → sel_inv g brs (sw_put c p.1 p.2 s) → sel_inv g brs (sw_put c p'.1 p'.2 s).
Proof.
  intros Hok Hm Hi. destruct Hm as [st w w' Hc|st st' w Hs Hr _ _|st w m Hs|st w m Hr|st w n x Hx Hg|st w n x Hx Hg
    |st w n x w' Hx Hg Hc|st w n x v w' Hx Hg Hc]; simpl in *.
  - by eapply sel_inv_keep.
  - eapply sel_inv_keep; [done| | |done]; intros; [by rewrite Hs|by rewrite Hr].
  - by eapply sel_inv_keep.
  - by eapply sel_inv_keep.
  - by eapply sel_inv_keep.
  - by eapply sel_inv_keep.
  - by eapply sel_inv_commit_send.
  - by eapply sel_inv_commit_recv.
Qed.

(** Only what the store holds matters, not how it was built. *)
Definition sel_ext s s' : Prop := (∀ c, sw_chans s' c = sw_chans s c) ∧ sw_w s' = sw_w s.

Lemma sel_inv_ext g brs s s' : sel_ext s s' → sel_inv g brs s → sel_inv g brs s'.
Proof.
  intros [He Hw] [Ha Hs Hr Hse Hwi]. split; unfold sel_winner in *; rewrite ?Hw; try done.
  - intros br Hbr. destruct (Ha br Hbr) as (n & Hn & Hx). exists n. by rewrite He.
  - intros c n x. rewrite He. apply Hs.
  - intros c n x. rewrite He. apply Hr.
  - intros br Hbr. rewrite <- (Hse br Hbr). unfold settled_now. by rewrite He.
Qed.

Lemma sel_ext_put c s : sel_ext s (sw_put c (sw_chans s c) (sw_w s) s).
Proof. split; [|done]. intros c'. simpl. case_decide; congruence. Qed.

Lemma sel_inv_gm g brs c st' w' s :
  branches_ok brs → gm g (sw_chans s c, sw_w s) (st', w') → sel_inv g brs s → sel_inv g brs (sw_put c st' w' s).
Proof.
  intros Hok Hg Hi. apply (sel_inv_ext _ _ _ _ (sel_ext_put c s)) in Hi.
  assert (∀ p p', gm g p p' → sel_inv g brs (sw_put c p.1 p.2 s) → sel_inv g brs (sw_put c p'.1 p'.2 s)) as Hgen.
  { induction 1; [done|]. intros. by eapply IHrtc, sel_inv_micro. }
  exact (Hgen _ _ Hg Hi).
Qed.

Lemma sel_env_inv g brs s s' : branches_ok brs → rtc (sel_env g) s s' → sel_inv g brs s → sel_inv g brs s'.
Proof.
  intros Hok. induction 1 as [|s s1 s2 He _ IH]; [done|]. intros Hi. apply IH. clear IH.
  destruct He as [c st' w' s He|w' s Hc].
  - by eapply sel_inv_gm; [|apply chan_env_gm|].
  - destruct Hi as [Ha Hs Hr Hse Hw]. unfold sel_winner in *. split; unfold sel_winner; simpl; rewrite ?Hc; done.
Qed.

(** The queue of a node of the gate only shrinks, and a decided winner stays. *)
Lemma gm_occ_send g p p' n tag : gm g p p' → gate_send g n tag p.1 → occ n (ch_senders p'.1) ≤ occ n (ch_senders p.1).
Proof.
  induction 1 as [|p p1 p2 Hm _ IH]; [done|]. intros Hg.
  destruct (micro_keeps_send g p p1 n tag Hm Hg) as [Hg1 Ho]. specialize (IH Hg1). lia.
Qed.

Lemma gm_occ_recv g p p' n tag : gm g p p' → gate_recv g n tag p.1 → occ n (ch_receivers p'.1) ≤ occ n (ch_receivers p.1).
Proof.
  induction 1 as [|p p1 p2 Hm _ IH]; [done|]. intros Hg.
  destruct (micro_keeps_recv g p p1 n tag Hm Hg) as [Hg1 Ho]. specialize (IH Hg1). lia.
Qed.

Lemma gm_winner g (p p' : channel A * W) : gm g p p' → int_load (rt_cells p.2) g ≠ (-1)%Z → int_load (rt_cells p'.2) g = int_load (rt_cells p.2) g.
Proof.
  induction 1 as [|p p1 p2 Hm _ IH]; [done|]. intros Hw.
  assert (int_load (rt_cells p1.2) g = int_load (rt_cells p.2) g) as He; [|rewrite IH; congruence].
  destruct Hm as [| | | | | |st w n x w' Hx Hg Hc|st w n x v w' Hx Hg Hc]; simpl in *; try done;
    apply claim_cell_true in Hc as [? _]; congruence.
Qed.

Definition node_occ br s : nat := from_option (λ n, occ n (branch_queue br s)) 0 (sb_node br).

Lemma node_occ_gm g br c st' w' s :
  armed g br s → gm g (sw_chans s c, sw_w s) (st', w') → node_occ br (sw_put c st' w' s) ≤ node_occ br s.
Proof.
  intros (n & Hn & Ha) Hg. unfold node_occ, branch_queue. rewrite Hn. simpl. case_decide as Hc; [|done]. subst c.
  destruct (sb_is_send br); [exact (gm_occ_send g _ _ n _ Hg Ha)|exact (gm_occ_recv g _ _ n _ Hg Ha)].
Qed.

Lemma node_occ_env g br brs s s' :
  branches_ok brs → br ∈ brs → rtc (sel_env g) s s' → sel_inv g brs s → node_occ br s' ≤ node_occ br s.
Proof.
  intros Hok Hbr. induction 1 as [|s s1 s2 He Hr IH]; [done|]. intros Hi.
  transitivity (node_occ br s1).
  - apply IH. eapply sel_env_inv; [done|by apply rtc_once|done].
  - destruct He as [c st' w' s He|w' s Hc]; [|done].
    apply (node_occ_gm g); [by apply (si_armed _ _ _ Hi)|by apply chan_env_gm].
Qed.

(** ** Arming *)

Definition sel_unused (g : loc) s : Prop :=
  (∀ c n, not_send g n (sw_chans s c) ∧ not_recv g n (sw_chans s c)) ∧ sel_winner g s = (-1)%Z.

Lemma sel_unused_inv g s : sel_unused g s → sel_inv g [] s.
Proof.
  intros [Hn Hw]. split; [by intros ? ?%elem_of_nil| | |by intros ? ?%elem_of_nil|by left].
  - intros c n x Hx Hg. exfalso. by apply (proj1 (Hn c n) x).
  - intros c n x Hx Hg. exfalso. by apply (proj2 (Hn c n) x).
Qed.

Lemma arm_inv_send g brs h c v idx inb s st n :
  st = sw_chans s c → ch_snodes st !! n = None → n ∉ ch_senders st →
  sel_inv g brs s → sel_winner g s = (-1)%Z → (0 ≤ idx)%Z →
  let br := mkBranch idx c (Some v) (Some n) inb in
  let s' := sw_put c (sender_arm_for_select n v g idx h st) (sw_w s) s in
  sel_inv g (brs ++ [br]) s' ∧ node_occ br s' ≤ 1 ∧ ∀ br', br' ∈ brs → node_occ br' s' = node_occ br' s.
Proof.
  intros -> Hn Hq [Ha Hs Hr Hse Hw] Hwin Hidx br s'.
  assert (∀ k x, k ≠ n → ch_snodes (sw_chans s c) !! k = Some x → <[n := mkSendNode v h false (Some g) idx]> (ch_snodes (sw_chans s c)) !! k = Some x) as Hins.
  { intros k x Hk Hx. by rewrite lookup_insert_ne. }
  assert (∀ br', br' ∈ brs → ∃ k, sb_node br' = Some k ∧ (sb_is_send br' = true → sb_chan br' = c → k ≠ n)) as Hold.
  { intros br' (k & Hk & Hx)%Ha. exists k. split; [done|]. intros Hsd Hcc ->. rewrite Hsd, Hcc in Hx.
    destruct Hx as (x & Hx & _). congruence. }
  split; [split|split].
  - intros br' [Hbr| ->%list_elem_of_singleton]%elem_of_app.
    + destruct (Hold br' Hbr) as (k & Hk & Hkn). destruct (Ha br' Hbr) as (k' & Hk' & Hx). rewrite Hk in Hk'. injection Hk' as <-.
      exists k. split; [done|]. simpl. case_decide; [|done]. destruct (sb_is_send br') eqn:Hsd; subst c; [|done].
      destruct Hx as (x & Hx & ?). exists x. simpl. split; [|done]. by apply Hins; [apply Hkn|].
    + exists n. split; [done|]. simpl. rewrite decide_True by done. eexists. simpl. rewrite lookup_insert_eq. done.
  - intros c' k x. simpl. case_decide as Hc; [subst c'; simpl|].
    + destruct (decide (k = n)) as [->|Hk].
      * intros _ _. exists br. split; [apply elem_of_app; right; by left|done].
      * rewrite lookup_insert_ne by done. intros Hx Hg. destruct (Hs c k x Hx Hg) as (b0 & ? & ?).
        exists b0. split; [apply elem_of_app; by left|done].
    + intros Hx Hg. destruct (Hs c' k x Hx Hg) as (b0 & ? & ?). exists b0. split; [apply elem_of_app; by left|done].
  - intros c' k x Hx Hg. destruct (Hr c' k x) as (b0 & ? & ?); [|done|].
    { simpl in Hx. case_decide; [by subst c'|done]. }
    exists b0. split; [apply elem_of_app; by left|done].
  - intros br' [Hbr| ->%list_elem_of_singleton]%elem_of_app.
    + transitivity (settled_now br' s = true); [|exact (Hse br' Hbr)].
      destruct (Hold br' Hbr) as (k & Hk & Hkn). unfold settled_now. rewrite Hk. simpl.
      case_decide; [|done]. subst c. destruct (sb_is_send br') eqn:Hsd; [|done]. simpl. rewrite lookup_insert_ne; [done|].
      intros Heq. by apply Hkn.
    + unfold settled_now. simpl. rewrite decide_True by done. simpl. rewrite lookup_insert_eq. simpl.
      unfold sel_winner in *. simpl. rewrite Hwin. split; [done|lia].
  - by left.
  - unfold node_occ, branch_queue. simpl. rewrite decide_True by done. simpl. unfold occ. rewrite filter_app, length_app.
    apply occ_none in Hq. unfold occ in Hq. rewrite Hq, filter_cons_True by done. done.
  - intros br' Hbr. destruct (Hold br' Hbr) as (k & Hk & Hkn). unfold node_occ, branch_queue. rewrite Hk. simpl.
    case_decide; [|done]. subst c. destruct (sb_is_send br') eqn:Hsd; [|done]. simpl. apply occ_snoc_ne. intros ->. by apply Hkn.
Qed.

Lemma arm_inv_recv g brs h c idx inb s st n :
  st = sw_chans s c → ch_rnodes st !! n = None → n ∉ ch_receivers st →
  sel_inv g brs s → sel_winner g s = (-1)%Z → (0 ≤ idx)%Z →
  let br := mkBranch idx c None (Some n) inb in
  let s' := sw_put c (receiver_arm_for_select n g idx h st) (sw_w s) s in
  sel_inv g (brs ++ [br]) s' ∧ node_occ br s' ≤ 1 ∧ ∀ br', br' ∈ brs → node_occ br' s' = node_occ br' s.
Proof.
  intros -> Hn Hq [Ha Hs Hr Hse Hw] Hwin Hidx br s'.
  assert (∀ br', br' ∈ brs → ∃ k, sb_node br' = Some k ∧ (sb_is_send br' = false → sb_chan br' = c → k ≠ n)) as Hold.
  { intros br' (k & Hk & Hx)%Ha. exists k. split; [done|]. intros Hsd Hcc ->. rewrite Hsd, Hcc in Hx.
    destruct Hx as (x & Hx & _). congruence. }
  split; [split|split].
  - intros br' [Hbr| ->%list_elem_of_singleton]%elem_of_app.
    + destruct (Hold br' Hbr) as (k & Hk & Hkn). destruct (Ha br' Hbr) as (k' & Hk' & Hx). rewrite Hk in Hk'. injection Hk' as <-.
      exists k. split; [done|]. simpl. case_decide; [|done]. destruct (sb_is_send br') eqn:Hsd; subst c; [done|].
      destruct Hx as (x & Hx & ?). exists x. simpl. split; [|done]. rewrite lookup_insert_ne; [done|]. intros Heq. by apply Hkn.
    + exists n. split; [done|]. simpl. rewrite decide_True by done. eexists. simpl. rewrite lookup_insert_eq. done.
  - intros c' k x Hx Hg. destruct (Hs c' k x) as (b0 & ? & ?); [|done|].
    { simpl in Hx. case_decide; [by subst c'|done]. }
    exists b0. split; [apply elem_of_app; by left|done].
  - intros c' k x. simpl. case_decide as Hc; [subst c'; simpl|].
    + destruct (decide (k = n)) as [->|Hk].
      * intros _ _. exists br. split; [apply elem_of_app; right; by left|done].
      * rewrite lookup_insert_ne by done. intros Hx Hg. destruct (Hr c k x Hx Hg) as (b0 & ? & ?).
        exists b0. split; [apply elem_of_app; by left|done].
    + intros Hx Hg. destruct (Hr c' k x Hx Hg) as (b0 & ? & ?). exists b0. split; [apply elem_of_app; by left|done].
  - intros br' [Hbr| ->%list_elem_of_singleton]%elem_of_app.
    + transitivity (settled_now br' s = true); [|exact (Hse br' Hbr)].
      destruct (Hold br' Hbr) as (k & Hk & Hkn). unfold settled_now. rewrite Hk. simpl.
      case_decide; [|done]. subst c. destruct (sb_is_send br') eqn:Hsd; [done|]. simpl. rewrite lookup_insert_ne; [done|].
      intros Heq. by apply Hkn.
    + unfold settled_now. simpl. rewrite decide_True by done. simpl. rewrite lookup_insert_eq. simpl.
      unfold sel_winner in *. simpl. rewrite Hwin. split; [done|lia].
  - by left.
  - unfold node_occ, branch_queue. simpl. rewrite decide_True by done. simpl. unfold occ. rewrite filter_app, length_app.
    apply occ_none in Hq. unfold occ in Hq. rewrite Hq, filter_cons_True by done. done.
  - intros br' Hbr. destruct (Hold br' Hbr) as (k & Hk & Hkn). unfold node_occ, branch_queue. rewrite Hk. simpl.
    case_decide; [|done]. subst c. destruct (sb_is_send br') eqn:Hsd; [done|]. simpl. apply occ_snoc_ne. intros ->. by apply Hkn.
Qed.

Lemma arm_inv g brs h br s br' s' :
  sel_inv g brs s → sel_winner g s = (-1)%Z → (0 ≤ sb_index br)%Z → arm g h br s = (br', s') →
  sel_inv g (brs ++ [br']) s' ∧ node_occ br' s' ≤ 1 ∧ (∀ br0, br0 ∈ brs → node_occ br0 s' = node_occ br0 s) ∧
  sel_winner g s' = (-1)%Z ∧ sb_index br' = sb_index br.
Proof.
  intros Hi Hw Hidx. destruct br as [idx c ob nd inb]. unfold arm. cbn [sb_outbound sb_chan sb_index] in *.
  destruct ob as [v|]; [set (n := fresh _)|set (n := fresh _)]; intros [= <- <-];
    destruct (arm_fresh _ _ n eq_refl) as [Hn%not_elem_of_dom Hq].
  - destruct (arm_inv_send g brs h c v idx inb s _ n eq_refl Hn Hq Hi Hw Hidx) as (? & ? & ?). by split_and!.
  - destruct (arm_inv_recv g brs h c idx inb s _ n eq_refl Hn Hq Hi Hw Hidx) as (? & ? & ?). by split_and!.
Qed.

Lemma arm_all_inv g h todo : ∀ pre s done s',
  sel_inv g pre s → sel_winner g s = (-1)%Z → Forall (λ br, (0 ≤ sb_index br)%Z) todo →
  (∀ br, br ∈ pre → node_occ br s ≤ 1) → arm_all g h todo s = (done, s') →
  sel_inv g (pre ++ done) s' ∧ sel_winner g s' = (-1)%Z ∧
  (∀ br, br ∈ pre ++ done → node_occ br s' ≤ 1) ∧ sb_index <$> done = sb_index <$> todo.
Proof.
  induction todo as [|br todo IH]; intros pre s done s' Hi Hw Hpos Hocc; simpl.
  { intros [= <- <-]. by rewrite app_nil_r. }
  apply Forall_cons in Hpos as [Hp Hpos]. destruct (arm g h br s) as [br1 s1] eqn:Ha.
  destruct (arm_inv g pre h br s br1 s1 Hi Hw Hp Ha) as (Hi1 & Ho1 & Hoc & Hw1 & Hidx).
  destruct (arm_all g h todo s1) as [done1 s2] eqn:Hall. intros [= <- <-].
  destruct (IH (pre ++ [br1]) s1 done1 s2 Hi1 Hw1 Hpos) as (Hi2 & Hw2 & Ho2 & Hx2); [|done|].
  - intros br0 [Hb| ->%list_elem_of_singleton]%elem_of_app; [rewrite Hoc by done; auto|done].
  - rewrite <- (assoc_L (++)) in Hi2, Ho2. simpl in *. split_and!; [done..|]. by f_equal.
Qed.

(** ** The guard of [run_select] *)

Lemma disarm_inv g brs br s :
  branches_ok brs → br ∈ brs → sel_inv g brs s →
  sel_inv g brs (disarm br s) ∧ (∀ br0, br0 ∈ brs → node_occ br0 (disarm br s) ≤ node_occ br0 s) ∧
  (node_occ br s ≤ 1 → node_occ br (disarm br s) = 0) ∧
  (sel_winner g s ≠ (-1)%Z → sel_winner g (disarm br s) = sel_winner g s).
Proof.
  intros Hok Hbr Hi. destruct (si_armed _ _ _ Hi br Hbr) as (n & Hn & Ha). unfold disarm. rewrite Hn.
  destruct (sb_is_send br) eqn:Hsd.
  - unfold sender_disarm_for_select. pose proof (gm_drop_sender g n (sw_chans s (sb_chan br)) (sw_w s)) as Hg.
    destruct (channel_drop_sender n _ _) as [st1 w1] eqn:Hd. split_and!.
    + by eapply sel_inv_gm.
    + intros br0 Hb0. by apply (node_occ_gm g); [apply (si_armed _ _ _ Hi)|].
    + unfold node_occ, branch_queue. rewrite Hn, Hsd. simpl. rewrite decide_True by done. intros Ho%occ_erase%occ_none.
      unfold channel_drop_sender in Hd.
      pose proof (gm_promote g (ch_set_senders (erase_first n (ch_senders (sw_chans s (sb_chan br)))) (ch_snodes (sw_chans s (sb_chan br))) (sw_chans s (sb_chan br))) (sw_w s)) as Hp.
      rewrite Hd in Hp. pose proof (gm_occ_send g _ _ n _ Hp Ha) as Hle. simpl in Hle. lia.
    + intros Hw. exact (gm_winner g _ _ Hg Hw).
  - pose proof (gm_drop_receiver g n (sw_chans s (sb_chan br)) (sw_w s)) as Hg. split_and!; [| | |done].
    + by eapply sel_inv_gm.
    + intros br0 Hb0. by apply (node_occ_gm g); [apply (si_armed _ _ _ Hi)|].
    + unfold node_occ, branch_queue. rewrite Hn, Hsd. simpl. rewrite decide_True by done. simpl. by intros Ho%occ_erase%occ_none.
Qed.

Lemma disarm_all_inv g brs l : ∀ s,
  branches_ok brs → (∀ br, br ∈ l → br ∈ brs) → sel_inv g brs s → (∀ br, br ∈ brs → node_occ br s ≤ 1) →
  let s' := foldl (λ s br, disarm br s) s l in
  sel_inv g brs s' ∧ (∀ br, br ∈ brs → node_occ br s' ≤ node_occ br s) ∧ (∀ br, br ∈ l → node_occ br s' = 0) ∧
  (sel_winner g s ≠ (-1)%Z → sel_winner g s' = sel_winner g s).
Proof.
  induction l as [|br l IH]; intros s Hok Hin Hi Ho; simpl; [split_and!; [done|done|by intros ? ?%elem_of_nil|done]|].
  destruct (disarm_inv g brs br s Hok (Hin br ltac:(by left)) Hi) as (Hi1 & Ho1 & Hz1 & Hw1).
  destruct (IH (disarm br s) Hok) as (Hi2 & Ho2 & Hz2 & Hw2); [intros; apply Hin; by right|done| |].
  { intros br0 Hb0. specialize (Ho1 br0 Hb0). specialize (Ho br0 Hb0). lia. }
  split_and!; [done| | |].
  - intros br0 Hb0. specialize (Ho1 br0 Hb0). specialize (Ho2 br0 Hb0). lia.
  - intros br0 [->|Hb0]%elem_of_cons; [|by apply Hz2].
    assert (br ∈ brs) as Hb by (apply Hin; by left).
    specialize (Hz1 (Ho br Hb)). specialize (Ho2 br Hb). lia.
  - intros Hw. rewrite Hw2 by (rewrite Hw1; done). by apply Hw1.
Qed.

(** Writing the timer token changes nothing of it. *)
Lemma sel_inv_world g brs s w' :
  int_load (rt_cells w') g = int_load (rt_cells (sw_w s)) g → sel_inv g brs s → sel_inv g brs (sw_set_w w' s).
Proof. intros Hc [Ha Hs Hr Hse Hw]. unfold sel_winner in *. split; unfold sel_winner; simpl; rewrite ?Hc; done. Qed.

Lemma suspend_inv h tok b s sus b1 s1 :
  sel_unused (sl_gate b) s → branches_ok (sl_branches b) → select_await_suspend h tok b s = (sus, b1, s1) →
  sel_inv (sl_gate b) (sl_branches b1) s1 ∧ (∀ br, br ∈ sl_branches b1 → node_occ br s1 ≤ 1) ∧
  branches_ok (sl_branches b1) ∧ sl_gate b1 = sl_gate b.
Proof.
  intros Hu [Hnd Hpos]. unfold select_await_suspend.
  destruct (arm_all (sl_gate b) h (sl_branches b) s) as [brs s2] eqn:Hall.
  destruct (arm_all_inv (sl_gate b) h (sl_branches b) [] s brs s2) as (Hi & Hw & Ho & Hidx);
    [by apply sel_unused_inv|apply Hu|done|by intros ? ?%elem_of_nil|done|]. rewrite app_nil_l in *.
  assert (branches_ok brs) as Hok.
  { split; [by rewrite Hidx|]. apply (Forall_fmap sb_index (λ i, (0 ≤ i)%Z)). rewrite Hidx. by apply Forall_fmap. }
  destruct (sl_timer b) as [[i d]|]; intros [= _ <- <-]; simpl; [|done].
  split_and!; [|done|done|done].
  apply sel_inv_world; [|done]. rewrite rl_timer_cells, rl_cells_get. apply int_load_flag_store.
Qed.


(** ** The fast path *)

(** The probe of a branch, and the one commit it announces, after the claim. *)
Definition branch_ready br s : bool :=
  match sb_outbound br with
  | Some _ => sender_probe_can_accept (sw_chans s (sb_chan br)) (sw_w s)
  | None => receiver_probe_has_message (sw_chans s (sb_chan br)) (sw_w s)
  end.

Definition branch_commit (g : loc) br s : option A * sel_world A W :=
  let w := rt_set_cells (int_store g (sb_index br) (rt_cells (sw_w s))) (sw_w s) in
  let c := sb_chan br in
  match sb_outbound br with
  | Some v => let '(_, st, w) := sender_commit_accept v (sw_chans s c) w in (None, sw_put c st w s)
  | None => let '(got, st, w) := receiver_commit_take (sw_chans s c) w in (mjoin got, sw_put c st w s)
  end.

(** A world in which only the cell of [g] differs. *)
Definition same_gates (g : loc) w w' : Prop := ∀ l, l ≠ g → int_load (rt_cells w') l = int_load (rt_cells w) l.

Lemma gate_open_same g gate w w' : same_gates g w w' → gate ≠ Some g → gate_open gate w' = gate_open gate w.
Proof.
  intros Hs Hg. destruct gate as [l|]; [|done]. simpl. unfold gate_can_admit. by rewrite Hs by congruence.
Qed.

Lemma gate_admit_open gate tag w : (gate_admit gate tag w).1 = gate_open gate w.
Proof.
  unfold gate_admit. destruct (gate_open gate w) eqn:Ho; [|done]. destruct gate as [l|]; [|done]. simpl in *.
  unfold gate_can_admit in Ho. rewrite gate_claim_cell_spec. by rewrite Ho.
Qed.

Lemma deliver_open st v w it :
  let p := channel_deliver_from it st v w in
  p.1.1 = existsb (λ n, match ch_rnodes st !! n with Some x => gate_open (rv_gate x) w | None => false end) it ∧
  (p.1.1 = false → p = (false, st, w)).
Proof.
  induction it as [|n it IH]; simpl; [done|]. destruct (ch_rnodes st !! n) as [x|]; [|done].
  pose proof (gate_admit_open (rv_gate x) (rv_tag x) w) as Ho.
  destruct (gate_admit _ _ w) as [ok w1] eqn:Ha; simpl in Ho. rewrite <- Ho. destruct ok; simpl; [done|].
  by apply gate_admit_cases in Ha as ->.
Qed.

Lemma existsb_ext_in {X} (f f' : X → bool) l : (∀ x, x ∈ l → f x = f' x) → existsb f l = existsb f' l.
Proof.
  induction l as [|x l IH]; intros Hf; simpl; [done|]. rewrite Hf by (by left). rewrite IH; [done|]. intros. apply Hf. by right.
Qed.

Lemma accept_ready g st v w w' :
  (∀ n, not_recv g n st) → same_gates g w w' → sender_probe_can_accept st w = true →
  (sender_commit_accept v st w').1.1 = true.
Proof.
  intros Hn Hs. unfold sender_probe_can_accept, sender_commit_accept, channel_deliver.
  destruct (ch_send_closed st || ch_all_receivers_gone st); [done|].
  destruct (deliver_open st v w' (ch_receivers st)) as [Hd Hfalse].
  rewrite (existsb_ext_in _ (λ n, match ch_rnodes st !! n with Some x => gate_open (rv_gate x) w' | None => false end)).
  2:{ intros n _. destruct (ch_rnodes st !! n) as [x|] eqn:Hx; [|done]. symmetry. apply (gate_open_same g); [done|by apply (Hn n)]. }
  rewrite <- Hd. destruct (channel_deliver_from _ st v w') as [[[] st1] w1]; simpl in *; [done|].
  intros Hr. specialize (Hfalse eq_refl). injection Hfalse as -> ->. by rewrite Hr.
Qed.

Lemma take_ready g st w w' :
  (∀ n, not_send g n st) → same_gates g w w' → receiver_probe_has_message st w = true →
  is_Some (receiver_commit_take st w').1.1.
Proof.
  intros Hn Hs. unfold receiver_probe_has_message, receiver_commit_take.
  destruct (ch_buffer st) as [|v rest]; simpl; [|by destruct (channel_promote_senders _ w')].
  unfold channel_take_pending_sender. destruct (ch_senders st) as [|n ss]; simpl; [intros ->; by eexists|].
  destruct (ch_snodes st !! n) as [x|] eqn:Hx; simpl; [|intros ->; by eexists].
  rewrite <- (gate_open_same g _ w w' Hs) by (by apply (Hn n)).
  pose proof (gate_admit_open (sd_gate x) (sd_tag x) w') as Ho.
  destruct (gate_admit _ _ w') as [[] w1]; simpl in *; [by eexists|]. rewrite <- Ho. simpl. intros ->. by eexists.
Qed.

(** [try_now] claims and commits exactly when the probe is positive: the roll-back of its
    claim is never needed. *)
Lemma try_now_spec g br s : sel_unused g s →
  try_now g br s =
    if branch_ready br s
    then (true, match sb_outbound br with Some _ => br | None => sb_set_inbound (branch_commit g br s).1 br end,
          (branch_commit g br s).2)
    else (false, br, s).
Proof.
  intros [Hn Hw]. unfold try_now, branch_ready, branch_commit. unfold sel_winner in Hw.
  rewrite gate_claim_cell_spec, bool_decide_eq_true_2 by done. simpl.
  set (w1 := rt_set_cells _ _).
  assert (same_gates g (sw_w s) w1) as Hs.
  { intros l Hl. unfold w1. rewrite rl_cells_get. by apply int_load_store_ne. }
  destruct (sb_outbound br) as [v|].
  - destruct (sender_probe_can_accept _ _) eqn:Hp; [|done]. simpl.
    pose proof (accept_ready g _ v _ w1 (λ n, proj2 (Hn (sb_chan br) n)) Hs Hp) as Ha.
    destruct (sender_commit_accept v _ w1) as [[ok st2] w2]; simpl in Ha. by rewrite Ha.
  - destruct (receiver_probe_has_message _ _) eqn:Hp; [|done]. simpl.
    pose proof (take_ready g _ _ w1 (λ n, proj1 (Hn (sb_chan br) n)) Hs Hp) as [got Ha].
    destruct (receiver_commit_take _ w1) as [[got' st2] w2]; simpl in Ha. by rewrite Ha.
Qed.

Definition fast_result (g : loc) br s : select_result A :=
  mkResult (sb_index br) (if sb_is_send br then None else (branch_commit g br s).1) false false.

Lemma select_scan_spec steps : ∀ b s,
  sel_unused (sl_gate b) s → steps ≤ length (sl_branches b) →
  sl_rotation b = (length (sl_branches b) - steps) mod length (sl_branches b) →
  match list_find (λ br, branch_ready br s = true) (drop (length (sl_branches b) - steps) (sl_branches b)) with
  | Some (_, br) => ∃ b', select_scan steps b s = (Some (fast_result (sl_gate b) br s), b', (branch_commit (sl_gate b) br s).2) ∧
      sl_timer_token b' = sl_timer_token b ∧ sb_node <$> sl_branches b' = sb_node <$> sl_branches b
  | None => select_scan steps b s = (None, sl_set_rotation 0 b, s)
  end.
Proof.
  induction steps as [|steps IH]; intros b s Hu Hle Hrot.
  { rewrite Nat.sub_0_r, drop_all in *. simpl. rewrite Nat.Div0.mod_same in Hrot. by destruct b; simpl in *; subst. }
  set (n := length (sl_branches b)) in *.
  destruct (lookup_lt_is_Some_2 (sl_branches b) (n - S steps)) as [br Hbr]; [lia|].
  rewrite (drop_S _ br) by done. replace (S (n - S steps)) with (n - steps) by lia.
  assert (sl_rotation b = n - S steps) as Hr1 by (rewrite Hrot; apply Nat.mod_small; lia).
  simpl. fold n. rewrite Hr1, (Nat.mod_small (n - S steps)), Hbr, try_now_spec by (done || lia).
  destruct (branch_ready br s) eqn:Hready; [rewrite decide_True by done|rewrite decide_False by done].
  - eexists. split; [|split].
    + destruct br as [idx c [v|] nd inb]; reflexivity.
    + by destruct (sb_outbound br).
    + simpl. rewrite list_fmap_insert, list_insert_id; [done|].
      rewrite list_lookup_fmap, Hbr. by destruct br as [idx c [v|] nd inb].
  - simpl. rewrite (list_insert_id _ _ _ Hbr).
    specialize (IH (sl_set_branches (sl_branches b) (sl_set_rotation ((n - S steps + 1) mod n) b)) s Hu). simpl in IH. fold n in IH.
    replace (n - S steps + 1) with (n - steps) in * by lia. specialize (IH ltac:(lia) eq_refl).
    destruct (list_find _ (drop (n - steps) (sl_branches b))) as [[i br']|]; simpl; exact IH.
Qed.

(** A select that has armed nothing has nothing to undo. *)
Lemma settle_unarmed b s : Forall (λ nd, nd = None) (sb_node <$> sl_branches b) → sl_timer_token b = None → select_settle b s = s.
Proof.
  intros Hn Ht. unfold select_settle. rewrite Ht. generalize (sl_branches b) as l, Hn. clear.
  induction l as [|br l IH]; simpl; intros Hn; [done|]. apply Forall_cons in Hn as [Hb Hn].
  unfold disarm at 2. rewrite Hb. by apply IH.
Qed.

(** The fast path of a select performs one operation or none.  With the rotation at its
    initial value, the first branch in the order of the arguments whose probe is positive
    commits, exactly as a lone send or receive on its channel would, and no other channel is
    touched; with no ready branch, an expired timer or else the default answers, or the
    select goes on to wait, and the channels are as they were. *)
Theorem select_fast_path b s :
  sel_unused (sl_gate b) s → sl_rotation b = 0 → sl_timer_token b = None →
  Forall (λ br, sb_node br = None) (sl_branches b) →
  match list_find (λ br, branch_ready br s = true) (sl_branches b) with
  | Some (_, br) => ∃ b', select_begin b s = (Some (fast_result (sl_gate b) br s), b', (branch_commit (sl_gate b) br s).2)
  | None => select_begin b s =
      (match sl_timer b, sl_default b with
       | Some (i, d), def => if bool_decide (d ≤ rt_now (sw_w s))%Z then Some (mkResult i None true false)
                             else (λ i, mkResult i None false true) <$> def
       | None, def => (λ i, mkResult i None false true) <$> def
       end, b, s)
  end.
Proof.
  intros Hu Hrot Htok Hnodes.
  assert (Forall (λ nd, nd = None) (sb_node <$> sl_branches b)) as Hn by by apply Forall_fmap.
  pose proof (select_scan_spec (length (sl_branches b)) b s Hu ltac:(done)) as Hscan.
  rewrite Nat.sub_diag, Nat.Div0.mod_0_l, drop_0 in Hscan. specialize (Hscan Hrot). unfold select_begin.
  destruct (list_find _ _) as [[i br]|].
  - destruct Hscan as (b' & -> & Ht' & Hb'). exists b'. rewrite settle_unarmed; [done|by rewrite Hb'|congruence].
  - rewrite Hscan. replace (sl_set_rotation 0 b) with b by (destruct b; simpl in *; by subst).
    destruct (sl_timer b) as [[i d]|]; [case_bool_decide|]; destruct (sl_default b); simpl; by rewrite ?settle_unarmed.
Qed.

(** [select] numbers the branches by their position. *)
Lemma select_build_ok sps : ∀ idx b,
  branches_ok (sl_branches b) → Forall (λ br, (sb_index br < idx)%Z) (sl_branches b) → (0 ≤ idx)%Z →
  Forall (λ br, sb_node br = None) (sl_branches b) →
  let b' := select_build idx sps b in
  branches_ok (sl_branches b') ∧ Forall (λ br, sb_node br = None) (sl_branches b') ∧ sl_gate b' = sl_gate b ∧
  sl_rotation b' = sl_rotation b ∧ sl_timer_token b' = sl_timer_token b.
Proof.
  induction sps as [|sp sps IH]; intros idx b Hok Hlt Hidx Hn; simpl; [by split_and!|].
  assert (∀ br, sb_index br = idx → sb_node br = None → branches_ok (sl_branches b ++ [br]) ∧
    Forall (λ br, (sb_index br < idx + 1)%Z) (sl_branches b ++ [br]) ∧ Forall (λ br, sb_node br = None) (sl_branches b ++ [br])) as Hsnoc.
  { intros br Hi Hb. destruct Hok as [Hnd Hpos]. split_and!; [split| |].
    - rewrite fmap_app. apply NoDup_app. split_and!; [done| |apply NoDup_singleton].
      intros x Hx Hx1%list_elem_of_singleton. apply list_elem_of_fmap in Hx as (br0 & Hx2 & Hin).
      rewrite Forall_forall in Hlt. specialize (Hlt br0 Hin). lia.
    - apply Forall_app. split; [done|]. constructor; [lia|done].
    - apply Forall_app. split; [|constructor; [lia|done]]. eapply Forall_impl; [exact Hlt|]. simpl. lia.
    - apply Forall_app. by repeat constructor. }
  assert (Forall (λ br, (sb_index br < idx + 1)%Z) (sl_branches b)) as Hlt'.
  { eapply Forall_impl; [exact Hlt|]. simpl. lia. }
  destruct sp as [c|c v|d|]; simpl.
  - destruct (Hsnoc (mkBranch idx c None None None) eq_refl eq_refl) as (? & ? & ?).
    by apply (IH (idx + 1)%Z (sl_set_branches (sl_branches b ++ [mkBranch idx c None None None]) b)); [| |lia|].
  - destruct (Hsnoc (mkBranch idx c (Some v) None None) eq_refl eq_refl) as (? & ? & ?).
    by apply (IH (idx + 1)%Z (sl_set_branches (sl_branches b ++ [mkBranch idx c (Some v) None None]) b)); [| |lia|].
  - match goal with |- context [select_build _ _ ?b1] => apply (IH (idx + 1)%Z b1); [done|done|lia|done] end.
  - match goal with |- context [select_build _ _ ?b1] => apply (IH (idx + 1)%Z b1); [done|done|lia|done] end.
Qed.

(** ** Defects

    A send branch is armed without looking whether its channel is closed, and the head of a queue
    blocks the nodes behind it even when its select is decided. *)

(** A select whose only branch sends on a closed channel neither fails nor answers: it goes
    to sleep with nobody woken, and a receiver that comes later gets the value, from a channel
    that was closed before the send began. *)
Theorem select_sends_on_closed g c v h tok k h' s :
  ch_send_closed (sw_chans s c) = true → ch_buffer (sw_chans s c) = [] → ch_senders (sw_chans s c) = [] →
  let '(b0, s0) := select_new g [SendOf c v] s in
  let '(r, b1, s1) := select_begin b0 s0 in
  let '(sus, b2, s2) := select_await_suspend h tok b1 s1 in
  r = None ∧ sus = true ∧ sw_w s2 = sw_w s0 ∧
  (channel_recv k h' (sw_chans s2 c) (sw_w s2)).1.1 = (true, Some v).
Proof.
  intros Hcl Hb Hs. unfold select_new, select_begin; simpl. unfold try_now; simpl.
  unfold sender_probe_can_accept. rewrite Hcl. simpl. unfold select_await_suspend; simpl.
  rewrite !decide_True by done. unfold sel_winner, timer_expired; simpl. rewrite rl_cells_get, int_load_store_eq. simpl.
  unfold settled_now; simpl. rewrite decide_True by done. simpl. rewrite lookup_insert_eq. simpl. split_and!; [done..|].
  unfold channel_recv, recv_await_ready, channel_take_pending_sender; simpl. rewrite Hb, Hs. simpl. rewrite lookup_insert_eq. simpl.
  unfold gate_admit, gate_open, gate_claim, gate_can_admit; simpl.
  rewrite gate_claim_cell_spec, rl_cells_get, int_load_store_eq. simpl. by rewrite ?bool_decide_eq_true_2.
Qed.

(** On a rendezvous channel a suspended sender and a suspended receiver can wait for each
    other for ever: when the node at the head belongs to a select that is decided but has not yet
    resumed, a receiver finds nothing and suspends although a sender waits behind, and when the
    select withdraws its node nobody is woken. *)
Theorem select_head_strands n1 n2 x1 x2 g k h st w :
  ch_capacity st = Some 0 → ch_send_closed st = false → ch_buffer st = [] → ch_receivers st = [] →
  ch_senders st = [n1; n2] → n1 ≠ n2 → ch_snodes st !! n1 = Some x1 → ch_snodes st !! n2 = Some x2 →
  sd_gate x1 = Some g → int_load (rt_cells w) g ≠ (-1)%Z → sd_gate x2 = None →
  let '(ready, v, st1, w1) := channel_recv k h st w in
  let '(st2, w2) := sender_disarm_for_select n1 st1 w1 in
  ready = false ∧ ch_receivers st2 = [k] ∧ ch_senders st2 = [n2] ∧ w2 = w ∧
  sd_taken <$> ch_snodes st2 !! n2 = Some (sd_taken x2).
Proof.
  intros Hcap Hcl Hb Hr Hs Hne H1 H2 Hg1 Hw Hg2.
  assert (∀ st', ch_senders st' = [n1; n2] → ch_snodes st' = ch_snodes st → channel_take_pending_sender st' w = (None, st', w)) as Ht.
  { intros st' Hs' Hn'. unfold channel_take_pending_sender. rewrite Hs', Hn', H1, Hg1. unfold gate_admit, gate_open, gate_can_admit.
    by rewrite bool_decide_eq_false_2. }
  unfold channel_recv, recv_await_ready. rewrite Hb, (Ht st Hs eq_refl), Hcl. unfold recv_await_suspend; simpl.
  rewrite Hb, Hcl, Ht by done. unfold sender_disarm_for_select, channel_drop_sender; simpl. rewrite Hs. simpl.
  rewrite decide_True by done. unfold channel_promote_senders, channel_promote_from; simpl.
  unfold channel_has_room; simpl. rewrite Hcap. simpl. rewrite Hr. simpl. split_and!; try done. by rewrite H2.
Qed.
End select_safe.

(** ** Scenarios: two rendezvous channels, another coroutine sends 11 on the first *)

Definition sel_demo : sel_world nat world := mkSel (λ _, channel_rendezvous w_demo) (rt_set_cells (int_store 5 (-1) (rt_cells w_demo)) w_demo).
Definition sel_demo_body : select_body nat := select_build 0 [RecvOf 1; RecvOf 2] (mkBody 5 null_handle [] None None None 0).
Definition sel_demo_wait := select_await_suspend 10 6 sel_demo_body sel_demo.
Definition sel_demo_sent := channel_send 7 11 11 (sw_chans sel_demo_wait.2 1) (sw_w sel_demo_wait.2).
Definition sel_demo_after : sel_world nat world := sw_put 1 sel_demo_sent.1.2 sel_demo_sent.2 sel_demo_wait.2.

Lemma sel_demo_unused : sel_unused 5 sel_demo.
Proof. split; [|by vm_compute]. intros c n. split; intros x Hx; simpl in Hx; by rewrite lookup_empty in Hx. Qed.


Lemma select_fast_path_witness :
  select_begin sel_demo_body sel_demo = (None, sel_demo_body, sel_demo).
Proof.
  refine (select_fast_path sel_demo_body sel_demo sel_demo_unused eq_refl eq_refl _). by repeat constructor.
Defined.

Definition closed_demo : sel_world nat world := mkSel (λ _, ch_set_closed true false (channel_bounded 2 w_demo)) w_demo.

Lemma select_sends_on_closed_witness :
  let '(b0, s0) := select_new 5 [SendOf 1 22] closed_demo in
  let '(r, b1, s1) := select_begin b0 s0 in
  let '(sus, b2, s2) := select_await_suspend 10 6 b1 s1 in
  r = None ∧ sus = true ∧ sw_w s2 = sw_w s0 ∧
  (channel_recv 3 11 (sw_chans s2 1) (sw_w s2)).1.1 = (true, Some 22).
Proof. exact (select_sends_on_closed 5 1 22 10 6 3 11 closed_demo eq_refl eq_refl eq_refl). Defined.

Definition strand_demo : channel nat :=
  mkChannel [] [1; 2] [] (Some 0) false false 2 1 1
    {[1 := mkSendNode 11 10 false (Some 5) 0%Z; 2 := mkSendNode 22 11 false None (-1)%Z]} ∅.

Lemma select_head_strands_witness :
  let w := rt_set_cells (int_store 5 1 (rt_cells w_demo)) w_demo in
  let '(ready, v, st1, w1) := channel_recv 3 12 strand_demo w in
  let '(st2, w2) := sender_disarm_for_select 1 st1 w1 in
  ready = false ∧ ch_receivers st2 = [3] ∧ ch_senders st2 = [2] ∧ w2 = w ∧ sd_taken <$> ch_snodes st2 !! 2 = Some false.
Proof.
  exact (select_head_strands 1 2 (mkSendNode 11 10 false (Some 5) 0%Z) (mkSendNode 22 11 false None (-1)%Z) 5 3 12
    strand_demo (rt_set_cells (int_store 5 1 (rt_cells w_demo)) w_demo)
    eq_refl eq_refl eq_refl eq_refl eq_refl ltac:(done) eq_refl eq_refl eq_refl ltac:(done) eq_refl).
Defined.
