(* ===== verification/RateLimit.v ===== *)
(** * RateLimit: the token bucket ([coro::rate_limiter])

    [src/include/coro/rate_limit.hpp].  Tokens are fixed-point, 1024 units each, in
    [int64_t].  The definitions up to "Two threads" run on one thread, where each
    compare-exchange loop runs once; the last section splits the settling into its
    atomic steps.  The [long double] products are exact integers here (the comparison
    with the bounds keeps the results in range); the clock is an argument. *)

From S2P Require Import Prelude.
From stdpp Require Import options.
#[local] Set Default Proof Using "Type*".

Local Open Scope Z_scope.

Definition rate_token_scale : Z := 1024.

(** Number of tokens to units; the input is a [uint64_t]. *)
Definition rate_scale_tokens (n : Z) : res Z :=
  let max_units := int64_max `div` rate_token_scale in
  if max_units <? n then Throw InvalidArgument else Ok (n * rate_token_scale).

(** [struct rate_state]. *)
Record rate_state : Type := mkRate {
  rt_tokens : Z;
  rt_capacity : Z;
  rt_refill : Z;
  rt_period_us : Z;
  rt_last_us : Z;
}.

(** [settle_and_peek]: the settled tokens are in the new state. *)
Definition rate_settle (now : Z) (s : rate_state) : rate_state :=
  if (0 <? rt_refill s) && (0 <? rt_period_us s) && (rt_last_us s <? now) then
    let periods := (now - rt_last_us s) `div` rt_period_us s in
    if 0 <? periods then
      let grown := rt_tokens s + rt_refill s * periods in
      let next := if rt_capacity s <=? grown then rt_capacity s else if grown <? 0 then 0 else grown in
      mkRate next (rt_capacity s) (rt_refill s) (rt_period_us s) (rt_last_us s + periods * rt_period_us s)
    else s
  else s.

Definition rate_try_consume (now need : Z) (s : rate_state) : bool * rate_state :=
  let s := rate_settle now s in
  if rt_tokens s <? need then (false, s)
  else (true, mkRate (rt_tokens s - need) (rt_capacity s) (rt_refill s) (rt_period_us s) (rt_last_us s)).

(** [wait_us_for]; the clock is read twice. *)
Definition rate_wait_us_for (now now2 need : Z) (s : rate_state) : Z * rate_state :=
  let s := rate_settle now s in
  if need <=? rt_tokens s then (0, s)
  else if (rt_refill s <=? 0) || (rt_period_us s <=? 0) then (-1, s)
  else
    let missing := need - rt_tokens s in
    let periods := Z.quot (missing - 1) (rt_refill s) + 1 in
    let us := periods * rt_period_us s in
    if int64_max <=? us then (int64_max, s)
    else
      let elapsed := now2 - rt_last_us s in
      let wait :=
        if 0 <? elapsed then
          let in_period := Z.rem elapsed (rt_period_us s) in
          if in_period <? us then us - in_period else 1
        else us in
      (if wait <? 1 then 1 else wait, s).

(** One round of [rate_acquire]: done, failed, or sleep and try again. *)
Inductive acquire_round : Type :=
  | AcqDone
  | AcqFail (e : exn)
  | AcqSleep (us : Z).

Definition rate_acquire_round (now now2 now3 need : Z) (s : rate_state) : acquire_round * rate_state :=
  if need <=? 0 then (AcqDone, s)
  else if rt_capacity s <? need then (AcqFail StructuredConcurrencyError, s)
  else
    let '(got, s) := rate_try_consume now need s in
    if got then (AcqDone, s)
    else
      let '(wait, s) := rate_wait_us_for now2 now3 need s in
      if wait <? 0 then (AcqFail StructuredConcurrencyError, s)
      else (AcqSleep (if wait =? 0 then 1 else wait), s).

(** The constructor: durations in microseconds. *)
Definition rate_limiter_new (capacity period_us refill_per_period now : Z) : res rate_state :=
  if capacity =? 0 then Throw InvalidArgument
  else if period_us <=? 0 then Throw InvalidArgument
  else match rate_scale_tokens capacity with
  | Throw e => Throw e
  | Ok cap =>
      match rate_scale_tokens (if refill_per_period =? 0 then capacity else refill_per_period) with
      | Throw e => Throw e
      | Ok per => Ok (mkRate cap cap per period_us now)
      end
  end.

Definition rate_try_acquire (now n : Z) (s : rate_state) : res (bool * rate_state) :=
  match rate_scale_tokens n with
  | Throw e => Throw e
  | Ok need => Ok (rate_try_consume now need s)
  end.

Definition rate_available (now : Z) (s : rate_state) : Z * rate_state :=
  let s := rate_settle now s in (Z.quot (rt_tokens s) rate_token_scale, s).

(** [retry_after] in microseconds; [None] is [Duration::max()]. *)
Definition rate_retry_after (now now2 n : Z) (s : rate_state) : res (option Z * rate_state) :=
  match rate_scale_tokens n with
  | Throw e => Throw e
  | Ok need =>
      let '(us, s) := rate_wait_us_for now now2 need s in
      Ok (if us <? 0 then None else Some us, s)
  end.

(** [set_rate]: each store happens before the next conversion can throw. *)
Definition rate_set_rate (capacity period_us refill_per_period : Z) (s : rate_state) : option exn * rate_state :=
  if capacity =? 0 then (Some InvalidArgument, s)
  else if period_us <=? 0 then (Some InvalidArgument, s)
  else match rate_scale_tokens capacity with
  | Throw e => (Some e, s)
  | Ok cap =>
      let s := mkRate (rt_tokens s) cap (rt_refill s) (rt_period_us s) (rt_last_us s) in
      match rate_scale_tokens (if refill_per_period =? 0 then capacity else refill_per_period) with
      | Throw e => (Some e, s)
      | Ok per =>
          (None, mkRate (if cap <? rt_tokens s then cap else rt_tokens s) cap per period_us (rt_last_us s))
      end
  end.

(** ** Bounds *)

Lemma rate_scale_tokens_range n u :
  0 <= n -> rate_scale_tokens n = Ok u -> 0 <= u <= int64_max /\ u = n * rate_token_scale.
Proof.
  unfold rate_scale_tokens, rate_token_scale. intros Hn.
  destruct (Z.ltb_spec (int64_max `div` 1024) n); intros [= <-].
  split; [|done]. unfold int64_max in *.
  pose proof (Z.mul_div_le (2 ^ 63 - 1) 1024 ltac:(lia)). lia.
Qed.

(** The bucket is within its bounds and was settled in the past. *)
Record rate_inv (now : Z) (s : rate_state) : Prop := {
  ri_tokens : 0 <= rt_tokens s <= rt_capacity s;
  ri_capacity : rt_capacity s <= int64_max;
  ri_refill : 0 < rt_refill s;
  ri_period : 0 < rt_period_us s;
  ri_last : rt_last_us s <= now;
}.

(** Settling credits whole periods only and keeps the remainder for later. *)
Lemma rate_settle_spec now s :
  rate_inv now s ->
  let k := (now - rt_last_us s) `div` rt_period_us s in
  rate_inv now (rate_settle now s) /\ 0 <= k /\
  rate_settle now s = mkRate (Z.min (rt_capacity s) (rt_tokens s + rt_refill s * k))
    (rt_capacity s) (rt_refill s) (rt_period_us s) (rt_last_us s + k * rt_period_us s) /\
  now - rt_last_us (rate_settle now s) < rt_period_us s.
Proof.
  intros [Ht Hc Hr Hp Hl] k.
  assert (0 <= k) as Hk by (apply Z.div_pos; lia).
  pose proof (Z.div_mod (now - rt_last_us s) (rt_period_us s) ltac:(lia)) as Hdm.
  pose proof (Z.mod_pos_bound (now - rt_last_us s) (rt_period_us s) Hp) as Hmod.
  fold k in Hdm.
  assert (rate_settle now s = mkRate (Z.min (rt_capacity s) (rt_tokens s + rt_refill s * k))
    (rt_capacity s) (rt_refill s) (rt_period_us s) (rt_last_us s + k * rt_period_us s)) as Heq.
  { assert (k = 0 -> s = mkRate (Z.min (rt_capacity s) (rt_tokens s + rt_refill s * k))
      (rt_capacity s) (rt_refill s) (rt_period_us s) (rt_last_us s + k * rt_period_us s)) as H0.
    { intros ->. destruct s; simpl in *. f_equal; lia. }
    unfold rate_settle. rewrite (proj2 (Z.ltb_lt 0 (rt_refill s)) Hr), (proj2 (Z.ltb_lt 0 (rt_period_us s)) Hp). simpl.
    destruct (Z.ltb_spec (rt_last_us s) now) as [Hlt|Hge].
    - fold k. destruct (Z.ltb_spec 0 k); [|apply H0; lia].
      assert (0 <= rt_refill s * k) by lia. f_equal.
      destruct (Z.leb_spec (rt_capacity s) (rt_tokens s + rt_refill s * k)); [lia|].
      destruct (Z.ltb_spec (rt_tokens s + rt_refill s * k) 0); lia.
    - apply H0. unfold k. replace (now - rt_last_us s) with 0 by lia. apply Z.div_0_l. lia. }
  rewrite Heq. simpl. split_and!; [|done|done|lia].
  assert (0 <= rt_refill s * k) by lia.
  constructor; simpl; lia.
Qed.

Lemma rate_try_consume_inv now need s b s' :
  rate_inv now s -> 0 <= need -> rate_try_consume now need s = (b, s') -> rate_inv now s'.
Proof.
  intros Hi Hn. destruct (rate_settle_spec now s Hi) as ([Ht Hc Hr Hp Hl] & _ & _ & _).
  unfold rate_try_consume. destruct (Z.ltb_spec (rt_tokens (rate_settle now s)) need); intros [= <- <-];
    constructor; simpl; lia.
Qed.

(** ** No over-issue

    A history of requests at non-decreasing times, with the units granted so far. *)

Inductive rate_run (s0 : rate_state) (t0 : Z) : Z -> rate_state -> Z -> Prop :=
  | RateStart : rate_run s0 t0 t0 s0 0
  | RateRequest now s granted now' need b s' :
      rate_run s0 t0 now s granted -> now <= now' -> 0 <= need ->
      rate_try_consume now' need s = (b, s') ->
      rate_run s0 t0 now' s' (granted + if b then need else 0)
  | RatePeek now s granted now' :
      rate_run s0 t0 now s granted -> now <= now' ->
      rate_run s0 t0 now' (rate_settle now' s) granted.

Lemma rate_inv_later now now' s : now <= now' -> rate_inv now s -> rate_inv now' s.
Proof. intros Hle [? ? ? ? ?]. constructor; lia || done. Qed.

(** The account: what was granted plus what is left is covered by the initial
    tokens and the refills of the whole periods elapsed. *)
Lemma rate_run_account s0 t0 now s granted :
  rate_inv t0 s0 -> rate_run s0 t0 now s granted ->
  rate_inv now s /\ t0 <= now /\ rt_refill s = rt_refill s0 /\ rt_period_us s = rt_period_us s0 /\
  exists k, 0 <= k /\ rt_last_us s = rt_last_us s0 + k * rt_period_us s0 /\
    granted + rt_tokens s <= rt_tokens s0 + rt_refill s0 * k.
Proof.
  intros H0. induction 1 as [|now s granted now' need b s' Hrun IH Hle Hn Hc|now s granted now' Hrun IH Hle].
  - split_and!; [done|lia|done|done|]. exists 0. lia.
  - destruct IH as (Hi & Ht & Hr & Hp & k & Hk & Hl & Ha).
    apply (rate_inv_later _ now' _ Hle) in Hi.
    destruct (rate_settle_spec now' s Hi) as (Hi' & Hk' & Heq & _).
    pose proof (rate_try_consume_inv _ _ _ _ _ Hi Hn Hc) as Hi2.
    set (k' := (now' - rt_last_us s) `div` rt_period_us s) in *.
    revert Hc. unfold rate_try_consume. rewrite Heq. simpl.
    destruct (Z.ltb_spec (Z.min (rt_capacity s) (rt_tokens s + rt_refill s * k')) need); intros [= <- <-];
      simpl; (split_and!; [done|lia|done|done|]); exists (k + k'); rewrite Hr, Hp in *; nia.
  - destruct IH as (Hi & Ht & Hr & Hp & k & Hk & Hl & Ha).
    apply (rate_inv_later _ now' _ Hle) in Hi.
    destruct (rate_settle_spec now' s Hi) as (Hi' & Hk' & Heq & _). rewrite Heq in *. simpl.
    set (k' := (now' - rt_last_us s) `div` rt_period_us s) in *.
    split_and!; [done|lia|done|done|]. exists (k + k'). rewrite Hr, Hp in *. nia.
Qed.

(** C9 The limiter never over-issues: whatever the requests and their times, the
    units granted are at most the initial tokens plus one refill per whole period
    elapsed since the bucket was last settled, and the bucket stays between zero and
    its capacity. *)
Theorem rate_no_over_issue s0 t0 now s granted :
  rate_inv t0 s0 -> rate_run s0 t0 now s granted ->
  granted <= rt_tokens s0 + rt_refill s0 * ((now - rt_last_us s0) `div` rt_period_us s0) /\
  0 <= rt_tokens s <= rt_capacity s.
Proof.
  intros H0 Hr. destruct (rate_run_account _ _ _ _ _ H0 Hr) as ([Ht _ _ Hp Hl] & _ & _ & Hpe & k & Hk & Hlk & Ha).
  split; [|done]. destruct H0 as [_ _ Hr0 Hp0 _].
  assert (k <= (now - rt_last_us s0) `div` rt_period_us s0) by (apply Z.div_le_lower_bound; lia).
  nia.
Qed.

(** The wait the limiter announces is enough: if a request within the capacity
    is refused and told to wait [us] microseconds, then after that time, with nobody
    else taking tokens, it is granted; the wait is a positive 64-bit number and does
    not exceed the exact refill time. *)
Theorem rate_wait_sufficient now now2 later need s us s' :
  rate_inv now s -> now <= now2 -> 0 < need <= rt_capacity s ->
  rate_wait_us_for now now2 need s = (us, s') -> 0 < us < int64_max -> now2 + us <= later ->
  (rate_try_consume later need s').1 = true /\
  us <= ((need - rt_tokens s' + rt_refill s - 1) `div` rt_refill s) * rt_period_us s.
Proof.
  intros Hi Hle Hneed. destruct (rate_settle_spec now s Hi) as (Hi1 & Hk & Heq & Hrem).
  assert (rt_refill (rate_settle now s) = rt_refill s /\ rt_period_us (rate_settle now s) = rt_period_us s /\
    rt_capacity (rate_settle now s) = rt_capacity s) as (Hrf & Hpd & Hcp) by (rewrite Heq; done).
  unfold rate_wait_us_for. set (s1 := rate_settle now s) in *. clearbody s1. rewrite Hrf, Hpd.
  destruct (Z.leb_spec need (rt_tokens s1)) as [?|Hmiss]; [intros [= <- <-]; lia|].
  pose proof Hi as [_ _ Hr Hp _]. pose proof Hi1 as [Ht1 Hc1 _ _ Hl1].
  rewrite (proj2 (Z.leb_gt (rt_refill s) 0) Hr), (proj2 (Z.leb_gt (rt_period_us s) 0) Hp). simpl.
  assert (Z.quot (need - rt_tokens s1 - 1) (rt_refill s) + 1 =
    (need - rt_tokens s1 + rt_refill s - 1) `div` rt_refill s) as Hceil.
  { rewrite Z.quot_div_nonneg by lia.
    replace (need - rt_tokens s1 + rt_refill s - 1) with ((need - rt_tokens s1 - 1) + 1 * rt_refill s) by lia.
    by rewrite Z.div_add by lia. }
  rewrite Hceil. set (p := (need - rt_tokens s1 + rt_refill s - 1) `div` rt_refill s) in *.
  assert (1 <= p) as Hp1 by (apply Z.div_le_lower_bound; lia).
  assert (need <= rt_tokens s1 + rt_refill s * p) as Hpn.
  { pose proof (Z.div_mod (need - rt_tokens s1 + rt_refill s - 1) (rt_refill s) ltac:(lia)) as Hdm.
    pose proof (Z.mod_pos_bound (need - rt_tokens s1 + rt_refill s - 1) (rt_refill s) Hr). fold p in Hdm. lia. }
  destruct (Z.leb_spec int64_max (p * rt_period_us s)); [intros [= <- <-]; lia|].
  assert (rt_period_us s <= p * rt_period_us s) as Hpp by nia.
  intros Hw Hus Hlater.
  assert (us <= p * rt_period_us s /\ rt_last_us s1 + p * rt_period_us s <= now2 + us) as [Hus1 Hus2].
  { revert Hw. clear Hpn Hceil Heq Hlater. revert Hpp H. generalize (p * rt_period_us s). intros pp Hpp Hpm.
    destruct (Z.ltb_spec 0 (now2 - rt_last_us s1)).
    - rewrite Z.rem_mod_nonneg by lia.
      pose proof (Z.mod_pos_bound (now2 - rt_last_us s1) (rt_period_us s) Hp).
      pose proof (Z.mod_le (now2 - rt_last_us s1) (rt_period_us s) ltac:(lia) Hp).
      destruct (Z.ltb_spec ((now2 - rt_last_us s1) `mod` rt_period_us s) pp); [|lia].
      destruct (Z.ltb_spec (pp - (now2 - rt_last_us s1) `mod` rt_period_us s) 1); intros [= <- <-]; lia.
    - destruct (Z.ltb_spec pp 1); intros [= <- <-]; lia. }
  assert (s' = s1) as -> by (revert Hw; repeat case_match; intros; congruence).
  split; [|done].
  assert (rate_inv later s1) as Hil by (apply (rate_inv_later now); [lia|done]).
  destruct (rate_settle_spec later s1 Hil) as (_ & Hk2 & Heq2 & _).
  unfold rate_try_consume. rewrite Heq2, Hrf, Hpd, Hcp. simpl.
  assert (p <= (later - rt_last_us s1) `div` rt_period_us s) by (apply Z.div_le_lower_bound; lia).
  destruct (Z.ltb_spec (Z.min (rt_capacity s) (rt_tokens s1 + rt_refill s * ((later - rt_last_us s1) `div` rt_period_us s))) need);
    [nia|done].
Qed.

(** ** Two threads: [settle_and_peek] as its atomic steps *)

(** What a thread holds between its loads and its compare-exchange. *)
Record settle_local : Type := mkSettle {
  sl_old_tokens : Z;
  sl_next : Z;
  sl_next_last : Z;
}.

(** The loads and the computation. *)
Definition settle_load (now : Z) (s : rate_state) : settle_local :=
  mkSettle (rt_tokens s) (rt_tokens (rate_settle now s)) (rt_last_us (rate_settle now s)).

(** [tokens.compare_exchange_weak]; it does not fail spuriously here. *)
Definition settle_cas (x : settle_local) (s : rate_state) : bool * rate_state :=
  if rt_tokens s =? sl_old_tokens x
  then (true, mkRate (sl_next x) (rt_capacity s) (rt_refill s) (rt_period_us s) (rt_last_us s))
  else (false, s).

(** [last_us.store]. *)
Definition settle_store (x : settle_local) (s : rate_state) : rate_state :=
  mkRate (rt_tokens s) (rt_capacity s) (rt_refill s) (rt_period_us s) (sl_next_last x).

(** The second thread settles between the first one's compare-exchange and its store. *)
Definition settle_interleaved (now : Z) (s : rate_state) : rate_state :=
  let a := settle_load now s in
  let s := (settle_cas a s).2 in
  let b := settle_load now s in
  let s := (settle_cas b s).2 in
  settle_store b (settle_store a s).

(** The steps of one thread, run without interruption, are [rate_settle]. *)
Lemma settle_steps_seq now s :
  (settle_cas (settle_load now s) s).1 = true /\
  settle_store (settle_load now s) (settle_cas (settle_load now s) s).2 = rate_settle now s.
Proof.
  unfold settle_cas, settle_load, settle_store; simpl. rewrite Z.eqb_refl. split; [done|].
  unfold rate_settle. destruct s as [t c r p l]; simpl. repeat case_match; done.
Qed.

(** Settling is not atomic: when a second thread settles between the
    compare-exchange of the first and its store of the settling time, the same
    periods are credited twice, and the bucket grants more than its rate allows. *)
Theorem rate_settle_race now s :
  rate_inv now s -> rt_tokens s + 2 * (rt_refill s * ((now - rt_last_us s) `div` rt_period_us s)) <= rt_capacity s ->
  rt_tokens (settle_interleaved now s) =
    rt_tokens s + 2 * (rt_refill s * ((now - rt_last_us s) `div` rt_period_us s)) /\
  rt_last_us (settle_interleaved now s) = rt_last_us (rate_settle now s).
Proof.
  intros Hi Hcap. destruct (rate_settle_spec now s Hi) as (_ & Hk & Heq & _).
  pose proof Hi as [Ht Hc Hr Hp Hl]. set (k := (now - rt_last_us s) `div` rt_period_us s) in *.
  assert (0 <= rt_refill s * k) by nia.
  set (s1 := mkRate (rt_tokens s + rt_refill s * k) (rt_capacity s) (rt_refill s) (rt_period_us s) (rt_last_us s)).
  assert (rate_inv now s1) as Hi1 by (constructor; simpl; lia).
  destruct (rate_settle_spec now s1 Hi1) as (_ & _ & Heq1 & _).
  unfold settle_interleaved. rewrite (surjective_pairing (settle_cas (settle_load now s) s)). 
  assert ((settle_cas (settle_load now s) s).2 = s1) as ->.
  { unfold settle_cas, settle_load; simpl. rewrite Z.eqb_refl, Heq. simpl. unfold s1. f_equal. lia. }
  unfold settle_cas, settle_load, settle_store. simpl. rewrite Z.eqb_refl. simpl.
  rewrite Heq1, Heq. simpl. fold k. split; lia.
Qed.

(** ** Scenario: 2 tokens per second *)

Definition rate_demo : rate_state := mkRate 2048 2048 2048 1000000 0.

Lemma rate_demo_inv : rate_inv 0 rate_demo.
Proof. constructor; unfold int64_max; simpl; lia. Qed.

Lemma rate_no_over_issue_witness :
  exists s, rate_run rate_demo 0 1500000 s (0 + 2048 + 2048) /\
    0 + 2048 + 2048 <= 2048 + 2048 * ((1500000 - 0) `div` 1000000).
Proof.
  destruct (rate_try_consume 0 2048 rate_demo) as [b1 s1] eqn:H1.
  destruct (rate_try_consume 1500000 2048 s1) as [b2 s2] eqn:H2.
  vm_compute in H1. injection H1 as <- <-. vm_compute in H2. injection H2 as <- <-.
  assert (rate_run rate_demo 0 1500000 (mkRate 0 2048 2048 1000000 1000000) (0 + 2048 + 2048)) as Hr.
  { apply (RateRequest rate_demo 0 0 (mkRate 0 2048 2048 1000000 0) (0 + 2048) 1500000 2048 true);
      [|lia|lia|reflexivity].
    apply (RateRequest rate_demo 0 0 rate_demo 0 0 2048 true); [apply RateStart|lia|lia|reflexivity]. }
  eexists. split; [exact Hr|].
  exact (proj1 (rate_no_over_issue rate_demo 0 1500000 _ _ rate_demo_inv Hr)).
Defined.

Lemma rate_wait_sufficient_witness :
  exists us s', rate_wait_us_for 300000 300000 1024 (mkRate 0 2048 2048 1000000 0) = (us, s') /\
    us = 700000 /\ (rate_try_consume 1000000 1024 s').1 = true.
Proof.
  exists 700000, (mkRate 0 2048 2048 1000000 0). split_and!; [reflexivity|reflexivity|].
  apply (rate_wait_sufficient 300000 300000 1000000 1024 (mkRate 0 2048 2048 1000000 0) 700000
    (mkRate 0 2048 2048 1000000 0)).
  - constructor; unfold int64_max; simpl; lia.
  - lia.
  - simpl; lia.
  - reflexivity.
  - unfold int64_max; lia.
  - lia.
Defined.

Lemma rate_settle_race_witness :
  rt_tokens (settle_interleaved 1000000 (mkRate 0 4096 2048 1000000 0)) =
    0 + 2 * (2048 * ((1000000 - 0) `div` 1000000)).
Proof.
  apply (rate_settle_race 1000000 (mkRate 0 4096 2048 1000000 0)).
  - constructor; unfold int64_max; simpl; lia.
  - vm_compute. discriminate.
Defined.
