(* ===== verification/TimerObj.v ===== *)
(** * TimerObj: the resettable, cancellable timer ([coro::Timer])

    [src/include/coro/timer.hpp].  The shared [timer_state] outlives the [Timer]; the
    invalidation token of the heap entry is a flag of the shared cells, allocated at a
    location the caller supplies.  Times are nanoseconds of the steady clock. *)

From S2P Require Import Prelude ReadyQueue Timers Frames EventLoop Runtime.
From stdpp Require Import options.
#[local] Set Default Proof Using "Type*".

(** [enum class timer_outcome], stored in an atomic int. *)
Inductive timer_outcome : Type := TPending | TExpired | TCancelled.

#[export] Instance timer_outcome_eq_dec : EqDecision timer_outcome.
Proof. solve_decision. Defined.

(** [struct timer_state]; a null owner is loop 0. *)
Record timer_state : Type := mkTimerState {
  ts_result : timer_outcome;
  ts_waiting : bool;
  ts_wait_taken : bool;
  ts_token : option loc;
  ts_handle : handle;
  ts_owner : loop_id;
  ts_deadline : option Z;
}.

Definition timer_state_init : timer_state :=
  mkTimerState TPending false false None null_handle 0 None.

Definition ts_set_result r s := mkTimerState r (ts_waiting s) (ts_wait_taken s) (ts_token s) (ts_handle s) (ts_owner s) (ts_deadline s).
Definition ts_set_waiting b s := mkTimerState (ts_result s) b (ts_wait_taken s) (ts_token s) (ts_handle s) (ts_owner s) (ts_deadline s).
Definition ts_set_taken b s := mkTimerState (ts_result s) (ts_waiting s) b (ts_token s) (ts_handle s) (ts_owner s) (ts_deadline s).
Definition ts_set_token t s := mkTimerState (ts_result s) (ts_waiting s) (ts_wait_taken s) t (ts_handle s) (ts_owner s) (ts_deadline s).
Definition ts_set_who h o s := mkTimerState (ts_result s) (ts_waiting s) (ts_wait_taken s) (ts_token s) h o (ts_deadline s).
Definition ts_set_deadline d s := mkTimerState (ts_result s) (ts_waiting s) (ts_wait_taken s) (ts_token s) (ts_handle s) (ts_owner s) d.

(** [claim]: the compare-and-swap that picks the single outcome. *)
Definition timer_claim (o : timer_outcome) (s : timer_state) : bool * timer_state :=
  if decide (ts_result s = TPending) then (true, ts_set_result o s) else (false, s).

(** [duration_cast<milliseconds>]: a deadline [d] nanoseconds from [now]. *)
Definition timer_deadline_in (now d : Z) : Z := (now + Z.quot d 1000000 * 1000000)%Z.

Section timer.
Context {W : Type} `{Runtime W}.
Implicit Types (s : timer_state) (w : W) (tok : loc).

(** [if (token) *token = true]. *)
Definition timer_invalidate s w : W :=
  match ts_token s with
  | None => w
  | Some t => rt_set_cells (flag_store t true (rt_cells w)) w
  end.

(** [make_shared<atomic<bool>>(false)] at the fresh location [tok]. *)
Definition timer_new_token tok w : W := rt_set_cells (flag_store tok false (rt_cells w)) w.

(** [rearm], run on the owner loop. *)
Definition timer_rearm tok s w : timer_state * W :=
  let w := timer_invalidate s w in
  let s := ts_set_token None s in
  match ts_deadline s with
  | None => (s, w)
  | Some d =>
      if negb (ts_waiting s) then (s, w)
      else if decide (ts_result s ≠ TPending) then (s, w)
      else (ts_set_token (Some tok) s,
            rt_schedule_timer (ts_handle s) d (Some tok) None 0 (timer_new_token tok w))
  end.

(** [timer_reservation::release]; the first argument is [owns]. *)
Definition timer_release (owns : bool) s : timer_state := if owns then ts_set_taken false s else s.

Definition timer_await_ready s : bool := bool_decide (ts_result s ≠ TPending).

Definition timer_await_suspend (h : handle) tok s w : timer_state * W :=
  let s := ts_set_waiting true (ts_set_who h (rt_loop w) s) in
  if decide (ts_result s ≠ TPending) then (s, rt_schedule (rt_loop w) h w)
  else match ts_deadline s with
  | None => (s, w)
  | Some d =>
      (ts_set_token (Some tok) s, rt_schedule_timer h d (Some tok) None 0 (timer_new_token tok w))
  end.

Definition timer_await_resume s w : bool * timer_state * W :=
  let s := ts_set_waiting false s in
  let w := timer_invalidate s w in
  let s := timer_release true s in
  let '(won, s) := timer_claim TExpired s in
  if won then (true, s, w) else (bool_decide (ts_result s = TExpired), s, w).

(** [~timer_wait_awaiter], then the destructor of its reservation. *)
Definition timer_awaiter_destroyed (owns : bool) s w : timer_state * W :=
  if negb owns then (s, w)
  else
    let w := timer_invalidate s w in
    let s := ts_set_who null_handle 0 (ts_set_waiting false (ts_set_token None s)) in
    (timer_release owns s, w).

(** [do_cancel] on an object that has a state. *)
Definition timer_do_cancel s w : timer_state * W :=
  let was_waiting := ts_waiting s in
  let s := ts_set_waiting false s in
  let '(won, s) := timer_claim TCancelled s in
  if negb won then (s, w)
  else
    let w := timer_invalidate s w in
    if was_waiting && bool_decide (ts_owner s ≠ 0)
    then (s, rt_schedule (ts_owner s) (ts_handle s) w)
    else (s, w).

(** [reset(d)]; [fn] is the posted closure [[st] { st->rearm(); }]. *)
Definition timer_reset (fn : fn_id) (d : Z) s w : timer_state * W :=
  let s := ts_set_deadline (Some (timer_deadline_in (rt_now w) d)) s in
  if ts_waiting s then
    (s, if decide (ts_owner s ≠ 0) then rt_dispatch (ts_owner s) fn w else w)
  else
    let w := timer_invalidate s w in
    (ts_set_result TPending (ts_set_taken false (ts_set_who null_handle 0 (ts_set_token None s))), w).

(** ** The [Timer] object: [None] once moved from *)

Definition Timer_make (d : Z) w : timer_state :=
  ts_set_deadline (Some (timer_deadline_in (rt_now w) d)) timer_state_init.

Definition Timer_wait (t : option timer_state) : res (option timer_state) :=
  match t with
  | None => Throw StructuredConcurrencyError
  | Some s => if ts_wait_taken s then Throw StructuredConcurrencyError else Ok (Some (ts_set_taken true s))
  end.

Definition Timer_reset (fn : fn_id) (d : Z) (t : option timer_state) w : option timer_state * W :=
  let '(s, w) := timer_reset fn d (default timer_state_init t) w in (Some s, w).

(** The destructor and [cancel]: what the waiters still share is the state returned. *)
Definition Timer_cancel (t : option timer_state) w : option timer_state * W :=
  match t with
  | None => (None, w)
  | Some s => let '(s, w) := timer_do_cancel s w in (Some s, w)
  end.

(** Move assignment: the retired state, this object, the other one. *)
Definition Timer_move_assign (self other : option timer_state) w :
  option timer_state * option timer_state * option timer_state * W :=
  let '(retired, w) := Timer_cancel self w in (retired, other, None, w).

Definition Timer_done (t : option timer_state) : bool :=
  from_option (λ s, bool_decide (ts_result s ≠ TPending)) true t.

Definition Timer_has_waiter (t : option timer_state) : bool := from_option ts_waiting false t.

(** ** Histories of one state *)

Inductive timer_event : Type :=
  | TEWait
  | TESuspend (h : handle)
  | TEResume (fired : bool)
  | TEDestroyed
  | TECancel
  | TEMigrate (d : Z)       (* [reset] while somebody waits *)
  | TERearm
  | TERestart (d : Z).      (* [reset] with nobody waiting *)

(** One event; the loops may do anything between two events. *)
Inductive timer_step : timer_event → timer_state → timer_state → Prop :=
  | TSWait s s' : Timer_wait (Some s) = Ok (Some s') → timer_step TEWait s s'
  | TSSuspend h tok s w : timer_await_ready s = false →
      timer_step (TESuspend h) s (timer_await_suspend h tok s w).1
  | TSResume s w b s' w' : timer_await_resume s w = (b, s', w') → timer_step (TEResume b) s s'
  | TSDestroyed owns s w : timer_step TEDestroyed s (timer_awaiter_destroyed owns s w).1
  | TSCancel s w : timer_step TECancel s (timer_do_cancel s w).1
  | TSMigrate fn d s w : ts_waiting s = true → timer_step (TEMigrate d) s (timer_reset fn d s w).1
  | TSRearm tok s w : timer_step TERearm s (timer_rearm tok s w).1
  | TSRestart fn d s w : ts_waiting s = false → timer_step (TERestart d) s (timer_reset fn d s w).1.

Inductive timer_steps : list timer_event → timer_state → timer_state → Prop :=
  | TSNil s : timer_steps [] s s
  | TSCons e es s s1 s2 : timer_step e s s1 → timer_steps es s1 s2 → timer_steps (e :: es) s s2.

Definition is_restart (e : timer_event) : bool :=
  match e with TERestart _ => true | _ => false end.

Lemma timer_step_final e s s' :
  timer_step e s s' → is_restart e = false → ts_result s ≠ TPending →
  ts_result s' = ts_result s ∧ ∀ b, e = TEResume b → b = bool_decide (ts_result s = TExpired).
Proof.
  intros Hs Hr Hp. destruct Hs; simpl in *; try done.
  - simpl in *. destruct (ts_wait_taken s); simplify_eq/=; split; [done|by intros].
  - unfold timer_await_suspend; simpl. repeat case_match; simpl; by split; [|intros].
  - unfold timer_await_resume, timer_claim in H0; simpl in H0. rewrite decide_False in H0 by done.
    injection H0 as <- <- <-. simpl. split; [done|]. by intros ? [= <-].
  - unfold timer_awaiter_destroyed. destruct owns; simpl; by split; [|intros].
  - unfold timer_do_cancel, timer_claim; simpl. rewrite decide_False by done. simpl. by split; [|intros].
  - unfold timer_reset; simpl. rewrite H0. by split; [|intros].
  - unfold timer_rearm; simpl. repeat case_match; simpl; by split; [|intros].
Qed.

(** C10 A timer has a single outcome: once it has expired or was cancelled, nothing
    but a restart ([reset] with nobody waiting) changes it, and every waiter that
    resumes before the restart is told that same outcome. *)
Theorem timer_single_outcome es s s' :
  timer_steps es s s' → Forall (λ e, is_restart e = false) es → ts_result s ≠ TPending →
  ts_result s' = ts_result s ∧ ∀ b, TEResume b ∈ es → b = bool_decide (ts_result s = TExpired).
Proof.
  induction 1 as [s|e es s s1 s2 Hs _ IH]; intros Hf Hp.
  - split; [done|]. by intros b ?%elem_of_nil.
  - apply Forall_cons in Hf as [He Hf]. destruct (timer_step_final _ _ _ Hs He Hp) as [Hr Hb].
    rewrite <- Hr in Hp. destruct (IH Hf Hp) as [Hr' Hb']. split; [congruence|].
    intros b [Heq|Hin]%elem_of_cons; [by apply Hb|]. rewrite <- Hr. by apply Hb'.
Qed.

(** The waiter can be reached by [cancel]. *)
Definition timer_pending_waiter s : Prop :=
  ts_result s = TPending ∧ ts_waiting s = true ∧ ts_owner s ≠ 0 ∧ ts_handle s ≠ null_handle.

Lemma timer_do_cancel_pending s w :
  ts_result s = TPending →
  ∃ w', timer_do_cancel s w = (ts_set_result TCancelled (ts_set_waiting false s), w').
Proof.
  intros Hr. unfold timer_do_cancel, timer_claim; simpl. rewrite decide_True by done. simpl.
  case_match; by eexists.
Qed.

Lemma timer_reset_idle fn d s w :
  ts_waiting s = false →
  ∃ dl w', timer_reset fn d s w = (mkTimerState TPending false false None null_handle 0 (Some dl), w').
Proof.
  intros Hw. unfold timer_reset; simpl. rewrite Hw. destruct s as [r wt tk t h o dl]; simpl in *. subst.
  by eexists _, _.
Qed.

(** What restarting a cancelled timer before its waiter has resumed does to that waiter. *)
Definition timer_cancel_then_reset fn d s w : bool * timer_state * W :=
  let '(s, w) := timer_do_cancel s w in
  let '(s, w) := timer_reset fn d s w in
  timer_await_resume s w.

(** Restarting a timer that was cancelled but whose waiter has not resumed yet
    turns the cancellation into an expiry: the waiter is told the timer fired. *)
Theorem timer_reset_flips_cancel fn d s w :
  timer_pending_waiter s →
  (timer_cancel_then_reset fn d s w).1.1 = true ∧
  ts_result (timer_cancel_then_reset fn d s w).1.2 = TExpired.
Proof.
  intros (Hr & Hw & Ho & Hh). unfold timer_cancel_then_reset.
  destruct (timer_do_cancel_pending s w Hr) as [w1 ->].
  destruct (timer_reset_idle fn d (ts_set_result TCancelled (ts_set_waiting false s)) w1)
    as (dl & w2 & ->); done.
Qed.

(** The same with a second coroutine [h2] that waits on the restarted timer before
    the first waiter has resumed. *)
Definition timer_two_waiters fn d h2 tok s w : timer_state * W :=
  let '(s, w) := timer_do_cancel s w in
  let '(s, w) := timer_reset fn d s w in
  let s := ts_set_taken true s in
  let '(s, w) := timer_await_suspend h2 tok s w in
  let '(_, s, w) := timer_await_resume s w in
  (s, w).

Context `{!RuntimeLaws W}.

Lemma timer_invalidate_stale s w t :
  ts_token s = Some t → flag_load (rt_cells (timer_invalidate s w)) t = true.
Proof.
  intros Ht. unfold timer_invalidate. rewrite Ht, rl_cells_get. unfold flag_load, flag_store; simpl.
  by rewrite lookup_insert_eq.
Qed.

(** Cancelling a pending timer gives the outcome "cancelled", makes the heap
    entry stale and queues the waiter on its own loop; the first resumption then
    answers "not fired" whatever time it is. *)
Theorem timer_cancel_wakes s w :
  timer_pending_waiter s → rt_live (ts_owner s) (ts_handle s) w = true →
  ts_result (timer_do_cancel s w).1 = TCancelled ∧
  ts_waiting (timer_do_cancel s w).1 = false ∧
  (∀ t, ts_token s = Some t → flag_load (rt_cells (timer_do_cancel s w).2) t = true) ∧
  rt_queued (ts_owner s) (ts_handle s) (timer_do_cancel s w).2 = true ∧
  ∀ w2, (timer_await_resume (timer_do_cancel s w).1 w2).1.1 = false.
Proof.
  intros (Hr & Hw & Ho & Hh) Hl. unfold timer_do_cancel, timer_claim; simpl.
  rewrite decide_True, Hw by done; simpl. rewrite bool_decide_eq_true_2 by done.
  split_and!; [done|done| | |done].
  - intros t Ht. simpl. rewrite rl_schedule_cells. by apply timer_invalidate_stale.
  - unfold timer_invalidate; simpl. apply rl_schedule_queued; [done|]. destruct (ts_token s); [by rewrite rl_cells_live|done].
Qed.

(** A waiter registered in that window is lost: after the first one has resumed,
    the timer is done and has no waiter, its heap entry is stale, and cancelling it
    wakes nobody. *)
Theorem timer_reset_strands_waiter fn d h2 tok s w :
  timer_pending_waiter s →
  let '(s', w') := timer_two_waiters fn d h2 tok s w in
  ts_handle s' = h2 ∧ ts_token s' = Some tok ∧ flag_load (rt_cells w') tok = true ∧
  Timer_has_waiter (Some s') = false ∧ Timer_done (Some s') = true ∧
  ∀ w2, timer_do_cancel s' w2 = (s', w2).
Proof.
  intros (Hr & Hw & Ho & Hh). unfold timer_two_waiters.
  destruct (timer_do_cancel_pending s w Hr) as [w1 ->].
  destruct (timer_reset_idle fn d (ts_set_result TCancelled (ts_set_waiting false s)) w1)
    as (dl & w2 & ->); [done|].
  unfold timer_await_suspend. simpl. generalize (rt_schedule_timer h2 dl (Some tok) None 0 (timer_new_token tok w2)).
  intros w3. split_and!; try done. by apply timer_invalidate_stale.
Qed.
End timer.

(** ** Scenario: coroutine 10 waits one second on loop 1 *)

Definition timer_demo : timer_state * world :=
  timer_await_suspend 10 1 (ts_set_taken true (Timer_make 1000000000 w_demo)) w_demo.

Definition timer_demo_state : timer_state :=
  mkTimerState TPending true true (Some 1) 10 1 (Some 1000000000%Z).

Example timer_demo_runs : timer_demo.1 = timer_demo_state.
Proof. vm_compute. reflexivity. Qed.

Lemma timer_demo_pending : timer_pending_waiter timer_demo_state.
Proof. done. Qed.

Lemma timer_single_outcome_witness :
  ∃ es s s', timer_steps (W := world) es s s' ∧ ts_result s' = TCancelled ∧ TEResume false ∈ es.
Proof.
  set (s0 := ts_set_waiting false (ts_set_result TCancelled timer_demo_state)).
  destruct (timer_await_resume s0 w_demo) as [[b s1] w1] eqn:Hr.
  assert (b = false) as -> by (unfold timer_await_resume in Hr; simpl in Hr; congruence).
  assert (timer_steps (W := world) [TEResume false] s0 s1) as Hs.
  { eapply TSCons; [exact (TSResume s0 w_demo false s1 w1 Hr)|apply TSNil]. }
  exists [TEResume false], s0, s1.
  split_and!; [exact Hs| |by left].
  exact (proj1 (timer_single_outcome _ _ _ Hs ltac:(repeat constructor) ltac:(done))).
Defined.

Lemma timer_cancel_wakes_witness :
  rt_queued 1 10 (timer_do_cancel timer_demo_state w_demo).2 = true.
Proof.
  assert (rt_live 1 10 w_demo = true) as Hl by (vm_compute; reflexivity).
  exact (proj1 (proj2 (proj2 (proj2
    (timer_cancel_wakes timer_demo_state w_demo timer_demo_pending Hl))))).
Defined.

Lemma timer_reset_flips_cancel_witness :
  (timer_cancel_then_reset 5 1000000000 timer_demo_state w_demo).1.1 = true.
Proof. exact (proj1 (timer_reset_flips_cancel 5 1000000000 timer_demo_state w_demo timer_demo_pending)). Defined.

Lemma timer_reset_strands_waiter_witness :
  ∃ s' w', timer_two_waiters 5 1000000000 11 2 timer_demo_state w_demo = (s', w') ∧
    Timer_done (Some s') = true ∧ ts_handle s' = 11.
Proof.
  pose proof (timer_reset_strands_waiter 5 1000000000 11 2 timer_demo_state w_demo timer_demo_pending) as H.
  destruct (timer_two_waiters 5 1000000000 11 2 timer_demo_state w_demo) as [s' w'].
  destruct H as (Hh & _ & _ & _ & Hd & _). exists s', w'. split_and!; [reflexivity|exact Hd|exact Hh].
Defined.
