(* ===== verification/StreamIO.v ===== *)
(** * StreamIO: buffered reader and writer over a byte source

    [src/include/coro/stream.hpp].  The source is a template parameter of the code:
    here a class of states with one [read] (or [write]) each, and a class of laws for
    the bytes it will deliver.  The buffer is the vector of the code, its length the
    capacity; the scan marks are kept, so that what they skip is visible. *)

From S2P Require Import Prelude.
From Stdlib Require Import Ascii.
From stdpp Require Import options.
#[local] Set Default Proof Using "Type*".

(** ** Sources and sinks *)

(** What one awaited [read] gives: [n >= 0] bytes, a negative count, or an exception
    (a cancellation among them). *)
Inductive read_result : Type :=
  | RdData (bs : list ascii)
  | RdFail
  | RdThrow (e : exn).

Class Source (S : Type) : Type := {
  src_read : nat → S → read_result * S;
  src_rest : S → list ascii;      (* the bytes the peer still delivers before it ends *)
}.

(** A read of a non-empty buffer delivers the next bytes, at most as many as asked;
    it gives none only at the end; a failed read loses nothing. *)
Class SourceLaws (S : Type) `{Source S} : Prop := {
  src_data n s bs s' : src_read n s = (RdData bs, s') →
    length bs ≤ n ∧ src_rest s = bs ++ src_rest s' ∧ (n ≠ 0 → bs = [] → src_rest s = []);
  src_fail n s s' : src_read n s = (RdFail, s') → src_rest s' = src_rest s;
  src_throw n s e s' : src_read n s = (RdThrow e, s') → src_rest s' = src_rest s;
}.

(** ** The reader *)

Definition nul : ascii := "000"%char.
Definition lf : ascii := "010"%char.
Definition cr : ascii := "013"%char.

(** The fields of [stream_reader] but the reference to the source. *)
Record reader : Type := mkReader {
  r_buf : list ascii;
  r_used : nat;
  r_head : nat;
  r_scan_mark : nat;
  r_byte_mark : nat;
  r_max : nat;
  r_eof : bool;
}.

Definition reader_initial_capacity (requested maximum : nat) : res nat :=
  if decide (maximum = 0) then Throw InvalidArgument
  else
    let requested := if decide (requested = 0) then 1 else requested in
    Ok (if decide (requested < maximum) then requested else maximum).

Definition reader_new (buffer_capacity max_capacity : nat) : res reader :=
  match reader_initial_capacity buffer_capacity max_capacity with
  | Throw e => Throw e
  | Ok n => Ok (mkReader (replicate n nul) 0 0 0 0 max_capacity false)
  end.

Definition buffered (r : reader) : nat := r_used r - r_head r.

(** [buf_.data() + head_], and the bytes that are valid there. *)
Definition r_base (r : reader) : list ascii := drop (r_head r) (r_buf r).
Definition r_content (r : reader) : list ascii := take (buffered r) (r_base r).

(** [head_ += n]. *)
Definition r_advance (n : nat) (r : reader) : reader :=
  mkReader (r_buf r) (r_used r) (r_head r + n) (r_scan_mark r) (r_byte_mark r) (r_max r) (r_eof r).

Definition rewind_marks (consumed : nat) (r : reader) : reader :=
  mkReader (r_buf r) (r_used r) (r_head r)
    (if decide (consumed < r_scan_mark r) then r_scan_mark r - consumed else 0)
    (if decide (consumed < r_byte_mark r) then r_byte_mark r - consumed else 0)
    (r_max r) (r_eof r).

(** [take_into]: the bytes are those copied to the destination. *)
Definition take_into (n : nat) (r : reader) : list ascii * reader :=
  let k := if decide (buffered r < n) then buffered r else n in
  (take k (r_base r), rewind_marks k (r_advance k r)).

Definition take_bytes (n : nat) (r : reader) : list ascii * reader :=
  (take n (r_base r), rewind_marks n (r_advance n r)).

(** [memcmp(base + i, delim, size) == 0]. *)
Definition match_at (base delim : list ascii) (i : nat) : bool :=
  bool_decide (take (length delim) (drop i base) = delim).

(** The scanning loop, over [n] candidates from [i]. *)
Fixpoint find_from (p : nat → bool) (n i : nat) : option nat :=
  match n with
  | 0 => None
  | S n' => if p i then Some i else find_from p n' (S i)
  end.

Definition r_set_scan_mark (m : nat) (r : reader) : reader :=
  mkReader (r_buf r) (r_used r) (r_head r) m (r_byte_mark r) (r_max r) (r_eof r).
Definition r_set_byte_mark (m : nat) (r : reader) : reader :=
  mkReader (r_buf r) (r_used r) (r_head r) (r_scan_mark r) m (r_max r) (r_eof r).

Definition scan (delim : list ascii) (r : reader) : option nat * reader :=
  if bool_decide (delim = []) || bool_decide (buffered r < length delim) then (None, r)
  else
    let left := buffered r - length delim in
    let start := if decide (r_scan_mark r < left) then r_scan_mark r else left in
    match find_from (match_at (r_base r) delim) (left + 1 - start) start with
    | Some i => (Some i, r)
    | None => (None, r_set_scan_mark (left + 1) r)
    end.

Definition find_byte (c : ascii) (r : reader) : option nat * reader :=
  let size := buffered r in
  let start := if decide (r_byte_mark r < size) then r_byte_mark r else size in
  match find_from (λ i, bool_decide (r_base r !! i = Some c)) (size - start) start with
  | Some i => (Some i, r)
  | None => (None, r_set_byte_mark size r)
  end.

(** The compaction of [fill]: the [memmove]. *)
Definition fill_compacted (r : reader) : reader :=
  if decide (0 < r_head r) then
    let n := r_used r - r_head r in
    mkReader (take n (r_base r) ++ drop n (r_buf r)) n 0 (r_scan_mark r) (r_byte_mark r) (r_max r) (r_eof r)
  else r.

(** The least growth of the buffer, in bytes. *)
Definition min_growth : nat := Z.to_nat 1024.

(** [fill] up to the read: growth, or the overflow. *)
Definition fill_grown (r : reader) : res reader :=
  let size := length (r_buf r) in
  if decide (size - r_used r = 0) then
    if decide (r_max r ≤ size) then Throw (StreamOverflowError (Z.of_nat (r_max r)))
    else
      let remaining := r_max r - size in
      let grow := if decide (0 < size) then size else min_growth in
      let grow := if decide (grow < min_growth) then min_growth else grow in
      let more := if decide (remaining < grow) then remaining else grow in
      Ok (mkReader (r_buf r ++ replicate more nul) (r_used r) (r_head r) (r_scan_mark r) (r_byte_mark r) (r_max r) (r_eof r))
  else Ok r.

(** The bytes of the read are written at [buf_ + used_]. *)
Definition fill_append (bs : list ascii) (r : reader) : reader :=
  mkReader (take (r_used r) (r_buf r) ++ bs ++ drop (r_used r + length bs) (r_buf r))
    (r_used r + length bs) (r_head r) (r_scan_mark r) (r_byte_mark r) (r_max r) (r_eof r).

Section reader_ops.
Context {S : Type} `{Source S}.
Implicit Types (r : reader) (s : S).

Definition fill r s : res (option nat) * reader * S :=
  if r_eof r then (Ok None, r, s)
  else match fill_grown (fill_compacted r) with
  | Throw e => (Throw e, fill_compacted r, s)
  | Ok r =>
      match src_read (length (r_buf r) - r_used r) s with
      | (RdThrow e, s) => (Throw e, r, s)
      | (RdFail, s) => (Throw SystemError, r, s)
      | (RdData [], s) =>
          (Ok None, mkReader (r_buf r) (r_used r) (r_head r) (r_scan_mark r) (r_byte_mark r) (r_max r) true, s)
      | (RdData bs, s) => (Ok (Some (length bs)), fill_append bs r, s)
      end
  end.

(** [read_some]: the bytes stand for the count and the destination. The loop runs
    once more after a fill. *)
Definition read_some (n : nat) r s : res (option (list ascii)) * reader * S :=
  if decide (n = 0) then (Ok (Some []), r, s)
  else if decide (buffered r = 0) then
    match fill r s with
    | (Throw e, r, s) => (Throw e, r, s)
    | (Ok None, r, s) => (Ok None, r, s)
    | (Ok (Some _), r, s) => let '(bs, r) := take_into n r in (Ok (Some bs), r, s)
    end
  else let '(bs, r) := take_into n r in (Ok (Some bs), r, s).

(** [read_exactly]: [got] is the destination written so far; each round takes a byte
    or more, so [n] rounds of fuel are enough. [None] is running out of fuel. *)
Fixpoint read_exactly_loop (fuel n : nat) (got : list ascii) r s :
  option (res unit * list ascii * reader * S) :=
  match fuel with
  | 0 => if decide (length got < n) then None else Some (Ok tt, got, r, s)
  | Datatypes.S fuel' =>
      if decide (length got < n) then
        let step := λ r s, let '(bs, r) := take_into (n - length got) r in
                           read_exactly_loop fuel' n (got ++ bs) r s in
        if decide (buffered r = 0) then
          match fill r s with
          | (Throw e, r, s) => Some (Throw e, got, r, s)
          | (Ok None, r, s) =>
              Some (Throw (IncompleteStreamError (Z.of_nat n) (Z.of_nat (length got))), got, r, s)
          | (Ok (Some _), r, s) => step r s
          end
        else step r s
      else Some (Ok tt, got, r, s)
  end.

Definition read_exactly (n : nat) r s : option (res unit * list ascii * reader * S) :=
  read_exactly_loop n n [] r s.

(** [read_until_owned]; each round fills one byte or more, up to [max_]. *)
Fixpoint read_until_loop (fuel : nat) (delim : list ascii) r s :
  option (res (option (list ascii)) * reader * S) :=
  match fuel with
  | 0 => None
  | Datatypes.S fuel' =>
      match scan delim r with
      | (Some hit, r) =>
          let '(out, r) := take_bytes hit r in
          Some (Ok (Some out), r_advance (length delim) r, s)
      | (None, r) =>
          match fill r s with
          | (Throw e, r, s) => Some (Throw e, r, s)
          | (Ok None, r, s) =>
              if decide (buffered r = 0) then Some (Ok None, r, s)
              else let '(out, r) := take_bytes (buffered r) r in Some (Ok (Some out), r, s)
          | (Ok (Some _), r, s) => read_until_loop fuel' delim r s
          end
      end
  end.

Definition read_until (delim : list ascii) r s : option (res (option (list ascii)) * reader * S) :=
  if decide (delim = []) then Some (Throw InvalidArgument, r, s)
  else read_until_loop (r_max r + 2) delim r s.

(** The line at [nl], its CR cut off, and both ends consumed. *)
Definition take_line (nl : nat) r : list ascii * reader :=
  let content :=
    if bool_decide (0 < nl) && bool_decide (r_base r !! (nl - 1) = Some cr) then nl - 1 else nl in
  let '(out, r) := take_bytes content r in
  (out, r_advance ((nl - content) + 1) r).

Fixpoint read_line_loop (fuel : nat) r s : option (res (option (list ascii)) * reader * S) :=
  match fuel with
  | 0 => None
  | Datatypes.S fuel' =>
      match find_byte lf r with
      | (Some nl, r) => let '(out, r) := take_line nl r in Some (Ok (Some out), r, s)
      | (None, r) =>
          match fill r s with
          | (Throw e, r, s) => Some (Throw e, r, s)
          | (Ok None, r, s) =>
              if decide (buffered r = 0) then Some (Ok None, r, s)
              else let '(out, r) := take_bytes (buffered r) r in Some (Ok (Some out), r, s)
          | (Ok (Some _), r, s) => read_line_loop fuel' r s
          end
      end
  end.

Definition read_line r s : option (res (option (list ascii)) * reader * S) :=
  read_line_loop (r_max r + 2) r s.
End reader_ops.

(** ** The buffer as a byte sequence *)

Record reader_inv (r : reader) : Prop := {
  ri_head : r_head r ≤ r_used r;
  ri_used : r_used r ≤ length (r_buf r);
  ri_max : length (r_buf r) ≤ r_max r;
  ri_pos : 0 < r_max r;
}.

Lemma reader_new_inv n m r : reader_new n m = Ok r → reader_inv r ∧ r_content r = [] ∧ r_scan_mark r = 0 ∧ r_byte_mark r = 0.
Proof.
  unfold reader_new, reader_initial_capacity. repeat case_decide; try done;
    intros [= <-]; (split; [constructor; simpl; rewrite ?length_replicate; lia|done]).
Qed.

Lemma content_length r : reader_inv r → length (r_content r) = buffered r.
Proof.
  intros [? ? ? ?]. unfold r_content, r_base, buffered. rewrite length_take, length_drop. lia.
Qed.

Lemma content_base r n : n ≤ buffered r → take n (r_base r) = take n (r_content r).
Proof. intros. unfold r_content. by rewrite take_take, Nat.min_l. Qed.

(** Whether a pattern occurs at [i] depends on the bytes up to its end only. *)
Lemma match_at_take l d i b : i + length d ≤ b → match_at (take b l) d i = match_at l d i.
Proof. intros. unfold match_at. rewrite skipn_firstn_comm, take_take, Nat.min_l by lia. done. Qed.

Lemma match_at_app l l' d i : i + length d ≤ length l → match_at (l ++ l') d i = match_at l d i.
Proof. intros. by rewrite <- (match_at_take (l ++ l') d i (length l)), take_app_length by lia. Qed.

Lemma match_at_split l d i :
  match_at l d i = true → l = take i l ++ d ++ drop (i + length d) l.
Proof.
  unfold match_at. intros Hm%bool_decide_eq_true. rewrite <- Hm at 1.
  by rewrite <- drop_drop, take_drop, take_drop.
Qed.

Lemma find_from_spec p n i :
  match find_from p n i with
  | Some k => i ≤ k < i + n ∧ p k = true ∧ ∀ j, i ≤ j < k → p j = false
  | None => ∀ j, i ≤ j < i + n → p j = false
  end.
Proof.
  revert i. induction n as [|n IH]; intros i; simpl; [intros; lia|].
  destruct (p i) eqn:Hp; [split_and!; [lia|lia|done|lia]|].
  specialize (IH (S i)). destruct (find_from p n (S i)) as [k|].
  - destruct IH as (? & ? & Hj). split_and!; [lia|lia|done|]. intros j ?.
    destruct (decide (j = i)) as [->|]; [done|apply Hj; lia].
  - intros j ?. destruct (decide (j = i)) as [->|]; [done|apply IH; lia].
Qed.

Lemma take_bytes_spec n r :
  reader_inv r → n ≤ buffered r →
  (take_bytes n r).1 = take n (r_content r) ∧ reader_inv (take_bytes n r).2 ∧
  r_content (take_bytes n r).2 = drop n (r_content r) ∧ buffered (take_bytes n r).2 = buffered r - n.
Proof.
  intros [? ? ? ?] Hn. unfold take_bytes; simpl. split_and!.
  - by apply content_base.
  - unfold buffered in Hn. constructor; simpl; lia.
  - unfold r_content, r_base, buffered; simpl. rewrite <- drop_drop. symmetry.
    rewrite skipn_firstn_comm. f_equal. lia.
  - unfold buffered; simpl. lia.
Qed.

Lemma r_advance_spec n r :
  reader_inv r → n ≤ buffered r →
  reader_inv (r_advance n r) ∧ r_content (r_advance n r) = drop n (r_content r).
Proof.
  intros Hi Hn. destruct (take_bytes_spec n r Hi Hn) as (_ & [? ? ? ?] & Hc & _). split; [by constructor|done].
Qed.

Lemma take_into_spec n r :
  reader_inv r →
  (take_into n r).1 = take n (r_content r) ∧ reader_inv (take_into n r).2 ∧
  r_content (take_into n r).2 = drop n (r_content r).
Proof.
  intros Hi. unfold take_into. pose proof (content_length r Hi) as Hl.
  destruct (decide (buffered r < n)) as [Hlt|Hge].
  - destruct (take_bytes_spec (buffered r) r Hi ltac:(lia)) as (Ht & Hi' & Hc & _).
    unfold take_bytes in *; simpl in *. rewrite Ht, Hc. split_and!; [|done|].
    + rewrite !take_ge by lia. done.
    + rewrite !drop_ge by lia. done.
  - destruct (take_bytes_spec n r Hi ltac:(lia)) as (Ht & Hi' & Hc & _). done.
Qed.

Lemma fill_compacted_spec r :
  reader_inv r →
  let r' := fill_compacted r in
  reader_inv r' ∧ r_content r' = r_content r ∧ r_head r' = 0 ∧ r_used r' = buffered r ∧
  r_max r' = r_max r ∧ r_eof r' = r_eof r ∧
  r_scan_mark r' = r_scan_mark r ∧ r_byte_mark r' = r_byte_mark r.
Proof.
  intros Hi. pose proof (content_length r Hi) as Hl. destruct Hi as [? ? ? ?].
  unfold fill_compacted. case_decide; simpl.
  - assert (take (r_used r - r_head r) (r_base r) = r_content r) as Ht by done.
    rewrite Ht. split_and!; try done.
    + constructor; simpl; rewrite ?length_app, ?length_drop, ?Hl; unfold buffered in *; lia.
    + unfold r_content at 1, r_base, buffered; simpl. rewrite drop_0.
      replace (r_used r - r_head r - 0) with (length (r_content r)) by (unfold buffered in Hl; lia).
      by rewrite take_app_length.
  - unfold buffered. split_and!; try done; lia.
Qed.

Lemma fill_grown_spec r r' :
  reader_inv r → fill_grown r = Ok r' →
  reader_inv r' ∧ r_content r' = r_content r ∧ r_head r' = r_head r ∧ r_used r' = r_used r ∧
  r_used r' < length (r_buf r') ∧ r_max r' = r_max r ∧ r_eof r' = r_eof r ∧
  r_scan_mark r' = r_scan_mark r ∧ r_byte_mark r' = r_byte_mark r.
Proof.
  intros [? ? ? ?]. unfold fill_grown. case_decide as Hs.
  - case_decide as Hm; [done|]. intros [= <-].
    match goal with |- context [replicate ?k nul] => set (more := k) end.
    assert (0 < more ∧ more ≤ r_max r - length (r_buf r)) as [Hp Hle].
    { assert (0 < min_growth) by (unfold min_growth; lia).
      unfold more. generalize dependent min_growth. intros g ? ?. repeat case_decide; lia. }
    split_and!; simpl; try done; rewrite ?length_app, ?length_replicate; [constructor; simpl; rewrite ?length_app, ?length_replicate; lia| |lia].
    unfold r_content, r_base, buffered; simpl.
    rewrite drop_app_le, take_app_le by (rewrite ?length_drop; lia). done.
  - intros [= <-]. split_and!; try done; lia.
Qed.

Lemma fill_grown_throw r e :
  reader_inv r → fill_grown r = Throw e → r_used r = r_max r ∧ e = StreamOverflowError (Z.of_nat (r_max r)).
Proof. intros [? ? ? ?]. unfold fill_grown. repeat case_decide; intros [= <-]. split; [lia|done]. Qed.

Lemma fill_append_spec bs r :
  reader_inv r → length bs ≤ length (r_buf r) - r_used r →
  reader_inv (fill_append bs r) ∧ r_content (fill_append bs r) = r_content r ++ bs ∧
  buffered (fill_append bs r) = buffered r + length bs.
Proof.
  intros [? ? ? ?] Hb. unfold fill_append, buffered; simpl. split_and!.
  - constructor; simpl; rewrite ?length_app, ?length_take, ?length_drop; lia.
  - unfold r_content, r_base, buffered; simpl.
    rewrite drop_app_le by (rewrite length_take; lia).
    rewrite skipn_firstn_comm, (assoc_L (++)).
    rewrite take_app_le by (rewrite length_app, length_take, length_drop; lia).
    apply take_ge. rewrite length_app, length_take, length_drop. lia.
  - lia.
Qed.

(** ** What a refill does *)

Section reader_spec.
Context {S : Type} `{SourceLaws S}.
Implicit Types (r : reader) (s : S).

(** Every byte not yet handed out: the buffer, then the source. *)
Definition pending r s : list ascii := r_content r ++ src_rest s.

Record reader_ok r s : Prop := {
  ro_inv : reader_inv r;
  ro_eof : r_eof r = true → src_rest s = [];
}.

Lemma fill_spec r s o r' s' :
  reader_ok r s → fill r s = (o, r', s') →
  reader_ok r' s' ∧ pending r' s' = pending r s ∧ r_max r' = r_max r ∧
  r_scan_mark r' = r_scan_mark r ∧ r_byte_mark r' = r_byte_mark r ∧
  (∃ bs, r_content r' = r_content r ++ bs ∧
   match o with
   | Ok (Some _) => 0 < length bs ∧ buffered r' = buffered r + length bs
   | Ok None => bs = [] ∧ r_eof r' = true ∧ src_rest s' = []
   | Throw _ => bs = [] ∧ r_eof r' = false
   end).
Proof.
  intros [Hi He]. unfold fill. destruct (r_eof r) eqn:Heof.
  { intros [= <- <- <-]. split_and!; try done; [by split; [|intros; apply He]|].
    exists []. rewrite app_nil_r. naive_solver. }
  destruct (fill_compacted_spec r Hi) as (Hi1 & Hc1 & Hh1 & Hu1 & Hm1 & He1 & Hs1 & Hb1).
  set (r1 := fill_compacted r) in *. clearbody r1.
  destruct (fill_grown r1) as [r2|e] eqn:Hg.
  2:{ intros [= <- <- <-]. unfold pending. rewrite Hc1.
      split_and!; try done; [split; [done|congruence]|].
      exists []. rewrite app_nil_r. split_and!; [done|done|congruence]. }
  destruct (fill_grown_spec r1 r2 Hi1 Hg) as (Hi2 & Hc2 & Hh2 & Hu2 & Hroom & Hm2 & He2 & Hs2 & Hb2).
  assert (r_content r2 = r_content r) as Hc by (by rewrite Hc2, Hc1).
  assert (r_max r2 = r_max r) as Hm by (by rewrite Hm2, Hm1).
  assert (r_scan_mark r2 = r_scan_mark r) as Hs by (by rewrite Hs2, Hs1).
  assert (r_byte_mark r2 = r_byte_mark r) as Hb by (by rewrite Hb2, Hb1).
  assert (r_eof r2 = false) as He3 by (by rewrite He2, He1).
  assert (buffered r2 = buffered r) as Hbu by (unfold buffered at 1; rewrite Hu2, Hh2, Hu1, Hh1; lia).
  clear Hc2 Hc1 Hm2 Hm1 Hs2 Hs1 Hb2 Hb1 He2 He1 Hh2 Hh1 Hu2 Hu1 Hg.
  assert (∀ s2, src_rest s2 = src_rest s →
    reader_ok r2 s2 ∧ pending r2 s2 = pending r s ∧ r_max r2 = r_max r ∧
    r_scan_mark r2 = r_scan_mark r ∧ r_byte_mark r2 = r_byte_mark r ∧
    ∃ bs, r_content r2 = r_content r ++ bs ∧ bs = [] ∧ r_eof r2 = false) as Hfail.
  { intros s2 Hr2. unfold pending. rewrite Hc, Hr2.
    split_and!; try done; [split; [done|by rewrite He3]|].
    exists []. by rewrite app_nil_r. }
  destruct (src_read (length (r_buf r2) - r_used r2) s) as [[bs| |e] s2] eqn:Hr.
  - destruct (src_data _ _ _ _ Hr) as (Hlen & Hrest & Hend).
    destruct bs as [|b bs].
    + intros [= <- <- <-]. simpl in Hrest. specialize (Hend ltac:(lia) eq_refl).
      rewrite Hend in Hrest. split_and!; try done.
      * destruct Hi2. split; [by constructor|done].
      * unfold pending. rewrite <- Hrest, Hend. f_equal. exact Hc.
      * exists []. rewrite app_nil_r. by split_and!.
    + intros [= <- <- <-]. destruct (fill_append_spec (b :: bs) r2 Hi2 Hlen) as (Hi3 & Hc3 & Hb3).
      split_and!; try done.
      * split; [done|]. by unfold fill_append; simpl; rewrite He3.
      * unfold pending. by rewrite Hc3, Hc, Hrest, (assoc_L (++)).
      * exists (b :: bs). rewrite Hc3, Hb3, Hc, Hbu. split_and!; [done|simpl; lia|done].
  - intros [= <- <- <-]. apply Hfail. by apply src_fail in Hr.
  - intros [= <- <- <-]. apply Hfail. by apply src_throw in Hr.
Qed.

Lemma take_into_pending n r s :
  reader_ok r s →
  reader_ok (take_into n r).2 s ∧ pending r s = (take_into n r).1 ++ pending (take_into n r).2 s ∧
  length (take_into n r).1 = n `min` buffered r ∧ r_eof (take_into n r).2 = r_eof r.
Proof.
  intros [Hi He]. destruct (take_into_spec n r Hi) as (Ht & Hi' & Hc).
  split_and!; [by split| | |done].
  - unfold pending. by rewrite Ht, Hc, (assoc_L (++)), take_drop.
  - by rewrite Ht, length_take, content_length.
Qed.

Lemma read_exactly_loop_spec fuel n got r s :
  reader_ok r s → length got ≤ n → n - length got ≤ fuel →
  ∃ o got' r' s', read_exactly_loop fuel n got r s = Some (o, got ++ got', r', s') ∧
    reader_ok r' s' ∧ pending r s = got' ++ pending r' s' ∧
    match o with
    | Ok _ => length (got ++ got') = n
    | Throw e => length (got ++ got') < n ∧
        (r_eof r' = true → pending r' s' = [] ∧
           e = IncompleteStreamError (Z.of_nat n) (Z.of_nat (length (got ++ got'))))
    end.
Proof.
  revert got r s. induction fuel as [|fuel IH]; intros got r s Hok Hg Hf; simpl.
  { rewrite decide_False by lia. exists (Ok tt), [], r, s. rewrite app_nil_r. split_and!; (done || lia). }
  case_decide as Hlt.
  2:{ exists (Ok tt), [], r, s. rewrite app_nil_r. split_and!; (done || lia). }
  assert (∀ r1 s1, reader_ok r1 s1 → pending r1 s1 = pending r s → 0 < buffered r1 →
    ∃ o got' r' s', (let '(bs, r2) := take_into (n - length got) r1 in
        read_exactly_loop fuel n (got ++ bs) r2 s1) = Some (o, got ++ got', r', s') ∧
    reader_ok r' s' ∧ pending r s = got' ++ pending r' s' ∧
    match o with
    | Ok _ => length (got ++ got') = n
    | Throw e => length (got ++ got') < n ∧
        (r_eof r' = true → pending r' s' = [] ∧
           e = IncompleteStreamError (Z.of_nat n) (Z.of_nat (length (got ++ got'))))
    end) as Hstep.
  { intros r1 s1 Hok1 Hp1 Hb1. destruct (take_into_pending (n - length got) r1 s1 Hok1) as (Hok2 & Hp2 & Hl2 & _).
    destruct (take_into (n - length got) r1) as [bs r2]; simpl in *.
    destruct (IH (got ++ bs) r2 s1 Hok2) as (o & got' & r' & s' & Hrun & Hok' & Hp' & Ho);
      [rewrite length_app; lia..|].
    exists o, (bs ++ got'), r', s'. rewrite (assoc_L (++)), Hrun. split_and!; [done|done| |done].
    by rewrite <- Hp1, Hp2, Hp', (assoc_L (++)). }
  case_decide as Hb; [|apply Hstep; [done|done|lia]].
  destruct (fill r s) as [[o r1] s1] eqn:Hfill.
  destruct (fill_spec r s o r1 s1 Hok Hfill) as (Hok1 & Hp1 & _ & _ & _ & bs & Hc & Hcase).
  destruct o as [[k|]|e].
  - apply Hstep; [done|done|lia].
  - destruct Hcase as (-> & He & Hr).
    exists (Throw (IncompleteStreamError (Z.of_nat n) (Z.of_nat (length got)))), [], r1, s1.
    rewrite app_nil_r. split_and!; [done|done|done|lia|]. intros _. split; [|done].
    unfold pending. rewrite Hr, Hc, !app_nil_r. apply nil_length_inv. rewrite content_length; [done|apply Hok].
  - destruct Hcase as (-> & He). exists (Throw e), [], r1, s1. rewrite app_nil_r.
    split_and!; [done|done|done|lia|]. by rewrite He.
Qed.

(** [read_exactly] hands out the next [n] bytes of the stream, in order and without
    losing or repeating any, or fails; what it read before failing is the prefix of
    those bytes, and at the end of the stream the error carries the two counts. *)
Theorem read_exactly_spec n r s :
  reader_ok r s →
  ∃ o got r' s', read_exactly n r s = Some (o, got, r', s') ∧
    reader_ok r' s' ∧ pending r s = got ++ pending r' s' ∧
    match o with
    | Ok _ => length got = n
    | Throw e => length got < n ∧
        (r_eof r' = true → pending r' s' = [] ∧
           e = IncompleteStreamError (Z.of_nat n) (Z.of_nat (length got)))
    end.
Proof. intros Hok. apply (read_exactly_loop_spec n n [] r s Hok); simpl; lia. Qed.

(** ** Delimiters *)

(** Nothing below the mark, and below the end of the buffer, starts a delimiter. *)
Definition scan_mark_ok (delim : list ascii) r : Prop :=
  ∀ i, i < r_scan_mark r → i + length delim ≤ buffered r ∧ match_at (r_content r) delim i = false.

Lemma scan_mark_ok_0 delim r : r_scan_mark r = 0 → scan_mark_ok delim r.
Proof. intros Hz i Hi. lia. Qed.

Lemma scan_spec delim r :
  reader_inv r → delim ≠ [] → scan_mark_ok delim r →
  match scan delim r with
  | (Some i, r') => r' = r ∧ r_scan_mark r ≤ i ∧ i + length delim ≤ buffered r ∧
      match_at (r_content r) delim i = true ∧ ∀ j, j < i → match_at (r_content r) delim j = false
  | (None, r') => reader_inv r' ∧ r_content r' = r_content r ∧ buffered r' = buffered r ∧
      r_max r' = r_max r ∧ r_eof r' = r_eof r ∧ scan_mark_ok delim r' ∧
      ∀ j, j + length delim ≤ buffered r → match_at (r_content r) delim j = false
  end.
Proof.
  intros Hi Hd Hm. unfold scan. rewrite bool_decide_eq_false_2 by done. simpl.
  case_bool_decide as Hs; simpl.
  { split_and!; try done. intros; lia. }
  set (left := buffered r - length delim).
  assert (∀ j, j ≤ left → match_at (r_base r) delim j = match_at (r_content r) delim j) as Heq.
  { intros j Hj. unfold r_content. by rewrite match_at_take by lia. }
  assert (r_scan_mark r ≤ left + 1) as Hml.
  { destruct (r_scan_mark r) as [|m] eqn:Hrm; [lia|]. destruct (Hm m ltac:(lia)). lia. }
  set (start := if decide (r_scan_mark r < left) then r_scan_mark r else left).
  assert (start ≤ left ∧ start ≤ r_scan_mark r) as [Hst Hst2] by (unfold start; case_decide; lia).
  pose proof (find_from_spec (match_at (r_base r) delim) (left + 1 - start) start) as Hf.
  assert (∀ j, j < start → match_at (r_content r) delim j = false) as Hlow by (intros; apply Hm; lia).
  destruct (find_from _ _ _) as [i|].
  - destruct Hf as (Hr & Hp & Hj). rewrite Heq in Hp by lia.
    assert (∀ j, j < i → match_at (r_content r) delim j = false) as Hall.
    { intros j ?. destruct (decide (j < start)); [by apply Hlow|]. rewrite <- Heq by lia. apply Hj; lia. }
    split_and!; [done| |lia|done|done].
    destruct (decide (r_scan_mark r ≤ i)); [done|]. destruct (Hm i ltac:(lia)). congruence.
  - assert (∀ j, j + length delim ≤ buffered r → match_at (r_content r) delim j = false) as Hall.
    { intros j ?. destruct (decide (j < start)); [by apply Hlow|]. rewrite <- Heq by lia. apply Hf; lia. }
    destruct Hi. split_and!; try done. intros j Hj. simpl in Hj. split; [|apply Hall]; unfold buffered; simpl; unfold buffered in *; lia.
Qed.

(** Handing out the buffer up to a delimiter, and skipping it. *)
Lemma take_delim_pending delim i r s :
  reader_ok r s → i + length delim ≤ buffered r → match_at (r_content r) delim i = true →
  reader_ok (r_advance (length delim) (take_bytes i r).2) s ∧
  pending r s = (take_bytes i r).1 ++ delim ++ pending (r_advance (length delim) (take_bytes i r).2) s.
Proof.
  intros [Hi He] Hb Hm. destruct (take_bytes_spec i r Hi ltac:(lia)) as (Ht & Hi1 & Hc1 & Hb1).
  destruct (r_advance_spec (length delim) (take_bytes i r).2 Hi1 ltac:(lia)) as (Hi2 & Hc2).
  split; [by split|]. unfold pending. rewrite Ht, Hc2, Hc1, drop_drop.
  rewrite (match_at_split _ _ _ Hm) at 1. by rewrite <- !(assoc_L (++)).
Qed.

Lemma take_rest_pending r s :
  reader_ok r s → src_rest s = [] →
  reader_ok (take_bytes (buffered r) r).2 s ∧ pending r s = (take_bytes (buffered r) r).1 ∧
  pending (take_bytes (buffered r) r).2 s = [].
Proof.
  intros [Hi He] Hr. destruct (take_bytes_spec (buffered r) r Hi ltac:(lia)) as (Ht & Hi1 & Hc1 & _).
  pose proof (content_length r Hi) as Hl.
  split_and!; [by split| |]; unfold pending; rewrite Hr, ?Ht, ?Hc1, app_nil_r.
  - by rewrite take_ge by lia.
  - by rewrite drop_ge by lia.
Qed.

Definition no_match (delim l : list ascii) : Prop :=
  ∀ j, j + length delim ≤ length l → match_at l delim j = false.

Lemma scan_mark_ok_app delim r r' bs :
  reader_inv r → scan_mark_ok delim r → r_scan_mark r' = r_scan_mark r → r_content r' = r_content r ++ bs →
  buffered r ≤ buffered r' → scan_mark_ok delim r'.
Proof.
  intros Hi Hm Hs Hc Hb i Hlt. rewrite Hs in Hlt. destruct (Hm i Hlt) as [Hle Hf].
  split; [lia|]. rewrite Hc, match_at_app; [done|]. by rewrite content_length.
Qed.

Lemma read_until_loop_spec fuel delim r s :
  reader_ok r s → delim ≠ [] → scan_mark_ok delim r → r_max r - buffered r + 1 < fuel →
  ∃ o r' s', read_until_loop fuel delim r s = Some (o, r', s') ∧ reader_ok r' s' ∧
    match o with
    | Ok (Some out) => r_scan_mark r' = 0 ∧
        ((pending r s = out ++ delim ++ pending r' s' ∧
          ∀ j, j < length out → match_at (pending r s) delim j = false) ∨
         (out ≠ [] ∧ pending r s = out ∧ pending r' s' = [] ∧ no_match delim out))
    | Ok None => pending r s = [] ∧ pending r' s' = []
    | Throw _ => pending r' s' = pending r s
    end.
Proof.
  revert r s. induction fuel as [|fuel IH]; intros r s Hok Hd Hm Hf; [lia|]. simpl.
  pose proof Hok as [Hi He]. pose proof (scan_spec delim r Hi Hd Hm) as Hscan.
  destruct (scan delim r) as [[hit|] r1].
  - destruct Hscan as (-> & Hmk & Hend & Hmatch & Hfirst).
    destruct (take_delim_pending delim hit r s Hok Hend Hmatch) as (Hok' & Hp').
    assert (length (take_bytes hit r).1 = hit) as Hlen.
    { destruct (take_bytes_spec hit r Hi ltac:(lia)) as (Ht & _). rewrite Ht, length_take, content_length by done. lia. }
    assert (r_scan_mark (r_advance (length delim) (take_bytes hit r).2) = 0) as Hz by (simpl; case_decide; lia).
    exists (Ok (Some (take_bytes hit r).1)), (r_advance (length delim) (take_bytes hit r).2), s. split_and!; [reflexivity|exact Hok'|exact Hz|].
    left. split; [done|]. intros j Hj. unfold pending. rewrite match_at_app; [apply Hfirst; lia|].
    rewrite content_length by done. lia.
  - destruct Hscan as (Hi1 & Hc1 & Hb1 & Hmx1 & He1 & Hm1 & Hnone).
    destruct (fill r1 s) as [[o r2] s2] eqn:Hfill.
    assert (reader_ok r1 s) as Hok1 by (split; [done|intros; apply He; congruence]).
    destruct (fill_spec r1 s o r2 s2 Hok1 Hfill) as (Hok2 & Hp2 & Hmx2 & Hs2 & _ & bs & Hc2 & Hcase).
    assert (pending r2 s2 = pending r s) as Hp by (rewrite Hp2; unfold pending; by rewrite Hc1).
    destruct o as [[k|]|e].
    + destruct Hcase as (Hpos & Hb2).
      destruct (IH r2 s2 Hok2 Hd) as (o & r' & s' & Hrun & Hok' & Ho).
      { eapply (scan_mark_ok_app delim r1); (done || lia). }
      { pose proof Hok2 as [[? ? ? ?] _]. unfold buffered in *. lia. }
      exists o, r', s'. rewrite Hp in Ho. done.
    + destruct Hcase as (-> & He2 & Hr2). rewrite app_nil_r in Hc2.
      destruct (take_rest_pending r2 s2 Hok2 Hr2) as (Hok3 & Hp3 & Hp4).
      pose proof Hok2 as [Hi2 _]. pose proof (content_length r2 Hi2) as Hl2.
      pose proof (content_length r Hi) as Hl. rewrite Hc2, Hc1 in Hl2.
      case_decide as Hb.
      * exists (Ok None), r2, s2. split_and!; [done|done| |]; rewrite <- ?Hp; unfold pending;
          rewrite Hr2, Hc2, Hc1, app_nil_r; apply nil_length_inv; lia.
      * assert (r_scan_mark (take_bytes (buffered r2) r2).2 = 0) as Hz.
        { simpl. case_decide as Hgt; [|done]. rewrite Hs2 in Hgt.
          destruct (Hm1 (buffered r2) Hgt). destruct delim; [done|]. simpl in *. lia. }
        assert (pending r2 s2 = r_content r) as Hpc by (unfold pending; by rewrite Hr2, app_nil_r, Hc2, Hc1).
        exists (Ok (Some (take_bytes (buffered r2) r2).1)), (take_bytes (buffered r2) r2).2, s2. split_and!; [reflexivity|exact Hok3|exact Hz|]. right.
        rewrite <- Hp3, Hpc. split_and!; [|by rewrite <- Hp|exact Hp4|].
        { intros Hn. rewrite Hn in Hl2. simpl in Hl2. lia. }
        intros j Hj. apply Hnone. lia.
    + destruct Hcase as (-> & _). exists (Throw e), r2, s2. done.
Qed.


(** ** Lines *)

Definition strip_cr (l : list ascii) : list ascii :=
  if decide (last l = Some cr) then take (length l - 1) l else l.

Definition byte_mark_ok r : Prop :=
  ∀ i, i < r_byte_mark r → i < buffered r ∧ r_content r !! i ≠ Some lf.

Lemma content_lookup r i : reader_inv r → i < buffered r → r_base r !! i = r_content r !! i.
Proof. intros Hi Hb. unfold r_content. by rewrite lookup_take_lt. Qed.

Lemma find_byte_spec r :
  reader_inv r → byte_mark_ok r →
  match find_byte lf r with
  | (Some i, r') => r' = r ∧ r_byte_mark r ≤ i ∧ i < buffered r ∧
      r_content r !! i = Some lf ∧ lf ∉ take i (r_content r)
  | (None, r') => reader_inv r' ∧ r_content r' = r_content r ∧ buffered r' = buffered r ∧
      r_max r' = r_max r ∧ r_eof r' = r_eof r ∧ r_scan_mark r' = r_scan_mark r ∧
      byte_mark_ok r' ∧ lf ∉ r_content r
  end.
Proof.
  intros Hi Hm. unfold find_byte.
  assert (r_byte_mark r ≤ buffered r) as Hle.
  { destruct (r_byte_mark r) as [|m] eqn:Hrm; [lia|]. destruct (Hm m ltac:(lia)). lia. }
  set (start := if decide (r_byte_mark r < buffered r) then r_byte_mark r else buffered r).
  assert (start = r_byte_mark r) as -> by (unfold start; case_decide; lia).
  pose proof (find_from_spec (λ i, bool_decide (r_base r !! i = Some lf)) (buffered r - r_byte_mark r) (r_byte_mark r)) as Hf.
  destruct (find_from _ _ _) as [i|].
  - destruct Hf as (Hr & Hp & Hj). apply bool_decide_eq_true in Hp. rewrite content_lookup in Hp by (done || lia).
    split_and!; [done|lia|lia|done|]. intros (k & Hk)%list_elem_of_lookup.
    apply lookup_take_Some in Hk as [Hk Hlt].
    destruct (decide (k < r_byte_mark r)) as [Hkm|]; [by apply (Hm k Hkm)|].
    specialize (Hj k ltac:(lia)). apply bool_decide_eq_false in Hj. rewrite content_lookup in Hj by (done || lia). done.
  - assert (lf ∉ r_content r) as Hno.
    { intros (k & Hk)%list_elem_of_lookup. pose proof (lookup_lt_Some _ _ _ Hk) as Hlt.
      rewrite content_length in Hlt by done.
      destruct (decide (k < r_byte_mark r)) as [Hkm|]; [by apply (Hm k Hkm)|].
      specialize (Hf k ltac:(lia)). apply bool_decide_eq_false in Hf. rewrite content_lookup in Hf by (done || lia). done. }
    destruct Hi. split_and!; try done. intros j Hj. split; [exact Hj|].
    intros Hlf. apply Hno, list_elem_of_lookup. by exists j.
Qed.

Lemma take_line_spec nl r s :
  reader_ok r s → r_content r !! nl = Some lf → r_byte_mark r ≤ nl →
  let l := take nl (r_content r) in
  (take_line nl r).1 = strip_cr l ∧ reader_ok (take_line nl r).2 s ∧
  pending r s = l ++ [lf] ++ pending (take_line nl r).2 s ∧
  (r_byte_mark (take_line nl r).2 = 0 ∨ r_byte_mark (take_line nl r).2 = 1 ∧ last l = Some cr).
Proof.
  intros Hok Hlf Hmk l. pose proof Hok as [Hi He].
  pose proof (lookup_lt_Some _ _ _ Hlf) as Hlt. pose proof (content_length r Hi) as Hlen. rewrite Hlen in Hlt.
  assert (length l = nl) as Hll by (unfold l; rewrite length_take; lia).
  assert (pending r s = l ++ [lf] ++ drop (nl + 1) (r_content r) ++ src_rest s) as Hp.
  { unfold pending. rewrite <- (take_drop_middle _ _ _ Hlf) at 1. unfold l.
    rewrite <- (assoc_L (++)). by rewrite Nat.add_1_r. }
  assert (∀ c, c ≤ nl → (take_bytes c r).1 = take c l ∧
    reader_ok (r_advance (nl - c + 1) (take_bytes c r).2) s ∧
    pending (r_advance (nl - c + 1) (take_bytes c r).2) s = drop (nl + 1) (r_content r) ++ src_rest s) as Hc.
  { intros c Hcl. destruct (take_bytes_spec c r Hi ltac:(lia)) as (Ht & Hi1 & Hc1 & Hb1).
    destruct (r_advance_spec (nl - c + 1) (take_bytes c r).2 Hi1 ltac:(lia)) as (Hi2 & Hc2).
    split_and!; [|by split|].
    - rewrite Ht. unfold l. rewrite take_take. f_equal. lia.
    - unfold pending. rewrite Hc2, Hc1, drop_drop. do 2 f_equal. lia. }
  assert (0 < nl → r_base r !! (nl - 1) = last l) as Hlast.
  { intros. rewrite last_lookup, Hll, content_lookup by (done || lia).
    replace (Init.Nat.pred nl) with (nl - 1) by lia. unfold l. by rewrite lookup_take_lt by lia. }
  unfold take_line, strip_cr. rewrite Hll.
  destruct (bool_decide (0 < nl) && bool_decide (r_base r !! (nl - 1) = Some cr)) eqn:Hb; simpl.
  - apply andb_prop in Hb as [Hn%bool_decide_eq_true Hcr%bool_decide_eq_true]. rewrite Hlast in Hcr by done. rewrite decide_True by done.
    destruct (Hc (nl - 1) ltac:(lia)) as (H1 & H2 & H3). split_and!; [exact H1|exact H2| |].
    + rewrite Hp. do 2 f_equal. by symmetry.
    + case_decide; [|by left]. destruct (decide (r_byte_mark r - (nl - 1) = 0)); [by left|]. right. split; [lia|done].
  - assert (last l ≠ Some cr) as Hncr.
    { intros Hcr. destruct (decide (nl = 0)) as [->|]; [done|]. rewrite Hlast, Hcr in Hb by lia.
      rewrite !bool_decide_eq_true_2 in Hb by (done || lia). done. }
    rewrite decide_False by done. destruct (Hc nl ltac:(lia)) as (H1 & H2 & H3). split_and!; [|exact H2| |].
    + rewrite take_ge in H1 by lia. exact H1.
    + rewrite Hp. do 2 f_equal. by symmetry.
    + left. simpl. by rewrite decide_False by lia.
Qed.

Lemma read_line_loop_spec fuel r s :
  reader_ok r s → byte_mark_ok r → r_max r - buffered r + 1 < fuel →
  ∃ o r' s', read_line_loop fuel r s = Some (o, r', s') ∧ reader_ok r' s' ∧
    match o with
    | Ok (Some out) =>
        (∃ l, pending r s = l ++ [lf] ++ pending r' s' ∧ lf ∉ l ∧ out = strip_cr l ∧
           (r_byte_mark r' = 0 ∨ r_byte_mark r' = 1 ∧ last l = Some cr)) ∨
        (out ≠ [] ∧ pending r s = out ∧ pending r' s' = [] ∧ lf ∉ out)
    | Ok None => pending r s = [] ∧ pending r' s' = []
    | Throw _ => pending r' s' = pending r s
    end.
Proof.
  revert r s. induction fuel as [|fuel IH]; intros r s Hok Hm Hf; [lia|]. cbn [read_line_loop].
  pose proof Hok as [Hi He]. pose proof (find_byte_spec r Hi Hm) as Hfind.
  destruct (find_byte lf r) as [[nl|] r1].
  - destruct Hfind as (-> & Hmk & Hend & Hlf & Hno).
    destruct (take_line_spec nl r s Hok Hlf Hmk) as (H1 & H2 & H3 & H4).
    destruct (take_line nl r) as [out r2]; simpl in *.
    exists (Ok (Some out)), r2, s. split_and!; [done|done|]. left. by exists (take nl (r_content r)).
  - destruct Hfind as (Hi1 & Hc1 & Hb1 & Hmx1 & He1 & _ & Hm1 & Hnone).
    destruct (fill r1 s) as [[o r2] s2] eqn:Hfill.
    assert (reader_ok r1 s) as Hok1 by (split; [done|intros; apply He; congruence]).
    destruct (fill_spec r1 s o r2 s2 Hok1 Hfill) as (Hok2 & Hp2 & Hmx2 & _ & Hbm2 & bs & Hc2 & Hcase).
    assert (pending r2 s2 = pending r s) as Hp by (rewrite Hp2; unfold pending; by rewrite Hc1).
    destruct o as [[k|]|e].
    + destruct Hcase as (Hpos & Hb2).
      destruct (IH r2 s2 Hok2) as (o & r' & s' & Hrun & Hok' & Ho).
      { intros i Hlt. rewrite Hbm2 in Hlt. destruct (Hm1 i Hlt) as [Hle Hn]. split; [lia|].
        rewrite Hc2, lookup_app_l; [done|]. by rewrite content_length. }
      { pose proof Hok2 as [[? ? ? ?] _]. unfold buffered in *. lia. }
      exists o, r', s'. rewrite Hp in Ho. done.
    + destruct Hcase as (-> & He2 & Hr2). rewrite app_nil_r in Hc2.
      destruct (take_rest_pending r2 s2 Hok2 Hr2) as (Hok3 & Hp3 & Hp4).
      pose proof Hok2 as [Hi2 _]. pose proof (content_length r2 Hi2) as Hl2. rewrite Hc2, Hc1 in Hl2.
      assert (pending r2 s2 = r_content r) as Hpc by (unfold pending; by rewrite Hr2, app_nil_r, Hc2, Hc1).
      case_decide as Hb.
      * assert (r_content r = []) as Hnil by (apply nil_length_inv; lia).
        exists (Ok None), r2, s2. rewrite <- Hp, Hpc, Hnil. done.
      * destruct (take_bytes (buffered r2) r2) as [out r3]; simpl in *.
        assert (out = r_content r) as -> by congruence.
        exists (Ok (Some (r_content r))), r3, s2. split_and!; [done|done|]. right.
        split_and!; [|congruence|done|done]. intros Hn. rewrite Hn in Hl2. simpl in Hl2. lia.
    + destruct Hcase as (-> & _). exists (Throw e), r2, s2. done.
Qed.

(** [read_line] on a reader with no stale mark returns the bytes up to the first
    line feed of the stream without their final carriage return, consumes the line
    end, and leaves the rest available; an unfinished last line is returned whole, an
    error loses no byte, and the loop stops.  The mark it leaves behind is zero, or
    one when a carriage return was cut off. *)
Theorem read_line_spec r s :
  reader_ok r s → r_byte_mark r = 0 →
  ∃ o r' s', read_line r s = Some (o, r', s') ∧ reader_ok r' s' ∧
    match o with
    | Ok (Some out) =>
        (∃ l, pending r s = l ++ [lf] ++ pending r' s' ∧ lf ∉ l ∧ out = strip_cr l ∧
           (r_byte_mark r' = 0 ∨ r_byte_mark r' = 1 ∧ last l = Some cr)) ∨
        (out ≠ [] ∧ pending r s = out ∧ pending r' s' = [] ∧ lf ∉ out)
    | Ok None => pending r s = [] ∧ pending r' s' = []
    | Throw _ => pending r' s' = pending r s
    end.
Proof.
  intros Hok Hm. apply read_line_loop_spec; [done| |lia]. intros i Hi. lia.
Qed.

(** With a mark of one left behind, a line feed that comes first is not seen. *)
Lemma read_line_stale_mark r s l t :
  reader_ok r s → r_byte_mark r = 1 → r_content r = lf :: l ++ lf :: t → lf ∉ l →
  ∃ r', read_line r s = Some (Ok (Some (strip_cr (lf :: l))), r', s) ∧ r_content r' = t.
Proof.
  intros Hok Hm Hc Hl. pose proof Hok as [Hi He].
  pose proof (content_length r Hi) as Hlen. rewrite Hc in Hlen. simpl in Hlen. rewrite length_app in Hlen. simpl in Hlen.
  set (n := 1 + length l). assert (n = 1 + length l) as Hn by done. clearbody n.
  assert (r_content r !! n = Some lf) as Hlf.
  { rewrite Hc, Hn. simpl. by rewrite lookup_app_r, Nat.sub_diag by lia. }
  assert (find_byte lf r = (Some (n), r)) as Hfind.
  { unfold find_byte. rewrite Hm, decide_True by lia.
    pose proof (find_from_spec (λ i, bool_decide (r_base r !! i = Some lf)) (buffered r - 1) 1) as Hf.
    destruct (find_from _ _ _) as [i|].
    - destruct Hf as (Hr & Hp & Hj). apply bool_decide_eq_true in Hp. rewrite content_lookup in Hp by (done || lia).
      do 3 f_equal. destruct (decide (i = n)); [done|]. exfalso.
      destruct (decide (i < n)).
      + destruct i as [|i]; [lia|]. rewrite Hc in Hp. simpl in Hp. rewrite lookup_app_l in Hp by lia.
        apply Hl. by eapply list_elem_of_lookup_2.
      + specialize (Hj (n) ltac:(lia)). apply bool_decide_eq_false in Hj.
        rewrite content_lookup in Hj by (done || lia). done.
    - specialize (Hf (n) ltac:(lia)). apply bool_decide_eq_false in Hf.
      rewrite content_lookup in Hf by (done || lia). done. }
  destruct (take_line_spec (n) r s Hok Hlf ltac:(lia)) as (H1 & H2 & H3 & _).
  unfold read_line. rewrite Nat.add_comm. cbn [Nat.add read_line_loop]. rewrite Hfind.
  assert (take (n) (r_content r) = lf :: l) as Ht by (rewrite Hc, Hn; simpl; by rewrite take_app_length).
  rewrite Ht in H1, H3. destruct (take_line (n) r) as [out r2]; simpl in *.
  exists r2. split; [by rewrite H1|]. unfold pending in H3. rewrite Hc in H3. simpl in H3.
  rewrite <- !(assoc_L (++)) in H3. simplify_list_eq. done.
Qed.
End reader_spec.

(** ** The writer *)

(** One awaited [write]: a count, a negative count, or an exception. *)
Inductive write_result : Type :=
  | WrCount (n : nat)
  | WrFail
  | WrThrow (e : exn).

Class Sink (S : Type) : Type := {
  snk_write : list ascii → S → write_result * S;
  snk_log : S → list ascii;       (* the bytes the peer got *)
}.

Class SinkLaws (S : Type) `{Sink S} : Prop := {
  snk_count bs s n s' : snk_write bs s = (WrCount n, s') →
    n ≤ length bs ∧ snk_log s' = snk_log s ++ take n bs;
  snk_fail bs s s' : snk_write bs s = (WrFail, s') → snk_log s' = snk_log s;
  snk_throw bs s e s' : snk_write bs s = (WrThrow e, s') → snk_log s' = snk_log s;
}.

Section writer.
Context {S : Type} `{Sink S}.
Implicit Types (s : S).

(** [write_all]: [done] bytes are written; each round writes one or more. *)
Fixpoint write_all_loop (fuel : nat) (data : list ascii) (done : nat) s : option (res bool * S) :=
  match fuel with
  | 0 => if decide (done < length data) then None else Some (Ok true, s)
  | Datatypes.S fuel' =>
      if decide (done < length data) then
        match snk_write (drop done data) s with
        | (WrThrow e, s) => Some (Throw e, s)
        | (WrFail, s) => Some (Throw SystemError, s)
        | (WrCount 0, s) => Some (Ok false, s)
        | (WrCount written, s) => write_all_loop fuel' data (done + written) s
        end
      else Some (Ok true, s)
  end.

Definition write_all (data : list ascii) s : option (res bool * S) :=
  write_all_loop (length data) data 0 s.

Definition write_line (data : list ascii) s : option (res bool * S) := write_all (data ++ [lf]) s.

Context `{!SinkLaws S}.

Lemma write_all_loop_spec fuel data done s :
  done ≤ length data → length data - done ≤ fuel →
  ∃ o s' k, write_all_loop fuel data done s = Some (o, s') ∧ done ≤ k ∧ k ≤ length data ∧
    snk_log s' = snk_log s ++ take (k - done) (drop done data) ∧
    (o = Ok true ↔ k = length data).
Proof.
  revert done s. induction fuel as [|fuel IH]; intros done s Hd Hf; simpl.
  { rewrite decide_False by lia. exists (Ok true), s, done. rewrite Nat.sub_diag, app_nil_r.
    split_and!; (reflexivity || lia || (split; [lia|done])). }
  case_decide as Hlt.
  2:{ exists (Ok true), s, done. rewrite Nat.sub_diag, app_nil_r.
      split_and!; (reflexivity || lia || (split; [lia|done])). }
  assert (∀ o s', o ≠ Ok true → snk_log s' = snk_log s → ∃ o' s'' k, Some (o, s') = Some (o', s'') ∧ done ≤ k ∧ k ≤ length data ∧
    snk_log s'' = snk_log s ++ take (k - done) (drop done data) ∧ (o' = Ok true ↔ k = length data)) as Hstop.
  { intros o s' Ho Hlog. exists o, s', done. rewrite Nat.sub_diag, app_nil_r.
    split_and!; [reflexivity|lia|lia|exact Hlog|]. split; [by intros|lia]. }
  destruct (snk_write (drop done data) s) as [[n| |e] s1] eqn:Hw.
  - destruct (snk_count _ _ _ _ Hw) as [Hn Hlog]. rewrite length_drop in Hn.
    destruct n as [|n]; [apply Hstop; [done|]; by rewrite Hlog, app_nil_r|].
    destruct (IH (done + Datatypes.S n) s1) as (o & s' & k & Hrun & Hk1 & Hk2 & Hlog' & Ho); [lia|lia|].
    exists o, s', k. split_and!; [done|lia|lia| |done].
    rewrite Hlog', Hlog, <- (assoc_L (++)). f_equal. rewrite <- drop_drop.
    replace (k - done) with (Datatypes.S n + (k - (done + Datatypes.S n))) by lia.
    by rewrite take_take_drop.
  - apply snk_fail in Hw. by apply Hstop.
  - apply snk_throw in Hw. by apply Hstop.
Qed.

(** [write_all] answers [true] exactly when the peer got all the bytes, in order
    and once; when it stops early (a zero-byte write, an error, a cancellation) the
    peer got a strict prefix; it always stops. *)
Theorem write_all_spec data s :
  ∃ o s' k, write_all data s = Some (o, s') ∧ k ≤ length data ∧
    snk_log s' = snk_log s ++ take k data ∧ (o = Ok true ↔ k = length data).
Proof.
  destruct (write_all_loop_spec (length data) data 0 s) as (o & s' & k & Hrun & _ & Hk & Hlog & Ho); [lia|lia|].
  rewrite Nat.sub_0_r, drop_0 in Hlog. by exists o, s', k.
Qed.
End writer.

(** ** A scripted source: the chunks the peer sends *)

#[export] Instance chunk_source : Source (list (list ascii)) := {|
  src_read n s :=
    match filter (λ c, c ≠ []) s with
    | [] => (RdData [], [])
    | c :: rest => (RdData (take n c), drop n c :: rest)
    end;
  src_rest := mjoin;
|}.

Lemma mjoin_filter (s : list (list ascii)) : mjoin (filter (λ c, c ≠ []) s) = mjoin s.
Proof.
  induction s as [|c s IH]; [done|]. destruct c as [|a c].
  - rewrite filter_cons_False by naive_solver. exact IH.
  - rewrite filter_cons_True by done. simpl. f_equal. f_equal. exact IH.
Qed.

#[export] Instance chunk_source_laws : SourceLaws (list (list ascii)).
Proof.
  split.
  - intros n s bs s'. simpl. rewrite <- (mjoin_filter s).
    destruct (filter _ s) as [|c rest] eqn:Hf.
    + intros [= <- <-]. simpl. split_and!; [lia|done|done].
    + intros [= <- <-]. split_and!.
      * rewrite length_take. lia.
      * simpl. by rewrite (assoc_L (++)), take_drop.
      * intros Hn Ht. exfalso.
        assert (c ∈ filter (λ c, c ≠ []) s) as Hin by (rewrite Hf; by left).
        apply list_elem_of_filter in Hin as [Hc _]. destruct n; [done|]. by destruct c.
  - intros n s s'. simpl. by destruct (filter _ s).
  - intros n s e s'. simpl. by destruct (filter _ s).
Qed.

(** A sink that accepts so many bytes at each write. *)
#[export] Instance step_sink : Sink (list nat * list ascii) := {|
  snk_write bs s :=
    match s.1 with
    | [] => (WrCount 0, s)
    | n :: ns => (WrCount (n `min` length bs), (ns, s.2 ++ take (n `min` length bs) bs))
    end;
  snk_log := snd;
|}.

#[export] Instance step_sink_laws : SinkLaws (list nat * list ascii).
Proof.
  split.
  - intros bs [[|n ns] log] m s'; simpl; intros [= <- <-]; simpl.
    + split; [lia|]. by rewrite app_nil_r.
    + split; [lia|done].
  - by intros bs [[|n ns] log] s'.
  - by intros bs [[|n ns] log] e s'.
Qed.

(** A line end split between two reads is mishandled: after the first line of
    [a CR | LF LF b LF], the stream continues with an empty line, but the next
    [read_line] skips its line feed and returns it inside the line that follows. *)
Theorem read_line_split_crlf :
  ∃ r r1 s1 r2 s2, reader_new 8 16 = Ok r ∧
    read_line r [["a"%char; cr]; [lf; lf; "b"%char; lf]] = Some (Ok (Some ["a"%char]), r1, s1) ∧
    pending r1 s1 = [lf; "b"%char; lf] ∧
    read_line r1 s1 = Some (Ok (Some [lf; "b"%char]), r2, s2).
Proof.
  eexists _, _, _, _, _. split; [vm_compute; reflexivity|].
  split; [vm_compute; reflexivity|]. split; vm_compute; reflexivity.
Qed.

(** The mark of [read_until] does not belong to its delimiter: after a search that
    failed (here at the capacity limit, in general by an error or a cancellation), a
    search for another delimiter skips the bytes already scanned. *)
Theorem read_until_other_delimiter :
  ∃ r r1 s1 r2 s2, reader_new 4 4 = Ok r ∧
    read_until ["x"%char] r [["a"%char; ";"%char; "b"%char; ";"%char]; ["c"%char]] =
      Some (Throw (StreamOverflowError 4), r1, s1) ∧
    read_until [";"%char] r1 s1 = Some (Ok (Some ["a"%char; ";"%char; "b"%char]), r2, s2).
Proof.
  eexists _, _, _, _, _. split; [vm_compute; reflexivity|].
  split; vm_compute; reflexivity.
Qed.

(** ** Scenarios *)

Definition reader_demo : reader := mkReader (replicate 8 nul) 0 0 0 0 16 false.

Lemma reader_demo_ok (s : list (list ascii)) : reader_ok reader_demo s.
Proof. split; [constructor; simpl; lia|done]. Qed.

Lemma read_exactly_spec_witness :
  ∃ r' s', read_exactly 3 reader_demo [["a"%char; "b"%char]; ["c"%char; "d"%char]] =
      Some (Ok tt, ["a"%char; "b"%char; "c"%char], r', s') ∧
    pending reader_demo [["a"%char; "b"%char]; ["c"%char; "d"%char]] =
      ["a"%char; "b"%char; "c"%char] ++ pending r' s'.
Proof.
  destruct (read_exactly_spec 3 reader_demo [["a"%char; "b"%char]; ["c"%char; "d"%char]] (reader_demo_ok _))
    as (o & got & r' & s' & Hrun & _ & Hp & _).
  exists r', s'. pose proof Hrun as Hr. vm_compute in Hr. injection Hr as <- <- <- <-.
  split; [exact Hrun|exact Hp].
Defined.


Lemma read_line_spec_witness :
  ∃ o r' s', read_line reader_demo [["a"%char; cr]; [lf; "b"%char]] = Some (o, r', s') ∧
    reader_ok r' s' ∧ o = Ok (Some ["a"%char]).
Proof.
  destruct (read_line_spec reader_demo [["a"%char; cr]; [lf; "b"%char]] (reader_demo_ok _) eq_refl)
    as (o & r' & s' & Hrun & Hok & _).
  exists o, r', s'. split; [exact Hrun|split; [exact Hok|]].
  vm_compute in Hrun. injection Hrun as <- _ _. reflexivity.
Defined.

Lemma write_all_spec_witness :
  ∃ o s' k, write_all ["a"%char; "b"%char; "c"%char] ([2; 5], [] : list ascii) = Some (o, s') ∧
    snk_log s' = [] ++ take k ["a"%char; "b"%char; "c"%char] ∧ o = Ok true.
Proof.
  destruct (write_all_spec ["a"%char; "b"%char; "c"%char] ([2; 5], [] : list ascii)) as (o & s' & k & Hrun & _ & Hlog & _).
  exists o, s', k. split; [exact Hrun|split; [exact Hlog|]].
  vm_compute in Hrun. injection Hrun as <- _. reflexivity.
Defined.
