(* ===== verification/FutureM.v ===== *)
(** * FutureM: promise and future ([coro::Promise], [coro::Future])

    [src/include/coro/future.hpp].  Setting a result takes the mutex twice, once to
    publish the outcome and once to notify; the two halves are separate steps here,
    so that a waiter may register, or be destroyed, between them.  The [void]
    specialisation has its own state and is related to the general one. *)

From S2P Require Import Prelude ReadyQueue Timers Frames EventLoop Runtime.
From stdpp Require Import options.
#[local] Set Default Proof Using "Type*".

(** [struct Waiter]: the handle and its loop. *)
Abbreviation fwaiter := (handle * loop_id)%type.

(** [struct SharedState]. *)
Record shared (T : Type) : Type := mkShared {
  sh_result : option T;
  sh_exception : option exn;
  sh_waiters : list fwaiter;
  sh_ready : bool;
  sh_consumed : bool;
}.
Arguments mkShared {T}.
Arguments sh_result {T}.
Arguments sh_exception {T}.
Arguments sh_waiters {T}.
Arguments sh_ready {T}.
Arguments sh_consumed {T}.

Definition shared_init {T} : shared T := mkShared None None [] false false.

Section future.
Context {W : Type} `{Runtime W} {T : Type}.
Implicit Types (st : shared T) (w : W).

(** The locked half of [set_value]. *)
Definition promise_publish_value (v : T) st : res (shared T) :=
  if sh_ready st then Throw LogicError
  else Ok (mkShared (Some v) (sh_exception st) (sh_waiters st) true (sh_consumed st)).

(** The locked half of [set_exception]; [None] is the null pointer. *)
Definition promise_publish_exception (e : option exn) st : res (shared T) :=
  match e with
  | None => Throw InvalidArgument
  | Some e =>
      if sh_ready st then Throw LogicError
      else Ok (mkShared (sh_result st) (Some e) (sh_waiters st) true (sh_consumed st))
  end.

(** [notify]. *)
Definition promise_notify st w : shared T * W :=
  (mkShared (sh_result st) (sh_exception st) [] (sh_ready st) (sh_consumed st),
   foldl (λ w x, rt_schedule x.2 x.1 w) w (sh_waiters st)).

(** [set_value], [set_exception] of a promise; [None] once moved from. *)
Definition promise_set_value (v : T) (p : option (shared T)) w : res unit * option (shared T) * W :=
  match p with
  | None => (Throw LogicError, p, w)
  | Some st =>
      match promise_publish_value v st with
      | Throw e => (Throw e, p, w)
      | Ok st => let '(st, w) := promise_notify st w in (Ok tt, Some st, w)
      end
  end.

Definition promise_set_exception (e : option exn) (p : option (shared T)) w : res unit * option (shared T) * W :=
  match p with
  | None => (Throw LogicError, p, w)
  | Some st =>
      match promise_publish_exception e st with
      | Throw e => (Throw e, p, w)
      | Ok st => let '(st, w) := promise_notify st w in (Ok tt, Some st, w)
      end
  end.

(** [abandon_pending]: its locked half answers whether to notify. *)
Definition promise_publish_broken st : bool * shared T :=
  if sh_ready st then (false, st)
  else (true, mkShared (sh_result st) (Some BrokenPromiseError) (sh_waiters st) true (sh_consumed st)).

Definition promise_abandon_pending (p : option (shared T)) w : option (shared T) * W :=
  match p with
  | None => (None, w)
  | Some st =>
      let '(notify_waiters, st) := promise_publish_broken st in
      if notify_waiters then let '(st, w) := promise_notify st w in (Some st, w) else (Some st, w)
  end.

(** Move assignment: the abandoned state, this promise, the other one. *)
Definition promise_move_assign (self other : option (shared T)) w :
  option (shared T) * option (shared T) * option (shared T) * W :=
  let '(old, w) := promise_abandon_pending self w in (old, other, None, w).

Definition promise_is_done (p : option (shared T)) : bool := from_option sh_ready false p.

(** [get_future]: the future shares the state. *)
Definition promise_get_future (p : option (shared T)) : res (option (shared T)) :=
  match p with None => Throw LogicError | Some st => Ok (Some st) end.

Definition future_valid (f : option (shared T)) : bool := bool_decide (is_Some f).

Definition future_await_ready (f : option (shared T)) : res bool :=
  match f with None => Throw LogicError | Some st => Ok (sh_ready st) end.

Definition future_await_suspend (h : handle) st w : shared T * W :=
  if sh_ready st then (st, rt_schedule (rt_loop w) h w)
  else (mkShared (sh_result st) (sh_exception st) (sh_waiters st ++ [(h, rt_loop w)]) (sh_ready st) (sh_consumed st), w).

(** [await_resume]: [copyable] is [is_copy_constructible_v<T>]; [None] would be the
    dereference of an empty optional. *)
Definition future_await_resume (copyable : bool) st : option (res T) * shared T :=
  match sh_exception st with
  | Some e => (Some (Throw e), st)
  | None =>
      if copyable then (Ok <$> sh_result st, st)
      else if sh_consumed st then (Some (Throw LogicError), st)
      else (Ok <$> sh_result st, mkShared (sh_result st) (sh_exception st) (sh_waiters st) (sh_ready st) true)
  end.

Definition future_on_waiter_destroyed (h : handle) st : shared T :=
  mkShared (sh_result st) (sh_exception st) (filter (λ x, x.1 ≠ h) (sh_waiters st)) (sh_ready st) (sh_consumed st).

(** ** Histories of one shared state *)

Inductive future_event : Type :=
  | FEPublish (o : res T)
  | FENotify
  | FESuspend (x : fwaiter)
  | FEDestroyed (h : handle)
  | FEResume (o : option (res T)).

(** The outcome [set_value], [set_exception] or [abandon_pending] publishes. *)
Definition publish (o : res T) st : res (shared T) :=
  match o with
  | Ok v => promise_publish_value v st
  | Throw e => promise_publish_exception (Some e) st
  end.

(** The number is that of the setters between publishing and notifying; the world may
    change between the steps. *)
Inductive future_step : future_event → shared T * nat → shared T * nat → Prop :=
  | FPublish o st st' n : publish o st = Ok st' → future_step (FEPublish o) (st, n) (st', S n)
  | FBroken st st' n : promise_publish_broken st = (true, st') →
      future_step (FEPublish (Throw BrokenPromiseError)) (st, n) (st', S n)
  | FNotify st n w : future_step FENotify (st, S n) ((promise_notify st w).1, n)
  | FSuspend h st n w : future_step (FESuspend (h, rt_loop w)) (st, n) ((future_await_suspend h st w).1, n)
  | FDestroyed h st n : future_step (FEDestroyed h) (st, n) (future_on_waiter_destroyed h st, n)
  | FResume cp st n o st' : sh_ready st = true → future_await_resume cp st = (o, st') →
      future_step (FEResume o) (st, n) (st', n).

Inductive future_run (s0 : shared T * nat) : list future_event → shared T * nat → Prop :=
  | FRun0 : future_run s0 [] s0
  | FRunS es s e s' : future_run s0 es s → future_step e s s' → future_run s0 (es ++ [e]) s'.

(** The published outcome. *)
Definition outcome st : option (res T) :=
  match sh_exception st with
  | Some e => Some (Throw e)
  | None => Ok <$> sh_result st
  end.

Record future_inv (s : shared T * nat) : Prop := {
  fi_ready : sh_ready s.1 = bool_decide (is_Some (outcome s.1));
  fi_idle : sh_ready s.1 = false → s.2 = 0;
  fi_one : s.2 ≤ 1;
  fi_covered : sh_ready s.1 = true → sh_waiters s.1 ≠ [] → s.2 = 1;
  fi_result : is_Some (sh_exception s.1) → sh_result s.1 = None;
}.

Lemma future_init_inv : future_inv (shared_init, 0).
Proof. split; simpl; (done || lia). Qed.

Lemma publish_spec o st st' :
  publish o st = Ok st' → sh_ready st = false ∧ sh_ready st' = true ∧ sh_waiters st' = sh_waiters st ∧
    (sh_exception st = None → sh_result st = None → outcome st' = Some o ∧ (is_Some (sh_exception st') → sh_result st' = None)).
Proof.
  destruct o as [v|e]; simpl; unfold promise_publish_value; destruct (sh_ready st) eqn:Hr; try done;
    intros [= <-]; simpl; (split_and!; [done|done|done|]); intros He Hv; unfold outcome; simpl.
  - rewrite He. split; [done|]. by intros [].
  - by rewrite Hv.
Qed.

Lemma broken_publish st st' :
  promise_publish_broken st = (true, st') → publish (Throw BrokenPromiseError) st = Ok st'.
Proof. unfold promise_publish_broken; simpl. destruct (sh_ready st); [done|]. by intros [= <-]. Qed.

Lemma future_inv_publish o st st' n :
  future_inv (st, n) → publish o st = Ok st' → future_inv (st', S n) ∧ outcome st' = Some o.
Proof.
  intros [Hr Hi Ho Hc Hx] Hp; simpl in *. apply publish_spec in Hp as (Hf & Ht & Hw & Hout).
  rewrite Hf in Hr. symmetry in Hr. apply bool_decide_eq_false in Hr.
  assert (sh_exception st = None ∧ sh_result st = None) as [He Hv].
  { unfold outcome in Hr. destruct (sh_exception st), (sh_result st); simpl in *; try done; exfalso; apply Hr; by eexists. }
  destruct (Hout He Hv) as [Heq Hx']. split; [|done].
  split; simpl; rewrite ?Ht, ?Heq; try done; rewrite (Hi Hf); lia.
Qed.

Lemma future_step_inv e s s' :
  future_inv s → future_step e s s' → future_inv s' ∧
  match e with
  | FEPublish o => outcome s.1 = None ∧ outcome s'.1 = Some o
  | FEResume o => outcome s'.1 = outcome s.1 ∧ (o = outcome s.1 ∨ o = Some (Throw LogicError))
  | _ => outcome s'.1 = outcome s.1
  end.
Proof.
  intros Hi Hs.
  assert (∀ st, future_inv (st, s.2) → sh_ready st = false → outcome st = None) as Hno.
  { intros st [Hr _ _ _ _] Hf; simpl in *. rewrite Hf in Hr. symmetry in Hr. apply bool_decide_eq_false in Hr.
    destruct (outcome st); [exfalso; apply Hr; by eexists|done]. }
  destruct Hs as [o st st' n Hp|st st' n Hp|st n w|h st n w|h st n|cp st n o st' Hrd Hres]; simpl in *.
  - pose proof (publish_spec _ _ _ Hp) as (Hf & _). destruct (future_inv_publish _ _ _ _ Hi Hp). auto.
  - apply broken_publish in Hp.
    pose proof (publish_spec _ _ _ Hp) as (Hf & _). destruct (future_inv_publish _ _ _ _ Hi Hp). auto.
  - destruct Hi as [Hr Hi Ho Hc Hx]; simpl in *. split; [|done]. split; simpl; [done|intros Hf; specialize (Hi Hf); lia|lia|done|done].
  - unfold future_await_suspend. destruct (sh_ready st) eqn:Hrd; [by split|].
    destruct Hi as [Hr Hi Ho Hc Hx]; simpl in *. split; [|done]. rewrite Hrd in *. by split.
  - destruct Hi as [Hr Hi Ho Hc Hx]; simpl in *. split; [|done]. split; simpl; try done.
    intros Hrd Hne. apply Hc; [done|]. intros Hn. by rewrite Hn in Hne.
  - revert Hres. unfold future_await_resume, outcome. destruct (sh_exception st) eqn:He.
    { intros [= <- <-]. rewrite He. split_and!; auto. }
    destruct cp; [intros [= <- <-]; rewrite He; split_and!; auto|].
    destruct (sh_consumed st); intros [= <- <-]; simpl; rewrite ?He; split_and!; auto.
    destruct Hi as [Hr Hi Ho Hc Hx]; simpl in *. split; simpl; try done. rewrite Hr. unfold outcome; simpl. by rewrite He.
Qed.

(** A promise is set once: whatever the interleaving of setters, waiters and
    cancellations, at most one outcome is ever published, and every resumption of a
    waiter gives that outcome (or, for a move-only value, the error that it was
    already consumed). *)
Theorem future_set_once es s :
  future_run (shared_init, 0) es s →
  (∀ o o', FEPublish o ∈ es → FEPublish o' ∈ es → o = o') ∧
  (∀ o, FEPublish o ∈ es → outcome s.1 = Some o) ∧
  (∀ o, FEResume o ∈ es → o = outcome s.1 ∨ o = Some (Throw LogicError)) ∧
  (outcome s.1 = None → ∀ o, FEResume o ∉ es).
Proof.
  intros Hrun.
  assert (future_inv s ∧ (∀ o, FEPublish o ∈ es → outcome s.1 = Some o) ∧
    (∀ o, FEResume o ∈ es → is_Some (outcome s.1) ∧ (o = outcome s.1 ∨ o = Some (Throw LogicError)))) as (_ & Hp & Hr).
  { induction Hrun as [|es s e s' Hrun (Hi & Hp & Hr) Hs].
    - split; [apply future_init_inv|]. split; intros o Hin; by apply elem_of_nil in Hin.
    - destruct (future_step_inv e s s' Hi Hs) as [Hi' Hcase]. split; [done|].
      assert (∀ x, outcome s.1 = Some x → outcome s'.1 = Some x) as Hkeep.
      { intros x Hx. destruct e; try congruence; destruct Hcase; congruence. }
      split.
      + intros o [Hin|Heq%list_elem_of_singleton]%elem_of_app; [auto|]. subst e. by destruct Hcase.
      + intros o [Hin|Heq%list_elem_of_singleton]%elem_of_app.
        * destruct (Hr o Hin) as [[x Hx] Ho]. rewrite (Hkeep x Hx). rewrite Hx in Ho. split; [by eexists|done].
        * subst e. destruct Hcase as [-> Ho]. split; [|done].
          inversion Hs; subst; simpl in *. destruct Hi as [Hrd _ _ _ _]; simpl in *.
          rewrite Hrd in *. by apply bool_decide_eq_true in H1. }
  split_and!; [|done| |].
  - intros o o' H1 H2. apply Hp in H1. apply Hp in H2. congruence.
  - intros o Ho. by apply Hr.
  - intros Hn o Ho. destruct (Hr o Ho) as [[x Hx] _]. congruence.
Qed.

Context `{!RuntimeLaws W}.

(** Scheduling a list of waiters queues each live one. *)
Lemma schedule_all_queued xs x w :
  x ∈ xs → x.1 ≠ null_handle → rt_live x.2 x.1 w = true →
  rt_queued x.2 x.1 (foldl (λ w x, rt_schedule x.2 x.1 w) w xs) = true.
Proof.
  assert (∀ ys w, rt_queued x.2 x.1 w = true →
    rt_queued x.2 x.1 (foldl (λ w x, rt_schedule x.2 x.1 w) w ys) = true) as Hq.
  { intros ys. induction ys as [|y ys IH]; intros w' Hw; simpl; [done|]. by apply IH, rl_schedule_mono. }
  revert w. induction xs as [|y xs IH]; intros w Hin Hh Hl; simpl; [by apply elem_of_nil in Hin|].
  apply elem_of_cons in Hin as [->|Hin].
  - by apply Hq, rl_schedule_queued.
  - apply IH; [done|done|]. by rewrite rl_schedule_live.
Qed.

(** C13 No wakeup is lost between publishing and notifying: in every reachable state
    a waiter registered on a ready future has a notification still coming; a waiter
    that arrives after publication queues itself; the notification queues every
    registered live waiter on its own loop and empties the list. *)
Theorem future_no_lost_wakeup es st n w :
  future_run (shared_init, 0) es (st, n) →
  (sh_ready st = true → sh_waiters st ≠ [] → n = 1) ∧
  (sh_ready st = true → ∀ h, h ≠ null_handle → rt_live (rt_loop w) h w = true →
     sh_waiters (future_await_suspend h st w).1 = sh_waiters st ∧
     rt_queued (rt_loop w) h (future_await_suspend h st w).2 = true) ∧
  sh_waiters (promise_notify st w).1 = [] ∧
  ∀ x, x ∈ sh_waiters st → x.1 ≠ null_handle → rt_live x.2 x.1 w = true →
    rt_queued x.2 x.1 (promise_notify st w).2 = true.
Proof.
  intros Hrun.
  assert (future_inv (st, n)) as [_ _ _ Hc _].
  { revert Hrun. generalize (st, n). intros s. induction 1 as [|? ? ? ? _ IH Hs]; [apply future_init_inv|].
    by destruct (future_step_inv _ _ _ IH Hs). }
  split_and!; [done| |done|].
  - intros Hr h Hh Hl. unfold future_await_suspend. rewrite Hr. split; [done|]. by apply rl_schedule_queued.
  - intros x Hx Hh Hl. by apply schedule_all_queued.
Qed.
End future.

(** ** [Promise<void>] and [Future<void>] *)

Record shared_void : Type := mkSharedV {
  sv_exception : option exn;
  sv_waiters : list fwaiter;
  sv_ready : bool;
}.

Definition shared_void_init : shared_void := mkSharedV None [] false.

Section future_void.
Context {W : Type} `{Runtime W}.
Implicit Types (sv : shared_void) (w : W).

Definition vpromise_publish_value sv : res shared_void :=
  if sv_ready sv then Throw LogicError else Ok (mkSharedV (sv_exception sv) (sv_waiters sv) true).

Definition vpromise_publish_exception (e : option exn) sv : res shared_void :=
  match e with
  | None => Throw InvalidArgument
  | Some e => if sv_ready sv then Throw LogicError else Ok (mkSharedV (Some e) (sv_waiters sv) true)
  end.

Definition vpromise_notify sv w : shared_void * W :=
  (mkSharedV (sv_exception sv) [] (sv_ready sv),
   foldl (λ w x, rt_schedule x.2 x.1 w) w (sv_waiters sv)).

Definition vpromise_set_value (p : option shared_void) w : res unit * option shared_void * W :=
  match p with
  | None => (Throw LogicError, p, w)
  | Some sv =>
      match vpromise_publish_value sv with
      | Throw e => (Throw e, p, w)
      | Ok sv => let '(sv, w) := vpromise_notify sv w in (Ok tt, Some sv, w)
      end
  end.

Definition vpromise_set_exception (e : option exn) (p : option shared_void) w :
  res unit * option shared_void * W :=
  match p with
  | None => (Throw LogicError, p, w)
  | Some sv =>
      match vpromise_publish_exception e sv with
      | Throw e => (Throw e, p, w)
      | Ok sv => let '(sv, w) := vpromise_notify sv w in (Ok tt, Some sv, w)
      end
  end.

Definition vpromise_publish_broken sv : bool * shared_void :=
  if sv_ready sv then (false, sv) else (true, mkSharedV (Some BrokenPromiseError) (sv_waiters sv) true).

Definition vpromise_abandon_pending (p : option shared_void) w : option shared_void * W :=
  match p with
  | None => (None, w)
  | Some sv =>
      let '(notify_waiters, sv) := vpromise_publish_broken sv in
      if notify_waiters then let '(sv, w) := vpromise_notify sv w in (Some sv, w) else (Some sv, w)
  end.

Definition vpromise_is_done (p : option shared_void) : bool := from_option sv_ready false p.

Definition vfuture_await_ready (f : option shared_void) : res bool :=
  match f with None => Throw LogicError | Some sv => Ok (sv_ready sv) end.

Definition vfuture_await_suspend (h : handle) sv w : shared_void * W :=
  if sv_ready sv then (sv, rt_schedule (rt_loop w) h w)
  else (mkSharedV (sv_exception sv) (sv_waiters sv ++ [(h, rt_loop w)]) (sv_ready sv), w).

Definition vfuture_await_resume sv : res unit :=
  match sv_exception sv with Some e => Throw e | None => Ok tt end.

Definition vfuture_on_waiter_destroyed (h : handle) sv : shared_void :=
  mkSharedV (sv_exception sv) (filter (λ x, x.1 ≠ h) (sv_waiters sv)) (sv_ready sv).

(** The general state a [void] state stands for. *)
Definition sv_shared sv : shared unit :=
  mkShared (if sv_ready sv then match sv_exception sv with None => Some tt | Some _ => None end else None)
    (sv_exception sv) (sv_waiters sv) (sv_ready sv) false.

Definition sv_wf sv : Prop := is_Some (sv_exception sv) → sv_ready sv = true.

Definition sv_lift (p : res unit * option shared_void * W) : res unit * option (shared unit) * W :=
  (p.1.1, sv_shared <$> p.1.2, p.2).

(** The specialisation for [void] behaves as the general promise at the unit type:
    every operation commutes with the reading of its state, and keeps it well formed. *)
Theorem future_void_refines p sv h e w :
  (∀ sv, p = Some sv → sv_wf sv) → sv_wf sv →
  promise_set_value tt (sv_shared <$> p) w = sv_lift (vpromise_set_value p w) ∧
  promise_set_exception e (sv_shared <$> p) w = sv_lift (vpromise_set_exception e p w) ∧
  promise_abandon_pending (sv_shared <$> p) w =
    (sv_shared <$> (vpromise_abandon_pending p w).1, (vpromise_abandon_pending p w).2) ∧
  promise_is_done (sv_shared <$> p) = vpromise_is_done p ∧
  future_await_ready (sv_shared <$> p) = vfuture_await_ready p ∧
  future_await_suspend h (sv_shared sv) w =
    (sv_shared (vfuture_await_suspend h sv w).1, (vfuture_await_suspend h sv w).2) ∧
  (sv_ready sv = true →
     future_await_resume true (sv_shared sv) = (Some (vfuture_await_resume sv), sv_shared sv)) ∧
  future_on_waiter_destroyed h (sv_shared sv) = sv_shared (vfuture_on_waiter_destroyed h sv) ∧
  (∀ sv', (vpromise_set_value p w).1.2 = Some sv' ∨ (vpromise_set_exception e p w).1.2 = Some sv' ∨
     (vpromise_abandon_pending p w).1 = Some sv' ∨ sv' = (vfuture_await_suspend h sv w).1 ∨
     sv' = vfuture_on_waiter_destroyed h sv → sv_wf sv').
Proof.
  intros Hp Hsv.
  assert (∀ sv, p = Some sv → sv_ready sv = false → sv_exception sv = None) as Hn.
  { intros sv1 H1 H2. destruct (sv_exception sv1) eqn:He; [|done]. rewrite (Hp sv1 H1) in H2; [done|by rewrite He]. }
  split_and!.
  - destruct p as [[x ws []]|]; [done| |done]. by rewrite (Hn _ eq_refl eq_refl : x = None).
  - destruct p as [[x ws []]|], e; done.
  - destruct p as [[x ws []]|]; done.
  - by destruct p.
  - by destruct p.
  - unfold future_await_suspend, vfuture_await_suspend. destruct sv as [x ws []]; done.
  - destruct sv as [[x|] ws []]; done.
  - done.
  - intros sv' Hc. destruct Hc as [Hc|[Hc|[Hc|[Hc|Hc]]]].
    + destruct p as [[x ws []]|]; simplify_eq/=; [by apply Hp|done].
    + destruct p as [[x ws []]|], e; simplify_eq/=; try done; by apply Hp.
    + destruct p as [[x ws []]|]; simplify_eq/=; [by apply Hp|done].
    + subst sv'. unfold vfuture_await_suspend. destruct sv as [x ws []]; done.
    + by subst sv'.
Qed.
End future_void.

(** ** Scenario: a value set while coroutine 10 of loop 1 waits *)

Definition future_demo_events : list (future_event (T := nat)) :=
  [FESuspend (10, 1); FEPublish (Ok 7); FENotify; FEResume (Some (Ok 7))].

Lemma future_demo_run :
  future_run (W := world) (shared_init, 0) future_demo_events (mkShared (Some 7) None [] true false, 0).
Proof.
  apply (FRunS _ [FESuspend (10, 1); FEPublish (Ok 7); FENotify] (mkShared (Some 7) None [] true false, 0)).
  2:{ by apply (FResume true). }
  apply (FRunS _ [FESuspend (10, 1); FEPublish (Ok 7)] (mkShared (Some 7) None [(10, 1)] true false, 1)).
  2:{ exact (FNotify (mkShared (Some 7) None [(10, 1)] true false) 0 w_demo). }
  apply (FRunS _ [FESuspend (10, 1)] (mkShared None None [(10, 1)] false false, 0)).
  2:{ by apply FPublish. }
  apply (FRunS _ [] (shared_init, 0)); [apply FRun0|].
  exact (FSuspend 10 shared_init 0 w_demo).
Qed.

Lemma future_set_once_witness :
  outcome (mkShared (Some 7) None [] true false) = Some (Ok 7) ∧
  FEPublish (T := nat) (Ok 7) ∈ future_demo_events.
Proof.
  split; [|by right; left].
  exact (proj1 (proj2 (future_set_once (W := world) _ _ future_demo_run)) (Ok 7) ltac:(by right; left)).
Defined.

Lemma future_no_lost_wakeup_witness :
  rt_queued 1 10 (promise_notify (mkShared (Some 7) None [(10, 1)] true false) w_demo).2 = true.
Proof.
  assert (future_run (W := world) (shared_init, 0) [FESuspend (10, 1); FEPublish (Ok 7)]
    (mkShared (Some 7) None [(10, 1)] true false, 1)) as Hr.
  { apply (FRunS _ [FESuspend (10, 1)] (mkShared None None [(10, 1)] false false, 0)).
    2:{ by apply FPublish. }
    apply (FRunS _ [] (shared_init, 0)); [apply FRun0|]. exact (FSuspend 10 shared_init 0 w_demo). }
  assert (rt_live 1 10 w_demo = true) as Hl by (vm_compute; reflexivity).
  exact (proj2 (proj2 (proj2 (future_no_lost_wakeup _ _ _ w_demo Hr))) (10, 1) ltac:(by left) ltac:(done) Hl).
Defined.

Lemma future_void_refines_witness :
  promise_set_value tt (Some (sv_shared shared_void_init)) w_demo =
    sv_lift (vpromise_set_value (Some shared_void_init) w_demo).
Proof.
  assert (sv_wf shared_void_init) as Hw by (by intros []).
  exact (proj1 (future_void_refines (Some shared_void_init) shared_void_init 10 None w_demo
    ltac:(by intros ? [= <-]) Hw)).
Defined.
