(* ===== verification/PoolM.v ===== *)
(** * PoolM: bounded resource pool ([coro::Pool])

    [src/include/coro/pool.hpp].  The pool lives on one loop.  One round of the loop
    in [acquire_impl] is one definition, so that the suspensions (waiting for a slot,
    waiting for the factory) fall between steps.  A waiting node is its identity and
    the handle stored in it, null once taken. *)

From S2P Require Import Prelude ReadyQueue Timers Frames EventLoop Runtime.
From stdpp Require Import options.
#[local] Set Default Proof Using "Type*".

Record pool_node : Type := mkNode { pn_id : loc; pn_handle : handle }.

(** [struct pool_state]; the factory is called by the step that awaits it. *)
Record pool_state (T : Type) : Type := mkPool {
  pl_idle : list T;
  pl_waiters : list pool_node;
  pl_max_agents : nat;
  pl_max_idle : nat;
  pl_in_use : nat;
  pl_closed : bool;
}.
Arguments mkPool {T}.
Arguments pl_idle {T}.
Arguments pl_waiters {T}.
Arguments pl_max_agents {T}.
Arguments pl_max_idle {T}.
Arguments pl_in_use {T}.
Arguments pl_closed {T}.

(** [Pool::Pool] with its options. *)
Definition pool_new {T} (max_agents max_idle : nat) : pool_state T :=
  mkPool [] [] max_agents max_idle 0 false.

Definition pool_set_idle {T} (l : list T) (p : pool_state T) :=
  mkPool l (pl_waiters p) (pl_max_agents p) (pl_max_idle p) (pl_in_use p) (pl_closed p).
Definition pool_set_waiters {T} (l : list pool_node) (p : pool_state T) :=
  mkPool (pl_idle p) l (pl_max_agents p) (pl_max_idle p) (pl_in_use p) (pl_closed p).
Definition pool_set_in_use {T} (n : nat) (p : pool_state T) :=
  mkPool (pl_idle p) (pl_waiters p) (pl_max_agents p) (pl_max_idle p) n (pl_closed p).
Definition pool_set_closed {T} (b : bool) (p : pool_state T) :=
  mkPool (pl_idle p) (pl_waiters p) (pl_max_agents p) (pl_max_idle p) (pl_in_use p) b.

Section pool.
Context {W : Type} `{Runtime W} {T : Type}.
Implicit Types (p : pool_state T) (w : W).

Definition can_create p : bool :=
  negb (pl_closed p) && (bool_decide (pl_max_agents p = 0) || bool_decide (pl_in_use p < pl_max_agents p)).

(** [wake_one]: the node taken, if any. *)
Fixpoint wake_list (ws : list pool_node) w : option pool_node * list pool_node * W :=
  match ws with
  | [] => (None, [], w)
  | n :: ws => if decide (pn_handle n = null_handle) then wake_list ws w
               else (Some n, ws, rt_schedule (rt_loop w) (pn_handle n) w)
  end.

Definition pool_wake_one p w : option pool_node * pool_state T * W :=
  let '(n, ws, w) := wake_list (pl_waiters p) w in (n, pool_set_waiters ws p, w).

(** ** The awaiter *)

Definition pool_await_ready p : bool :=
  pl_closed p || negb (bool_decide (pl_idle p = [])) || can_create p.

(** [await_suspend]; the node is allocated at [id]. *)
Definition pool_await_suspend (id : loc) (h : handle) p w : pool_state T * W :=
  if pl_closed p && bool_decide (pl_idle p = []) then (p, rt_schedule (rt_loop w) h w)
  else (pool_set_waiters (pl_waiters p ++ [mkNode id h]) p, w).

(** [drop]: the first node with this identity. *)
Fixpoint drop_node (id : loc) (ws : list pool_node) : list pool_node :=
  match ws with
  | [] => []
  | n :: ws => if decide (pn_id n = id) then ws else n :: drop_node id ws
  end.

(** The destructor of an awaiter that has a node. *)
Definition pool_awaiter_destroyed (id : loc) (resumed : bool) p w : option pool_node * pool_state T * W :=
  let p := pool_set_waiters (drop_node id (pl_waiters p)) p in
  if negb resumed && (negb (bool_decide (pl_idle p = [])) || can_create p) then pool_wake_one p w
  else (None, p, w).

(** ** Acquiring *)

Inductive pool_round : Type :=
  | PrInvalid
  | PrLease (t : T)
  | PrWait
  | PrBuild.

(** One round of [acquire_impl], up to its next suspension. *)
Definition pool_acquire_round p : pool_round * pool_state T :=
  if pl_closed p then (PrInvalid, p)
  else match pl_idle p with
  | t :: idle => (PrLease t, pool_set_in_use (S (pl_in_use p)) (pool_set_idle idle p))
  | [] => if negb (can_create p) then (PrWait, p) else (PrBuild, pool_set_in_use (S (pl_in_use p)) p)
  end.

(** [~pool_reservation] while it is active. *)
Definition pool_reservation_drop p w : option pool_node * pool_state T * W :=
  pool_wake_one (pool_set_in_use (pred (pl_in_use p)) p) w.

(** The factory has produced a resource. *)
Definition pool_built (t : T) p w : option T * (option pool_node * pool_state T * W) :=
  if pl_closed p then (None, pool_reservation_drop p w) else (Some t, (None, p, w)).

(** ** Leases: [None] is an invalid one *)

Definition lease_release (r : option T) p w : option pool_node * pool_state T * W :=
  match r with
  | None => (None, p, w)
  | Some t =>
      let p := if negb (pl_closed p) && bool_decide (length (pl_idle p) < pl_max_idle p)
               then pool_set_idle (pl_idle p ++ [t]) p else p in
      pool_wake_one (pool_set_in_use (pred (pl_in_use p)) p) w
  end.

Definition lease_discard (r : option T) p w : option pool_node * pool_state T * W :=
  match r with
  | None => (None, p, w)
  | Some _ =>
      pool_wake_one (pool_set_in_use (pl_in_use p - (if decide (0 < pl_in_use p) then 1 else 0)) p) w
  end.

(** [operator*], [operator->]. *)
Definition lease_get (r : option T) : res T :=
  match r with None => Throw StructuredConcurrencyError | Some t => Ok t end.

(** [close]: until the queue is empty; the nodes taken, in order. *)
Fixpoint pool_close_wake (fuel : nat) p w : list pool_node * pool_state T * W :=
  match fuel with
  | 0 => ([], p, w)
  | S fuel =>
      match pl_waiters p with
      | [] => ([], p, w)
      | _ :: _ =>
          let '(n, p, w) := pool_wake_one p w in
          let '(ns, p, w) := pool_close_wake fuel p w in
          (option_list n ++ ns, p, w)
      end
  end.

Definition pool_close p w : list pool_node * pool_state T * W :=
  if pl_closed p then ([], p, w)
  else pool_close_wake (length (pl_waiters p)) (pool_set_idle [] (pool_set_closed true p)) w.

(** [Pool::acquire] refuses a moved-from pool and a foreign loop. *)
Definition pool_acquire_check (p : option (pool_state T)) (owner : loop_id) w : res unit :=
  match p with
  | None => Throw StructuredConcurrencyError
  | Some _ => if decide (owner ≠ 0 ∧ rt_loop w ≠ owner) then Throw StructuredConcurrencyError else Ok tt
  end.

(** ** Histories

    [ph_holders]: the valid leases and the builds under way; [ph_woken]: the nodes
    taken from the queue whose coroutine has neither retried nor been destroyed. *)

Record pool_hist : Type := mkHist {
  ph_pool : pool_state T;
  ph_holders : nat;
  ph_woken : list loc;
}.

(** Adding the node a wakeup took. *)
Definition woken_add (n : option pool_node) (l : list loc) : list loc :=
  match n with None => l | Some n => pn_id n :: l end.

Fixpoint woken_remove (id : loc) (l : list loc) : list loc :=
  match l with
  | [] => []
  | x :: l => if decide (x = id) then l else x :: woken_remove id l
  end.

Inductive pool_step : pool_hist → pool_hist → Prop :=
  (** a caller, new or woken, runs a round; [woken'] is the list without it *)
  | PSRound p hold wk wk' r p' :
      (wk' = wk ∨ ∃ id, id ∈ wk ∧ wk' = woken_remove id wk) →
      pool_acquire_round p = (r, p') → r ≠ PrWait →
      pool_step (mkHist p hold wk)
        (mkHist p' (match r with PrLease _ | PrBuild => S hold | _ => hold end) wk')
  | PSWait p hold wk wk' p' id h w :
      (wk' = wk ∨ ∃ id, id ∈ wk ∧ wk' = woken_remove id wk) →
      pool_acquire_round p = (PrWait, p') → pool_await_ready p' = false → h ≠ null_handle →
      pool_step (mkHist p hold wk) (mkHist (pool_await_suspend id h p' w).1 hold wk')
  | PSBuilt p hold wk t w r n p' w' :
      0 < hold → pool_built t p w = (r, (n, p', w')) →
      pool_step (mkHist p hold wk)
        (mkHist p' (match r with Some _ => hold | None => pred hold end) (woken_add n wk))
  | PSBuildFailed p hold wk w n p' w' :
      0 < hold → pool_reservation_drop p w = (n, p', w') →
      pool_step (mkHist p hold wk) (mkHist p' (pred hold) (woken_add n wk))
  | PSRelease p hold wk t w n p' w' :
      0 < hold → lease_release (Some t) p w = (n, p', w') →
      pool_step (mkHist p hold wk) (mkHist p' (pred hold) (woken_add n wk))
  | PSDiscard p hold wk t w n p' w' :
      0 < hold → lease_discard (Some t) p w = (n, p', w') →
      pool_step (mkHist p hold wk) (mkHist p' (pred hold) (woken_add n wk))
  (** a waiting caller is destroyed, woken or not *)
  | PSDestroyed p hold wk id w n p' w' :
      pool_awaiter_destroyed id false p w = (n, p', w') →
      pool_step (mkHist p hold wk) (mkHist p' hold (woken_add n (woken_remove id wk)))
  | PSClose p hold wk w ns p' w' :
      pool_close p w = (ns, p', w') →
      pool_step (mkHist p hold wk) (mkHist p' hold ((pn_id <$> ns) ++ wk)).

Inductive pool_run (max_agents max_idle : nat) : pool_hist → Prop :=
  | PRun0 : pool_run max_agents max_idle (mkHist (pool_new max_agents max_idle) 0 [])
  | PRunS s s' : pool_run max_agents max_idle s → pool_step s s' → pool_run max_agents max_idle s'.

(** ** Facts *)

Definition nodes_ok (ws : list pool_node) : Prop := Forall (λ n, pn_handle n ≠ null_handle) ws.

Lemma wake_list_spec ws w :
  nodes_ok ws →
  wake_list ws w = match ws with
    | [] => (None, [], w)
    | n :: ws => (Some n, ws, rt_schedule (rt_loop w) (pn_handle n) w)
    end.
Proof. destruct ws as [|n ws]; [done|]. intros [Hn _]%Forall_cons. simpl. by rewrite decide_False. Qed.

Lemma wake_one_spec p w n p' w' :
  nodes_ok (pl_waiters p) → pool_wake_one p w = (n, p', w') →
  p' = pool_set_waiters (tail (pl_waiters p)) p ∧ n = head (pl_waiters p).
Proof.
  intros Hok. unfold pool_wake_one. rewrite wake_list_spec by done.
  destruct (pl_waiters p); by intros [= <- <- <-].
Qed.

Lemma drop_node_ok id ws : nodes_ok ws → nodes_ok (drop_node id ws).
Proof.
  unfold nodes_ok. induction ws as [|n ws IH]; simpl; [done|]. intros [Hn Hws]%Forall_cons.
  case_decide; [done|]. apply Forall_cons. auto.
Qed.

Lemma drop_node_nil id : drop_node id [] = [].
Proof. done. Qed.

Lemma woken_remove_length id l : length l ≤ S (length (woken_remove id l)).
Proof. induction l as [|x l IH]; simpl; [lia|]. case_decide; simpl; lia. Qed.

(** Slots that a retrying caller could take. *)
Definition free_slots p : nat := pl_max_agents p - pl_in_use p.

Record pool_inv (s : pool_hist) : Prop := {
  pi_count : pl_in_use (ph_pool s) = ph_holders s;
  pi_bound : pl_max_agents (ph_pool s) ≠ 0 →
    length (pl_idle (ph_pool s)) + pl_in_use (ph_pool s) ≤ pl_max_agents (ph_pool s);
  pi_idle : length (pl_idle (ph_pool s)) ≤ pl_max_idle (ph_pool s);
  pi_nodes : nodes_ok (pl_waiters (ph_pool s));
  pi_closed : pl_closed (ph_pool s) = true → pl_idle (ph_pool s) = [] ∧ pl_waiters (ph_pool s) = [];
  pi_unbounded : pl_max_agents (ph_pool s) = 0 → pl_waiters (ph_pool s) = [];
  pi_woken : pl_waiters (ph_pool s) ≠ [] → free_slots (ph_pool s) ≤ length (ph_woken s);
}.

Lemma pool_inv_new a i : pool_inv (mkHist (pool_new a i) 0 []).
Proof. split; simpl; try done; try lia. constructor. Qed.

(** Giving a slot back and waking the next caller, the common end of five operations. *)
Lemma pool_inv_give_back p p0 hold wk w n p' w' :
  pool_inv (mkHist p hold wk) → 0 < hold →
  pl_waiters p0 = pl_waiters p → pl_max_agents p0 = pl_max_agents p → pl_max_idle p0 = pl_max_idle p →
  pl_closed p0 = pl_closed p → pl_in_use p0 = pred (pl_in_use p) →
  (length (pl_idle p0) ≤ S (length (pl_idle p)) ∧ length (pl_idle p0) ≤ pl_max_idle p0) →
  (pl_closed p = true → pl_idle p0 = []) →
  pool_wake_one p0 w = (n, p', w') → pool_inv (mkHist p' (pred hold) (woken_add n wk)).
Proof.
  intros [Hc Hb Hi Hn Hcl Hu Hw] Hh E1 E2 E3 E4 E5 [Hl Hl2] Hci Hwake; simpl in *.
  apply wake_one_spec in Hwake as [-> ->]; [|by rewrite E1].
  split; simpl; rewrite ?E1, ?E2, ?E3, ?E4, ?E5; try done.
  - lia.
  - intros Hm. specialize (Hb Hm). lia.
  - lia.
  - destruct (pl_waiters p); [done|]. by apply Forall_cons in Hn as [].
  - intros Hcc. destruct (Hcl Hcc) as [_ ->]. by rewrite Hci.
  - intros Hm. by rewrite (Hu Hm).
  - unfold free_slots in *; simpl. rewrite E2, E5. destruct (pl_waiters p); [done|]. simpl. intros _.
    specialize (Hw ltac:(done)). lia.
Qed.

Lemma pool_inv_unwake p hold wk wk' :
  pool_inv (mkHist p hold wk) → length wk ≤ S (length wk') →
  pl_in_use p < pl_max_agents p ∨ pl_max_agents p = 0 ∨ pl_closed p = true →
  ∀ p', (pl_closed p = true → p' = p) →
  (pl_closed p = false → pl_in_use p' = S (pl_in_use p) ∧ pl_waiters p' = pl_waiters p ∧ pl_closed p' = pl_closed p ∧
     pl_max_agents p' = pl_max_agents p ∧ pl_max_idle p' = pl_max_idle p ∧
     (pl_idle p' = tail (pl_idle p))) →
  pool_inv (mkHist p' (if pl_closed p then hold else S hold) wk').
Proof.
  intros [Hc Hb Hi Hn Hcl Hu Hw] Hlen Hcan p' H1 H2; simpl in *. destruct (pl_closed p) eqn:Hcc.
  - rewrite (H1 eq_refl). split; simpl; try (intros _; by apply Hcl); try done. intros Hne. by destruct (Hcl eq_refl).
  - destruct (H2 eq_refl) as (E1 & E2 & E3 & E4 & E5 & E6).
    split; simpl; rewrite ?E1, ?E2, ?E3, ?E4, ?E5, ?E6; try done.
    + lia.
    + intros Hm. specialize (Hb Hm). destruct (pl_idle p); simpl in *; [|lia].
      destruct Hcan as [|[|]]; [lia|done|done].
    + destruct (pl_idle p); simpl in *; lia.
    + intros Hne. specialize (Hw Hne). unfold free_slots in *. rewrite E4, E1. lia.
Qed.

Lemma can_create_spec p :
  can_create p = true ↔ pl_closed p = false ∧ (pl_max_agents p = 0 ∨ pl_in_use p < pl_max_agents p).
Proof.
  unfold can_create. rewrite andb_true_iff, orb_true_iff, negb_true_iff, !bool_decide_eq_true. done.
Qed.

Lemma woken_choice wk wk' :
  (wk' = wk ∨ ∃ id, id ∈ wk ∧ wk' = woken_remove id wk) → length wk ≤ S (length wk').
Proof. intros [->|(id & _ & ->)]; [lia|apply woken_remove_length]. Qed.

Lemma pool_close_wake_spec fuel p w :
  nodes_ok (pl_waiters p) → length (pl_waiters p) ≤ fuel →
  (pool_close_wake fuel p w).1.1 = pl_waiters p ∧
  (pool_close_wake fuel p w).1.2 = pool_set_waiters [] p.
Proof.
  revert p w. induction fuel as [|fuel IH]; intros p w Hok Hf; simpl.
  - destruct p as [i ws a b c d]; simpl in *. destruct ws; [done|simpl in *; lia].
  - destruct (pl_waiters p) as [|n ws] eqn:Hws.
    { split; [done|]. destruct p; simpl in *. by subst. }
    destruct (pool_wake_one p w) as [[m p'] w'] eqn:Hw.
    apply wake_one_spec in Hw as [-> ->]; [|by rewrite Hws]. rewrite Hws. simpl.
    apply Forall_cons in Hok as [_ Hok]. simpl in Hf.
    destruct (IH (pool_set_waiters ws p) w' Hok ltac:(simpl; lia)) as [H1 H2].
    destruct (pool_close_wake fuel (pool_set_waiters ws p) w') as [[ns p2] w2]; simpl in *.
    by rewrite H1, H2.
Qed.

(** A round of [acquire] that does not wait. *)
Lemma pool_round_inv p hold wk wk' r p' :
  pool_inv (mkHist p hold wk) → length wk ≤ S (length wk') →
  pool_acquire_round p = (r, p') → r ≠ PrWait →
  pool_inv (mkHist p' (match r with PrLease _ | PrBuild => S hold | _ => hold end) wk').
Proof.
  intros Hi Hwk Hr Hne. pose proof Hi as [_ Hb _ _ _ _ _]; simpl in *.
  unfold pool_acquire_round in Hr. destruct (pl_closed p) eqn:Hcc.
  { injection Hr as <- <-. pose proof (pool_inv_unwake p hold wk wk' Hi Hwk ltac:(auto) p) as Hx.
    rewrite Hcc in Hx. by apply Hx. }
  destruct (pl_idle p) as [|t idle] eqn:Hidle.
  - destruct (can_create p) eqn:Hcan; simpl in Hr; [|by injection Hr as <- _].
    injection Hr as <- <-. apply can_create_spec in Hcan as [_ Hcan].
    pose proof (pool_inv_unwake p hold wk wk' Hi Hwk ltac:(tauto) (pool_set_in_use (S (pl_in_use p)) p)) as Hx.
    rewrite Hcc in Hx. apply Hx; [done|]. intros _. simpl. rewrite Hidle, Hcc. done.
  - injection Hr as <- <-.
    assert (pl_in_use p < pl_max_agents p ∨ pl_max_agents p = 0) as Hcan.
    { destruct (decide (pl_max_agents p = 0)) as [|Hm]; [by right|]. specialize (Hb Hm). simpl in Hb. left. lia. }
    pose proof (pool_inv_unwake p hold wk wk' Hi Hwk ltac:(tauto)
      (pool_set_in_use (S (pl_in_use p)) (pool_set_idle idle p))) as Hx.
    rewrite Hcc in Hx. apply Hx; [done|]. intros _. simpl. rewrite Hidle, Hcc. done.
Qed.

(** [can_create] refuses an open pool only when every slot is taken. *)
Lemma can_create_full p :
  can_create p = false → pl_closed p = false → pl_max_agents p ≠ 0 ∧ pl_max_agents p ≤ pl_in_use p.
Proof.
  intros Hcan Hcc. assert (¬ (pl_max_agents p = 0 ∨ pl_in_use p < pl_max_agents p)) as Hfull; [|lia].
  intros Hx. enough (can_create p = true) by congruence. by apply can_create_spec.
Qed.

(** A caller waits when the pool is full, so no slot is free beside it. *)
Lemma pool_wait_inv p hold wk wk' p' id h w :
  pool_inv (mkHist p hold wk) → pool_acquire_round p = (PrWait, p') → h ≠ null_handle →
  pool_inv (mkHist (pool_await_suspend id h p' w).1 hold wk').
Proof.
  intros [Hc Hb Hid Hn Hcl Hu Hw] Hr Hh; simpl in *.
  unfold pool_acquire_round in Hr. destruct (pl_closed p) eqn:Hcc; [done|].
  destruct (pl_idle p) as [|t idle] eqn:Hidle; [|done].
  destruct (can_create p) eqn:Hcan; [done|]. injection Hr as <-.
  destruct (can_create_full p Hcan Hcc) as [Hm Hfull].
  unfold pool_await_suspend. rewrite Hcc. simpl. split; simpl; rewrite ?Hidle, ?Hcc; try done.
  - apply Forall_app. split; [done|]. by constructor.
  - intros _. unfold free_slots; simpl. lia.
Qed.

(** A resource built for a pool that was closed meanwhile gives its slot back. *)
Lemma pool_built_inv p hold wk t w r n p' w' :
  pool_inv (mkHist p hold wk) → 0 < hold → pool_built t p w = (r, (n, p', w')) →
  pool_inv (mkHist p' (match r with Some _ => hold | None => pred hold end) (woken_add n wk)).
Proof.
  intros Hi Hh Hb. pose proof Hi as [_ _ Hid _ Hcl _ _]; simpl in *.
  unfold pool_built in Hb. destruct (pl_closed p) eqn:Hcc; [|by injection Hb as <- <- <- <-].
  injection Hb as <- Hb. revert Hb. apply pool_inv_give_back with (p := p); simpl; try done; auto.
  intros _. by apply Hcl.
Qed.

(** The ends of a lease: put back or dropped; a discarded or failed build drops too. *)
Lemma lease_release_inv p hold wk t w n p' w' :
  pool_inv (mkHist p hold wk) → 0 < hold → lease_release (Some t) p w = (n, p', w') →
  pool_inv (mkHist p' (pred hold) (woken_add n wk)).
Proof.
  intros Hi Hh Hb. pose proof Hi as [_ _ Hid _ Hcl _ _]; simpl in *. unfold lease_release in Hb. revert Hb.
  destruct (negb (pl_closed p) && bool_decide (length (pl_idle p) < pl_max_idle p)) eqn:Hput.
  - apply andb_prop in Hput as [Hcc%negb_true_iff Hroom%bool_decide_eq_true].
    apply pool_inv_give_back with (p := p); simpl; try done.
    + rewrite length_app; simpl. lia.
    + by rewrite Hcc.
  - apply pool_inv_give_back with (p := p); simpl; try done; auto.
    intros Hcc. by apply Hcl.
Qed.

(** A waiter that goes away passes its turn on when there is something to take. *)
Lemma pool_destroyed_inv p hold wk id w n p' w' :
  pool_inv (mkHist p hold wk) → pool_awaiter_destroyed id false p w = (n, p', w') →
  pool_inv (mkHist p' hold (woken_add n (woken_remove id wk))).
Proof.
  intros [Hc Hb Hid Hn Hcl Hu Hw] Hd; simpl in *. unfold pool_awaiter_destroyed in Hd. simpl in Hd.
  pose proof (woken_remove_length id wk) as Hlen. pose proof (drop_node_ok id _ Hn) as Hn'.
  assert (drop_node id (pl_waiters p) ≠ [] → pl_waiters p ≠ []) as Hnil by (intros Hx Hz; by rewrite Hz in Hx).
  destruct (negb (bool_decide (pl_idle p = [])) || can_create (pool_set_waiters (drop_node id (pl_waiters p)) p)) eqn:Hav.
  - apply wake_one_spec in Hd as [-> ->]; [|done]. simpl. split; simpl; try done.
    + destruct (drop_node id (pl_waiters p)); [done|]. by apply Forall_cons in Hn' as [].
    + intros Hcc. destruct (Hcl Hcc) as [-> ->]. done.
    + intros Hm. by rewrite (Hu Hm).
    + intros Hne. destruct (drop_node id (pl_waiters p)) as [|m ms] eqn:Hdr; [done|]. simpl.
      specialize (Hw (Hnil ltac:(done))). unfold free_slots in *; simpl. lia.
  - injection Hd as <- <- <-. apply orb_false_iff in Hav as [_ Hcan]. split; simpl; try done.
    + intros Hcc. destruct (Hcl Hcc) as [-> ->]. done.
    + intros Hm. by rewrite (Hu Hm).
    + intros Hne. destruct (pl_closed p) eqn:Hcc; [by destruct (Hcl eq_refl) as [_ Hz]; rewrite Hz in Hne|].
      destruct (can_create_full _ Hcan Hcc) as [_ Hfull]. unfold free_slots; simpl in *. lia.
Qed.

Lemma pool_close_inv p hold wk w ns p' w' :
  pool_inv (mkHist p hold wk) → pool_close p w = (ns, p', w') →
  pool_inv (mkHist p' hold ((pn_id <$> ns) ++ wk)).
Proof.
  intros [Hc Hb Hid Hn Hcx Hu Hw] Hcl; simpl in *. unfold pool_close in Hcl. destruct (pl_closed p) eqn:Hcc.
  - injection Hcl as <- <- <-. destruct (Hcx eq_refl) as [Hz1 Hz2].
    split; simpl; try (intros _; by apply Hcx); done.
  - destruct (pool_close_wake_spec (length (pl_waiters p)) (pool_set_idle [] (pool_set_closed true p)) w Hn ltac:(simpl; lia)) as [_ H2].
    rewrite Hcl in H2; simpl in H2. subst p'. split; simpl; try done; try lia. constructor.
Qed.

Lemma pool_step_inv s s' : pool_inv s → pool_step s s' → pool_inv s'.
Proof.
  intros Hi Hs. destruct Hs as [p hold wk wk' r p' Hwk Hr Hne|p hold wk wk' p' id h w Hwk Hr Hrd Hh
    |p hold wk t w r n p' w' Hh Hb|p hold wk w n p' w' Hh Hb|p hold wk t w n p' w' Hh Hb
    |p hold wk t w n p' w' Hh Hb|p hold wk id w n p' w' Hd|p hold wk w ns p' w' Hcl].
  - eapply pool_round_inv; eauto using woken_choice.
  - by eapply pool_wait_inv.
  - by eapply pool_built_inv.
  - pose proof Hi as [_ _ Hid _ Hcl _ _]; simpl in *. unfold pool_reservation_drop in Hb. revert Hb.
    apply pool_inv_give_back with (p := p); simpl; try done; auto.
    intros Hcc. by apply Hcl.
  - by eapply lease_release_inv.
  - pose proof Hi as [_ _ Hid _ Hcl _ _]; simpl in *. unfold lease_discard in Hb. revert Hb.
    apply pool_inv_give_back with (p := p); simpl; try done; auto.
    + case_decide; lia.
    + intros Hcc. by apply Hcl.
  - by eapply pool_destroyed_inv.
  - by eapply pool_close_inv.
Qed.

Lemma pool_step_limits s s' :
  pool_step s s' → pl_max_agents (ph_pool s') = pl_max_agents (ph_pool s).
Proof.
  assert (∀ p w n p' w', pool_wake_one p w = (n, p', w') → pl_max_agents p' = pl_max_agents p) as Hw.
  { intros p w n p' w'. unfold pool_wake_one. destruct (wake_list _ w) as [[? ?] ?]. by intros [= <- <- <-]. }
  assert (∀ fuel p w, pl_max_agents (pool_close_wake fuel p w).1.2 = pl_max_agents p) as Hcw.
  { induction fuel as [|fuel IH]; intros p w; simpl; [done|]. destruct (pl_waiters p); [done|].
    destruct (pool_wake_one p w) as [[n p1] w1] eqn:Hk. specialize (IH p1 w1). apply Hw in Hk.
    destruct (pool_close_wake fuel p1 w1) as [[ns p2] w2]; simpl in *. congruence. }
  intros Hs. destruct Hs as [p hold wk wk' r p' _ Hr _|p hold wk wk' p' id h w _ Hr _ _
    |p hold wk t w r n p' w' _ Hb|p hold wk w n p' w' _ Hb|p hold wk t w n p' w' _ Hb
    |p hold wk t w n p' w' _ Hb|p hold wk id w n p' w' Hb|p hold wk w ns p' w' Hb]; simpl.
  - unfold pool_acquire_round in Hr. repeat case_match; by simplify_eq.
  - unfold pool_acquire_round in Hr. unfold pool_await_suspend. repeat case_match; by simplify_eq.
  - unfold pool_built, pool_reservation_drop in Hb. case_match; simplify_eq; [|done]. by apply Hw in H2.
  - by apply Hw in Hb.
  - unfold lease_release in Hb. apply Hw in Hb. rewrite Hb. simpl. by case_match.
  - by apply Hw in Hb.
  - unfold pool_awaiter_destroyed in Hb. case_match; [by apply Hw in Hb|by simplify_eq].
  - unfold pool_close in Hb. case_match; [by simplify_eq|].
    specialize (Hcw (length (pl_waiters p)) (pool_set_idle [] (pool_set_closed true p)) w). by rewrite Hb in Hcw.
Qed.

Lemma pool_run_inv a i s : pool_run a i s → pool_inv s ∧ pl_max_agents (ph_pool s) = a.
Proof.
  induction 1 as [|s s' _ [IH1 IH2] Hs]; [split; [apply pool_inv_new|done]|].
  split; [by eapply pool_step_inv|]. rewrite <- IH2. by apply pool_step_limits.
Qed.

(** The pool never exceeds its limit: in every history, the resources lent, being
    built and idle together number at most [max_agents] (when that is not zero), the
    counter [in_use_] is exactly the number of leases and builds (so it never
    underflows), and the idle ones number at most [max_idle]. *)
Theorem pool_bounded a i s :
  pool_run a i s → a ≠ 0 →
  pl_in_use (ph_pool s) = ph_holders s ∧
  length (pl_idle (ph_pool s)) + ph_holders s ≤ a ∧
  length (pl_idle (ph_pool s)) ≤ pl_max_idle (ph_pool s).
Proof.
  intros Hr Ha. destruct (pool_run_inv a i s Hr) as [[Hc Hb Hi _ _ _ _] Hm].
  rewrite Hm in Hb. specialize (Hb Ha). split_and!; [done|lia|done].
Qed.

End pool.

(** ** Scenario: a pool of one resource, a second caller waits, the lease is released *)

Definition pool_demo_waiting : pool_hist (T := nat) := mkHist (mkPool [] [mkNode 1 11] 1 1 1 false) 1 [].

Lemma pool_demo_run : pool_run (W := world) 1 1 pool_demo_waiting.
Proof.
  eapply PRunS; [eapply PRunS; [eapply PRunS; [apply PRun0|]|]|].
  - apply (PSRound _ 0 [] [] PrBuild (mkPool [] [] 1 1 1 false)); [by left|reflexivity|done].
  - apply (PSBuilt _ 1 [] 5 w_demo (Some 5) None (mkPool [] [] 1 1 1 false) w_demo); [lia|reflexivity].
  - apply (PSWait _ 1 [] [] (mkPool [] [] 1 1 1 false) 1 11 w_demo); [by left|reflexivity|reflexivity|done].
Qed.

Lemma pool_bounded_witness :
  length (pl_idle (ph_pool pool_demo_waiting)) + ph_holders pool_demo_waiting ≤ 1.
Proof. exact (proj1 (proj2 (pool_bounded 1 1 pool_demo_waiting pool_demo_run ltac:(done)))). Defined.

