(* ===== verification/ContextM.v ===== *)
(** * ContextM: cancellation sources, tokens, shields and contexts

    [src/include/coro/context.hpp].  The state is shared by the source, its tokens and
    the waiters; the outcome of each wait is a cell of its own, which the timer heap
    and the cancellation both try to set from 0.  Durations are nanoseconds. *)

From S2P Require Import Prelude ReadyQueue Timers Frames EventLoop Runtime.
From stdpp Require Import options.
#[local] Set Default Proof Using "Type*".

(** [enum class cancel_outcome], as the cells hold it. *)
Definition cancel_pending : Z := 0.
Definition cancel_cancelled : Z := 1.
Definition cancel_timeout : Z := 2.

(** [struct cancel_wait_record]; a null loop is 0. *)
Record cancel_wait_record : Type := mkCancelRec {
  cr_handle : handle;
  cr_loop : loop_id;
  cr_outcome : option loc;
}.

(** [struct cancellation_state]. *)
Record cancellation_state : Type := mkCancelState {
  cs_cancelled : bool;
  cs_waiters : list cancel_wait_record;
  cs_shield_depth : nat;
  cs_deferred : bool;
}.

Definition cancellation_init : cancellation_state := mkCancelState false [] 0 false.

Implicit Types st : cancellation_state.

Definition claim_cancel st : bool * cancellation_state :=
  if cs_cancelled st then (false, st)
  else (true, mkCancelState true (cs_waiters st) (cs_shield_depth st) (cs_deferred st)).

Definition claim_cancel_shielded st : bool * cancellation_state :=
  if decide (0 < cs_shield_depth st)
  then (false, mkCancelState (cs_cancelled st) (cs_waiters st) (cs_shield_depth st) true)
  else if cs_cancelled st then (false, st)
  else (true, mkCancelState true (cs_waiters st) (cs_shield_depth st) (cs_deferred st)).

Definition shield_enter st : cancellation_state :=
  mkCancelState (cs_cancelled st) (cs_waiters st) (S (cs_shield_depth st)) (cs_deferred st).

Definition shield_exit st : bool * cancellation_state :=
  let depth := if decide (0 < cs_shield_depth st) then pred (cs_shield_depth st) else cs_shield_depth st in
  if bool_decide (depth = 0) && cs_deferred st
  then claim_cancel (mkCancelState (cs_cancelled st) (cs_waiters st) depth false)
  else (false, mkCancelState (cs_cancelled st) (cs_waiters st) depth (cs_deferred st)).

(** [take_waiter]: from the back. *)
Definition take_waiter st : option cancel_wait_record * cancellation_state :=
  match last (cs_waiters st) with
  | None => (None, st)
  | Some r => (Some r, mkCancelState (cs_cancelled st) (take (length (cs_waiters st) - 1) (cs_waiters st))
                         (cs_shield_depth st) (cs_deferred st))
  end.

Definition add_waiter (r : cancel_wait_record) st : cancellation_state :=
  mkCancelState (cs_cancelled st) (cs_waiters st ++ [r]) (cs_shield_depth st) (cs_deferred st).

(** The first record of the handle. *)
Fixpoint drop_record (h : handle) (rs : list cancel_wait_record) : list cancel_wait_record :=
  match rs with
  | [] => []
  | r :: rs => if decide (cr_handle r = h) then rs else r :: drop_record h rs
  end.

Definition drop_waiter (h : handle) st : cancellation_state :=
  mkCancelState (cs_cancelled st) (drop_record h (cs_waiters st))
    (cs_shield_depth st) (cs_deferred st).

Section context.
Context {W : Type} `{Runtime W}.
Implicit Types (w : W).

(** One round of [wake_waiters]. *)
Definition wake_record (r : cancel_wait_record) w : W :=
  if decide (cr_loop r = 0) then w
  else match cr_outcome r with
  | None => rt_schedule (cr_loop r) (cr_handle r) w
  | Some l =>
      let '(won, c) := int_cas l cancel_pending cancel_cancelled (rt_cells w) in
      if won then rt_schedule (cr_loop r) (cr_handle r) (rt_set_cells c w) else w
  end.

Fixpoint wake_waiters_loop (fuel : nat) st w : cancellation_state * W :=
  match fuel with
  | 0 => (st, w)
  | S fuel =>
      match take_waiter st with
      | (None, st) => (st, w)
      | (Some r, st) => wake_waiters_loop fuel st (wake_record r w)
      end
  end.

Definition wake_waiters st w : cancellation_state * W := wake_waiters_loop (S (length (cs_waiters st))) st w.

(** [CancellationSource::cancel]. *)
Definition source_cancel st w : cancellation_state * W :=
  let '(claimed, st) := claim_cancel_shielded st in
  if claimed then wake_waiters st w else (st, w).

(** [~cancellation_shield] of an active shield. *)
Definition shield_destroyed st w : cancellation_state * W :=
  let '(claimed, st) := shield_exit st in
  if claimed then wake_waiters st w else (st, w).

(** ** The awaiter *)

Record context_awaiter : Type := mkCtxAw {
  ca_deadline : option Z;
  ca_timer_token : option loc;
  ca_outcome : loc;
  ca_registered : handle;
}.

Definition context_await_ready st : bool := cs_cancelled st.

Definition context_retire (a : context_awaiter) st w : context_awaiter * cancellation_state * W :=
  let w := match ca_timer_token a with
           | None => w
           | Some t => rt_set_cells (flag_store t true (rt_cells w)) w
           end in
  let st := if decide (ca_registered a = null_handle) then st else drop_waiter (ca_registered a) st in
  (mkCtxAw (ca_deadline a) None (ca_outcome a) null_handle, st, w).

(** [await_suspend]; [raced] is what the second look at [cancelled] sees, [tok] the
    fresh location of the timer token. *)
Definition context_await_suspend (h : handle) (tok : loc) (a : context_awaiter) st w :
  context_awaiter * cancellation_state * W :=
  let a := mkCtxAw (ca_deadline a) (ca_timer_token a) (ca_outcome a) h in
  let st := add_waiter (mkCancelRec h (rt_loop w) (Some (ca_outcome a))) st in
  if cs_cancelled st then
    let '(a, st, w) := context_retire a st w in (a, st, rt_schedule (rt_loop w) h w)
  else match ca_deadline a with
  | None => (a, st, w)
  | Some d =>
      (mkCtxAw (Some d) (Some tok) (ca_outcome a) (ca_registered a), st,
       rt_schedule_timer h d (Some tok) (Some (ca_outcome a)) cancel_timeout
         (rt_set_cells (flag_store tok false (rt_cells w)) w))
  end.

Definition context_await_resume (a : context_awaiter) st w : exn * context_awaiter * cancellation_state * W :=
  let '(a, st, w) := context_retire a st w in
  let o := int_load (rt_cells w) (ca_outcome a) in
  let e := if decide (o = cancel_cancelled) then CancelledError
           else if decide (o = cancel_timeout) then TimeoutError
           else if cs_cancelled st then CancelledError else TimeoutError in
  (e, a, st, w).

(** [CancellationToken::cancelled], [token_wait]: no state counts as cancelled. *)
Definition token_cancelled (t : option cancellation_state) : bool := from_option cs_cancelled true t.

(** What [token_wait] answers to the exception of its wait. *)
Definition token_wait_result (e : exn) : res unit :=
  match e with CancelledError => Ok tt | e => Throw e end.

(** ** [Context] *)

Record ctx : Type := mkCtx { cx_deadline : option Z }.

Definition ctx_earlier (a b : option Z) : option Z :=
  match a, b with
  | None, _ => b
  | _, None => a
  | Some x, Some y => if decide (x < y)%Z then a else b
  end.

(** [chrono::ceil<milliseconds>] of nanoseconds. *)
Definition ctx_ceil_ms (d : Z) : Z := (- ((- d) `div` 1000000) * 1000000)%Z.

Definition ctx_with_timeout (d now : Z) : ctx := mkCtx (Some (now + ctx_ceil_ms d)%Z).
Definition ctx_make_child (c : ctx) : ctx := mkCtx (cx_deadline c).
Definition ctx_with_deadline (d now : Z) (c : ctx) : ctx :=
  mkCtx (ctx_earlier (cx_deadline c) (Some (now + ctx_ceil_ms d)%Z)).
Definition ctx_with_deadline_at (at_ : Z) (c : ctx) : ctx := mkCtx (ctx_earlier (cx_deadline c) (Some at_)).
Definition ctx_deadline_passed (now : Z) (c : ctx) : bool :=
  from_option (λ d, bool_decide (d ≤ now)%Z) false (cx_deadline c).

Definition ctx_throw_if_cancelled (now : Z) (c : ctx) st : option exn :=
  if cs_cancelled st then Some CancelledError
  else if ctx_deadline_passed now c then Some TimeoutError else None.

(** ** Waking *)

Lemma wake_waiters_loop_spec fuel st w :
  length (cs_waiters st) < fuel →
  wake_waiters_loop fuel st w =
    (mkCancelState (cs_cancelled st) [] (cs_shield_depth st) (cs_deferred st),
     foldl (λ w r, wake_record r w) w (reverse (cs_waiters st))).
Proof.
  revert st w. induction fuel as [|fuel IH]; intros st w Hf; [lia|]. simpl.
  destruct st as [c ws d df]; simpl in *. unfold take_waiter; simpl.
  destruct ws as [|r ws _] using rev_ind; [done|].
  rewrite last_snoc, length_app. simpl.
  rewrite IH; simpl; rewrite take_app_le, take_ge by lia;
    [|rewrite length_app in Hf; simpl in Hf; lia].
  by rewrite reverse_snoc.
Qed.

Lemma wake_waiters_spec st w :
  wake_waiters st w =
    (mkCancelState (cs_cancelled st) [] (cs_shield_depth st) (cs_deferred st),
     foldl (λ w r, wake_record r w) w (reverse (cs_waiters st))).
Proof. apply wake_waiters_loop_spec. lia. Qed.

(** ** Histories of one source *)

Inductive cancel_event : Type :=
  | CECancel
  | CEShieldEnter
  | CEShieldExit
  | CESuspend
  | CERetire.

Inductive cancel_step : cancel_event → cancellation_state → cancellation_state → Prop :=
  | CSCancel st w : cancel_step CECancel st (source_cancel st w).1
  | CSEnter st : cancel_step CEShieldEnter st (shield_enter st)
  | CSExit st w : 0 < cs_shield_depth st → cancel_step CEShieldExit st (shield_destroyed st w).1
  | CSSuspend h tok a st w : h ≠ null_handle → (∀ r, r ∈ cs_waiters st → cr_handle r ≠ h) →
      context_await_ready st = false →
      cancel_step CESuspend st (context_await_suspend h tok a st w).1.2
  | CSRetire a st w : cancel_step CERetire st (context_retire a st w).1.2.

Inductive cancel_run : list cancel_event → cancellation_state → Prop :=
  | CRun0 : cancel_run [] cancellation_init
  | CRunS es st e st' : cancel_run es st → cancel_step e st st' → cancel_run (es ++ [e]) st'.

(** Nesting of the shields after the events. *)
Definition shield_level (es : list cancel_event) : Z :=
  foldl (λ n e, match e with CEShieldEnter => n + 1 | CEShieldExit => n - 1 | _ => n end)%Z 0%Z es.

Lemma cancel_run_inv es st :
  cancel_run es st →
  Z.of_nat (cs_shield_depth st) = shield_level es ∧
  (CECancel ∈ es ↔ cs_cancelled st = true ∨ cs_deferred st = true) ∧
  (cs_deferred st = true → 0 < cs_shield_depth st) ∧
  (cs_cancelled st = true → cs_waiters st = []).
Proof.
  induction 1 as [|es st e st' Hrun (Hd & Hc & Hdef & Hw) Hs].
  { split_and!; try done. split; [by intros ?%elem_of_nil|by intros [|]]. }
  unfold shield_level in *. rewrite foldl_app, elem_of_app, list_elem_of_singleton, Hc. simpl.
  destruct Hs as [st w|st|st w Hpos|h tok a st w Hh Hfresh Hrd|a st w].
  - unfold source_cancel, claim_cancel_shielded. case_decide; simpl.
    + split_and!; try done. split; auto.
    + destruct (cs_cancelled st) eqn:Hcc; simpl.
      * split_and!; try done; [split; auto|]. intros _. by apply Hw.
      * rewrite wake_waiters_spec; simpl. split_and!; try done. split; auto.
  - simpl. split_and!; [lia| |intros; lia|done]. split; [by intros [|]|auto].
  - unfold shield_destroyed, shield_exit. rewrite decide_True by done.
    case_bool_decide as Hz; simpl; [destruct (cs_deferred st) eqn:Hdf; simpl|].
    + unfold claim_cancel; simpl. destruct (cs_cancelled st) eqn:Hcc; simpl.
      * split_and!; [lia| |done|done]. split; auto.
      * rewrite wake_waiters_spec; simpl. split_and!; [lia| |done|done]. split; auto.
    + split_and!; [lia| |done|done]. split; [intros [|]; [done|done]|auto].
    + split_and!; [lia| |intros; lia|done]. split; [intros [|]; [done|done]|auto].
  - unfold context_await_ready in Hrd. unfold context_await_suspend; simpl. rewrite Hrd.
    destruct (ca_deadline a); simpl; rewrite Hrd; (split_and!; [done| |done|done]);
      (split; [intros [|]; done|auto]).
  - unfold context_retire; simpl. case_decide; simpl.
    + split_and!; try done. split; [by intros [|]|auto].
    + split_and!; try done; [split; [by intros [|]|auto]|]. intros Hcc. by rewrite (Hw Hcc).
Qed.


(** While a shield is open, a cancel has no other effect than to be remembered. *)
Theorem cancel_deferred st w :
  0 < cs_shield_depth st →
  source_cancel st w = (mkCancelState (cs_cancelled st) (cs_waiters st) (cs_shield_depth st) true, w).
Proof. intros Hd. unfold source_cancel, claim_cancel_shielded. by rewrite decide_True. Qed.

Context `{!RuntimeLaws W}.

Lemma int_cas_spec l e d c :
  int_cas l e d c = (bool_decide (int_load c l = e), if decide (int_load c l = e) then int_store l d c else c).
Proof. unfold int_cas. case_decide; [by rewrite bool_decide_eq_true_2|by rewrite bool_decide_eq_false_2]. Qed.

Lemma int_load_store l d c l' :
  int_load (int_store l d c) l' = if decide (l' = l) then d else int_load c l'.
Proof.
  unfold int_load, int_store; simpl. case_decide; [subst; by rewrite lookup_insert_eq|by rewrite lookup_insert_ne].
Qed.

(** Waking one record: its cell, and the cells of the others. *)
Lemma wake_record_load r w l :
  int_load (rt_cells (wake_record r w)) l =
    if decide (cr_loop r ≠ 0 ∧ cr_outcome r = Some l ∧ int_load (rt_cells w) l = cancel_pending)
    then cancel_cancelled else int_load (rt_cells w) l.
Proof.
  unfold wake_record. case_decide as Hl; [by rewrite decide_False by naive_solver|].
  destruct (cr_outcome r) as [l'|].
  - rewrite int_cas_spec. case_bool_decide as Hp; simpl.
    + rewrite rl_schedule_cells, rl_cells_get, (decide_True (P := int_load _ _ = _)), int_load_store by done.
      case_decide; subst; [by rewrite decide_True by naive_solver|by rewrite decide_False by naive_solver].
    + by rewrite decide_False by naive_solver.
  - rewrite rl_schedule_cells. by rewrite decide_False by naive_solver.
Qed.

Lemma wake_record_mono r l h w : rt_queued l h w = true → rt_queued l h (wake_record r w) = true.
Proof.
  intros Hq. unfold wake_record. case_decide; [done|]. destruct (cr_outcome r).
  - destruct (int_cas _ _ _ _) as [[] c]; [|done]. apply rl_schedule_mono. by rewrite rl_cells_queued.
  - by apply rl_schedule_mono.
Qed.

Lemma wake_record_live r l h w : rt_live l h (wake_record r w) = rt_live l h w.
Proof.
  unfold wake_record. case_decide; [done|]. destruct (cr_outcome r).
  - destruct (int_cas _ _ _ _) as [[] c]; [|done]. by rewrite rl_schedule_live, rl_cells_live.
  - by rewrite rl_schedule_live.
Qed.

Lemma wake_record_queued r l w :
  cr_loop r ≠ 0 → cr_handle r ≠ null_handle → cr_outcome r = Some l → int_load (rt_cells w) l = cancel_pending →
  rt_live (cr_loop r) (cr_handle r) w = true → rt_queued (cr_loop r) (cr_handle r) (wake_record r w) = true.
Proof.
  intros Hl Hh Ho Hp Hlive. unfold wake_record. rewrite decide_False, Ho by done.
  rewrite int_cas_spec, bool_decide_eq_true_2 by done. simpl.
  apply rl_schedule_queued; [done|]. by rewrite rl_cells_live.
Qed.

(** Cells nobody in the list owns are untouched. *)
Lemma wake_all_load rs l w :
  (∀ r, r ∈ rs → cr_outcome r ≠ Some l) →
  int_load (rt_cells (foldl (λ w r, wake_record r w) w rs)) l = int_load (rt_cells w) l.
Proof.
  revert w. induction rs as [|r rs IH]; intros w Hno; simpl; [done|].
  rewrite IH by (intros; apply Hno; by right). rewrite wake_record_load, decide_False; [done|].
  intros (_ & Ho & _). by apply (Hno r); [left|].
Qed.

Lemma wake_all_mono rs l h w :
  rt_queued l h w = true → rt_queued l h (foldl (λ w r, wake_record r w) w rs) = true.
Proof. revert w. induction rs as [|r rs IH]; intros w Hq; simpl; [done|]. by apply IH, wake_record_mono. Qed.

Lemma wake_all_spec rs r l w :
  NoDup (cr_outcome <$> rs) → r ∈ rs → cr_loop r ≠ 0 → cr_handle r ≠ null_handle → cr_outcome r = Some l →
  rt_live (cr_loop r) (cr_handle r) w = true →
  let w' := foldl (λ w r, wake_record r w) w rs in
  (int_load (rt_cells w) l = cancel_pending →
     int_load (rt_cells w') l = cancel_cancelled ∧ rt_queued (cr_loop r) (cr_handle r) w' = true) ∧
  (int_load (rt_cells w) l ≠ cancel_pending → int_load (rt_cells w') l = int_load (rt_cells w) l).
Proof.
  revert w. induction rs as [|r0 rs IH]; intros w Hnd Hin Hl Hh Ho Hlive; simpl; [by apply elem_of_nil in Hin|].
  apply NoDup_cons in Hnd as [Hn Hnd]. apply elem_of_cons in Hin as [->|Hin].
  - assert (∀ r, r ∈ rs → cr_outcome r ≠ Some l) as Hno.
    { intros r Hr Heq. apply Hn. rewrite Ho, <- Heq. by apply list_elem_of_fmap_2. }
    rewrite wake_all_load by done. rewrite wake_record_load. split; intros Hp.
    + rewrite decide_True by done. split; [done|]. by eapply wake_all_mono, wake_record_queued.
    + by rewrite decide_False by naive_solver.
  - assert (cr_outcome r0 ≠ Some l) as Hne.
    { intros Heq. apply Hn. rewrite Heq, <- Ho. by apply list_elem_of_fmap_2. }
    specialize (IH (wake_record r0 w) Hnd Hin Hl Hh Ho). rewrite wake_record_live in IH. specialize (IH Hlive).
    rewrite wake_record_load, decide_False in IH by naive_solver. exact IH.
Qed.

(** Cancelling a source decides every wait once: a waiter whose outcome is still
    open gets "cancelled" and is queued on its own loop; one whose deadline had
    already won keeps "timeout"; no waiter remains registered; and the exception the
    waiter then throws is the one its cell names. *)
Theorem cancel_wakes st w r l a st2 :
  cs_cancelled st = false → cs_shield_depth st = 0 →
  NoDup (cr_outcome <$> cs_waiters st) → r ∈ cs_waiters st →
  cr_loop r ≠ 0 → cr_handle r ≠ null_handle → cr_outcome r = Some l →
  rt_live (cr_loop r) (cr_handle r) w = true → ca_outcome a = l → ca_timer_token a = None →
  let '(st', w') := source_cancel st w in
  cs_cancelled st' = true ∧ cs_waiters st' = [] ∧
  (int_load (rt_cells w) l = cancel_pending →
     rt_queued (cr_loop r) (cr_handle r) w' = true ∧
     (context_await_resume a st2 w').1.1.1 = CancelledError) ∧
  (int_load (rt_cells w) l = cancel_timeout →
     (context_await_resume a st2 w').1.1.1 = TimeoutError).
Proof.
  intros Hc Hd Hnd Hin Hl Hh Ho Hlive Ha Ht. unfold source_cancel, claim_cancel_shielded.
  rewrite decide_False, Hc by lia. rewrite wake_waiters_spec. simpl.
  pose proof (wake_all_spec (reverse (cs_waiters st)) r l w) as Hs. simpl in Hs.
  assert (NoDup (cr_outcome <$> reverse (cs_waiters st))) as Hnd' by (by rewrite reverse_Permutation).
  assert (r ∈ reverse (cs_waiters st)) as Hin' by (by rewrite elem_of_reverse).
  specialize (Hs Hnd' Hin' Hl Hh Ho Hlive) as [Hs1 Hs2].
  split_and!; [done|done| |]; intros Hp; unfold context_await_resume, context_retire; rewrite Ht; simpl; rewrite Ha.
  - destruct (Hs1 Hp) as [-> Hq]. done.
  - rewrite Hs2, Hp by (rewrite Hp; done). done.
Qed.
End context.

(** Deriving a context never extends its deadline: the derived deadline is the
    earlier of the inherited and the requested one, however the views are nested. *)
Theorem ctx_deadline_monotone (c : ctx) (d now at_ later : Z) :
  (∀ x, cx_deadline c = Some x →
     (∃ y, cx_deadline (ctx_with_deadline d now c) = Some y ∧ (y ≤ x)%Z ∧ (y ≤ now + ctx_ceil_ms d)%Z) ∧
     (∃ y, cx_deadline (ctx_with_deadline_at at_ c) = Some y ∧ y = Z.min x at_)) ∧
  (ctx_deadline_passed later c = true → ctx_deadline_passed later (ctx_with_deadline d now (ctx_make_child c)) = true) ∧
  (d ≤ ctx_ceil_ms d < d + 1000000)%Z.
Proof.
  assert (∀ x y, ctx_earlier (Some x) (Some y) = Some (Z.min x y)) as He.
  { intros x y. unfold ctx_earlier. case_decide; f_equal; lia. }
  split_and!.
  - intros x Hx. unfold ctx_with_deadline, ctx_with_deadline_at; simpl. rewrite Hx, !He.
    split; [exists (Z.min x (now + ctx_ceil_ms d)); split_and!; [done|lia|lia]|by eexists].
  - unfold ctx_deadline_passed, ctx_with_deadline, ctx_make_child; simpl.
    destruct (cx_deadline c) as [x|]; [|done]. rewrite He. simpl. rewrite !bool_decide_eq_true. lia.
  - unfold ctx_ceil_ms. pose proof (Z.div_mod (- d) 1000000 ltac:(lia)).
    pose proof (Z.mod_pos_bound (- d) 1000000 ltac:(lia)). lia.
  - unfold ctx_ceil_ms. pose proof (Z.div_mod (- d) 1000000 ltac:(lia)).
    pose proof (Z.mod_pos_bound (- d) 1000000 ltac:(lia)). lia.
Qed.

(** ** Scenario: coroutine 10 of loop 1 waits with the outcome cell 3 *)

Definition context_demo : cancellation_state := mkCancelState false [mkCancelRec 10 1 (Some 3)] 0 false.

Definition context_demo_awaiter : context_awaiter := mkCtxAw None None 3 10.


Lemma cancel_deferred_witness :
  source_cancel (shield_enter context_demo) w_demo =
    (mkCancelState false [mkCancelRec 10 1 (Some 3)] 1 true, w_demo).
Proof. exact (cancel_deferred (shield_enter context_demo) w_demo ltac:(simpl; lia)). Defined.

Lemma cancel_wakes_witness :
  ∃ st' w', source_cancel context_demo w_demo = (st', w') ∧ rt_queued 1 10 w' = true ∧
    (context_await_resume context_demo_awaiter context_demo w').1.1.1 = CancelledError.
Proof.
  assert (rt_live 1 10 w_demo = true) as Hlive by (vm_compute; reflexivity).
  assert (NoDup (cr_outcome <$> cs_waiters context_demo)) as Hnd by apply NoDup_singleton.
  pose proof (cancel_wakes context_demo w_demo (mkCancelRec 10 1 (Some 3)) 3 context_demo_awaiter context_demo
    eq_refl eq_refl Hnd ltac:(by left) ltac:(done) ltac:(done) eq_refl Hlive eq_refl eq_refl) as Hx.
  destruct (source_cancel context_demo w_demo) as [st' w']. exists st', w'.
  split; [reflexivity|]. exact (proj1 (proj2 (proj2 Hx)) eq_refl).
Defined.
