(* ===== verification/Radix.v ===== *)
(** * Radix: the route table ([radix_router])

    [src/router/radix_router.h].  A segment trie: nodes own their children, so the
    arena of the code is a tree here.  Strings are lists of characters; a
    [string_view] cut is a list.  [std::lower_bound] is its documented result on a
    sorted range, the first entry that is not less. *)

From S2P Require Import Prelude.
From Stdlib Require Import Ascii.
From stdpp Require Import options.

Definition slash : ascii := "/"%char.
Definition colon : ascii := ":"%char.
Definition star : ascii := "*"%char.

(** ** Captures: [params_view], eight inline slots and an overflow vector *)

Record params_view : Type := mkParams {
  pv_inline : list (str * str);
  pv_n : nat;
  pv_spilled : bool;
  pv_overflow : list (str * str);
}.

Definition pv_kInline : nat := 8.

Definition pv_new : params_view := mkParams (replicate pv_kInline ([], [])) 0 false [].

Definition pv_emplace_back (k v : str) (p : params_view) : params_view :=
  if pv_spilled p then mkParams (pv_inline p) (pv_n p) true (pv_overflow p ++ [(k, v)])
  else if decide (pv_n p < pv_kInline)
  then mkParams (<[pv_n p := (k, v)]> (pv_inline p)) (S (pv_n p)) false (pv_overflow p)
  else mkParams (pv_inline p) (pv_n p) true (take (pv_n p) (pv_inline p) ++ [(k, v)]).

Definition pv_pop_back (p : params_view) : params_view :=
  if pv_spilled p
  then mkParams (pv_inline p) (pv_n p) true (take (length (pv_overflow p) - 1) (pv_overflow p))
  else if decide (0 < pv_n p) then mkParams (pv_inline p) (pred (pv_n p)) false (pv_overflow p)
  else p.

Definition pv_clear (p : params_view) : params_view := mkParams (pv_inline p) 0 false [].

Definition pv_size (p : params_view) : nat := if pv_spilled p then length (pv_overflow p) else pv_n p.

(** [begin()] to [end()]. *)
Definition pv_list (p : params_view) : list (str * str) :=
  if pv_spilled p then pv_overflow p else take (pv_n p) (pv_inline p).

Definition pv_ok (p : params_view) : Prop := length (pv_inline p) = pv_kInline ∧ pv_n p ≤ pv_kInline.

Lemma pv_emplace_back_spec k v p :
  pv_ok p → pv_ok (pv_emplace_back k v p) ∧ pv_list (pv_emplace_back k v p) = pv_list p ++ [(k, v)].
Proof.
  intros [Hl Hn]. unfold pv_emplace_back, pv_list, pv_ok. destruct (pv_spilled p) eqn:Hs; simpl; [done|].
  case_decide; simpl; [|done]. rewrite length_insert. split; [lia|].
  erewrite take_S_r; [|apply list_lookup_insert_eq; lia]. by rewrite take_insert_ge.
Qed.

Lemma pv_pop_back_spec p x l :
  pv_ok p → pv_list p = l ++ [x] → pv_ok (pv_pop_back p) ∧ pv_list (pv_pop_back p) = l.
Proof.
  intros [Hl Hn]. unfold pv_pop_back, pv_list, pv_ok. destruct (pv_spilled p) eqn:Hs; simpl.
  - intros ->. split; [done|]. rewrite length_app; simpl. by rewrite take_app_le, take_ge by lia.
  - intros Heq. assert (length (take (pv_n p) (pv_inline p)) = S (length l)) as Hlen.
    { rewrite Heq, length_app; simpl; lia. }
    rewrite length_take in Hlen. rewrite decide_True by lia. simpl. split; [lia|].
    assert (take (pred (pv_n p)) (take (pv_n p) (pv_inline p)) = take (pred (pv_n p)) (l ++ [x])) as H by (by rewrite Heq).
    rewrite take_take, Nat.min_l in H by lia. rewrite H. rewrite take_app_le, take_ge by lia. done.
Qed.

Lemma pv_clear_spec p : pv_ok p → pv_ok (pv_clear p) ∧ pv_list (pv_clear p) = [].
Proof. intros [Hl Hn]. split; [by split; [|simpl; lia]|done]. Qed.

Lemma pv_size_spec p : pv_ok p → pv_size p = length (pv_list p).
Proof.
  intros [Hl Hn]. unfold pv_size, pv_list. destruct (pv_spilled p); [done|]. rewrite length_take. lia.
Qed.

(** ** Segments *)

(** The part before the first slash, and the rest from it. *)
Fixpoint split_slash (p : str) : str * str :=
  match p with
  | [] => ([], [])
  | c :: p' => if decide (c = slash) then ([], p) else let '(s, r) := split_slash p' in (c :: s, r)
  end.

Definition strip_slash (p : str) : str :=
  match p with c :: p' => if decide (c = slash) then p' else p | [] => [] end.

Definition next_segment (p : str) : str * str := split_slash (strip_slash p).

Definition segment_has_misplaced_special (seg : str) : bool :=
  existsb (λ c, bool_decide (c = colon) || bool_decide (c = star)) seg.

(** [pattern.find("//") != npos]. *)
Fixpoint has_double_slash (p : str) : bool :=
  match p with
  | c :: (d :: _) as p' => (bool_decide (c = slash) && bool_decide (d = slash)) || has_double_slash p'
  | _ => false
  end.

Lemma split_slash_length p : length (split_slash p).1 + length (split_slash p).2 = length p.
Proof.
  induction p as [|c p IH]; simpl; [done|]. case_decide; simpl; [done|].
  destruct (split_slash p); simpl in *. lia.
Qed.

Lemma next_segment_shorter p seg rest :
  next_segment p = (seg, rest) → seg ≠ [] → length rest < length p.
Proof.
  unfold next_segment. intros Heq Hs. pose proof (split_slash_length (strip_slash p)) as Hl.
  rewrite Heq in Hl. simpl in Hl. destruct seg; [done|]. simpl in Hl.
  assert (length (strip_slash p) ≤ length p) by (destruct p; simpl; [lia|case_decide; simpl; lia]). lia.
Qed.

(** ** The trie *)

Section radix.
Context {V : Type}.

(** [struct node]. *)
Inductive node : Type :=
  | Node (statics : list (str * node)) (param wild : option node) (name : str) (value : option V).

Definition nd_statics (n : node) := let 'Node s _ _ _ _ := n in s.
Definition nd_param (n : node) := let 'Node _ p _ _ _ := n in p.
Definition nd_wild (n : node) := let 'Node _ _ w _ _ := n in w.
Definition nd_name (n : node) := let 'Node _ _ _ m _ := n in m.
Definition nd_value (n : node) := let 'Node _ _ _ _ v := n in v.

(** [new_node] with a name. *)
Definition new_node (name : str) : node := Node [] None None name None.

Definition nd_set_statics s n := Node s (nd_param n) (nd_wild n) (nd_name n) (nd_value n).
Definition nd_set_param p n := Node (nd_statics n) p (nd_wild n) (nd_name n) (nd_value n).
Definition nd_set_wild w n := Node (nd_statics n) (nd_param n) w (nd_name n) (nd_value n).
Definition nd_set_value v n := Node (nd_statics n) (nd_param n) (nd_wild n) (nd_name n) v.

(** Comparison of strings, by unsigned characters. *)
Fixpoint str_ltb (a b : str) : bool :=
  match a, b with
  | _, [] => false
  | [], _ :: _ => true
  | x :: a, y :: b =>
      if decide (nat_of_ascii x < nat_of_ascii y) then true
      else if decide (x = y) then str_ltb a b else false
  end.

Definition kLinearMax : nat := 8.

Fixpoint lower_bound_child (l : list (str * node)) (seg : str) : nat :=
  match l with
  | [] => 0
  | (k, _) :: l => if str_ltb k seg then S (lower_bound_child l seg) else 0
  end.

(** The linear search: the first entry with the key. *)
Fixpoint linear_child (l : list (str * node)) (seg : str) : option nat :=
  match l with
  | [] => None
  | (k, _) :: l => if decide (k = seg) then Some 0 else S <$> linear_child l seg
  end.

(** The common search of [find_child] and [find_or_create_child]. *)
Definition child_index (l : list (str * node)) (seg : str) : option nat :=
  if decide (length l ≤ kLinearMax) then linear_child l seg
  else
    let i := lower_bound_child l seg in
    match l !! i with
    | Some (k, _) => if decide (k = seg) then Some i else None
    | None => None
    end.

Definition find_child (l : list (str * node)) (seg : str) : option node :=
  match child_index l seg with
  | Some i => snd <$> l !! i
  | None => None
  end.

(** [find_or_create_child] and the update of the child it returns. *)
Definition update_child (l : list (str * node)) (seg : str) (f : node → node) : list (str * node) :=
  match child_index l seg with
  | Some i => alter (λ kc, (kc.1, f kc.2)) i l
  | None => let i := lower_bound_child l seg in take i l ++ (seg, f (new_node [])) :: drop i l
  end.

(** ** Validation *)

Definition starts (c : ascii) (seg : str) : bool := bool_decide (head seg = Some c).

(** [seg.size() == 1 || segment_has_misplaced_special(seg.substr(1))]. *)
Definition bad_name (seg : str) : bool :=
  bool_decide (length seg = 1) || segment_has_misplaced_special (tail seg).

Fixpoint validate_syntax_loop (fuel : nat) (rest : str) : bool :=
  match fuel with
  | 0 => true
  | S fuel =>
      match rest with
      | [] => true
      | _ =>
          let '(seg, remaining) := next_segment rest in
          if bool_decide (seg = []) then bool_decide (remaining = [])
          else if starts star seg then
            bool_decide (remaining = []) && bool_decide (1 < length seg) && negb (segment_has_misplaced_special (tail seg))
          else if starts colon seg then
            if bad_name seg then false else validate_syntax_loop fuel remaining
          else if segment_has_misplaced_special seg then false
          else validate_syntax_loop fuel remaining
      end
  end.

Definition validate_syntax (rest : str) : bool := validate_syntax_loop (S (length rest)) rest.

Fixpoint validate_loop (fuel : nat) (cur : node) (rest : str) : bool :=
  match fuel with
  | 0 => true
  | S fuel =>
      let '(seg, remaining) := next_segment rest in
      if bool_decide (seg = []) then bool_decide (remaining = [])
      else if starts star seg then
        if negb (bool_decide (remaining = [])) || bad_name seg then false
        else match nd_wild cur with
             | Some w => bool_decide (nd_name w = tail seg)
             | None => true
             end
      else if starts colon seg then
        if bad_name seg then false
        else match nd_param cur with
             | Some p =>
                 if decide (nd_name p = tail seg) then
                   if bool_decide (remaining = []) then true else validate_loop fuel p remaining
                 else false
             | None => validate_syntax remaining
             end
      else if segment_has_misplaced_special seg then false
      else match find_child (nd_statics cur) seg with
           | Some c => if bool_decide (remaining = []) then true else validate_loop fuel c remaining
           | None => validate_syntax remaining
           end
  end.

Definition validate (root : node) (pattern : str) : bool := validate_loop (S (length pattern)) root pattern.

(** ** Insertion *)

(** The loop that builds the path and sets the value at its end. *)
Fixpoint insert_loop (fuel : nat) (v : V) (cur : node) (rest : str) : node :=
  match fuel with
  | 0 => cur
  | S fuel =>
      let '(seg, remaining) := next_segment rest in
      if bool_decide (seg = []) then nd_set_value (Some v) cur
      else if starts star seg then
        let w := default (new_node (tail seg)) (nd_wild cur) in
        nd_set_wild (Some (nd_set_value (Some v) w)) cur
      else
        let go := λ child, if bool_decide (remaining = []) then nd_set_value (Some v) child
                           else insert_loop fuel v child remaining in
        if starts colon seg then
          nd_set_param (Some (go (default (new_node (tail seg)) (nd_param cur)))) cur
        else nd_set_statics (update_child (nd_statics cur) seg go) cur
  end.

(** [find_exact] after its checks. *)
Fixpoint find_exact_loop (fuel : nat) (cur : node) (rest : str) : option V :=
  match fuel with
  | 0 => None
  | S fuel =>
      let '(seg, remaining) := next_segment rest in
      if bool_decide (seg = []) then nd_value cur
      else
        let next :=
          if starts colon seg then
            match nd_param cur with
            | Some p => if decide (nd_name p = tail seg) then Some p else None
            | None => None
            end
          else if starts star seg then
            match nd_wild cur with
            | Some w => if decide (nd_name w = tail seg) then Some w else None
            | None => None
            end
          else find_child (nd_statics cur) seg in
        match next with
        | None => None
        | Some c => if bool_decide (remaining = []) then nd_value c else find_exact_loop fuel c remaining
        end
  end.

(** The members of [radix_router]; the arena is the tree. *)
Record router : Type := mkRouter {
  rr_root : node;
  rr_count : nat;
  rr_log : list str;
}.

Definition router_init : router := mkRouter (new_node []) 0 [].

(** The guard and the trailing slash common to [insert] and [find_exact]. *)
Definition pattern_shape (p : str) : bool :=
  bool_decide (head p = Some slash) && negb (has_double_slash p).

Definition trim_slash (p : str) : str :=
  if bool_decide (1 < length p) && bool_decide (last p = Some slash) then take (length p - 1) p else p.

Definition find_exact (r : router) (pattern : str) : option V :=
  if negb (pattern_shape pattern) then None
  else
    let pattern := trim_slash pattern in
    if negb (validate_syntax pattern) then None
    else find_exact_loop (S (length pattern)) (rr_root r) pattern.

Definition router_insert (pattern : str) (v : V) (r : router) : bool * router :=
  if negb (pattern_shape pattern) then (false, r)
  else
    let pattern := trim_slash pattern in
    if negb (validate (rr_root r) pattern) then (false, r)
    else
      let is_new := bool_decide (find_exact_loop (S (length pattern)) (rr_root r) pattern = None) in
      let root := insert_loop (S (length pattern)) v (rr_root r) pattern in
      (true, mkRouter root (if is_new then S (rr_count r) else rr_count r)
               (if is_new then rr_log r ++ [pattern] else rr_log r)).

Definition router_clear (r : router) : router := router_init.

(** ** Lookup *)

Definition path_end (rest : str) : bool := bool_decide (rest = []) || bool_decide (rest = [slash]).

(** Try the next branch when one fails. *)
Definition or_else (r : option V * params_view) (k : params_view → option V * params_view) :
  option V * params_view :=
  match r with (Some v, caps) => (Some v, caps) | (None, caps) => k caps end.

Fixpoint dfs (fuel : nat) (cur : node) (rest : str) (caps : params_view) : option V * params_view :=
  match fuel with
  | 0 => (None, caps)
  | S fuel =>
      if path_end rest then (nd_value cur, caps)
      else
        let '(seg, remaining) := next_segment rest in
        or_else
          (if bool_decide (seg = []) then (None, caps)
           else match find_child (nd_statics cur) seg with
                | Some child => dfs fuel child remaining caps
                | None => (None, caps)
                end)
          (λ caps, or_else
            (match nd_param cur with
             | Some p =>
                 if bool_decide (seg = []) then (None, caps)
                 else or_else (dfs fuel p remaining (pv_emplace_back (nd_name p) seg caps))
                        (λ caps, (None, pv_pop_back caps))
             | None => (None, caps)
             end)
            (λ caps,
              match nd_wild cur with
              | Some w =>
                  let caps := pv_emplace_back (nd_name w) (strip_slash rest) caps in
                  match nd_value w with
                  | Some v => (Some v, caps)
                  | None => (None, pv_pop_back caps)
                  end
              | None => (None, caps)
              end))
  end.

Definition router_lookup (r : router) (path : str) (out : params_view) : option V * params_view :=
  match path with
  | [] => (None, out)
  | _ => dfs (S (length path)) (rr_root r) path (pv_clear out)
  end.
End radix.
Arguments node : clear implicits.
Arguments router : clear implicits.

(** ** Patterns as lists of items *)

Inductive item : Type :=
  | IStatic (s : str)
  | IParam (name : str)
  | IWild (name : str).

#[export] Instance item_eq_dec : EqDecision item.
Proof. solve_decision. Defined.

Definition item_of (seg : str) : item :=
  if starts star seg then IWild (tail seg) else if starts colon seg then IParam (tail seg) else IStatic seg.

Fixpoint items_loop (fuel : nat) (rest : str) : list item :=
  match fuel with
  | 0 => []
  | S fuel =>
      let '(seg, remaining) := next_segment rest in
      if bool_decide (seg = []) then []
      else item_of seg :: (if bool_decide (remaining = []) then [] else items_loop fuel remaining)
  end.

(** The items of a pattern, after the trailing slash is gone. *)
Definition items (pattern : str) : list item :=
  let p := trim_slash pattern in items_loop (S (length p)) p.

(** A pattern matches what is left of a path, with these captures. *)
Inductive matches : list item → str → list (str * str) → Prop :=
  | MEnd rest : path_end rest = true → matches [] rest []
  | MStatic s its rest remaining caps :
      path_end rest = false → next_segment rest = (s, remaining) → s ≠ [] →
      matches its remaining caps → matches (IStatic s :: its) rest caps
  | MParam name its rest seg remaining caps :
      path_end rest = false → next_segment rest = (seg, remaining) → seg ≠ [] →
      matches its remaining caps → matches (IParam name :: its) rest ((name, seg) :: caps)
  | MWild name rest :
      path_end rest = false → matches [IWild name] rest [(name, strip_slash rest)].

Definition item_rank (i : item) : nat := match i with IStatic _ => 0 | IParam _ => 1 | IWild _ => 2 end.

(** [a] is preferred to [b]: equal, or of better kind at the first difference. *)
Definition preferred (a b : list item) : Prop :=
  a = b ∨ ∃ p x y a' b', a = p ++ x :: a' ∧ b = p ++ y :: b' ∧ item_rank x < item_rank y.

Lemma preferred_cons i a b : preferred a b → preferred (i :: a) (i :: b).
Proof.
  intros [->|(p & x & y & a' & b' & -> & -> & Hr)]; [by left|right]. by exists (i :: p), x, y, a', b'.
Qed.

Lemma preferred_rank i j a b : item_rank i < item_rank j → preferred (i :: a) (j :: b).
Proof. intros. right. by exists [], i, j, a, b. Qed.

Section trie.
Context {V : Type}.
Implicit Types (n cur : node V) (l : list (str * node V)).

(** The value stored at the end of a list of items. *)
Fixpoint find_items cur (its : list item) : option V :=
  match its with
  | [] => nd_value cur
  | IStatic s :: its => match find_child (nd_statics cur) s with Some c => find_items c its | None => None end
  | IParam m :: its =>
      match nd_param cur with Some p => if decide (nd_name p = m) then find_items p its else None | None => None end
  | IWild m :: its =>
      match nd_wild cur with Some w => if decide (nd_name w = m) then find_items w its else None | None => None end
  end.

(** ** Lookup *)

Lemma matches_end its rest caps : path_end rest = true → matches its rest caps → its = [] ∧ caps = [].
Proof. intros He. destruct 1; [done|congruence..]. Qed.

(** Inversion of a match, with the segment of the path identified. *)
Ltac inv_match H :=
  inversion H; subst;
  repeat match goal with
  | H1 : next_segment ?r = _, H2 : next_segment ?r = _ |- _ => rewrite H1 in H2; simplify_eq
  end; try done; try congruence.

(** What a part of the search owes its caller when it is responsible for the patterns [P]:
    a registered pattern that matches, its captures appended, preferred to every other
    one; or no pattern of [P] matches, and the captures are as before. *)
Definition search_ok (P : list item → Prop) cur rest caps (r : option V * params_view) : Prop :=
  pv_ok r.2 ∧
  match r.1 with
  | Some v => ∃ its c, find_items cur its = Some v ∧ matches its rest c ∧ pv_list r.2 = pv_list caps ++ c ∧
      ∀ its' v' c', find_items cur its' = Some v' → matches its' rest c' → preferred its its'
  | None => pv_list r.2 = pv_list caps ∧
      ∀ its v c, P its → find_items cur its = Some v → ¬ matches its rest c
  end.

(** No registered pattern of these matches. *)
Definition no_match (P : list item → Prop) cur rest : Prop :=
  ∀ its v c, P its → find_items cur its = Some v → ¬ matches its rest c.

Definition any_items (its : list item) : Prop := True.
Definition static_items (its : list item) : Prop := ∃ s its', its = IStatic s :: its'.
Definition param_items (its : list item) : Prop := ∃ m its', its = IParam m :: its'.

(** The branches in order: what the first settles, or else the second. *)
Lemma search_or_else P Q R cur rest caps r k :
  search_ok P cur rest caps r →
  (∀ caps', pv_ok caps' → pv_list caps' = pv_list caps → no_match P cur rest →
     search_ok Q cur rest caps' (k caps')) →
  (∀ its, R its → P its ∨ Q its) →
  search_ok R cur rest caps (or_else r k).
Proof.
  intros [Hok Hr] Hk HR. destruct r as [[v|] caps1]; simpl in *; [by split|].
  destruct Hr as [Hc Hno]. destruct (Hk caps1 Hok Hc Hno) as [Hok2 H2]. split; [done|].
  rewrite <- Hc. destruct (k caps1) as [[v|] caps2]; simpl in *; [done|].
  destruct H2 as [Hc2 Hno2]. split; [done|]. intros its v c [HP|HQ]%HR; eauto.
Qed.

Lemma search_end cur rest caps :
  pv_ok caps → path_end rest = true → search_ok any_items cur rest caps (nd_value cur, caps).
Proof.
  intros Hok Hend. split; [done|]. simpl. destruct (nd_value cur) as [v|] eqn:Hv.
  - exists [], []. rewrite app_nil_r. split_and!; [done|by constructor|done|].
    intros its' v' c' _ Hm. apply matches_end in Hm as [-> ->]; [by left|done].
  - split; [done|]. intros its v c _ Hfi Hm. apply matches_end in Hm as [-> ->]; [|done]. simpl in Hfi. congruence.
Qed.

(** A branch with nothing to try. *)
Lemma search_none P cur rest caps :
  pv_ok caps → no_match P cur rest → search_ok P cur rest caps (None, caps).
Proof. by split. Qed.

Lemma search_static cur rest caps seg remaining child r :
  path_end rest = false → next_segment rest = (seg, remaining) → seg ≠ [] →
  find_child (nd_statics cur) seg = Some child →
  search_ok any_items child remaining caps r → search_ok static_items cur rest caps r.
Proof.
  intros Hend Hseg Hs Hc [Hok Hx]. split; [done|]. destruct r as [[v|] caps1]; simpl in *.
  - destruct Hx as (its & c & Hfi & Hm & Hcaps & Hpref). exists (IStatic seg :: its), c. simpl. rewrite Hc.
    split_and!; [done|by eapply MStatic|done|].
    intros its' v' c' Hfi' Hm'. inv_match Hm'.
    + apply preferred_cons. simpl in Hfi'. rewrite Hc in Hfi'. by eapply Hpref.
    + apply preferred_rank. simpl. lia.
    + apply preferred_rank. simpl. lia.
  - destruct Hx as [Hcaps Hno]. split; [done|]. intros ? v c (s & its & ->) Hfi Hm.
    inv_match Hm. simpl in Hfi. rewrite Hc in Hfi. by eapply Hno.
Qed.

Lemma search_param cur rest caps seg remaining p r :
  path_end rest = false → next_segment rest = (seg, remaining) → seg ≠ [] →
  nd_param cur = Some p → pv_ok caps → no_match static_items cur rest →
  search_ok any_items p remaining (pv_emplace_back (nd_name p) seg caps) r →
  search_ok param_items cur rest caps (or_else r (λ caps, (None, pv_pop_back caps))).
Proof.
  intros Hend Hseg Hs Hp Hok Hno1. destruct (pv_emplace_back_spec (nd_name p) seg caps Hok) as [Hokc Hc].
  intros [Hokd Hx]. destruct r as [[v|] caps2]; simpl in *.
  - split; [done|]. destruct Hx as (its & c & Hfi & Hm & Hcaps & Hpref).
    exists (IParam (nd_name p) :: its), ((nd_name p, seg) :: c). simpl. rewrite Hp, decide_True by done.
    split_and!; [done|by eapply MParam| |].
    { rewrite Hcaps, Hc. by rewrite <- (assoc_L (++)). }
    intros its' v' c' Hfi' Hm'. inv_match Hm'.
    + exfalso. eapply Hno1; [by eexists _, _|done|done].
    + simpl in Hfi'. rewrite Hp in Hfi'. case_decide; [subst|done]. apply preferred_cons. by eapply Hpref.
    + apply preferred_rank. simpl. lia.
  - destruct Hx as [Hcaps Hno]. rewrite Hc in Hcaps.
    destruct (pv_pop_back_spec caps2 _ _ Hokd Hcaps) as [Hokp Hcp]. split; [done|]. split; [done|].
    intros ? v c (m & its & ->) Hfi Hm. inv_match Hm. simpl in Hfi. rewrite Hp in Hfi.
    case_decide; [|done]. by eapply Hno.
Qed.

(** When neither of the others matches, only the wildcard child can. *)
Lemma only_wild cur rest its v c :
  path_end rest = false → no_match static_items cur rest → no_match param_items cur rest →
  find_items cur its = Some v → matches its rest c →
  ∃ w, nd_wild cur = Some w ∧ its = [IWild (nd_name w)] ∧ nd_value w = Some v.
Proof.
  intros Hend Hno1 Hno2 Hfi Hm. inv_match Hm.
  - exfalso. eapply Hno1; [by eexists _, _|done|done].
  - exfalso. eapply Hno2; [by eexists _, _|done|done].
  - simpl in Hfi. destruct (nd_wild cur) as [w|]; [|done]. case_decide; [subst|done]. by exists w.
Qed.

Lemma search_wild cur rest caps :
  path_end rest = false → pv_ok caps → no_match static_items cur rest → no_match param_items cur rest →
  search_ok any_items cur rest caps
    match nd_wild cur with
    | Some w =>
        let caps := pv_emplace_back (nd_name w) (strip_slash rest) caps in
        match nd_value w with Some v => (Some v, caps) | None => (None, pv_pop_back caps) end
    | None => (None, caps)
    end.
Proof.
  intros Hend Hok Hno1 Hno2.
  pose proof (λ its v c, only_wild cur rest its v c Hend Hno1 Hno2) as Hwild.
  destruct (nd_wild cur) as [w|] eqn:Hw; simpl.
  - destruct (pv_emplace_back_spec (nd_name w) (strip_slash rest) caps Hok) as [Hokc Hc].
    destruct (nd_value w) as [v|] eqn:Hv; simpl.
    + split; [done|]. exists [IWild (nd_name w)], [(nd_name w, strip_slash rest)].
      split_and!; [|by constructor|done|].
      * simpl. by rewrite Hw, decide_True.
      * intros its' v' c' Hfi Hm. destruct (Hwild _ _ _ Hfi Hm) as (w' & Hw' & -> & _). simplify_eq. by left.
    + destruct (pv_pop_back_spec _ _ _ Hokc Hc) as [Hokp Hcp]. split; [done|]. split; [done|].
      intros its v c _ Hfi Hm. destruct (Hwild _ _ _ Hfi Hm) as (w' & Hw' & _ & Hv'). congruence.
  - apply search_none; [done|]. intros its v c _ Hfi Hm. by destruct (Hwild _ _ _ Hfi Hm) as (w & ? & _).
Qed.

(** The search finds a registered pattern that matches, with its captures, and the
    preferred one; when it fails, none matches and the captures are as before. *)
Lemma dfs_spec fuel cur rest caps :
  pv_ok caps → length rest < fuel → search_ok any_items cur rest caps (dfs fuel cur rest caps).
Proof.
  revert cur rest caps. induction fuel as [|fuel IH]; intros cur rest caps Hok Hf; [lia|]. cbn [dfs].
  destruct (path_end rest) eqn:Hend; [by apply search_end|].
  destruct (next_segment rest) as [seg remaining] eqn:Hseg.
  assert (seg ≠ [] → length remaining < fuel) as Hlen.
  { intros Hs. pose proof (next_segment_shorter _ _ _ Hseg Hs). lia. }
  eapply (search_or_else static_items any_items); [| |by right].
  { case_bool_decide as Hs.
    { apply search_none; [done|]. intros ? v c (s & its & ->) _ Hm. by inv_match Hm. }
    destruct (find_child (nd_statics cur) seg) as [child|] eqn:Hc; [by eapply search_static; eauto|].
    apply search_none; [done|]. intros ? v c (s & its & ->) Hfi Hm. inv_match Hm.
    simpl in Hfi. by rewrite Hc in Hfi. }
  intros caps1 Hok1 _ Hno1. eapply (search_or_else param_items any_items); [| |by right].
  { destruct (nd_param cur) as [p|] eqn:Hp; [case_bool_decide as Hs|].
    - apply search_none; [done|]. intros ? v c (m & its & ->) _ Hm. by inv_match Hm.
    - eapply search_param; eauto. apply IH; [by apply pv_emplace_back_spec|auto].
    - apply search_none; [done|]. intros ? v c (m & its & ->) Hfi _. simpl in Hfi. by rewrite Hp in Hfi. }
  intros caps2 Hok2 _ Hno2. by apply search_wild.
Qed.
End trie.

(** ** The sorted child lists *)

Lemma ascii_cases (x y : ascii) :
  nat_of_ascii x < nat_of_ascii y ∨ x = y ∨ nat_of_ascii y < nat_of_ascii x.
Proof.
  destruct (Nat.lt_trichotomy (nat_of_ascii x) (nat_of_ascii y)) as [|[He|]]; [by left| |by do 2 right].
  right; left. rewrite <- (ascii_nat_embedding x), <- (ascii_nat_embedding y). by f_equal.
Qed.

Lemma str_ltb_irrefl a : str_ltb a a = false.
Proof. induction a as [|x a IH]; simpl; [done|]. rewrite decide_False by lia. by rewrite decide_True. Qed.

Lemma str_ltb_trans a b c : str_ltb a b = true → str_ltb b c = true → str_ltb a c = true.
Proof.
  revert b c. induction a as [|x a IH]; intros [|y b] [|z c]; simpl; try done.
  repeat case_decide; intros; subst; try done; try lia. by eapply IH.
Qed.

Lemma str_ltb_total a b : a ≠ b → str_ltb a b = false → str_ltb b a = true.
Proof.
  revert b. induction a as [|x a IH]; intros [|y b]; simpl; try done.
  intros Hne. destruct (ascii_cases x y) as [|[->|]].
  - by rewrite decide_True.
  - rewrite !(decide_False (P := nat_of_ascii y < nat_of_ascii y)) by lia.
    rewrite !decide_True by done. intros Hf. apply IH; [congruence|done].
  - intros _. by rewrite decide_True.
Qed.

Definition str_lt (a b : str) : Prop := str_ltb a b = true.

Definition keys_sorted {A} (l : list (str * A)) : Prop := StronglySorted str_lt (fst <$> l).

Section children.
Context {V : Type}.
Implicit Types (l : list (str * node V)).

Lemma linear_child_spec l s :
  match linear_child l s with
  | Some i => fst <$> l !! i = Some s
  | None => s ∉ fst <$> l
  end.
Proof.
  induction l as [|[k c] l IH]; simpl; [by intros ?%elem_of_nil|].
  case_decide as Hk; [by subst|]. destruct (linear_child l s); simpl; [done|].
  intros [|]%elem_of_cons; [congruence|done].
Qed.

(** Where the lower bound falls. *)
Lemma lower_bound_cases l s :
  keys_sorted l →
  let i := lower_bound_child l s in
  (∃ c, l !! i = Some (s, c)) ∨
  (s ∉ fst <$> l ∧ (∀ k c, l !! i = Some (k, c) → k ≠ s) ∧
   Forall (λ kc, str_lt kc.1 s) (take i l) ∧ Forall (λ kc, str_lt s kc.1) (drop i l)).
Proof.
  unfold keys_sorted. induction l as [|[k0 c0] l IH]; intros Hs.
  { right. simpl. split_and!; try done. by intros ?%elem_of_nil. }
  rewrite fmap_cons, StronglySorted_cons, Forall_fmap in Hs. destruct Hs as [Hf Hs].
  specialize (IH Hs). cbn [lower_bound_child].
  destruct (str_ltb k0 s) eqn:Hk; simpl.
  - destruct IH as [(c & Hc)|(Hn & Hne & Ht & Hd)]; [by left; exists c|right].
    split_and!; [|done|by constructor|done].
    intros [->|]%elem_of_cons; [by rewrite str_ltb_irrefl in Hk|done].
  - destruct (decide (k0 = s)) as [->|Hne]; [left; by exists c0|right].
    pose proof (str_ltb_total _ _ Hne Hk) as Hlt.
    assert (Forall (λ kc, str_lt s kc.1) ((k0, c0) :: l)) as Hall.
    { constructor; [done|]. eapply Forall_impl; [exact Hf|].
      intros [k c] Hkc. by eapply str_ltb_trans. }
    split_and!; [|by intros k c [= <- <-]|done|done].
    intros [->|Hin]%elem_of_cons; [done|]. apply list_elem_of_fmap in Hin as ([k c] & -> & Hin).
    rewrite Forall_forall in Hall. specialize (Hall (k, c) ltac:(by right)). unfold str_lt in Hall. simpl in Hall.
    by rewrite str_ltb_irrefl in Hall.
Qed.

(** Binary or linear, the search finds the key if it is there. *)
Lemma child_index_spec l s :
  keys_sorted l →
  match child_index l s with
  | Some i => ∃ c, l !! i = Some (s, c)
  | None => s ∉ fst <$> l
  end.
Proof.
  intros Hs. unfold child_index. case_decide.
  - pose proof (linear_child_spec l s) as Hl. destruct (linear_child l s) as [i|]; [|done].
    destruct (l !! i) as [[k c]|]; simplify_eq/=. by exists c.
  - destruct (lower_bound_cases l s Hs) as [(c & Hc)|(Hn & Hne & _)].
    + rewrite Hc, decide_True by done. by exists c.
    + destruct (l !! lower_bound_child l s) as [[k c]|] eqn:Hl; [|done].
      by rewrite decide_False by (by eapply Hne).
Qed.

Lemma keys_NoDup l : keys_sorted l → NoDup (fst <$> l).
Proof.
  unfold keys_sorted. induction (fst <$> l) as [|k ks IH]; [constructor|].
  intros [Hf Hs]%StronglySorted_cons. constructor; [|auto]. intros Hin.
  rewrite Forall_forall in Hf. specialize (Hf k Hin). unfold str_lt in Hf. by rewrite str_ltb_irrefl in Hf.
Qed.

Lemma keys_unique l s c c' : keys_sorted l → (s, c) ∈ l → (s, c') ∈ l → c = c'.
Proof.
  intros Hs (i & Hi)%list_elem_of_lookup (j & Hj)%list_elem_of_lookup.
  assert (i = j) as ->; [|congruence].
  eapply (NoDup_lookup (fst <$> l)); [by apply keys_NoDup| |]; rewrite list_lookup_fmap.
  - by rewrite Hi.
  - by rewrite Hj.
Qed.

Lemma find_child_elem l s c : keys_sorted l → find_child l s = Some c ↔ (s, c) ∈ l.
Proof.
  intros Hs. unfold find_child. pose proof (child_index_spec l s Hs) as Hi.
  destruct (child_index l s) as [i|].
  - destruct Hi as (c' & Hi). rewrite Hi. simpl.
    assert ((s, c') ∈ l) as Hin by (apply list_elem_of_lookup; by exists i).
    split; [by intros [= <-]|]. intros Hc. f_equal. by eapply keys_unique.
  - split; [done|]. intros Hc. exfalso. apply Hi. by apply (list_elem_of_fmap_2 fst) in Hc.
Qed.

Lemma find_child_None l s : keys_sorted l → s ∉ fst <$> l → find_child l s = None.
Proof.
  intros Hs Hn. destruct (find_child l s) as [c|] eqn:Hc; [|done].
  apply find_child_elem in Hc; [|done]. exfalso. apply Hn. by apply (list_elem_of_fmap_2 fst) in Hc.
Qed.

(** The list after the update of one child. *)
Lemma update_child_split l s f :
  keys_sorted l →
  let c := f (default (new_node []) (find_child l s)) in
  ∃ l1 l2, update_child l s f = l1 ++ (s, c) :: l2 ∧ keys_sorted (l1 ++ (s, c) :: l2) ∧
    (l = l1 ++ l2 ∨ ∃ c0, l = l1 ++ (s, c0) :: l2).
Proof.
  intros Hs. unfold update_child. pose proof (child_index_spec l s Hs) as Hi.
  destruct (child_index l s) as [i|] eqn:Hci.
  - destruct Hi as (c0 & Hi).
    assert (find_child l s = Some c0) as -> by (unfold find_child; by rewrite Hci, Hi).
    exists (take i l), (drop (S i) l). simpl.
    pose proof (take_drop_middle _ _ _ Hi) as Hl.
    split_and!; [|unfold keys_sorted in *|right; by exists c0].
    + rewrite <- Hl at 1. rewrite alter_app_r_alt by (rewrite length_take; lia).
      rewrite length_take, Nat.min_l by (apply lookup_lt_Some in Hi; lia). by rewrite Nat.sub_diag.
    + rewrite <- Hl in Hs. rewrite fmap_app, fmap_cons in *. exact Hs.
  - rewrite find_child_None by done. simpl. exists (take (lower_bound_child l s) l), (drop (lower_bound_child l s) l).
    split_and!; [done| |left; by rewrite take_drop].
    destruct (lower_bound_cases l s Hs) as [(c & Hc)|(_ & _ & Ht & Hd)].
    { exfalso. apply Hi. apply list_elem_of_lookup. exists (lower_bound_child l s). by rewrite list_lookup_fmap, Hc. }
    unfold keys_sorted in *. rewrite <- (take_drop (lower_bound_child l s) l), fmap_app in Hs.
    rewrite fmap_app, fmap_cons. apply StronglySorted_app in Hs as (Hx & H1 & H2).
    apply StronglySorted_app. split_and!; [|done|].
    + intros x1 x2 Hx1 [->|Hx2]%elem_of_cons; [|by apply Hx].
      apply list_elem_of_fmap in Hx1 as (kc & -> & Hin). rewrite Forall_forall in Ht. by apply Ht.
    + apply StronglySorted_cons. split; [|done]. by rewrite Forall_fmap.
Qed.

Lemma update_child_sorted l s f : keys_sorted l → keys_sorted (update_child l s f).
Proof. intros Hs. by destruct (update_child_split l s f Hs) as (l1 & l2 & -> & ? & _). Qed.

Lemma find_update_child l s f s' :
  keys_sorted l →
  find_child (update_child l s f) s' =
    if decide (s = s') then Some (f (default (new_node []) (find_child l s))) else find_child l s'.
Proof.
  intros Hs. destruct (update_child_split l s f Hs) as (l1 & l2 & -> & Hs' & Hl).
  set (c := f _) in *. clearbody c. case_decide as Hd.
  - subst s'. apply find_child_elem; [done|]. apply elem_of_app. right. by left.
  - apply option_eq. intros x. rewrite !find_child_elem by done.
    destruct Hl as [->|(c0 & ->)]; rewrite !elem_of_app, ?elem_of_cons; naive_solver.
Qed.

Lemma update_child_elem l s f k c :
  keys_sorted l → (k, c) ∈ update_child l s f →
  (k, c) ∈ l ∨ c = f (default (new_node []) (find_child l s)).
Proof.
  intros Hs. destruct (update_child_split l s f Hs) as (l1 & l2 & -> & _ & Hl).
  rewrite elem_of_app, elem_of_cons. intros [|[[= -> ->]|]]; [left|by right|left];
    destruct Hl as [->|(c0 & ->)]; rewrite elem_of_app, ?elem_of_cons; auto.
Qed.

Lemma update_child_ext l s f g : (∀ c, f c = g c) → update_child l s f = update_child l s g.
Proof.
  intros He. unfold update_child. destruct (child_index l s); [|by rewrite He].
  apply list_alter_ext; [|done]. intros [k c] _. simpl. by rewrite He.
Qed.
End children.

(** ** Insertion on items *)

Section insertion.
Context {V : Type}.
Implicit Types (n cur : node V) (its : list item).

(** Every child list of the tree is sorted. *)
Inductive node_wf : node V → Prop :=
  | NodeWf n :
      keys_sorted (nd_statics n) →
      (∀ s c, (s, c) ∈ nd_statics n → node_wf c) →
      (∀ p, nd_param n = Some p → node_wf p) →
      (∀ w, nd_wild n = Some w → node_wf w) →
      node_wf n.

Lemma new_node_wf name : node_wf (new_node name).
Proof. constructor; simpl; [constructor|by intros ? ? ?%elem_of_nil|done|done]. Qed.

Lemma set_value_wf v n : node_wf n → node_wf (nd_set_value v n).
Proof. intros Hn. inversion Hn; subst. by constructor. Qed.

Fixpoint ins_items (v : V) cur its : node V :=
  match its with
  | [] => nd_set_value (Some v) cur
  | IWild m :: _ => nd_set_wild (Some (nd_set_value (Some v) (default (new_node m) (nd_wild cur)))) cur
  | IParam m :: its => nd_set_param (Some (ins_items v (default (new_node m) (nd_param cur)) its)) cur
  | IStatic s :: its => nd_set_statics (update_child (nd_statics cur) s (λ c, ins_items v c its)) cur
  end.

(** The names on the path agree with those already in the tree. *)
Fixpoint compat cur its : Prop :=
  match its with
  | [] => True
  | IWild m :: _ => ∀ w, nd_wild cur = Some w → nd_name w = m
  | IParam m :: its => ∀ p, nd_param cur = Some p → nd_name p = m ∧ compat p its
  | IStatic s :: its => ∀ c, find_child (nd_statics cur) s = Some c → compat c its
  end.

Fixpoint wild_last its : Prop :=
  match its with
  | [] => True
  | IWild _ :: its => its = []
  | _ :: its => wild_last its
  end.

Lemma find_items_new name its : find_items (new_node (V := V) name) its = None.
Proof. by destruct its as [|[] its]. Qed.

Lemma find_items_set_value v n its :
  find_items (nd_set_value v n) its = match its with [] => v | _ => find_items n its end.
Proof. by destruct its as [|[] its]. Qed.

Lemma ins_items_name v cur its : nd_name (ins_items v cur its) = nd_name cur.
Proof. by destruct its as [|[] its]. Qed.

Lemma compat_new name its : compat (new_node (V := V) name) its.
Proof. by destruct its as [|[] its]. Qed.

Lemma find_child_wf l s c : (∀ s c, (s, c) ∈ l → node_wf c) → keys_sorted l → find_child l s = Some c → node_wf c.
Proof. intros Hl Hs Hc. apply find_child_elem in Hc; [|done]. by eapply Hl. Qed.

Lemma ins_items_wf v cur its : node_wf cur → node_wf (ins_items v cur its).
Proof.
  revert cur. induction its as [|[s|m|m] its IH]; intros cur Hn; simpl; [by apply set_value_wf| | |];
    inversion Hn as [? Hk Hs Hp Hw]; subst.
  - constructor; simpl; [by apply update_child_sorted| |done|done].
    intros k c Hin. apply update_child_elem in Hin as [Hin| ->]; [by eapply Hs| |done].
    apply IH. destruct (find_child (nd_statics cur) s) as [c|] eqn:Hc; [by eapply find_child_wf|apply new_node_wf].
  - constructor; simpl; [done|done| |done]. intros p [= <-]. apply IH.
    destruct (nd_param cur) as [p|]; [by apply Hp|apply new_node_wf].
  - constructor; simpl; [done|done|done|]. intros w [= <-]. apply set_value_wf.
    destruct (nd_wild cur) as [w|]; [by apply Hw|apply new_node_wf].
Qed.

(** Inserting a pattern sets its value and no other. *)
Lemma find_ins_items v cur its its' :
  node_wf cur → compat cur its → wild_last its →
  find_items (ins_items v cur its) its' = if decide (its = its') then Some v else find_items cur its'.
Proof.
  revert cur its'. induction its as [|[s|m|m] its IH]; intros cur its' Hn Hc Hwl; simpl.
  - rewrite find_items_set_value. destruct its' as [|i its']; [by rewrite decide_True|by rewrite decide_False].
  - inversion Hn as [? Hk Hs Hp Hw]; subst.
    destruct its' as [|[s'|m'|m'] its']; cbn [find_items ins_items];
      try (rewrite (decide_False (P := (_ : list item) = _)) by done; reflexivity); simpl.
    rewrite find_update_child by done. destruct (decide (s = s')) as [->|Hne].
    + destruct (find_child (nd_statics cur) s') as [c|] eqn:Hf; simpl.
      * rewrite IH; [|by eapply find_child_wf|by apply Hc|done].
        destruct (decide (its = its')) as [->|]; [by rewrite !decide_True|by rewrite !decide_False by naive_solver].
      * rewrite IH; [|apply new_node_wf|apply compat_new|done]. rewrite find_items_new.
        destruct (decide (its = its')) as [->|]; [by rewrite !decide_True|by rewrite !decide_False by naive_solver].
    + by rewrite decide_False by naive_solver.
  - inversion Hn as [? Hk Hs Hp Hw]; subst.
    destruct its' as [|[s'|m'|m'] its']; cbn [find_items ins_items];
      try (rewrite (decide_False (P := (_ : list item) = _)) by done; reflexivity); simpl.
    rewrite ins_items_name. destruct (nd_param cur) as [p|] eqn:Hpar; simpl.
    + destruct (Hc p Hpar) as [<- Hcp].
      destruct (decide (nd_name p = m')) as [<-|]; [|by rewrite decide_False by naive_solver].
      rewrite IH; [|by apply Hp|done|done].
      destruct (decide (its = its')) as [->|]; [by rewrite !decide_True|by rewrite !decide_False by naive_solver].
    + destruct (decide (m = m')) as [->|]; [|by rewrite decide_False by naive_solver].
      rewrite IH; [|apply new_node_wf|apply compat_new|done]. rewrite find_items_new.
      destruct (decide (its = its')) as [->|]; [by rewrite !decide_True|by rewrite !decide_False by naive_solver].
  - simpl in Hwl. subst its.
    destruct its' as [|[s'|m'|m'] its']; cbn [find_items ins_items];
      try (rewrite (decide_False (P := (_ : list item) = _)) by done; reflexivity); simpl.
    assert (nd_name (default (new_node m) (nd_wild cur)) = m) as Hname.
    { destruct (nd_wild cur) as [w|] eqn:Hwc; [by apply Hc|done]. }
    simpl. rewrite Hname. destruct (decide (m = m')) as [->|].
    + rewrite find_items_set_value. destruct its' as [|i its']; [by rewrite decide_True|].
      rewrite decide_False by done. destruct (nd_wild cur) as [w|]; simpl in *.
      * by rewrite decide_True.
      * by destruct i.
    + rewrite decide_False by naive_solver. destruct (nd_wild cur) as [w|]; simpl in *; [|done].
      by rewrite decide_False by congruence.
Qed.

(** ** The loops over the pattern text *)

Lemma insert_loop_items fuel v cur rest :
  length rest < fuel → insert_loop fuel v cur rest = ins_items v cur (items_loop fuel rest).
Proof.
  revert cur rest. induction fuel as [|fuel IH]; intros cur rest Hf; [lia|]. cbn [insert_loop items_loop].
  destruct (next_segment rest) as [seg remaining] eqn:Hseg. case_bool_decide as Hs; [done|].
  assert (length remaining < fuel) as Hlen by (pose proof (next_segment_shorter _ _ _ Hseg Hs); lia).
  unfold item_of. destruct (starts star seg); [done|].
  assert (∀ c : node V, (if bool_decide (remaining = []) then nd_set_value (Some v) c else insert_loop fuel v c remaining) =
    ins_items v c (if bool_decide (remaining = []) then [] else items_loop fuel remaining)) as Hgo.
  { intros c. case_bool_decide; [done|by apply IH]. }
  destruct (starts colon seg); simpl.
  - by rewrite Hgo.
  - f_equal. by apply update_child_ext.
Qed.

Lemma starts_both seg : starts star seg = true → starts colon seg = false.
Proof.
  unfold starts. intros Hs%bool_decide_eq_true. apply bool_decide_eq_false. rewrite Hs. done.
Qed.

Lemma find_exact_loop_items fuel cur rest :
  length rest < fuel → find_exact_loop fuel cur rest = find_items cur (items_loop fuel rest).
Proof.
  revert cur rest. induction fuel as [|fuel IH]; intros cur rest Hf; [lia|]. cbn [find_exact_loop items_loop].
  destruct (next_segment rest) as [seg remaining] eqn:Hseg. case_bool_decide as Hs; [done|].
  assert (length remaining < fuel) as Hlen by (pose proof (next_segment_shorter _ _ _ Hseg Hs); lia).
  assert (∀ c : node V, (if bool_decide (remaining = []) then nd_value c else find_exact_loop fuel c remaining) =
    find_items c (if bool_decide (remaining = []) then [] else items_loop fuel remaining)) as Hgo.
  { intros c. case_bool_decide; [done|by apply IH]. }
  unfold item_of. destruct (starts star seg) eqn:Hst; simpl.
  - rewrite (starts_both _ Hst). destruct (nd_wild cur) as [w|]; [|done]. case_decide; [apply Hgo|done].
  - destruct (starts colon seg); simpl.
    + destruct (nd_param cur) as [p|]; [|done]. case_decide; [apply Hgo|done].
    + destruct (find_child (nd_statics cur) seg); [apply Hgo|done].
Qed.

Lemma validate_syntax_loop_spec fuel rest fuel' :
  validate_syntax_loop fuel rest = true → length rest < fuel → length rest < fuel' → wild_last (items_loop fuel' rest).
Proof.
  revert rest fuel'. induction fuel as [|fuel IH]; intros rest fuel' Hv Hf Hf'; [lia|].
  destruct fuel' as [|fuel']; [lia|]. cbn [validate_syntax_loop items_loop] in *.
  destruct (next_segment rest) as [seg remaining] eqn:Hseg. destruct (decide (seg = [])) as [->|Hs].
  { by rewrite bool_decide_eq_true_2. }
  rewrite bool_decide_eq_false_2 in * by done.
  pose proof (next_segment_shorter _ _ _ Hseg Hs) as Hlen.
  destruct rest as [|c rest]; [simpl in Hlen; lia|].
  unfold item_of. destruct (starts star seg); simpl.
  { apply andb_prop in Hv as [[Hr%bool_decide_eq_true _]%andb_prop _]. by rewrite bool_decide_eq_true_2. }
  assert (validate_syntax_loop fuel remaining = true) as Hrec.
  { destruct (starts colon seg); [destruct (bad_name seg)|destruct (segment_has_misplaced_special seg)]; done. }
  assert (wild_last (if bool_decide (remaining = []) then [] else items_loop fuel' remaining)) as Hw.
  { case_bool_decide; [done|]. simpl in *. apply (IH _ _ Hrec); lia. }
  by destruct (starts colon seg).
Qed.

Lemma validate_syntax_spec rest fuel : validate_syntax rest = true → length rest < fuel → wild_last (items_loop fuel rest).
Proof. intros Hv Hf. eapply validate_syntax_loop_spec; [exact Hv|lia|done]. Qed.

Lemma validate_loop_spec fuel cur rest :
  validate_loop fuel cur rest = true → length rest < fuel →
  compat cur (items_loop fuel rest) ∧ wild_last (items_loop fuel rest).
Proof.
  revert cur rest. induction fuel as [|fuel IH]; intros cur rest Hv Hf; [lia|]. cbn [validate_loop items_loop] in *.
  destruct (next_segment rest) as [seg remaining] eqn:Hseg. destruct (decide (seg = [])) as [->|Hs].
  { by rewrite bool_decide_eq_true_2. }
  rewrite bool_decide_eq_false_2 in * by done.
  assert (length remaining < fuel) as Hlen by (pose proof (next_segment_shorter _ _ _ Hseg Hs); lia).
  unfold item_of. destruct (starts star seg); simpl.
  { destruct (decide (remaining = [])) as [->|]; [|by rewrite bool_decide_eq_false_2 in Hv].
    rewrite (bool_decide_eq_true_2 ([] = [])) in Hv by done. simpl in Hv. destruct (bad_name seg); [done|].
    split; [|by rewrite bool_decide_eq_true_2]. intros w Hw. rewrite Hw in Hv. by apply bool_decide_eq_true in Hv. }
  assert (∀ c : node V, (if bool_decide (remaining = []) then true else validate_loop fuel c remaining) = true →
    compat c (if bool_decide (remaining = []) then [] else items_loop fuel remaining) ∧
    wild_last (if bool_decide (remaining = []) then [] else items_loop fuel remaining)) as Hgo.
  { intros c. case_bool_decide; [done|]. intros Hc. by apply IH. }
  assert (validate_syntax remaining = true →
    wild_last (if bool_decide (remaining = []) then [] else items_loop fuel remaining)) as Hsyn.
  { intros Hx. case_bool_decide; [done|]. by apply validate_syntax_spec. }
  destruct (starts colon seg); simpl.
  - destruct (bad_name seg); [done|]. destruct (nd_param cur) as [p|].
    + case_decide as Hname; [|done]. apply Hgo in Hv as [Hc Hw]. split; [|done]. by intros p' [= <-].
    + by split; [|apply Hsyn].
  - destruct (segment_has_misplaced_special seg); [done|].
    destruct (find_child (nd_statics cur) seg) as [c|] eqn:Hf0.
    + apply Hgo in Hv as [Hc Hw]. split; [|done]. by intros c' [= <-].
    + by split; [|apply Hsyn].
Qed.

(** ** The router *)

Definition router_wf (r : router V) : Prop :=
  node_wf (rr_root r) ∧ rr_count r = length (rr_log r).

Lemma router_init_wf : router_wf router_init.
Proof. split; [apply new_node_wf|done]. Qed.

(** Two patterns name the same route when they have the same items. *)
Lemma find_exact_items (r : router V) q :
  find_exact r q =
    if pattern_shape q && validate_syntax (trim_slash q) then find_items (rr_root r) (items q) else None.
Proof.
  unfold find_exact. cbv zeta. rewrite find_exact_loop_items by lia.
  destruct (pattern_shape q); [|done]. by destruct (validate_syntax (trim_slash q)).
Qed.


Lemma router_lookup_cases (r : router V) path out :
  pv_ok out → path ≠ [] →
  pv_ok (router_lookup r path out).2 ∧
  match (router_lookup r path out).1 with
  | Some v => ∃ its, find_items (rr_root r) its = Some v ∧
      matches its path (pv_list (router_lookup r path out).2) ∧
      ∀ its' v' c', find_items (rr_root r) its' = Some v' → matches its' path c' → preferred its its'
  | None => ∀ its v c, find_items (rr_root r) its = Some v → ¬ matches its path c
  end.
Proof.
  intros Hok Hp. destruct (pv_clear_spec out Hok) as [Hokc Hcl].
  unfold router_lookup. destruct path as [|c path]; [done|].
  destruct (dfs_spec (S (length (c :: path))) (rr_root r) (c :: path) (pv_clear out) Hokc ltac:(lia)) as [Hok' Hs].
  split; [done|]. destruct (dfs _ _ _ _) as [[v|] caps]; simpl in *.
  - destruct Hs as (its & c0 & Hfi & Hm & Hcaps & Hpref). exists its. by rewrite Hcaps.
  - destruct Hs as [_ Hs]. intros its v c0. by apply Hs.
Qed.

(** C17 Lookup is sound, complete and respects the priorities: a path is matched by the
    registered pattern that is preferred (static, then parameter, then wildcard, at the
    first difference) among all registered patterns that match it, with that
    pattern's captures in order, and [nullptr] means that no registered pattern
    matches; what the caller's container held before does not matter. *)
Theorem radix_lookup_spec (r : router V) path out :
  pv_ok out → path ≠ [] →
  pv_ok (router_lookup r path out).2 ∧
  match (router_lookup r path out).1 with
  | Some v => ∃ its, find_items (rr_root r) its = Some v ∧
      matches its path (pv_list (router_lookup r path out).2) ∧
      ∀ its' v' c', find_items (rr_root r) its' = Some v' → matches its' path c' → preferred its its'
  | None => ∀ its v c, find_items (rr_root r) its = Some v → ¬ matches its path c
  end.
Proof. intros Hok Hp. by apply router_lookup_cases. Qed.
End insertion.

(** ** Scenario: the example of the header *)

Definition demo_path (s : string) : str := String.list_ascii_of_string s.

Definition demo_router : router nat :=
  let r := (router_insert (demo_path "/files/:lang/readme") 1 router_init).2 in
  (router_insert (demo_path "/files/*any") 2 r).2.

Example demo_backtracks :
  let '(v, caps) := router_lookup demo_router (demo_path "/files/go/x/y") pv_new in
  v = Some 2 ∧ pv_list caps = [(demo_path "any", demo_path "go/x/y")].
Proof. vm_compute. done. Qed.


Lemma radix_lookup_spec_witness :
  pv_ok (router_lookup demo_router (demo_path "/files/go/readme") pv_new).2.
Proof.
  assert (pv_ok pv_new) as Hok by (split; [reflexivity|unfold pv_new; simpl; lia]).
  exact (proj1 (radix_lookup_spec demo_router (demo_path "/files/go/readme") pv_new Hok ltac:(discriminate))).
Defined.
