(* ===== verification/JoinM.v ===== *)
(** * JoinM: waiting for several tasks ([wait_tasks], [gather], [wait_for])

    [src/include/coro/wait.hpp] and [src/include/coro/gather.hpp].  Each task has a
    monitor coroutine that reports its outcome to a shared state under a mutex; the
    caller suspends on that state.  The histories let the reports, the suspension and
    the destruction of the caller come in any order. *)

From S2P Require Import Prelude ReadyQueue Timers Frames EventLoop Runtime.
From stdpp Require Import options.
#[local] Set Default Proof Using "Type*".

Inductive wait_mode : Type := FirstCompleted | FirstException | AllCompleted.

#[export] Instance wait_mode_eq_dec : EqDecision wait_mode.
Proof. solve_decision. Defined.

(** [struct wait_tasks_state]; the caller and its loop are one field. *)
Record wait_state (T : Type) : Type := mkWait {
  wt_results : list (option T);
  wt_first_exception : option exn;
  wt_first_completed_exception : option exn;
  wt_remaining : nat;
  wt_caller : option (handle * loop_id);
  wt_mode : wait_mode;
  wt_early_done : bool;
  wt_first_done_index : nat;
  wt_cont_dead : bool;
}.
Arguments mkWait {T}.
Arguments wt_results {T}.
Arguments wt_first_exception {T}.
Arguments wt_first_completed_exception {T}.
Arguments wt_remaining {T}.
Arguments wt_caller {T}.
Arguments wt_mode {T}.
Arguments wt_early_done {T}.
Arguments wt_first_done_index {T}.
Arguments wt_cont_dead {T}.

(** The state [wait_tasks_impl] prepares for [n] tasks. *)
Definition wait_init {T} (n : nat) (mode : wait_mode) : wait_state T :=
  mkWait (replicate n None) None None n None mode false 0 false.

Section wait_tasks.
Context {W : Type} `{Runtime W} {T : Type}.
Implicit Types (st : wait_state T) (w : W).

Definition wt_set_caller c st :=
  mkWait (wt_results st) (wt_first_exception st) (wt_first_completed_exception st) (wt_remaining st) c
    (wt_mode st) (wt_early_done st) (wt_first_done_index st) (wt_cont_dead st).

(** [install]; the boolean says that the caller was scheduled. *)
Definition wait_install (h : handle) st w : bool * wait_state T * W :=
  let first_ready := negb (bool_decide (wt_mode st = AllCompleted)) && wt_early_done st in
  if bool_decide (wt_remaining st = 0) || first_ready || wt_cont_dead st
  then (true, st, rt_schedule (rt_loop w) h w)
  else (false, wt_set_caller (Some (h, rt_loop w)) st, w).

Definition wait_abandon st : wait_state T :=
  mkWait (wt_results st) (wt_first_exception st) (wt_first_completed_exception st) (wt_remaining st) None
    (wt_mode st) (wt_early_done st) (wt_first_done_index st) true.

(** What [complete] decides: whether this report is the one the caller waits for, and
    the fields of [FirstCompleted]. *)
Definition complete_decision (index : nat) (o : res T) st : bool * bool * nat * option exn :=
  let error := match o with Ok _ => None | Throw e => Some e end in
  let is_last := bool_decide (pred (wt_remaining st) = 0) in
  if bool_decide (wt_mode st = AllCompleted)
  then (is_last, wt_early_done st, wt_first_done_index st, wt_first_completed_exception st)
  else
    let wants_notify := if bool_decide (wt_mode st = FirstCompleted) then true else bool_decide (is_Some error) in
    if is_last || wants_notify then
      let should := negb (wt_early_done st) in
      if should && bool_decide (wt_mode st = FirstCompleted)
      then (should, true, index, error)
      else (should, true, wt_first_done_index st, wt_first_completed_exception st)
    else (false, wt_early_done st, wt_first_done_index st, wt_first_completed_exception st).

(** [complete(index, task_failed, value, error)]: the outcome is one value. *)
Definition wait_complete (index : nat) (o : res T) st w : bool * wait_state T * W :=
  let results := match o with Ok v => <[index := Some v]> (wt_results st) | Throw _ => wt_results st end in
  let error := match o with Ok _ => None | Throw e => Some e end in
  let first_exception := match wt_first_exception st with Some e => Some e | None => error end in
  let '(should_notify, early_done, index', fce) := complete_decision index o st in
  let st := mkWait results first_exception fce (pred (wt_remaining st)) (wt_caller st) (wt_mode st)
              early_done index' (wt_cont_dead st) in
  match wt_caller st with
  | Some (h, l) =>
      if should_notify && negb (wt_cont_dead st) then (true, wt_set_caller None st, rt_schedule l h w)
      else (false, st, w)
  | None => (false, st, w)
  end.

(** [take_first_completed], [take_all_results]; [None] would be the dereference of an
    empty optional. *)
Definition take_first_completed st : option (res (list T)) :=
  match wt_first_completed_exception st with
  | Some e => Some (Throw e)
  | None => (λ v, Ok [v]) <$> mjoin (wt_results st !! wt_first_done_index st)
  end.

Definition take_all_results st : option (list T) := mapM id (wt_results st).

(** What [wait_tasks_impl] does once resumed. *)
Definition wait_answer (mode : wait_mode) st : option (res (list T)) :=
  if decide (mode = FirstCompleted) then take_first_completed st
  else match wt_first_exception st with
  | Some e => Some (Throw e)
  | None => Ok <$> take_all_results st
  end.

(** ** Histories: the outcomes reported so far, in order *)

Abbreviation report := (nat * res T)%type.

Definition failures (cs : list report) : list exn :=
  omap (λ c, match c.2 with Throw e => Some e | Ok _ => None end) cs.

(** The condition of each mode. *)
Definition wait_ready (mode : wait_mode) (n : nat) (cs : list report) : Prop :=
  length cs = n ∨
  match mode with
  | AllCompleted => False
  | FirstCompleted => cs ≠ []
  | FirstException => failures cs ≠ []
  end.

(** [wh_installed]: the caller has suspended; [wh_woken]: how often it was scheduled. *)
Record wait_hist : Type := mkWaitHist {
  wh_state : wait_state T;
  wh_reports : list report;
  wh_installed : bool;
  wh_woken : nat;
}.

Inductive wait_step (n : nat) : wait_hist → wait_hist → Prop :=
  | WSComplete st cs inst k i o w b st' w' :
      i < n → i ∉ fst <$> cs → wait_complete i o st w = (b, st', w') →
      wait_step n (mkWaitHist st cs inst k) (mkWaitHist st' (cs ++ [(i, o)]) inst (k + if b then 1 else 0))
  | WSInstall st cs k h w b st' w' :
      wait_install h st w = (b, st', w') →
      wait_step n (mkWaitHist st cs false k) (mkWaitHist st' cs true (k + if b then 1 else 0))
  | WSAbandon st cs k : wait_step n (mkWaitHist st cs true k) (mkWaitHist (wait_abandon st) cs true k).

Inductive wait_run (n : nat) (mode : wait_mode) : wait_hist → Prop :=
  | WRun0 : wait_run n mode (mkWaitHist (wait_init n mode) [] false 0)
  | WRunS s s' : wait_run n mode s → wait_step n s s' → wait_run n mode s'.

#[export] Instance wait_ready_dec mode n cs : Decision (wait_ready mode n cs).
Proof. unfold wait_ready. destruct mode; apply _. Defined.

Record wait_inv (n : nat) (mode : wait_mode) (s : wait_hist) : Prop := {
  wi_mode : wt_mode (wh_state s) = mode;
  wi_ids : NoDup (fst <$> wh_reports s) ∧ Forall (λ c, c.1 < n) (wh_reports s);
  wi_remaining : wt_remaining (wh_state s) + length (wh_reports s) = n;
  wi_results : length (wt_results (wh_state s)) = n ∧
    ∀ i v, wt_results (wh_state s) !! i = Some (Some v) ↔ (i, Ok v) ∈ wh_reports s;
  wi_exception : wt_first_exception (wh_state s) = head (failures (wh_reports s));
  wi_early : mode ≠ AllCompleted → 0 < n →
    wt_early_done (wh_state s) = bool_decide (wait_ready mode n (wh_reports s));
  wi_first : mode = FirstCompleted → ∀ i o, head (wh_reports s) = Some (i, o) →
    wt_first_done_index (wh_state s) = i ∧
    wt_first_completed_exception (wh_state s) = match o with Ok _ => None | Throw e => Some e end;
  wi_woken : wt_cont_dead (wh_state s) = false → 0 < n →
    wh_woken s = (if wh_installed s then if bool_decide (wait_ready mode n (wh_reports s)) then 1 else 0 else 0) ∧
    (is_Some (wt_caller (wh_state s)) ↔ wh_installed s = true ∧ ¬ wait_ready mode n (wh_reports s));
  wi_dead : wt_cont_dead (wh_state s) = true → wt_caller (wh_state s) = None;
  wi_once : 0 < n → wh_woken s ≤ 1 ∧ (wh_installed s = false → wh_woken s = 0 ∧ wt_cont_dead (wh_state s) = false);
}.

Lemma wait_init_inv n mode : 0 < n → wait_inv n mode (mkWaitHist (wait_init n mode) [] false 0).
Proof.
  intros Hn. split; simpl; try done.
  - split; constructor.
  - rewrite length_replicate. split; [done|]. intros i v. split; [|by intros ?%elem_of_nil].
    intros Hl. by apply lookup_replicate in Hl as [].
  - intros Hm _. symmetry. apply bool_decide_eq_false. intros [Hz|Hx]; simpl in *; [lia|]. by destruct mode.
  - intros _ _. split; [done|]. split; [by intros []|by intros []].
  - intros _. split; [lia|done].
Qed.

Lemma failures_snoc cs i o :
  failures (cs ++ [(i, o)]) = failures cs ++ match o with Throw e => [e] | Ok _ => [] end.
Proof. unfold failures. rewrite omap_app. by destruct o. Qed.

Lemma head_snoc {A} (l : list A) (x : A) : head (l ++ [x]) = match head l with Some y => Some y | None => Some x end.
Proof. by destruct l. Qed.

Lemma ids_length (cs : list report) n :
  NoDup (fst <$> cs) → Forall (λ c, c.1 < n) cs → length cs ≤ n.
Proof.
  intros Hnd Hf. rewrite <- (length_fmap fst cs). transitivity (length (seq 0 n)); [|by rewrite length_seq].
  apply submseteq_length, NoDup_submseteq; [done|]. intros i Hi.
  apply elem_of_seq. apply list_elem_of_fmap in Hi as (c & -> & Hc).
  rewrite Forall_forall in Hf. specialize (Hf c Hc). lia.
Qed.

(** Readiness only grows. *)
Lemma wait_ready_snoc mode n cs c :
  length cs < n → wait_ready mode n (cs ++ [c]) ↔ wait_ready mode n cs ∨ S (length cs) = n ∨
    match mode with
    | AllCompleted => False
    | FirstCompleted => True
    | FirstException => match c.2 with Throw _ => True | Ok _ => False end
    end.
Proof.
  intros Hlt. unfold wait_ready. rewrite length_app; simpl. destruct c as [i o]. rewrite failures_snoc.
  destruct mode; simpl.
  - split; [auto|]. intros _. right. by destruct cs.
  - destruct o; rewrite ?app_nil_r; split.
    + intros [|]; [right; left; lia|auto].
    + intros [[|]|[|]]; [lia|auto|left; lia|done].
    + intros [|]; [right; left; lia|auto].
    + intros _. right. by destruct (failures cs).
  - split; [intros [|]; [right; left; lia|done]|]. intros [[|]|[|]]; [lia|done|left; lia|done].
Qed.

Lemma complete_decision_spec n mode cs inst k st i o :
  wait_inv n mode (mkWaitHist st cs inst k) → length cs < n →
  let '(should, early, idx, fce) := complete_decision i o st in
  should = bool_decide (wait_ready mode n (cs ++ [(i, o)])) && negb (bool_decide (wait_ready mode n cs)) ∧
  (mode ≠ AllCompleted → early = bool_decide (wait_ready mode n (cs ++ [(i, o)]))) ∧
  (mode = FirstCompleted → ∀ i' o', head (cs ++ [(i, o)]) = Some (i', o') →
     idx = i' ∧ fce = match o' with Ok _ => None | Throw e => Some e end).
Proof.
  intros [Hm _ Hrem _ _ He Hf _ _ _] Hlt; simpl in *. unfold complete_decision. rewrite Hm.
  assert (bool_decide (pred (wt_remaining st) = 0) = bool_decide (S (length cs) = n)) as ->.
  { apply bool_decide_ext. lia. }
  pose proof (wait_ready_snoc mode n cs (i, o) Hlt) as Hs. simpl in Hs.
  destruct (decide (mode = AllCompleted)) as [->|Hna].
  { rewrite bool_decide_eq_true_2 by done. split_and!; [|done|done].
    rewrite (bool_decide_eq_false_2 (wait_ready _ _ cs)); [|intros [|]; [lia|done]].
    rewrite andb_true_r. apply bool_decide_ext. rewrite Hs. split; [auto|].
    intros [[|]|[|]]; [lia|done|done|done]. }
  rewrite (bool_decide_eq_false_2 (mode = AllCompleted)) by done.
  specialize (He Hna ltac:(lia)). rewrite He.
  destruct (decide (mode = FirstCompleted)) as [->|Hnf].
  - rewrite (bool_decide_eq_true_2 (FirstCompleted = FirstCompleted)), orb_true_r, andb_true_r by done.
    assert (wait_ready FirstCompleted n (cs ++ [(i, o)])) as Hr' by (apply Hs; auto).
    rewrite (bool_decide_eq_true_2 (wait_ready _ _ (cs ++ _))) by done.
    rewrite head_snoc. destruct cs as [|[i0 o0] cs].
    + rewrite (bool_decide_eq_false_2 (wait_ready _ _ [])); [|intros [|]; simpl in *; [lia|done]].
      simpl. split_and!; [done|done|]. intros _ i' o' [= <- <-]. done.
    + rewrite (bool_decide_eq_true_2 (wait_ready _ _ (_ :: _))); [|by right].
      simpl. split_and!; [done|done|]. intros _ i' o' [= <- <-]. by apply Hf.
  - destruct mode; [done| |done].
    rewrite (bool_decide_eq_false_2 (FirstException = FirstCompleted)) by done. rewrite andb_false_r.
    assert (bool_decide (wait_ready FirstException n (cs ++ [(i, o)])) =
      bool_decide (wait_ready FirstException n cs) || (bool_decide (S (length cs) = n) ||
        bool_decide (is_Some match o with Ok _ => None | Throw e => Some e end))) as ->.
    { apply eq_true_iff_eq. rewrite !orb_true_iff, !bool_decide_eq_true, Hs.
      assert (is_Some match o with Ok _ => None | Throw e => Some e end ↔ match o with Ok _ => False | Throw _ => True end) as ->.
      { destruct o; split; try done; by intros []. }
      by destruct o. }
    destruct (bool_decide (wait_ready FirstException n cs)) eqn:Hr; simpl.
    + destruct (bool_decide (S (length cs) = n) || _); split_and!; done.
    + destruct (bool_decide (S (length cs) = n) || _); split_and!; done.
Qed.

Lemma results_insert (st : wait_state T) cs n i o :
  length (wt_results st) = n → (∀ i v, wt_results st !! i = Some (Some v) ↔ (i, Ok v) ∈ cs) →
  i < n → i ∉ fst <$> cs →
  let rs := match o with Ok v => <[i := Some v]> (wt_results st) | Throw _ => wt_results st end in
  length rs = n ∧ ∀ j v, rs !! j = Some (Some v) ↔ (j, Ok v) ∈ cs ++ [(i, o)].
Proof.
  intros Hl Hr Hi Hn. simpl. destruct o as [x|e].
  - rewrite length_insert. split; [done|]. intros j v. rewrite elem_of_app, list_elem_of_singleton, <- Hr.
    destruct (decide (j = i)) as [->|Hne].
    + rewrite list_lookup_insert_eq by lia. split; [intros [= ->]; by right|].
      intros [Hin|[= ->]]; [|done]. exfalso. apply Hn. rewrite Hr in Hin. by apply (list_elem_of_fmap_2 fst) in Hin.
    + rewrite list_lookup_insert_ne by done. naive_solver.
  - split; [done|]. intros j v. rewrite elem_of_app, list_elem_of_singleton, <- Hr. naive_solver.
Qed.

Lemma wait_complete_inv n mode st cs inst k i o w b st' w' :
  0 < n → wait_inv n mode (mkWaitHist st cs inst k) → i < n → i ∉ fst <$> cs →
  wait_complete i o st w = (b, st', w') →
  wait_inv n mode (mkWaitHist st' (cs ++ [(i, o)]) inst (k + if b then 1 else 0)).
Proof.
  intros Hn Hi Hlt Hnew Hc.
  pose proof Hi as [Hm [Hnd Hf] Hrem [Hlen Hres] Hex He Hfi Hw Hd Ho]; simpl in *.
  assert (NoDup (fst <$> (cs ++ [(i, o)])) ∧ Forall (λ c, c.1 < n) (cs ++ [(i, o)])) as [Hnd' Hf'].
  { rewrite fmap_app, NoDup_app, Forall_app. split_and!; [done| |apply NoDup_singleton|done|by constructor].
    intros x Hx ->%list_elem_of_singleton. done. }
  pose proof (ids_length _ n Hnd' Hf') as Hle. rewrite length_app in Hle. simpl in Hle.
  pose proof (complete_decision_spec n mode cs inst k st i o Hi ltac:(lia)) as Hdec.
  pose proof (results_insert st cs n i o Hlen Hres Hlt Hnew) as Hres'. simpl in Hres'.
  unfold wait_complete in Hc. destruct (complete_decision i o st) as [[[should early] idx] fce].
  cbn [wt_caller wt_cont_dead] in Hc.
  destruct Hdec as (Hsh & Hea & Hfirst).
  assert (wt_first_exception st' = head (failures (cs ++ [(i, o)]))) as Hex'.
  { rewrite failures_snoc. destruct (wt_caller st) as [[h l]|]; [destruct (should && _)|]; injection Hc as <- <- <-;
      simpl; rewrite Hex; destruct (failures cs), o; done. }
  assert (wait_ready mode n cs → wait_ready mode n (cs ++ [(i, o)])) as Hmono.
  { intros Hr. rewrite wait_ready_snoc by lia. by left. }
  destruct (wt_caller st) as [[h l]|] eqn:Hcl; [destruct (should && negb (wt_cont_dead st)) eqn:Hsd|];
    injection Hc as <- <- <-.
  - apply andb_prop in Hsd as [Hsd Hcd%negb_true_iff]. rewrite Hsd in Hsh. symmetry in Hsh.
    apply andb_prop in Hsh as [Hr' Hnr%negb_true_iff]. apply bool_decide_eq_true in Hr'. apply bool_decide_eq_false in Hnr.
    destruct (Hw Hcd Hn) as [Hk Hcall]. destruct (proj1 Hcall ltac:(by eexists)) as [-> _].
    rewrite bool_decide_eq_false_2 in Hk by done.
    split; simpl; try done; [rewrite length_app; simpl; lia|by intros ? _; apply Hea| |intros _].
    + intros _ _. rewrite bool_decide_eq_true_2 by done. split; [lia|]. split; [by intros []|by intros []].
    + lia.
  - split; simpl; try done; [rewrite length_app; simpl; lia|by intros ? _; apply Hea| |].
    + intros Hcd _. destruct (Hw Hcd Hn) as [Hk Hcall]. rewrite Hcd, andb_true_r in Hsd.
      destruct (proj1 Hcall ltac:(by eexists)) as [-> Hnr]. rewrite bool_decide_eq_false_2 in Hk by done.
      rewrite (bool_decide_eq_false_2 (wait_ready mode n cs)), andb_true_r in Hsh by done.
      rewrite <- Hsh, Hsd. split; [lia|]. split; [|by eexists]. intros _.
      split; [done|]. intros Hr'. rewrite bool_decide_eq_true_2 in Hsh by done. congruence.
    + intros _. rewrite Nat.add_0_r. by apply Ho.
  - split; simpl; try done; [rewrite length_app; simpl; lia|by intros ? _; apply Hea| |].
    + intros Hcd _. destruct (Hw Hcd Hn) as [Hk Hcall]. rewrite Nat.add_0_r.
      destruct inst; [|split; [done|]; split; [by intros []|by intros []]].
      assert (wait_ready mode n cs) as Hr.
      { destruct (decide (wait_ready mode n cs)) as [|Hnr]; [done|]. destruct (proj2 Hcall (conj eq_refl Hnr)) as [? [=]]. }
      rewrite bool_decide_eq_true_2 in Hk by done. rewrite bool_decide_eq_true_2 by auto.
      split; [done|]. split; [by intros []|]. intros [_ Hx]. exfalso. auto.
    + intros _. rewrite Nat.add_0_r. by apply Ho.
Qed.

Lemma wait_install_inv n mode st cs k h w b st' w' :
  0 < n → wait_inv n mode (mkWaitHist st cs false k) → wait_install h st w = (b, st', w') →
  wait_inv n mode (mkWaitHist st' cs true (k + if b then 1 else 0)).
Proof.
  intros Hn Hi Hc.
  pose proof Hi as [Hm Hids Hrem Hres Hex He Hfi Hw Hd Ho]; simpl in *.
  destruct (Ho Hn) as [_ Hoi]. destruct (Hoi eq_refl) as [-> Hcd]. unfold wait_install in Hc.
  assert ((bool_decide (wt_remaining st = 0) || (negb (bool_decide (wt_mode st = AllCompleted)) && wt_early_done st) || wt_cont_dead st)
    = bool_decide (wait_ready mode n cs)) as Heq.
  { rewrite Hcd, orb_false_r, Hm. apply eq_true_iff_eq. rewrite orb_true_iff, !bool_decide_eq_true, andb_true_iff, negb_true_iff, bool_decide_eq_false.
    destruct (decide (mode = AllCompleted)) as [->|Hna].
    * unfold wait_ready. split; [intros [|[]]; [left; lia|done]|intros [|]; [left; lia|done]].
    * rewrite (He Hna Hn), bool_decide_eq_true. split; [intros [|[]]; [left; lia|done]|auto]. }
  rewrite Heq in Hc. destruct (decide (wait_ready mode n cs)) as [Hr|Hr];
    [rewrite bool_decide_eq_true_2 in Hc by done|rewrite bool_decide_eq_false_2 in Hc by done]; injection Hc as <- <- <-.
  - split; simpl; try done; try lia.
    intros _ _. rewrite bool_decide_eq_true_2 by done. split; [done|].
    destruct (Hw Hcd Hn) as [_ Hcall]. rewrite Hcall. split; [by intros []|by intros []].
  - split; simpl; try done; try lia; [|by rewrite Hcd].
    + intros _ _. rewrite bool_decide_eq_false_2 by done. split; [done|]. split; [done|by eexists].
Qed.

Lemma wait_step_inv n mode s s' : 0 < n → wait_inv n mode s → wait_step n s s' → wait_inv n mode s'.
Proof.
  intros Hn Hi Hs. destruct Hs as [st cs inst k i o w b st' w' Hlt Hnew Hc|st cs k h w b st' w' Hc|st cs k].
  - by eapply wait_complete_inv.
  - by eapply wait_install_inv.
  - destruct Hi as [Hm Hids Hrem Hres Hex He Hfi Hw Hd Ho]; simpl in *. split; simpl; try done.
    intros _. destruct (Ho Hn) as [? _]. by split.
Qed.

Lemma wait_run_inv n mode s : 0 < n → wait_run n mode s → wait_inv n mode s.
Proof. intros Hn. induction 1; [by apply wait_init_inv|by eapply wait_step_inv]. Qed.

(** When all have reported, every task has. *)
Lemma ids_complete (cs : list report) n i :
  NoDup (fst <$> cs) → Forall (λ c, c.1 < n) cs → length cs = n → i < n → i ∈ fst <$> cs.
Proof.
  intros Hnd Hf Hlen Hi.
  assert (fst <$> cs ≡ₚ seq 0 n) as ->; [|apply elem_of_seq; lia].
  apply submseteq_length_Permutation; [|rewrite length_fmap, length_seq; lia].
  apply NoDup_submseteq; [done|]. intros j Hj.
  apply elem_of_seq. apply list_elem_of_fmap in Hj as (c & -> & Hc).
  rewrite Forall_forall in Hf. specialize (Hf c Hc). lia.
Qed.

Lemma failures_nil cs i o : failures cs = [] → (i, o) ∈ cs → ∃ v, o = Ok v.
Proof.
  intros Hf Hin. destruct o as [v|e]; [by exists v|].
  assert (e ∈ failures cs) as He; [|rewrite Hf in He; by apply elem_of_nil in He].
  apply list_elem_of_omap. by exists (i, Throw e).
Qed.

Lemma mapM_id_spec {A} (l : list (option A)) :
  (∀ i, i < length l → ∃ v, l !! i = Some (Some v)) →
  ∃ vs, mapM id l = Some vs ∧ length vs = length l ∧ ∀ i v, vs !! i = Some v → l !! i = Some (Some v).
Proof.
  induction l as [|x l IH]; intros Hl.
  { exists []. by split_and!. }
  destruct (Hl 0 ltac:(simpl; lia)) as [v Hv]. injection Hv as ->.
  destruct IH as (vs & Hm & Hlen & Hvs); [intros i Hi; apply (Hl (S i)); simpl; lia|].
  exists (v :: vs). simpl. rewrite Hm. simpl. split_and!; [done|by rewrite Hlen|].
  intros [|i] y Hy; simpl in *; [by simplify_eq|by apply Hvs].
Qed.

(** [wait_tasks] for [n] tasks: in every order of the reports and of the caller's
    suspension, the caller is scheduled at most once, and exactly when the condition
    of its mode holds; the answer is the outcome of the task that reported first
    ([FirstCompleted], whatever fails later), the first failure in time, or the
    results of all tasks in the order of the arguments. *)
Theorem wait_tasks_spec n mode s :
  0 < n → wait_run n mode s →
  let st := wh_state s in let cs := wh_reports s in
  wh_woken s ≤ 1 ∧
  (wt_cont_dead st = false → wh_installed s = true → (wh_woken s = 1 ↔ wait_ready mode n cs)) ∧
  (mode = FirstCompleted → ∀ i o, head cs = Some (i, o) →
     wait_answer mode st = Some (match o with Ok v => Ok [v] | Throw e => Throw e end)) ∧
  (mode ≠ FirstCompleted →
     (∀ e, head (failures cs) = Some e → wait_answer mode st = Some (Throw e)) ∧
     (failures cs = [] → length cs = n → ∃ vs, wait_answer mode st = Some (Ok vs) ∧ length vs = n ∧
        ∀ i v, vs !! i = Some v → (i, Ok v) ∈ cs)).
Proof.
  intros Hn Hrun. destruct (wait_run_inv n mode s Hn Hrun) as [Hm [Hnd Hf] Hrem [Hlen Hres] Hex He Hfi Hw Hd Ho].
  cbv zeta. split_and!.
  - by apply Ho.
  - intros Hcd Hin. destruct (Hw Hcd Hn) as [-> _]. rewrite Hin. case_bool_decide; by split.
  - intros Hfc i o Hh. unfold wait_answer. rewrite decide_True by done. unfold take_first_completed.
    destruct (Hfi Hfc i o Hh) as [Hidx ->]. destruct o as [v|e]; [|done].
    assert ((i, Ok v) ∈ wh_reports s) as Hin by (destruct (wh_reports s); simplify_eq/=; by left).
    apply Hres in Hin. by rewrite Hidx, Hin.
  - intros Hnf. unfold wait_answer. rewrite decide_False by done. rewrite Hex. split; [by intros e ->|].
    intros Hfl Hall. rewrite Hfl. simpl. unfold take_all_results.
    destruct (mapM_id_spec (wt_results (wh_state s))) as (vs & Hvs & Hl & Hin).
    + intros i Hi. rewrite Hlen in Hi. pose proof (ids_complete _ _ i Hnd Hf Hall Hi) as Hid.
      apply list_elem_of_fmap in Hid as ([j o] & -> & Hin). destruct (failures_nil _ _ _ Hfl Hin) as [v ->].
      exists v. by apply Hres.
    + exists vs. rewrite Hvs. split_and!; [done|lia|]. intros i v Hv. by apply Hres, Hin.
Qed.

(** ** [gather]: the results are a tuple, one slot for each task *)

Record gather_state : Type := mkGather {
  ga_results : list (option T);
  ga_remaining : nat;
  ga_caller : option (handle * loop_id);
  ga_first_exception : option exn;
  ga_cont_dead : bool;
  ga_cancelled : list nat;       (* the tasks [cancel_remaining] cancelled *)
}.

Definition gather_init (n : nat) : gather_state := mkGather (replicate n None) n None None false [].

Definition gather_install (h : handle) (g : gather_state) w : bool * gather_state * W :=
  if bool_decide (ga_remaining g = 0) || ga_cont_dead g then (true, g, rt_schedule (rt_loop w) h w)
  else (false, mkGather (ga_results g) (ga_remaining g) (Some (h, rt_loop w)) (ga_first_exception g)
                 (ga_cont_dead g) (ga_cancelled g), w).

Definition gather_abandon (g : gather_state) : gather_state :=
  mkGather (ga_results g) (ga_remaining g) None (ga_first_exception g) true (ga_cancelled g).

Definition gather_cancel_remaining (g : gather_state) : gather_state :=
  mkGather (ga_results g) (ga_remaining g) (ga_caller g) (ga_first_exception g) (ga_cont_dead g)
    (seq 0 (length (ga_results g))).

(** [gather_monitor] of task [i]: the result is stored, then [complete]. *)
Definition gather_complete (i : nat) (o : res T) (g : gather_state) w : bool * gather_state * W :=
  let results := match o with Ok v => <[i := Some v]> (ga_results g) | Throw _ => ga_results g end in
  let fe := match ga_first_exception g with
            | Some e => Some e
            | None => match o with Ok _ => None | Throw e => Some e end
            end in
  let remaining := pred (ga_remaining g) in
  match ga_caller g with
  | Some (h, l) =>
      if bool_decide (remaining = 0) && negb (ga_cont_dead g)
      then (true, mkGather results remaining None fe (ga_cont_dead g) (ga_cancelled g), rt_schedule l h w)
      else (false, mkGather results remaining (ga_caller g) fe (ga_cont_dead g) (ga_cancelled g), w)
  | None => (false, mkGather results remaining None fe (ga_cont_dead g) (ga_cancelled g), w)
  end.

(** [await_resume]; the slots of tasks that did not fail are filled. *)
Definition gather_await_resume (g : gather_state) : option (res (list T)) :=
  match ga_first_exception g with
  | Some e => Some (Throw e)
  | None => Ok <$> mapM id (ga_results g)
  end.

Definition gather_on_waiter_destroyed (g : gather_state) : gather_state :=
  gather_cancel_remaining (gather_abandon g).

(** The state of [wait_tasks] in mode [AllCompleted] that a gather state stands for. *)
Definition gather_rel (g : gather_state) st : Prop :=
  wt_mode st = AllCompleted ∧ wt_results st = ga_results g ∧ wt_remaining st = ga_remaining g ∧
  wt_caller st = ga_caller g ∧ wt_first_exception st = ga_first_exception g ∧ wt_cont_dead st = ga_cont_dead g.

(** [gather] behaves as [wait_tasks] in mode [AllCompleted], which it duplicates:
    its operations simulate those of [wait_tasks] step by step, with the same wakeups
    and the same answer; in addition, the destruction of its caller cancels every
    task. *)
Theorem gather_refines_wait_tasks g st i o h w :
  gather_rel g st →
  gather_rel (gather_init (length (ga_results g))) (wait_init (length (ga_results g)) AllCompleted) ∧
  (∃ b g' st' w', gather_complete i o g w = (b, g', w') ∧ wait_complete i o st w = (b, st', w') ∧ gather_rel g' st') ∧
  (∃ b g' st' w', gather_install h g w = (b, g', w') ∧ wait_install h st w = (b, st', w') ∧ gather_rel g' st') ∧
  gather_rel (gather_on_waiter_destroyed g) (wait_abandon st) ∧
  gather_await_resume g = wait_answer AllCompleted st ∧
  ga_cancelled (gather_on_waiter_destroyed g) = seq 0 (length (ga_results g)).
Proof.
  intros (Hm & Hr & Hrem & Hc & He & Hd). split_and!.
  - done.
  - unfold wait_complete, complete_decision, gather_complete. cbn [wt_caller wt_cont_dead].
    rewrite (bool_decide_eq_true_2 (wt_mode st = AllCompleted)) by done. rewrite Hr, Hrem, Hc, He, Hd.
    destruct (ga_caller g) as [[h' l]|] eqn:Hcl; [destruct (bool_decide _ && _)|]; eexists _, _, _, _;
      (split; [reflexivity|]; split; [reflexivity|]); by split_and!.
  - unfold wait_install, gather_install. rewrite Hm, Hrem, Hd.
    rewrite (bool_decide_eq_true_2 (AllCompleted = AllCompleted)) by done. simpl. rewrite orb_false_r.
    destruct (bool_decide _ || _); eexists _, _, _, _; (split; [reflexivity|]; split; [reflexivity|]); by split_and!.
  - by split_and!.
  - unfold gather_await_resume, wait_answer, take_all_results. rewrite decide_False by done. by rewrite He, Hr.
  - done.
Qed.

(** ** [wait_for], [wait_until] *)

(** The answer of [wait_for]: the outcome of the task it awaited, and whether the timer
    coroutine had set [timed_out] before cancelling the task. *)
Definition wait_for_answer (o : res T) (timed_out : bool) : res T :=
  match o with
  | Throw CancelledError => if timed_out then Throw TimeoutError else Throw CancelledError
  | o => o
  end.

(** [ceil<milliseconds>] of a relative timeout in nanoseconds. *)
Definition wait_for_timeout_ms (timeout : Z) : Z := (- ((- timeout) `div` 1000000))%Z.

Definition wait_until_timeout_ms (now deadline : Z) : Z :=
  if decide (deadline ≤ now)%Z then wait_for_timeout_ms 0 else wait_for_timeout_ms (deadline - now).
End wait_tasks.

(** Rounding a timeout never shortens it, and an expired deadline waits no time. *)
Lemma wait_until_timeout_bounds now deadline :
  (deadline ≤ now → wait_until_timeout_ms now deadline = 0)%Z ∧
  (now < deadline →
     deadline ≤ now + wait_until_timeout_ms now deadline * 1000000 < deadline + 1000000)%Z.
Proof.
  unfold wait_until_timeout_ms, wait_for_timeout_ms. split; intros Hd.
  - by rewrite decide_True.
  - rewrite decide_False by lia.
    pose proof (Z.div_mod (- (deadline - now)) 1000000 ltac:(lia)).
    pose proof (Z.mod_pos_bound (- (deadline - now)) 1000000 ltac:(lia)). lia.
Qed.

(** ** Scenario: two tasks, the second reports first *)

Lemma wait_tasks_spec_witness :
  ∃ s, wait_run (W := world) 2 FirstCompleted s ∧
    wait_answer FirstCompleted (wh_state s) = Some (Ok [7]).
Proof.
  destruct (wait_install 10 (wait_init (T := nat) 2 FirstCompleted) w_demo) as [[b1 s1] w1] eqn:H1.
  destruct (wait_complete 1 (Ok 7) s1 w1) as [[b2 s2] w2] eqn:H2.
  assert (wait_run (W := world) 2 FirstCompleted (mkWaitHist s2 ([] ++ [(1, Ok 7)]) true
    (0 + (if b1 then 1 else 0) + (if b2 then 1 else 0)))) as Hr.
  { eapply WRunS; [eapply WRunS; [apply WRun0|exact (WSInstall 2 _ [] 0 10 w_demo b1 s1 w1 H1)]|].
    refine (WSComplete 2 s1 [] true _ 1 (Ok 7) w1 b2 s2 w2 _ _ H2); [lia|by intros ?%elem_of_nil]. }
  eexists. split; [exact Hr|].
  exact (proj1 (proj2 (proj2 (wait_tasks_spec 2 FirstCompleted _ ltac:(lia) Hr))) eq_refl 1 (Ok 7) eq_refl).
Defined.

Lemma gather_refines_wait_tasks_witness :
  gather_await_resume (gather_init (T := nat) 2) = wait_answer AllCompleted (wait_init 2 AllCompleted).
Proof.
  assert (gather_rel (gather_init (T := nat) 2) (wait_init 2 AllCompleted)) as Hg by done.
  exact (proj1 (proj2 (proj2 (proj2 (proj2 (gather_refines_wait_tasks _ _ 0 (Ok 1) 10 w_demo Hg)))))).
Defined.
