(* ===== verification/TaskGroupM.v ===== *)
(** * TaskGroupM: structured concurrency ([coro::TaskGroup])

    [src/include/coro/task_group.hpp].  A child is known to the group by its monitor
    coroutine, a number here; whether a monitor has finished ([is_ready]) is an
    argument of the operations, and the monitors an operation cancels are its result.
    The history section runs them against the set of monitors still running. *)

From S2P Require Import Prelude ReadyQueue Timers Frames EventLoop Runtime.
From stdpp Require Import options.
#[local] Set Default Proof Using "Type*".

Inductive group_phase : Type := GOpen | GClosing | GFinished.

#[export] Instance group_phase_eq_dec : EqDecision group_phase.
Proof. solve_decision. Defined.

(** [struct task_group_state]; the waiter and its loop are one field. *)
Record task_group_state : Type := mkGroup {
  tg_remaining : nat;
  tg_waiter : option (handle * loop_id);
  tg_exceptions : list exn;
  tg_monitors : list nat;
  tg_cancel_requested : bool;
  tg_parent_cancelled : bool;
  tg_phase : group_phase;
  tg_wait_used : bool;
}.

Definition tg_init : task_group_state := mkGroup 0 None [] [] false false GOpen false.

Implicit Types st : task_group_state.

Definition tg_set_waiter x st :=
  mkGroup (tg_remaining st) x (tg_exceptions st) (tg_monitors st) (tg_cancel_requested st)
    (tg_parent_cancelled st) (tg_phase st) (tg_wait_used st).
Definition tg_set_exceptions es st :=
  mkGroup (tg_remaining st) (tg_waiter st) es (tg_monitors st) (tg_cancel_requested st)
    (tg_parent_cancelled st) (tg_phase st) (tg_wait_used st).
Definition tg_set_members n ms st :=
  mkGroup n (tg_waiter st) (tg_exceptions st) ms (tg_cancel_requested st)
    (tg_parent_cancelled st) (tg_phase st) (tg_wait_used st).
Definition tg_set_flags cr pc ph wu st :=
  mkGroup (tg_remaining st) (tg_waiter st) (tg_exceptions st) (tg_monitors st) cr pc ph wu.

(** [if (phase == open) phase = closing]. *)
Definition tg_closed_phase st : group_phase :=
  if decide (tg_phase st = GOpen) then GClosing else tg_phase st.

(** The monitors the cancellation loops select. *)
Definition tg_unready (ready : nat → bool) st : list nat := filter (λ m, ready m = false) (tg_monitors st).

Definition tg_waiter_ready st : bool := bool_decide (tg_remaining st = 0).

Definition tg_abandon_waiter st : task_group_state := tg_set_waiter None st.

Definition tg_record_failure (e : exn) (self : nat) (ready : nat → bool) st : list nat * task_group_state :=
  let st := tg_set_exceptions (tg_exceptions st ++ [e]) st in
  let st := tg_set_flags (tg_cancel_requested st) (tg_parent_cancelled st) (tg_closed_phase st) (tg_wait_used st) st in
  if tg_cancel_requested st then ([], st)
  else (filter (λ m, m ≠ self) (tg_unready ready st),
        tg_set_flags true (tg_parent_cancelled st) (tg_phase st) (tg_wait_used st) st).

Definition tg_record_exception (e : exn) st : task_group_state := tg_set_exceptions (tg_exceptions st ++ [e]) st.

(** [spawn] up to the creation of the frames. *)
Definition tg_spawn_check st : res unit :=
  if decide (tg_phase st ≠ GOpen) then Throw StructuredConcurrencyError else Ok tt.

(** The registration; the answer is [group_closed_in_window]. *)
Definition tg_register (m : nat) st : bool * task_group_state :=
  (bool_decide (tg_phase st ≠ GOpen), tg_set_members (S (tg_remaining st)) (tg_monitors st ++ [m]) st).

(** [TaskGroup::wait]. *)
Definition tg_wait st : res task_group_state :=
  if tg_wait_used st then Throw StructuredConcurrencyError
  else Ok (tg_set_flags (tg_cancel_requested st) (tg_parent_cancelled st) GClosing true st).

(** [TaskGroup::cancel], and the destructor, which does not close the group. *)
Definition tg_cancel (ready : nat → bool) st : list nat * task_group_state :=
  (tg_unready ready st,
   tg_set_flags (tg_cancel_requested st) (tg_parent_cancelled st) (tg_closed_phase st) (tg_wait_used st) st).

Definition tg_destroyed (ready : nat → bool) st : list nat := tg_unready ready st.

Definition tg_accepts_new_tasks st : bool := bool_decide (tg_phase st = GOpen).

(** [await_resume] of the group; [Some] is the [ExceptionGroup] thrown. *)
Definition tg_await_resume st : option (list exn) * task_group_state :=
  let st := tg_abandon_waiter st in
  let es := tg_exceptions st in
  let st := tg_set_flags (tg_cancel_requested st) (tg_parent_cancelled st) GFinished (tg_wait_used st)
              (tg_set_exceptions [] st) in
  (if bool_decide (es = []) then None else Some es, st).

(** [on_cancel_requested]: it takes the cancellation over. *)
Definition tg_on_cancel_requested (ready : nat → bool) st : list nat * task_group_state :=
  (tg_unready ready st,
   tg_set_flags (tg_cancel_requested st) true (tg_closed_phase st) (tg_wait_used st) st).

Definition tg_on_waiter_destroyed (h : handle) (ready : nat → bool) st : list nat * task_group_state :=
  (tg_unready ready st,
   match tg_waiter st with
   | Some (h', _) => if decide (h' = h) then tg_set_waiter None st else st
   | None => st
   end).

Section task_group.
Context {W : Type} `{Runtime W}.
Implicit Types (w : W).

(** [install_waiter]; the boolean says that the waiter was scheduled. *)
Definition tg_install_waiter (h : handle) st w : bool * task_group_state * W :=
  if decide (tg_remaining st = 0) then (true, st, rt_schedule (rt_loop w) h w)
  else (false, tg_set_waiter (Some (h, rt_loop w)) st, w).

Definition tg_complete st w : bool * task_group_state * W :=
  let n := pred (tg_remaining st) in
  if decide (n = 0) then
    let st' := tg_set_waiter None (tg_set_members 0 [] st) in
    match tg_waiter st with
    | Some (h, l) => (true, st', rt_schedule l h w)
    | None => (false, st', w)
    end
  else (false, tg_set_members n (tg_monitors st) st, w).

(** ** The monitor coroutine

    [first] is the outcome of its [co_await *task_ptr]; [second] that of the wait
    after the cancellation was forwarded. *)

Inductive monitor_action : Type :=
  | MASuccess
  | MAFailure (e : exn)          (* [record_failure], cancelling the others *)
  | MAForward                    (* [task_ptr->cancel()], then wait again *).

Definition monitor_first {T} (o : res T) : monitor_action :=
  match o with
  | Ok _ => MASuccess
  | Throw CancelledError => MAForward
  | Throw e => MAFailure e
  end.

(** What is recorded after a forwarded cancellation. *)
Definition monitor_second {T} (o : res T) st : task_group_state :=
  match o with
  | Ok _ | Throw CancelledError => st
  | Throw e => tg_record_exception e st
  end.

(** The failures a second outcome adds. *)
Definition second_failures {T} (o : res T) : list exn :=
  match o with
  | Ok _ | Throw CancelledError => []
  | Throw e => [e]
  end.

Lemma monitor_second_eq {T} (o : res T) st :
  monitor_second o st = tg_set_exceptions (tg_exceptions st ++ second_failures o) st.
Proof. destruct st. by destruct o as [|[]]; cbn; rewrite ?app_nil_r. Qed.

Lemma second_failures_no_cancel {T} (o : res T) : CancelledError ∉ second_failures o.
Proof. destruct o as [|[]]; cbn; rewrite ?list_elem_of_singleton; try done; by apply not_elem_of_nil. Qed.

(** ** Histories *)

(** [gh_running]: monitors registered and not completed; [gh_failed]: the failures
    recorded, in order; [gh_woken]: how often the waiter was scheduled; [gh_stage]:
    0 before [wait], 1 after it, 2 suspended or scheduled, 3 resumed, 4 destroyed. *)
Record group_hist : Type := mkGroupHist {
  gh_state : task_group_state;
  gh_running : list nat;
  gh_failed : list exn;
  gh_woken : nat;
  gh_stage : nat;
}.

Definition running_ready (running : list nat) (m : nat) : bool := negb (bool_decide (m ∈ running)).

Inductive group_step : group_hist → group_hist → Prop :=
  | GSSpawn st run fl k g m b st' :
      tg_spawn_check st = Ok tt → m ∉ tg_monitors st → m ∉ run → tg_register m st = (b, st') →
      group_step (mkGroupHist st run fl k g) (mkGroupHist st' (run ++ [m]) fl k g)
  | GSFail st run fl k g m (o : res unit) e ms st' :
      m ∈ run → monitor_first o = MAFailure e → tg_record_failure e m (running_ready run) st = (ms, st') →
      group_step (mkGroupHist st run fl k g) (mkGroupHist st' run (fl ++ [e]) k g)
  | GSForwarded st run fl k g m (o : res unit) :
      m ∈ run →
      group_step (mkGroupHist st run fl k g)
        (mkGroupHist (monitor_second o st) run (fl ++ second_failures o) k g)
  | GSComplete st run fl k g m w b st' w' :
      m ∈ run → tg_complete st w = (b, st', w') →
      group_step (mkGroupHist st run fl k g)
        (mkGroupHist st' (filter (λ x, x ≠ m) run) fl (k + if b then 1 else 0) g)
  | GSWait st run fl k st' :
      tg_wait st = Ok st' → group_step (mkGroupHist st run fl k 0) (mkGroupHist st' run fl k 1)
  | GSInstall st run fl k h w b st' w' :
      tg_install_waiter h st w = (b, st', w') →
      group_step (mkGroupHist st run fl k 1) (mkGroupHist st' run fl (k + if b then 1 else 0) 2)
  | GSCancel st run fl k g ms st' :
      tg_cancel (running_ready run) st = (ms, st') → group_step (mkGroupHist st run fl k g) (mkGroupHist st' run fl k g)
  | GSParentCancel st run fl k g ms st' :
      tg_on_cancel_requested (running_ready run) st = (ms, st') →
      group_step (mkGroupHist st run fl k g) (mkGroupHist st' run fl k g)
  | GSResume st run fl k g es st' :
      g = 1 ∧ tg_waiter_ready st = true ∨ g = 2 ∧ 0 < k →
      tg_await_resume st = (es, st') → group_step (mkGroupHist st run fl k g) (mkGroupHist st' run [] k 3)
  | GSDestroyed st run fl k h l ms st' :
      tg_waiter st = Some (h, l) → tg_on_waiter_destroyed h (running_ready run) st = (ms, st') →
      group_step (mkGroupHist st run fl k 2) (mkGroupHist st' run fl k 4).

Inductive group_run : group_hist → Prop :=
  | GRun0 : group_run (mkGroupHist tg_init [] [] 0 0)
  | GRunS s s' : group_run s → group_step s s' → group_run s'.

Record group_inv (s : group_hist) : Prop := {
  gi_count : tg_remaining (gh_state s) = length (gh_running s);
  gi_nodup : NoDup (gh_running s);
  gi_members : ∀ m, m ∈ gh_running s → m ∈ tg_monitors (gh_state s);
  gi_failed : tg_exceptions (gh_state s) = gh_failed s;
  gi_no_cancel : CancelledError ∉ gh_failed s;
  gi_closed : tg_cancel_requested (gh_state s) = true → tg_phase (gh_state s) ≠ GOpen;
  gi_waited : tg_wait_used (gh_state s) = true ↔ gh_stage s ≠ 0;
  gi_phase : gh_stage s ≠ 0 → tg_phase (gh_state s) ≠ GOpen;
  gi_waiter : tg_waiter (gh_state s) ≠ None → gh_stage s = 2 ∧ gh_woken s = 0 ∧ gh_running s ≠ [];
  gi_woken : gh_stage s = 2 → tg_waiter (gh_state s) = None → gh_woken s = 1 ∧ gh_running s = [];
  gi_early : gh_stage s ≤ 1 → gh_woken s = 0;
  gi_once : gh_woken s ≤ 1;
  gi_done : gh_woken s = 1 ∨ gh_stage s = 3 → gh_running s = [];
}.

Lemma group_init_inv : group_inv (mkGroupHist tg_init [] [] 0 0).
Proof. split; simpl; try done; try lia; try (by intros ? ?%elem_of_nil); try apply not_elem_of_nil; constructor. Qed.

Lemma filter_ne_length (m : nat) run : NoDup run → m ∈ run → S (length (filter (λ x, x ≠ m) run)) = length run.
Proof.
  induction run as [|x run IH]; intros Hnd Hin; [by apply elem_of_nil in Hin|].
  apply NoDup_cons in Hnd as [Hx Hnd]. apply elem_of_cons in Hin as [->|Hin].
  - rewrite filter_cons_False by naive_solver. simpl. f_equal.
    rewrite filter_impl_all; [done|]. apply Forall_forall. intros y Hy ->. done.
  - rewrite filter_cons_True by (intros ->; done). simpl. by rewrite IH.
Qed.

Lemma tg_closed_phase_closed st : tg_closed_phase st ≠ GOpen.
Proof. unfold tg_closed_phase. by case_decide. Qed.

(** The operations that only close the group keep the invariant. *)
Lemma group_inv_close st st' run fl k g cr pc :
  group_inv (mkGroupHist st run fl k g) →
  st' = tg_set_flags cr pc (tg_closed_phase st) (tg_wait_used st) st →
  group_inv (mkGroupHist st' run fl k g).
Proof.
  intros [? ? ? ? ? ? ? ? ? ? ? ? ?] ->. split; simpl in *; try done; intros; apply tg_closed_phase_closed.
Qed.

Lemma tg_complete_inv st run fl k g m w b st' w' :
  group_inv (mkGroupHist st run fl k g) → m ∈ run → tg_complete st w = (b, st', w') →
  group_inv (mkGroupHist st' (filter (λ x, x ≠ m) run) fl (k + if b then 1 else 0) g).
Proof.
  intros Hi Hin Hc. pose proof Hi as [Hcnt Hnd Hm Hf Hnc Hcl Hwu Hph Hwt Hwk He Ho Hdn]; simpl in *.
  pose proof (filter_ne_length m run Hnd Hin) as Hlen.
  assert (k = 0 ∧ g ≠ 3) as [-> Hg3].
  { destruct (decide (k = 1 ∨ g = 3)) as [Hx|Hx]; [rewrite (Hdn Hx) in Hin; by apply elem_of_nil in Hin|]. lia. }
  unfold tg_complete in Hc. case_decide as Hz.
  - assert (filter (λ x, x ≠ m) run = []) as Hnil by (apply nil_length_inv; lia). rewrite Hnil.
    destruct (tg_waiter st) as [[h l]|] eqn:Hw; injection Hc as <- <- <-.
    + destruct (Hwt ltac:(done)) as (-> & _ & _).
      split; simpl; try done; try lia; try apply NoDup_nil_2; by intros ? ?%elem_of_nil.
    + split; simpl; try done; try lia; try apply NoDup_nil_2; try (by intros ? ?%elem_of_nil).
      intros Hg2 _. destruct (Hwk Hg2 ltac:(done)) as [? _]. lia.
  - injection Hc as <- <- <-. simpl.
    assert (filter (λ x, x ≠ m) run ≠ []) as Hne by (intros Hx; rewrite Hx in Hlen; simpl in Hlen; lia).
    split; simpl; try done; try lia.
    + by apply NoDup_filter.
    + intros x [_ Hx]%list_elem_of_filter. by apply Hm.
    + intros Hx. by destruct (Hwt Hx) as (? & _ & _).
    + intros Hg2 Hx. destruct (Hwk Hg2 Hx) as [? _]. lia.
Qed.

Lemma monitor_first_failure (o : res unit) e : monitor_first o = MAFailure e → e ≠ CancelledError.
Proof. destruct o as [|[]]; simpl; congruence. Qed.

Lemma tg_spawn_inv st run fl k g m b st' :
  group_inv (mkGroupHist st run fl k g) → tg_spawn_check st = Ok tt → m ∉ run →
  tg_register m st = (b, st') → group_inv (mkGroupHist st' (run ++ [m]) fl k g).
Proof.
  intros [Hcnt Hnd Hm Hf Hnc Hcl Hwu Hph Hwt Hwk He Ho Hdn] Hck Hnr Hr; simpl in *.
  unfold tg_spawn_check in Hck. case_decide as Hop; [done|]. try apply dec_stable in Hop. injection Hr as <- <-.
  assert (g = 0) as -> by (destruct g; [done|exfalso; by apply Hph]).
  split; simpl; try done.
  - rewrite length_app; simpl. lia.
  - rewrite NoDup_app. split_and!; [done| |apply NoDup_singleton]. by intros x Hx ->%list_elem_of_singleton.
  - intros x. rewrite !elem_of_app. intros [|]; [left; by apply Hm|by right].
  - intros Hx. by destruct (Hwt Hx) as [? _].
  - intros [|]; [|done]. rewrite He in * by lia. done.
Qed.

Lemma tg_failure_inv st run fl k g m e ms st' :
  group_inv (mkGroupHist st run fl k g) → e ≠ CancelledError →
  tg_record_failure e m (running_ready run) st = (ms, st') →
  group_inv (mkGroupHist st' run (fl ++ [e]) k g).
Proof.
  intros [Hcnt Hnd Hm Hf Hnc Hcl Hwu Hph Hwt Hwk He Ho Hdn] Hne Hr; simpl in *.
  assert (CancelledError ∉ fl ++ [e]) by (rewrite elem_of_app, list_elem_of_singleton; naive_solver).
  unfold tg_record_failure in Hr. cbn [tg_cancel_requested tg_set_flags tg_set_exceptions] in Hr.
  destruct (tg_cancel_requested st); injection Hr as <- <-; split; simpl; try done; try (by rewrite Hf);
    intros; apply tg_closed_phase_closed.
Qed.

Lemma tg_wait_inv st run fl k st' :
  group_inv (mkGroupHist st run fl k 0) → tg_wait st = Ok st' → group_inv (mkGroupHist st' run fl k 1).
Proof.
  intros [Hcnt Hnd Hm Hf Hnc Hcl Hwu Hph Hwt Hwk He Ho Hdn] Hw; simpl in *. unfold tg_wait in Hw.
  destruct (tg_wait_used st); [done|]. injection Hw as <-. split; simpl; try done.
  - intros Hx. by destruct (Hwt Hx) as [? _].
  - intros _. apply He. lia.
  - rewrite He by lia. intros [|]; done.
Qed.

Lemma tg_install_inv st run fl k h w b st' w' :
  group_inv (mkGroupHist st run fl k 1) → tg_install_waiter h st w = (b, st', w') →
  group_inv (mkGroupHist st' run fl (k + if b then 1 else 0) 2).
Proof.
  intros [Hcnt Hnd Hm Hf Hnc Hcl Hwu Hph Hwt Hwk He Ho Hdn] Hin; simpl in *. unfold tg_install_waiter in Hin.
  assert (k = 0) as -> by (apply He; lia).
  assert (tg_waiter st = None) as Hnw.
  { destruct (tg_waiter st); [|done]. destruct Hwt as [? _]; done. }
  case_decide as Hz; injection Hin as <- <- <-.
  - assert (run = []) as -> by (apply nil_length_inv; lia). split; simpl; try done; try lia; naive_solver lia.
  - split; simpl; try done; try lia; naive_solver lia.
Qed.

Lemma tg_resume_inv st run fl k g es st' :
  group_inv (mkGroupHist st run fl k g) → g = 1 ∧ tg_waiter_ready st = true ∨ g = 2 ∧ 0 < k →
  tg_await_resume st = (es, st') → group_inv (mkGroupHist st' run [] k 3).
Proof.
  intros [Hcnt Hnd Hm Hf Hnc Hcl Hwu Hph Hwt Hwk He Ho Hdn] Hg Hr; simpl in *. unfold tg_await_resume in Hr.
  assert (run = []) as ->.
  { destruct Hg as [[-> Hz]|[-> Hk]]; [|apply Hdn; lia]. unfold tg_waiter_ready in Hz.
    apply bool_decide_eq_true in Hz. apply nil_length_inv. lia. }
  assert (tg_wait_used st = true) as Hwt' by (apply Hwu; lia).
  injection Hr as <- <-. split; simpl; try done; try lia; apply not_elem_of_nil.
Qed.

Lemma tg_destroyed_inv st run fl k h l ms st' :
  group_inv (mkGroupHist st run fl k 2) → tg_waiter st = Some (h, l) →
  tg_on_waiter_destroyed h (running_ready run) st = (ms, st') → group_inv (mkGroupHist st' run fl k 4).
Proof.
  intros [Hcnt Hnd Hm Hf Hnc Hcl Hwu Hph Hwt Hwk He Ho Hdn] Hw Hd; simpl in *.
  unfold tg_on_waiter_destroyed in Hd. rewrite Hw, decide_True in Hd by done. injection Hd as <- <-.
  destruct (Hwt ltac:(by rewrite Hw)) as (_ & -> & Hne).
  assert (tg_wait_used st = true) as Hwt' by (apply Hwu; lia).
  split; simpl; try done; try lia. intros _. by apply Hph.
Qed.

Lemma group_step_inv s s' : group_inv s → group_step s s' → group_inv s'.
Proof.
  intros Hi Hs.
  destruct Hs as [| ? ? ? ? ? ? ? ? ? ? ? Ho|st run fl k g m o Hin| | |
    |st run fl k g ms st' Hc|st run fl k g ms st' Hc| | ].
  - by eapply tg_spawn_inv.
  - eapply tg_failure_inv; [done|by eapply monitor_first_failure|done].
  - rewrite monitor_second_eq. destruct Hi as [Hcnt Hnd Hm Hf Hnc Hcl Hwu Hph Hwt Hwk He Ho Hdn]; simpl in *.
    split; simpl; try done; [by rewrite Hf|]. rewrite elem_of_app.
    intros [|Hx]; [done|by apply second_failures_no_cancel in Hx].
  - by eapply tg_complete_inv.
  - by eapply tg_wait_inv.
  - by eapply tg_install_inv.
  - unfold tg_cancel in Hc. injection Hc as <- <-. by eapply group_inv_close.
  - unfold tg_on_cancel_requested in Hc. injection Hc as <- <-. by eapply group_inv_close.
  - by eapply tg_resume_inv.
  - by eapply tg_destroyed_inv.
Qed.

Lemma group_run_inv s : group_run s → group_inv s.
Proof. induction 1; [apply group_init_inv|by eapply group_step_inv]. Qed.

(** C11 The group is a barrier: in every history (children spawned, failing or cancelled
    in any order, the group or its parent cancelled meanwhile) the waiter is scheduled
    at most once and only when no child runs any more; as long as it is registered a
    child still runs, whose completion will wake it; and once the group was closed by
    [wait], no child can be added. *)
Theorem group_barrier s :
  group_run s →
  gh_woken s ≤ 1 ∧ (gh_woken s = 1 ∨ gh_stage s = 3 → gh_running s = []) ∧
  (tg_waiter (gh_state s) ≠ None → gh_running s ≠ []) ∧
  (gh_stage s = 2 → tg_waiter (gh_state s) = None → gh_woken s = 1) ∧
  (gh_stage s ≠ 0 → tg_spawn_check (gh_state s) = Throw StructuredConcurrencyError).
Proof.
  intros Hr. destruct (group_run_inv s Hr) as [Hcnt Hnd Hm Hf Hnc Hcl Hwu Hph Hwt Hwk He Ho Hdn].
  split_and!; [done|done| | |].
  - intros Hx. by destruct (Hwt Hx) as (_ & _ & ?).
  - intros Hg Hx. by destruct (Hwk Hg Hx).
  - intros Hg. unfold tg_spawn_check. by rewrite decide_True by (by apply Hph).
Qed.

(** The first failure cancels exactly the other children still running, and closes
    the group; later failures cancel nobody; every failure, and no cancellation, is in
    the [ExceptionGroup] of [wait], in the order in which they happened. *)
Theorem group_fail_fast s m e :
  group_run s → m ∈ gh_running s →
  let '(ms, st') := tg_record_failure e m (running_ready (gh_running s)) (gh_state s) in
  tg_spawn_check st' = Throw StructuredConcurrencyError ∧
  (tg_cancel_requested (gh_state s) = false → ∀ x, x ∈ ms ↔ x ∈ gh_running s ∧ x ≠ m) ∧
  (tg_cancel_requested (gh_state s) = true → ms = []) ∧
  (tg_record_failure e m (running_ready (gh_running s)) st').1 = [] ∧
  (tg_await_resume st').1 = Some (gh_failed s ++ [e]) ∧ CancelledError ∉ gh_failed s ∧
  (tg_await_resume (gh_state s)).1 = (if bool_decide (gh_failed s = []) then None else Some (gh_failed s)).
Proof.
  intros Hr Hin. destruct (group_run_inv s Hr) as [Hcnt Hnd Hm Hf Hnc Hcl Hwu Hph Hwt Hwk He Ho Hdn].
  assert (∀ x, x ∈ filter (λ m0, m0 ≠ m) (tg_unready (running_ready (gh_running s)) (gh_state s)) ↔ x ∈ gh_running s ∧ x ≠ m) as Hms.
  { intros x. unfold tg_unready. rewrite !list_elem_of_filter. unfold running_ready. rewrite negb_false_iff, bool_decide_eq_true.
    split; [tauto|]. intros [Hx ?]. auto. }
  assert (∀ l : list exn, bool_decide (l ++ [e] = []) = false) as Hne by (intros []; by apply bool_decide_eq_false).
  unfold tg_record_failure. simpl.
  destruct (tg_cancel_requested (gh_state s)) eqn:Hcr; simpl; rewrite ?Hcr, Hf, Hne; split_and!; try done;
    unfold tg_spawn_check; simpl; by rewrite decide_True by apply tg_closed_phase_closed.
Qed.

Context `{!RuntimeLaws W}.

(** The completion that ends the group queues the waiter on its own loop. *)
Lemma tg_complete_queues st w h l :
  tg_waiter st = Some (h, l) → tg_remaining st = 1 → h ≠ null_handle → rt_live l h w = true →
  rt_queued l h (tg_complete st w).2 = true.
Proof. intros Hw Hr Hh Hl. unfold tg_complete. rewrite Hr, Hw. simpl. by apply rl_schedule_queued. Qed.
End task_group.

(** ** Scenario: one child fails while a second one runs *)

Definition group_demo : group_hist := mkGroupHist (mkGroup 2 None [] [1; 2] false false GOpen false) [1; 2] [] 0 0.

Lemma group_demo_run : group_run (W := world) group_demo.
Proof.
  eapply (GRunS (mkGroupHist (mkGroup 1 None [] [1] false false GOpen false) [1] [] 0 0)).
  - eapply (GRunS (mkGroupHist tg_init [] [] 0 0)); [apply GRun0|].
    apply (GSSpawn tg_init [] [] 0 0 1 false); [done| | |done]; by intros ?%elem_of_nil.
  - apply (GSSpawn _ [1] [] 0 0 2 false); [done| | |done]; by intros ?%list_elem_of_singleton.
Qed.

Lemma group_barrier_witness : gh_woken group_demo ≤ 1.
Proof. exact (proj1 (group_barrier group_demo group_demo_run)). Defined.

Lemma group_fail_fast_witness :
  ∃ ms st', tg_record_failure (UserError 3) 1 (running_ready [1; 2]) (gh_state group_demo) = (ms, st') ∧
    tg_spawn_check st' = Throw StructuredConcurrencyError.
Proof.
  pose proof (group_fail_fast group_demo 1 (UserError 3) group_demo_run ltac:(by left)) as Hx.
  simpl gh_running in Hx.
  destruct (tg_record_failure (UserError 3) 1 (running_ready [1; 2]) (gh_state group_demo)) as [ms st'].
  exists ms, st'. split; [reflexivity|exact (proj1 Hx)].
Defined.
