(* ===== verification/TaskM.v ===== *)
(** * TaskM: coroutine frames and their owners ([coro::Task])

    [src/include/coro/task.hpp].  A [Task] object owns a frame through [handle_], and the
    promise in the frame points back to it: both are stores indexed by address, so that a
    pointer can dangle.  An operation that would follow a pointer to a destroyed frame, or
    to a destroyed [Task], or destroy a frame twice, answers [None].  The body of a
    coroutine is the calls it makes: [return_value], [unhandled_exception], the wrapped
    awaits and [final_suspend].  The primary template and the specialisation for [void]
    differ by the flag [vd]. *)

From S2P Require Import Prelude ReadyQueue Timers Frames EventLoop Runtime.
From stdpp Require Import options.
#[local] Set Default Proof Using "Type*".

(** ** What tasks ask of the loops beyond [Runtime] *)

Class FrameRuntime (W : Type) : Type := {
  fr_started : loop_id → handle → W → W;             (* [on_coroutine_started] *)
  fr_finished : loop_id → handle → W → W;            (* [on_coroutine_finished] *)
  fr_mark_abandoned : loop_id → handle → W → bool * W;
  fr_mark_io_abandoned : loop_id → handle → W → W;
  fr_is_abandoned : loop_id → handle → W → bool;
}.

(** The same frames are abandoned; the same but for the frame [h]. *)
Definition fr_keeps {W} `{FrameRuntime W} (w w' : W) : Prop :=
  ∀ l h, fr_is_abandoned l h w' = fr_is_abandoned l h w.
Definition fr_keeps_but {W} `{FrameRuntime W} (h : handle) (w w' : W) : Prop :=
  ∀ l h', h' ≠ h → fr_is_abandoned l h' w' = fr_is_abandoned l h' w.

Class FrameLaws (W : Type) `{Runtime W} `{FrameRuntime W} : Prop := {
  fl_started_keeps l h w : fr_keeps w (fr_started l h w);
  fl_finished_keeps l h w : fr_keeps w (fr_finished l h w);
  fl_mark_keeps l h w : fr_keeps_but h w (fr_mark_abandoned l h w).2;
  fl_io_keeps l h w : fr_keeps_but h w (fr_mark_io_abandoned l h w);
  fl_schedule_keeps l h w : fr_keeps w (rt_schedule l h w);
  fl_mark_true l h w : (fr_mark_abandoned l h w).1 = true → fr_is_abandoned l h (fr_mark_abandoned l h w).2 = true;
  fl_mark_queued l h w : (fr_mark_abandoned l h w).1 = rt_queued l h w;
  fl_io_marked l h w : fr_is_abandoned l h (fr_mark_io_abandoned l h w) = true;
  fl_started_live l h w : rt_live l h (fr_started l h w) = true;
  fl_finished_queued l h l' h' w : h' ≠ h → rt_queued l' h' (fr_finished l h w) = rt_queued l' h' w;
  fl_finished_live l h l' h' w : h' ≠ h → rt_live l' h' (fr_finished l h w) = rt_live l' h' w;
  fl_started_thread l h w : rt_same_thread w (fr_started l h w);
  fl_finished_thread l h w : rt_same_thread w (fr_finished l h w);
}.

#[export] Instance world_frames : FrameRuntime world := {|
  fr_started l h w := w_upd l (el_on_coroutine_started h) w;
  fr_finished l h w := w_upd l (el_on_coroutine_finished h) w;
  fr_mark_abandoned l h w := let '(b, x) := el_mark_abandoned h (w_loops w l) in (b, w_set_loop l x w);
  fr_mark_io_abandoned l h w := w_upd l (el_mark_io_abandoned h) w;
  fr_is_abandoned l h w := el_is_abandoned h (w_loops w l);
|}.

Lemma ft_is_abandoned_add h h' f : ft_is_abandoned h (ft_add h' f).2 = ft_is_abandoned h f.
Proof. done. Qed.

#[export] Instance world_frame_laws : FrameLaws world.
Proof.
  constructor.
  - intros l h w l' h'. by at_loop.
  - intros l h w l' h'. by at_loop.
  - intros l h w l' h' Hne. simpl. unfold el_mark_abandoned. destruct (ft_mark_abandoned h _) as [b f] eqn:Hm.
    at_loop. unfold el_is_abandoned, ft_is_abandoned, ft_mark_abandoned in *. simpl.
    destruct (ft_live _ !! h) as [x|]; [destruct (fs_scheduled x)|]; injection Hm as <- <-; simpl; try done.
    apply bool_decide_ext. set_solver.
  - intros l h w l' h' Hne. at_loop. unfold el_is_abandoned, ft_is_abandoned. simpl. apply bool_decide_ext. set_solver.
  - intros l h w l' h'. at_loop. unfold el_is_abandoned.
    destruct (el_schedule_frames (bool_decide (w_cur w = l)) h (w_loops w l)) as [->|(s & _ & Hl & ->)]; done.
  - intros l h w. simpl. unfold el_mark_abandoned. destruct (ft_mark_abandoned h _) as [b f] eqn:Hm.
    simpl. intros ->. unfold ft_mark_abandoned in Hm. unfold el_is_abandoned, ft_is_abandoned. rewrite decide_True by done.
    destruct (ft_live _ !! h) as [x|]; [destruct (fs_scheduled x)|]; simplify_eq.
    simpl. apply bool_decide_eq_true_2. set_solver.
  - intros l h w. simpl. unfold el_mark_abandoned, ft_mark_abandoned, ft_scheduled.
    destruct (ft_live _ !! h) as [x|]; [|done]. simpl. by destruct (fs_scheduled x) eqn:Hx; simpl.
  - intros l h w. simpl. rewrite decide_True by done. unfold el_is_abandoned, ft_is_abandoned. simpl.
    apply bool_decide_eq_true_2. set_solver.
  - intros l h w. simpl. rewrite decide_True by done. simpl. apply bool_decide_eq_true_2.
    destruct (ft_live _ !! h) eqn:Hh; [by rewrite Hh|]. rewrite lookup_insert_eq. by eexists.
  - intros l h l' h' w Hne. at_loop. unfold ft_scheduled. simpl. by rewrite lookup_delete_ne.
  - intros l h l' h' w Hne. at_loop. by rewrite lookup_delete_ne.
  - done.
  - done.
Qed.

Section abandoned.
Context {W : Type} `{FrameRuntime W}.
Implicit Types (w : W) (h : handle).

Definition not_abandoned h w : Prop := ∀ l, fr_is_abandoned l h w = false.

Lemma fr_keeps_refl w : fr_keeps w w.
Proof. done. Qed.
Lemma fr_keeps_trans w1 w2 w3 : fr_keeps w1 w2 → fr_keeps w2 w3 → fr_keeps w1 w3.
Proof. intros H1 H2 l h. by rewrite H2. Qed.
Lemma fr_keeps_not w w' h : fr_keeps w w' → not_abandoned h w → not_abandoned h w'.
Proof. intros Hk Hn l. by rewrite Hk. Qed.
Lemma fr_keeps_but_not w w' h h' : fr_keeps_but h w w' → h' ≠ h → not_abandoned h' w → not_abandoned h' w'.
Proof. intros Hk Hne Hn l. by rewrite Hk. Qed.
End abandoned.

(** ** Data *)

(** [promise_type]; a hook and the awaiter it is called with are one field. *)
Record promise (T : Type) : Type := mkPromise {
  pr_result : option T;
  pr_exception : option exn;
  pr_continuation : handle;
  pr_cont_loop : loop_id;
  pr_task : option nat;
  pr_cancelled : bool;
  pr_suspended : bool;
  pr_pending_io : bool;
  pr_target_loop : loop_id;
  pr_cancel_hook : option nat;
  pr_defer_hook : option nat;
}.
Arguments mkPromise {T}.
Arguments pr_result {T}. Arguments pr_exception {T}. Arguments pr_continuation {T}. Arguments pr_cont_loop {T}.
Arguments pr_task {T}. Arguments pr_cancelled {T}. Arguments pr_suspended {T}. Arguments pr_pending_io {T}.
Arguments pr_target_loop {T}. Arguments pr_cancel_hook {T}. Arguments pr_defer_hook {T}.

(** The members of [Task]. *)
Record task (T : Type) : Type := mkTask {
  tk_handle : handle;
  tk_result : option T;
  tk_exception : option exn;
  tk_ready : bool;
  tk_started : bool;
  tk_consumed : bool;
}.
Arguments mkTask {T}.
Arguments tk_handle {T}. Arguments tk_result {T}. Arguments tk_exception {T}.
Arguments tk_ready {T}. Arguments tk_started {T}. Arguments tk_consumed {T}.

(** The [Task] objects, the frames that exist, the exceptions given to
    [detached_exception_handler], and the loops. *)
Record tworld (T W : Type) : Type := mkTW {
  tw_tasks : gmap nat (task T);
  tw_frames : gmap handle (promise T);
  tw_reports : list exn;
  tw_w : W;
}.
Arguments mkTW {T W}.
Arguments tw_tasks {T W}. Arguments tw_frames {T W}. Arguments tw_reports {T W}. Arguments tw_w {T W}.

Section task.
Context {T W : Type} `{Runtime W} `{FrameRuntime W}.
(** The specialisation for [void]; moving a value out of the promise, which may throw; what is
    left of a value that was moved; the hooks an awaiter registers. *)
Variable vd : bool.
Variable move_value : T → res T.
Variable moved_from : T → T.
Variable io_cancel : nat → W → W.
Variable defer_cancel : nat → W → bool * W.
Implicit Types (s : tworld T W) (w : W) (t : nat) (h : handle) (p : promise T) (tk : task T).

Definition tw_set_task t tk s : tworld T W := mkTW (<[t := tk]> (tw_tasks s)) (tw_frames s) (tw_reports s) (tw_w s).
Definition tw_del_task t s : tworld T W := mkTW (delete t (tw_tasks s)) (tw_frames s) (tw_reports s) (tw_w s).
Definition tw_set_frame h p s : tworld T W := mkTW (tw_tasks s) (<[h := p]> (tw_frames s)) (tw_reports s) (tw_w s).
Definition tw_set_w w s : tworld T W := mkTW (tw_tasks s) (tw_frames s) (tw_reports s) w.
Definition tw_report (e : exn) s : tworld T W := mkTW (tw_tasks s) (tw_frames s) (tw_reports s ++ [e]) (tw_w s).

Definition pr_set_task (x : option nat) p : promise T :=
  mkPromise (pr_result p) (pr_exception p) (pr_continuation p) (pr_cont_loop p) x (pr_cancelled p)
    (pr_suspended p) (pr_pending_io p) (pr_target_loop p) (pr_cancel_hook p) (pr_defer_hook p).
Definition pr_set_outcome (r : option T) (e : option exn) p : promise T :=
  mkPromise r e (pr_continuation p) (pr_cont_loop p) (pr_task p) (pr_cancelled p)
    (pr_suspended p) (pr_pending_io p) (pr_target_loop p) (pr_cancel_hook p) (pr_defer_hook p).
Definition pr_set_continuation h (l : loop_id) p : promise T :=
  mkPromise (pr_result p) (pr_exception p) h l (pr_task p) (pr_cancelled p)
    (pr_suspended p) (pr_pending_io p) (pr_target_loop p) (pr_cancel_hook p) (pr_defer_hook p).
Definition pr_set_cancelled (b : bool) p : promise T :=
  mkPromise (pr_result p) (pr_exception p) (pr_continuation p) (pr_cont_loop p) (pr_task p) b
    (pr_suspended p) (pr_pending_io p) (pr_target_loop p) (pr_cancel_hook p) (pr_defer_hook p).
Definition pr_set_wait (susp io : bool) (ch dh : option nat) p : promise T :=
  mkPromise (pr_result p) (pr_exception p) (pr_continuation p) (pr_cont_loop p) (pr_task p) (pr_cancelled p)
    susp io (pr_target_loop p) ch dh.
Definition pr_set_loop (l : loop_id) p : promise T :=
  mkPromise (pr_result p) (pr_exception p) (pr_continuation p) (pr_cont_loop p) (pr_task p) (pr_cancelled p)
    (pr_suspended p) (pr_pending_io p) l (pr_cancel_hook p) (pr_defer_hook p).

Definition tk_set_handle h tk : task T :=
  mkTask h (tk_result tk) (tk_exception tk) (tk_ready tk) (tk_started tk) (tk_consumed tk).
Definition tk_set_outcome (r : option T) (e : option exn) tk : task T :=
  mkTask (tk_handle tk) r e true (tk_started tk) (tk_consumed tk).
Definition tk_set_started tk : task T :=
  mkTask (tk_handle tk) (tk_result tk) (tk_exception tk) (tk_ready tk) true (tk_consumed tk).
Definition tk_set_consumed (r : option T) tk : task T :=
  mkTask (tk_handle tk) r (tk_exception tk) (tk_ready tk) (tk_started tk) true.

(** [target_loop_ ? *target_loop_ : EventLoop::get()]. *)
Definition loop_of p w : loop_id := if decide (pr_target_loop p = 0) then rt_loop w else pr_target_loop p.

(** [h.destroy()]: undefined when the frame is already gone. *)
Definition destroy_frame h s : option (tworld T W) :=
  _ ← tw_frames s !! h; Some (mkTW (tw_tasks s) (delete h (tw_frames s)) (tw_reports s) (tw_w s)).

(** ** Completion *)

(** What [store_result] leaves in the [Task]: its result and its exception. *)
Definition stored p tk : option T * option exn :=
  if vd then
    (tk_result tk, if pr_cancelled p then Some CancelledError
                   else match pr_exception p with Some e => Some e | None => tk_exception tk end)
  else
    let '(r, e) :=
      if pr_cancelled p then (tk_result tk, Some CancelledError)
      else match pr_result p with
      | Some v => match move_value v with Ok v => (Some v, tk_exception tk) | Throw e => (None, Some e) end
      | None => (tk_result tk, tk_exception tk)
      end in
    (r, match pr_exception p with Some e => Some e | None => e end).

(** What it leaves in the promise. *)
Definition store_left p : promise T :=
  pr_set_outcome (if pr_cancelled p then pr_result p else moved_from <$> pr_result p)
    (if vd && pr_cancelled p then pr_exception p else None) p.

(** [store_result]: [task_] is followed when it is not null. *)
Definition store_result h s : option (tworld T W) :=
  p ← tw_frames s !! h;
  match pr_task p with
  | Some t =>
      tk ← tw_tasks s !! t;
      Some (tw_set_frame h (store_left p) (tw_set_task t (tk_set_outcome (stored p tk).1 (stored p tk).2 tk) s))
  | None =>
      match pr_exception p with
      | Some e => Some (tw_report e s)
      | None => Some s
      end
  end.

(** [release_handle]. *)
Definition release_handle h s : option (tworld T W) :=
  p ← tw_frames s !! h;
  match pr_task p with
  | Some t => tk ← tw_tasks s !! t; Some (tw_set_task t (tk_set_handle null_handle tk) s)
  | None => Some s
  end.

(** [final_awaiter::await_suspend], and the destruction of the frame that follows. *)
Definition final_suspend h s : option (tworld T W) :=
  s ← store_result h s;
  p ← tw_frames s !! h;
  let target := loop_of p (tw_w s) in
  let continuation := pr_continuation p in
  let cont_loop := if decide (pr_cont_loop p = 0) then rt_loop (tw_w s) else pr_cont_loop p in
  s ← release_handle h s;
  let s := tw_set_w (fr_finished target h (tw_w s)) s in
  let s := if decide (continuation = null_handle) then s else tw_set_w (rt_schedule cont_loop continuation (tw_w s)) s in
  destroy_frame h s.

(** The end of a body: [return_value] or [return_void], or [unhandled_exception]. *)
Definition body_returns h (v : T) s : option (tworld T W) :=
  p ← tw_frames s !! h;
  final_suspend h (tw_set_frame h (pr_set_outcome (if vd then pr_result p else Some v) (pr_exception p) p) s).
Definition body_throws h (e : exn) s : option (tworld T W) :=
  p ← tw_frames s !! h;
  final_suspend h (tw_set_frame h (pr_set_outcome (pr_result p) (Some e) p) s).

Definition body_ends h (o : res T) s : option (tworld T W) :=
  match o with Ok v => body_returns h v s | Throw e => body_throws h e s end.

(** ** The [Task] object *)

(** A call of the coroutine: the frame, suspended at its start, and its owner. *)
Definition task_new t h s : tworld T W :=
  tw_set_task t (mkTask h None None false false false)
    (tw_set_frame h (mkPromise None None null_handle 0 (Some t) false false false 0 None None) s).

(** [Task::start], and the end of [await_suspend]. *)
Definition launch t tk p s : tworld T W :=
  let l := loop_of p (tw_w s) in
  let s := tw_set_task t (tk_set_started tk) s in
  let s := tw_set_w (fr_started l (tk_handle tk) (tw_w s)) s in
  tw_set_w (rt_schedule l (tk_handle tk) (tw_w s)) s.

Definition task_start t s : option (tworld T W) :=
  tk ← tw_tasks s !! t;
  if decide (tk_started tk = false ∧ tk_handle tk ≠ null_handle) then
    p ← tw_frames s !! tk_handle tk; Some (launch t tk p s)
  else Some s.

Definition task_await_suspend t (continuation : handle) s : option (res unit * tworld T W) :=
  tk ← tw_tasks s !! t;
  if decide (tk_handle tk = null_handle) then Some (Throw RuntimeError, s)
  else
    p ← tw_frames s !! tk_handle tk;
    if decide (pr_continuation p ≠ null_handle) then Some (Throw LogicError, s)
    else
      let p := pr_set_continuation continuation (rt_loop (tw_w s)) p in
      let s := tw_set_frame (tk_handle tk) p s in
      Some (Ok tt, if tk_started tk then s else launch t tk p s).

(** [await_resume] and [take_result]; for [void] the result is not looked at. *)
Definition task_take t (unit_value : T) s : option (res T * tworld T W) :=
  tk ← tw_tasks s !! t;
  match tk_exception tk with
  | Some e => Some (Throw e, s)
  | None =>
      if vd then Some (Ok unit_value, s)
      else if tk_consumed tk then Some (Throw LogicError, s)
      else match tk_result tk with
      | None => Some (Throw LogicError, s)
      | Some v => Some (Ok v, tw_set_task t (tk_set_consumed (Some (moved_from v)) tk) s)
      end
  end.

Definition task_bind_loop t (l : loop_id) s : option (tworld T W) :=
  tk ← tw_tasks s !! t;
  if decide (tk_handle tk = null_handle) then Some s
  else p ← tw_frames s !! tk_handle tk; Some (tw_set_frame (tk_handle tk) (pr_set_loop l p) s).

Definition task_cancel t s : option (tworld T W) :=
  tk ← tw_tasks s !! t;
  if decide (tk_handle tk = null_handle ∨ tk_ready tk = true) then Some s
  else
    let h := tk_handle tk in
    p ← tw_frames s !! h;
    let p := pr_set_cancelled true p in
    let s := tw_set_frame h p s in
    if negb (tk_started tk) then
      s ← store_result h s;
      s ← release_handle h s;
      s ← destroy_frame h s;
      tk ← tw_tasks s !! t;
      Some (tw_set_task t (tk_set_handle null_handle tk) s)
    else
      match (if pr_pending_io p then pr_cancel_hook p else None), pr_defer_hook p with
      | Some a, _ => Some (tw_set_w (io_cancel a (tw_w s)) s)
      | None, Some a =>
          let '(taken, w) := defer_cancel a (tw_w s) in
          let s := tw_set_w w s in
          if taken then Some s else Some (tw_set_w (rt_schedule (loop_of p (tw_w s)) h (tw_w s)) s)
      | None, None =>
          if pr_suspended p then Some (tw_set_w (rt_schedule (loop_of p (tw_w s)) h (tw_w s)) s) else Some s
      end.

Definition task_on_waiter_destroyed t h s : option (tworld T W) :=
  tk ← tw_tasks s !! t;
  if decide (tk_handle tk = null_handle) then Some s
  else
    p ← tw_frames s !! tk_handle tk;
    if decide (pr_continuation p = h) then Some (tw_set_frame (tk_handle tk) (pr_set_continuation null_handle (pr_cont_loop p) p) s)
    else Some s.

Definition task_detach t s : option (tworld T W) :=
  tk ← tw_tasks s !! t;
  s ← (if decide (tk_handle tk = null_handle) then Some s
       else p ← tw_frames s !! tk_handle tk; Some (tw_set_frame (tk_handle tk) (pr_set_task None p) s));
  Some (tw_set_task t (mkTask null_handle (tk_result tk) (tk_exception tk) true (tk_started tk) (tk_consumed tk)) s).

(** What the destructor and the move assignment do to the frame that is owned. *)
Definition drop_frame tk s : option (tworld T W) :=
  let h := tk_handle tk in
  if decide (h = null_handle) then Some s
  else
    p ← tw_frames s !! h;
    if tk_started tk && negb (tk_ready tk) then
      let l := loop_of p (tw_w s) in
      match (if pr_pending_io p then pr_cancel_hook p else None) with
      | Some a =>
          let s := tw_set_frame h (pr_set_task None p) s in
          let s := tw_set_w (fr_mark_io_abandoned l h (tw_w s)) s in
          Some (tw_set_w (io_cancel a (tw_w s)) s)
      | None =>
          let '(queued, w) := fr_mark_abandoned l h (tw_w s) in
          let s := tw_set_w w s in
          if queued then Some s
          else destroy_frame h (tw_set_w (fr_finished l h (tw_w s)) s)
      end
    else destroy_frame h s.

Definition task_destroyed t s : option (tworld T W) :=
  tk ← tw_tasks s !! t; s ← drop_frame tk s; Some (tw_del_task t s).

(** [handle_.promise().task_ = this] after a move. *)
Definition relocate t h s : option (tworld T W) :=
  if decide (h = null_handle) then Some s
  else p ← tw_frames s !! h; Some (tw_set_frame h (pr_set_task (Some t) p) s).

(** The source of a move: an engaged optional stays engaged, with a moved-from value. *)
Definition tk_moved tk : task T :=
  mkTask null_handle (moved_from <$> tk_result tk) None (tk_ready tk) (tk_started tk) (tk_consumed tk).

(** Move construction of [t] from [t0]. *)
Definition task_move_construct t0 t s : option (tworld T W) :=
  tk ← tw_tasks s !! t0;
  relocate t (tk_handle tk) (tw_set_task t tk (tw_set_task t0 (tk_moved tk) s)).

(** Move assignment of [t] from [t0]; nothing when they are the same object. *)
Definition task_move_assign t0 t s : option (tworld T W) :=
  if decide (t0 = t) then Some s
  else
    old ← tw_tasks s !! t;
    s ← drop_frame old s;
    tk ← tw_tasks s !! t0;
    relocate t (tk_handle tk) (tw_set_task t tk (tw_set_task t0 (tk_moved tk) s)).

(** [spawn]: the parameter [t0] is started, moved into the result [t] and destroyed. *)
Definition spawn t0 t s : option (tworld T W) :=
  s ← task_start t0 s; s ← task_move_construct t0 t s; task_destroyed t0 s.

(** ** Every operation on tasks and frames, in any order

    The body of a coroutine ends only when the loop has resumed it, and the loop resumes no
    abandoned frame ([RunLoop]); it destroys it instead. *)

(** The changes the wrapped awaits of a body make to its promise: neither its owner nor
    its outcome. *)
Definition same_owner p p' : Prop :=
  pr_task p' = pr_task p ∧ pr_result p' = pr_result p ∧ pr_exception p' = pr_exception p.

Inductive task_step : tworld T W → tworld T W → Prop :=
  | TNew t h s :
      tw_tasks s !! t = None → tw_frames s !! h = None → h ≠ null_handle → not_abandoned h (tw_w s) →
      task_step s (task_new t h s)
  | TStart t s s' : task_start t s = Some s' → task_step s s'
  | TAwait t c s r s' : task_await_suspend t c s = Some (r, s') → task_step s s'
  | TTake t u s r s' : task_take t u s = Some (r, s') → task_step s s'
  | TBind t l s s' : task_bind_loop t l s = Some s' → task_step s s'
  | TCancel t s s' : task_cancel t s = Some s' → task_step s s'
  | TWaiter t h s s' : task_on_waiter_destroyed t h s = Some s' → task_step s s'
  | TDetach t s s' : task_detach t s = Some s' → task_step s s'
  | TDestroyed t s s' : task_destroyed t s = Some s' → task_step s s'
  | TMove t0 t s s' : tw_tasks s !! t = None → task_move_construct t0 t s = Some s' → task_step s s'
  | TAssign t0 t s s' : task_move_assign t0 t s = Some s' → task_step s s'
  | TReturn h v s s' : not_abandoned h (tw_w s) → body_returns h v s = Some s' → task_step s s'
  | TThrow h e s s' : not_abandoned h (tw_w s) → body_throws h e s = Some s' → task_step s s'
  | TFrame h p p' s : tw_frames s !! h = Some p → same_owner p p' → task_step s (tw_set_frame h p' s)
  | TReap l h w' s s' :
      fr_is_abandoned l h (tw_w s) = true → destroy_frame h s = Some s' → fr_keeps_but h (tw_w s) w' →
      task_step s (tw_set_w w' s')
  | TWorld w' s : fr_keeps (tw_w s) w' → task_step s (tw_set_w w' s).

Inductive task_run : tworld T W → Prop :=
  | TRun0 w : task_run (mkTW ∅ ∅ [] w)
  | TRunS s s' : task_run s → task_step s s' → task_run s'.

(** What a waiter is to see of the end of a body: the cancellation it was asked for comes
    before its value and, for [void] only, before its exception. *)
Definition delivered (cancelled : bool) (unit_value : T) (o : res T) : res T :=
  match o with
  | Throw e => if vd && cancelled then Throw CancelledError else Throw e
  | Ok v => if cancelled then Throw CancelledError else if vd then Ok unit_value else move_value v
  end.

(** ** "handle_ is not null exactly when the frame is alive" *)

Definition tk_fresh tk : Prop :=
  tk_ready tk = false ∧ tk_result tk = None ∧ tk_exception tk = None ∧ tk_consumed tk = false.

Record task_inv s : Prop := {
  ti_owned : ∀ t tk, tw_tasks s !! t = Some tk → tk_handle tk ≠ null_handle →
    not_abandoned (tk_handle tk) (tw_w s) ∧ ∃ p, tw_frames s !! tk_handle tk = Some p ∧ pr_task p = Some t;
  ti_back : ∀ h p t, tw_frames s !! h = Some p → pr_task p = Some t →
    (∃ l, fr_is_abandoned l h (tw_w s) = true) ∨ ∃ tk, tw_tasks s !! t = Some tk ∧ tk_handle tk = h;
  ti_fresh : ∀ t tk, tw_tasks s !! t = Some tk → tk_handle tk ≠ null_handle → tk_fresh tk;
  ti_frames : ∀ h p, tw_frames s !! h = Some p → h ≠ null_handle ∧ pr_result p = None ∧ pr_exception p = None;
}.

(** Only the world changes. *)
Lemma task_inv_world s w' : fr_keeps (tw_w s) w' → task_inv s → task_inv (tw_set_w w' s).
Proof.
  intros Hk [Ho Hb Hr Hn]. split; simpl; try done.
  - intros t tk Ht Hh. destruct (Ho t tk Ht Hh) as [Hna Hp]. split; [by eapply fr_keeps_not|done].
  - intros h p t Hp Ht. destruct (Hb h p t Hp Ht) as [[l Hl]|?]; [left; exists l; by rewrite Hk|by right].
Qed.

(** A promise changes, its owner stays. *)
Lemma task_inv_frame s h p p' : tw_frames s !! h = Some p → same_owner p p' → task_inv s → task_inv (tw_set_frame h p' s).
Proof.
  intros Hp Hs [Ho Hb Hr Hn]. destruct Hs as (Hs & Hsr & Hse). split; simpl; [| |done|].
  - intros t tk Ht Hh. destruct (Ho t tk Ht Hh) as (Hqa & q & Hq & Hqt). split; [done|]. destruct (decide (tk_handle tk = h)) as [He|Hne].
    + rewrite He in *. exists p'. rewrite lookup_insert_eq. split; [done|]. rewrite Hs. congruence.
    + exists q. by rewrite lookup_insert_ne.
  - intros h' q t. destruct (decide (h' = h)) as [->|Hne]; [|rewrite lookup_insert_ne by done; apply Hb].
    rewrite lookup_insert_eq. intros [= <-] Ht. apply (Hb h p t Hp). by rewrite <- Hs.
  - intros h' q. destruct (decide (h' = h)) as [->|Hne]; [|rewrite lookup_insert_ne by done; apply Hn].
    rewrite lookup_insert_eq. intros [= <-]. rewrite Hsr, Hse. by apply Hn.
Qed.

(** A task changes, its handle stays. *)
Lemma task_inv_task s t tk tk' :
  tw_tasks s !! t = Some tk → tk_handle tk' = tk_handle tk → (tk_fresh tk → tk_fresh tk') →
  task_inv s → task_inv (tw_set_task t tk' s).
Proof.
  intros Ht Hh Hrd [Ho Hb Hr Hn]. split; simpl; [| | |done].
  - intros t' x. destruct (decide (t' = t)) as [->|Hne]; [|rewrite lookup_insert_ne by done; apply Ho].
    rewrite lookup_insert_eq. intros [= <-]. rewrite Hh. by apply Ho.
  - intros h p t' Hp Hpt. destruct (Hb h p t' Hp Hpt) as [|(x & Hx & Hxh)]; [by left|right].
    destruct (decide (t' = t)) as [->|Hne]; [|exists x; by rewrite lookup_insert_ne].
    exists tk'. rewrite lookup_insert_eq. split; [done|]. congruence.
  - intros t' x. destruct (decide (t' = t)) as [->|Hne]; [|rewrite lookup_insert_ne by done; apply Hr].
    rewrite lookup_insert_eq. intros [= <-]. rewrite Hh. intros Hx. by apply Hrd, (Hr t).
Qed.

(** The frame of a task goes, and its handle with it. *)
Lemma task_inv_release s h t tk tk' :
  tw_tasks s !! t = Some tk → tk_handle tk = h → tk_handle tk' = null_handle → task_inv s →
  task_inv (mkTW (<[t := tk']> (tw_tasks s)) (delete h (tw_frames s)) (tw_reports s) (tw_w s)).
Proof.
  intros Ht Hh Hh' [Ho Hb Hr Hn]. split; simpl.
  - intros t' x. destruct (decide (t' = t)) as [->|Hne]; [rewrite lookup_insert_eq; intros [= <-]; congruence|].
    rewrite lookup_insert_ne by done. intros Hx Hxh. destruct (Ho t' x Hx Hxh) as (Hpa & p & Hp & Hpt).
    split; [done|]. exists p. split; [|done]. rewrite lookup_delete_ne; [done|]. intros Heq.
    destruct (decide (h = null_handle)) as [Hz|Hz]; [congruence|].
    destruct (Ho t tk Ht ltac:(congruence)) as (Hqa & q & Hq & Hqt). rewrite Hh, Heq in Hq. congruence.
  - intros h' p t' Hp Hpt. apply lookup_delete_Some in Hp as [Hne Hp].
    destruct (Hb h' p t' Hp Hpt) as [|(x & Hx & Hxh)]; [by left|right]. exists x. split; [|done].
    rewrite lookup_insert_ne; [done|]. intros ->. congruence.
  - intros t' x. destruct (decide (t' = t)) as [->|Hne]; [by rewrite lookup_insert_eq; intros [= <-]|].
    rewrite lookup_insert_ne by done. apply Hr.
  - intros h' p [_ Hp]%lookup_delete_Some. by apply Hn.
Qed.

(** A frame without owner goes. *)
Lemma task_inv_orphan s h p :
  tw_frames s !! h = Some p → (∀ t tk, tw_tasks s !! t = Some tk → tk_handle tk ≠ h) → task_inv s →
  task_inv (mkTW (tw_tasks s) (delete h (tw_frames s)) (tw_reports s) (tw_w s)).
Proof.
  intros Hp Hno [Ho Hb Hr Hn]. split; simpl; [| |done|by intros h' q [_ Hq]%lookup_delete_Some; apply (Hn h')].
  - intros t tk Ht Hh. destruct (Ho t tk Ht Hh) as (Hqa & q & Hq & Hqt). split; [done|]. exists q. split; [|done].
    rewrite lookup_delete_ne; [done|]. intros Heq. by apply (Hno t tk Ht).
  - intros h' q t Hq Hqt. apply lookup_delete_Some in Hq as [_ Hq]. by apply (Hb h' q).
Qed.

(** A frame loses its owner, and the owner its handle. *)
Lemma task_inv_disown s h p t tk tk' :
  tw_frames s !! h = Some p → tw_tasks s !! t = Some tk → tk_handle tk = h → tk_handle tk' = null_handle → h ≠ null_handle →
  task_inv s → task_inv (tw_set_task t tk' (tw_set_frame h (pr_set_task None p) s)).
Proof.
  intros Hp Ht Hh Hh' Hnn [Ho Hb Hr Hn]. destruct (Ho t tk Ht ltac:(congruence)) as (_ & q0 & Hq0 & Hqt0). rewrite Hh, Hp in Hq0.
  injection Hq0 as <-. split; simpl; [| | |intros h1 q; destruct (decide (h1 = h)) as [->|Hne];
    [rewrite lookup_insert_eq; intros [= <-]; by apply (Hn h p)|rewrite lookup_insert_ne by done; apply Hn]].
  - intros t' x. destruct (decide (t' = t)) as [->|Hne]; [by rewrite lookup_insert_eq; intros [= <-]|].
    rewrite lookup_insert_ne by done. intros Hx Hxh. destruct (Ho t' x Hx Hxh) as (Hqa & q & Hq & Hqt).
    split; [done|]. exists q. split; [|done]. rewrite lookup_insert_ne; [done|]. intros Heq. rewrite Heq in Hp. congruence.
  - intros h1 q t'. destruct (decide (h1 = h)) as [->|Hne]; [by rewrite lookup_insert_eq; intros [= <-]|].
    rewrite lookup_insert_ne by done. intros Hq Hqt. destruct (Hb h1 q t' Hq Hqt) as [|(x & Hx & Hxh)]; [by left|right].
    exists x. split; [|done]. rewrite lookup_insert_ne; [done|]. intros ->. congruence.
  - intros t' x. destruct (decide (t' = t)) as [->|Hne]; [by rewrite lookup_insert_eq; intros [= <-]|].
    rewrite lookup_insert_ne by done. apply Hr.
Qed.

(** A task without a frame changes, goes or comes. *)
Lemma task_inv_idle s t tk tk' :
  tw_tasks s !! t = Some tk → tk_handle tk = null_handle → tk_handle tk' = null_handle →
  task_inv s → task_inv (tw_set_task t tk' s).
Proof.
  intros Ht Hh Hh' [Ho Hb Hr Hn]. split; simpl; [| | |done].
  - intros t' x. destruct (decide (t' = t)) as [->|Hne]; [by rewrite lookup_insert_eq; intros [= <-]|].
    rewrite lookup_insert_ne by done. apply Ho.
  - intros h p t' Hp Hpt. destruct (Hb h p t' Hp Hpt) as [|(x & Hx & Hxh)]; [by left|right].
    exists x. split; [|done]. rewrite lookup_insert_ne; [done|]. intros ->. simplify_eq. by apply Hn in Hp as [? _].
  - intros t' x. destruct (decide (t' = t)) as [->|Hne]; [by rewrite lookup_insert_eq; intros [= <-]|].
    rewrite lookup_insert_ne by done. apply Hr.
Qed.

Lemma task_inv_del s t tk : tw_tasks s !! t = Some tk → tk_handle tk = null_handle → task_inv s → task_inv (tw_del_task t s).
Proof.
  intros Ht Hh [Ho Hb Hr Hn]. split; simpl; [| | |done].
  - intros t' x [_ Hx]%lookup_delete_Some. by apply (Ho t').
  - intros h p t' Hp Hpt. destruct (Hb h p t' Hp Hpt) as [|(x & Hx & Hxh)]; [by left|right].
    exists x. split; [|done]. apply lookup_delete_Some. split; [|done]. intros ->. simplify_eq. by apply Hn in Hp as [? _].
  - intros t' x [_ Hx]%lookup_delete_Some. by apply (Hr t').
Qed.

Lemma tw_del_set t tk s : tw_del_task t (tw_set_task t tk s) = tw_del_task t s.
Proof. unfold tw_del_task, tw_set_task. simpl. by rewrite delete_insert_eq. Qed.

(** What happens to a frame without owner does not matter to the others. *)
Lemma task_inv_but s h w' :
  (∀ p, tw_frames s !! h = Some p → pr_task p = None) → fr_keeps_but h (tw_w s) w' → task_inv s → task_inv (tw_set_w w' s).
Proof.
  intros Hno Hk [Ho Hb Hr Hn]. split; simpl; [| |done|done].
  - intros t tk Ht Hh. destruct (Ho t tk Ht Hh) as (Hna & p & Hp & Hpt). split; [|by exists p].
    eapply fr_keeps_but_not; [done| |done]. intros Heq. rewrite Heq in Hp. apply Hno in Hp. congruence.
  - intros h' p t Hp Hpt. destruct (Hb h' p t Hp Hpt) as [[l Hl]|]; [left; exists l|by right].
    rewrite Hk; [done|]. intros ->. specialize (Hno p Hp). congruence.
Qed.

(** The owner of a frame goes, and the frame is abandoned. *)
Lemma task_inv_abandon s t tk l w' :
  tw_tasks s !! t = Some tk → tk_handle tk ≠ null_handle → fr_keeps_but (tk_handle tk) (tw_w s) w' →
  fr_is_abandoned l (tk_handle tk) w' = true → task_inv s → task_inv (tw_del_task t (tw_set_w w' s)).
Proof.
  intros Ht Hh Hk Hl [Ho Hb Hr Hn]. destruct (Ho t tk Ht Hh) as (_ & q & Hq & Hqt). split; simpl; [| | |done].
  - intros t' x [Hne Hx]%lookup_delete_Some Hxh. destruct (Ho t' x Hx Hxh) as (Hna & p & Hp & Hpt). split; [|by exists p].
    eapply fr_keeps_but_not; [done| |done]. intros Heq. rewrite Heq in Hp. congruence.
  - intros h p t' Hp Hpt. destruct (decide (h = tk_handle tk)) as [->|Hhne]; [by left; exists l|].
    destruct (Hb h p t' Hp Hpt) as [[l' Hl']|(x & Hx & Hxh)]; [left; exists l'; by rewrite Hk|right].
    exists x. split; [|done]. apply lookup_delete_Some. split; [|done]. intros ->. congruence.
  - intros t' x [_ Hx]%lookup_delete_Some. by apply (Hr t').
Qed.

(** ** What completion does, in closed form *)

Definition final_world h p w : W :=
  let w' := fr_finished (loop_of p w) h w in
  if decide (pr_continuation p = null_handle) then w'
  else rt_schedule (if decide (pr_cont_loop p = 0) then rt_loop w else pr_cont_loop p) (pr_continuation p) w'.

Definition finished p tk : task T := tk_set_handle null_handle (tk_set_outcome (stored p tk).1 (stored p tk).2 tk).

Lemma store_release_owned s h p t tk :
  tw_frames s !! h = Some p → pr_task p = Some t → tw_tasks s !! t = Some tk →
  ∃ s1, store_result h s = Some s1 ∧ tw_frames s1 !! h = Some (store_left p) ∧ tw_w s1 = tw_w s ∧
    ∃ s2, release_handle h s1 = Some s2 ∧ tw_w s2 = tw_w s ∧ tw_tasks s2 = <[t := finished p tk]> (tw_tasks s) ∧
      tw_frames s2 = <[h := store_left p]> (tw_frames s) ∧ tw_reports s2 = tw_reports s.
Proof.
  intros Hp Ht Htk. unfold store_result. rewrite Hp. simpl. rewrite Ht, Htk. simpl.
  eexists. split; [reflexivity|]. simpl. rewrite lookup_insert_eq. split; [done|]. split; [done|].
  unfold release_handle. simpl. rewrite lookup_insert_eq. simpl. rewrite Ht. simpl. rewrite lookup_insert_eq. simpl.
  eexists. split; [reflexivity|]. simpl. by rewrite insert_insert_eq.
Qed.

Lemma final_owned s h p t tk :
  tw_frames s !! h = Some p → pr_task p = Some t → tw_tasks s !! t = Some tk →
  final_suspend h s = Some (mkTW (<[t := finished p tk]> (tw_tasks s)) (delete h (tw_frames s)) (tw_reports s)
                             (final_world h p (tw_w s))).
Proof.
  intros Hp Ht Htk. destruct (store_release_owned s h p t tk Hp Ht Htk)
    as (s1 & Hs1 & Hf1 & Hw1 & s2 & Hs2 & Hw2 & Ht2 & Hf2 & Hr2).
  unfold final_suspend. rewrite Hs1. simpl. rewrite Hf1. simpl. rewrite Hs2. simpl. unfold final_world.
  change (pr_continuation (store_left p)) with (pr_continuation p). change (pr_cont_loop (store_left p)) with (pr_cont_loop p).
  change (loop_of (store_left p)) with (loop_of p). rewrite Hw1, Hw2.
  case_decide; unfold destroy_frame; simpl; rewrite Hf2, lookup_insert_eq; simpl; rewrite Ht2, Hr2, delete_insert_eq; done.
Qed.

Lemma final_orphan s h p :
  tw_frames s !! h = Some p → pr_task p = None →
  final_suspend h s = Some (mkTW (tw_tasks s) (delete h (tw_frames s))
    (tw_reports s ++ match pr_exception p with Some e => [e] | None => [] end) (final_world h p (tw_w s))).
Proof.
  intros Hp Ht. unfold final_suspend, store_result. rewrite Hp. simpl. rewrite Ht. unfold final_world.
  destruct (pr_exception p) as [e|]; simpl; rewrite Hp; simpl; unfold release_handle; simpl; rewrite Hp; simpl; rewrite Ht; simpl;
    case_decide; unfold destroy_frame; simpl; rewrite Hp; simpl; by rewrite ?app_nil_r.
Qed.

Lemma cancel_unstarted t tk p s :
  tw_tasks s !! t = Some tk → tk_handle tk ≠ null_handle → tk_ready tk = false → tk_started tk = false →
  tw_frames s !! tk_handle tk = Some p → pr_task p = Some t →
  task_cancel t s = Some (mkTW (<[t := finished (pr_set_cancelled true p) tk]> (tw_tasks s))
    (delete (tk_handle tk) (tw_frames s)) (tw_reports s) (tw_w s)).
Proof.
  intros Ht Hh Hr Hs Hp Hpt. unfold task_cancel. rewrite Ht. simpl. rewrite decide_False by (intros [|]; congruence).
  rewrite Hp. simpl. rewrite Hs. simpl.
  destruct (store_release_owned (tw_set_frame (tk_handle tk) (pr_set_cancelled true p) s) (tk_handle tk) (pr_set_cancelled true p) t tk)
    as (s1 & Hs1 & Hf1 & Hw1 & s2 & Hs2 & Hw2 & Ht2 & Hf2 & Hr2); [simpl; by rewrite lookup_insert_eq|done|done|].
  rewrite Hs1. simpl. rewrite Hs2. simpl. unfold destroy_frame. rewrite Hf2. simpl. rewrite lookup_insert_eq. simpl.
  rewrite Ht2. simpl. rewrite lookup_insert_eq. simpl. unfold tw_set_task. simpl.
  rewrite Hr2, Hw2, !insert_insert_eq, !delete_insert_eq. done.
Qed.

(** ** No operation follows a dangling pointer, and all keep the invariant *)

Context `{!RuntimeLaws W} `{!FrameLaws W}.
Hypothesis io_keeps : ∀ a w, fr_keeps w (io_cancel a w).
Hypothesis defer_keeps : ∀ a w, fr_keeps w (defer_cancel a w).2.

Definition op_ok (o : option (tworld T W)) : Prop := ∃ s', o = Some s' ∧ task_inv s'.

Lemma op_ok_some s : task_inv s → op_ok (Some s).
Proof. by exists s. Qed.

Lemma final_world_keeps h p w : fr_keeps w (final_world h p w).
Proof.
  unfold final_world. case_decide; [apply fl_finished_keeps|].
  eapply fr_keeps_trans; [apply fl_finished_keeps|apply fl_schedule_keeps].
Qed.

(** The end of a body whose promise has become [p']. *)
Lemma final_ok s h p p' :
  task_inv s → tw_frames s !! h = Some p → pr_task p' = pr_task p → not_abandoned h (tw_w s) →
  op_ok (final_suspend h (tw_set_frame h p' s)).
Proof.
  intros Hi Hp Hs Hna. assert (tw_frames (tw_set_frame h p' s) !! h = Some p') as Hp' by (simpl; by rewrite lookup_insert_eq).
  destruct (pr_task p) as [t|] eqn:Ht.
  - destruct (ti_back _ Hi h p t Hp Ht) as [[l Hl]|(tk & Htk & Hh)]; [by rewrite Hna in Hl|].
    rewrite (final_owned _ h p' t tk Hp' Hs Htk). simpl. rewrite delete_insert_eq. apply op_ok_some.
    apply (task_inv_world (mkTW _ _ _ (tw_w s))); [apply final_world_keeps|]. by apply (task_inv_release s h t tk).
  - rewrite (final_orphan _ h p' Hp' Hs). simpl. rewrite delete_insert_eq. apply op_ok_some.
    apply (task_inv_world (mkTW _ _ _ (tw_w s))); [apply final_world_keeps|].
    destruct (task_inv_orphan s h p Hp) as [? ? ? ?]; [|done|by split].
    intros t tk Htk Hh. assert (h ≠ null_handle) by apply (ti_frames _ Hi h p Hp).
    destruct (ti_owned _ Hi t tk Htk ltac:(congruence)) as (_ & q & Hq & Hqt). rewrite Hh in Hq. congruence.
Qed.

Lemma returns_ok s h p v : task_inv s → tw_frames s !! h = Some p → not_abandoned h (tw_w s) → op_ok (body_returns h v s).
Proof. intros Hi Hp Hna. unfold body_returns. rewrite Hp. by apply (final_ok s h p). Qed.
Lemma throws_ok s h p e : task_inv s → tw_frames s !! h = Some p → not_abandoned h (tw_w s) → op_ok (body_throws h e s).
Proof. intros Hi Hp Hna. unfold body_throws. rewrite Hp. by apply (final_ok s h p). Qed.

Lemma launch_inv t tk p s : task_inv s → tw_tasks s !! t = Some tk → task_inv (launch t tk p s).
Proof.
  intros Hi Ht. unfold launch. apply task_inv_world; [apply fl_schedule_keeps|].
  apply task_inv_world; [apply fl_started_keeps|]. by eapply task_inv_task.
Qed.

Lemma start_ok t tk s : task_inv s → tw_tasks s !! t = Some tk → op_ok (task_start t s).
Proof.
  intros Hi Ht. unfold task_start. rewrite Ht. simpl. case_decide as Hc; [|by apply op_ok_some].
  destruct (ti_owned _ Hi t tk Ht (proj2 Hc)) as (_ & p & -> & _). simpl. by apply op_ok_some, launch_inv.
Qed.

Lemma await_ok t tk c s : task_inv s → tw_tasks s !! t = Some tk →
  ∃ r s', task_await_suspend t c s = Some (r, s') ∧ task_inv s'.
Proof.
  intros Hi Ht. unfold task_await_suspend. rewrite Ht. simpl. case_decide as Hc; [by eauto|].
  destruct (ti_owned _ Hi t tk Ht Hc) as (Hpa & p & Hp & Hpt). rewrite Hp. simpl. case_decide as Hcc; [by eauto|].
  eexists _, _. split; [reflexivity|]. assert (task_inv (tw_set_frame (tk_handle tk) (pr_set_continuation c (rt_loop (tw_w s)) p) s)).
  { by eapply task_inv_frame. }
  destruct (tk_started tk); [done|]. by apply launch_inv.
Qed.

Lemma take_ok t tk u s : task_inv s → tw_tasks s !! t = Some tk → ∃ r s', task_take t u s = Some (r, s') ∧ task_inv s'.
Proof.
  intros Hi Ht. unfold task_take. rewrite Ht. simpl. destruct (tk_exception tk); [by eauto|]. destruct vd; [by eauto|].
  destruct (tk_consumed tk); [by eauto|]. destruct (tk_result tk) as [v|] eqn:Hv; [|by eauto].
  eexists _, _. split; [reflexivity|]. assert (tk_handle tk = null_handle).
  { destruct (decide (tk_handle tk = null_handle)) as [|Hh]; [done|]. by destruct (ti_fresh _ Hi t tk Ht Hh) as (_ & ? & _); simplify_eq. }
  by eapply task_inv_idle.
Qed.

Lemma bind_ok t tk l s : task_inv s → tw_tasks s !! t = Some tk → op_ok (task_bind_loop t l s).
Proof.
  intros Hi Ht. unfold task_bind_loop. rewrite Ht. simpl. case_decide as Hc; [by apply op_ok_some|].
  destruct (ti_owned _ Hi t tk Ht Hc) as (Hpa & p & Hp & Hpt). rewrite Hp. simpl. apply op_ok_some. by eapply task_inv_frame.
Qed.

Lemma waiter_ok t tk h s : task_inv s → tw_tasks s !! t = Some tk → op_ok (task_on_waiter_destroyed t h s).
Proof.
  intros Hi Ht. unfold task_on_waiter_destroyed. rewrite Ht. simpl. case_decide as Hc; [by apply op_ok_some|].
  destruct (ti_owned _ Hi t tk Ht Hc) as (Hpa & p & Hp & Hpt). rewrite Hp. simpl.
  case_decide; apply op_ok_some; [by eapply task_inv_frame|done].
Qed.

Lemma cancel_ok t tk s : task_inv s → tw_tasks s !! t = Some tk → op_ok (task_cancel t s).
Proof.
  intros Hi Ht. destruct (decide (tk_handle tk = null_handle ∨ tk_ready tk = true)) as [Hc|Hc].
  { unfold task_cancel. rewrite Ht. simpl. rewrite decide_True by done. by apply op_ok_some. }
  apply Decidable.not_or in Hc as [Hh Hr%not_true_is_false].
  destruct (ti_owned _ Hi t tk Ht Hh) as (Hpa & p & Hp & Hpt). destruct (tk_started tk) eqn:Hs.
  - unfold task_cancel. rewrite Ht. simpl. rewrite decide_False by (intros [|]; congruence). rewrite Hp. simpl. rewrite Hs. simpl.
    assert (task_inv (tw_set_frame (tk_handle tk) (pr_set_cancelled true p) s)) as Hi' by by eapply task_inv_frame.
    destruct (if pr_pending_io p then pr_cancel_hook p else None) as [a|].
    { apply op_ok_some, task_inv_world; [apply io_keeps|done]. }
    destruct (pr_defer_hook p) as [a|].
    + pose proof (defer_keeps a (tw_w s)) as Hk. destruct (defer_cancel a (tw_w s)) as [taken w].
      destruct taken; apply op_ok_some; [by apply task_inv_world|].
      apply task_inv_world; [apply fl_schedule_keeps|]. by apply task_inv_world.
    + destruct (pr_suspended p); apply op_ok_some; [|done]. apply task_inv_world; [apply fl_schedule_keeps|done].
  - rewrite (cancel_unstarted t tk p s Ht Hh Hr Hs Hp Hpt). apply op_ok_some. by apply (task_inv_release s _ t tk).
Qed.

Lemma detach_ok t tk s : task_inv s → tw_tasks s !! t = Some tk → op_ok (task_detach t s).
Proof.
  intros Hi Ht. unfold task_detach. rewrite Ht. simpl. destruct (decide (tk_handle tk = null_handle)) as [Hh|Hh]; simpl.
  - apply op_ok_some. by eapply task_inv_idle.
  - destruct (ti_owned _ Hi t tk Ht Hh) as (_ & p & Hp & Hpt). rewrite Hp. simpl. apply op_ok_some.
    by eapply task_inv_disown.
Qed.

(** The frame of a task that is about to go or to be overwritten. *)
Lemma drop_ok t tk s : task_inv s → tw_tasks s !! t = Some tk →
  ∃ s', drop_frame tk s = Some s' ∧ tw_tasks s' = tw_tasks s ∧ task_inv (tw_del_task t s').
Proof.
  intros Hi Ht. unfold drop_frame. case_decide as Hh; [eexists; split; [done|]; split; [done|]; by eapply task_inv_del|].
  destruct (ti_owned _ Hi t tk Ht Hh) as (Hna & p & Hp & Hpt). rewrite Hp. simpl.
  set (gone := tk_set_handle null_handle tk).
  pose (G := tw_del_task t (mkTW (tw_tasks s) (delete (tk_handle tk) (tw_frames s)) (tw_reports s) (tw_w s))).
  assert (task_inv G) as Hgone.
  { unfold G. rewrite <- (tw_del_set t gone). eapply (task_inv_del _ t gone); [simpl; by rewrite lookup_insert_eq|done|].
    by apply (task_inv_release s (tk_handle tk) t tk gone). }
  unfold destroy_frame. destruct (tk_started tk && negb (tk_ready tk)).
  2:{ rewrite Hp. simpl. by eexists. }
  set (l := loop_of p (tw_w s)). destruct (if pr_pending_io p then pr_cancel_hook p else None) as [a|].
  - eexists. split; [done|]. split; [done|]. apply (task_inv_world (tw_del_task t (tw_set_w (fr_mark_io_abandoned l (tk_handle tk) (tw_w s)) (tw_set_frame (tk_handle tk) (pr_set_task None p) s)))); [apply io_keeps|].
    apply (task_inv_but (tw_del_task t (tw_set_frame (tk_handle tk) (pr_set_task None p) s)) (tk_handle tk)); [|apply fl_io_keeps|].
    + simpl. by intros q; rewrite lookup_insert_eq; intros [= <-].
    + rewrite <- (tw_del_set t gone). eapply (task_inv_del _ t gone); [simpl; by rewrite lookup_insert_eq|done|].
      by apply (task_inv_disown s (tk_handle tk) p t tk gone).
  - pose proof (fl_mark_keeps l (tk_handle tk) (tw_w s)) as Hk. pose proof (fl_mark_true l (tk_handle tk) (tw_w s)) as Hm.
    destruct (fr_mark_abandoned l (tk_handle tk) (tw_w s)) as [[|] w]; simpl in *.
    + eexists. split; [done|]. split; [done|]. eapply (task_inv_abandon s t tk l); auto.
    + rewrite Hp. eexists. split; [reflexivity|]. split; [done|].
      assert (task_inv (tw_set_w w G)) as Hb by (apply (task_inv_but G (tk_handle tk)); [simpl; intros q; by rewrite lookup_delete_eq|done..]).
      exact (task_inv_world (tw_set_w w G) _ (fl_finished_keeps _ _ _) Hb).
Qed.

Lemma destroyed_ok t tk s : task_inv s → tw_tasks s !! t = Some tk → op_ok (task_destroyed t s).
Proof.
  intros Hi Ht. destruct (drop_ok t tk s Hi Ht) as (s' & Hs' & _ & Hi'). unfold task_destroyed. rewrite Ht. simpl.
  rewrite Hs'. simpl. by apply op_ok_some.
Qed.

(** A move into a slot that holds no task. *)
Lemma move_ok t0 t tk s : task_inv s → tw_tasks s !! t0 = Some tk → tw_tasks s !! t = None →
  op_ok (relocate t (tk_handle tk) (tw_set_task t tk (tw_set_task t0 (tk_moved tk) s))).
Proof.
  intros Hi Ht0 Ht. assert (t0 ≠ t) as Hne by congruence. unfold relocate. case_decide as Hh.
  - apply op_ok_some. apply (task_inv_idle _ t0 tk (tk_moved tk)) in Hi as Hi'; [|done..]. destruct Hi' as [Ho Hb Hr Hn].
    split; simpl in *; [| | |done].
    + intros t' x. destruct (decide (t' = t)) as [->|Hne']; [by rewrite lookup_insert_eq; intros [= <-]|].
      rewrite (lookup_insert_ne _ t) by done. apply Ho.
    + intros h p t' Hp Hpt. destruct (Hb h p t' Hp Hpt) as [|(x & Hx & Hxh)]; [by left|right].
      exists x. split; [|done]. rewrite lookup_insert_ne; [done|]. intros ->. rewrite lookup_insert_ne in Hx by done. congruence.
    + intros t' x. destruct (decide (t' = t)) as [->|Hne']; [by rewrite lookup_insert_eq; intros [= <-]|].
      rewrite (lookup_insert_ne _ t) by done. apply Hr.
  - destruct (ti_owned _ Hi t0 tk Ht0 Hh) as (Hna & p & Hp & Hpt). simpl. rewrite Hp. simpl. apply op_ok_some.
    pose proof (task_inv_disown s (tk_handle tk) p t0 tk (tk_moved tk) Hp Ht0 eq_refl eq_refl Hh Hi) as [Ho Hb Hr Hn].
    split; simpl in *; [| | |intros h q; destruct (decide (h = tk_handle tk)) as [->|Hhn];
      [rewrite lookup_insert_eq; intros [= <-]; by apply (ti_frames _ Hi (tk_handle tk) p)|
       rewrite lookup_insert_ne by done; intros Hq; apply (Hn h q); by rewrite lookup_insert_ne]].
    + intros t' x. destruct (decide (t' = t)) as [->|Hne'].
      { rewrite lookup_insert_eq. intros [= <-] _. split; [done|]. eexists. by rewrite lookup_insert_eq. }
      rewrite (lookup_insert_ne _ t) by done. intros Hx Hxh. destruct (Ho t' x Hx Hxh) as (Hqa & q & Hq & Hqt). split; [done|].
      exists q. split; [|done]. destruct (decide (tk_handle x = tk_handle tk)) as [Heq|Hn']; [|by rewrite lookup_insert_ne in * by done].
      rewrite Heq, lookup_insert_eq in Hq. by simplify_eq.
    + intros h q t'. destruct (decide (h = tk_handle tk)) as [->|Hhn].
      { rewrite lookup_insert_eq. intros [= <-] [= <-]. right. exists tk. by rewrite lookup_insert_eq. }
      rewrite lookup_insert_ne by done. intros Hq Hqt. destruct (Hb h q t') as [|(x & Hx & Hxh)]; [by rewrite lookup_insert_ne|done|by left|right].
      exists x. split; [|done]. rewrite lookup_insert_ne; [done|]. intros ->. rewrite lookup_insert_ne in Hx by done. congruence.
    + intros t' x. destruct (decide (t' = t)) as [->|Hne'].
      { rewrite lookup_insert_eq. intros [= <-] _. by apply (ti_fresh _ Hi t0). }
      rewrite (lookup_insert_ne _ t) by done. apply Hr.
Qed.

Lemma move_construct_ok t0 t tk s : task_inv s → tw_tasks s !! t0 = Some tk → tw_tasks s !! t = None → op_ok (task_move_construct t0 t s).
Proof. intros Hi Ht0 Ht. unfold task_move_construct. rewrite Ht0. simpl. by apply move_ok. Qed.

Lemma start_keeps t s s' : task_start t s = Some s' → ∀ t', is_Some (tw_tasks s' !! t') ↔ is_Some (tw_tasks s !! t').
Proof.
  unfold task_start. destruct (tw_tasks s !! t) as [tk|] eqn:Ht; [|done]. simpl. case_decide; [|by intros [= <-]].
  destruct (tw_frames s !! tk_handle tk) as [p|]; [|done]. intros [= <-] t'. unfold launch. simpl.
  destruct (decide (t' = t)) as [->|Hne]; [rewrite lookup_insert_eq, Ht; split; intros; by eexists|by rewrite lookup_insert_ne].
Qed.

Lemma move_keeps t0 t s s' : task_move_construct t0 t s = Some s' → t0 ≠ t → is_Some (tw_tasks s' !! t0).
Proof.
  unfold task_move_construct, relocate. destruct (tw_tasks s !! t0) as [tk|]; [|done]. simpl. intros Hx Hne.
  assert (tw_tasks s' = <[t:=tk]> (<[t0:=tk_moved tk]> (tw_tasks s))) as ->.
  { case_decide; [by simplify_eq|]. by destruct (tw_frames s !! tk_handle tk); simplify_eq/=. }
  rewrite lookup_insert_ne, lookup_insert_eq by done. by eexists.
Qed.

Lemma spawn_ok t0 t tk s : task_inv s → tw_tasks s !! t0 = Some tk → tw_tasks s !! t = None → op_ok (spawn t0 t s).
Proof.
  intros Hi Ht0 Ht. unfold spawn. destruct (start_ok t0 tk s Hi Ht0) as (s1 & Hs1 & Hi1). rewrite Hs1. simpl.
  pose proof (start_keeps t0 s s1 Hs1) as Hk. destruct (proj2 (Hk t0)) as [tk1 Ht1]; [by eexists|].
  assert (tw_tasks s1 !! t = None) as Hf1.
  { apply eq_None_not_Some. intros Hx%Hk. rewrite Ht in Hx. by destruct Hx. }
  destruct (move_construct_ok t0 t tk1 s1 Hi1 Ht1 Hf1) as (s2 & Hs2 & Hi2). rewrite Hs2. simpl.
  destruct (move_keeps t0 t s1 s2 Hs2 ltac:(congruence)) as [tk2 Ht2]. by eapply destroyed_ok.
Qed.

Lemma tw_set_del t x t0 y s : t0 ≠ t → tw_set_task t x (tw_set_task t0 y (tw_del_task t s)) = tw_set_task t x (tw_set_task t0 y s).
Proof.
  intros Hne. unfold tw_set_task, tw_del_task. simpl. rewrite (insert_insert_ne _ t), insert_delete_eq by done.
  by rewrite (insert_insert_ne _ t).
Qed.

Lemma move_assign_ok t0 t tk0 tk s :
  task_inv s → tw_tasks s !! t0 = Some tk0 → tw_tasks s !! t = Some tk → op_ok (task_move_assign t0 t s).
Proof.
  intros Hi Ht0 Ht. unfold task_move_assign. case_decide as Hne; [by apply op_ok_some|]. rewrite Ht. simpl.
  destruct (drop_ok t tk s Hi Ht) as (s' & Hs' & Htk & Hi'). rewrite Hs'. simpl. rewrite Htk, Ht0. simpl.
  rewrite <- (tw_set_del t tk0 t0) by done. apply move_ok; [done| |]; simpl; rewrite Htk.
  - by apply lookup_delete_Some.
  - apply lookup_delete_eq.
Qed.

Lemma task_new_ok t h s :
  task_inv s → tw_tasks s !! t = None → tw_frames s !! h = None → h ≠ null_handle → not_abandoned h (tw_w s) → task_inv (task_new t h s).
Proof.
  intros [Ho Hb Hr Hn] Ht Hf Hnn Hna. split; simpl.
  - intros t' x. destruct (decide (t' = t)) as [->|Hne].
    { rewrite lookup_insert_eq. intros [= <-] _. split; [done|]. eexists. by rewrite lookup_insert_eq. }
    rewrite lookup_insert_ne by done. intros Hx Hxh. destruct (Ho t' x Hx Hxh) as (Hqa & q & Hq & Hqt). split; [done|].
    exists q. split; [|done]. rewrite lookup_insert_ne; congruence.
  - intros h' q t'. destruct (decide (h' = h)) as [->|Hne].
    { rewrite lookup_insert_eq. intros [= <-] [= <-]. right. eexists. by rewrite lookup_insert_eq. }
    rewrite lookup_insert_ne by done. intros Hq Hqt. destruct (Hb h' q t' Hq Hqt) as [|(x & Hx & Hxh)]; [by left|right].
    exists x. split; [|done]. rewrite lookup_insert_ne; congruence.
  - intros t' x. destruct (decide (t' = t)) as [->|Hne]; [by rewrite lookup_insert_eq; intros [= <-]|].
    rewrite lookup_insert_ne by done. apply Hr.
  - intros h' q. destruct (decide (h' = h)) as [->|Hne]; [by rewrite lookup_insert_eq; intros [= <-]|].
    rewrite lookup_insert_ne by done. apply Hn.
Qed.

Lemma op_ok_inv o s' : op_ok o → o = Some s' → task_inv s'.
Proof. intros (x & -> & Hx) [= <-]. done. Qed.

Lemma reap_ok l h w' s s' :
  task_inv s → fr_is_abandoned l h (tw_w s) = true → destroy_frame h s = Some s' → fr_keeps_but h (tw_w s) w' →
  task_inv (tw_set_w w' s').
Proof.
  intros Hi Hl Hd Hk. unfold destroy_frame in Hd. destruct (tw_frames s !! h) as [p|] eqn:Hp; [|done]. injection Hd as <-.
  apply (task_inv_but (mkTW (tw_tasks s) (delete h (tw_frames s)) (tw_reports s) (tw_w s)) h); [|done|].
  - simpl. intros q. by rewrite lookup_delete_eq.
  - apply (task_inv_orphan s h p Hp); [|done]. intros t tk Ht Hh. assert (h ≠ null_handle) by apply (ti_frames _ Hi h p Hp).
    destruct (ti_owned _ Hi t tk Ht ltac:(congruence)) as (Hna & _). rewrite Hh in Hna. by rewrite Hna in Hl.
Qed.

(** An operation on a task that does not exist is no step. *)
Ltac task_exists s t :=
  let tk := fresh "tk" in let Ht := fresh "Ht" in
  destruct (tw_tasks s !! t) as [tk|] eqn:Ht;
    [|unfold task_start, task_await_suspend, task_take, task_bind_loop, task_cancel, task_on_waiter_destroyed, task_detach,
       task_destroyed, task_move_construct in *; simplify_option_eq].

Lemma task_step_inv s s' : task_inv s → task_step s s' → task_inv s'.
Proof.
  intros Hi Hstep. destruct Hstep as [t h s|t s s' Hx|t c s r s' Hx|t u s r s' Hx|t l s s' Hx|t s s' Hx|t h s s' Hx
    |t s s' Hx|t s s' Hx|t0 t s s' Hf Hx|t0 t s s' Hx|h v s s' Hna Hx|h e s s' Hna Hx|h p p' s Hp Hs|l h w' s s' Hl Hx Hk|w' s Hk].
  - by apply task_new_ok.
  - task_exists s t. eapply op_ok_inv; [by eapply start_ok|done].
  - task_exists s t. destruct (await_ok t _ c s Hi Ht) as (? & ? & Hy & ?). congruence.
  - task_exists s t. destruct (take_ok t _ u s Hi Ht) as (? & ? & Hy & ?). congruence.
  - task_exists s t. eapply op_ok_inv; [by eapply bind_ok|done].
  - task_exists s t. eapply op_ok_inv; [by eapply cancel_ok|done].
  - task_exists s t. eapply op_ok_inv; [by eapply waiter_ok|done].
  - task_exists s t. eapply op_ok_inv; [by eapply detach_ok|done].
  - task_exists s t. eapply op_ok_inv; [by eapply destroyed_ok|done].
  - task_exists s t0. eapply op_ok_inv; [by eapply move_construct_ok|done].
  - unfold task_move_assign in Hx. destruct (decide (t0 = t)) as [|Hne] eqn:Hd; [by simplify_eq|].
    destruct (tw_tasks s !! t) as [old|] eqn:Ht; [|done]. simpl in Hx.
    destruct (drop_ok t old s Hi Ht) as (s1 & Hs1 & Htk & _). pose proof Hx as Hx'. rewrite Hs1 in Hx'. simpl in Hx'.
    rewrite Htk in Hx'. destruct (tw_tasks s !! t0) as [tk0|] eqn:Ht0; [|done].
    eapply op_ok_inv; [by apply (move_assign_ok t0 t tk0 old s)|]. unfold task_move_assign. by rewrite Hd, Ht.
  - destruct (tw_frames s !! h) as [p|] eqn:Hp; [|unfold body_returns in Hx; by rewrite Hp in Hx].
    eapply op_ok_inv; [by eapply returns_ok|done].
  - destruct (tw_frames s !! h) as [p|] eqn:Hp; [|unfold body_throws in Hx; by rewrite Hp in Hx].
    eapply op_ok_inv; [by eapply throws_ok|done].
  - by eapply task_inv_frame.
  - by eapply reap_ok.
  - by apply task_inv_world.
Qed.

Lemma task_run_inv s : task_run s → task_inv s.
Proof.
  intros Hr. induction Hr as [w|s s' _ IH Hs]; [|by eapply task_step_inv].
  split; simpl; intros; by rewrite lookup_empty in *.
Qed.

(** ** Properties *)

(** C19 A task has a handle exactly while its frame exists: the frame is there, it is not
    abandoned, its promise points back at the task, and no other task has it; and a
    frame that points at a task is either its frame or abandoned. *)
Theorem task_owns_frame s t tk :
  task_run s → tw_tasks s !! t = Some tk →
  (tk_handle tk ≠ null_handle →
     not_abandoned (tk_handle tk) (tw_w s) ∧ (∃ p, tw_frames s !! tk_handle tk = Some p ∧ pr_task p = Some t) ∧
     tk_ready tk = false ∧ ∀ t' tk', tw_tasks s !! t' = Some tk' → tk_handle tk' = tk_handle tk → t' = t) ∧
  ∀ h p, tw_frames s !! h = Some p → pr_task p = Some t → not_abandoned h (tw_w s) → tk_handle tk = h.
Proof.
  intros Hi%task_run_inv Ht. split.
  - intros Hh. destruct (ti_owned _ Hi t tk Ht Hh) as (Hna & p & Hp & Hpt). split; [done|]. split; [by exists p|].
    split; [by apply (ti_fresh _ Hi t)|]. intros t' tk' Ht' Heq.
    destruct (ti_owned _ Hi t' tk' Ht' ltac:(congruence)) as (_ & q & Hq & Hqt). congruence.
  - intros h p Hp Hpt Hna. destruct (ti_back _ Hi h p t Hp Hpt) as [[l Hl]|(x & Hx & Hxh)]; [by rewrite Hna in Hl|congruence].
Qed.

(** C20 No operation on a task, and no end of a body, follows a pointer to a frame or a task
    that is gone or destroys a frame twice, in any order of operations. *)
Theorem task_memory_safe s :
  task_run s →
  (∀ t, is_Some (tw_tasks s !! t) →
     is_Some (task_start t s) ∧ (∀ c, is_Some (task_await_suspend t c s)) ∧ (∀ u, is_Some (task_take t u s)) ∧
     (∀ l, is_Some (task_bind_loop t l s)) ∧ is_Some (task_cancel t s) ∧ (∀ h, is_Some (task_on_waiter_destroyed t h s)) ∧
     is_Some (task_detach t s) ∧ is_Some (task_destroyed t s) ∧
     (∀ t', tw_tasks s !! t' = None → is_Some (task_move_construct t t' s) ∧ is_Some (spawn t t' s)) ∧
     (∀ t', is_Some (tw_tasks s !! t') → is_Some (task_move_assign t t' s))) ∧
  (∀ h o, is_Some (tw_frames s !! h) → not_abandoned h (tw_w s) → is_Some (body_ends h o s)).
Proof.
  intros Hi%task_run_inv. assert (∀ o, op_ok o → is_Some o) as Hok by (intros o (x & -> & _); by exists x). split.
  - intros t [tk Ht]. split_and!; intros.
    + by eapply Hok, start_ok.
    + destruct (await_ok t tk c s Hi Ht) as (? & ? & -> & _). by eexists.
    + destruct (take_ok t tk u s Hi Ht) as (? & ? & -> & _). by eexists.
    + by eapply Hok, bind_ok.
    + by eapply Hok, cancel_ok.
    + by eapply Hok, waiter_ok.
    + by eapply Hok, detach_ok.
    + by eapply Hok, destroyed_ok.
    + split; [by eapply Hok, move_construct_ok|by eapply Hok, spawn_ok].
    + match goal with Hx : is_Some (tw_tasks s !! _) |- _ => destruct Hx as [tk' Ht'] end. by eapply Hok, move_assign_ok.
  - intros h [v|e] [p Hp] Hna; [by eapply Hok, returns_ok|by eapply Hok, throws_ok].
Qed.

(** An outcome that a task holds. *)
Definition holds u tk (d : res T) : Prop :=
  match d with
  | Throw e => tk_exception tk = Some e
  | Ok v => tk_exception tk = None ∧ if vd then v = u else tk_result tk = Some v
  end.

Lemma take_twice s t tk u d :
  tw_tasks s !! t = Some tk → tk_consumed tk = false → holds u tk d →
  ∃ s', task_take t u s = Some (d, s') ∧
    task_take t u s' = Some (match d with Ok v => if vd then Ok v else Throw LogicError | Throw e => Throw e end, s').
Proof.
  intros Ht Hc Hd. unfold task_take. rewrite Ht. simpl. destruct d as [v|e]; simpl in Hd.
  - destruct Hd as [He Hd]. rewrite He. destruct vd; [subst v; eexists; split; [done|]; by rewrite Ht; simpl; rewrite He|].
    rewrite Hc, Hd. eexists. split; [done|]. simpl. rewrite lookup_insert_eq. simpl. by rewrite He.
  - rewrite Hd. eexists. split; [done|]. rewrite Ht. simpl. by rewrite Hd.
Qed.

Definition with_outcome (o : res T) p : promise T :=
  match o with Ok v => pr_set_outcome (if vd then None else Some v) None p | Throw e => pr_set_outcome None (Some e) p end.

Lemma finished_holds o p tk u :
  tk_fresh tk → holds u (finished (with_outcome o p) tk) (delivered (pr_cancelled p) u o).
Proof.
  intros (_ & Hr & He & Hc). unfold finished, stored, delivered, with_outcome, holds.
  destruct o as [v|e]; simpl; destruct vd, (pr_cancelled p); simpl; rewrite ?He, ?Hr; try done.
  destruct (move_value v); simpl; by rewrite ?He.
Qed.

Lemma final_world_queued s h p l :
  pr_cont_loop p = l → l ≠ 0 → pr_continuation p ≠ null_handle → pr_continuation p ≠ h →
  rt_live l (pr_continuation p) (tw_w s) = true → rt_queued l (pr_continuation p) (final_world h p (tw_w s)) = true.
Proof.
  intros Hl Hnz Hc Hne Hlive. unfold final_world. rewrite decide_False by done. rewrite Hl, (decide_False (P := l = 0)) by done.
  apply rl_schedule_queued; [done|]. by rewrite fl_finished_live.
Qed.

(** C21 What the end of a body delivers, through the [Task] that owns its frame: the frame is
    gone, the task is ready without a handle, the waiter is queued on its own loop, and
    the result can be taken once, after any exception it can be taken again. *)
Theorem task_delivers s h p t o u :
  task_run s → tw_frames s !! h = Some p → pr_task p = Some t → not_abandoned h (tw_w s) →
  ∃ s' s'', body_ends h o s = Some s' ∧ tw_frames s' !! h = None ∧ tw_reports s' = tw_reports s ∧
    (∃ tk, tw_tasks s' !! t = Some tk ∧ tk_handle tk = null_handle ∧ tk_ready tk = true) ∧
    task_take t u s' = Some (delivered (pr_cancelled p) u o, s'') ∧
    task_take t u s'' = Some (match delivered (pr_cancelled p) u o with
                              | Ok v => if vd then Ok v else Throw LogicError
                              | Throw e => Throw e end, s'') ∧
    (∀ l, pr_cont_loop p = l → l ≠ 0 → pr_continuation p ≠ null_handle → pr_continuation p ≠ h →
       rt_live l (pr_continuation p) (tw_w s) = true → rt_queued l (pr_continuation p) (tw_w s') = true).
Proof.
  intros Hi%task_run_inv Hp Ht Hna. destruct (ti_back _ Hi h p t Hp Ht) as [[l Hl]|(tk & Htk & Hh)]; [by rewrite Hna in Hl|].
  destruct (ti_frames _ Hi h p Hp) as (Hhn & Hpr & Hpe).
  destruct (ti_fresh _ Hi t tk Htk ltac:(congruence)) as (_ & Hkr & Hke & Hkc).
  assert (body_ends h o s = final_suspend h (tw_set_frame h (with_outcome o p) s)) as ->.
  { destruct o as [v|e]; simpl; unfold body_returns, body_throws; rewrite Hp; simpl; by rewrite Hpr, ?Hpe. }
  rewrite (final_owned _ h (with_outcome o p) t tk) by (simpl; rewrite ?lookup_insert_eq; by destruct o).
  simpl. set (s' := mkTW _ _ _ _).
  destruct (take_twice s' t (finished (with_outcome o p) tk) u (delivered (pr_cancelled p) u o)) as (s'' & Hx & Hy);
    [simpl; by rewrite lookup_insert_eq|done|by apply finished_holds, (ti_fresh _ Hi t tk Htk); congruence|].
  exists s', s''. split; [done|]. split; [simpl; by rewrite lookup_delete_eq|]. split; [done|].
  split; [eexists; simpl; by rewrite lookup_insert_eq|]. split; [done|]. split; [done|].
  intros l Hl Hnz Hc Hne Hlive. assert (pr_continuation (with_outcome o p) = pr_continuation p) as Hpc by by destruct o.
  simpl. rewrite <- Hpc. apply (final_world_queued s); rewrite ?Hpc; [by destruct o|done..].
Qed.

(** [cancel]: a task that was not started ends at once, with its frame, without touching a
    loop, and whoever awaits it gets the cancellation; a started one keeps its frame, has
    its flag set and, when it is suspended without a hook, is queued on its own loop. *)
Theorem task_cancel_spec s t tk u :
  task_run s → tw_tasks s !! t = Some tk → tk_handle tk ≠ null_handle →
  ∃ s', task_cancel t s = Some s' ∧
    if tk_started tk then
      (∃ p p', tw_frames s !! tk_handle tk = Some p ∧ tw_frames s' !! tk_handle tk = Some p' ∧ pr_cancelled p' = true ∧
        (pr_suspended p = true → pr_pending_io p = false → pr_defer_hook p = None → pr_target_loop p ≠ 0 →
         rt_live (pr_target_loop p) (tk_handle tk) (tw_w s) = true →
         rt_queued (pr_target_loop p) (tk_handle tk) (tw_w s') = true))
    else
      tw_frames s' !! tk_handle tk = None ∧ tw_w s' = tw_w s ∧ task_take t u s' = Some (Throw CancelledError, s') ∧
      task_cancel t s' = Some s'.
Proof.
  intros Hi%task_run_inv Ht Hh. destruct (ti_owned _ Hi t tk Ht Hh) as (Hna & p & Hp & Hpt).
  destruct (ti_fresh _ Hi t tk Ht Hh) as (Hrd & Hr & He & Hc). destruct (tk_started tk) eqn:Hs.
  - destruct (cancel_ok t tk s Hi Ht) as (s' & Hs' & _). exists s'. split; [done|]. exists p, (pr_set_cancelled true p).
    unfold task_cancel in Hs'. rewrite Ht in Hs'. simpl in Hs'. rewrite decide_False in Hs' by (intros [|]; congruence).
    rewrite Hp in Hs'. simpl in Hs'. rewrite Hs in Hs'. simpl in Hs'. split; [done|]. split; [|split; [done|]].
    + by repeat (case_match; simplify_eq/=); rewrite lookup_insert_eq.
    + intros Hsu Hio Hdf Hl Hlive. rewrite Hio, Hdf, Hsu in Hs'. injection Hs' as <-. simpl. unfold loop_of. simpl.
      rewrite decide_False by done. by apply rl_schedule_queued.
  - rewrite (cancel_unstarted t tk p s Ht Hh Hrd Hs Hp Hpt). eexists. split; [done|]. simpl. split; [by rewrite lookup_delete_eq|].
    split; [done|]. unfold task_take, task_cancel. simpl. rewrite lookup_insert_eq. simpl. split; [|done].
    unfold stored. simpl. destruct (ti_frames _ Hi _ _ Hp) as (_ & _ & Hpe). rewrite Hpe. by destruct vd.
Qed.

(** Destroying a task: the frame of a coroutine that is still in a ready queue, or has an
    operation of the system pending, is left to the loop, which will destroy it; any
    other frame is destroyed at once. *)
Theorem task_destroyed_frame s t tk p :
  task_run s → tw_tasks s !! t = Some tk → tk_handle tk ≠ null_handle → tw_frames s !! tk_handle tk = Some p →
  ∃ s', task_destroyed t s = Some s' ∧ tw_tasks s' !! t = None ∧
    let l := loop_of p (tw_w s) in
    if tk_started tk && (rt_queued l (tk_handle tk) (tw_w s) || (pr_pending_io p && bool_decide (is_Some (pr_cancel_hook p))))
    then is_Some (tw_frames s' !! tk_handle tk) ∧ fr_is_abandoned l (tk_handle tk) (tw_w s') = true
    else tw_frames s' !! tk_handle tk = None.
Proof.
  intros Hi%task_run_inv Ht Hh Hp. destruct (ti_fresh _ Hi t tk Ht Hh) as (Hrd & _).
  destruct (ti_owned _ Hi t tk Ht Hh) as (Hna & _). destruct (destroyed_ok t tk s Hi Ht) as (s' & Hs' & _). exists s'.
  split; [done|]. unfold task_destroyed in Hs'. rewrite Ht in Hs'. simpl in Hs'. unfold drop_frame in Hs'.
  rewrite decide_False, Hp, Hrd, andb_true_r in Hs' by done. simpl in Hs'. unfold destroy_frame in Hs'.
  destruct (tk_started tk); simpl.
  2:{ rewrite Hp in Hs'. injection Hs' as <-. simpl. by rewrite !lookup_delete_eq. }
  rewrite <- fl_mark_queued. pose proof (fl_mark_true (loop_of p (tw_w s)) (tk_handle tk) (tw_w s)) as Hm.
  destruct (pr_pending_io p); [destruct (pr_cancel_hook p) as [a|]|]; simpl in *.
  1:{ injection Hs' as <-. simpl. rewrite lookup_delete_eq, orb_true_r, lookup_insert_eq. split; [done|]. split; [by eexists|].
      rewrite io_keeps. apply fl_io_marked. }
  all: rewrite orb_false_r; destruct (fr_mark_abandoned _ _ _) as [[|] w]; simpl in *; rewrite ?Hp in Hs'; injection Hs' as <-; simpl;
    rewrite !lookup_delete_eq, ?Hp; split; auto.
Qed.

(** Moving a completed [Task<T>] away leaves its optional engaged: awaiting the source
    gives a moved-from value where the comment promises an error. *)
Theorem task_moved_from_value s t0 t tk v u :
  vd = false → task_run s → tw_tasks s !! t0 = Some tk → tw_tasks s !! t = None →
  tk_result tk = Some v → tk_exception tk = None → tk_consumed tk = false →
  ∃ s1 s2 s3, task_move_construct t0 t s = Some s1 ∧ task_take t u s1 = Some (Ok v, s2) ∧
    task_take t0 u s2 = Some (Ok (moved_from v), s3).
Proof.
  intros Hvd Hi%task_run_inv Ht0 Ht Hr He Hc. assert (t0 ≠ t) as Hne by congruence.
  assert (tk_handle tk = null_handle) as Hh.
  { destruct (decide (tk_handle tk = null_handle)) as [|Hh]; [done|]. destruct (ti_fresh _ Hi t0 tk Ht0 Hh) as (_ & ? & _). congruence. }
  unfold task_move_construct, relocate. rewrite Ht0. simpl. rewrite decide_True by done. eexists _, _, _. split; [done|].
  unfold task_take. simpl. rewrite lookup_insert_eq. simpl. rewrite He, Hvd, Hc, Hr. split; [done|]. simpl.
  rewrite lookup_insert_ne, lookup_insert_ne, lookup_insert_eq by done. simpl. by rewrite Hc, Hr.
Qed.
End task.

(** ** Witnesses: a task awaited by coroutine 11, whose body, frame 20, has run *)

#[local] Abbreviation d_io := (λ (_ : nat) (w : world), w).
#[local] Abbreviation d_defer := (λ (_ : nat) (w : world), (false, w)).
#[local] Abbreviation d_left := (λ _ : nat, 0).
#[local] Abbreviation d_run := (task_run (T := nat) (W := world) false Ok d_left d_io d_defer).

Definition task_demo0 : tworld nat world := task_new 1 20 (mkTW ∅ ∅ [] w_demo).
Definition task_demo1 : tworld nat world :=
  launch 1 (mkTask 20 None None false false false)
    (pr_set_continuation 11 1 (mkPromise None None null_handle 0 (Some 1) false false false 0 None None))
    (tw_set_frame 20 (pr_set_continuation 11 1 (mkPromise None None null_handle 0 (Some 1) false false false 0 None None)) task_demo0).

Lemma task_demo0_run : d_run task_demo0.
Proof.
  eapply TRunS; [apply (TRun0 _ _ _ _ _ w_demo)|]. apply TNew; [done..|]. intros l. reflexivity.
Qed.

Lemma task_demo1_run : d_run task_demo1.
Proof.
  eapply TRunS; [apply task_demo0_run|]. apply (TAwait _ _ _ _ _ 1 11 _ (Ok tt)). reflexivity.
Qed.

Lemma task_demo1_not_abandoned : not_abandoned 20 (tw_w task_demo1).
Proof.
  apply (fr_keeps_not w_demo); [|intros l; reflexivity].
  eapply fr_keeps_trans; [apply (fl_started_keeps 1 20)|apply (fl_schedule_keeps 1 20)].
Qed.

Lemma d_io_keeps (a : nat) (w : world) : fr_keeps w (d_io a w).
Proof. done. Qed.
Lemma d_defer_keeps (a : nat) (w : world) : fr_keeps w (d_defer a w).2.
Proof. done. Qed.

Lemma task_owns_frame_witness : ∃ tk, tw_tasks task_demo1 !! 1 = Some tk ∧ tk_ready tk = false.
Proof.
  eexists. split; [reflexivity|].
  destruct (task_owns_frame false Ok d_left d_io d_defer d_io_keeps d_defer_keeps task_demo1 1 _ task_demo1_run eq_refl) as [Hx _].
  apply Hx. discriminate.
Defined.

Lemma task_memory_safe_witness : is_Some (task_cancel false Ok d_left d_io d_defer 1 task_demo1).
Proof.
  apply (task_memory_safe false Ok d_left d_io d_defer d_io_keeps d_defer_keeps task_demo1 task_demo1_run).
  by eexists.
Defined.

Lemma task_delivers_witness :
  ∃ s' s'', body_ends false Ok d_left 20 (Ok 7) task_demo1 = Some s' ∧ task_take false d_left 1 0 s' = Some (Ok 7, s'') ∧
    rt_queued 1 11 (tw_w s') = true.
Proof.
  destruct (task_delivers false Ok d_left d_io d_defer d_io_keeps d_defer_keeps task_demo1 20 _ 1 (Ok 7) 0 task_demo1_run eq_refl eq_refl)
    as (s' & s'' & H1 & _ & _ & _ & H2 & _ & H3); [exact task_demo1_not_abandoned|].
  exists s', s''. split; [exact H1|]. split; [exact H2|]. apply (H3 1 eq_refl); [discriminate..|reflexivity].
Defined.

Lemma task_cancel_spec_witness :
  ∃ s', task_cancel false Ok d_left d_io d_defer 1 task_demo0 = Some s' ∧
    task_take false d_left 1 0 s' = Some (Throw CancelledError, s').
Proof.
  destruct (task_cancel_spec false Ok d_left d_io d_defer d_io_keeps d_defer_keeps task_demo0 1 _ 0 task_demo0_run eq_refl)
    as (s' & H1 & _ & _ & H2 & _); [discriminate|]. exists s'. split; [exact H1|exact H2].
Defined.

Lemma task_destroyed_frame_witness :
  ∃ s', task_destroyed d_io 1 task_demo1 = Some s' ∧ is_Some (tw_frames s' !! 20) ∧ fr_is_abandoned 1 20 (tw_w s') = true.
Proof.
  destruct (task_destroyed_frame false Ok d_left d_io d_defer d_io_keeps d_defer_keeps task_demo1 1 _ _ task_demo1_run eq_refl
    ltac:(discriminate) eq_refl) as (s' & H1 & _ & H2). exists s'. split; [exact H1|exact H2].
Defined.

Definition task_demo2 : tworld nat world :=
  from_option id task_demo1 (body_ends false Ok d_left 20 (Ok 7) task_demo1).

Lemma task_demo2_run : d_run task_demo2.
Proof.
  eapply TRunS; [apply task_demo1_run|]. apply (TReturn _ _ _ _ _ 20 7); [exact task_demo1_not_abandoned|reflexivity].
Qed.

Lemma task_moved_from_value_witness :
  ∃ s1 s2 s3, task_move_construct d_left 1 2 task_demo2 = Some s1 ∧
    task_take false d_left 2 9 s1 = Some (Ok 7, s2) ∧ task_take false d_left 1 9 s2 = Some (Ok 0, s3).
Proof.
  exact (task_moved_from_value false Ok d_left d_io d_defer d_io_keeps d_defer_keeps task_demo2 1 2 _ 7 9 eq_refl task_demo2_run
    eq_refl eq_refl eq_refl eq_refl eq_refl).
Defined.
