(* ===== verification/AwaitM.v ===== *)
(** * AwaitM: the wrapper around every [co_await] ([detail::cancel_check_awaiter])

    [src/include/coro/task.hpp].  [await_transform] wraps the operand of each [co_await]
    of a coroutine: the wrapper registers the hooks of the operand in the promise, is the
    place where a cancellation becomes an exception, and tells an operand that was waited
    for in vain.  The operand is any awaiter: a record of its calls.  [co_begin],
    [co_resumed] and [co_dropped] are the calls the compiler makes around a wrapped
    awaiter: up to the suspension or the end of the expression, from the resumption to the
    end of the expression, and the destruction of the frame instead. *)

From S2P Require Import Prelude Runtime TaskM.
From stdpp Require Import options.
#[local] Set Default Proof Using "Type*".

(** What [await_suspend] of the operand does: it returns nothing, a [bool] or a handle to
    transfer to, or it throws. *)
Inductive suspension : Type :=
  | SVoid
  | SBool (b : bool)
  | SHandle (h : handle)
  | SThrow (e : exn).

(** The operand; what [has_cancel_op], [has_on_cancel_requested] and
    [has_on_waiter_destroyed] find in its type. *)
Record awaiter (W R : Type) : Type := mkAwaiter {
  aw_self : nat;
  aw_has_cancel_op : bool;
  aw_has_on_cancel : bool;
  aw_waiter_destroyed : option (handle → W → W);
  aw_ready : W → bool * W;
  aw_suspend : handle → W → suspension * W;
  aw_resume : W → res R * W;
}.
Arguments mkAwaiter {W R}. Arguments aw_self {W R}. Arguments aw_has_cancel_op {W R}. Arguments aw_has_on_cancel {W R}.
Arguments aw_waiter_destroyed {W R}. Arguments aw_ready {W R}. Arguments aw_suspend {W R}. Arguments aw_resume {W R}.

(** The expression, after some of the calls: suspended with the member [my_handle] of the
    wrapper, or at its end. *)
Inductive awaiting (R : Type) : Type :=
  | Suspended (my_handle : handle)
  | Ended (o : res R).
Arguments Suspended {R}. Arguments Ended {R}.

Section await.
Context {T W R : Type}.
Implicit Types (a : awaiter W R) (p : promise T) (w : W) (h my : handle).

(** [notify_waiter_destroyed]. *)
Definition notify_waiter_destroyed a h w : W :=
  match aw_waiter_destroyed a with Some f => f h w | None => w end.

(** The destructor of the wrapper. *)
Definition ca_destroyed a my w : W := if decide (my = null_handle) then w else notify_waiter_destroyed a my w.

Definition ca_await_ready a p w : bool * W := if pr_cancelled p then (true, w) else aw_ready a w.

(** The hooks of the operand are registered before it is called. *)
Definition ca_register a p : promise T :=
  pr_set_wait true (if aw_has_cancel_op a then true else pr_pending_io p)
    (if aw_has_cancel_op a then Some (aw_self a) else pr_cancel_hook p)
    (if aw_has_on_cancel a then Some (aw_self a) else pr_defer_hook p) p.

(** It will not suspend after all. *)
Definition ca_unregister a p : promise T :=
  pr_set_wait false (if aw_has_cancel_op a then false else pr_pending_io p) (pr_cancel_hook p) (pr_defer_hook p) p.

Definition ca_await_suspend a h p w : suspension * handle * promise T * W :=
  let p := ca_register a p in
  match aw_suspend a h w with
  | (SVoid, w) => (SVoid, h, p, w)
  | (SBool b, w) => if b then (SBool b, h, p, w) else (SBool b, null_handle, ca_unregister a p, w)
  | (SHandle h', w) =>
      if decide (h' = null_handle) then (SHandle h', null_handle, ca_unregister a p, w) else (SHandle h', h, p, w)
  | (SThrow e, w) => (SThrow e, h, pr_set_wait false false None None p, w)
  end.

Definition ca_await_resume a my p w : res R * handle * promise T * W :=
  let p := pr_set_wait false false (pr_cancel_hook p) None p in
  if pr_cancelled p then
    let p := pr_set_cancelled false p in
    if aw_has_on_cancel a then
      match aw_resume a w with
      | (Ok _, w) => (Throw CancelledError, null_handle, p, w)
      | (Throw e, w) => (Throw e, null_handle, p, w)
      end
    else (Throw CancelledError, my, p, w)
  else let '(o, w) := aw_resume a w in (o, null_handle, p, w).

(** ** The calls around a wrapped awaiter *)

(** [await_resume], and the end of the full expression. *)
Definition co_resumed a my p w : awaiting R * promise T * W :=
  let '(o, my, p, w) := ca_await_resume a my p w in (Ended o, p, ca_destroyed a my w).

Definition co_begin a h p w : awaiting R * promise T * W :=
  let '(ready, w) := ca_await_ready a p w in
  if ready then co_resumed a null_handle p w
  else
    let '(r, my, p, w) := ca_await_suspend a h p w in
    match r with
    | SThrow e => (Ended (Throw e), p, ca_destroyed a my w)
    | SBool false => co_resumed a my p w
    | SHandle h' => if decide (h' = null_handle) then co_resumed a my p w else (Suspended my, p, w)
    | _ => (Suspended my, p, w)
    end.

(** The frame is destroyed while it is suspended. *)
Definition co_dropped a my w : W := ca_destroyed a my w.

(** The operand without a wrapper. *)
Definition bare_resumed a w : awaiting R * W := let '(o, w) := aw_resume a w in (Ended o, w).
Definition bare_begin a h w : awaiting R * W :=
  let '(ready, w) := aw_ready a w in
  if ready then bare_resumed a w
  else match aw_suspend a h w with
  | (SThrow e, w) => (Ended (Throw e), notify_waiter_destroyed a h w)
  | (SBool false, w) => bare_resumed a w
  | (SHandle h', w) => if decide (h' = null_handle) then bare_resumed a w else (Suspended h, w)
  | (_, w) => (Suspended h, w)
  end.

(** Nothing that [Task::cancel] or [~Task] would call points into the operand. *)
Definition no_hook p : Prop := pr_suspended p = false ∧ pr_pending_io p = false ∧ pr_defer_hook p = None.

Lemma co_resumed_ends a my p w : ∃ o, (co_resumed a my p w).1.1 = Ended o.
Proof. unfold co_resumed. destruct (ca_await_resume a my p w) as [[[o ?] ?] ?]. by exists o. Qed.
End await.

(** ** The calls an operand receives *)

Inductive inner_call : Type :=
  | IReady
  | ISuspend
  | IResume
  | IDestroyed (h : handle).

(** An operand that keeps a record of the calls made to it. *)
Definition traced {W R} (a : awaiter W R) : awaiter (W * list inner_call) R := {|
  aw_self := aw_self a;
  aw_has_cancel_op := aw_has_cancel_op a;
  aw_has_on_cancel := aw_has_on_cancel a;
  aw_waiter_destroyed := (λ f h '(w, l), (f h w, l ++ [IDestroyed h])) <$> aw_waiter_destroyed a;
  aw_ready := λ '(w, l), let '(b, w) := aw_ready a w in (b, (w, l ++ [IReady]));
  aw_suspend := λ h '(w, l), let '(r, w) := aw_suspend a h w in (r, (w, l ++ [ISuspend]));
  aw_resume := λ '(w, l), let '(o, w) := aw_resume a w in (o, (w, l ++ [IResume]));
|}.

Section await_props.
Context {T W R : Type}.
Implicit Types (a : awaiter W R) (p : promise T) (w : W) (h my : handle).

Lemma resumed_plain a my p w :
  pr_cancelled p = false →
  co_resumed a my p w =
    ((bare_resumed a w).1, pr_set_wait false false (pr_cancel_hook p) None p, (bare_resumed a w).2).
Proof. intros Hc. unfold co_resumed, ca_await_resume, bare_resumed. simpl. rewrite Hc. by destruct (aw_resume a w). Qed.

(** Without a cancellation the wrapper is transparent: the operand is asked the same, the
    expression suspends or ends the same, and at its end no hook is left. *)
Theorem await_transparent a h p w :
  pr_cancelled p = false → h ≠ null_handle →
  (co_begin a h p w).1.1 = (bare_begin a h w).1 ∧ (co_begin a h p w).2 = (bare_begin a h w).2 ∧
  (∀ o, (co_begin a h p w).1.1 = Ended o → no_hook (co_begin a h p w).1.2) ∧
  (∀ my w', pr_cancelled (co_begin a h p w).1.2 = false ∧
     (co_resumed a my (co_begin a h p w).1.2 w').1.1 = (bare_resumed a w').1 ∧
     (co_resumed a my (co_begin a h p w).1.2 w').2 = (bare_resumed a w').2 ∧
     no_hook (co_resumed a my (co_begin a h p w).1.2 w').1.2).
Proof.
  intros Hc Hh. assert (∀ x, co_begin a h p w = x → pr_cancelled x.1.2 = false ∧ x.1.1 = (bare_begin a h w).1 ∧
    x.2 = (bare_begin a h w).2 ∧ ∀ o, x.1.1 = Ended o → no_hook x.1.2) as Hx.
  { intros x <-. unfold co_begin, bare_begin, ca_await_ready. rewrite Hc. destruct (aw_ready a w) as [[|] w1].
    { rewrite resumed_plain by done. by split_and!. }
    unfold ca_await_suspend. destruct (aw_suspend a h w1) as [[|[|]|h'|e] w2]; simpl; repeat (case_decide; simpl);
      rewrite ?resumed_plain by done; split_and!; try done.
    unfold ca_destroyed. by rewrite decide_False. }
  destruct (Hx _ eq_refl) as (Hx1 & Hx2 & Hx3 & Hx4). split_and!; [done|done|done|].
  intros my w'. rewrite resumed_plain by done. by split_and!.
Qed.

(** A cancellation that is set before the operand is asked, or while the coroutine is
    suspended, ends the expression with [CancelledError] (an operand that took the
    cancellation over may replace it by its own exception), is consumed by it, and leaves
    no hook. *)
Theorem await_cancelled a h my p w :
  pr_cancelled p = true →
  ∃ o p' w', co_resumed a my p w = (Ended o, p', w') ∧ no_hook p' ∧ pr_cancelled p' = false ∧
    (my = null_handle → co_begin a h p w = (Ended o, p', w')) ∧
    if aw_has_on_cancel a
    then o = match (aw_resume a w).1 with Ok _ => Throw CancelledError | Throw e => Throw e end ∧ w' = (aw_resume a w).2
    else o = Throw CancelledError ∧ w' = ca_destroyed a my w.
Proof.
  intros Hc. unfold co_begin, ca_await_ready. rewrite Hc. unfold co_resumed, ca_await_resume. simpl. rewrite Hc.
  destruct (aw_has_on_cancel a); [destruct (aw_resume a w) as [[v|e] w1]|]; eexists _, _, _; split_and!; try done;
    by intros ->.
Qed.

Lemma traced_destroyed a h w l f :
  h ≠ null_handle → aw_waiter_destroyed a = Some f → ca_destroyed (traced a) h (w, l) = (f h w, l ++ [IDestroyed h]).
Proof. intros Hh Hf. unfold ca_destroyed, notify_waiter_destroyed. rewrite decide_False by done. simpl. by rewrite Hf. Qed.

(** What a resumption tells the operand. *)
Lemma traced_resumed a my p w l f :
  aw_waiter_destroyed a = Some f →
  (co_resumed (traced a) my p (w, l)).2.2 =
    if pr_cancelled p && negb (aw_has_on_cancel a) then (if decide (my = null_handle) then l else l ++ [IDestroyed my])
    else l ++ [IResume].
Proof.
  intros Hf. unfold co_resumed, ca_await_resume. simpl. destruct (pr_cancelled p); simpl.
  - destruct (aw_has_on_cancel a); simpl; [by destruct (aw_resume a w) as [[|] ?]|].
    case_decide as Hm; [by rewrite Hm|]. by rewrite (traced_destroyed a my w l f).
  - by destruct (aw_resume a w).
Qed.

(** An operand that was made to wait is told the end of it exactly once: by [await_resume]
    or, with the handle it waited with, by [on_waiter_destroyed]; whether the coroutine is
    resumed, cancelled or destroyed. *)
Theorem await_told_once a h p p' w l f :
  h ≠ null_handle → aw_waiter_destroyed a = Some f →
  let begun := co_begin (traced a) h p (w, []) in
  let ends := (co_resumed (traced a) h p' (w, l)).2.2 in
  (ends = l ++ [IResume] ∨ ends = l ++ [IDestroyed h]) ∧
  (co_dropped (traced a) h (w, l)).2 = l ++ [IDestroyed h] ∧
  match begun.1.1 with
  | Suspended my => my = h ∧ begun.2.2 = [IReady; ISuspend]
  | Ended o => begun.2.2 ∈ [[]; [IResume]; [IReady; IResume]; [IReady; ISuspend; IResume]; [IReady; ISuspend; IDestroyed h]]
  end.
Proof.
  intros Hh Hf begun ends. unfold ends, begun. split_and!.
  - rewrite (traced_resumed _ _ _ _ _ f) by done. rewrite decide_False by done. destruct (_ && _); auto.
  - unfold co_dropped. by rewrite (traced_destroyed a h w l f).
  - assert (∀ my (q : promise T) w1 l1, pr_cancelled q = false ∨ my = null_handle ∧ l1 = [] →
      match (co_resumed (traced a) my q (w1, l1)).1.1 with
      | Suspended _ => False
      | Ended _ => (co_resumed (traced a) my q (w1, l1)).2.2 ∈ [l1 ++ [IResume]; []] end) as Hends.
    { intros my q w1 l1 Hq. destruct (co_resumed_ends (traced a) my q (w1, l1)) as [o ->]. rewrite (traced_resumed _ _ _ _ _ f) by done.
      destruct Hq as [->|[-> ->]]; simpl; [set_solver|]. destruct (_ && _); set_solver. }
    unfold co_begin, ca_await_ready. destruct (pr_cancelled p) eqn:Hc.
    { specialize (Hends null_handle p w [] ltac:(by right)). destruct (co_resumed _ _ _ _).1.1; [done|]. set_solver. }
    simpl. destruct (aw_ready a w) as [[|] w1].
    { specialize (Hends null_handle p w1 [IReady] ltac:(by left)). destruct (co_resumed _ _ _ _).1.1; [done|]. set_solver. }
    unfold ca_await_suspend. simpl. destruct (aw_suspend a h w1) as [[|[|]|h'|e] w2]; simpl; repeat (case_decide; simpl); try done;
      try (match goal with |- context [co_resumed _ ?my ?q _] => specialize (Hends my q w2 [IReady; ISuspend] ltac:(by left)) end;
           destruct (co_resumed _ _ _ _).1.1; [done|]; set_solver).
    rewrite (traced_destroyed a h w2 _ f) by done. simpl. set_solver.
Qed.
End await_props.

(** ** Witnesses: an operand that always waits, and the promise of a coroutine *)

Definition await_demo : awaiter nat nat :=
  mkAwaiter 4 true false (Some (λ _ w, w + 10)) (λ w, (false, w)) (λ _ w, (SVoid, S w)) (λ w, (Ok w, w)).
Definition await_promise (cancelled : bool) : promise nat :=
  mkPromise None None null_handle 0 None cancelled false false 0 None None.

Lemma await_transparent_witness : (co_begin await_demo 7 (await_promise false) 0).1.1 = Suspended 7.
Proof. exact (proj1 (await_transparent await_demo 7 (await_promise false) 0 eq_refl (Nat.neq_succ_0 6))). Defined.

Lemma await_cancelled_witness :
  ∃ p' w', co_resumed await_demo 7 (await_promise true) 1 = (Ended (Throw CancelledError), p', w') ∧ w' = 11.
Proof.
  destruct (await_cancelled await_demo 7 7 (await_promise true) 1 eq_refl) as (o & p' & w' & H1 & _ & _ & _ & H2 & H3).
  exists p', w'. rewrite H1, H2. split; [reflexivity|exact H3].
Defined.

Lemma await_told_once_witness : (co_dropped (traced await_demo) 7 (1, [])).2 = [IDestroyed 7].
Proof.
  exact (proj1 (proj2 (await_told_once await_demo 7 (await_promise false) (await_promise true) 1 [] _ (Nat.neq_succ_0 6) eq_refl))).
Defined.
