(* ===== verification/HttpMsg.v ===== *)
(** * HttpMsg: HTTP messages ([http_protocol], [http_request], [http_response])

    [src/Web/src/http_types.cpp] and the serializer it uses,
    [src/thirdparty/http/src/http_protocol.cpp].  Strings are lists of characters; the
    classification functions of <cctype> are those of the "C" locale.  [read_message] is
    the receiver's side, which the repository leaves to its parser library: what a serialized
    message means. *)

From S2P Require Import Prelude.
From Stdlib Require Import Ascii.
From stdpp Require Import options.

(** ** Characters and searching *)

Definition code (c : ascii) : nat := nat_of_ascii c.
Definition between (a b : nat) (c : ascii) : bool := (a <=? code c) && (code c <=? b).

Definition is_digit (c : ascii) : bool := between 48 57 c.
Definition is_upper (c : ascii) : bool := between 65 90 c.
Definition is_alpha (c : ascii) : bool := is_upper c || between 97 122 c.
Definition is_alnum (c : ascii) : bool := is_alpha c || is_digit c.

(** [ascii_lower], and [std::tolower]. *)
Definition ascii_lower (c : ascii) : ascii := if is_upper c then ascii_of_nat (code c + 32) else c.

Definition chr_CR : ascii := ascii_of_nat 13.
Definition chr_LF : ascii := ascii_of_nat 10.
Definition chr_NUL : ascii := ascii_of_nat 0.
Definition crlf : str := [chr_CR; chr_LF].

(** [find] of a character, [find_first_of] of a set and [find_last_of] of a character. *)
Definition str_find_if (f : ascii → bool) (s : str) : option nat := fst <$> list_find (λ c, f c = true) s.
Definition str_find (c : ascii) (s : str) : option nat := str_find_if (λ x, bool_decide (x = c)) s.
Definition str_find_last (c : ascii) (s : str) : option nat :=
  (λ i, length s - 1 - i) <$> str_find c (reverse s).
Definition starts_with (p s : str) : bool := bool_decide (take (length p) s = p).

(** [iequals] and [equal_field]. *)
Definition iequals (a b : str) : bool :=
  (length a =? length b) && forallb (λ '(x, y), bool_decide (ascii_lower x = ascii_lower y)) (zip a b).

(** [std::to_string]. *)
Fixpoint dec_loop (fuel n : nat) (acc : str) : str :=
  match fuel with
  | 0 => acc
  | S fuel =>
      let acc := ascii_of_nat (48 + n mod 10) :: acc in
      if n / 10 =? 0 then acc else dec_loop fuel (n / 10) acc
  end.
Definition to_string (n : nat) : str := dec_loop (S n) n [].

(** ** The serializer *)

Definition is_tchar (c : ascii) : bool :=
  is_alnum c || bool_decide (c ∈ lit "!#$%&'*+-.^_`|~").
Definition is_token (s : str) : bool := negb (bool_decide (s = [])) && forallb is_tchar s.
Definition is_safe_text (s : str) : bool :=
  forallb (λ c, negb (bool_decide (c = chr_CR)) && negb (bool_decide (c = chr_LF)) && negb (bool_decide (c = chr_NUL))) s.
Definition is_safe_target (s : str) : bool :=
  negb (bool_decide (s = [])) &&
  forallb (λ c, negb (bool_decide (c ∈ [" "%char; ascii_of_nat 9; chr_CR; chr_LF; chr_NUL]))) s.

Fixpoint skip_digits (s : str) : str :=
  match s with c :: s' => if is_digit c then skip_digits s' else s | [] => [] end.
Definition starts_digit (s : str) : bool := match s with c :: _ => is_digit c | [] => false end.
Definition is_version (v : str) : bool :=
  starts_with (lit "HTTP/") v &&
  (let v := drop 5 v in
   starts_digit v &&
   match skip_digits v with
   | c :: v => bool_decide (c = "."%char) && starts_digit v && bool_decide (skip_digits v = [])
   | [] => false
   end).

Definition default_reason (status : Z) : str :=
  if decide (status = 200)%Z then lit "OK" else if decide (status = 201)%Z then lit "Created"
  else if decide (status = 204)%Z then lit "No Content" else if decide (status = 301)%Z then lit "Moved Permanently"
  else if decide (status = 302)%Z then lit "Found" else if decide (status = 304)%Z then lit "Not Modified"
  else if decide (status = 400)%Z then lit "Bad Request" else if decide (status = 401)%Z then lit "Unauthorized"
  else if decide (status = 403)%Z then lit "Forbidden" else if decide (status = 404)%Z then lit "Not Found"
  else if decide (status = 405)%Z then lit "Method Not Allowed" else if decide (status = 408)%Z then lit "Request Timeout"
  else if decide (status = 409)%Z then lit "Conflict" else if decide (status = 413)%Z then lit "Payload Too Large"
  else if decide (status = 414)%Z then lit "URI Too Long" else if decide (status = 415)%Z then lit "Unsupported Media Type"
  else if decide (status = 429)%Z then lit "Too Many Requests" else if decide (status = 500)%Z then lit "Internal Server Error"
  else if decide (status = 501)%Z then lit "Not Implemented" else if decide (status = 502)%Z then lit "Bad Gateway"
  else if decide (status = 503)%Z then lit "Service Unavailable" else if decide (status = 504)%Z then lit "Gateway Timeout"
  else [].

Definition header_list : Type := list (str * str).

Definition has_header (hs : header_list) (field : str) : bool := existsb (λ h, iequals h.1 field) hs.

Record http_protocol : Type := mkProtocol {
  hp_start_line : str;
  hp_headers : header_list;
  hp_body : str;
  hp_has_body : bool;
}.

Definition http_1_1 : str := lit "HTTP/1.1".
Definition hp_new : http_protocol := mkProtocol [] [] [] false.

(** Each setter that validates starts by [require]; the start line clears the rest. *)
Definition request_line (method url version : str) (p : http_protocol) : res http_protocol :=
  if negb (is_token method) then Throw InvalidArgument
  else if negb (is_safe_target url) then Throw InvalidArgument
  else if negb (is_version version) then Throw InvalidArgument
  else Ok (mkProtocol (method ++ [" "%char] ++ url ++ [" "%char] ++ version ++ crlf) [] [] false).

Definition status_line (status : Z) (reason : option str) (version : str) (p : http_protocol) : res http_protocol :=
  if negb (bool_decide (100 ≤ status)%Z && bool_decide (status ≤ 999)%Z) then Throw InvalidArgument
  else if negb (is_version version) then Throw InvalidArgument
  else
    let reason := default (default_reason status) reason in
    if negb (is_safe_text reason) then Throw InvalidArgument
    else Ok (mkProtocol (version ++ [" "%char] ++ to_string (Z.to_nat status) ++
                         (if decide (reason = []) then [] else " "%char :: reason) ++ crlf) [] [] false).

Definition hp_header (field value : str) (replace : bool) (p : http_protocol) : res http_protocol :=
  if negb (is_token field) then Throw InvalidArgument
  else if negb (is_safe_text value) then Throw InvalidArgument
  else
    let hs := if replace then filter (λ h, iequals h.1 field = false) (hp_headers p) else hp_headers p in
    Ok (mkProtocol (hp_start_line p) (hs ++ [(field, value)]) (hp_body p) (hp_has_body p)).

Definition hp_set_body (b : str) (p : http_protocol) : http_protocol :=
  mkProtocol (hp_start_line p) (hp_headers p) b true.

Definition header_line (h : str * str) : str := h.1 ++ lit ": " ++ h.2 ++ crlf.

Definition hp_build (include_body : bool) (p : http_protocol) : str :=
  hp_start_line p ++ mjoin (header_line <$> hp_headers p) ++
  (if hp_has_body p && negb (has_header (hp_headers p) (lit "Content-Length"))
   then header_line (lit "Content-Length", to_string (length (hp_body p))) else []) ++
  crlf ++ (if include_body then hp_body p else []).

(** The loops that add a list of headers. *)
Fixpoint hp_add_all (hs : header_list) (p : http_protocol) : res http_protocol :=
  match hs with
  | [] => Ok p
  | (k, v) :: hs => match hp_header k v false p with Ok p => hp_add_all hs p | Throw e => Throw e end
  end.

Definition hp_request (method url : str) (hs : header_list) (body version : str) : res str :=
  match request_line method url version hp_new with
  | Throw e => Throw e
  | Ok p => match hp_add_all hs p with
            | Throw e => Throw e
            | Ok p => Ok (hp_build true (if decide (body = []) then p else hp_set_body body p))
            end
  end.

Definition hp_response (status : Z) (hs : header_list) (body : str) (reason : option str) (version : str) : res str :=
  match status_line status reason version hp_new with
  | Throw e => Throw e
  | Ok p => match hp_add_all hs p with
            | Throw e => Throw e
            | Ok p => Ok (hp_build true (if decide (body = []) then p else hp_set_body body p))
            end
  end.

Definition with_content_type (ct : str) (hs : header_list) : header_list :=
  if has_header hs (lit "Content-Type") then hs else hs ++ [(lit "Content-Type", ct)].
Definition hp_json (method url json_body : str) (hs : header_list) (version : str) : res str :=
  hp_request method url (with_content_type (lit "application/json") hs) json_body version.

Definition hex_digit (n : nat) : ascii := ascii_of_nat (if n <? 10 then 48 + n else 55 + n).
Definition url_encode_char (c : ascii) : str :=
  if is_alnum c || bool_decide (c ∈ lit "-_.~") then [c]
  else ["%"%char; hex_digit (code c / 16); hex_digit (code c mod 16)].
Definition url_encode (text : str) : str := mjoin (url_encode_char <$> text).

Fixpoint form_body (fields : header_list) : str :=
  match fields with
  | [] => []
  | [(k, v)] => url_encode k ++ ["="%char] ++ url_encode v
  | (k, v) :: fields => url_encode k ++ ["="%char] ++ url_encode v ++ ["&"%char] ++ form_body fields
  end.
Definition hp_form (method url : str) (fields hs : header_list) (version : str) : res str :=
  hp_request method url (with_content_type (lit "application/x-www-form-urlencoded") hs) (form_body fields) version.

(** ** Requests *)

(** [headers] is a [std::map]: a list in the order of its keys. *)
Record http_request : Type := mkRequest {
  rq_method : str;
  rq_url : str;
  rq_version : str;
  rq_body : str;
  rq_headers : header_list;
  rq_keep_alive : bool;
  rq_params : list (str * str);
}.

(** [path] and [path_view]. *)
Definition rq_path (r : http_request) : str :=
  match str_find "?"%char (rq_url r) with Some q => take q (rq_url r) | None => rq_url r end.
Definition rq_query (r : http_request) : str :=
  match str_find "?"%char (rq_url r) with Some q => drop (q + 1) (rq_url r) | None => [] end.
Definition rq_header (r : http_request) (name : str) : str :=
  from_option (λ x, x.2.2) [] (list_find (λ h, iequals h.1 name = true) (rq_headers r)).
Definition rq_param (r : http_request) (name : str) : str :=
  from_option (λ x, x.2.2) [] (list_find (λ h, h.1 = name) (rq_params r)).

(** ** Responses *)

Record http_response : Type := mkResponse {
  rs_status : Z;
  rs_headers : header_list;
  rs_body : str;
}.

(** [http_response::header]. *)
Definition rs_header (name value : str) (replace : bool) (r : http_response) : http_response :=
  let hs := if replace then filter (λ h, iequals h.1 name = false) (rs_headers r) else rs_headers r in
  mkResponse (rs_status r) (hs ++ [(name, value)]) (rs_body r).

Definition rs_typed (ct body : str) (status : Z) : http_response :=
  mkResponse status [(lit "Content-Type", ct)] body.
Definition rs_text (body : str) (status : Z) : http_response := rs_typed (lit "text/plain; charset=utf-8") body status.
Definition rs_json (body : str) (status : Z) : http_response := rs_typed (lit "application/json") body status.
Definition rs_html (body : str) (status : Z) : http_response := rs_typed (lit "text/html; charset=utf-8") body status.
Definition rs_error (status : Z) (message : str) : http_response := rs_text (message ++ [chr_LF]) status.

(** The headers that [build] passes on: not those that delimit the body. *)
Definition rs_kept (h : str * str) : bool :=
  negb (iequals h.1 (lit "Content-Length") || iequals h.1 (lit "Transfer-Encoding")).

Definition rs_protocol (omit_body : bool) (r : http_response) : res http_protocol :=
  match status_line (rs_status r) None http_1_1 hp_new with
  | Throw e => Throw e
  | Ok p =>
      match hp_add_all (filter (λ h, rs_kept h = true) (rs_headers r)) p with
      | Throw e => Throw e
      | Ok p =>
          match hp_header (lit "Content-Length") (to_string (length (rs_body r))) false p with
          | Throw e => Throw e
          | Ok p => Ok (hp_set_body (if omit_body then [] else rs_body r) p)
          end
      end
  end.

Definition rs_build (omit_body : bool) (r : http_response) : res str :=
  match rs_protocol omit_body r with Throw e => Throw e | Ok p => Ok (hp_build true p) end.

Definition file_ext (path : str) : str :=
  match str_find_last "."%char path with Some dot => drop (dot + 1) path | None => [] end.
Definition mime_type (path : str) : str :=
  let ext := file_ext path in
  if decide (ext = lit "html" ∨ ext = lit "htm") then lit "text/html; charset=utf-8"
  else if decide (ext = lit "css") then lit "text/css"
  else if decide (ext = lit "js") then lit "application/javascript"
  else if decide (ext = lit "json") then lit "application/json"
  else if decide (ext = lit "png") then lit "image/png"
  else if decide (ext = lit "jpg" ∨ ext = lit "jpeg") then lit "image/jpeg"
  else if decide (ext = lit "gif") then lit "image/gif"
  else if decide (ext = lit "svg") then lit "image/svg+xml"
  else if decide (ext = lit "txt") then lit "text/plain; charset=utf-8"
  else if decide (ext = lit "ico") then lit "image/x-icon"
  else lit "application/octet-stream".

(** ** The receiver's side *)

Fixpoint split_line (s : str) : option (str * str) :=
  match s with
  | [] => None
  | c :: s' =>
      if decide (c = chr_CR ∧ head s' = Some chr_LF) then Some ([], tail s')
      else match split_line s' with Some (l, rest) => Some (c :: l, rest) | None => None end
  end.

Definition split_field (line : str) : option (str * str) :=
  match str_find ":"%char line with
  | Some i => if decide (line !! S i = Some " "%char) then Some (take i line, drop (i + 2) line) else None
  | None => None
  end.

Fixpoint read_fields (fuel : nat) (s : str) : option (header_list * str) :=
  match fuel with
  | 0 => None
  | S fuel =>
      match split_line s with
      | None => None
      | Some ([], rest) => Some ([], rest)
      | Some (line, rest) =>
          match split_field line, read_fields fuel rest with
          | Some h, Some (hs, rest) => Some (h :: hs, rest)
          | _, _ => None
          end
      end
  end.

(** The start line, the header fields and what follows the blank line. *)
Definition read_message (s : str) : option (str * header_list * str) :=
  match split_line s with
  | None => None
  | Some (start, rest) =>
      match read_fields (S (length rest)) rest with
      | Some (hs, body) => Some (start, hs, body)
      | None => None
      end
  end.

(** ** Scanning lemmas *)

Definition no_CR (s : str) : Prop := chr_CR ∉ s.

Lemma split_line_app s rest : no_CR s → split_line (s ++ crlf ++ rest) = Some (s, rest).
Proof.
  unfold no_CR. induction s as [|c s IH]; intros Hs; [done|]. apply not_elem_of_cons in Hs as [Hc Hs].
  cbn [app split_line]. rewrite decide_False by (intros [? _]; congruence). by rewrite IH.
Qed.

Lemma str_find_if_app f s c rest :
  Forall (λ x, f x = false) s → f c = true → str_find_if f (s ++ c :: rest) = Some (length s).
Proof.
  intros Hs Hc. unfold str_find_if. apply fmap_Some. exists (length s, c). split; [|done].
  apply list_find_Some. split_and!; [by rewrite list_lookup_middle|done|].
  intros j y Hj Hlt. rewrite lookup_app_l in Hj by done. rewrite Forall_lookup in Hs. by rewrite (Hs j y Hj).
Qed.

Lemma str_find_app c s rest : c ∉ s → str_find c (s ++ c :: rest) = Some (length s).
Proof.
  intros Hs. apply str_find_if_app; [|by apply bool_decide_eq_true_2].
  apply Forall_forall. intros x Hx. apply bool_decide_eq_false_2. by intros ->.
Qed.

Lemma tchar_not c : is_tchar c = true → c ≠ ":"%char ∧ c ≠ chr_CR ∧ c ≠ " "%char.
Proof. intros Hc. split_and!; intros ->; vm_compute in Hc; discriminate. Qed.

Lemma forallb_elem {A} (f : A → bool) (l : list A) : forallb f l = true ↔ ∀ x, x ∈ l → f x = true.
Proof.
  rewrite forallb_forall. split; intros Hf x Hx; [by apply Hf, list_elem_of_In|by apply Hf, list_elem_of_In].
Qed.

Lemma token_spec s : is_token s = true → s ≠ [] ∧ ":"%char ∉ s ∧ no_CR s ∧ " "%char ∉ s.
Proof.
  unfold is_token. intros Hs. bool_to_prop. split; [done|]. rewrite forallb_elem in *.
  split_and!; intros Hin; by destruct (tchar_not _ ltac:(eauto)) as (? & ? & ?).
Qed.

Lemma safe_text_no_CR s : is_safe_text s = true → no_CR s.
Proof. unfold is_safe_text. rewrite forallb_elem. intros Hs Hin. specialize (Hs _ Hin). by bool_to_prop. Qed.

Lemma split_field_line k v : ":"%char ∉ k → split_field (k ++ lit ": " ++ v) = Some (k, v).
Proof.
  intros Hk. unfold split_field. change (lit ": " ++ v) with (":"%char :: " "%char :: v). rewrite str_find_app by done.
  rewrite decide_True.
  - by rewrite take_app_length, <- drop_drop, drop_app_length.
  - rewrite lookup_app_r by lia. by replace (S (length k) - length k) with 1 by lia.
Qed.

(** ** Decimal numbers *)

Definition digit_value (c : ascii) : nat := code c - 48.
Definition dec_value (s : str) : nat := foldl (λ a c, a * 10 + digit_value c) 0 s.

Lemma digit_char n : n < 10 → is_digit (ascii_of_nat (48 + n)) = true ∧ digit_value (ascii_of_nat (48 + n)) = n.
Proof.
  intros Hn. unfold is_digit, between, digit_value, code. rewrite nat_ascii_embedding by lia.
  split; [apply andb_true_iff; split; apply Nat.leb_le; lia|lia].
Qed.

Lemma dec_loop_spec fuel n acc :
  n < fuel → ∃ ds, dec_loop fuel n acc = ds ++ acc ∧ forallb is_digit ds = true ∧ ds ≠ [] ∧ dec_value ds = n.
Proof.
  revert n acc. induction fuel as [|fuel IH]; intros n acc Hn; [lia|]. cbn [dec_loop].
  destruct (digit_char (n mod 10)) as [Hd Hv]; [by apply Nat.mod_upper_bound|].
  pose proof (Nat.div_mod_eq n 10) as Hdiv. set (q := n / 10) in *. set (d := n mod 10) in *. clearbody q d.
  destruct (q =? 0) eqn:Hz; bool_to_prop.
  - exists [ascii_of_nat (48 + d)]. split; [done|]. split; [cbn [forallb]; by rewrite Hd|]. split; [done|].
    unfold dec_value. cbn [foldl]. rewrite Hv. lia.
  - destruct (IH q (ascii_of_nat (48 + d) :: acc)) as (ds & -> & Hds & Hne & Hval); [lia|].
    exists (ds ++ [ascii_of_nat (48 + d)]). split; [by rewrite <- app_assoc|].
    split; [rewrite forallb_app, Hds; cbn [forallb]; by rewrite Hd|]. split; [by destruct ds|].
    unfold dec_value in *. rewrite foldl_app, Hval. cbn [foldl]. rewrite Hv. lia.
Qed.

Lemma to_string_spec n : forallb is_digit (to_string n) = true ∧ to_string n ≠ [] ∧ dec_value (to_string n) = n.
Proof.
  unfold to_string. destruct (dec_loop_spec (S n) n [] ltac:(lia)) as (ds & -> & ?). by rewrite app_nil_r.
Qed.

Lemma digits_safe s : forallb is_digit s = true → is_safe_text s = true ∧ no_CR s.
Proof.
  intros Hs. assert (is_safe_text s = true) as H; [|split; [done|by apply safe_text_no_CR]].
  unfold is_safe_text. rewrite forallb_elem in *. intros c Hc. specialize (Hs c Hc).
  rewrite !bool_decide_eq_false_2; [done|intros ->; vm_compute in Hs; discriminate..].
Qed.

(** ** What the serializer accepts, the receiver reads back *)

Definition field_ok (h : str * str) : Prop := is_token h.1 = true ∧ is_safe_text h.2 = true.

Lemma header_line_length h : 4 ≤ length (header_line h).
Proof. unfold header_line. rewrite !length_app. simpl. lia. Qed.

Lemma read_fields_app fuel hs body :
  Forall field_ok hs → length (mjoin (header_line <$> hs)) < fuel →
  read_fields fuel (mjoin (header_line <$> hs) ++ crlf ++ body) = Some (hs, body).
Proof.
  revert fuel. induction hs as [|[k v] hs IH]; intros fuel Hok Hf; (destruct fuel as [|fuel]; [lia|]); [done|].
  apply Forall_cons in Hok as [[Hk Hv] Hok]. simpl in Hk, Hv.
  change (mjoin (header_line <$> (k, v) :: hs)) with (header_line (k, v) ++ mjoin (header_line <$> hs)) in *.
  pose proof (header_line_length (k, v)). rewrite length_app in Hf.
  destruct (token_spec k Hk) as (Hne & Hcol & Hcr & _).
  assert (no_CR (k ++ lit ": " ++ v)) as Hl.
  { unfold no_CR. rewrite !elem_of_app. intros [?|[Hx|?]]; [done| |by apply (safe_text_no_CR v Hv)].
    revert Hx. simpl. rewrite !elem_of_cons. intros [Hx|[Hx|Hx]]; [discriminate Hx..|by apply elem_of_nil in Hx]. }
  assert (∀ t, header_line (k, v) ++ t = (k ++ lit ": " ++ v) ++ crlf ++ t) as Hline.
  { intros t. unfold header_line. cbn [fst snd]. by rewrite <- !app_assoc. }
  cbn [read_fields]. rewrite <- app_assoc, Hline, split_line_app by done.
  destruct (k ++ lit ": " ++ v) as [|c line] eqn:Hkv; [by destruct k|]. rewrite <- Hkv, split_field_line by done.
  rewrite IH by (done || lia). done.
Qed.

(** A start line and accepted fields. *)
Definition hp_wf (line : str) (p : http_protocol) : Prop :=
  hp_start_line p = line ++ crlf ∧ no_CR line ∧ Forall field_ok (hp_headers p).

Definition hp_extra (p : http_protocol) : header_list :=
  if hp_has_body p && negb (has_header (hp_headers p) (lit "Content-Length"))
  then [(lit "Content-Length", to_string (length (hp_body p)))] else [].

Lemma hp_build_read line p ib :
  hp_wf line p → read_message (hp_build ib p) = Some (line, hp_headers p ++ hp_extra p, if ib then hp_body p else []).
Proof.
  intros (Hs & Hl & Hf). set (hs := hp_headers p ++ hp_extra p). set (b := if ib then hp_body p else []).
  assert (hp_build ib p = line ++ crlf ++ (mjoin (header_line <$> hs) ++ crlf ++ b)) as ->.
  { unfold hp_build, hs, hp_extra. rewrite Hs, fmap_app, join_app, <- !app_assoc. do 2 f_equal.
    destruct (hp_has_body p && _); [|done]. f_equal. by rewrite <- (app_nil_r (header_line _)) at 1. }
  unfold read_message. rewrite split_line_app by done. rewrite read_fields_app; [done| |rewrite length_app; lia].
  apply Forall_app. split; [done|]. unfold hp_extra. case_match; [|done]. apply Forall_singleton. split; [done|].
  apply digits_safe, to_string_spec.
Qed.

Lemma hp_header_ok k v r p p' line :
  hp_wf line p → hp_header k v r p = Ok p' →
  hp_wf line p' ∧ (r = false → hp_headers p' = hp_headers p ++ [(k, v)]) ∧ hp_body p' = hp_body p ∧ hp_has_body p' = hp_has_body p.
Proof.
  intros (Hs & Hl & Hf). unfold hp_header. destruct (is_token k) eqn:Hk; [|done]. destruct (is_safe_text v) eqn:Hv; [|done].
  simpl. intros [= <-]. split_and!; [|by intros ->|done|done]. split_and!; [done|done|]. simpl.
  apply Forall_app. split; [|by apply Forall_singleton]. destruct r; [|done]. by apply Forall_filter_sub.
Qed.

Lemma hp_add_all_ok hs p p' line :
  hp_wf line p → hp_add_all hs p = Ok p' →
  hp_wf line p' ∧ hp_headers p' = hp_headers p ++ hs ∧ hp_body p' = hp_body p ∧ hp_has_body p' = hp_has_body p ∧
  hp_start_line p' = hp_start_line p.
Proof.
  revert p. induction hs as [|[k v] hs IH]; intros p Hp; simpl; [intros [= <-]; by rewrite app_nil_r|].
  destruct (hp_header k v false p) as [p1|] eqn:Hh; [|done]. intros Ha.
  destruct (hp_header_ok _ _ _ _ _ _ Hp Hh) as (Hp1 & Hh1 & Hb1 & Hc1). destruct (IH p1 Hp1 Ha) as (? & Hh2 & Hb2 & Hc2 & Hs2).
  split; [done|]. rewrite Hh2, Hh1, <- app_assoc by done. split; [done|]. split; [congruence|]. split; [congruence|].
  rewrite Hs2. unfold hp_header in Hh. by case_all.
Qed.

Lemma version_no_CR v : is_version v = true → no_CR v.
Proof.
  assert (∀ s, no_CR (skip_digits s) → no_CR s) as Hskip.
  { unfold no_CR. induction s as [|c s IH]; cbn [skip_digits]; [done|]. destruct (is_digit c) eqn:Hc; [|done].
    intros Hs [Hx|Hin]%elem_of_cons; [subst c; vm_compute in Hc; discriminate|by apply IH]. }
  unfold is_version, starts_with. intros Hv. bool_to_prop. rewrite <- (take_drop 5 v).
  match goal with Hx : take _ v = _ |- _ => change (length (lit "HTTP/")) with 5 in Hx; rewrite Hx end.
  destruct (skip_digits (drop 5 v)) as [|c w] eqn:Hw; [done|]. bool_to_prop. subst c.
  unfold no_CR in *. rewrite elem_of_app. intros [Hin|Hin]; [revert Hin; vm_compute; set_solver|].
  revert Hin. apply Hskip. rewrite Hw. intros [Hx|Hin]%elem_of_cons; [discriminate Hx|]. revert Hin. apply Hskip.
  match goal with Hx : skip_digits w = [] |- _ => rewrite Hx end. set_solver.
Qed.

Lemma target_no_CR s : is_safe_target s = true → no_CR s.
Proof.
  unfold is_safe_target. intros Hs. bool_to_prop. rewrite forallb_elem in *. intros Hin.
  match goal with Hx : ∀ x, _ → _ = true |- _ => specialize (Hx _ Hin) end. bool_to_prop. set_solver.
Qed.

Lemma no_CR_app a b : no_CR a → no_CR b → no_CR (a ++ b).
Proof. unfold no_CR. set_solver. Qed.
Lemma no_CR_space s : no_CR s → no_CR ([" "%char] ++ s).
Proof. unfold no_CR. intros Hs [Hx|?]%elem_of_cons; [discriminate Hx|done]. Qed.

Lemma request_line_ok m u v p p' :
  request_line m u v p = Ok p' →
  hp_wf (m ++ [" "%char] ++ u ++ [" "%char] ++ v) p' ∧ hp_headers p' = [] ∧ hp_body p' = [] ∧ hp_has_body p' = false.
Proof.
  unfold request_line. destruct (is_token m) eqn:Hm; [|done]. destruct (is_safe_target u) eqn:Hu; [|done].
  destruct (is_version v) eqn:Hv; [|done]. simpl. intros [= <-]. split; [|done]. split_and!; [|simpl|done].
  - simpl. by rewrite <- !app_assoc, <- !app_comm_cons, <- !app_assoc.
  - apply no_CR_app; [by apply token_spec|]. apply no_CR_space, no_CR_app; [by apply target_no_CR|].
    by apply no_CR_space, version_no_CR.
Qed.

Lemma status_line_ok st r v p p' :
  status_line st r v p = Ok p' →
  ∃ reason, hp_wf (v ++ [" "%char] ++ to_string (Z.to_nat st) ++ reason) p' ∧
    hp_headers p' = [] ∧ hp_body p' = [] ∧ hp_has_body p' = false.
Proof.
  unfold status_line. destruct (bool_decide _ && _); [|done]. destruct (is_version v) eqn:Hv; [|done].
  set (rn := default (default_reason st) r). destruct (is_safe_text rn) eqn:Hr; [|done]. simpl. intros [= <-].
  exists (if decide (rn = []) then [] else " "%char :: rn). split; [|done]. split_and!; [|simpl|done].
  - simpl. by rewrite <- !app_assoc, <- !app_comm_cons, <- !app_assoc.
  - apply no_CR_app; [by apply version_no_CR|]. apply no_CR_space, no_CR_app; [by apply digits_safe, to_string_spec|].
    case_decide; [unfold no_CR; set_solver|]. by apply (no_CR_space rn), safe_text_no_CR.
Qed.

(** C24 A request that the serializer accepts reads back as exactly the request that was
    asked for, whatever the strings contain: no field or body injects a line.  A length is
    added when there is a body and no length. *)
Theorem hp_request_read m u hs b v text :
  hp_request m u hs b v = Ok text →
  read_message text = Some (m ++ [" "%char] ++ u ++ [" "%char] ++ v,
    hs ++ (if negb (bool_decide (b = [])) && negb (has_header hs (lit "Content-Length"))
           then [(lit "Content-Length", to_string (length b))] else []), b).
Proof.
  unfold hp_request. destruct (request_line m u v hp_new) as [p|] eqn:Hl; [|done].
  destruct (request_line_ok _ _ _ _ _ Hl) as (Hwf & Hh & Hb & Hc).
  destruct (hp_add_all hs p) as [p1|] eqn:Ha; [|done]. intros [= <-].
  destruct (hp_add_all_ok _ _ _ _ Hwf Ha) as (Hwf1 & Hh1 & Hb1 & Hc1 & _). rewrite Hh in Hh1. simpl in Hh1.
  destruct (decide (b = [])) as [->|Hne].
  - rewrite (hp_build_read _ _ _ Hwf1). unfold hp_extra. by rewrite Hh1, Hc1, Hc, Hb1, Hb.
  - rewrite (hp_build_read (m ++ [" "%char] ++ u ++ [" "%char] ++ v)) by (destruct Hwf1 as (? & ? & ?); by split_and!).
    unfold hp_extra. simpl. by rewrite Hh1, bool_decide_eq_false_2.
Qed.

Lemma hp_header_err k v r p e : hp_header k v r p = Throw e → e = InvalidArgument ∧ ¬ field_ok (k, v).
Proof.
  unfold hp_header, field_ok. simpl. destruct (is_token k); [|intros [= <-]; split; [done|by intros []]].
  destruct (is_safe_text v); [done|]. intros [= <-]. split; [done|by intros []].
Qed.

Lemma hp_add_all_err hs p e : hp_add_all hs p = Throw e → e = InvalidArgument ∧ ∃ h, h ∈ hs ∧ ¬ field_ok h.
Proof.
  revert p. induction hs as [|[k v] hs IH]; intros p; simpl; [done|].
  destruct (hp_header k v false p) as [p1|e1] eqn:Hh.
  - intros (He & h & Hin & Hf)%IH. split; [done|]. exists h. split; [by right|done].
  - intros [= <-]. destruct (hp_header_err _ _ _ _ _ Hh). split; [done|]. exists (k, v). split; [by left|done].
Qed.

Lemma iequals_refl s : iequals s s = true.
Proof.
  unfold iequals. rewrite Nat.eqb_refl. simpl. apply forallb_elem. intros [x y] Hxy.
  apply bool_decide_eq_true_2. apply elem_of_lookup_zip_with in Hxy as (i & a & b & [= -> ->] & Ha & Hb). congruence.
Qed.

Lemma default_reason_safe st : is_safe_text (default_reason st) = true.
Proof. unfold default_reason. by repeat case_decide. Qed.

Lemma kept_not_framing hs :
  Forall (λ h, iequals h.1 (lit "Content-Length") = false ∧ iequals h.1 (lit "Transfer-Encoding") = false)
    (filter (λ h, rs_kept h = true) hs).
Proof.
  apply Forall_forall. intros h [Hk _]%list_elem_of_filter. unfold rs_kept in Hk. by bool_to_prop.
Qed.

(** The serialized response is delimited by its body: one length, that of the body (also when
    the body is left out for HEAD), no transfer coding, the other headers in their order,
    and the body; and it can only be refused for a status or a header that HTTP does not allow. *)
Theorem rs_build_framing omit r :
  match rs_build omit r with
  | Ok text => ∃ reason,
      read_message text = Some (http_1_1 ++ [" "%char] ++ to_string (Z.to_nat (rs_status r)) ++ reason,
        filter (λ h, rs_kept h = true) (rs_headers r) ++ [(lit "Content-Length", to_string (length (rs_body r)))],
        if omit then [] else rs_body r) ∧
      Forall (λ h, iequals h.1 (lit "Content-Length") = false ∧ iequals h.1 (lit "Transfer-Encoding") = false)
        (filter (λ h, rs_kept h = true) (rs_headers r))
  | Throw e => e = InvalidArgument ∧
      (¬ (100 ≤ rs_status r ≤ 999)%Z ∨ ∃ h, h ∈ rs_headers r ∧ rs_kept h = true ∧ ¬ field_ok h)
  end.
Proof.
  unfold rs_build, rs_protocol. set (kept := filter _ (rs_headers r)).
  destruct (status_line (rs_status r) None http_1_1 hp_new) as [p|e] eqn:Hl.
  2:{ unfold status_line in Hl. destruct (bool_decide _ && _) eqn:Hst.
      - bool_to_prop. exfalso. simpl in Hl. by rewrite default_reason_safe in Hl.
      - injection Hl as <-. split; [done|]. left. intros Hr. by rewrite !bool_decide_eq_true_2 in Hst by lia. }
  destruct (status_line_ok _ _ _ _ _ Hl) as (reason & Hwf & Hh & Hb & Hc).
  destruct (hp_add_all kept p) as [p1|e] eqn:Ha.
  2:{ destruct (hp_add_all_err _ _ _ Ha) as (He & h & [Hk Hin]%list_elem_of_filter & Hf). split; [done|]. right. by exists h. }
  destruct (hp_add_all_ok _ _ _ _ Hwf Ha) as (Hwf1 & Hh1 & Hb1 & Hc1 & _). rewrite Hh in Hh1. simpl in Hh1.
  set (len := to_string (length (rs_body r))).
  destruct (hp_header (lit "Content-Length") len false p1) as [p2|e] eqn:Hx.
  2:{ destruct (hp_header_err _ _ _ _ _ Hx) as [_ []]. split; [done|]. apply digits_safe, to_string_spec. }
  destruct (hp_header_ok _ _ _ _ _ _ Hwf1 Hx) as (Hwf2 & Hh2 & _). rewrite Hh1 in Hh2. specialize (Hh2 eq_refl).
  exists reason. split; [|by apply kept_not_framing].
  rewrite (hp_build_read (http_1_1 ++ [" "%char] ++ to_string (Z.to_nat (rs_status r)) ++ reason))
    by (destruct Hwf2 as (? & ? & ?); by split_and!).
  unfold hp_extra. simpl. rewrite Hh2. unfold has_header. rewrite existsb_app. cbn [existsb fst]. rewrite iequals_refl, orb_true_r. simpl.
  rewrite app_nil_r. by destruct omit.
Qed.

(** ** Percent-encoding *)

Definition hex_value (c : ascii) : nat := if is_digit c then code c - 48 else code c - 55.
Fixpoint url_decode (s : str) : str :=
  match s with
  | [] => []
  | c :: s' =>
      if decide (c = "%"%char) then
        match s' with
        | a :: b :: s'' => ascii_of_nat (hex_value a * 16 + hex_value b) :: url_decode s''
        | _ => []
        end
      else c :: url_decode s'
  end.

Lemma url_encode_char_ok c :
  (∀ s, url_decode (url_encode_char c ++ s) = c :: url_decode s) ∧
  forallb (λ x, is_alnum x || bool_decide (x ∈ lit "-_.~%")) (url_encode_char c) = true.
Proof.
  assert (bool_decide (c = "%"%char) && (is_alnum c || bool_decide (c ∈ lit "-_.~")) = false ∧
    ascii_of_nat (hex_value (hex_digit (code c / 16)) * 16 + hex_value (hex_digit (code c mod 16))) = c ∧
    forallb (λ x, is_alnum x || bool_decide (x ∈ lit "-_.~%")) (url_encode_char c) = true) as (Hp & Hv & Hc).
  { destruct c as [[] [] [] [] [] [] [] []]; vm_compute; repeat split. }
  split; [|done]. intros s. unfold url_encode_char. destruct (is_alnum c || _).
  - rewrite andb_true_r in Hp. bool_to_prop. cbn [app url_decode]. by rewrite decide_False.
  - cbn [app url_decode]. by rewrite decide_True, Hv.
Qed.

(** Percent-encoding loses nothing, and its result contains only characters that mean
    themselves in a form or a URL. *)
Theorem url_encode_decode s :
  url_decode (url_encode s) = s ∧ forallb (λ x, is_alnum x || bool_decide (x ∈ lit "-_.~%")) (url_encode s) = true.
Proof.
  unfold url_encode. induction s as [|c s [IH1 IH2]]; [done|]. destruct (url_encode_char_ok c) as [Hd Hc].
  change (mjoin (url_encode_char <$> c :: s)) with (url_encode_char c ++ mjoin (url_encode_char <$> s)).
  split; [by rewrite Hd, IH1|by rewrite forallb_app, Hc, IH2].
Qed.

(** ** Witnesses *)

Lemma hp_request_read_witness :
  ∃ text, hp_request (lit "POST") (lit "/a") [(lit "X", lit "1")] (lit "hi") http_1_1 = Ok text ∧
    read_message text = Some (lit "POST /a HTTP/1.1", [(lit "X", lit "1"); (lit "Content-Length", lit "2")], lit "hi").
Proof.
  destruct (hp_request (lit "POST") (lit "/a") [(lit "X", lit "1")] (lit "hi") http_1_1) as [text|e] eqn:Ht;
    [|vm_compute in Ht; discriminate Ht].
  exists text. split; [reflexivity|]. exact (hp_request_read _ _ _ _ _ _ Ht).
Defined.
