(* ===== verification/HttpUrl.v ===== *)
(** * HttpUrl: URLs and outgoing requests of the HTTP client

    [parse_url] and [serialize] of [src/src/http_client.cpp].  A URL becomes an [endpoint]
    (host, authority, request target, port); a request and its endpoint become the text
    that is written to the connection. *)

From S2P Require Import Prelude HttpMsg.
From Stdlib Require Import Ascii.
From stdpp Require Import options.

Record endpoint : Type := mkEndpoint {
  ep_host : str;
  ep_authority : str;
  ep_target : str;
  ep_port : Z;
  ep_secure : bool;
}.

(** [find] of a substring. *)
Fixpoint str_find_sub (p s : str) : option nat :=
  if starts_with p s then Some 0
  else match s with [] => None | _ :: s' => S <$> str_find_sub p s' end.

(** [substr(0, i)] and [substr(i)] where [i] may be [npos]. *)
Definition str_to (i : option nat) (s : str) : str := match i with Some i => take i s | None => s end.
Definition str_from (i : option nat) (s : str) : str := match i with Some i => drop i s | None => [] end.

(** [std::from_chars] to an [unsigned int]: the digits, unless there are none or they do not
    fit, and where it stopped. *)
Fixpoint take_digits (s : str) : str :=
  match s with c :: s' => if is_digit c then c :: take_digits s' else [] | [] => [] end.
Definition from_chars_u32 (s : str) : option (Z * str) :=
  let ds := take_digits s in
  if decide (ds = []) then None
  else if decide (u32_modulus ≤ Z.of_nat (dec_value ds))%Z then None
  else Some (Z.of_nat (dec_value ds), skip_digits s).

Definition url_bad_char (c : ascii) : bool := (code c <=? 32) || (127 <=? code c) || bool_decide (c = "\"%char).
Definition host_char (c : ascii) : bool := is_alnum c || bool_decide (c = "-"%char) || bool_decide (c = "."%char).
Definition default_port (secure : bool) : Z := if secure then 443 else 80.

(** The port of the authority: [colon] is where it begins, if it is there. *)
Definition parse_port (secure : bool) (colon : option nat) (authority : str) : res Z :=
  match colon with
  | None => Ok (default_port secure)
  | Some c =>
      match from_chars_u32 (drop (c + 1) authority) with
      | None => Throw InvalidArgument
      | Some (port, rest) =>
          if negb (bool_decide (rest = [])) || bool_decide (port = 0)%Z || bool_decide (65535 < port)%Z then Throw InvalidArgument
          else Ok port
      end
  end.

Definition url_authority (host : str) (port : Z) (secure : bool) : str :=
  host ++ (if decide (port = default_port secure) then [] else ":"%char :: to_string (Z.to_nat port)).

Definition url_target (end_ : option nat) (remainder : str) : str :=
  let target := str_from end_ remainder in
  let target := str_to (str_find "#"%char target) target in
  if bool_decide (target = []) || bool_decide (head target = Some "?"%char) then "/"%char :: target else target.

Definition parse_url (url : str) : res endpoint :=
  if bool_decide (8192 < Z.of_nat (length url))%Z then Throw InvalidArgument
  else if existsb url_bad_char url then Throw InvalidArgument
  else
    match str_find_sub (lit "://") url with
    | None => Throw InvalidArgument
    | Some split =>
        let scheme := take split url in
        if negb (iequals scheme (lit "http")) && negb (iequals scheme (lit "https")) then Throw InvalidArgument
        else
          let secure := iequals scheme (lit "https") in
          let remainder := drop (split + 3) url in
          let end_ := str_find_if (λ c, bool_decide (c ∈ lit "/?#")) remainder in
          let authority := str_to end_ remainder in
          if bool_decide (authority = []) || existsb (λ c, bool_decide (c ∈ lit "@[]")) authority then Throw InvalidArgument
          else
            let colon := str_find ":"%char authority in
            let host := str_to colon authority in
            if bool_decide (host = []) then Throw InvalidArgument
            else if negb (forallb host_char host) then Throw InvalidArgument
            else
              let host := ascii_lower <$> host in
              match parse_port secure colon authority with
              | Throw e => Throw e
              | Ok port => Ok (mkEndpoint host (url_authority host port secure) (url_target end_ remainder) port secure)
              end
    end.

(** [HttpRequest]. *)
Record client_request : Type := mkClientRequest {
  cr_method : str;
  cr_url : str;
  cr_headers : header_list;
  cr_body : str;
  cr_keep_alive : bool;
}.

(** The headers the client manages itself. *)
Definition owned_headers : list str :=
  lit <$> ["Host"; "Content-Length"; "Transfer-Encoding"; "Connection"; "Expect"; "Upgrade"; "Trailer"; "Proxy-Connection"]%string.
Definition is_owned (name : str) : bool := existsb (λ o, iequals name o) owned_headers.

Fixpoint serialize_headers (hs : header_list) (p : http_protocol) : res http_protocol :=
  match hs with
  | [] => Ok p
  | (k, v) :: hs =>
      if is_owned k then Throw InvalidArgument
      else match hp_header k v false p with Ok p => serialize_headers hs p | Throw e => Throw e end
  end.

Definition serialize (r : client_request) (e : endpoint) : res str :=
  if bool_decide (chr_NUL ∈ cr_method r) || bool_decide (cr_method r = lit "CONNECT") then Throw InvalidArgument
  else
    match request_line (cr_method r) (ep_target e) http_1_1 hp_new with
    | Throw x => Throw x
    | Ok p =>
        match hp_header (lit "Host") (ep_authority e) false p with
        | Throw x => Throw x
        | Ok p =>
            match hp_header (lit "Connection") (if cr_keep_alive r then lit "keep-alive" else lit "close") false p with
            | Throw x => Throw x
            | Ok p =>
                match serialize_headers (cr_headers r) p with
                | Throw x => Throw x
                | Ok p => Ok (hp_build true (hp_set_body (cr_body r) p))
                end
            end
        end
    end.

(** ** What an accepted URL guarantees *)

Definition host_char_lower (c : ascii) : bool := host_char c && negb (is_upper c).

Record endpoint_ok (e : endpoint) : Prop := {
  eo_host : ep_host e ≠ [];
  eo_host_chars : forallb host_char_lower (ep_host e) = true;
  eo_port : (1 ≤ ep_port e ≤ 65535)%Z;
  eo_authority : ep_authority e = url_authority (ep_host e) (ep_port e) (ep_secure e);
  eo_target : head (ep_target e) = Some "/"%char;
  eo_target_chars : forallb (λ c, negb (url_bad_char c) && negb (bool_decide (c = "#"%char))) (ep_target e) = true;
}.

Lemma take_skip_digits s : take_digits s ++ skip_digits s = s ∧ forallb is_digit (take_digits s) = true.
Proof.
  induction s as [|c s [IH1 IH2]]; [done|]. simpl. destruct (is_digit c) eqn:Hc; [|done]. simpl. by rewrite IH1, Hc, IH2.
Qed.

Lemma host_lower c : host_char c = true → host_char_lower (ascii_lower c) = true.
Proof. destruct c as [[] [] [] [] [] [] [] []]; vm_compute; done. Qed.

Lemma str_to_elem i s c : c ∈ str_to i s → c ∈ s.
Proof. destruct i as [i|]; [|done]. simpl. intros Hc. eapply subseteq_take; eauto. Qed.
Lemma str_from_elem i s c : c ∈ str_from i s → c ∈ s.
Proof. destruct i as [i|]; simpl; [|by intros ?%elem_of_nil]. intros Hc. eapply subseteq_drop; eauto. Qed.

Lemma str_find_take_not c s i : str_find c s = Some i → c ∉ take i s.
Proof.
  unfold str_find, str_find_if. intros ([j y] & (Hy & Hc & Hb)%list_find_Some & ->)%fmap_Some Hin. simpl in Hin.
  apply list_elem_of_lookup in Hin as [k Hk]. apply lookup_take_Some in Hk as [Hk Hlt].
  apply (Hb k c Hk Hlt). by apply bool_decide_eq_true_2.
Qed.
Lemma str_find_none c s : str_find c s = None → c ∉ s.
Proof.
  unfold str_find, str_find_if. intros Hn%fmap_None Hin. rewrite list_find_None, Forall_forall in Hn.
  apply (Hn c Hin). by apply bool_decide_eq_true_2.
Qed.

Lemma url_target_chars end_ r :
  existsb url_bad_char r = false → end_ = str_find_if (λ c, bool_decide (c ∈ lit "/?#")) r →
  head (url_target end_ r) = Some "/"%char ∧
  forallb (λ c, negb (url_bad_char c) && negb (bool_decide (c = "#"%char))) (url_target end_ r) = true.
Proof.
  intros Hbad Hend. unfold url_target. set (t := str_from end_ r). set (t' := str_to (str_find "#"%char t) t).
  assert (∀ c, c ∈ t' → url_bad_char c = false ∧ c ≠ "#"%char) as Hin.
  { intros c Hc. split.
    - assert (c ∈ r) as Hr by by eapply str_from_elem, str_to_elem. apply not_true_iff_false. intros Hx.
      rewrite <- not_true_iff_false, existsb_exists in Hbad. apply Hbad. exists c. split; [by apply list_elem_of_In|done].
    - intros ->. unfold t' in Hc. destruct (str_find "#"%char t) as [i|] eqn:Hi; [by apply str_find_take_not in Hi|].
      by apply str_find_none in Hi. }
  assert (∀ u, (∀ c, c ∈ u → c ∈ t' ∨ c = "/"%char) →
    forallb (λ c, negb (url_bad_char c) && negb (bool_decide (c = "#"%char))) u = true) as Hall.
  { intros u Hu. apply forallb_elem. intros c Hc. destruct (Hu c Hc) as [Hx| ->]; [|done].
    destruct (Hin c Hx) as [-> Hne]. by rewrite bool_decide_eq_false_2. }
  case_bool_decide as He; simpl; [split; [done|]; apply (Hall ("/"%char :: t')); set_solver|].
  case_bool_decide as Hq; simpl; [split; [done|]; apply (Hall ("/"%char :: t')); set_solver|]. split; [|apply Hall; auto].
  destruct t' as [|c u] eqn:Ht'; [done|]. simpl. destruct (Hin c ltac:(by left)) as [_ Hne].
  assert (c ∈ lit "/?#") as Hc; [|revert Hc Hq; simpl; rewrite !elem_of_cons; naive_solver set_solver].
  assert (head t = Some c) as Ht.
  { unfold t' in Ht'. destruct (str_find "#"%char t) as [[|i]|]; simpl in Ht'; [done| |by rewrite Ht']. by destruct t; simplify_eq/=. }
  unfold t in Ht. destruct end_ as [i|]; [|done]. simpl in Ht. symmetry in Hend. unfold str_find_if in Hend.
  apply fmap_Some in Hend as ([j y] & (Hy & Hb & _)%list_find_Some & ->). simpl in *.
  rewrite head_lookup, lookup_drop, Nat.add_0_r in Ht. simplify_eq. by bool_to_prop.
Qed.

Lemma existsb_sub (f : ascii → bool) s t : (∀ c, c ∈ t → c ∈ s) → existsb f s = false → existsb f t = false.
Proof.
  intros Hst. rewrite <- !not_true_iff_false, !existsb_exists. intros Hs (c & Hc%list_elem_of_In & Hf). apply Hs.
  exists c. split; [by apply list_elem_of_In, Hst|done].
Qed.

Lemma parse_port_range secure colon a port : parse_port secure colon a = Ok port → (1 ≤ port ≤ 65535)%Z.
Proof.
  unfold parse_port, from_chars_u32. destruct colon as [c|]; [|intros [= <-]; unfold default_port; destruct secure; lia].
  case_decide; [done|]. case_decide; [done|]. destruct (_ || _) eqn:Hr; [done|]. intros [= <-].
  apply orb_false_iff in Hr as [Hr Hb]. apply orb_false_iff in Hr as [_ Ha]. bool_to_prop. lia.
Qed.

Lemma url_target_length end_ r : length (url_target end_ r) ≤ S (length r).
Proof.
  unfold url_target. set (t := str_from end_ r). assert (length t ≤ length r).
  { unfold t. destruct end_ as [i|]; simpl; [rewrite length_drop|]; lia. }
  assert (length (str_to (str_find "#"%char t) t) ≤ length t) by (destruct (str_find "#"%char t); simpl; [rewrite length_take|]; lia).
  destruct (_ || _); simpl; lia.
Qed.

Lemma target_chars_safe t :
  head t = Some "/"%char → forallb (λ c, negb (url_bad_char c) && negb (bool_decide (c = "#"%char))) t = true →
  is_safe_target t = true.
Proof.
  intros Hh. unfold is_safe_target. rewrite (bool_decide_eq_false_2 (t = [])) by (by intros ->). simpl. rewrite !forallb_elem.
  intros Ht c Hc. specialize (Ht c Hc). bool_to_prop. apply negb_true_iff, bool_decide_eq_false_2.
  intros Hx. assert (url_bad_char c = true); [|congruence]. revert Hx. rewrite !elem_of_cons.
  intros [->|[->|[->|[->|[->|[]%elem_of_nil]]]]]; reflexivity.
Qed.

(** What an accepted URL guarantees: a host of lower-case letters, digits, hyphens and dots, a
    port, the authority that names both, and a target that starts with a slash, has no
    fragment and no character that could end the request line. *)
Theorem parse_url_sound u e :
  parse_url u = Ok e → endpoint_ok e ∧ is_safe_target (ep_target e) = true ∧ (Z.of_nat (length (ep_target e)) ≤ 8193)%Z.
Proof.
  unfold parse_url. case_bool_decide as Hlen; [done|]. destruct (existsb url_bad_char u) eqn:Hbad; [done|].
  destruct (str_find_sub _ u) as [split|]; [|done]. cbv zeta. destruct (negb _ && _); [done|].
  set (r := drop (split + 3) u). set (secure := iequals _ (lit "https")).
  set (end_ := str_find_if (λ c, bool_decide (c ∈ lit "/?#")) r). set (a := str_to end_ r).
  destruct (bool_decide _ || _); [done|]. set (host := str_to (str_find ":"%char a) a). case_bool_decide as Hne; [done|].
  destruct (forallb host_char host) eqn:Hhc; [|done]. simpl.
  destruct (parse_port secure (str_find ":"%char a) a) as [port|] eqn:Hport; [|done]. intros [= <-]. simpl.
  assert (existsb url_bad_char r = false) as Hbr.
  { eapply existsb_sub; [|exact Hbad]. intros c Hc. eapply subseteq_drop; eauto. }
  destruct (url_target_chars end_ r Hbr eq_refl) as [Hhd Htc]. split; [split; simpl; try done|split].
  - intros Hx. apply Hne. by apply fmap_nil_inv in Hx.
  - rewrite forallb_elem in Hhc |- *. intros c (c' & -> & Hc')%list_elem_of_fmap. by apply host_lower, Hhc.
  - by eapply parse_port_range.
  - by apply target_chars_safe.
  - pose proof (url_target_length end_ r) as Ht. assert (length r ≤ length u) by (unfold r; rewrite length_drop; lia).
    clearbody r. lia.
Qed.

(** ** Round trip *)

Definition print_url (e : endpoint) : str :=
  (if ep_secure e then lit "https" else lit "http") ++ lit "://" ++ ep_authority e ++ ep_target e.

(** The characters of an authority. *)
Definition auth_char (c : ascii) : bool := host_char_lower c || is_digit c || bool_decide (c = ":"%char).

Lemma auth_char_ok c :
  auth_char c = true →
  url_bad_char c = false ∧ bool_decide (c ∈ lit "/?#") = false ∧ bool_decide (c ∈ lit "@[]") = false.
Proof. destruct c as [[] [] [] [] [] [] [] []]; vm_compute; done. Qed.
Lemma host_char_lower_ok c :
  host_char_lower c = true → auth_char c = true ∧ host_char c = true ∧ ascii_lower c = c ∧ c ≠ ":"%char.
Proof. destruct c as [[] [] [] [] [] [] [] []]; vm_compute; done. Qed.
Lemma digit_auth c : is_digit c = true → auth_char c = true.
Proof. unfold auth_char. intros ->. by rewrite orb_true_r. Qed.

Lemma authority_chars e : endpoint_ok e → forallb auth_char (ep_authority e) = true ∧ ep_authority e ≠ [].
Proof.
  intros [Hne Hh _ Ha _ _]. rewrite Ha. unfold url_authority. split; [|by intros [? _]%app_nil].
  rewrite forallb_elem in *. intros c [Hc|Hc]%elem_of_app; [by apply host_char_lower_ok, Hh|].
  case_decide; [by apply elem_of_nil in Hc|]. apply elem_of_cons in Hc as [->|Hc]; [done|].
  apply digit_auth. destruct (to_string_spec (Z.to_nat (ep_port e))) as [Hd _]. rewrite forallb_elem in Hd. by apply Hd.
Qed.

Lemma print_url_clean e : endpoint_ok e → existsb url_bad_char (print_url e) = false.
Proof.
  intros He. destruct (authority_chars e He) as [Ha _]. destruct He as [_ _ _ _ _ Ht].
  apply not_true_iff_false. rewrite existsb_exists. intros (c & Hc%list_elem_of_In & Hb). unfold print_url in Hc.
  rewrite forallb_elem in Ha, Ht. apply elem_of_app in Hc as [Hc|Hc]; [|apply elem_of_app in Hc as [Hc|Hc];
    [|apply elem_of_app in Hc as [Hc|Hc]]].
  - assert (existsb url_bad_char (if ep_secure e then lit "https" else lit "http") = false) as Hx by by destruct (ep_secure e).
    rewrite <- not_true_iff_false, existsb_exists in Hx. apply Hx. exists c. by rewrite <- list_elem_of_In.
  - assert (existsb url_bad_char (lit "://") = false) as Hx by done.
    rewrite <- not_true_iff_false, existsb_exists in Hx. apply Hx. exists c. by rewrite <- list_elem_of_In.
  - destruct (auth_char_ok c (Ha c Hc)). congruence.
  - specialize (Ht c Hc). bool_to_prop. congruence.
Qed.

Lemma take_digits_all s : forallb is_digit s = true → take_digits s = s ∧ skip_digits s = [].
Proof.
  induction s as [|c s IH]; simpl; [done|]. intros Hd. bool_to_prop. destruct IH as [IH1 IH2]; [done|].
  match goal with Hx : is_digit c = true |- _ => rewrite Hx end. by rewrite IH1.
Qed.

Lemma str_find_not_in c s : c ∉ s → str_find c s = None.
Proof.
  intros Hc. unfold str_find, str_find_if. apply fmap_None, list_find_None, Forall_forall. intros x Hx Hd. bool_to_prop. congruence.
Qed.

Lemma parse_port_print e :
  endpoint_ok e →
  let colon := str_find ":"%char (ep_authority e) in
  str_to colon (ep_authority e) = ep_host e ∧ parse_port (ep_secure e) colon (ep_authority e) = Ok (ep_port e).
Proof.
  intros [Hne Hh Hp Ha _ _]. rewrite Ha. unfold url_authority. cbv zeta.
  assert (":"%char ∉ ep_host e) as Hcol.
  { rewrite forallb_elem in Hh. intros Hin. by destruct (host_char_lower_ok _ (Hh _ Hin)) as (_ & _ & _ & ?). }
  case_decide as Hdef.
  - rewrite app_nil_r, str_find_not_in by done. simpl. by rewrite Hdef.
  - rewrite str_find_app by done. cbn [str_to parse_port]. split; [by rewrite take_app_length|].
    rewrite <- drop_drop, drop_app_length. cbn [drop]. unfold from_chars_u32. cbv zeta. rewrite !drop_0.
    destruct (to_string_spec (Z.to_nat (ep_port e))) as (Hd & Hn & Hv). destruct (take_digits_all _ Hd) as [-> ->].
    rewrite Hv, Z2Nat.id, !decide_False by (done || unfold u32_modulus; lia).
    rewrite bool_decide_eq_true_2 by done. rewrite !bool_decide_eq_false_2 by lia. done.
Qed.

(** A URL of the normal form reads back as its endpoint; so reading and printing what was
    read changes nothing more. *)
Theorem parse_print_url e :
  endpoint_ok e → (Z.of_nat (length (print_url e)) ≤ 8192)%Z → parse_url (print_url e) = Ok e.
Proof.
  intros He Hlen. unfold parse_url. rewrite bool_decide_eq_false_2 by lia. rewrite print_url_clean by done.
  destruct (authority_chars e He) as [Hac Han]. destruct (parse_port_print e He) as [Hhost Hport].
  destruct He as [Hne Hh Hp Ha Ht Htc]. destruct (ep_target e) as [|c t] eqn:Het; [done|]. injection Ht as ->.
  assert (∃ split, str_find_sub (lit "://") (print_url e) = Some split ∧
    take split (print_url e) = (if ep_secure e then lit "https" else lit "http") ∧
    drop (split + 3) (print_url e) = ep_authority e ++ "/"%char :: t) as (split & -> & Htk & Hdr).
  { unfold print_url. rewrite Het. destruct (ep_secure e); [exists 5|exists 4]; done. }
  rewrite Htk, Hdr.
  assert (iequals (if ep_secure e then lit "https" else lit "http") (lit "https") = ep_secure e) as -> by by destruct (ep_secure e).
  assert (negb (iequals (if ep_secure e then lit "https" else lit "http") (lit "http")) && negb (ep_secure e) = false) as ->
    by by destruct (ep_secure e).
  rewrite (str_find_if_app _ (ep_authority e) "/"%char t); [|rewrite forallb_elem in Hac; apply Forall_forall; intros c Hc;
    by apply auth_char_ok, Hac|done].
  cbn [str_to]. rewrite take_app_length, (bool_decide_eq_false_2 (ep_authority e = [])) by done.
  assert (existsb (λ c, bool_decide (c ∈ lit "@[]")) (ep_authority e) = false) as ->.
  { apply not_true_iff_false. rewrite existsb_exists. intros (c & Hc%list_elem_of_In & Hb). rewrite forallb_elem in Hac.
    destruct (auth_char_ok c (Hac c Hc)) as (_ & _ & ?). congruence. }
  cbn [orb]. rewrite Hhost, Hport, bool_decide_eq_false_2 by done.
  assert (forallb host_char (ep_host e) = true) as -> by (rewrite forallb_elem in *; intros c Hc; by apply host_char_lower_ok, Hh).
  assert (ascii_lower <$> ep_host e = ep_host e) as Hlow.
  { rewrite <- (list_fmap_id (ep_host e)) at 2. apply list_fmap_ext. intros i c Hc%list_elem_of_lookup_2.
    rewrite forallb_elem in Hh. by apply host_char_lower_ok, Hh. }
  cbn [negb]. cbv zeta. rewrite Hlow, <- Ha. unfold url_target. cbn [str_from]. rewrite drop_app_length.
  rewrite str_find_not_in; [|intros Hx; rewrite forallb_elem in Htc; specialize (Htc _ Hx); by bool_to_prop].
  cbn [str_to]. rewrite <- Het. destruct e; simpl in *. by subst.
Qed.

(** ** What is sent *)

Lemma serialize_headers_ok hs p p' :
  serialize_headers hs p = Ok p' → hp_add_all hs p = Ok p' ∧ forallb (λ h, negb (is_owned h.1)) hs = true.
Proof.
  revert p. induction hs as [|[k v] hs IH]; intros p; simpl; [by intros [= <-]|].
  destruct (is_owned k); [done|]. destruct (hp_header k v false p) as [p1|]; [|done]. by intros [-> ->]%IH.
Qed.

Lemma unowned_no_length hs :
  forallb (λ h, negb (is_owned h.1)) hs = true → has_header hs (lit "Content-Length") = false.
Proof.
  rewrite forallb_elem. intros Hs. apply not_true_iff_false. unfold has_header. rewrite existsb_exists.
  intros (h & Hh%list_elem_of_In & Hb). specialize (Hs h Hh). apply negb_true_iff, not_true_iff_false in Hs. apply Hs.
  unfold is_owned. apply existsb_exists. exists (lit "Content-Length"). split; [|done]. simpl. tauto.
Qed.

(** The request on the wire reads back as the method and target asked for, one Host and one
    Connection, the headers of the caller in their order, none of which is one the client
    manages, and one length, that of the body. *)
Theorem serialize_read r e text :
  serialize r e = Ok text →
  read_message text = Some (cr_method r ++ [" "%char] ++ ep_target e ++ [" "%char] ++ http_1_1,
    [(lit "Host", ep_authority e); (lit "Connection", if cr_keep_alive r then lit "keep-alive" else lit "close")] ++
    cr_headers r ++ [(lit "Content-Length", to_string (length (cr_body r)))], cr_body r) ∧
  forallb (λ h, negb (is_owned h.1)) (cr_headers r) = true ∧ cr_method r ≠ lit "CONNECT".
Proof.
  unfold serialize. destruct (_ || _) eqn:Hm; [done|]. apply orb_false_iff in Hm as [_ Hm]. bool_to_prop.
  destruct (request_line _ _ _ _) as [p|] eqn:Hl; [|done]. destruct (request_line_ok _ _ _ _ _ Hl) as (Hw & Hh & Hb & Hc).
  destruct (hp_header (lit "Host") _ _ _) as [p1|] eqn:H1; [|done].
  destruct (hp_header_ok _ _ _ _ _ _ Hw H1) as (Hw1 & Hh1 & Hb1 & Hc1).
  destruct (hp_header (lit "Connection") _ _ _) as [p2|] eqn:H2; [|done].
  destruct (hp_header_ok _ _ _ _ _ _ Hw1 H2) as (Hw2 & Hh2 & Hb2 & Hc2).
  destruct (serialize_headers _ _) as [p3|] eqn:H3; [|done]. intros [= <-].
  destruct (serialize_headers_ok _ _ _ H3) as [Ha Ho]. destruct (hp_add_all_ok _ _ _ _ Hw2 Ha) as (Hw3 & Hh3 & _).
  split; [|done]. rewrite (hp_build_read (cr_method r ++ [" "%char] ++ ep_target e ++ [" "%char] ++ http_1_1))
    by (destruct Hw3 as (? & ? & ?); by split_and!).
  unfold hp_extra. cbn [hp_set_body hp_headers hp_has_body hp_body andb].
  rewrite Hh3, Hh2, Hh1, Hh by done. cbn [app].
  assert (has_header ((lit "Host", ep_authority e) :: (lit "Connection", if cr_keep_alive r then lit "keep-alive" else lit "close")
            :: cr_headers r) (lit "Content-Length") = false) as ->; [|done].
  unfold has_header. cbn [existsb fst]. by rewrite (unowned_no_length _ Ho : existsb _ _ = false).
Qed.

(** ** Witnesses *)

Definition url_demo : str := lit "HTTPS://Example.org:8443?q=1#top".
Definition endpoint_demo : endpoint :=
  mkEndpoint (lit "example.org") (lit "example.org:8443") (lit "/?q=1") 8443 true.

Lemma url_demo_parses : parse_url url_demo = Ok endpoint_demo.
Proof. vm_compute. reflexivity. Qed.

Lemma parse_url_sound_witness : is_safe_target (ep_target endpoint_demo) = true.
Proof. exact (proj1 (proj2 (parse_url_sound url_demo endpoint_demo url_demo_parses))). Defined.

Lemma parse_print_url_witness : parse_url (lit "https://example.org:8443/?q=1") = Ok endpoint_demo.
Proof.
  apply (parse_print_url endpoint_demo); [|vm_compute; discriminate].
  split; [discriminate|reflexivity|split; discriminate|vm_compute; reflexivity|reflexivity|reflexivity].
Defined.

Definition request_demo : client_request := mkClientRequest (lit "PUT") url_demo [(lit "X", lit "1")] (lit "hi") true.

Lemma serialize_read_witness :
  ∃ text, serialize request_demo endpoint_demo = Ok text ∧ cr_method request_demo ≠ lit "CONNECT".
Proof.
  destruct (serialize request_demo endpoint_demo) as [text|x] eqn:Ht; [|vm_compute in Ht; discriminate Ht].
  exists text. split; [reflexivity|]. exact (proj2 (proj2 (serialize_read request_demo endpoint_demo text Ht))).
Defined.
