(* ===== verification/Middleware.v ===== *)
(** * Middleware: chains of middlewares around a handler

    [src/Web/src/middleware.h].  A middleware is a coroutine that is given the request and a
    move-only [next_fn]: it works on the request and the world, calls [next] (and awaits
    the task it returns), moves the object, and ends with a response or an exception.  It
    is the tree of these actions, so that every middleware is covered, well behaved or not.
    A handler is what it answers and does to the world. *)

From S2P Require Import Prelude HttpMsg.
From stdpp Require Import options.

(** [next_fn]: whether [chain_] is not null, and [called_]. *)
Record next_fn : Type := mkNext {
  nx_chain : bool;
  nx_called : bool;
}.

(** The constructor of the chain, and the move constructor: what is left, and the new object. *)
Definition next_new : next_fn := mkNext true false.
Definition next_move (n : next_fn) : next_fn * next_fn := (mkNext false true, n).

(** [next_fn::operator()] up to the task it returns. *)
Definition next_call (n : next_fn) : res next_fn :=
  if negb (nx_chain n) || nx_called n then Throw LogicError else Ok (mkNext (nx_chain n) true).

(** The body of a middleware; the objects of type [next_fn] it has are numbered in the
    order in which they came to be. *)
Inductive middleware (W : Type) : Type :=
  | MwReturn (r : res http_response)
  | MwStep (f : http_request → W → http_request * W) (k : http_request → W → middleware W)
  | MwMove (i : nat) (m : middleware W)
  | MwNext (i : nat) (k : res http_response → middleware W).
Arguments MwReturn {W}. Arguments MwStep {W}. Arguments MwMove {W}. Arguments MwNext {W}.

(** What a request comes to: the route handler, or a whole chain. *)
Definition terminal (W : Type) : Type := http_request → W → res http_response * http_request * W.

Section chain.
Context {W : Type}.
Implicit Types (m : middleware W) (ms : list (middleware W)) (t : terminal W) (ns : list next_fn) (w : W).

Fixpoint run_middleware (inner : terminal W) m ns (rq : http_request) w : res http_response * http_request * W :=
  match m with
  | MwReturn r => (r, rq, w)
  | MwStep f k => let '(rq, w) := f rq w in run_middleware inner (k rq w) ns rq w
  | MwMove i m =>
      match ns !! i with
      | Some n => let '(n, n') := next_move n in run_middleware inner m (<[i := n]> ns ++ [n']) rq w
      | None => run_middleware inner m ns rq w
      end
  | MwNext i k =>
      match next_call (default (mkNext false true) (ns !! i)) with
      | Throw e => run_middleware inner (k (Throw e)) ns rq w
      | Ok n =>
          let '(r, rq, w) := inner rq w in
          run_middleware inner (k r) (<[i := n]> ns) rq w
      end
  end.

(** [middleware_chain::run] from the layer at the head on. *)
Fixpoint chain_run ms t : terminal W :=
  match ms with
  | [] => t
  | m :: ms => λ rq w, run_middleware (chain_run ms t) m [next_new] rq w
  end.
End chain.

(** ** At most once *)

(** The same middleware in a world that also counts. *)
Fixpoint mw_lift {W} (m : middleware W) : middleware (W * nat) :=
  match m with
  | MwReturn r => MwReturn r
  | MwStep f k => MwStep (λ rq wn, let '(rq, w) := f rq wn.1 in (rq, (w, wn.2))) (λ rq wn, mw_lift (k rq wn.1))
  | MwMove i m => MwMove i (mw_lift m)
  | MwNext i k => MwNext i (λ r, mw_lift (k r))
  end.

(** The terminal, counted. *)
Definition counted {W} (t : terminal W) : terminal (W * nat) :=
  λ rq wn, let '(r, rq, w) := t rq wn.1 in (r, rq, (w, S wn.2)).

Definition callable (n : next_fn) : bool := nx_chain n && negb (nx_called n).
Definition rights (ns : list next_fn) : nat := length (filter (λ n, callable n = true) ns).

Lemma rights_insert ns i n n' :
  ns !! i = Some n → rights (<[i := n']> ns) + (if callable n then 1 else 0) = rights ns + (if callable n' then 1 else 0).
Proof.
  intros Hi. rewrite <- (take_drop_middle ns i n Hi) at 2. rewrite insert_take_drop by by eapply lookup_lt_Some.
  unfold rights. rewrite !filter_app, !length_app, !filter_cons. destruct (callable n), (callable n'); simpl; lia.
Qed.

Lemma rights_app ns ns' : rights (ns ++ ns') = rights ns + rights ns'.
Proof. unfold rights. by rewrite filter_app, length_app. Qed.

Lemma run_middleware_count {W} (inner : terminal (W * nat)) (m : middleware W) ns rq w n :
  (∀ rq w n, (inner rq (w, n)).2.2 ≤ S n) →
  (run_middleware inner (mw_lift m) ns rq (w, n)).2.2 ≤ n + rights ns.
Proof.
  intros Hin. revert ns rq w n. induction m as [r|f k IH|i m IH|i k IH]; intros ns rq w n; cbn [mw_lift run_middleware].
  - simpl. lia.
  - simpl. destruct (f rq w) as [rq1 w1]. apply IH.
  - destruct (ns !! i) as [x|] eqn:Hi; [|apply IH]. destruct (next_move x) as [x0 x1] eqn:Hm. etrans; [apply IH|].
    injection Hm as <- <-. rewrite rights_app. pose proof (rights_insert ns i x (mkNext false true) Hi) as Hr.
    unfold rights at 2. rewrite filter_cons, filter_nil. change (callable (mkNext false true)) with false in Hr.
    destruct (callable x); simpl in *; lia.
  - destruct (ns !! i) as [x|] eqn:Hi; simpl; [|apply IH]. unfold next_call. destruct (negb (nx_chain x) || nx_called x) eqn:Hc; [apply IH|].
    specialize (Hin rq w n). destruct (inner rq (w, n)) as [[r rq1] [w1 n1]]. simpl in Hin. etrans; [apply IH|].
    pose proof (rights_insert ns i x (mkNext (nx_chain x) true) Hi) as Hr. apply orb_false_iff in Hc as [Hc1 Hc2].
    bool_to_prop. assert (callable x = true) as Hcx by (unfold callable; by rewrite Hc1, Hc2).
    assert (callable (mkNext (nx_chain x) true) = false) as Hcn by (unfold callable; by rewrite andb_false_r).
    rewrite Hcx, Hcn in Hr. simpl in *. lia.
Qed.

(** Counting changes nothing else. *)
Lemma run_middleware_lift {W} (inner : terminal W) inner' (m : middleware W) ns rq w n :
  (∀ rq w n, ((inner' rq (w, n)).1, (inner' rq (w, n)).2.1) = inner rq w) →
  let '(r, rq', wn) := run_middleware inner' (mw_lift m) ns rq (w, n) in
  run_middleware inner m ns rq w = (r, rq', wn.1).
Proof.
  intros Hin. revert ns rq w n. induction m as [r|f k IH|i m IH|i k IH]; intros ns rq w n; cbn [mw_lift run_middleware].
  - done.
  - simpl. destruct (f rq w) as [rq1 w1]. apply (IH rq1 w1).
  - destruct (ns !! i) as [x|]; [|apply IH]. destruct (next_move x). apply IH.
  - destruct (next_call _) as [x|e]; [|apply IH]. rewrite <- (Hin rq w n). destruct (inner' rq (w, n)) as [[r rq1] [w1 n1]]. apply IH.
Qed.

Lemma chain_count {W} (ms : list (middleware W)) (t : terminal W) rq w n :
  (chain_run (mw_lift <$> ms) (counted t) rq (w, n)).2.2 ≤ S n.
Proof.
  revert rq w n. induction ms as [|m ms IH]; intros rq w n; cbn [fmap list_fmap chain_run].
  - unfold counted. simpl. by destruct (t rq w) as [[? ?] ?].
  - etrans; [by apply (run_middleware_count _ m)|]. unfold rights. simpl. lia.
Qed.

Lemma chain_lift {W} (ms : list (middleware W)) (t : terminal W) rq w n :
  ((chain_run (mw_lift <$> ms) (counted t) rq (w, n)).1, (chain_run (mw_lift <$> ms) (counted t) rq (w, n)).2.1) =
  chain_run ms t rq w.
Proof.
  revert rq w n. induction ms as [|m ms IH]; intros rq w n; cbn [fmap list_fmap chain_run].
  - unfold counted. simpl. by destruct (t rq w) as [[? ?] ?].
  - pose proof (run_middleware_lift _ _ m [next_new] rq w n IH) as Hl.
    by destruct (run_middleware _ (mw_lift m) _ _ _) as [[r rq1] wn].
Qed.

(** Whatever the middlewares of a chain do with their [next] (call it again, move it, keep
    it), the handler behind the chain runs at most once for a request: counting its runs
    does not change the answer and never counts two. *)
Theorem chain_at_most_once {W} (ms : list (middleware W)) (t : terminal W) rq w :
  let counting := chain_run (mw_lift <$> ms) (counted t) rq (w, 0) in
  (counting.1, counting.2.1) = chain_run ms t rq w ∧ counting.2.2 ≤ 1.
Proof. split; [apply chain_lift|apply chain_count]. Qed.

(** ** The onion *)

Inductive layer_event : Type :=
  | Enter (i : nat)
  | Handle
  | Leave (i : nat).

(** A middleware that notes when it is entered and left, and calls [next] in between. *)
Definition noting (i : nat) : middleware (list layer_event) :=
  MwStep (λ rq w, (rq, w ++ [Enter i])) (λ _ _,
    MwNext 0 (λ r, MwStep (λ rq w, (rq, w ++ [Leave i])) (λ _ _, MwReturn r))).

(** The chain nests: the first middleware is entered first and left last. *)
Theorem chain_onion ids resp rq w :
  chain_run (noting <$> ids) (λ rq w, (resp, rq, w ++ [Handle])) rq w =
    (resp, rq, w ++ (Enter <$> ids) ++ [Handle] ++ (Leave <$> reverse ids)).
Proof.
  revert w. induction ids as [|i ids IH]; intros w; [done|].
  change (chain_run (noting <$> i :: ids) (λ rq w, (resp, rq, w ++ [Handle])) rq w)
    with (run_middleware (chain_run (noting <$> ids) (λ rq w, (resp, rq, w ++ [Handle]))) (noting i) [next_new] rq w).
  unfold noting at 2. simpl. rewrite IH. simpl. rewrite reverse_cons, fmap_app. simpl. by rewrite <- !app_assoc.
Qed.
