(* ===== verification/RadixShape.v ===== *)
(** * RadixShape: the shape of a route table does not depend on its values

    Validation and insertion in [radix_router] (file [Radix]) look at the segments and names of
    a tree, never at the values it holds.  So a table can be tried out on a copy of its shape,
    which is what [router::include] does, and the shape is rebuilt by inserting the patterns
    of the log again. *)

From S2P Require Import Prelude Radix.
From Stdlib Require Import Ascii.
From stdpp Require Import options.

Fixpoint node_map {V U} (f : V → U) (n : node V) : node U :=
  match n with
  | Node s p w m v =>
      Node (map (λ kc, (kc.1, node_map f kc.2)) s)
        (match p with Some p => Some (node_map f p) | None => None end)
        (match w with Some w => Some (node_map f w) | None => None end) m (f <$> v)
  end.

Definition router_map {V U} (f : V → U) (r : router V) : router U :=
  mkRouter (node_map f (rr_root r)) (rr_count r) (rr_log r).

Section shape.
Context {V U : Type} (f : V → U).
Implicit Types (n c : node V) (l : list (str * node V)) (r : router V).

Abbreviation nm := (node_map f).
Abbreviation lm := (map (λ kc, (kc.1, node_map f kc.2))).

Lemma nm_statics n : nd_statics (nm n) = lm (nd_statics n).
Proof. by destruct n. Qed.
Lemma nm_param n : nd_param (nm n) = nm <$> nd_param n.
Proof. by destruct n as [? [|] ? ? ?]. Qed.
Lemma nm_wild n : nd_wild (nm n) = nm <$> nd_wild n.
Proof. by destruct n as [? ? [|] ? ?]. Qed.
Lemma nm_name n : nd_name (nm n) = nd_name n.
Proof. by destruct n. Qed.
Lemma nm_value n : nd_value (nm n) = f <$> nd_value n.
Proof. by destruct n. Qed.
Lemma nm_new name : nm (new_node name) = new_node name.
Proof. done. Qed.
Lemma nm_set_value v n : nm (nd_set_value v n) = nd_set_value (f <$> v) (nm n).
Proof. by destruct n. Qed.
Lemma nm_set_param p n : nm (nd_set_param (Some p) n) = nd_set_param (Some (nm p)) (nm n).
Proof. by destruct n. Qed.
Lemma nm_set_wild w n : nm (nd_set_wild (Some w) n) = nd_set_wild (Some (nm w)) (nm n).
Proof. by destruct n. Qed.
Lemma nm_set_statics l n : nm (nd_set_statics l n) = nd_set_statics (lm l) (nm n).
Proof. by destruct n. Qed.

Lemma lm_lower_bound l seg : lower_bound_child (lm l) seg = lower_bound_child l seg.
Proof. induction l as [|[k c] l IH]; simpl; [done|]. by rewrite IH. Qed.
Lemma lm_linear l seg : linear_child (lm l) seg = linear_child l seg.
Proof. induction l as [|[k c] l IH]; simpl; [done|]. by rewrite IH. Qed.
Lemma lm_lookup l i : lm l !! i = (λ kc, (kc.1, nm kc.2)) <$> l !! i.
Proof. apply list_lookup_fmap. Qed.

Lemma lm_index l seg : child_index (lm l) seg = child_index l seg.
Proof.
  unfold child_index. rewrite length_map, lm_linear, lm_lower_bound, lm_lookup.
  destruct (decide _); [done|]. by destruct (l !! _) as [[k c]|].
Qed.

Lemma lm_find l seg : find_child (lm l) seg = nm <$> find_child l seg.
Proof.
  unfold find_child. rewrite lm_index. destruct (child_index l seg) as [i|]; [|done]. rewrite lm_lookup.
  by destruct (l !! i) as [[k c]|].
Qed.

Lemma lm_update l seg g g' :
  (∀ c, nm (g c) = g' (nm c)) → lm (update_child l seg g) = update_child (lm l) seg g'.
Proof.
  intros Hg. unfold update_child. rewrite lm_index, lm_lower_bound. destruct (child_index l seg) as [i|].
  - apply list_eq. intros j. rewrite lm_lookup. destruct (decide (i = j)) as [->|Hne].
    + rewrite !list_lookup_alter_eq, lm_lookup. destruct (l !! j) as [[k c]|]; simpl; [by rewrite Hg|done].
    + rewrite !list_lookup_alter_ne, lm_lookup by done. done.
  - rewrite map_app. cbn [map fst snd]. by rewrite <- firstn_map, <- skipn_map, Hg, nm_new.
Qed.

Lemma validate_map fuel n rest : validate_loop fuel (nm n) rest = validate_loop fuel n rest.
Proof.
  revert n rest. induction fuel as [|fuel IH]; intros n rest; [done|]. cbn [validate_loop].
  destruct (next_segment rest) as [seg remaining]. rewrite nm_wild, nm_param, nm_statics, lm_find.
  destruct (bool_decide (seg = [])); [done|]. destruct (starts star seg).
  { destruct (nd_wild n) as [w|]; simpl; [by rewrite nm_name|done]. }
  destruct (starts colon seg).
  - destruct (nd_param n) as [p|]; simpl; [by rewrite nm_name, IH|done].
  - destruct (find_child (nd_statics n) seg) as [c|]; simpl; [by rewrite IH|done].
Qed.

Lemma insert_map fuel v n rest : nm (insert_loop fuel v n rest) = insert_loop fuel (f v) (nm n) rest.
Proof.
  revert n rest. induction fuel as [|fuel IH]; intros n rest; [done|]. cbn [insert_loop].
  destruct (next_segment rest) as [seg remaining]. rewrite nm_wild, nm_param, nm_statics.
  destruct (bool_decide (seg = [])); [apply nm_set_value|].
  assert (∀ c, nm (if bool_decide (remaining = []) then nd_set_value (Some v) c else insert_loop fuel v c remaining) =
    (if bool_decide (remaining = []) then nd_set_value (Some (f v)) (nm c) else insert_loop fuel (f v) (nm c) remaining)) as Hgo.
  { intros c. destruct (bool_decide (remaining = [])); [apply nm_set_value|apply IH]. }
  destruct (starts star seg).
  { rewrite nm_set_wild, nm_set_value. by destruct (nd_wild n). }
  destruct (starts colon seg).
  - rewrite nm_set_param, Hgo. by destruct (nd_param n).
  - rewrite nm_set_statics. f_equal. by apply lm_update.
Qed.

Lemma find_exact_map fuel n rest : find_exact_loop fuel (nm n) rest = f <$> find_exact_loop fuel n rest.
Proof.
  revert n rest. induction fuel as [|fuel IH]; intros n rest; [done|]. cbn [find_exact_loop].
  destruct (next_segment rest) as [seg remaining]. rewrite nm_wild, nm_param, nm_statics, lm_find.
  destruct (bool_decide (seg = [])); [apply nm_value|].
  assert (∀ c, (if bool_decide (remaining = []) then nd_value (nm c) else find_exact_loop fuel (nm c) remaining) =
    f <$> (if bool_decide (remaining = []) then nd_value c else find_exact_loop fuel c remaining)) as Hgo.
  { intros c. destruct (bool_decide (remaining = [])); [apply nm_value|apply IH]. }
  destruct (starts colon seg).
  { destruct (nd_param n) as [p|]; simpl; [|done]. rewrite nm_name. case_decide; [apply Hgo|done]. }
  destruct (starts star seg).
  { destruct (nd_wild n) as [p|]; simpl; [|done]. rewrite nm_name. case_decide; [apply Hgo|done]. }
  destruct (find_child (nd_statics n) seg); simpl; [apply Hgo|done].
Qed.

(** Inserting commutes with forgetting values. *)
Lemma router_insert_map p v r :
  router_insert p (f v) (router_map f r) = ((router_insert p v r).1, router_map f (router_insert p v r).2).
Proof.
  unfold router_insert, validate. destruct (negb (pattern_shape p)); [done|]. cbv zeta. simpl rr_root. rewrite validate_map.
  destruct (negb (validate_loop _ _ _)); [done|]. rewrite find_exact_map, <- insert_map.
  unfold router_map. cbn [rr_root rr_count rr_log fst snd]. by destruct (find_exact_loop _ _ _).
Qed.

Lemma router_find_map p r : find_exact (router_map f r) p = f <$> find_exact r p.
Proof.
  unfold find_exact. destruct (negb _); [done|]. cbv zeta. destruct (negb _); [done|]. apply find_exact_map.
Qed.
End shape.

(** ** The log rebuilds the shape *)

Lemma update_child_same {V} (l : list (str * node V)) s c g :
  find_child l s = Some c → g c = c → update_child l s g = l.
Proof.
  unfold find_child, update_child. destruct (child_index l s) as [i|]; [|done]. intros Hc Hg.
  apply list_eq. intros j. destruct (decide (i = j)) as [->|Hne]; [|by rewrite list_lookup_alter_ne].
  rewrite list_lookup_alter_eq. destruct (l !! j) as [[k d]|]; simpl in *; [|done]. simplify_eq. by rewrite Hg.
Qed.

(** Setting a value that is there already changes nothing. *)
Lemma ins_items_same {V} (v : V) cur its : wild_last its → find_items cur its = Some v → ins_items v cur its = cur.
Proof.
  revert cur. induction its as [|[s|m|m] its IH]; intros [st pa wi na va] Hwl; simpl.
  - intros ->. done.
  - destruct (find_child st s) as [c|] eqn:Hc; [|done]. intros Hf. unfold nd_set_statics. simpl.
    by rewrite (update_child_same _ _ c) by auto.
  - destruct pa as [p|]; [|done]. case_decide; [|done]. intros Hf. unfold nd_set_param. simpl. by rewrite IH.
  - simpl in Hwl. subst its. destruct wi as [w|]; [|done]. case_decide; [|done]. simpl.
    intros Hv. unfold nd_set_wild. simpl. destruct w; simpl in *. by subst.
Qed.

Lemma has_double_slash_take k p : has_double_slash p = false → has_double_slash (take k p) = false.
Proof.
  revert k. induction p as [|c [|d p] IH]; intros k Hp; [by destruct k|by destruct k as [|[|k]]|].
  simpl in Hp. apply orb_false_iff in Hp as [Hc Hp]. destruct k as [|[|k]]; [done|done|].
  specialize (IH (S k) Hp). simpl in *. by rewrite Hc.
Qed.

Lemma double_slash_end p : has_double_slash (p ++ [slash; slash]) = true.
Proof.
  induction p as [|c p IH]; [done|]. simpl. destruct (p ++ [slash; slash]) as [|d q] eqn:Hq; [by destruct p|].
  by rewrite IH, orb_true_r.
Qed.

Lemma trim_slash_idem p : pattern_shape p = true → pattern_shape (trim_slash p) = true ∧ trim_slash (trim_slash p) = trim_slash p.
Proof.
  intros Hs. destruct (bool_decide (1 < length p) && bool_decide (last p = Some slash)) eqn:Ht.
  2:{ assert (trim_slash p = p) as Hx by (unfold trim_slash; by rewrite Ht). by rewrite !Hx. }
  assert (trim_slash p = take (length p - 1) p) as Hx by (unfold trim_slash; by rewrite Ht). bool_to_prop.
  match goal with Hl : last p = _ |- _ => apply last_Some in Hl as [q Hq] end.
  assert (trim_slash p = q) as Hx'.
  { rewrite Hx, Hq, length_app. simpl. replace (length q + 1 - 1) with (length q) by lia. by rewrite take_app_length. }
  rewrite Hx'. subst p. rewrite length_app in *. simpl in *. unfold pattern_shape in *. bool_to_prop.
  assert (has_double_slash q = false) as Hd.
  { rewrite <- (take_app_length q [slash]). by apply has_double_slash_take. }
  destruct q as [|c q]; [simpl in *; lia|]. simpl in *. split; [by rewrite bool_decide_eq_true_2, Hd|].
  unfold trim_slash. destruct (decide (last (c :: q) = Some slash)) as [Hl|Hl]; [|by rewrite (bool_decide_eq_false_2 _ Hl), andb_false_r].
  exfalso. apply last_Some in Hl as [q' Hq']. assert (has_double_slash ((c :: q) ++ [slash]) = true); [|simpl in *; congruence].
  rewrite Hq', <- app_assoc. apply double_slash_end.
Qed.

Lemma router_insert_trim {V} p (v : V) r : pattern_shape p = true → router_insert (trim_slash p) v r = router_insert p v r.
Proof. intros Hs. destruct (trim_slash_idem p Hs) as [Hs' Ht]. unfold router_insert. by rewrite Hs, Hs', Ht. Qed.

(** An insertion of a route that exists, with the value it has. *)
Lemma router_insert_same {V} p (v : V) r :
  (router_insert p v r).1 = true → find_exact_loop (S (length (trim_slash p))) (rr_root r) (trim_slash p) = Some v →
  (router_insert p v r).2 = r.
Proof.
  unfold router_insert. destruct (negb (pattern_shape p)); [done|]. cbv zeta.
  destruct (validate (rr_root r) (trim_slash p)) eqn:Hv; [|done]. simpl negb. cbv iota. intros _ Hf.
  destruct (validate_loop_spec _ _ _ Hv ltac:(lia)) as [_ Hw]. rewrite Hf. rewrite bool_decide_eq_false_2 by done.
  rewrite find_exact_loop_items in Hf by lia. rewrite insert_loop_items by lia. rewrite ins_items_same by done. by destruct r.
Qed.

(** Inserting a list of patterns, until one is refused. *)
Fixpoint insert_all (ps : list str) (r : router bool) : option (router bool) :=
  match ps with
  | [] => Some r
  | p :: ps => match router_insert p true r with (true, r) => insert_all ps r | (false, _) => None end
  end.

Lemma insert_all_app ps qs r :
  insert_all (ps ++ qs) r = match insert_all ps r with Some r => insert_all qs r | None => None end.
Proof. revert r. induction ps as [|p ps IH]; intros r; [done|]. simpl. by destruct (router_insert p true r) as [[] r']. Qed.

Inductive built {V} : router V → Prop :=
  | BuiltInit : built router_init
  | BuiltInsert p v r : built r → built (router_insert p v r).2.

Definition shape {V} (r : router V) : router bool := router_map (λ _, true) r.

Lemma shape_insert {V} p (v : V) r :
  router_insert p true (shape r) = ((router_insert p v r).1, shape (router_insert p v r).2).
Proof. apply (router_insert_map (λ _, true)). Qed.

(** Inserting the patterns of its log again, in order, gives the shape of a table. *)
Theorem router_replay {V} (r : router V) : built r → insert_all (rr_log r) router_init = Some (shape r).
Proof.
  induction 1 as [|p v r Hb IH]; [done|]. pose proof (shape_insert p v r) as Hs.
  destruct (router_insert p v r) as [b r'] eqn:Hr. simpl in *. destruct b; [|by unfold router_insert in Hr; case_all].
  assert (pattern_shape p = true) as Hp by (unfold router_insert in Hr; by destruct (pattern_shape p)).
  destruct (find_exact_loop (S (length (trim_slash p))) (rr_root r) (trim_slash p)) as [x|] eqn:Hf.
  - assert (rr_log r' = rr_log r) as ->.
    { unfold router_insert in Hr. rewrite Hp in Hr. cbv zeta in Hr. rewrite Hf in Hr.
      by destruct (validate _ _); simplify_eq/=. }
    rewrite IH. pose proof (router_insert_same p true (shape r)) as Hsame. rewrite Hs in Hsame. cbn [fst snd] in Hsame.
    rewrite Hsame; [done|done|].
    change (rr_root (shape r)) with (node_map (λ _ : V, true) (rr_root r)). by rewrite find_exact_map, Hf.
  - assert (rr_log r' = rr_log r ++ [trim_slash p]) as ->.
    { unfold router_insert in Hr. rewrite Hp in Hr. cbv zeta in Hr. rewrite Hf in Hr.
      by destruct (validate _ _); simplify_eq/=. }
    rewrite insert_all_app, IH. cbn [insert_all]. by rewrite router_insert_trim, Hs.
Qed.
