(* ===== verification/WebRouter.v ===== *)
(** * WebRouter: dispatching HTTP requests ([router] of the web framework)

    [src/Web/src/router.h], over the route tables of [Radix] (one per method) and the chains
    of [Middleware].  The table of tables is an [unordered_map] in the code: the order in which
    it is walked is that of [map_to_list] here, and no theorem depends on it.  The file
    system is a record of functions. *)

From S2P Require Import Prelude HttpMsg Middleware Radix RadixShape.
From Stdlib Require Import Ascii.
From stdpp Require Import options.
#[local] Set Default Proof Using "Type*".

(** ** Paths of static files *)

(** [std::replace] of the backslashes. *)
Definition normalize_slashes (s : str) : str := (λ c, if decide (c = "\"%char) then slash else c) <$> s.

Fixpoint has_encoded_dot (s : str) : bool :=
  match s with
  | [] => false
  | c :: s' =>
      match s' with
      | d :: e :: _ =>
          (bool_decide (c = "%"%char) && bool_decide (d = "2"%char) && (bool_decide (e = "e"%char) || bool_decide (e = "E"%char)))
          || has_encoded_dot s'
      | _ => false
      end
  end.

Definition dotdot : str := lit "..".

(** The loop over the segments, with the segment read so far. *)
Fixpoint segments_ok (s segment : str) : bool :=
  match s with
  | [] => negb (bool_decide (segment = dotdot))
  | c :: s =>
      if decide (c = slash) then if bool_decide (segment = dotdot) then false else segments_ok s []
      else segments_ok s (segment ++ [c])
  end.

Definition is_drive (s : str) : bool :=
  match s with a :: b :: _ => is_alpha a && bool_decide (b = ":"%char) | _ => false end.

Definition is_safe_path (rel : str) : bool :=
  if bool_decide (chr_NUL ∈ rel) then false
  else
    let normalized := normalize_slashes rel in
    if bool_decide (head normalized = Some slash) then false
    else if is_drive normalized then false
    else if has_encoded_dot normalized then false
    else segments_ok normalized [].

(** What the router asks of the file system; [None] is an exception or an error. *)
Record file_system (W : Type) : Type := mkFS {
  fs_canonical : str → W → option str;         (* [weakly_canonical] *)
  fs_relative : str → str → W → option str;    (* [relative] and [generic_string] *)
  fs_read_all : str → W → option str * W;      (* [coro::fs::read_all] and [last_error] *)
}.
Arguments fs_canonical {W}. Arguments fs_relative {W}. Arguments fs_read_all {W}.

Record static_mount : Type := mkMount {
  sm_mount : str;
  sm_dir : str;
  sm_base : str;
}.

Section web_router.
Context {W : Type}.
Variable fs : file_system W.

(** A handler answers a request that it does not change. *)
Definition handler : Type := http_request → W → res http_response * W.
Implicit Types (fn : handler) (mws : list (middleware W)) (rq : http_request) (w : W).

Record route_entry : Type := mkEntry {
  re_handler : handler;
  re_middlewares : list (middleware W);
}.

(** The members of [router]. *)
Record web_router : Type := mkWebRouter {
  wr_trees : gmap str (router route_entry);
  wr_static_dirs : list static_mount;
  wr_middlewares : list (middleware W);
  wr_frozen : bool;
}.
Implicit Types (r sub : web_router).

Definition wr_init : web_router := mkWebRouter ∅ [] [] false.
Definition wr_set_trees t r : web_router := mkWebRouter t (wr_static_dirs r) (wr_middlewares r) (wr_frozen r).

(** ** Registration *)

Definition bad_route_text (path : str) : bool :=
  existsb (λ c, bool_decide (c ∈ lit "?#")) path || bool_decide (chr_NUL ∈ path).

(** [trees_[method]] creates an empty table. *)
Definition tree_of (m : str) r : router route_entry := default router_init (wr_trees r !! m).

(** [fn] may be an empty [std::function]. *)
Definition wr_add (m path : str) (fn : option handler) mws r : res unit * web_router :=
  if wr_frozen r then (Throw LogicError, r)
  else
    match fn with
    | None => (Throw InvalidArgument, r)
    | Some fn =>
        if bool_decide (m = []) || bad_route_text path then (Throw InvalidArgument, r)
        else
          let '(ok, tree) := router_insert path (mkEntry fn mws) (tree_of m r) in
          (if ok then Ok tt else Throw InvalidArgument, wr_set_trees (<[m := tree]> (wr_trees r)) r)
    end.

Definition wr_use (mw : middleware W) r : res unit * web_router :=
  if wr_frozen r then (Throw LogicError, r)
  else (Ok tt, mkWebRouter (wr_trees r) (wr_static_dirs r) (wr_middlewares r ++ [mw]) (wr_frozen r)).

Definition wr_freeze r : web_router := mkWebRouter (wr_trees r) (wr_static_dirs r) (wr_middlewares r) true.

(** The loop that drops trailing slashes while more than one character is left. *)
Fixpoint drop_slashes (rev : str) : str :=
  match rev with
  | c :: ((_ :: _) as tl) => if decide (c = slash) then drop_slashes tl else rev
  | _ => rev
  end.
Definition normalize_mount (mount : str) : str :=
  let m := reverse (drop_slashes (reverse (if decide (mount = []) then [slash] else mount))) in
  if decide (head m = Some slash) then m else slash :: m.

Definition wr_static_dir (mount dir : str) (w : W) r : res unit * web_router :=
  if wr_frozen r then (Throw LogicError, r)
  else
    let entry := mkMount (normalize_mount mount) dir (default [] (fs_canonical fs dir w)) in
    (Ok tt, mkWebRouter (wr_trees r) (wr_static_dirs r ++ [entry]) (wr_middlewares r) (wr_frozen r)).

(** [include]: the prefix, the routes checked on shapes, then the registrations. *)
Definition normalize_prefix (prefix : str) : str :=
  let norm := if decide (prefix = [] ∨ head prefix = Some slash) then prefix else slash :: prefix in
  if decide (last norm = Some slash) then take (length norm - 1) norm else norm.

Record pending_route : Type := mkPending {
  pd_method : str;
  pd_path : str;
  pd_entry : route_entry;
}.

Fixpoint include_patterns sub (m norm : str) (tree : router route_entry) (ps : list str) (validation : router bool) :
    res (list pending_route) :=
  match ps with
  | [] => Ok []
  | p :: ps =>
      match find_exact tree p with
      | None => Throw LogicError
      | Some e =>
          match router_insert (norm ++ p) true validation with
          | (false, _) => Throw InvalidArgument
          | (true, validation) =>
              match include_patterns sub m norm tree ps validation with
              | Throw x => Throw x
              | Ok l => Ok (mkPending m (norm ++ p) (mkEntry (re_handler e) (wr_middlewares sub ++ re_middlewares e)) :: l)
              end
          end
      end
  end.

Fixpoint include_trees sub (norm : str) (ts : list (str * router route_entry)) r : res (list pending_route) :=
  match ts with
  | [] => Ok []
  | (m, tree) :: ts =>
      match insert_all (match wr_trees r !! m with Some t => rr_log t | None => [] end) router_init with
      | None => Throw LogicError
      | Some validation =>
          match include_patterns sub m norm tree (rr_log tree) validation with
          | Throw x => Throw x
          | Ok l => match include_trees sub norm ts r with Throw x => Throw x | Ok l' => Ok (l ++ l') end
          end
      end
  end.

Fixpoint add_pending (l : list pending_route) r : res unit * web_router :=
  match l with
  | [] => (Ok tt, r)
  | p :: l =>
      match wr_add (pd_method p) (pd_path p) (Some (re_handler (pd_entry p))) (re_middlewares (pd_entry p)) r with
      | (Throw x, r) => (Throw x, r)
      | (Ok _, r) => add_pending l r
      end
  end.

Definition bad_prefix (prefix : str) : bool :=
  bad_route_text prefix || has_double_slash prefix ||
  (let norm := normalize_prefix prefix in
   negb (bool_decide (norm = [])) &&
   (bool_decide (star ∈ norm) || negb (router_insert norm true (router_init (V := bool))).1)).

(** [self] says that the two are the same object. *)
Definition wr_include (self : bool) sub (prefix : str) r : res unit * web_router :=
  if wr_frozen r then (Throw LogicError, r)
  else if self then (Throw InvalidArgument, r)
  else if bad_prefix prefix then (Throw InvalidArgument, r)
  else
    match include_trees sub (normalize_prefix prefix) (map_to_list (wr_trees sub)) r with
    | Throw x => (Throw x, r)
    | Ok l => add_pending l r
    end.

(** ** Dispatch *)

Definition rq_set_params (ps : list (str * str)) rq : http_request :=
  mkRequest (rq_method rq) (rq_url rq) (rq_version rq) (rq_body rq) (rq_headers rq) (rq_keep_alive rq) ps.

(** The handler at the end of a chain. *)
Definition handler_terminal fn : terminal W := λ rq w, let '(o, w) := fn rq w in (o, rq, w).

(** A route that matched: its captures, then its middlewares and its handler. *)
Definition run_entry (e : route_entry) (caps : list (str * str)) : terminal W := λ rq w,
  let rq := rq_set_params (rq_params rq ++ caps) rq in
  match re_middlewares e with
  | [] => handler_terminal (re_handler e) rq w
  | mws => chain_run mws (handler_terminal (re_handler e)) rq w
  end.

Definition lookup_tree (m path : str) r : option (route_entry * list (str * str)) :=
  match wr_trees r !! m with
  | None => None
  | Some tree =>
      match router_lookup tree path pv_new with
      | (Some e, caps) => Some (e, pv_list caps)
      | (None, _) => None
      end
  end.

(** The methods other than [m] whose table has the path. *)
Definition allowed_methods (m path : str) r : list str :=
  filter (λ m', m' ≠ m ∧ is_Some (lookup_tree m' path r)) (map_to_list (wr_trees r)).*1.

Fixpoint join_methods (ms : list str) : str :=
  match ms with
  | [] => []
  | [m] => m
  | m :: ms => m ++ lit ", " ++ join_methods ms
  end.

Definition rs_allow (allow : str) (p : http_response) : http_response := rs_header (lit "Allow") allow false p.

Definition mount_matches (mpath path : str) : bool :=
  bool_decide (path = mpath) ||
  (bool_decide (length mpath < length path) && starts_with mpath path && bool_decide (path !! length mpath = Some slash)).

(** One mount point that matches: the answer without a file, or the file to read. *)
Definition static_decide (sm : static_mount) rq w : http_response + str :=
  if bool_decide (rq_method rq ≠ lit "GET") && bool_decide (rq_method rq ≠ lit "HEAD") then
    inl (rs_allow (lit "GET, HEAD, OPTIONS")
           (if decide (rq_method rq = lit "OPTIONS") then rs_text [] 200 else rs_error 405 (lit "method not allowed")))
  else
    let rel := drop (length (sm_mount sm)) (rq_path rq) in
    let rel := if decide (rel = []) then [slash] else rel in
    let rel_trim := if decide (head rel = Some slash) then tail rel else rel in
    if negb (bool_decide (rel_trim = [])) && negb (is_safe_path rel_trim) then inl (rs_error 403 (lit "forbidden"))
    else
      let missing := rs_error 404 (lit "file not found: " ++ rel_trim) in
      match fs_canonical fs (sm_dir sm ++ [slash] ++ rel_trim) w with
      | None => inl missing
      | Some candidate =>
          match fs_relative fs candidate (sm_base sm) w with
          | None => inl missing
          | Some rel =>
              if decide (rel = [] ∨ rel = lit ".") then inl (rs_error 404 (lit "not found"))
              else if bool_decide (rel = dotdot) || starts_with (lit "../") rel then inl (rs_error 403 (lit "forbidden"))
              else inr candidate
          end
      end.

Definition static_serve (sm : static_mount) : terminal W := λ rq w,
  match static_decide sm rq w with
  | inl p => (Ok p, rq, w)
  | inr path =>
      match fs_read_all fs path w with
      | (None, w) =>
          let rel := drop (length (sm_mount sm)) (rq_path rq) in
          (Ok (rs_error 404 (lit "file not found: " ++ (if decide (head rel = Some slash) then tail rel else rel))), rq, w)
      | (Some body, w) => (Ok (rs_typed (mime_type path) body 200), rq, w)
      end
  end.

Definition route_core r : terminal W := λ rq w,
  let path := rq_path rq in
  match lookup_tree (rq_method rq) path r with
  | Some (e, caps) => run_entry e caps rq w
  | None =>
      match (if decide (rq_method rq = lit "HEAD") then lookup_tree (lit "GET") path r else None) with
      | Some (e, caps) => run_entry e caps rq w
      | None =>
          match allowed_methods (rq_method rq) path r with
          | [] =>
              match list_find (λ sm, mount_matches (sm_mount sm) path = true) (wr_static_dirs r) with
              | Some (_, sm) => static_serve sm rq w
              | None => (Ok (rs_error 404 (lit "not found")), rq, w)
              end
          | ms =>
              let allow := join_methods ms in
              if decide (rq_method rq = lit "OPTIONS")
              then (Ok (rs_allow (allow ++ lit ", OPTIONS") (rs_text [] 200)), rq, w)
              else (Ok (rs_allow allow (rs_error 405 (lit "method not allowed"))), rq, w)
          end
      end
  end.

(** [route]: the chain of the global middlewares, when there are any. *)
Definition wr_route r : terminal W :=
  match wr_middlewares r with
  | [] => route_core r
  | mws => chain_run mws (route_core r)
  end.
End web_router.


(** ** Paths that are served stay below the directory *)

(** The segments between separators, with the one read so far. *)
Fixpoint segments (sep : ascii → bool) (s seg : str) : list str :=
  match s with
  | [] => [seg]
  | c :: s => if sep c then seg :: segments sep s [] else segments sep s (seg ++ [c])
  end.

(** The separators of POSIX and of Windows. *)
Definition posix_sep (c : ascii) : bool := bool_decide (c = slash).
Definition windows_sep (c : ascii) : bool := bool_decide (c = slash ∨ c = "\"%char).

(** Walking a path from a directory, which is the list of its segments. *)
Definition walk_step (at_ : list str) (seg : str) : list str :=
  if decide (seg = [] ∨ seg = lit ".") then at_
  else if decide (seg = dotdot) then take (length at_ - 1) at_ else at_ ++ [seg].
Definition walk (at_ : list str) (segs : list str) : list str := foldl walk_step at_ segs.

Definition absolute_path (s : str) : Prop :=
  head s = Some slash ∨ head s = Some "\"%char ∨ is_drive s = true.

(** What [is_safe_path] means: a path that is relative and from no directory leads out of it. *)
Definition stays_below (rel : str) : Prop :=
  ¬ absolute_path rel ∧ chr_NUL ∉ rel ∧
  ∀ sep dir, sep = posix_sep ∨ sep = windows_sep → dir `prefix_of` walk dir (segments sep rel []).

Lemma walk_prefix at_ segs : dotdot ∉ segs → at_ `prefix_of` walk at_ segs.
Proof.
  unfold walk. revert at_. induction segs as [|seg segs IH]; intros at_ Hn; simpl; [done|].
  apply not_elem_of_cons in Hn as [Hd Hn]. transitivity (walk_step at_ seg); [|by apply IH].
  unfold walk_step. rewrite (decide_False (P := seg = dotdot)) by congruence. case_decide; [done|]. by eexists.
Qed.

Lemma segments_coarser (sep sep' : ascii → bool) s acc acc' :
  (∀ c, sep c → sep' c) → Forall (λ c, sep' c = false) dotdot →
  acc' = acc ∨ (∃ c, c ∈ acc ∧ sep' c) → dotdot ∈ segments sep s acc → dotdot ∈ segments sep' s acc'.
Proof.
  intros Hsep Hdd. rewrite Forall_forall in Hdd.
  assert (∀ acc acc' : str, acc' = acc ∨ (∃ c, c ∈ acc ∧ sep' c) → dotdot = acc → dotdot = acc') as Hacc.
  { intros a a' [->|(c & Hc & Hs)] Ha; [done|]. subst a. apply Hdd in Hc. by rewrite Hc in Hs. }
  revert acc acc'. induction s as [|c s IH]; intros acc acc' Ha; simpl.
  { rewrite !list_elem_of_singleton. by apply Hacc. }
  specialize (Hsep c). destruct (sep c) eqn:Hc.
  - destruct (sep' c); [|by destruct Hsep]. rewrite !elem_of_cons. intros [Hd|Hd]; [left; by eapply Hacc|right; apply (IH [] []); auto].
  - intros Hd. destruct (sep' c) eqn:Hc'; [apply elem_of_cons; right|]; (eapply IH; [|exact Hd]).
    + right. exists c. split; [|by rewrite Hc']. apply elem_of_app. right. by apply list_elem_of_singleton.
    + destruct Ha as [->|(d & Hd' & Hs)]; [by left|right]. exists d. split; [|done]. apply elem_of_app. by left.
Qed.

Lemma segments_ok_spec s seg :
  segments_ok (normalize_slashes s) seg = true → dotdot ∉ segments windows_sep s seg.
Proof.
  revert seg. induction s as [|c s IH]; intros seg; simpl.
  { intros Hn%negb_true_iff%bool_decide_eq_false. by intros ?%list_elem_of_singleton. }
  assert ((if bool_decide (seg = dotdot) then false else segments_ok (normalize_slashes s) []) = true →
    dotdot ∉ seg :: segments windows_sep s []) as Hcut.
  { destruct (bool_decide (seg = dotdot)) eqn:Hd; [done|]. apply bool_decide_eq_false in Hd. intros Hs.
    apply not_elem_of_cons. split; [congruence|by apply IH]. }
  destruct (decide (c = "\"%char)) as [->|Hb]; [exact Hcut|].
  destruct (decide (c = slash)) as [->|Hs]; [exact Hcut|].
  replace (windows_sep c) with false by (unfold windows_sep; by rewrite bool_decide_eq_false_2 by tauto). apply IH.
Qed.

Lemma is_drive_normalize s : is_drive s = true → is_drive (normalize_slashes s) = true.
Proof.
  destruct s as [|a [|b s]]; try done. simpl. intros [Ha Hb%bool_decide_eq_true]%andb_true_iff. subst b.
  destruct (decide (a = "\"%char)) as [->|_]; [done|]. by rewrite Ha.
Qed.

Lemma is_safe_path_stays rel : is_safe_path rel = true → stays_below rel.
Proof.
  unfold is_safe_path. destruct (bool_decide (chr_NUL ∈ rel)) eqn:Hnul; [done|]. apply bool_decide_eq_false in Hnul.
  destruct (bool_decide (head _ = _)) eqn:Hh; [done|]. apply bool_decide_eq_false in Hh.
  destruct (is_drive _) eqn:Hdr; [done|]. destruct (has_encoded_dot _); [done|]. intros Hs%segments_ok_spec.
  split_and!; [|done|].
  - intros [Ha|[Ha|Ha%is_drive_normalize]]; [| |congruence]; apply Hh; (destruct rel as [|c rel]; [done|]); simpl in *; simplify_eq; done.
  - intros sep dir Hsep. apply walk_prefix. contradict Hs. destruct Hsep as [-> | ->]; [|done].
    revert Hs. apply segments_coarser; [|by repeat constructor|by left].
    intros c. unfold posix_sep, windows_sep. rewrite !bool_decide_spec. tauto.
Qed.

Lemma stays_below_nil : stays_below [].
Proof.
  split_and!; [by intros [|[|]]|by intros ?%elem_of_nil|]. intros sep dir _. simpl. unfold walk. simpl. done.
Qed.

(** The text of a relative path that leads up and out. *)
Definition leads_up (r : str) : Prop := r = dotdot ∨ ∃ r', r = lit "../" ++ r'.

(** C22 Static files: when a mount point decides to serve a file, the request is a GET or a HEAD,
    the rest of its path is relative, has no NUL and leads out of no directory under the
    separators of POSIX or Windows, the file is the canonical path of the directory and that
    rest, and its canonical path relative to the mounted root is neither that root nor above it. *)
Theorem static_confined {W} (fs : file_system W) sm rq (w : W) path :
  static_decide fs sm rq w = inr path →
  (rq_method rq = lit "GET" ∨ rq_method rq = lit "HEAD") ∧
  ∃ rel below, stays_below rel ∧ fs_canonical fs (sm_dir sm ++ [slash] ++ rel) w = Some path ∧
    fs_relative fs path (sm_base sm) w = Some below ∧ below ≠ [] ∧ below ≠ lit "." ∧ ¬ leads_up below.
Proof.
  unfold static_decide. destruct (_ && _) eqn:Hm; [done|]. cbv zeta. intros Hd. split.
  { apply andb_false_iff in Hm as [Hm|Hm]; apply bool_decide_eq_false, dec_stable in Hm; auto. }
  clear Hm. revert Hd. generalize (if decide (drop (length (sm_mount sm)) (rq_path rq) = []) then [slash] else drop (length (sm_mount sm)) (rq_path rq)).
  intros rel0. generalize (if decide (head rel0 = Some slash) then tail rel0 else rel0). intros rel.
  destruct (_ && _) eqn:Hs; [done|]. destruct (fs_canonical _ _ _) as [cand|] eqn:Hc; [|done].
  destruct (fs_relative _ _ _ _) as [below|] eqn:Hr; [|done]. case_decide as Hne; [done|]. destruct (_ || _) eqn:Hup; [done|].
  intros [= <-]. exists rel, below. split_and!; [|done|done|tauto|tauto|].
  - apply andb_false_iff in Hs as [Hs|Hs]; apply negb_false_iff in Hs; [|by apply is_safe_path_stays].
    apply bool_decide_eq_true in Hs as ->. apply stays_below_nil.
  - apply orb_false_iff in Hup as [Hd Hp]. apply bool_decide_eq_false in Hd. intros [->|(r' & ->)]; [done|].
    by unfold starts_with in Hp.
Qed.

(** A witness: a directory whose canonical paths are the paths themselves. *)
Definition demo_fs : file_system unit :=
  mkFS unit (λ p _, Some p) (λ p base _, if starts_with base p then Some (drop (S (length base)) p) else Some dotdot)
    (λ p _, (Some (lit "body of " ++ p), tt)).
Definition demo_mount : static_mount := mkMount (lit "/static") (lit "/srv") (lit "/srv").
Definition demo_get (path : str) : http_request := mkRequest (lit "GET") path (lit "HTTP/1.1") [] [] true [].

Lemma static_confined_witness :
  static_decide demo_fs demo_mount (demo_get (lit "/static/css/a.css")) tt = inr (lit "/srv/css/a.css") ∧
  ∃ below, ¬ leads_up below ∧ demo_fs.(fs_relative) (lit "/srv/css/a.css") (lit "/srv") tt = Some below.
Proof.
  assert (static_decide demo_fs demo_mount (demo_get (lit "/static/css/a.css")) tt = inr (lit "/srv/css/a.css")) as Hd by reflexivity.
  split; [exact Hd|]. destruct (static_confined _ _ _ _ _ Hd) as (_ & rel & below & _ & _ & Hr & _ & _ & Hl).
  exists below. split; [exact Hl|exact Hr].
Defined.

Example static_dotdot : static_decide demo_fs demo_mount (demo_get (lit "/static/a/..\..\x")) tt = inl (rs_error 403 (lit "forbidden")).
Proof. reflexivity. Qed.

(** A mount point at the root: [static_dir("", dir)] and [static_dir("/", dir)] are the mount
    "/", which no path but "/" and those that begin with two slashes matches. *)
Lemma root_mount_matches mount path :
  mount = [] ∨ mount = [slash] → mount_matches (normalize_mount mount) path = true →
  path = [slash] ∨ ∃ rest, path = slash :: slash :: rest.
Proof.
  intros Hm. assert (normalize_mount mount = [slash]) as -> by (by destruct Hm as [-> | ->]).
  unfold mount_matches, starts_with. intros [->%bool_decide_eq_true|Hx]%orb_true_iff; [by left|right]. bool_to_prop.
  destruct path as [|a [|b path]]; simpl in *; simplify_eq; by eexists.
Qed.

(** ** Including a router *)

Section include.
Context {W : Type}.
Implicit Types (r sub : web_router (W := W)) (t : router (route_entry (W := W))) (m p : str).

(** The routers that the registration operations build. *)
Inductive wr_reachable (fs : file_system W) : web_router (W := W) → Prop :=
  | ReachInit : wr_reachable fs wr_init
  | ReachAdd m p fn mws r : wr_reachable fs r → wr_reachable fs (wr_add m p fn mws r).2
  | ReachUse mw r : wr_reachable fs r → wr_reachable fs (wr_use mw r).2
  | ReachStatic mount dir w r : wr_reachable fs r → wr_reachable fs (wr_static_dir fs mount dir w r).2
  | ReachFreeze r : wr_reachable fs r → wr_reachable fs (wr_freeze r)
  | ReachInclude self sub prefix r : wr_reachable fs sub → wr_reachable fs r → wr_reachable fs (wr_include self sub prefix r).2.

Definition tree_ok m t : Prop := m ≠ [] ∧ built t ∧ Forall (λ p, bad_route_text p = false) (rr_log t).
Definition wr_ok r : Prop := map_Forall tree_ok (wr_trees r).

Lemma bad_text_app p q : bad_route_text (p ++ q) = bad_route_text p || bad_route_text q.
Proof.
  unfold bad_route_text. rewrite existsb_app. replace (bool_decide (chr_NUL ∈ p ++ q)) with
    (bool_decide (chr_NUL ∈ p) || bool_decide (chr_NUL ∈ q)); [by repeat destruct (existsb _ _), (bool_decide _)|].
  apply eq_bool_prop_intro. rewrite orb_True, !bool_decide_spec. by rewrite elem_of_app.
Qed.

Lemma bad_text_take k p : bad_route_text p = false → bad_route_text (take k p) = false.
Proof. rewrite <- (take_drop k p) at 1. rewrite bad_text_app. by intros [? _]%orb_false_iff. Qed.

Lemma bad_text_trim p : bad_route_text p = false → bad_route_text (trim_slash p) = false.
Proof. unfold trim_slash. intros Hp. destruct (_ && _); [by apply bad_text_take|done]. Qed.

Lemma insert_log {V} p (v : V) (t : router V) q : q ∈ rr_log (router_insert p v t).2 → q ∈ rr_log t ∨ q = trim_slash p.
Proof.
  unfold router_insert. destruct (negb _); [by left|]. cbv zeta. destruct (negb _); [by left|]. simpl.
  destruct (bool_decide _); [|by left]. intros [Hq|Hq%list_elem_of_singleton]%elem_of_app; auto.
Qed.

Lemma tree_of_built r m : wr_ok r → built (tree_of m r).
Proof.
  intros Hok. unfold tree_of. destruct (wr_trees r !! m) as [t|] eqn:Ht; [|constructor]. by apply (Hok m t Ht).
Qed.

Lemma wr_add_ok m p fn mws r : wr_ok r → wr_ok (wr_add m p fn mws r).2.
Proof.
  intros Hok. unfold wr_add. destruct (wr_frozen r); [done|]. destruct fn as [fn|]; [|done].
  destruct (_ || _) eqn:Hbad; [done|]. apply orb_false_iff in Hbad as [Hm%bool_decide_eq_false Hp].
  destruct (router_insert p _ _) as [ok t] eqn:Hi. simpl. apply map_Forall_insert_2; [|done]. split_and!; [done| |].
  - replace t with (router_insert p (mkEntry fn mws) (tree_of m r)).2 by (by rewrite Hi). constructor. by apply tree_of_built.
  - apply Forall_forall. intros q Hq. pose proof (insert_log p (mkEntry fn mws) (tree_of m r) q) as Hl. rewrite Hi in Hl.
    destruct (Hl Hq) as [Hin| ->]; [|by apply bad_text_trim]. unfold tree_of in Hin.
    destruct (wr_trees r !! m) as [t0|] eqn:Ht; simpl in Hin; [|by apply elem_of_nil in Hin].
    destruct (Hok m t0 Ht) as (_ & _ & Hl0). rewrite Forall_forall in Hl0. by apply Hl0.
Qed.

Lemma add_pending_ok l r : wr_ok r → wr_ok (add_pending l r).2.
Proof.
  revert r. induction l as [|pd l IH]; intros r Hok; [done|]. simpl.
  pose proof (wr_add_ok (pd_method pd) (pd_path pd) (Some (re_handler (pd_entry pd))) (re_middlewares (pd_entry pd)) r Hok) as Ha.
  destruct (wr_add _ _ _ _ r) as [[[]|e] r']; simpl in *; auto.
Qed.

Lemma wr_include_ok self sub prefix r : wr_ok r → wr_ok (wr_include self sub prefix r).2.
Proof.
  intros Hok. unfold wr_include. destruct (wr_frozen r), self, (bad_prefix prefix); try done.
  destruct (include_trees _ _ _ _); [by apply add_pending_ok|done].
Qed.

Lemma wr_reachable_ok fs r : wr_reachable fs r → wr_ok r.
Proof.
  induction 1; [apply map_Forall_empty|by apply wr_add_ok| | |done|by apply wr_include_ok];
    unfold wr_use, wr_static_dir; by destruct (wr_frozen r).
Qed.

(** One registration, when the shape accepts the pattern. *)
Lemma wr_add_accepted m p fn mws r val :
  wr_frozen r = false → m ≠ [] → bad_route_text p = false → router_insert p true (shape (tree_of m r)) = (true, val) →
  ∃ r', wr_add m p (Some fn) mws r = (Ok tt, r') ∧ wr_frozen r' = false ∧ shape (tree_of m r') = val ∧
    ∀ m', m' ≠ m → wr_trees r' !! m' = wr_trees r !! m'.
Proof.
  intros Hf Hm Hp Hi. rewrite (shape_insert p (mkEntry fn mws)) in Hi. unfold wr_add. rewrite Hf, Hp, bool_decide_eq_false_2 by done. simpl.
  destruct (router_insert p (mkEntry fn mws) (tree_of m r)) as [ok t]. simpl in Hi. simplify_eq.
  eexists. split; [done|]. split_and!; [done|by unfold tree_of; simpl; rewrite lookup_insert_eq|].
  intros m' Hm'. simpl. by rewrite lookup_insert_ne.
Qed.

Lemma add_pending_app l l' r :
  add_pending (l ++ l') r =
    match add_pending l r with (Ok _, r) => add_pending l' r | (Throw e, r) => (Throw e, r) end.
Proof.
  revert r. induction l as [|pd l IH]; intros r; simpl; [done|]. by destruct (wr_add _ _ _ _ r) as [[[]|e] r'].
Qed.

(** What was checked on the shape is registered. *)
Lemma include_patterns_add sub m norm t ps val l r :
  include_patterns sub m norm t ps val = Ok l → wr_frozen r = false → m ≠ [] → shape (tree_of m r) = val →
  Forall (λ p, bad_route_text (norm ++ p) = false) ps →
  ∃ r', add_pending l r = (Ok tt, r') ∧ wr_frozen r' = false ∧ ∀ m', m' ≠ m → wr_trees r' !! m' = wr_trees r !! m'.
Proof.
  revert val l r. induction ps as [|p ps IH]; intros val l r Hi Hf Hm Hv Hp; cbn [include_patterns] in Hi.
  { simplify_eq. by exists r. }
  inversion Hp as [|?? Hp1 Hp2]; subst. destruct (find_exact t p) as [e|]; [|done].
  destruct (router_insert (norm ++ p) true _) as [[] val'] eqn:Hins; [|done].
  destruct (include_patterns _ _ _ _ _ val') as [l'|] eqn:Hl; [|done]. simplify_eq.
  destruct (wr_add_accepted m (norm ++ p) (re_handler e) (wr_middlewares sub ++ re_middlewares e) r val' Hf Hm Hp1 Hins)
    as (r1 & Ha & Hf1 & Hv1 & Hd1).
  destruct (IH val' l' r1 Hl Hf1 Hm Hv1 Hp2) as (r2 & Ha2 & Hf2 & Hd2). exists r2. cbn [add_pending pd_method pd_path pd_entry].
  cbn [re_handler re_middlewares]. rewrite Ha. split_and!; [done|done|]. intros m' Hm'. rewrite Hd2 by done. by apply Hd1.
Qed.

Lemma include_trees_add sub norm ts r0 l r :
  include_trees sub norm ts r0 = Ok l → wr_ok r0 → wr_frozen r = false → NoDup ts.*1 →
  (∀ m t, (m, t) ∈ ts → wr_trees r !! m = wr_trees r0 !! m ∧ m ≠ [] ∧
     Forall (λ p, bad_route_text (norm ++ p) = false) (rr_log t)) →
  ∃ r', add_pending l r = (Ok tt, r').
Proof.
  intros Hi Hok. revert l r Hi. induction ts as [|[m t] ts IH]; intros l r Hi Hf Hnd Hts; cbn [include_trees] in Hi.
  { simplify_eq. by exists r. }
  destruct (Hts m t ltac:(left)) as (Hsame & Hm & Hp). apply NoDup_cons in Hnd as [Hm' Hnd].
  destruct (insert_all _ _) as [val|] eqn:Hval; [|done].
  destruct (include_patterns _ _ _ _ _ _) as [l1|] eqn:Hl1; [|done].
  destruct (include_trees sub norm ts r0) as [l2|] eqn:Hl2; [|done]. simplify_eq.
  assert (shape (tree_of m r) = val) as Hv.
  { unfold tree_of. rewrite Hsame. destruct (wr_trees r0 !! m) as [t0|] eqn:Ht0; simpl in *.
    - rewrite (router_replay t0) in Hval by apply (Hok m t0 Ht0). by simplify_eq.
    - by simplify_eq. }
  destruct (include_patterns_add _ _ _ _ _ _ _ _ Hl1 Hf Hm Hv Hp) as (r1 & Ha1 & Hf1 & Hd1).
  rewrite add_pending_app, Ha1. apply (IH l2 r1 eq_refl Hf1 Hnd). intros m1 t1 Hin.
  destruct (Hts m1 t1 ltac:(by right)) as (? & ? & ?). split_and!; [|done|done]. rewrite Hd1; [done|].
  intros ->. apply Hm'. by apply (list_elem_of_fmap_2 fst) in Hin.
Qed.

Lemma normalize_prefix_text prefix : bad_route_text prefix = false → bad_route_text (normalize_prefix prefix) = false.
Proof.
  intros Hp. unfold normalize_prefix.
  assert (bad_route_text (if decide (prefix = [] ∨ head prefix = Some slash) then prefix else slash :: prefix) = false) as Hn.
  { case_decide; [done|]. change (slash :: prefix) with ([slash] ++ prefix). by rewrite bad_text_app, Hp. }
  revert Hn. generalize (if decide (prefix = [] ∨ head prefix = Some slash) then prefix else slash :: prefix). intros norm Hn.
  case_decide; [by apply bad_text_take|done].
Qed.
End include.

(** Including a router is all or nothing: the routes are tried on copies of the shapes of the
    tables first, and once they pass there every registration succeeds; otherwise an exception
    is thrown and the router is as it was. *)
Theorem include_atomic {W} (fs : file_system W) self sub prefix r :
  wr_reachable fs r → wr_reachable fs sub →
  (wr_include self sub prefix r).1 = Ok tt ∨ (wr_include self sub prefix r).2 = r.
Proof.
  intros Hr%wr_reachable_ok Hsub%wr_reachable_ok. unfold wr_include. destruct (wr_frozen r) eqn:Hf; [by right|].
  destruct self; [by right|]. destruct (bad_prefix prefix) eqn:Hb; [by right|].
  destruct (include_trees _ _ _ _) as [l|] eqn:Hl; [|by right].
  assert (bad_route_text prefix = false) as Hp by (by apply orb_false_iff in Hb as [[??]%orb_false_iff _]).
  apply normalize_prefix_text in Hp.
  destruct (include_trees_add _ _ _ _ _ r Hl Hr Hf (NoDup_fst_map_to_list _)) as (r' & ->); [|by left].
  intros m t Hin%elem_of_map_to_list. destruct (Hsub m t Hin) as (Hm & _ & Ht). split_and!; [done|done|].
  eapply Forall_impl; [exact Ht|]. simpl. intros p Hq. by rewrite bad_text_app, Hp, Hq.
Qed.

(** A witness: a router with one route, included under a prefix where the parent has a route. *)
Definition demo_handler : handler (W := unit) := λ rq w, (Ok (rs_text (rq_path rq) 200), w).
Definition demo_sub : web_router (W := unit) := (wr_add (lit "GET") (lit "/:id") (Some demo_handler) [] wr_init).2.
Definition demo_parent : web_router (W := unit) := (wr_add (lit "GET") (lit "/api/:key") (Some demo_handler) [] wr_init).2.

Lemma include_atomic_witness :
  (wr_include false demo_sub (lit "/api") demo_parent).1 = Throw InvalidArgument ∧
  (wr_include false demo_sub (lit "/api") demo_parent).2 = demo_parent.
Proof.
  assert (wr_reachable demo_fs demo_parent) as Hp by (apply ReachAdd, ReachInit).
  assert (wr_reachable demo_fs demo_sub) as Hs by (apply ReachAdd, ReachInit).
  assert ((wr_include false demo_sub (lit "/api") demo_parent).1 = Throw InvalidArgument) as Hr by reflexivity.
  split; [exact Hr|]. destruct (include_atomic demo_fs false demo_sub (lit "/api") demo_parent Hp Hs) as [H|H]; [|exact H].
  rewrite Hr in H. discriminate H.
Defined.

(** ** Dispatch *)

Section dispatch.
Context {W : Type}.
Variable fs : file_system W.
Implicit Types (r : web_router (W := W)) (e : route_entry (W := W)) (m path : str).

(** The entry of the registered pattern that is preferred among those that match the path, and
    what the pattern captures. *)
Definition routed r m path e (caps : list (str * str)) : Prop :=
  path ≠ [] ∧ ∃ tree its, wr_trees r !! m = Some tree ∧ find_items (rr_root tree) its = Some e ∧ matches its path caps ∧
    ∀ its' e' caps', find_items (rr_root tree) its' = Some e' → matches its' path caps' → preferred its its'.

Definition has_route r m path : Prop :=
  path ≠ [] ∧ ∃ tree its e caps, wr_trees r !! m = Some tree ∧ find_items (rr_root tree) its = Some e ∧ matches its path caps.

Lemma lookup_tree_spec m path r :
  match lookup_tree m path r with
  | Some (e, caps) => routed r m path e caps ∧ has_route r m path
  | None => ¬ has_route r m path
  end.
Proof.
  unfold lookup_tree, routed, has_route. destruct (wr_trees r !! m) as [t|] eqn:Ht; [|by intros (_ & ? & ? & ? & ? & ? & _)].
  destruct (decide (path = [])) as [->|Hp]; [by intros [? _]|].
  assert (pv_ok pv_new) as Hpv by (split; [done|unfold pv_new, pv_kInline; simpl; lia]).
  destruct (router_lookup_cases t path pv_new Hpv Hp) as [_ Hl].
  destruct (router_lookup t path pv_new) as [[e|] caps]; simpl in Hl.
  - destruct Hl as (its & Hf & Hm & Hpr). split; (split; [done|]); [by exists t, its|by exists t, its, e, (pv_list caps)].
  - intros (_ & t' & its & e & c & [= <-] & Hf & Hm). by eapply Hl.
Qed.

Lemma allowed_methods_elem m m' path r :
  m' ∈ allowed_methods m path r ↔ m' ≠ m ∧ has_route r m' path.
Proof.
  unfold allowed_methods. rewrite list_elem_of_filter. pose proof (lookup_tree_spec m' path r) as Hl.
  split.
  - intros [[Hm (? & Hs)] _]. rewrite Hs in Hl. destruct x. by destruct Hl.
  - intros [Hm Hh]. destruct (lookup_tree m' path r) as [[e caps]|] eqn:Hlk; [|done]. split; [by split|].
    destruct Hh as (_ & t & _ & _ & _ & Ht & _). apply list_elem_of_fmap. exists (m', t). split; [done|]. by apply elem_of_map_to_list.
Qed.

(** The answer for a path that only other methods have. *)
Definition options_or_405 (m : str) (ms : list str) : http_response :=
  if decide (m = lit "OPTIONS") then rs_allow (join_methods ms ++ lit ", OPTIONS") (rs_text [] 200)
  else rs_allow (join_methods ms) (rs_error 405 (lit "method not allowed")).

(** C23 Dispatch, whatever the router: a request is run by the entry of the preferred pattern of its
    method that matches the path, a HEAD without one by that of GET; when only other methods have
    the path the answer names exactly these, each once, in Allow (405, or 200 for OPTIONS); and when no
    method has it, and only then, the first mount point that matches serves the request, or it is 404. *)
Theorem route_core_spec r rq (w : W) :
  let m := rq_method rq in
  let path := rq_path rq in
  let get := lit "GET" in
  (∃ e caps, (routed r m path e caps ∨ m = lit "HEAD" ∧ ¬ has_route r m path ∧ routed r get path e caps) ∧
     route_core fs r rq w = run_entry e caps rq w) ∨
  ¬ has_route r m path ∧ (m = lit "HEAD" → ¬ has_route r get path) ∧
  ((∃ ms, ms ≠ [] ∧ NoDup ms ∧ (∀ m', m' ∈ ms ↔ has_route r m' path) ∧
      route_core fs r rq w = (Ok (options_or_405 m ms), rq, w)) ∨
   (∀ m', ¬ has_route r m' path) ∧
   route_core fs r rq w =
     match list_find (λ sm, mount_matches (sm_mount sm) path = true) (wr_static_dirs r) with
     | Some (_, sm) => static_serve fs sm rq w
     | None => (Ok (rs_error 404 (lit "not found")), rq, w)
     end).
Proof.
  cbv zeta. unfold route_core. pose proof (lookup_tree_spec (rq_method rq) (rq_path rq) r) as Hl.
  destruct (lookup_tree (rq_method rq) (rq_path rq) r) as [[e caps]|].
  { left. exists e, caps. split; [left; by destruct Hl|done]. }
  pose proof (lookup_tree_spec (lit "GET") (rq_path rq) r) as Hg.
  case_decide as Hh; [destruct (lookup_tree (lit "GET") (rq_path rq) r) as [[e caps]|]|].
  { left. exists e, caps. split; [right; by destruct Hg|done]. }
  all: right; split_and!; [done|done|].
  all: pose proof (λ m', allowed_methods_elem (rq_method rq) m' (rq_path rq) r) as Ha.
  all: assert (NoDup (allowed_methods (rq_method rq) (rq_path rq) r)) as Hnd by (apply NoDup_filter, NoDup_fst_map_to_list).
  all: assert (∀ m', m' ∈ allowed_methods (rq_method rq) (rq_path rq) r ↔ has_route r m' (rq_path rq)) as Ha'
    by (intros m'; rewrite Ha; split; [by intros [_ ?]|]; intros ?; split; [by intros ->|done]).
  all: destruct (allowed_methods (rq_method rq) (rq_path rq) r) as [|m1 ms] eqn:Hms;
    [right; split; [intros m' Hr; by apply Ha', elem_of_nil in Hr|done]|].
  all: left; exists (m1 :: ms); split_and!; [done|done|done|unfold options_or_405; by case_decide].
Qed.
End dispatch.
