(* ===== verification/HttpParse.v ===== *)
(** * HttpParse: the incremental parser around llhttp ([http_parse])

    [src/thirdparty/http/src/http_parse.cpp].  llhttp itself is generated code: here it is a class
    of operations.  Executing it on bytes is the sequence of callbacks it makes, each steered by
    the number the previous one returned, up to the error code and position it ends with. *)

From S2P Require Import Prelude HttpMsg Radix.
From Stdlib Require Import Ascii.
From stdpp Require Import options.
#[local] Set Default Proof Using "Type*".
Local Open Scope Z_scope.

(** ** The interface of llhttp *)

Inductive ll_type : Type := HTTP_REQUEST | HTTP_RESPONSE.
Inductive ll_errno : Type := HPE_OK | HPE_PAUSED | HPE_FAILED (code : nat).

#[export] Instance ll_type_eq_dec : EqDecision ll_type.
Proof. solve_decision. Defined.
#[export] Instance ll_errno_eq_dec : EqDecision ll_errno.
Proof. solve_decision. Defined.

(** The value of [HPE_PAUSED]. *)
Definition paused_code : Z := 21.

Inductive ll_event : Type :=
  | OnMessageBegin
  | OnUrl (s : str)
  | OnHeaderField (s : str)
  | OnHeaderValue (s : str)
  | OnHeaderValueComplete
  | OnHeadersComplete
  | OnBody (s : str)
  | OnMessageComplete.

(** One call of [llhttp_execute] or [llhttp_finish]; the engine is what a callback can look at. *)
Inductive ll_run (L : Type) : Type :=
  | LlDone (err : ll_errno) (pos : option nat) (l : L)
  | LlCall (ev : ll_event) (l : L) (k : Z → ll_run L).
Arguments LlDone {L}. Arguments LlCall {L}.

Class Llhttp (L : Type) := {
  ll_init : ll_type → L;
  ll_execute : L → str → ll_run L;
  ll_finish : L → ll_run L;
  ll_resume : L → L;
  ll_get_type : L → ll_type;
  ll_should_keep_alive : L → bool;
  ll_http_major : L → nat;
  ll_http_minor : L → nat;
  ll_status_code : L → Z;
  ll_method_name : L → str;
  ll_trailing : L → bool;         (* [flags & F_TRAILING] *)
}.

(** ** The members *)

(** The results, which a new message clears. *)
Record parse_result : Type := mkResult {
  pm_method : str;
  pm_url : str;
  pm_version : str;
  pm_status : Z;
  pm_body : str;
  pm_headers : header_list;        (* a [std::map]: sorted, one value for a name *)
  pm_fields : header_list;
  pm_trailers : header_list;
}.

Record parse_limits : Type := mkLimits {
  lm_body : Z;
  lm_url : Z;
  lm_header_bytes : Z;
  lm_header_count : Z;
}.

Definition empty_result : parse_result := mkResult [] [] [] 0 [] [] [] [].

(** [m[k] = v]. *)
Fixpoint map_assign (k v : str) (m : header_list) : header_list :=
  match m with
  | [] => [(k, v)]
  | (k', v') :: m' =>
      if decide (k = k') then (k, v) :: m' else if str_ltb k k' then (k, v) :: m else (k', v') :: map_assign k v m'
  end.

Section parser.
Context {L W : Type} `{Llhttp L}.

Record http_parse : Type := mkParse {
  hx_engine : L;
  hx_res : parse_result;
  hx_limits : parse_limits;
  hx_field : str;
  hx_value : str;
  hx_bytes : Z;
  hx_count : Z;
  hx_error : option ll_errno;
  hx_consumed : nat;
  hx_completed : bool;
  hx_paused : bool;
  hx_pause_after : bool;
  hx_head : bool;
  hx_callback_error : option exn;
}.
Implicit Types (p : http_parse) (w : W) (s : str) (r : parse_result).

Definition hx_set_engine l p : http_parse :=
  mkParse l (hx_res p) (hx_limits p) (hx_field p) (hx_value p) (hx_bytes p) (hx_count p) (hx_error p) (hx_consumed p)
    (hx_completed p) (hx_paused p) (hx_pause_after p) (hx_head p) (hx_callback_error p).
Definition hx_set_res r p : http_parse :=
  mkParse (hx_engine p) r (hx_limits p) (hx_field p) (hx_value p) (hx_bytes p) (hx_count p) (hx_error p) (hx_consumed p)
    (hx_completed p) (hx_paused p) (hx_pause_after p) (hx_head p) (hx_callback_error p).
Definition hx_set_header field value bytes count p : http_parse :=
  mkParse (hx_engine p) (hx_res p) (hx_limits p) field value bytes count (hx_error p) (hx_consumed p)
    (hx_completed p) (hx_paused p) (hx_pause_after p) (hx_head p) (hx_callback_error p).
Definition hx_set_error e p : http_parse :=
  mkParse (hx_engine p) (hx_res p) (hx_limits p) (hx_field p) (hx_value p) (hx_bytes p) (hx_count p) e (hx_consumed p)
    (hx_completed p) (hx_paused p) (hx_pause_after p) (hx_head p) (hx_callback_error p).
Definition hx_set_consumed n p : http_parse :=
  mkParse (hx_engine p) (hx_res p) (hx_limits p) (hx_field p) (hx_value p) (hx_bytes p) (hx_count p) (hx_error p) n
    (hx_completed p) (hx_paused p) (hx_pause_after p) (hx_head p) (hx_callback_error p).
Definition hx_set_flags completed paused p : http_parse :=
  mkParse (hx_engine p) (hx_res p) (hx_limits p) (hx_field p) (hx_value p) (hx_bytes p) (hx_count p) (hx_error p) (hx_consumed p)
    completed paused (hx_pause_after p) (hx_head p) (hx_callback_error p).
Definition hx_set_callback_error e p : http_parse :=
  mkParse (hx_engine p) (hx_res p) (hx_limits p) (hx_field p) (hx_value p) (hx_bytes p) (hx_count p) (hx_error p) (hx_consumed p)
    (hx_completed p) (hx_paused p) (hx_pause_after p) (hx_head p) e.

Definition pm_set_url s r := mkResult (pm_method r) s (pm_version r) (pm_status r) (pm_body r) (pm_headers r) (pm_fields r) (pm_trailers r).
Definition pm_set_body s r := mkResult (pm_method r) (pm_url r) (pm_version r) (pm_status r) s (pm_headers r) (pm_fields r) (pm_trailers r).
Definition pm_set_version s r := mkResult (pm_method r) (pm_url r) s (pm_status r) (pm_body r) (pm_headers r) (pm_fields r) (pm_trailers r).
Definition pm_set_method s r := mkResult s (pm_url r) (pm_version r) (pm_status r) (pm_body r) (pm_headers r) (pm_fields r) (pm_trailers r).
Definition pm_set_status x r := mkResult (pm_method r) (pm_url r) (pm_version r) x (pm_body r) (pm_headers r) (pm_fields r) (pm_trailers r).
Definition pm_add_field k v r :=
  mkResult (pm_method r) (pm_url r) (pm_version r) (pm_status r) (pm_body r) (map_assign k v (pm_headers r)) (pm_fields r ++ [(k, v)]) (pm_trailers r).
Definition pm_add_trailer k v r :=
  mkResult (pm_method r) (pm_url r) (pm_version r) (pm_status r) (pm_body r) (pm_headers r) (pm_fields r) (pm_trailers r ++ [(k, v)]).

(** [clear_result]. *)
Definition hx_clear_result p : http_parse :=
  hx_set_flags false (hx_paused p) (hx_set_header [] [] 0 0 (hx_set_res empty_result p)).

Definition hx_header p (field : str) : str :=
  from_option (λ x, x.2.2) [] (list_find (λ h, iequals h.1 field = true) (pm_headers (hx_res p))).
Definition hx_keep_alive p : bool := hx_completed p && ll_should_keep_alive (hx_engine p).

(** [reset], and the constructor. *)
Definition hx_reset (ty : ll_type) p : http_parse :=
  mkParse (ll_init ty) (hx_res p) (hx_limits p) [] [] 0 0 None 0 false false (hx_pause_after p) (hx_head p) None.
Definition hx_new (ty : ll_type) (lim : parse_limits) (pause_after head : bool) : http_parse :=
  mkParse (ll_init ty) empty_result lim [] [] 0 0 None 0 false false pause_after head None.

(** ** The callbacks *)

(** A user callback: it looks at the parser, may change the results, which are public, and throw. *)
Definition hook : Type := http_parse → W → res unit * parse_result * W.
Definition no_hook : hook := λ p w, (Ok tt, hx_res p, w).

Record parse_hooks : Type := mkHooks {
  hk_message_begin : hook;
  hk_message_complete : hook;
  hk_headers_complete : hook;
  hk_url : str → hook;
  hk_body : str → hook;
  hk_header_field : str → hook;
  hk_header_value : str → hook;
}.
Variable hooks : parse_hooks.

Definition exceeds (used added limit : Z) : bool :=
  negb (limit =? 0) && ((limit <? used) || (limit - used <? added)).
Definition len (s : str) : Z := Z.of_nat (length s).

(** [callback]: nothing is thrown through llhttp. *)
Definition call (hk : hook) (code : http_parse → Z) p w : Z * http_parse * W :=
  match hk p w with
  | (Ok _, r, w) => (code p, hx_set_res r p, w)
  | (Throw e, r, w) => (-1, hx_set_callback_error (Some e) (hx_set_res r p), w)
  end.

Definition version_text (l : L) : str := to_string (ll_http_major l) ++ lit "." ++ to_string (ll_http_minor l).

Definition on_header_value_complete p : http_parse :=
  let r := if ll_trailing (hx_engine p) then pm_add_trailer (hx_field p) (hx_value p) (hx_res p)
           else pm_add_field (hx_field p) (hx_value p) (hx_res p) in
  hx_set_header [] [] (hx_bytes p) (hx_count p + 1) (hx_set_res r p).

Definition on_event (ev : ll_event) p w : Z * http_parse * W :=
  let zero := λ _ : http_parse, 0 in
  let lim := hx_limits p in
  let r := hx_res p in
  match ev with
  | OnMessageBegin => call (hk_message_begin hooks) zero (hx_clear_result p) w
  | OnUrl s =>
      if exceeds (len (pm_url r)) (len s) (lm_url lim) then (-1, p, w)
      else call (hk_url hooks s) zero (hx_set_res (pm_set_url (pm_url r ++ s) r) p) w
  | OnHeaderField s =>
      if exceeds (hx_bytes p) (len s) (lm_header_bytes lim) then (-1, p, w)
      else call (hk_header_field hooks s) zero (hx_set_header (hx_field p ++ s) (hx_value p) (hx_bytes p + len s) (hx_count p) p) w
  | OnHeaderValue s =>
      if exceeds (hx_bytes p) (len s) (lm_header_bytes lim) then (-1, p, w)
      else call (hk_header_value hooks s) zero (hx_set_header (hx_field p) (hx_value p ++ s) (hx_bytes p + len s) (hx_count p) p) w
  | OnHeaderValueComplete =>
      if negb (lm_header_count lim =? 0) && (lm_header_count lim <=? hx_count p) then (-1, p, w)
      else (0, on_header_value_complete p, w)
  | OnHeadersComplete =>
      let l := hx_engine p in
      let r := pm_set_version (version_text l) r in
      let r := if decide (ll_get_type l = HTTP_RESPONSE) then pm_set_status (ll_status_code l) r else r in
      call (hk_headers_complete hooks)
        (λ p, if decide (ll_get_type (hx_engine p) = HTTP_RESPONSE) then (if hx_head p then 1 else 0) else 0) (hx_set_res r p) w
  | OnBody s =>
      if exceeds (len (pm_body r)) (len s) (lm_body lim) then (-1, p, w)
      else call (hk_body hooks s) zero (hx_set_res (pm_set_body (pm_body r ++ s) r) p) w
  | OnMessageComplete =>
      let l := hx_engine p in
      let r := pm_set_version (version_text l) r in
      let r := if decide (ll_get_type l = HTTP_REQUEST) then pm_set_method (ll_method_name l) r else pm_set_status (ll_status_code l) r in
      call (hk_message_complete hooks) (λ p, if hx_pause_after p then paused_code else 0)
        (hx_set_flags true (hx_paused p) (hx_set_res r p)) w
  end.

(** The engine runs, calling back. *)
Fixpoint drive (run : ll_run L) p w : ll_errno * option nat * http_parse * W :=
  match run with
  | LlDone err pos l => (err, pos, hx_set_engine l p, w)
  | LlCall ev l k => let '(c, p, w) := on_event ev (hx_set_engine l p) w in drive (k c) p w
  end.

(** ** The operations *)

Definition accept_result (err : ll_errno) p : res bool * http_parse :=
  match hx_callback_error p with
  | Some e => (Throw e, p)
  | None =>
      if decide (err = HPE_OK ∨ err = HPE_PAUSED ∧ hx_completed p = true)
      then (Ok true, hx_set_flags (hx_completed p) (bool_decide (err = HPE_PAUSED)) p)
      else (Ok false, hx_set_error (Some err) p)
  end.

(** The pointer is never null: a [str] is a buffer. *)
Definition hx_feed (data : str) p w : res bool * http_parse * W :=
  match hx_callback_error p with
  | Some e => (Throw e, p, w)
  | None =>
      let p := hx_set_consumed 0 p in
      if hx_paused p then (Ok true, p, w)
      else if bool_decide (is_Some (hx_error p)) then (Ok false, p, w)
      else if bool_decide (data = []) then (Ok true, p, w)
      else
        let '(err, pos, p, w) := drive (ll_execute (hx_engine p) data) p w in
        let consumed := if decide (err = HPE_OK) then length data else default 0%nat pos in
        let '(r, p) := accept_result err (hx_set_consumed consumed p) in
        (r, p, w)
  end.

Definition hx_finish p w : res bool * http_parse * W :=
  if bool_decide (is_Some (hx_error p)) then (Ok false, p, w)
  else if hx_paused p && hx_completed p then (Ok true, p, w)
  else
    let '(err, _, p, w) := drive (ll_finish (hx_engine p)) p w in
    let '(r, p) := accept_result err p in
    (r, p, w).

Definition hx_resume p : http_parse :=
  if hx_paused p then hx_set_flags false false (hx_set_engine (ll_resume (hx_engine p)) p) else p.

Definition hx_feed_all (ty : ll_type) (data : str) p w : res bool * http_parse * W := hx_feed data (hx_reset ty p) w.
End parser.

(** ** Limits *)

Section limits.
Context {L W : Type} `{Llhttp L}.
Implicit Types (p : http_parse (L := L)) (w : W).

Definition headers_size (hs : header_list) : Z := foldr (λ h n, len h.1 + len h.2 + n) 0 hs.

(** What a message has stored stays within the limits that are not switched off; the bytes and
    the number of the fields, those of the trailers included, are what was counted. *)
Record within p : Prop := {
  wi_url : lm_url (hx_limits p) ≠ 0 → len (pm_url (hx_res p)) ≤ lm_url (hx_limits p);
  wi_body : lm_body (hx_limits p) ≠ 0 → len (pm_body (hx_res p)) ≤ lm_body (hx_limits p);
  wi_bytes : lm_header_bytes (hx_limits p) ≠ 0 → hx_bytes p ≤ lm_header_bytes (hx_limits p);
  wi_count : lm_header_count (hx_limits p) ≠ 0 → hx_count p ≤ lm_header_count (hx_limits p);
  wi_size : headers_size (pm_fields (hx_res p)) + headers_size (pm_trailers (hx_res p)) + len (hx_field p) + len (hx_value p) ≤ hx_bytes p;
  wi_number : Z.of_nat (length (pm_fields (hx_res p)) + length (pm_trailers (hx_res p))) ≤ hx_count p;
}.

Definition limits_nonneg (lim : parse_limits) : Prop :=
  0 ≤ lm_body lim ∧ 0 ≤ lm_url lim ∧ 0 ≤ lm_header_bytes lim ∧ 0 ≤ lm_header_count lim.

(** A user callback that respects the limits too: it may move results out, not add to them. *)
Definition hook_within (hk : hook (L := L) (W := W)) : Prop :=
  ∀ p w, within p → within (hx_set_res (hk p w).1.2 p).

Definition hooks_within (hooks : parse_hooks (L := L) (W := W)) : Prop :=
  hook_within (hk_message_begin hooks) ∧ hook_within (hk_message_complete hooks) ∧ hook_within (hk_headers_complete hooks) ∧
  (∀ s, hook_within (hk_url hooks s)) ∧ (∀ s, hook_within (hk_body hooks s)) ∧
  (∀ s, hook_within (hk_header_field hooks s)) ∧ (∀ s, hook_within (hk_header_value hooks s)).

Lemma len_app s s' : len (s ++ s') = len s + len s'.
Proof. unfold len. rewrite length_app. lia. Qed.
Lemma len_nonneg s : 0 ≤ len s.
Proof. unfold len. lia. Qed.

Lemma headers_size_app hs hs' : headers_size (hs ++ hs') = headers_size hs + headers_size hs'.
Proof. induction hs as [|h hs IH]; simpl; [done|]. rewrite IH. lia. Qed.

Lemma not_exceeds used added limit : exceeds used added limit = false → limit ≠ 0 → used + added ≤ limit.
Proof. unfold exceeds. intros [Hl|Hl]%andb_false_iff Hn; bool_to_prop; lia. Qed.

(** What neither the callbacks nor the engine change. *)
Definition same_frame p p' : Prop := hx_limits p' = hx_limits p ∧ hx_paused p' = hx_paused p.

Lemma call_frame hk code p w : same_frame p (call hk code p w).1.2.
Proof. unfold call. by destruct (hk p w) as [[[?|?] r] w']. Qed.

Lemma on_event_frame hooks ev p w : same_frame p (on_event hooks ev p w).1.2.
Proof.
  destruct ev; cbn [on_event]; cbv zeta; repeat (case_match; try done);
    match goal with |- same_frame _ (call ?hk ?c ?q ?v).1.2 => exact (call_frame hk c q v) | _ => idtac end.
Qed.

Lemma drive_frame hooks run p w : same_frame p (drive hooks run p w).1.2.
Proof.
  revert p w. induction run as [err pos l|ev l k IH]; intros p w; [done|]. cbn [drive].
  pose proof (on_event_frame hooks ev (hx_set_engine l p) w) as [Hl Hp].
  destruct (on_event hooks ev (hx_set_engine l p) w) as [[c p'] w']. destruct (IH c p' w') as [Hl' Hp'].
  simpl in *. split; [by rewrite Hl', Hl|by rewrite Hp', Hp].
Qed.

Lemma call_within hk code p w : hook_within hk → within p → within (call hk code p w).1.2.
Proof.
  intros Hk Hp. unfold call. specialize (Hk p w Hp). destruct (hk p w) as [[[?|?] r] w']; simpl in *; [done|]. by destruct Hk.
Qed.

(** The results are replaced by ones that are as long, except for the start line and the status. *)
Lemma within_res p r :
  within p → pm_url r = pm_url (hx_res p) → pm_body r = pm_body (hx_res p) →
  pm_fields r = pm_fields (hx_res p) → pm_trailers r = pm_trailers (hx_res p) → within (hx_set_res r p).
Proof. intros [] Hu Hb Hf Ht. split; simpl; by rewrite ?Hu, ?Hb, ?Hf, ?Ht. Qed.

Lemma within_engine l p : within p → within (hx_set_engine l p).
Proof. by intros []. Qed.

Lemma header_within field value n p :
  within p → exceeds (hx_bytes p) n (lm_header_bytes (hx_limits p)) = false →
  len field + len value = len (hx_field p) + len (hx_value p) + n →
  within (hx_set_header field value (hx_bytes p + n) (hx_count p) p).
Proof. intros [] He Hl. split; simpl; [done|done| |done|lia|done]. by apply not_exceeds. Qed.

Lemma value_complete_within p :
  within p → (lm_header_count (hx_limits p) ≠ 0 → hx_count p < lm_header_count (hx_limits p)) → within (on_header_value_complete p).
Proof.
  intros [] Hc. unfold on_header_value_complete. destruct (ll_trailing _); (split; simpl; [done|done|done| | |]).
  all: rewrite ?headers_size_app, ?length_app; simpl; unfold len in *; simpl in *; try lia.
Qed.

Lemma on_event_within hooks ev p w :
  hooks_within hooks → limits_nonneg (hx_limits p) → within p → within (on_event hooks ev p w).1.2.
Proof.
  intros (Hbegin & Hcomplete & Hhead & Hurl & Hbody & Hfield & Hvalue) Hlim Hp. pose proof Hp as [Hu Hb Hy Hn Hs Hm].
  destruct ev as [|s|s|s| | |s|]; cbn [on_event]; cbv zeta.
  - apply call_within; [done|]. destruct Hlim as (? & ? & ? & ?). by split; simpl.
  - destruct (exceeds _ _ _) eqn:He; [done|]. apply call_within; [done|]. split; simpl; try done.
    rewrite len_app. by apply not_exceeds.
  - destruct (exceeds _ _ _) eqn:He; [done|]. apply call_within; [done|]. apply header_within; [done..|]. rewrite len_app. lia.
  - destruct (exceeds _ _ _) eqn:He; [done|]. apply call_within; [done|]. apply header_within; [done..|]. rewrite len_app. lia.
  - destruct (_ && _) eqn:He; [done|].
    apply value_complete_within; [done|]. apply andb_false_iff in He as [He|He]; bool_to_prop; lia.
  - apply call_within; [done|]. apply within_res; [done|..]; by case_decide.
  - destruct (exceeds _ _ _) eqn:He; [done|]. apply call_within; [done|]. split; simpl; try done.
    rewrite len_app. by apply not_exceeds.
  - apply call_within; [done|]. assert (within (hx_set_res (if decide (ll_get_type (hx_engine p) = HTTP_REQUEST)
      then pm_set_method (ll_method_name (hx_engine p)) (pm_set_version (version_text (hx_engine p)) (hx_res p))
      else pm_set_status (ll_status_code (hx_engine p)) (pm_set_version (version_text (hx_engine p)) (hx_res p))) p)) as [].
    { apply within_res; [done|..]; by case_decide. }
    by split.
Qed.

Lemma drive_within hooks run p w :
  hooks_within hooks → limits_nonneg (hx_limits p) → within p → within (drive hooks run p w).1.2.
Proof.
  intros Hh. revert p w. induction run as [err pos l|ev l k IH]; intros p w Hlim Hp; [by apply within_engine|].
  cbn [drive]. pose proof (on_event_within hooks ev (hx_set_engine l p) w Hh Hlim (within_engine l p Hp)) as Hw.
  destruct (on_event_frame hooks ev (hx_set_engine l p) w) as [Hl _].
  destruct (on_event hooks ev (hx_set_engine l p) w) as [[c p'] w']. simpl in *. apply IH; [by rewrite Hl|done].
Qed.

Lemma accept_within err p : within p → within (accept_result err p).2 ∧ hx_limits (accept_result err p).2 = hx_limits p.
Proof. intros []. unfold accept_result. destruct (hx_callback_error p); [done|]. by case_decide. Qed.

(** A sequence of calls by the owner of the parser. *)
Inductive parse_op : Type := PFeed (data : str) | PFinish | PResume.

Definition run_op hooks (op : parse_op) (pw : http_parse * W) : http_parse * W :=
  match op with
  | PFeed data => let '(_, p, w) := hx_feed hooks data pw.1 pw.2 in (p, w)
  | PFinish => let '(_, p, w) := hx_finish hooks pw.1 pw.2 in (p, w)
  | PResume => (hx_resume pw.1, pw.2)
  end.

Lemma run_op_within hooks op p w :
  hooks_within hooks → limits_nonneg (hx_limits p) → within p →
  within (run_op hooks op (p, w)).1 ∧ hx_limits (run_op hooks op (p, w)).1 = hx_limits p.
Proof.
  intros Hh Hlim Hp. destruct op as [data| |]; simpl.
  - unfold hx_feed. destruct (hx_callback_error p); [done|]. cbv zeta.
    assert (within (hx_set_consumed 0 p)) as Hp0 by (by destruct Hp).
    destruct (hx_paused _); [done|]. destruct (bool_decide _); [done|]. destruct (bool_decide _); [done|].
    pose proof (drive_within hooks (ll_execute (hx_engine (hx_set_consumed 0 p)) data) (hx_set_consumed 0 p) w Hh Hlim Hp0) as Hw.
    destruct (drive_frame hooks (ll_execute (hx_engine (hx_set_consumed 0 p)) data) (hx_set_consumed 0 p) w) as [Hl _].
    destruct (drive _ _ _ w) as [[[err pos] p'] w']. simpl in *.
    set (n := if decide (err = HPE_OK) then length data else default 0%nat pos).
    destruct (accept_within err (hx_set_consumed n p')) as [Hw' Hl']; [by destruct Hw|].
    destruct (accept_result err (hx_set_consumed n p')) as [r p'']. simpl in *. by rewrite Hl', <- Hl.
  - unfold hx_finish. destruct (bool_decide _); [done|]. destruct (_ && _); [done|].
    pose proof (drive_within hooks (ll_finish (hx_engine p)) p w Hh Hlim Hp) as Hw.
    destruct (drive_frame hooks (ll_finish (hx_engine p)) p w) as [Hl _].
    destruct (drive _ _ _ w) as [[[err pos] p'] w']. simpl in *. destruct (accept_within err p' Hw) as [Hw' Hl'].
    destruct (accept_result err p') as [r p'']. simpl in *. by rewrite Hl', <- Hl.
  - unfold hx_resume. destruct (hx_paused p); by split; [destruct Hp|].
Qed.

(** Memory bounds of the parser, whatever llhttp calls back and however the bytes are cut: after any
    sequence of feeds, ends of input and resumptions the target, the body, the bytes and the
    number of the header and trailer fields of the current message are within their limits. *)
Theorem parse_limits_hold hooks (ops : list parse_op) ty lim pause head w :
  hooks_within hooks → limits_nonneg lim →
  within (foldl (λ pw op, run_op hooks op pw) (hx_new ty lim pause head, w) ops).1.
Proof.
  intros Hh Hlim. assert (∀ ops p w, within p → hx_limits p = lim → within (foldl (λ pw op, run_op hooks op pw) (p, w) ops).1) as Hgo.
  { clear w. intros l. induction l as [|op l IH]; intros p w Hp Hl; [done|]. cbn [foldl].
    destruct (run_op_within hooks op p w Hh) as [Hw Hl']; [by rewrite Hl|done|].
    destruct (run_op hooks op (p, w)) as [p' w']. simpl in *. apply IH; [done|]. by rewrite Hl'. }
  apply Hgo; [|done]. destruct Hlim as (? & ? & ? & ?). by split; simpl.
Qed.

(** ** Errors and pauses last *)

(** Once a feed has refused its bytes, thrown the exception of a callback, or stopped after a message,
    every later feed answers the same without running llhttp or a callback again (until
    [reset] or, after a message, [resume]); only the count of consumed bytes goes back to 0. *)
Theorem feed_sticky hooks data data' p w p' w' w2 r :
  hx_feed hooks data p w = (r, p', w') →
  (r = Ok false → hx_feed hooks data' p' w2 = (Ok false, hx_set_consumed 0 p', w2)) ∧
  (∀ e, r = Throw e → hx_feed hooks data' p' w2 = (Throw e, p', w2)) ∧
  (r = Ok true → hx_paused p' = true → hx_feed hooks data' p' w2 = (Ok true, hx_set_consumed 0 p', w2)).
Proof.
  unfold hx_feed at 1. destruct (hx_callback_error p) as [e|] eqn:Hce.
  { intros [= <- <- <-]. split_and!; [done| |done]. intros e' [= <-]. unfold hx_feed. by rewrite Hce. }
  cbv zeta. destruct (hx_paused _) eqn:Hpa.
  { intros [= <- <- <-]. split_and!; [done|done|]. intros _ _. unfold hx_feed. simpl. rewrite Hce. simpl in Hpa. by rewrite Hpa. }
  destruct (bool_decide (is_Some _)) eqn:Her.
  { intros [= <- <- <-]. split_and!; [|done|done]. intros _. unfold hx_feed. simpl in *. by rewrite Hce, Hpa, Her. }
  destruct (bool_decide (data = [])).
  { intros [= <- <- <-]. split_and!; [done|done|]. intros _. simpl in *. by rewrite Hpa. }
  destruct (drive_frame hooks (ll_execute (hx_engine (hx_set_consumed 0 p)) data) (hx_set_consumed 0 p) w) as [_ Hp1].
  destruct (drive _ _ _ w) as [[[err pos] p1] w1]. unfold accept_result. simpl in *.
  destruct (hx_callback_error p1) as [e|] eqn:Hce1.
  { intros [= <- <- <-]. split_and!; [done| |done]. intros e' [= <-]. unfold hx_feed. simpl. by rewrite Hce1. }
  case_decide as Hok; intros [= <- <- <-]; (split_and!; [|done|]); try done.
  - intros _. simpl. intros Hp. unfold hx_feed. simpl. by rewrite Hce1, Hp.
  - intros _. unfold hx_feed. simpl. by rewrite Hce1, Hp1, Hpa.
Qed.
End limits.

(** ** Stopping at the end of a message *)

(** What llhttp documents of [HPE_PAUSED]: when the callback for a complete message returns it, the
    execution ends there with that code. *)
Fixpoint pauses {L} (run : ll_run L) : Prop :=
  match run with
  | LlDone _ _ _ => True
  | LlCall ev l k =>
      (∀ c, pauses (k c)) ∧ (ev = OnMessageComplete → ∃ pos l', k paused_code = LlDone HPE_PAUSED pos l')
  end.

Class LlhttpLaws (L : Type) `{Llhttp L} : Prop := {
  ll_execute_pauses : ∀ l data, pauses (ll_execute l data);
  ll_finish_pauses : ∀ l, pauses (ll_finish l);
}.

Definition no_hooks {L W} : parse_hooks (L := L) (W := W) :=
  mkHooks no_hook no_hook no_hook (λ _, no_hook) (λ _, no_hook) (λ _, no_hook) (λ _, no_hook).

Lemma no_hooks_within {L W} : hooks_within (@no_hooks L W).
Proof. split_and!; intros; intros p w Hp; by destruct p, Hp. Qed.

Section pausing.
Context {L W : Type} `{LlhttpLaws L}.
Implicit Types (p : http_parse (L := L)) (w : W).

Lemma on_event_pauses ev p w :
  hx_pause_after p = true → hx_completed p = false →
  hx_pause_after (on_event no_hooks ev p w).1.2 = true ∧
  (hx_completed (on_event no_hooks ev p w).1.2 = true → ev = OnMessageComplete ∧ (on_event no_hooks ev p w).1.1 = paused_code).
Proof.
  intros Hpa Hc. destruct ev; cbn [on_event]; cbv zeta; unfold call, no_hooks, no_hook; simpl; repeat case_match; simpl;
    try (split; [done|congruence]); try done; by rewrite Hpa.
Qed.

Lemma drive_pauses run p w :
  pauses run → hx_pause_after p = true → hx_completed p = false →
  hx_pause_after (drive no_hooks run p w).1.2 = true ∧
  (hx_completed (drive no_hooks run p w).1.2 = true → (drive no_hooks run p w).1.1.1 = HPE_PAUSED).
Proof.
  revert p w. induction run as [err pos l|ev l k IH]; intros p w Hr Hpa Hc; cbn [drive]; [simpl; by rewrite Hc|].
  destruct Hr as [Hk Hm]. destruct (on_event_pauses ev (hx_set_engine l p) w) as [Hpa' Hc']; [done|done|].
  destruct (on_event no_hooks ev _ w) as [[c p'] w']. simpl in Hpa', Hc'. destruct (hx_completed p') eqn:Hcp.
  - destruct (Hc' eq_refl) as [-> ->]. destruct (Hm eq_refl) as (pos & l' & ->). done.
  - by apply IH.
Qed.

(** A parser that pauses is paused exactly at the end of a message, or has failed. *)
Lemma feed_pauses data p w :
  hx_pause_after p = true → hx_completed p = false →
  hx_pause_after (hx_feed no_hooks data p w).1.2 = true ∧
  ((hx_feed no_hooks data p w).1.1 = Ok true → hx_completed (hx_feed no_hooks data p w).1.2 = true → hx_paused (hx_feed no_hooks data p w).1.2 = true).
Proof.
  intros Hpa Hc. unfold hx_feed. cbv zeta. destruct (hx_callback_error p); [done|]. destruct (hx_paused _) eqn:Hpd; [done|].
  destruct (bool_decide _); [done|]. destruct (bool_decide (data = [])); [simpl; by rewrite Hc|].
  destruct (drive_pauses (ll_execute (hx_engine (hx_set_consumed 0 p)) data) (hx_set_consumed 0 p) w) as [Hpa' Hc'];
    [apply ll_execute_pauses|done|done|].
  destruct (drive _ _ _ w) as [[[err pos] p'] w']. simpl in Hpa', Hc'. unfold accept_result. simpl.
  destruct (hx_callback_error p'); [done|]. case_decide; simpl; [|done]. split; [done|]. intros _ Hx. by rewrite Hc'.
Qed.
End pausing.

(** ** A small engine, for examples

    Each byte is a message: its target is "/" and the byte, 'c' asks to close the connection, 'h' has
    a header, and '!' is an error. *)

Definition toy_fail (pos : nat) (l : bool) : ll_run bool := LlDone (HPE_FAILED 4) (Some pos) l.
Definition toy_call (ev : ll_event) (pos : nat) (l : bool) (k : ll_run bool) : ll_run bool :=
  LlCall ev l (λ c, if decide (c = 0) then k else toy_fail pos l).

Fixpoint toy_run (l : bool) (data : str) (pos : nat) : ll_run bool :=
  match data with
  | [] => LlDone HPE_OK None l
  | c :: data =>
      if decide (c = "!"%char) then toy_fail pos l
      else
        let l := bool_decide (c ≠ "c"%char) in
        toy_call OnMessageBegin pos l (toy_call (OnUrl [slash; c]) pos l
          ((λ k, if decide (c = "h"%char)
                 then toy_call (OnHeaderField (lit "X")) pos l (toy_call (OnHeaderValue (lit "1")) pos l (toy_call OnHeaderValueComplete pos l k))
                 else k)
          (toy_call OnHeadersComplete pos l
            (LlCall OnMessageComplete l (λ r,
               if decide (r = paused_code) then LlDone HPE_PAUSED (Some (S pos)) l
               else if decide (r = 0) then toy_run l data (S pos) else toy_fail pos l)))))
  end.

#[export] Instance toy_llhttp : Llhttp bool := {|
  ll_init := λ _, true;
  ll_execute := λ l data, toy_run l data 0;
  ll_finish := λ l, LlDone HPE_OK None l;
  ll_resume := λ l, l;
  ll_get_type := λ _, HTTP_REQUEST;
  ll_should_keep_alive := λ l, l;
  ll_http_major := λ _, 1%nat;
  ll_http_minor := λ _, 1%nat;
  ll_status_code := λ _, 0;
  ll_method_name := λ _, lit "GET";
  ll_trailing := λ _, false;
|}.

Definition toy_limits : parse_limits := mkLimits 0 2 4 1.

Lemma parse_limits_hold_witness :
  len (pm_url (hx_res (foldl (λ pw op, run_op no_hooks op pw) (hx_new (L := bool) HTTP_REQUEST toy_limits true false, tt)
    [PFeed (lit "ha"); PResume; PFeed (lit "a!"); PFinish]).1)) ≤ 2.
Proof.
  assert (limits_nonneg toy_limits) as Hlim by (split_and!; vm_compute; discriminate).
  destruct (parse_limits_hold no_hooks [PFeed (lit "ha"); PResume; PFeed (lit "a!"); PFinish] HTTP_REQUEST toy_limits true false tt
    no_hooks_within Hlim) as [Hu _ _ _ _ _].
  apply Hu. vm_compute. discriminate.
Defined.

Lemma feed_sticky_witness :
  ∃ p, hx_feed no_hooks (lit "a!") (hx_new (L := bool) HTTP_REQUEST toy_limits false false) tt = (Ok false, p, tt) ∧
       hx_feed no_hooks (lit "b") p tt = (Ok false, hx_set_consumed 0 p, tt).
Proof.
  eexists. split; [vm_compute; reflexivity|].
  refine (proj1 (feed_sticky no_hooks (lit "a!") (lit "b") (hx_new (L := bool) HTTP_REQUEST toy_limits false false) tt _ tt tt (Ok false) _) _).
  - vm_compute. reflexivity.
  - reflexivity.
Defined.

#[export] Instance toy_laws : LlhttpLaws bool.
Proof.
  assert (∀ data l pos, pauses (toy_run l data pos)) as Hr.
  { induction data as [|c data IH]; intros l pos; cbn [toy_run]; [done|]. case_decide; [done|]. cbv zeta.
    assert (∀ ev pos l k, ev ≠ OnMessageComplete → pauses k → pauses (toy_call ev pos l k)) as Hcall.
    { intros ev pos' l' k Hev Hk. split; [|done]. intros x. by case_decide. }
    assert (∀ l pos, pauses (LlCall OnMessageComplete l (λ r, if decide (r = paused_code) then LlDone HPE_PAUSED (Some (S pos)) l
       else if decide (r = 0) then toy_run l data (S pos) else toy_fail pos l))) as Hend.
    { intros l' pos'. split; [intros x; case_decide; [done|by case_decide]|]. intros _. rewrite decide_True by done. by eexists _, _. }
    apply Hcall; [done|]. apply Hcall; [done|]. case_decide; repeat (apply Hcall; [done|]); apply Hend. }
  split; [intros l data; apply Hr|done].
Qed.
