(* ===== verification/WebServer.v ===== *)
(** * WebServer: the coroutine of a connection ([web_server::process_connection])

    [src/Web/src/web_server.cpp].  The socket, the clock, the configuration atomics, the router
    and whether [wait_for] cuts a task off are operations of a record, over any world.  The loop of a
    connection has fuel, one unit for each read. *)

From S2P Require Import Prelude HttpMsg Middleware HttpParse.
From Stdlib Require Import Ascii.
From stdpp Require Import options.
#[local] Set Default Proof Using "Type*".
Local Open Scope Z_scope.

(** The counters of responses; 64-bit atomics. *)
Record web_stats : Type := mkStats {
  ws_requests : Z;
  ws_errors : Z;
}.

Definition record_response (status : Z) (s : web_stats) : web_stats :=
  mkStats (u64_succ (ws_requests s)) (if (400 <=? status) && (status <? 600) then u64_succ (ws_errors s) else ws_errors s).

(** [stricter_timeout]: not positive means no limit. *)
Definition stricter_timeout (a b : Z) : Z := if a <=? 0 then b else if b <=? 0 then a else Z.min a b.

Definition ns_per_ms : Z := 1000000.

(** The locals of [process_connection]; [cl_seen] is a history variable, the requests that the
    parser has completed. *)
Record conn_local : Type := mkConn {
  cl_pending : list http_request;
  cl_in_progress : bool;
  cl_deadline : option Z;
  cl_seen : list http_request;
}.
Definition conn_new : conn_local := mkConn [] false None [].

(** A response that was written completely: the request it answers (none for a parse error) and
    whether the connection goes on. *)
Record exchange : Type := mkExchange {
  ex_request : option http_request;
  ex_response : http_response;
  ex_keep : bool;
}.
Definition answered (l : list exchange) : list http_request := omap ex_request l.

Inductive conn_outcome : Type :=
  | Finished (r : res unit)      (* the coroutine is over *)
  | OutOfFuel.

Section connection.
Context {L W : Type} `{Llhttp L}.

Record conn_env : Type := mkEnv {
  ce_now : W → Z;
  ce_idle_timeout : W → Z;
  ce_request_timeout : W → Z;
  ce_write_timeout : W → Z;
  ce_handler_timeout : W → Z;
  ce_stats : W → web_stats;
  ce_set_stats : web_stats → W → W;
  ce_cut : Z → W → option W;                        (* the deadline strikes first *)
  ce_sock_read : W → Z * str * W;
  ce_sock_write : str → W → Z * W;
  ce_route : terminal W;
}.
Variable env : conn_env.
Implicit Types (w : W) (cl : conn_local) (p : http_parse (L := L)) (rq : http_request).

(** [wait_for] under a positive timeout. *)
Definition with_timeout {A} (timeout : Z) (task : W → res A * W) w : res A * W :=
  if timeout <=? 0 then task w
  else match ce_cut env timeout w with Some w => (Throw TimeoutError, w) | None => task w end.

(** [write_all]: the socket takes a part at a time. *)
Fixpoint write_loop (fuel : nat) (data : str) w : res bool * W :=
  match fuel with
  | O => (Ok true, w)
  | S fuel =>
      match data with
      | [] => (Ok true, w)
      | _ =>
          let '(n, w) := ce_sock_write env data w in
          if n <=? 0 then (Ok false, w) else write_loop fuel (drop (Z.to_nat n) data) w
      end
  end.
Definition write_all (data : str) w : res bool * W := write_loop (length data) data w.

Definition read_once w : res (Z * str) * W := let '(n, data, w) := ce_sock_read env w in (Ok (n, data), w).

(** The exception barrier around the router. *)
Definition dispatch : terminal W := λ rq w,
  match ce_route env rq w with
  | (Throw CancelledError, rq, w) => (Throw CancelledError, rq, w)
  | (Throw _, rq, w) => (Ok (rs_error 500 (lit "internal server error")), rq, w)
  | (Ok resp, rq, w) => (Ok resp, rq, w)
  end.

(** The response to a request and whether to keep the connection. *)
Definition respond rq w : res http_response * bool * W :=
  let timeout := ce_handler_timeout env w in
  match (if 0 <? timeout then ce_cut env timeout w else None) with
  | Some w => (Ok (rs_error 503 (lit "handler timeout")), false, w)
  | None => let '(r, rq, w) := dispatch rq w in (r, rq_keep_alive rq, w)
  end.

Definition record w (status : Z) : W := ce_set_stats env (record_response status (ce_stats env w)) w.

(** Phase A: [None] goes on to read, [Some] ends the coroutine. *)
Fixpoint serve_pending (pending : list http_request) w : option (res unit) * list exchange * W :=
  match pending with
  | [] => (None, [], w)
  | rq :: pending =>
      let is_head := bool_decide (rq_method rq = lit "HEAD") in
      let '(r, keep, w) := respond rq w in
      match r with
      | Throw e => (Some (Throw e), [], w)
      | Ok resp =>
          match rs_build is_head resp with
          | Throw e => (Some (Throw e), [], w)
          | Ok wire =>
              match with_timeout (ce_write_timeout env w) (write_all wire) w with
              | (Throw e, w) => (Some (if decide (e = TimeoutError) then Ok tt else Throw e), [], w)
              | (Ok false, w) => (Some (Ok tt), [], w)
              | (Ok true, w) =>
                  let w := record w (rs_status resp) in
                  let ex := mkExchange (Some rq) resp keep in
                  if keep then let '(o, l, w) := serve_pending pending w in (o, ex :: l, w)
                  else (Some (Ok tt), [ex], w)
              end
          end
      end
  end.

(** The callbacks of the parser. *)
Definition on_begin : hook (L := L) (W := conn_local * W) := λ p '(cl, w),
  let timeout := ce_request_timeout env w in
  let deadline := if 0 <? timeout then Some (ce_now env w + timeout * ns_per_ms) else None in
  (Ok tt, hx_res p, (mkConn (cl_pending cl) true deadline (cl_seen cl), w)).

Definition request_of p : http_request :=
  let r := hx_res p in mkRequest (pm_method r) (pm_url r) (pm_version r) (pm_body r) (pm_headers r) (hx_keep_alive p) [].

Definition on_complete : hook (L := L) (W := conn_local * W) := λ p '(cl, w),
  let r := hx_res p in
  (Ok tt, mkResult [] [] [] (pm_status r) [] [] (pm_fields r) (pm_trailers r),
   (mkConn (cl_pending cl ++ [request_of p]) false None (cl_seen cl ++ [request_of p]), w)).

Definition conn_hooks : parse_hooks (L := L) (W := conn_local * W) :=
  mkHooks on_begin on_complete no_hook (λ _, no_hook) (λ _, no_hook) (λ _, no_hook) (λ _, no_hook).

(** The time limit of the next read; [None] when the request is already late. *)
Definition read_timeout cl w : option Z :=
  let idle := ce_idle_timeout env w in
  if cl_in_progress cl then
    match cl_deadline cl with
    | None => Some idle
    | Some d =>
        if d <=? ce_now env w then None
        else
          let remaining := (d - ce_now env w) `quot` ns_per_ms in
          Some (stricter_timeout idle (if remaining =? 0 then 1 else remaining))
    end
  else Some idle.

Definition bad_request : http_response := rs_error 400 (lit "bad request").

(** The answer to a parse error. *)
Definition refuse w : conn_outcome * list exchange * W :=
  match rs_build false bad_request with
  | Throw e => (Finished (Throw e), [], w)
  | Ok wire =>
      match with_timeout (ce_write_timeout env w) (write_all wire) w with
      | (Throw e, w) => (Finished (if decide (e = TimeoutError) then Ok tt else Throw e), [], w)
      | (Ok false, w) => (Finished (Ok tt), [], w)
      | (Ok true, w) => (Finished (Ok tt), [mkExchange None bad_request false], record w (rs_status bad_request))
      end
  end.

(** The loop of [process_connection]. *)
Fixpoint connection_loop (fuel : nat) p cl w : conn_outcome * list exchange * conn_local * W :=
  match fuel with
  | O => (OutOfFuel, [], cl, w)
  | S fuel =>
      let '(o, l, w) := serve_pending (cl_pending cl) w in
      let cl := mkConn [] (cl_in_progress cl) (cl_deadline cl) (cl_seen cl) in
      match o with
      | Some r => (Finished r, l, cl, w)
      | None =>
          match read_timeout cl w with
          | None => (Finished (Ok tt), l, cl, w)
          | Some timeout =>
              match with_timeout timeout read_once w with
              | (Throw e, w) => (Finished (if decide (e = TimeoutError) then Ok tt else Throw e), l, cl, w)
              | (Ok (n, data), w) =>
                  if n <=? 0 then (Finished (Ok tt), l, cl, w)
                  else
                    match hx_feed conn_hooks data p (cl, w) with
                    | (Throw e, _, (cl, w)) => (Finished (Throw e), l, cl, w)
                    | (Ok false, _, (cl, w)) => let '(o, l', w) := refuse w in (o, l ++ l', cl, w)
                    | (Ok true, p, (cl, w)) => let '(o, l', cl, w) := connection_loop fuel p cl w in (o, l ++ l', cl, w)
                    end
              end
          end
      end
  end.

Definition process_connection (fuel : nat) (max_body : Z) w : conn_outcome * list exchange * conn_local * W :=
  connection_loop fuel (hx_new HTTP_REQUEST (mkLimits max_body 8192 65536 100) false false) conn_new w.
End connection.
Arguments conn_env : clear implicits.

(** ** Requests are answered in order, once *)

Section in_order.
Context {L W : Type} `{Llhttp L}.
Variable env : conn_env W.
Implicit Types (w : W) (cl : conn_local) (p : http_parse (L := L)) (rq : http_request) (l : list exchange).

(** The locals after some callbacks: the requests completed were queued. *)
Definition queued cl cl' : Prop :=
  ∃ new, cl_seen cl' = cl_seen cl ++ new ∧ cl_pending cl' = cl_pending cl ++ new.

Lemma queued_refl cl : queued cl cl.
Proof. exists []. by rewrite !app_nil_r. Qed.

Lemma queued_trans cl cl' cl'' : queued cl cl' → queued cl' cl'' → queued cl cl''.
Proof. intros (n & Hs & Hp) (n' & Hs' & Hp'). exists (n ++ n'). by rewrite Hs', Hp', Hs, Hp, !app_assoc. Qed.

Lemma call_queued hk code p cl w :
  (∀ p cl w, queued cl (hk p (cl, w)).2.1) → queued cl (call (L := L) (W := conn_local * W) hk code p (cl, w)).2.1.
Proof. intros Hk. unfold call. specialize (Hk p cl w). by destruct (hk p (cl, w)) as [[[?|?] r] [cl' w']]. Qed.

Lemma hooks_queued : 
  (∀ p cl w, queued cl (on_begin (L := L) env p (cl, w)).2.1) ∧ (∀ p cl w, queued cl (on_complete (L := L) p (cl, w)).2.1).
Proof. split; intros p cl w; [exists []; by rewrite !app_nil_r|by exists [request_of p]]. Qed.

Lemma on_event_queued ev p cl w : queued cl (on_event (conn_hooks env) ev p (cl, w)).2.1.
Proof.
  destruct hooks_queued as [Hb Hc].
  assert (∀ p cl w, queued cl (no_hook (L := L) p (cl, w)).2.1) as Hn by (intros; apply queued_refl).
  destruct ev; cbn [on_event]; cbv zeta; repeat case_match; try apply queued_refl;
    apply call_queued; simpl; auto.
Qed.

Lemma drive_queued run p cl w : queued cl (drive (conn_hooks env) run p (cl, w)).2.1.
Proof.
  revert p cl w. induction run as [err pos e|ev e k IH]; intros p cl w; [apply queued_refl|]. cbn [drive].
  pose proof (on_event_queued ev (hx_set_engine e p) cl w) as Hq.
  destruct (on_event _ _ _ _) as [[c p'] [cl' w']]. simpl in Hq. eapply queued_trans; [exact Hq|apply IH].
Qed.

Lemma feed_queued data p cl w : queued cl (hx_feed (conn_hooks env) data p (cl, w)).2.1.
Proof.
  unfold hx_feed. cbv zeta. destruct (hx_callback_error p); [apply queued_refl|]. destruct (hx_paused _); [apply queued_refl|].
  destruct (bool_decide _); [apply queued_refl|]. destruct (bool_decide _); [apply queued_refl|].
  match goal with |- context [drive ?h ?r ?q ?v] => pose proof (drive_queued r q cl w) as Hq; destruct (drive h r q v) as [[[err pos] p'] [cl' w']] end.
  simpl in Hq. by destruct (accept_result _ _).
Qed.

(** All but the last exchange answer a request and keep the connection. *)
Definition kept ex : Prop := ex_keep ex = true ∧ is_Some (ex_request ex).
Definition init_kept l : Prop := ∀ i ex, l !! i = Some ex → (S i < length l)%nat → kept ex.

Lemma init_kept_app l l' : Forall kept l → init_kept l' → init_kept (l ++ l').
Proof.
  intros Hl Hl' i ex Hi Hlt. apply lookup_app_Some in Hi as [Hi|[Hge Hi]].
  - rewrite Forall_forall in Hl. apply Hl. by eapply list_elem_of_lookup_2.
  - eapply Hl'; [exact Hi|]. rewrite length_app in Hlt. lia.
Qed.

Lemma init_kept_single ex : init_kept [ex].
Proof. intros [|i] e Hi Hlt; simpl in *; lia. Qed.

Lemma serve_pending_spec pending w :
  let '(o, l, w') := serve_pending env pending w in
  answered l `prefix_of` pending ∧ init_kept l ∧ (o = None → answered l = pending ∧ Forall kept l).
Proof.
  revert w. induction pending as [|rq pending IH]; intros w; cbn [serve_pending]; [by split_and!|].
  cbv zeta. destruct (respond env rq w) as [[r keep] w1]. destruct r as [resp|e]; [|split_and!; [apply prefix_nil|done|done]].
  destruct (rs_build _ resp) as [wire|e]; [|split_and!; [apply prefix_nil|done|done]].
  destruct (with_timeout _ _ _ w1) as [[[|]|e] w2]; [|split_and!; [apply prefix_nil|done|done]..].
  destruct keep.
  - specialize (IH (record env w2 (rs_status resp))). destruct (serve_pending env pending _) as [[o l] w3].
    destruct IH as (Hpre & Hin & Hall). unfold answered. simpl. split_and!.
    + by apply prefix_cons.
    + apply (init_kept_app [_]); [|done]. constructor; [by split|constructor].
    + intros Ho. destruct (Hall Ho) as [<- Hk]. split; [done|]. constructor; [by split|done].
  - split_and!; [|apply init_kept_single|done]. unfold answered. simpl. apply prefix_cons, prefix_nil.
Qed.

Lemma refuse_spec w : let '(o, l, _) := refuse env w in answered l = [] ∧ init_kept l ∧ o ≠ OutOfFuel.
Proof.
  unfold refuse. destruct (rs_build _ _); [|done]. destruct (with_timeout _ _ _ w) as [[[|]|e] w2]; [|done|done].
  split_and!; [done|apply init_kept_single|done].
Qed.

Lemma connection_loop_spec fuel p cl w :
  let '(o, l, cl', w') := connection_loop env fuel p cl w in
  ∃ new, cl_seen cl' = cl_seen cl ++ new ∧ answered l `prefix_of` cl_pending cl ++ new ∧ init_kept l ∧
    (o = OutOfFuel → answered l ++ cl_pending cl' = cl_pending cl ++ new ∧ Forall kept l).
Proof.
  revert p cl w. induction fuel as [|fuel IH]; intros p cl w; cbn [connection_loop].
  { exists []. rewrite !app_nil_r. split_and!; [done|apply prefix_nil|done|done]. }
  pose proof (serve_pending_spec (cl_pending cl) w) as Hs. destruct (serve_pending env (cl_pending cl) w) as [[o l] w1].
  destruct Hs as (Hpre & Hin & Hall). cbv zeta. set (cl1 := mkConn [] _ _ _).
  assert (∀ r, ∃ new, cl_seen cl1 = cl_seen cl ++ new ∧ answered l `prefix_of` cl_pending cl ++ new ∧ init_kept l ∧
    (Finished r = OutOfFuel → answered l ++ cl_pending cl1 = cl_pending cl ++ new ∧ Forall kept l)) as Hstop.
  { intros r. exists []. rewrite !app_nil_r. by split_and!. }
  destruct o as [r|]; [apply Hstop|]. destruct (Hall eq_refl) as [Hans Hk].
  destruct (read_timeout env cl1 w1) as [timeout|]; [|apply Hstop].
  destruct (with_timeout _ _ _ w1) as [[[n data]|e] w2]; [|apply Hstop]. destruct (n <=? 0); [apply Hstop|].
  pose proof (feed_queued data p cl1 w2) as (new & Hseen & Hpend). simpl in Hpend.
  destruct (hx_feed _ data p (cl1, w2)) as [[r p'] [cl2 w3]]. simpl in Hseen, Hpend. destruct r as [[|]|e].
  - specialize (IH p' cl2 w3). destruct (connection_loop env fuel p' cl2 w3) as [[[o l'] cl3] w4].
    destruct IH as (new' & Hs' & Hp' & Hi' & Ho'). exists (new ++ new').
    rewrite Hs', Hseen, <- app_assoc. unfold answered in *. rewrite omap_app, Hans. rewrite Hpend in *. split_and!.
    + done.
    + by apply prefix_app.
    + by apply init_kept_app.
    + intros Ho. destruct (Ho' Ho) as [Ha Hk']. rewrite <- app_assoc, Ha. split; [done|]. by apply Forall_app.
  - pose proof (refuse_spec w3) as Hr. destruct (refuse env w3) as [[o l'] w4]. destruct Hr as (Ha & Hi & Ho).
    exists new. unfold answered in *. rewrite omap_app, Hans, Ha, app_nil_r. split_and!; [done|by eexists|by apply init_kept_app|done].
  - exists new. split_and!; [done|rewrite Hans; by eexists|done|done].
Qed.
End in_order.


(** ** Exceptions *)

(** Only a cancellation passes the barrier around the router; other exceptions become a 500 and
    a response is passed on as it is. *)
Lemma dispatch_barrier {W} (env : conn_env W) rq w :
  match (ce_route env rq w).1.1, (dispatch env rq w).1.1 with
  | Ok resp, Ok resp' => resp' = resp
  | Throw e, Ok resp => e ≠ CancelledError ∧ resp = rs_error 500 (lit "internal server error")
  | Throw e, Throw e' => e = CancelledError ∧ e' = CancelledError
  | Ok _, Throw _ => False
  end.
Proof. unfold dispatch. by destruct (ce_route env rq w) as [[[resp|[]] rq'] w']. Qed.

(** A response that cannot be serialized (a status out of range, a header with a line break) is built
    outside of that barrier: the connection ends with the exception and nothing is written. *)
Lemma unbuildable_response {W} (env : conn_env W) rq pending w resp keep w1 e :
  respond env rq w = (Ok resp, keep, w1) → rs_build (bool_decide (rq_method rq = lit "HEAD")) resp = Throw e →
  serve_pending env (rq :: pending) w = (Some (Throw e), [], w1).
Proof. intros Hr Hb. cbn [serve_pending]. cbv zeta. by rewrite Hr, Hb. Qed.

(** A parse error drops the requests that were completed by the same read: whatever they are, the
    client gets the 400 and no response to them, so the 400 stands where their responses belong. *)
Theorem parse_error_drops_requests {L W} `{Llhttp L} (env : conn_env W) fuel p cl w timeout n data w1 p' cl' w2 wire w3 :
  cl_pending cl = [] → read_timeout env cl w = Some timeout →
  with_timeout env timeout (read_once env) w = (Ok (n, data), w1) → 0 < n →
  hx_feed (conn_hooks env) data p (mkConn [] (cl_in_progress cl) (cl_deadline cl) (cl_seen cl), w1) = (Ok false, p', (cl', w2)) →
  rs_build false bad_request = Ok wire → with_timeout env (ce_write_timeout env w2) (write_all env wire) w2 = (Ok true, w3) →
  connection_loop env (S fuel) p cl w = (Finished (Ok tt), [mkExchange None bad_request false], cl', record env w3 400) ∧
  cl_seen cl' = cl_seen cl ++ cl_pending cl'.
Proof.
  intros Hpend Ht Hread Hn Hfeed Hbuild Hwrite. split.
  - cbn [connection_loop]. rewrite Hpend. cbn [serve_pending]. cbv zeta.
    assert (read_timeout env (mkConn [] (cl_in_progress cl) (cl_deadline cl) (cl_seen cl)) w = Some timeout) as -> by done.
    rewrite Hread. rewrite (proj2 (Z.leb_gt n 0)) by done. rewrite Hfeed. unfold refuse. by rewrite Hbuild, Hwrite.
  - pose proof (feed_queued env data p (mkConn [] (cl_in_progress cl) (cl_deadline cl) (cl_seen cl)) w1) as (new & Hs & Hp).
    rewrite Hfeed in Hs, Hp. simpl in *. by rewrite Hs, Hp.
Qed.

(** A witness: a peer that sends two bytes of the small engine, a request and an error. *)
Definition toy_env : conn_env (list str * list str) := {|
  ce_now := λ _, 0;
  ce_idle_timeout := λ _, 30000; ce_request_timeout := λ _, 30000; ce_write_timeout := λ _, 30000; ce_handler_timeout := λ _, 0;
  ce_stats := λ _, mkStats 0 0; ce_set_stats := λ _ w, w;
  ce_cut := λ _ _, None;
  ce_sock_read := λ w, match w.1 with [] => (0, [], w) | d :: ds => (len d, d, (ds, w.2)) end;
  ce_sock_write := λ d w, (len d, (w.1, w.2 ++ [d]));
  ce_route := λ rq w, (Ok (rs_text (rq_url rq) 200), rq, w);
|}.

Definition toy_parser : http_parse (L := bool) := hx_new HTTP_REQUEST (mkLimits 100 100 100 100) false false.

Lemma parse_error_drops_requests_witness :
  (connection_loop toy_env 2 toy_parser conn_new ([lit "a!"], [])).1.1.2 = [mkExchange None bad_request false] ∧
  rq_url <$> cl_seen (connection_loop toy_env 2 toy_parser conn_new ([lit "a!"], [])).1.2 = [lit "/a"].
Proof.
  assert (∃ wire, rs_build false bad_request = Ok wire) as [wire Hwire] by (eexists; vm_compute; reflexivity).
  destruct (with_timeout toy_env 30000 (write_all toy_env wire) ([], [])) as [r w3] eqn:Hw.
  assert (r = Ok true) as -> by (injection Hwire as <-; vm_compute in Hw; by injection Hw as <-).
  set (cl' := mkConn [mkRequest (lit "GET") (lit "/a") (lit "1.1") [] [] true []] false None
                     [mkRequest (lit "GET") (lit "/a") (lit "1.1") [] [] true []]).
  destruct (parse_error_drops_requests toy_env 1 toy_parser conn_new ([lit "a!"], []) 30000 2 (lit "a!") ([], [])
    (hx_feed (conn_hooks toy_env) (lit "a!") toy_parser (conn_new, ([], []))).1.2 cl' ([], []) wire w3) as [-> Hs].
  - reflexivity.
  - reflexivity.
  - reflexivity.
  - lia.
  - vm_compute. reflexivity.
  - exact Hwire.
  - exact Hw.
  - split; reflexivity.
Defined.

(** The same bytes in two reads: the request is answered first. *)
Example two_reads_answered :
  (λ ex, rs_status (ex_response ex)) <$>
    (connection_loop toy_env 3 toy_parser conn_new ([lit "a"; lit "!"], [])).1.1.2 = [200; 400].
Proof. vm_compute. reflexivity. Qed.

(** ** Termination *)

Section termination.
Context {L W : Type} `{Llhttp L}.
Variable env : conn_env W.
Variable left : W → nat.

(** A peer with [left w] reads left to give: a read that gives bytes uses one up, nothing else adds one. *)
Record finite_peer : Prop := {
  fp_read : ∀ w n data w', ce_sock_read env w = (n, data, w') → 0 < n → (left w' < left w)%nat;
  fp_write : ∀ data w, (left (ce_sock_write env data w).2 ≤ left w)%nat;
  fp_route : ∀ rq w, (left (ce_route env rq w).2 ≤ left w)%nat;
  fp_cut : ∀ t w w', ce_cut env t w = Some w' → (left w' ≤ left w)%nat;
  fp_stats : ∀ s w, (left (ce_set_stats env s w) ≤ left w)%nat;
}.
Hypothesis Hpeer : finite_peer.

Lemma write_loop_left fuel data w : (left (write_loop env fuel data w).2 ≤ left w)%nat.
Proof.
  revert data w. induction fuel as [|fuel IH]; intros data w; [done|]. cbn [write_loop]. destruct data as [|c data]; [done|].
  pose proof (fp_write Hpeer (c :: data) w). destruct (ce_sock_write env _ w) as [n w'].
  simpl in *. destruct (n <=? 0); [done|]. etrans; [apply IH|done].
Qed.

Lemma with_timeout_left {A} timeout (task : W → res A * W) w :
  (left (task w).2 ≤ left w)%nat → (left (with_timeout env timeout task w).2 ≤ left w)%nat.
Proof.
  intros Ht. unfold with_timeout. destruct (timeout <=? 0); [done|]. destruct (ce_cut env timeout w) as [w'|] eqn:Hc; [|done].
  simpl. by eapply fp_cut.
Qed.

Lemma respond_left rq w : (left (respond env rq w).2 ≤ left w)%nat.
Proof.
  unfold respond. cbv zeta. destruct (0 <? ce_handler_timeout env w); [destruct (ce_cut env _ w) as [w'|] eqn:Hc|].
  - simpl. by eapply fp_cut.
  - unfold dispatch. pose proof (fp_route Hpeer rq w). destruct (ce_route env rq w) as [[[?|[]] rq'] w']; done.
  - unfold dispatch. pose proof (fp_route Hpeer rq w). destruct (ce_route env rq w) as [[[?|[]] rq'] w']; done.
Qed.

Lemma serve_pending_left pending w : (left (serve_pending env pending w).2 ≤ left w)%nat.
Proof.
  revert w. induction pending as [|rq pending IH]; intros w; cbn [serve_pending]; [done|]. cbv zeta.
  pose proof (respond_left rq w) as Hr. destruct (respond env rq w) as [[r keep] w1]. simpl in Hr.
  destruct r as [resp|e]; [|done]. destruct (rs_build _ resp) as [wire|e]; [|done].
  assert (left (with_timeout env (ce_write_timeout env w1) (write_all env wire) w1).2 ≤ left w1)%nat as Hw
    by apply with_timeout_left, write_loop_left.
  destruct (with_timeout _ _ _ w1) as [[[|]|e] w2]; simpl in *; [|lia|lia].
  pose proof (fp_stats Hpeer (record_response (rs_status resp) (ce_stats env w2)) w2). unfold record in *.
  destruct keep; simpl; [|lia]. specialize (IH (ce_set_stats env (record_response (rs_status resp) (ce_stats env w2)) w2)).
  destruct (serve_pending env pending _) as [[o l] w3]. simpl in *. lia.
Qed.

Lemma hooks_left ev p cl w : (on_event (conn_hooks (L := L) env) ev p (cl, w)).2.2 = w.
Proof. destruct ev; cbn [on_event]; cbv zeta; repeat case_match; done. Qed.

Lemma drive_left run p cl w : (drive (conn_hooks (L := L) env) run p (cl, w)).2.2 = w.
Proof.
  revert p cl w. induction run as [err pos e|ev e k IH]; intros p cl w; [done|]. cbn [drive].
  pose proof (hooks_left ev (hx_set_engine e p) cl w) as He. destruct (on_event _ _ _ _) as [[c p'] [cl' w']].
  simpl in He. subst w'. apply IH.
Qed.

Lemma feed_left data p cl w : (hx_feed (conn_hooks (L := L) env) data p (cl, w)).2.2 = w.
Proof.
  unfold hx_feed. cbv zeta. destruct (hx_callback_error p); [done|]. destruct (hx_paused _); [done|].
  destruct (bool_decide _); [done|]. destruct (bool_decide _); [done|].
  match goal with |- context [drive ?h ?r ?q ?v] => pose proof (drive_left r q cl w) as Hd; destruct (drive h r q v) as [[[err pos] p'] [cl' w']] end.
  simpl in Hd. by destruct (accept_result _ _).
Qed.

Lemma connection_loop_ends fuel p cl w : (left w < fuel)%nat → (connection_loop (L := L) env fuel p cl w).1.1.1 ≠ OutOfFuel.
Proof.
  revert p cl w. induction fuel as [|fuel IH]; intros p cl w Hf; [lia|]. cbn [connection_loop].
  pose proof (serve_pending_left (cl_pending cl) w) as Hs. destruct (serve_pending env _ w) as [[o l] w1]. simpl in Hs. cbv zeta.
  destruct o as [r|]; [done|]. destruct (read_timeout env _ w1) as [timeout|]; [|done].
  destruct (with_timeout _ _ _ w1) as [[[n data]|e] w2] eqn:Hr; [|done]. destruct (n <=? 0) eqn:Hn; [done|].
  assert (left w2 < left w1)%nat as Hlt.
  { unfold with_timeout, read_once in Hr. apply Z.leb_gt in Hn.
    destruct (timeout <=? 0); [|destruct (ce_cut env timeout w1); [done|]];
      destruct (ce_sock_read env w1) as [[n' d'] w'] eqn:Hread; simplify_eq; by eapply fp_read. }
  pose proof (feed_left data p (mkConn [] (cl_in_progress cl) (cl_deadline cl) (cl_seen cl)) w2) as Hfl.
  destruct (hx_feed _ _ _ _) as [[[[|]|e] p'] [cl' w3]]; simpl in Hfl; subst w3.
  - specialize (IH p' cl' w2). destruct (connection_loop env fuel p' cl' w2) as [[[o l'] cl''] w4]. apply IH. lia.
  - pose proof (refuse_spec env w2) as Hrf. destruct (refuse env w2) as [[o l'] w4]. by destruct Hrf as (_ & _ & ?).
  - done.
Qed.
End termination.

(** The coroutine of a connection ends: with a peer that sends finitely often, more fuel than it has
    reads left is enough, whatever the parser, the handlers and the timeouts do. *)
Theorem connection_ends {L W} `{Llhttp L} (env : conn_env W) (left : W → nat) fuel max_body w :
  finite_peer env left → (left w < fuel)%nat → ∃ r, (process_connection env fuel max_body w).1.1.1 = Finished r.
Proof.
  intros Hp Hf. unfold process_connection. pose proof (connection_loop_ends env left Hp fuel (hx_new HTTP_REQUEST (mkLimits max_body 8192 65536 100) false false) conn_new w Hf) as Hne.
  destruct (connection_loop env fuel _ conn_new w).1.1.1 as [r|]; [by exists r|done].
Qed.

Lemma connection_ends_witness :
  ∃ r, (process_connection toy_env 3 1000 ([lit "ab"; lit "c"], [])).1.1.1 = Finished r.
Proof.
  apply (connection_ends toy_env (λ w, length w.1)).
  - split; simpl; try done.
    intros [ds out] n data w' Hr Hn. simpl in *. destruct ds as [|d ds]; simplify_eq/=; [done|lia].
  - simpl. lia.
Defined.
