(* ===== verification/WebConns.v ===== *)
(** * WebConns: the accept loop, the set of connections and [stop] ([web_server])

    [src/Web/src/web_server.cpp].  The accept loop, the thread that calls [stop] and the
    coroutines of the connections run in steps: each step is a part of the code between two points
    where another thread can come in (a critical section of [connections_mutex_], an atomic
    access, a system call). *)

From S2P Require Import Prelude.
From stdpp Require Import options.
Local Open Scope Z_scope.

Section connections.

(** Where [serve] is: at the head of its loop, in [accept_noattach], with a connection that is not
    registered yet, with one that is, or over. *)
Inductive accept_pc : Type :=
  | AcLoop
  | AcWaiting
  | AcAccepted (c : nat)
  | AcRegistered (c : nat)
  | AcStopped.

(** Where [stop] is: not called, after the flag, after closing the listener, and with the connections of
    the snapshot that are left to shut down. *)
Inductive stop_pc : Type :=
  | StNone
  | StFlag
  | StClosed
  | StSnapshot (rem : list nat).

Record server : Type := mkServer {
  sv_running : bool;
  sv_listening : bool;
  sv_conns : gset nat;
  sv_in_flight : Z;
  sv_peak : Z;
  sv_tasks : gset nat;         (* connections whose coroutine has been spawned and not ended *)
  sv_shut : gset nat;          (* sockets that were shut down or closed *)
  sv_next : nat;
  sv_accept : accept_pc;
  sv_stop : stop_pc;
}.
Implicit Types (s : server) (c : nat).

Definition sv_init : server := mkServer false false ∅ 0 0 ∅ ∅ 0 AcStopped StNone.

Definition sv_set_accept a s : server :=
  mkServer (sv_running s) (sv_listening s) (sv_conns s) (sv_in_flight s) (sv_peak s) (sv_tasks s) (sv_shut s) (sv_next s) a (sv_stop s).
Definition sv_set_stop st s : server :=
  mkServer (sv_running s) (sv_listening s) (sv_conns s) (sv_in_flight s) (sv_peak s) (sv_tasks s) (sv_shut s) (sv_next s) (sv_accept s) st.
Definition sv_set_running b s : server :=
  mkServer b (sv_listening s) (sv_conns s) (sv_in_flight s) (sv_peak s) (sv_tasks s) (sv_shut s) (sv_next s) (sv_accept s) (sv_stop s).
Definition sv_set_listening b s : server :=
  mkServer (sv_running s) b (sv_conns s) (sv_in_flight s) (sv_peak s) (sv_tasks s) (sv_shut s) (sv_next s) (sv_accept s) (sv_stop s).
Definition sv_set_conns cs n peak s : server :=
  mkServer (sv_running s) (sv_listening s) cs n peak (sv_tasks s) (sv_shut s) (sv_next s) (sv_accept s) (sv_stop s).
Definition sv_set_tasks ts s : server :=
  mkServer (sv_running s) (sv_listening s) (sv_conns s) (sv_in_flight s) (sv_peak s) ts (sv_shut s) (sv_next s) (sv_accept s) (sv_stop s).
Definition sv_shutdown c s : server :=
  mkServer (sv_running s) (sv_listening s) (sv_conns s) (sv_in_flight s) (sv_peak s) (sv_tasks s) ({[c]} ∪ sv_shut s) (sv_next s) (sv_accept s) (sv_stop s).
Definition sv_accepted s : server :=
  mkServer (sv_running s) (sv_listening s) (sv_conns s) (sv_in_flight s) (sv_peak s) (sv_tasks s) (sv_shut s) (S (sv_next s)) (AcAccepted (sv_next s)) (sv_stop s).

Definition register_connection c s : bool * server :=
  if negb (sv_running s) then (false, s)
  else if decide (c ∈ sv_conns s) then (true, s)
  else
    let active := u64_succ (sv_in_flight s) in
    (true, sv_set_conns ({[c]} ∪ sv_conns s) active (if sv_peak s <? active then active else sv_peak s) s).

Definition unregister_connection c s : server :=
  if decide (c ∈ sv_conns s) then sv_set_conns (sv_conns s ∖ {[c]}) (u64_pred (sv_in_flight s)) (sv_peak s) s else s.

(** The end of the coroutine of a connection, by itself or because it could not be attached. *)
Definition connection_over (attached : bool) c s : server :=
  let s := if attached then s else sv_shutdown c s in
  let s := unregister_connection c s in
  sv_set_tasks (sv_tasks s ∖ {[c]}) s.

Inductive server_step : server → server → Prop :=
  | SvListen s :
      sv_accept s = AcStopped → sv_stop s = StNone → server_step s (sv_set_listening true s)
  | SvServe s :
      sv_accept s = AcStopped → sv_stop s = StNone ∨ sv_stop s = StSnapshot [] →
      server_step s (sv_set_running true (sv_set_stop StNone (sv_set_accept AcLoop s)))
  | SvLoop s :
      sv_accept s = AcLoop → server_step s (sv_set_accept (if sv_running s then AcWaiting else AcStopped) s)
  | SvAccept s :
      sv_accept s = AcWaiting → sv_listening s = true → server_step s (sv_accepted s)
  | SvAcceptFailed s :
      sv_accept s = AcWaiting → server_step s (sv_set_accept (if sv_running s then AcLoop else AcStopped) s)
  | SvRegister c s s' b :
      sv_accept s = AcAccepted c → register_connection c s = (b, s') →
      server_step s (if b then sv_set_accept (AcRegistered c) s' else sv_set_accept AcStopped (sv_shutdown c s'))
  | SvSpawn c s :
      sv_accept s = AcRegistered c → server_step s (sv_set_accept AcLoop (sv_set_tasks ({[c]} ∪ sv_tasks s) s))
  | SvSpawnFailed c s :
      sv_accept s = AcRegistered c → server_step s (sv_set_accept AcStopped (sv_shutdown c (unregister_connection c s)))
  | SvOver attached c s :
      c ∈ sv_tasks s → server_step s (connection_over attached c s)
  | SvStopFlag s :
      sv_stop s = StNone ∨ sv_stop s = StSnapshot [] → server_step s (sv_set_running false (sv_set_stop StFlag s))
  | SvStopClose s :
      sv_stop s = StFlag → server_step s (sv_set_listening false (sv_set_stop StClosed s))
  | SvStopSnapshot s :
      sv_stop s = StClosed → server_step s (sv_set_stop (StSnapshot (elements (sv_conns s))) s)
  | SvStopShutdown c rem s :
      sv_stop s = StSnapshot (c :: rem) → server_step s (sv_set_stop (StSnapshot rem) (sv_shutdown c s)).

(** The connection that the accept loop is responsible for. *)
Definition in_hand s : gset nat := match sv_accept s with AcRegistered c => {[c]} | _ => ∅ end.

Record server_ok s : Prop := {
  so_count : Z.of_nat (sv_next s) < u64_modulus → sv_in_flight s = Z.of_nat (size (sv_conns s)) ∧ sv_in_flight s ≤ sv_peak s;
  so_owned : sv_conns s = sv_tasks s ∪ in_hand s;
  so_disjoint : sv_tasks s ## in_hand s;
  so_fresh : ∀ c, c ∈ sv_conns s → (c < sv_next s)%nat;
  so_accepted : ∀ c, sv_accept s = AcAccepted c → (c < sv_next s)%nat ∧ c ∉ sv_conns s;
  so_stopped : sv_stop s ≠ StNone → sv_running s = false;
  so_snapshot : ∀ rem, sv_stop s = StSnapshot rem → sv_conns s ⊆ list_to_set rem ∪ sv_shut s;
}.

Lemma conns_bound s : (∀ c, c ∈ sv_conns s → (c < sv_next s)%nat) → (size (sv_conns s) ≤ sv_next s)%nat.
Proof.
  intros Hf. rewrite <- (size_set_seq (C := gset nat) 0 (sv_next s)). apply subseteq_size.
  intros c Hc. apply elem_of_set_seq. split; [lia|]. by apply Hf.
Qed.

Lemma u64_pred_small x : 0 < x < u64_modulus → u64_pred x = x - 1.
Proof. intros. unfold u64_pred. apply Z.mod_small. lia. Qed.

(** Taking a connection out of the set, with the counter. *)
Lemma unregister_count c s :
  server_ok s → Z.of_nat (sv_next s) < u64_modulus →
  sv_in_flight (unregister_connection c s) = Z.of_nat (size (sv_conns (unregister_connection c s))) ∧
  sv_in_flight (unregister_connection c s) ≤ sv_peak s.
Proof.
  intros Hok Hlt. destruct (so_count s Hok Hlt) as [Hn Hp]. unfold unregister_connection. case_decide as Hc; [|done]. simpl.
  pose proof (conns_bound s (so_fresh s Hok)) as Hb.
  rewrite size_difference by set_solver. rewrite size_singleton.
  assert (0 < size (sv_conns s))%nat by (apply Nat.neq_0_lt_0; intros Hz; apply size_empty_inv in Hz; set_solver).
  rewrite u64_pred_small by lia. split; lia.
Qed.

Lemma unregister_frame c s :
  sv_conns (unregister_connection c s) = sv_conns s ∖ {[c]} ∧ sv_peak (unregister_connection c s) = sv_peak s ∧
  sv_tasks (unregister_connection c s) = sv_tasks s ∧ sv_shut (unregister_connection c s) = sv_shut s ∧
  sv_next (unregister_connection c s) = sv_next s ∧ sv_accept (unregister_connection c s) = sv_accept s ∧
  sv_stop (unregister_connection c s) = sv_stop s ∧ sv_running (unregister_connection c s) = sv_running s.
Proof. unfold unregister_connection. case_decide; simpl; split_and!; try done. set_solver. Qed.

Lemma shutdown_ok c s : server_ok s → server_ok (sv_shutdown c s).
Proof. intros []. split; simpl; try done. intros rem Hrem. specialize (so_snapshot0 rem Hrem). set_solver. Qed.

(** A step of the accept loop that does not touch the connections. *)
Lemma set_accept_ok a s : server_ok s → in_hand s = ∅ → (∀ c, a ≠ AcAccepted c ∧ a ≠ AcRegistered c) → server_ok (sv_set_accept a s).
Proof.
  intros [] Hh Ha. assert (in_hand (sv_set_accept a s) = ∅) as Hh' by (unfold in_hand; simpl; destruct a; try done; by destruct (Ha c)).
  split; simpl; try done; [by rewrite Hh', so_owned0, Hh|by rewrite Hh'; apply disjoint_empty_r|]. intros c ->. by destruct (Ha c).
Qed.

Lemma register_ok c s b s' :
  server_ok s → sv_accept s = AcAccepted c → register_connection c s = (b, s') →
  server_ok (if b then sv_set_accept (AcRegistered c) s' else sv_set_accept AcStopped (sv_shutdown c s')).
Proof.
  intros Hok Ha. destruct (so_accepted s Hok c Ha) as [Hlt Hc]. unfold register_connection.
  assert (in_hand s = ∅) as Hh by (unfold in_hand; by rewrite Ha).
  destruct (sv_running s) eqn:Hrun; simpl; intros Hr; [|simplify_eq; by apply set_accept_ok; [apply shutdown_ok|..]].
  rewrite decide_False in Hr by done. simplify_eq. pose proof (conns_bound s (so_fresh s Hok)) as Hb.
  assert (size ({[c]} ∪ sv_conns s) ≤ sv_next s)%nat as Hb'.
  { pose proof (conns_bound (sv_set_conns ({[c]} ∪ sv_conns s) 0 0 s)) as Hx. cbn [sv_conns sv_next sv_set_conns] in Hx. apply Hx.
    intros c' [->%elem_of_singleton|Hin]%elem_of_union; [done|by apply so_fresh]. }
  destruct Hok as [Hn Ho Hd Hf Hac Hst Hsn]. split; simpl; try done.
  - intros Hm. destruct (Hn Hm) as [Hn' Hp]. rewrite size_union, size_singleton in * by set_solver.
    rewrite u64_succ_small by lia. split; [lia|]. destruct (sv_peak s <? sv_in_flight s + 1) eqn:Hx; bool_to_prop; lia.
  - unfold in_hand. simpl. rewrite Ho, Hh. set_solver.
  - unfold in_hand. simpl. rewrite Ho in Hc. set_solver.
  - intros c' [->%elem_of_singleton|Hin]%elem_of_union; [done|by apply Hf].
  - intros rem Hrem. rewrite Hst in Hrun; [done|congruence].
Qed.

Lemma over_ok attached c s : server_ok s → c ∈ sv_tasks s → server_ok (connection_over attached c s).
Proof.
  intros Hok Hc. unfold connection_over. assert (server_ok (if attached then s else sv_shutdown c s)) as Hok' by (destruct attached; [done|by apply shutdown_ok]).
  assert (c ∈ sv_tasks (if attached then s else sv_shutdown c s)) as Hc' by (by destruct attached).
  clear Hok Hc. revert Hok' Hc'. generalize (if attached then s else sv_shutdown c s). clear s attached. intros s Hok Hc.
  pose proof (unregister_count c s Hok) as Hcount. destruct (unregister_frame c s) as (Hcs & Hp & Ht & Hs & Hn & Ha & Hst & Hr).
  destruct Hok as [_ Ho Hd Hf Hac Hsp Hsn]. split; simpl; rewrite ?Hcs, ?Hp, ?Ht, ?Hs, ?Hn, ?Ha, ?Hst, ?Hr.
  - intros Hm. destruct (Hcount Hm) as [Hc1 Hc2]. by rewrite <- Hcs.
  - unfold in_hand in *. simpl. rewrite Ha. rewrite Ho. set_solver.
  - unfold in_hand in *. simpl. rewrite Ha. set_solver.
  - intros c' Hin. apply Hf. set_solver.
  - intros c' Hc'. destruct (Hac c' Hc'). split; [done|set_solver].
  - done.
  - intros rem Hrem. specialize (Hsn rem Hrem). set_solver.
Qed.

Lemma spawn_failed_ok c s : server_ok s → sv_accept s = AcRegistered c → server_ok (sv_set_accept AcStopped (sv_shutdown c (unregister_connection c s))).
Proof.
  intros Hok Hacc. pose proof (unregister_count c s Hok) as Hcount. destruct (unregister_frame c s) as (Hcs & Hp & Ht & Hs & Hn & Ha & Hst & Hr).
  destruct Hok as [_ Ho Hd Hf Hac Hsp Hsn]. unfold in_hand in Ho, Hd. rewrite Hacc in Ho, Hd.
  split; simpl; rewrite ?Hcs, ?Hp, ?Ht, ?Hs, ?Hn, ?Hst, ?Hr; unfold in_hand; simpl.
  - intros Hm. destruct (Hcount Hm) as [Hc1 Hc2]. by rewrite <- Hcs.
  - rewrite Ho. set_solver.
  - apply disjoint_empty_r.
  - intros c' Hin. apply Hf. set_solver.
  - done.
  - done.
  - intros rem Hrem. specialize (Hsn rem Hrem). set_solver.
Qed.

Lemma server_step_ok s s' : server_ok s → server_step s s' → server_ok s'.
Proof.
  intros Hok. destruct 1 as [s Ha Hst|s Ha Hst|s Ha|s Ha Hl|s Ha|c s s' b Ha Hr|c s Ha|c s Ha|att c s Hc|s Hst|s Hst|s Hst|c rem s Hst].
  - destruct Hok. by split.
  - assert (in_hand s = ∅) as Hh by (unfold in_hand; by rewrite Ha). destruct Hok. split; simpl; try done; by rewrite so_owned0, Hh.
  - apply set_accept_ok; [done|unfold in_hand; by rewrite Ha|intros c; by destruct (sv_running s)].
  - assert (in_hand s = ∅) as Hh by (unfold in_hand; by rewrite Ha). destruct Hok as [Hn Ho Hd Hf Hac Hsp Hsn].
    split; simpl; try done; [intros Hm; apply Hn; lia|by rewrite Ho, Hh|intros c Hc; specialize (Hf c Hc); lia|].
    intros c [= <-]. split; [lia|]. intros Hin%Hf. lia.
  - apply set_accept_ok; [done|unfold in_hand; by rewrite Ha|intros c; by destruct (sv_running s)].
  - by eapply register_ok.
  - destruct Hok as [Hn Ho Hd Hf Hac Hsp Hsn]. unfold in_hand in Ho, Hd. rewrite Ha in Ho, Hd.
    split; simpl; try done; rewrite Ho; unfold in_hand; simpl; set_solver.
  - by apply spawn_failed_ok.
  - by apply over_ok.
  - destruct Hok. by split.
  - destruct Hok. split; simpl; try done. intros _. apply so_stopped0. by rewrite Hst.
  - destruct Hok. split; simpl; try done; [intros _; apply so_stopped0; by rewrite Hst|].
    intros rem [= <-]. rewrite list_to_set_elements_L. set_solver.
  - destruct Hok. split; simpl; try done; [intros _; apply so_stopped0; by rewrite Hst|].
    intros rem' [= <-]. specialize (so_snapshot0 _ Hst). set_solver.
Qed.
End connections.


(** A witness: a connection is accepted, [stop] runs while it is being registered. *)
Definition demo_stopped : server := mkServer false false {[0%nat]} 1 1 ∅ {[0%nat]} 1 (AcRegistered 0) (StSnapshot []).


(** [stop] before [serve] has begun is lost: [serve] sets the flag again, and as the listener is closed it
    then only accepts in vain. *)
Lemma serve_after_stop s :
  sv_accept s = AcStopped → sv_stop s = StSnapshot [] → sv_listening s = false →
  ∃ s', server_step s s' ∧ sv_running s' = true ∧ sv_listening s' = false ∧
    ∃ s'', rtc server_step s' s'' ∧ s'' = sv_set_accept AcLoop s'.
Proof.
  intros Ha Hst Hl. eexists. split; [apply SvServe; [done|by right]|]. split_and!; [done|done|].
  eexists. split; [|reflexivity]. eapply rtc_l; [by apply SvLoop|]. eapply rtc_l; [by apply SvAcceptFailed|]. apply rtc_refl.
Qed.
