(* ===== verification/RegistryM.v ===== *)
(** * RegistryM: the registry of service tasks ([detail::task_registry])

    [src/include/coro/task_registry.hpp].  Tasks are numbers, their loops are numbers.  A task
    may end on any thread: [finish] is cut where another thread can come in (its critical
    section, the decrement of [active], reading [idle_event], [set]), and so is [wait_empty].
    The event is the flag and the waiter of [Event] (file [EventPrim]): [set] wakes who waits. *)

From S2P Require Import Prelude.
From stdpp Require Import options.

(** ** State *)

Record registry_entry : Type := mkREntry {
  ry_owner : loop_id;
  ry_finished : bool;
}.

Record registry_state : Type := mkRegistry {
  rg_entries : list nat;
  rg_info : gmap nat registry_entry;
  rg_active : nat;
  rg_rejected : nat;
  rg_exceptions : nat;
  rg_capacity : nat;
  rg_idle_event : option bool;     (* created or not, and set or not *)
}.
Implicit Types (st : registry_state) (e : nat).

Definition registry_init (capacity : nat) : registry_state := mkRegistry [] ∅ 0 0 0 capacity None.

Definition rg_set_event ev st : registry_state :=
  mkRegistry (rg_entries st) (rg_info st) (rg_active st) (rg_rejected st) (rg_exceptions st) (rg_capacity st) ev.
Definition rg_set_active n st : registry_state :=
  mkRegistry (rg_entries st) (rg_info st) n (rg_rejected st) (rg_exceptions st) (rg_capacity st) (rg_idle_event st).
Definition rg_set_entries es info st : registry_state :=
  mkRegistry es info (rg_active st) (rg_rejected st) (rg_exceptions st) (rg_capacity st) (rg_idle_event st).
Definition rg_set_capacity n st : registry_state :=
  mkRegistry (rg_entries st) (rg_info st) (rg_active st) (rg_rejected st) (rg_exceptions st) n (rg_idle_event st).

(** The critical section of [spawn]; the entry is new. *)
Definition rg_spawn (e : nat) (owner : loop_id) st : bool * registry_state :=
  if bool_decide (rg_capacity st ≠ 0) && bool_decide (rg_capacity st ≤ length (rg_entries st))
  then (false, mkRegistry (rg_entries st) (rg_info st) (rg_active st) (S (rg_rejected st)) (rg_exceptions st) (rg_capacity st) (rg_idle_event st))
  else
    (true, mkRegistry (rg_entries st ++ [e]) (<[e := mkREntry owner false]> (rg_info st)) (S (rg_active st)) (rg_rejected st)
             (rg_exceptions st) (rg_capacity st) (rg_idle_event st)).

(** The critical section of [finish]: [None] when the entry had finished before. *)
Definition rg_finish_erase (e : nat) st : option (bool * registry_state) :=
  match rg_info st !! e with
  | Some (mkREntry owner false) =>
      let es := erase_first e (rg_entries st) in
      Some (bool_decide (es = []), rg_set_entries es (<[e := mkREntry owner true]> (rg_info st)) st)
  | _ => None
  end.

(** [active.fetch_sub(1)]. *)
Definition rg_finish_count st : registry_state := rg_set_active (pred (rg_active st)) st.

(** [ensure_idle_event], and the operations of the event. *)
Definition rg_ensure_event st : registry_state :=
  match rg_idle_event st with Some _ => st | None => rg_set_event (Some false) st end.
Definition rg_event_clear st : registry_state := match rg_idle_event st with Some _ => rg_set_event (Some false) st | None => st end.
Definition rg_event_set st : registry_state := match rg_idle_event st with Some _ => rg_set_event (Some true) st | None => st end.

Definition rg_empty st : bool := bool_decide (rg_active st = 0).

(** [lease]. *)
Definition lease_done (l : option nat) st : bool :=
  match l with
  | None => true
  | Some e => match rg_info st !! e with Some x => ry_finished x | None => true end
  end.

(** [lease::cancel]: the loop and the task whose cancellation is dispatched. *)
Definition lease_cancel (l : option nat) st : option (loop_id * nat) :=
  match l with
  | None => None
  | Some e => match rg_info st !! e with Some (mkREntry owner false) => Some (owner, e) | _ => None end
  end.

(** [request_cancel_all]. *)
Definition request_cancel_all st : list (loop_id * nat) := omap (λ e, lease_cancel (Some e) st) (rg_entries st).

(** The end of [runner]: cancellations are not failures. *)
Definition runner_ends (r : res unit) st : registry_state :=
  match r with
  | Ok _ | Throw CancelledError => st
  | Throw _ =>
      mkRegistry (rg_entries st) (rg_info st) (rg_active st) (rg_rejected st) (S (rg_exceptions st)) (rg_capacity st) (rg_idle_event st)
  end.

(** The report of [settle], from what it sees at its two ends: empty after the grace period, or the
    tasks left after the cancellation. *)
Record shutdown_report : Type := mkReport {
  sr_drained : bool;
  sr_unfinished : nat;
}.
Definition settle_report (empty_after_grace : bool) st : shutdown_report :=
  if empty_after_grace then mkReport true 0 else mkReport (rg_empty st) (rg_active st).

(** ** Threads *)

(** A thread in [finish]: it has erased its entry, it has decremented [active], it holds the event. *)
Inductive finisher : Type :=
  | FnErased (became_empty : bool)
  | FnCounted (became_empty : bool)
  | FnNotify.

(** The coroutine in [wait_empty]. *)
Inductive wait_pc : Type :=
  | WpStart        (* the first test *)
  | WpLoop         (* the test of the loop; the event exists *)
  | WpClear        (* the event is to be cleared *)
  | WpRecheck      (* the test after clearing *)
  | WpWait         (* [ev->wait()] is to be awaited *)
  | WpWaiting      (* suspended in the event *)
  | WpDone.

Record reg_sys : Type := mkRegSys {
  rs_state : registry_state;
  rs_finishers : list finisher;
  rs_waiter : wait_pc;
}.

(** What [set] does to the waiter. *)
Definition wake_waiter (p : wait_pc) : wait_pc := match p with WpWaiting => WpLoop | _ => p end.

Definition wait_empty_step st (p : wait_pc) : option (registry_state * wait_pc) :=
  match p with
  | WpStart => Some (if rg_empty st then (st, WpDone) else (rg_ensure_event st, WpLoop))
  | WpLoop => Some (st, if rg_empty st then WpDone else WpClear)
  | WpClear => Some (rg_event_clear st, WpRecheck)
  | WpRecheck => Some (st, if rg_empty st then WpDone else WpWait)
  | WpWait => Some (st, if decide (rg_idle_event st = Some true) then WpLoop else WpWaiting)
  | WpWaiting | WpDone => None
  end.

(** [serial] says that the calls of [finish] do not overlap, as when all tasks live on one loop. *)
Inductive reg_step (serial : bool) : reg_sys → reg_sys → Prop :=
  | RgSpawn e owner st fs p b st' :
      rg_info st !! e = None → rg_spawn e owner st = (b, st') → reg_step serial (mkRegSys st fs p) (mkRegSys st' fs p)
  | RgErase e st fs p b st' :
      rg_finish_erase e st = Some (b, st') → (serial = true → fs = []) →
      reg_step serial (mkRegSys st fs p) (mkRegSys st' (fs ++ [FnErased b]) p)
  | RgCount i b st fs p :
      fs !! i = Some (FnErased b) → reg_step serial (mkRegSys st fs p) (mkRegSys (rg_finish_count st) (<[i := FnCounted b]> fs) p)
  | RgQuiet i b st fs p :
      fs !! i = Some (FnCounted b) → b = false ∨ rg_idle_event st = None →
      reg_step serial (mkRegSys st fs p) (mkRegSys st (delete i fs) p)
  | RgRead i st fs p :
      fs !! i = Some (FnCounted true) → rg_idle_event st ≠ None →
      reg_step serial (mkRegSys st fs p) (mkRegSys st (<[i := FnNotify]> fs) p)
  | RgNotify i st fs p :
      fs !! i = Some FnNotify →
      reg_step serial (mkRegSys st fs p) (mkRegSys (rg_event_set st) (delete i fs) (wake_waiter p))
  | RgWait st fs p st' p' :
      wait_empty_step st p = Some (st', p') → reg_step serial (mkRegSys st fs p) (mkRegSys st' fs p')
  | RgCall st fs :
      reg_step serial (mkRegSys st fs WpDone) (mkRegSys st fs WpStart)
  | RgCapacity n st fs p :
      reg_step serial (mkRegSys st fs p) (mkRegSys (rg_set_capacity n st) fs p)
  | RgRunner r st fs p :
      reg_step serial (mkRegSys st fs p) (mkRegSys (runner_ends r st) fs p).

Definition reg_reachable (serial : bool) (capacity : nat) (s : reg_sys) : Prop :=
  rtc (reg_step serial) (mkRegSys (registry_init capacity) [] WpStart) s.

(** ** Counting *)

Definition erased (f : finisher) : bool := match f with FnErased _ => true | _ => false end.
Definition pending_count (fs : list finisher) : nat := length (filter (λ f, erased f = true) fs).

Record reg_ok (s : reg_sys) : Prop := {
  ro_nodup : NoDup (rg_entries (rs_state s));
  ro_live : ∀ e, e ∈ rg_entries (rs_state s) ↔ ∃ x, rg_info (rs_state s) !! e = Some x ∧ ry_finished x = false;
  ro_active : rg_active (rs_state s) = length (rg_entries (rs_state s)) + pending_count (rs_finishers s);
}.

Lemma pending_insert fs i f g : fs !! i = Some f → pending_count (<[i := g]> fs) + Nat.b2n (erased f) = pending_count fs + Nat.b2n (erased g).
Proof.
  intros Hi. rewrite <- (take_drop_middle fs i f Hi) at 2. rewrite insert_take_drop by by eapply lookup_lt_Some.
  unfold pending_count. rewrite !filter_app, !length_app, !filter_cons. destruct (erased f), (erased g); simpl; lia.
Qed.

Lemma pending_delete fs i f : fs !! i = Some f → pending_count (delete i fs) + Nat.b2n (erased f) = pending_count fs.
Proof.
  intros Hi. rewrite <- (take_drop_middle fs i f Hi) at 2. rewrite delete_take_drop.
  unfold pending_count. rewrite !filter_app, !length_app, !filter_cons. destruct (erased f); simpl; lia.
Qed.

Lemma pending_app fs f : pending_count (fs ++ [f]) = pending_count fs + Nat.b2n (erased f).
Proof. unfold pending_count. rewrite filter_app, length_app, filter_cons. by destruct (erased f). Qed.

Lemma reg_ok_event ev st fs p p' : reg_ok (mkRegSys st fs p) → reg_ok (mkRegSys (rg_set_event ev st) fs p').
Proof. intros []. by split. Qed.

Lemma reg_ok_waiter st fs p p' : reg_ok (mkRegSys st fs p) → reg_ok (mkRegSys st fs p').
Proof. intros []. by split. Qed.

Lemma spawn_reg_ok e owner st fs p b st' :
  rg_info st !! e = None → rg_spawn e owner st = (b, st') → reg_ok (mkRegSys st fs p) → reg_ok (mkRegSys st' fs p).
Proof.
  intros Hn Hs [Hnd Hl Ha]. unfold rg_spawn in Hs. destruct (_ && _); simplify_eq; [by split|]. simpl in *.
  assert (e ∉ rg_entries st) as He by (intros (x & Hx & _)%Hl; congruence).
  split; simpl.
  - apply NoDup_app. split_and!; [done|set_solver|apply NoDup_singleton].
  - intros e'. rewrite elem_of_app, list_elem_of_singleton, Hl. destruct (decide (e' = e)) as [->|Hne].
    + rewrite lookup_insert_eq. split; [intros _; by eexists|by right].
    + rewrite lookup_insert_ne by done. split; [by intros [?|]|by left].
  - rewrite length_app, Ha. simpl. lia.
Qed.

Lemma erase_reg_ok e st fs p b st' :
  rg_finish_erase e st = Some (b, st') → reg_ok (mkRegSys st fs p) →
  reg_ok (mkRegSys st' (fs ++ [FnErased b]) p) ∧ (b = true ↔ rg_entries st' = []) ∧ rg_idle_event st' = rg_idle_event st.
Proof.
  unfold rg_finish_erase. intros He [Hnd Hl Ha]. simpl in *.
  destruct (rg_info st !! e) as [[owner []]|] eqn:Hi; simplify_eq/=. split_and!; [|apply bool_decide_eq_true|done].
  assert (e ∈ rg_entries st) as Hin by (apply Hl; by eexists).
  split; simpl.
  - by apply erase_first_NoDup.
  - intros e'. destruct (decide (e' = e)) as [->|Hne].
    + rewrite lookup_insert_eq. split; [intros Hx; by apply erase_first_not_elem in Hx|intros (x & [= <-] & [=])].
    + rewrite lookup_insert_ne by done. rewrite <- Hl. split; [apply elem_of_erase_first|]. by apply elem_of_erase_first_ne.
  - rewrite pending_app, Ha, (length_erase_first e) by done. simpl. lia.
Qed.

Lemma reg_step_ok serial s s' : reg_ok s → reg_step serial s s' → reg_ok s'.
Proof.
  intros Hok. destruct 1 as [e owner st fs p b st' Hn Hs|e st fs p b st' He _|i b st fs p Hi|i b st fs p Hi Hq|i st fs p Hi Hev|i st fs p Hi|
    st fs p st' p' Hw|st fs|n st fs p|r st fs p].
  - by eapply spawn_reg_ok.
  - by eapply erase_reg_ok.
  - destruct Hok as [Hnd Hl Ha]. split; simpl in *; [done|done|]. pose proof (pending_insert fs i _ (FnCounted b) Hi). simpl in *. lia.
  - destruct Hok as [Hnd Hl Ha]. split; simpl in *; [done|done|]. pose proof (pending_delete fs i _ Hi). simpl in *. lia.
  - destruct Hok as [Hnd Hl Ha]. split; simpl in *; [done|done|]. pose proof (pending_insert fs i _ FnNotify Hi). simpl in *. lia.
  - assert (reg_ok (mkRegSys st (delete i fs) (wake_waiter p))) as Hd.
    { destruct Hok as [Hnd Hl Ha]. split; simpl in *; [done|done|]. pose proof (pending_delete fs i _ Hi). simpl in *. lia. }
    unfold rg_event_set. destruct (rg_idle_event st); [by eapply reg_ok_event|done].
  - destruct p; simpl in Hw; unfold rg_ensure_event, rg_event_clear in Hw; repeat case_match; simplify_eq;
      (eapply reg_ok_event, Hok) || (eapply reg_ok_waiter, Hok).
  - by eapply reg_ok_waiter.
  - destruct Hok. by split.
  - destruct Hok. unfold runner_ends. destruct r as [[]|[]]; by split.
Qed.

Lemma registry_init_ok capacity : reg_ok (mkRegSys (registry_init capacity) [] WpStart).
Proof.
  split; simpl; [constructor| |done]. intros e. split; [by intros ?%elem_of_nil|]. intros (x & Hx & _). by rewrite lookup_empty in Hx.
Qed.

Lemma reg_reachable_ok serial capacity s : reg_reachable serial capacity s → reg_ok s.
Proof.
  unfold reg_reachable. pose proof (registry_init_ok capacity) as H0. revert H0.
  generalize (mkRegSys (registry_init capacity) [] WpStart). intros s0 H0 Hr. induction Hr; eauto using reg_step_ok.
Qed.

(** Ownership in the registry, in every interleaving of threads that spawn, finish and wait: the entries are
    exactly the tasks that have not finished, each once; [active] counts them and the threads that
    are about to decrement it, so it never underflows and reads 0 only when nothing is
    left; a refused spawn adds nothing and an accepted one stays within the capacity. *)
Theorem registry_counts serial capacity s :
  reg_reachable serial capacity s →
  NoDup (rg_entries (rs_state s)) ∧
  (∀ e, e ∈ rg_entries (rs_state s) ↔ ∃ x, rg_info (rs_state s) !! e = Some x ∧ ry_finished x = false) ∧
  rg_active (rs_state s) = length (rg_entries (rs_state s)) + pending_count (rs_finishers s) ∧
  (∀ e owner b st', rg_spawn e owner (rs_state s) = (b, st') →
     (b = false → rg_entries st' = rg_entries (rs_state s) ∧ rg_active st' = rg_active (rs_state s)) ∧
     (b = true → rg_capacity st' = 0 ∨ length (rg_entries st') ≤ rg_capacity st')).
Proof.
  intros [Hnd Hl Ha]%reg_reachable_ok. split_and!; [done|done|done|].
  intros e owner b st'. unfold rg_spawn. destruct (_ && _) eqn:Hc; intros [= <- <-]; split; try done.
  intros _. simpl. rewrite length_app. simpl. apply andb_false_iff in Hc as [Hc|Hc]; bool_to_prop.
  - left. by apply dec_stable.
  - right. lia.
Qed.

Definition demo_registry : registry_state := (rg_spawn 7 1 (registry_init 2)).2.

Lemma registry_counts_witness :
  reg_reachable true 2 (mkRegSys demo_registry [] WpStart) ∧ rg_entries demo_registry = [7] ∧ rg_active demo_registry = 1.
Proof.
  assert (reg_reachable true 2 (mkRegSys demo_registry [] WpStart)) as Hr.
  { unfold reg_reachable. eapply rtc_l; [eapply (RgSpawn true 7 1); [|reflexivity]; reflexivity|]. apply rtc_refl. }
  split; [exact Hr|]. destruct (registry_counts _ _ _ Hr) as (_ & _ & Ha & _). split; [reflexivity|exact Ha].
Defined.

(** ** Waiting for the registry to empty *)

(** A thread that will still set the event. *)
Definition will_notify (f : finisher) : bool := match f with FnErased b | FnCounted b => b | FnNotify => true end.

Record reg_live (s : reg_sys) : Prop := {
  lv_serial : length (rs_finishers s) ≤ 1;
  lv_entries : rs_finishers s = [FnErased false] → rg_entries (rs_state s) ≠ [];
  lv_event : rs_waiter s ≠ WpStart → rs_waiter s ≠ WpDone → rg_idle_event (rs_state s) ≠ None;
  lv_wait : rs_waiter s = WpWait ∨ rs_waiter s = WpWaiting →
    (rs_waiter s = WpWait ∧ rg_idle_event (rs_state s) = Some true) ∨ 0 < rg_active (rs_state s) ∨
    ∃ f, rs_finishers s = [f] ∧ will_notify f = true;
}.

Lemma single_lookup {A} (l : list A) i x : length l ≤ 1 → l !! i = Some x → l = [x] ∧ i = 0.
Proof. destruct l as [|y [|z l]]; simpl; [done| |lia]. destruct i as [|i]; [by intros _ [= ->]|done]. Qed.

Lemma reg_live_step s s' : reg_ok s → reg_live s → reg_step true s s' → reg_live s'.
Proof.
  intros Hok [Hser Hent Hev Hwait]. pose proof (ro_active s Hok) as Hact.
  destruct 1 as [e owner st fs p b st' Hn Hs|e st fs p b st' He Hs|i b st fs p Hi|i b st fs p Hi Hq|i st fs p Hi Hne|i st fs p Hi|
    st fs p st' p' Hw|st fs|n st fs p|r st fs p]; simpl in *.
  - unfold rg_spawn in Hs. destruct (_ && _); simplify_eq; [by split|]. split; simpl; [done| |done|].
    + intros _ Hx. by apply app_eq_nil in Hx as [_ ?].
    + intros _. right; left. lia.
  - specialize (Hs eq_refl). subst fs. destruct (erase_reg_ok _ _ _ _ _ _ He Hok) as (_ & Hb & Hie).
    assert (rg_active st' = rg_active st) as Ha by (unfold rg_finish_erase in He; repeat case_match; by simplify_eq).
    split; simpl; rewrite ?Hie, ?Ha; [lia| |done|].
    + intros [= ->] Hx. by apply Hb in Hx.
    + intros Hp. destruct (Hwait Hp) as [?|[?|(f & [=] & _)]]; auto.
  - destruct (single_lookup fs i _ Hser Hi) as [-> ->]. split; simpl; [done|done|done|]. intros Hp. right.
    destruct b; [right; by eexists|left]. specialize (Hent eq_refl). simpl in Hact. unfold pending_count in Hact. simpl in Hact.
    destruct (rg_entries st); [done|simpl in *; lia].
  - destruct (single_lookup fs i _ Hser Hi) as [-> ->]. split; simpl; [lia|done|done|]. intros Hp.
    destruct Hq as [-> | Hnone]; [|destruct Hev; [destruct Hp as [-> | ->]; done..|done]].
    destruct (Hwait Hp) as [?|[?|(f & [= <-] & ?)]]; auto; done.
  - destruct (single_lookup fs i _ Hser Hi) as [-> ->]. split; simpl; [done|done|done|]. intros Hp. right; right. by eexists.
  - destruct (single_lookup fs i _ Hser Hi) as [-> ->]. unfold rg_event_set.
    destruct (rg_idle_event st) as [x|] eqn:Hie; split; simpl; rewrite ?Hie; try (done || lia).
    + destruct p; simpl; intros [|]; try done. by left.
    + destruct p; try done; intros; exfalso; by destruct Hev.
    + destruct p; simpl; intros [|]; try done; exfalso; by destruct Hev.
  - destruct p; simpl in Hw; unfold rg_ensure_event, rg_event_clear in Hw; repeat case_match; simplify_eq; split; simpl; try done;
      try (intros [|]; done); try (by intros; apply Hev); try (intros; congruence).
    + by destruct Hev.
    + intros _. right; left. unfold rg_empty in *. bool_to_prop. lia.
    + intros _. destruct Hwait as [[_ ?]|?]; [by left|done|by right].
  - split; simpl; try done. by intros [|].
  - by split.
  - split; simpl; unfold runner_ends; destruct r as [[]|[]]; done.
Qed.

(** No lost wake-up in the registry when the tasks end one at a time (they live on one loop): in every
    interleaving with spawns and with the steps of [wait_empty], a coroutine that is suspended in
    [wait_empty] while no task is ending has a task left to wait for. *)
Theorem registry_wait_live capacity s :
  reg_reachable true capacity s → rs_waiter s = WpWaiting → rs_finishers s = [] → rg_entries (rs_state s) ≠ [].
Proof.
  intros Hr Hw Hf. pose proof (reg_reachable_ok _ _ _ Hr) as Hok.
  assert (reg_live s) as Hl.
  { unfold reg_reachable in Hr. assert (reg_live (mkRegSys (registry_init capacity) [] WpStart)) as H0 by (split; simpl; [lia|done|done|by intros [|]]).
    pose proof (registry_init_ok capacity) as Hok0. clear Hok Hw Hf. revert H0 Hok0 Hr. generalize (mkRegSys (registry_init capacity) [] WpStart).
    intros s0 H0 Hok0 Hr. induction Hr; eauto using reg_live_step, reg_step_ok. }
  pose proof (ro_active s Hok) as Ha. rewrite Hf in Ha. unfold pending_count in Ha. simpl in Ha.
  destruct (lv_wait s Hl (or_intror Hw)) as [[Hx _]|[Hx|(f & Hx & _)]]; [congruence| |congruence].
  intros He. rewrite He in Ha. simpl in Ha. lia.
Qed.

Definition demo_waiting : reg_sys := mkRegSys (rg_set_event (Some false) demo_registry) [] WpWaiting.

Lemma registry_wait_live_witness : reg_reachable true 2 demo_waiting ∧ rg_entries (rs_state demo_waiting) ≠ [].
Proof.
  assert (reg_reachable true 2 demo_waiting) as Hr.
  { unfold reg_reachable. eapply rtc_l; [eapply (RgSpawn true 7 1); [|reflexivity]; reflexivity|].
    do 5 (eapply rtc_l; [apply RgWait; reflexivity|]). apply rtc_refl. }
  split; [exact Hr|]. exact (registry_wait_live 2 demo_waiting Hr eq_refl eq_refl).
Defined.

(** Two tasks on two loops that end at once: the first erases its entry and is delayed before its
    decrement, the second finds the list empty and sets the event while [active] is still 1. *)
Definition stranded : reg_sys :=
  mkRegSys (mkRegistry [] {[1 := mkREntry 1 true; 2 := mkREntry 2 true]} 0 0 0 0 (Some false)) [] WpWaiting.

(** The same wake-up can be lost when two tasks end on two loops at once: a state is reached in which every
    task has ended, no thread is left in [finish], and the coroutine in [wait_empty] is
    suspended; no step of any thread wakes it again. *)
Theorem registry_two_finishers_strand :
  reg_reachable false 0 stranded ∧ rg_entries (rs_state stranded) = [] ∧ rg_active (rs_state stranded) = 0 ∧
  ∀ s', reg_step false stranded s' → rs_waiter s' = WpWaiting ∧ rs_finishers s' = [].
Proof.
  split_and!; [|done|done|].
  - unfold reg_reachable. eapply rtc_l; [eapply (RgSpawn false 1 1); [|reflexivity]; reflexivity|].
    eapply rtc_l; [eapply (RgSpawn false 2 2); [|reflexivity]; reflexivity|].
    do 5 (eapply rtc_l; [apply RgWait; reflexivity|]).
    eapply rtc_l; [eapply (RgErase false 1); [reflexivity|done]|]. eapply rtc_l; [eapply (RgErase false 2); [reflexivity|done]|].
    eapply rtc_l; [eapply (RgCount false 1 true); reflexivity|]. eapply rtc_l; [eapply (RgRead false 1); [reflexivity|done]|].
    eapply rtc_l; [eapply (RgNotify false 1); reflexivity|]. do 4 (eapply rtc_l; [apply RgWait; reflexivity|]).
    eapply rtc_l; [eapply (RgCount false 0 false); reflexivity|]. eapply rtc_l; [eapply (RgQuiet false 0 false); [reflexivity|by left]|].
    apply rtc_refl.
  - intros s' Hs. unfold stranded in Hs. inversion Hs as [|e ? ? ? ? ? He| | | | | | | |]; subst; try done.
    exfalso. unfold rg_finish_erase in He. simpl in He. destruct (decide (e = 1)) as [->|H1]; [done|].
    destruct (decide (e = 2)) as [->|H2]; [done|]. rewrite lookup_insert_ne, lookup_singleton_ne in He by done. done.
Qed.
