(* ===== verification/SchedulerM.v ===== *)
(** * SchedulerM: distributing tasks over worker loops ([coro::Scheduler])

    [src/include/coro/scheduler.hpp].  The workers are their counts of tasks in each phase; the
    threads that spawn, the workers, the thread in [wait_all] and the coroutine in [join] run in
    steps between which others can come in.  The loop of a worker is always there: the
    constructor waits for it, and the destructor's order is left to the event loop's files. *)

From S2P Require Import Prelude.
From stdpp Require Import options.
#[local] Set Default Proof Using "Type*".

(** ** Choosing a worker *)

Definition size_max : Z := 2 ^ 64 - 1.

(** The scan: the best index, its active count and its number of assignments so far. *)
Fixpoint pick_scan (i : nat) (best : nat * Z * Z) (ws : list (option (Z * Z))) : nat * Z * Z :=
  match ws with
  | [] => best
  | None :: ws => pick_scan (S i) best ws
  | Some (a, g) :: ws =>
      let '(_, best_active, best_assigned) := best in
      pick_scan (S i) (if (a <? best_active)%Z || ((a =? best_active)%Z && (g <? best_assigned)%Z) then (i, a, g) else best) ws
  end.
Definition pick_least_loaded_index (ws : list (option (Z * Z))) : nat := (pick_scan 0 (0, size_max, size_max) ws).1.1.

Definition lex_lt (x y : Z * Z) : Prop := (x.1 < y.1)%Z ∨ x.1 = y.1 ∧ (x.2 < y.2)%Z.

Lemma pick_scan_spec i best ws :
  let r := pick_scan i best ws in
  (r = best ∧ ∀ j x, ws !! j = Some (Some x) → ¬ lex_lt x (best.1.2, best.2)) ∨
  (∃ j, ws !! j = Some (Some (r.1.2, r.2)) ∧ r.1.1 = i + j ∧ lex_lt (r.1.2, r.2) (best.1.2, best.2) ∧
     (∀ k x, ws !! k = Some (Some x) → ¬ lex_lt x (r.1.2, r.2)) ∧
     ∀ k x, k < j → ws !! k = Some (Some x) → lex_lt (r.1.2, r.2) x).
Proof.
  revert i best. induction ws as [|[[a g]|] ws IH]; intros i [[b ba] bg]; cbn [pick_scan].
  - left. by split; [|intros j x].
  - assert (((a <? ba)%Z || ((a =? ba)%Z && (g <? bg)%Z)) = true ↔ lex_lt (a, g) (ba, bg)) as Hlt.
    { unfold lex_lt. simpl. rewrite orb_true_iff, andb_true_iff, !Z.ltb_lt, Z.eqb_eq. done. }
    destruct (_ || _) eqn:Hc; cbv zeta.
    + assert (lex_lt (a, g) (ba, bg)) as Hl by (by apply Hlt). destruct (IH (S i) (i, a, g)) as [[Hr Hn]|(j & Hj & Hi & Hl' & Hmin & Hfirst)].
      * right. exists 0. rewrite Hr. simpl. split_and!; [done|lia|done| |lia].
        intros [|k] x Hk; simpl in Hk; [simplify_eq; unfold lex_lt; simpl; lia|by eapply Hn].
      * right. exists (S j). simpl in *. split_and!; [done|lia|unfold lex_lt in *; simpl in *; lia| |].
        -- intros [|k] x Hk; simpl in Hk; [simplify_eq; unfold lex_lt in *; simpl in *; lia|by eapply Hmin].
        -- intros [|k] x Hlt' Hk; simpl in Hk; [by simplify_eq|]. eapply Hfirst; [|done]. lia.
    + assert (¬ lex_lt (a, g) (ba, bg)) as Hl by (by rewrite <- Hlt). destruct (IH (S i) (b, ba, bg)) as [[Hr Hn]|(j & Hj & Hi & Hl' & Hmin & Hfirst)].
      * left. split; [done|]. intros [|k] x Hk; simpl in Hk; [by simplify_eq|by eapply Hn].
      * right. exists (S j). simpl in *. split_and!; [done|lia|done| |].
        -- intros [|k] x Hk; simpl in Hk; [simplify_eq; unfold lex_lt in *; simpl in *; lia|by eapply Hmin].
        -- intros [|k] x Hlt' Hk; simpl in Hk; [simplify_eq; unfold lex_lt in *; simpl in *; lia|]. eapply Hfirst; [|done]. lia.
  - destruct (IH (S i) (b, ba, bg)) as [[Hr Hn]|(j & Hj & Hi & Hl' & Hmin & Hfirst)]; cbv zeta.
    + left. split; [done|]. intros [|k] x Hk; simpl in Hk; [done|by eapply Hn].
    + right. exists (S j). simpl in *. split_and!; [done|lia|done| |].
      * intros [|k] x Hk; simpl in Hk; [done|by eapply Hmin].
      * intros [|k] x Hlt' Hk; simpl in Hk; [done|]. eapply Hfirst; [|done]. lia.
Qed.

(** The worker that is chosen has a loop, the least pair of active tasks and assignments in lexicographic
    order, and the least index among those; when there is one below the largest [size_t]. *)
Theorem pick_least_loaded ws j x :
  ws !! j = Some (Some x) → lex_lt x (size_max, size_max) →
  ∃ y, ws !! pick_least_loaded_index ws = Some (Some y) ∧
    ∀ k z, ws !! k = Some (Some z) → ¬ lex_lt z y ∧ (k < pick_least_loaded_index ws → lex_lt y z).
Proof.
  intros Hj Hx. unfold pick_least_loaded_index. destruct (pick_scan_spec 0 (0, size_max, size_max) ws) as [[_ Hn]|(i & Hi & Hr & _ & Hmin & Hf)].
  - by destruct (Hn j x Hj).
  - simpl in Hr. rewrite Hr. eexists. split; [exact Hi|]. intros k z Hk. split; [by eapply Hmin|]. intros Hlt. by eapply Hf.
Qed.

Lemma pick_least_loaded_witness :
  pick_least_loaded_index [Some (2, 5); None; Some (1, 7); Some (1, 7); Some (1, 9)]%Z = 2 ∧
  ∃ y, [Some (2, 5); None; Some (1, 7); Some (1, 7); Some (1, 9)]%Z !! 2 = Some (Some y).
Proof.
  split; [reflexivity|].
  destruct (pick_least_loaded [Some (2, 5); None; Some (1, 7); Some (1, 7); Some (1, 9)]%Z 0 (2, 5)%Z) as (y & Hy & _).
  - reflexivity.
  - left. reflexivity.
  - exists y. exact Hy.
Defined.

(** ** The state *)

(** The tasks of a worker: dispatched; started by the callback, which has not yet decremented
    [pending_dispatches_]; in their bodies; past their [scope] but still counted by the loop. *)
Record worker : Type := mkWorker {
  wk_queued : nat;
  wk_starting : nat;
  wk_bodies : nat;
  wk_ending : nat;
}.
Definition active_task_count (k : worker) : nat := wk_starting k + wk_bodies k + wk_ending k.

(** A thread past the decrement that took [running] to 0: it reads [idle], then sets it. *)
Inductive notifier : Type := NfRead | NfSet.

(** The thread in [wait_all]: about to read [pending_dispatches_], about to read the count of a worker, back. *)
Inductive wait_all_pc : Type := WaOut | WaPending | WaScan (i : nat) | WaBack.

(** The coroutine in [join]. *)
Inductive join_pc : Type := JnOut | JnLoop | JnClear | JnRecheck | JnWait | JnWaiting | JnBack.

Record scheduler : Type := mkSched {
  sc_stopped : bool;
  sc_pending : nat;
  sc_running : nat;
  sc_assigned : list nat;
  sc_workers : list worker;
  sc_idle : option bool;
  sc_spawners : list nat;            (* threads in [spawn_any] before the dispatch, by their worker *)
  sc_notifiers : list notifier;
  sc_wait_all : wait_all_pc;
  sc_join : join_pc;
}.
Implicit Types (s : scheduler) (k : worker).

Definition sched_init (n : nat) : scheduler :=
  let n := if decide (n = 0) then 1 else n in
  mkSched false 0 0 (replicate n 0) (replicate n (mkWorker 0 0 0 0)) None [] [] WaOut JnOut.

Definition sc_set_counts pending running s : scheduler :=
  mkSched (sc_stopped s) pending running (sc_assigned s) (sc_workers s) (sc_idle s) (sc_spawners s) (sc_notifiers s) (sc_wait_all s) (sc_join s).
Definition sc_set_assigned l s : scheduler :=
  mkSched (sc_stopped s) (sc_pending s) (sc_running s) l (sc_workers s) (sc_idle s) (sc_spawners s) (sc_notifiers s) (sc_wait_all s) (sc_join s).
Definition sc_set_workers l s : scheduler :=
  mkSched (sc_stopped s) (sc_pending s) (sc_running s) (sc_assigned s) l (sc_idle s) (sc_spawners s) (sc_notifiers s) (sc_wait_all s) (sc_join s).
Definition sc_set_idle x s : scheduler :=
  mkSched (sc_stopped s) (sc_pending s) (sc_running s) (sc_assigned s) (sc_workers s) x (sc_spawners s) (sc_notifiers s) (sc_wait_all s) (sc_join s).
Definition sc_set_spawners l s : scheduler :=
  mkSched (sc_stopped s) (sc_pending s) (sc_running s) (sc_assigned s) (sc_workers s) (sc_idle s) l (sc_notifiers s) (sc_wait_all s) (sc_join s).
Definition sc_set_notifiers l s : scheduler :=
  mkSched (sc_stopped s) (sc_pending s) (sc_running s) (sc_assigned s) (sc_workers s) (sc_idle s) (sc_spawners s) l (sc_wait_all s) (sc_join s).
Definition sc_set_wait_all x s : scheduler :=
  mkSched (sc_stopped s) (sc_pending s) (sc_running s) (sc_assigned s) (sc_workers s) (sc_idle s) (sc_spawners s) (sc_notifiers s) x (sc_join s).
Definition sc_set_join x s : scheduler :=
  mkSched (sc_stopped s) (sc_pending s) (sc_running s) (sc_assigned s) (sc_workers s) (sc_idle s) (sc_spawners s) (sc_notifiers s) (sc_wait_all s) x.

Definition stop_accepting s : scheduler :=
  mkSched true (sc_pending s) (sc_running s) (sc_assigned s) (sc_workers s) (sc_idle s) (sc_spawners s) (sc_notifiers s) (sc_wait_all s) (sc_join s).

(** What the scan of [pick_least_loaded_index] reads. *)
Definition loads s : list (option (Z * Z)) :=
  zip_with (λ k g, Some (Z.of_nat (active_task_count k), Z.of_nat g)) (sc_workers s) (sc_assigned s).

(** [spawn_any] up to the dispatch, the dispatch, and its failure. *)
Definition spawn_begin s : res scheduler :=
  if sc_stopped s then Throw OverloadError
  else
    let best := pick_least_loaded_index (loads s) in
    Ok (sc_set_spawners (sc_spawners s ++ [best])
          (sc_set_assigned (alter S best (sc_assigned s)) (sc_set_counts (S (sc_pending s)) (S (sc_running s)) s))).
Definition spawn_dispatch (i best : nat) s : scheduler :=
  sc_set_spawners (delete i (sc_spawners s))
    (sc_set_workers (alter (λ k, mkWorker (S (wk_queued k)) (wk_starting k) (wk_bodies k) (wk_ending k)) best (sc_workers s)) s).
Definition spawn_failed (i best : nat) s : scheduler :=
  sc_set_spawners (delete i (sc_spawners s))
    (sc_set_assigned (alter pred best (sc_assigned s)) (sc_set_counts (pred (sc_pending s)) (pred (sc_running s)) s)).

(** The callback on a worker: it starts the task, then decrements [pending_dispatches_]. *)
Definition worker_start (k : worker) : worker := mkWorker (pred (wk_queued k)) (S (wk_starting k)) (wk_bodies k) (wk_ending k).
Definition worker_started (k : worker) : worker := mkWorker (wk_queued k) (pred (wk_starting k)) (S (wk_bodies k)) (wk_ending k).
(** The end of the body: the destructor of [scope]; then the frame is no longer counted. *)
Definition worker_body_ends (k : worker) : worker := mkWorker (wk_queued k) (wk_starting k) (pred (wk_bodies k)) (S (wk_ending k)).
Definition worker_gone (k : worker) : worker := mkWorker (wk_queued k) (wk_starting k) (wk_bodies k) (pred (wk_ending k)).

Definition scope_ends s : scheduler :=
  let s' := sc_set_counts (sc_pending s) (pred (sc_running s)) s in
  if decide (sc_running s = 1) then sc_set_notifiers (sc_notifiers s ++ [NfRead]) s' else s'.

Definition sc_event_set s : scheduler :=
  match sc_idle s with
  | Some _ => sc_set_join (match sc_join s with JnWaiting => JnLoop | p => p end) (sc_set_idle (Some true) s)
  | None => s
  end.

(** One step of [wait_all]; the sleeps take it back to its first test. *)
Definition wait_all_step s : option scheduler :=
  match sc_wait_all s with
  | WaOut => Some (sc_set_wait_all WaPending s)
  | WaPending => Some (sc_set_wait_all (if decide (0 < sc_pending s) then WaPending else WaScan 0) s)
  | WaScan i =>
      Some (sc_set_wait_all
              (match sc_workers s !! i with
               | Some k => if decide (0 < active_task_count k) then WaPending else WaScan (S i)
               | None => WaBack
               end) s)
  | WaBack => None
  end.

(** One step of [join]. *)
Definition join_step s : option scheduler :=
  match sc_join s with
  | JnOut => Some (sc_set_join JnLoop (match sc_idle s with Some _ => s | None => sc_set_idle (Some false) s end))
  | JnLoop => Some (sc_set_join (if decide (0 < sc_running s) then JnClear else JnBack) s)
  | JnClear => Some (sc_set_join JnRecheck (match sc_idle s with Some _ => sc_set_idle (Some false) s | None => s end))
  | JnRecheck => Some (sc_set_join (if decide (sc_running s = 0) then JnBack else JnWait) s)
  | JnWait => Some (sc_set_join (if decide (sc_idle s = Some true) then JnLoop else JnWaiting) s)
  | JnWaiting | JnBack => None
  end.

(** The steps.  [during] says that [spawn_any] may be called while a [wait_all] scans (by a task, say), and
    [fails] that a dispatch may fail to allocate. *)
Inductive sched_step (during fails : bool) : scheduler → scheduler → Prop :=
  | ScSpawn s s' :
      spawn_begin s = Ok s' → (during = false → ∀ i, sc_wait_all s ≠ WaScan i) → sched_step during fails s s'
  | ScDispatch i best s :
      sc_spawners s !! i = Some best → sched_step during fails s (spawn_dispatch i best s)
  | ScDispatchFails i best s :
      fails = true → sc_spawners s !! i = Some best → sched_step during fails s (spawn_failed i best s)
  | ScStart j k s :
      sc_workers s !! j = Some k → 0 < wk_queued k → sched_step during fails s (sc_set_workers (<[j := worker_start k]> (sc_workers s)) s)
  | ScStarted j k s :
      sc_workers s !! j = Some k → 0 < wk_starting k →
      sched_step during fails s (sc_set_workers (<[j := worker_started k]> (sc_workers s)) (sc_set_counts (pred (sc_pending s)) (sc_running s) s))
  | ScBodyEnds j k s :
      sc_workers s !! j = Some k → 0 < wk_bodies k →
      sched_step during fails s (scope_ends (sc_set_workers (<[j := worker_body_ends k]> (sc_workers s)) s))
  | ScGone j k s :
      sc_workers s !! j = Some k → 0 < wk_ending k → sched_step during fails s (sc_set_workers (<[j := worker_gone k]> (sc_workers s)) s)
  | ScRead i s :
      sc_notifiers s !! i = Some NfRead →
      sched_step during fails s
        (sc_set_notifiers (match sc_idle s with Some _ => <[i := NfSet]> (sc_notifiers s) | None => delete i (sc_notifiers s) end) s)
  | ScSet i s :
      sc_notifiers s !! i = Some NfSet → sched_step during fails s (sc_event_set (sc_set_notifiers (delete i (sc_notifiers s)) s))
  | ScWaitAll s s' :
      wait_all_step s = Some s' → sched_step during fails s s'
  | ScJoin s s' :
      join_step s = Some s' → sched_step during fails s s'
  | ScStop s :
      sched_step during fails s (stop_accepting s).

Definition sched_reachable (during fails : bool) (n : nat) s : Prop := rtc (sched_step during fails) (sched_init n) s.

(** ** Invariants *)

Definition wsum (f : worker → nat) (ws : list worker) : nat := sum_list_with f ws.
Definition waiting_tasks (k : worker) : nat := wk_queued k + wk_starting k.
Definition unfinished_tasks (k : worker) : nat := wk_queued k + wk_starting k + wk_bodies k.

Lemma wsum_insert f ws j k k' : ws !! j = Some k → wsum f (<[j := k']> ws) + f k = wsum f ws + f k'.
Proof.
  intros Hj. unfold wsum. revert j Hj. induction ws as [|x ws IH]; intros [|j] Hj; simpl in *; [done|done|simplify_eq; lia|].
  specialize (IH j Hj). lia.
Qed.

Lemma wsum_alter f g ws j k : ws !! j = Some k → wsum f (alter g j ws) + f k = wsum f ws + f (g k).
Proof.
  unfold wsum. revert j. induction ws as [|x ws IH]; intros [|j] Hj; [done|done| |].
  - change (alter g 0 (x :: ws)) with (g x :: ws). simpl in *. simplify_eq. lia.
  - change (alter g (S j) (x :: ws)) with (x :: alter g j ws). simpl in *. specialize (IH j Hj). lia.
Qed.

Lemma wsum_zero f ws : wsum f ws = 0 ↔ ∀ j k, ws !! j = Some k → f k = 0.
Proof.
  unfold wsum. induction ws as [|x ws IH]; simpl; [done|]. split.
  - intros Hz [|j] k Hk; simpl in Hk; [simplify_eq; lia|]. eapply IH; [lia|done].
  - intros Hall. rewrite (Hall 0 x eq_refl). simpl. apply IH. intros j k Hk. apply (Hall (S j) k Hk).
Qed.

Record sched_ok s : Prop := {
  sk_workers : 0 < length (sc_workers s);
  sk_spawners : Forall (λ best, best < length (sc_workers s)) (sc_spawners s);
  sk_pending : sc_pending s = length (sc_spawners s) + wsum waiting_tasks (sc_workers s);
  sk_running : sc_running s = length (sc_spawners s) + wsum unfinished_tasks (sc_workers s);
}.

Lemma pick_bound s : 0 < length (sc_workers s) → pick_least_loaded_index (loads s) < length (sc_workers s).
Proof.
  intros Hw. unfold pick_least_loaded_index. destruct (pick_scan_spec 0 (0, size_max, size_max) (loads s)) as [[-> _]|(j & Hj & Hr & _)]; [done|].
  simpl in Hr. rewrite Hr. apply lookup_lt_Some in Hj. unfold loads in Hj. rewrite length_zip_with in Hj. lia.
Qed.

(** Steps that leave the counts of tasks alone. *)
Definition same_tasks s s' : Prop :=
  sc_workers s' = sc_workers s ∧ sc_spawners s' = sc_spawners s ∧ sc_pending s' = sc_pending s ∧ sc_running s' = sc_running s.

Lemma same_tasks_ok s s' : same_tasks s s' → sched_ok s → sched_ok s'.
Proof. intros (Hw & Hs & Hp & Hr) []. by split; rewrite ?Hw, ?Hs, ?Hp, ?Hr. Qed.

Lemma wait_all_same s s' : wait_all_step s = Some s' → same_tasks s s'.
Proof. unfold wait_all_step. intros Hs. repeat case_match; by simplify_eq. Qed.

Lemma join_same s s' : join_step s = Some s' → same_tasks s s'.
Proof. unfold join_step. intros Hs. repeat case_match; by simplify_eq. Qed.

(** A worker goes on: its counts change by what the two global counters change. *)
Lemma worker_ok s j k k' pending running :
  sched_ok s → sc_workers s !! j = Some k →
  pending + waiting_tasks k = sc_pending s + waiting_tasks k' → running + unfinished_tasks k = sc_running s + unfinished_tasks k' →
  sched_ok (sc_set_workers (<[j := k']> (sc_workers s)) (sc_set_counts pending running s)).
Proof.
  intros [Hw Hs Hp Hr] Hj Hp' Hr'. split; simpl; rewrite ?length_insert; [done|done| |].
  - pose proof (wsum_insert waiting_tasks (sc_workers s) j k k' Hj). lia.
  - pose proof (wsum_insert unfinished_tasks (sc_workers s) j k k' Hj). lia.
Qed.

Lemma spawn_begin_ok s s' : spawn_begin s = Ok s' → sched_ok s → sched_ok s'.
Proof.
  unfold spawn_begin. intros Hb [Hw Hs Hp Hr]. destruct (sc_stopped s); simplify_eq. split; simpl; rewrite ?length_app; simpl; [done| |lia|lia].
  apply Forall_app. split; [done|]. constructor; [by apply pick_bound|done].
Qed.

Lemma spawn_dispatch_ok i best s : sc_spawners s !! i = Some best → sched_ok s → sched_ok (spawn_dispatch i best s).
Proof.
  intros Hi [Hw Hs Hp Hr]. assert (length (sc_spawners s) = S (length (delete i (sc_spawners s)))) as Hd.
  { rewrite length_delete by done. apply lookup_lt_Some in Hi. lia. }
  destruct (lookup_lt_is_Some_2 (sc_workers s) best) as [k Hk]; [by eapply (Forall_lookup_1 _ _ _ _ Hs Hi)|].
  split; simpl; rewrite ?length_alter; [done| | |].
  - by apply Forall_delete.
  - pose proof (wsum_alter waiting_tasks (λ k, mkWorker (S (wk_queued k)) (wk_starting k) (wk_bodies k) (wk_ending k)) _ _ _ Hk) as Ha.
    unfold waiting_tasks in *. simpl in *. lia.
  - pose proof (wsum_alter unfinished_tasks (λ k, mkWorker (S (wk_queued k)) (wk_starting k) (wk_bodies k) (wk_ending k)) _ _ _ Hk) as Ha.
    unfold unfinished_tasks in *. simpl in *. lia.
Qed.

Lemma spawn_rolled_back_ok i best s : sc_spawners s !! i = Some best → sched_ok s → sched_ok (spawn_failed i best s).
Proof.
  intros Hi [Hw Hs Hp Hr]. assert (length (sc_spawners s) = S (length (delete i (sc_spawners s)))) as Hd.
  { rewrite length_delete by done. apply lookup_lt_Some in Hi. lia. }
  split; simpl; [done| |lia|lia]. by apply Forall_delete.
Qed.

Lemma scope_ends_ok s j k :
  sched_ok s → sc_workers s !! j = Some k → 0 < wk_bodies k →
  sched_ok (scope_ends (sc_set_workers (<[j := worker_body_ends k]> (sc_workers s)) s)).
Proof.
  intros Hok Hj Hb. assert (0 < sc_running s) as Hr.
  { pose proof (sk_running s Hok) as Hr. pose proof (wsum_insert unfinished_tasks (sc_workers s) j k (worker_body_ends k) Hj) as Hi.
    unfold unfinished_tasks in *. simpl in *. lia. }
  assert (sched_ok (sc_set_workers (<[j := worker_body_ends k]> (sc_workers s)) (sc_set_counts (sc_pending s) (pred (sc_running s)) s))) as Hk
    by (eapply worker_ok; [done|done|unfold waiting_tasks; done|unfold unfinished_tasks; simpl; lia]).
  unfold scope_ends. simpl. case_decide; [|exact Hk]. eapply same_tasks_ok, Hk. done.
Qed.

Lemma sched_step_ok during fails s s' : sched_ok s → sched_step during fails s s' → sched_ok s'.
Proof.
  intros Hok. destruct 1 as [s s' Hb _|i best s Hi|i best s _ Hi|j k s Hj Hq|j k s Hj Hq|j k s Hj Hq|j k s Hj Hq|i s Hi|i s Hi|s s' Hw|s s' Hw|s].
  - by eapply spawn_begin_ok.
  - by apply spawn_dispatch_ok.
  - by apply spawn_rolled_back_ok.
  - eapply (worker_ok s j k _ (sc_pending s) (sc_running s)); [done|done|unfold waiting_tasks; simpl; lia|unfold unfinished_tasks; simpl; lia].
  - assert (0 < sc_pending s) as Hp.
    { pose proof (sk_pending s Hok) as Hp. pose proof (wsum_insert waiting_tasks (sc_workers s) j k (worker_started k) Hj).
      unfold waiting_tasks in *. simpl in *. lia. }
    eapply (worker_ok s j k _ (pred (sc_pending s)) (sc_running s)); [done|done|unfold waiting_tasks; simpl; lia|unfold unfinished_tasks; simpl; lia].
  - by apply scope_ends_ok.
  - eapply (worker_ok s j k _ (sc_pending s) (sc_running s)); [done|done|unfold waiting_tasks; simpl; lia|unfold unfinished_tasks; simpl; lia].
  - by eapply same_tasks_ok, Hok.
  - eapply same_tasks_ok, Hok. unfold sc_event_set. simpl. by destruct (sc_idle s).
  - by eapply same_tasks_ok, Hok; apply wait_all_same.
  - by eapply same_tasks_ok, Hok; apply join_same.
  - by eapply same_tasks_ok, Hok.
Qed.

Lemma sched_init_ok n : sched_ok (sched_init n).
Proof.
  unfold sched_init. assert (0 < (if decide (n = 0) then 1 else n)) as Hn by (case_decide; lia).
  revert Hn. generalize (if decide (n = 0) then 1 else n). intros m Hm.
  assert (∀ f, f (mkWorker 0 0 0 0) = 0 → wsum f (replicate m (mkWorker 0 0 0 0)) = 0) as Hz.
  { intros f Hf. apply wsum_zero. intros j k [-> _]%lookup_replicate. done. }
  split; simpl; rewrite ?length_replicate; [done|done|by rewrite Hz|by rewrite Hz].
Qed.

Lemma sched_reachable_ok during fails n s : sched_reachable during fails n s → sched_ok s.
Proof.
  unfold sched_reachable. pose proof (sched_init_ok n) as H0. revert H0. generalize (sched_init n).
  intros s0 H0 Hr. induction Hr; eauto using sched_step_ok.
Qed.

(** The counters of the scheduler, in every interleaving of spawning threads, workers, [wait_all] and [join]:
    [running] is the number of tasks that were spawned and whose body has not ended, and
    [pending_dispatches_] of those that no worker counts as active yet, so neither
    underflows and a scheduler with [running] 0 has nothing queued. *)
Theorem scheduler_counts during fails n s :
  sched_reachable during fails n s →
  sc_running s = length (sc_spawners s) + wsum unfinished_tasks (sc_workers s) ∧
  sc_pending s = length (sc_spawners s) + wsum waiting_tasks (sc_workers s) ∧
  (∀ j k, sc_workers s !! j = Some k → 0 < wk_bodies k → 0 < sc_running s) ∧
  (sc_running s = 0 → sc_pending s = 0 ∧ ∀ j k, sc_workers s !! j = Some k → unfinished_tasks k = 0).
Proof.
  intros [Hw Hs Hp Hr]%sched_reachable_ok. split_and!; [done|done| |].
  - intros j k Hk Hb. destruct (Nat.eq_0_gt_0_cases (sc_running s)) as [Hz|]; [|done].
    assert (wsum unfinished_tasks (sc_workers s) = 0) as Hu by lia. rewrite wsum_zero in Hu. specialize (Hu j k Hk). unfold unfinished_tasks in Hu. lia.
  - intros Hz. assert (wsum unfinished_tasks (sc_workers s) = 0) as Hu by lia. rewrite wsum_zero in Hu. split; [|done].
    rewrite Hp. assert (wsum waiting_tasks (sc_workers s) = 0) as ->; [|lia]. apply wsum_zero. intros j k Hk. specialize (Hu j k Hk).
    unfold unfinished_tasks, waiting_tasks in *. lia.
Qed.

(** ** [join] *)

Record join_live s : Prop := {
  jl_event : sc_join s ≠ JnOut → sc_join s ≠ JnBack → sc_idle s ≠ None;
  jl_wait : sc_join s = JnWait ∨ sc_join s = JnWaiting →
    (sc_join s = JnWait ∧ sc_idle s = Some true) ∨ 0 < sc_running s ∨ sc_notifiers s ≠ [];
}.

(** Steps that only add work, or take none away. *)
Lemma join_live_mono s s' :
  sc_join s' = sc_join s → sc_idle s' = sc_idle s → (0 < sc_running s → 0 < sc_running s' ∨ sc_notifiers s' ≠ []) →
  (sc_notifiers s ≠ [] → sc_notifiers s' ≠ []) → join_live s → join_live s'.
Proof. intros Hj Hi Hr Hn [He Hw]. split; rewrite Hj, Hi; [done|]. intros Hp. destruct (Hw Hp) as [?|[?|?]]; auto. Qed.

Lemma join_live_step during s s' : sched_ok s → join_live s → sched_step during false s s' → join_live s'.
Proof.
  intros Hok Hl. destruct 1 as [s s' Hb _|i best s Hi|i best s Hf Hi|j k s Hj Hq|j k s Hj Hq|j k s Hj Hq|j k s Hj Hq|i s Hi|i s Hi|s s' Hw|s s' Hw|s];
    try done; try (eapply (join_live_mono s); [done|done|by auto|done|exact Hl]).
  - unfold spawn_begin in Hb. destruct (sc_stopped s); simplify_eq. eapply (join_live_mono s); [done|done|simpl; lia|done|exact Hl].
  - unfold scope_ends. simpl. destruct (decide (sc_running s = 1)); (eapply (join_live_mono s); [done|done| | |exact Hl]; simpl).
    + intros _. right. by destruct (sc_notifiers s).
    + by destruct (sc_notifiers s).
    + intros ?. left. lia.
    + done.
  - destruct Hl as [He Hw]. split; simpl; [done|]. intros Hp. destruct (Hw Hp) as [?|[?|?]]; auto. right; right.
    destruct (sc_idle s) eqn:Hid; [|exfalso; apply He; [destruct Hp as [-> | ->]; done..|done]].
    intros Hx. apply (f_equal length) in Hx. rewrite length_insert in Hx. by destruct (sc_notifiers s).
  - destruct Hl as [He Hw]. unfold sc_event_set. simpl. destruct (sc_idle s) as [x|] eqn:Hid.
    + split; simpl; [done|]. destruct (sc_join s); intros [|]; try done. by left.
    + split; simpl; [by rewrite Hid|]. intros Hp. exfalso. apply He; [destruct Hp as [-> | ->]; done..|done].
  - destruct Hl as [He Hl]. unfold wait_all_step in Hw. repeat case_match; simplify_eq; by split.
  - destruct Hl as [He Hl]. unfold join_step in Hw. destruct (sc_join s) eqn:Hjn; simplify_eq.
    + split; simpl; [by destruct (sc_idle s) eqn:Hid; simpl; rewrite ?Hid|by intros [|]].
    + split; simpl; [intros; by apply He|]. by case_decide; intros [|].
    + split; simpl; [|by intros [|]]. intros _ _. destruct (sc_idle s) eqn:Hid; [done|]. by destruct He.
    + split; simpl; [intros; by apply He|]. case_decide; intros [|]; try done. right; left. lia.
    + split; simpl; [intros; by apply He|]. case_decide; intros [|]; try done. destruct Hl as [[_ ?]|?]; [by left|done|by right].
Qed.

(** No lost wake-up in [join]: whatever the order in which tasks are spawned, dispatched, end and notify on
    different threads, a coroutine that is suspended in [join] has a task still running or a
    thread that is about to set the event (a dispatch does not fail here). *)
Theorem join_no_lost_wakeup during n s :
  sched_reachable during false n s → sc_join s = JnWaiting → 0 < sc_running s ∨ sc_notifiers s ≠ [].
Proof.
  intros Hr Hw. assert (join_live s) as [_ Hl].
  { unfold sched_reachable in Hr. assert (join_live (sched_init n)) as H0 by (split; [done|by intros [|]]).
    pose proof (sched_init_ok n) as Hok. clear Hw. revert H0 Hok Hr. generalize (sched_init n). intros s0 H0 Hok Hr.
    induction Hr; eauto using join_live_step, sched_step_ok. }
  destruct Hl as [[Hx _]|?]; [by right|congruence|done].
Qed.

(** ** [wait_all] *)

Definition scan_ok s : Prop :=
  ∀ i, sc_wait_all s = WaScan i →
    sc_pending s = 0 ∧ ∀ j k, j < i → sc_workers s !! j = Some k → active_task_count k = 0.

Lemma scan_ok_worker j k k' pending running s :
  sched_ok s → scan_ok s → sc_workers s !! j = Some k → pending ≤ sc_pending s →
  (sc_pending s = 0 → active_task_count k = 0 → active_task_count k' = 0) →
  scan_ok (sc_set_workers (<[j := k']> (sc_workers s)) (sc_set_counts pending running s)).
Proof.
  intros Hok Hs Hj Hp Ha i Hi. simpl in *. destruct (Hs i Hi) as [Hz Hall]. split; [lia|].
  intros j' k1 Hlt Hk1. destruct (decide (j' = j)) as [->|Hne].
  - rewrite list_lookup_insert_eq in Hk1 by by eapply lookup_lt_Some. simplify_eq. apply Ha; [done|]. by eapply Hall.
  - rewrite list_lookup_insert_ne in Hk1 by done. by eapply Hall.
Qed.

(** Without a pending dispatch no worker has a task that is not counted. *)
Lemma no_pending s j k : sched_ok s → sc_pending s = 0 → sc_workers s !! j = Some k → waiting_tasks k = 0.
Proof.
  intros Hok Hz Hk. assert (wsum waiting_tasks (sc_workers s) = 0) as Hw by (pose proof (sk_pending s Hok); lia).
  rewrite wsum_zero in Hw. by eapply Hw.
Qed.

Lemma scan_ok_same s s' : sc_wait_all s' = sc_wait_all s → sc_workers s' = sc_workers s → sc_pending s' = sc_pending s → scan_ok s → scan_ok s'.
Proof. intros Ha Hw Hp Hs i. rewrite Ha, Hw, Hp. apply Hs. Qed.

Lemma scan_ok_step fails s s' : sched_ok s → scan_ok s → sched_step false fails s s' → scan_ok s'.
Proof.
  intros Hok Hs. destruct 1 as [s s' Hb Hd|i best s Hi|i best s Hf Hi|j k s Hj Hq|j k s Hj Hq|j k s Hj Hq|j k s Hj Hq|i s Hi|i s Hi|s s' Hw|s s' Hw|s].
  - unfold spawn_begin in Hb. destruct (sc_stopped s); simplify_eq. intros i Hi. simpl in Hi. by destruct (Hd eq_refl i).
  - intros i' Hi'. simpl in *. destruct (Hs i' Hi') as [Hz _]. pose proof (sk_pending s Hok). apply lookup_lt_Some in Hi. lia.
  - intros i' Hi'. simpl in *. destruct (Hs i' Hi') as [Hz _]. pose proof (sk_pending s Hok). apply lookup_lt_Some in Hi. lia.
  - eapply (scan_ok_worker j k _ (sc_pending s) (sc_running s)); [done..|]. intros Hz _. pose proof (no_pending s j k Hok Hz Hj). unfold waiting_tasks in *. lia.
  - eapply (scan_ok_worker j k _ (pred (sc_pending s)) (sc_running s)); [done..|lia|]. intros Hz _. pose proof (no_pending s j k Hok Hz Hj). unfold waiting_tasks in *. lia.
  - assert (scan_ok (sc_set_workers (<[j := worker_body_ends k]> (sc_workers s)) (sc_set_counts (sc_pending s) (pred (sc_running s)) s))) as Hx.
    { eapply scan_ok_worker; [done..|]. unfold active_task_count. simpl. lia. }
    unfold scope_ends. simpl. case_decide; [|exact Hx]. eapply scan_ok_same; [..|exact Hx]; done.
  - eapply (scan_ok_worker j k _ (sc_pending s) (sc_running s)); [done..|]. unfold active_task_count. simpl. lia.
  - eapply scan_ok_same; [..|exact Hs]; done.
  - eapply scan_ok_same; [..|exact Hs]; unfold sc_event_set; simpl; by destruct (sc_idle s).
  - unfold wait_all_step in Hw. destruct (sc_wait_all s) eqn:Hwa; simplify_eq; intros i' Hi'; simpl in *.
    + done.
    + case_decide; simplify_eq. split; lia.
    + destruct (sc_workers s !! i) as [k|] eqn:Hk; [|done]. case_decide; simplify_eq. destruct (Hs i Hwa) as [Hz Hall]. split; [done|].
      intros j k' Hlt Hj. destruct (decide (j = i)) as [->|]; [simplify_eq; lia|]. eapply Hall; [|exact Hj]. lia.
  - eapply scan_ok_same; [..|exact Hs]; unfold join_step in Hw; repeat case_match; by simplify_eq.
  - eapply scan_ok_same; [..|exact Hs]; done.
Qed.

(** [wait_all] waits for everything, if nothing is spawned while it scans: at the step in which it returns no
    dispatch is pending, no task runs and no worker counts one. *)
Theorem wait_all_complete fails n s i :
  sched_reachable false fails n s → sc_wait_all s = WaScan i → sc_workers s !! i = None →
  wait_all_step s = Some (sc_set_wait_all WaBack s) ∧
  sc_pending s = 0 ∧ sc_running s = 0 ∧ ∀ j k, sc_workers s !! j = Some k → active_task_count k = 0.
Proof.
  intros Hr Hwa Hi. pose proof (sched_reachable_ok _ _ _ _ Hr) as Hok.
  assert (scan_ok s) as Hs.
  { unfold sched_reachable in Hr. assert (scan_ok (sched_init n)) as H0 by done. pose proof (sched_init_ok n) as Hok0.
    clear Hwa Hi Hok. revert H0 Hok0 Hr. generalize (sched_init n). intros s0 H0 Hok0 Hr. induction Hr; eauto using scan_ok_step, sched_step_ok. }
  destruct (Hs i Hwa) as [Hz Hall].
  assert (∀ j k, sc_workers s !! j = Some k → active_task_count k = 0) as Hidle.
  { intros j k Hj. eapply Hall; [|exact Hj]. apply lookup_ge_None in Hi. apply lookup_lt_Some in Hj. lia. }
  split_and!; [unfold wait_all_step; by rewrite Hwa, Hi|done| |done].
  pose proof (sk_pending s Hok). pose proof (sk_running s Hok) as Hrun.
  assert (wsum unfinished_tasks (sc_workers s) = 0) as Hu; [|lia]. apply wsum_zero. intros j k Hj.
  pose proof (no_pending s j k Hok Hz Hj). pose proof (Hidle j k Hj). unfold waiting_tasks, active_task_count, unfinished_tasks in *. lia.
Qed.

(** ** Scenarios *)

(** One step of a run, whose result is computed. *)
Ltac step c :=
  eapply rtc_l; [eapply c|try (lazymatch goal with |- rtc _ ?s _ => let s' := eval vm_compute in s in change s with s' end)].

(** One task on the first of two workers, past its start, and somebody in [join] and in [wait_all]. *)
Definition one_task (a : wait_all_pc) (j : join_pc) (idle : option bool) : scheduler :=
  mkSched false 0 1 [1; 0] [mkWorker 0 0 1 0; mkWorker 0 0 0 0] idle [] [] a j.

Lemma one_task_reachable during fails : sched_reachable during fails 2 (one_task WaOut JnOut None).
Proof.
  unfold sched_reachable. eapply rtc_l; [eapply ScSpawn; [reflexivity|by intros _ i]|].
  eapply rtc_l; [apply (ScDispatch _ _ 0 0); reflexivity|]. eapply rtc_l; [eapply (ScStart _ _ 0); [reflexivity|simpl; lia]|].
  eapply rtc_l; [eapply (ScStarted _ _ 0); [reflexivity|simpl; lia]|]. apply rtc_refl.
Qed.

Lemma scheduler_counts_witness :
  sched_reachable true true 2 (one_task WaOut JnOut None) ∧ sc_running (one_task WaOut JnOut None) = wsum unfinished_tasks [mkWorker 0 0 1 0; mkWorker 0 0 0 0].
Proof.
  split; [apply one_task_reachable|]. exact (proj1 (scheduler_counts _ _ _ _ (one_task_reachable true true))).
Defined.

Lemma join_no_lost_wakeup_witness :
  0 < sc_running (one_task WaOut JnWaiting (Some false)) ∨ sc_notifiers (one_task WaOut JnWaiting (Some false)) ≠ [].
Proof.
  apply (join_no_lost_wakeup true 2); [|reflexivity]. eapply (transitivity (R := rtc _) (one_task_reachable _ _)).
  do 5 (eapply rtc_l; [apply ScJoin; reflexivity|]). apply rtc_refl.
Defined.

Lemma wait_all_complete_witness :
  sc_running (sc_set_wait_all (WaScan 1) (sched_init 1)) = 0.
Proof.
  destruct (wait_all_complete true 1 (sc_set_wait_all (WaScan 1) (sched_init 1)) 1) as (_ & _ & Hr & _).
  - unfold sched_reachable. do 3 (eapply rtc_l; [apply ScWaitAll; reflexivity|]). apply rtc_refl.
  - reflexivity.
  - reflexivity.
  - exact Hr.
Defined.

(** The second task, on the second worker, spawns a third, which goes to the first worker after that was found
    idle, and ends before its own worker is looked at. *)
Definition early_return : scheduler :=
  mkSched false 0 1 [2; 1] [mkWorker 0 0 1 0; mkWorker 0 0 0 0] None [] [] WaBack JnOut.

(** [wait_all] can return while a task runs: its scan of the workers is not a snapshot, and a task that is
    spawned by another one while it scans can hide behind a worker that was already found idle. *)
Theorem wait_all_returns_early :
  sched_reachable true false 2 early_return ∧ sc_wait_all early_return = WaBack ∧ sc_running early_return = 1.
Proof.
  split_and!; [|done|done]. eapply (transitivity (R := rtc _) (one_task_reachable _ _)).
  step (ScSpawn true false); [reflexivity|done|]. step (ScDispatch true false 0 1); [reflexivity|].
  step (ScStart true false 1); [reflexivity|simpl; lia|]. step (ScStarted true false 1); [reflexivity|simpl; lia|].
  step (ScBodyEnds true false 0); [reflexivity|simpl; lia|]. step (ScGone true false 0); [reflexivity|simpl; lia|].
  do 3 (step (ScWaitAll true false); [reflexivity|]).
  step (ScSpawn true false); [reflexivity|done|]. step (ScDispatch true false 0 0); [reflexivity|].
  step (ScStart true false 0); [reflexivity|simpl; lia|]. step (ScStarted true false 0); [reflexivity|simpl; lia|].
  step (ScBodyEnds true false 1); [reflexivity|simpl; lia|]. step (ScGone true false 1); [reflexivity|simpl; lia|].
  do 2 (step (ScWaitAll true false); [reflexivity|]). apply rtc_refl.
Qed.

(** A dispatch that fails takes [running] back to 0 without setting the event: a [join] that saw the task is
    left suspended. *)
Lemma failed_dispatch_strands_join :
  ∃ s, sched_reachable true true 1 s ∧ sc_join s = JnWaiting ∧ sc_running s = 0 ∧ sc_notifiers s = [].
Proof.
  eexists. split.
  - unfold sched_reachable. eapply rtc_l; [eapply ScSpawn; [reflexivity|done]|].
    do 5 (eapply rtc_l; [apply ScJoin; reflexivity|]). eapply rtc_l; [apply (ScDispatchFails _ _ 0 0); reflexivity|]. apply rtc_refl.
  - done.
Qed.
