(* ===== verification/ThreadPoolM.v ===== *)
(** * ThreadPoolM: blocking calls on threads ([detail::ThreadPool], [to_thread])

    [src/include/coro/thread.hpp].  A task is a number, what its callable does is a parameter.  The
    steps are the critical sections of the mutex, the notifications, which come after
    them, and the calls of the tasks; a condition variable may wake a thread for no reason. *)

From S2P Require Import Prelude.
From stdpp Require Import options.
#[local] Set Default Proof Using "Type*".

(** A worker: about to lock and test, in the condition variable, running a task, or gone. *)
Inductive thread_pc : Type :=
  | ThLock
  | ThAsleep
  | ThRun (t : nat)
  | ThExit.

#[export] Instance thread_pc_eq_dec : EqDecision thread_pc.
Proof. solve_decision. Defined.

(** The members, the notifications that are still to be sent, and the promises completed so far;
    [tp_accepted] and [tp_started] are history variables. *)
Record thread_pool : Type := mkPool {
  tp_workers : list thread_pc;
  tp_tasks : list nat;
  tp_stopping : bool;
  tp_max_pending : nat;
  tp_notify_one : nat;
  tp_notify_all : bool;
  tp_results : gmap nat (res Z);
  tp_accepted : list nat;
  tp_started : list nat;
}.
Implicit Types (p : thread_pool) (t : nat).

Definition pool_new (n max_pending : nat) : thread_pool :=
  mkPool (replicate (if decide (n = 0) then 1 else n) ThLock) [] false max_pending 0 false ∅ [] [].

Definition tp_set_workers ws p : thread_pool :=
  mkPool ws (tp_tasks p) (tp_stopping p) (tp_max_pending p) (tp_notify_one p) (tp_notify_all p) (tp_results p) (tp_accepted p) (tp_started p).
Definition tp_set_notify n a p : thread_pool :=
  mkPool (tp_workers p) (tp_tasks p) (tp_stopping p) (tp_max_pending p) n a (tp_results p) (tp_accepted p) (tp_started p).
Definition tp_set_result t r p : thread_pool :=
  mkPool (tp_workers p) (tp_tasks p) (tp_stopping p) (tp_max_pending p) (tp_notify_one p) (tp_notify_all p) (<[t := r]> (tp_results p))
    (tp_accepted p) (tp_started p).

(** The critical section of [try_submit]; the notification follows when it is accepted. *)
Definition try_submit t p : bool * thread_pool :=
  if tp_stopping p then (false, p)
  else if bool_decide (tp_max_pending p ≠ 0) && bool_decide (tp_max_pending p ≤ length (tp_tasks p)) then (false, p)
  else
    (true, mkPool (tp_workers p) (tp_tasks p ++ [t]) (tp_stopping p) (tp_max_pending p) (S (tp_notify_one p)) (tp_notify_all p)
             (tp_results p) (tp_accepted p ++ [t]) (tp_started p)).

Definition pool_submit t p : res unit * thread_pool :=
  let '(ok, p) := try_submit t p in (if ok then Ok tt else Throw OverloadError, p).

(** [submit_to_pool]: the promise of a refused task fails at once. *)
Definition submit_to_pool t p : thread_pool :=
  let '(ok, p) := try_submit t p in if ok then p else tp_set_result t (Throw OverloadError) p.

(** The critical section of [stop_and_join]. *)
Definition pool_stop p : thread_pool :=
  mkPool (tp_workers p) (tp_tasks p) true (tp_max_pending p) (tp_notify_one p) true (tp_results p) (tp_accepted p) (tp_started p).

(** The critical section of [worker_loop]. *)
Definition worker_lock (i : nat) p : thread_pool :=
  match tp_tasks p with
  | t :: ts =>
      mkPool (<[i := ThRun t]> (tp_workers p)) ts (tp_stopping p) (tp_max_pending p) (tp_notify_one p) (tp_notify_all p)
        (tp_results p) (tp_accepted p) (tp_started p ++ [t])
  | [] => tp_set_workers (<[i := if tp_stopping p then ThExit else ThAsleep]> (tp_workers p)) p
  end.

Definition wake (th : thread_pc) : thread_pc := if decide (th = ThAsleep) then ThLock else th.

Section pool.
(** What a task does: the value or the exception of its callable. *)
Variable run_task : nat → res Z.

(** The call of a task, with the completion of its promise. *)
Definition worker_ran (i t : nat) p : thread_pool := tp_set_workers (<[i := ThLock]> (tp_workers p)) (tp_set_result t (run_task t) p).

Inductive pool_step : thread_pool → thread_pool → Prop :=
  | TpSubmit t p :
      t ∉ tp_accepted p → tp_results p !! t = None → pool_step p (submit_to_pool t p)
  | TpStop p :
      pool_step p (pool_stop p)
  | TpLock i p :
      tp_workers p !! i = Some ThLock → pool_step p (worker_lock i p)
  | TpRan i t p :
      tp_workers p !! i = Some (ThRun t) → pool_step p (worker_ran i t p)
  | TpNotify i p n :
      tp_notify_one p = S n → tp_workers p !! i = Some ThAsleep →
      pool_step p (tp_set_notify n (tp_notify_all p) (tp_set_workers (<[i := ThLock]> (tp_workers p)) p))
  | TpNotifyNobody p n :
      tp_notify_one p = S n → ThAsleep ∉ tp_workers p → pool_step p (tp_set_notify n (tp_notify_all p) p)
  | TpNotifyAll p :
      tp_notify_all p = true → pool_step p (tp_set_notify (tp_notify_one p) false (tp_set_workers (wake <$> tp_workers p) p))
  | TpSpurious i p :
      tp_workers p !! i = Some ThAsleep → pool_step p (tp_set_workers (<[i := ThLock]> (tp_workers p)) p).

Definition pool_reachable (n max_pending : nat) p : Prop := rtc pool_step (pool_new n max_pending) p.

(** ** Invariant *)

Definition awake (th : thread_pc) : Prop := th = ThLock ∨ ∃ t, th = ThRun t.

Record thread_pool_ok p : Prop := {
  tk_order : tp_accepted p = tp_started p ++ tp_tasks p;
  tk_nodup : NoDup (tp_accepted p);
  tk_results : ∀ t, t ∈ tp_started p → tp_results p !! t = Some (run_task t) ∨ ThRun t ∈ tp_workers p;
  tk_running : ∀ t, ThRun t ∈ tp_workers p → t ∈ tp_started p;
  tk_refused : ∀ t r, tp_results p !! t = Some r → t ∈ tp_started p ∧ r = run_task t ∨ t ∉ tp_accepted p ∧ r = Throw OverloadError;
  tk_bound : tp_max_pending p ≠ 0 → length (tp_tasks p) ≤ tp_max_pending p;
  tk_size : tp_workers p ≠ [];
  tk_exit : ThExit ∈ tp_workers p → tp_stopping p = true ∧ tp_tasks p = [];
  tk_asleep : tp_tasks p ≠ [] → 0 < tp_notify_one p ∨ Exists awake (tp_workers p);
  tk_stopping : tp_stopping p = true → ThAsleep ∈ tp_workers p → tp_notify_all p = true;
}.

(** Replacing the state of one worker. *)
Lemma elem_insert {A} (l : list A) i (x y z : A) : l !! i = Some x → z ∈ <[i := y]> l → z = y ∨ z ∈ l.
Proof.
  intros Hi (j & Hj)%list_elem_of_lookup. destruct (decide (i = j)) as [->|Hne].
  - rewrite list_lookup_insert_eq in Hj by by eapply lookup_lt_Some. left. congruence.
  - rewrite list_lookup_insert_ne in Hj by done. right. by eapply list_elem_of_lookup_2.
Qed.

Lemma elem_insert_other {A} (l : list A) i (x y z : A) : l !! i = Some x → z ∈ l → z ≠ x → z ∈ <[i := y]> l.
Proof.
  intros Hi (j & Hj)%list_elem_of_lookup Hne. apply (list_elem_of_lookup_2 _ j). rewrite list_lookup_insert_ne; [done|]. intros ->. congruence.
Qed.

Lemma elem_insert_new {A} (l : list A) i (x y : A) : l !! i = Some x → y ∈ <[i := y]> l.
Proof. intros Hi. apply (list_elem_of_lookup_2 _ i). by rewrite list_lookup_insert_eq by by eapply lookup_lt_Some. Qed.

Lemma insert_not_nil {A} (l : list A) i (x : A) : l ≠ [] → <[i := x]> l ≠ [].
Proof. intros Hl Hx. apply (f_equal length) in Hx. rewrite length_insert in Hx. by destruct l. Qed.

Lemma exists_awake (ws : list thread_pc) th : th ∈ ws → awake th → Exists awake ws.
Proof. intros. apply Exists_exists. by exists th. Qed.

(** A worker wakes up. *)
Lemma woken_ok i p n a :
  thread_pool_ok p → tp_workers p !! i = Some ThAsleep → a = tp_notify_all p →
  thread_pool_ok (tp_set_notify n a (tp_set_workers (<[i := ThLock]> (tp_workers p)) p)).
Proof.
  intros [] Hi ->. split; simpl; try done.
  - intros t Ht. destruct (tk_results0 t Ht) as [?|?]; [by left|right]. by eapply elem_insert_other.
  - intros t Ht. eapply elem_insert in Ht; [|done]. destruct Ht as [?|?]; [done|auto].
  - by apply insert_not_nil.
  - intros He. eapply elem_insert in He; [|done]. destruct He as [?|?]; [done|auto].
  - intros _. right. eapply exists_awake; [by eapply elem_insert_new|by left].
  - intros Hs Ha. eapply elem_insert in Ha; [|done]. destruct Ha as [?|?]; [done|auto].
Qed.

Lemma submit_ok t p : t ∉ tp_accepted p → tp_results p !! t = None → thread_pool_ok p → thread_pool_ok (submit_to_pool t p).
Proof.
  intros Hnew Hnone [Ho Hnd Hres Hrun Href Hb Hsz Hex Has Hst]. unfold submit_to_pool, try_submit.
  assert (thread_pool_ok (tp_set_result t (Throw OverloadError) p)) as Hrefused.
  { assert (∀ t', t' ∈ tp_started p → t' ≠ t) as Hne by (intros t' Ht' ->; apply Hnew; rewrite Ho; apply elem_of_app; by left).
    split; simpl; try done.
    - intros t' Ht'. rewrite lookup_insert_ne by (symmetry; by apply Hne). by apply Hres.
    - intros t' r. destruct (decide (t' = t)) as [->|]; [rewrite lookup_insert_eq; intros [= <-]; by right|rewrite lookup_insert_ne by done; apply Href]. }
  destruct (tp_stopping p) eqn:Hs; [exact Hrefused|]. destruct (_ && _) eqn:Hfull; [exact Hrefused|].
  split; simpl; try done.
  - by rewrite Ho, app_assoc.
  - apply NoDup_app. split_and!; [done|set_solver|apply NoDup_singleton].
  - intros t' r Hr. destruct (Href t' r Hr) as [?|[? ->]]; [by left|right]. split; [|done].
    intros [?|Hx%list_elem_of_singleton]%elem_of_app; [done|]. subst. congruence.
  - intros Hm. rewrite length_app. simpl. apply andb_false_iff in Hfull as [Hfull|Hfull]; bool_to_prop; [|lia]. by destruct Hfull.
  - intros He. destruct (Hex He) as [? _]. congruence.
  - intros _. left. lia.
Qed.

Lemma lock_ok i p : tp_workers p !! i = Some ThLock → thread_pool_ok p → thread_pool_ok (worker_lock i p).
Proof.
  intros Hi [Ho Hnd Hres Hrun Href Hb Hsz Hex Has Hst]. unfold worker_lock. destruct (tp_tasks p) as [|t ts] eqn:Ht.
  - split; simpl; rewrite ?Ht; try done.
    + intros t' Ht'. destruct (Hres t' Ht') as [?|?]; [by left|right]. by eapply elem_insert_other.
    + intros t' Ht'. eapply elem_insert in Ht'; [|done]. destruct Ht' as [?|?]; [by destruct (tp_stopping p)|auto].
    + by apply insert_not_nil.
    + intros He. eapply elem_insert in He; [|done]. destruct He as [?|?]; [by destruct (tp_stopping p)|auto].
    + intros Hs Ha. rewrite Hs in Ha. eapply elem_insert in Ha; [|done]. destruct Ha as [?|?]; [done|auto].
  - split; simpl; try done.
    + by rewrite Ho, <- app_assoc.
    + intros t' [Ht'|Ht'%list_elem_of_singleton]%elem_of_app; [|subst; right; by eapply elem_insert_new].
      destruct (Hres t' Ht') as [?|?]; [by left|right]. by eapply elem_insert_other.
    + intros t' Ht'. apply elem_of_app. eapply elem_insert in Ht'; [|done]. destruct Ht' as [[= ->]|?]; [right; by apply list_elem_of_singleton|left; auto].
    + intros t' r Hr. destruct (Href t' r Hr) as [[? ?]|?]; [left|by right]. split; [|done]. apply elem_of_app. by left.
    + intros Hm. specialize (Hb Hm). simpl in Hb. lia.
    + by apply insert_not_nil.
    + intros He. eapply elem_insert in He; [|done]. destruct He as [?|He]; [done|]. by destruct (Hex He).
    + intros _. right. eapply exists_awake; [by eapply elem_insert_new|right; by eexists].
    + intros Hs Ha. eapply elem_insert in Ha; [|done]. destruct Ha as [?|?]; [done|auto].
Qed.

Lemma ran_ok i t p : tp_workers p !! i = Some (ThRun t) → thread_pool_ok p → thread_pool_ok (worker_ran i t p).
Proof.
  intros Hi [Ho Hnd Hres Hrun Href Hb Hsz Hex Has Hst]. assert (t ∈ tp_started p) as Ht by (apply Hrun; by eapply list_elem_of_lookup_2).
  split; simpl; try done.
  - intros t' Ht'. destruct (decide (t' = t)) as [->|Hne]; [left; by rewrite lookup_insert_eq|]. rewrite lookup_insert_ne by done.
    destruct (Hres t' Ht') as [?|?]; [by left|right]. eapply elem_insert_other; [done|done|congruence].
  - intros t' Ht'. eapply elem_insert in Ht'; [|done]. destruct Ht' as [?|?]; [done|auto].
  - intros t' r. destruct (decide (t' = t)) as [->|]; [rewrite lookup_insert_eq; intros [= <-]; by left|rewrite lookup_insert_ne by done; apply Href].
  - by apply insert_not_nil.
  - intros He. eapply elem_insert in He; [|done]. destruct He as [?|?]; [done|auto].
  - intros _. right. eapply exists_awake; [by eapply elem_insert_new|by left].
  - intros Hs Ha. eapply elem_insert in Ha; [|done]. destruct Ha as [?|?]; [done|auto].
Qed.

Lemma wake_elem th (ws : list thread_pc) : th ≠ ThLock → th ≠ ThAsleep → th ∈ wake <$> ws ↔ th ∈ ws.
Proof.
  intros Hl Ha. rewrite list_elem_of_fmap. unfold wake. split.
  - intros (x & Hx & Hin). case_decide; congruence.
  - intros Hin. exists th. by rewrite decide_False.
Qed.

Lemma notify_all_ok p : thread_pool_ok p → thread_pool_ok (tp_set_notify (tp_notify_one p) false (tp_set_workers (wake <$> tp_workers p) p)).
Proof.
  intros [Ho Hnd Hres Hrun Href Hb Hsz Hex Has Hst]. split; simpl; try done.
  - intros t Ht. rewrite wake_elem by done. auto.
  - intros t. rewrite wake_elem by done. auto.
  - by destruct (tp_workers p).
  - rewrite wake_elem by done. auto.
  - intros Hts. destruct (Has Hts) as [?|He]; [by left|right]. apply Exists_exists in He as (th & Hin & Haw).
    eapply (exists_awake _ (wake th)); [by apply list_elem_of_fmap_2|]. unfold wake. case_decide; [by left|done].
  - intros _ Ha. apply list_elem_of_fmap in Ha as (x & Hx & _). unfold wake in Hx. case_decide; congruence.
Qed.

Lemma pool_step_ok p p' : thread_pool_ok p → pool_step p p' → thread_pool_ok p'.
Proof.
  intros Hok. destruct 1 as [t p Hn Hr|p|i p Hi|i t p Hi|i p n Hn Hi|p n Hn Hno|p Ha|i p Hi].
  - by apply submit_ok.
  - destruct Hok. split; simpl; try done. intros He. destruct (tk_exit0 He). done.
  - by apply lock_ok.
  - by apply ran_ok.
  - by apply woken_ok.
  - destruct Hok as [Ho Hnd Hres Hrun Href Hb Hsz Hex Has Hst]. split; simpl; try done.
    intros Hts. right. destruct (tp_workers p) as [|th ws] eqn:Hw; [done|]. apply Exists_cons. left. destruct th as [| |t|].
    + by left.
    + destruct Hno. by left.
    + right. by eexists.
    + destruct Hts. apply Hex. by left.
  - by apply notify_all_ok.
  - pose proof (woken_ok i p (tp_notify_one p) (tp_notify_all p) Hok Hi eq_refl) as Hw. by destruct p.
Qed.

Lemma pool_reachable_ok n m p : pool_reachable n m p → thread_pool_ok p.
Proof.
  unfold pool_reachable. assert (thread_pool_ok (pool_new n m)) as H0.
  { split; simpl; try done; try (by intros ? ?%elem_of_nil).
    - constructor.
    - intros t Ht. apply elem_of_replicate in Ht as [? _]. done.
    - lia.
    - case_decide; [done|by destruct n].
    - intros He. apply elem_of_replicate in He as [? _]. done. }
  revert H0. generalize (pool_new n m). intros p0 H0 Hr. induction Hr; eauto using pool_step_ok.
Qed.
End pool.

(** Nothing submitted is lost: when all workers have gone, after a shutdown, every task that was accepted has
    run and its promise has what its callable did, every promise that has another outcome was
    refused with [OverloadError], and tasks have been started in the order of their submission. *)
Theorem thread_pool_drains run_task n max_pending p :
  pool_reachable run_task n max_pending p →
  tp_started p `prefix_of` tp_accepted p ∧ NoDup (tp_accepted p) ∧
  (∀ t r, tp_results p !! t = Some r → t ∈ tp_accepted p ∧ r = run_task t ∨ t ∉ tp_accepted p ∧ r = Throw OverloadError) ∧
  (Forall (λ th, th = ThExit) (tp_workers p) →
     tp_stopping p = true ∧ tp_tasks p = [] ∧ ∀ t, t ∈ tp_accepted p → tp_results p !! t = Some (run_task t)).
Proof.
  intros [Ho Hnd Hres Hrun Href Hb Hsz Hex Has Hst]%pool_reachable_ok. split_and!; [by eexists|done| |].
  - intros t r Hr. destruct (Href t r Hr) as [[? ?]|?]; [left|by right]. split; [|done]. rewrite Ho. apply elem_of_app. by left.
  - intros Hall. assert (ThExit ∈ tp_workers p) as He.
    { destruct (tp_workers p) as [|th ws]; [done|]. inversion Hall; subst. by left. }
    destruct (Hex He) as [Hs Ht]. split_and!; [done|done|]. intros t Hin. rewrite Ho, Ht, app_nil_r in Hin.
    destruct (Hres t Hin) as [?|Hr]; [done|]. rewrite Forall_forall in Hall. by specialize (Hall _ Hr).
Qed.

(** No worker sleeps in vain: when no notification is under way, queued tasks have a worker that is awake and
    will look at the queue, and after a stop no worker is left in the condition variable. *)
Theorem thread_pool_live run_task n max_pending p :
  pool_reachable run_task n max_pending p → tp_notify_one p = 0 → tp_notify_all p = false →
  (tp_tasks p ≠ [] → Exists awake (tp_workers p)) ∧ (tp_stopping p = true → ThAsleep ∉ tp_workers p).
Proof.
  intros [Ho Hnd Hres Hrun Href Hb Hsz Hex Has Hst]%pool_reachable_ok Hn Ha. split.
  - intros Ht. destruct (Has Ht); [lia|done].
  - intros Hs Hin. specialize (Hst Hs Hin). congruence.
Qed.

Definition demo_pool_done : thread_pool := mkPool [ThExit] [] true 1 0 false {[1 := Ok 10%Z; 2 := Throw OverloadError]} [1] [1].

Lemma thread_pool_drains_witness :
  pool_reachable (λ t, Ok (10 * Z.of_nat t)%Z) 1 1 demo_pool_done ∧ tp_results demo_pool_done !! 1 = Some (Ok 10%Z).
Proof.
  assert (pool_reachable (λ t, Ok (10 * Z.of_nat t)%Z) 1 1 demo_pool_done) as Hr.
  { unfold pool_reachable. eapply rtc_l; [apply (TpSubmit _ 1); [apply not_elem_of_nil|reflexivity]|].
    eapply rtc_l; [apply (TpSubmit _ 2); [by intros ?%list_elem_of_singleton|reflexivity]|].
    eapply rtc_l; [apply (TpLock _ 0); reflexivity|]. eapply rtc_l; [apply (TpRan _ 0 1); reflexivity|].
    eapply rtc_l; [apply TpStop|]. eapply rtc_l; [apply (TpLock _ 0); reflexivity|].
    eapply rtc_l; [apply TpNotifyAll; reflexivity|].
    eapply rtc_l; [eapply TpNotifyNobody; [reflexivity|by intros ?%list_elem_of_singleton]|]. apply rtc_refl. }
  split; [exact Hr|]. destruct (thread_pool_drains _ _ _ _ Hr) as (_ & _ & _ & Hd).
  destruct Hd as (_ & _ & Hd); [repeat constructor|]. apply Hd. left.
Defined.

Lemma thread_pool_live_witness :
  pool_reachable (λ t, Ok 0%Z) 1 0 (mkPool [ThLock] [5] false 0 0 false ∅ [5] []) ∧ Exists awake [ThLock].
Proof.
  assert (pool_reachable (λ t, Ok 0%Z) 1 0 (mkPool [ThLock] [5] false 0 0 false ∅ [5] [])) as Hr.
  { unfold pool_reachable. eapply rtc_l; [apply (TpLock _ 0); reflexivity|].
    eapply rtc_l; [apply (TpSubmit _ 5); [apply not_elem_of_nil|reflexivity]|].
    eapply rtc_l; [eapply (TpNotify _ 0); reflexivity|]. apply rtc_refl. }
  split; [exact Hr|]. apply (thread_pool_live _ _ _ _ Hr eq_refl eq_refl). discriminate.
Defined.
