(* ===== verification/HttpClientM.v ===== *)
(** * HttpClientM: requests of the HTTP client ([coro::HttpClient])

    [src/src/http_client.cpp], over the parser of [HttpParse] and the URLs of [HttpUrl].  Here: the options
    and reading one response from a transport, which is a function on a world.  What the client
    does with its connections is in [ClientConns]. *)

From S2P Require Import Prelude HttpMsg HttpUrl Radix HttpParse.
From Stdlib Require Import Ascii.
From stdpp Require Import options.
#[local] Set Default Proof Using "Type*".
Local Open Scope Z_scope.

Record client_options : Type := mkClientOptions {
  co_request_timeout : Z;
  co_shutdown_timeout : Z;
  co_idle_timeout : Z;
  co_max_connections : Z;
  co_max_origins : Z;
  co_max_total_requests : Z;
  co_max_body : Z;
  co_max_request_wire : Z;
  co_max_header_bytes : Z;
  co_max_header_count : Z;
  co_max_response_wire : Z;
}.

(** The constructor's check. *)
Definition client_options_ok (o : client_options) : bool :=
  negb ((co_request_timeout o <? 0) || (co_shutdown_timeout o <=? 0) || (co_idle_timeout o <=? 0) || (co_max_origins o =? 0) ||
        (co_max_connections o =? 0) || (co_max_body o =? 0) || (co_max_request_wire o =? 0) || (co_max_header_bytes o =? 0) ||
        (co_max_header_count o =? 0) || (co_max_response_wire o =? 0)).

Record client_response : Type := mkClientResponse {
  cs_status : Z;
  cs_version : str;
  cs_headers : header_list;
  cs_trailers : header_list;
  cs_body : str;
  cs_keep_alive : bool;
}.

(** [HttpResponse::header]. *)
Definition cs_header (r : client_response) (name : str) : str :=
  from_option (λ x, x.2.2) [] (list_find (λ h, iequals h.1 name = true) (cs_headers r)).

(** ** Reading a response *)

Section read_response.
Context {L W : Type} `{LlhttpLaws L}.
Implicit Types (p : http_parse (L := L)) (w : W).

(** [HttpTransport::read], awaited: it may throw; a negative count is [None], otherwise the bytes
    read, none at the end of the stream. *)
Variable tr_read : W → res (option str) * W.

Definition response_parser (head : bool) (o : client_options) : http_parse (L := L) :=
  hx_new HTTP_RESPONSE (mkLimits (co_max_body o) 8192 (co_max_header_bytes o) (co_max_header_count o)) true head.

(** The loop over the bytes of one read; it ends with the parser and the number of informational responses. *)
Fixpoint feed_response (fuel : nat) (data : str) p (informational : nat) : res (http_parse (L := L) * nat) :=
  match fuel with
  | O => Ok (p, informational)
  | S fuel =>
      if decide (data = []) then Ok (p, informational)
      else
        match hx_feed no_hooks data p tt with
        | (Throw e, _, _) => Throw e
        | (Ok false, _, _) => Throw HttpError
        | (Ok true, p, _) =>
            let consumed := hx_consumed p in
            if decide (consumed = 0%nat) then Throw HttpError
            else if hx_completed p then
              let status := pm_status (hx_res p) in
              if status =? 101 then Throw HttpError
              else if status <? 200 then
                if bool_decide (8 ≤ informational)%nat then Throw HttpError
                else feed_response fuel (drop consumed data) (hx_resume p) (S informational)
              else if decide (consumed = length data) then Ok (p, informational) else Throw HttpError
            else feed_response fuel (drop consumed data) p informational
        end
  end.

Definition response_of p : client_response :=
  let r := hx_res p in
  mkClientResponse (pm_status r) (pm_version r) (pm_fields r) (pm_trailers r) (pm_body r) (hx_keep_alive p).

(** The loop of [read_response]; a unit of fuel for each read.  The bytes read come with the response. *)
Fixpoint read_response_loop (fuel : nat) (max_wire : Z) p (wire_bytes : Z) (informational : nat) w :
    option (res (client_response * Z)) * W :=
  match fuel with
  | O => (None, w)
  | S fuel =>
      match tr_read w with
      | (Throw e, w) => (Some (Throw e), w)
      | (Ok None, w) => (Some (Throw SystemError), w)
      | (Ok (Some []), w) =>
          match hx_finish no_hooks p tt with
          | (Throw e, _, _) => (Some (Throw e), w)
          | (Ok ok, p, _) =>
              if negb ok || negb (hx_completed p) || (pm_status (hx_res p) <? 200) then (Some (Throw HttpError), w)
              else (Some (Ok (response_of p, wire_bytes)), w)
          end
      | (Ok (Some data), w) =>
          if max_wire - wire_bytes <? len data then (Some (Throw HttpError), w)
          else
            let wire_bytes := wire_bytes + len data in
            match feed_response (length data) data p informational with
            | Throw e => (Some (Throw e), w)
            | Ok (p, informational) =>
                if hx_completed p then (Some (Ok (response_of p, wire_bytes)), w)
                else read_response_loop fuel max_wire p wire_bytes informational w
            end
      end
  end.

Definition read_response (fuel : nat) (head : bool) (o : client_options) w : option (res (client_response * Z)) * W :=
  read_response_loop fuel (co_max_response_wire o) (response_parser head o) 0 0 w.

(** ** What it returns *)

Lemma feed_within data p :
  limits_nonneg (hx_limits p) → within p →
  within (hx_feed no_hooks data p tt).1.2 ∧ hx_limits (hx_feed no_hooks data p tt).1.2 = hx_limits p.
Proof.
  intros Hl Hp. pose proof (run_op_within no_hooks (PFeed data) p tt no_hooks_within Hl Hp) as Hr. simpl in Hr.
  by destruct (hx_feed no_hooks data p tt) as [[r p'] u].
Qed.

Lemma finish_within p :
  limits_nonneg (hx_limits p) → within p →
  within (hx_finish no_hooks p tt).1.2 ∧ hx_limits (hx_finish no_hooks p tt).1.2 = hx_limits p.
Proof.
  intros Hl Hp. pose proof (run_op_within no_hooks PFinish p tt no_hooks_within Hl Hp) as Hr. simpl in Hr.
  by destruct (hx_finish no_hooks p tt) as [[r p'] u].
Qed.

Lemma resume_within p : within p → within (hx_resume p) ∧ hx_limits (hx_resume p) = hx_limits p.
Proof. intros []. unfold hx_resume. by destruct (hx_paused p). Qed.

(** The parser between two reads: it has not completed a message and stops at the next end of one. *)
Record reading (lim : parse_limits) p : Prop := {
  rd_limits : hx_limits p = lim;
  rd_within : within p;
  rd_pause : hx_pause_after p = true;
}.

Lemma resume_reading lim p : reading lim p → hx_paused p = true → reading lim (hx_resume p) ∧ hx_completed (hx_resume p) = false.
Proof.
  intros [Hl Hw Hp] Hpa. destruct (resume_within p Hw) as [Hw' Hl']. split; [split; [congruence|done|]|]; unfold hx_resume; by rewrite Hpa.
Qed.

Lemma feed_response_spec lim fuel data p n p' n' :
  limits_nonneg lim → reading lim p → hx_completed p = false → (n ≤ 8)%nat →
  feed_response fuel data p n = Ok (p', n') →
  reading lim p' ∧ (hx_completed p' = true → 200 ≤ pm_status (hx_res p')) ∧ (n' ≤ 8)%nat.
Proof.
  intros Hl. revert data p n. induction fuel as [|fuel IH]; intros data p n Hr Hc Hn; cbn [feed_response].
  { intros [= <- <-]. split_and!; [done|by rewrite Hc|done]. }
  case_decide as Hne; [intros [= <- <-]; split_and!; [done|by rewrite Hc|done]|]. destruct Hr as [Hlim Hw Hpa]. rewrite <- Hlim in Hl.
  destruct (feed_within data p Hl Hw) as [Hw1 Hl1]. destruct (feed_pauses data p tt Hpa Hc) as [Hpa1 Hpd1].
  destruct (hx_feed no_hooks data p tt) as [[r p1] u]. simpl in Hw1, Hl1, Hpa1, Hpd1. destruct r as [[|]|e]; [|done|done]. cbv zeta.
  assert (reading lim p1) as Hr1 by (split; [congruence|done|done]). rewrite Hlim in Hl.
  case_decide as Hcon; [done|]. destruct (hx_completed p1) eqn:Hcomp.
  - specialize (Hpd1 eq_refl eq_refl). destruct (pm_status (hx_res p1) =? 101); [done|]. destruct (pm_status (hx_res p1) <? 200) eqn:Hst.
    + case_bool_decide as Hn8; [done|]. destruct (resume_reading lim p1 Hr1 Hpd1) as [Hr2 Hc2]. intros Hrec.
      assert (S n ≤ 8)%nat as Hn' by lia. apply (IH _ _ _ Hr2 Hc2 Hn' Hrec).
    + case_decide; [|done]. intros [= <- <-]. apply Z.ltb_ge in Hst. by split_and!.
  - apply (IH _ _ _ Hr1 Hcomp Hn).
Qed.

(** What a response has within its limits. *)
Definition response_within (o : client_options) (r : client_response) : Prop :=
  200 ≤ cs_status r ∧ len (cs_body r) ≤ co_max_body o ∧
  headers_size (cs_headers r) + headers_size (cs_trailers r) ≤ co_max_header_bytes o ∧
  Z.of_nat (length (cs_headers r) + length (cs_trailers r)) ≤ co_max_header_count o.

Lemma response_of_within o p :
  client_options_ok o = true → hx_limits p = mkLimits (co_max_body o) 8192 (co_max_header_bytes o) (co_max_header_count o) →
  within p → 200 ≤ pm_status (hx_res p) → response_within o (response_of p).
Proof.
  intros Hok Hl [Hu Hb Hy Hn Hs Hm] Hst. rewrite Hl in *. simpl in *. unfold client_options_ok in Hok. bool_to_prop.
  unfold response_within. simpl. pose proof (len_nonneg (hx_field p)). pose proof (len_nonneg (hx_value p)).
  split_and!; [done|auto|etrans; [|by apply Hy]; lia|etrans; [|by apply Hn]; lia].
Qed.

Lemma read_response_spec o fuel p wire n w r wire' w' :
  client_options_ok o = true → limits_nonneg (mkLimits (co_max_body o) 8192 (co_max_header_bytes o) (co_max_header_count o)) →
  reading (mkLimits (co_max_body o) 8192 (co_max_header_bytes o) (co_max_header_count o)) p → hx_completed p = false → (n ≤ 8)%nat →
  0 ≤ wire ≤ co_max_response_wire o →
  read_response_loop fuel (co_max_response_wire o) p wire n w = (Some (Ok (r, wire')), w') →
  response_within o r ∧ wire' ≤ co_max_response_wire o.
Proof.
  intros Hok Hlim. revert p wire n w. induction fuel as [|fuel IH]; intros p wire n w Hr Hc Hn Hwire; cbn [read_response_loop]; [done|].
  destruct (tr_read w) as [[[[|b data]|]|e] w1]; [| |done|done].
  - pose proof Hr as [Hl Hw Hpa]. destruct (finish_within p) as [Hw1 Hl1]; [by rewrite Hl|done|].
    destruct (hx_finish no_hooks p tt) as [[[ok|e] p1] u]; simpl in *; [|done]. destruct (_ || _) eqn:Hbad; [done|].
    intros [= <- <- <-]. split; [|lia]. bool_to_prop. apply response_of_within; [done|congruence|done|done].
  - set (data' := b :: data). destruct (_ <? len data') eqn:Hlt; [done|]. apply Z.ltb_ge in Hlt. cbv zeta. pose proof (len_nonneg data').
    destruct (feed_response (length data') data' p n) as [[p1 n1]|e] eqn:Hf; [|done].
    destruct (feed_response_spec _ _ _ _ _ _ _ Hlim Hr Hc Hn Hf) as (Hr1 & Hst & Hn1). destruct (hx_completed p1) eqn:Hc1.
    + intros [= <- <- <-]. split; [|lia]. destruct Hr1. apply response_of_within; [done|done|done|auto].
    + apply (IH _ _ _ _ Hr1 Hc1 Hn1). lia.
Qed.
End read_response.

(** A response the client returns is final and bounded, whatever the server sends and however it is cut: its
    status is at least 200, its body, the bytes and the number of its header and trailer fields and the
    bytes taken from the connection are within the options. *)
Theorem read_response_bounded {L W} `{LlhttpLaws L} (tr_read : W → res (option str) * W) o fuel head w r wire w' :
  client_options_ok o = true → 0 ≤ co_max_body o → 0 ≤ co_max_header_bytes o → 0 ≤ co_max_header_count o → 0 ≤ co_max_response_wire o →
  read_response tr_read fuel head o w = (Some (Ok (r, wire)), w') →
  200 ≤ cs_status r ∧ len (cs_body r) ≤ co_max_body o ∧
  headers_size (cs_headers r) + headers_size (cs_trailers r) ≤ co_max_header_bytes o ∧
  Z.of_nat (length (cs_headers r) + length (cs_trailers r)) ≤ co_max_header_count o ∧ wire ≤ co_max_response_wire o.
Proof.
  intros Hok Hb Hh Hn Hw Hr. unfold read_response in Hr.
  assert (limits_nonneg (mkLimits (co_max_body o) 8192 (co_max_header_bytes o) (co_max_header_count o))) as Hlim by (split_and!; simpl; lia).
  eapply read_response_spec in Hr as [(? & ? & ? & ?) ?]; [done|done|done| |done|lia|lia].
  split; [done|by split; simpl|done].
Qed.

(** ** It ends *)

Section ends.
Context {L W : Type} `{Llhttp L}.
Implicit Types (p : http_parse (L := L)) (w : W).
Variable tr_read : W → res (option str) * W.

(** A feed that goes on has consumed something, so as much fuel as bytes is enough for them. *)
Lemma feed_response_fuel fuel data p n : (length data ≤ fuel)%nat → feed_response fuel data p n = feed_response (length data) data p n.
Proof.
  assert (∀ m f f' d q k, length d ≤ m → length d ≤ f → length d ≤ f' → feed_response f d q k = feed_response f' d q k)%nat as Hgo.
  { induction m as [|m IH]; intros f f' d q k Hm Hf Hf'.
    { destruct d; [|simpl in Hm; lia]. by destruct f, f'. }
    destruct (decide (d = [])) as [->|Hd]; [by destruct f, f'|].
    assert (0 < length d)%nat as Hpos by (destruct d; simpl; [done|lia]).
    destruct f as [|f]; [lia|]. destruct f' as [|f']; [lia|]. cbn [feed_response]. rewrite !(decide_False (P := d = [])) by done.
    destruct (hx_feed no_hooks d q tt) as [[[[|]|e] q'] u]; [|done|done]. cbv zeta. destruct (decide (hx_consumed q' = 0%nat)); [done|].
    assert (length (drop (hx_consumed q') d) ≤ m)%nat by (rewrite length_drop; lia).
    assert (length (drop (hx_consumed q') d) ≤ f)%nat by (rewrite length_drop; lia).
    assert (length (drop (hx_consumed q') d) ≤ f')%nat by (rewrite length_drop; lia).
    repeat case_match; try done; by apply IH. }
  intros Hf. by apply (Hgo (length data)).
Qed.

Lemma read_response_loop_total fuel max_wire p wire n w :
  wire ≤ max_wire → (Z.to_nat (max_wire - wire) < fuel)%nat → is_Some (read_response_loop tr_read fuel max_wire p wire n w).1.
Proof.
  revert p wire n w. induction fuel as [|fuel IH]; intros p wire n w Hw Hf; [lia|]. cbn [read_response_loop].
  destruct (tr_read w) as [[[[|b data]|]|e] w1]; [| |done|done].
  - destruct (hx_finish no_hooks p tt) as [[[ok|e] p1] u]; [|done]. by destruct (_ || _).
  - destruct (max_wire - wire <? len (b :: data)) eqn:Hlt; [done|]. apply Z.ltb_ge in Hlt. cbv zeta.
    destruct (feed_response _ _ p n) as [[p1 n1]|e]; [|done]. destruct (hx_completed p1); [done|].
    assert (0 < len (b :: data)) by (unfold len; simpl; lia). apply IH; lia.
Qed.
End ends.

(** Reading a response ends, whatever the server sends, by the limit on the bytes taken from the
    connection: one read for each byte of the limit and one more are enough. *)
Theorem read_response_ends {L W} `{Llhttp L} (tr_read : W → res (option str) * W) o head w :
  0 ≤ co_max_response_wire o → ∃ r, (read_response tr_read (S (Z.to_nat (co_max_response_wire o))) head o w).1 = Some r.
Proof.
  intros Hw. unfold read_response.
  destruct (read_response_loop_total tr_read (S (Z.to_nat (co_max_response_wire o))) (co_max_response_wire o) (response_parser head o) 0 0%nat w)
    as [r Hr]; [done|lia|by exists r].
Qed.

(** ** Example: the small engine as a parser of responses; a byte is one with the status 200. *)

#[local] Instance toy_responses : Llhttp bool := {|
  ll_init := λ _, true;
  ll_execute := λ l data, toy_run l data 0;
  ll_finish := λ l, LlDone HPE_OK None l;
  ll_resume := λ l, l;
  ll_get_type := λ _, HTTP_RESPONSE;
  ll_should_keep_alive := λ l, l;
  ll_http_major := λ _, 1%nat;
  ll_http_minor := λ _, 1%nat;
  ll_status_code := λ _, 200;
  ll_method_name := λ _, lit "GET";
  ll_trailing := λ _, false;
|}.
#[local] Instance toy_responses_laws : LlhttpLaws bool (H := toy_responses).
Proof. split; [apply (ll_execute_pauses (H := toy_llhttp))|done]. Qed.

Definition demo_options : client_options := mkClientOptions 30000 500 90000 16 64 0 4 4096 16 2 64.

(** The world is what the server still sends. *)
Definition read_list (w : list str) : res (option str) * list str :=
  match w with [] => (Ok (Some []), []) | s :: w => (Ok (Some s), w) end.

Lemma read_response_bounded_witness :
  ∃ r, read_response read_list 4 false demo_options [lit "h"] = (Some (Ok (r, 1)), []) ∧ len (cs_body r) ≤ 4 ∧ 200 ≤ cs_status r.
Proof.
  eexists. split; [vm_compute; reflexivity|].
  destruct (read_response_bounded read_list demo_options 4 false [lit "h"] (mkClientResponse 200 (lit "1.1") [(lit "X", lit "1")] [] [] true) 1 [])
    as (Hs & Hb & _); [reflexivity|by vm_compute|by vm_compute|by vm_compute|by vm_compute|vm_compute; reflexivity|].
  split; [exact Hb|exact Hs].
Defined.

Lemma read_response_ends_witness : ∃ r, (read_response read_list 65 true demo_options [lit "h"; lit "h"]).1 = Some r.
Proof. apply (read_response_ends read_list demo_options true [lit "h"; lit "h"]). vm_compute. discriminate. Defined.
