(* ===== verification/ClientConns.v ===== *)
(** * ClientConns: connections and requests in flight of the HTTP client

    [HttpClient::impl], [perform], [stream_open], [read_stream_chunk] and [HttpResponseStream] of
    [src/src/http_client.cpp], over [HttpClientM] (responses) and [HttpUrl] (requests).
    Connection pools (file [PoolM]) and transports are operations on a world; every awaited one
    may throw and may change the client, since other coroutines run meanwhile.  What a request
    does with its place in [in_flight] and with its leases is a log, in order. *)

From S2P Require Import Prelude HttpMsg HttpUrl Radix HttpParse HttpClientM.
From Stdlib Require Import Ascii.
From stdpp Require Import options.
#[local] Set Default Proof Using "Type*".
Local Open Scope Z_scope.

(** ** The pools of a client *)

Definition origin_key : Type := bool * str * Z.
Definition key_of (e : endpoint) : origin_key := (ep_secure e, ep_host e, ep_port e).

(** [operator<] of the tuple. *)
Definition key_ltb (a b : origin_key) : bool :=
  let '(s, h, p) := a in
  let '(s', h', p') := b in
  (negb s && s') || (Bool.eqb s s' && (str_ltb h h' || (bool_decide (h = h') && (p <? p')))).

Section client.
Context {P : Type}.

Record client : Type := mkClient {
  cl_closed : bool;
  cl_tls : bool;                          (* [tls] has been made *)
  cl_pools : list (origin_key * P);       (* a [std::map], in the order of its keys *)
  cl_in_flight : nat;
  cl_idle_event : option bool;            (* created or not, and set or not *)
}.
Implicit Types (c : client).

Definition client_init : client := mkClient false false [] 0 None.
Definition cl_set_pools ps c : client := mkClient (cl_closed c) (cl_tls c) ps (cl_in_flight c) (cl_idle_event c).
Definition cl_set_tls b c : client := mkClient (cl_closed c) b (cl_pools c) (cl_in_flight c) (cl_idle_event c).
Definition cl_set_flight n ev c : client := mkClient (cl_closed c) (cl_tls c) (cl_pools c) n ev.
Definition cl_set_closed b c : client := mkClient b (cl_tls c) (cl_pools c) (cl_in_flight c) (cl_idle_event c).

(** [pools.emplace(key, pool)], where the key is not there. *)
Fixpoint pools_emplace (k : origin_key) (q : P) (ps : list (origin_key * P)) : list (origin_key * P) :=
  match ps with
  | [] => [(k, q)]
  | (k', q') :: ps' => if key_ltb k k' then (k, q) :: ps else (k', q') :: pools_emplace k q ps'
  end.

(** [pools.find(key)]. *)
Definition pools_find (k : origin_key) (ps : list (origin_key * P)) : option P :=
  (λ x, x.2.2) <$> list_find (λ x, x.1 = k) ps.

(** What the client asks of a pool. *)
Record pool_view : Type := mkPoolView {
  pv_in_use_count : P → nat;
  pv_waiting_count : P → nat;
}.
Definition pool_unused (v : pool_view) (q : P) : bool := bool_decide (pv_in_use_count v q = 0%nat) && bool_decide (pv_waiting_count v q = 0%nat).

(** [pool_for]: the pool, or the exception; the pools it closed.  [fresh] is the pool it would make,
    [tls_loads] whether the trust anchors can be loaded. *)
Definition pool_for (v : pool_view) (max_origins : Z) (tls_loads : bool) (fresh : P) (e : endpoint) c : res P * client * list P :=
  match pools_find (key_of e) (cl_pools c) with
  | Some q => (Ok q, c, [])
  | None =>
      let build c closed :=
        if ep_secure e && negb (cl_tls c) && negb tls_loads then (Throw HttpError, c, closed)
        else
          let c := cl_set_tls (cl_tls c || ep_secure e) c in
          (Ok fresh, cl_set_pools (pools_emplace (key_of e) fresh (cl_pools c)) c, closed) in
      if bool_decide (Z.of_nat (length (cl_pools c)) = max_origins) then
        match list_find (λ x, pool_unused v x.2 = true) (cl_pools c) with
        | None => (Throw HttpError, c, [])
        | Some (i, (_, q)) => build (cl_set_pools (delete i (cl_pools c)) c) [q]
        end
      else build c []
  end.

(** [close_pools], and [close] on the thread of the loop: the pools that are closed. *)
Definition close_pools c : client * list P := (cl_set_pools [] c, (cl_pools c).*2).
Definition client_close c : client * list P :=
  if cl_closed c then (c, []) else close_pools (cl_set_closed true c).

(** The checks at the start of [perform] and [stream_open], up to [++in_flight]. *)
Definition cl_enter (max_total : Z) c : res client :=
  if cl_closed c then Throw HttpError
  else if negb (max_total =? 0) && (max_total <=? Z.of_nat (cl_in_flight c)) then Throw OverloadError
  else Ok (cl_set_flight (S (cl_in_flight c)) (cl_idle_event c) c).

(** [release_inflight], and the destructor of [inflight_scope]. *)
Definition release_inflight c : client :=
  match cl_in_flight c with
  | O => c
  | S n => cl_set_flight n (if bool_decide (n = 0%nat) then (λ _, true) <$> cl_idle_event c else cl_idle_event c) c
  end.
End client.
Arguments client : clear implicits.
Arguments pool_view : clear implicits.

(** ** The registry of pools *)

Section pools.
Context {P : Type}.
Implicit Types (c : client P) (ps : list (origin_key * P)) (k : origin_key) (q : P).

Lemma pools_emplace_perm k q ps : pools_emplace k q ps ≡ₚ (k, q) :: ps.
Proof.
  induction ps as [|[k' q'] ps IH]; simpl; [done|]. destruct (key_ltb k k'); [done|]. rewrite IH. constructor.
Qed.

Lemma pools_find_some k q ps : pools_find k ps = Some q → (k, q) ∈ ps.
Proof.
  unfold pools_find. destruct (list_find _ ps) as [[i [k' q']]|] eqn:Hf; [|done]. intros [= <-].
  apply list_find_Some in Hf as (Hi & Hk & _). simpl in Hk. subst. by eapply list_elem_of_lookup_2.
Qed.

Lemma pools_find_none k ps : pools_find k ps = None → k ∉ ps.*1.
Proof.
  unfold pools_find. destruct (list_find _ ps) as [[i [k' q']]|] eqn:Hf; [done|]. intros _ ([k' q'] & -> & Hin)%list_elem_of_fmap.
  apply list_find_None in Hf. rewrite Forall_forall in Hf. by apply (Hf _ Hin).
Qed.

(** One pool for an origin, and no more of them than the limit. *)
Record origins_ok (max_origins : Z) c : Prop := {
  or_distinct : NoDup (cl_pools c).*1;
  or_bound : Z.of_nat (length (cl_pools c)) ≤ max_origins;
}.

Lemma origins_ok_emplace max_origins c k q :
  origins_ok max_origins c → k ∉ (cl_pools c).*1 → Z.of_nat (length (cl_pools c)) < max_origins →
  origins_ok max_origins (cl_set_pools (pools_emplace k q (cl_pools c)) c).
Proof.
  intros [Hd Hb] Hk Hl. split; cbn [cl_pools cl_set_pools]; rewrite pools_emplace_perm; simpl; [by constructor|lia].
Qed.

Lemma origins_ok_delete max_origins c i x :
  origins_ok max_origins c → cl_pools c !! i = Some x → Z.of_nat (length (cl_pools c)) = max_origins →
  origins_ok max_origins (cl_set_pools (delete i (cl_pools c)) c) ∧ Z.of_nat (length (delete i (cl_pools c))) < max_origins.
Proof.
  intros [Hd Hb] Hi Hl. pose proof (delete_Permutation _ _ _ Hi) as Hp.
  assert (length (cl_pools c) = S (length (delete i (cl_pools c)))) as Hlen by (by rewrite Hp at 1).
  split; [|lia]. split; simpl; [|lia]. rewrite Hp in Hd. by apply NoDup_cons in Hd as [_ ?].
Qed.
End pools.

(** The pools of a client stay one for an origin and no more than the limit; a request gets the pool of
    its own origin; the pool given up for a new one has no connection in use and no caller
    waiting, is closed, and every other pool stays.  A refusal keeps all pools that are used. *)
Theorem pool_for_bounded {P} (v : pool_view P) max_origins loads fresh e c r c' closed :
  origins_ok max_origins c → pool_for v max_origins loads fresh e c = (r, c', closed) →
  origins_ok max_origins c' ∧
  (∀ q, r = Ok q → (key_of e, q) ∈ cl_pools c') ∧
  Forall (λ q, pool_unused v q = true) closed ∧
  (∀ k q, (k, q) ∈ cl_pools c → (k, q) ∈ cl_pools c' ∨ q ∈ closed) ∧
  (∀ k q, (k, q) ∈ cl_pools c' → (k, q) ∈ cl_pools c ∨ (k, q) = (key_of e, fresh)) ∧
  cl_in_flight c' = cl_in_flight c ∧ cl_closed c' = cl_closed c.
Proof.
  intros Hok. unfold pool_for. destruct (pools_find _ _) as [q|] eqn:Hf.
  { intros [= <- <- <-]. apply pools_find_some in Hf. by split_and!; [| intros ? [= <-] | | left | left | |]. }
  apply pools_find_none in Hf. cbv zeta. case_bool_decide as Hfull.
  - destruct (list_find _ _) as [[i [k q]]|] eqn:Hi; [|by intros [= <- <- <-]; split_and!; [| | | left | left | |]].
    apply list_find_Some in Hi as (Hi & Hun & _). destruct (origins_ok_delete max_origins c i _ Hok Hi Hfull) as [Hok' Hlt].
    pose proof (delete_Permutation _ _ _ Hi) as Hp. simpl in Hun.
    assert (∀ x, x ∈ cl_pools c ↔ x = (k, q) ∨ x ∈ delete i (cl_pools c)) as Hel.
    { intros x. by rewrite <- elem_of_cons, <- Hp. }
    assert (key_of e ∉ (delete i (cl_pools c)).*1) as Hk by (intros Hin; apply Hf; rewrite Hp; by right).
    destruct (_ && _); intros [= <- <- <-]; (split_and!; [| |by constructor| | |done|done]); simpl.
    + done.
    + done.
    + intros k' q' [[= -> ->]|Hin]%Hel; [right; by left|by left].
    + intros k' q' Hin. left. apply Hel. by right.
    + by apply (origins_ok_emplace _ (cl_set_tls (cl_tls c || ep_secure e) (cl_set_pools (delete i (cl_pools c)) c))); [destruct Hok'| |].
    + intros ? [= <-]. rewrite pools_emplace_perm. by left.
    + intros k' q' [[= -> ->]|Hin]%Hel; rewrite pools_emplace_perm; [right; by left|left; by right].
    + intros k' q'. rewrite pools_emplace_perm. intros [->|Hin]%elem_of_cons; [by right|left; apply Hel; by right].
  - destruct (_ && _); intros [= <- <- <-]; (split_and!; [| |done| | |done|done]); simpl; try by (done || left).
    + apply (origins_ok_emplace _ (cl_set_tls (cl_tls c || ep_secure e) c)); [by destruct Hok|done|]. destruct Hok. simpl. lia.
    + intros ? [= <-]. rewrite pools_emplace_perm. by left.
    + intros k' q' Hin. rewrite pools_emplace_perm. left. by right.
    + intros k' q'. rewrite pools_emplace_perm. intros [->|Hin]%elem_of_cons; [by right|by left].
Qed.

(** ** One request *)

(** What a request does with its place among those in flight and with its leases. *)
Inductive use_event : Type :=
  | SlotTaken
  | SlotReleased
  | LeaseTaken
  | LeaseReturned     (* to the pool, for the next request *)
  | LeaseDiscarded.

#[export] Instance use_event_eq_dec : EqDecision use_event.
Proof. solve_decision. Defined.

(** The operations on pools and on the connection of the lease at hand. *)
Record client_ops (P W : Type) : Type := mkClientOps {
  op_supports_tls : bool;
  op_loads_tls : W → bool;
  op_pool_view : W → pool_view P;
  op_new_pool : endpoint → W → P;                       (* the pool that would be made *)
  op_make_pool : P → W → W;
  op_close_pool : P → W → W;
  op_acquire : P → client P * W → res bool * (client P * W);
  op_fresh : W → bool;                                  (* [now - last_used < idle_timeout] *)
  op_touch : W → W;                                     (* [last_used = now] *)
  op_reusable : W → bool;
  op_write_all : str → client P * W → res bool * (client P * W);
  op_read : client P * W → res (option str) * (client P * W);
  op_shutdown : Z → client P * W → res unit * (client P * W);
}.
Arguments op_supports_tls {P W}. Arguments op_loads_tls {P W}. Arguments op_pool_view {P W}. Arguments op_new_pool {P W}. Arguments op_make_pool {P W}.
Arguments op_close_pool {P W}. Arguments op_acquire {P W}. Arguments op_fresh {P W}. Arguments op_touch {P W}.
Arguments op_reusable {P W}. Arguments op_write_all {P W}. Arguments op_read {P W}. Arguments op_shutdown {P W}.

Section perform.
Context {L W P : Type} `{Llhttp L}.
Variable ops : client_ops P W.
Variable o : client_options.
Implicit Types (c : client P) (w : W) (s : client P * W) (log : list use_event).

(** [pool_for] in the world: the pools given up are closed, a pool that was put in is made. *)
Definition obtain_pool (e : endpoint) s : res P * (client P * W) :=
  let '(c, w) := s in
  let known := bool_decide (is_Some (pools_find (key_of e) (cl_pools c))) in
  let '(r, c, closed) := pool_for (op_pool_view ops w) (co_max_origins o) (op_loads_tls ops w) (op_new_pool ops e w) e c in
  let w := foldr (op_close_pool ops) w closed in
  (r, (c, match r with Ok q => if known then w else op_make_pool ops q w | Throw _ => w end)).

(** The checks before a connection is opened: the endpoint and the text of the request. *)
Definition prepare (r : client_request) : res (endpoint * str) :=
  match parse_url (cr_url r) with
  | Throw e => Throw e
  | Ok e =>
      if ep_secure e && negb (op_supports_tls ops) then Throw HttpError
      else match serialize r e with
           | Throw x => Throw x
           | Ok wire => if co_max_request_wire o <? len wire then Throw HttpError else Ok (e, wire)
           end
  end.

(** The loop that takes leases until one can be used; a unit of fuel for each. *)
Fixpoint acquire_usable (fuel : nat) (q : P) s log : option (res unit) * (client P * W) * list use_event :=
  match fuel with
  | O => (None, s, log)
  | S fuel =>
      match op_acquire ops q s with
      | (Throw e, s) => (Some (Throw e), s, log)
      | (Ok false, s) => (Some (Throw HttpError), s, log)
      | (Ok true, s) =>
          let log := log ++ [LeaseTaken] in
          if op_reusable ops s.2 && op_fresh ops s.2 then (Some (Ok tt), s, log)
          else acquire_usable fuel q s (log ++ [LeaseDiscarded])
      end
  end.

(** [perform] with a usable lease; what its guard does is the last event. *)
Definition request_on (fuel : nat) (r : client_request) (wire : str) s log :
    option (res client_response) * (client P * W) * list use_event :=
  let discard := log ++ [LeaseDiscarded] in
  match op_write_all ops wire s with
  | (Throw e, s) => (Some (Throw e), s, discard)
  | (Ok false, s) => (Some (Throw HttpError), s, discard)
  | (Ok true, s) =>
      match read_response (op_read ops) fuel (bool_decide (cr_method r = lit "HEAD")) o s with
      | (None, s) => (None, s, log)
      | (Some (Throw e), s) => (Some (Throw e), s, discard)
      | (Some (Ok (response, _)), s) =>
          if cr_keep_alive r && cs_keep_alive response && op_reusable ops s.2 && negb (cl_closed s.1)
          then (Some (Ok response), (s.1, op_touch ops s.2), log ++ [LeaseReturned])
          else match op_shutdown ops (co_shutdown_timeout o) s with
               | (Throw e, s) => (Some (Throw e), s, discard)
               | (Ok _, s) => (Some (Ok response), s, discard)
               end
      end
  end.

(** [perform] from [++in_flight] on, without the end of its scope. *)
Definition perform_body (fuel : nat) (r : client_request) s log : option (res client_response) * (client P * W) * list use_event :=
  match prepare r with
  | Throw e => (Some (Throw e), s, log)
  | Ok (e, wire) =>
      match obtain_pool e s with
      | (Throw x, s) => (Some (Throw x), s, log)
      | (Ok q, s) =>
          match acquire_usable fuel q s log with
          | (None, s, log) => (None, s, log)
          | (Some (Throw x), s, log) => (Some (Throw x), s, log)
          | (Some (Ok _), s, log) => request_on fuel r wire s log
          end
      end
  end.

Definition perform (fuel : nat) (r : client_request) s : option (res client_response) * (client P * W) * list use_event :=
  match cl_enter (co_max_total_requests o) s.1 with
  | Throw e => (Some (Throw e), s, [])
  | Ok c =>
      match perform_body fuel r (c, s.2) [SlotTaken] with
      | (None, s, log) => (None, s, log)
      | (Some x, s, log) => (Some x, (release_inflight s.1, s.2), log ++ [SlotReleased])
      end
  end.
End perform.

(** ** Every place and every lease is given back once *)

(** The account of a request: whether it has a place in flight and a lease. *)
Definition use_step (st : option (bool * bool)) (ev : use_event) : option (bool * bool) :=
  match ev, st with
  | SlotTaken, Some (false, false) => Some (true, false)
  | LeaseTaken, Some (true, false) => Some (true, true)
  | LeaseReturned, Some (true, true) | LeaseDiscarded, Some (true, true) => Some (true, false)
  | SlotReleased, Some (true, false) => Some (false, false)
  | _, _ => None
  end.
Definition use_run (log : list use_event) : option (bool * bool) := foldl use_step (Some (false, false)) log.

Lemma use_run_snoc log ev : use_run (log ++ [ev]) = use_step (use_run log) ev.
Proof. unfold use_run. by rewrite foldl_app. Qed.

Section perform_spec.
Context {L W P : Type} `{Llhttp L}.
Variable ops : client_ops P W.
Variable o : client_options.
Implicit Types (s : client P * W) (log : list use_event).

(** A log without a lease that went back to its pool. *)
Definition quiet (log : list use_event) : Prop := LeaseReturned ∉ log.

Lemma quiet_snoc log ev : quiet log → ev ≠ LeaseReturned → quiet (log ++ [ev]).
Proof. unfold quiet. intros Hq Hne. rewrite elem_of_app, list_elem_of_singleton. by intros [?|?]. Qed.

Lemma acquire_usable_spec fuel q s log x s' log' :
  use_run log = Some (true, false) → quiet log → acquire_usable ops fuel q s log = (Some x, s', log') →
  use_run log' = Some (true, match x with Ok _ => true | Throw _ => false end) ∧ quiet log'.
Proof.
  revert s log. induction fuel as [|fuel IH]; intros s log Hu Hq; cbn [acquire_usable]; [done|].
  destruct (op_acquire ops q s) as [[[|]|e] s1]; [|by intros [= <- <- <-]..].
  assert (use_run (log ++ [LeaseTaken]) = Some (true, true)) as Hu1 by (by rewrite use_run_snoc, Hu).
  assert (quiet (log ++ [LeaseTaken])) as Hq1 by (by apply quiet_snoc).
  cbv zeta. destruct (_ && _); [by intros [= <- <- <-]|].
  apply IH; [by rewrite use_run_snoc, Hu1|by apply quiet_snoc].
Qed.

Lemma request_on_spec fuel r wire s log x s' log' :
  use_run log = Some (true, true) → quiet log → request_on ops o fuel r wire s log = (Some x, s', log') →
  use_run log' = Some (true, false) ∧
  (LeaseReturned ∈ log' → cr_keep_alive r = true ∧ cl_closed s'.1 = false ∧ ∃ resp, x = Ok resp ∧ cs_keep_alive resp = true).
Proof.
  intros Hu Hq. unfold request_on. cbv zeta.
  assert (use_run (log ++ [LeaseDiscarded]) = Some (true, false)) as Hd by (by rewrite use_run_snoc, Hu).
  assert (quiet (log ++ [LeaseDiscarded])) as Hqd by (by apply quiet_snoc).
  destruct (op_write_all ops wire s) as [[[|]|e] s1]; [|by intros [= <- <- <-]..].
  destruct (read_response _ _ _ _ _) as [[[[resp n]|e]|] s2]; [|by intros [= <- <- <-]|done].
  destruct (_ && _) eqn:Hk.
  - intros [= <- <- <-]. rewrite use_run_snoc, Hu. split; [done|]. intros _. simpl. bool_to_prop. by eauto 6.
  - destruct (op_shutdown ops _ s2) as [[[]|e] s3]; by intros [= <- <- <-].
Qed.
End perform_spec.

(** In every run of a request, whatever the server, the pools and the other coroutines do and
    wherever it is cancelled: its place in flight is taken once and released once, every lease is
    settled once and before that; a refused request takes neither.  A connection goes back to its
    pool only after a whole response, when both sides keep it alive and the client is open. *)
Theorem perform_accounts {L W P} `{Llhttp L} (ops : client_ops P W) o fuel r s x s' log :
  perform ops o fuel r s = (Some x, s', log) →
  use_run log = Some (false, false) ∧
  (log = [] → s' = s ∧ x ∈ [Throw HttpError; Throw OverloadError]) ∧
  (LeaseReturned ∈ log → cr_keep_alive r = true ∧ ∃ resp, x = Ok resp ∧ cs_keep_alive resp = true).
Proof.
  unfold perform. destruct (cl_enter _ _) as [c|e] eqn:He.
  2: { intros [= <- <- <-]. split_and!; [done| |by intros ?%elem_of_nil]. intros _. split; [done|]. unfold cl_enter in He.
       destruct (cl_closed s.1); [injection He as <-; by left|]. destruct (_ && _); [injection He as <-; by right; left|done]. }
  destruct (perform_body _ _ _ _ _ _) as [[[y|] s1] log1] eqn:Hb; [|done]. intros [= <- <- <-].
  assert (use_run log1 = Some (true, false) ∧
    (LeaseReturned ∈ log1 → cr_keep_alive r = true ∧ ∃ resp, y = Ok resp ∧ cs_keep_alive resp = true)) as [Hu Hr].
  { unfold perform_body in Hb. assert (quiet [SlotTaken]) as Hq by (unfold quiet; rewrite list_elem_of_singleton; done).
    assert (∀ z : res client_response, use_run [SlotTaken] = Some (true, false) ∧ (LeaseReturned ∈ [SlotTaken] → cr_keep_alive r = true ∧
      ∃ resp, z = Ok resp ∧ cs_keep_alive resp = true)) as Hno by (intros z; by split; [|intros ?%Hq]).
    destruct (prepare _ _ _) as [[e wire]|e]; [|injection Hb as <- <- <-; apply Hno].
    destruct (obtain_pool _ _ _ _) as [[q|e'] s2]; [|injection Hb as <- <- <-; apply Hno].
    destruct (acquire_usable _ _ _ _ _) as [[[z|] s3] log3] eqn:Ha; [|done].
    destruct (acquire_usable_spec ops fuel q _ _ _ _ _ (proj1 (Hno (Throw HttpError))) Hq Ha) as [Hu Hq3]. destruct z as [[]|e'].
    - destruct (request_on_spec ops o fuel r wire _ _ _ _ _ Hu Hq3 Hb) as [? Hr]. split; [done|]. intros Hin. by destruct (Hr Hin) as (? & _ & ?).
    - injection Hb as <- <- <-. by split; [|intros ?%Hq3]. }
  rewrite use_run_snoc, Hu. split_and!; [done|by intros [_ ?]%app_eq_nil|].
  rewrite elem_of_app, list_elem_of_singleton. by intros [?|?]; [apply Hr|].
Qed.

(** ** Streamed responses *)

(** What the callbacks of the parser write: [headers_ready], [chunks] and [body_bytes]. *)
Record stream_sink : Type := mkSink {
  sk_headers_ready : bool;
  sk_chunks : list str;
  sk_body_bytes : Z;
}.

Section stream.
Context {L W P : Type} `{Llhttp L}.
Variable ops : client_ops P W.
Variable o : client_options.
Implicit Types (c : client P) (w : W) (s : client P * W) (k : stream_sink) (log : list use_event).

(** [headers_complete] and [body] as [stream_open] sets them. *)
Definition stream_hooks (max_body : Z) : parse_hooks (L := L) (W := stream_sink) :=
  mkHooks no_hook no_hook
    (λ p k, (Ok tt, hx_res p, mkSink true (sk_chunks k) (sk_body_bytes k)))
    (λ _, no_hook)
    (λ bytes p k,
       let n := sk_body_bytes k + len bytes in
       (Ok tt, hx_res p, mkSink (sk_headers_ready k) (if n <=? max_body then sk_chunks k ++ [bytes] else sk_chunks k) n))
    (λ _, no_hook) (λ _, no_hook).

(** [HttpResponseStream::impl]; [stm_log] is what was done with its place and its lease. *)
Record response_stream : Type := mkStream {
  stm_parser : http_parse (L := L);
  stm_sink : stream_sink;
  stm_headers : header_list;
  stm_trailers : header_list;
  stm_wire : Z;
  stm_status : Z;
  stm_want_keep_alive : bool;
  stm_done : bool;
  stm_finished : bool;
  stm_lease : bool;
  stm_log : list use_event;
}.
Implicit Types (t : response_stream).

Definition stm_set_parser p k t : response_stream :=
  mkStream p k (stm_headers t) (stm_trailers t) (stm_wire t) (stm_status t) (stm_want_keep_alive t) (stm_done t) (stm_finished t) (stm_lease t) (stm_log t).
Definition stm_set_wire n t : response_stream :=
  mkStream (stm_parser t) (stm_sink t) (stm_headers t) (stm_trailers t) n (stm_status t) (stm_want_keep_alive t) (stm_done t) (stm_finished t) (stm_lease t) (stm_log t).
Definition stm_set_lease b log t : response_stream :=
  mkStream (stm_parser t) (stm_sink t) (stm_headers t) (stm_trailers t) (stm_wire t) (stm_status t) (stm_want_keep_alive t) (stm_done t) (stm_finished t) b log.
Definition stm_set_finished t : response_stream :=
  mkStream (stm_parser t) (stm_sink t) (stm_headers t) (stm_trailers t) (stm_wire t) (stm_status t) (stm_want_keep_alive t) true true (stm_lease t) (stm_log t).
(** [trailers = std::move(parser.trailer_fields)]. *)
Definition stm_take_trailers t : response_stream :=
  let p := stm_parser t in
  let r := hx_res p in
  let r' := mkResult (pm_method r) (pm_url r) (pm_version r) (pm_status r) (pm_body r) (pm_headers r) (pm_fields r) [] in
  mkStream (hx_set_res r' p) (stm_sink t) (stm_headers t) (pm_trailers r) (stm_wire t) (stm_status t) (stm_want_keep_alive t) (stm_done t)
    (stm_finished t) (stm_lease t) (stm_log t).
(** [status_code] and [headers = std::move(parser.header_fields)]. *)
Definition stm_take_head t : response_stream :=
  let p := stm_parser t in
  let r := hx_res p in
  let r' := mkResult (pm_method r) (pm_url r) (pm_version r) (pm_status r) (pm_body r) (pm_headers r) [] (pm_trailers r) in
  mkStream (hx_set_res r' p) (stm_sink t) (pm_fields r) (stm_trailers t) (stm_wire t) (pm_status r) (stm_want_keep_alive t) (stm_done t)
    (stm_finished t) (stm_lease t) (stm_log t).
Definition stm_clear_body t : response_stream := stm_set_parser (hx_set_res (pm_set_body [] (hx_res (stm_parser t))) (stm_parser t)) (stm_sink t) t.
Definition stm_set_chunks cs t : response_stream :=
  stm_set_parser (stm_parser t) (mkSink (sk_headers_ready (stm_sink t)) cs (sk_body_bytes (stm_sink t))) t.

(** [impl::finish]. *)
Definition stream_finish (reusable : bool) s t : response_stream * (client P * W) :=
  if stm_finished t then (t, s)
  else
    let t := stm_set_finished t in
    if negb (stm_lease t) then (t, s)
    else if reusable && stm_want_keep_alive t && hx_keep_alive (stm_parser t) && op_reusable ops s.2 && negb (cl_closed s.1)
    then (stm_set_lease false (stm_log t ++ [LeaseReturned]) t, (s.1, op_touch ops s.2))
    else (stm_set_lease false (stm_log t ++ [LeaseDiscarded]) t, s).

(** [impl::~impl]: the rest of its log, and the place in flight is given back. *)
Definition stream_destroyed s t : list use_event * (client P * W) :=
  (stm_log t ++ (if negb (stm_finished t) && stm_lease t then [LeaseDiscarded] else []) ++ [SlotReleased],
   (release_inflight s.1, s.2)).

(** [read_stream_chunk]; a unit of fuel for each turn of its loop. *)
Fixpoint read_stream_chunk (fuel : nat) s t : option (res (option str)) * (client P * W) * response_stream :=
  match fuel with
  | O => (None, s, t)
  | S fuel =>
      match sk_chunks (stm_sink t) with
      | chunk :: cs => (Some (Ok (Some chunk)), s, stm_set_chunks cs t)
      | [] =>
          if stm_done t then (Some (Ok None), s, t)
          else if negb (stm_lease t) then (Some (Throw LogicError), s, t)
          else
            match op_read ops s with
            | (Throw e, s) => (Some (Throw e), s, t)
            | (Ok None, s) => let '(t, s) := stream_finish false s t in (Some (Throw SystemError), s, t)
            | (Ok (Some []), s) =>
                match hx_finish (stream_hooks (co_max_body o)) (stm_parser t) (stm_sink t) with
                | (Throw e, p, k) => (Some (Throw e), s, stm_set_parser p k t)
                | (Ok ok, p, k) =>
                    let t := stm_set_parser p k t in
                    if negb ok || negb (hx_completed p) then (Some (Throw HttpError), s, t)
                    else let '(t, s) := stream_finish true s (stm_take_trailers t) in (Some (Ok None), s, t)
                end
            | (Ok (Some data), s) =>
                let t := stm_set_wire (stm_wire t + len data) t in
                if co_max_response_wire o <? stm_wire t then (Some (Throw HttpError), s, t)
                else
                  match hx_feed (stream_hooks (co_max_body o)) data (stm_parser t) (stm_sink t) with
                  | (Throw e, p, k) => (Some (Throw e), s, stm_set_parser p k t)
                  | (Ok false, p, k) => (Some (Throw HttpError), s, stm_set_parser p k t)
                  | (Ok true, p, k) =>
                      let t := stm_clear_body (stm_set_parser p k t) in
                      if co_max_body o <? sk_body_bytes k then (Some (Throw HttpError), s, t)
                      else if hx_completed p then
                        let '(t, s) := stream_finish true s (stm_take_trailers t) in
                        match sk_chunks k with
                        | [] => (Some (Ok None), s, t)
                        | _ => read_stream_chunk fuel s t
                        end
                      else read_stream_chunk fuel s t
                  end
            end
      end
  end.

(** [HttpResponseStream::aclose] up to the end of the stream's object, which then goes. *)
Definition stream_aclose s t : res unit * (client P * W) * response_stream :=
  if stm_lease t then
    match op_shutdown ops 500 s with
    | (Throw e, s) => (Throw e, s, t)
    | (Ok _, s) => let '(t, s) := stream_finish false s t in (Ok tt, s, t)
    end
  else (Ok tt, s, t).

(** The parser and the sink of a stream that is being opened. *)
Definition stream_new (keep_alive : bool) log : response_stream :=
  mkStream (hx_new HTTP_RESPONSE (mkLimits (co_max_body o) 8192 (co_max_header_bytes o) (co_max_header_count o)) true false)
    (mkSink false [] 0) [] [] 0 0 keep_alive false false false log.

(** The reads up to the end of the headers; a unit of fuel for each. *)
Fixpoint stream_head (fuel : nat) s t : option (res unit) * (client P * W) * response_stream :=
  match fuel with
  | O => (None, s, t)
  | S fuel =>
      if sk_headers_ready (stm_sink t) || hx_completed (stm_parser t) then (Some (Ok tt), s, t)
      else
        match op_read ops s with
        | (Throw e, s) => (Some (Throw e), s, t)
        | (Ok None, s) => (Some (Throw SystemError), s, t)
        | (Ok (Some []), s) =>
            match hx_finish (stream_hooks (co_max_body o)) (stm_parser t) (stm_sink t) with
            | (Throw e, p, k) => (Some (Throw e), s, stm_set_parser p k t)
            | (Ok ok, p, k) =>
                (if negb ok || negb (hx_completed p) then Some (Throw HttpError) else Some (Ok tt), s, stm_set_parser p k t)
            end
        | (Ok (Some data), s) =>
            let t := stm_set_wire (stm_wire t + len data) t in
            if co_max_response_wire o <? stm_wire t then (Some (Throw HttpError), s, t)
            else
              match hx_feed (stream_hooks (co_max_body o)) data (stm_parser t) (stm_sink t) with
              | (Throw e, p, k) => (Some (Throw e), s, stm_set_parser p k t)
              | (Ok false, p, k) => (Some (Throw HttpError), s, stm_set_parser p k t)
              | (Ok true, p, k) => stream_head fuel s (stm_set_parser p k t)
              end
        end
  end.

(** [stream_open] from the lease on: the request is written and the head of the response read. *)
Definition stream_start (fuel : nat) (wire : str) s t : option (res unit) * (client P * W) * response_stream :=
  match op_write_all ops wire s with
  | (Throw e, s) => (Some (Throw e), s, t)
  | (Ok false, s) => (Some (Throw HttpError), s, t)
  | (Ok true, s) =>
      match stream_head fuel s t with
      | (Some (Ok _), s, t) =>
          let t := stm_clear_body t in
          let status := pm_status (hx_res (stm_parser t)) in
          if (status =? 101) || (status <? 200) then (Some (Throw HttpError), s, t)
          else
            let t := stm_take_head t in
            let '(t, s) := if hx_completed (stm_parser t) then stream_finish true s (stm_take_trailers t) else (t, s) in
            (Some (Ok tt), s, t)
      | r => r
      end
  end.

(** [stream_open]: the stream, or the exception and what was done by then. *)
Definition stream_open (fuel : nat) (r : client_request) s : option (res response_stream) * (client P * W) * list use_event :=
  let fail e s log := (Some (Throw e), (release_inflight s.1, s.2), log ++ [SlotReleased]) in
  match cl_enter (co_max_total_requests o) s.1 with
  | Throw e => (Some (Throw e), s, [])
  | Ok c =>
      let s := (c, s.2) in
      match prepare ops o r with
      | Throw e => fail e s [SlotTaken]
      | Ok (e, wire) =>
          match obtain_pool ops o e s with
          | (Throw x, s) => fail x s [SlotTaken]
          | (Ok q, s) =>
              match acquire_usable ops fuel q s [SlotTaken] with
              | (None, s, log) => (None, s, log)
              | (Some (Throw x), s, log) => let '(log, s) := stream_destroyed s (stream_new (cr_keep_alive r) log) in (Some (Throw x), s, log)
              | (Some (Ok _), s, log) =>
                  match stream_start fuel wire s (stm_set_lease true log (stream_new (cr_keep_alive r) log)) with
                  | (None, s, t) => (None, s, stm_log t)
                  | (Some (Throw x), s, t) => let '(log, s) := stream_destroyed s t in (Some (Throw x), s, log)
                  | (Some (Ok _), s, t) => (Some (Ok t), s, stm_log t)
                  end
              end
          end
      end
  end.
End stream.

(** What the owner of a stream does with it. *)
Inductive stream_op : Type := OpReadChunk (fuel : nat) | OpClose.

Definition stream_run_op {L W P} `{Llhttp L} (ops : client_ops P W) (o : client_options) (op : stream_op)
    (x : (client P * W) * response_stream (L := L) * list str) : (client P * W) * response_stream (L := L) * list str :=
  let '(s, t, got) := x in
  match op with
  | OpReadChunk fuel =>
      let '(r, s, t) := read_stream_chunk ops o fuel s t in
      (s, t, match r with Some (Ok (Some chunk)) => got ++ [chunk] | _ => got end)
  | OpClose => let '(_, s, t) := stream_aclose ops s t in (s, t, got)
  end.

(** ** What callbacks keep *)

Section keep.
Context {L W : Type} `{Llhttp L}.
Variables (I : W → Prop) (hooks : parse_hooks (L := L) (W := W)).
Implicit Types (p : http_parse (L := L)) (w : W).

Definition hook_keeps (hk : hook (L := L) (W := W)) : Prop := ∀ p w, I w → I (hk p w).2.

Record hooks_keep : Prop := {
  ke_begin : hook_keeps (hk_message_begin hooks);
  ke_complete : hook_keeps (hk_message_complete hooks);
  ke_headers : hook_keeps (hk_headers_complete hooks);
  ke_url : ∀ b, hook_keeps (hk_url hooks b);
  ke_body : ∀ b, hook_keeps (hk_body hooks b);
  ke_field : ∀ b, hook_keeps (hk_header_field hooks b);
  ke_value : ∀ b, hook_keeps (hk_header_value hooks b);
}.
Hypothesis Hkeep : hooks_keep.

Lemma call_keeps hk code p w : hook_keeps hk → I w → I (call hk code p w).2.
Proof. intros Hk Hw. unfold call. specialize (Hk p w Hw). by destruct (hk p w) as [[[?|?] r] w']. Qed.

Lemma on_event_keeps ev p w : I w → I (on_event hooks ev p w).2.
Proof.
  intros Hw. destruct Hkeep. destruct ev; cbn [on_event]; cbv zeta; repeat (destruct (exceeds _ _ _)); try done;
    try (by apply call_keeps). by destruct (_ && _).
Qed.

Lemma drive_keeps run p w : I w → I (drive hooks run p w).2.
Proof.
  revert p w. induction run as [err pos l|ev l k IH]; intros p w Hw; [done|]. cbn [drive].
  pose proof (on_event_keeps ev (hx_set_engine l p) w Hw) as Hw'. destruct (on_event hooks ev _ w) as [[c p'] w']. by apply IH.
Qed.

Lemma feed_keeps data p w : I w → I (hx_feed hooks data p w).2.
Proof.
  intros Hw. unfold hx_feed. destruct (hx_callback_error p); [done|]. cbv zeta. destruct (hx_paused _); [done|].
  destruct (bool_decide _); [done|]. destruct (bool_decide _); [done|].
  pose proof (drive_keeps (ll_execute (hx_engine (hx_set_consumed 0 p)) data) (hx_set_consumed 0 p) w Hw) as Hw'.
  destruct (drive _ _ _ w) as [[[err pos] p'] w']. by destruct (accept_result _ _).
Qed.

Lemma finish_keeps p w : I w → I (hx_finish hooks p w).2.
Proof.
  intros Hw. unfold hx_finish. destruct (bool_decide _); [done|]. destruct (_ && _); [done|].
  pose proof (drive_keeps (ll_finish (hx_engine p)) p w Hw) as Hw'.
  destruct (drive _ _ _ w) as [[[err pos] p'] w']. by destruct (accept_result _ _).
Qed.
End keep.

(** ** The chunks of a stream *)

Definition total (cs : list str) : Z := foldr (λ b n, len b + n) 0 cs.

Lemma total_app cs cs' : total (cs ++ cs') = total cs + total cs'.
Proof. induction cs as [|b cs IH]; simpl; [done|]. rewrite IH. lia. Qed.

Lemma total_nonneg cs : 0 ≤ total cs.
Proof. induction cs as [|b cs IH]; simpl; [done|]. pose proof (len_nonneg b). lia. Qed.

(** What was handed out and what is queued is the body, until the body exceeds its limit. *)
Definition sink_ok (max_body : Z) (got : list str) (k : stream_sink) : Prop :=
  total got + total (sk_chunks k) ≤ max_body ∧
  total got + total (sk_chunks k) ≤ sk_body_bytes k ∧
  (sk_body_bytes k ≤ max_body → total got + total (sk_chunks k) = sk_body_bytes k).

Lemma stream_hooks_keep {L} `{Llhttp L} max_body got : hooks_keep (sink_ok max_body got) (stream_hooks (L := L) max_body).
Proof.
  split; [by intros p k Hk|by intros p k Hk|by intros p k Hk|by intros b p k Hk| |by intros b p k Hk|by intros b p k Hk].
  intros b p k (Hm & Hb & He). unfold sink_ok. simpl. pose proof (len_nonneg b).
  destruct (_ <=? max_body) eqn:Hle; simpl.
  - apply Z.leb_le in Hle. rewrite total_app. simpl. specialize (He ltac:(lia)). lia.
  - apply Z.leb_gt in Hle. lia.
Qed.

Section stream_state.
Context {L : Type} `{Llhttp L}.
Variable o : client_options.
Implicit Types (t : response_stream (L := L)) (got : list str).

(** The state of a stream between the calls of its owner. *)
Record stream_ok got t : Prop := {
  so_sink : sink_ok (co_max_body o) got (stm_sink t);
  so_log : use_run (stm_log t) = Some (true, stm_lease t);
  so_done : stm_done t = negb (stm_lease t);
  so_finished : stm_finished t = negb (stm_lease t);
}.

Lemma stream_ok_parser got p k t : stream_ok got t → sink_ok (co_max_body o) got k → stream_ok got (stm_set_parser p k t).
Proof. by intros [] Hk. Qed.
Lemma stream_ok_wire got n t : stream_ok got t → stream_ok got (stm_set_wire n t).
Proof. by intros []. Qed.
Lemma stream_ok_trailers got t : stream_ok got t → stream_ok got (stm_take_trailers t).
Proof. by intros []. Qed.
Lemma stream_ok_clear_body got t : stream_ok got t → stream_ok got (stm_clear_body t).
Proof. by intros []. Qed.
Lemma stream_ok_take_head got t : stream_ok got t → stream_ok got (stm_take_head t).
Proof. by intros []. Qed.
End stream_state.

Section stream_spec.
Context {L W P : Type} `{Llhttp L}.
Variable ops : client_ops P W.
Variable o : client_options.
Implicit Types (s : client P * W) (t : response_stream (L := L)) (got : list str).

Lemma stream_finish_ok got b s t : stream_ok o got t → stream_ok o got (stream_finish ops b s t).1 ∧ stm_done (stream_finish ops b s t).1 = true ∧
  stm_sink (stream_finish ops b s t).1 = stm_sink t.
Proof.
  intros [Hs Hl Hd Hf]. unfold stream_finish. rewrite Hf. destruct (stm_lease t) eqn:Hle; simpl.
  - rewrite Hle. simpl. destruct (_ && _); simpl; (split; [|done]); split; simpl; try done; by rewrite use_run_snoc, Hl.
  - split; [|done]. split; by rewrite ?Hle.
Qed.

(** One call of [read_chunk] hands out at most one chunk; the lease is never used after it is gone. *)
Lemma read_stream_chunk_ok fuel got s t :
  stream_ok o got t →
  let '(r, _, t') := read_stream_chunk ops o fuel s t in
  stream_ok o (match r with Some (Ok (Some chunk)) => got ++ [chunk] | _ => got end) t'.
Proof.
  revert s t. induction fuel as [|fuel IH]; intros s t Ht; cbn [read_stream_chunk]; [done|].
  pose proof Ht as [Hs Hl Hd Hf]. destruct (sk_chunks (stm_sink t)) as [|chunk cs] eqn:Hc.
  2: { split; [|done..]. unfold sink_ok in *. simpl. rewrite Hc in Hs. rewrite total_app. simpl in *.
       destruct Hs as (? & ? & He). split_and!; [lia|lia|]. intros Hb. specialize (He Hb). lia. }
  rewrite Hd. destruct (stm_lease t) eqn:Hle; simpl; [|done].
  destruct (op_read ops s) as [[[[|b data]|]|e] s1]; [| | |done].
  - pose proof (finish_keeps _ _ (stream_hooks_keep (co_max_body o) got) (stm_parser t) (stm_sink t) Hs) as Hs'.
    destruct (hx_finish _ _ _) as [[[ok|e] p] k]; [|by apply stream_ok_parser]. destruct (_ || _); [by apply stream_ok_parser|].
    destruct (stream_finish_ok got true s1 (stm_take_trailers (stm_set_parser p k t))) as (Hok & _); [by apply stream_ok_trailers, stream_ok_parser|].
    by destruct (stream_finish _ _ _ _).
  - cbv zeta. set (t1 := stm_set_wire _ t). assert (stream_ok o got t1) as Ht1 by (by apply stream_ok_wire).
    destruct (co_max_response_wire o <? _); [done|].
    pose proof (feed_keeps _ _ (stream_hooks_keep (co_max_body o) got) (b :: data) (stm_parser t) (stm_sink t) Hs) as Hs'.
    destruct (hx_feed _ _ _ _) as [[[[|]|e] p] k]; simpl in Hs'; [|by apply stream_ok_parser..].
    set (t2 := stm_clear_body _). assert (stream_ok o got t2) as Ht2 by (by apply stream_ok_clear_body, stream_ok_parser).
    destruct (co_max_body o <? _); [done|]. destruct (hx_completed p); [|by apply IH].
    destruct (stream_finish_ok got true s1 (stm_take_trailers t2)) as (Hok & _ & Hk); [by apply stream_ok_trailers|].
    destruct (stream_finish _ _ _ _) as [t3 s3]. destruct (sk_chunks k); [done|by apply IH].
  - destruct (stream_finish_ok got false s1 t Ht) as (Hok & _). by destruct (stream_finish _ _ _ _).
Qed.

Lemma stream_aclose_ok got s t : stream_ok o got t → stream_ok o got (stream_aclose ops s t).2.
Proof.
  intros Ht. unfold stream_aclose. destruct (stm_lease t); [|done]. destruct (op_shutdown ops 500 s) as [[[]|e] s1]; [|done].
  destruct (stream_finish_ok got false s1 t Ht) as (Hok & _). by destruct (stream_finish _ _ _ _).
Qed.

Lemma stream_run_op_ok op got s t :
  stream_ok o got t →
  let '(_, t', got') := stream_run_op ops o op (s, t, got) in stream_ok o got' t'.
Proof.
  intros Ht. destruct op as [fuel|]; simpl.
  - pose proof (read_stream_chunk_ok fuel got s t Ht) as Hr. by destruct (read_stream_chunk _ _ _ _ _) as [[r s'] t'].
  - pose proof (stream_aclose_ok got s t Ht) as Hr. by destruct (stream_aclose _ _ _) as [[r s'] t'].
Qed.

Lemma stream_runs_ok opl got s t :
  stream_ok o got t →
  let '(_, t', got') := foldl (λ x op, stream_run_op ops o op x) (s, t, got) opl in stream_ok o got' t'.
Proof.
  revert got s t. induction opl as [|op opl IH]; intros got s t Ht; cbn [foldl]; [done|].
  pose proof (stream_run_op_ok op got s t Ht) as Hr. destruct (stream_run_op _ _ _ _) as [[s' t'] got']. by apply IH.
Qed.

Lemma stream_destroyed_spec got s t :
  stream_ok o got t → use_run (stream_destroyed s t).1 = Some (false, false).
Proof.
  intros [Hs Hl Hd Hf]. unfold stream_destroyed. rewrite Hf, negb_involutive, andb_diag. simpl. rewrite app_assoc, use_run_snoc.
  destruct (stm_lease t); [rewrite use_run_snoc|rewrite app_nil_r]; by rewrite Hl.
Qed.

(** Opening: the head has been read into a parser whose body has been handed to the sink. *)
Lemma stream_head_ok fuel s t :
  stream_ok o [] t → stream_ok o [] (stream_head ops o fuel s t).2 ∧ stm_lease (stream_head ops o fuel s t).2 = stm_lease t.
Proof.
  revert s t. induction fuel as [|fuel IH]; intros s t Ht; cbn [stream_head]; [done|]. destruct (_ || _); [done|].
  destruct (op_read ops s) as [[[[|b data]|]|e] s1]; [| |done|done].
  - pose proof (finish_keeps _ _ (stream_hooks_keep (co_max_body o) []) (stm_parser t) (stm_sink t) (so_sink _ _ _ Ht)) as Hs'.
    destruct (hx_finish _ _ _) as [[[ok|e] p] k]; by split; [apply stream_ok_parser|].
  - cbv zeta. set (t1 := stm_set_wire _ t). assert (stream_ok o [] t1) as Ht1 by (by apply stream_ok_wire).
    destruct (co_max_response_wire o <? _); [done|].
    pose proof (feed_keeps _ _ (stream_hooks_keep (co_max_body o) []) (b :: data) (stm_parser t) (stm_sink t) (so_sink _ _ _ Ht)) as Hs'.
    destruct (hx_feed _ _ _ _) as [[[[|]|e] p] k]; simpl in Hs'; [|by split; [apply stream_ok_parser|]..].
    destruct (IH s1 (stm_set_parser p k t1)) as [? ->]; [by apply stream_ok_parser|done].
Qed.

Lemma stream_start_ok fuel wire s t : stream_ok o [] t → stream_ok o [] (stream_start ops o fuel wire s t).2.
Proof.
  intros Ht. unfold stream_start. destruct (op_write_all ops wire s) as [[[|]|e] s1]; [|done..].
  destruct (stream_head_ok fuel s1 t Ht) as [Hh _]. destruct (stream_head _ _ _ _ _) as [[[[[]|e]|] s2] t2]; [|done..].
  cbv zeta. simpl in Hh. destruct (_ || _); [by apply stream_ok_clear_body|].
  set (t3 := stm_take_head _). assert (stream_ok o [] t3) as Ht3 by (by apply stream_ok_take_head, stream_ok_clear_body).
  destruct (hx_completed (stm_parser t3)); [|done].
  destruct (stream_finish_ok [] true s2 (stm_take_trailers t3)) as (Hok & _); [by apply stream_ok_trailers|]. by destruct (stream_finish _ _ _ _).
Qed.
End stream_spec.

(** A streamed response takes its place in flight and its leases as a plain request does: if opening it
    fails, everything taken is given back by then; if it succeeds, then in every order of
    [read_chunk] and [aclose] and after the object has gone the place is released once and the
    lease settled once.  The chunks handed out never exceed the body limit in total. *)
Theorem stream_accounts {L W P} `{Llhttp L} (ops : client_ops P W) o fuel r s x s' log opl :
  0 ≤ co_max_body o → stream_open ops o fuel r s = (Some x, s', log) →
  match x with
  | Throw _ => use_run log = Some (false, false)
  | Ok t =>
      let '(s'', t', got) := foldl (λ x op, stream_run_op ops o op x) (s', t, []) opl in
      total got ≤ co_max_body o ∧ use_run (stream_destroyed s'' t').1 = Some (false, false)
  end.
Proof.
  intros Hmax. unfold stream_open. cbv zeta. destruct (cl_enter _ _) as [c|e]; [|by intros [= <- <- <-]].
  destruct (prepare _ _ _) as [[e wire]|e]; [|by intros [= <- <- <-]].
  destruct (obtain_pool _ _ _ _) as [[q|e'] s2]; [|by intros [= <- <- <-]].
  assert (quiet [SlotTaken]) as Hq by (unfold quiet; rewrite list_elem_of_singleton; done).
  destruct (acquire_usable _ _ _ _ _) as [[[z|] s3] log3] eqn:Ha; [|done].
  destruct (acquire_usable_spec ops fuel q _ [SlotTaken] _ _ _ eq_refl Hq Ha) as [Hu _].
  assert (sink_ok (co_max_body o) [] (mkSink false [] 0)) as Hsink by (unfold sink_ok; simpl; lia).
  destruct z as [[]|e'].
  2: { simpl. intros [= <- <- <-]. by rewrite use_run_snoc, Hu. }
  set (t0 := stm_set_lease true log3 _). assert (stream_ok o [] t0) as Ht0 by (by split).
  pose proof (stream_start_ok ops o fuel wire s3 t0 Ht0) as Hs. destruct (stream_start _ _ _ _ _ _) as [[[[[]|e']|] s4] t4]; [| |done].
  - intros [= <- <- <-]. simpl in Hs. pose proof (stream_runs_ok ops o opl [] s4 t4 Hs) as Hr.
    destruct (foldl _ _ opl) as [[s5 t5] got]. split; [|exact (stream_destroyed_spec ops o got s5 t5 Hr)].
    destruct Hr as [(Hb & _) _ _ _]. pose proof (total_nonneg (sk_chunks (stm_sink t5))). lia.
  - intros [= <- <- <-]. exact (stream_destroyed_spec ops o [] s4 t4 Hs).
Qed.

(** ** Examples, with the small engine; the world is what the server still sends. *)

#[local] Existing Instance toy_responses.

Definition demo_ops : client_ops nat (list str) :=
  mkClientOps nat (list str) false (λ _, false) (λ _, mkPoolView (λ _, 0%nat) (λ _, 0%nat)) (λ _ _, 7%nat) (λ _ w, w) (λ _ w, w)
    (λ _ s, (Ok true, s)) (λ _, true) (λ w, w) (λ _, true) (λ _ s, (Ok true, s))
    (λ s, let '(r, w) := read_list s.2 in (r, (s.1, w))) (λ _ s, (Ok tt, s)).

Definition get_demo : client_request := mkClientRequest (lit "GET") (lit "http://h/") [] [] true.
Definition demo_start (w : list str) : client nat * list str := (client_init, w).
Definition demo_client : client nat := mkClient false false [((false, lit "h", 80), 7%nat)] 0 None.

(** Bytes after a response: a plain request refuses them and drops the connection, but a streamed one
    ignores them, and puts the connection back into the pool for the next request. *)
Theorem stream_pools_unread :
  perform (L := bool) demo_ops demo_options 4 get_demo (demo_start [lit "ab"]) =
    (Some (Throw HttpError), (demo_client, []), [SlotTaken; LeaseTaken; LeaseDiscarded; SlotReleased]) ∧
  ∃ t, stream_open (L := bool) demo_ops demo_options 4 get_demo (demo_start [lit "ab"]) =
    (Some (Ok t), (cl_set_flight 1 None demo_client, []), [SlotTaken; LeaseTaken; LeaseReturned]) ∧ stm_done t = true.
Proof. split; [vm_compute; reflexivity|]. eexists. split; [vm_compute; reflexivity|reflexivity]. Qed.

Lemma pool_for_bounded_witness :
  let c := mkClient false false [((false, lit "h", 80), 7%nat)] 0 None in
  let v := mkPoolView (λ _, 0%nat) (λ _, 0%nat) in
  let e := mkEndpoint (lit "g") (lit "g") (lit "/") 80 false in
  pool_for v 1 false 8%nat e c = (Ok 8%nat, mkClient false false [((false, lit "g", 80), 8%nat)] 0 None, [7%nat]) ∧
  pool_unused v 7%nat = true.
Proof.
  intros c v e. split; [vm_compute; reflexivity|].
  assert (origins_ok 1 c) as Hok by (split; [apply NoDup_singleton|vm_compute; discriminate]).
  assert (pool_for v 1 false 8%nat e c = (Ok 8%nat, mkClient false false [((false, lit "g", 80), 8%nat)] 0 None, [7%nat])) as He
    by (vm_compute; reflexivity).
  destruct (pool_for_bounded v 1 false 8%nat e c _ _ _ Hok He) as (_ & _ & Hun & _). by inversion Hun.
Defined.

Lemma perform_accounts_witness :
  ∃ resp log, (perform (L := bool) demo_ops demo_options 4 get_demo (demo_start [lit "h"])).1.1 = Some (Ok resp) ∧
    (perform (L := bool) demo_ops demo_options 4 get_demo (demo_start [lit "h"])).2 = log ∧ LeaseReturned ∈ log ∧
    use_run log = Some (false, false).
Proof.
  eexists _, _. split; [vm_compute; reflexivity|]. split; [vm_compute; reflexivity|]. split; [right; right; left|].
  destruct (perform (L := bool) demo_ops demo_options 4 get_demo (demo_start [lit "h"])) as [[x s'] log] eqn:He.
  assert (log = [SlotTaken; LeaseTaken; LeaseReturned; SlotReleased]) as <- by (vm_compute in He; congruence).
  destruct x as [x|]; [|vm_compute in He; discriminate].
  exact (proj1 (perform_accounts demo_ops demo_options 4 get_demo (demo_start [lit "h"]) x s' log He)).
Defined.

Lemma stream_accounts_witness :
  ∃ x s' log, stream_open (L := bool) demo_ops demo_options 4 get_demo (demo_start [lit "h"]) = (Some (Ok x), s', log) ∧
    let '(s'', t', got) := foldl (λ y op, stream_run_op demo_ops demo_options op y) (s', x, []) [OpReadChunk 2; OpClose] in
    total got ≤ 4 ∧ use_run (stream_destroyed s'' t').1 = Some (false, false).
Proof.
  assert (0 ≤ co_max_body demo_options) as Hb by (vm_compute; discriminate).
  destruct (stream_open (L := bool) demo_ops demo_options 4 get_demo (demo_start [lit "h"])) as [[x s'] log] eqn:He.
  destruct x as [[t|e]|]; [|vm_compute in He; discriminate..].
  exists t, s', log. split; [reflexivity|].
  exact (stream_accounts demo_ops demo_options 4 get_demo (demo_start [lit "h"]) (Ok t) s' log [OpReadChunk 2; OpClose] Hb He).
Defined.
