(* ===== verification/ClientFlight.v ===== *)
(** * ClientFlight: requests in flight and [aclose] of the HTTP client

    [HttpClient::impl::in_flight], [close] and [aclose] of [src/src/http_client.cpp], as steps of one
    loop: a request or a stream takes its place ([cl_enter] of [ClientConns]) and gives it back
    ([release_inflight]) at any later time; a call of [aclose] runs from one suspension to the next. *)

From S2P Require Import Prelude HttpMsg HttpUrl HttpParse HttpClientM ClientConns.
From stdpp Require Import options.

(** A coroutine in [aclose]: about to test, suspended in [idle_event], returned. *)
Inductive closer : Type := CTest | CWaiting | CDone.
#[export] Instance closer_eq_dec : EqDecision closer.
Proof. solve_decision. Defined.

Section flight.
Context {P : Type}.

Record flight : Type := mkFlight {
  fl_client : client P;
  fl_active : gset nat;
  fl_closers : gmap nat closer;
}.
Implicit Types (f : flight) (c : client P).

Definition flight_init : flight := mkFlight client_init ∅ ∅.

(** The event of the client. *)
Definition cl_set_event ev c : client P := cl_set_flight (cl_in_flight c) ev c.
Definition ensure_event c : client P := match cl_idle_event c with Some _ => c | None => cl_set_event (Some false) c end.
Definition wake (x : closer) : closer := match x with CWaiting => CTest | _ => x end.

(** [idle_event->set()] schedules everyone who waits; [release_inflight] sets it with the last place. *)
Definition leave (i : nat) f : flight :=
  let c := release_inflight (fl_client f) in
  mkFlight c (fl_active f ∖ {[i]})
    (if bool_decide (cl_in_flight c = 0) && bool_decide (is_Some (cl_idle_event c)) then wake <$> fl_closers f else fl_closers f).

(** The start of [aclose]; its first test follows. *)
Definition aclose_start (j : nat) f : flight :=
  mkFlight (ensure_event (client_close (fl_client f)).1) (fl_active f) (<[j := CTest]> (fl_closers f)).

(** [while (in_flight > 0) { clear(); co_await wait(); }] from its test to the suspension. *)
Definition aclose_run (j : nat) f : flight :=
  if bool_decide (cl_in_flight (fl_client f) = 0) then mkFlight (fl_client f) (fl_active f) (<[j := CDone]> (fl_closers f))
  else mkFlight (cl_set_event (Some false) (fl_client f)) (fl_active f) (<[j := CWaiting]> (fl_closers f)).

Inductive flight_step (max_total : Z) : flight → flight → Prop :=
  | FsEnter i c f : i ∉ fl_active f → cl_enter max_total (fl_client f) = Ok c →
      flight_step max_total f (mkFlight c ({[i]} ∪ fl_active f) (fl_closers f))
  | FsLeave i f : i ∈ fl_active f → flight_step max_total f (leave i f)
  | FsClose f : flight_step max_total f (mkFlight (client_close (fl_client f)).1 (fl_active f) (fl_closers f))
  | FsAclose j f : fl_closers f !! j = None → flight_step max_total f (aclose_start j f)
  | FsRun j f : fl_closers f !! j = Some CTest → flight_step max_total f (aclose_run j f).

Definition flight_reachable (max_total : Z) : flight → Prop := rtc (flight_step max_total) flight_init.

Record flight_ok (max_total : Z) f : Prop := {
  fo_count : cl_in_flight (fl_client f) = size (fl_active f);
  fo_bound : max_total ≠ 0%Z → (0 ≤ max_total)%Z → (Z.of_nat (cl_in_flight (fl_client f)) ≤ max_total)%Z;
  fo_closers : fl_closers f ≠ ∅ → cl_closed (fl_client f) = true ∧ is_Some (cl_idle_event (fl_client f));
  fo_waiting : ∀ j, fl_closers f !! j = Some CWaiting → fl_active f ≠ ∅;
  fo_done : ∀ j, fl_closers f !! j = Some CDone → fl_active f = ∅;
}.

Lemma client_close_flight c :
  cl_in_flight (client_close c).1 = cl_in_flight c ∧ cl_idle_event (client_close c).1 = cl_idle_event c ∧ cl_closed (client_close c).1 = true.
Proof. unfold client_close. by destruct (cl_closed c) eqn:?. Qed.

Lemma leave_ok max_total i f : flight_ok max_total f → i ∈ fl_active f → flight_ok max_total (leave i f).
Proof.
  intros [Hc Hb Hcl Hw Hd] Hi. unfold leave, release_inflight. cbv zeta.
  pose proof (size_union_alt {[i]} (fl_active f ∖ {[i]})) as Hs.
  assert ({[i]} ∪ fl_active f ∖ {[i]} = fl_active f) as Hu by (apply leibniz_equiv; rewrite <- union_difference; set_solver).
  assert (size (fl_active f) = S (size (fl_active f ∖ {[i]}))) as Hsz.
  { rewrite <- Hu at 1. rewrite size_union by set_solver. by rewrite size_singleton. }
  destruct (cl_in_flight (fl_client f)) as [|n] eqn:Hn; [lia|]. simpl.
  assert (n = size (fl_active f ∖ {[i]})) as Hn' by lia.
  set (ev := if bool_decide (n = 0) then _ else _).
  assert (is_Some ev ↔ is_Some (cl_idle_event (fl_client f))) as Hev.
  { unfold ev. case_bool_decide; [|done]. by rewrite fmap_is_Some. }
  set (wk := bool_decide (n = 0) && bool_decide (is_Some ev)).
  assert (∀ j x, (if wk then wake <$> fl_closers f else fl_closers f) !! j = Some x → ∃ y, fl_closers f !! j = Some y ∧ x = (if wk then wake y else y)) as Hlk.
  { intros j x. destruct wk; [|by eauto]. rewrite lookup_fmap. intros (y & -> & Hy)%fmap_Some. by eauto. }
  split; simpl.
  - lia.
  - intros H1 H2. specialize (Hb H1 H2). lia.
  - intros Hne. assert (fl_closers f ≠ ∅) as Hne' by (destruct wk; [by intros He; rewrite He, fmap_empty in Hne|done]).
    destruct (Hcl Hne') as [? He]. split; [done|by apply Hev].
  - intros j (y & Hy & Hx)%Hlk He. assert (wk = true) as Hwk.
    { unfold wk. rewrite He in Hn'. rewrite size_empty in Hn'. rewrite (bool_decide_true (n = 0)) by done. simpl. apply bool_decide_eq_true.
      apply Hev. apply Hcl. intros He'. by rewrite He', lookup_empty in Hy. }
    rewrite Hwk in Hx. by destruct y.
  - intros j (y & Hy & Hx)%Hlk. assert (y = CDone) as -> by (destruct wk, y; by simpl in Hx). specialize (Hd _ Hy). rewrite Hd. set_solver.
Qed.

Lemma flight_step_ok max_total f f' : flight_ok max_total f → flight_step max_total f f' → flight_ok max_total f'.
Proof.
  intros Hok Hst. revert Hok. destruct Hst as [i c g Hi He|i g Hi|g|j g Hj|j g Hj]; intros Hok; pose proof Hok as [Hc Hb Hcl Hw Hd];
    [|by apply leave_ok|..].
  - unfold cl_enter in He. destruct (cl_closed (fl_client g)) eqn:Hcs; [done|]. destruct (_ && _) eqn:Hm; [done|]. injection He as <-.
    assert (fl_closers g = ∅) as Hno.
    { destruct (decide (fl_closers g = ∅)) as [|Hne]; [done|]. destruct (Hcl Hne) as [? _]. congruence. }
    split; simpl; rewrite ?Hno; [|intros|done|intros ?; by rewrite lookup_empty..].
    + rewrite size_union by set_solver. rewrite size_singleton. lia.
    + apply andb_false_iff in Hm as [Hm|Hm]; bool_to_prop; lia.
  - destruct (client_close_flight (fl_client g)) as (H1 & H2 & H3). split; simpl; rewrite ?H1, ?H2, ?H3; try done.
    intros Hne. by destruct (Hcl Hne).
  - destruct (client_close_flight (fl_client g)) as (H1 & H2 & H3). unfold aclose_start, ensure_event.
    assert (∀ x, x ≠ CTest → ∀ j', <[j := CTest]> (fl_closers g) !! j' = Some x → fl_closers g !! j' = Some x) as Hlk.
    { intros x Hx j'. destruct (decide (j' = j)) as [->|?]; [rewrite lookup_insert_eq; congruence|by rewrite lookup_insert_ne]. }
    split; simpl; [..|intros j' ?%Hlk; by eauto|intros j' ?%Hlk; by eauto]; destruct (cl_idle_event (client_close _).1) eqn:Hev; simpl; rewrite ?H1, ?H3; try done.
  - assert (fl_closers g ≠ ∅) as Hne by (intros He; by rewrite He, lookup_empty in Hj). destruct (Hcl Hne) as [Hcs Hev]. unfold aclose_run.
    case_bool_decide as Hz; (split; simpl; [done|done|done|..]); intros j'.
    + destruct (decide (j' = j)) as [->|?]; [by rewrite lookup_insert_eq|rewrite lookup_insert_ne by done; apply Hw].
    + intros _. apply leibniz_equiv, size_empty_inv. lia.
    + intros _ He. apply Hz. by rewrite Hc, He, size_empty.
    + destruct (decide (j' = j)) as [->|?]; [by rewrite lookup_insert_eq|rewrite lookup_insert_ne by done; apply Hd].
Qed.
End flight.
Arguments flight : clear implicits.

(** C27 In every history of requests, streams, [close] and [aclose]: [in_flight] is the number of requests
    that hold a place, within the limit if there is one; a caller suspended in [aclose] has a
    running request that will wake it, and when [aclose] has returned no request is in flight, then
    and ever after. *)
Theorem client_barrier {P} max_total (f g : flight P) :
  (0 ≤ max_total)%Z → flight_reachable max_total f → rtc (flight_step max_total) f g →
  cl_in_flight (fl_client f) = size (fl_active f) ∧
  (max_total ≠ 0%Z → (Z.of_nat (size (fl_active f)) ≤ max_total)%Z) ∧
  (∀ j, fl_closers f !! j = Some CWaiting → ∃ i, i ∈ fl_active f) ∧
  (∀ j, fl_closers f !! j = Some CWaiting → ∀ i, fl_active f = {[i]} → fl_closers (leave i f) !! j = Some CTest) ∧
  (∀ j, fl_closers f !! j = Some CDone → fl_active g = ∅).
Proof.
  intros Hmax Hr Hg.
  assert (∀ a b, flight_ok max_total a → rtc (flight_step (P := P) max_total) a b → flight_ok max_total b) as Hinv.
  { intros a b Ha Hab. induction Hab; eauto using flight_step_ok. }
  assert (flight_ok (P := P) max_total flight_init) as H0 by (split; simpl; try done; lia).
  assert (flight_ok max_total f) as Hf by (by eapply Hinv). pose proof Hf as [Hc Hb Hcl Hw Hd]. split_and!.
  - done.
  - intros Hne. specialize (Hb Hne Hmax). lia.
  - intros j Hj. apply Hw, set_choose_L in Hj. done.
  - intros j Hj i Hi. assert (fl_closers f ≠ ∅) as Hne by (intros He; by rewrite He, lookup_empty in Hj).
    destruct (Hcl Hne) as [_ [b Hev]]. rewrite Hi, size_singleton in Hc. unfold leave, release_inflight. rewrite Hc. simpl. rewrite Hev. simpl.
    by rewrite lookup_fmap, Hj.
  - intros j Hj. assert (flight_ok max_total g) as [_ _ _ _ Hdg] by (by eapply Hinv). apply (Hdg j). clear - Hj Hg.
    induction Hg as [|a b d Hab _ IH]; [done|]. apply IH. destruct Hab as [| | |j' ? Hn|j' ? Ht]; simpl; [done| |done|..].
    + case_match; [|done]. by rewrite lookup_fmap, Hj.
    + rewrite lookup_insert_ne; [done|congruence].
    + unfold aclose_run. case_bool_decide; simpl; (rewrite lookup_insert_ne; [done|congruence]).
Qed.

(** ** Example: [aclose] with a request in flight. *)

Lemma client_barrier_witness :
  ∃ f g : flight nat, flight_reachable 2 f ∧ fl_closers f !! 0 = Some CWaiting ∧ flight_reachable 2 g ∧ fl_closers g !! 0 = Some CDone ∧
    (∃ i, i ∈ fl_active f) ∧ fl_active g = ∅.
Proof.
  set (c1 := cl_set_flight 1 None client_init : client nat).
  set (f1 := mkFlight c1 ({[5]} ∪ ∅) ∅ : flight nat).
  assert (flight_reachable 2 f1) as H1 by (eapply rtc_once, (FsEnter 2 5 c1 flight_init); [set_solver|reflexivity]).
  set (f2 := aclose_run 0 (aclose_start 0 f1)). assert (flight_reachable 2 f2) as H2.
  { eapply rtc_r; [eapply rtc_r; [exact H1|by apply (FsAclose 2 0 f1)]|]. apply (FsRun 2 0). reflexivity. }
  set (g := aclose_run 0 (leave 5 f2)). assert (rtc (flight_step 2) f2 g) as Hg.
  { eapply rtc_l; [apply (FsLeave 2 5 f2); simpl; set_solver|]. eapply rtc_once, (FsRun 2 0). reflexivity. }
  assert (flight_reachable 2 g) as Hrg by (unfold flight_reachable; by etrans).
  exists f2, g. split_and!; [done|reflexivity|done|reflexivity|..].
  - destruct (client_barrier 2 f2 f2) as (_ & _ & Hw & _); [done|done|done|]. by apply (Hw 0).
  - destruct (client_barrier 2 g g) as (_ & _ & _ & _ & Hd); [done|done|done|]. by apply (Hd 0).
Defined.
