(* ===== verification/WaitForM.v ===== *)
(** * WaitForM: sleeping, and waiting with a timeout

    [src/include/coro/sleep.hpp] over the class [Runtime] and the timer heap, and [wait_for] of
    [src/include/coro/wait.hpp]: the coroutine [wait_for], the timer coroutine that points into
    its frame, and the task they race for, as steps of one loop (file [TaskM] has the frames,
    file [AwaitM] what a cancellation does to an await). *)

From S2P Require Import Prelude ReadyQueue Timers Frames EventLoop Runtime JoinM.
From stdpp Require Import options.
#[local] Set Default Proof Using "Type*".

(** ** Sleeping *)

Section sleep.
Context {W : Type} `{Runtime W}.
Implicit Types (w : W) (h : handle).

(** [sleep(d)]: the deadline of the awaiter. *)
Definition sleep_deadline (d : Z) w : Z := (rt_now w + d)%Z.

(** [await_suspend], with the location of the new token. *)
Definition sleep_await_suspend (tok : loc) h (deadline : Z) w : W :=
  rt_schedule_timer h deadline (Some tok) None 0 (rt_set_cells (flag_store tok false (rt_cells w)) w).

(** [await_resume] and the destructor: the token is set, if there is one. *)
Definition sleep_consume (tok : option loc) w : W :=
  match tok with Some t => rt_set_cells (flag_store t true (rt_cells w)) w | None => w end.

(** [yield_awaiter::await_suspend]. *)
Definition yield_await_suspend h w : W := rt_schedule (rt_loop w) h w.
End sleep.

(** ** The entry of a sleep in the heap *)

Definition sleep_entry (tok : loc) (re : ReadyEntry) (deadline : Z) : TimerEntry := mkTimerEntry deadline re (Some tok) None 0.

Lemma fire_all_mono es c ex re : re ∈ ex → re ∈ (fire_all c es ex).2.
Proof.
  revert c ex. induction es as [|x es IH]; intros c ex Hx; [done|]. unfold fire_all. cbn [foldl]. cbn [fst snd].
  assert (re ∈ (th_fire c x ex).2) as Hf.
  { unfold th_fire. destruct (te_stale c x); [done|]. destruct (te_outcome x); [destruct (int_cas _ _ _ _) as [[] ?]|]; simpl; set_solver. }
  destruct (th_fire c x ex) as [c' ex']. by apply IH.
Qed.

Lemma fire_all_elem e es c ex : e ∈ es → te_outcome e = None → te_live c e → te_entry e ∈ (fire_all c es ex).2.
Proof.
  intros Hin. revert c ex. induction Hin as [e es|e x es Hin IH]; intros c ex Ho Hl; unfold fire_all; cbn [foldl]; cbn [fst snd].
  - unfold th_fire at 2. rewrite Hl, Ho. apply fire_all_mono. set_solver.
  - pose proof (te_stale_fire c x e ex) as Hs. destruct (th_fire c x ex) as [c' ex']. apply IH; [done|]. unfold te_live. by rewrite <- Hl, <- Hs.
Qed.

(** A sleeping coroutine is resumed by the first drain at or after its deadline and by none before it; once
    the awaiter has been resumed or destroyed, by a cancellation, say, no drain takes its entry. *)
Theorem sleep_fires `{MinSelect} tok h deadline (w : world) g now c' t' ex :
  h ≠ null_handle → ft_generation_of h (el_frames (w_loops w (w_cur w))) = Some g →
  let e := sleep_entry tok (mkReadyEntry h g) deadline in
  let w1 := sleep_await_suspend tok h deadline w in
  let timers w := el_timers (w_loops w (w_cur w)) in
  e ∈ th_heap (timers w1) ∧
  (th_drain now (w_cells w1) (timers w1) [] = (c', t', ex) →
     if decide (deadline ≤ now)%Z then te_entry e ∈ ex else e ∈ th_heap t') ∧
  (th_drain now (w_cells (sleep_consume (Some tok) w1)) (timers (sleep_consume (Some tok) w1)) [] = (c', t', ex) →
     ∃ due, fire_all (w_cells (sleep_consume (Some tok) w1)) due [] = (c', ex) ∧ e ∉ due).
Proof.
  intros Hh Hg. cbv zeta. set (e := sleep_entry tok (mkReadyEntry h g) deadline). set (w1 := sleep_await_suspend tok h deadline w).
  assert (th_heap (el_timers (w_loops w1 (w_cur w1))) = e :: th_heap (el_timers (w_loops w (w_cur w)))) as Hheap.
  { unfold w1, sleep_await_suspend. simpl. rewrite decide_True by done. unfold el_schedule_timer. simpl.
    by rewrite decide_False, Hg by done. }
  assert (e ∈ th_heap (el_timers (w_loops w1 (w_cur w1)))) as Hin by (rewrite Hheap; by left).
  assert (te_live (w_cells w1) e) as Hlive by (unfold te_live, te_stale; simpl; apply flag_load_store_eq).
  split; [done|]. split; intros Hd; apply th_drain_takes in Hd as ((due & _ & Hdue & Hfire) & Hpend & _).
  - case_decide as Hdl.
    + assert (e ∈ due) as Hed.
      { rewrite Hdue. apply list_elem_of_filter. split; [split; [done|]|done]. unfold te_due. simpl. by apply Z.leb_le. }
      pose proof (fire_all_elem e due (w_cells w1) [] Hed eq_refl Hlive) as Hx. by rewrite Hfire in Hx.
    + assert (e ∈ filter (te_live (w_cells w1)) (th_heap t')) as He.
      { rewrite Hpend. apply list_elem_of_filter. split; [split; [done|]|done]. unfold te_due. simpl. apply Z.leb_gt. lia. }
      by apply list_elem_of_filter in He as [_ ?].
  - exists due. split; [done|]. rewrite Hdue. intros [[Hst _] _]%list_elem_of_filter. unfold te_stale in Hst. simpl in Hst.
    by rewrite flag_load_store_eq in Hst.
Qed.

(** ** [wait_for]

    The coroutine [wait_for] suspends once, in [co_await task]; the timer coroutine once, in
    [sleep].  A frame is queued, suspended or gone; a queued frame that was abandoned is destroyed
    by the loop when its turn comes ([RunLoop]). *)

Inductive timer_frame : Type :=
  | TmStarting                     (* queued by [start] *)
  | TmSleeping
  | TmQueued                       (* expired or cancelled, to be resumed *)
  | TmGone.
#[export] Instance timer_frame_eq_dec : EqDecision timer_frame.
Proof. solve_decision. Defined.

Section wait_for.
Context {T : Type}.

Inductive outer_frame : Type :=
  | OwAwaiting
  | OwQueued
  | OwReturned (r : res T)
  | OwDestroyed.

Record race : Type := mkRace {
  rc_task : option (res T);        (* how the task has ended *)
  rc_task_cancelled : bool;        (* [task.cancel()] was called by the timer *)
  rc_timed_out : bool;
  rc_timer : timer_frame;
  rc_timer_cancelled : bool;
  rc_timer_abandoned : bool;
  rc_outer : outer_frame;
  rc_outer_cancelled : bool;
  rc_dangling : bool;              (* the timer has followed [task] after the frame that holds it was gone *)
}.
Implicit Types (s : race).

(** [wait_for] up to its suspension; the task may have ended before. *)
Definition race_start (ended : option (res T)) : race :=
  mkRace ended false false TmStarting false false (match ended with Some _ => OwQueued | None => OwAwaiting end) false false.

Definition outer_alive s : bool := match rc_outer s with OwAwaiting | OwQueued => true | _ => false end.

(** The end of the task schedules its continuation. *)
Definition task_ends (o : res T) s : race :=
  mkRace (Some o) (rc_task_cancelled s) (rc_timed_out s) (rc_timer s) (rc_timer_cancelled s) (rc_timer_abandoned s)
    (match rc_outer s with OwAwaiting => OwQueued | x => x end) (rc_outer_cancelled s) (rc_dangling s).

Definition rc_set_timer t s : race :=
  mkRace (rc_task s) (rc_task_cancelled s) (rc_timed_out s) t (rc_timer_cancelled s) (rc_timer_abandoned s) (rc_outer s)
    (rc_outer_cancelled s) (rc_dangling s).
Definition rc_set_outer x s : race :=
  mkRace (rc_task s) (rc_task_cancelled s) (rc_timed_out s) (rc_timer s) (rc_timer_cancelled s) (rc_timer_abandoned s) x
    (rc_outer_cancelled s) (rc_dangling s).

(** [timer.cancel()] and [timer.detach()]: a sleeping timer is queued with its flag set. *)
Definition timer_cancel_detach s : race :=
  mkRace (rc_task s) (rc_task_cancelled s) (rc_timed_out s)
    (match rc_timer s with TmSleeping => TmQueued | t => t end)
    (match rc_timer s with TmGone => rc_timer_cancelled s | _ => true end)
    (rc_timer_abandoned s) (rc_outer s) (rc_outer_cancelled s) (rc_dangling s).

(** The destructor of [timer]: a suspended frame is destroyed, a queued one abandoned. *)
Definition timer_destroyed s : race :=
  mkRace (rc_task s) (rc_task_cancelled s) (rc_timed_out s)
    (match rc_timer s with TmSleeping => TmGone | t => t end) (rc_timer_cancelled s)
    (match rc_timer s with TmStarting | TmQueued => true | _ => rc_timer_abandoned s end)
    (rc_outer s) (rc_outer_cancelled s) (rc_dangling s).

(** [timed_out->store(true)] and [task->cancel()]. *)
Definition timer_expires s : race :=
  mkRace (rc_task s) (bool_decide (rc_task s = None) || rc_task_cancelled s) true TmGone (rc_timer_cancelled s) (rc_timer_abandoned s)
    (rc_outer s) (rc_outer_cancelled s) (rc_dangling s || negb (outer_alive s)).

(** The turn of the timer's frame. *)
Definition timer_turn s : race :=
  match rc_timer s with
  | TmStarting => rc_set_timer (if rc_timer_abandoned s || rc_timer_cancelled s then TmGone else TmSleeping) s
  | TmQueued => if rc_timer_abandoned s || rc_timer_cancelled s then rc_set_timer TmGone s else timer_expires s
  | TmSleeping | TmGone => s
  end.

(** The turn of [wait_for]: what its await gives ([AwaitM]: a cancellation comes first), and the two exits. *)
Definition outer_turn s : option race :=
  match rc_task s with
  | Some o => Some o
  | None => if rc_outer_cancelled s then Some (Throw CancelledError) else None
  end ≫= λ o,
  let o := if rc_outer_cancelled s then Throw CancelledError else o in
  let s := rc_set_outer (OwReturned (wait_for_answer o (rc_timed_out s))) s in
  Some (match o with Ok _ => timer_cancel_detach s | Throw _ => timer_destroyed s end).

(** Its caller cancels it. *)
Definition outer_cancel s : race :=
  mkRace (rc_task s) (rc_task_cancelled s) (rc_timed_out s) (rc_timer s) (rc_timer_cancelled s) (rc_timer_abandoned s)
    (match rc_outer s with OwAwaiting => OwQueued | x => x end) true (rc_dangling s).

Inductive race_step : race → race → Prop :=
  | RcTaskEnds o s : rc_task s = None → outer_alive s = true → race_step s (task_ends o s)
  | RcExpired s : rc_timer s = TmSleeping → race_step s (rc_set_timer TmQueued s)
  | RcTimerTurn s : race_step s (timer_turn s)
  | RcOuterTurn s s' : rc_outer s = OwQueued → outer_turn s = Some s' → race_step s s'
  | RcOuterCancel s : outer_alive s = true → race_step s (outer_cancel s)
  | RcOuterDestroyed s : outer_alive s = true → race_step s (timer_destroyed (rc_set_outer OwDestroyed s)).

Definition race_reachable s : Prop := ∃ ended, rtc race_step (race_start ended) s.

(** What an answer means. *)
Definition answer_ok s (r : res T) : Prop :=
  ∃ o timed_out, r = wait_for_answer o timed_out ∧
    (if rc_outer_cancelled s then o = Throw CancelledError else rc_task s = Some o) ∧
    (timed_out = true → rc_timed_out s = true ∧ (rc_task_cancelled s = true ∨ rc_task s ≠ None)).

Record race_ok s : Prop := {
  ra_safe : rc_dangling s = false;
  ra_gone : outer_alive s = false →
    rc_timer s ≠ TmSleeping ∧ (rc_timer s = TmGone ∨ rc_timer_cancelled s = true ∨ rc_timer_abandoned s = true);
  ra_out : rc_timed_out s = true → rc_timer s = TmGone ∧ (rc_task_cancelled s = true ∨ rc_task s ≠ None);
  ra_flags : outer_alive s = true → rc_timer_cancelled s = false ∧ rc_timer_abandoned s = false;
  ra_queued : rc_outer s = OwQueued → rc_task s ≠ None ∨ rc_outer_cancelled s = true;
  ra_awaiting : rc_outer s = OwAwaiting → rc_task s = None ∧ rc_outer_cancelled s = false;
  ra_expire : rc_timer s = TmGone → outer_alive s = true → rc_timed_out s = true;
  ra_answer : ∀ r, rc_outer s = OwReturned r → answer_ok s r;
}.

Lemma race_start_ok ended : race_ok (race_start ended).
Proof. destruct ended; split; simpl; try done. intros _. by left. Qed.

Lemma answer_ok_ext s s' r :
  rc_task s' = rc_task s → rc_outer_cancelled s' = rc_outer_cancelled s → rc_timed_out s' = rc_timed_out s →
  rc_task_cancelled s' = rc_task_cancelled s → answer_ok s r → answer_ok s' r.
Proof. intros H1 H2 H3 H4 (o & b & Hr & Ho & Hb). exists o, b. by rewrite H1, H2, H3, H4. Qed.

Lemma timer_turn_ok s : race_ok s → race_ok (timer_turn s).
Proof.
  intros [Hs Hg Ho Hf Hq Ha He Hr]. unfold timer_turn. destruct (rc_timer s) eqn:Ht; [| |..|].
  - destruct (_ || _) eqn:Hb; (split; [done|..|done]); simpl; intros Hx; intros; try by auto.
    + by destruct (Ho Hx).
    + destruct (Hf H) as [H1 H2]. by rewrite H1, H2 in Hb.
    + destruct (Hg Hx) as [_ Hy]. apply orb_false_iff in Hb as [Hb1 Hb2]. by destruct Hy as [?|[?|?]]; congruence.
    + by destruct (Ho Hx).
  - by split; rewrite ?Ht.
  - destruct (_ || _) eqn:Hb.
    + split; [done|..|done]; simpl; intros Hx; intros; try by auto.
      * by destruct (Ho Hx).
      * destruct (Hf H) as [H1 H2]. by rewrite H1, H2 in Hb.
    + apply orb_false_iff in Hb as [Hb1 Hb2].
      assert (outer_alive s = true) as Hal.
      { destruct (outer_alive s) eqn:Hal; [done|]. destruct (Hg eq_refl) as [_ [?|[?|?]]]; congruence. }
      split; simpl; try done.
      * by rewrite Hs, Hal.
      * intros Hx. unfold outer_alive in *. simpl in *. congruence.
      * intros _. split; [done|]. case_bool_decide; [by left|by right].
      * intros r Hx. unfold outer_alive in Hal. by rewrite Hx in Hal.
  - by split; rewrite ?Ht.
Qed.

(** [wait_for] returns: the timer is cancelled and detached, or its owner goes. *)
Lemma return_ok (b : bool) r s :
  race_ok s → outer_alive s = true → answer_ok s r →
  race_ok (if b then timer_cancel_detach (rc_set_outer (OwReturned r) s) else timer_destroyed (rc_set_outer (OwReturned r) s)).
Proof.
  intros [Hs Hg Ho Hf Hq Ha He Hr] Hal Hans. destruct b; (split; simpl; try done).
  - intros _. destruct (rc_timer s); (split; [done|]); auto.
  - intros Hx. destruct (Ho Hx) as [-> ?]. done.
  - intros r' [= <-]. exact Hans.
  - intros _. destruct (rc_timer s); (split; [done|]); auto.
  - intros Hx. destruct (Ho Hx) as [-> ?]. done.
  - intros r' [= <-]. exact Hans.
Qed.

Lemma outer_turn_ok s s' : race_ok s → rc_outer s = OwQueued → outer_turn s = Some s' → race_ok s'.
Proof.
  intros Hok Hq. assert (outer_alive s = true) as Hal by (unfold outer_alive; by rewrite Hq).
  unfold outer_turn. destruct (match rc_task s with Some o => _ | None => _ end) as [o|] eqn:Ho; [|done]. simpl. intros [= <-].
  set (o' := if rc_outer_cancelled s then Throw CancelledError else o).
  assert (answer_ok s (wait_for_answer o' (rc_timed_out s))) as Hans.
  { exists o', (rc_timed_out s). split; [done|]. split; [|intros Ht; by destruct (ra_out _ Hok Ht)].
    unfold o'. destruct (rc_outer_cancelled s); [done|]. by destruct (rc_task s). }
  destruct o'; [apply (return_ok true)|apply (return_ok false)]; done.
Qed.

Lemma race_step_ok s s' : race_ok s → race_step s s' → race_ok s'.
Proof.
  intros Hok Hst. destruct Hst as [o s Hn Hal|s Ht|s|s s' Hq Ht|s Hal|s Hal].
  - destruct Hok as [Hs Hg Ho Hf Hq Ha He Hr]. unfold outer_alive in *.
    destruct (rc_outer s) eqn:Hx; try done; (split; unfold outer_alive; simpl; rewrite ?Hx; try done).
    all: try by auto. all: try (by intros; left). all: intros Hy; destruct (Ho Hy) as [? _]; by split; [|right].
  - destruct Hok as [Hs Hg Ho Hf Hq Ha He Hr]. split; simpl; try done.
    + intros Hx. destruct (Hg Hx) as [? _]. congruence.
    + intros Hx. destruct (Ho Hx) as [? _]. congruence.
  - by apply timer_turn_ok.
  - by eapply outer_turn_ok.
  - destruct Hok as [Hs Hg Ho Hf Hq Ha He Hr]. unfold outer_alive in *.
    destruct (rc_outer s) eqn:Hx; try done; (split; unfold outer_alive; simpl; rewrite ?Hx; try done).
    all: try by auto. all: by intros; right.
  - destruct Hok as [Hs Hg Ho Hf Hq Ha He Hr]. split; simpl; try done.
    + intros _. destruct (rc_timer s); (split; [done|]); auto.
    + intros Hx. destruct (Ho Hx) as [-> ?]. done.
Qed.
End wait_for.

(** The race of a task against its timeout, in every order in which the task ends, the timer expires, the
    frames take their turns and the caller cancels or drops the wait: the timer never reaches into
    a frame that is gone, and does not stay in the heap once the wait is over; a value that the
    task has delivered to an uncancelled wait is the answer, even if the timer expired before it was
    read; [TimeoutError] needs an expired timer (or a task that throws it), and a timeout has
    cancelled the task unless it had ended. *)
Theorem wait_for_race {T} (s : race (T := T)) :
  race_reachable s →
  rc_dangling s = false ∧
  (outer_alive s = false → rc_timer s ≠ TmSleeping) ∧
  (rc_timed_out s = true → rc_task_cancelled s = true ∨ rc_task s ≠ None) ∧
  (∀ r, rc_outer s = OwReturned r →
     (∀ v, r = Ok v ↔ rc_outer_cancelled s = false ∧ rc_task s = Some (Ok v)) ∧
     (r = Throw TimeoutError → rc_timed_out s = true ∨ rc_task s = Some (Throw TimeoutError)) ∧
     (r = Throw CancelledError → rc_outer_cancelled s = true ∨ rc_task s = Some (Throw CancelledError))).
Proof.
  intros [ended Hr]. assert (race_ok s) as [Hs Hg Ho Hf Hq Ha He Hans].
  { pose proof (race_start_ok ended) as H0. revert H0. generalize dependent (race_start ended). intros s0 Hr H0.
    induction Hr; eauto using race_step_ok. }
  split_and!; [done|intros Hx; by destruct (Hg Hx)|intros Hx; by destruct (Ho Hx)|].
  intros r Hx. destruct (Hans r Hx) as (o & b & -> & Hot & Hb). unfold wait_for_answer.
  destruct (rc_outer_cancelled s); [subst o|]; (split_and!; [intros v; split|..]).
  1-4: destruct b; try done; intros; try (by left; apply Hb); try (by left); naive_solver.
  - destruct o as [v'|[]]; try done; [by intros [= ->]|by destruct b].
  - intros [_ Hv]. by simplify_eq.
  - destruct o as [v'|[]]; try done; [destruct b; [|done]; intros _; left; by apply Hb|intros _; by right].
  - destruct o as [v'|[]]; try done; destruct b; try done. intros _. by right.
Qed.

(** ** Examples *)

(** A sleep of 10 at the time 5, drained at 15. *)
Definition sleep_world : world :=
  mkWorld 1 9 5 (λ _, el_on_coroutine_started 9 (el_init 1 cv_init)) {| c_flags := ∅; c_ints := ∅ |}.

Lemma sleep_fires_witness :
  ∃ c' t' ex, let w1 := sleep_await_suspend 3 9 15 sleep_world in
    th_drain 15 (w_cells w1) (el_timers (w_loops w1 1)) [] = (c', t', ex) ∧ mkReadyEntry 9 1 ∈ ex.
Proof.
  cbv zeta. destruct (th_drain 15 (w_cells (sleep_await_suspend 3 9 15 sleep_world)) (el_timers (w_loops (sleep_await_suspend 3 9 15 sleep_world) 1)) [])
    as [[c' t'] ex] eqn:Hd.
  exists c', t', ex. split; [done|].
  destruct (sleep_fires 3 9 15 sleep_world 1 15 c' t' ex) as (_ & Hf & _); [done|reflexivity|]. specialize (Hf Hd). exact Hf.
Defined.

(** The timer wins and the task obeys the cancellation. *)
Definition timed_out_race : race (T := Z) :=
  mkRace (Some (Throw CancelledError)) true true TmGone false false (OwReturned (Throw TimeoutError)) false false.

Lemma timed_out_reachable : race_reachable timed_out_race.
Proof.
  exists None. eapply rtc_l; [apply RcTimerTurn|]. eapply rtc_l; [by apply RcExpired|]. eapply rtc_l; [apply RcTimerTurn|].
  eapply rtc_l; [by apply (RcTaskEnds (Throw CancelledError))|]. eapply rtc_once. by eapply RcOuterTurn.
Qed.

Lemma wait_for_race_witness :
  rc_dangling timed_out_race = false ∧ (rc_timed_out timed_out_race = true ∨ rc_task timed_out_race = Some (Throw TimeoutError)).
Proof.
  destruct (wait_for_race timed_out_race timed_out_reachable) as (Hd & _ & _ & Hr). split; [exact Hd|].
  destruct (Hr (Throw TimeoutError) eq_refl) as (_ & Ht & _). by apply Ht.
Defined.

(** A wait that its caller cancels reports [TimeoutError] when the timer, already queued, has its turn
    before the cancelled coroutine: the comment in the code wants [CancelledError] kept. *)
Lemma cancelled_reports_timeout :
  ∃ s s' : race (T := Z), race_reachable s ∧ rc_timed_out s = false ∧ rc_outer_cancelled s = true ∧
    rtc race_step s s' ∧ rc_outer s' = OwReturned (Throw TimeoutError).
Proof.
  eexists _, _. split_and!; [exists None| | | |].
  - eapply rtc_l; [apply RcTimerTurn|]. eapply rtc_l; [by apply RcExpired|]. eapply rtc_once. by apply RcOuterCancel.
  - reflexivity.
  - reflexivity.
  - eapply rtc_l; [apply RcTimerTurn|]. eapply rtc_once. by eapply RcOuterTurn.
  - reflexivity.
Qed.
