(* ===== verification/WatchEvents.v ===== *)
(** * WatchEvents: what the directory watchers of both platforms share

    The events of [src/include/coro/fs_watch.hpp] and the reading of the records that the
    kernels write: little-endian integers in a buffer of bytes.  A read outside of the
    buffer has no result. *)

From S2P Require Import Prelude.
From Stdlib Require Import Ascii.
From stdpp Require Import options.

Inductive watch_event_type : Type := created | removed | modified | renamed | overflow.

#[export] Instance watch_event_type_eq_dec : EqDecision watch_event_type.
Proof. solve_decision. Defined.

Record watch_event : Type := mkEvent {
  ev_type : watch_event_type;
  ev_path : str;
  ev_old_path : str;
  ev_is_dir : bool;
}.

#[export] Instance watch_event_eq_dec : EqDecision watch_event.
Proof. solve_decision. Defined.

(** [watch_event{}]. *)
Definition default_event : watch_event := mkEvent modified [] [] false.
Definition overflow_event : watch_event := mkEvent overflow [] [] false.

(** [std::replace(s.begin(), s.end(), '\\', '/')]. *)
Definition to_slashes (s : str) : str := (λ c, if decide (c = "\"%char) then "/"%char else c) <$> s.

(** ** Little-endian integers in a buffer *)

Local Open Scope Z_scope.

Fixpoint le_val (bs : str) : Z :=
  match bs with [] => 0 | c :: bs => Z.of_nat (nat_of_ascii c) + 256 * le_val bs end.

Fixpoint le_bytes (n : nat) (z : Z) : str :=
  match n with O => [] | S n => ascii_of_nat (Z.to_nat (z `mod` 256)) :: le_bytes n (z `div` 256) end.

(** A 32-bit field at offset [off]. *)
Definition rd_u32 (buf : str) (off : nat) : option Z :=
  if decide (off + 4 ≤ length buf)%nat then Some (le_val (take 4 (drop off buf))) else None.

(** [len] bytes at offset [off]. *)
Definition rd_bytes (buf : str) (off len : nat) : option str :=
  if decide (off + len ≤ length buf)%nat then Some (take len (drop off buf)) else None.

Lemma length_le_bytes n z : length (le_bytes n z) = n.
Proof. revert z. induction n as [|n IH]; intros z; simpl; [done|by rewrite IH]. Qed.

Lemma nat_of_ascii_lt c : (nat_of_ascii c < 256)%nat.
Proof. destruct c as [[] [] [] [] [] [] [] []]; vm_compute; lia. Qed.

Lemma le_val_range bs : 0 ≤ le_val bs < 256 ^ Z.of_nat (length bs).
Proof.
  induction bs as [|c bs IH]; simpl le_val; simpl length; [simpl; lia|].
  pose proof (nat_of_ascii_lt c).
  rewrite Nat2Z.inj_succ, Z.pow_succ_r by lia. lia.
Qed.

Lemma le_val_bytes n z : 0 ≤ z < 256 ^ Z.of_nat n → le_val (le_bytes n z) = z.
Proof.
  revert z. induction n as [|n IH]; intros z Hz.
  - simpl in *. lia.
  - rewrite Nat2Z.inj_succ, Z.pow_succ_r in Hz by lia.
    cbn [le_bytes le_val]. rewrite IH by (split; [apply Z.div_pos; lia|apply Z.div_lt_upper_bound; lia]).
    pose proof (Z.mod_pos_bound z 256 ltac:(lia)).
    rewrite nat_ascii_embedding by lia. rewrite Z2Nat.id by lia.
    pose proof (Z.div_mod z 256 ltac:(lia)). lia.
Qed.

Lemma rd_u32_range buf off v : rd_u32 buf off = Some v → 0 ≤ v < u32_modulus.
Proof.
  unfold rd_u32. intros H. case_decide; simplify_eq. pose proof (le_val_range (take 4 (drop off buf))) as Hr.
  rewrite length_take, length_drop in Hr. replace (4 `min` (length buf - off))%nat with 4%nat in Hr by lia. done.
Qed.

Lemma rd_u32_some buf off : (off + 4 ≤ length buf)%nat → ∃ v, rd_u32 buf off = Some v.
Proof. intros H. unfold rd_u32. rewrite decide_True by done. by eexists. Qed.

Lemma rd_bytes_some buf off len : (off + len ≤ length buf)%nat → ∃ s, rd_bytes buf off len = Some s.
Proof. intros H. unfold rd_bytes. rewrite decide_True by done. by eexists. Qed.

(** What was written at an offset is read there. *)
Lemma rd_u32_at (buf pre : str) (z : Z) (post : str) (off : nat) :
  buf = pre ++ le_bytes 4 z ++ post → off = length pre → 0 ≤ z < u32_modulus → rd_u32 buf off = Some z.
Proof.
  intros -> -> Hz. unfold rd_u32. pose proof (length_le_bytes 4 z).
  rewrite decide_True by (rewrite !length_app; lia).
  rewrite drop_app_length, take_app_length' by lia. by rewrite le_val_bytes.
Qed.

Lemma rd_bytes_at (buf pre s post : str) (off len : nat) :
  buf = pre ++ s ++ post → off = length pre → len = length s → rd_bytes buf off len = Some s.
Proof.
  intros -> -> ->. unfold rd_bytes. rewrite decide_True by (rewrite !length_app; lia).
  by rewrite drop_app_length, take_app_length.
Qed.
