(* ===== verification/FsWatchWin.v ===== *)
(** * FsWatchWin: the directory watcher of Windows

    [DirectoryWatcher] of [src/include/coro/fs_watch.hpp] for Windows: the parser of the chain
    of [FILE_NOTIFY_INFORMATION] records that a completed [ReadDirectoryChangesW] leaves in the
    buffer, the pairing of the two halves of a rename over batches, and [next].

    The conversion of names to UTF-8 is a call of the system and a parameter.  The buffer is
    the part of [event_buf_] that the completion reported; a read outside of it has no result. *)

From S2P Require Import Prelude WatchEvents.
From Stdlib Require Import Ascii.
From stdpp Require Import options.
#[local] Set Default Proof Using "Type*".

Local Open Scope Z_scope.

Definition ERROR_INVALID_HANDLE : Z := 6.
Definition ERROR_INVALID_DATA : Z := 13.
Definition ERROR_NOT_SUPPORTED : Z := 50.
Definition ERROR_NOTIFY_ENUM_DIR : Z := 1022.

Definition FILE_ACTION_ADDED : Z := 1.
Definition FILE_ACTION_REMOVED : Z := 2.
Definition FILE_ACTION_MODIFIED : Z := 3.
Definition FILE_ACTION_RENAMED_OLD_NAME : Z := 4.
Definition FILE_ACTION_RENAMED_NEW_NAME : Z := 5.

(** [offsetof(FILE_NOTIFY_INFORMATION, FileName)]: three [DWORD]s come before the name. *)
Definition header_size : nat := 12.
Definition event_buf_size : Z := 4096.

(** The calls on the directory handle. *)
Inductive dir_call : Type := CancelIoEx | CloseHandle.

Record win_watcher : Type := mkWin {
  dir_valid : bool;               (* dir_ != INVALID_HANDLE_VALUE *)
  recursive_ : bool;
  pending_ : list watch_event;
  pending_rename_old_ : str;
  terminal_error_ : Z;
  win_io_error : Z;               (* io::last_error() *)
  dir_calls : list dir_call;
}.

Implicit Types (s : win_watcher) (buf name : str) (p off : nat).

Definition ww_set_pending l s : win_watcher :=
  mkWin (dir_valid s) (recursive_ s) l (pending_rename_old_ s) (terminal_error_ s) (win_io_error s) (dir_calls s).
Definition ww_push ev s : win_watcher := ww_set_pending (pending_ s ++ [ev]) s.
Definition ww_set_old old s : win_watcher :=
  mkWin (dir_valid s) (recursive_ s) (pending_ s) old (terminal_error_ s) (win_io_error s) (dir_calls s).
Definition win_set_error e s : win_watcher :=
  mkWin (dir_valid s) (recursive_ s) (pending_ s) (pending_rename_old_ s) (terminal_error_ s) e (dir_calls s).

Definition win_close s : win_watcher :=
  if dir_valid s then
    mkWin false (recursive_ s) (pending_ s) (pending_rename_old_ s) (terminal_error_ s) (win_io_error s)
      (dir_calls s ++ [CancelIoEx; CloseHandle])
  else s.

Definition win_fail (error : Z) s : win_watcher :=
  let s := mkWin (dir_valid s) (recursive_ s) [] (pending_rename_old_ s) error (win_io_error s) (dir_calls s) in
  win_set_error error (win_close s).

(** The constructor that takes a handle: [None] is no IOCP, [Some (Some e)] that it could not
    be associated. *)
Definition win_construct (valid recursive : bool) (iocp : option (option Z)) (io_error : Z) : win_watcher :=
  let s := mkWin valid recursive [] [] 0 io_error [] in
  if valid then
    match iocp with
    | None => win_fail ERROR_NOT_SUPPORTED s
    | Some (Some e) => win_fail e s
    | Some None => s
    end
  else s.

(** Move construction: the new object and what is left of the source. *)
Definition win_moved_from s : win_watcher :=
  mkWin false (recursive_ s) [] [] 0 (win_io_error s) [].
Definition win_move_assign (target source : win_watcher) : win_watcher * win_watcher :=
  let target := win_close target in
  (mkWin (dir_valid source) (recursive_ source) (pending_ source) (pending_rename_old_ source) (terminal_error_ source)
     (win_io_error target) (dir_calls source), win_moved_from source).

Definition pop_pending s : option (watch_event * win_watcher) :=
  match pending_ s with [] => None | ev :: l => Some (ev, ww_set_pending l s) end.

(** ** One record *)

(** An old name that the next record does not pair with was a removal. *)
Definition win_unpaired (action : Z) s : win_watcher :=
  if decide (action ≠ FILE_ACTION_RENAMED_NEW_NAME) then
    match pending_rename_old_ s with
    | [] => s
    | old => ww_set_old [] (ww_push (mkEvent removed old [] false) s)
    end
  else s.

(** The [switch] on the action, and [pending_.push_back]. *)
Definition win_action (action : Z) name s : win_watcher :=
  if decide (action = FILE_ACTION_ADDED) then ww_push (mkEvent created name [] false) s
  else if decide (action = FILE_ACTION_REMOVED) then ww_push (mkEvent removed name [] false) s
  else if decide (action = FILE_ACTION_MODIFIED) then ww_push (mkEvent modified name [] false) s
  else if decide (action = FILE_ACTION_RENAMED_OLD_NAME) then
    let s := match pending_rename_old_ s with [] => s | old => ww_push (mkEvent removed old [] false) s end in
    ww_set_old name s
  else if decide (action = FILE_ACTION_RENAMED_NEW_NAME) then
    match pending_rename_old_ s with
    | [] => ww_push (mkEvent created name [] false) s
    | old => ww_push (mkEvent renamed name old false) (ww_set_old [] s)
    end
  else s.

Definition win_record (action : Z) name s : win_watcher := win_action action name (win_unpaired action s).

(** ** The buffer *)

Section win.
Context (WideCharToMultiByte : str → option str).

Definition wide_to_utf8 (ws : str) : str :=
  match WideCharToMultiByte ws with Some s => s | None => [] end.

Definition win_name (ws : str) : str := to_slashes (wide_to_utf8 ws).

(** One round of the loop of [parse_records] at offset [p]: the state, and where the next record
    is.  [None] is a read outside of the buffer. *)
Definition parse_one buf p s : option (win_watcher * option nat) :=
  let left := (length buf - p)%nat in
  if decide (left < header_size)%nat then Some (win_fail ERROR_INVALID_DATA s, None) else
  len ← rd_u32 buf (p + 8);
  if decide (len `mod` 2 ≠ 0 ∨ Z.of_nat (left - header_size) < len) then Some (win_fail ERROR_INVALID_DATA s, None) else
  ws ← rd_bytes buf (p + header_size) (Z.to_nat len);
  action ← rd_u32 buf (p + 4);
  let s := win_record action (win_name ws) s in
  next ← rd_u32 buf p;
  if decide (next = 0) then Some (s, None)
  else if decide (next < Z.of_nat header_size + len ∨ Z.of_nat left ≤ next ∨ next `mod` 4 ≠ 0) then
    Some (win_fail ERROR_INVALID_DATA s, None)
  else Some (s, Some (p + Z.to_nat next)%nat).

Fixpoint parse_loop (fuel : nat) buf p s : option win_watcher :=
  match fuel with
  | O => None
  | S fuel =>
      '(s, next) ← parse_one buf p s;
      match next with None => Some s | Some p => parse_loop fuel buf p s end
  end.

Definition parse_records buf (error bytes : Z) s : option win_watcher :=
  if decide (error = ERROR_NOTIFY_ENUM_DIR ∨ (error = 0 ∧ bytes = 0)) then Some (ww_push overflow_event s)
  else if decide (error ≠ 0 ∨ event_buf_size < bytes) then
    Some (win_fail (if decide (error ≠ 0) then error else ERROR_INVALID_DATA) s)
  else parse_loop (S (Z.to_nat bytes)) (take (Z.to_nat bytes) buf) 0 s.

(** ** [next] *)

(** A completed [changes_awaiter]: what was in [event_buf_] and the result of the operation. *)
Record completion : Type := mkCompletion {
  co_buf : str;
  co_error : Z;
  co_transferred : Z;
}.

(** [await_suspend]: without an IOCP, or when the call fails at once, the coroutine is scheduled
    with the error; otherwise the completion decides. *)
Definition changes_suspend (iocp : bool) (failed : option Z) (done : completion) : completion :=
  if iocp then match failed with Some e => mkCompletion [] e 0 | None => done end
  else mkCompletion [] ERROR_NOT_SUPPORTED 0.

Inductive next_outcome : Type :=
  | Returned (ev : watch_event) (s : win_watcher) (rest : list completion)
  | Awaiting (s : win_watcher)
  | OutOfBounds.

(** [next], given the completions that its awaits will get. *)
Fixpoint win_next s (cs : list completion) : next_outcome :=
  match pop_pending s with
  | Some (ev, s) => Returned ev s cs
  | None =>
      if dir_valid s then
        match cs with
        | [] => Awaiting s
        | c :: cs =>
            match parse_records (co_buf c) (co_error c) (co_transferred c) s with
            | Some s => win_next s cs
            | None => OutOfBounds
            end
        end
      else
        Returned default_event
          (win_set_error (if decide (terminal_error_ s = 0) then ERROR_INVALID_HANDLE else terminal_error_ s) s) cs
  end.
End win.

(** ** Safety of the parser *)

Section safety.
Context (WideCharToMultiByte : str → option str).

(** The watcher has failed: it is closed, and nothing is left to deliver. *)
Definition win_failed s : Prop := dir_valid s = false ∧ pending_ s = [] ∧ terminal_error_ s ≠ 0.

(** The watcher goes on: events were only added. *)
Definition win_extends s s' : Prop :=
  dir_valid s' = dir_valid s ∧ terminal_error_ s' = terminal_error_ s ∧ pending_ s `prefix_of` pending_ s'.

Lemma win_fail_failed e s : e ≠ 0 → win_failed (win_fail e s).
Proof.
  intros He. unfold win_fail, win_failed, win_close, win_set_error; simpl.
  by destruct (dir_valid s) eqn:Hv; simpl.
Qed.

Lemma win_extends_refl s : win_extends s s.
Proof. by repeat split. Qed.
Lemma win_extends_trans s1 s2 s3 : win_extends s1 s2 → win_extends s2 s3 → win_extends s1 s3.
Proof. intros (?&?&?) (?&?&?). repeat split; [congruence|congruence|by etrans]. Qed.

Lemma win_extends_push ev old s : win_extends s (ww_set_old old (ww_push ev s)).
Proof. repeat split. simpl. by apply prefix_app_r. Qed.

Lemma win_record_extends action name s : win_extends s (win_record action name s).
Proof.
  unfold win_record, win_action, win_unpaired, win_extends, ww_push, ww_set_old, ww_set_pending.
  repeat (case_decide || case_match; simplify_eq/=); rewrite <- ?app_assoc; eauto using prefix_app_r.
Qed.

(** What one round does: it stays in the buffer, and either fails, or handles a record and
    goes on to an offset beyond it that is still inside. *)
Lemma parse_one_safe buf p s :
  (p ≤ length buf)%nat →
  ∃ s' next, parse_one WideCharToMultiByte buf p s = Some (s', next) ∧
    (win_failed s' ∧ next = None ∨
     win_extends s s' ∧ match next with None => True | Some q => (p + header_size ≤ q < length buf)%nat end).
Proof.
  intros Hp. unfold parse_one.
  case_decide as Hh; [eexists _, _; split; [done|left]; split; [by apply win_fail_failed|done]|].
  unfold header_size in *.
  destruct (rd_u32_some buf (p + 8)) as [len Hlen]; [lia|]. rewrite Hlen. simpl.
  pose proof (rd_u32_range _ _ _ Hlen) as Hr.
  case_decide as Hl; [eexists _, _; split; [done|left]; split; [by apply win_fail_failed|done]|].
  apply Decidable.not_or in Hl as [_ Hl].
  destruct (rd_bytes_some buf (p + 12) (Z.to_nat len)) as [ws ->]; [lia|]. simpl.
  destruct (rd_u32_some buf (p + 4)) as [action ->]; [lia|]. simpl.
  destruct (rd_u32_some buf p) as [next Hnext]; [lia|]. rewrite Hnext. simpl.
  pose proof (rd_u32_range _ _ _ Hnext) as Hn. pose proof (win_record_extends action (win_name WideCharToMultiByte ws) s).
  case_decide; [eexists _, _; split; [done|by right]|].
  case_decide as Hb; [eexists _, _; split; [done|left]; split; [by apply win_fail_failed|done]|].
  eexists _, _. split; [done|right]. split; [done|]. lia.
Qed.

Lemma parse_loop_safe fuel buf p s :
  (p ≤ length buf)%nat → (length buf - p < fuel)%nat →
  ∃ s', parse_loop WideCharToMultiByte fuel buf p s = Some s' ∧ (win_failed s' ∨ win_extends s s').
Proof.
  revert p s. induction fuel as [|fuel IH]; intros p s Hp Hf; [lia|]. simpl.
  destruct (parse_one_safe buf p s Hp) as (s1 & next & -> & Hs1). simpl.
  destruct next as [q|]; [|naive_solver].
  destruct Hs1 as [[_ ?]|[Hext Hq]]; [done|]. unfold header_size in Hq.
  destruct (IH q s1) as (s2 & -> & H2); [lia|lia|]. eexists; split; [done|].
  destruct H2; [by left|right]. by eapply win_extends_trans.
Qed.

(** Whatever the kernel left in the buffer, the parser ends, reads nothing outside of what the
    completion reported, and either closes the watcher with an error and drops what it had not
    delivered, or only adds events. *)
Theorem win_parse_safe buf error bytes s :
  Z.of_nat (length buf) = event_buf_size → 0 ≤ bytes →
  ∃ s', parse_records WideCharToMultiByte buf error bytes s = Some s' ∧ (win_failed s' ∨ win_extends s s').
Proof.
  intros Hbuf Hb. unfold parse_records.
  case_decide.
  { eexists; split; [done|right]. repeat split. by apply prefix_app_r. }
  case_decide as He.
  { eexists; split; [done|left]. apply win_fail_failed. by case_decide. }
  apply parse_loop_safe; [lia|]. rewrite length_take. lia.
Qed.
End safety.

(** ** The records of a batch *)

(** A record as the kernel writes it, the layout that [parse_records] relies on: each record but
    the last says where the next one begins, aligned to four bytes. *)
Record notify : Type := mkNotify { nt_action : Z; nt_name : str }.

Definition nt_wf (r : notify) : Prop :=
  0 ≤ nt_action r < u32_modulus ∧ Z.of_nat (length (nt_name r)) `mod` 2 = 0.

Definition nt_len (r : notify) : nat := (header_size + length (nt_name r))%nat.
Definition nt_pad (r : notify) : nat := ((4 - nt_len r `mod` 4) `mod` 4)%nat.

Definition nt_bytes (next : Z) (r : notify) : str :=
  le_bytes 4 next ++ le_bytes 4 (nt_action r) ++ le_bytes 4 (Z.of_nat (length (nt_name r))) ++ nt_name r.

Fixpoint win_encode (rs : list notify) : str :=
  match rs with
  | [] => []
  | r :: rs' =>
      match rs' with
      | [] => nt_bytes 0 r
      | _ => nt_bytes (Z.of_nat (nt_len r + nt_pad r)) r ++ replicate (nt_pad r) Ascii.zero ++ win_encode rs'
      end
  end.

Lemma length_nt_bytes next r : length (nt_bytes next r) = nt_len r.
Proof. unfold nt_bytes, nt_len, header_size. rewrite !length_app, !length_le_bytes. lia. Qed.

Lemma nt_padded r : Z.of_nat (nt_len r + nt_pad r) `mod` 4 = 0.
Proof.
  unfold nt_pad. rewrite Nat2Z.inj_add, Nat2Z.inj_mod, Nat2Z.inj_sub, Nat2Z.inj_mod.
  - simpl Z.of_nat at 3 4 5. Z.to_euclidean_division_equations. lia.
  - pose proof (Nat.mod_upper_bound (nt_len r) 4). lia.
Qed.

(** The fields of a record, where [parse_one] looks for them. *)
Lemma nt_fields pre next r post (buf := pre ++ nt_bytes next r ++ post) :
  0 ≤ next < u32_modulus → 0 ≤ nt_action r < u32_modulus → Z.of_nat (length (nt_name r)) < u32_modulus →
  rd_u32 buf (length pre) = Some next ∧ rd_u32 buf (length pre + 4) = Some (nt_action r) ∧
  rd_u32 buf (length pre + 8) = Some (Z.of_nat (length (nt_name r))) ∧
  rd_bytes buf (length pre + header_size) (length (nt_name r)) = Some (nt_name r).
Proof.
  intros Hn Ha Hl. unfold buf, nt_bytes, header_size. split_and!.
  - eapply (rd_u32_at _ pre); [by rewrite <- ?app_assoc|done..].
  - eapply (rd_u32_at _ (pre ++ le_bytes 4 next)); [by rewrite <- ?app_assoc| |done].
    by rewrite length_app, length_le_bytes.
  - eapply (rd_u32_at _ (pre ++ le_bytes 4 next ++ le_bytes 4 (nt_action r))); [by rewrite <- ?app_assoc| |lia].
    rewrite !length_app, !length_le_bytes. lia.
  - eapply (rd_bytes_at _ (pre ++ le_bytes 4 next ++ le_bytes 4 (nt_action r) ++ le_bytes 4 (Z.of_nat (length (nt_name r))))).
    + by rewrite <- ?app_assoc.
    + rewrite !length_app, !length_le_bytes. lia.
    + done.
Qed.

Section batches.
Context (WideCharToMultiByte : str → option str).
#[local] Abbreviation nt_text r := (win_name WideCharToMultiByte (nt_name r)).

Definition nt_record s (r : notify) : win_watcher := win_record (nt_action r) (nt_text r) s.

Lemma parse_one_bytes pre next r post s :
  nt_wf r → Z.of_nat (nt_len r + length post) < u32_modulus →
  next = 0 ∧ post = [] ∨
  next `mod` 4 = 0 ∧ Z.of_nat (nt_len r) ≤ next < Z.of_nat (nt_len r + length post) →
  parse_one WideCharToMultiByte (pre ++ nt_bytes next r ++ post) (length pre) s =
  Some (nt_record s r, if decide (next = 0) then None else Some (length pre + Z.to_nat next)%nat).
Proof.
  intros [Ha Heven] Hsmall Hnext.
  destruct (nt_fields pre next r post) as (H0 & H4 & H8 & H12); [unfold nt_len in *; lia..|].
  assert (Hlen : (length (pre ++ nt_bytes next r ++ post) - length pre = nt_len r + length post)%nat).
  { rewrite !length_app, length_nt_bytes. lia. }
  unfold parse_one. rewrite Hlen, H8. cbn [mbind option_bind]. rewrite Nat2Z.id, H12. cbn [mbind option_bind].
  rewrite H4. cbn [mbind option_bind]. rewrite H0. cbn [mbind option_bind]. clear H0 H4 H8 H12 Hlen.
  rewrite decide_False by (unfold nt_len; lia). rewrite decide_False by (unfold nt_len in *; lia).
  destruct (decide (next = 0)) as [H0|H0]; [done|].
  rewrite decide_False; [done|]. unfold nt_len in *. lia.
Qed.

Lemma win_encode_cons r rs :
  rs ≠ [] →
  win_encode (r :: rs) =
    nt_bytes (Z.of_nat (nt_len r + nt_pad r)) r ++ replicate (nt_pad r) Ascii.zero ++ win_encode rs.
Proof. by destruct rs. Qed.

Lemma win_encode_long rs : rs ≠ [] → (header_size * length rs ≤ length (win_encode rs))%nat ∧ (header_size ≤ length (win_encode rs))%nat.
Proof.
  induction rs as [|r rs IH]; intros Hne; [done|]. destruct (decide (rs = [])) as [->|Hrs].
  - cbn [win_encode]. rewrite length_nt_bytes. unfold nt_len. cbn [length]. lia.
  - rewrite win_encode_cons by done. rewrite !length_app, length_nt_bytes, length_replicate.
    destruct (IH Hrs). unfold nt_len. cbn [length]. lia.
Qed.

Lemma parse_loop_encode rs pre s fuel :
  rs ≠ [] → Forall nt_wf rs → Z.of_nat (length (win_encode rs)) < u32_modulus → (length rs ≤ fuel)%nat →
  parse_loop WideCharToMultiByte fuel (pre ++ win_encode rs) (length pre) s = Some (foldl nt_record s rs).
Proof.
  revert pre s fuel. induction rs as [|r rs IH]; intros pre s fuel Hne Hwf Hlen Hf; [done|].
  destruct fuel as [|fuel]; simpl in Hf; [lia|]. inversion_clear Hwf as [|?? Hr Hrs].
  destruct (decide (rs = [])) as [->|Hrsne].
  - cbn [win_encode] in *. rewrite length_nt_bytes in Hlen. cbn [parse_loop].
    replace (nt_bytes 0 r) with (nt_bytes 0 r ++ []) by apply app_nil_r.
    rewrite parse_one_bytes; [done|done|cbn [length]; lia|by left].
  - rewrite win_encode_cons in * by done. destruct (win_encode_long rs Hrsne) as [_ Hl].
    rewrite !length_app, length_nt_bytes, length_replicate in Hlen. cbn [parse_loop].
    rewrite parse_one_bytes; [|done|rewrite length_app, length_replicate; lia|].
    + rewrite decide_False by (unfold nt_len, header_size; lia). cbn [mbind option_bind].
      rewrite Nat2Z.id. set (front := nt_bytes (Z.of_nat (nt_len r + nt_pad r)) r ++ replicate (nt_pad r) Ascii.zero).
      assert (length front = (nt_len r + nt_pad r)%nat) as Hfr by (unfold front; by rewrite length_app, length_nt_bytes, length_replicate).
      rewrite (app_assoc (nt_bytes (Z.of_nat (nt_len r + nt_pad r)) r)). fold front. clearbody front.
      rewrite <- Hfr, <- length_app, (app_assoc pre).
      apply IH; [done|done|lia|lia].
    + right. rewrite length_app, length_replicate. split; [apply nt_padded|]. unfold header_size in *. lia.
Qed.

(** A completion that carries a batch of records. *)
Definition batch_completion (rest : str) (rs : list notify) : completion :=
  mkCompletion (win_encode rs ++ rest) 0 (Z.of_nat (length (win_encode rs))).

Definition batch_wf (rs : list notify) : Prop :=
  rs ≠ [] ∧ Forall nt_wf rs ∧ Z.of_nat (length (win_encode rs)) ≤ event_buf_size.

Lemma win_parse_batch rest rs s :
  batch_wf rs →
  parse_records WideCharToMultiByte (win_encode rs ++ rest) 0 (Z.of_nat (length (win_encode rs))) s =
  Some (foldl nt_record s rs).
Proof.
  intros (Hne & Hwf & Hlen). destruct (win_encode_long rs Hne). unfold header_size, event_buf_size in *.
  unfold parse_records. rewrite decide_False by (unfold ERROR_NOTIFY_ENUM_DIR; lia).
  rewrite decide_False by (unfold event_buf_size; lia). rewrite Nat2Z.id, take_app_length.
  apply (parse_loop_encode rs [] s); [done|done|unfold u32_modulus; lia|lia].
Qed.

(** ** What a consumer of the events should see *)

(** The event of a record that is no half of a rename. *)
Definition plain_events (action : Z) name : list watch_event :=
  if decide (action = FILE_ACTION_ADDED) then [mkEvent created name [] false]
  else if decide (action = FILE_ACTION_REMOVED) then [mkEvent removed name [] false]
  else if decide (action = FILE_ACTION_MODIFIED) then [mkEvent modified name [] false]
  else [].

(** The events of a stream of records: an old name followed by a new one is a rename, an old
    name followed by anything else is a removal, a new name without an old one is a creation. *)
Fixpoint translate (l : list notify) : list watch_event :=
  match l with
  | [] => []
  | r :: l =>
      let name := nt_text r in
      if decide (nt_action r = FILE_ACTION_RENAMED_OLD_NAME) then
        match l with
        | [] => []
        | r' :: l' =>
            if decide (nt_action r' = FILE_ACTION_RENAMED_NEW_NAME) then
              mkEvent renamed (nt_text r') name false :: translate l'
            else mkEvent removed name [] false :: translate l
        end
      else if decide (nt_action r = FILE_ACTION_RENAMED_NEW_NAME) then mkEvent created name [] false :: translate l
      else plain_events (nt_action r) name ++ translate l
  end.

(** The same with the old name that the watcher has kept from the batch before. *)
Definition translate_from (old : str) (l : list notify) : list watch_event :=
  match old with
  | [] => translate l
  | _ =>
      match l with
      | [] => []
      | r :: l' =>
          if decide (nt_action r = FILE_ACTION_RENAMED_NEW_NAME) then
            mkEvent renamed (nt_text r) old false :: translate l'
          else mkEvent removed old [] false :: translate l
      end
  end.

Lemma translate_old r l :
  nt_action r = FILE_ACTION_RENAMED_OLD_NAME → nt_text r ≠ [] →
  translate (r :: l) = translate_from (nt_text r) l.
Proof.
  intros Hr Hne. cbn [translate]. rewrite decide_True by done. unfold translate_from. by destruct (nt_text r).
Qed.

Lemma translate_new r l :
  nt_action r = FILE_ACTION_RENAMED_NEW_NAME →
  translate (r :: l) = mkEvent created (nt_text r) [] false :: translate l.
Proof. intros Hr. cbn [translate]. rewrite Hr. done. Qed.

Lemma translate_plain r l :
  nt_action r ≠ FILE_ACTION_RENAMED_OLD_NAME → nt_action r ≠ FILE_ACTION_RENAMED_NEW_NAME →
  translate (r :: l) = plain_events (nt_action r) (nt_text r) ++ translate l.
Proof. intros H1 H2. cbn [translate]. by rewrite !decide_False by done. Qed.

Lemma ww_push_nothing s : ww_set_pending (pending_ s ++ []) s = s.
Proof. rewrite app_nil_r. by destruct s. Qed.

Lemma win_action_plain action name s :
  action ≠ FILE_ACTION_RENAMED_OLD_NAME → action ≠ FILE_ACTION_RENAMED_NEW_NAME →
  win_action action name s = ww_set_pending (pending_ s ++ plain_events action name) s.
Proof.
  intros H1 H2. unfold win_action, plain_events. rewrite (decide_False (P := action = FILE_ACTION_RENAMED_OLD_NAME)) by done.
  rewrite (decide_False (P := action = FILE_ACTION_RENAMED_NEW_NAME)) by done.
  repeat case_decide; rewrite ?ww_push_nothing; done.
Qed.

Lemma win_action_new name s :
  win_action FILE_ACTION_RENAMED_NEW_NAME name s =
    match pending_rename_old_ s with
    | [] => ww_push (mkEvent created name [] false) s
    | old => ww_push (mkEvent renamed name old false) (ww_set_old [] s)
    end.
Proof. done. Qed.

Lemma win_action_old name s :
  pending_rename_old_ s = [] → win_action FILE_ACTION_RENAMED_OLD_NAME name s = ww_set_old name s.
Proof. intros Hs. unfold win_action. rewrite Hs. done. Qed.

(** After the check in front of the [switch] there is an old name for a new name only. *)
Lemma win_unpaired_old action s :
  action ≠ FILE_ACTION_RENAMED_NEW_NAME → pending_rename_old_ (win_unpaired action s) = [].
Proof. intros Ha. unfold win_unpaired. rewrite decide_True by done. destruct (pending_rename_old_ s) eqn:?; done. Qed.

Lemma translate_unpaired s r l :
  nt_action r ≠ FILE_ACTION_RENAMED_NEW_NAME →
  pending_ s ++ translate_from (pending_rename_old_ s) (r :: l) =
  pending_ (win_unpaired (nt_action r) s) ++ translate (r :: l).
Proof.
  intros Ha. unfold win_unpaired. rewrite (decide_True (P := nt_action r ≠ _)) by done.
  destruct (pending_rename_old_ s) as [|c old]; [done|].
  unfold translate_from. rewrite (decide_False (P := nt_action r = _)) by done.
  simpl. by rewrite <- app_assoc.
Qed.

(** One record: the events it adds are those the stream has there, whatever batch it came in. *)
Lemma translate_record s r l :
  nt_text r ≠ [] →
  pending_ s ++ translate_from (pending_rename_old_ s) (r :: l) =
  pending_ (nt_record s r) ++ translate_from (pending_rename_old_ (nt_record s r)) l.
Proof.
  intros Hne. unfold nt_record, win_record.
  destruct (decide (nt_action r = FILE_ACTION_RENAMED_NEW_NAME)) as [Hnew|Hnew].
  - unfold win_unpaired. rewrite decide_False by naive_solver. rewrite Hnew, win_action_new.
    destruct (pending_rename_old_ s) as [|c old] eqn:Hold; unfold translate_from at 1.
    + rewrite translate_new by done. simpl. rewrite Hold. by rewrite <- app_assoc.
    + rewrite decide_True by done. simpl. by rewrite <- app_assoc.
  - rewrite translate_unpaired by done. pose proof (win_unpaired_old (nt_action r) s Hnew) as Hold.
    destruct (decide (nt_action r = FILE_ACTION_RENAMED_OLD_NAME)) as [Hr|Hr].
    + rewrite translate_old by done. rewrite Hr in *. by rewrite win_action_old.
    + rewrite translate_plain by done. rewrite win_action_plain by done. simpl. by rewrite Hold, <- app_assoc.
Qed.

(** ** From completions to the consumer *)

(** What is still to come, with the records of the completions to come. *)
Definition win_total s (l : list notify) : list watch_event :=
  pending_ s ++ translate_from (pending_rename_old_ s) l.

Lemma win_total_records rs s l :
  Forall (λ r, nt_text r ≠ []) rs → win_total s (rs ++ l) = win_total (foldl nt_record s rs) l.
Proof.
  revert s. induction rs as [|r rs IH]; intros s Hrs; [done|]. inversion_clear Hrs.
  cbn [app foldl]. rewrite <- IH by done. unfold win_total. by apply translate_record.
Qed.

Lemma foldl_record_valid rs s : dir_valid (foldl nt_record s rs) = dir_valid s.
Proof.
  revert s. induction rs as [|r rs IH]; intros s; [done|]. cbn [foldl]. rewrite IH.
  apply win_record_extends.
Qed.

(** A batch, and what was in the buffer behind it. *)
Definition batch : Type := list notify * str.
Definition batch_ok (b : batch) : Prop := batch_wf b.1 ∧ Forall (λ r, nt_text r ≠ []) b.1.
Definition batch_done (b : batch) : completion := batch_completion b.2 b.1.
Definition batch_records (bs : list batch) : list notify := concat (fst <$> bs).

Lemma win_next_batches s bs :
  dir_valid s = true → Forall batch_ok bs →
  match win_next WideCharToMultiByte s (batch_done <$> bs) with
  | Returned ev s' cs =>
      ∃ bs', cs = batch_done <$> bs' ∧ Forall batch_ok bs' ∧ dir_valid s' = true ∧
        win_total s (batch_records bs) = ev :: win_total s' (batch_records bs')
  | Awaiting _ => win_total s (batch_records bs) = []
  | OutOfBounds => False
  end.
Proof.
  revert s. induction bs as [|b bs IH]; intros s Hv Hbs; simpl;
    unfold pop_pending; destruct (pending_ s) as [|ev l] eqn:Hp; rewrite ?Hv.
  - unfold win_total. rewrite Hp. unfold translate_from. simpl. by destruct (pending_rename_old_ s).
  - exists []. unfold win_total. simpl. by rewrite Hp.
  - inversion_clear Hbs as [|?? [Hwf Hne] Hbs'].
    rewrite win_parse_batch by done. specialize (IH (foldl nt_record s b.1)).
    unfold batch_records. cbn [fmap list_fmap concat]. rewrite win_total_records by done.
    apply IH; [by rewrite foldl_record_valid|done].
  - exists (b :: bs). unfold win_total. simpl. by rewrite Hp.
Qed.

(** A consumer that calls [next] until it has to wait. *)
Fixpoint win_consume (fuel : nat) s (cs : list completion) : list watch_event :=
  match fuel with
  | O => []
  | S fuel =>
      match win_next WideCharToMultiByte s cs with
      | Returned ev s cs => ev :: win_consume fuel s cs
      | _ => []
      end
  end.

Lemma win_consume_total fuel s bs :
  dir_valid s = true → Forall batch_ok bs → (length (win_total s (batch_records bs)) < fuel)%nat →
  win_consume fuel s (batch_done <$> bs) = win_total s (batch_records bs).
Proof.
  revert s bs. induction fuel as [|fuel IH]; intros s bs Hv Hbs Hf; [lia|]. cbn [win_consume].
  pose proof (win_next_batches s bs Hv Hbs) as Hn. destruct (win_next _ _ _) as [ev s' cs|s'|]; [|by rewrite Hn|done].
  destruct Hn as (bs' & -> & Hbs' & Hv' & Ht). rewrite Ht in *. simpl in Hf. f_equal. apply IH; [done|done|lia].
Qed.

(** C29 However the kernel splits the records of a stream into completions, a consumer gets from
    [next] the events of the stream, renames that straddle two completions included. *)
Theorem win_watch_delivers bs recursive e fuel :
  Forall batch_ok bs → (length (translate (batch_records bs)) < fuel)%nat →
  win_consume fuel (win_construct true recursive (Some None) e) (batch_done <$> bs) = translate (batch_records bs).
Proof. intros Hbs Hf. by rewrite win_consume_total. Qed.

(** ** Errors *)

(** A read that failed, or a record that is malformed, ends the watch: the caller of [next]
    gets the default event with the error, and so does every later caller. *)
Theorem win_next_fails s c cs s1 :
  dir_valid s = true → pending_ s = [] →
  parse_records WideCharToMultiByte (co_buf c) (co_error c) (co_transferred c) s = Some s1 → win_failed s1 →
  ∃ s2, win_next WideCharToMultiByte s (c :: cs) = Returned default_event s2 cs ∧
    win_io_error s2 = terminal_error_ s1 ∧
    ∀ cs', win_next WideCharToMultiByte s2 cs' = Returned default_event s2 cs'.
Proof.
  intros Hv Hp Hparse (Hv1 & Hp1 & Ht1).
  set (s2 := win_set_error (terminal_error_ s1) s1).
  assert (∀ s3 cs', s3 = s1 ∨ s3 = s2 → win_next WideCharToMultiByte s3 cs' = Returned default_event s2 cs') as Hend.
  { intros s3 cs' Hs3. assert (pop_pending s3 = None ∧ dir_valid s3 = false) as [Hpop Hval].
    { unfold pop_pending. by destruct Hs3 as [-> | ->]; simpl; rewrite Hp1. }
    destruct cs'; simpl; rewrite Hpop, Hval; destruct Hs3 as [-> | ->]; simpl; by rewrite decide_False. }
  exists s2. split_and!; [|done|auto].
  cbn [win_next]. unfold pop_pending at 1. rewrite Hp, Hv, Hparse. auto.
Qed.
End batches.

(** ** What the overflow of the buffer leaves behind *)

(** A new name whose old name was lost in an overflow is paired with the old name of another
    rename from before it: the overflow does not clear the name that waits for its pair. *)
Lemma win_overflow_false_rename wcmb buf bytes a b s :
  pending_rename_old_ s = [] → a ≠ [] →
  win_record FILE_ACTION_RENAMED_OLD_NAME a s = ww_set_old a s ∧
  ∃ s', parse_records wcmb buf ERROR_NOTIFY_ENUM_DIR bytes (ww_set_old a s) = Some s' ∧
    pending_ (win_record FILE_ACTION_RENAMED_NEW_NAME b s') = pending_ s ++ [overflow_event; mkEvent renamed b a false].
Proof.
  intros Hs Ha. split.
  - unfold win_record, win_unpaired. rewrite Hs. by apply win_action_old.
  - eexists. split; [done|]. unfold win_record, win_unpaired. rewrite win_action_new.
    destruct a; [done|]. simpl. by rewrite <- app_assoc.
Qed.

(** ** Witnesses *)

(** Names of one-byte characters. *)
Fixpoint demo_wide (ws : str) : str := match ws with c :: _ :: ws => c :: demo_wide ws | _ => [] end.
Definition demo_wcmb (ws : str) : option str := match demo_wide ws with [] => None | s => Some s end.
Definition demo_name (s : String.string) : str := (lit s) ≫= λ c, [c; Ascii.zero].

Definition demo_batches : list batch :=
  [([mkNotify 1 (demo_name "a\x"); mkNotify 4 (demo_name "old")], lit "junk");
   ([mkNotify 5 (demo_name "new"); mkNotify 3 (demo_name "new"); mkNotify 4 (demo_name "y"); mkNotify 2 (demo_name "z")], [])].

Lemma win_parse_safe_witness :
  ∃ s', parse_records demo_wcmb (replicate 4096 Ascii.zero) 0 8 (mkWin true true [] [] 0 0 []) = Some s' ∧
    (win_failed s' ∨ win_extends (mkWin true true [] [] 0 0 []) s').
Proof. apply (win_parse_safe demo_wcmb); [vm_compute; done|lia]. Defined.

Lemma win_watch_delivers_witness :
  win_consume demo_wcmb 10 (win_construct true true (Some None) 0) (batch_done <$> demo_batches) =
  [mkEvent created (lit "a/x") [] false; mkEvent renamed (lit "new") (lit "old") false;
   mkEvent modified (lit "new") [] false; mkEvent removed (lit "y") [] false; mkEvent removed (lit "z") [] false].
Proof.
  rewrite (win_watch_delivers demo_wcmb demo_batches); [vm_compute; done| |vm_compute; lia].
  repeat constructor; simpl; try (vm_compute; done); vm_compute; intros ?; discriminate.
Defined.

Lemma win_next_fails_witness :
  let s := mkWin true true [] [] 0 0 [] in
  let c := mkCompletion (le_bytes 4 0 ++ le_bytes 4 1 ++ le_bytes 4 3 ++ lit "abc") 0 15 in
  ∃ s2, win_next demo_wcmb s [c] = Returned default_event s2 [] ∧ win_io_error s2 = ERROR_INVALID_DATA ∧
    ∀ cs', win_next demo_wcmb s2 cs' = Returned default_event s2 cs'.
Proof.
  intros s c. apply (win_next_fails demo_wcmb s c [] (win_fail ERROR_INVALID_DATA s)).
  - done.
  - done.
  - vm_compute; done.
  - by apply win_fail_failed.
Defined.
