(* ===== verification/FsWatch.v ===== *)
(** * FsWatch: the directory watcher of Linux

    [DirectoryWatcher] of [src/include/coro/fs_watch.hpp] for Linux: the parser of inotify
    records, the map from watch descriptors to paths and what keeps it up to date, the pairing
    of moves by cookie, and [next] with its timer for moves that stay alone.

    The kernel is the class [Inotify]: adding and removing watches, and what an iteration over a
    directory meets.  The order in which a hash map is iterated is a parameter. *)

From S2P Require Import Prelude WatchEvents.
From Stdlib Require Import Ascii.
From stdpp Require Import options.
#[local] Set Default Proof Using "Type*".

Local Open Scope Z_scope.

Definition IN_MODIFY : Z := 0x2.
Definition IN_ATTRIB : Z := 0x4.
Definition IN_MOVED_FROM : Z := 0x40.
Definition IN_MOVED_TO : Z := 0x80.
Definition IN_CREATE : Z := 0x100.
Definition IN_DELETE : Z := 0x200.
Definition IN_DELETE_SELF : Z := 0x400.
Definition IN_MOVE_SELF : Z := 0x800.
Definition IN_Q_OVERFLOW : Z := 0x4000.
Definition IN_IGNORED : Z := 0x8000.
Definition IN_ISDIR : Z := 0x40000000.

Definition EINTR : Z := 4.
Definition EBADF : Z := 9.
Definition EAGAIN : Z := 11.

Definition has_bit (mask bit : Z) : bool := negb (Z.land mask bit =? 0).

(** [sizeof(struct inotify_event)]: [wd], [mask], [cookie] and [len]. *)
Definition event_header : nat := 16.
Definition event_buf_size : nat := Z.to_nat 65536.

(** An entry as [recursive_directory_iterator] meets it: the answers of [is_symlink] and
    [is_directory] (or their error), and for a directory what is found in it, with the error that
    ends the listing, if there is one. *)
Inductive dir_entry : Type :=
  | DirEntry (name : str) (symlink directory : Z + bool) (sub : list dir_entry) (sub_error : option Z).

Class Inotify (W : Type) : Type := {
  inotify_add_watch : Z → str → W → (Z + Z) * W;
  inotify_rm_watch : Z → Z → W → W;
  directory_listing : str → W → list dir_entry * option Z;
  close_fd : Z → W → W;
}.

Record pending_move : Type := mkMove { mv_path : str; mv_is_dir : bool }.

Record watcher : Type := mkWatcher {
  fd_ : Z;
  recursive_ : bool;
  root_path_ : str;
  pending_ : list watch_event;
  wd_paths_ : gmap Z str;
  pending_moves_ : gmap Z pending_move;
  terminal_error_ : Z;
  needs_rescan_ : bool;
  io_error : Z;                   (* io::last_error() *)
}.

Implicit Types (s : watcher) (buf name path : str) (wd mask cookie : Z).

Definition set_pending l s : watcher :=
  mkWatcher (fd_ s) (recursive_ s) (root_path_ s) l (wd_paths_ s) (pending_moves_ s) (terminal_error_ s) (needs_rescan_ s) (io_error s).
Definition push ev s : watcher := set_pending (pending_ s ++ [ev]) s.
Definition set_wds m s : watcher :=
  mkWatcher (fd_ s) (recursive_ s) (root_path_ s) (pending_ s) m (pending_moves_ s) (terminal_error_ s) (needs_rescan_ s) (io_error s).
Definition set_moves m s : watcher :=
  mkWatcher (fd_ s) (recursive_ s) (root_path_ s) (pending_ s) (wd_paths_ s) m (terminal_error_ s) (needs_rescan_ s) (io_error s).
Definition set_terminal e s : watcher :=
  mkWatcher (fd_ s) (recursive_ s) (root_path_ s) (pending_ s) (wd_paths_ s) (pending_moves_ s) e (needs_rescan_ s) (io_error s).
Definition set_rescan s : watcher :=
  mkWatcher (fd_ s) (recursive_ s) (root_path_ s) (pending_ s) (wd_paths_ s) (pending_moves_ s) (terminal_error_ s) true (io_error s).
Definition set_error e s : watcher :=
  mkWatcher (fd_ s) (recursive_ s) (root_path_ s) (pending_ s) (wd_paths_ s) (pending_moves_ s) (terminal_error_ s) (needs_rescan_ s) e.

Definition valid s : bool := 0 <=? fd_ s.

Definition pop_pending s : option (watch_event * watcher) :=
  match pending_ s with [] => None | ev :: l => Some (ev, set_pending l s) end.

(** ** Paths *)

Definition join_relative (parent name : str) : str :=
  if decide (parent = []) then name
  else if decide (name = []) then parent
  else parent ++ "/"%char :: name.

Definition starts_with (p s : str) : bool := bool_decide (take (length p) s = p).

Definition is_same_or_child (path prefix : str) : bool :=
  bool_decide (path = prefix) ||
  ((length prefix <? length path)%nat && starts_with prefix path && bool_decide (path !! length prefix = Some "/"%char)).

(** [root_path_ / relative]. *)
Definition full_path s (relative : str) : str :=
  if decide (relative = []) then root_path_ s
  else if decide (head relative = Some "/"%char) then relative
  else if decide (root_path_ s = [] ∨ last (root_path_ s) = Some "/"%char) then root_path_ s ++ relative
  else root_path_ s ++ "/"%char :: relative.

Definition update_watch_paths (old_path new_path : str) (m : gmap Z str) : gmap Z str :=
  (λ path, if is_same_or_child path old_path then new_path ++ drop (length old_path) path else path) <$> m.

(** ** The operations that call the kernel *)

Section watcher.
Context {W : Type} `{Inotify W}.
(** The order in which an [unordered_map] with integer keys is iterated. *)
Context (iter : ∀ A : Type, gmap Z A → list (Z * A)).
Implicit Types (w : W).

Definition close s w : watcher * W :=
  let '(fd, w) := if valid s then (-1, close_fd (fd_ s) w) else (fd_ s, w) in
  (mkWatcher fd (recursive_ s) (root_path_ s) (pending_ s) ∅ ∅ (terminal_error_ s) (needs_rescan_ s) (io_error s), w).

Definition add_watch (relative : str) s w : bool * watcher * W :=
  match inotify_add_watch (fd_ s) (full_path s relative) w with
  | (inl errno, w) => (false, set_error errno s, w)
  | (inr wd, w) => (true, set_wds (<[wd := to_slashes relative]> (wd_paths_ s)) s, w)
  end.

(** The end of a listing: the iterator leaves the directory, or has an error. *)
Definition listing_end (error : option Z) s w : bool * watcher * W :=
  match error with Some ec => (false, set_error ec s, w) | None => (true, s, w) end.

(** One round of the loop of [add_watch_tree] at an entry of [prefix], and the rounds that its
    descent into the entry makes. *)
Fixpoint watch_entry (prefix : str) (e : dir_entry) s w : bool * watcher * W :=
  match e with
  | DirEntry name symlink directory sub sub_error =>
      match symlink with
      | inl ec => (false, set_error ec s, w)
      | inr true => (true, s, w)
      | inr false =>
          match directory with
          | inl ec => (false, set_error ec s, w)
          | inr false => (true, s, w)
          | inr true =>
              let rel := join_relative prefix name in
              let '(ok, s, w) := add_watch rel s w in
              if ok then
                (fix go (l : list dir_entry) s w :=
                   match l with
                   | [] => listing_end sub_error s w
                   | e :: l =>
                       let '(ok, s, w) := watch_entry rel e s w in
                       if ok then go l s w else (false, s, w)
                   end) sub s w
              else (false, s, w)
          end
      end
  end.

Fixpoint watch_entries (prefix : str) (l : list dir_entry) (error : option Z) s w : bool * watcher * W :=
  match l with
  | [] => listing_end error s w
  | e :: l =>
      let '(ok, s, w) := watch_entry prefix e s w in
      if ok then watch_entries prefix l error s w else (false, s, w)
  end.

Definition add_watch_tree (relative : str) s w : bool * watcher * W :=
  let '(ok, s, w) := add_watch relative s w in
  if ok then
    if recursive_ s then
      let '(l, error) := directory_listing (full_path s relative) w in
      watch_entries relative l error s w
    else (true, s, w)
  else (false, s, w).

(** The constructor that takes a descriptor; [root] is the normalised absolute path or an error. *)
Definition construct (fd : Z) (root : Z + str) (recursive : bool) (error : Z) w : watcher * W :=
  match root with
  | inl ec => close (mkWatcher fd recursive [] [] ∅ ∅ 0 false ec) w
  | inr root =>
      let '(ok, s, w) := add_watch_tree [] (mkWatcher fd recursive root [] ∅ ∅ 0 false error) w in
      if ok then (s, w) else close s w
  end.

(** Move construction: the new object has the state, this is what is left of the source. *)
Definition moved_from s : watcher :=
  mkWatcher (-1) (recursive_ s) [] [] ∅ ∅ 0 false (io_error s).
Definition move_assign (target source : watcher) w : watcher * watcher * W :=
  let '(target, w) := close target w in
  (mkWatcher (fd_ source) (recursive_ source) (root_path_ source) (pending_ source) (wd_paths_ source)
     (pending_moves_ source) (terminal_error_ source) (needs_rescan_ source) (io_error target), moved_from source, w).

Definition remove_watch_tree path s w : watcher * W :=
  let removed := filter (λ e, is_same_or_child e.2 path = true) (iter str (wd_paths_ s)) in
  foldl (λ st e, (set_wds (delete e.1 (wd_paths_ st.1)) st.1, inotify_rm_watch (fd_ st.1) e.1 st.2)) (s, w) removed.

(** One round of the loop of [flush_pending_moves]. *)
Definition flush_move (st : watcher * W) (m : Z * pending_move) : watcher * W :=
  let s := push (mkEvent removed (mv_path m.2) [] (mv_is_dir m.2)) st.1 in
  if mv_is_dir m.2 then remove_watch_tree (mv_path m.2) s st.2 else (s, st.2).

Definition flush_pending_moves s w : watcher * W :=
  let '(s, w) := foldl flush_move (s, w) (iter pending_move (pending_moves_ s)) in
  (set_moves ∅ s, w).

(** ** One record *)

(** [pending_.push_back] of a creation, and the watch on a directory that is new. *)
Definition created_entry path (is_dir : bool) s w : watcher * W :=
  let s := push (mkEvent created path [] is_dir) s in
  if recursive_ s && is_dir then
    let '(ok, s, w) := add_watch_tree path s w in
    if ok then (s, w) else (push overflow_event s, w)
  else (s, w).

Definition moved_to cookie path (is_dir : bool) s w : watcher * W :=
  match (if decide (cookie ≠ 0) then pending_moves_ s !! cookie else None) with
  | Some old =>
      let moved_dir := is_dir || mv_is_dir old in
      let s := push (mkEvent renamed path (mv_path old) moved_dir) (set_moves (delete cookie (pending_moves_ s)) s) in
      (if recursive_ s && moved_dir then set_wds (update_watch_paths (mv_path old) path (wd_paths_ s)) s else s, w)
  | None => created_entry path is_dir s w
  end.

(** [IN_MOVE_SELF] and [IN_DELETE_SELF]: only the root is handled here. *)
Definition self_gone (parent : str) s w : watcher * W :=
  if decide (parent = []) then close (push (mkEvent removed [] [] true) s) w else (s, w).

(** A record of a known watch. *)
Definition handle_entry (parent : str) mask cookie name s w : watcher * W :=
  let is_dir := has_bit mask IN_ISDIR in
  let path := join_relative parent name in
  if has_bit mask IN_MOVE_SELF then self_gone parent s w
  else if has_bit mask IN_MOVED_FROM then
    (if decide (cookie ≠ 0) then set_moves (<[cookie := mkMove path is_dir]> (pending_moves_ s)) s
     else push (mkEvent removed path [] is_dir) s, w)
  else if has_bit mask IN_MOVED_TO then moved_to cookie path is_dir s w
  else if has_bit mask IN_CREATE then created_entry path is_dir s w
  else if has_bit mask IN_DELETE_SELF then self_gone parent s w
  else if has_bit mask IN_DELETE then (push (mkEvent removed path [] is_dir) s, w)
  else if has_bit mask IN_MODIFY || has_bit mask IN_ATTRIB then (push (mkEvent modified path [] is_dir) s, w)
  else (s, w).

Definition handle_record wd mask cookie name s w : watcher * W :=
  if has_bit mask IN_Q_OVERFLOW then (push overflow_event (set_rescan (set_moves ∅ s)), w)
  else if has_bit mask IN_IGNORED then (set_wds (delete wd (wd_paths_ s)) s, w)
  else
    match wd_paths_ s !! wd with
    | None => (s, w)
    | Some parent => handle_entry parent mask cookie name s w
    end.

(** ** The buffer *)

(** A signed 32-bit field. *)
Definition to_i32 (z : Z) : Z := if decide (z < 2 ^ 31) then z else z - u32_modulus.

(** The C string at the beginning of [s]; without a terminator the read would leave the buffer. *)
Fixpoint c_string (s : str) : option str :=
  match s with
  | [] => None
  | c :: s => if decide (c = Ascii.zero) then Some [] else cons c <$> c_string s
  end.

(** The loop of [parse_records] at offset [p].  [None] is a read outside of [event_buf_]. *)
Fixpoint parse_loop (fuel : nat) buf (bytes : nat) p s w : option (watcher * W) :=
  match fuel with
  | O => None
  | S fuel =>
      if decide (p + event_header ≤ bytes)%nat then
        wd ← rd_u32 buf p;
        mask ← rd_u32 buf (p + 4);
        cookie ← rd_u32 buf (p + 8);
        len ← rd_u32 buf (p + 12);
        let record_size := (event_header + Z.to_nat len)%nat in
        if decide (bytes - p < record_size)%nat then Some (s, w) else
        name ← if decide (len = 0) then Some [] else c_string (drop (p + event_header) buf);
        let '(s, w) := handle_record (to_i32 wd) mask cookie name s w in
        parse_loop fuel buf bytes (p + record_size)%nat s w
      else Some (s, w)
  end.

Definition parse_records buf (bytes : Z) s w : option (watcher * W) :=
  if decide (bytes ≤ 0) then
    if decide (bytes < 0) then Some (close (set_error (- bytes) (set_terminal (- bytes) s)) w)
    else Some (s, w)
  else parse_loop (S (Z.to_nat bytes)) buf (Z.to_nat bytes) 0 s w.

(** ** [next] *)

(** A completed poll: its result, those of the calls of [read] that follow ([- errno], or the
    number of bytes), what is in the buffer then, and whether it took longer than 20 ms. *)
Record poll : Type := mkPoll {
  pl_result : Z;
  pl_reads : list Z;
  pl_buf : str;
  pl_late : bool;
}.

(** [await_suspend]: without an io_uring or a free entry in its queue the coroutine is
    scheduled with an error. *)
Definition ENOTSUP : Z := 95.
Definition ENOBUFS : Z := 105.
Definition read_suspend (uring sqe : bool) (done : poll) : poll :=
  if uring then if sqe then done else mkPoll (- ENOBUFS) [] [] false else mkPoll (- ENOTSUP) [] [] false.

(** [do ... while (bytes < 0 && errno == EINTR)]. *)
Fixpoint read_again (l : list Z) : option Z :=
  match l with [] => None | r :: l => if decide (r = - EINTR) then read_again l else Some r end.

(** [read_awaiter::await_resume]. *)
Definition read_resume (c : poll) s w : option (watcher * W) :=
  if decide (pl_result c < 0) then parse_records (pl_buf c) (pl_result c) s w
  else
    bytes ← read_again (pl_reads c);
    if decide (bytes = - EAGAIN) then Some (s, w) else parse_records (pl_buf c) bytes s w.

(** A round of the loop of [next], given the polls to come. *)
Inductive round : Type :=
  | Returned (ev : watch_event) (s : watcher) (w : W) (rest : list poll)
  | Awaiting (s : watcher) (w : W)
  | Again (s : watcher) (w : W) (rest : list poll)
  | OutOfBounds.

Definition next_read s w (cs : list poll) : round :=
  match cs with
  | [] => Awaiting s w
  | c :: cs => match read_resume c s w with Some (s, w) => Again s w cs | None => OutOfBounds end
  end.

Definition next_round s w (cs : list poll) : round :=
  match pop_pending s with
  | Some (ev, s) => Returned ev s w cs
  | None =>
      if valid s then
        if decide (pending_moves_ s = ∅) then next_read s w cs
        else
          (* wait_for(read_batch(), 20ms) *)
          match cs with
          | c :: _ => if pl_late c then let '(s, w) := flush_pending_moves s w in Again s w cs else next_read s w cs
          | [] => let '(s, w) := flush_pending_moves s w in Again s w cs
          end
      else
        Returned default_event (set_error (if decide (terminal_error_ s = 0) then EBADF else terminal_error_ s) s) w cs
  end.

Fixpoint next_loop (fuel : nat) s w (cs : list poll) : round :=
  match fuel with
  | O => Again s w cs
  | S fuel => match next_round s w cs with Again s w cs => next_loop fuel s w cs | r => r end
  end.

(** Every round but the last takes a poll or the moves that wait. *)
Definition next s w (cs : list poll) : round := next_loop (2 + 2 * length cs) s w cs.
End watcher.

(** ** Paths as lists of names *)

(** A name that can be an entry of a directory and that [add_watch] leaves as it is. *)
Definition seg_ok (n : str) : Prop := n ≠ [] ∧ "/"%char ∉ n ∧ "\"%char ∉ n.

Fixpoint path_str (l : list str) : str :=
  match l with
  | [] => []
  | n :: l => match l with [] => n | _ => n ++ "/"%char :: path_str l end
  end.

(** What a rename of [old] to [new] makes of a path. *)
Definition move_path (old new l : list str) : list str :=
  if decide (old `prefix_of` l) then new ++ drop (length old) l else l.

Lemma path_str_cons n l : l ≠ [] → path_str (n :: l) = n ++ "/"%char :: path_str l.
Proof. by destruct l. Qed.

Lemma path_str_nil l : Forall seg_ok l → path_str l = [] → l = [].
Proof.
  intros Hl Hp. destruct l as [|n [|n' l]]; [done| |]; inversion_clear Hl as [|?? [Hn _]]; simpl in Hp; [done|].
  by destruct n.
Qed.

Lemma path_str_app l l' : l ≠ [] → l' ≠ [] → path_str (l ++ l') = path_str l ++ "/"%char :: path_str l'.
Proof.
  intros Hl Hl'. induction l as [|n l IH]; [done|]. destruct (decide (l = [])) as [->|Hne].
  - simpl app. by rewrite path_str_cons.
  - rewrite <- app_comm_cons, !path_str_cons by (done || by destruct l). rewrite IH by done. by rewrite <- app_assoc.
Qed.

Lemma join_relative_path l n :
  Forall seg_ok l → n ≠ [] → join_relative (path_str l) n = path_str (l ++ [n]).
Proof.
  intros Hl Hn. unfold join_relative. destruct (decide (path_str l = [])) as [He|He].
  - by rewrite (path_str_nil l) by done.
  - rewrite decide_False by done. rewrite path_str_app; [done| |done]. by intros ->.
Qed.

(** A string that continues with a slash or ends is cut at the first slash in one way. *)
Lemma slash_split (a b x y : str) :
  "/"%char ∉ a → "/"%char ∉ b → (x = [] ∨ head x = Some "/"%char) → (y = [] ∨ head y = Some "/"%char) →
  a ++ x = b ++ y → a = b ∧ x = y.
Proof.
  revert b. induction a as [|c a IH]; intros b Ha Hb Hx Hy He.
  - destruct b as [|c b]; [done|]. simpl in He. subst x. destruct Hx as [|Hx]; [done|]. simpl in Hx. set_solver.
  - destruct b as [|c' b]; simpl in He.
    + subst y. destruct Hy as [|Hy]; [done|]. simpl in Hy. set_solver.
    + injection He as -> He. destruct (IH b) as [-> ->]; set_solver.
Qed.

Definition slash_tail (x : str) : Prop := x = [] ∨ head x = Some "/"%char.

Lemma is_same_or_child_spec path prefix :
  is_same_or_child path prefix = true ↔ ∃ x, path = prefix ++ x ∧ slash_tail x.
Proof.
  unfold is_same_or_child, starts_with, slash_tail. split.
  - intros [H|H]%orb_true_iff; bool_to_prop.
    + exists []. rewrite app_nil_r. auto.
    + exists (drop (length prefix) path). split; [|right].
      * rewrite <- (take_drop (length prefix) path) at 1. by f_equal.
      * by rewrite <- head_drop || rewrite head_lookup, lookup_drop, Nat.add_0_r.
  - intros (x & -> & [->|Hx]); apply orb_true_iff; [left|right].
    + by rewrite app_nil_r, bool_decide_true.
    + destruct x as [|c x]; [done|]. injection Hx as ->. rewrite !andb_true_iff. split_and!.
      * apply Nat.ltb_lt. rewrite length_app. simpl. lia.
      * by rewrite take_app_length, bool_decide_true.
      * rewrite list_lookup_middle, bool_decide_true; done.
Qed.

(** The string of a non-empty path: its first name and what follows. *)
Lemma path_str_first n l : ∃ x, path_str (n :: l) = n ++ x ∧ slash_tail x ∧ (l = [] → x = []) ∧ (l ≠ [] → x = "/"%char :: path_str l).
Proof.
  destruct (decide (l = [])) as [->|Hl].
  - exists []. rewrite app_nil_r. unfold slash_tail. naive_solver.
  - exists ("/"%char :: path_str l). rewrite path_str_cons by done. unfold slash_tail. naive_solver.
Qed.

Lemma path_str_prefix old l x :
  Forall seg_ok old → Forall seg_ok l → old ≠ [] → slash_tail x →
  path_str l = path_str old ++ x → ∃ l', l = old ++ l' ∧ (l' ≠ [] → x = "/"%char :: path_str l') ∧ (l' = [] → x = []).
Proof.
  revert l. induction old as [|n old IH]; intros l Hold Hl Hne Hx He; [done|].
  inversion_clear Hold as [|?? (Hn & Hns & _) Hold'].
  destruct (path_str_first n old) as (y & Hy & Hys & Hy0 & Hy1). rewrite Hy, <- app_assoc in He.
  destruct l as [|m l]; [by destruct n|].
  inversion_clear Hl as [|?? (Hm & Hms & _) Hl'].
  destruct (path_str_first m l) as (z & Hz & Hzs & Hz0 & Hz1). rewrite Hz in He.
  apply slash_split in He as [<- He]; [|done|done|done|].
  2:{ destruct (decide (old = [])) as [Ho|Ho]; [by rewrite Hy0|right; by rewrite Hy1]. }
  destruct (decide (old = [])) as [->|Ho].
  - rewrite Hy0 in He by done. simpl in He. subst z. exists l. naive_solver.
  - rewrite Hy1 in He by done. destruct (decide (l = [])) as [->|Hlne]; [by rewrite Hz0 in He|].
    rewrite Hz1 in He by done. injection He as He.
    destruct (IH l) as (l' & -> & H1 & H2); [done..|]. exists l'. naive_solver.
Qed.

Lemma same_or_child_prefix old l :
  Forall seg_ok old → Forall seg_ok l → old ≠ [] →
  is_same_or_child (path_str l) (path_str old) = true ↔ old `prefix_of` l.
Proof.
  intros Hold Hl Hne. rewrite is_same_or_child_spec. split.
  - intros (x & He & Hx). destruct (path_str_prefix old l x) as (l' & -> & _); [done..|]. by exists l'.
  - intros [l' ->]. destruct (decide (l' = [])) as [->|Hl'].
    + exists []. rewrite !app_nil_r. by split; [|left].
    + exists ("/"%char :: path_str l'). rewrite path_str_app by done. by split; [|right].
Qed.

(** On strings, a move of a directory is what it is on lists of names. *)
Lemma update_path_str old new l :
  Forall seg_ok old → Forall seg_ok l → old ≠ [] → new ≠ [] →
  (if is_same_or_child (path_str l) (path_str old) then path_str new ++ drop (length (path_str old)) (path_str l)
   else path_str l) = path_str (move_path old new l).
Proof.
  intros Hold Hl Ho Hn. unfold move_path. pose proof (same_or_child_prefix old l Hold Hl Ho) as Hiff.
  destruct (is_same_or_child _ _); [|by rewrite decide_False by naive_solver].
  destruct Hiff as [[l' ->] _]; [done|]. rewrite decide_True by (by exists l'). rewrite drop_app_length.
  destruct (decide (l' = [])) as [->|Hl'].
  - by rewrite !app_nil_r, drop_all, app_nil_r.
  - rewrite !path_str_app by done. by rewrite drop_app_length.
Qed.

Lemma update_watch_paths_fmap (m : gmap Z (list str)) old new :
  Forall seg_ok old → old ≠ [] → new ≠ [] → map_Forall (λ _ l, Forall seg_ok l) m →
  update_watch_paths (path_str old) (path_str new) (path_str <$> m) = path_str <$> (move_path old new <$> m).
Proof.
  intros Hold Ho Hn Hm. apply map_eq. intros wd. unfold update_watch_paths. rewrite !lookup_fmap.
  destruct (m !! wd) as [l|] eqn:Hl; [|done]. simpl. f_equal. apply update_path_str; eauto.
Qed.

(** ** The tree of directories *)

(** The parent and the name of each directory but the root. *)
Abbreviation dir_tree := (gmap Z (Z * str)).

Inductive has_path (T : dir_tree) (root : Z) : Z → list str → Prop :=
  | has_path_root : has_path T root root []
  | has_path_child d p n l : T !! d = Some (p, n) → has_path T root p l → has_path T root d (l ++ [n]).

Record tree_wf (T : dir_tree) (root : Z) : Prop := {
  wf_root : T !! root = None;
  wf_names : ∀ d p n, T !! d = Some (p, n) → seg_ok n;
  wf_unique : ∀ d d' e, T !! d = Some e → T !! d' = Some e → d = d';
}.

Section tree.
Context (T : dir_tree) (root : Z) (Hwf : tree_wf T root).
Implicit Types (d e : Z) (l : list str).

Lemma has_path_ok d l : has_path T root d l → Forall seg_ok l.
Proof. induction 1 as [|d p n l Hd _ IH]; [done|]. apply Forall_app. split; [done|]. constructor; [|done]. by eapply wf_names. Qed.

Lemma has_path_det d l l' : has_path T root d l → has_path T root d l' → l = l'.
Proof.
  intros H. revert l'. induction H as [|d p n l Hd Hp IH]; intros l' H'.
  - inversion H' as [|d p n l Hd]; [done|]. by rewrite (wf_root _ _ Hwf) in Hd.
  - inversion H' as [|d' p' n' l0 Hd' Hp']; subst; [by rewrite (wf_root _ _ Hwf) in Hd|].
    rewrite Hd in Hd'. injection Hd' as <- <-. by rewrite (IH l0).
Qed.

Lemma has_path_inj d d' l : has_path T root d l → has_path T root d' l → d = d'.
Proof.
  intros H. revert d'. induction H as [|d p n l Hd Hp IH]; intros d' H'.
  - inversion H' as [|d p n l Hd Hp Hx Hl]; [done|]. by destruct l.
  - inversion H' as [Hx Hl|d0 p' n' l0 Hd' Hp' Hx Hl]; subst; [by destruct l|].
    apply app_inj_tail in Hl as [-> ->]. destruct (IH p' Hp'). by eapply wf_unique.
Qed.
End tree.

(** A directory moves: [d], which is [n] in [p], becomes [n'] in [p'], where that name is free
    and which does not lie below [d]. *)
Record can_move (T : dir_tree) (root d p p' : Z) (n n' : str) (lp lp' : list str) : Prop := {
  cm_entry : T !! d = Some (p, n);
  cm_from : has_path T root p lp;
  cm_to : has_path T root p' lp';
  cm_free : ∀ e, T !! e ≠ Some (p', n');
  cm_name : seg_ok n';
  cm_outside : ¬ (lp ++ [n]) `prefix_of` lp';
}.

Section move.
Context (T : dir_tree) (root d p p' : Z) (n n' : str) (lp lp' : list str).
Context (Hwf : tree_wf T root) (Hm : can_move T root d p p' n n' lp lp').
#[local] Abbreviation T' := (<[d := (p', n')]> T).
#[local] Abbreviation old := (lp ++ [n]).
#[local] Abbreviation new := (lp' ++ [n']).

Lemma move_tree_wf : tree_wf T' root.
Proof.
  pose proof (cm_entry _ _ _ _ _ _ _ _ _ Hm) as Hd. pose proof (cm_free _ _ _ _ _ _ _ _ _ Hm) as Hfree.
  constructor.
  - rewrite lookup_insert_ne; [by apply wf_root|]. intros ->. by rewrite (wf_root _ _ Hwf) in Hd.
  - intros e q m [[-> Heq]|[_ He]]%lookup_insert_Some; [|by eapply wf_names].
    injection Heq as <- <-. by eapply cm_name.
  - intros e e' x [[<- <-]|[Hne He]]%lookup_insert_Some [[<- Hx]|[Hne' He']]%lookup_insert_Some; try done.
    + by destruct (Hfree e').
    + subst x. by destruct (Hfree e).
    + by eapply wf_unique.
Qed.

Lemma old_path : has_path T root d old.
Proof. eapply has_path_child; [by eapply cm_entry|by eapply cm_from]. Qed.

(** Nothing moves outside of [d]. *)
Lemma move_outside e l : has_path T root e l → ¬ old `prefix_of` l → has_path T' root e l.
Proof.
  induction 1 as [|e q m l He Hq IH]; intros Hn; [constructor|].
  apply has_path_child with q.
  - rewrite lookup_insert_ne; [done|]. intros <-.
    rewrite (cm_entry _ _ _ _ _ _ _ _ _ Hm) in He. injection He as <- <-.
    apply Hn. rewrite (has_path_det T root Hwf p l lp); [done|done|by eapply cm_from].
  - apply IH. intros Hpre. apply Hn. by apply prefix_app_r.
Qed.

Lemma move_inside e l : has_path T root e l → has_path T' root e (move_path old new l).
Proof.
  intros H. destruct (decide (old `prefix_of` l)) as [Hpre|Hpre].
  2:{ unfold move_path. rewrite decide_False by done. by apply move_outside. }
  induction H as [|e q m l He Hq IH].
  { apply prefix_nil_inv in Hpre. by destruct lp. }
  destruct (decide (e = d)) as [->|Hne].
  - rewrite (cm_entry _ _ _ _ _ _ _ _ _ Hm) in He. injection He as <- <-.
    rewrite (has_path_det T root Hwf p l lp) by (done || by eapply cm_from).
    unfold move_path. rewrite decide_True by done. rewrite drop_all, app_nil_r.
    apply has_path_child with p'; [by rewrite lookup_insert_eq|].
    apply move_outside; [by eapply cm_to|by eapply cm_outside].
  - destruct (decide (old `prefix_of` l)) as [Hl|Hl].
    + specialize (IH Hl). unfold move_path in *. rewrite decide_True in IH by done. rewrite decide_True by done.
      destruct Hl as [l' ->]. rewrite drop_app_length in IH. rewrite <- (app_assoc old), drop_app_length, app_assoc.
      apply has_path_child with q; [by rewrite lookup_insert_ne|done].
    + destruct Hne. apply (has_path_inj T root Hwf e d (l ++ [m])); [by eapply has_path_child|].
      destruct Hpre as [k Hk]. destruct k as [|c k _] using rev_ind.
      * rewrite app_nil_r in Hk. rewrite Hk. apply old_path.
      * rewrite app_assoc in Hk. apply app_inj_tail in Hk as [-> _]. destruct Hl. by exists k.
Qed.

Lemma move_back e l : has_path T' root e l → ∃ l0, has_path T root e l0.
Proof.
  induction 1 as [|e q m l He Hq [l0 IH]]; [eexists; constructor|].
  apply lookup_insert_Some in He as [[<- _]|[_ He]]; [eexists; apply old_path|].
  eexists. by eapply has_path_child.
Qed.

(** The paths of the new tree are those of the old one, moved. *)
Lemma move_tree (m : gmap Z (list str)) :
  (∀ e l, m !! e = Some l ↔ has_path T root e l) →
  ∀ e l, (move_path old new <$> m) !! e = Some l ↔ has_path T' root e l.
Proof.
  intros Hm' e l. rewrite lookup_fmap_Some. split.
  - intros (l0 & <- & Hl). by apply move_inside, Hm'.
  - intros Hl. destruct (move_back _ _ Hl) as [l0 Hl0]. exists l0. split; [|by apply Hm'].
    eapply has_path_det; [apply move_tree_wf|by apply move_inside|done].
Qed.
End move.

(** [update_watch_paths] on a map whose paths are lists of names: the watches of the directory
    that moved and of everything below it get their new paths, and no other, whatever the names
    are (one that begins with the name of another included). *)
Theorem update_watch_paths_moves (m : gmap Z (list str)) old new :
  Forall seg_ok old → old ≠ [] → new ≠ [] → map_Forall (λ _ l, Forall seg_ok l) m →
  update_watch_paths (path_str old) (path_str new) (path_str <$> m) = path_str <$> (move_path old new <$> m).
Proof. apply update_watch_paths_fmap. Qed.

(** The other changes of the tree. *)
Section changes.
Context (T : dir_tree) (root : Z) (Hwf : tree_wf T root).
Implicit Types (d e q : Z) (l lq : list str) (n : str).

Lemma mkdir_tree (m : gmap Z (list str)) d q n lq :
  T !! d = None → d ≠ root → has_path T root q lq → (∀ e, T !! e ≠ Some (q, n)) → seg_ok n →
  (∀ e x, T !! e = Some x → x.1 ≠ d) → (∀ e l, m !! e = Some l ↔ has_path T root e l) →
  tree_wf (<[d := (q, n)]> T) root ∧ ∀ e l, <[d := lq ++ [n]]> m !! e = Some l ↔ has_path (<[d := (q, n)]> T) root e l.
Proof.
  intros Hd Hdr Hq Hfree Hn Hch Hm.
  assert (q ≠ d) as Hqd.
  { intros ->. inversion Hq as [|d0 p n0 l0 Hp]; subst; [done|congruence]. }
  assert (tree_wf (<[d := (q, n)]> T) root) as Hwf'.
  { constructor.
    - rewrite lookup_insert_ne by done. by apply wf_root.
    - intros e q' m' [[-> Heq]|[_ He]]%lookup_insert_Some; [by simplify_eq|by eapply wf_names].
    - intros e e' x [[<- <-]|[Hne He]]%lookup_insert_Some [[<- Hx]|[Hne' He']]%lookup_insert_Some; try done.
      + by destruct (Hfree e').
      + subst x. by destruct (Hfree e).
      + by eapply wf_unique. }
  assert (∀ e l, has_path T root e l → has_path (<[d := (q, n)]> T) root e l) as Hmono.
  { induction 1 as [|e p n' l He Hp IH]; [constructor|]. apply has_path_child with p; [|done].
    rewrite lookup_insert_ne; [done|congruence]. }
  assert (∀ e l, has_path (<[d := (q, n)]> T) root e l → e ≠ d → has_path T root e l) as Hback.
  { induction 1 as [|e p n' l He Hp IH]; intros Hne; [constructor|].
    rewrite lookup_insert_ne in He by done. apply has_path_child with p; [done|]. apply IH. by apply (Hch e (p, n')). }
  split; [done|]. intros e l. rewrite lookup_insert_Some, Hm. split.
  - intros [[<- <-]|[Hne He]]; [|auto]. apply has_path_child with q; [by rewrite lookup_insert_eq|auto].
  - intros He. destruct (decide (d = e)) as [<-|Hne]; [left|right; auto]. split; [done|].
    eapply (has_path_det _ _ Hwf' d); [|done]. apply has_path_child with q; [by rewrite lookup_insert_eq|auto].
Qed.

(** Directories of the tree that are left have the paths they had. *)
Lemma sub_tree (T' : dir_tree) (m m' : gmap Z (list str)) :
  (∀ e x, T' !! e = Some x → T !! e = Some x) → (∀ e l, m !! e = Some l ↔ has_path T root e l) →
  (∀ e l, m' !! e = Some l → m !! e = Some l) →
  (∀ e l, has_path T' root e l → is_Some (m' !! e)) →
  (∀ e q n, T !! e = Some (q, n) → is_Some (m' !! e) → T' !! e = Some (q, n) ∧ is_Some (m' !! q)) →
  tree_wf T' root ∧ ∀ e l, m' !! e = Some l ↔ has_path T' root e l.
Proof.
  intros Hsub Hm Hmm Hdom Hup.
  assert (∀ e l, has_path T' root e l → has_path T root e l) as Hmono.
  { induction 1 as [|e p n' l He Hp IH]; [constructor|]. apply has_path_child with p; eauto. }
  split.
  - constructor.
    + destruct (T' !! root) as [x|] eqn:Hx; [|done]. apply Hsub in Hx. by rewrite (wf_root _ _ Hwf) in Hx.
    + intros e q n He. by eapply wf_names, Hsub.
    + intros e e' x He He'. eapply wf_unique; eauto.
  - intros e l. split.
    + intros He. pose proof (Hmm _ _ He) as Hp. apply Hm in Hp. assert (is_Some (m' !! e)) as Hs by eauto. clear He.
      induction Hp as [|e q n l He Hq IH]; [constructor|]. destruct (Hup e q n He Hs) as [H1 H2].
      apply has_path_child with q; auto.
    + intros He. destruct (Hdom _ _ He) as [l' Hl']. rewrite Hl'. f_equal.
      eapply has_path_det; [done| |by apply Hmono]. by apply Hm, Hmm.
Qed.
End changes.

(** ** The watcher follows the tree *)

Implicit Types (T : dir_tree) (M : gmap Z (list str)) (d q root c : Z) (n : str) (l : list str).

(** Each directory of the tree is watched under its path, and nothing else is. *)
Record tracks (root : Z) T s : Prop := {
  tr_tree : tree_wf T root;
  tr_recursive : recursive_ s = true;
  tr_paths : ∃ M, wd_paths_ s = path_str <$> M ∧ ∀ d l, M !! d = Some l ↔ has_path T root d l;
  tr_moves : map_Forall (λ _ m, mv_is_dir m = false) (pending_moves_ s);
}.

(** The parts of the state that the invariant reads. *)
Definition same_watches s s' : Prop := recursive_ s' = recursive_ s ∧ wd_paths_ s' = wd_paths_ s.

Lemma tracks_same root T s s' :
  tracks root T s → same_watches s s' → map_Forall (λ _ m, mv_is_dir m = false) (pending_moves_ s') → tracks root T s'.
Proof. intros [Ht Hr Hp _] [H1 H2] Hm. constructor; [done|congruence|by rewrite H2|done]. Qed.

Lemma to_slashes_path l : Forall seg_ok l → to_slashes (path_str l) = path_str l.
Proof.
  assert (∀ n, seg_ok n → to_slashes n = n) as Hseg.
  { intros n (_ & _ & Hn). unfold to_slashes. induction n as [|c n IH]; [done|]. cbn. rewrite decide_False by set_solver.
    f_equal. apply IH. set_solver. }
  induction 1 as [|n l Hn Hl IH]; [done|]. destruct (decide (l = [])) as [->|Hne]; [by apply Hseg|].
  rewrite path_str_cons by done. unfold to_slashes in *. rewrite fmap_app. f_equal; [by apply Hseg|]. cbn. by f_equal.
Qed.

Lemma tracks_lookup root T s d l : tracks root T s → has_path T root d l → wd_paths_ s !! d = Some (path_str l).
Proof. intros Ht Hl. destruct (tr_paths _ _ _ Ht) as (M & -> & HM). rewrite lookup_fmap. apply HM in Hl. by rewrite Hl. Qed.

Lemma path_str_ne l n : Forall seg_ok (l ++ [n]) → path_str (l ++ [n]) ≠ [].
Proof. intros Hl Hp%path_str_nil; [by destruct l|done]. Qed.

Definition file_masks : list Z := [IN_CREATE; IN_DELETE; IN_MODIFY; IN_ATTRIB; IN_MOVED_FROM; IN_MOVED_TO].

Definition dir_mask (mask : Z) : Z := Z.lor mask IN_ISDIR.

(** Evaluate the tests of a concrete mask. *)
Ltac eval_bits H :=
  repeat match type of H with
  | context [has_bit ?a ?b] => let v := eval vm_compute in (has_bit a b) in change (has_bit a b) with v in H
  end; cbv beta iota zeta delta [orb] in H.

Section follow_kernel.
Context {W : Type} `{Inotify W}.
Implicit Types (w : W).

Lemma handle_file wd mask c n s w s' w' :
  mask ∈ file_masks → map_Forall (λ _ m, mv_is_dir m = false) (pending_moves_ s) →
  handle_record wd mask c n s w = (s', w') →
  same_watches s s' ∧ map_Forall (λ _ m, mv_is_dir m = false) (pending_moves_ s').
Proof.
  intros Hmask Hmoves He. unfold same_watches.
  unfold handle_record, handle_entry in He. destruct (wd_paths_ s !! wd) as [parent|] eqn:Hwd.
  - unfold file_masks in Hmask. rewrite !elem_of_cons, elem_of_nil in Hmask.
    destruct Hmask as [-> |[-> |[-> |[-> |[-> |[-> |[]]]]]]]; eval_bits He; try (simplify_eq; by split).
    + unfold created_entry in He. rewrite andb_false_r in He. simplify_eq. by split.
    + case_decide; simplify_eq; [|by split]. split; [done|]. simpl. by apply map_Forall_insert_2.
    + unfold moved_to in He. case_match eqn:Hc.
      * case_decide; [|done]. rewrite (map_Forall_lookup_1 _ _ _ _ Hmoves Hc), andb_false_r in He. simplify_eq. split; [done|].
        simpl. by apply map_Forall_delete.
      * unfold created_entry in He. rewrite andb_false_r in He. simplify_eq. by split.
  - unfold file_masks in Hmask. rewrite !elem_of_cons, elem_of_nil in Hmask.
    destruct Hmask as [-> |[-> |[-> |[-> |[-> |[-> |[]]]]]]]; eval_bits He; simplify_eq; by split.
Qed.

Lemma tracks_mkdir root T s w d q n lq w1 s' w' :
  tracks root T s →
  T !! d = None → d ≠ root → has_path T root q lq → (∀ e, T !! e ≠ Some (q, n)) → seg_ok n →
  (∀ e x, T !! e = Some x → x.1 ≠ d) →
  inotify_add_watch (fd_ s) (full_path s (path_str (lq ++ [n]))) w = (inr d, w1) →
  directory_listing (full_path s (path_str (lq ++ [n]))) w1 = ([], None) →
  handle_record q (dir_mask IN_CREATE) 0 n s w = (s', w') →
  tracks root (<[d := (q, n)]> T) s'.
Proof.
  intros Ht Hd Hdr Hq Hfree Hn Hch Hadd Hlist He.
  pose proof (has_path_ok T root (tr_tree _ _ _ Ht) _ _ Hq) as Hlq.
  unfold handle_record, handle_entry in He. rewrite (tracks_lookup _ _ _ _ _ Ht Hq) in He. eval_bits He.
  rewrite join_relative_path in He by (done || by destruct Hn). unfold created_entry in He. cbn [recursive_ push set_pending] in He.
  rewrite (tr_recursive _ _ _ Ht) in He. cbn [andb] in He. unfold add_watch_tree, add_watch in He.
  change (full_path (push _ s)) with (full_path s) in He. cbn [fd_ push set_pending] in He. rewrite Hadd in He.
  cbn [recursive_ set_wds push set_pending] in He. rewrite (tr_recursive _ _ _ Ht) in He.
  change (full_path (set_wds _ _)) with (full_path s) in He. rewrite Hlist in He. cbn in He. injection He as <- <-.
  rewrite to_slashes_path by (apply Forall_app; split; [done|by apply Forall_singleton]).
  destruct (tr_paths _ _ _ Ht) as (M & HM & HMp).
  destruct (mkdir_tree T root (tr_tree _ _ _ Ht) M d q n lq) as [Hwf' HM']; [done..|].
  constructor; [done|apply Ht| |apply Ht]. exists (<[d := lq ++ [n]]> M). split; [|done].
  simpl. by rewrite HM, fmap_insert.
Qed.

Lemma tracks_rmdir root T s w d q n lq s1 w1 s2 w2 s' w' :
  tracks root T s →
  T !! d = Some (q, n) → has_path T root q lq → (∀ e x, T !! e = Some x → x.1 ≠ d) →
  handle_record d IN_DELETE_SELF 0 [] s w = (s1, w1) →
  handle_record d IN_IGNORED 0 [] s1 w1 = (s2, w2) →
  handle_record q (dir_mask IN_DELETE) 0 n s2 w2 = (s', w') →
  tracks root (delete d T) s'.
Proof.
  intros Ht Hd Hq Hch H1 H2 H3. assert (has_path T root d (lq ++ [n])) as Hdp by by eapply has_path_child.
  pose proof (has_path_ok T root (tr_tree _ _ _ Ht) _ _ Hdp) as Hok.
  unfold handle_record, handle_entry in H1. rewrite (tracks_lookup _ _ _ _ _ Ht Hdp) in H1. eval_bits H1.
  unfold self_gone in H1. rewrite decide_False in H1 by by apply path_str_ne. injection H1 as <- <-.
  unfold handle_record in H2. eval_bits H2. injection H2 as <- <-.
  assert (q ≠ d) as Hqd by by apply (Hch d (q, n)).
  unfold handle_record, handle_entry in H3. cbn [wd_paths_ set_wds] in H3. rewrite lookup_delete_ne in H3 by done.
  rewrite (tracks_lookup _ _ _ _ _ Ht Hq) in H3. eval_bits H3. injection H3 as <- <-.
  destruct (tr_paths _ _ _ Ht) as (M & HM & HMp).
  destruct (sub_tree T root (tr_tree _ _ _ Ht) (delete d T) M (delete d M)) as [Hwf' HM'].
  - intros e x [_ ?]%lookup_delete_Some. done.
  - done.
  - intros e l [_ ?]%lookup_delete_Some. done.
  - intros e l He. assert (e ≠ d) as Hne.
    { intros ->. inversion He as [|d0 q0 n0 l0 Hx]; subst; [|by rewrite lookup_delete_eq in Hx].
      by rewrite (wf_root _ _ (tr_tree _ _ _ Ht)) in Hd. }
    rewrite lookup_delete_ne by done. exists l. apply HMp. induction He as [|e q0 n0 l0 Hx Hy IH]; [constructor|].
    apply lookup_delete_Some in Hx as [_ Hx]. apply has_path_child with q0; [done|]. apply IH. by apply (Hch e (q0, n0)).
  - intros e q0 n0 He [l [Hne Hl]%lookup_delete_Some]. split; [by rewrite lookup_delete_ne|].
    assert (q0 ≠ d) by by apply (Hch e (q0, n0)). rewrite lookup_delete_ne by done.
    apply HMp in Hl. inversion Hl as [|d0 q1 n1 l0 Hx Hy]; subst.
    + by rewrite (wf_root _ _ (tr_tree _ _ _ Ht)) in He.
    + rewrite He in Hx. simplify_eq. exists l0. by apply HMp.
  - constructor; [done|apply Ht| |apply Ht]. exists (delete d M). split; [|done]. simpl. by rewrite HM, fmap_delete.
Qed.

(** The two halves of a move, one after the other, whatever other moves wait. *)
Lemma tracks_move root T s w d q q' n n' lq lq' c s1 w1 s2 w2 s' w' :
  tracks root T s → can_move T root d q q' n n' lq lq' → c ≠ 0 →
  handle_record q (dir_mask IN_MOVED_FROM) c n s w = (s1, w1) →
  handle_record q' (dir_mask IN_MOVED_TO) c n' s1 w1 = (s2, w2) →
  handle_record d IN_MOVE_SELF 0 [] s2 w2 = (s', w') →
  tracks root (<[d := (q', n')]> T) s'.
Proof.
  intros Ht Hm Hc H1 H2 H3. pose proof Hm as [Hd Hq Hq' _ Hn' _].
  pose proof (tr_tree _ _ _ Ht) as Hwf. pose proof (tr_paths _ _ _ Ht) as (M & HM & HMp).
  assert (has_path T root d (lq ++ [n])) as Hdp by by eapply has_path_child.
  pose proof (has_path_ok T root Hwf _ _ Hdp) as Hok. pose proof (has_path_ok T root Hwf _ _ Hq') as Hok'.
  assert (seg_ok n) as Hn by by eapply wf_names.
  unfold handle_record, handle_entry in H1. rewrite (tracks_lookup _ _ _ _ _ Ht Hq) in H1. eval_bits H1.
  rewrite decide_True, join_relative_path in H1 by (done || (by destruct Hn) || by apply Forall_app in Hok as [? _]). injection H1 as <- <-.
  unfold handle_record, handle_entry in H2. cbn [wd_paths_ set_moves] in H2. rewrite (tracks_lookup _ _ _ _ _ Ht Hq') in H2. eval_bits H2.
  unfold moved_to in H2. rewrite decide_True in H2 by done. cbn [pending_moves_ set_moves] in H2.
  rewrite lookup_insert_eq in H2. rewrite join_relative_path in H2 by (done || by destruct Hn').
  cbn [recursive_ push set_pending set_moves mv_path mv_is_dir orb wd_paths_] in H2. rewrite (tr_recursive _ _ _ Ht) in H2. cbn [andb] in H2.
  rewrite HM, update_watch_paths_fmap in H2; [|done|by destruct lq|by destruct lq'|].
  2:{ intros e l Hl. apply HMp in Hl. by eapply has_path_ok. }
  injection H2 as <- <-.
  pose proof (move_tree T root d q q' n n' lq lq' Hwf Hm M HMp) as HM'.
  set (M' := move_path _ _ <$> M) in *.
  assert (has_path (<[d := (q', n')]> T) root d (move_path (lq ++ [n]) (lq' ++ [n']) (lq ++ [n]))) as Hdn by by eapply move_inside.
  assert (M' !! d = Some (lq' ++ [n'])) as Hnew.
  { apply HM' in Hdn. rewrite Hdn. unfold move_path. rewrite decide_True, drop_all, app_nil_r; done. }
  unfold handle_record, handle_entry in H3. cbn [wd_paths_ set_wds] in H3. rewrite lookup_fmap, Hnew in H3. eval_bits H3.
  cbn in H3. unfold self_gone in H3. rewrite decide_False in H3.
  2:{ apply path_str_ne. apply Forall_app. split; [done|by apply Forall_singleton]. }
  injection H3 as <- <-. constructor.
  - by eapply move_tree_wf.
  - apply Ht.
  - exists M'. done.
  - simpl. rewrite delete_insert_eq. apply map_Forall_delete, Ht.
Qed.
End follow_kernel.

Section follow.
Context {W : Type} `{Inotify W}.
Context (iter : ∀ A : Type, gmap Z A → list (Z * A)).
Context (iter_perm : ∀ A (m : gmap Z A), iter A m ≡ₚ map_to_list m).
Implicit Types (w : W).

(** [remove_watch_tree]: exactly the watches of a directory and of what is below it go. *)
Lemma remove_watch_tree_paths path s w :
  let '(s', _) := remove_watch_tree iter path s w in
  wd_paths_ s' = filter (λ e, is_same_or_child e.2 path = false) (wd_paths_ s) ∧
  recursive_ s' = recursive_ s ∧ pending_moves_ s' = pending_moves_ s ∧ fd_ s' = fd_ s ∧ pending_ s' = pending_ s.
Proof.
  unfold remove_watch_tree. set (gone := filter _ _).
  assert (∀ (l : list (Z * str)) s w, let '(s', _) := foldl (λ st e, (set_wds (delete e.1 (wd_paths_ st.1)) st.1, inotify_rm_watch (fd_ st.1) e.1 st.2)) (s, w) l in
    wd_paths_ s' = filter (λ e, e.1 ∉ l.*1) (wd_paths_ s) ∧
    recursive_ s' = recursive_ s ∧ pending_moves_ s' = pending_moves_ s ∧ fd_ s' = fd_ s ∧ pending_ s' = pending_ s) as Hfold.
  { intros l. induction l as [|[wd x] l IH]; intros s0 w0.
    - simpl. split; [|done]. symmetry. apply map_filter_id. intros i y _. simpl. by apply not_elem_of_nil.
    - simpl. specialize (IH (set_wds (delete wd (wd_paths_ s0)) s0) (inotify_rm_watch (fd_ s0) wd w0)).
      destruct (foldl _ _ l) as [s1 w1]. destruct IH as (-> & -> & -> & -> & ->). simpl. split; [|done].
      apply map_eq. intros i. apply option_eq. intros y. rewrite !map_lookup_filter_Some, lookup_delete_Some, not_elem_of_cons.
      simpl. naive_solver. }
  specialize (Hfold gone s w). destruct (foldl _ _ gone) as [s' w']. destruct Hfold as (-> & Hrest). split; [|done].
  apply map_filter_ext. intros wd x Hx. simpl. rewrite list_elem_of_fmap.
  unfold gone. setoid_rewrite list_elem_of_filter. setoid_rewrite iter_perm. split.
  - intros Hn. apply not_true_iff_false. intros Ht. apply Hn. exists (wd, x). split; [done|]. split; [done|]. by apply elem_of_map_to_list.
  - intros Hf ([wd' x'] & -> & Ht & Hin%elem_of_map_to_list). simpl in *. congruence.
Qed.

(** [flush_pending_moves]: one removal for each move that waits, and the watches of the
    directories among them are gone. *)
Definition outside_moves (ms : list (Z * pending_move)) (e : Z * str) : Prop :=
  Forall (λ m, mv_is_dir m.2 = true → is_same_or_child e.2 (mv_path m.2) = false) ms.

#[local] Instance outside_moves_dec ms e : Decision (outside_moves ms e).
Proof. apply Forall_dec. intros m. apply _. Defined.

Definition removal (m : Z * pending_move) : watch_event := mkEvent removed (mv_path m.2) [] (mv_is_dir m.2).

Lemma flush_moves_fold ms s w :
  let '(s', _) := foldl (flush_move iter) (s, w) ms in
  wd_paths_ s' = filter (outside_moves ms) (wd_paths_ s) ∧ recursive_ s' = recursive_ s ∧ fd_ s' = fd_ s ∧
  pending_ s' = pending_ s ++ (removal <$> ms).
Proof.
  revert s w. induction ms as [|m ms IH]; intros s w.
  - simpl. rewrite app_nil_r. split; [|done]. symmetry. apply map_filter_id. intros i y _. by apply Forall_nil.
  - cbn [foldl]. assert (let '(s1, _) := flush_move iter (s, w) m in
      wd_paths_ s1 = filter (outside_moves [m]) (wd_paths_ s) ∧ recursive_ s1 = recursive_ s ∧ fd_ s1 = fd_ s ∧
      pending_ s1 = pending_ s ++ [removal m]) as Hone.
    { unfold flush_move. destruct (mv_is_dir m.2) eqn:Hd.
      - pose proof (remove_watch_tree_paths (mv_path m.2) (push (removal m) s) w) as Hrm.
        unfold removal in *. rewrite Hd in *. simpl. destruct (remove_watch_tree _ _ _ _) as [s1 w1].
        destruct Hrm as (-> & -> & _ & -> & ->). split; [|done]. apply map_filter_ext. intros i x _.
        unfold outside_moves. rewrite Forall_singleton. simpl. naive_solver.
      - simpl. unfold removal. rewrite Hd. split; [|done]. symmetry. apply map_filter_id. intros i x _.
        unfold outside_moves. rewrite Forall_singleton. congruence. }
    destruct (flush_move iter (s, w) m) as [s1 w1]. specialize (IH s1 w1). destruct (foldl _ _ ms) as [s2 w2].
    destruct Hone as (H1 & H2 & H3 & H4), IH as (-> & -> & -> & ->). rewrite H1, H2, H3, H4, map_filter_filter.
    split; [|by rewrite <- app_assoc]. apply map_filter_ext. intros i x _. unfold outside_moves.
    rewrite Forall_singleton, Forall_cons. naive_solver.
Qed.

Lemma flush_moves_spec s w s' w' :
  flush_pending_moves iter s w = (s', w') →
  wd_paths_ s' = filter (outside_moves (map_to_list (pending_moves_ s))) (wd_paths_ s) ∧ recursive_ s' = recursive_ s ∧
  fd_ s' = fd_ s ∧ pending_moves_ s' = ∅ ∧ ∃ ms, ms ≡ₚ map_to_list (pending_moves_ s) ∧ pending_ s' = pending_ s ++ (removal <$> ms).
Proof.
  unfold flush_pending_moves. intros He. pose proof (flush_moves_fold (iter _ (pending_moves_ s)) s w) as Hf.
  destruct (foldl _ _ _) as [s1 w1]. simplify_eq/=. destruct Hf as (-> & -> & -> & ->). split_and!; [|done..|].
  - apply map_filter_ext. intros i x _. unfold outside_moves. by rewrite iter_perm.
  - exists (iter _ (pending_moves_ s)). split; [apply iter_perm|done].
Qed.

(** Without a directory that waits, giving up on moves concerns events only. *)
Lemma flush_files s w s' w' :
  map_Forall (λ _ m, mv_is_dir m = false) (pending_moves_ s) → flush_pending_moves iter s w = (s', w') →
  same_watches s s' ∧ pending_moves_ s' = ∅.
Proof.
  intros Hm (Hwd & Hr & _ & Hmv & _)%flush_moves_spec. split; [|done]. split; [done|]. rewrite Hwd.
  apply map_filter_id. intros i x _. unfold outside_moves. rewrite Forall_forall. intros [c m] Hin%elem_of_map_to_list Hd.
  simpl in *. by rewrite (map_Forall_lookup_1 _ _ _ _ Hm Hin) in Hd.
Qed.


(** Changes of the file system with the records that the kernel writes for them, and the two
    things that [next] does between records: it takes an event, or it gives up waiting for the
    other half of a move. *)
Inductive fs_step (root : Z) : dir_tree * watcher * W → dir_tree * watcher * W → Prop :=
  | fs_file T s w wd mask c n s' w' :
      mask ∈ file_masks → handle_record wd mask c n s w = (s', w') →
      fs_step root (T, s, w) (T, s', w')
  | fs_mkdir T s w d q n lq w1 s' w' :
      T !! d = None → d ≠ root → has_path T root q lq → (∀ e, T !! e ≠ Some (q, n)) → seg_ok n →
      (∀ e x, T !! e = Some x → x.1 ≠ d) →
      inotify_add_watch (fd_ s) (full_path s (path_str (lq ++ [n]))) w = (inr d, w1) →
      directory_listing (full_path s (path_str (lq ++ [n]))) w1 = ([], None) →
      handle_record q (dir_mask IN_CREATE) 0 n s w = (s', w') →
      fs_step root (T, s, w) (<[d := (q, n)]> T, s', w')
  | fs_rmdir T s w d q n lq s1 w1 s2 w2 s' w' :
      T !! d = Some (q, n) → has_path T root q lq → (∀ e x, T !! e = Some x → x.1 ≠ d) →
      handle_record d IN_DELETE_SELF 0 [] s w = (s1, w1) →
      handle_record d IN_IGNORED 0 [] s1 w1 = (s2, w2) →
      handle_record q (dir_mask IN_DELETE) 0 n s2 w2 = (s', w') →
      fs_step root (T, s, w) (delete d T, s', w')
  | fs_move T s w d q q' n n' lq lq' c s1 w1 s2 w2 s' w' :
      can_move T root d q q' n n' lq lq' → c ≠ 0 →
      handle_record q (dir_mask IN_MOVED_FROM) c n s w = (s1, w1) →
      handle_record q' (dir_mask IN_MOVED_TO) c n' s1 w1 = (s2, w2) →
      handle_record d IN_MOVE_SELF 0 [] s2 w2 = (s', w') →
      fs_step root (T, s, w) (<[d := (q', n')]> T, s', w')
  | fs_move_out T T' s w d q n lq c s1 w1 s' w' :
      T !! d = Some (q, n) → has_path T root q lq → c ≠ 0 →
      (∀ e x, T' !! e = Some x ↔ T !! e = Some x ∧ ∀ l, has_path T root e l → ¬ (lq ++ [n]) `prefix_of` l) →
      handle_record q (dir_mask IN_MOVED_FROM) c n s w = (s1, w1) →
      flush_pending_moves iter s1 w1 = (s', w') →
      fs_step root (T, s, w) (T', s', w')
  | fs_flush T s w s' w' :
      flush_pending_moves iter s w = (s', w') →
      fs_step root (T, s, w) (T, s', w')
  | fs_pop T s w ev s' :
      pop_pending s = Some (ev, s') → fs_step root (T, s, w) (T, s', w).


(** A directory that leaves the tree: only its [MOVED_FROM] is seen. *)
Lemma tracks_move_out root T T' s w d q n lq c s1 w1 s' w' :
  tracks root T s →
  T !! d = Some (q, n) → has_path T root q lq → c ≠ 0 →
  (∀ e x, T' !! e = Some x ↔ T !! e = Some x ∧ ∀ l, has_path T root e l → ¬ (lq ++ [n]) `prefix_of` l) →
  handle_record q (dir_mask IN_MOVED_FROM) c n s w = (s1, w1) →
  flush_pending_moves iter s1 w1 = (s', w') →
  tracks root T' s'.
Proof.
  intros Ht Hd Hq Hc HT' H1 Hflush. pose proof (tr_tree _ _ _ Ht) as Hwf. pose proof (tr_paths _ _ _ Ht) as (M & HM & HMp).
  assert (has_path T root d (lq ++ [n])) as Hdp by by eapply has_path_child.
  pose proof (has_path_ok T root Hwf _ _ Hdp) as Hok. assert (seg_ok n) as Hn by by eapply wf_names.
  unfold handle_record, handle_entry in H1. rewrite (tracks_lookup _ _ _ _ _ Ht Hq) in H1. eval_bits H1.
  rewrite decide_True, join_relative_path in H1 by (done || (by destruct Hn) || by apply Forall_app in Hok as [? _]). injection H1 as <- <-.
  apply flush_moves_spec in Hflush as (Hwd & Hr & _ & Hmv & _). cbn [wd_paths_ set_moves recursive_ pending_moves_] in *.
  assert (∀ i l, M !! i = Some l → outside_moves (map_to_list (<[c:={| mv_path := path_str (lq ++ [n]); mv_is_dir := true |}]> (pending_moves_ s))) (i, path_str l)
    ↔ ¬ (lq ++ [n]) `prefix_of` l) as Hout.
  { intros i l Hl. apply HMp in Hl. pose proof (has_path_ok T root Hwf _ _ Hl) as Hlok.
    rewrite <- same_or_child_prefix by (done || by destruct lq). rewrite not_true_iff_false. unfold outside_moves.
    rewrite Forall_forall. split.
    - intros Hall. apply (Hall (c, mkMove (path_str (lq ++ [n])) true)); [|done]. apply elem_of_map_to_list. by rewrite lookup_insert_eq.
    - intros Hf [c' m] [[<- <-]|[Hne Hin]]%elem_of_map_to_list%lookup_insert_Some Hdir; [done|].
      simpl in *. by rewrite (map_Forall_lookup_1 _ _ _ _ (tr_moves _ _ _ Ht) Hin) in Hdir. }
  set (M' := filter (λ e, ¬ (lq ++ [n]) `prefix_of` e.2) M).
  destruct (sub_tree T root Hwf T' M M') as [Hwf' HM'].
  - intros e x Hx. by apply HT' in Hx as [? _].
  - done.
  - intros e l [? _]%map_lookup_filter_Some. done.
  - intros e l He. induction He as [|e q0 n0 l He Hq0 [l0 IH]].
    + exists []. apply map_lookup_filter_Some. split; [apply HMp; constructor|]. simpl. intros Hp%prefix_nil_inv. by destruct lq.
    + apply HT' in He as [He Hno]. apply map_lookup_filter_Some in IH as [IH _]. apply HMp in IH.
      assert (has_path T root e (l0 ++ [n0])) as Hp by by eapply has_path_child.
      exists (l0 ++ [n0]). apply map_lookup_filter_Some. split; [by apply HMp|]. by apply Hno.
  - intros e q0 n0 He [l [Hl Hno]%map_lookup_filter_Some]. apply HMp in Hl. simpl in Hno. split.
    + apply HT'. split; [done|]. intros l' Hl'. by rewrite (has_path_det T root Hwf e l' l).
    + inversion Hl as [|d0 q1 n1 l0 Hx Hy]; subst; [by rewrite (wf_root _ _ Hwf) in He|]. rewrite He in Hx. simplify_eq.
      exists l0. apply map_lookup_filter_Some. split; [by apply HMp|]. simpl. intros Hp. apply Hno. by apply prefix_app_r.
  - constructor; [done|by rewrite Hr; apply Ht| |by rewrite Hmv]. exists M'. split; [|done]. rewrite Hwd, HM. unfold M'.
    apply map_eq. intros i. apply option_eq. intros x. rewrite map_lookup_filter_Some, !lookup_fmap_Some.
    setoid_rewrite map_lookup_filter_Some. simpl. split.
    + intros [(l & <- & Hl) Ho]. exists l. split; [done|]. split; [done|]. by apply (Hout i).
    + intros (l & <- & Hl & Ho). split; [by exists l|]. by apply Hout.
Qed.

(** C28 As long as the watcher keeps up with the changes, it watches each directory of the tree
    under its current path and nothing else: through directories that come and go, renames and
    moves with everything below, and the files in between. *)
Theorem watcher_follows_tree root T s w T' s' w' :
  tracks root T s → rtc (fs_step root) (T, s, w) (T', s', w') → tracks root T' s'.
Proof.
  intros Ht Hr. remember (T, s, w) as x eqn:Hx. remember (T', s', w') as y eqn:Hy.
  revert T s w Ht Hx. induction Hr as [x|x y z Hs Hr IH]; intros T s w Ht Hx; subst; [by simplify_eq|].
  inversion Hs; subst; (eapply IH; [done| |done]).
  - match goal with Hh : handle_record _ _ _ _ _ _ = _ |- _ => eapply handle_file in Hh as [Hsame Hmv]; [|done|apply Ht] end.
    by eapply tracks_same.
  - by eapply tracks_mkdir.
  - by eapply tracks_rmdir.
  - by eapply tracks_move.
  - by eapply tracks_move_out.
  - match goal with Hh : flush_pending_moves _ _ _ = _ |- _ => eapply flush_files in Hh as [Hsame Hmv]; [|apply Ht] end.
    eapply tracks_same; [done|done|by rewrite Hmv].
  - unfold pop_pending in *. case_match; simplify_eq. eapply tracks_same; [done|done|apply Ht].
Qed.
End follow.

(** ** The records in the buffer *)

(** A record as the kernel writes it: the name is followed by at least one NUL. *)
Record ino_record : Type := mkRecord {
  ir_wd : Z;
  ir_mask : Z;
  ir_cookie : Z;
  ir_name : str;
  ir_nuls : nat;
}.

Definition ir_len (r : ino_record) : nat := (length (ir_name r) + ir_nuls r)%nat.

Definition ir_wf (r : ino_record) : Prop :=
  - 2 ^ 31 ≤ ir_wd r < 2 ^ 31 ∧ 0 ≤ ir_mask r < u32_modulus ∧ 0 ≤ ir_cookie r < u32_modulus ∧
  Z.of_nat (ir_len r) < u32_modulus ∧ Ascii.zero ∉ ir_name r ∧ (ir_name r = [] ∨ 0 < ir_nuls r)%nat.

Definition ir_bytes (r : ino_record) : str :=
  le_bytes 4 (ir_wd r `mod` u32_modulus) ++ le_bytes 4 (ir_mask r) ++ le_bytes 4 (ir_cookie r) ++
  le_bytes 4 (Z.of_nat (ir_len r)) ++ ir_name r ++ replicate (ir_nuls r) Ascii.zero.

Definition ino_encode (rs : list ino_record) : str := rs ≫= ir_bytes.

Lemma length_ir_bytes r : length (ir_bytes r) = (event_header + ir_len r)%nat.
Proof. unfold ir_bytes, event_header, ir_len. rewrite !length_app, !length_le_bytes, length_replicate. lia. Qed.

Lemma to_i32_mod z : - 2 ^ 31 ≤ z < 2 ^ 31 → to_i32 (z `mod` u32_modulus) = z.
Proof.
  intros Hz. unfold to_i32, u32_modulus. change (2 ^ 31) with 2147483648 in *. change (2 ^ 32) with 4294967296.
  destruct (decide (0 ≤ z)).
  - rewrite Z.mod_small by lia. by rewrite decide_True by lia.
  - rewrite <- (Z.mod_add z 1) by lia. rewrite Z.mod_small by lia. rewrite decide_False by lia. lia.
Qed.

Lemma c_string_nul (name rest : str) k :
  Ascii.zero ∉ name → (0 < k)%nat → c_string (name ++ replicate k Ascii.zero ++ rest) = Some name.
Proof.
  intros Hn Hk. induction name as [|c name IH].
  - destruct k; [lia|]. done.
  - cbn. rewrite decide_False by (intros ->; set_solver). rewrite IH by set_solver. done.
Qed.

Section records.
Context {W : Type} `{Inotify W}.
Implicit Types (w : W).

Definition handle_ir (st : watcher * W) (r : ino_record) : watcher * W :=
  handle_record (ir_wd r) (ir_mask r) (ir_cookie r) (ir_name r) st.1 st.2.

(** The fields of a record, where [parse_loop] looks for them. *)
Lemma ir_fields (pre : str) r (post : str) (buf := pre ++ ir_bytes r ++ post) :
  ir_wf r →
  rd_u32 buf (length pre) = Some (ir_wd r `mod` u32_modulus) ∧ rd_u32 buf (length pre + 4) = Some (ir_mask r) ∧
  rd_u32 buf (length pre + 8) = Some (ir_cookie r) ∧ rd_u32 buf (length pre + 12) = Some (Z.of_nat (ir_len r)) ∧
  drop (length pre + event_header) buf = ir_name r ++ replicate (ir_nuls r) Ascii.zero ++ post.
Proof.
  intros (Hwd & Hmask & Hck & Hlen & _). pose proof (Z.mod_pos_bound (ir_wd r) u32_modulus ltac:(done)).
  unfold buf, ir_bytes, event_header. split_and!.
  - eapply (rd_u32_at _ pre); [by rewrite <- ?app_assoc|done|lia].
  - eapply (rd_u32_at _ (pre ++ le_bytes 4 (ir_wd r `mod` u32_modulus))); [by rewrite <- ?app_assoc| |done].
    by rewrite length_app, length_le_bytes.
  - eapply (rd_u32_at _ (pre ++ le_bytes 4 (ir_wd r `mod` u32_modulus) ++ le_bytes 4 (ir_mask r))); [by rewrite <- ?app_assoc| |done].
    rewrite !length_app, !length_le_bytes. lia.
  - eapply (rd_u32_at _ (pre ++ le_bytes 4 (ir_wd r `mod` u32_modulus) ++ le_bytes 4 (ir_mask r) ++ le_bytes 4 (ir_cookie r)));
      [by rewrite <- ?app_assoc| |lia].
    rewrite !length_app, !length_le_bytes. lia.
  - trans (drop (length pre + 16) ((pre ++ le_bytes 4 (ir_wd r `mod` u32_modulus) ++ le_bytes 4 (ir_mask r) ++ le_bytes 4 (ir_cookie r) ++
      le_bytes 4 (Z.of_nat (ir_len r))) ++ ir_name r ++ replicate (ir_nuls r) Ascii.zero ++ post)).
    + f_equal. by rewrite <- !app_assoc.
    + apply drop_app_length'. rewrite !length_app, !length_le_bytes. lia.
Qed.

Lemma ino_loop_encode rs (pre rest : str) s w fuel :
  Forall ir_wf rs → (length rs < fuel)%nat →
  parse_loop fuel (pre ++ ino_encode rs ++ rest) (length pre + length (ino_encode rs)) (length pre) s w =
  Some (foldl handle_ir (s, w) rs).
Proof.
  revert pre s w fuel. induction rs as [|r rs IH]; intros pre s w fuel Hwf Hf; (destruct fuel as [|fuel]; simpl in Hf; [lia|]).
  - cbn [parse_loop ino_encode mbind list_bind length foldl]. rewrite decide_False by (unfold event_header; simpl; lia). done.
  - inversion_clear Hwf as [|?? Hr Hrs]. change (ino_encode (r :: rs)) with (ir_bytes r ++ ino_encode rs).
    rewrite <- (app_assoc (ir_bytes r)), (length_app (ir_bytes r)), length_ir_bytes.
    destruct (ir_fields pre r (ino_encode rs ++ rest) Hr) as (H0 & H4 & H8 & H12 & Hname).
    cbn [parse_loop]. rewrite decide_True by (unfold event_header; lia). rewrite H0, H4, H8, H12, Hname. cbn [mbind option_bind].
    rewrite Nat2Z.id, decide_False by lia.
    assert ((if decide (Z.of_nat (ir_len r) = 0) then Some [] else c_string (ir_name r ++ replicate (ir_nuls r) Ascii.zero ++ ino_encode rs ++ rest))
      = Some (ir_name r)) as ->.
    { destruct Hr as (_ & _ & _ & _ & Hz & Hn). case_decide as Hl.
      - unfold ir_len in Hl. destruct (ir_name r); [done|simpl in Hl; lia].
      - apply c_string_nul; [done|]. unfold ir_len in Hl. destruct Hn as [Hn|]; [rewrite Hn in Hl; simpl in Hl; lia|done]. }
    cbn [option_bind mbind foldl]. rewrite to_i32_mod by apply Hr. fold (handle_ir (s, w) r).
    destruct (handle_ir (s, w) r) as [s1 w1] eqn:He. unfold handle_ir in He. simpl in He. rewrite He.
    replace (length pre + (event_header + ir_len r))%nat with (length (pre ++ ir_bytes r)) by (by rewrite length_app, length_ir_bytes).
    rewrite (app_assoc pre). rewrite <- (IH (pre ++ ir_bytes r) s1 w1 fuel) by (done || lia).
    f_equal. rewrite length_app, length_ir_bytes. lia.
Qed.

Lemma length_ino_encode rs : (16 * length rs ≤ length (ino_encode rs))%nat.
Proof.
  induction rs as [|r rs IH]; [done|]. change (ino_encode (r :: rs)) with (ir_bytes r ++ ino_encode rs).
  rewrite length_app, length_ir_bytes. unfold event_header. cbn [length]. lia.
Qed.

Lemma parse_encoded rs (rest : str) s w :
  Forall ir_wf rs →
  parse_records (ino_encode rs ++ rest) (Z.of_nat (length (ino_encode rs))) s w = Some (foldl handle_ir (s, w) rs).
Proof.
  intros Hwf. unfold parse_records. destruct rs as [|r rs]; [done|]. pose proof (length_ino_encode (r :: rs)) as Hlen.
  cbn [length] in Hlen. rewrite decide_False by lia. rewrite Nat2Z.id.
  apply (ino_loop_encode (r :: rs) [] rest); [done|]. cbn [length]. lia.
Qed.

(** Reading what the kernel wrote: the parser ends, handles each record once and in order, and
    reads nothing behind the last one. *)
Theorem ino_parse_encode rs (rest : str) s w :
  Forall ir_wf rs →
  parse_records (ino_encode rs ++ rest) (Z.of_nat (length (ino_encode rs))) s w = Some (foldl handle_ir (s, w) rs).
Proof. apply parse_encoded. Qed.
End records.

(** ** [next] comes to an end *)

Section next.
Context {W : Type} `{Inotify W}.
Context (iter : ∀ A : Type, gmap Z A → list (Z * A)).
Implicit Types (w : W) (cs : list poll).

(** A poll whose reads are interrupted, fail, or bring records. *)
Definition poll_ok (c : poll) : Prop :=
  pl_result c < 0 ∨
  ∃ k r, pl_reads c = replicate k (- EINTR) ++ [r] ∧
    (r < 0 ∧ r ≠ - EINTR ∨ ∃ rs rest, Forall ir_wf rs ∧ pl_buf c = ino_encode rs ++ rest ∧ r = Z.of_nat (length (ino_encode rs))).

Lemma read_again_last k r : r ≠ - EINTR → read_again (replicate k (- EINTR) ++ [r]) = Some r.
Proof.
  intros Hr. induction k as [|k IH]; cbn [replicate app read_again]; [by rewrite decide_False|].
  by rewrite decide_True.
Qed.

Lemma parse_error buf r s w : r < 0 → is_Some (parse_records buf r s w).
Proof. intros Hr. unfold parse_records. rewrite !decide_True by lia. eauto. Qed.

Lemma read_resume_ok (c : poll) s w : poll_ok c → is_Some (read_resume c s w).
Proof.
  unfold read_resume. intros [Hr|(k & r & Hreads & Hr)].
  - rewrite decide_True by done. by apply parse_error.
  - case_decide; [by apply parse_error|]. rewrite Hreads.
    rewrite read_again_last by (unfold EINTR in *; destruct Hr as [[]|(rs&rest&_&_&->)]; lia). cbn [mbind option_bind].
    case_decide; [eauto|]. destruct Hr as [[]|(rs & rest & Hwf & -> & ->)]; [by apply parse_error|].
    rewrite parse_encoded by done. eauto.
Qed.

(** The rounds that are left: a poll takes one, and one more when a move waits after it. *)
Definition next_measure s cs : nat := (2 * length cs + if decide (pending_moves_ s = ∅) then 0 else 1)%nat.

Definition settled s : Prop := pending_ s = [] ∧ pending_moves_ s = ∅ ∧ valid s = true.

Lemma flush_no_moves s w : pending_moves_ (flush_pending_moves iter s w).1 = ∅.
Proof. unfold flush_pending_moves. by destruct (foldl _ _ _). Qed.

Lemma next_round_ok s w cs :
  Forall poll_ok cs →
  match next_round iter s w cs with
  | Returned _ _ _ rest => Forall poll_ok rest
  | Awaiting s' _ => settled s' ∧ cs = []
  | Again s' _ rest => Forall poll_ok rest ∧ (next_measure s' rest < next_measure s cs)%nat
  | OutOfBounds => False
  end.
Proof.
  intros Hcs. unfold next_round, pop_pending. destruct (pending_ s) eqn:Hp; [|done]. destruct (valid s) eqn:Hv; [|done].
  assert (∀ (c : poll) cs', cs = c :: cs' → match next_read s w cs with
    | Again s' _ rest => Forall poll_ok rest ∧ (next_measure s' rest < next_measure s cs)%nat | _ => False end) as Hread.
  { intros c cs' ->. inversion_clear Hcs as [|?? Hc Hcs']. simpl. destruct (read_resume_ok c s w Hc) as [[s' w'] ->].
    split; [done|]. unfold next_measure. simpl. repeat case_decide; lia. }
  assert (pending_moves_ s ≠ ∅ → match (let '(s, w) := flush_pending_moves iter s w in Again s w cs) with
    | Again s' _ rest => Forall poll_ok rest ∧ (next_measure s' rest < next_measure s cs)%nat | _ => False end) as Hflush.
  { intros Hne. pose proof (flush_no_moves s w) as Hf. destruct (flush_pending_moves iter s w) as [s' w']. simpl in Hf.
    split; [done|]. unfold next_measure. rewrite decide_True, decide_False by done. lia. }
  destruct cs as [|c cs].
  - case_decide as Hm; [done|]. specialize (Hflush Hm). by destruct (flush_pending_moves iter s w).
  - specialize (Hread c cs eq_refl). case_decide as Hm; [by destruct (next_read _ _ _)|].
    destruct (pl_late c); [|by destruct (next_read _ _ _)]. specialize (Hflush Hm). by destruct (flush_pending_moves iter s w).
Qed.

Lemma next_loop_ok fuel s w cs :
  Forall poll_ok cs → (next_measure s cs < fuel)%nat →
  match next_loop iter fuel s w cs with
  | Returned _ _ _ rest => Forall poll_ok rest
  | Awaiting s' _ => settled s'
  | _ => False
  end.
Proof.
  revert s w cs. induction fuel as [|fuel IH]; intros s w cs Hcs Hf; [lia|]. cbn [next_loop].
  pose proof (next_round_ok s w cs Hcs) as Hr. destruct (next_round iter s w cs); [done|naive_solver| |done].
  destruct Hr as [Hok Hlt]. apply IH; [done|lia].
Qed.

(** [next] reads nothing outside of its buffer, returns or waits after finitely many rounds,
    and when it waits without a time limit nothing is left to tell: no event, and no move that
    waits for its other half. *)
Theorem next_settles s w cs :
  Forall poll_ok cs →
  match next iter s w cs with
  | Returned _ _ _ rest => Forall poll_ok rest
  | Awaiting s' _ => settled s'
  | _ => False
  end.
Proof. intros Hcs. apply next_loop_ok; [done|]. unfold next_measure. case_decide; lia. Qed.

End next.

(** ** A directory that is replaced while its move waits *)

(** The removal of a directory that was moved out goes by its path: when a new directory has been
    created under that path in the meantime, it is the new one that is no longer watched. *)
Lemma flush_unwatches_replacement {W : Type} `{Inotify W} iter s (w : W) s' w' c path wd :
  (∀ A (m : gmap Z A), iter A m ≡ₚ map_to_list m) →
  pending_moves_ s !! c = Some (mkMove path true) → wd_paths_ s !! wd = Some path →
  flush_pending_moves iter s w = (s', w') → wd_paths_ s' !! wd = None.
Proof.
  intros Hperm Hc Hwd (-> & _)%(flush_moves_spec iter Hperm). apply map_lookup_filter_None_2. right.
  intros x Hx Hout. rewrite Hwd in Hx. injection Hx as <-. unfold outside_moves in Hout. rewrite Forall_forall in Hout.
  specialize (Hout (c, mkMove path true)). simpl in Hout. rewrite elem_of_map_to_list in Hout.
  specialize (Hout Hc eq_refl). apply not_true_iff_false in Hout. apply Hout, is_same_or_child_spec.
  exists []. rewrite app_nil_r. by split; [|left].
Qed.

(** ** A new directory with what is already in it *)

(** The directories that an iteration finds: not what a symbolic link leads to. *)
Fixpoint entry_dirs (prefix : str) (e : dir_entry) : list str :=
  match e with
  | DirEntry name (inr false) (inr true) sub _ =>
      let rel := join_relative prefix name in
      rel :: (fix go (l : list dir_entry) : list str := match l with [] => [] | e :: l => entry_dirs rel e ++ go l end) sub
  | _ => []
  end.
Definition listing_dirs (prefix : str) (l : list dir_entry) : list str := l ≫= entry_dirs prefix.

(** No call of the iteration fails. *)
Fixpoint entry_fine (e : dir_entry) : Prop :=
  match e with
  | DirEntry _ (inl _) _ _ _ => False
  | DirEntry _ (inr true) _ _ _ => True
  | DirEntry _ (inr false) (inl _) _ _ => False
  | DirEntry _ (inr false) (inr false) _ _ => True
  | DirEntry _ (inr false) (inr true) sub err =>
      err = None ∧ (fix go (l : list dir_entry) : Prop := match l with [] => True | e :: l => entry_fine e ∧ go l end) sub
  end.

Lemma foldl_insert_lookup (f : str → Z) (g : str → str) l (m : gmap Z str) :
  NoDup (f <$> l) →
  (∀ x, x ∈ l → foldl (λ m x, <[f x := g x]> m) m l !! f x = Some (g x)) ∧
  (∀ i, i ∉ f <$> l → foldl (λ m x, <[f x := g x]> m) m l !! i = m !! i).
Proof.
  revert m. induction l as [|y l IH]; intros m Hnd; [by split; [set_solver|]|]. cbn in *.
  apply NoDup_cons in Hnd as [Hy Hnd]. destruct (IH (<[f y:=g y]> m) Hnd) as [H1 H2]. split.
  - intros x [->|Hx]%elem_of_cons; [|auto]. rewrite H2 by done. by rewrite lookup_insert_eq.
  - intros i [Hne Hi]%not_elem_of_cons. rewrite H2 by done. by rewrite lookup_insert_ne.
Qed.

Section scan.
Context {W : Type} `{Inotify W}.
(** The kernel has a descriptor for each path. *)
Context (fd : Z) (K : str → Z) (HK : ∀ path w, ∃ w', inotify_add_watch fd path w = (inr (K path), w')).
Implicit Types (w : W) (e : dir_entry).

Definition watch_all (l : list str) s : watcher :=
  set_wds (foldl (λ m rel, <[K (full_path s rel) := to_slashes rel]> m) (wd_paths_ s) l) s.

Lemma watch_all_app l l' s : watch_all (l ++ l') s = watch_all l' (watch_all l s).
Proof. unfold watch_all. by rewrite foldl_app. Qed.

Lemma add_watch_ok rel s w : fd_ s = fd → ∃ w', add_watch rel s w = (true, watch_all [rel] s, w').
Proof. intros Hfd. unfold add_watch. rewrite Hfd. destruct (HK (full_path s rel) w) as [w' ->]. by eexists. Qed.

Lemma watch_entry_ok prefix e s w :
  fd_ s = fd → entry_fine e → ∃ w', watch_entry prefix e s w = (true, watch_all (entry_dirs prefix e) s, w').
Proof.
  revert prefix e s w. fix IH 2. intros prefix [name sym dir sub err] s w Hfd Hfine.
  assert (watch_all [] s = s) as Hnil by (unfold watch_all; by destruct s).
  destruct sym as [?|[]]; [done| |]; [cbn; rewrite Hnil; eauto|].
  destruct dir as [?|[]]; [done| |cbn; rewrite Hnil; eauto]. destruct Hfine as [-> Hfine].
  cbn [watch_entry entry_dirs]. set (rel := join_relative prefix name).
  match goal with |- context [rel :: ?l] => change (rel :: l) with ([rel] ++ l) end.
  rewrite (watch_all_app [rel]). destruct (add_watch_ok rel s w Hfd) as [w1 ->].
  assert (fd_ (watch_all [rel] s) = fd) as Hfd1 by done. revert Hfd1. generalize (watch_all [rel] s) as s1.
  clear Hnil Hfd. revert w1. induction sub as [|e sub IHsub]; intros w1 s1 Hfd1.
  - exists w1. unfold watch_all. by destruct s1.
  - destruct Hfine as [He Hsub]. cbv beta iota. destruct (IH rel e s1 w1 Hfd1 He) as [w2 ->]. rewrite watch_all_app.
    by apply IHsub.
Qed.

Lemma watch_entries_ok prefix (l : list dir_entry) s w :
  fd_ s = fd → Forall entry_fine l →
  ∃ w', watch_entries prefix l None s w = (true, watch_all (listing_dirs prefix l) s, w').
Proof.
  intros Hfd Hl. revert s w Hfd. induction Hl as [|e l He Hl IH]; intros s w Hfd.
  - exists w. unfold watch_all. by destruct s.
  - cbn [watch_entries]. destruct (watch_entry_ok prefix e s w Hfd He) as [w1 ->].
    unfold listing_dirs. cbn [mbind list_bind]. rewrite watch_all_app. by apply IH.
Qed.

(** A directory that appears, by creation or from outside of the tree, is watched with every
    directory that is in it by then, each under its path, and the other watches stay. *)
Theorem add_watch_tree_covers rel s w (l : list dir_entry) :
  fd_ s = fd → recursive_ s = true →
  (∀ w', directory_listing (full_path s rel) w' = (l, None)) → Forall entry_fine l →
  NoDup ((λ p, K (full_path s p)) <$> rel :: listing_dirs rel l) →
  ∃ s' w', add_watch_tree rel s w = (true, s', w') ∧ pending_ s' = pending_ s ∧
    (∀ p, p ∈ rel :: listing_dirs rel l → wd_paths_ s' !! K (full_path s p) = Some (to_slashes p)) ∧
    (∀ wd, wd ∉ (λ p, K (full_path s p)) <$> rel :: listing_dirs rel l → wd_paths_ s' !! wd = wd_paths_ s !! wd).
Proof.
  intros Hfd Hrec Hl Hfine Hnd. unfold add_watch_tree. destruct (add_watch_ok rel s w Hfd) as [w1 ->].
  change (recursive_ (watch_all [rel] s)) with (recursive_ s). rewrite Hrec.
  change (full_path (watch_all [rel] s)) with (full_path s). rewrite Hl.
  destruct (watch_entries_ok rel l (watch_all [rel] s) w1 Hfd Hfine) as [w2 ->].
  rewrite <- watch_all_app. eexists _, w2. split; [done|]. split; [done|]. simpl app.
  apply (foldl_insert_lookup (λ p, K (full_path s p)) to_slashes). done.
Qed.
End scan.

(** ** The two halves of a move *)

Section pairs.
Context {W : Type} `{Inotify W}.
Implicit Types (w : W).

Lemma close_invalid s w : valid (close s w).1 = false.
Proof. unfold close, valid. destruct (0 <=? fd_ s) eqn:Hv; simpl; [done|by rewrite Hv]. Qed.

Definition same_moves s s' : Prop := pending_moves_ s' = pending_moves_ s ∧ fd_ s' = fd_ s.

Lemma watch_entry_moves prefix e s w : let '(_, s', _) := watch_entry prefix e s w in same_moves s s'.
Proof.
  revert prefix e s w. fix IH 2. intros prefix [name sym dir sub err] s w. cbn [watch_entry].
  destruct sym as [?|[]]; [done|done|]. destruct dir as [?|[]]; [done| |done].
  unfold add_watch. destruct (inotify_add_watch _ _ _) as [[?|wd] w1]; [done|].
  set (s1 := set_wds _ s). assert (same_moves s s1) as Hs1 by done. revert Hs1. generalize s1. clear s1.
  revert w1. induction sub as [|e sub IHsub]; intros w1 s1 Hs1.
  - cbn. by destruct err.
  - cbv beta iota. pose proof (IH (join_relative prefix name) e s1 w1) as He. destruct (watch_entry _ e s1 w1) as [[ok s2] w2].
    unfold same_moves in *. destruct ok; [|intuition congruence]. apply IHsub. intuition congruence.
Qed.

Lemma watch_entries_moves prefix (l : list dir_entry) err s w : let '(_, s', _) := watch_entries prefix l err s w in same_moves s s'.
Proof.
  revert s w. induction l as [|e l IH]; intros s w; cbn [watch_entries]; [by destruct err|].
  pose proof (watch_entry_moves prefix e s w) as He. destruct (watch_entry prefix e s w) as [[ok s1] w1].
  destruct ok; [|done]. specialize (IH s1 w1). destruct (watch_entries _ _ _ s1 w1) as [[ok s2] w2].
  unfold same_moves in *. intuition congruence.
Qed.

Lemma created_entry_moves path b s w : same_moves s (created_entry path b s w).1.
Proof.
  unfold created_entry, add_watch_tree, add_watch. destruct (_ && _); [|done].
  destruct (inotify_add_watch _ _ _) as [[?|wd] w1]; [done|]. destruct (recursive_ _); [|done].
  destruct (directory_listing _ _) as [l err]. set (s1 := set_wds _ _).
  pose proof (watch_entries_moves path l err s1 w1) as Hw. destruct (watch_entries _ _ _ s1 w1) as [[[] s2] w2]; done.
Qed.

(** A record of another cookie leaves a move where it is, unless it loses all of them. *)
Lemma handle_record_keeps wd mask c c' n s w s' w' mv :
  handle_record wd mask c' n s w = (s', w') → valid s' = true → has_bit mask IN_Q_OVERFLOW = false → c' ≠ c →
  pending_moves_ s !! c = Some mv → valid s = true ∧ pending_moves_ s' !! c = Some mv.
Proof.
  intros He Hv Hov Hc Hmv. unfold handle_record in He. rewrite Hov in He.
  destruct (has_bit mask IN_IGNORED); [by simplify_eq|]. destruct (wd_paths_ s !! wd) as [parent|]; [|by simplify_eq].
  assert (∀ path b, created_entry path b s w = (s', w') → valid s = true ∧ pending_moves_ s' !! c = Some mv) as Hcr.
  { intros path b Hcre. pose proof (created_entry_moves path b s w) as [H1 H2]. rewrite Hcre in H1, H2. simpl in *.
    unfold valid in *. by rewrite H1, <- H2. }
  assert (self_gone parent s w = (s', w') → valid s = true ∧ pending_moves_ s' !! c = Some mv) as Hself.
  { unfold self_gone. case_decide; intros Hg; [|by simplify_eq].
    pose proof (close_invalid (push (mkEvent removed [] [] true) s) w) as Hcl. rewrite Hg in Hcl. simpl in Hcl. congruence. }
  unfold handle_entry in He. repeat (case_match; [by auto|]). revert He.
  destruct (has_bit mask IN_MOVE_SELF); [done|].
  destruct (has_bit mask IN_MOVED_FROM).
  { clear Hcr Hself. case_decide; intros; simplify_eq; [|done]. split; [done|]. simpl. by rewrite lookup_insert_ne. }
  destruct (has_bit mask IN_MOVED_TO).
  { unfold moved_to. case_match; [|by apply Hcr]. clear Hcr Hself. intros Heq. injection Heq as <- _. unfold valid in *.
    destruct (recursive_ _ && _); simpl in *; (split; [done|]); by rewrite lookup_delete_ne. }
  destruct (has_bit mask IN_CREATE); [by apply Hcr|]. destruct (has_bit mask IN_DELETE_SELF); [done|].
  destruct (has_bit mask IN_DELETE); [by intros; simplify_eq|]. destruct (_ || _); by intros; simplify_eq.
Qed.

(** A watcher that has been closed stays closed. *)
Lemma handle_record_invalid wd mask c n s w : valid s = false → valid (handle_record wd mask c n s w).1 = false.
Proof.
  intros Hv. assert (∀ path b, valid (created_entry path b s w).1 = false) as Hcr.
  { intros path b. unfold valid in *. by destruct (created_entry_moves path b s w) as [_ ->]. }
  unfold handle_record, handle_entry, self_gone, moved_to.
  repeat first [ done | apply Hcr | apply close_invalid | case_match ].
Qed.

Lemma foldl_keeps rs s w s' w' c mv :
  foldl handle_ir (s, w) rs = (s', w') → valid s' = true →
  Forall (λ r, has_bit (ir_mask r) IN_Q_OVERFLOW = false ∧ ir_cookie r ≠ c) rs →
  pending_moves_ s !! c = Some mv → pending_moves_ s' !! c = Some mv.
Proof.
  intros He Hv Hrs. revert s w He. induction rs as [|r rs IH]; intros s w He Hmv; [by simplify_eq/=|].
  inversion_clear Hrs as [|?? [Hov Hc] Hrs']. cbn [foldl] in He. destruct (handle_ir (s, w) r) as [s1 w1] eqn:Hr.
  assert (valid s1 = true) as Hv1.
  { destruct (valid s1) eqn:Hv1; [done|]. exfalso. assert (∀ rs s w, valid s = false → valid (foldl handle_ir (s, w) rs).1 = false) as Hinv.
    { clear. induction rs as [|r rs IH]; intros s w Hs; [done|]. cbn [foldl]. destruct (handle_ir (s, w) r) as [s1 w1] eqn:Hr.
      apply IH. pose proof (handle_record_invalid (ir_wd r) (ir_mask r) (ir_cookie r) (ir_name r) s w Hs) as Hi. unfold handle_ir in Hr. simpl in Hr. by rewrite Hr in Hi. }
    specialize (Hinv rs s1 w1 Hv1). rewrite He in Hinv. simpl in Hinv. congruence. }
  unfold handle_ir in Hr. simpl in Hr.
  eapply handle_record_keeps in Hr as [_ Hmv1]; eauto.
Qed.

(** However many records come between the two halves of a move, the consumer is told of one
    rename, from the old path to the new one; nothing is left of it in the watcher. *)
Theorem move_pairs s w wd parent c name is_dir rs s1 w1 wd' parent' name' is_dir' :
  wd_paths_ s !! wd = Some parent → c ≠ 0 →
  Forall (λ r, has_bit (ir_mask r) IN_Q_OVERFLOW = false ∧ ir_cookie r ≠ c) rs →
  let dir (b : bool) := if b then IN_ISDIR else 0 in
  foldl handle_ir (handle_record wd (Z.lor IN_MOVED_FROM (dir is_dir)) c name s w) rs = (s1, w1) →
  valid s1 = true → wd_paths_ s1 !! wd' = Some parent' →
  let '(s2, _) := handle_record wd' (Z.lor IN_MOVED_TO (dir is_dir')) c name' s1 w1 in
  pending_ s2 = pending_ s1 ++ [mkEvent renamed (join_relative parent' name') (join_relative parent name) (is_dir' || is_dir)] ∧
  pending_moves_ s2 = delete c (pending_moves_ s1).
Proof.
  intros Hwd Hc Hrs dir Hfold Hv Hwd'.
  assert (handle_record wd (Z.lor IN_MOVED_FROM (dir is_dir)) c name s w =
    (set_moves (<[c := mkMove (join_relative parent name) is_dir]> (pending_moves_ s)) s, w)) as Hfrom.
  { unfold handle_record, handle_entry, dir. rewrite Hwd. rewrite (decide_True (P := c ≠ 0)) by done. by destruct is_dir. }
  rewrite Hfrom in Hfold. apply (foldl_keeps _ _ _ _ _ c (mkMove (join_relative parent name) is_dir)) in Hfold; [|done|done|].
  2:{ simpl. by rewrite lookup_insert_eq. }
  assert (handle_record wd' (Z.lor IN_MOVED_TO (dir is_dir')) c name' s1 w1 = moved_to c (join_relative parent' name') is_dir' s1 w1) as ->.
  { unfold handle_record, handle_entry, dir. rewrite Hwd'. by destruct is_dir'. }
  unfold moved_to. rewrite decide_True by done. rewrite Hfold. simpl. by destruct (_ && _).
Qed.
End pairs.

(** ** Witnesses *)

(** A kernel that numbers watches by the length of their paths, over empty directories. *)
Definition demo_wd (path : str) : Z := Z.of_nat (length path).
#[local] Instance demo_kernel : Inotify unit := {
  inotify_add_watch _ path w := (inr (demo_wd path), w);
  inotify_rm_watch _ _ w := w;
  directory_listing _ w := ([], None);
  close_fd _ w := w;
}.
Definition demo_iter (A : Type) (m : gmap Z A) : list (Z * A) := map_to_list m.

(** A watcher of [/r], whose descriptor is 2. *)
Definition demo_start : watcher := (construct 3 (inr (lit "/r")) true 0 ()).1.

Lemma demo_tracks : tracks 2 ∅ demo_start.
Proof.
  constructor; [by constructor|done| |done]. exists {[2 := []]}. split; [done|]. intros d l. split.
  - intros [<- <-]%lookup_singleton_Some. constructor.
  - inversion 1; [done|]. done.
Qed.

Lemma seg_ok_dec n : bool_decide (n ≠ [] ∧ "/"%char ∉ n ∧ "\"%char ∉ n) = true → seg_ok n.
Proof. apply bool_decide_eq_true_1. Qed.

Lemma update_watch_paths_moves_witness :
  update_watch_paths (lit "a") (lit "c/d") {[1 := lit "a"; 2 := lit "a/b"; 3 := lit "ab"]} =
  {[1 := lit "c/d"; 2 := lit "c/d/b"; 3 := lit "ab"]}.
Proof.
  pose proof (update_watch_paths_moves {[1 := [lit "a"]; 2 := [lit "a"; lit "b"]; 3 := [lit "ab"]]} [lit "a"] [lit "c"; lit "d"]) as Hu.
  assert (∀ n, n ∈ [lit "a"; lit "b"; lit "ab"] → seg_ok n) as Hok.
  { intros n Hn. rewrite !elem_of_cons, elem_of_nil in Hn. destruct Hn as [-> |[-> |[-> |[]]]]; by apply seg_ok_dec. }
  refine (eq_trans _ (eq_trans (Hu _ _ _ _) _)); [by vm_compute| | | | |by vm_compute]; [|done|done|].
  - apply Forall_forall. intros n Hn%list_elem_of_singleton. apply Hok. rewrite Hn. apply list_elem_of_here.
  - intros i l Hl. apply Forall_forall. intros n Hn. apply Hok.
    rewrite !lookup_insert_Some, lookup_singleton_Some in Hl.
    destruct Hl as [[<- <-]|[_ [[<- <-]|[_ [<- <-]]]]]; rewrite !elem_of_cons, elem_of_nil in Hn; rewrite !elem_of_cons; tauto.
Defined.

(** [mkdir a; mkdir a/b; mv a cc]. *)
Definition demo_tree1 : dir_tree := <[4 := (2, lit "a")]> ∅.
Definition demo_tree2 : dir_tree := <[6 := (4, lit "b")]> demo_tree1.
Definition demo_tree3 : dir_tree := <[4 := (2, lit "cc")]> demo_tree2.

Definition demo_after (rs : list ino_record) (s : watcher) : watcher := (foldl handle_ir (s, ()) rs).1.
Definition demo_s1 : watcher := demo_after [mkRecord 2 (dir_mask IN_CREATE) 0 (lit "a") 1] demo_start.
Definition demo_s2 : watcher := demo_after [mkRecord 4 (dir_mask IN_CREATE) 0 (lit "b") 1] demo_s1.
Definition demo_s3 : watcher :=
  demo_after [mkRecord 2 (dir_mask IN_MOVED_FROM) 7 (lit "a") 1; mkRecord 2 (dir_mask IN_MOVED_TO) 7 (lit "cc") 1;
    mkRecord 4 IN_MOVE_SELF 0 [] 0] demo_s2.

Lemma demo_path1 : has_path demo_tree1 2 4 [lit "a"].
Proof. apply (has_path_child _ _ 4 2 (lit "a") []); [done|constructor]. Qed.

Lemma demo_step1 : fs_step demo_iter 2 (∅, demo_start, ()) (demo_tree1, demo_s1, ()).
Proof.
  apply (fs_mkdir demo_iter 2 ∅ demo_start () 4 2 (lit "a") [] ()); try done; [constructor|by apply seg_ok_dec].
Qed.

Lemma demo_step2 : fs_step demo_iter 2 (demo_tree1, demo_s1, ()) (demo_tree2, demo_s2, ()).
Proof.
  apply (fs_mkdir demo_iter 2 demo_tree1 demo_s1 () 6 4 (lit "b") [lit "a"] ()); try done.
  - apply demo_path1.
  - intros e. unfold demo_tree1. rewrite lookup_insert_Some, lookup_empty. naive_solver.
  - by apply seg_ok_dec.
  - intros e x. unfold demo_tree1. rewrite lookup_insert_Some, lookup_empty. intros [[<- <-]|[_ ?]]; done.
Qed.

Lemma demo_step3 : fs_step demo_iter 2 (demo_tree2, demo_s2, ()) (demo_tree3, demo_s3, ()).
Proof.
  eapply (fs_move demo_iter 2 demo_tree2 demo_s2 () 4 2 2 (lit "a") (lit "cc") [] [] 7
    (demo_after [mkRecord 2 (dir_mask IN_MOVED_FROM) 7 (lit "a") 1] demo_s2) ()
    (demo_after [mkRecord 2 (dir_mask IN_MOVED_FROM) 7 (lit "a") 1; mkRecord 2 (dir_mask IN_MOVED_TO) 7 (lit "cc") 1] demo_s2) ());
    [|done|by vm_compute|by vm_compute|by vm_compute].
  constructor; [done|constructor|constructor| |by apply seg_ok_dec|].
  - intros e. unfold demo_tree2, demo_tree1. rewrite lookup_insert_Some, lookup_insert_Some, lookup_empty. naive_solver.
  - intros H%prefix_nil_inv. done.
Qed.

Lemma watcher_follows_tree_witness :
  tracks 2 demo_tree3 demo_s3 ∧ wd_paths_ demo_s3 = {[2 := []; 4 := lit "cc"; 6 := lit "cc/b"]}.
Proof.
  split; [|by vm_compute].
  apply (watcher_follows_tree demo_iter (λ A m, reflexivity _) 2 ∅ demo_start () demo_tree3 demo_s3 ()); [apply demo_tracks|].
  eapply rtc_l; [apply demo_step1|]. eapply rtc_l; [apply demo_step2|]. eapply rtc_l; [apply demo_step3|]. constructor.
Defined.

Definition demo_records : list ino_record :=
  [mkRecord 2 IN_CREATE 0 (lit "f") 15; mkRecord 2 IN_MODIFY 0 (lit "f") 15; mkRecord 2 IN_ATTRIB 0 [] 0].

#[local] Instance ir_wf_dec r : Decision (ir_wf r).
Proof. unfold ir_wf. apply _. Defined.

Lemma demo_records_wf : Forall ir_wf demo_records.
Proof. apply (bool_decide_eq_true_1 (Forall ir_wf demo_records)). by vm_compute. Qed.

Lemma ino_parse_encode_witness :
  parse_records (ino_encode demo_records ++ lit "junk") (Z.of_nat (length (ino_encode demo_records))) demo_start () =
  Some (foldl handle_ir (demo_start, ()) demo_records).
Proof. apply (ino_parse_encode demo_records (lit "junk") demo_start ()), demo_records_wf. Defined.

Definition demo_poll : poll :=
  mkPoll 0 [- EINTR; Z.of_nat (length (ino_encode demo_records))] (ino_encode demo_records) false.

Lemma next_settles_witness :
  match next demo_iter demo_start () [demo_poll] with
  | Returned ev s' _ rest => ev = mkEvent created (lit "f") [] false ∧ Forall poll_ok rest
  | _ => False
  end.
Proof.
  assert (Forall poll_ok [demo_poll]) as Hok.
  { constructor; [|constructor]. right. exists 1%nat, (Z.of_nat (length (ino_encode demo_records))). split; [done|]. right.
    exists demo_records, []. split; [apply demo_records_wf|]. split; [|done]. by rewrite app_nil_r. }
  pose proof (next_settles demo_iter demo_start () [demo_poll] Hok) as Hn. revert Hn.
  destruct (next _ _ _ _) as [ev s' w' rest| | |] eqn:He; [|vm_compute in He; discriminate|done..].
  intros Hrest. split; [|done]. vm_compute in He. by injection He as <- _ _.
Defined.

Lemma demo_adds (path : str) (w : unit) : ∃ w', inotify_add_watch 3 path w = (inr (demo_wd path), w').
Proof. by exists w. Qed.

Lemma add_watch_tree_covers_witness :
  ∃ s' w', add_watch_tree (lit "a") demo_start () = (true, s', w') ∧ wd_paths_ s' !! 4 = Some (lit "a").
Proof.
  destruct (add_watch_tree_covers 3 demo_wd demo_adds (lit "a") demo_start () []) as (s' & w' & He & _ & Hp & _).
  - done.
  - done.
  - done.
  - constructor.
  - apply NoDup_singleton.
  - exists s', w'. split; [done|]. apply (Hp (lit "a")). by apply list_elem_of_singleton.
Defined.

Lemma move_pairs_witness :
  let s1 := demo_after [mkRecord 2 IN_MOVED_FROM 7 (lit "f") 1; mkRecord 2 IN_MODIFY 0 (lit "g") 1] demo_s1 in
  pending_ (demo_after [mkRecord 4 IN_MOVED_TO 7 (lit "h") 1] s1) = pending_ s1 ++ [mkEvent renamed (lit "a/h") (lit "f") false].
Proof.
  intros s1.
  pose proof (move_pairs demo_s1 () 2 [] 7 (lit "f") false [mkRecord 2 IN_MODIFY 0 (lit "g") 1] s1 () 4 (lit "a") (lit "h") false) as Hp.
  apply Hp; [by vm_compute|done|by apply Forall_singleton|by vm_compute..].
Defined.

(** [mv a /elsewhere; mkdir a] within 20 ms: the new directory, whose descriptor is 4 here, loses its watch. *)
Example demo_replaced :
  let s1 := demo_after [mkRecord 2 (dir_mask IN_MOVED_FROM) 7 (lit "a") 1; mkRecord 2 (dir_mask IN_CREATE) 0 (lit "a") 1] demo_s1 in
  wd_paths_ s1 !! 4 = Some (lit "a") ∧ wd_paths_ (flush_pending_moves demo_iter s1 ()).1 !! 4 = None.
Proof. split; by vm_compute. Qed.
