(* ===== verification/SignalM.v ===== *)
(** * SignalM: signals ([coro::signal])

    [src/include/coro/signal.hpp].  Which signals may be awaited and who has a handler for
    them; the way of a signal from its handler to the waiters, through the pipe and the reader
    thread of Linux or the bits and the pump thread of Windows; the waiters of a manager; and
    [handle], which runs a coroutine for each arrival, as the steps of its two coroutines.

    What a call of the system does is a parameter: whether a [write] to the pipe is accepted,
    and the numbers of the real-time signals. *)

From S2P Require Import Prelude ReadyQueue Timers Frames EventLoop Runtime.
From stdpp Require Import options.
#[local] Set Default Proof Using "Type*".

Local Open Scope Z_scope.

Definition SIGHUP : Z := 1.
Definition SIGINT : Z := 2.
Definition SIGKILL : Z := 9.
Definition SIGTERM : Z := 15.
Definition SIGSTOP : Z := 19.

Module Windows.
Definition SIGHUP : Z := 3.
Definition SIGILL : Z := 4.
Definition SIGFPE : Z := 8.
Definition SIGSEGV : Z := 11.
Definition SIGBREAK : Z := 21.
Definition SIGABRT : Z := 22.
End Windows.

Implicit Types (sig : Z).

(** ** Which signals are allowed *)

Inductive platform : Type := Linux (rtmin rtmax : Z) | Win32.

Definition default_signals (p : platform) : gset Z :=
  match p with
  | Linux _ _ => {[SIGINT; SIGTERM; SIGHUP]}
  | Win32 => {[SIGINT; SIGTERM; Windows.SIGBREAK; Windows.SIGHUP]}
  end.

Definition registrable (p : platform) sig : bool :=
  match p with
  | Win32 => (0 <? sig) && (sig <? 64)
  | Linux rtmin rtmax =>
      if bool_decide (sig = SIGKILL) || bool_decide (sig = SIGSTOP) then false
      else if (0 <? sig) && (sig <? 32) then true
      else (rtmin <=? sig) && (sig <=? rtmax)
  end.

(** What [raise] can reach on Windows. *)
Definition crt_reachable sig : bool :=
  bool_decide (sig ∈ [SIGINT; Windows.SIGILL; Windows.SIGFPE; Windows.SIGSEGV; Windows.SIGABRT; SIGTERM; Windows.SIGBREAK]).

(** The events of the console. *)
Inductive ctrl_event : Type := CTRL_C | CTRL_BREAK | CTRL_CLOSE | CTRL_LOGOFF | CTRL_SHUTDOWN | CTRL_OTHER.
Definition console_signal (e : ctrl_event) : option Z :=
  match e with
  | CTRL_C => Some SIGINT
  | CTRL_BREAK => Some Windows.SIGBREAK
  | CTRL_CLOSE => Some Windows.SIGHUP
  | CTRL_LOGOFF | CTRL_SHUTDOWN => Some SIGTERM
  | CTRL_OTHER => None
  end.

(** [registry()], the signals whose disposition is the handler of the library, and whether the
    pipe and its reader (on Windows the pump and the console handler) have been set up. *)
Record signal_process : Type := mkProcess {
  sp_platform : platform;
  sp_registry : gset Z;
  sp_installed : gset Z;
  sp_started : bool;
}.
Implicit Types (s : signal_process).

Definition process_init (p : platform) : signal_process := mkProcess p (default_signals p) ∅ false.

Definition is_allowed sig s : bool := bool_decide (sig ∈ sp_registry s).

(** [ensure_installed] and [install]. *)
Definition install sig s : signal_process :=
  let ours := match sp_platform s with Linux _ _ => true | Win32 => crt_reachable sig end in
  mkProcess (sp_platform s) (sp_registry s) (if ours then {[sig]} ∪ sp_installed s else sp_installed s) true.

(** [restore_default] and [uninstall]. *)
Definition uninstall sig s : signal_process :=
  let ours := match sp_platform s with Linux _ _ => true | Win32 => crt_reachable sig end in
  mkProcess (sp_platform s) (sp_registry s) (if ours then sp_installed s ∖ {[sig]} else sp_installed s) (sp_started s).

Definition allow sig s : bool * signal_process :=
  if registrable (sp_platform s) sig then
    if bool_decide (sig ∈ sp_registry s) then (true, s)
    else
      let s := install sig s in
      (true, mkProcess (sp_platform s) ({[sig]} ∪ sp_registry s) (sp_installed s) (sp_started s))
  else (false, s).

Definition disallow (has_waiters : bool) sig s : bool * signal_process :=
  if bool_decide (sig ∈ sp_registry s) then
    if has_waiters then (false, s)
    else
      let s := uninstall sig s in
      (true, mkProcess (sp_platform s) (sp_registry s ∖ {[sig]}) (sp_installed s) (sp_started s))
  else (false, s).

(** ** The way to the waiters *)

(** The pipe, how many bytes it takes, and the signals whose bit is set; [None] is a pipe (or an
    event) that could not be made. *)
Record transport : Type := mkTransport {
  tp_open : bool;
  tp_pipe : list Z;
  tp_capacity : nat;
  tp_pending : gset Z;
}.
Implicit Types (t : transport).

Definition mark_pending sig t : transport :=
  if (0 <? sig) && (sig <? 64) then mkTransport (tp_open t) (tp_pipe t) (tp_capacity t) ({[sig]} ∪ tp_pending t) else t.

(** [global_signal_state::post]. *)
Definition post sig t : transport :=
  if tp_open t then
    if decide (length (tp_pipe t) < tp_capacity t)%nat then
      mkTransport true (tp_pipe t ++ [Z.land sig 127]) (tp_capacity t) (tp_pending t)
    else mark_pending sig t
  else t.

(** [signal_bridge::post]. *)
Definition bridge_post sig t : transport :=
  if bool_decide (sig ≤ 0) || bool_decide (64 ≤ sig) || negb (tp_open t) then t
  else mkTransport true (tp_pipe t) (tp_capacity t) ({[sig]} ∪ tp_pending t).

(** One round of [reader_loop]: it empties the pipe and takes the bits, and this is what it
    dispatches.  [pump_loop] is the same without a pipe. *)
Definition all_signals : list Z := seqZ 1 63.

Definition reader_read t : option (Z * transport) :=
  match tp_pipe t with
  | [] => None
  | b :: l => Some (b, mkTransport (tp_open t) l (tp_capacity t) (tp_pending t))
  end.

Definition reader_take sig t : bool * transport :=
  if bool_decide (sig ∈ tp_pending t) then
    (true, mkTransport (tp_open t) (tp_pipe t) (tp_capacity t) (tp_pending t ∖ {[sig]}))
  else (false, t).

(** ** The waiters *)

Record waiter_entry : Type := mkSignalWaiter {
  we_awaiter : nat;
  we_handle : handle;
  we_loop : loop_id;
}.

Abbreviation waiters := (gmap Z (list waiter_entry)).
Implicit Types (m : waiters) (e : waiter_entry).

Definition manager_add sig e m : waiters := <[sig := default [] (m !! sig) ++ [e]]> m.

Definition manager_remove sig (awaiter : nat) m : waiters :=
  match m !! sig with
  | None => m
  | Some l =>
      match filter (λ e, we_awaiter e ≠ awaiter) l with
      | [] => delete sig m
      | l => <[sig := l]> m
      end
  end.

(** The critical section of [deliver]. *)
Definition manager_take sig m : list waiter_entry * waiters :=
  match m !! sig with None | Some [] => ([], m) | Some l => (l, delete sig m) end.

Definition has_waiters_sig sig m : bool := match m !! sig with None | Some [] => false | Some _ => true end.
Definition has_waiters m : bool := negb (bool_decide (m = ∅)).

Section waiting.
Context {W : Type} `{Runtime W}.
Implicit Types (w : W).

(** What [deliver] does after it: a handle may be null, and so may the loop. *)
Definition wake_entry w e : W :=
  if bool_decide (we_handle e ≠ null_handle) && bool_decide (we_loop e ≠ 0%nat) then rt_schedule (we_loop e) (we_handle e) w else w.

Definition manager_deliver sig m w : waiters * W :=
  let '(l, m) := manager_take sig m in (m, foldl wake_entry w l).

(** [dispatch] to all managers that are alive. *)
Definition signal_dispatch sig (ms : list waiters) w : list waiters * W :=
  foldl (λ st m, let '(m, w) := manager_deliver sig m st.2 in (st.1 ++ [m], w)) ([], w) ms.

Definition any_waiters sig (ms : list waiters) : bool := existsb (has_waiters_sig sig) ms.

(** [wait_awaiter]. *)
Definition wait_await_ready sig s : res bool := if is_allowed sig s then Ok false else Throw InvalidArgument.
Definition wait_await_suspend sig (awaiter : nat) (h : handle) s m w : signal_process * waiters :=
  (install sig s, manager_add sig (mkSignalWaiter awaiter h (rt_loop w)) m).
Definition wait_await_resume sig : Z := sig.
Definition wait_on_waiter_destroyed sig (awaiter : nat) m : waiters := manager_remove sig awaiter m.
End waiting.

(** ** [handle]: a coroutine for each arrival *)

(** The collector: started and not begun, registered with the manager, taken by [deliver] and
    scheduled, resumed and not yet registered again, ended. *)
Inductive collector_pc : Type := CoStarted | CoWaiting | CoQueued | CoRegister | CoEnded.

(** The loop that runs the factory: in the queue of the event loop, at the test, with [n] runs left
    to begin, in a run with [n] to begin after it, suspended in [wake.wait()], ended. *)
Inductive looper_pc : Type := LoQueued | LoTest | LoRun (n : nat) | LoInFactory (n : nat) | LoWaiting | LoEnded.

(** [handle_state]; the last three count arrivals, the arrivals before the last run began, and runs. *)
Record handle_state : Type := mkHandle {
  hs_wake : bool;
  hs_pending : nat;
  hs_collector : collector_pc;
  hs_looper : looper_pc;
  hs_stopped : bool;
  hs_arrived : nat;
  hs_served : nat;
  hs_runs : nat;
}.
Implicit Types (h : handle_state).

Definition hs_set_collector c h : handle_state :=
  mkHandle (hs_wake h) (hs_pending h) c (hs_looper h) (hs_stopped h) (hs_arrived h) (hs_served h) (hs_runs h).
Definition hs_set_looper l h : handle_state :=
  mkHandle (hs_wake h) (hs_pending h) (hs_collector h) l (hs_stopped h) (hs_arrived h) (hs_served h) (hs_runs h).

(** [handle]: both coroutines are started. *)
Definition handle_new : handle_state := mkHandle false 0 CoStarted LoQueued false 0 0 0.

(** [deliver] on the thread of the reader: it takes the entry of the collector, if there is one.
    Before the collector has waited for the first time there is none, and such arrivals are not
    counted. *)
Definition handle_deliver h : handle_state :=
  match hs_collector h with
  | CoStarted => h
  | c =>
      mkHandle (hs_wake h) (hs_pending h) (match c with CoWaiting => CoQueued | _ => c end) (hs_looper h) (hs_stopped h)
        (S (hs_arrived h)) (hs_served h) (hs_runs h)
  end.

(** The turn of the collector: [pending.fetch_add(1)] and [wake.set()], which wakes the loop. *)
Definition collector_resumed h : handle_state :=
  mkHandle true (S (hs_pending h)) CoRegister (match hs_looper h with LoWaiting => LoQueued | l => l end)
    (hs_stopped h) (hs_arrived h) (hs_served h) (hs_runs h).

(** [co_await wait(sig)]. *)
Definition collector_waits h : handle_state := hs_set_collector CoWaiting h.

(** The test of the loop: the arrivals are taken, or the event is awaited; an event that is set
    does not suspend. *)
Definition looper_test h : handle_state :=
  if decide (0 < hs_pending h)%nat then
    mkHandle false 0 (hs_collector h) (LoRun (hs_pending h)) (hs_stopped h) (hs_arrived h) (hs_served h) (hs_runs h)
  else if hs_wake h then h
  else hs_set_looper LoWaiting h.

(** The [for] loop: the next run begins, or the test comes again. *)
Definition looper_next (n : nat) h : handle_state :=
  match n with
  | O => hs_set_looper LoTest h
  | S n => mkHandle (hs_wake h) (hs_pending h) (hs_collector h) (LoInFactory n) (hs_stopped h) (hs_arrived h) (hs_arrived h) (S (hs_runs h))
  end.

(** A run ends; an exception (a cancellation included) ends the loop. *)
Definition factory_ends (r : res unit) (n : nat) h : handle_state :=
  match r with Ok _ => hs_set_looper (LoRun n) h | Throw _ => hs_set_looper LoEnded h end.

(** [handler::stop]. *)
Definition handle_stop h : handle_state :=
  mkHandle (hs_wake h) (hs_pending h) CoEnded LoEnded true (hs_arrived h) (hs_served h) (hs_runs h).

(** [handle], and the assignment of handlers: the state that was held is stopped first. *)
Definition signal_handle sig s : res handle_state := if is_allowed sig s then Ok handle_new else Throw InvalidArgument.
Definition handler_assign (target source : option handle_state) : option handle_state * option handle_state * option handle_state :=
  (source, None, handle_stop <$> target).

(** Both coroutines run on one loop: while the collector has its turn the other does not, and the
    other way round. *)
Inductive handle_step : handle_state → handle_state → Prop :=
  | HsDeliver h : handle_step h (handle_deliver h)
  | HsCollectorBegins h : hs_collector h = CoStarted → handle_step h (collector_waits h)
  | HsCollectorResumed h :
      hs_collector h = CoQueued → (∀ n, hs_looper h ≠ LoRun n) → hs_looper h ≠ LoTest → handle_step h (collector_resumed h)
  | HsCollectorWaits h : hs_collector h = CoRegister → handle_step h (collector_waits h)
  | HsLooperResumed h : hs_looper h = LoQueued → hs_collector h ≠ CoRegister → handle_step h (hs_set_looper LoTest h)
  | HsLooperTest h : hs_looper h = LoTest → handle_step h (looper_test h)
  | HsLooperNext n h : hs_looper h = LoRun n → handle_step h (looper_next n h)
  | HsFactoryEnds r n h : hs_looper h = LoInFactory n → hs_collector h ≠ CoRegister → handle_step h (factory_ends r n h)
  | HsStop h : handle_step h (handle_stop h).

(** Runs that have been counted and not begun. *)
Definition hs_remaining h : nat := match hs_looper h with LoRun n | LoInFactory n => n | _ => 0 end.
Definition hs_taken h : nat := match hs_collector h with CoQueued => 1 | _ => 0 end.

Record handle_ok h : Prop := {
  ho_wake : hs_wake h = true → (0 < hs_pending h)%nat;
  ho_waiting : hs_looper h = LoWaiting → hs_pending h = 0%nat;
  ho_register : hs_collector h = CoRegister →
    (0 < hs_pending h)%nat ∧ hs_looper h ≠ LoTest ∧ ∀ n, hs_looper h ≠ LoRun n;
  ho_ended : hs_collector h = CoEnded → hs_looper h = LoEnded;
  ho_owed : hs_looper h ≠ LoEnded → (hs_served h < hs_arrived h)%nat → (0 < hs_taken h + hs_pending h + hs_remaining h)%nat;
  ho_served : (hs_served h ≤ hs_arrived h)%nat;
  ho_bound : (hs_runs h + hs_remaining h + hs_pending h + hs_taken h ≤ hs_arrived h)%nat;
}.

Lemma handle_new_ok : handle_ok handle_new.
Proof. by constructor. Qed.

Ltac handle_solve :=
  constructor; unfold hs_taken, hs_remaining in *; simpl in *; intros; simplify_eq; naive_solver lia.

Lemma handle_step_ok h h' : handle_step h h' → handle_ok h → handle_ok h'.
Proof.
  intros Hs. destruct Hs as [h|h Hc|h Hc Hl1 Hl2|h Hc|h Hl Hc|h Hl|n h Hl|r n h Hl Hc|h]; intros Hok; destruct h as [wk pd co lo st ar sv ru];
    destruct Hok as [H1 H2 H3 H4 H5 H6 H7]; simpl in *; subst.
  - unfold handle_deliver. destruct co; simpl; handle_solve.
  - handle_solve.
  - unfold collector_resumed. destruct lo; simpl; handle_solve.
  - handle_solve.
  - destruct co; handle_solve.
  - unfold looper_test. simpl. case_decide; [|destruct wk]; destruct co; handle_solve.
  - destruct n as [|n]; destruct co; handle_solve.
  - destruct r; destruct co; handle_solve.
  - handle_solve.
Qed.


(** A signal that comes between [handle] and the first turn of the collector finds no waiter. *)
Lemma handle_early_signal : handle_deliver handle_new = handle_new.
Proof. done. Qed.

(** A run that ends with an exception is the last one: the collector goes on counting, and the
    loop is not there to look. *)
Lemma handle_after_throw h (x : exn) n h' :
  hs_looper h = LoInFactory n → handle_ok h → rtc handle_step (factory_ends (Throw x) n h) h' →
  hs_looper h' = LoEnded ∧ hs_runs h' = hs_runs h.
Proof.
  intros _ _ Hr. assert (∀ h0, rtc handle_step h0 h' → hs_looper h0 = LoEnded → hs_looper h' = LoEnded ∧ hs_runs h' = hs_runs h0) as Hinv.
  { clear. induction 1 as [|x y z Hs _ IH]; intros He; [done|].
    assert (hs_looper y = LoEnded ∧ hs_runs y = hs_runs x) as [Hy Hry].
    { destruct Hs; try congruence; try done.
      - unfold handle_deliver. by destruct (hs_collector h).
      - simpl. by rewrite He. }
    destruct (IH Hy) as [Hz Hrz]. split; [done|congruence]. }
  by apply (Hinv _ Hr).
Qed.

(** ** The registry *)

Inductive process_step : signal_process → signal_process → Prop :=
  | PsAllow sig s : process_step s (allow sig s).2
  | PsDisallow b sig s : process_step s (disallow b sig s).2
  | PsWait sig s : is_allowed sig s = true → process_step s (install sig s).

Record process_ok s : Prop := {
  po_registrable : ∀ sig, sig ∈ sp_registry s → registrable (sp_platform s) sig = true;
  po_installed : sp_installed s ⊆ sp_registry s;
  po_reachable : sp_platform s = Win32 → ∀ sig, sig ∈ sp_installed s → crt_reachable sig = true;
}.

Lemma install_spec sig s x :
  x ∈ sp_installed (install sig s) ↔
  x ∈ sp_installed s ∨ x = sig ∧ (sp_platform s = Win32 → crt_reachable sig = true).
Proof. unfold install. simpl. destruct (sp_platform s) as [? ?|]; [|destruct (crt_reachable sig) eqn:?]; set_solver. Qed.

Lemma uninstall_spec sig s x :
  process_ok s → x ∈ sp_installed (uninstall sig s) ↔ x ∈ sp_installed s ∧ x ≠ sig.
Proof.
  intros Hok. pose proof (po_reachable s Hok) as Hr. unfold uninstall. simpl.
  destruct (sp_platform s) as [? ?|]; [set_solver|]. destruct (crt_reachable sig) eqn:Hc; [set_solver|].
  split; [|by intros []]. intros Hx. split; [done|]. intros ->. rewrite Hr in Hc; done.
Qed.

Lemma process_step_ok s s' : process_step s s' → process_ok s → process_ok s'.
Proof.
  intros Hs Hok. pose proof Hok as [Hreg Hins Hcrt]. destruct Hs as [sig s|b sig s|sig s Hal].
  - unfold allow. destruct (registrable _ sig) eqn:Hr; [|done]. case_bool_decide as Hin; [done|]. constructor; simpl.
    + intros x [->%elem_of_singleton|Hx]%elem_of_union; auto.
    + intros x [Hx|[-> _]]%install_spec; set_solver.
    + intros Hp x [Hx|[-> Hx]]%install_spec; auto.
  - unfold disallow. case_bool_decide as Hin; [|done]. destruct b; [done|]. constructor; simpl.
    + intros x [Hx _]%elem_of_difference. auto.
    + intros x [Hx Hne]%uninstall_spec; set_solver.
    + intros Hp x [Hx _]%uninstall_spec; auto.
  - apply bool_decide_eq_true in Hal. constructor; simpl; [done| |].
    + intros x [Hx|[-> _]]%install_spec; auto.
    + intros Hp x [Hx|[-> Hx]]%install_spec; auto.
Qed.

Lemma process_init_ok p : process_ok (process_init p).
Proof.
  constructor; simpl; [|set_solver|set_solver].
  intros sig. destruct p as [? ?|]; simpl; rewrite !elem_of_union, !elem_of_singleton.
  - by intros [[-> | ->]| ->].
  - by intros [[[-> | ->]| ->]| ->].
Qed.

Lemma reachable_process_ok p s : rtc process_step (process_init p) s → process_ok s.
Proof.
  generalize (process_init_ok p). generalize (process_init p).
  intros s0 H0 Hr. induction Hr; eauto using process_step_ok.
Qed.

(** Whatever has been allowed, disallowed and awaited: only signals that can be registered are
    allowed, and the library handles no signal that is not.  [allow] answers true exactly for
    those that can be registered, and puts the handler in place; [disallow] takes it away, unless
    somebody waits, when it changes nothing. *)
Theorem signals_registered p s sig :
  rtc process_step (process_init p) s →
  (sig ∈ sp_registry s → registrable (sp_platform s) sig = true) ∧
  (sig ∈ sp_installed s → sig ∈ sp_registry s) ∧
  ((allow sig s).1 = registrable (sp_platform s) sig ∧ is_allowed sig (allow sig s).2 = registrable (sp_platform s) sig) ∧
  (∀ b, (disallow b sig s).1 = is_allowed sig s && negb b ∧
     ((disallow b sig s).1 = true → sig ∉ sp_registry (disallow b sig s).2 ∧ sig ∉ sp_installed (disallow b sig s).2) ∧
     ((disallow b sig s).1 = false → (disallow b sig s).2 = s)).
Proof.
  intros Hok%reachable_process_ok. pose proof Hok as [Hreg Hins _]. split; [auto|]. split; [auto|]. split.
  - unfold allow, is_allowed. destruct (registrable _ sig) eqn:Hr; simpl.
    + destruct (bool_decide (sig ∈ sp_registry s)) eqn:Hin; simpl; [done|]. split; [done|]. apply bool_decide_eq_true. set_solver.
    + split; [done|]. apply bool_decide_eq_false. intros Hin. rewrite Hreg in Hr; done.
  - intros b. unfold disallow, is_allowed. case_bool_decide as Hin; [|by simpl]. destruct b; [by simpl|]. simpl. split; [done|].
    split; [|done]. intros _. split; [set_solver|]. intros [_ ?]%uninstall_spec; done.
Qed.

(** ** The waiters of a signal *)

(** No list of the map is empty, which is what [has_waiters] relies on. *)
Definition manager_ok m : Prop := map_Forall (λ _ l, l ≠ []) m.

Lemma manager_add_ok sig e m : manager_ok m → manager_ok (manager_add sig e m).
Proof. intros Hm. apply map_Forall_insert_2; [by destruct (default [] _)|done]. Qed.

Lemma manager_remove_ok sig a m : manager_ok m → manager_ok (manager_remove sig a m).
Proof.
  intros Hm. unfold manager_remove. destruct (m !! sig) as [l|]; [|done].
  destruct (filter _ l) eqn:Hf; [by apply map_Forall_delete|by apply map_Forall_insert_2].
Qed.

Lemma manager_take_spec sig m :
  manager_ok m → (manager_take sig m).1 = default [] (m !! sig) ∧ (manager_take sig m).2 = delete sig m.
Proof.
  intros Hm. unfold manager_take. destruct (m !! sig) as [[|e l]|] eqn:Hl; [by apply Hm in Hl|done|].
  simpl. by rewrite delete_id.
Qed.

Lemma has_waiters_sig_spec sig m : manager_ok m → has_waiters_sig sig m = negb (bool_decide (default [] (m !! sig) = [])).
Proof. intros Hm. unfold has_waiters_sig. destruct (m !! sig) as [[|e l]|] eqn:Hl; [by apply Hm in Hl|done|done]. Qed.

Lemma manager_remove_lookup sig a m sig' :
  default [] (manager_remove sig a m !! sig') =
    if decide (sig' = sig) then filter (λ e, we_awaiter e ≠ a) (default [] (m !! sig)) else default [] (m !! sig').
Proof.
  unfold manager_remove. case_decide as Hs.
  - subst sig'. destruct (m !! sig) as [l|] eqn:Hl; [|by rewrite Hl]. simpl.
    destruct (filter _ l) eqn:Hf; [by rewrite lookup_delete_eq|by rewrite lookup_insert_eq].
  - destruct (m !! sig) as [l|]; [|done].
    destruct (filter _ l); [by rewrite lookup_delete_ne|by rewrite lookup_insert_ne].
Qed.

Section delivery.
Context {W : Type} `{RuntimeLaws W}.
Implicit Types (w : W).

Lemma wake_entries_mono l w lp hd : rt_queued lp hd w = true → rt_queued lp hd (foldl wake_entry w l) = true.
Proof.
  revert w. induction l as [|e l IH]; intros w Hq; [done|]. apply IH. unfold wake_entry. destruct (_ && _); [|done].
  by apply rl_schedule_mono.
Qed.

Lemma wake_entries_live l w lp hd : rt_live lp hd (foldl wake_entry w l) = rt_live lp hd w.
Proof.
  revert w. induction l as [|e l IH]; intros w; [done|]. cbn [foldl]. rewrite IH. unfold wake_entry. destruct (_ && _); [|done].
  by rewrite rl_schedule_live.
Qed.

Lemma wake_entries_queued l w e :
  e ∈ l → we_handle e ≠ null_handle → we_loop e ≠ 0%nat → rt_live (we_loop e) (we_handle e) w = true →
  rt_queued (we_loop e) (we_handle e) (foldl wake_entry w l) = true.
Proof.
  intros Hin Hh Hl Hlive. revert w Hlive. induction l as [|x l IH]; intros w Hlive; [by apply elem_of_nil in Hin|].
  cbn [foldl]. apply elem_of_cons in Hin as [<-|Hin].
  - apply wake_entries_mono. unfold wake_entry. rewrite !bool_decide_true by done. by apply rl_schedule_queued.
  - apply IH; [done|]. pose proof (wake_entries_live [x] w (we_loop e) (we_handle e)) as Hx. cbn [foldl] in Hx. by rewrite Hx.
Qed.

(** One delivery wakes everybody who waits for that signal at that moment, each on its own loop,
    and nobody is left waiting for it; waiters of other signals are not touched, and a second
    delivery finds no one. *)
Theorem deliver_wakes_all sig m w :
  manager_ok m →
  let '(m', w') := manager_deliver sig m w in
  manager_ok m' ∧ has_waiters_sig sig m' = false ∧ (∀ sig', sig' ≠ sig → m' !! sig' = m !! sig') ∧
  (∀ e, e ∈ default [] (m !! sig) → we_handle e ≠ null_handle → we_loop e ≠ 0%nat →
     rt_live (we_loop e) (we_handle e) w = true → rt_queued (we_loop e) (we_handle e) w' = true) ∧
  (∀ w2, manager_deliver sig m' w2 = (m', w2)).
Proof.
  intros Hm. destruct (manager_take_spec sig m Hm) as [Hl Hd]. unfold manager_deliver.
  destruct (manager_take sig m) as [l m'] eqn:Ht. simpl in *. subst l m'.
  assert (manager_ok (delete sig m)) as Hm' by by apply map_Forall_delete.
  split_and!.
  - done.
  - rewrite has_waiters_sig_spec by done. by rewrite lookup_delete_eq.
  - intros sig' Hne. by rewrite lookup_delete_ne.
  - intros e Hin Hh Hlp Hlive. by apply wake_entries_queued.
  - intros w2. unfold manager_take. by rewrite lookup_delete_eq.
Qed.

(** Between the two halves of [deliver] the loop of a waiter may cancel it and go on with it: the
    second half wakes it in whatever it awaits then, since it does not say for which wait it is. *)
Lemma deliver_wakes_later_wait sig m e w :
  m !! sig = Some [e] → we_handle e ≠ null_handle → we_loop e ≠ 0%nat →
  let '(l, m') := manager_take sig m in
  ∀ w1 epoch, rt_live (we_loop e) (we_handle e) w1 = true → rt_is_wait_current (we_loop e) (we_handle e) epoch w1 = true →
    rt_queued (we_loop e) (we_handle e) (foldl wake_entry w1 l) = true.
Proof.
  intros Hm Hh Hl. unfold manager_take. rewrite Hm. intros w1 epoch Hlive _. by apply wake_entries_queued; [apply list_elem_of_here|..].
Qed.
End delivery.

(** ** The pipe and the bits *)

(** The transport, the signals that were posted and not dispatched since, and all that were posted. *)
Inductive transport_step : transport * gset Z * gset Z → transport * gset Z * gset Z → Prop :=
  | TpPost sig t owed posted :
      tp_open t = true → transport_step (t, owed, posted) (post sig t, {[sig]} ∪ owed, {[sig]} ∪ posted)
  | TpBridge sig t owed posted :
      tp_open t = true → transport_step (t, owed, posted) (bridge_post sig t, {[sig]} ∪ owed, {[sig]} ∪ posted)
  | TpRead b t t' owed posted :
      reader_read t = Some (b, t') → transport_step (t, owed, posted) (t', owed ∖ {[b]}, posted)
  | TpTake sig t t' owed posted :
      reader_take sig t = (true, t') → transport_step (t, owed, posted) (t', owed ∖ {[sig]}, posted).

(** A round of the reader that nothing interrupts: what it dispatches. *)
Fixpoint reader_drain (fuel : nat) t : list Z * transport :=
  match fuel with
  | O => ([], t)
  | S fuel =>
      match reader_read t with
      | None => ([], t)
      | Some (b, t) => let '(l, t) := reader_drain fuel t in (b :: l, t)
      end
  end.

Definition reader_check (st : list Z * transport) sig : list Z * transport :=
  let '(b, t) := reader_take sig st.2 in (if b then st.1 ++ [sig] else st.1, t).
Definition reader_scan (l : list Z) t : list Z * transport := foldl reader_check ([], t) l.

Definition reader_round t : list Z * transport :=
  let '(l1, t) := reader_drain (length (tp_pipe t)) t in
  let '(l2, t) := reader_scan all_signals t in
  (l1 ++ l2, t).

Definition signal_number sig : Prop := 0 < sig < 64.

Record transport_ok (y : transport * gset Z * gset Z) : Prop := {
  to_owed : ∀ sig, signal_number sig → sig ∈ y.1.2 → sig ∈ tp_pipe y.1.1 ∨ sig ∈ tp_pending y.1.1;
  to_pipe : ∀ b, b ∈ tp_pipe y.1.1 → ∃ sig, sig ∈ y.2 ∧ b = Z.land sig 127;
  to_pending : ∀ sig, sig ∈ tp_pending y.1.1 → sig ∈ y.2;
}.

Lemma land_127 sig : signal_number sig → Z.land sig 127 = sig.
Proof. intros Hs. change 127 with (Z.ones 7). rewrite Z.land_ones by lia. apply Z.mod_small. unfold signal_number in Hs. lia. Qed.

Lemma post_spec sig t :
  tp_open t = true →
  (∀ b, b ∈ tp_pipe t → b ∈ tp_pipe (post sig t)) ∧ (∀ x, x ∈ tp_pending t → x ∈ tp_pending (post sig t)) ∧
  (signal_number sig → sig ∈ tp_pipe (post sig t) ∨ sig ∈ tp_pending (post sig t)) ∧
  (∀ b, b ∈ tp_pipe (post sig t) → b ∈ tp_pipe t ∨ b = Z.land sig 127) ∧
  (∀ x, x ∈ tp_pending (post sig t) → x ∈ tp_pending t ∨ x = sig).
Proof.
  intros Ho. unfold post, mark_pending. rewrite Ho. case_decide as Hc; simpl.
  - split_and!; [set_solver|done| |set_solver|auto]. intros Hs. left. rewrite land_127 by done. set_solver.
  - destruct ((0 <? sig) && (sig <? 64)) eqn:Hr; simpl.
    + split_and!; [done|set_solver|set_solver|auto|set_solver].
    + split_and!; [done|done| |auto|auto]. intros [??]. apply andb_false_iff in Hr as [?|?]; bool_to_prop; lia.
Qed.

Lemma bridge_post_spec sig t :
  tp_open t = true →
  tp_pipe (bridge_post sig t) = tp_pipe t ∧ (∀ x, x ∈ tp_pending t → x ∈ tp_pending (bridge_post sig t)) ∧
  (signal_number sig → sig ∈ tp_pending (bridge_post sig t)) ∧
  (∀ x, x ∈ tp_pending (bridge_post sig t) → x ∈ tp_pending t ∨ x = sig).
Proof.
  intros Ho. unfold bridge_post. rewrite Ho. destruct (_ || _) eqn:Hr; simpl.
  - split_and!; [done|done| |auto]. intros [??]. apply orb_true_iff in Hr as [Hr|?]; [|done].
    apply orb_true_iff in Hr as [Hr|Hr]; apply bool_decide_eq_true in Hr; lia.
  - split_and!; [done|set_solver|set_solver|set_solver].
Qed.

Lemma reader_take_spec sig t t' :
  reader_take sig t = (true, t') → sig ∈ tp_pending t ∧ tp_pipe t' = tp_pipe t ∧ tp_pending t' = tp_pending t ∖ {[sig]}.
Proof. unfold reader_take. case_bool_decide; intros; by simplify_eq. Qed.

Lemma transport_step_ok y y' : transport_step y y' → transport_ok y → transport_ok y'.
Proof.
  intros Hs [Ho Hp Hd]. destruct Hs as [sig t owed posted Hop|sig t owed posted Hop|b t t' owed posted Hr|sig t t' owed posted Hr]; simpl in *.
  - destruct (post_spec sig t Hop) as (H1 & H2 & H3 & H4 & H5). constructor; simpl.
    + intros x Hx [->%elem_of_singleton|Hin]%elem_of_union; [auto|]. destruct (Ho x Hx Hin); auto.
    + intros b [Hb| ->]%H4; [|exists sig; set_solver]. destruct (Hp b Hb) as (x & ? & ?). exists x. set_solver.
    + intros x [Hx| ->]%H5; set_solver.
  - destruct (bridge_post_spec sig t Hop) as (H1 & H2 & H3 & H4). constructor; simpl.
    + intros x Hx [->%elem_of_singleton|Hin]%elem_of_union; [auto|]. rewrite H1. destruct (Ho x Hx Hin); auto.
    + rewrite H1. intros b Hb. destruct (Hp b Hb) as (x & ? & ?). exists x. set_solver.
    + intros x [Hx| ->]%H4; set_solver.
  - unfold reader_read in Hr. destruct (tp_pipe t) as [|c l]; [done|]. injection Hr as -> <-. constructor; simpl.
    + intros x Hx [Hin Hne]%elem_of_difference. destruct (Ho x Hx Hin) as [[->|?]%elem_of_cons|?]; set_solver.
    + intros x Hx. apply Hp. by apply elem_of_cons; right.
    + done.
  - apply reader_take_spec in Hr as (Hin & Hpipe & Hpend). constructor; simpl; rewrite ?Hpipe, ?Hpend; [|done|set_solver].
    intros x Hx [Hox Hne]%elem_of_difference. destruct (Ho x Hx Hox); set_solver.
Qed.

Lemma reader_drain_spec fuel t :
  (length (tp_pipe t) ≤ fuel)%nat →
  reader_drain fuel t = (tp_pipe t, mkTransport (tp_open t) [] (tp_capacity t) (tp_pending t)).
Proof.
  revert t. induction fuel as [|fuel IH]; intros [o l c p] Hf; simpl in *; (destruct l as [|b l]; simpl in *; [done|]); [lia|].
  unfold reader_read. simpl. by rewrite IH by (simpl; lia).
Qed.

Lemma reader_scan_spec l t :
  NoDup l →
  (reader_scan l t).1 = filter (λ sig, sig ∈ tp_pending t) l ∧
  (reader_scan l t).2 = mkTransport (tp_open t) (tp_pipe t) (tp_capacity t) (tp_pending t ∖ list_to_set l).
Proof.
  intros Hnd. unfold reader_scan.
  assert (∀ acc t, foldl reader_check (acc, t) l =
    (acc ++ filter (λ sig, sig ∈ tp_pending t) l, mkTransport (tp_open t) (tp_pipe t) (tp_capacity t) (tp_pending t ∖ list_to_set l))) as Hf.
  { induction Hnd as [|sig l Hsig Hnd IH]; intros acc [o p c pd]; simpl.
    - f_equal; [by rewrite app_nil_r|]. f_equal. set_solver.
    - unfold reader_check at 2, reader_take. simpl. case_bool_decide as Hin; rewrite IH, filter_cons; simpl.
      + rewrite decide_True by done. f_equal; [|f_equal; set_solver]. rewrite <- app_assoc. do 2 f_equal.
        apply list_filter_iff_Forall. rewrite Forall_forall. set_solver.
      + rewrite decide_False by done. f_equal. f_equal. set_solver. }
  rewrite Hf. done.
Qed.

(** No signal is lost on its way to the waiters, in any interleaving of handlers with the reader:
    what has been posted and not been dispatched since is in the pipe or has its bit, and a round
    of the reader dispatches it; and nothing is dispatched that was not posted. *)
Theorem signals_dispatched capacity y sig :
  rtc transport_step (mkTransport true [] capacity ∅, ∅, ∅) y →
  (signal_number sig → sig ∈ y.1.2 → sig ∈ (reader_round y.1.1).1) ∧
  (sig ∈ (reader_round y.1.1).1 → ∃ sig', sig' ∈ y.2 ∧ sig = Z.land sig' 127 ∨ sig ∈ y.2).
Proof.
  intros Hr. assert (transport_ok y) as [Ho Hp Hd].
  { assert (transport_ok (mkTransport true [] capacity ∅, ∅, ∅)) as H0 by (constructor; set_solver). revert H0 Hr.
    generalize (mkTransport true [] capacity ∅, ∅ : gset Z, ∅ : gset Z). intros y0 H0 Hr. induction Hr; eauto using transport_step_ok. }
  destruct y as [[t owed] posted]. simpl in *. unfold reader_round. rewrite reader_drain_spec by done.
  destruct (reader_scan_spec all_signals (mkTransport (tp_open t) [] (tp_capacity t) (tp_pending t))) as [H1 _]; [apply NoDup_seqZ|].
  destruct (reader_scan _ _) as [l2 t2]. simpl in *. subst l2. rewrite elem_of_app, list_elem_of_filter. split.
  - intros Hs Hin. destruct (Ho sig Hs Hin); [by left|right]. split; [done|]. apply elem_of_seqZ. unfold signal_number in Hs. lia.
  - intros [Hb|[Hb _]]; [|by exists sig; right; apply Hd]. destruct (Hp sig Hb) as (x & ? & ?). exists x. by left.
Qed.

(** The largest real-time signal is 64, which has no bit: with a full pipe it is gone. *)
Lemma post_full_64 t : tp_open t = true → (tp_capacity t ≤ length (tp_pipe t))%nat → post 64 t = t.
Proof. intros Ho Hf. unfold post. rewrite Ho, decide_False by lia. done. Qed.

(** [notify] takes any number and sends its low seven bits: 130 arrives as [SIGINT]. *)
Lemma notify_wraps t :
  tp_open t = true → (length (tp_pipe t) < tp_capacity t)%nat → tp_pipe (post 130 t) = tp_pipe t ++ [SIGINT].
Proof. intros Ho Hf. unfold post. rewrite Ho, decide_True by lia. done. Qed.

(** ** Witnesses *)


Lemma signals_registered_witness :
  (allow 10 (process_init (Linux 34 64))).1 = true ∧ (allow 33 (process_init (Linux 34 64))).1 = false.
Proof.
  split.
  - destruct (signals_registered (Linux 34 64) (process_init (Linux 34 64)) 10 ltac:(constructor)) as (_ & _ & [Ha _] & _). rewrite Ha. done.
  - destruct (signals_registered (Linux 34 64) (process_init (Linux 34 64)) 33 ltac:(constructor)) as (_ & _ & [Ha _] & _). rewrite Ha. done.
Defined.

Lemma signals_dispatched_witness :
  SIGTERM ∈ (reader_round (post SIGTERM (post SIGINT (mkTransport true [] 1 ∅)))).1.
Proof.
  apply (signals_dispatched 1 (post SIGTERM (post SIGINT (mkTransport true [] 1 ∅)), {[SIGTERM]} ∪ ({[SIGINT]} ∪ ∅), {[SIGTERM]} ∪ ({[SIGINT]} ∪ ∅)) SIGTERM).
  - eapply rtc_l; [by apply TpPost|]. eapply rtc_l; [by apply TpPost|]. constructor.
  - unfold signal_number, SIGTERM. lia.
  - simpl. set_solver.
Defined.

Lemma deliver_wakes_all_witness :
  let m := manager_add SIGINT (mkSignalWaiter 2 12 1) (manager_add SIGTERM (mkSignalWaiter 1 11 1) ∅) in
  rt_queued 1%nat 11%nat (manager_deliver SIGTERM m w_demo).2 = true ∧ (manager_deliver SIGTERM m w_demo).1 !! SIGINT = m !! SIGINT.
Proof.
  intros m. assert (manager_ok m) as Hm by by do 2 apply manager_add_ok.
  pose proof (deliver_wakes_all SIGTERM m w_demo Hm) as Hd. destruct (manager_deliver SIGTERM m w_demo) as [m' w'].
  destruct Hd as (_ & _ & Hother & Hq & _). split; [|by apply Hother].
  apply (Hq (mkSignalWaiter 1 11 1)); [|done|done|by vm_compute]. apply list_elem_of_here.
Defined.
