(* ===== verification/ServiceM.v ===== *)
(** * ServiceM: the TCP and UDP servers

    [TcpServer] of [src/tcp_udp/tcp_server.hpp] and [UdpServer] of [src/tcp_udp/udp_server.hpp]:
    the phases of a service with [start], [stop_request], [stop], [shutdown] and the supervisor,
    which both have in the same words; the accept loop with its connections; the receive loop with
    its budget of bytes.  Handlers are tasks of a [task_registry] (file [RegistryM]).

    The header asks for all of this to run on one loop, so a step is what runs between two awaits.
    The socket, the clock and the handlers are arguments. *)

From S2P Require Import Prelude RegistryM.
From stdpp Require Import options.

Local Open Scope Z_scope.

Inductive phase : Type := idle | running | draining | cancelling | stopped.

#[export] Instance phase_eq_dec : EqDecision phase.
Proof. solve_decision. Defined.

(** The accept or receive loop: never started, at its test, suspended in the socket, in the sleep
    after an error, ended. *)
Inductive entry_pc : Type := EnNone | EnTest | EnAwait | EnBackoff | EnDone.

(** The supervisor: never started, waiting for a stop, waiting with a deadline, ended. *)
Inductive supervisor_pc : Type := SuNone | SuRunning | SuDraining (deadline : Z) | SuCancelling (deadline : Z) | SuDone.

#[export] Instance entry_pc_eq_dec : EqDecision entry_pc.
Proof. solve_decision. Defined.

Definition entry_pending (e : entry_pc) : bool := match e with EnNone | EnDone => false | _ => true end.
Definition supervisor_pending (p : supervisor_pc) : bool := match p with SuNone | SuDone => false | _ => true end.

(** [state], with the tasks of the object.  [sv_cancels] is a record of the calls of
    [request_cancel_all], [sv_errors] of those of the error handler. *)
Record service : Type := mkService {
  sv_phase : phase;
  sv_registry : registry_state;
  sv_open : bool;
  sv_entry : entry_pc;
  sv_supervisor : supervisor_pc;
  sv_report : shutdown_report;
  sv_grace : Z;
  sv_cancel_grace : Z;
  sv_handled : nat;
  sv_errors : nat;
  sv_cancels : list (list (loop_id * nat));
}.
Implicit Types (s : service) (now : Z).

Definition sv_set_phase p s : service :=
  mkService p (sv_registry s) (sv_open s) (sv_entry s) (sv_supervisor s) (sv_report s) (sv_grace s) (sv_cancel_grace s) (sv_handled s) (sv_errors s) (sv_cancels s).
Definition sv_set_registry r s : service :=
  mkService (sv_phase s) r (sv_open s) (sv_entry s) (sv_supervisor s) (sv_report s) (sv_grace s) (sv_cancel_grace s) (sv_handled s) (sv_errors s) (sv_cancels s).
Definition sv_close s : service :=
  mkService (sv_phase s) (sv_registry s) false (sv_entry s) (sv_supervisor s) (sv_report s) (sv_grace s) (sv_cancel_grace s) (sv_handled s) (sv_errors s) (sv_cancels s).
Definition sv_set_entry e s : service :=
  mkService (sv_phase s) (sv_registry s) (sv_open s) e (sv_supervisor s) (sv_report s) (sv_grace s) (sv_cancel_grace s) (sv_handled s) (sv_errors s) (sv_cancels s).
Definition sv_set_supervisor p s : service :=
  mkService (sv_phase s) (sv_registry s) (sv_open s) (sv_entry s) p (sv_report s) (sv_grace s) (sv_cancel_grace s) (sv_handled s) (sv_errors s) (sv_cancels s).
Definition sv_set_report r s : service :=
  mkService (sv_phase s) (sv_registry s) (sv_open s) (sv_entry s) (sv_supervisor s) r (sv_grace s) (sv_cancel_grace s) (sv_handled s) (sv_errors s) (sv_cancels s).
Definition sv_set_graces g c s : service :=
  mkService (sv_phase s) (sv_registry s) (sv_open s) (sv_entry s) (sv_supervisor s) (sv_report s) g c (sv_handled s) (sv_errors s) (sv_cancels s).
Definition sv_count_handled s : service :=
  mkService (sv_phase s) (sv_registry s) (sv_open s) (sv_entry s) (sv_supervisor s) (sv_report s) (sv_grace s) (sv_cancel_grace s) (S (sv_handled s)) (sv_errors s) (sv_cancels s).
Definition note_error s : service :=
  mkService (sv_phase s) (sv_registry s) (sv_open s) (sv_entry s) (sv_supervisor s) (sv_report s) (sv_grace s) (sv_cancel_grace s) (sv_handled s) (S (sv_errors s)) (sv_cancels s).
Definition sv_cancel_all s : service :=
  mkService (sv_phase s) (sv_registry s) (sv_open s) (sv_entry s) (sv_supervisor s) (sv_report s) (sv_grace s) (sv_cancel_grace s) (sv_handled s) (sv_errors s)
    (sv_cancels s ++ [request_cancel_all (sv_registry s)]).

Definition service_init : service :=
  mkService idle (registry_init 0) false EnNone SuNone (mkReport false 0) 1000 500 0 0 [].

Definition sv_empty s : bool := rg_empty (sv_registry s).

(** The end of a task of the registry; on one loop nothing comes between the two halves of [finish]. *)
Definition rg_finish (e : nat) (st : registry_state) : registry_state :=
  match rg_finish_erase e st with Some (_, st) => rg_finish_count st | None => st end.

(** A configuration, without what only concerns the socket. *)
Definition set_config (capacity : nat) (grace cancel_grace : Z) s : res service :=
  if bool_decide (grace < 0) || bool_decide (cancel_grace < 0) then Throw InvalidArgument
  else Ok (sv_set_graces grace cancel_grace (sv_set_registry (rg_set_capacity capacity (sv_registry s)) s)).

(** [start]: [bound] is what [bind_listen] answers, [thrown] whether the first or the second call
    of [spawn] throws; the graces are those of the configuration. *)
Definition start (has_handler bound : bool) (thrown : option (bool * exn)) (grace cancel_grace : Z) s : res bool * service :=
  if negb (bool_decide (sv_phase s = idle)) && negb (bool_decide (sv_phase s = stopped)) then (Ok false, s)
  else if negb has_handler then (Ok false, s)
  else if negb (sv_empty s) || entry_pending (sv_entry s) || supervisor_pending (sv_supervisor s) then (Ok false, s)
  else if negb bound then (Ok false, note_error s)
  else
    let s := mkService running (sv_registry s) true (sv_entry s) (sv_supervisor s) (mkReport false 0) grace cancel_grace
               (sv_handled s) (sv_errors s) (sv_cancels s) in
    match thrown with
    | None => (Ok true, sv_set_supervisor SuRunning (sv_set_entry EnTest s))
    | Some (first, e) =>
        let s := if first then s else sv_set_entry EnTest s in
        (Throw e, sv_set_phase stopped (sv_close s))
    end.

Definition stop_request s : service :=
  if bool_decide (sv_phase s = running) then sv_close (sv_set_phase draining s) else s.

Definition stop s : service :=
  let s := stop_request s in
  let s := if bool_decide (sv_phase s = draining) then sv_set_phase cancelling s else s in
  sv_cancel_all s.

(** ** The supervisor: what it does when it is resumed at the time [now] *)

Definition supervisor_finish s : service :=
  let s := sv_set_report (mkReport (sv_empty s) (rg_active (sv_registry s))) s in
  sv_set_supervisor SuDone (sv_close (sv_set_phase stopped s)).

Definition cancel_turn now deadline s : service :=
  if negb (sv_empty s) && bool_decide (now < deadline) then sv_set_supervisor (SuCancelling deadline) s
  else supervisor_finish s.

Definition drain_turn now deadline s : service :=
  if negb (sv_empty s) && bool_decide (now < deadline) && negb (bool_decide (sv_phase s = cancelling)) then
    sv_set_supervisor (SuDraining deadline) s
  else if negb (sv_empty s) then
    let s := sv_cancel_all (sv_set_phase cancelling s) in
    cancel_turn now (now + sv_cancel_grace s) s
  else supervisor_finish s.

Definition supervisor_turn now s : service :=
  match sv_supervisor s with
  | SuRunning => if bool_decide (sv_phase s = running) then s else drain_turn now (now + sv_grace s) s
  | SuDraining d => drain_turn now d s
  | SuCancelling d => cancel_turn now d s
  | _ => s
  end.

(** ** [shutdown] *)

Inductive shutdown_pc : Type := ShWait | ShJoin | ShDone (r : shutdown_report).

(** The loops of [shutdown], when it is resumed. *)
Definition shutdown_join s : shutdown_pc :=
  if entry_pending (sv_entry s) || supervisor_pending (sv_supervisor s) then ShJoin else ShDone (sv_report s).
Definition shutdown_turn (p : shutdown_pc) s : shutdown_pc :=
  match p with
  | ShWait => if bool_decide (sv_phase s = stopped) then shutdown_join s else ShWait
  | ShJoin => shutdown_join s
  | ShDone r => ShDone r
  end.

Definition shutdown (grace cancel_grace : Z) s : res shutdown_pc * service :=
  if bool_decide (grace < 0) || bool_decide (cancel_grace < 0) then (Throw InvalidArgument, s)
  else if bool_decide (sv_phase s = idle) then
    let s := sv_set_phase stopped (sv_set_report (mkReport true 0) s) in (Ok (ShDone (sv_report s)), s)
  else
    let s := stop_request (sv_set_graces grace cancel_grace s) in
    (Ok (shutdown_turn ShWait s), s).

(** ** The loops that feed the handlers *)

(** The end of the loop: the destructor of [entry_scope]. *)
Definition entry_end s : service :=
  sv_set_entry EnDone (if bool_decide (sv_phase s = running) then sv_set_phase draining s else s).

(** The test of the loop. *)
Definition entry_test s : service :=
  if bool_decide (sv_phase s = running) then sv_set_entry EnAwait s else entry_end s.

(** [transient_accept_error]. *)
Definition transient_accept_error (windows : bool) (native : Z) : bool :=
  if windows then bool_decide (native ∈ [10004; 10054; 10053; 10024; 10055; 10035])
  else bool_decide (native ∈ [4; 103; 24; 23; 105; 11]).

(** [accept] failed. *)
Definition accept_failed (windows : bool) (native : Z) s : service :=
  if negb (bool_decide (sv_phase s = running)) then entry_end s
  else if transient_accept_error windows native then sv_set_entry EnBackoff (note_error s)
  else entry_end (note_error s).

(** [accept] returned a connection, which the task [e] is to have: whether it does, or the
    connection is closed here. *)
Definition accept_conn (e : nat) (owner : loop_id) s : bool * service :=
  if negb (bool_decide (sv_phase s = running)) then (false, entry_end s)
  else
    let s := sv_count_handled s in
    let '(ok, r) := rg_spawn e owner (sv_registry s) in
    (ok, entry_test (sv_set_registry r s)).

(** [connection_handler] and [datagram_handler], when the handler is through, and the end of the
    task; the error handler does not throw. *)
Definition handler_ends (e : nat) (r : res unit) s : service :=
  let s := match r with Ok _ | Throw CancelledError => s | Throw _ => note_error s end in
  sv_set_registry (rg_finish e (sv_registry s)) s.

(** ** The budget of bytes of the UDP server *)

Definition size_max : Z := 2 ^ 64 - 1.

(** [reserve_bytes] on the counter. *)
Definition reserve_bytes (need limit current : Z) : option Z :=
  let ceiling := if bool_decide (limit = 0) then size_max else limit in
  if bool_decide (ceiling < current) || bool_decide (ceiling - current < need) then None else Some (current + need).

(** The service, [pending_bytes], the [byte_reservation]s that live in tasks, and the counters. *)
Record udp_server : Type := mkUdp {
  us_service : service;
  us_pending_bytes : Z;
  us_budgets : gmap nat Z;
  us_bytes_dropped : nat;
  us_truncated : nat;
}.
Implicit Types (u : udp_server).

Definition us_set_service s u : udp_server := mkUdp s (us_pending_bytes u) (us_budgets u) (us_bytes_dropped u) (us_truncated u).

(** [recvfrom] returned [n] into a buffer of [size] bytes; [e] is the task that is to have them. *)
Definition recv_result (e : nat) (owner : loop_id) (size limit n : Z) u : udp_server :=
  let s := us_service u in
  if decide (n < 0) then
    us_set_service (entry_end (if bool_decide (sv_phase s = running) then note_error s else s)) u
  else if negb (bool_decide (sv_phase s = running)) then us_set_service (entry_end s) u
  else
    let s := sv_count_handled s in
    let u := mkUdp s (us_pending_bytes u) (us_budgets u) (us_bytes_dropped u)
               (if bool_decide (n = size) then S (us_truncated u) else us_truncated u) in
    match reserve_bytes n limit (us_pending_bytes u) with
    | None =>
        mkUdp (entry_test s) (us_pending_bytes u) (us_budgets u) (S (us_bytes_dropped u)) (us_truncated u)
    | Some pending =>
        let '(ok, r) := rg_spawn e owner (sv_registry s) in
        let s := entry_test (sv_set_registry r s) in
        if ok then mkUdp s pending (<[e := n]> (us_budgets u)) (us_bytes_dropped u) (us_truncated u)
        else mkUdp s (pending - n) (us_budgets u) (us_bytes_dropped u) (us_truncated u)
    end.

(** The end of a task gives its budget back. *)
Definition datagram_ends (e : nat) (r : res unit) u : udp_server :=
  mkUdp (handler_ends e r (us_service u)) (us_pending_bytes u - default 0 (us_budgets u !! e)) (delete e (us_budgets u))
    (us_bytes_dropped u) (us_truncated u).

(** ** Steps of a service *)

Definition live_task (e : nat) s : Prop := e ∈ rg_entries (sv_registry s).

(** The calls of the owner and the turns of the coroutines, at the time [now]. *)
Inductive service_step (now : Z) : service → service → Prop :=
  | StConfig capacity g c s s' : set_config capacity g c s = Ok s' → service_step now s s'
  | StStart hh b th g c s : service_step now s (start hh b th g c s).2
  | StStopRequest s : service_step now s (stop_request s)
  | StStop s : service_step now s (stop s)
  | StShutdown g c s : service_step now s (shutdown g c s).2
  | StSupervisor s : supervisor_pending (sv_supervisor s) = true → service_step now s (supervisor_turn now s)
  | StEntryTest s : sv_entry s = EnTest ∨ sv_entry s = EnBackoff → service_step now s (entry_test s)
  | StAcceptFailed w n s : sv_entry s = EnAwait → service_step now s (accept_failed w n s)
  | StAccept e owner s : sv_entry s = EnAwait → rg_info (sv_registry s) !! e = None → service_step now s (accept_conn e owner s).2
  | StReceiveFailed s :
      sv_entry s = EnAwait → service_step now s (entry_end (if bool_decide (sv_phase s = running) then note_error s else s))
  | StDropped s : sv_entry s = EnAwait → sv_phase s = running → service_step now s (entry_test (sv_count_handled s))
  | StHandlerEnds e r s : live_task e s → service_step now s (handler_ends e r s).

(** The registry between two steps. *)
Definition registry_quiet (st : registry_state) : Prop := reg_ok (mkRegSys st [] WpDone).

Lemma quiet_active st : registry_quiet st → rg_active st = length (rg_entries st).
Proof. intros [_ _ Ha]. simpl in Ha. unfold pending_count in Ha. simpl in Ha. lia. Qed.

Lemma finish_quiet e st : registry_quiet st → registry_quiet (rg_finish e st) ∧ (rg_active (rg_finish e st) ≤ rg_active st)%nat.
Proof.
  intros Hq. unfold rg_finish. destruct (rg_finish_erase e st) as [[b st']|] eqn:He; [|done].
  assert (rg_active st' = rg_active st) as Hact.
  { unfold rg_finish_erase in He. destruct (rg_info st !! e) as [[? []]|]; by simplify_eq/=. }
  destruct (erase_reg_ok _ _ _ _ _ _ He Hq) as ([Hnd Hl Ha] & _ & _). simpl in *. unfold pending_count in Ha. simpl in Ha.
  unfold rg_finish_count, rg_set_active. simpl. split; [|lia]. split; simpl; [done|done|]. unfold pending_count. simpl. lia.
Qed.

Lemma spawn_quiet e owner st b st' :
  rg_info st !! e = None → rg_spawn e owner st = (b, st') → registry_quiet st → registry_quiet st'.
Proof. apply spawn_reg_ok. Qed.

Lemma quiet_empty st : registry_quiet st → rg_empty st = true → rg_active st = 0%nat.
Proof. intros _ He. by apply bool_decide_eq_true in He. Qed.

(** What holds between two steps. *)
Record service_ok s : Prop := {
  so_registry : registry_quiet (sv_registry s);
  so_idle : sv_phase s = idle → sv_entry s = EnNone ∧ sv_supervisor s = SuNone ∧ sv_empty s = true;
  so_running : sv_phase s = running → sv_supervisor s = SuRunning ∧ entry_pending (sv_entry s) = true ∧ sv_open s = true;
  so_leaving : sv_phase s = draining ∨ sv_phase s = cancelling → supervisor_pending (sv_supervisor s) = true;
  so_stopped : sv_phase s = stopped → supervisor_pending (sv_supervisor s) = false ∧ sv_open s = false ∧
    (rg_active (sv_registry s) ≤ sr_unfinished (sv_report s))%nat ∧
    (sr_drained (sv_report s) = true → sr_unfinished (sv_report s) = 0%nat);
  so_open : sv_open s = true → sv_phase s = running ∨ supervisor_pending (sv_supervisor s) = true;
}.

Lemma service_init_ok : service_ok service_init.
Proof.
  constructor; simpl; try done; [|by intros [?|?]].
  split; simpl; [constructor| |done]. intros e. split; [by intros ?%elem_of_nil|]. intros (x & Hx & _). by rewrite lookup_empty in Hx.
Qed.

Lemma ok_note_error s : service_ok s → service_ok (note_error s).
Proof. intros []. by constructor. Qed.
Lemma ok_count_handled s : service_ok s → service_ok (sv_count_handled s).
Proof. intros []. by constructor. Qed.
Lemma ok_graces g c s : service_ok s → service_ok (sv_set_graces g c s).
Proof. intros []. by constructor. Qed.
Lemma ok_cancel_all s : service_ok s → service_ok (sv_cancel_all s).
Proof. intros []. by constructor. Qed.

Lemma ok_stop_request s : service_ok s → service_ok (stop_request s) ∧ sv_phase (stop_request s) ≠ running.
Proof.
  intros Hok. unfold stop_request. case_bool_decide as Hp; [|done]. split; [|done]. destruct Hok as [H1 H2 H3 H4 H5 H6].
  destruct (H3 Hp) as (Hsu & _ & _). constructor; simpl; try done. intros _. by rewrite Hsu.
Qed.

Lemma ok_entry_end s : service_ok s → entry_pending (sv_entry s) = true → service_ok (entry_end s).
Proof.
  intros [H1 H2 H3 H4 H5 H6] He. unfold entry_end. case_bool_decide as Hp.
  - destruct (H3 Hp) as (Hsu & _ & Ho). constructor; simpl; try done; intros _; rewrite Hsu; auto.
  - constructor; simpl; try done. intros Hi. destruct (H2 Hi) as [Hen _]. by rewrite Hen in He.
Qed.

Lemma ok_entry_set p s : service_ok s → entry_pending (sv_entry s) = true → entry_pending p = true → service_ok (sv_set_entry p s).
Proof.
  intros [H1 H2 H3 H4 H5 H6] He Hp. constructor; simpl; try done.
  - intros Hi. destruct (H2 Hi) as [Hen _]. by rewrite Hen in He.
  - intros Hr. destruct (H3 Hr) as (? & _ & ?). done.
Qed.

Lemma ok_entry_test s : service_ok s → entry_pending (sv_entry s) = true → service_ok (entry_test s).
Proof. intros Hok He. unfold entry_test. case_bool_decide; [by apply ok_entry_set|by apply ok_entry_end]. Qed.

Lemma ok_registry r s :
  service_ok s → registry_quiet r → (sv_phase s = running ∨ rg_active r ≤ rg_active (sv_registry s))%nat →
  service_ok (sv_set_registry r s).
Proof.
  intros [H1 H2 H3 H4 H5 H6] Hr Hs. constructor; simpl; try done.
  - intros Hi. destruct (H2 Hi) as (Ha & Hb & Hc). split_and!; [done..|]. unfold sv_empty, rg_empty in *. simpl.
    apply bool_decide_eq_true in Hc. apply bool_decide_eq_true. destruct Hs as [Hs|Hs]; [congruence|lia].
  - intros Hst. destruct (H5 Hst) as (Ha & Hb & Hc & Hd). split_and!; [done..| |done]. destruct Hs as [Hs|Hs]; [congruence|lia].
Qed.

Lemma ok_finish s : service_ok s → supervisor_pending (sv_supervisor s) = true → service_ok (supervisor_finish s).
Proof.
  intros [H1 H2 H3 H4 H5 H6] Hsu. unfold supervisor_finish. constructor; simpl; try done; [by intros [?|?]|].
  intros _. split_and!; [done..|]. by apply quiet_empty.
Qed.

Lemma ok_supervisor p s :
  service_ok s → sv_phase s ≠ running → supervisor_pending (sv_supervisor s) = true → supervisor_pending p = true →
  service_ok (sv_set_supervisor p s).
Proof.
  intros [H1 H2 H3 H4 H5 H6] Hr Hsu Hp. constructor; simpl; try done; auto.
  - intros Hi. destruct (H2 Hi) as (_ & He & _). by rewrite He in Hsu.
  - intros Hst. destruct (H5 Hst) as (He & _). congruence.
Qed.

Lemma ok_cancelling s : service_ok s → supervisor_pending (sv_supervisor s) = true → service_ok (sv_set_phase cancelling s).
Proof. intros [H1 H2 H3 H4 H5 H6] Hsu. constructor; simpl; try done; auto. Qed.

Lemma ok_cancel_turn now d s :
  service_ok s → sv_phase s ≠ running → supervisor_pending (sv_supervisor s) = true → service_ok (cancel_turn now d s).
Proof. intros Hok Hr Hsu. unfold cancel_turn. destruct (_ && _); [by apply ok_supervisor|by apply ok_finish]. Qed.

Lemma ok_drain_turn now d s :
  service_ok s → sv_phase s ≠ running → supervisor_pending (sv_supervisor s) = true → service_ok (drain_turn now d s).
Proof.
  intros Hok Hr Hsu. unfold drain_turn. destruct (_ && _ && _); [by apply ok_supervisor|].
  destruct (negb (sv_empty s)); [|by apply ok_finish].
  apply ok_cancel_turn; [by apply ok_cancel_all, ok_cancelling|done|done].
Qed.

Lemma ok_supervisor_turn now s : service_ok s → service_ok (supervisor_turn now s).
Proof.
  intros Hok. unfold supervisor_turn. pose proof (so_running s Hok) as Hrun. destruct (sv_supervisor s) as [| |d|d|] eqn:Hsu; try done.
  - case_bool_decide; [done|]. apply ok_drain_turn; [done|done|by rewrite Hsu].
  - apply ok_drain_turn; [done| |by rewrite Hsu]. intros Hp. destruct (Hrun Hp) as [? _]. congruence.
  - apply ok_cancel_turn; [done| |by rewrite Hsu]. intros Hp. destruct (Hrun Hp) as [? _]. congruence.
Qed.

Lemma ok_start hh b th g c s : service_ok s → service_ok (start hh b th g c s).2.
Proof.
  intros Hok. unfold start. destruct (_ && _); [done|]. destruct (negb hh); [done|].
  destruct (negb (sv_empty s)) eqn:Hemp; [done|]. destruct (entry_pending _) eqn:Hen; [done|]. destruct (supervisor_pending _) eqn:Hsu; [done|].
  destruct (negb b); [by apply ok_note_error|]. apply negb_false_iff in Hemp.
  pose proof (so_registry s Hok) as Hq. pose proof (quiet_empty _ Hq Hemp) as H0. simpl.
  destruct th as [[[] e]|]; constructor; simpl; try done; rewrite ?H0, ?Hsu; auto with lia; by intros [?|?].
Qed.

Lemma service_step_ok now s s' : service_step now s s' → service_ok s → service_ok s'.
Proof.
  intros Hs Hok. destruct Hs as [capacity g c s s' Hc|hh b th g c s|s|s|g c s|s Hsu|s He|w n s He|e owner s He Hn|s He|s He Hp|e r s Hl].
  - unfold set_config in Hc. destruct (_ || _); [done|]. injection Hc as <-. apply ok_graces, ok_registry; [done| |by right].
    destruct (so_registry s Hok). by split.
  - by apply ok_start.
  - by apply ok_stop_request.
  - unfold stop. apply ok_cancel_all. destruct (ok_stop_request s Hok) as [Hq Hr]. case_bool_decide as Hd; [|done].
    apply ok_cancelling; [done|]. apply (so_leaving _ Hq). by left.
  - unfold shutdown. destruct (_ || _); [done|]. case_bool_decide as Hi; [|by apply ok_stop_request, ok_graces].
    destruct Hok as [H1 H2 H3 H4 H5 H6]. destruct (H2 Hi) as (Ha & Hb & Hc). pose proof (quiet_empty _ H1 Hc) as H0.
    assert (sv_open s = false) as Ho. { destruct (sv_open s) eqn:Ho; [|done]. destruct (H6 eq_refl) as [?|Hx]; [congruence|by rewrite Hb in Hx]. }
    constructor; simpl; try done; rewrite ?H0, ?Hb; [by intros [?|?]|auto|by rewrite Ho].
  - by apply ok_supervisor_turn.
  - apply ok_entry_test; [done|]. by destruct He as [-> | ->].
  - unfold accept_failed. case_bool_decide; simpl; [|by apply ok_entry_end; [|rewrite He]].
    destruct (transient_accept_error w n); [apply ok_entry_set|apply ok_entry_end]; try by apply ok_note_error.
    all: simpl; rewrite ?He; done.
  - unfold accept_conn. case_bool_decide as Hp; simpl; [|by apply ok_entry_end; [|rewrite He]].
    destruct (rg_spawn e owner (sv_registry s)) as [ok r] eqn:Hsp. simpl. apply ok_entry_test; [|simpl; by rewrite He].
    apply ok_registry; [by apply ok_count_handled| |by left]. eapply spawn_quiet; [done|done|apply Hok].
  - apply ok_entry_end; [case_bool_decide; [by apply ok_note_error|done]|]. case_bool_decide; simpl; by rewrite He.
  - apply ok_entry_test; [by apply ok_count_handled|]. simpl. by rewrite He.
  - unfold handler_ends. destruct (finish_quiet e (sv_registry s) (so_registry s Hok)) as [Hq Hle].
    assert (service_ok (sv_set_registry (rg_finish e (sv_registry s)) s)) as Hf by by apply ok_registry; [..|right].
    destruct r as [[]|[]]; try done; by apply (ok_note_error _ Hf).
Qed.

Definition service_next s s' : Prop := ∃ now, service_step now s s'.
Definition service_reachable s : Prop := rtc service_next service_init s.

Lemma service_reachable_ok s : service_reachable s → service_ok s.
Proof.
  unfold service_reachable. generalize service_init_ok. generalize service_init. intros s0 H0 Hr.
  induction Hr as [|x y z [now Hs] _ IH]; eauto using service_step_ok.
Qed.

(** The phases in the order of the header; only [start] leads back. *)
Definition next_phase (p p' : phase) : bool :=
  match p, p' with
  | idle, (idle | running | stopped) | running, (running | draining | cancelling)
  | draining, (draining | cancelling | stopped) | cancelling, (cancelling | stopped) | stopped, (stopped | running) => true
  | _, _ => false
  end.

Lemma next_phase_refl p : next_phase p p = true.
Proof. by destruct p. Qed.

Lemma phase_stop_request s : next_phase (sv_phase s) (sv_phase (stop_request s)) = true ∧
  (sv_phase (stop_request s) = sv_phase s ∨ sv_phase s = running ∧ sv_phase (stop_request s) = draining).
Proof. unfold stop_request. case_bool_decide as Hp; simpl; [rewrite Hp; auto|]. rewrite next_phase_refl. auto. Qed.

Lemma phase_entry_end s : next_phase (sv_phase s) (sv_phase (entry_end s)) = true.
Proof. unfold entry_end. case_bool_decide as Hp; simpl; [by rewrite Hp|by apply next_phase_refl]. Qed.

Lemma phase_entry_test s : next_phase (sv_phase s) (sv_phase (entry_test s)) = true.
Proof. unfold entry_test. case_bool_decide; [by apply next_phase_refl|by apply phase_entry_end]. Qed.

Lemma phase_cancel_turn now d s : sv_phase (cancel_turn now d s) = sv_phase s ∨ sv_phase (cancel_turn now d s) = stopped.
Proof. unfold cancel_turn. destruct (_ && _); auto. Qed.

Lemma phase_drain_turn now d s :
  sv_phase s = draining ∨ sv_phase s = cancelling → next_phase (sv_phase s) (sv_phase (drain_turn now d s)) = true.
Proof.
  intros Hp. unfold drain_turn. destruct (_ && _ && _); [by apply next_phase_refl|].
  destruct (negb (sv_empty s)); [|by destruct Hp as [-> | ->]].
  edestruct phase_cancel_turn as [-> | ->]; by destruct Hp as [-> | ->].
Qed.

Lemma phase_leaving s :
  service_ok s → supervisor_pending (sv_supervisor s) = true → sv_phase s ≠ running → sv_phase s = draining ∨ sv_phase s = cancelling.
Proof.
  intros Hok Hsu Hr. destruct (sv_phase s) eqn:Hp; auto; try done.
  - destruct (so_idle s Hok Hp) as (_ & He & _). by rewrite He in Hsu.
  - destruct (so_stopped s Hok Hp) as (He & _). congruence.
Qed.

Lemma phase_supervisor_turn now s : service_ok s → next_phase (sv_phase s) (sv_phase (supervisor_turn now s)) = true.
Proof.
  intros Hok. unfold supervisor_turn. pose proof (phase_leaving s Hok) as Hleave. pose proof (so_running s Hok) as Hrun.
  destruct (sv_supervisor s) as [| |d|d|] eqn:Hsu; try by apply next_phase_refl.
  - case_bool_decide; [by apply next_phase_refl|]. apply phase_drain_turn. by apply Hleave.
  - apply phase_drain_turn, Hleave; [done|]. intros Hp. destruct (Hrun Hp) as [? _]. congruence.
  - assert (sv_phase s = draining ∨ sv_phase s = cancelling) as Hp.
    { apply Hleave; [done|]. intros Hp. destruct (Hrun Hp) as [? _]. congruence. }
    destruct (phase_cancel_turn now d s) as [-> | ->]; by destruct Hp as [-> | ->].
Qed.

Lemma service_step_phase now s s' : service_ok s → service_step now s s' → next_phase (sv_phase s) (sv_phase s') = true.
Proof.
  intros Hok Hs. destruct Hs as [capacity g c s s' Hc|hh b th g c s|s|s|g c s|s Hsu|s He|w n s He|e owner s He Hn|s He|s He Hp|e r s Hl].
  - unfold set_config in Hc. destruct (_ || _); [done|]. injection Hc as <-. apply next_phase_refl.
  - unfold start. destruct (negb (bool_decide (sv_phase s = idle)) && _) eqn:Hp; [by apply next_phase_refl|].
    apply andb_false_iff in Hp. assert (sv_phase s = idle ∨ sv_phase s = stopped) as Hp' by (destruct Hp as [Hp|Hp]; bool_to_prop; auto).
    destruct (negb hh); [by apply next_phase_refl|]. destruct (_ || _); [by apply next_phase_refl|]. destruct (negb b); [by apply next_phase_refl|].
    destruct th as [[[] e]|]; simpl; by destruct Hp' as [-> | ->].
  - apply phase_stop_request.
  - unfold stop. destruct (phase_stop_request s) as [_ [Hp|[Hr Hp]]]; case_bool_decide as Hd; simpl; rewrite ?Hp in *; rewrite ?Hr, ?Hd; try done; by apply next_phase_refl.
  - unfold shutdown. destruct (_ || _); [by apply next_phase_refl|]. case_bool_decide as Hi; simpl; [by rewrite Hi|].
    apply (phase_stop_request (sv_set_graces g c s)).
  - by apply phase_supervisor_turn.
  - apply phase_entry_test.
  - unfold accept_failed. case_bool_decide; simpl; [|by apply phase_entry_end].
    destruct (transient_accept_error w n); [by apply next_phase_refl|]. apply (phase_entry_end (note_error s)).
  - unfold accept_conn. case_bool_decide as Hp; simpl; [|by apply phase_entry_end]. destruct (rg_spawn e owner (sv_registry s)) as [ok r].
    apply (phase_entry_test (sv_set_registry r (sv_count_handled s))).
  - case_bool_decide; [apply (phase_entry_end (note_error s))|apply phase_entry_end].
  - apply (phase_entry_test (sv_count_handled s)).
  - unfold handler_ends. destruct r as [[]|[]]; apply next_phase_refl.
Qed.

(** The life of a service, in every order of calls, arrivals, ends of handlers and turns of its
    coroutines: the phases follow each other as the header says, and only [start] leads back to
    running; while it runs its supervisor watches and its socket is open; when it has stopped the
    socket is closed, the supervisor is over, and the report is a bound on what is left: no task
    appears after it, and none is left if it says that all were drained. *)
Theorem service_lifecycle s now s' :
  service_reachable s → service_step now s s' →
  next_phase (sv_phase s) (sv_phase s') = true ∧
  (sv_phase s = running → sv_supervisor s = SuRunning ∧ sv_open s = true) ∧
  (sv_phase s = stopped →
     supervisor_pending (sv_supervisor s) = false ∧ sv_open s = false ∧
     (length (rg_entries (sv_registry s)) ≤ sr_unfinished (sv_report s))%nat ∧
     (sr_drained (sv_report s) = true → rg_entries (sv_registry s) = [])).
Proof.
  intros Hok%service_reachable_ok Hs. split; [by eapply service_step_phase|]. split.
  - intros Hr. by destruct (so_running s Hok Hr) as (? & _ & ?).
  - intros Hst. destruct (so_stopped s Hok Hst) as (Ha & Hb & Hc & Hd). rewrite (quiet_active _ (so_registry s Hok)) in Hc.
    split_and!; [done..|]. intros Hdr. rewrite Hd in Hc by done. by apply nil_length_inv; lia.
Qed.

(** ** When handlers are cancelled, and how long a shutdown takes *)

Lemma cancels_entry_end s : sv_cancels (entry_end s) = sv_cancels s.
Proof. unfold entry_end. by case_bool_decide. Qed.
Lemma cancels_entry_test s : sv_cancels (entry_test s) = sv_cancels s.
Proof. unfold entry_test. case_bool_decide; [done|apply cancels_entry_end]. Qed.
Lemma cancels_stop_request s : sv_cancels (stop_request s) = sv_cancels s.
Proof. unfold stop_request. by case_bool_decide. Qed.
Lemma cancels_cancel_turn now d s : sv_cancels (cancel_turn now d s) = sv_cancels s.
Proof. unfold cancel_turn. by destruct (_ && _). Qed.

(** The grace is over for the supervisor at the time [now], or somebody has called [stop]. *)
Definition grace_over now s : Prop :=
  sv_phase s = cancelling ∨
  match sv_supervisor s with SuRunning => sv_grace s ≤ 0 | SuDraining d => d ≤ now | _ => False end.

Lemma cancels_drain_turn now d s :
  sv_cancels (drain_turn now d s) ≠ sv_cancels s → sv_empty s = false ∧ (d ≤ now ∨ sv_phase s = cancelling).
Proof.
  unfold drain_turn. destruct (sv_empty s) eqn:He; simpl; [done|]. intros Hc. split; [done|].
  destruct (bool_decide (now < d)) eqn:Hd; bool_to_prop; [|left; lia].
  case_bool_decide as Hp; simpl in Hc; [by right|done].
Qed.

(** Handlers are asked to stop by [stop], or by the supervisor when the grace that it has been given
    is over while some of them still run; never by anything else. *)
Theorem service_cancels_late now s s' :
  service_step now s s' → sv_cancels s' ≠ sv_cancels s →
  s' = stop s ∨ s' = supervisor_turn now s ∧ sv_empty s = false ∧ grace_over now s.
Proof.
  intros Hs Hc. destruct Hs as [capacity g c s s' Hcf|hh b th g c s|s|s|g c s|s Hsu|s He|w n s He|e owner s He Hn|s He|s He Hp|e r s Hl]; try (by left).
  - exfalso. unfold set_config in Hcf. destruct (_ || _); [done|]. by injection Hcf as <-.
  - exfalso. apply Hc. unfold start. repeat (case_match; simpl; try done).
  - exfalso. apply Hc, cancels_stop_request.
  - exfalso. apply Hc. unfold shutdown. destruct (_ || _); [done|]. case_bool_decide; [done|]. apply (cancels_stop_request (sv_set_graces g c s)).
  - right. split; [done|]. unfold supervisor_turn, grace_over in *. destruct (sv_supervisor s) as [| |d|d|] eqn:Hv; try done.
    + case_bool_decide; [done|]. apply cancels_drain_turn in Hc as [? [?|?]]; split; auto. right. lia.
    + apply cancels_drain_turn in Hc as [? [?|?]]; auto.
    + by rewrite cancels_cancel_turn in Hc.
  - exfalso. apply Hc, cancels_entry_test.
  - exfalso. apply Hc. unfold accept_failed. case_bool_decide; simpl; [|apply cancels_entry_end]. destruct (transient_accept_error w n); [done|]. apply (cancels_entry_end (note_error s)).
  - exfalso. apply Hc. unfold accept_conn. case_bool_decide; simpl; [|apply cancels_entry_end]. destruct (rg_spawn _ _ _) as [ok r]. apply (cancels_entry_test (sv_set_registry r (sv_count_handled s))).
  - exfalso. apply Hc. case_bool_decide; [apply (cancels_entry_end (note_error s))|apply cancels_entry_end].
  - exfalso. apply Hc. apply (cancels_entry_test (sv_count_handled s)).
  - exfalso. apply Hc. unfold handler_ends. by destruct r as [[]|[]].
Qed.

(** Any steps but turns of the supervisor that take it further. *)
Definition between : relation service := rtc (λ s s', service_next s s' ∧ sv_supervisor s' = sv_supervisor s).

Lemma between_ok s s' : between s s' → service_ok s → service_ok s' ∧ sv_supervisor s' = sv_supervisor s.
Proof.
  induction 1 as [|x y z [[now Hs] He] _ IH]; intros Hok; [done|]. destruct IH as [Hz Hsz]; [by eapply service_step_ok|].
  split; [done|congruence].
Qed.

Lemma drain_turn_result now d s :
  match sv_supervisor (drain_turn now d s) with
  | SuDraining d' => d' = d ∧ now < d
  | SuCancelling d' => d' = now + sv_cancel_grace s
  | SuDone => True
  | _ => False
  end.
Proof.
  unfold drain_turn. destruct (_ && _ && _) eqn:Hc; simpl.
  - bool_to_prop. done.
  - destruct (negb (sv_empty s)); simpl; [|done]. unfold cancel_turn. destruct (negb _ && _); done.
Qed.

Lemma cancel_turn_result now d s :
  match sv_supervisor (cancel_turn now d s) with SuCancelling d' => d' = d ∧ now < d | SuDone => True | _ => False end.
Proof. unfold cancel_turn. destruct (_ && _) eqn:Hc; simpl; [bool_to_prop; done|done]. Qed.

(** Once a stop has been asked for, the supervisor needs the grace, the cancel grace and the turns
    that find them over; whatever handlers do, and whatever happens in between, it ends. *)
Theorem supervisor_ends s t1 s2 t2 s4 t3 :
  service_reachable s → sv_supervisor s = SuRunning → sv_phase s ≠ running →
  between (supervisor_turn t1 s) s2 → t1 + sv_grace s ≤ t2 →
  between (supervisor_turn t2 s2) s4 → t1 + sv_cancel_grace s ≤ t3 → t2 + sv_cancel_grace s2 ≤ t3 →
  sv_supervisor (supervisor_turn t3 s4) = SuDone.
Proof.
  intros Hok%service_reachable_ok Hsu Hr H12 Ht2 H34 Ht3 Ht3'.
  destruct (between_ok _ _ H12 (ok_supervisor_turn t1 s Hok)) as [Hok2 Hs2].
  destruct (between_ok _ _ H34 (ok_supervisor_turn t2 s2 Hok2)) as [Hok4 Hs4].
  assert (sv_supervisor (supervisor_turn t1 s) = sv_supervisor (drain_turn t1 (t1 + sv_grace s) s)) as Hs1.
  { unfold supervisor_turn. rewrite Hsu. by rewrite bool_decide_false. }
  pose proof (drain_turn_result t1 (t1 + sv_grace s) s) as H1. rewrite <- Hs1, <- Hs2 in H1.
  assert (match sv_supervisor s4 with SuCancelling d => d ≤ t3 | SuDone => True | _ => False end) as H4.
  { rewrite Hs4. unfold supervisor_turn. destruct (sv_supervisor s2) as [| |d|d|] eqn:Hv2; try done; [| |by rewrite Hv2].
    - destruct H1 as [-> _]. pose proof (drain_turn_result t2 (t1 + sv_grace s) s2) as Hd.
      destruct (sv_supervisor (drain_turn t2 _ s2)); try done; lia.
    - subst d. pose proof (cancel_turn_result t2 (t1 + sv_cancel_grace s) s2) as Hd.
      destruct (sv_supervisor (cancel_turn t2 _ s2)); try done; lia. }
  unfold supervisor_turn. destruct (sv_supervisor s4) as [| |d|d|] eqn:Hv4; try done.
  pose proof (cancel_turn_result t3 d s4) as Hd. destruct (sv_supervisor (cancel_turn t3 d s4)); try done; lia.
Qed.

(** ** Connections *)

(** A TCP server with the connections it accepted and those that are closed: in the loop, or with
    the task that held them. *)
Record tcp_server : Type := mkTcp {
  ts_service : service;
  ts_accepted : gset nat;
  ts_closed : gset nat;
}.

(** [e] is the connection and the task that is to have it. *)
Definition tcp_accept (e : nat) (owner : loop_id) (c : tcp_server) : tcp_server :=
  let '(ok, s) := accept_conn e owner (ts_service c) in
  mkTcp s ({[e]} ∪ ts_accepted c) (if ok then ts_closed c else {[e]} ∪ ts_closed c).

Definition tcp_handler_ends (e : nat) (r : res unit) (c : tcp_server) : tcp_server :=
  mkTcp (handler_ends e r (ts_service c)) (ts_accepted c) ({[e]} ∪ ts_closed c).

Definition same_tasks s s' : Prop :=
  rg_entries (sv_registry s') = rg_entries (sv_registry s) ∧ rg_info (sv_registry s') = rg_info (sv_registry s).

Inductive tcp_step : tcp_server → tcp_server → Prop :=
  | TcAccept e owner c :
      sv_entry (ts_service c) = EnAwait → e ∉ ts_accepted c → rg_info (sv_registry (ts_service c)) !! e = None →
      tcp_step c (tcp_accept e owner c)
  | TcHandlerEnds e r c : live_task e (ts_service c) → tcp_step c (tcp_handler_ends e r c)
  | TcOther now s' c :
      service_step now (ts_service c) s' → same_tasks (ts_service c) s' → tcp_step c (mkTcp s' (ts_accepted c) (ts_closed c)).

Record tcp_ok (c : tcp_server) : Prop := {
  tc_service : service_ok (ts_service c);
  tc_live : ∀ e, e ∈ rg_entries (sv_registry (ts_service c)) ↔ e ∈ ts_accepted c ∧ e ∉ ts_closed c;
  tc_closed : ts_closed c ⊆ ts_accepted c;
}.

Lemma registry_entry_end s : sv_registry (entry_end s) = sv_registry s.
Proof. unfold entry_end. by case_bool_decide. Qed.
Lemma registry_entry_test s : sv_registry (entry_test s) = sv_registry s.
Proof. unfold entry_test. case_bool_decide; [done|apply registry_entry_end]. Qed.

Lemma spawn_entries e owner st b st' :
  rg_spawn e owner st = (b, st') → rg_entries st' = if b then rg_entries st ++ [e] else rg_entries st.
Proof. unfold rg_spawn. destruct (_ && _); intros; by simplify_eq. Qed.

Lemma accept_entries e owner s :
  rg_entries (sv_registry (accept_conn e owner s).2) =
    if (accept_conn e owner s).1 then rg_entries (sv_registry s) ++ [e] else rg_entries (sv_registry s).
Proof.
  unfold accept_conn. case_bool_decide; cbn [negb fst snd]; [|by rewrite registry_entry_end].
  change (sv_registry (sv_count_handled s)) with (sv_registry s).
  destruct (rg_spawn e owner (sv_registry s)) as [ok r] eqn:Hs. cbn [fst snd]. rewrite registry_entry_test.
  by apply spawn_entries in Hs as <-.
Qed.

Lemma finish_entries e st :
  registry_quiet st → e ∈ rg_entries st → ∀ x, x ∈ rg_entries (rg_finish e st) ↔ x ∈ rg_entries st ∧ x ≠ e.
Proof.
  intros [Hnd Hl _] He x. simpl in *. apply Hl in He as ([ow fin] & Hi & Hf). simpl in Hf. subst fin.
  unfold rg_finish, rg_finish_erase. rewrite Hi. simpl. split.
  - intros Hx. split; [by eapply elem_of_erase_first|]. intros ->. by apply erase_first_not_elem in Hx.
  - intros [Hx Hne]. by apply elem_of_erase_first_ne.
Qed.

Lemma handler_ends_registry e r s : sv_registry (handler_ends e r s) = rg_finish e (sv_registry s).
Proof. unfold handler_ends. by destruct r as [[]|[]]. Qed.

Lemma tcp_step_ok c c' : tcp_step c c' → tcp_ok c → tcp_ok c'.
Proof.
  intros Hs [Hok Hl Hc]. destruct Hs as [e owner c He Hnew Hi|e r c Hlive|now s' c Hs [Hen _]].
  - pose proof (service_step_ok 0 _ _ (StAccept 0 e owner _ He Hi) Hok) as Hok'. pose proof (accept_entries e owner (ts_service c)) as Hent.
    unfold tcp_accept. destruct (accept_conn e owner (ts_service c)) as [ok s']. simpl in *. constructor; simpl; [done| |destruct ok; set_solver].
    intros x. rewrite Hent. destruct ok; rewrite ?elem_of_app, ?list_elem_of_singleton, Hl; set_solver.
  - pose proof (service_step_ok 0 _ _ (StHandlerEnds 0 e r _ Hlive) Hok) as Hok'.
    constructor; cbn [tcp_handler_ends ts_service ts_accepted ts_closed]; [done| |].
    + intros x. rewrite handler_ends_registry, finish_entries, Hl by (done || apply Hok). set_solver.
    + apply Hl in Hlive as [? _]. set_solver.
  - constructor; simpl; [by eapply service_step_ok|by rewrite Hen|done].
Qed.

(** Every connection that was accepted is held by one live task or is closed, never both, and a
    task lives for each: nothing leaks when the service is full, when it stops between the accept
    and the spawn, or when a handler fails. *)
Theorem tcp_connections c :
  rtc tcp_step (mkTcp service_init ∅ ∅) c →
  (∀ e, live_task e (ts_service c) ↔ e ∈ ts_accepted c ∧ e ∉ ts_closed c) ∧
  NoDup (rg_entries (sv_registry (ts_service c))) ∧
  size (ts_accepted c ∖ ts_closed c) = rg_active (sv_registry (ts_service c)).
Proof.
  intros Hr. assert (tcp_ok c) as [Hok Hl Hc].
  { assert (tcp_ok (mkTcp service_init ∅ ∅)) as H0 by (constructor; simpl; [apply service_init_ok|set_solver|done]). revert H0 Hr.
    generalize (mkTcp service_init ∅ ∅). intros c0 H0 Hr. induction Hr; eauto using tcp_step_ok. }
  pose proof (so_registry _ Hok) as Hq. pose proof Hq as [Hnd _ _]. simpl in Hnd. split_and!; [done|done|].
  rewrite quiet_active by done. rewrite <- (size_list_to_set (C := gset nat)) by done. f_equal. apply leibniz_equiv.
  intros e. rewrite elem_of_difference, elem_of_list_to_set. symmetry. apply Hl.
Qed.

(** ** Budgets *)

Definition budget_sum (m : gmap nat Z) : Z := map_fold (λ _ n acc, n + acc) 0 m.

Lemma budget_sum_insert m e n : m !! e = None → budget_sum (<[e := n]> m) = n + budget_sum m.
Proof. intros He. unfold budget_sum. apply map_fold_insert_L; [|done]. intros. lia. Qed.

Lemma budget_sum_delete m e : budget_sum (delete e m) = budget_sum m - default 0 (m !! e).
Proof.
  destruct (m !! e) as [n|] eqn:He; simpl.
  - rewrite <- (insert_delete_id m e n He) at 2. rewrite budget_sum_insert by apply lookup_delete_eq. lia.
  - rewrite delete_id by done. lia.
Qed.

Inductive udp_step (limit : Z) : udp_server → udp_server → Prop :=
  | UdReceive e owner size n u :
      sv_entry (us_service u) = EnAwait → rg_info (sv_registry (us_service u)) !! e = None →
      udp_step limit u (recv_result e owner size limit n u)
  | UdHandlerEnds e r u : live_task e (us_service u) → udp_step limit u (datagram_ends e r u)
  | UdOther now s' u :
      service_step now (us_service u) s' → same_tasks (us_service u) s' → udp_step limit u (us_set_service s' u).

Record udp_ok (limit : Z) u : Prop := {
  ud_service : service_ok (us_service u);
  ud_live : ∀ e, e ∈ rg_entries (sv_registry (us_service u)) ↔ is_Some (us_budgets u !! e);
  ud_sum : us_pending_bytes u = budget_sum (us_budgets u);
  ud_sign : map_Forall (λ _ n, 0 ≤ n) (us_budgets u);
  ud_bound : us_pending_bytes u ≤ if decide (limit = 0) then size_max else limit;
}.

Lemma reserve_spec need limit current p :
  reserve_bytes need limit current = Some p → p = current + need ∧ p ≤ if decide (limit = 0) then size_max else limit.
Proof.
  unfold reserve_bytes. intros Hr. destruct (decide (limit = 0)) as [H0|H0];
    [rewrite (bool_decide_true (limit = 0)) in Hr by done|rewrite (bool_decide_false (limit = 0)) in Hr by done];
    case_match eqn:Hc; simplify_eq; apply orb_false_iff in Hc as [Hc1 Hc2]; bool_to_prop; lia.
Qed.

Lemma budget_sum_nonneg m : map_Forall (λ _ n, 0 ≤ n) m → 0 ≤ budget_sum m.
Proof.
  induction m as [|e n m He IH] using map_ind; intros Hm; [done|]. rewrite budget_sum_insert by done.
  apply map_Forall_insert in Hm as [Hn Hm]; [|done]. specialize (IH Hm). lia.
Qed.

(** The limit that counts. *)
Definition byte_limit (limit : Z) : Z := if decide (limit = 0) then size_max else limit.

(** The limit of a step may be lower than the one that is kept: it is configured while the server runs. *)
Lemma udp_step_ok limit' limit u u' : byte_limit limit' ≤ byte_limit limit → udp_step limit' u u' → udp_ok limit u → udp_ok limit u'.
Proof.
  unfold byte_limit. intros Hlim Hs [Hok Hl Hsum Hsign Hb]. destruct Hs as [e owner size n u He Hi|e r u Hlive|now s' u Hs [Hen _]].
  - unfold recv_result. assert (entry_pending (sv_entry (us_service u)) = true) as Hep by by rewrite He.
    destruct (decide (n < 0)) as [Hn|Hn].
    { constructor; try done; cbn [us_set_service us_service us_budgets us_pending_bytes].
      - apply (service_step_ok 0 _ _ (StReceiveFailed 0 _ He) Hok).
      - rewrite registry_entry_end. by case_bool_decide. }
    destruct (bool_decide (sv_phase (us_service u) = running)) eqn:Hp; cbn [negb]; bool_to_prop; [|constructor; try done; cbn [us_set_service us_service us_budgets us_pending_bytes]; [by apply ok_entry_end|by rewrite registry_entry_end]].
    cbv zeta. cbn [us_pending_bytes us_budgets us_bytes_dropped us_truncated].
    destruct (reserve_bytes n limit' (us_pending_bytes u)) as [p|] eqn:Hres.
    2:{ constructor; try done; cbn [us_set_service us_service us_budgets us_pending_bytes].
        - apply (service_step_ok 0 _ _ (StDropped 0 _ He Hp) Hok).
        - by rewrite registry_entry_test. }
    apply reserve_spec in Hres as [-> Hpb].
    pose proof (service_step_ok 0 _ _ (StAccept 0 e owner _ He Hi) Hok) as Hok'. pose proof (accept_entries e owner (us_service u)) as Hent.
    unfold accept_conn in Hok', Hent. rewrite bool_decide_true in Hok', Hent by done. cbn [negb] in Hok', Hent.
    destruct (rg_spawn e owner (sv_registry (sv_count_handled (us_service u)))) as [ok r] eqn:Hsp. cbn [fst snd] in Hok', Hent.
    assert (us_budgets u !! e = None) as Hne.
    { destruct (us_budgets u !! e) eqn:Hx; [|done]. assert (is_Some (us_budgets u !! e)) as Hin%Hl by eauto.
      destruct (so_registry _ Hok) as [_ Hlv _]. apply Hlv in Hin as (x & Hx' & _). simpl in Hx'. congruence. }
    destruct ok; constructor; cbn [us_service us_pending_bytes us_budgets]; try done.
    + intros x. rewrite Hent, elem_of_app, list_elem_of_singleton, Hl, lookup_insert_is_Some'. naive_solver.
    + rewrite budget_sum_insert by done. lia.
    + apply map_Forall_insert_2; [lia|done].
    + lia.
    + intros x. by rewrite Hent.
    + lia.
    + lia.
  - pose proof (service_step_ok 0 _ _ (StHandlerEnds 0 e r _ Hlive) Hok) as Hok'.
    constructor; cbn [datagram_ends us_service us_pending_bytes us_budgets]; [done| | | |].
    + intros x. rewrite handler_ends_registry, finish_entries, Hl by (done || apply Hok). rewrite lookup_delete_is_Some. naive_solver.
    + rewrite budget_sum_delete. lia.
    + by apply map_Forall_delete.
    + destruct (us_budgets u !! e) as [n|] eqn:Hx; simpl; [|lia]. specialize (Hsign e n Hx). simpl in Hsign. lia.
  - constructor; cbn [us_set_service us_service us_budgets us_pending_bytes]; try done; [by eapply service_step_ok|by rewrite Hen].
Qed.

(** The bytes that handlers hold are counted exactly: a datagram's budget is taken before its task
    exists and given back when the task ends or is refused.  The counter stays within the limit, or
    within [size_t] without one, and is 0 again when no handler is left. *)
Theorem udp_budget limit u :
  0 ≤ limit → rtc (udp_step limit) (mkUdp service_init 0 ∅ 0 0) u →
  us_pending_bytes u = budget_sum (us_budgets u) ∧ 0 ≤ us_pending_bytes u ∧
  us_pending_bytes u ≤ (if decide (limit = 0) then size_max else limit) ∧
  (∀ e, live_task e (us_service u) ↔ is_Some (us_budgets u !! e)) ∧
  (sv_empty (us_service u) = true → us_pending_bytes u = 0).
Proof.
  intros Hlim Hr. assert (udp_ok limit u) as [Hok Hl Hsum Hsign Hb].
  { assert (udp_ok limit (mkUdp service_init 0 ∅ 0 0)) as H0.
    { constructor; simpl; [apply service_init_ok| |done|done|].
      - intros e. split; [set_solver|]. rewrite lookup_empty. by intros [].
      - case_decide; [vm_compute; discriminate|lia]. }
    revert H0 Hr. generalize (mkUdp service_init 0 ∅ 0 0). intros u0 H0 Hr. induction Hr as [|u1 u2 u3 Hs _ IH]; [done|].
    apply IH. by apply (udp_step_ok limit limit u1). }
  split_and!; [done|rewrite Hsum; by apply budget_sum_nonneg|done|done|].
  intros He. pose proof (quiet_active _ (so_registry _ Hok)) as Ha. rewrite (quiet_empty _ (so_registry _ Hok) He) in Ha.
  rewrite Hsum. assert (us_budgets u = ∅) as ->; [|done]. apply map_empty. intros e.
  destruct (us_budgets u !! e) eqn:Hx; [|done]. assert (is_Some (us_budgets u !! e)) as Hin%Hl by eauto.
  symmetry in Ha. apply nil_length_inv in Ha. rewrite Ha in Hin. by apply elem_of_nil in Hin.
Qed.

(** ** Two callers *)

(** A caller of [shutdown] looks at the phase every few milliseconds.  When somebody else starts the
    service again before it looks, it has missed the stop it was waiting for, and the report that it
    will get is that of the next one. *)
Lemma shutdown_misses_stop s g c :
  sv_phase s = stopped → sv_empty s = true → entry_pending (sv_entry s) = false → supervisor_pending (sv_supervisor s) = false →
  shutdown_turn ShWait s = ShDone (sv_report s) ∧
  let s' := (start true true None g c s).2 in sv_phase s' = running ∧ shutdown_turn ShWait s' = ShWait.
Proof.
  intros Hp He Hen Hsu. unfold shutdown_turn, shutdown_join, start. rewrite Hp, He, Hen, Hsu. done.
Qed.

(** The grace of [shutdown] is not the one that the supervisor uses when a stop has been asked for
    before: it has its deadline already. *)
Lemma shutdown_keeps_deadline s d g c now :
  sv_supervisor s = SuDraining d → sv_phase s = draining → 0 ≤ g → 0 ≤ c → sv_empty s = false → d ≤ now →
  let s' := (shutdown g c s).2 in
  sv_grace s' = g ∧ sv_phase (supervisor_turn now s') ≠ draining ∧ sv_cancels (supervisor_turn now s') ≠ sv_cancels s'.
Proof.
  intros Hsu Hp Hg Hc He Hd s'. assert (s' = sv_set_graces g c s) as ->.
  { unfold s', shutdown. rewrite !bool_decide_false by (lia || by rewrite Hp). cbn [orb snd]. unfold stop_request.
    rewrite bool_decide_false; [done|]. simpl. by rewrite Hp. }
  split; [done|]. unfold supervisor_turn. change (sv_supervisor (sv_set_graces g c s)) with (sv_supervisor s). rewrite Hsu. unfold drain_turn.
  change (sv_empty (sv_set_graces g c s)) with (sv_empty s). rewrite He, (bool_decide_false (now < d)) by lia. cbn [negb andb].
  split.
  - match goal with |- sv_phase (cancel_turn ?a ?b ?x) ≠ _ => destruct (phase_cancel_turn a b x) as [-> | ->] end; done.
  - rewrite cancels_cancel_turn. simpl. intros Heq. apply (f_equal length) in Heq. rewrite length_app in Heq. simpl in Heq. lia.
Qed.

(** ** Witnesses *)

Definition demo_started : service := (start true true None 1000 500 service_init).2.
Definition demo_serving : service := (accept_conn 7 1 (entry_test demo_started)).2.
Definition demo_stopping : service := stop_request demo_serving.

Lemma demo_reach1 : service_reachable demo_started.
Proof. eapply rtc_l; [exists 0; apply (StStart 0 true true None 1000 500)|]. constructor. Qed.

Lemma demo_reach2 : service_reachable demo_serving.
Proof.
  eapply rtc_r; [eapply rtc_r; [apply demo_reach1|]|].
  - exists 0. apply StEntryTest. by left.
  - exists 0. by apply (StAccept 0 7 1).
Qed.

Lemma demo_reach3 : service_reachable demo_stopping.
Proof. eapply rtc_r; [apply demo_reach2|]. exists 0. apply StStopRequest. Qed.

Lemma service_lifecycle_witness :
  next_phase (sv_phase demo_serving) (sv_phase demo_stopping) = true ∧ sv_phase demo_serving = running ∧ sv_phase demo_stopping = draining.
Proof.
  destruct (service_lifecycle demo_serving 0 demo_stopping demo_reach2 (StStopRequest 0 demo_serving)) as [Hn _].
  split; [exact Hn|done].
Defined.

Lemma service_cancels_late_witness :
  stop demo_serving = stop demo_serving ∨
    stop demo_serving = supervisor_turn 0 demo_serving ∧ sv_empty demo_serving = false ∧ grace_over 0 demo_serving.
Proof. apply (service_cancels_late 0 demo_serving (stop demo_serving)); [apply StStop|by vm_compute]. Defined.

(** The handler never ends. *)
Lemma supervisor_ends_witness :
  sv_supervisor (supervisor_turn 1505 (supervisor_turn 1005 (supervisor_turn 5 demo_stopping))) = SuDone.
Proof.
  apply (supervisor_ends demo_stopping 5 (supervisor_turn 5 demo_stopping) 1005 (supervisor_turn 1005 (supervisor_turn 5 demo_stopping)) 1505).
  - apply demo_reach3.
  - done.
  - done.
  - constructor.
  - vm_compute; discriminate.
  - constructor.
  - vm_compute; discriminate.
  - vm_compute; discriminate.
Defined.

Definition demo_tcp : tcp_server := tcp_accept 7 1 (mkTcp (entry_test demo_started) ∅ ∅).

Lemma tcp_connections_witness : live_task 7 (ts_service demo_tcp) ∧ size (ts_accepted demo_tcp ∖ ts_closed demo_tcp) = 1%nat.
Proof.
  destruct (tcp_connections demo_tcp) as (Hl & _ & Hs).
  { eapply rtc_l; [apply (TcOther 0 demo_started); [apply (StStart 0 true true None 1000 500)|done]|].
    eapply rtc_l; [apply (TcOther 0 (entry_test demo_started)); [apply StEntryTest; by left|done]|].
    eapply rtc_l; [by apply (TcAccept 7 1)|]. constructor. }
  split; [apply Hl; by vm_compute|by rewrite Hs].
Defined.

Lemma udp_budget_witness :
  ∃ u, us_pending_bytes u = 60 ∧ us_bytes_dropped u = 1%nat ∧ us_pending_bytes u = budget_sum (us_budgets u).
Proof.
  set (u1 := recv_result 7 1 65535 100 60 (us_set_service (entry_test demo_started) (mkUdp service_init 0 ∅ 0 0))).
  set (u2 := recv_result 8 1 65535 100 60 u1).
  destruct (udp_budget 100 u2) as [Hs _]; [lia| |by exists u2].
  eapply rtc_l; [apply (UdOther 100 0 demo_started); [apply (StStart 0 true true None 1000 500)|done]|].
  eapply rtc_l; [apply (UdOther 100 0 (entry_test demo_started)); [apply StEntryTest; by left|done]|].
  eapply rtc_l; [by apply (UdReceive 100 7 1 65535 60)|]. eapply rtc_l; [by apply (UdReceive 100 8 1 65535 60)|]. constructor.
Defined.
