(* ===== verification/UringM.v ===== *)
(** * UringM: the event source of io_uring

    [UringEventSource] of [src/include/coro/uring_event_source.hpp], and the helpers of
    [src/include/coro/io.hpp] that every operation goes through: [uring_submit],
    [submit_uring_cancel] and [current_uring].  The submission queue is the structure of the
    vendored liburing ([src/thirdparty/liburing]), whose fields the code writes itself.

    The kernel is a relation: it answers each [io_uring_enter] with the number of entries it took
    or an error, and completes what it took in any order. *)

From S2P Require Import Prelude.
From stdpp Require Import options.

Local Open Scope Z_scope.

(** ** The submission queue *)

(** The address of a [uring_op]; 0 is [nullptr]. *)
Abbreviation op_ptr := nat.

Inductive io_opcode : Type := OpRecv | OpSend | OpConnect | OpAccept | OpRecvmsg | OpSendmsg | OpRead | OpWrite | OpPollAdd | OpOpenat | OpFsync.

(** What an entry asks for. *)
Inductive request : Type :=
  | ReqNop
  | ReqPollWake
  | ReqCancel (target : op_ptr)
  | ReqIo (opcode : io_opcode) (fd len : Z).

Record sqe : Type := mkSqe { sqe_req : request; sqe_data : op_ptr }.

(** [io_uring_sq]; [array] is the identity (setup.c), all counters are [unsigned]. *)
Record uring_sq : Type := mkSq {
  sq_khead : Z;
  sq_ktail : Z;
  sq_sqe_head : Z;
  sq_sqe_tail : Z;
  sq_entries : Z;
  sq_sqes : list sqe;
}.

Definition nop_sqe : sqe := mkSqe ReqNop 0.
Definition u32 (x : Z) : Z := x `mod` u32_modulus.
Definition sq_slot (sq : uring_sq) (pos : Z) : nat := Z.to_nat (Z.land pos (sq_entries sq - 1)).
Definition sq_get (sq : uring_sq) (slot : nat) : sqe := default nop_sqe (sq_sqes sq !! slot).
Definition sq_put (slot : nat) (e : sqe) (sq : uring_sq) : uring_sq :=
  mkSq (sq_khead sq) (sq_ktail sq) (sq_sqe_head sq) (sq_sqe_tail sq) (sq_entries sq) (<[slot := e]> (sq_sqes sq)).
Definition sq_set_tails (ktail sqe_head sqe_tail : Z) (sq : uring_sq) : uring_sq :=
  mkSq (sq_khead sq) ktail sqe_head sqe_tail (sq_entries sq) (sq_sqes sq).
Definition sq_consume (n : nat) (sq : uring_sq) : uring_sq :=
  mkSq (u32 (sq_khead sq + Z.of_nat n)) (sq_ktail sq) (sq_sqe_head sq) (sq_sqe_tail sq) (sq_entries sq) (sq_sqes sq).

(** The number of entries published and not taken. *)
Definition sq_count (sq : uring_sq) : nat := Z.to_nat (u32 (sq_ktail sq - sq_khead sq)).
(** These entries. *)
Definition published (sq : uring_sq) : list sqe :=
  (λ i, sq_get sq (sq_slot sq (u32 (sq_khead sq + Z.of_nat i)))) <$> seq 0 (sq_count sq).

(** [_io_uring_get_sqe]; the functions that prepare an entry leave its [user_data]. *)
Definition io_uring_get_sqe (sq : uring_sq) : option (nat * uring_sq) :=
  let next := u32_succ (sq_sqe_tail sq) in
  if u32 (next - sq_khead sq) <=? sq_entries sq
  then Some (sq_slot sq (sq_sqe_tail sq), sq_set_tails (sq_ktail sq) (sq_sqe_head sq) next sq)
  else None.
Definition sqe_prep (slot : nat) (r : request) (sq : uring_sq) : uring_sq :=
  sq_put slot (mkSqe r (sqe_data (sq_get sq slot))) sq.
Definition sqe_set_data (slot : nat) (p : op_ptr) (sq : uring_sq) : uring_sq :=
  sq_put slot (mkSqe (sqe_req (sq_get sq slot)) p) sq.

(** [__io_uring_flush_sq]. *)
Definition flush_sq (sq : uring_sq) : uring_sq :=
  if decide (sq_sqe_head sq = sq_sqe_tail sq) then sq
  else sq_set_tails (sq_sqe_tail sq) (sq_sqe_tail sq) (sq_sqe_tail sq) sq.

(** The kernel's answer to [io_uring_enter]. *)
Inductive enter_answer : Type := TakesAll | Takes (n : nat) | EnterFails (errno : Z).

Definition taken (a : enter_answer) (n : nat) : nat :=
  match a with TakesAll => n | Takes k => k `min` n | EnterFails _ => 0 end.

(** [io_uring_submit]: its result, the entries taken and the queue. *)
Definition io_uring_submit (a : enter_answer) (sq : uring_sq) : Z * list sqe * uring_sq :=
  let sq := flush_sq sq in
  let n := taken a (sq_count sq) in
  (match a with EnterFails e => - e | _ => Z.of_nat n end, take n (published sq), sq_consume n sq).

(** ** The source *)

(** [detail::uring_op], with the member [uring_] of the awaiter around it. *)
Record uring_op : Type := mkOp {
  uo_continuation : handle;
  uo_result : Z;
  uo_error : Z;
  uo_fd : Z;
  uo_uring : bool;
}.

(** The members; what the kernel holds, the completion queue, the objects that exist, the counter
    of the eventfd, and the handles given to the loop. *)
Record uring : Type := mkUring {
  ur_sq : uring_sq;
  ur_kernel : list sqe;
  ur_cq : list (op_ptr * Z);
  ur_wake_fd : bool;
  ur_eventfd : Z;
  ur_pending : Z;
  ur_tracked : gset op_ptr;
  ur_ops : gmap op_ptr uring_op;
  ur_scheduled : list handle;
}.
Implicit Types (u : uring) (p : op_ptr) (a : enter_answer).

Definition ur_set_sq sq u : uring :=
  mkUring sq (ur_kernel u) (ur_cq u) (ur_wake_fd u) (ur_eventfd u) (ur_pending u) (ur_tracked u) (ur_ops u) (ur_scheduled u).
Definition ur_take (es : list sqe) u : uring :=
  mkUring (ur_sq u) (ur_kernel u ++ es) (ur_cq u) (ur_wake_fd u) (ur_eventfd u) (ur_pending u) (ur_tracked u) (ur_ops u) (ur_scheduled u).
Definition ur_set_cq cq u : uring :=
  mkUring (ur_sq u) (ur_kernel u) cq (ur_wake_fd u) (ur_eventfd u) (ur_pending u) (ur_tracked u) (ur_ops u) (ur_scheduled u).
Definition ur_set_eventfd n u : uring :=
  mkUring (ur_sq u) (ur_kernel u) (ur_cq u) (ur_wake_fd u) n (ur_pending u) (ur_tracked u) (ur_ops u) (ur_scheduled u).
Definition ur_set_pending n u : uring :=
  mkUring (ur_sq u) (ur_kernel u) (ur_cq u) (ur_wake_fd u) (ur_eventfd u) n (ur_tracked u) (ur_ops u) (ur_scheduled u).
Definition ur_set_tracked t u : uring :=
  mkUring (ur_sq u) (ur_kernel u) (ur_cq u) (ur_wake_fd u) (ur_eventfd u) (ur_pending u) t (ur_ops u) (ur_scheduled u).
Definition ur_set_ops m u : uring :=
  mkUring (ur_sq u) (ur_kernel u) (ur_cq u) (ur_wake_fd u) (ur_eventfd u) (ur_pending u) (ur_tracked u) m (ur_scheduled u).
Definition ur_schedule h u : uring :=
  mkUring (ur_sq u) (ur_kernel u) (ur_cq u) (ur_wake_fd u) (ur_eventfd u) (ur_pending u) (ur_tracked u) (ur_ops u) (ur_scheduled u ++ [h]).

Definition ring_submit a u : Z * uring :=
  let '(ret, es, sq) := io_uring_submit a (ur_sq u) in (ret, ur_take es (ur_set_sq sq u)).

Definition op_start u : uring := ur_set_pending (ur_pending u + 1) u.
Definition has_pending u : bool := 0 <? ur_pending u.
Definition track_op p u : uring := ur_set_tracked ({[p]} ∪ ur_tracked u) u.
Definition untrack_op p u : uring := ur_set_tracked (ur_tracked u ∖ {[p]}) u.
Definition wake u : uring := if ur_wake_fd u then ur_set_eventfd (ur_eventfd u + 1) u else u.

(** [discard_pending]: the loop that looks for the entry, and the function. *)
Fixpoint discard_find (fuel : nat) (pos : Z) (slot : nat) (sq : uring_sq) : option Z :=
  match fuel with
  | O => None
  | S fuel =>
      if decide (pos = sq_ktail sq) then None
      else if decide (sq_slot sq pos = slot) then Some pos
      else discard_find fuel (u32_succ pos) slot sq
  end.
Definition discard_pending (slot : nat) (sq : uring_sq) : bool * uring_sq :=
  match discard_find (sq_count sq) (sq_khead sq) slot sq with
  | None => (false, sq)
  | Some pos =>
      let sq := sq_put slot nop_sqe sq in
      (true, if decide (u32_succ pos = sq_ktail sq ∧ sq_sqe_head sq = sq_sqe_tail sq)
             then sq_set_tails (u32 (sq_ktail sq - 1)) (u32 (sq_sqe_head sq - 1)) (u32 (sq_sqe_tail sq - 1)) sq
             else sq)
  end.

(** [discard_all_published]. *)
Fixpoint discard_slots (fuel : nat) (pos : Z) (sq : uring_sq) : uring_sq :=
  match fuel with
  | O => sq
  | S fuel => if decide (pos = sq_ktail sq) then sq else discard_slots fuel (u32_succ pos) (sq_put (sq_slot sq pos) nop_sqe sq)
  end.
Definition discard_all_published (sq : uring_sq) : uring_sq :=
  let sq := discard_slots (sq_count sq) (sq_khead sq) sq in
  if decide (sq_khead sq = sq_ktail sq) then sq else sq_set_tails (sq_khead sq) (sq_khead sq) (sq_khead sq) sq.

(** ** [io.hpp] *)

Definition EAGAIN : Z := 11.
Definition ENOBUFS : Z := 105.
Definition ENOTSUP : Z := 95.

Definition op_set_result (result error : Z) (o : uring_op) : uring_op :=
  mkOp (uo_continuation o) result error (uo_fd o) (uo_uring o).
(** An operation ends here: it gets its result, and its coroutine is queued. *)
Definition op_fails (result error : Z) p u : uring :=
  match ur_ops u !! p with
  | Some o => ur_schedule (uo_continuation o) (ur_set_ops (<[p := op_set_result result error o]> (ur_ops u)) u)
  | None => u
  end.

(** [uring_submit]. *)
Definition uring_submit a (slot : nat) p u : uring :=
  let u := ur_set_sq (sqe_set_data slot p (ur_sq u)) u in
  let '(ret, u) := ring_submit a u in
  if ret <? 0 then op_fails ret (- ret) p (ur_set_sq (discard_all_published (ur_sq u)) u)
  else
    let '(found, sq) := discard_pending slot (ur_sq u) in
    let u := ur_set_sq sq u in
    if found then op_fails (- EAGAIN) EAGAIN p u else op_start u.

(** [submit_uring_cancel], but for the error it notes. *)
Definition submit_uring_cancel a p u : uring :=
  match io_uring_get_sqe (ur_sq u) with
  | None => u
  | Some (slot, sq) => (ring_submit a (ur_set_sq (sqe_prep slot (ReqCancel p) sq) u)).2
  end.

(** What every [await_suspend] does when there is a source: [both] is whether the code sets
    [error] next to [result] when it gets no entry. *)
Definition uring_await_suspend (both : bool) (opcode : io_opcode) (fd len : Z) a (h : handle) p u : uring :=
  let u := ur_set_ops (alter (λ o, mkOp h (uo_result o) (uo_error o) (uo_fd o) (uo_uring o)) p (ur_ops u)) u in
  match io_uring_get_sqe (ur_sq u) with
  | None => op_fails (- ENOBUFS) (if both then ENOBUFS else default 0 (uo_error <$> ur_ops u !! p)) p u
  | Some (slot, sq) =>
      let u := ur_set_sq (sqe_prep slot (ReqIo opcode fd len) sq) u in
      let u := ur_set_ops (alter (λ o, mkOp (uo_continuation o) (uo_result o) (uo_error o) fd (uo_uring o)) p (ur_ops u)) u in
      let u := uring_submit a slot p u in
      track_op p (ur_set_ops (alter (λ o, mkOp (uo_continuation o) (uo_result o) (uo_error o) (uo_fd o) true) p (ur_ops u)) u)
  end.

(** [cancel_fd_ops]: the loop over the targets, and the function. *)
Fixpoint cancel_targets (ps : list op_ptr) (sq : uring_sq) : bool * uring_sq :=
  match ps with
  | [] => (false, sq)
  | p :: ps =>
      match io_uring_get_sqe sq with
      | None => (false, sq)
      | Some (slot, sq) => (true, (cancel_targets ps (sqe_set_data slot 0 (sqe_prep slot (ReqCancel p) sq))).2)
      end
  end.
Definition fd_targets (fd : Z) u : list op_ptr :=
  filter (λ p, (uo_fd <$> ur_ops u !! p) = Some fd) (elements (ur_tracked u)).
Definition cancel_fd_ops a (fd : Z) u : uring :=
  if fd <? 0 then u
  else
    let '(any, sq) := cancel_targets (fd_targets fd u) (ur_sq u) in
    let u := ur_set_sq sq u in
    if any then (ring_submit a u).2 else u.

(** The memo of a thread: a source, the epoch it was seen with, and the source as an
    [UringEventSource].  [uring_source] is what [dynamic_cast] finds at an address. *)
Record uring_memo : Type := mkMemo { mm_src : loc; mm_epoch : Z; mm_typed : option loc }.
Definition memo_init : uring_memo := mkMemo 0 0 None.
Definition current_uring (uring_source : loc → bool) (src : loc) (epoch : Z) (m : uring_memo) : option loc * uring_memo :=
  let m :=
    if decide (mm_src m = src ∧ mm_epoch m = epoch) then m
    else mkMemo src epoch (if uring_source src then Some src else None) in
  (mm_typed m, m).

(** ** Completions *)

Definition submit_wake_poll a u : uring :=
  match io_uring_get_sqe (ur_sq u) with
  | None => u
  | Some (slot, sq) => (ring_submit a (ur_set_sq (sqe_set_data slot 0 (sqe_prep slot ReqPollWake sq)) u)).2
  end.

(** [process_cqe]; [None] is a write to an object that is gone. *)
Definition process_cqe a (c : op_ptr * Z) u : option uring :=
  let '(p, res) := c in
  if decide (p = 0%nat) then
    Some (if ur_wake_fd u && (0 <? res) then submit_wake_poll a (ur_set_eventfd 0 u) else u)
  else
    let u := ur_set_pending (ur_pending u - 1) u in
    if decide (p ∈ ur_tracked u) then
      o ← ur_ops u !! p;
      let u := ur_set_ops (<[p := op_set_result res (if res <? 0 then - res else 0) o]> (ur_ops u)) u in
      Some (if decide (uo_continuation o = null_handle) then u else ur_schedule (uo_continuation o) u)
    else Some u.

(** The constructor, when the ring and the eventfd could be had ([wake_fd]) or only the ring. *)
Definition uring_init (entries : nat) (wake_fd : bool) a : uring :=
  let u := mkUring (mkSq 0 0 0 0 (Z.of_nat entries) (replicate entries nop_sqe)) [] [] wake_fd 0 0 ∅ ∅ [] in
  if wake_fd then submit_wake_poll a u else u.

(** The loops of [wait_for] that take what is in the completion queue, sixteen at a time; [answers]
    are those of the submissions in [process_cqe].  The result counts the entries. *)
Fixpoint process_batch (batch : list (op_ptr * Z)) (answers : nat → enter_answer) (done : nat) u : option (nat * uring) :=
  match batch with
  | [] => Some (done, u)
  | c :: batch =>
      u ← process_cqe (answers done) c u;
      process_batch batch answers (S done) (ur_set_cq (tail (ur_cq u)) u)
  end.
Fixpoint drain_cq (fuel : nat) (answers : nat → enter_answer) (done : nat) u : option (nat * uring) :=
  match fuel with
  | O => None
  | S fuel =>
      match take 16 (ur_cq u) with
      | [] => Some (done, u)
      | batch => '(done, u) ← process_batch batch answers done u; drain_cq fuel answers done u
      end
  end.

(** The kernel completes the request at [i] of what it holds. *)
Definition kernel_completes (i : nat) (res : Z) u : uring :=
  match ur_kernel u !! i with
  | Some e =>
      mkUring (ur_sq u) (delete i (ur_kernel u)) (ur_cq u ++ [(sqe_data e, res)]) (ur_wake_fd u) (ur_eventfd u)
        (ur_pending u) (ur_tracked u) (ur_ops u) (ur_scheduled u)
  | None => u
  end.

(** [wait_for]: [blocked] is what the kernel completes while the call blocks. *)
Definition wait_for (fuel : nat) (answers : nat → enter_answer) (blocked : list (nat * Z)) u : option (Z * uring) :=
  '(completed, u) ← drain_cq fuel answers 0 u;
  if decide (completed = 0%nat) then
    let u := foldl (λ u c, kernel_completes c.1 c.2 u) u blocked in
    match ur_cq u with
    | [] => Some (0, u)
    | c :: _ =>
        '(n, u) ← process_batch [c] answers 0 u;
        '(_, u) ← drain_cq fuel answers n u;
        Some (1, u)
    end
  else Some (1, u).

(** ** Steps: the loop thread, the coroutines on it and the kernel *)

(** The data of the requests that are under way, and of the completions not yet seen. *)
Definition in_flight u : list op_ptr := filter (λ p, p ≠ 0%nat) ((sqe_data <$> ur_kernel u) ++ (ur_cq u).*1).

(** What the kernel may answer to a request. *)
Definition kernel_answer (r : request) (eventfd res : Z) : Prop :=
  match r with
  | ReqPollWake => 0 < res ∧ 0 < eventfd
  | ReqIo _ _ _ => True
  | ReqNop | ReqCancel _ => res ≤ 0
  end.

(** The entry that the next request gets holds no data of an earlier one. *)
Definition clean_entry u : Prop :=
  ∀ slot sq, io_uring_get_sqe (ur_sq u) = Some (slot, sq) → sqe_data (sq_get sq slot) = 0%nat.

(** The source with the operations whose coroutines wait. *)
Record uring_sys : Type := mkSys { sy_u : uring; sy_wait : gset op_ptr }.

(** The conditions under which a theorem is stated: addresses are not used again while a request
    with them is under way, the entries for cancel requests are clean, every submission succeeds. *)
Record conditions : Type := mkConditions { cd_fresh : bool; cd_clean : bool; cd_full : bool }.

Inductive uring_step (cd : conditions) : uring_sys → uring_sys → Prop :=
  | StNew u w p :
      p ≠ 0%nat → p ∉ dom (ur_ops u) → (cd_fresh cd = true → p ∉ in_flight u) →
      uring_step cd (mkSys u w) (mkSys (ur_set_ops (<[p := mkOp null_handle 0 0 (-1) false]> (ur_ops u)) u) w)
  | StSuspend u w both opcode fd len a h p o :
      ur_ops u !! p = Some o → uo_continuation o = null_handle → uo_uring o = false →
      h ≠ null_handle → h ∉ ur_scheduled u → (∀ q o', ur_ops u !! q = Some o' → uo_continuation o' ≠ h) →
      (cd_full cd = true → a = TakesAll) →
      uring_step cd (mkSys u w) (mkSys (uring_await_suspend both opcode fd len a h p u) ({[p]} ∪ w))
  | StCancel u w a p :
      p ∈ w → (cd_clean cd = true → clean_entry u) → (cd_full cd = true → a = TakesAll) →
      uring_step cd (mkSys u w) (mkSys (submit_uring_cancel a p u) w)
  | StCloseFd u w a fd :
      (cd_full cd = true → a = TakesAll) → uring_step cd (mkSys u w) (mkSys (cancel_fd_ops a fd u) w)
  | StKernel u w i e res :
      ur_kernel u !! i = Some e → kernel_answer (sqe_req e) (ur_eventfd u) res →
      uring_step cd (mkSys u w) (mkSys (kernel_completes i res u) w)
  | StProcess u w a c cq u' :
      ur_cq u = c :: cq → process_cqe a c (ur_set_cq cq u) = Some u' → (cd_full cd = true → a = TakesAll) →
      uring_step cd (mkSys u w) (mkSys u' w)
  | StWake u w : uring_step cd (mkSys u w) (mkSys (wake u) w)
  | StResume u w p o l1 l2 :
      p ∈ w → ur_ops u !! p = Some o → ur_scheduled u = l1 ++ uo_continuation o :: l2 →
      uring_step cd (mkSys u w)
        (mkSys (mkUring (ur_sq u) (ur_kernel u) (ur_cq u) (ur_wake_fd u) (ur_eventfd u) (ur_pending u) (ur_tracked u) (ur_ops u) (l1 ++ l2))
           (w ∖ {[p]}))
  | StDestroy u w p o :
      ur_ops u !! p = Some o →
      uring_step cd (mkSys u w)
        (mkSys (let u := if uo_uring o then untrack_op p u else u in ur_set_ops (delete p (ur_ops u)) u) (w ∖ {[p]})).

Definition uring_reachable (cd : conditions) (log : nat) (wake_fd : bool) (s : uring_sys) : Prop :=
  ∃ a, (cd_full cd = true → a = TakesAll) ∧
    rtc (uring_step cd) (mkSys (uring_init (2 ^ log) wake_fd a) ∅) s.

(** ** The queue as a list *)

Definition sq_used (sq : uring_sq) : nat := Z.to_nat (u32 (sq_sqe_tail sq - sq_khead sq)).
Definition sq_at (sq : uring_sq) (i : nat) : sqe := sq_get sq (sq_slot sq (u32 (sq_khead sq + Z.of_nat i))).
(** The entries handed out and not taken, published or not. *)
Definition sq_local (sq : uring_sq) : list sqe := sq_at sq <$> seq 0 (sq_used sq).

Record sq_ok (log : nat) (sq : uring_sq) : Prop := {
  so_log : (log <= 30)%nat;
  so_entries : sq_entries sq = 2 ^ Z.of_nat log;
  so_length : length (sq_sqes sq) = (2 ^ log)%nat;
  so_khead : 0 ≤ sq_khead sq < 2 ^ 32;
  so_ktail : 0 ≤ sq_ktail sq < 2 ^ 32;
  so_tail : 0 ≤ sq_sqe_tail sq < 2 ^ 32;
  so_head : sq_sqe_head sq = sq_ktail sq;
  so_count : (sq_count sq <= sq_used sq)%nat;
  so_used : (sq_used sq <= 2 ^ log)%nat;
}.
(** Nothing is handed out and not published. *)
Definition quiet (sq : uring_sq) : Prop := sq_ktail sq = sq_sqe_tail sq.

Lemma u32_range x : 0 ≤ u32 x < 2 ^ 32.
Proof. unfold u32, u32_modulus. apply Z.mod_pos_bound. lia. Qed.
Lemma u32_id x : 0 ≤ x < 2 ^ 32 → u32 x = x.
Proof. apply Z.mod_small. Qed.
Lemma u32_add_l x y : u32 (u32 x + y) = u32 (x + y).
Proof. unfold u32. by rewrite Zplus_mod_idemp_l. Qed.
Lemma u32_add_r x y : u32 (x + u32 y) = u32 (x + y).
Proof. unfold u32. by rewrite Zplus_mod_idemp_r. Qed.
Lemma u32_sub_l x y : u32 (u32 x - y) = u32 (x - y).
Proof. unfold u32. by rewrite Zminus_mod_idemp_l. Qed.
Lemma u32_sub_r x y : u32 (x - u32 y) = u32 (x - y).
Proof. unfold u32. by rewrite Zminus_mod_idemp_r. Qed.

Lemma pow_log log : Z.of_nat (2 ^ log) = 2 ^ Z.of_nat log.
Proof. rewrite Nat2Z.inj_pow. done. Qed.
Lemma pow_log_small log : (log <= 30)%nat → (Z.of_nat (2 ^ log) <= 2 ^ 30).
Proof. intros. rewrite pow_log. apply Z.pow_le_mono_r; lia. Qed.

(** Entry [i] from the head is in slot [(head + i) mod 2^log]. *)
Lemma slot_at log sq i :
  sq_ok log sq → sq_slot sq (u32 (sq_khead sq + i)) = Z.to_nat ((sq_khead sq + i) `mod` 2 ^ Z.of_nat log).
Proof.
  intros Hok. unfold sq_slot. rewrite (so_entries log sq Hok).
  replace (2 ^ Z.of_nat log - 1) with (Z.ones (Z.of_nat log)) by (rewrite Z.ones_equiv; lia).
  rewrite Z.land_ones by lia. f_equal. unfold u32, u32_modulus.
  pose proof (so_log log sq Hok). apply Z.mod_mod_divide.
  exists (2 ^ (32 - Z.of_nat log)). rewrite <- Z.pow_add_r by lia. f_equal. lia.
Qed.

Lemma slot_lt log sq i : sq_ok log sq → (sq_slot sq (u32 (sq_khead sq + i)) < length (sq_sqes sq))%nat.
Proof.
  intros Hok. rewrite (slot_at log), (so_length log sq Hok) by done.
  pose proof (Z.mod_pos_bound (sq_khead sq + i) (2 ^ Z.of_nat log) ltac:(lia)). pose proof (pow_log log). lia.
Qed.

Lemma slot_inj log sq i j :
  sq_ok log sq → (i < 2 ^ log)%nat → (j < 2 ^ log)%nat →
  sq_slot sq (u32 (sq_khead sq + Z.of_nat i)) = sq_slot sq (u32 (sq_khead sq + Z.of_nat j)) → i = j.
Proof.
  intros Hok Hi Hj. rewrite !(slot_at log) by done. set (m := 2 ^ Z.of_nat log).
  assert (0 < m) by (unfold m; lia). pose proof (pow_log log) as Hp. fold m in Hp.
  intros Heq%Z2Nat.inj; [|apply Z.mod_pos_bound; lia..].
  pose proof (Z.div_mod (sq_khead sq + Z.of_nat i) m ltac:(lia)). pose proof (Z.div_mod (sq_khead sq + Z.of_nat j) m ltac:(lia)).
  set (a := (sq_khead sq + Z.of_nat i) `div` m) in *. set (b := (sq_khead sq + Z.of_nat j) `div` m) in *.
  assert (m * (a - b) = Z.of_nat i - Z.of_nat j) by lia. assert (a = b) by nia. nia.
Qed.

Lemma tail_at sq : 0 ≤ sq_sqe_tail sq < 2 ^ 32 → sq_sqe_tail sq = u32 (sq_khead sq + Z.of_nat (sq_used sq)).
Proof.
  intros Ht. unfold sq_used. rewrite Z2Nat.id by apply u32_range. rewrite u32_add_r.
  replace (_ + _) with (sq_sqe_tail sq) by lia. by rewrite u32_id.
Qed.
Lemma ktail_at sq : 0 ≤ sq_ktail sq < 2 ^ 32 → sq_ktail sq = u32 (sq_khead sq + Z.of_nat (sq_count sq)).
Proof.
  intros Ht. unfold sq_count. rewrite Z2Nat.id by apply u32_range. rewrite u32_add_r.
  replace (_ + _) with (sq_ktail sq) by lia. by rewrite u32_id.
Qed.

(** The distance from the head to the entry at offset [n]. *)
Lemma distance sq n : Z.of_nat n < 2 ^ 32 → Z.to_nat (u32 (u32 (sq_khead sq + Z.of_nat n) - sq_khead sq)) = n.
Proof. intros Hn. rewrite u32_sub_l. replace (_ + _ - _) with (Z.of_nat n) by lia. rewrite u32_id by lia. lia. Qed.

Lemma get_sqe_spec log sq :
  sq_ok log sq →
  io_uring_get_sqe sq =
    if decide (sq_used sq < 2 ^ log)%nat then
      Some (sq_slot sq (u32 (sq_khead sq + Z.of_nat (sq_used sq))),
            sq_set_tails (sq_ktail sq) (sq_sqe_head sq) (u32 (sq_khead sq + Z.of_nat (S (sq_used sq)))) sq)
    else None.
Proof.
  intros Hok. unfold io_uring_get_sqe. pose proof (tail_at sq (so_tail log sq Hok)) as Ht.
  pose proof (so_used log sq Hok). pose proof (pow_log_small log (so_log log sq Hok)).
  assert (u32_succ (sq_sqe_tail sq) = u32 (sq_khead sq + Z.of_nat (S (sq_used sq)))) as Hn.
  { unfold u32_succ. fold (u32 (sq_sqe_tail sq + 1)). rewrite Ht, u32_add_l. f_equal. lia. }
  rewrite Hn, u32_sub_l. replace (_ + _ - _) with (Z.of_nat (S (sq_used sq))) by lia.
  rewrite u32_id, (so_entries log sq Hok), <- pow_log by lia. rewrite <- Ht.
  destruct (Z.leb_spec (Z.of_nat (S (sq_used sq))) (Z.of_nat (2 ^ log))); [rewrite decide_True by lia|rewrite decide_False by lia]; done.
Qed.

(** The entries do not depend on the tails, and a write to one leaves the others. *)
Lemma sq_at_put log sq slot e i j :
  sq_ok log sq → (i < 2 ^ log)%nat → (j < 2 ^ log)%nat → slot = sq_slot sq (u32 (sq_khead sq + Z.of_nat j)) →
  sq_at (sq_put slot e sq) i = if decide (i = j) then e else sq_at sq i.
Proof.
  intros Hok Hi Hj ->. unfold sq_at, sq_get, sq_put. cbn. unfold sq_slot at 2. cbn. fold (sq_slot sq (u32 (sq_khead sq + Z.of_nat i))).
  case_decide as Hij.
  - subst. rewrite list_lookup_insert_eq; [done|]. by eapply slot_lt.
  - rewrite list_lookup_insert_ne; [done|]. intros Heq. apply Hij. by eapply slot_inj.
Qed.

Lemma length_local sq : length (sq_local sq) = sq_used sq.
Proof. unfold sq_local. by rewrite length_fmap, length_seq. Qed.

Lemma published_local sq : (sq_count sq <= sq_used sq)%nat → published sq = take (sq_count sq) (sq_local sq).
Proof. intros H. unfold published, sq_local. rewrite <- fmap_take, take_seq. by rewrite Nat.min_l. Qed.

(** An entry is had when there is room, and filled. *)
Lemma get_sqe_some log sq slot sq' e :
  sq_ok log sq → io_uring_get_sqe sq = Some (slot, sq') →
  sq_ok log (sq_put slot e sq') ∧ sq_local (sq_put slot e sq') = sq_local sq ++ [e] ∧
  sq_count (sq_put slot e sq') = sq_count sq.
Proof.
  intros Hok. rewrite (get_sqe_spec log) by done. case_decide as Hlt; [|done]. intros [= <- <-].
  set (j := sq_used sq) in *. set (sq' := sq_set_tails _ _ _ sq). set (slot := sq_slot sq _).
  pose proof (pow_log_small log (so_log log sq Hok)).
  assert (sq_used (sq_put slot e sq') = S j) as Hu by (unfold sq_used; cbn; apply distance; lia).
  destruct Hok as [? ? Hl ? ? ? ? Hc ?]. assert (sq_count (sq_put slot e sq') = sq_count sq) as Hcc by done.
  assert (sq_ok log (sq_put slot e sq')) as Hok'.
  { split; try done; [by cbn; rewrite length_insert|cbn; apply u32_range|rewrite Hu, Hcc; unfold j; lia|rewrite Hu; lia]. }
  split_and!; [done| |done].
  unfold sq_local. rewrite Hu, seq_S, fmap_app. cbn [fmap list_fmap]. f_equal.
  - apply list_fmap_ext. intros k i [-> Hk]%lookup_seq. transitivity (sq_at (sq_put slot e sq) (0 + k)); [done|].
    rewrite (sq_at_put log _ _ _ _ j) by (done || fold j in Hk; lia). rewrite decide_False by (unfold j; lia). done.
  - f_equal. transitivity (sq_at (sq_put slot e sq) (0 + j)); [done|].
    rewrite (sq_at_put log _ _ _ _ j) by (done || lia). by rewrite decide_True by lia.
Qed.

Lemma sq_get_put slot e sq : (slot < length (sq_sqes sq))%nat → sq_get (sq_put slot e sq) slot = e.
Proof. intros H. unfold sq_get, sq_put. cbn. by rewrite list_lookup_insert_eq. Qed.
Lemma sq_put_put slot e e' sq : sq_put slot e (sq_put slot e' sq) = sq_put slot e sq.
Proof. unfold sq_put. cbn. by rewrite list_insert_insert_eq. Qed.
Lemma prep_set_data slot r p sq :
  (slot < length (sq_sqes sq))%nat → sqe_set_data slot p (sqe_prep slot r sq) = sq_put slot (mkSqe r p) sq.
Proof. intros H. unfold sqe_set_data, sqe_prep. by rewrite sq_get_put, sq_put_put. Qed.
Lemma get_sqe_slot log sq slot sq' :
  sq_ok log sq → io_uring_get_sqe sq = Some (slot, sq') → (slot < length (sq_sqes sq'))%nat ∧ slot = sq_slot sq (u32 (sq_khead sq + Z.of_nat (sq_used sq))).
Proof.
  intros Hok. rewrite (get_sqe_spec log) by done. case_decide; [|done]. intros [= <- <-]. split; [|done]. cbn. by eapply slot_lt.
Qed.

Lemma flush_spec log sq :
  sq_ok log sq → sq_ok log (flush_sq sq) ∧ quiet (flush_sq sq) ∧ sq_local (flush_sq sq) = sq_local sq ∧ published (flush_sq sq) = sq_local sq.
Proof.
  intros Hok. assert (sq_ok log (flush_sq sq) ∧ quiet (flush_sq sq) ∧ sq_local (flush_sq sq) = sq_local sq) as (Hok' & Hq & Hl).
  { unfold flush_sq. case_decide as Heq; [split_and!; [done| |done]; unfold quiet; rewrite <- Heq; symmetry; apply Hok|].
    destruct Hok. split_and!; [|done|done]. split; try done; cbn; lia. }
  split_and!; [done..|]. rewrite published_local by apply Hok'. rewrite Hl. apply take_ge. rewrite <- Hl, length_local.
  unfold sq_used, sq_count. rewrite Hq. lia.
Qed.

(** The kernel takes the first entries. *)
Lemma consume_spec log sq c :
  sq_ok log sq → quiet sq → (c <= sq_used sq)%nat →
  sq_ok log (sq_consume c sq) ∧ quiet (sq_consume c sq) ∧ sq_local (sq_consume c sq) = drop c (sq_local sq).
Proof.
  intros Hok Hq Hc. pose proof (pow_log_small log (so_log log sq Hok)). pose proof (so_used log sq Hok).
  assert (sq_used (sq_consume c sq) = (sq_used sq - c)%nat) as Hu.
  { unfold sq_used at 1. cbn. rewrite u32_sub_r. rewrite (tail_at sq (so_tail log sq Hok)), u32_sub_l.
    replace (_ - _) with (Z.of_nat (sq_used sq - c)) by lia. rewrite u32_id; lia. }
  assert (quiet (sq_consume c sq)) as Hq' by done.
  assert (sq_count (sq_consume c sq) = sq_used (sq_consume c sq)) as Hcu by (unfold sq_count, sq_used; by rewrite Hq').
  assert (sq_ok log (sq_consume c sq)) as Hok'.
  { destruct Hok. split; try done; [apply u32_range|by rewrite Hcu|by rewrite Hu; lia]. }
  split_and!; [done..|]. unfold sq_local. rewrite Hu, <- fmap_drop, drop_seq. cbn [plus].
  assert (∀ m, seq c m = Nat.add c <$> seq 0 m) as Hseq by (intros m; rewrite fmap_add_seq; by rewrite Nat.add_0_r).
  rewrite Hseq, <- list_fmap_compose. apply list_fmap_ext. intros k i _. cbn.
  unfold sq_at, sq_get, sq_slot. cbn. do 4 f_equal. rewrite u32_add_l. f_equal. lia.
Qed.

(** [io_uring_submit] on a queue: what is taken and what is left. *)
Lemma submit_spec log sq a ret es sq' :
  sq_ok log sq → io_uring_submit a sq = (ret, es, sq') →
  let n := taken a (sq_used sq) in
  sq_ok log sq' ∧ quiet sq' ∧ es = take n (sq_local sq) ∧ sq_local sq' = drop n (sq_local sq) ∧
  (ret < 0 → n = 0%nat) ∧ sq_khead sq' = u32 (sq_khead sq + Z.of_nat n).
Proof.
  intros Hok Hs. destruct (flush_spec log sq Hok) as (Hok1 & Hq1 & Hl1 & Hp1).
  unfold io_uring_submit in Hs. set (sq1 := flush_sq sq) in *.
  assert (sq_count sq1 = sq_used sq) as Hcnt.
  { rewrite <- (length_local sq), <- Hl1, length_local. unfold sq_count, sq_used. by rewrite Hq1. }
  rewrite Hcnt, Hp1 in Hs. set (n := taken a (sq_used sq)) in *.
  assert (n <= sq_used sq1)%nat as Hn.
  { rewrite <- (length_local sq1), Hl1, length_local. unfold n, taken. destruct a; lia. }
  injection Hs as <- <- <-. destruct (consume_spec log sq1 n Hok1 Hq1 Hn) as (? & ? & ->). rewrite Hl1.
  split_and!; try done; [unfold n; destruct a; simpl; lia|]. unfold sq1, flush_sq. by case_decide.
Qed.

Lemma sq_ok_put log slot e sq : sq_ok log sq → sq_ok log (sq_put slot e sq).
Proof. intros []. split; try done. cbn. by rewrite length_insert. Qed.

(** Two offsets of one lap are two positions. *)
Lemma offset_ne sq i j : Z.of_nat i < 2 ^ 32 → Z.of_nat j < 2 ^ 32 → i ≠ j →
  u32 (sq_khead sq + Z.of_nat i) ≠ u32 (sq_khead sq + Z.of_nat j).
Proof. intros Hi Hj Hne Heq. pose proof (distance sq i Hi) as H1. pose proof (distance sq j Hj). rewrite Heq in H1. lia. Qed.

Lemma discard_find_spec log sq j fuel i :
  sq_ok log sq → (j < 2 ^ log)%nat → (i + fuel = sq_count sq)%nat → (i <= j)%nat →
  discard_find fuel (u32 (sq_khead sq + Z.of_nat i)) (sq_slot sq (u32 (sq_khead sq + Z.of_nat j))) sq =
    if decide (j < sq_count sq)%nat then Some (u32 (sq_khead sq + Z.of_nat j)) else None.
Proof.
  intros Hok Hj. pose proof (pow_log_small log (so_log log sq Hok)). pose proof (so_count log sq Hok). pose proof (so_used log sq Hok).
  revert i. induction fuel as [|fuel IH]; intros i Hi Hij; simpl; [by rewrite decide_False by lia|].
  rewrite decide_False by (rewrite (ktail_at sq (so_ktail log sq Hok)); apply offset_ne; lia).
  destruct (decide (sq_slot sq (u32 (sq_khead sq + Z.of_nat i)) = sq_slot sq (u32 (sq_khead sq + Z.of_nat j)))) as [Hs|Hs].
  - apply (slot_inj log) in Hs; [|done|lia|done]. subst. by rewrite decide_True by lia.
  - rewrite <- (IH (S i)); [|lia|]. { f_equal. unfold u32_succ. fold (u32 (u32 (sq_khead sq + Z.of_nat i) + 1)). rewrite u32_add_l. f_equal. lia. }
    destruct (decide (i = j)) as [->|]; [done|lia].
Qed.

(** [discard_pending] for the entry handed out last: the queue without it, when it was not taken. *)
Lemma discard_pending_last log sq slot es e :
  sq_ok log sq → quiet sq → sq_local sq = es ++ [e] → slot = sq_slot sq (u32 (sq_khead sq + Z.of_nat (length es))) →
  ∃ sq', discard_pending slot sq = (true, sq') ∧ sq_ok log sq' ∧ quiet sq' ∧ sq_local sq' = es.
Proof.
  intros Hok Hq Hl ->. set (n := length es). pose proof (pow_log_small log (so_log log sq Hok)). pose proof (so_used log sq Hok).
  assert (sq_used sq = S n) as Hu by (rewrite <- length_local, Hl, length_app; simpl; unfold n; lia).
  assert (sq_count sq = S n) as Hcnt by (rewrite <- Hu; unfold sq_count, sq_used; by rewrite Hq).
  assert (sq_ktail sq = u32 (sq_khead sq + Z.of_nat (S n))) as Hkt by (rewrite <- Hcnt; apply ktail_at, Hok).
  assert (sq_khead sq = u32 (sq_khead sq + Z.of_nat 0)) as Hk0 by (rewrite Z.add_0_r, u32_id; [done|apply Hok]).
  assert (discard_find (sq_count sq) (sq_khead sq) (sq_slot sq (u32 (sq_khead sq + Z.of_nat n))) sq = Some (u32 (sq_khead sq + Z.of_nat n))) as Hfind.
  { transitivity (discard_find (sq_count sq) (u32 (sq_khead sq + Z.of_nat 0)) (sq_slot sq (u32 (sq_khead sq + Z.of_nat n))) sq); [by rewrite <- Hk0|].
    rewrite (discard_find_spec log) by (done || lia). by rewrite decide_True by lia. }
  unfold discard_pending. rewrite Hfind.
  set (sq1 := sq_put _ nop_sqe sq).
  assert (sq_ok log sq1) as Hok1 by by apply sq_ok_put.
  rewrite decide_True; [|split; [|cbn; rewrite (so_head log sq Hok); exact Hq]].
  2:{ change (sq_ktail sq1) with (sq_ktail sq). rewrite Hkt. unfold u32_succ. fold (u32 (u32 (sq_khead sq + Z.of_nat n) + 1)). rewrite u32_add_l. f_equal. lia. }
  eexists. split; [done|].
  assert (∀ t, t = sq_ktail sq → u32 (t - 1) = u32 (sq_khead sq + Z.of_nat n)) as Ht.
  { intros t ->. rewrite Hkt, u32_sub_l. f_equal. lia. }
  change (sq_ktail sq1) with (sq_ktail sq). change (sq_sqe_head sq1) with (sq_sqe_head sq). change (sq_sqe_tail sq1) with (sq_sqe_tail sq).
  rewrite (Ht (sq_ktail sq)), (Ht (sq_sqe_head sq)), (Ht (sq_sqe_tail sq)) by (done || apply Hok). set (t := u32 (sq_khead sq + Z.of_nat n)).
  assert (sq_used (sq_set_tails t t t sq1) = n) as Hu' by (unfold sq_used; cbn; apply distance; lia).
  assert (sq_count (sq_set_tails t t t sq1) = n) as Hc' by (unfold sq_count; cbn; apply distance; lia).
  split_and!; [|done|].
  - destruct Hok1. split; try done; try apply u32_range; rewrite ?Hu', ?Hc'; lia.
  - transitivity (sq_at sq1 <$> seq 0 n); [unfold sq_local; by rewrite Hu'|]. transitivity (sq_at sq <$> seq 0 n).
    + apply list_fmap_ext. intros k i [-> Hk]%lookup_seq. unfold sq1. rewrite (sq_at_put log _ _ _ _ n) by (done || lia). by rewrite decide_False by lia.
    + unfold sq_local in Hl. rewrite Hu, seq_S, fmap_app in Hl. by apply app_inj_tail in Hl as [? _].
Qed.

Lemma discard_pending_empty slot sq : quiet sq → sq_local sq = [] → discard_pending slot sq = (false, sq).
Proof.
  intros Hq Hl. unfold discard_pending. replace (sq_count sq) with 0%nat; [done|].
  unfold sq_count. rewrite Hq. fold (sq_used sq). by rewrite <- length_local, Hl.
Qed.

Lemma discard_slots_ok log fuel pos sq : sq_ok log sq → sq_ok log (discard_slots fuel pos sq) ∧
  sq_khead (discard_slots fuel pos sq) = sq_khead sq ∧ sq_ktail (discard_slots fuel pos sq) = sq_ktail sq ∧
  sq_sqe_tail (discard_slots fuel pos sq) = sq_sqe_tail sq.
Proof.
  revert pos sq. induction fuel as [|fuel IH]; intros pos sq Hok; simpl; [done|]. case_decide; [done|].
  destruct (IH (u32_succ pos) _ (sq_ok_put log (sq_slot sq pos) nop_sqe sq Hok)) as (? & -> & -> & ->). done.
Qed.

Lemma discard_all_spec log sq : sq_ok log sq → quiet sq →
  sq_ok log (discard_all_published sq) ∧ quiet (discard_all_published sq) ∧ sq_local (discard_all_published sq) = [].
Proof.
  intros Hok Hq. unfold discard_all_published. destruct (discard_slots_ok log (sq_count sq) (sq_khead sq) sq Hok) as (Hok1 & Hh & Hkt & Ht).
  set (sq1 := discard_slots _ _ _) in *. assert (∀ sq2, sq_sqe_tail sq2 = sq_khead sq2 → sq_used sq2 = 0%nat) as Hz.
  { intros sq2 Heq. unfold sq_used. rewrite Heq. by rewrite Z.sub_diag. }
  case_decide as Heq.
  - assert (quiet sq1) as Hq1 by (unfold quiet; by rewrite Hkt, Ht). split_and!; [done..|]. unfold sq_local.
    by rewrite Hz by (rewrite <- Hq1; done).
  - split_and!; [|done|by unfold sq_local; rewrite Hz]. destruct Hok1. split; try done; rewrite Hz by done; lia.
Qed.

(** ** What the operations do to the queue and the kernel *)

#[local] Abbreviation leftover u := (sq_local (ur_sq u)).
Definition ring_ok (log : nat) u : Prop := sq_ok log (ur_sq u) ∧ quiet (ur_sq u).

(** The requests [es] are appended to what was left, and the kernel takes a part from the front. *)
Definition ring_moves (log : nat) (es : list sqe) u u' : Prop :=
  ∃ sq k, u' = ur_take k (ur_set_sq sq u) ∧ sq_ok log sq ∧ quiet sq ∧ leftover u ++ es = k ++ sq_local sq.

Lemma ur_take_nil u : ur_take [] (ur_set_sq (ur_sq u) u) = u.
Proof. destruct u. unfold ur_take, ur_set_sq. cbn. by rewrite app_nil_r. Qed.

Lemma ring_moves_refl log u : ring_ok log u → ring_moves log [] u u.
Proof. intros [??]. exists (ur_sq u), []. by rewrite ur_take_nil, app_nil_r. Qed.

Lemma ring_moves_ok log es u u' : ring_moves log es u u' → ring_ok log u'.
Proof. by intros (sq & k & -> & ? & ? & _). Qed.

(** Submitting a queue to which [es] was appended. *)
Lemma ring_submit_moves log a es sq u ret u' :
  sq_ok log sq → sq_local sq = leftover u ++ es → ring_submit a (ur_set_sq sq u) = (ret, u') →
  ring_moves log es u u' ∧ (a = TakesAll → leftover u' = []) ∧ (ret < 0 → ∃ sq', u' = ur_set_sq sq' u ∧ sq_ok log sq' ∧ quiet sq').
Proof.
  intros Hok Hl. unfold ring_submit. cbn [ur_sq ur_set_sq]. destruct (io_uring_submit a sq) as [[r k] sq'] eqn:Hs. intros [= <- <-].
  destruct (submit_spec log sq a r k sq' Hok Hs) as (Hok' & Hq' & -> & Hl' & Hr & _). rewrite Hl in *. split_and!.
  - exists sq', (take (taken a (sq_used sq)) (leftover u ++ es)). split_and!; [done..|]. by rewrite Hl', take_drop.
  - intros ->. cbn. rewrite Hl'. apply drop_ge. rewrite <- Hl, length_local. done.
  - intros Hn. rewrite (Hr Hn). exists sq'. split; [|done]. unfold ur_take, ur_set_sq. cbn. by rewrite take_0, app_nil_r.
Qed.

Lemma get_sqe_put_moves log u slot sq e :
  ring_ok log u → io_uring_get_sqe (ur_sq u) = Some (slot, sq) → sq_ok log (sq_put slot e sq) ∧ sq_local (sq_put slot e sq) = leftover u ++ [e].
Proof. intros [Hok _] Hg. by destruct (get_sqe_some log _ _ _ e Hok Hg) as (? & ? & _). Qed.

(** A cancel request, one for the wake-up. *)
Lemma cancel_moves log a p u : ring_ok log u →
  ∃ es, ring_moves log es u (submit_uring_cancel a p u) ∧ (a = TakesAll → leftover u = [] → leftover (submit_uring_cancel a p u) = []) ∧
    Forall (λ e, sqe_req e = ReqCancel p ∧ (clean_entry u → sqe_data e = 0%nat)) es.
Proof.
  intros Hok. unfold submit_uring_cancel. destruct (io_uring_get_sqe (ur_sq u)) as [[slot sq]|] eqn:Hg.
  - set (e := mkSqe (ReqCancel p) (sqe_data (sq_get sq slot))). change (sqe_prep slot (ReqCancel p) sq) with (sq_put slot e sq).
    destruct (get_sqe_put_moves log u slot sq e Hok Hg) as [Hok' Hl]. exists [e].
    destruct (ring_submit a (ur_set_sq (sq_put slot e sq) u)) as [ret u'] eqn:Hs.
    destruct (ring_submit_moves log a [e] _ u ret u' Hok' Hl Hs) as (? & ? & _). split_and!; [done|auto|].
    repeat constructor. intros Hc. by apply Hc.
  - exists []. split_and!; [by apply ring_moves_refl|done|constructor].
Qed.

Lemma wake_poll_moves log a u : ring_ok log u →
  ∃ es, ring_moves log es u (submit_wake_poll a u) ∧ (a = TakesAll → leftover u = [] → es = [mkSqe ReqPollWake 0] ∧ leftover (submit_wake_poll a u) = []) ∧
    Forall (λ e, e = mkSqe ReqPollWake 0) es.
Proof.
  intros Hok. unfold submit_wake_poll. destruct (io_uring_get_sqe (ur_sq u)) as [[slot sq]|] eqn:Hg.
  - destruct (get_sqe_slot log _ _ _ (proj1 Hok) Hg) as [Hlt _]. rewrite prep_set_data by done.
    destruct (get_sqe_put_moves log u slot sq (mkSqe ReqPollWake 0) Hok Hg) as [Hok' Hl]. exists [mkSqe ReqPollWake 0].
    destruct (ring_submit a _) as [ret u'] eqn:Hs.
    destruct (ring_submit_moves log a _ _ u ret u' Hok' Hl Hs) as (? & ? & _). split_and!; [done|auto|]. by repeat constructor.
  - exists []. split_and!; [by apply ring_moves_refl| |constructor]. intros _ Hl.
    rewrite (get_sqe_spec log) in Hg by apply Hok. rewrite <- length_local, Hl in Hg. case_decide as Hd; [done|].
    destruct Hd. simpl. apply Nat.neq_0_lt_0, Nat.pow_nonzero. lia.
Qed.

(** [cancel_fd_ops]: the cancel requests for the targets, as far as there is room. *)
Definition cancel_entries (ps : list op_ptr) : list sqe := (λ p, mkSqe (ReqCancel p) 0) <$> ps.

Lemma cancel_targets_spec log ps sq :
  sq_ok log sq →
  let ps' := take (2 ^ log - sq_used sq) ps in
  let r := cancel_targets ps sq in
  sq_ok log r.2 ∧ sq_local r.2 = sq_local sq ++ cancel_entries ps' ∧ (r.1 = false → ps' = []).
Proof.
  revert sq. induction ps as [|p ps IH]; intros sq Hok; cbn zeta; [cbn; by rewrite take_nil, app_nil_r|].
  cbn [cancel_targets]. destruct (io_uring_get_sqe sq) as [[slot sq']|] eqn:Hg.
  - destruct (get_sqe_slot log _ _ _ Hok Hg) as [Hlt _]. rewrite prep_set_data by done.
    destruct (get_sqe_some log sq slot sq' (mkSqe (ReqCancel p) 0) Hok Hg) as (Hok' & Hl & _).
    destruct (IH _ Hok') as (Hok2 & Hl2 & _). cbn [fst snd]. split_and!; [done| |done].
    rewrite Hl2, Hl, <- app_assoc. f_equal. rewrite <- !length_local, Hl, length_app. cbn [length].
    rewrite (get_sqe_spec log) in Hg by done. case_decide as Hd; [|done]. rewrite <- length_local in Hd.
    replace (2 ^ log - length (sq_local sq))%nat with (S (2 ^ log - (length (sq_local sq) + 1)))%nat by lia. done.
  - rewrite (get_sqe_spec log) in Hg by done. case_decide as Hd; [done|].
    replace (2 ^ log - sq_used sq)%nat with 0%nat by lia. cbn. by rewrite app_nil_r.
Qed.

Lemma close_fd_moves log a fd u : ring_ok log u →
  ∃ es, ring_moves log es u (cancel_fd_ops a fd u) ∧ (a = TakesAll → leftover u = [] → leftover (cancel_fd_ops a fd u) = []) ∧
    (0 ≤ fd → es = cancel_entries (take (2 ^ log - length (leftover u)) (fd_targets fd u))) ∧ Forall (λ e, (∃ p, sqe_req e = ReqCancel p) ∧ sqe_data e = 0%nat) es.
Proof.
  intros Hok. unfold cancel_fd_ops. destruct (Z.ltb_spec fd 0).
  { exists []. split_and!; [by apply ring_moves_refl|done|lia|constructor]. }
  pose proof (cancel_targets_spec log (fd_targets fd u) (ur_sq u) (proj1 Hok)) as Ht. cbn zeta in Ht.
  destruct (cancel_targets (fd_targets fd u) (ur_sq u)) as [any sq] eqn:Hc. cbn [fst snd] in Ht. destruct Ht as (Hok' & Hl & Hany).
  rewrite <- length_local in Hl, Hany. set (ps := take _ _) in *. exists (cancel_entries ps).
  assert (Forall (λ e, (∃ p, sqe_req e = ReqCancel p) ∧ sqe_data e = 0%nat) (cancel_entries ps)) as Hall.
  { apply Forall_fmap, Forall_forall. intros p _. cbn. eauto. }
  destruct any.
  - destruct (ring_submit a (ur_set_sq sq u)) as [ret u'] eqn:Hs.
    destruct (ring_submit_moves log a _ sq u ret u' Hok' Hl Hs) as (? & ? & _). auto.
  - rewrite (Hany eq_refl) in *. assert (sq = ur_sq u) as ->.
    { destruct (fd_targets fd u); cbn in Hc; [by injection Hc|]. destruct (io_uring_get_sqe (ur_sq u)) as [[??]|]; [done|by injection Hc]. }
    split_and!; [|by destruct u|done|done]. exists (ur_sq u), []. destruct Hok. rewrite ur_take_nil. cbn. rewrite app_nil_r. split_and!; [by destruct u|done..].
Qed.

(** [uring_submit]: the kernel took the request, or the operation has failed and its request is
    nowhere. *)
Lemma uring_submit_spec log a slot sq r p u :
  ring_ok log u → io_uring_get_sqe (ur_sq u) = Some (slot, sq) →
  let u' := uring_submit a slot p (ur_set_sq (sqe_prep slot r sq) u) in
  (∃ sq', u' = op_start (ur_take (leftover u ++ [mkSqe r p]) (ur_set_sq sq' u)) ∧ sq_ok log sq' ∧ quiet sq' ∧ sq_local sq' = []) ∨
  (∃ sq' k res, u' = op_fails res (- res) p (ur_take k (ur_set_sq sq' u)) ∧ sq_ok log sq' ∧ quiet sq' ∧ res < 0 ∧
     (∃ l, leftover u = k ++ l ∧ sq_local sq' `suffix_of` l) ∧ a ≠ TakesAll).
Proof.
  intros Hok Hg. cbn zeta. unfold uring_submit. cbn [ur_sq ur_set_sq].
  destruct (get_sqe_slot log _ _ _ (proj1 Hok) Hg) as [Hlt Hslot]. rewrite prep_set_data by done. set (e := mkSqe r p).
  destruct (get_sqe_put_moves log u slot sq e Hok Hg) as [Hok' Hl].
  change (ur_set_sq (sq_put slot e sq) (ur_set_sq (sqe_prep slot r sq) u)) with (ur_set_sq (sq_put slot e sq) u).
  unfold ring_submit. cbn [ur_sq ur_set_sq]. destruct (io_uring_submit a _) as [[ret k] sq1] eqn:Hs.
  destruct (submit_spec log _ a ret k sq1 Hok' Hs) as (Hok1 & Hq1 & -> & Hl1 & Hr & Hkh). rewrite Hl in *.
  set (n := taken a _) in *. cbn [ur_sq ur_take ur_set_sq].
  assert (n <= length (leftover u ++ [e]))%nat as Hn by (rewrite <- Hl, length_local; unfold n, taken; destruct a; lia).
  assert (a = TakesAll → n = length (leftover u ++ [e])) as Hall by (intros ->; unfold n; cbn; by rewrite <- Hl, length_local).
  rewrite length_app in Hn, Hall. simpl in Hn, Hall.
  destruct (Z.ltb_spec ret 0) as [Hneg|Hpos].
  { right. destruct (discard_all_spec log sq1 Hok1 Hq1) as (? & ? & Hnil). exists (discard_all_published sq1), [], ret. rewrite Hnil.
    split_and!; try done; [by rewrite (Hr Hneg), take_0| |].
    - eexists. split; [done|]. apply suffix_nil.
    - intros Ha. specialize (Hall Ha). rewrite (Hr Hneg) in Hall. lia. }
  destruct (decide (n = (length (leftover u) + 1)%nat)) as [Hlast|Hpart].
  { left. assert (sq_local sq1 = []) as Hnil by (rewrite Hl1; apply drop_ge; rewrite length_app; simpl; lia).
    rewrite discard_pending_empty by done. exists sq1. split_and!; try done. rewrite take_ge by (rewrite length_app; simpl; lia). done. }
  right. rewrite drop_app_le in Hl1 by lia.
  destruct (discard_pending_last log sq1 slot (drop n (leftover u)) e Hok1 Hq1 Hl1) as (sq2 & -> & Hok2 & Hq2 & Hl2).
  { rewrite Hslot. unfold sq_slot. rewrite (so_entries log _ (proj1 Hok)), (so_entries log _ Hok1). do 2 f_equal.
    rewrite Hkh, u32_add_l, length_drop, length_local. rewrite (get_sqe_spec log) in Hg by apply Hok. case_decide; [|done].
    injection Hg as _ <-. cbn. f_equal. rewrite length_local in Hn, Hpart. fold n. clearbody n. lia. }
  exists sq2, (take n (leftover u)), (- EAGAIN). rewrite take_app_le by lia. split_and!; try done.
  - exists (drop n (leftover u)). split; [by rewrite take_drop|]. by rewrite Hl2.
  - intros Ha. specialize (Hall Ha). lia.
Qed.

(** [await_suspend]: under way, or failed and queued. *)
Inductive suspended (log : nat) (both : bool) (opcode : io_opcode) (fd len : Z) a (h : handle) p (o : uring_op) u : uring → Prop :=
  | SuTaken sq :
      sq_ok log sq → quiet sq → sq_local sq = [] →
      suspended log both opcode fd len a h p o u
        (mkUring sq (ur_kernel u ++ leftover u ++ [mkSqe (ReqIo opcode fd len) p]) (ur_cq u) (ur_wake_fd u) (ur_eventfd u) (ur_pending u + 1)
           ({[p]} ∪ ur_tracked u) (<[p := mkOp h (uo_result o) (uo_error o) fd true]> (ur_ops u)) (ur_scheduled u))
  | SuRefused sq k l res :
      sq_ok log sq → quiet sq → leftover u = k ++ l → sq_local sq `suffix_of` l → res < 0 → a ≠ TakesAll →
      suspended log both opcode fd len a h p o u
        (mkUring sq (ur_kernel u ++ k) (ur_cq u) (ur_wake_fd u) (ur_eventfd u) (ur_pending u)
           ({[p]} ∪ ur_tracked u) (<[p := mkOp h res (- res) fd true]> (ur_ops u)) (ur_scheduled u ++ [h]))
  | SuFull :
      length (leftover u) = (2 ^ log)%nat →
      suspended log both opcode fd len a h p o u
        (mkUring (ur_sq u) (ur_kernel u) (ur_cq u) (ur_wake_fd u) (ur_eventfd u) (ur_pending u) (ur_tracked u)
           (<[p := mkOp h (- ENOBUFS) (if both then ENOBUFS else uo_error o) (uo_fd o) (uo_uring o)]> (ur_ops u)) (ur_scheduled u ++ [h])).

Lemma suspended_eq log both opcode fd len a h p o u v v' : suspended log both opcode fd len a h p o u v → v' = v → suspended log both opcode fd len a h p o u v'.
Proof. by intros ? ->. Qed.

Lemma await_suspend_spec log both opcode fd len a h p o u :
  ring_ok log u → ur_ops u !! p = Some o → suspended log both opcode fd len a h p o u (uring_await_suspend both opcode fd len a h p u).
Proof.
  intros Hok Ho. unfold uring_await_suspend. cbn [ur_sq ur_set_ops].
  destruct (io_uring_get_sqe (ur_sq u)) as [[slot sq]|] eqn:Hg; cbn zeta.
  - set (v := ur_set_ops _ (ur_set_sq _ _)).
    set (u0 := ur_set_ops (<[p := mkOp h (uo_result o) (uo_error o) fd (uo_uring o)]> (ur_ops u)) u).
    assert (v = ur_set_sq (sqe_prep slot (ReqIo opcode fd len) sq) u0) as ->.
    { unfold v, u0, ur_set_ops, ur_set_sq. cbn. f_equal. apply map_eq. intros q.
      destruct (decide (q = p)) as [->|]; [by rewrite lookup_insert_eq, !lookup_alter_eq, Ho|by rewrite lookup_insert_ne, !lookup_alter_ne]. }
    assert (ring_ok log u0) as Hok0 by done.
    destruct (uring_submit_spec log a slot sq (ReqIo opcode fd len) p u0 Hok0 Hg)
      as [(sq' & -> & ? & ? & ?)|(sq' & k & res & -> & ? & ? & ? & (l & Hl & ?) & ?)].
    + eapply suspended_eq; [by apply (SuTaken log both opcode fd len a h p o u sq')|].
      subst u0. clear. destruct u. cbn. unfold track_op, ur_set_tracked. cbn. by rewrite alter_insert_eq.
    + eapply suspended_eq; [by apply (SuRefused log both opcode fd len a h p o u sq' k l res)|].
      subst u0. clear. destruct u. unfold op_fails. cbn. rewrite lookup_insert_eq. unfold track_op, ur_set_tracked. cbn.
      by rewrite insert_insert_eq, alter_insert_eq.
  - unfold op_fails. cbn. rewrite lookup_alter_eq, Ho. cbn. unfold ur_schedule, ur_set_ops. cbn.
    rewrite (get_sqe_spec log) in Hg by apply Hok. rewrite <- length_local in Hg. case_decide as Hd; [done|].
    pose proof (so_used log _ (proj1 Hok)) as Hu. rewrite <- length_local in Hu.
    eapply suspended_eq; [by apply (SuFull log both opcode fd len a h p o u); lia|].
    f_equal. apply map_eq. intros q.
    destruct (decide (q = p)) as [->|]; [by rewrite !lookup_insert_eq|by rewrite !lookup_insert_ne, lookup_alter_ne].
Qed.
