(* ===== verification/UringInv.v ===== *)
(** * UringInv: what holds of the event source of io_uring

    The theorems about [UringM]: completions never write to an object that is gone; the count of
    pending operations is exact and every request ends once; a wake-up is not lost; [wait_for] takes
    every completion; [close] reaches every operation of its descriptor; the memo of
    [current_uring].  At the end the two findings: a cancel request that carries the data of an older
    request, and a poll that a failed submission throws away. *)

From S2P Require Import Prelude UringM.
From stdpp Require Import options.

Local Open Scope Z_scope.

#[local] Abbreviation leftover u := (sq_local (ur_sq u)).
Implicit Types (u : uring) (p : op_ptr) (a : enter_answer).

(** ** Memory: no object is written after it is gone, no buffer is handed out by a stale entry *)

Definition is_io (r : request) : bool := match r with ReqIo _ _ _ => true | _ => false end.

(** What holds in every order of steps. *)
Record uring_safe (log : nat) u : Prop := {
  us_ring : ring_ok log u;
  us_left : Forall (λ e, is_io (sqe_req e) = false) (leftover u);
  us_tracked : ∀ p, p ∈ ur_tracked u → ∃ o, ur_ops u !! p = Some o ∧ uo_uring o = true;
}.

Lemma safe_moves log es u u' :
  ring_moves log es u u' → Forall (λ e, is_io (sqe_req e) = false) es → uring_safe log u → uring_safe log u'.
Proof.
  intros (sq & k & -> & ? & ? & Hl) Hes [Hr Hle Ht]. split; [done| |done]. cbn.
  assert (Forall (λ e, is_io (sqe_req e) = false) (leftover u ++ es)) as Hal by by apply Forall_app.
  rewrite Hl in Hal. by apply Forall_app in Hal as [_ ?].
Qed.

Lemma process_cqe_cases a p res u u' :
  process_cqe a (p, res) u = Some u' →
  (p = 0%nat ∧ ur_wake_fd u = true ∧ 0 < res ∧ u' = submit_wake_poll a (ur_set_eventfd 0 u)) ∨
  (p = 0%nat ∧ (ur_wake_fd u = false ∨ res ≤ 0) ∧ u' = u) ∨
  (p ≠ 0%nat ∧ (p ∉ ur_tracked u) ∧ u' = ur_set_pending (ur_pending u - 1) u) ∨
  (p ≠ 0%nat ∧ p ∈ ur_tracked u ∧ ∃ o, ur_ops u !! p = Some o ∧
     u' = mkUring (ur_sq u) (ur_kernel u) (ur_cq u) (ur_wake_fd u) (ur_eventfd u) (ur_pending u - 1) (ur_tracked u)
            (<[p := op_set_result res (if res <? 0 then - res else 0) o]> (ur_ops u))
            (if decide (uo_continuation o = null_handle) then ur_scheduled u else ur_scheduled u ++ [uo_continuation o])).
Proof.
  unfold process_cqe. case_decide as Hp.
  - destruct (ur_wake_fd u) eqn:Hw; simpl; [destruct (Z.ltb_spec 0 res); simpl|]; intros [= <-]; [left|right; left|right; left]; auto 6.
  - cbn [ur_ops ur_set_pending ur_tracked]. destruct (decide (p ∈ ur_tracked u)) as [Ht|Ht]; [|intros [= <-]; auto 6]. destruct (ur_ops u !! p) as [o|] eqn:Ho; [|done].
    simpl. intros [= <-]. right. right. right. split_and!; [done..|]. exists o. split; [done|].
    by case_decide.
Qed.

Lemma safe_cancel log a p u : uring_safe log u → uring_safe log (submit_uring_cancel a p u).
Proof.
  intros Hs. destruct (cancel_moves log a p u (us_ring _ _ Hs)) as (es & Hm & _ & Hes). eapply safe_moves; [done| |done].
  eapply Forall_impl; [done|]. by intros e [-> _].
Qed.
Lemma safe_close_fd log a fd u : uring_safe log u → uring_safe log (cancel_fd_ops a fd u).
Proof.
  intros Hs. destruct (close_fd_moves log a fd u (us_ring _ _ Hs)) as (es & Hm & _ & _ & Hes). eapply safe_moves; [done| |done].
  eapply Forall_impl; [done|]. by intros e [[q ->] _].
Qed.
Lemma safe_wake_poll log a u : uring_safe log u → uring_safe log (submit_wake_poll a u).
Proof.
  intros Hs. destruct (wake_poll_moves log a u (us_ring _ _ Hs)) as (es & Hm & _ & Hes). eapply safe_moves; [done| |done].
  eapply Forall_impl; [done|]. by intros e ->.
Qed.

Lemma safe_process log a c u u' : uring_safe log u → process_cqe a c u = Some u' → uring_safe log u'.
Proof.
  destruct c as [p res]. intros Hs [(_ & _ & _ & ->)|[(_ & _ & ->)|[(_ & _ & ->)|(_ & Hp & o & Ho & ->)]]]%process_cqe_cases; [|done|by destruct Hs|].
  - apply safe_wake_poll. by destruct Hs.
  - destruct Hs as [? ? Ht]. split; [done..|]. cbn. intros q Hq. destruct (decide (q = p)) as [->|]; [|rewrite lookup_insert_ne by done; auto].
    rewrite lookup_insert_eq. destruct (Ht p Hp) as (o' & Ho' & ?). rewrite Ho in Ho'. injection Ho' as <-. eauto.
Qed.

Lemma safe_suspend log both opcode fd len a h p o u :
  uring_safe log u → ur_ops u !! p = Some o → uring_safe log (uring_await_suspend both opcode fd len a h p u).
Proof.
  intros [Hr Hl Ht] Ho. destruct (await_suspend_spec log both opcode fd len a h p o u Hr Ho) as [sq ? ? Hn|sq k l res ? ? Heq Hsuf ? ?|Hfull].
  - split; [done|cbn; rewrite Hn; constructor|]. cbn. intros q Hq. destruct (decide (q = p)) as [->|]; [rewrite lookup_insert_eq; eauto|].
    rewrite lookup_insert_ne by done. apply Ht. set_solver.
  - split; [done| |].
    + cbn. rewrite Heq in Hl. apply Forall_app in Hl as [_ Hl]. destruct Hsuf as [l' ->]. by apply Forall_app in Hl as [_ ?].
    + cbn. intros q Hq. destruct (decide (q = p)) as [->|]; [rewrite lookup_insert_eq; eauto|].
      rewrite lookup_insert_ne by done. apply Ht. set_solver.
  - split; [done..|]. cbn. intros q Hq. destruct (decide (q = p)) as [->|]; [|rewrite lookup_insert_ne by done; auto].
    rewrite lookup_insert_eq. destruct (Ht p Hq) as (o' & Ho' & ?). rewrite Ho in Ho'. injection Ho' as <-. eauto.
Qed.

Lemma safe_step log cd s s' : uring_step cd s s' → uring_safe log (sy_u s) → uring_safe log (sy_u s').
Proof.
  intros Hstep Hs. destruct Hstep as [u w p Hp Hd _|u w both opcode fd len a h p o Ho _ _ _ _ _ _|u w a p _ _ _|u w a fd _
    |u w i e res He _|u w a c cq u' Hc Hpr _|u w|u w p o l1 l2 _ _ _|u w p o Ho]; cbn in *.
  - destruct Hs as [? ? Ht]. split; [done..|]. cbn. intros q Hq. destruct (Ht q Hq) as (o & Ho & ?).
    rewrite lookup_insert_ne; [eauto|]. intros ->. apply Hd. by eapply elem_of_dom_2.
  - by eapply safe_suspend.
  - by apply safe_cancel.
  - by apply safe_close_fd.
  - unfold kernel_completes. rewrite He. by destruct Hs.
  - eapply safe_process; [|done]. by destruct Hs.
  - unfold wake. case_match; [by destruct Hs|done].
  - by destruct Hs.
  - destruct Hs as [? ? Ht]. destruct (uo_uring o) eqn:Hu; (split; [done..|]); cbn; intros q Hq.
    + rewrite lookup_delete_ne by set_solver. apply Ht. set_solver.
    + destruct (Ht q Hq) as (o' & Ho' & Hu'). exists o'. rewrite lookup_delete_ne; [done|]. intros ->. congruence.
Qed.

Lemma init_ring log wake_fd : (log <= 30)%nat → let u := mkUring (mkSq 0 0 0 0 (Z.of_nat (2 ^ log)) (replicate (2 ^ log) nop_sqe)) [] [] wake_fd 0 0 ∅ ∅ [] in
  ring_ok log u ∧ leftover u = [] ∧ uring_safe log u.
Proof.
  intros Hlog u. assert (ring_ok log u) as Hr.
  { split; [|done]. split; cbn; try done; try lia; [by rewrite pow_log|by rewrite length_replicate|apply Nat.le_0_l]. }
  assert (leftover u = []) as Hl by done.
  split; [done|]. split; [done|]. split; [done|rewrite Hl; constructor|]. cbn. set_solver.
Qed.

Lemma uring_init_safe log wake_fd a : (log <= 30)%nat → uring_safe log (uring_init (2 ^ log) wake_fd a).
Proof.
  intros Hlog. destruct (init_ring log wake_fd Hlog) as (_ & _ & Hs). unfold uring_init. destruct wake_fd; [by apply safe_wake_poll|done].
Qed.

Lemma reachable_safe cd log wake_fd s : (log <= 30)%nat → uring_reachable cd log wake_fd s → uring_safe log (sy_u s).
Proof.
  intros Hlog (a & _ & Hr). pose proof (uring_init_safe log wake_fd a Hlog) as Hi.
  change (uring_init (2 ^ log) wake_fd a) with (sy_u (mkSys (uring_init (2 ^ log) wake_fd a) ∅)) in Hi.
  revert Hi. generalize (mkSys (uring_init (2 ^ log) wake_fd a) ∅) as s0, Hr. intros s0 Hr'. induction Hr'; eauto using safe_step.
Qed.

(** C31 Whatever the kernel answers and whenever objects go, also when addresses are used again: a
    completion writes only to an object that exists; and the queue never keeps an entry with a
    buffer of a coroutine that was told that its request failed. *)
Theorem uring_memory_safe cd log wake_fd s a c :
  (log <= 30)%nat → uring_reachable cd log wake_fd s →
  is_Some (process_cqe a c (sy_u s)) ∧ Forall (λ e, is_io (sqe_req e) = false) (published (ur_sq (sy_u s))).
Proof.
  intros Hlog Hr. destruct (reachable_safe cd log wake_fd s Hlog Hr) as [[Hok Hq] Hl Ht]. split.
  - destruct c as [p res]. unfold process_cqe. case_decide; [done|]. case_decide as Hp; [|done]. cbn [ur_ops ur_set_pending ur_tracked] in *.
    destruct (Ht p Hp) as (o & -> & _). done.
  - rewrite published_local by apply Hok. by apply Forall_take.
Qed.

(** ** Every request ends once *)

#[local] Abbreviation no_data := (Forall (λ e, sqe_data e = 0%nat)).

Record uring_once (s : uring_sys) : Prop := {
  un_left : no_data (leftover (sy_u s));
  un_nodup : NoDup (in_flight (sy_u s));
  un_pending : ur_pending (sy_u s) = Z.of_nat (length (in_flight (sy_u s)));
  un_live : ∀ p o, ur_ops (sy_u s) !! p = Some o → p ∈ in_flight (sy_u s) →
    p ∈ ur_tracked (sy_u s) ∧ p ∈ sy_wait s ∧ uo_continuation o ≠ null_handle;
  un_wait : ∀ p, p ∈ sy_wait s → ∃ o, ur_ops (sy_u s) !! p = Some o ∧ uo_continuation o ≠ null_handle ∧
    (p ∈ in_flight (sy_u s) ∧ (uo_continuation o ∉ ur_scheduled (sy_u s)) ∨
     (p ∉ in_flight (sy_u s)) ∧ uo_continuation o ∈ ur_scheduled (sy_u s));
  un_inj : ∀ p q o o', ur_ops (sy_u s) !! p = Some o → ur_ops (sy_u s) !! q = Some o' →
    uo_continuation o = uo_continuation o' → uo_continuation o ≠ null_handle → p = q;
  un_sched : NoDup (ur_scheduled (sy_u s));
  un_null : 0%nat ∉ dom (ur_ops (sy_u s));
}.

Lemma filter_no_data es : no_data es → filter (λ p, p ≠ 0%nat) (sqe_data <$> es) = [].
Proof. induction 1 as [|e es He _ IH]; [done|]. rewrite fmap_cons, filter_cons_False; [done|]. by intros []. Qed.

Lemma in_flight_split u : in_flight u = filter (λ p, p ≠ 0%nat) (sqe_data <$> ur_kernel u) ++ filter (λ p, p ≠ 0%nat) ((ur_cq u).*1).
Proof. unfold in_flight. by rewrite filter_app. Qed.

Lemma in_flight_moves log es u u' :
  ring_moves log es u u' → no_data (leftover u) → no_data es →
  no_data (leftover u') ∧ in_flight u' = in_flight u ∧ ur_pending u' = ur_pending u ∧ ur_tracked u' = ur_tracked u ∧
  ur_ops u' = ur_ops u ∧ ur_scheduled u' = ur_scheduled u.
Proof.
  intros (sq & k & -> & _ & _ & Hl) Hle Hes. assert (no_data (leftover u ++ es)) as Hal by by apply Forall_app.
  rewrite Hl in Hal. apply Forall_app in Hal as [Hk Hr]. split_and!; try done.
  rewrite !in_flight_split. cbn. by rewrite fmap_app, filter_app, (filter_no_data k), app_nil_r.
Qed.

(** Steps that only reorder what is under way. *)
Lemma once_same s u' :
  uring_once s → no_data (leftover u') → in_flight u' ≡ₚ in_flight (sy_u s) → ur_pending u' = ur_pending (sy_u s) →
  ur_tracked u' = ur_tracked (sy_u s) → ur_ops u' = ur_ops (sy_u s) → ur_scheduled u' = ur_scheduled (sy_u s) →
  uring_once (mkSys u' (sy_wait s)).
Proof.
  intros [Hl Hn Hp Hli Hw Hi Hs Hz] Hl' Hf Hpe Ht Ho Hsc. split; cbn; rewrite ?Hpe, ?Ht, ?Ho, ?Hsc; try done.
  - by rewrite Hf.
  - by rewrite Hf.
  - intros p o Hpo. rewrite Hf. eauto.
  - intros p Hpw. destruct (Hw p Hpw) as (o & Hpo & Hc & Hd). exists o. by rewrite Hf.
Qed.

Lemma once_moves log es u w u' :
  uring_once (mkSys u w) → ring_moves log es u u' → no_data es → uring_once (mkSys u' w).
Proof.
  intros Ho Hm Hes. destruct (in_flight_moves log es u u' Hm (un_left _ Ho) Hes) as (? & Hf & ? & ? & ? & ?).
  apply (once_same (mkSys u w)); try done. by rewrite Hf.
Qed.

Lemma in_flight_kernel u i e res : ur_kernel u !! i = Some e → in_flight (kernel_completes i res u) ≡ₚ in_flight u.
Proof.
  intros He. unfold kernel_completes. rewrite He. unfold in_flight. cbn [ur_kernel ur_cq]. f_equiv.
  transitivity ((sqe_data <$> e :: delete i (ur_kernel u)) ++ (ur_cq u).*1).
  - rewrite fmap_app, fmap_cons. cbn. rewrite app_assoc. rewrite (Permutation_app_comm _ [sqe_data e]). done.
  - by rewrite <- (delete_Permutation (ur_kernel u) i e He).
Qed.

(** A new object. *)
Lemma once_new u w p :
  uring_once (mkSys u w) → p ≠ 0%nat → p ∉ dom (ur_ops u) → (p ∉ in_flight u) →
  uring_once (mkSys (ur_set_ops (<[p := mkOp null_handle 0 0 (-1) false]> (ur_ops u)) u) w).
Proof.
  intros [Hl Hn Hp Hli Hw Hi Hs Hz] Hp0 Hd Hf. cbn in *. split; cbn; try done.
  - intros q o Hq. change (in_flight _) with (in_flight u). intros Hqf. rewrite lookup_insert_ne in Hq by (by intros <-). eauto.
  - intros q Hq. destruct (Hw q Hq) as (o & Ho & Hr). exists o. rewrite lookup_insert_ne; [done|].
    intros <-. apply Hd. by eapply elem_of_dom_2.
  - intros q q' o o'. destruct (decide (q = p)) as [->|]; [|rewrite (lookup_insert_ne _ p q) by done].
    + rewrite lookup_insert_eq. intros [= <-] _ _ Hc. by destruct Hc.
    + intros Ho. destruct (decide (q' = p)) as [->|]; [|rewrite lookup_insert_ne by done; eauto].
      rewrite lookup_insert_eq. intros [= <-] Heq Hc. by rewrite Heq in Hc.
  - rewrite dom_insert. set_solver.
Qed.

(** A coroutine waits: its request is under way, or its handle is queued. *)
Lemma once_suspend u w p h o o' sq kernel pending tracked scheduled :
  uring_once (mkSys u w) → ur_ops u !! p = Some o → uo_continuation o = null_handle →
  h ≠ null_handle → (h ∉ ur_scheduled u) → (∀ q o', ur_ops u !! q = Some o' → uo_continuation o' ≠ h) → uo_continuation o' = h →
  let u' := mkUring sq kernel (ur_cq u) (ur_wake_fd u) (ur_eventfd u) pending tracked (<[p := o']> (ur_ops u)) scheduled in
  no_data (leftover u') → ur_tracked u ⊆ tracked →
  (in_flight u' ≡ₚ p :: in_flight u ∧ pending = ur_pending u + 1 ∧ p ∈ tracked ∧ scheduled = ur_scheduled u ∨
   in_flight u' ≡ₚ in_flight u ∧ pending = ur_pending u ∧ scheduled = ur_scheduled u ++ [h]) →
  uring_once (mkSys u' ({[p]} ∪ w)).
Proof.
  intros [Hl Hn Hp Hli Hw Hi Hs Hz] Ho Hc Hh Hsh Hfr Ho' u' Hl' Htr Hcase. cbn [sy_u sy_wait] in *.
  assert (p ∉ in_flight u) as Hpf by (intros Hin; by destruct (Hli p o Ho Hin) as (_ & _ & ?)).
  assert (p ∉ w) as Hpw by (intros Hin; destruct (Hw p Hin) as (? & ? & ? & _); congruence).
  assert (p ≠ 0%nat) as Hp0 by (intros ->; apply Hz; by eapply elem_of_dom_2).
  assert (∀ q, q ≠ p → q ∈ in_flight u' ↔ q ∈ in_flight u) as Hothers.
  { intros q Hq. destruct Hcase as [(-> & _)|(-> & _)]; set_solver. }
  assert (∀ q oq, ur_ops u !! q = Some oq → uo_continuation oq ∈ scheduled ↔ uo_continuation oq ∈ ur_scheduled u) as Hothers2.
  { intros q oq Hq. specialize (Hfr q oq Hq). destruct Hcase as [(_ & _ & _ & ->)|(_ & _ & ->)]; [done|]. rewrite elem_of_app, list_elem_of_singleton. naive_solver. }
  assert (ur_pending u' = pending) as Epe by done. assert (ur_tracked u' = tracked) as Etr by done.
  assert (ur_ops u' = <[p := o']> (ur_ops u)) as Eop by done. assert (ur_scheduled u' = scheduled) as Esc by done. clearbody u'.
  split; cbn [sy_u sy_wait]; rewrite ?Epe, ?Etr, ?Eop, ?Esc.
  - done.
  - destruct Hcase as [(-> & _)|(-> & _)]; [by apply NoDup_cons_2|done].
  - destruct Hcase as [(-> & -> & _)|(-> & -> & _)]; cbn [length]; lia.
  - intros q oq Hq Hqf. destruct (decide (q = p)) as [->|].
    + rewrite lookup_insert_eq in Hq. injection Hq as <-. destruct Hcase as [(_ & _ & ? & _)|(Hf & _)].
      * split_and!; [done|set_solver|congruence].
      * by rewrite Hf in Hqf.
    + rewrite lookup_insert_ne in Hq by done. apply Hothers in Hqf; [|done]. destruct (Hli q oq Hq Hqf) as (? & ? & ?). set_solver.
  - intros q [->%elem_of_singleton|Hq]%elem_of_union.
    + exists o'. rewrite lookup_insert_eq. split_and!; [done|congruence|]. rewrite Ho'. destruct Hcase as [(Hf & _ & _ & ->)|(Hf & _ & ->)].
      * left. rewrite Hf. set_solver.
      * right. rewrite Hf. set_solver.
    + destruct (Hw q Hq) as (oq & Hoq & Hcq & Hd). assert (q ≠ p) by (by intros ->). exists oq. rewrite lookup_insert_ne by done.
      rewrite (Hothers2 q oq Hoq), Hothers by done. done.
  - intros q q' oq oq'. destruct (decide (q = p)) as [->|], (decide (q' = p)) as [->|]; rewrite ?lookup_insert_eq, ?lookup_insert_ne by done.
    + done.
    + intros [= <-] Hq' Heq. exfalso. apply (Hfr q' oq' Hq'). congruence.
    + intros Hq [= <-] Heq. exfalso. apply (Hfr q oq Hq). congruence.
    + eauto.
  - destruct Hcase as [(_ & _ & _ & ->)|(_ & _ & ->)]; [done|]. apply NoDup_app. split_and!; [done|set_solver|apply NoDup_singleton].
  - rewrite dom_insert. set_solver.
Qed.

(** A completion is taken from the queue. *)
Lemma in_flight_cq u p res cq :
  ur_cq u = (p, res) :: cq → p ≠ 0%nat → in_flight u ≡ₚ p :: in_flight (ur_set_cq cq u).
Proof.
  intros Hc Hp. rewrite !in_flight_split, Hc. cbn [ur_kernel ur_cq ur_set_cq fmap list_fmap fst]. rewrite filter_cons_True by done.
  by rewrite <- Permutation_middle.
Qed.
Lemma in_flight_cq_null u res cq : ur_cq u = (0%nat, res) :: cq → in_flight u = in_flight (ur_set_cq cq u).
Proof.
  intros Hc. rewrite !in_flight_split, Hc. cbn [ur_kernel ur_cq ur_set_cq fmap list_fmap fst]. by rewrite filter_cons_False by (by intros []).
Qed.

Lemma once_process_null log s res cq a u' :
  uring_once s → ring_ok log (sy_u s) → ur_cq (sy_u s) = (0%nat, res) :: cq → process_cqe a (0%nat, res) (ur_set_cq cq (sy_u s)) = Some u' →
  uring_once (mkSys u' (sy_wait s)).
Proof.
  intros Ho Hr Hc Hp. assert (uring_once (mkSys (ur_set_cq cq (sy_u s)) (sy_wait s))) as Ho1.
  { apply once_same; try done; [by destruct Ho|]. by rewrite <- (in_flight_cq_null _ _ _ Hc). }
  apply process_cqe_cases in Hp as [(_ & _ & _ & ->)|[(_ & _ & ->)|[(? & _)|(? & _)]]]; try done.
  set (u1 := ur_set_eventfd 0 (ur_set_cq cq (sy_u s))).
  assert (uring_once (mkSys u1 (sy_wait s))) as Ho2 by (apply (once_same (mkSys (ur_set_cq cq (sy_u s)) (sy_wait s))); try done; apply Ho1).
  destruct (wake_poll_moves log a u1 Hr) as (es & Hm & _ & Hes). eapply once_moves; [done..|].
  eapply Forall_impl; [done|]. by intros e ->.
Qed.

(** The completion of an operation whose coroutine is gone. *)
Lemma once_process_gone s p res cq :
  uring_once s → ur_cq (sy_u s) = (p, res) :: cq → p ≠ 0%nat → (p ∉ ur_tracked (sy_u s)) →
  uring_once (mkSys (ur_set_pending (ur_pending (sy_u s) - 1) (ur_set_cq cq (sy_u s))) (sy_wait s)).
Proof.
  intros [Hl Hn Hp Hli Hw Hi Hs Hz] Hc Hp0 Ht. pose proof (in_flight_cq _ _ _ _ Hc Hp0) as Hf.
  rewrite Hf in Hn. apply NoDup_cons in Hn as [Hpn Hn]. set (u1 := ur_set_pending _ _). change (in_flight (ur_set_cq cq (sy_u s))) with (in_flight u1) in *.
  assert (p ∉ dom (ur_ops (sy_u s))) as Hd.
  { intros [o Ho]%elem_of_dom. apply Ht. apply (Hli p o Ho). rewrite Hf. set_solver. }
  split; cbn [sy_u sy_wait]; try done.
  - change (ur_pending u1) with (ur_pending (sy_u s) - 1). rewrite Hp, Hf. cbn [length]. lia.
  - intros q o Ho Hq. apply (Hli q o Ho). rewrite Hf. set_solver.
  - intros q Hq. destruct (Hw q Hq) as (o & Ho & Hcn & Hcase). exists o. split_and!; [done..|].
    assert (q ≠ p) by (intros ->; apply Hd; by eapply elem_of_dom_2). rewrite Hf in Hcase. change (ur_scheduled u1) with (ur_scheduled (sy_u s)). set_solver.
Qed.

(** The completion of an operation whose coroutine waits. *)
Lemma once_process_wait s p res cq o u' :
  uring_once s → ur_cq (sy_u s) = (p, res) :: cq → p ≠ 0%nat → p ∈ ur_tracked (sy_u s) → ur_ops (sy_u s) !! p = Some o →
  u' = mkUring (ur_sq (sy_u s)) (ur_kernel (sy_u s)) cq (ur_wake_fd (sy_u s)) (ur_eventfd (sy_u s)) (ur_pending (sy_u s) - 1) (ur_tracked (sy_u s))
         (<[p := op_set_result res (if res <? 0 then - res else 0) o]> (ur_ops (sy_u s)))
         (if decide (uo_continuation o = null_handle) then ur_scheduled (sy_u s) else ur_scheduled (sy_u s) ++ [uo_continuation o]) →
  uring_once (mkSys u' (sy_wait s)).
Proof.
  intros [Hl Hn Hp Hli Hw Hi Hs Hz] Hc Hp0 Ht Ho ->. pose proof (in_flight_cq _ _ _ _ Hc Hp0) as Hf.
  assert (p ∈ in_flight (sy_u s)) as Hpf by (rewrite Hf; set_solver). destruct (Hli p o Ho Hpf) as (_ & Hpw & Hcn).
  rewrite decide_False by done. destruct (Hw p Hpw) as (o' & Ho' & _ & Hcase). rewrite Ho in Ho'. injection Ho' as <-.
  assert (uo_continuation o ∉ ur_scheduled (sy_u s)) as Hsh by tauto. clear Hcase.
  rewrite Hf in Hn. apply NoDup_cons in Hn as [Hpn Hn]. set (u1 := mkUring _ _ _ _ _ _ _ _ _). change (in_flight (ur_set_cq cq (sy_u s))) with (in_flight u1) in *.
  assert (ur_ops u1 = <[p := op_set_result res (if res <? 0 then - res else 0) o]> (ur_ops (sy_u s))) as Eop by done.
  assert (ur_pending u1 = ur_pending (sy_u s) - 1) as Epe by done. assert (ur_scheduled u1 = ur_scheduled (sy_u s) ++ [uo_continuation o]) as Esc by done.
  assert (ur_tracked u1 = ur_tracked (sy_u s)) as Etr by done. assert (leftover u1 = leftover (sy_u s)) as Ele by done. clearbody u1.
  split; cbn [sy_u sy_wait]; rewrite ?Epe, ?Etr, ?Eop, ?Esc, ?Ele.
  - done.
  - done.
  - rewrite Hp, Hf. cbn [length]. lia.
  - intros q oq Hq Hqf. assert (q ≠ p) by (by intros ->). rewrite lookup_insert_ne in Hq by done. apply (Hli q oq Hq). rewrite Hf. set_solver.
  - intros q Hq. destruct (decide (q = p)) as [->|].
    + exists (op_set_result res (if res <? 0 then - res else 0) o). rewrite lookup_insert_eq. split_and!; [done..|]. cbn. right. set_solver.
    + destruct (Hw q Hq) as (oq & Hoq & Hcq & Hcase). exists oq. rewrite lookup_insert_ne by done. split_and!; [done..|].
      assert (uo_continuation oq ≠ uo_continuation o) by (intros Heq; by apply (Hi q p oq o) in Heq). rewrite Hf in Hcase. set_solver.
  - intros q q' oq oq'. destruct (decide (q = p)) as [->|], (decide (q' = p)) as [->|]; rewrite ?lookup_insert_eq, ?lookup_insert_ne by done.
    + done.
    + intros [= <-] Hq'. exact (Hi p q' o oq' Ho Hq').
    + intros Hq [= <-]. exact (Hi q p oq o Hq Ho).
    + eauto.
  - apply NoDup_app. split_and!; [done|set_solver|apply NoDup_singleton].
  - rewrite dom_insert. intros [?%elem_of_singleton|?]%elem_of_union; [congruence|done].
Qed.

(** The coroutine is resumed. *)
Lemma once_resume s p o l1 l2 u' :
  uring_once s → p ∈ sy_wait s → ur_ops (sy_u s) !! p = Some o → ur_scheduled (sy_u s) = l1 ++ uo_continuation o :: l2 →
  u' = mkUring (ur_sq (sy_u s)) (ur_kernel (sy_u s)) (ur_cq (sy_u s)) (ur_wake_fd (sy_u s)) (ur_eventfd (sy_u s)) (ur_pending (sy_u s))
         (ur_tracked (sy_u s)) (ur_ops (sy_u s)) (l1 ++ l2) →
  uring_once (mkSys u' (sy_wait s ∖ {[p]})).
Proof.
  intros [Hl Hn Hp Hli Hw Hi Hs Hz] Hpw Ho Hsc ->. destruct (Hw p Hpw) as (o' & Ho' & Hcn & Hcase). rewrite Ho in Ho'. injection Ho' as <-.
  assert (p ∉ in_flight (sy_u s)) as Hpf by (destruct Hcase as [[_ Hno]|[? _]]; [rewrite Hsc in Hno; set_solver|done]).
  rewrite Hsc in Hs. set (u1 := mkUring _ _ _ _ _ _ _ _ _). assert (in_flight u1 = in_flight (sy_u s)) as Ef by done.
  assert (leftover u1 = leftover (sy_u s)) as El by done. assert (ur_pending u1 = ur_pending (sy_u s)) as Ep by done.
  assert (ur_ops u1 = ur_ops (sy_u s)) as Eo by done. assert (ur_tracked u1 = ur_tracked (sy_u s)) as Et by done.
  assert (ur_scheduled u1 = l1 ++ l2) as Es by done. clearbody u1.
  split; cbn [sy_u sy_wait]; rewrite ?Ef, ?El, ?Ep, ?Eo, ?Et, ?Es; try done.
  - intros q oq Hq Hqf. destruct (Hli q oq Hq Hqf) as (? & ? & ?). set_solver.
  - intros q [Hq Hqp]%elem_of_difference. destruct (Hw q Hq) as (oq & Hoq & Hcq & Hc). exists oq. split_and!; [done..|].
    assert (uo_continuation oq ≠ uo_continuation o) by (intros Heq; apply (Hi q p oq o Hoq Ho) in Heq; set_solver).
    rewrite Hsc in Hc. set_solver.
  - rewrite <- Permutation_middle in Hs. by apply NoDup_cons in Hs as [_ ?].
Qed.

(** An object goes. *)
Lemma once_destroy s p o u' :
  uring_once s → ur_ops (sy_u s) !! p = Some o → (∀ q, q ≠ p → q ∈ ur_tracked (sy_u s) → q ∈ ur_tracked u') →
  in_flight u' = in_flight (sy_u s) → leftover u' = leftover (sy_u s) → ur_pending u' = ur_pending (sy_u s) →
  ur_ops u' = delete p (ur_ops (sy_u s)) → ur_scheduled u' = ur_scheduled (sy_u s) →
  uring_once (mkSys u' (sy_wait s ∖ {[p]})).
Proof.
  intros [Hl Hn Hp Hli Hw Hi Hs Hz] Ho Et Ef El Ep Eo Es. split; cbn [sy_u sy_wait]; rewrite ?Ef, ?El, ?Ep, ?Eo, ?Es; try done.
  - intros q oq [Hqp Hq]%lookup_delete_Some Hqf. destruct (Hli q oq Hq Hqf) as (? & ? & ?). split_and!; [by apply Et|set_solver|done].
  - intros q [Hq Hqp]%elem_of_difference. destruct (Hw q Hq) as (oq & Hoq & Hc). exists oq. rewrite lookup_delete_ne by set_solver. done.
  - intros q q' oq oq' [_ Hq]%lookup_delete_Some [_ Hq']%lookup_delete_Some. by apply Hi.
  - rewrite dom_delete. set_solver.
Qed.

Lemma once_step log cd s s' :
  cd_fresh cd = true → cd_clean cd = true → uring_step cd s s' → uring_safe log (sy_u s) → uring_once s → uring_once s'.
Proof.
  intros Hcf Hcc Hstep Hsafe Hs. destruct Hstep as [u w p Hp Hd Hf|u w both opcode fd len a h p o Ho Hc Hu Hh Hsh Hfr _|u w a p _ Hcl _|u w a fd _
    |u w i e res He _|u w a [p res] cq u' Hc Hpr _|u w|u w p o l1 l2 Hp Ho Hsc|u w p o Ho]; cbn [sy_u] in *.
  - apply once_new; auto.
  - assert (p ∉ ur_tracked u) as Hnt.
    { intros Hin. destruct (us_tracked _ _ Hsafe p Hin) as (o' & Ho' & ?). congruence. }
    pose proof (un_left _ Hs) as Hnd. cbn [sy_u] in Hnd. assert (p ≠ 0%nat) as Hp0 by (intros ->; apply (un_null _ Hs); by eapply elem_of_dom_2).
    destruct (await_suspend_spec log both opcode fd len a h p o u (us_ring _ _ Hsafe) Ho) as [sq ? ? Hnil|sq k l res ? ? Heq Hsuf ? ?|Hfull].
    + eapply (once_suspend u w p h o); try done; [change (no_data (sq_local sq)); rewrite Hnil; constructor|set_solver|]. left. split_and!; [|done|set_solver|done].
      rewrite !in_flight_split. cbn [ur_kernel ur_cq]. rewrite !fmap_app, !filter_app, (filter_no_data (leftover u)) by done. cbn [fmap list_fmap sqe_data].
      rewrite filter_cons_True, filter_nil by done. cbn [app]. rewrite <- app_assoc. symmetry. apply Permutation_middle.
    + rewrite Heq in Hnd. apply Forall_app in Hnd as [Hk Hlr]. destruct Hsuf as [l' Hll]. rewrite Hll in Hlr. apply Forall_app in Hlr as [_ Hlr].
      eapply (once_suspend u w p h o); try done; [set_solver|]. right. split_and!; [|done..].
      rewrite !in_flight_split. cbn [ur_kernel ur_cq]. by rewrite fmap_app, filter_app, (filter_no_data k), app_nil_r.
    + eapply (once_suspend u w p h o); try done. right. done.
  - destruct (cancel_moves log a p u (us_ring _ _ Hsafe)) as (es & Hm & _ & Hes). eapply once_moves; [done..|].
    eapply Forall_impl; [done|]. intros e [_ He]. auto.
  - destruct (close_fd_moves log a fd u (us_ring _ _ Hsafe)) as (es & Hm & _ & _ & Hes). eapply once_moves; [done..|].
    eapply Forall_impl; [done|]. by intros e [_ ?].
  - apply (once_same (mkSys u w)); [done| |by eapply in_flight_kernel|..]; unfold kernel_completes; rewrite He; [apply Hs|done..].
  - destruct (decide (p = 0%nat)) as [->|Hp0]; [exact (once_process_null log (mkSys u w) res cq a u' Hs (us_ring _ _ Hsafe) Hc Hpr)|].
    apply process_cqe_cases in Hpr as [(? & _)|[(? & _)|[(_ & Ht & ->)|(_ & Ht & o & Ho & ->)]]]; try done.
    + by apply (once_process_gone (mkSys u w) p res).
    + by eapply (once_process_wait (mkSys u w) p res cq o).
  - unfold wake. case_match; [|done]. apply (once_same (mkSys u w)); try done. apply Hs.
  - by eapply (once_resume (mkSys u w)).
  - eapply (once_destroy (mkSys u w)); try done; destruct (uo_uring o); try done. cbn. set_solver.
Qed.

Lemma reachable_once cd log wake_fd s :
  (log <= 30)%nat → cd_fresh cd = true → cd_clean cd = true → uring_reachable cd log wake_fd s → uring_once s.
Proof.
  intros Hlog Hcf Hcc (a & Ha & Hr).
  assert (uring_once (mkSys (uring_init (2 ^ log) wake_fd a) ∅)) as Hi.
  { destruct (init_ring log wake_fd Hlog) as (Hri & Hl & _). set (u := mkUring _ _ _ _ _ _ _ _ _) in *.
    assert (uring_once (mkSys u ∅)) as H0 by (split; cbn [sy_u sy_wait]; rewrite ?Hl; try done; constructor).
    unfold uring_init. fold u. destruct wake_fd; [|done].
    destruct (wake_poll_moves log a u Hri) as (es & Hm & _ & Hes). eapply once_moves; [done..|].
    eapply Forall_impl; [done|]. by intros e ->. }
  pose proof (uring_init_safe log wake_fd a Hlog) as Hsa.
  change (uring_init (2 ^ log) wake_fd a) with (sy_u (mkSys (uring_init (2 ^ log) wake_fd a) ∅)) in Hsa.
  revert Hi Hsa Hr. generalize (mkSys (uring_init (2 ^ log) wake_fd a) ∅) as s0. intros s0 Hi Hsa Hr. induction Hr; eauto using once_step, safe_step.
Qed.


(** ** Waking the loop *)

Definition is_wake (r : request) : bool := match r with ReqPollWake => true | _ => false end.
#[local] Abbreviation wakes := (filter (λ e, is_wake (sqe_req e) = true)).
#[local] Abbreviation wake_cqes := (filter (λ c : op_ptr * Z, c.1 = 0%nat ∧ 0 < c.2)).

(** When every submission succeeds, the poll of the eventfd is armed or its completion is queued. *)
Record wake_inv u : Prop := {
  wi_left : leftover u = [];
  wi_null : 0%nat ∉ dom (ur_ops u);
  wi_io : Forall (λ e, is_io (sqe_req e) = true → sqe_data e ≠ 0%nat) (ur_kernel u);
  wi_wake : Forall (λ e, is_wake (sqe_req e) = true → sqe_data e = 0%nat) (ur_kernel u);
  wi_fd : ur_wake_fd u = true;
  wi_count : (length (wakes (ur_kernel u)) + length (wake_cqes (ur_cq u)) = 1)%nat;
  wi_eventfd : 0 ≤ ur_eventfd u;
}.

Lemma moves_all log es u u' :
  ring_moves log es u u' → leftover u = [] → leftover u' = [] →
  ur_kernel u' = ur_kernel u ++ es ∧ ur_cq u' = ur_cq u ∧ ur_ops u' = ur_ops u ∧ ur_wake_fd u' = ur_wake_fd u ∧ ur_eventfd u' = ur_eventfd u.
Proof. intros (sq & k & -> & _ & _ & Hl) H1 H2. cbn in *. by rewrite H1, H2, app_nil_r in Hl; cbn in Hl; subst. Qed.

Lemma wakes_none es : Forall (λ e, is_wake (sqe_req e) = false) es → wakes es = [].
Proof. induction 1 as [|e es He _ IH]; [done|]. rewrite filter_cons_False; [done|]. by rewrite He. Qed.

(** Requests of other kinds are added. *)
Lemma wake_inv_moves log es u u' :
  wake_inv u → ring_moves log es u u' → leftover u' = [] → Forall (λ e, is_io (sqe_req e) = false ∧ is_wake (sqe_req e) = false) es →
  wake_inv u'.
Proof.
  intros [Hl Hz Hio Hwk Hwf Hc He] Hm Hl' Hes. destruct (moves_all log es u u' Hm Hl Hl') as (Hk & Hcq & Hops & Hw & Hev).
  split; rewrite ?Hk, ?Hcq, ?Hops, ?Hw, ?Hev; try done.
  - apply Forall_app. split; [done|]. eapply Forall_impl; [done|]. intros e [-> _]. done.
  - apply Forall_app. split; [done|]. eapply Forall_impl; [done|]. intros e [_ ->]. done.
  - rewrite filter_app, (wakes_none es), app_nil_r; [auto|]. eapply Forall_impl; [done|]. by intros e [_ ?].
Qed.

Lemma length_wakes_delete es i e : es !! i = Some e → length (wakes es) = ((if is_wake (sqe_req e) then 1 else 0) + length (wakes (delete i es)))%nat.
Proof.
  intros He. rewrite (delete_Permutation es i e He) at 1. destruct (is_wake (sqe_req e)) eqn:Hw.
  - by rewrite filter_cons_True.
  - rewrite filter_cons_False; [done|]. by rewrite Hw.
Qed.

Lemma wake_inv_kernel u i e res :
  wake_inv u → ur_kernel u !! i = Some e → kernel_answer (sqe_req e) (ur_eventfd u) res → wake_inv (kernel_completes i res u).
Proof.
  intros [Hl Hz Hio Hwk Hwf Hc He] Hi Ha. unfold kernel_completes. rewrite Hi.
  assert (is_io (sqe_req e) = true → sqe_data e ≠ 0%nat) as Hio' by (eapply Forall_lookup_1 in Hio; eauto).
  assert (is_wake (sqe_req e) = true → sqe_data e = 0%nat) as Hwk' by (eapply Forall_lookup_1 in Hwk; eauto).
  split; cbn [ur_sq ur_ops ur_kernel ur_cq ur_wake_fd ur_eventfd]; try done; try by apply Forall_delete.
  rewrite (length_wakes_delete _ _ _ Hi) in Hc. rewrite filter_app, length_app.
  destruct (decide (sqe_data e = 0%nat ∧ 0 < res)) as [[Hd Hpos]|Hno].
  - rewrite filter_cons_True, filter_nil by done. cbn [length]. destruct (sqe_req e); cbn in *; lia || (by destruct Hio').
  - rewrite filter_cons_False, filter_nil by done. cbn [length]. destruct (sqe_req e); cbn in *; lia.
Qed.

Lemma wake_inv_suspend log both opcode fd len h p o u :
  wake_inv u → uring_safe log u → ur_ops u !! p = Some o → wake_inv (uring_await_suspend both opcode fd len TakesAll h p u).
Proof.
  intros [Hl Hz Hio Hwk Hwf Hc He] Hsafe Ho. assert (p ≠ 0%nat) as Hp by (intros ->; apply Hz; by eapply elem_of_dom_2).
  destruct (await_suspend_spec log both opcode fd len TakesAll h p o u (us_ring _ _ Hsafe) Ho) as [sq ? ? Hnil|sq k l res ? ? Heq Hsuf ? ?|Hfull].
  - rewrite Hl. cbn [app]. split; cbn [ur_sq ur_ops ur_kernel ur_cq ur_wake_fd ur_eventfd]; try done.
    + rewrite dom_insert. intros [?%elem_of_singleton|?]%elem_of_union; [congruence|done].
    + apply Forall_app. split; [done|]. by repeat constructor.
    + apply Forall_app. split; [done|]. by repeat constructor.
    + rewrite filter_app, filter_cons_False, filter_nil, app_nil_r by done. done.
  - done.
  - rewrite Hl in Hfull. cbn in Hfull. pose proof (Nat.pow_nonzero 2 log). lia.
Qed.

(** The completion of the poll: the poll is armed again. *)
Lemma wake_inv_rearm log u :
  uring_safe log u → leftover u = [] → 0%nat ∉ dom (ur_ops u) → Forall (λ e, is_io (sqe_req e) = true → sqe_data e ≠ 0%nat) (ur_kernel u) →
  Forall (λ e, is_wake (sqe_req e) = true → sqe_data e = 0%nat) (ur_kernel u) → 0 ≤ ur_eventfd u →
  ur_wake_fd u = true → (length (wakes (ur_kernel u)) + length (wake_cqes (ur_cq u)) = 0)%nat →
  wake_inv (submit_wake_poll TakesAll u).
Proof.
  intros Hsafe Hl Hz Hio Hwk He Hwf Hc. destruct (wake_poll_moves log TakesAll u (us_ring _ _ Hsafe)) as (es & Hm & Hall & _).
  destruct (Hall eq_refl Hl) as [-> Hl']. destruct (moves_all log _ u _ Hm Hl Hl') as (Hk & Hcq & Hops & Hw & Hev).
  split; rewrite ?Hk, ?Hcq, ?Hops, ?Hw, ?Hev; try done.
  - apply Forall_app. split; [done|]. by repeat constructor.
  - apply Forall_app. split; [done|]. by repeat constructor.
  - rewrite filter_app, length_app, filter_cons_True, filter_nil by done. cbn [length]. lia.
Qed.

Lemma wake_inv_process log c cq u u' :
  wake_inv u → uring_safe log u → ur_cq u = c :: cq → process_cqe TakesAll c (ur_set_cq cq u) = Some u' → wake_inv u'.
Proof.
  intros [Hl Hz Hio Hwk Hwf Hc He] Hsafe Hcq Hp. destruct c as [p res]. rewrite Hcq in Hc.
  apply process_cqe_cases in Hp as [(-> & Hw & Hres & ->)|[(-> & Hor & ->)|[(Hp & _ & ->)|(Hp & _ & o & Ho & ->)]]].
  - apply (wake_inv_rearm log); try done; [by destruct Hsafe|].
    rewrite filter_cons_True in Hc by done. cbn [length] in Hc. cbn. lia.
  - split; try done. rewrite filter_cons_False in Hc; [done|]. cbn in *. intros [_ ?].
    destruct Hor; [congruence|lia].
  - split; try done. rewrite filter_cons_False in Hc; [done|]. cbn. by intros [? _].
  - split; try done; cbn [ur_ops].
    + rewrite dom_insert_lookup; [done|]. by eexists.
    + rewrite filter_cons_False in Hc; [done|]. cbn. by intros [? _].
Qed.

Lemma wake_inv_step log cd s s' : cd_full cd = true → uring_step cd s s' → uring_safe log (sy_u s) → wake_inv (sy_u s) → wake_inv (sy_u s').
Proof.
  intros Hfull Hstep Hsafe Hs. destruct Hstep as [u w p Hp Hd Hf|u w both opcode fd len a h p o Ho Hc Hu Hh Hsh Hfr Ha|u w a p _ _ Ha|u w a fd Ha
    |u w i e res He Hans|u w a c cq u' Hc Hpr Ha|u w|u w p o l1 l2 Hp Ho Hsc|u w p o Ho]; cbn [sy_u] in *; try rewrite (Ha Hfull) in *.
  - destruct Hs. split; try done. cbn [ur_ops ur_set_ops]. rewrite dom_insert. intros [?%elem_of_singleton|?]%elem_of_union; [congruence|done].
  - by eapply wake_inv_suspend.
  - destruct (cancel_moves log TakesAll p u (us_ring _ _ Hsafe)) as (es & Hm & Hl & Hes). eapply wake_inv_moves; [done..|apply Hl; [done|apply Hs]|].
    eapply Forall_impl; [done|]. by intros e [-> _].
  - destruct (close_fd_moves log TakesAll fd u (us_ring _ _ Hsafe)) as (es & Hm & Hl & _ & Hes). eapply wake_inv_moves; [done..|apply Hl; [done|apply Hs]|].
    eapply Forall_impl; [done|]. by intros e [[q ->] _].
  - by eapply wake_inv_kernel.
  - by eapply wake_inv_process.
  - unfold wake. case_match; [|done]. destruct Hs. split; try done. cbn. lia.
  - by destruct Hs.
  - destruct Hs, (uo_uring o); split; try done; cbn [ur_ops ur_set_ops]; rewrite dom_delete; set_solver.
Qed.

(** With every submission taken, the loop is never deaf: once somebody has called [wake], the
    completion that ends the wait is queued, or the one poll that is armed can complete. *)
Theorem uring_wakes cd log s :
  (log <= 30)%nat → cd_full cd = true → uring_reachable cd log true s →
  let u := wake (sy_u s) in
  (∃ res, 0 < res ∧ (0%nat, res) ∈ ur_cq u) ∨
  (∃ i e, ur_kernel u !! i = Some e ∧ sqe_req e = ReqPollWake ∧ sqe_data e = 0%nat ∧ kernel_answer (sqe_req e) (ur_eventfd u) 1).
Proof.
  intros Hlog Hfull (a & Ha & Hr). rewrite (Ha Hfull) in Hr.
  destruct (init_ring log true Hlog) as (Hri & Hl0 & Hs0). set (u0 := mkUring _ _ _ _ _ _ _ _ _) in *.
  assert (wake_inv (uring_init (2 ^ log) true TakesAll)) as Hi.
  { unfold uring_init. fold u0. apply (wake_inv_rearm log); try done; constructor. }
  pose proof (uring_init_safe log true TakesAll Hlog) as Hsa.
  change (uring_init (2 ^ log) true TakesAll) with (sy_u (mkSys (uring_init (2 ^ log) true TakesAll) ∅)) in Hi, Hsa.
  revert Hi Hsa Hr. generalize (mkSys (uring_init (2 ^ log) true TakesAll) ∅) as s1. intros s1 Hi Hsa Hr.
  assert (wake_inv (sy_u s)) as [_ _ _ Hwk Hwf Hc He] by (clear -Hi Hsa Hr Hfull; induction Hr; eauto using wake_inv_step, safe_step).
  unfold wake. rewrite Hwf. cbn zeta. cbn [ur_cq ur_kernel ur_eventfd ur_set_eventfd].
  destruct (wake_cqes (ur_cq (sy_u s))) as [|[p res] l] eqn:Hq.
  - right. destruct (wakes (ur_kernel (sy_u s))) as [|e l] eqn:Hk; [done|].
    assert (e ∈ wakes (ur_kernel (sy_u s))) as [Hew Hin]%list_elem_of_filter by (rewrite Hk; set_solver).
    apply list_elem_of_lookup in Hin as [i Hi']. exists i, e. rewrite Forall_forall in Hwk.
    assert (sqe_req e = ReqPollWake) as Her by (by destruct (sqe_req e)). rewrite Her in *. split_and!; try done.
    + apply (Hwk e); [by eapply list_elem_of_lookup_2|by rewrite Her].
    + cbn. lia.
  - left. assert ((p, res) ∈ wake_cqes (ur_cq (sy_u s))) as [[Hp Hres] Hin]%list_elem_of_filter by (rewrite Hq; set_solver).
    cbn in *. subst. eauto.
Qed.

(** ** [wait_for] *)

(** The handle that a completion queues. *)
Definition woken u (c : op_ptr * Z) : list handle :=
  if decide (c.1 = 0%nat) then []
  else if decide (c.1 ∈ ur_tracked u) then
    match ur_ops u !! c.1 with Some o => if decide (uo_continuation o = null_handle) then [] else [uo_continuation o] | None => [] end
  else [].
Definition counts (c : op_ptr * Z) : Z := if decide (c.1 = 0%nat) then 0 else 1.

(** What does not change while completions are processed. *)
Definition same_waiters u u' : Prop :=
  ur_tracked u' = ur_tracked u ∧ (∀ p, uo_continuation <$> ur_ops u' !! p = uo_continuation <$> ur_ops u !! p).

Lemma same_waiters_woken u u' c : same_waiters u u' → woken u' c = woken u c.
Proof.
  intros [Ht Ho]. unfold woken. rewrite Ht. case_decide; [done|]. case_decide; [|done]. specialize (Ho c.1).
  destruct (ur_ops u' !! c.1), (ur_ops u !! c.1); cbn in Ho; try done. injection Ho as ->. done.
Qed.

Lemma process_total log a c u : uring_safe log u →
  ∃ u', process_cqe a c u = Some u' ∧ uring_safe log u' ∧ ur_cq u' = ur_cq u ∧ same_waiters u u' ∧
    ur_scheduled u' = ur_scheduled u ++ woken u c ∧ ur_pending u' = ur_pending u - counts c.
Proof.
  intros Hs. assert (is_Some (process_cqe a c u)) as [u' Hp].
  { destruct c as [p res]. unfold process_cqe. case_decide; [done|]. cbn [ur_tracked ur_set_pending ur_ops].
    destruct (decide (p ∈ ur_tracked u)) as [Hin|]; [|done]. by destruct (us_tracked _ _ Hs p Hin) as (o & -> & _). }
  exists u'. split; [done|]. split; [by eapply safe_process|]. destruct c as [p res]. unfold woken, counts. cbn [fst].
  apply process_cqe_cases in Hp as [(-> & Hw & Hres & ->)|[(-> & Hor & ->)|[(Hp & Ht & ->)|(Hp & Ht & o & Ho & ->)]]].
  - destruct (wake_poll_moves log a (ur_set_eventfd 0 u) (us_ring _ _ Hs)) as (es & (sq & k & -> & _) & _). cbn. rewrite app_nil_r, Z.sub_0_r. done.
  - cbn. by rewrite app_nil_r, Z.sub_0_r.
  - rewrite !decide_False by done. cbn. by rewrite app_nil_r.
  - rewrite !(decide_False (P := p = 0%nat)), (decide_True (P := p ∈ ur_tracked u)) by done. rewrite Ho. cbn.
    split_and!; [done| |case_decide; by rewrite ?app_nil_r|done]. split; [done|]. intros q. cbn. destruct (decide (q = p)) as [->|].
    + by rewrite lookup_insert_eq, Ho.
    + by rewrite lookup_insert_ne.
Qed.

Lemma safe_set_cq log cq u : uring_safe log u → uring_safe log (ur_set_cq cq u).
Proof. by intros []. Qed.

Definition sum_counts (cs : list (op_ptr * Z)) : Z := foldr (λ c n, counts c + n) 0 cs.
Lemma sum_counts_app cs cs' : sum_counts (cs ++ cs') = sum_counts cs + sum_counts cs'.
Proof. induction cs as [|c cs IH]; cbn; [done|]. fold (sum_counts (cs ++ cs')) (sum_counts cs). lia. Qed.

Lemma process_batch_spec log answers batch rest done u :
  uring_safe log u → ur_cq u = batch ++ rest →
  ∃ u', process_batch batch answers done u = Some ((done + length batch)%nat, u') ∧ uring_safe log u' ∧ ur_cq u' = rest ∧ same_waiters u u' ∧
    ur_scheduled u' = ur_scheduled u ++ concat (woken u <$> batch) ∧ ur_pending u' = ur_pending u - sum_counts batch.
Proof.
  revert done u. induction batch as [|c batch IH]; intros done u Hs Hc; cbn [process_batch].
  { exists u. cbn. rewrite Nat.add_0_r, app_nil_r, Z.sub_0_r. done. }
  destruct (process_total log (answers done) c u Hs) as (u1 & -> & Hs1 & Hc1 & Hw1 & Hsc1 & Hp1). cbn [mbind option_bind].
  rewrite Hc1, Hc. cbn [tail app].
  destruct (IH (S done) (ur_set_cq (batch ++ rest) u1) (safe_set_cq _ _ _ Hs1) eq_refl) as (u2 & -> & Hs2 & Hc2 & Hw2 & Hsc2 & Hp2).
  exists u2. cbn [length]. rewrite Nat.add_succ_r. split_and!; try done.
  - destruct Hw1 as [Ht1 Ho1], Hw2 as [Ht2 Ho2]. cbn in *. split; [by rewrite Ht2|]. intros q. by rewrite Ho2.
  - rewrite Hsc2. cbn. rewrite Hsc1, <- app_assoc. do 2 f_equal. f_equal. apply list_fmap_ext. intros _ c' _. by apply same_waiters_woken.
  - rewrite Hp2. cbn. rewrite Hp1. fold (sum_counts batch). lia.
Qed.

(** The loops of [wait_for] end with an empty queue, every waiter of a completion queued in order. *)
Lemma drain_cq_spec log answers fuel done u :
  uring_safe log u → (length (ur_cq u) < fuel)%nat →
  ∃ u', drain_cq fuel answers done u = Some ((done + length (ur_cq u))%nat, u') ∧ uring_safe log u' ∧ ur_cq u' = [] ∧ same_waiters u u' ∧
    ur_scheduled u' = ur_scheduled u ++ concat (woken u <$> ur_cq u) ∧ ur_pending u' = ur_pending u - sum_counts (ur_cq u).
Proof.
  revert done u. induction fuel as [|fuel IH]; intros done u Hs Hf; [lia|]. cbn [drain_cq].
  destruct (take 16 (ur_cq u)) as [|c0 b0] eqn:Hb.
  { assert (ur_cq u = []) as Hnil by (destruct (ur_cq u); done). rewrite Hnil. exists u. cbn. rewrite Nat.add_0_r, app_nil_r, Z.sub_0_r. done. }
  set (batch := c0 :: b0) in *. pose proof (take_drop 16 (ur_cq u)) as Htd. rewrite Hb in Htd. symmetry in Htd.
  destruct (process_batch_spec log answers batch _ done u Hs Htd) as (u1 & -> & Hs1 & Hc1 & Hw1 & Hsc1 & Hp1). cbn [mbind option_bind].
  assert (length (ur_cq u) = length batch + length (ur_cq u1))%nat as Hlen by (rewrite Htd at 1; by rewrite length_app, Hc1).
  destruct (IH (done + length batch)%nat u1 Hs1) as (u2 & -> & Hs2 & Hc2 & Hw2 & Hsc2 & Hp2); [unfold batch in Hlen; cbn in Hlen; lia|].
  exists u2. split_and!; try done.
  - do 2 f_equal. lia.
  - destruct Hw1 as [Ht1 Ho1], Hw2 as [Ht2 Ho2]. split; [by rewrite Ht2|]. intros q. by rewrite Ho2.
  - rewrite Hsc2, Hsc1, <- app_assoc. f_equal. rewrite Htd, fmap_app, concat_app, Hc1. do 2 f_equal. apply list_fmap_ext. intros _ c' _. by apply same_waiters_woken.
  - rewrite Hp2, Hp1, Hc1. rewrite Htd at 2. rewrite sum_counts_app. lia.
Qed.

Lemma kernel_completes_safe log cs u : uring_safe log u →
  uring_safe log (foldl (λ u c, kernel_completes c.1 c.2 u) u cs) ∧ (length (ur_cq (foldl (λ u c, kernel_completes c.1 c.2 u) u cs)) <= length (ur_cq u) + length cs)%nat ∧
  ur_scheduled (foldl (λ u c, kernel_completes c.1 c.2 u) u cs) = ur_scheduled u ∧ ur_pending (foldl (λ u c, kernel_completes c.1 c.2 u) u cs) = ur_pending u.
Proof.
  revert u. induction cs as [|c cs IH]; intros u Hs; cbn [foldl length]; [split_and!; [done|lia|done..]|].
  assert (uring_safe log (kernel_completes c.1 c.2 u)) as Hs1 by (unfold kernel_completes; case_match; [by destruct Hs|done]).
  destruct (IH _ Hs1) as (? & Hl & -> & ->). assert (length (ur_cq (kernel_completes c.1 c.2 u)) <= length (ur_cq u) + 1)%nat.
  { unfold kernel_completes. case_match; [cbn; rewrite length_app; simpl; lia|lia]. }
  split_and!; [done|lia|..]; unfold kernel_completes; by case_match.
Qed.

(** [wait_for] comes back with an empty completion queue; it says whether it found something, at
    once or after blocking; every completion has queued its coroutine, in the order of the
    completions, and was counted. *)
Theorem wait_for_drains log fuel answers blocked u :
  uring_safe log u → (length (ur_cq u) + length blocked < fuel)%nat →
  let v := if decide (ur_cq u = []) then foldl (λ u c, kernel_completes c.1 c.2 u) u blocked else u in
  ∃ u', wait_for fuel answers blocked u = Some (if decide (ur_cq v = []) then 0 else 1, u') ∧ ur_cq u' = [] ∧
    ur_scheduled u' = ur_scheduled u ++ concat (woken v <$> ur_cq v) ∧ ur_pending u' = ur_pending u - sum_counts (ur_cq v).
Proof.
  intros Hs Hf v. unfold wait_for.
  destruct (drain_cq_spec log answers fuel 0 u Hs) as (u1 & Hd & Hs1 & Hc1 & Hw1 & Hsc1 & Hp1); [lia|]. rewrite Hd. cbn [mbind option_bind].
  subst v. destruct (decide (ur_cq u = [])) as [Hnil|Hne].
  2:{ rewrite (decide_False (P := ur_cq u = [])) by done. rewrite decide_False by (destruct (ur_cq u); done). exists u1. done. }
  rewrite Hnil in *. rewrite decide_True by done.
  assert (u1 = u) as ->. { destruct fuel; [done|]. cbn in Hd. rewrite Hnil in Hd. by injection Hd as <-. }
  destruct (kernel_completes_safe log blocked u Hs) as (Hsv & Hlv & Hscv & Hpv). set (v := foldl _ u blocked) in *. rewrite Hnil in Hlv. cbn in Hlv, Hf.
  destruct (ur_cq v) as [|c rest] eqn:Hv; [exists v; cbn; rewrite app_nil_r, Z.sub_0_r; done|]. rewrite decide_False by done.
  destruct (process_batch_spec log answers [c] rest 0 v Hsv Hv) as (u2 & -> & Hs2 & Hc2 & Hw2 & Hsc2 & Hp2). cbn [mbind option_bind].
  destruct (drain_cq_spec log answers fuel (0 + length [c]) u2 Hs2) as (u3 & -> & Hs3 & Hc3 & Hw3 & Hsc3 & Hp3); [rewrite Hc2; cbn in Hlv; lia|].
  exists u3. cbn [mbind option_bind]. split_and!; [done|done| |].
  - rewrite Hsc3, Hsc2, Hscv, Hc2, <- app_assoc. f_equal. cbn. rewrite app_nil_r. do 2 f_equal. apply list_fmap_ext. intros _ c' _. by apply same_waiters_woken.
  - rewrite Hp3, Hp2, Hpv, Hc2. cbn. fold (sum_counts rest). lia.
Qed.

(** [close] on a descriptor asks the kernel to cancel every operation on it. *)
Theorem close_cancels_all log a fd u :
  uring_safe log u → leftover u = [] → a = TakesAll → 0 ≤ fd → (length (fd_targets fd u) <= 2 ^ log)%nat →
  ur_kernel (cancel_fd_ops a fd u) = ur_kernel u ++ cancel_entries (fd_targets fd u) ∧
  (∀ p, p ∈ fd_targets fd u ↔ p ∈ ur_tracked u ∧ (uo_fd <$> ur_ops u !! p) = Some fd).
Proof.
  intros Hs Hl Ha Hfd Hn. destruct (close_fd_moves log a fd u (us_ring _ _ Hs)) as (es & Hm & Hl' & Hes & _).
  destruct (moves_all log es u _ Hm Hl (Hl' Ha Hl)) as (-> & _). rewrite (Hes Hfd), Hl, Nat.sub_0_r, take_ge by done.
  split; [done|]. intros p. unfold fd_targets. rewrite list_elem_of_filter, elem_of_elements. tauto.
Qed.

(** ** [current_uring] *)

(** The calls of a thread: what the loop's source is, its epoch, and what the addresses hold. *)
Record uring_call : Type := mkCall { uc_cast : loc → bool; uc_src : loc; uc_epoch : Z }.
Fixpoint call_uring (cs : list uring_call) (m : uring_memo) : list (option loc) :=
  match cs with
  | [] => []
  | c :: cs => let '(r, m) := current_uring (uc_cast c) (uc_src c) (uc_epoch c) m in r :: call_uring cs m
  end.

(** For one loop the memo is right: a source stays what it is while the epoch does not change, and
    an epoch that has passed does not come again. *)
Definition one_loop (cs : list uring_call) : Prop :=
  ∀ i j c d, cs !! i = Some c → cs !! j = Some d → uc_epoch c = uc_epoch d → uc_src c = uc_src d ∧ uc_cast c (uc_src c) = uc_cast d (uc_src d).

Lemma call_uring_right cs m c0 :
  (mm_src m = 0%nat ∨ mm_src m = uc_src c0 ∧ mm_epoch m = uc_epoch c0 ∧ mm_typed m = if uc_cast c0 (uc_src c0) then Some (uc_src c0) else None) →
  one_loop (c0 :: cs) → Forall (λ c, uc_src c ≠ 0%nat) cs →
  call_uring cs m = (λ c, if uc_cast c (uc_src c) then Some (uc_src c) else None) <$> cs.
Proof.
  revert m c0. induction cs as [|c cs IH]; intros m c0 Hm Hone Hz; [done|]. apply Forall_cons in Hz as [Hc Hz].
  cbn [call_uring fmap list_fmap]. unfold current_uring. set (m' := if decide _ then m else _).
  assert (mm_typed m' = (if uc_cast c (uc_src c) then Some (uc_src c) else None) ∧ mm_src m' = uc_src c ∧ mm_epoch m' = uc_epoch c) as (Ht & Hs & He).
  { unfold m'. case_decide as Hd; [|done]. destruct Hd as [Hd1 Hd2]. destruct Hm as [Hm|(Hm1 & Hm2 & Hm3)]; [congruence|].
    split; [|done]. rewrite Hm3. destruct (Hone 0%nat 1%nat c0 c eq_refl eq_refl) as [Hsrc ->]; [congruence|]. by rewrite Hsrc. }
  f_equal; [done|]. apply (IH m' c); [auto| |done].
  intros i j a b Ha Hb. by apply (Hone (S i) (S j)).
Qed.

(** ** Findings: a cancel request reuses the data of its entry; a poll is thrown away *)

#[local] Abbreviation recv p h fd u := (uring_await_suspend false OpRecv fd 16 TakesAll h p u).
Definition add_op p u : uring := ur_set_ops (<[p := mkOp null_handle 0 0 (-1) false]> (ur_ops u)) u.

(** Two reads under way on a ring of two entries; the second is cancelled. *)
Definition demo_read : uring := recv 7%nat 70%nat 4 (add_op 7 (uring_init 2 true TakesAll)).
Definition demo_two : uring := recv 9%nat 90%nat 5 (add_op 9 demo_read).
Definition demo_cancelled : uring := kernel_completes 3 0 (submit_uring_cancel TakesAll 9 demo_two).

Lemma no_continuation h (m : gmap op_ptr uring_op) :
  bool_decide (map_Forall (λ _ o, uo_continuation o ≠ h) m) = true → ∀ q o', m !! q = Some o' → uo_continuation o' ≠ h.
Proof. intros Hb. by apply bool_decide_eq_true in Hb. Qed.

Lemma demo_read_reachable cd : uring_reachable cd 1 true (mkSys demo_read {[7%nat]}).
Proof.
  exists TakesAll. split; [done|]. eapply rtc_l; [apply (StNew cd _ _ 7); [done|by apply not_elem_of_dom_2|vm_compute; set_solver]|].
  apply rtc_once. rewrite <- (right_id_L ∅ (∪) {[7%nat]}).
  eapply (StSuspend cd); [by vm_compute|done..|vm_compute; set_solver|by apply no_continuation|done].
Qed.

Definition demo_sys : uring_sys := mkSys demo_two ({[9%nat]} ∪ {[7%nat]}).
Lemma demo_two_reachable cd : uring_reachable cd 1 true demo_sys.
Proof.
  unfold demo_sys.
  destruct (demo_read_reachable cd) as (a & Ha & Hr). exists a. split; [done|]. etrans; [exact Hr|].
  eapply rtc_l; [apply (StNew cd _ _ 9); [done|by apply not_elem_of_dom_2|vm_compute; set_solver]|].
  apply rtc_once. eapply (StSuspend cd); [by vm_compute|done..|vm_compute; set_solver|by apply no_continuation|done].
Qed.

(** The completion of the cancel request is taken for that of the first read: its coroutine is
    resumed with 0, the end of the stream, while the kernel still has its buffer, and the counter is
    one too low. *)
Lemma cancel_reuses_data :
  uring_reachable (mkConditions true false true) 1 true (mkSys demo_cancelled ({[9%nat]} ∪ {[7%nat]})) ∧
  ∃ u', process_cqe TakesAll (7%nat, 0) (ur_set_cq [] demo_cancelled) = Some u' ∧ ur_cq demo_cancelled = [(7%nat, 0)] ∧
    ur_scheduled u' = [70%nat] ∧ (uo_result <$> ur_ops u' !! 7%nat) = Some 0 ∧ in_flight u' = [7%nat; 9%nat] ∧ ur_pending u' = 1.
Proof.
  split.
  - destruct (demo_two_reachable (mkConditions true false true)) as (a & Ha & Hr). exists a. split; [done|]. etrans; [exact Hr|].
    eapply rtc_l; [apply (StCancel (mkConditions true false true) demo_two _ TakesAll 9%nat); [set_solver|intros [=]|intros _; reflexivity]|]. apply rtc_once. eapply StKernel; [vm_compute; reflexivity|cbn; lia].
  - eexists. split; [vm_compute; reflexivity|]. done.
Qed.

(** A source that nothing will wake: the poll is nowhere. *)
Record deaf u : Prop := {
  df_left : Forall (λ e, is_wake (sqe_req e) = false) (leftover u);
  df_kernel : Forall (λ e, is_wake (sqe_req e) = false ∧ (is_io (sqe_req e) = true → sqe_data e ≠ 0%nat)) (ur_kernel u);
  df_cq : wake_cqes (ur_cq u) = [];
  df_null : 0%nat ∉ dom (ur_ops u);
}.

Lemma deaf_moves log es u u' :
  deaf u → Forall (λ e, is_io (sqe_req e) = false) (leftover u) → ring_moves log es u u' →
  Forall (λ e, is_wake (sqe_req e) = false ∧ is_io (sqe_req e) = false) es → deaf u'.
Proof.
  intros [Hl Hk Hc Hz] Hio (sq & k & -> & _ & _ & Heq) Hes. split; cbn [ur_sq ur_kernel ur_cq ur_ops ur_take ur_set_sq]; try done.
  - assert (Forall (λ e, is_wake (sqe_req e) = false) (leftover u ++ es)) as Hal.
    { apply Forall_app. split; [done|]. eapply Forall_impl; [done|]. by intros e [? _]. }
    rewrite Heq in Hal. by apply Forall_app in Hal as [_ ?].
  - apply Forall_app. split; [done|].
    assert (Forall (λ e, is_wake (sqe_req e) = false ∧ is_io (sqe_req e) = false) (leftover u ++ es)) as Hal.
    { apply Forall_app. split; [|done]. apply Forall_and. done. }
    rewrite Heq in Hal. apply Forall_app in Hal as [Hal _]. eapply Forall_impl; [done|]. by intros e [? ->].
Qed.

Lemma deaf_suspend log both opcode fd len a h p o u :
  deaf u → uring_safe log u → ur_ops u !! p = Some o → deaf (uring_await_suspend both opcode fd len a h p u).
Proof.
  intros [Hl Hk Hc Hz] Hsafe Ho. assert (p ≠ 0%nat) as Hp by (intros ->; apply Hz; by eapply elem_of_dom_2).
  pose proof (us_left _ _ Hsafe) as Hio.
  assert (∀ o', 0%nat ∉ dom (<[p := o']> (ur_ops u))) as Hz'.
  { intros o'. rewrite dom_insert. intros [?%elem_of_singleton|?]%elem_of_union; [congruence|done]. }
  assert (Forall (λ e, is_wake (sqe_req e) = false ∧ (is_io (sqe_req e) = true → sqe_data e ≠ 0%nat)) (leftover u)) as Hlk.
  { apply Forall_and. split; [done|]. eapply Forall_impl; [done|]. by intros e ->. }
  destruct (await_suspend_spec log both opcode fd len a h p o u (us_ring _ _ Hsafe) Ho) as [sq ? ? Hnil|sq k l res ? ? Heq Hsuf ? ?|Hfull];
    split; cbn [ur_ops ur_kernel ur_cq]; try done.
  - change (Forall (λ e, is_wake (sqe_req e) = false) (sq_local sq)). rewrite Hnil. constructor.
  - apply Forall_app. split; [done|]. apply Forall_app. split; [done|]. repeat constructor. done.
  - change (Forall (λ e, is_wake (sqe_req e) = false) (sq_local sq)). rewrite Heq in Hl. apply Forall_app in Hl as [_ Hl].
    destruct Hsuf as [l' ->]. by apply Forall_app in Hl as [_ ?].
  - apply Forall_app. split; [done|]. rewrite Heq in Hlk. by apply Forall_app in Hlk as [? _].
Qed.

Lemma deaf_step log cd s s' : uring_step cd s s' → uring_safe log (sy_u s) → deaf (sy_u s) → deaf (sy_u s').
Proof.
  intros Hstep Hsafe Hs. pose proof (us_left _ _ Hsafe) as Hio. destruct Hstep as [u w p Hp Hd Hf|u w both opcode fd len a h p o Ho Hc Hu Hh Hsh Hfr Ha|u w a p _ _ Ha|u w a fd Ha
    |u w i e res He Hans|u w a [p res] cq u' Hc Hpr Ha|u w|u w p o l1 l2 Hp Ho Hsc|u w p o Ho]; cbn [sy_u] in *.
  - destruct Hs. split; try done. cbn [ur_ops ur_set_ops]. rewrite dom_insert. intros [?%elem_of_singleton|?]%elem_of_union; [congruence|done].
  - by eapply deaf_suspend.
  - destruct (cancel_moves log a p u (us_ring _ _ Hsafe)) as (es & Hm & _ & Hes). eapply deaf_moves; [done..|].
    eapply Forall_impl; [done|]. by intros e [-> _].
  - destruct (close_fd_moves log a fd u (us_ring _ _ Hsafe)) as (es & Hm & _ & _ & Hes). eapply deaf_moves; [done..|].
    eapply Forall_impl; [done|]. by intros e [[q ->] _].
  - destruct Hs as [Hl Hk Hcq Hz]. unfold kernel_completes. rewrite He. split; cbn [ur_kernel ur_cq]; try done; [by apply Forall_delete|].
    eapply Forall_lookup_1 in Hk; [|done]. destruct Hk as [Hw Hd]. rewrite filter_app, Hcq. cbn [app]. rewrite filter_cons_False, filter_nil; [done|]. cbn.
    intros [Hd0 Hr]. destruct (sqe_req e); cbn in *; [lia|done|lia|by apply Hd].
  - destruct Hs as [Hl Hk Hcq Hz]. rewrite Hc in Hcq. assert (wake_cqes cq = [] ∧ ¬ (p = 0%nat ∧ 0 < res)) as [Hcq' Hno].
    { destruct (decide (p = 0%nat ∧ 0 < res)) as [Hy|Hn]; [by rewrite filter_cons_True in Hcq|]. by rewrite filter_cons_False in Hcq. }
    apply process_cqe_cases in Hpr as [(-> & Hw & Hres & ->)|[(-> & Hor & ->)|[(Hp & _ & ->)|(Hp & _ & o & Ho & ->)]]]; [naive_solver|split; done|split; done|].
    split; try done. cbn [ur_ops]. rewrite dom_insert_lookup; [done|]. by eexists.
  - unfold wake. case_match; [by destruct Hs|done].
  - by destruct Hs.
  - destruct Hs, (uo_uring o); split; try done; cbn [ur_ops ur_set_ops untrack_op ur_set_tracked]; rewrite dom_delete; set_solver.
Qed.

(** Two submissions fail with EAGAIN: the one that arms the poll again, and the next. *)
Definition demo_woken : uring := kernel_completes 0 1 (wake (uring_init 2 true TakesAll)).
Definition demo_unarmed : uring := submit_wake_poll (EnterFails EAGAIN) (ur_set_eventfd 0 (ur_set_cq [] demo_woken)).
Definition demo_deaf : uring := uring_await_suspend false OpRecv 4 16 (EnterFails EAGAIN) 70 7 (add_op 7 demo_unarmed).

Lemma demo_deaf_reachable cd : cd_full cd = false → uring_reachable cd 1 true (mkSys demo_deaf {[7%nat]}).
Proof.
  intros Hcd. exists TakesAll. split; [done|]. eapply rtc_l; [apply StWake|].
  eapply rtc_l; [apply (StKernel cd _ _ 0 (mkSqe ReqPollWake 0) 1); [done|vm_compute; done]|].
  eapply rtc_l; [apply (StProcess cd demo_woken ∅ (EnterFails EAGAIN) (0%nat, 1) [] demo_unarmed); [done|done|by rewrite Hcd]|].
  eapply rtc_l; [apply (StNew cd _ _ 7); [done|by apply not_elem_of_dom_2|vm_compute; set_solver]|].
  apply rtc_once. rewrite <- (right_id_L ∅ (∪) {[7%nat]}).
  eapply (StSuspend cd); [by vm_compute|done..|vm_compute; set_solver|by apply no_continuation|by rewrite Hcd].
Qed.

Lemma deaf_reachable log cd s0 s :
  rtc (uring_step cd) s0 s → uring_safe log (sy_u s0) → deaf (sy_u s0) →
  wakes (ur_kernel (sy_u s)) = [] ∧ wake_cqes (ur_cq (sy_u s)) = [] ∧ wakes (leftover (sy_u s)) = [].
Proof.
  intros Hr Hs Hd. assert (deaf (sy_u s)) as [Hl Hk Hc _] by (induction Hr; eauto using deaf_step, safe_step).
  split_and!; [|done|by apply wakes_none]. apply wakes_none. eapply Forall_impl; [done|]. by intros e [? _].
Qed.

(** The failed submission throws the poll away with its own request, and nothing arms it again: no
    call of [wake] ends a wait after that. *)
Lemma wake_poll_lost :
  uring_reachable (mkConditions true true false) 1 true (mkSys demo_deaf {[7%nat]}) ∧
  ∀ s, rtc (uring_step (mkConditions true true false)) (mkSys demo_deaf {[7%nat]}) s →
    wakes (ur_kernel (sy_u s)) = [] ∧ wake_cqes (ur_cq (sy_u s)) = [] ∧ wakes (leftover (sy_u s)) = [].
Proof.
  pose proof (demo_deaf_reachable (mkConditions true true false) eq_refl) as Hre. split; [exact Hre|]. intros s Hr.
  refine (deaf_reachable 1 _ _ s Hr (reachable_safe _ 1 true _ (ltac:(lia)) Hre) _). cbn [sy_u].
  split; [vm_compute; constructor|vm_compute; constructor|vm_compute; reflexivity|apply not_elem_of_dom_2; vm_compute; reflexivity].
Qed.

(** A thread that always runs the same loop gets what [dynamic_cast] would give. *)
Theorem current_uring_right cs :
  one_loop cs → Forall (λ c, uc_src c ≠ 0%nat) cs →
  call_uring cs memo_init = (λ c, if uc_cast c (uc_src c) then Some (uc_src c) else None) <$> cs.
Proof.
  intros Hone Hz. destruct cs as [|c cs]; [done|]. apply (call_uring_right _ _ c); [by left| |done].
  intros i j a b Ha Hb. assert (∀ k d, (c :: c :: cs) !! k = Some d → ∃ k', (c :: cs) !! k' = Some d) as Hk by (intros [|k] d Hd; [by exists 0%nat|by exists k]).
  destruct (Hk i a Ha) as [i' Hi], (Hk j b Hb) as [j' Hj]. by apply (Hone i' j').
Qed.

(** A second loop on the same thread starts with the same epoch 0: when its source, of another class,
    gets the address of the first one's, the memo still answers with it. *)
Lemma memo_other_loop :
  call_uring [mkCall (λ p, bool_decide (p = 8%nat)) 8 0; mkCall (λ _, false) 8 0] memo_init = [Some 8%nat; Some 8%nat].
Proof. reflexivity. Qed.

Lemma uring_memory_safe_witness :
  is_Some (process_cqe TakesAll (7%nat, 4) (sy_u demo_sys)) ∧ Forall (λ e, is_io (sqe_req e) = false) (published (ur_sq (sy_u demo_sys))).
Proof.
  exact (uring_memory_safe (mkConditions false false false) 1 true demo_sys TakesAll (7%nat, 4)
    (ltac:(lia)) (demo_two_reachable _)).
Defined.


Lemma uring_wakes_witness :
  let u := wake (sy_u demo_sys) in
  (∃ res, 0 < res ∧ (0%nat, res) ∈ ur_cq u) ∨
  (∃ i e, ur_kernel u !! i = Some e ∧ sqe_req e = ReqPollWake ∧ sqe_data e = 0%nat ∧ kernel_answer (sqe_req e) (ur_eventfd u) 1).
Proof.
  exact (uring_wakes (mkConditions true true true) 1 demo_sys (ltac:(lia)) eq_refl (demo_two_reachable _)).
Defined.

Lemma wait_for_drains_witness :
  ∃ u', wait_for 4 (λ _, TakesAll) [(1%nat, 16)] (sy_u demo_sys) = Some (1, u') ∧ ur_cq u' = [] ∧ ur_scheduled u' = [70%nat] ∧ ur_pending u' = 1.
Proof.
  destruct (wait_for_drains 1 4 (λ _, TakesAll) [(1%nat, 16)] (sy_u demo_sys)) as (u' & Hw & Hc & Hs & Hp).
  - apply (reachable_safe (mkConditions true true true) 1 true demo_sys); [lia|apply demo_two_reachable].
  - vm_compute. lia.
  - exists u'. split_and!; [exact Hw|exact Hc|rewrite Hs; reflexivity|rewrite Hp; reflexivity].
Defined.

Lemma current_uring_right_witness :
  call_uring [mkCall (λ _, true) 8 0; mkCall (λ _, true) 8 0; mkCall (λ _, false) 5 1] memo_init = [Some 8%nat; Some 8%nat; None].
Proof.
  rewrite current_uring_right; [reflexivity| |by repeat constructor].
  intros [|[|[|i]]] [|[|[|j]]] c d; cbn; intros [= <-] [= <-]; done.
Defined.

Lemma close_cancels_all_witness :
  ur_kernel (cancel_fd_ops TakesAll 5 (sy_u demo_sys)) = ur_kernel (sy_u demo_sys) ++ [mkSqe (ReqCancel 9) 0].
Proof.
  refine (proj1 (close_cancels_all 1 TakesAll 5 (sy_u demo_sys) _ _ eq_refl _ _)).
  - apply (reachable_safe (mkConditions true true true) 1 true demo_sys); [lia|apply demo_two_reachable].
  - vm_compute. reflexivity.
  - lia.
  - vm_compute. lia.
Defined.
