(* ===== verification/IocpM.v ===== *)
(** * IocpM: the event source of the I/O completion port

    [IocpEventSource] of [src/include/coro/iocp_event_source.hpp], with the [await_suspend] that the
    operations of [net_iocp.hpp], [pipe.hpp] and [fs.hpp] share.  The port is a queue of packets; the
    kernel completes the requests it holds in any order.  [rtl] is [RtlNtStatusToDosError], which
    [GetQueuedCompletionStatus] applies itself; the code looks it up and may not find it. *)

From S2P Require Import Prelude.
From stdpp Require Import options.
#[local] Set Default Proof Using "Type*".

Local Open Scope Z_scope.

(** [detail::iocp_op], by address. *)
Record iocp_op : Type := mkIop { io_continuation : handle; io_error : Z; io_transferred : Z }.

(** A packet: [None] is a null [OVERLAPPED]. *)
Record packet : Type := mkPacket { pk_op : option nat; pk_key : Z; pk_status : Z; pk_bytes : Z }.

Definition WAKE_KEY : Z := 1.
Definition DRAIN_BATCH : nat := 128.
Definition INFINITE : Z := 2 ^ 32 - 1.
Definition ERROR_OPERATION_ABORTED : Z := 995.

(** The members; the port and the requests the kernel holds, the objects that exist, and the handles
    given to the loop. *)
Record iocp : Type := mkIocp {
  ic_queue : list packet;
  ic_kernel : list nat;
  ic_pending : Z;
  ic_ops : gmap nat iocp_op;
  ic_scheduled : list handle;
}.
Implicit Types (c : iocp) (p : nat) (k : packet).

Definition iocp_init : iocp := mkIocp [] [] 0 ∅ [].

(** The timeout that [GetQueuedCompletionStatus] gets. *)
Definition wait_ms (timeout : Z) : Z :=
  if INFINITE - 1 <? timeout then INFINITE - 1 else timeout `mod` 2 ^ 32.

Definition iocp_op_start c : iocp := mkIocp (ic_queue c) (ic_kernel c) (ic_pending c + 1) (ic_ops c) (ic_scheduled c).
Definition iocp_has_pending c : bool := 0 <? ic_pending c.
Definition iocp_wake c : iocp := mkIocp (ic_queue c ++ [mkPacket None WAKE_KEY 0 0]) (ic_kernel c) (ic_pending c) (ic_ops c) (ic_scheduled c).
Definition ic_set_queue q c : iocp := mkIocp q (ic_kernel c) (ic_pending c) (ic_ops c) (ic_scheduled c).

(** [deliver]; [None] is a write to an object that is gone. *)
Definition deliver p (error bytes : Z) c : option iocp :=
  o ← ic_ops c !! p;
  Some (mkIocp (ic_queue c) (ic_kernel c) (ic_pending c - 1) (<[p := mkIop (io_continuation o) error bytes]> (ic_ops c))
          (if decide (io_continuation o = null_handle) then ic_scheduled c else ic_scheduled c ++ [io_continuation o])).

Section port.
Context (rtl : Z → Z) (found : bool).

Definition ntstatus_to_win32 (status : Z) : Z := if found then rtl status else ERROR_OPERATION_ABORTED.

(** [drain_ready]: the packets of one batch, and the function. *)
Fixpoint drain_packets (ks : list packet) c : option iocp :=
  match ks with
  | [] => Some c
  | k :: ks =>
      match pk_op k with
      | None => drain_packets ks c
      | Some p =>
          c ← deliver p (if decide (pk_status k = 0) then 0 else ntstatus_to_win32 (pk_status k)) (pk_bytes k) c;
          drain_packets ks c
      end
  end.
Definition drain_ready c : option iocp := drain_packets (take DRAIN_BATCH (ic_queue c)) (ic_set_queue (drop DRAIN_BATCH (ic_queue c)) c).

(** [wait_for], when the port has [ic_queue] after the call has blocked. *)
Definition iocp_wait_for c : option (Z * iocp) :=
  match ic_queue c with
  | [] => Some (0, c)
  | k :: q =>
      let c := ic_set_queue q c in
      match pk_op k with
      | Some p =>
          c ← deliver p (if decide (pk_status k = 0) then 0 else rtl (pk_status k)) (pk_bytes k) c;
          c ← drain_ready c;
          Some (1, c)
      | None => Some (if decide (pk_status k = 0 ∧ pk_key k = WAKE_KEY) then 1 else 0, c)
      end
  end.
End port.

(** The [await_suspend] of an operation: [started] is whether the call has begun or is complete, or
    the error it failed with. *)
Definition iocp_await_suspend (started : option Z) (h : handle) p c : iocp :=
  match ic_ops c !! p with
  | None => c
  | Some o =>
      let o := mkIop h (io_error o) (io_transferred o) in
      match started with
      | None => iocp_op_start (mkIocp (ic_queue c) (ic_kernel c ++ [p]) (ic_pending c) (<[p := o]> (ic_ops c)) (ic_scheduled c))
      | Some e =>
          mkIocp (ic_queue c) (ic_kernel c) (ic_pending c) (<[p := mkIop h e (io_transferred o)]> (ic_ops c)) (ic_scheduled c ++ [h])
      end
  end.

(** The requests under way and the packets of requests. *)
Definition iocp_in_flight c : list nat := ic_kernel c ++ omap pk_op (ic_queue c).

(** The kernel completes a request. *)
Definition iocp_completes (i : nat) (status bytes : Z) c : iocp :=
  match ic_kernel c !! i with
  | Some p => mkIocp (ic_queue c ++ [mkPacket (Some p) 0 status bytes]) (delete i (ic_kernel c)) (ic_pending c) (ic_ops c) (ic_scheduled c)
  | None => c
  end.

(** ** Steps *)

(** The source with the operations whose coroutines wait.  An object is not destroyed while its
    request is under way: this is what [net.hpp] asks of the code above. *)
Record iocp_sys : Type := mkISys { is_c : iocp; is_wait : gset nat }.

Inductive iocp_step (rtl : Z → Z) (found : bool) : iocp_sys → iocp_sys → Prop :=
  | IoNew c w p : p ∉ dom (ic_ops c) → iocp_step rtl found (mkISys c w) (mkISys (mkIocp (ic_queue c) (ic_kernel c) (ic_pending c) (<[p := mkIop null_handle 0 0]> (ic_ops c)) (ic_scheduled c)) w)
  | IoSuspend c w p o started h :
      ic_ops c !! p = Some o → io_continuation o = null_handle → h ≠ null_handle → h ∉ ic_scheduled c →
      (∀ q o', ic_ops c !! q = Some o' → io_continuation o' ≠ h) →
      iocp_step rtl found (mkISys c w) (mkISys (iocp_await_suspend started h p c) ({[p]} ∪ w))
  | IoKernel c w i status bytes : iocp_step rtl found (mkISys c w) (mkISys (iocp_completes i status bytes c) w)
  | IoWake c w : iocp_step rtl found (mkISys c w) (mkISys (iocp_wake c) w)
  | IoWait c w r c' : iocp_wait_for rtl found c = Some (r, c') → iocp_step rtl found (mkISys c w) (mkISys c' w)
  | IoResume c w p o l1 l2 :
      p ∈ w → ic_ops c !! p = Some o → ic_scheduled c = l1 ++ io_continuation o :: l2 →
      iocp_step rtl found (mkISys c w) (mkISys (mkIocp (ic_queue c) (ic_kernel c) (ic_pending c) (ic_ops c) (l1 ++ l2)) (w ∖ {[p]}))
  | IoDestroy c w p :
      p ∉ iocp_in_flight c →
      iocp_step rtl found (mkISys c w) (mkISys (mkIocp (ic_queue c) (ic_kernel c) (ic_pending c) (delete p (ic_ops c)) (ic_scheduled c)) (w ∖ {[p]})).

(** [fl] are the requests under way. *)
Record ok_with (fl : list nat) c (w : gset nat) : Prop := {
  io_nodup : NoDup fl;
  io_pending : ic_pending c = Z.of_nat (length fl);
  io_live : ∀ p, p ∈ fl → p ∈ w;
  io_wait : ∀ p, p ∈ w → ∃ o, ic_ops c !! p = Some o ∧ io_continuation o ≠ null_handle ∧
    (p ∈ fl ∧ (io_continuation o ∉ ic_scheduled c) ∨ (p ∉ fl) ∧ io_continuation o ∈ ic_scheduled c);
  io_inj : ∀ p q o o', ic_ops c !! p = Some o → ic_ops c !! q = Some o' →
    io_continuation o = io_continuation o' → io_continuation o ≠ null_handle → p = q;
  io_sched : NoDup (ic_scheduled c);
}.
Definition iocp_ok (s : iocp_sys) : Prop := ok_with (iocp_in_flight (is_c s)) (is_c s) (is_wait s).

#[local] Instance ok_with_proper : Proper ((≡ₚ) ==> eq ==> eq ==> impl) ok_with.
Proof.
  intros fl fl' Hp c _ <- w _ <- [Hn Hpe Hl Hw Hi Hs]. split; try done; try by rewrite <- Hp.
  - intros p. rewrite <- Hp. apply Hl.
  - intros p Hpw. destruct (Hw p Hpw) as (o & ? & ? & Hc). exists o. by rewrite <- Hp.
Qed.

(** A change of the queue or of what the kernel holds. *)
Lemma ok_with_other fl c w q ks : ok_with fl c w → ok_with fl (mkIocp q ks (ic_pending c) (ic_ops c) (ic_scheduled c)) w.
Proof. by intros []. Qed.

Lemma deliver_ok fl p e b c w :
  ok_with (p :: fl) c w → ∃ c', deliver p e b c = Some c' ∧ ok_with fl c' w ∧ ic_queue c' = ic_queue c ∧ ic_kernel c' = ic_kernel c.
Proof.
  intros [Hn Hpe Hl Hw Hi Hs]. destruct (Hw p (Hl p ltac:(set_solver))) as (o & Ho & Hcn & Hcase).
  assert (io_continuation o ∉ ic_scheduled c) as Hsh by (destruct Hcase as [[_ ?]|[Hno _]]; [done|set_solver]). clear Hcase.
  unfold deliver. rewrite Ho. cbn [mbind option_bind]. rewrite decide_False by done. eexists. split; [done|]. split; [|done].
  apply NoDup_cons in Hn as [Hpn Hn]. split; cbn [ic_pending ic_ops ic_scheduled].
  - done.
  - rewrite Hpe. cbn [length]. lia.
  - intros q Hq. apply Hl. set_solver.
  - intros q Hq. destruct (decide (q = p)) as [->|].
    + eexists. rewrite lookup_insert_eq. split_and!; [done..|]. right. cbn. set_solver.
    + destruct (Hw q Hq) as (oq & Hoq & Hcq & Hcase). exists oq. rewrite lookup_insert_ne by done. split_and!; [done..|].
      assert (io_continuation oq ≠ io_continuation o) by (intros Heq; by apply (Hi q p oq o) in Heq). set_solver.
  - intros q q' oq oq'. destruct (decide (q = p)) as [->|], (decide (q' = p)) as [->|]; rewrite ?lookup_insert_eq, ?lookup_insert_ne by done.
    + done.
    + intros [= <-] Hq'. exact (Hi p q' o oq' Ho Hq').
    + intros Hq [= <-]. exact (Hi q p oq o Hq Ho).
    + apply Hi.
  - apply NoDup_app. split_and!; [done|set_solver|apply NoDup_singleton].
Qed.

Lemma drain_packets_ok rtl found fl ks c w :
  ok_with (omap pk_op ks ++ fl) c w →
  ∃ c', drain_packets rtl found ks c = Some c' ∧ ok_with fl c' w ∧ ic_queue c' = ic_queue c ∧ ic_kernel c' = ic_kernel c.
Proof.
  revert c. induction ks as [|k ks IH]; intros c Hok; [by exists c|]. cbn [drain_packets]. cbn in Hok. destruct (pk_op k) as [p|]; [|by apply IH].
  destruct (deliver_ok _ p (if decide (pk_status k = 0) then 0 else ntstatus_to_win32 rtl found (pk_status k)) (pk_bytes k) c w Hok) as (c1 & -> & Hok1 & Hq1 & Hk1).
  cbn [mbind option_bind]. destruct (IH c1 Hok1) as (c2 & -> & Hok2 & Hq2 & Hk2). exists c2. split_and!; congruence || done.
Qed.

(** [wait_for] never writes to an object that is gone; it leaves what does not fit a batch. *)
Lemma wait_for_ok rtl found c w :
  ok_with (iocp_in_flight c) c w →
  ∃ r c', iocp_wait_for rtl found c = Some (r, c') ∧ ok_with (iocp_in_flight c') c' w ∧ ic_kernel c' = ic_kernel c ∧
    ic_queue c' = drop (match ic_queue c with k :: _ => match pk_op k with Some _ => S DRAIN_BATCH | None => 1 end | [] => 0 end) (ic_queue c) ∧
    (r = 0 ↔ match ic_queue c with k :: _ => pk_op k = None ∧ ¬ (pk_status k = 0 ∧ pk_key k = WAKE_KEY) | [] => True end).
Proof.
  intros Hok. unfold iocp_wait_for, iocp_in_flight in *. destruct (ic_queue c) as [|k q] eqn:Hq; [exists 0, c; rewrite Hq; done|].
  cbn [omap list_omap] in Hok. destruct (pk_op k) as [p|] eqn:Hp.
  - rewrite <- Permutation_middle in Hok.
    destruct (deliver_ok _ p (if decide (pk_status k = 0) then 0 else rtl (pk_status k)) (pk_bytes k) (ic_set_queue q c) w (ok_with_other _ _ _ q (ic_kernel c) Hok))
      as (c1 & -> & Hok1 & Hq1 & Hk1). cbn [mbind option_bind]. unfold drain_ready. rewrite Hq1. cbn [ic_queue ic_set_queue] in *.
    rewrite <- (take_drop DRAIN_BATCH q), omap_app, (Permutation_app_comm (omap pk_op (take _ _))), app_assoc, Permutation_app_comm in Hok1.
    destruct (drain_packets_ok rtl found _ (take DRAIN_BATCH q) (ic_set_queue (drop DRAIN_BATCH q) c1) w (ok_with_other _ _ _ _ _ Hok1)) as (c2 & -> & Hok2 & Hq2 & Hk2).
    exists 1, c2. cbn [mbind option_bind ic_queue ic_kernel ic_set_queue] in *. rewrite Hq2, Hk2, Hk1. split_and!; try done.
    split; [done|]. by intros [? _].
  - eexists _, (ic_set_queue q c). split; [done|]. split_and!; [by apply ok_with_other|done|done|]. case_decide; naive_solver.
Qed.

Lemma ok_suspend c w p o started h :
  ok_with (iocp_in_flight c) c w → ic_ops c !! p = Some o → io_continuation o = null_handle → h ≠ null_handle → (h ∉ ic_scheduled c) →
  (∀ q o', ic_ops c !! q = Some o' → io_continuation o' ≠ h) →
  iocp_ok (mkISys (iocp_await_suspend started h p c) ({[p]} ∪ w)).
Proof.
  intros [Hn Hpe Hl Hw Hi Hs] Ho Hc Hh Hsh Hfr. unfold iocp_await_suspend. rewrite Ho.
  assert (p ∉ w) as Hpw by (intros Hin; destruct (Hw p Hin) as (? & ? & ? & _); congruence).
  assert (p ∉ iocp_in_flight c) as Hpf by auto.
  assert (∀ q oq, ic_ops c !! q = Some oq → io_continuation oq ≠ h) as Hne by done.
  assert (∀ o', io_continuation o' = h → ∀ q q' oq oq', <[p := o']> (ic_ops c) !! q = Some oq → <[p := o']> (ic_ops c) !! q' = Some oq' →
    io_continuation oq = io_continuation oq' → io_continuation oq ≠ null_handle → q = q') as Hinj.
  { intros o' Ho' q q' oq oq'. destruct (decide (q = p)) as [->|], (decide (q' = p)) as [->|]; rewrite ?lookup_insert_eq, ?lookup_insert_ne by done.
    - done.
    - intros [= <-] Hq' Heq. exfalso. apply (Hne q' oq' Hq'). congruence.
    - intros Hq [= <-] Heq. exfalso. apply (Hne q oq Hq). congruence.
    - apply Hi. }
  destruct started as [e|].
  - change (iocp_in_flight _) with (iocp_in_flight c). split; cbn [is_c is_wait ic_pending ic_ops ic_scheduled]; try done; [set_solver| |by apply Hinj|].
    + intros q [->%elem_of_singleton|Hq]%elem_of_union; [eexists; rewrite lookup_insert_eq; split_and!; [done..|]; right; set_solver|].
      destruct (Hw q Hq) as (oq & Hoq & Hcq & Hcase). exists oq. rewrite lookup_insert_ne by (by intros ->). split_and!; [done..|].
      specialize (Hne q oq Hoq). set_solver.
    + apply NoDup_app. split_and!; [done|set_solver|apply NoDup_singleton].
  - unfold iocp_ok, is_c, is_wait, iocp_op_start. set (c' := mkIocp _ _ _ _ _).
    assert (iocp_in_flight c' ≡ₚ p :: iocp_in_flight c) as Hf.
    { unfold iocp_in_flight, c'. cbn [ic_kernel ic_queue]. rewrite <- app_assoc. symmetry. apply Permutation_middle. }
    rewrite Hf. split; cbn [ic_pending ic_ops ic_scheduled c']; [by apply NoDup_cons_2| |set_solver| |by apply Hinj|done].
    + rewrite Hpe. cbn [length]. lia.
    + intros q [->%elem_of_singleton|Hq]%elem_of_union; [eexists; rewrite lookup_insert_eq; split_and!; [done..|]; left; set_solver|].
      destruct (Hw q Hq) as (oq & Hoq & Hcq & Hcase). assert (q ≠ p) by (by intros ->). exists oq. rewrite lookup_insert_ne by done. split_and!; [done..|].
      set_solver.
Qed.

Lemma ok_resume c w p o l1 l2 :
  ok_with (iocp_in_flight c) c w → p ∈ w → ic_ops c !! p = Some o → ic_scheduled c = l1 ++ io_continuation o :: l2 →
  ok_with (iocp_in_flight c) (mkIocp (ic_queue c) (ic_kernel c) (ic_pending c) (ic_ops c) (l1 ++ l2)) (w ∖ {[p]}).
Proof.
  intros [Hn Hpe Hl Hw Hi Hs] Hpw Ho Hsc. destruct (Hw p Hpw) as (o' & Ho' & Hcn & Hcase). rewrite Ho in Ho'. injection Ho' as <-.
  assert (p ∉ iocp_in_flight c) as Hpf by (destruct Hcase as [[_ Hno]|[? _]]; [rewrite Hsc in Hno; set_solver|done]). rewrite Hsc in Hs, Hw.
  split; cbn [ic_pending ic_ops ic_scheduled]; try done.
  - intros q Hq. specialize (Hl q Hq). set_solver.
  - intros q [Hq Hqp]%elem_of_difference. destruct (Hw q Hq) as (oq & Hoq & Hcq & Hc). exists oq. split_and!; [done..|].
    assert (io_continuation oq ≠ io_continuation o) by (intros Heq; apply (Hi q p oq o Hoq Ho) in Heq; set_solver). set_solver.
  - rewrite <- Permutation_middle in Hs. by apply NoDup_cons in Hs as [_ ?].
Qed.

Lemma iocp_step_ok rtl found s s' : iocp_step rtl found s s' → iocp_ok s → iocp_ok s'.
Proof.
  intros Hstep Hok. destruct Hstep as [c w p Hp|c w p o started h Ho Hc Hh Hsh Hfr|c w i status bytes|c w|c w r c' Hw|c w p o l1 l2 Hp Ho Hsc|c w p Hp].
  - destruct Hok as [Hn Hpe Hl Hw Hi Hs]. unfold is_c, is_wait in *. split; cbn [is_c is_wait ic_pending ic_ops ic_scheduled]; try done.
    + intros q Hq. destruct (Hw q Hq) as (o & Ho & Hr). exists o. rewrite lookup_insert_ne; [done|]. intros <-. apply Hp. by eapply elem_of_dom_2.
    + intros q q' o o'. destruct (decide (q = p)) as [->|]; [rewrite lookup_insert_eq; intros [= <-] _ _ []; done|].
      rewrite (lookup_insert_ne _ p q) by done. intros Hq. destruct (decide (q' = p)) as [->|]; [|rewrite lookup_insert_ne by done; by apply Hi].
      rewrite lookup_insert_eq. intros [= <-] Heq Hne. by rewrite Heq in Hne.
  - by eapply ok_suspend.
  - unfold iocp_completes. cbn [is_c]. destruct (ic_kernel c !! i) as [p|] eqn:Hi; [|done]. unfold iocp_ok, is_c, is_wait in *.
    set (c' := mkIocp _ _ _ _ _). assert (iocp_in_flight c' ≡ₚ iocp_in_flight c) as Hf.
    { unfold iocp_in_flight, c'. cbn [ic_kernel ic_queue]. rewrite omap_app. cbn. rewrite (delete_Permutation (ic_kernel c) i p Hi) at 2.
      cbn. rewrite app_assoc, (Permutation_app_comm _ [p]). done. }
    rewrite Hf. by apply ok_with_other.
  - unfold iocp_ok, is_c, is_wait, iocp_wake in *. set (c' := mkIocp _ _ _ _ _).
    assert (iocp_in_flight c' = iocp_in_flight c) as Hf by (unfold iocp_in_flight, c'; cbn [ic_kernel ic_queue]; by rewrite omap_app, app_nil_r).
    rewrite Hf. by apply ok_with_other.
  - destruct (wait_for_ok rtl found c w Hok) as (r' & c1 & Hw' & Hok1 & _). rewrite Hw in Hw'. by injection Hw' as _ <-.
  - exact (ok_resume c w p o l1 l2 Hok Hp Ho Hsc).
  - destruct Hok as [Hn Hpe Hl Hw Hi Hs]. unfold is_c, is_wait in *. split; cbn [is_c is_wait ic_pending ic_ops ic_scheduled]; try done.
    + intros q Hq. change (iocp_in_flight _) with (iocp_in_flight c) in Hq. specialize (Hl q Hq). set_solver.
    + intros q [Hq Hqp]%elem_of_difference. destruct (Hw q Hq) as (o & Ho & Hr). exists o. rewrite lookup_delete_ne by set_solver. done.
    + intros q q' o o' [_ Hq]%lookup_delete_Some [_ Hq']%lookup_delete_Some. by apply Hi.
Qed.

Definition iocp_reachable (rtl : Z → Z) (found : bool) (s : iocp_sys) : Prop := rtc (iocp_step rtl found) (mkISys iocp_init ∅) s.

Lemma iocp_reachable_ok rtl found s : iocp_reachable rtl found s → iocp_ok s.
Proof.
  intros Hr. assert (iocp_ok (mkISys iocp_init ∅)) as Hi by (split; try done; try exact NoDup_nil_2; intros p Hp; by apply elem_of_nil in Hp).
  revert Hi. induction Hr; eauto using iocp_step_ok.
Qed.

(** [pending_ops_] is the number of requests under way; a coroutine that waits is under way or queued
    once; [wait_for] writes only to objects that exist, takes at most one packet and a batch, and
    comes back with 0 only when there was no packet: a packet of [wake] ends it. *)
Theorem iocp_exact rtl found s :
  iocp_reachable rtl found s →
  let c := is_c s in
  ic_pending c = Z.of_nat (length (iocp_in_flight c)) ∧ NoDup (iocp_in_flight c) ∧ NoDup (ic_scheduled c) ∧
  (∀ p, p ∈ is_wait s → ∃ o, ic_ops c !! p = Some o ∧
     (p ∈ iocp_in_flight c ∧ (io_continuation o ∉ ic_scheduled c) ∨ (p ∉ iocp_in_flight c) ∧ io_continuation o ∈ ic_scheduled c)) ∧
  (∃ r c', iocp_wait_for rtl found c = Some (r, c') ∧
     (length (ic_queue c) <= S DRAIN_BATCH + length (ic_queue c'))%nat ∧
     (∀ q, ic_queue c = mkPacket None WAKE_KEY 0 0 :: q → r ≠ 0)).
Proof.
  intros Hr c. pose proof (iocp_reachable_ok rtl found s Hr) as Hok. destruct Hok as [Hn Hp Hl Hw Hi Hs].
  split_and!; [done..| |].
  - intros p Hpw. destruct (Hw p Hpw) as (o & Ho & _ & Hc). by exists o.
  - destruct (wait_for_ok rtl found c (is_wait s)) as (r & c' & Hwf & _ & _ & Hq & Hr0); [by apply iocp_reachable_ok in Hr|].
    exists r, c'. split; [done|]. split.
    + rewrite Hq, length_drop. destruct (ic_queue c) as [|k q]; [simpl; lia|]. destruct (pk_op k); unfold DRAIN_BATCH; simpl length; lia.
    + intros q Hh. rewrite Hh in Hr0. cbn in Hr0. naive_solver.
Qed.

(** The timeout is a [DWORD]; a time that does not fit waits 49 days. *)
Lemma wait_ms_range timeout : 0 ≤ timeout → 0 ≤ wait_ms timeout < INFINITE ∧ (timeout < INFINITE → wait_ms timeout = timeout).
Proof.
  intros H. unfold wait_ms, INFINITE. destruct (Z.ltb_spec (2 ^ 32 - 1 - 1) timeout); [lia|]. rewrite Z.mod_small by lia. lia.
Qed.

(** The contract of [net.hpp] is needed: the completion of a request whose object is gone is written
    all the same; there is no list of objects as in the source for io_uring. *)
Lemma deliver_needs_object :
  let c := iocp_completes 0 0 4 (iocp_await_suspend None 70%nat 7 (mkIocp [] [] 0 {[7%nat := mkIop null_handle 0 0]} [])) in
  iocp_wait_for (λ x, x) true (mkIocp (ic_queue c) (ic_kernel c) (ic_pending c) ∅ []) = None.
Proof. reflexivity. Qed.

Definition demo_iocp : iocp := iocp_await_suspend None 70%nat 7 (mkIocp [] [] 0 {[7%nat := mkIop null_handle 0 0]} []).
Definition demo_iocp_sys : iocp_sys := mkISys demo_iocp {[7%nat]}.

Lemma iocp_exact_witness : ic_pending (is_c demo_iocp_sys) = Z.of_nat (length (iocp_in_flight (is_c demo_iocp_sys))).
Proof.
  refine (proj1 (iocp_exact (λ x, x) true demo_iocp_sys _)).
  unfold iocp_reachable, demo_iocp_sys. eapply rtc_l; [apply (IoNew _ _ iocp_init ∅ 7); set_solver|]. apply rtc_once.
  rewrite <- (right_id_L ∅ (∪) {[7%nat]}). eapply (IoSuspend _ _ _ _ 7 _ None 70%nat); [reflexivity|done..|cbn; set_solver|].
  cbn [ic_ops iocp_init]. intros q o' [[<- <-]|[_ Hq]]%lookup_insert_Some; [done|]. by rewrite lookup_empty in Hq.
Defined.
