(* ===== verification/WinArgs.v ===== *)
(** * WinArgs: the command line of a process on Windows

    [quote_arg] of [src/include/coro/process.hpp] and the loop of [Process::create] that joins the
    arguments.  Windows has one string for the whole command line; a program cuts it up by the rules
    that Microsoft documents ("Parsing C command-line arguments").  [parse_args] and [program_name]
    are these rules, the specification that the code is held against. *)

From S2P Require Import Prelude.
From stdpp Require Import options.
From Stdlib Require Import Ascii.

Local Open Scope char_scope.

Definition backslash : ascii := "\".
Definition quote : ascii := "034".
Definition space : ascii := " ".
Definition tab : ascii := "009".
Definition blank (c : ascii) : bool := bool_decide (c = space) || bool_decide (c = tab).

(** ** The code *)

(** The test of [quote_arg]. *)
Definition needs_quotes (a : str) : bool :=
  bool_decide (a = []) || existsb (λ c, blank c || bool_decide (c = quote)) a.

(** Its loop, from [backslashes], with what follows it. *)
Fixpoint quote_chars (backslashes : nat) (a : str) : str :=
  match a with
  | [] => replicate (backslashes * 2) backslash ++ [quote]
  | c :: a =>
      if decide (c = backslash) then quote_chars (S backslashes) a
      else if decide (c = quote) then replicate (backslashes * 2 + 1) backslash ++ quote :: quote_chars 0 a
      else replicate backslashes backslash ++ c :: quote_chars 0 a
  end.
Definition quote_arg (a : str) : str := if needs_quotes a then quote :: quote_chars 0 a else a.

(** The loop over the arguments. *)
Fixpoint command_line (args : list str) : str :=
  match args with
  | [] => []
  | [a] => quote_arg a
  | a :: args => quote_arg a ++ space :: command_line args
  end.

(** ** The rules

    Arguments are separated by blanks; quotes hold an argument together; [2n] backslashes and a quote
    are [n] backslashes and the quote, [2n+1] are [n] and a quote that is a character; other
    backslashes are themselves; two quotes inside of quotes are one.  [pending] are the backslashes
    just read, [cur] the argument begun. *)
Definition push (cur : option str) (x : str) : str := default [] cur ++ x.
Definition emit (pending : nat) (cur : option str) : list str :=
  match cur with Some x => [x ++ replicate pending backslash] | None => [] end.

Fixpoint parse_args (quoted : bool) (pending : nat) (cur : option str) (s : str) : list str :=
  match s with
  | [] => emit pending cur
  | c :: s =>
      if decide (c = backslash) then parse_args quoted (S pending) (Some (default [] cur)) s
      else if decide (c = quote) then
        let x := push cur (replicate (pending / 2) backslash) in
        if Nat.odd pending then parse_args quoted 0 (Some (x ++ [quote])) s
        else if quoted then
          match s with
          | d :: s' => if decide (d = quote) then parse_args true 0 (Some (x ++ [quote])) s' else parse_args false 0 (Some x) s
          | [] => parse_args false 0 (Some x) s
          end
        else parse_args true 0 (Some x) s
      else if negb quoted && blank c then emit pending cur ++ parse_args false 0 None s
      else parse_args quoted 0 (Some (push cur (replicate pending backslash) ++ [c])) s
  end.

(** The name of the program comes first: up to the next quote when it begins with one, else up to a
    blank; backslashes mean nothing here. *)
Fixpoint until_quote (s : str) : str * str :=
  match s with [] => ([], []) | c :: s => if decide (c = quote) then ([], s) else let '(x, r) := until_quote s in (c :: x, r) end.
Fixpoint until_blank (s : str) : str * str :=
  match s with [] => ([], []) | c :: s => if blank c then ([], s) else let '(x, r) := until_blank s in (c :: x, r) end.
Definition program_name (s : str) : str * str :=
  match s with c :: r => if decide (c = quote) then until_quote r else until_blank s | [] => ([], []) end.
Definition parse_command_line (s : str) : list str :=
  let '(name, rest) := program_name s in name :: parse_args false 0 None rest.

(** ** The round trip *)

Lemma parse_backslashes quoted pending cur n s :
  n ≠ 0 ∨ is_Some cur → parse_args quoted pending cur (replicate n backslash ++ s) = parse_args quoted (n + pending) (Some (default [] cur)) s.
Proof.
  revert pending cur. induction n as [|n IH]; intros pending cur Hn.
  - destruct Hn as [?|[x ->]]; done.
  - cbn [replicate app parse_args]. rewrite decide_True by done. rewrite IH by eauto. cbn. by rewrite Nat.add_succ_r.
Qed.

Lemma odd_double n : Nat.odd (n * 2 + 1) = true ∧ Nat.odd (n * 2) = false.
Proof. rewrite Nat.odd_add, Nat.odd_mul. simpl. rewrite andb_false_r. done. Qed.

(** What the quotes hold is the argument. *)
Lemma parse_quote_chars a n x s :
  head s ≠ Some quote →
  parse_args true 0 (Some x) (quote_chars n a ++ s) = parse_args false 0 (Some (x ++ replicate n backslash ++ a)) s.
Proof.
  intros Hs. revert n x. induction a as [|c a IH]; intros n x; cbn [quote_chars].
  - rewrite <- app_assoc, parse_backslashes by eauto. cbn [app parse_args default]. rewrite decide_False by done. rewrite decide_True by done.
    rewrite Nat.add_0_r. destruct (odd_double n) as [_ ->]. unfold push. cbn [default from_option id]. rewrite Nat.div_mul, app_nil_r by lia.
    destruct s as [|d s]; [done|]. rewrite decide_False; [done|]. intros ->. by destruct Hs.
  - case_decide as Hb; [|case_decide as Hq].
    + subst. rewrite IH. f_equal. f_equal. f_equal. rewrite replicate_S_end, <- app_assoc. done.
    + subst. rewrite <- app_assoc, parse_backslashes by eauto. cbn [app parse_args default]. rewrite decide_False by done. rewrite decide_True by done.
      rewrite Nat.add_0_r. destruct (odd_double n) as [-> _]. unfold push. cbn [default from_option id].
      replace ((n * 2 + 1) / 2) with n by (rewrite Nat.add_comm; rewrite Nat.div_add by lia; done).
      rewrite IH. cbn. by rewrite <- !app_assoc.
    + rewrite <- app_assoc, parse_backslashes by eauto. cbn [app parse_args default]. rewrite !decide_False by done. cbn [negb andb].
      rewrite Nat.add_0_r. unfold push. cbn [default from_option id]. rewrite IH. cbn. by rewrite <- !app_assoc.
Qed.

Definition plain (a : str) : Prop := Forall (λ c, blank c = false ∧ c ≠ quote) a.

(** An argument without blanks and quotes is read as it is. *)
Lemma parse_plain a x n s :
  plain a → ∃ y m, y ++ replicate m backslash = x ++ replicate n backslash ++ a ∧
    parse_args false n (Some x) (a ++ s) = parse_args false m (Some y) s.
Proof.
  intros Ha. revert x n. induction Ha as [|c a [Hb Hq] _ IH]; intros x n; cbn [app parse_args].
  - exists x, n. by rewrite app_nil_r.
  - case_decide as Hc.
    + subst. cbn [from_option id]. destruct (IH x (S n)) as (y & m & Hy & ->). exists y, m. split; [|done]. rewrite Hy, replicate_S_end, <- app_assoc. done.
    + rewrite decide_False by done. rewrite Hb. cbn [negb andb]. unfold push. cbn [default from_option id].
      destruct (IH ((x ++ replicate n backslash) ++ [c]) 0) as (y & m & Hy & ->). exists y, m. split; [|done]. rewrite Hy. cbn. by rewrite <- !app_assoc.
Qed.

Lemma parse_plain_first a s :
  plain a → a ≠ [] → ∃ y m, y ++ replicate m backslash = a ∧ parse_args false 0 None (a ++ s) = parse_args false m (Some y) s.
Proof.
  intros Ha Hne. destruct a as [|c a]; [done|]. apply Forall_cons in Ha as [[Hb Hq] Ha]. cbn [app parse_args]. case_decide as Hc.
  - subst. destruct (parse_plain a [] 1 s Ha) as (y & m & Hy & Hp). exists y, m. by rewrite Hy.
  - rewrite decide_False by done. rewrite Hb. cbn [negb andb push default app]. destruct (parse_plain a [c] 0 s Ha) as (y & m & Hy & Hp).
    exists y, m. by rewrite Hy.
Qed.

Lemma needs_quotes_false a : needs_quotes a = false → plain a ∧ a ≠ [].
Proof.
  unfold needs_quotes. intros [Hne Hex]%orb_false_iff. apply bool_decide_eq_false in Hne. split; [|done].
  induction a as [|c a IH]; [constructor|]. cbn in Hex. apply orb_false_iff in Hex as [Hc Hex]. apply orb_false_iff in Hc as [Hb Hq%bool_decide_eq_false].
  constructor; [done|]. destruct a; [constructor|]. by apply IH.
Qed.

(** One argument, before a blank or the end. *)
Lemma parse_quoted_arg a s :
  (s = [] ∨ ∃ s', s = space :: s') →
  parse_args false 0 None (quote_arg a ++ s) = a :: match s with [] => [] | _ :: s' => parse_args false 0 None s' end.
Proof.
  intros Hs. unfold quote_arg. destruct (needs_quotes a) eqn:Hn.
  - cbn [app parse_args]. rewrite decide_False by done. rewrite decide_True by done. cbn [Nat.odd Nat.even negb push default replicate app Nat.div].
    unfold push. cbn [default from_option id app]. rewrite (parse_quote_chars a 0 []) by (destruct Hs as [->|[s' ->]]; done).
    destruct Hs as [->|[s' ->]]; cbn; by rewrite app_nil_r.
  - apply needs_quotes_false in Hn as [Hp Hne]. destruct (parse_plain_first a s Hp Hne) as (y & m & Hy & ->).
    destruct Hs as [->|[s' ->]]; cbn; by rewrite Hy.
Qed.

Lemma parse_args_command_line args : parse_args false 0 None (command_line args) = args.
Proof.
  induction args as [|a [|b args] IH]; [done| |].
  - cbn [command_line]. rewrite <- (app_nil_r (quote_arg a)), parse_quoted_arg by auto. done.
  - change (command_line (a :: b :: args)) with (quote_arg a ++ space :: command_line (b :: args)).
    rewrite parse_quoted_arg by eauto. by rewrite IH.
Qed.

(** ** The whole line *)

(** A name that a file can have. *)
Definition program (a : str) : Prop := (quote ∉ a) ∧ (needs_quotes a = true → last a ≠ Some backslash).

Lemma quote_chars_program n a :
  quote ∉ a → last a ≠ Some backslash → (a = [] → n = 0) → quote_chars n a = replicate n backslash ++ a ++ [quote].
Proof.
  revert n. induction a as [|c a IH]; intros n Hq Hl Hn; cbn [quote_chars].
  - by rewrite (Hn eq_refl).
  - apply not_elem_of_cons in Hq as [Hc Hq]. case_decide as Hb.
    + subst. assert (a ≠ []) as Hne by (by intros ->). destruct a as [|d a]; [done|]. rewrite IH; [|done..]. rewrite replicate_S_end, <- app_assoc. done.
    + rewrite decide_False by congruence. f_equal. cbn [app]. f_equal. destruct a as [|d a]; [done|]. by rewrite IH.
Qed.

Lemma until_quote_app a s : quote ∉ a → until_quote (a ++ quote :: s) = (a, s).
Proof.
  induction a as [|c a IH]; intros Hq; cbn [app until_quote]; [by rewrite decide_True|].
  apply not_elem_of_cons in Hq as [Hc Hq]. rewrite decide_False by congruence. by rewrite (IH Hq).
Qed.

Lemma until_blank_app a s :
  Forall (λ c, blank c = false) a → (s = [] ∨ ∃ s', s = space :: s') → until_blank (a ++ s) = (a, tail s).
Proof.
  intros Ha Hs. induction Ha as [|c a Hc _ IH]; cbn [app until_blank]; [by destruct Hs as [->|[s' ->]]|].
  by rewrite Hc, IH.
Qed.

Lemma program_name_quoted a s :
  program a → (s = [] ∨ ∃ s', s = space :: s') →
  ∃ r, program_name (quote_arg a ++ s) = (a, r) ∧ parse_args false 0 None r = parse_args false 0 None (tail s).
Proof.
  intros [Hq Hl] Hs. unfold quote_arg. destruct (needs_quotes a) eqn:Hn.
  - rewrite (quote_chars_program 0 a Hq (Hl eq_refl)) by done. cbn [app replicate program_name]. rewrite decide_True by done.
    rewrite <- app_assoc. cbn [app]. rewrite until_quote_app by done. exists s. split; [done|]. by destruct Hs as [->|[s' ->]].
  - apply needs_quotes_false in Hn as [Hp Hne]. destruct a as [|c a]; [done|]. cbn [app program_name].
    apply Forall_cons in Hp as Hp'. destruct Hp' as [[_ Hcq] _]. rewrite decide_False by done.
    change (c :: a ++ s) with ((c :: a) ++ s). rewrite until_blank_app by (done || (eapply Forall_impl; [done|]; by intros ? [? _])). eauto.
Qed.

(** C34 The program gets the arguments that were given to [spawn]: blanks, quotes, backslashes and
    empty arguments included. *)
Theorem command_line_roundtrip p args : program p → parse_command_line (command_line (p :: args)) = p :: args.
Proof.
  intros Hp. unfold parse_command_line.
  assert (command_line (p :: args) = quote_arg p ++ match args with [] => [] | _ => space :: command_line args end) as ->.
  { destruct args; [by rewrite app_nil_r|done]. }
  destruct (program_name_quoted p (match args with [] => [] | _ => space :: command_line args end) Hp) as (r & -> & ->); [destruct args; eauto|].
  f_equal. destruct args as [|a args]; [done|]. apply parse_args_command_line.
Qed.

Lemma command_line_roundtrip_witness :
  parse_command_line (command_line [lit "C:\my tools\x.exe"; lit "a b\"; []; lit "c\\"]) = [lit "C:\my tools\x.exe"; lit "a b\"; []; lit "c\\"].
Proof.
  apply command_line_roundtrip. split; [|by vm_compute]. apply (bool_decide_unpack _). vm_compute. exact I.
Defined.
