(* ===== verification/ProcessM.v ===== *)
(** * ProcessM: child processes

    [src/include/coro/process.hpp] on Linux: [spawn] with the pipes for the standard streams, what the
    child does between [fork] and [execvp], the thread that reaps it, and [communicate] with its two
    loops.  The system calls are arguments: their answers come as data, and a list of answers that
    ends is a call that has not returned.  What the code opens and closes is kept in a ledger. *)

From S2P Require Import Prelude.
From stdpp Require Import options.

Local Open Scope Z_scope.

(** ** Descriptors *)

(** The descriptors the call has created and those it has closed, in order. *)
Record ledger : Type := mkLedger { lg_opened : list Z; lg_closed : list Z }.
Definition lg_open (fds : list Z) (g : ledger) : ledger := mkLedger (lg_opened g ++ fds) (lg_closed g).
Definition lg_close (fds : list Z) (g : ledger) : ledger := mkLedger (lg_opened g) (lg_closed g ++ fds).

(** [options]. *)
Record options : Type := mkOptions { capture_stdin : bool; capture_stdout : bool; capture_stderr : bool }.

(** [Process]; a [PipeEnd] is its descriptor. *)
Record process : Type := mkProcess { ps_pid : Z; ps_stdin : option Z; ps_stdout : option Z; ps_stderr : option Z }.
Definition process_none : process := mkProcess (-1) None None None.
Definition ps_valid (p : process) : bool := 0 <? ps_pid p.
Definition ps_ends (p : process) : list Z := option_list (ps_stdin p) ++ option_list (ps_stdout p) ++ option_list (ps_stderr p).
(** The destructor closes the pipes. *)
Definition ps_destroy (p : process) (g : ledger) : ledger := lg_close (ps_ends p) g.

(** Moving a process, as the constructor does: the new one and the old one, whose pipes are no ends of
    anything any more. *)
Definition ps_move (p : process) : process * process := (p, process_none).
(** [terminate] and [kill]: the child a signal goes to. *)
Definition SIGTERM : Z := 15.
Definition SIGKILL : Z := 9.
Definition ps_terminate (p : process) : option (Z * Z) := if ps_valid p then Some (ps_pid p, SIGTERM) else None.
Definition ps_kill (p : process) : option (Z * Z) := if ps_valid p then Some (ps_pid p, SIGKILL) else None.

Definition EINVAL : Z := 22.

(** An answer of [pipe2]. *)
Definition pipe_answer : Type := Z + (Z * Z).

(** [mk]: the pair stays at -1 when the stream is not captured. *)
Definition mk_pipe (capture : bool) (a : pipe_answer) (g : ledger) : Z + ((Z * Z) * ledger) :=
  if negb capture then inr ((-1, -1), g)
  else match a with inl e => inl e | inr (r, w) => inr ((r, w), lg_open [r; w] g) end.

(** The loops that close what there is. *)
Definition close_all (fds : list Z) (g : ledger) : ledger := lg_close (filter (λ f, 0 ≤ f) fds) g.

(** What the parent reads from the pipe that tells how [execvp] went. *)
Inductive status_read : Type := StEintr | StEof | StError (errno : Z) | StFails (errno : Z).
Fixpoint read_status (rs : list status_read) : option status_read :=
  match rs with [] => None | StEintr :: rs => read_status rs | r :: _ => Some r end.

(** [waitpid], repeated while it is interrupted. *)
Inductive waitpid_answer : Type := WtEintr | WtFails | WtStatus (status : Z).
Fixpoint wait_child (ws : list waitpid_answer) : option waitpid_answer :=
  match ws with [] => None | WtEintr :: ws => wait_child ws | w :: _ => Some w end.

(** The answers that [spawn] meets. *)
Record spawn_answers : Type := mkAnswers {
  sa_in : pipe_answer;
  sa_out : pipe_answer;
  sa_err : pipe_answer;
  sa_status : pipe_answer;
  sa_fork : Z + Z;
  sa_reads : list status_read;
  sa_waits : list waitpid_answer;
}.

(** What [spawn] leaves: the process, the ledger, the error noted, the child that was started, whether
    it was killed and whether it was reaped. *)
Record spawned : Type := mkSpawned {
  sp_process : process;
  sp_ledger : ledger;
  sp_error : option Z;
  sp_child : option Z;
  sp_killed : bool;
  sp_reaped : bool;
}.

(** The three pipes; with an error, what was opened up to there. *)
Definition make_pipes (opt : options) (a : spawn_answers) : ledger * (Z + ((Z * Z) * (Z * Z) * (Z * Z))) :=
  let g := mkLedger [] [] in
  match mk_pipe (capture_stdin opt) (sa_in a) g with
  | inl e => (g, inl e)
  | inr (i, g) =>
      match mk_pipe (capture_stdout opt) (sa_out a) g with
      | inl e => (close_all [i.1; i.2] g, inl e)
      | inr (o, g) =>
          match mk_pipe (capture_stderr opt) (sa_err a) g with
          | inl e => (close_all [i.1; i.2; o.1; o.2] g, inl e)
          | inr (e, g) => (g, inr (i, o, e))
          end
      end
  end.

(** The ends that the parent keeps, and those it closes. *)
Definition parent_ends (opt : options) (i o e : Z * Z) : process :=
  mkProcess (-1) (if capture_stdin opt then Some i.2 else None) (if capture_stdout opt then Some o.1 else None)
    (if capture_stderr opt then Some e.1 else None).
Definition child_ends (opt : options) (i o e : Z * Z) : list Z :=
  (if capture_stdin opt then [i.1] else []) ++ (if capture_stdout opt then [o.2] else []) ++ (if capture_stderr opt then [e.2] else []).

(** The end of [spawn], when the parent reads how [execvp] went. *)
Definition spawn_finish (pid : Z) (out : process) (g : ledger) (a : spawn_answers) : option spawned :=
  r ← read_status (sa_reads a);
  match r with
  | StError err => _ ← wait_child (sa_waits a); Some (mkSpawned process_none (ps_destroy out g) (Some err) (Some pid) false true)
  | StFails err => _ ← wait_child (sa_waits a); Some (mkSpawned process_none (ps_destroy out g) (Some err) (Some pid) true true)
  | _ => Some (mkSpawned (mkProcess pid (ps_stdin out) (ps_stdout out) (ps_stderr out)) g None (Some pid) false false)
  end.

Definition spawn (args : list str) (opt : options) (a : spawn_answers) : option spawned :=
  let failed g e := Some (mkSpawned process_none g (Some e) None false false) in
  match args with
  | [] | [] :: _ => failed (mkLedger [] []) EINVAL
  | _ =>
      let '(g, r) := make_pipes opt a in
      match r with
      | inl e => failed g e
      | inr (i, o, e) =>
          let all := [i.1; i.2; o.1; o.2; e.1; e.2] in
          match sa_status a with
          | inl err => failed (close_all all g) err
          | inr (sr, sw) =>
              let g := lg_open [sr; sw] g in
              match sa_fork a with
              | inl err => failed (close_all all (lg_close [sr; sw] g)) err
              | inr pid =>
                  let g := lg_close (child_ends opt i o e) (lg_close [sw] g) in
                  spawn_finish pid (parent_ends opt i o e) (lg_close [sr] g) a
              end
          end
      end
  end.

(** ** The child *)

(** What a descriptor of the child refers to; the flag is close-on-exec. *)
Inductive file : Type := Inherited (n : Z) | ReadEnd (stream : Z) | WriteEnd (stream : Z) | StatusEnd.
Abbreviation fd_table := (gmap Z (file * bool)).

Definition dup2 (old new : Z) (t : fd_table) : option fd_table :=
  '(f, _) ← t !! old;
  Some (if decide (old = new) then t else <[new := (f, false)]> t).
(** [execvp] closes what is marked. *)
Definition exec_table (t : fd_table) : fd_table := filter (λ kv, kv.2.2 = false) t.

(** From [fork] to [execvp]; [None] is [exec_failed]. *)
Definition child_table (opt : options) (i o e : Z * Z) (status_read : Z) (t : fd_table) : option fd_table :=
  let t := delete status_read t in
  t ← (if capture_stdin opt then dup2 i.1 0 t else Some t);
  t ← (if capture_stdout opt then dup2 o.2 1 t else Some t);
  t ← (if capture_stderr opt then dup2 e.2 2 t else Some t);
  Some (exec_table t).

(** ** The exit code *)

(** The macros on a status. *)
Definition WIFEXITED (status : Z) : bool := Z.land status 127 =? 0.
Definition WEXITSTATUS (status : Z) : Z := Z.shiftr (Z.land status 65280) 8.
Definition WTERMSIG (status : Z) : Z := Z.land status 127.
Definition WIFSIGNALED (status : Z) : bool :=
  let c := Z.land status 127 + 1 in 0 <? Z.shiftr (if 127 <? c then c - 256 else c) 1.

(** The thread that reaps the child. *)
Definition reaper_code (w : waitpid_answer) : Z :=
  match w with
  | WtStatus status => if WIFEXITED status then WEXITSTATUS status else if WIFSIGNALED status then 128 + WTERMSIG status else 255
  | _ => -1
  end.
Definition reaper (ws : list waitpid_answer) : option Z := reaper_code <$> wait_child ws.

(** ** [communicate] *)

(** [feed_stdin] over the answers of [write]: its result, what was written, whether the pipe was
    closed. *)
Fixpoint feed_loop (answers : list Z) (data : str) (written : str) : option (bool * str * bool) :=
  match data with
  | [] => Some (true, written, true)
  | _ =>
      match answers with
      | [] => None
      | n :: answers =>
          if n <=? 0 then Some (false, written, false)
          else feed_loop answers (drop (Z.to_nat n) data) (written ++ take (Z.to_nat n) data)
      end
  end.
Definition feed_stdin (pipe : bool) (answers : list Z) (data : str) : option (bool * str * bool) :=
  if negb pipe then Some (true, [], false) else feed_loop answers data [].

(** [drain_output] over the answers of [read]: the bytes, the end, or an error. *)
Inductive read_answer : Type := RdBytes (s : str) | RdEof | RdFails.
Fixpoint drain_loop (answers : list read_answer) (max_bytes : nat) (into : str) (truncated : bool) : option (bool * str * bool) :=
  match answers with
  | [] => None
  | RdEof :: _ => Some (true, into, truncated)
  | RdFails :: _ => Some (false, into, truncated)
  | RdBytes s :: answers =>
      if decide (max_bytes < length into + length s)%nat then
        let room := if decide (length into < max_bytes)%nat then (max_bytes - length into)%nat else 0%nat in
        drain_loop answers max_bytes (into ++ take room s) true
      else drain_loop answers max_bytes (into ++ s) truncated
  end.
Definition drain_output (pipe : bool) (answers : list read_answer) (max_bytes : nat) (into : str) (truncated : bool) : option (bool * str * bool) :=
  if negb pipe then Some (true, into, truncated) else drain_loop answers max_bytes into truncated.

(** [CommunicateResult]. *)
Record communicated : Type := mkCommunicated { cm_exit_code : Z; cm_out : str; cm_err : str; cm_truncated : bool; cm_input_closed : bool }.

(** [communicate], from what [wait] and the three tasks end with; the second component is whether
    the tasks are cancelled. *)
Definition communicate (wait : res Z) (feed : res bool) (out err : res (bool * str * bool)) : res communicated * bool :=
  match wait, feed, out, err with
  | Ok code, Ok closed, Ok (_, o, t1), Ok (_, e, t2) => (Ok (mkCommunicated code o e (t1 || t2) closed), false)
  | Throw x, _, _, _ => (Throw x, true)
  | Ok _, Throw x, _, _ => (Throw x, true)
  | Ok _, Ok _, Throw x, _ => (Throw x, true)
  | Ok _, Ok _, Ok _, Throw x => (Throw x, true)
  end.

(** [run_capture], with what [communicate] gives for the process it has started. *)
Definition run_capture (args : list str) (a : spawn_answers) (talk : process → res communicated) : option (res (Z * str)) :=
  r ← spawn args (mkOptions false true false) a;
  Some (if ps_valid (sp_process r) then (try! c := talk (sp_process r) in Ok (cm_exit_code c, cm_out c))%res else Ok (-1, [])).

(** ** The descriptors of [spawn] *)

(** [pipe2] returns descriptors; the two loops around interrupted calls come to an end. *)
Definition pipe_ok (a : pipe_answer) : Prop := match a with inl _ => True | inr (r, w) => 0 ≤ r ∧ 0 ≤ w end.
Record answers_ok (a : spawn_answers) : Prop := {
  ao_in : pipe_ok (sa_in a);
  ao_out : pipe_ok (sa_out a);
  ao_err : pipe_ok (sa_err a);
  ao_status : pipe_ok (sa_status a);
  ao_reads : is_Some (read_status (sa_reads a));
  ao_waits : is_Some (wait_child (sa_waits a));
}.

(** Two short lists with the same elements. *)
Ltac solve_perm :=
  cbn [app]; repeat first
    [ reflexivity | apply (@Permutation_cons_app _ _ []); cbn [app] | apply (@Permutation_cons_app _ _ [_]); cbn [app]
    | apply (@Permutation_cons_app _ _ [_; _]); cbn [app] | apply (@Permutation_cons_app _ _ [_; _; _]); cbn [app]
    | apply (@Permutation_cons_app _ _ [_; _; _; _]); cbn [app] | apply (@Permutation_cons_app _ _ [_; _; _; _; _]); cbn [app] ].

(** What was opened is closed or held, each once. *)
Definition balanced (held : list Z) (g : ledger) : Prop := lg_closed g ++ held ≡ₚ lg_opened g.

Lemma close_all_balanced fds g : balanced (filter (λ f, 0 ≤ f) fds) g → balanced [] (close_all fds g).
Proof. unfold balanced, close_all, lg_close. cbn. by rewrite app_nil_r. Qed.

Lemma mk_pipe_balanced capture a held g i g' :
  mk_pipe capture a g = inr (i, g') → pipe_ok a → balanced held g →
  balanced (held ++ filter (λ f, 0 ≤ f) [i.1; i.2]) g' ∧ filter (λ f, 0 ≤ f) [i.1; i.2] = if capture then [i.1; i.2] else [].
Proof.
  unfold mk_pipe. destruct capture; cbn [negb].
  - destruct a as [e|[r w]]; [done|]. intros [= <- <-] [Hr Hw] Hb. cbn [fst snd]. rewrite !filter_cons_True, filter_nil by done. split; [|done].
    unfold balanced, lg_open in *. cbn. rewrite app_assoc. by rewrite Hb.
  - intros [= <- <-] _ Hb. cbn [fst snd]. rewrite !filter_cons_False, filter_nil by (cbn; lia). by rewrite app_nil_r.
Qed.

(** The descriptors of three pipes, of which some may not exist. *)
Abbreviation ends i o e := (filter (λ f, 0 ≤ f) [i.1; i.2; o.1; o.2; e.1; e.2]).

Lemma ends_app (i o e : Z * Z) : ends i o e = filter (λ f, 0 ≤ f) [i.1; i.2] ++ filter (λ f, 0 ≤ f) [o.1; o.2] ++ filter (λ f, 0 ≤ f) [e.1; e.2].
Proof. by rewrite <- !filter_app. Qed.

Lemma make_pipes_spec opt a g r :
  make_pipes opt a = (g, r) → answers_ok a →
  match r with
  | inl _ => balanced [] g
  | inr (i, o, e) => balanced (ends i o e) g ∧
      ends i o e = (if capture_stdin opt then [i.1; i.2] else []) ++ (if capture_stdout opt then [o.1; o.2] else []) ++ (if capture_stderr opt then [e.1; e.2] else [])
  end.
Proof.
  unfold make_pipes. intros Hm [Hi Ho He _ _ _]. assert (balanced [] (mkLedger [] [])) as Hb0 by (unfold balanced; done).
  destruct (mk_pipe (capture_stdin opt) (sa_in a) (mkLedger [] [])) as [x|[i g1]] eqn:H1; [by injection Hm as <- <-|].
  destruct (mk_pipe_balanced _ _ [] _ _ _ H1 Hi Hb0) as [Hb1 Hf1]. cbn [app] in Hb1.
  destruct (mk_pipe (capture_stdout opt) (sa_out a) g1) as [x|[o g2]] eqn:H2; [injection Hm as <- <-; by apply close_all_balanced|].
  destruct (mk_pipe_balanced _ _ _ _ _ _ H2 Ho Hb1) as [Hb2 Hf2].
  destruct (mk_pipe (capture_stderr opt) (sa_err a) g2) as [x|[e g3]] eqn:H3.
  { injection Hm as <- <-. apply close_all_balanced. by rewrite <- filter_app in Hb2. }
  destruct (mk_pipe_balanced _ _ _ _ _ _ H3 He Hb2) as [Hb3 Hf3]. injection Hm as <- <-.
  rewrite ends_app. split; [by rewrite app_assoc|]. by rewrite Hf1, Hf2, Hf3.
Qed.

(** The parent keeps one end of each pipe and closes the other. *)
Lemma parent_child_ends opt i o e held g :
  balanced (held ++ (if capture_stdin opt then [i.1; i.2] else []) ++ (if capture_stdout opt then [o.1; o.2] else []) ++ (if capture_stderr opt then [e.1; e.2] else [])) g →
  balanced (held ++ ps_ends (parent_ends opt i o e)) (lg_close (child_ends opt i o e) g).
Proof.
  unfold balanced, lg_close. cbn [lg_closed lg_opened]. intros <-. rewrite <- app_assoc. apply Permutation_app_head.
  rewrite app_assoc, (Permutation_app_comm _ held), <- app_assoc. apply Permutation_app_head. unfold child_ends, ps_ends, parent_ends. cbn.
  destruct (capture_stdin opt), (capture_stdout opt), (capture_stderr opt); cbn; solve_perm.
Qed.

(** The end of [spawn], with the pipes of the child and the status pipe still open. *)
Lemma spawn_finish_spec pid out g a :
  answers_ok a → balanced (ps_ends out) g →
  ∃ r, spawn_finish pid out g a = Some r ∧ balanced (ps_ends (sp_process r)) (sp_ledger r) ∧ sp_child r = Some pid ∧
    (sp_error r = None → sp_process r = mkProcess pid (ps_stdin out) (ps_stdout out) (ps_stderr out)) ∧
    (is_Some (sp_error r) → sp_process r = process_none ∧ sp_reaped r = true).
Proof.
  intros [_ _ _ _ [rd Hrd] [wt Hwt]] Hb. unfold spawn_finish. rewrite Hrd. cbn [mbind option_bind].
  assert (balanced [] (ps_destroy out g)) as Hd by (unfold ps_destroy, lg_close, balanced in *; cbn; by rewrite app_nil_r).
  destruct rd as [| |err|err]; rewrite ?Hwt; cbn [mbind option_bind]; eexists; (split; [done|]); cbn; (split; [done|]); (split; [done|]);
    split; try done; by intros [? [=]].
Qed.

Definition captured (opt : options) (p : process) : Prop :=
  (bool_decide (is_Some (ps_stdin p)), bool_decide (is_Some (ps_stdout p)), bool_decide (is_Some (ps_stderr p))) =
  (capture_stdin opt, capture_stdout opt, capture_stderr opt).


(** ** The standard streams of the child *)

(** The descriptors of the parent when it forks: every pipe is marked. *)
Record forked_table (opt : options) (i o e : Z * Z) (sr : Z) (t : fd_table) : Prop := {
  ft_in : capture_stdin opt = true → t !! i.1 = Some (ReadEnd 0, true) ∧ 2 < i.1;
  ft_out : capture_stdout opt = true → t !! o.2 = Some (WriteEnd 1, true) ∧ 2 < o.2;
  ft_err : capture_stderr opt = true → t !! e.2 = Some (WriteEnd 2, true) ∧ 2 < e.2;
  ft_status : t !! sr = Some (StatusEnd, true) ∧ sr ≠ i.1 ∧ sr ≠ o.2 ∧ sr ≠ e.2;
}.

Lemma exec_table_lookup (t : fd_table) k : exec_table t !! k = x ← t !! k; if x.2 : bool then None else Some x.
Proof.
  unfold exec_table. rewrite map_lookup_filter. by destruct (t !! k) as [[f []]|].
Qed.

(** A captured stream is moved to its number, the others stay. *)
Lemma dup2_capture (capture : bool) old new f (t : fd_table) :
  (capture = true → t !! old = Some (f, true) ∧ 2 < old) → new ≤ 2 →
  ∃ t', (if capture then dup2 old new t else Some t) = Some t' ∧
    ∀ k, t' !! k = if capture && bool_decide (k = new) then Some (f, false) else t !! k.
Proof.
  intros Hc Hn. destruct capture; [|by exists t]. destruct (Hc eq_refl) as [Hl Ho]. unfold dup2. rewrite Hl. cbn [mbind option_bind].
  rewrite decide_False by lia. eexists. split; [done|]. intros k. cbn [andb]. case_bool_decide; [subst; by rewrite lookup_insert_eq|by rewrite lookup_insert_ne].
Qed.

(** With descriptors 0 to 2 in use before [spawn], the program starts with the pipes as the standard
    streams that were captured, with the others of its parent, and with no other end of a pipe: the
    reader of each pipe sees its end when the program closes the stream. *)
Theorem child_streams opt i o e sr t :
  forked_table opt i o e sr t →
  ∃ t', child_table opt i o e sr t = Some t' ∧
    ∀ k, t' !! k =
      if capture_stdin opt && bool_decide (k = 0) then Some (ReadEnd 0, false)
      else if capture_stdout opt && bool_decide (k = 1) then Some (WriteEnd 1, false)
      else if capture_stderr opt && bool_decide (k = 2) then Some (WriteEnd 2, false)
      else exec_table t !! k.
Proof.
  intros [Hi Ho He [Hs (Hsi & Hso & Hse)]]. unfold child_table. set (t0 := delete sr t).
  assert (∀ k, k ≠ sr → t0 !! k = t !! k) as H0 by (intros k Hk; unfold t0; by rewrite lookup_delete_ne).
  destruct (dup2_capture (capture_stdin opt) i.1 0 (ReadEnd 0) t0) as (t1 & -> & H1); [by rewrite H0|lia|]. cbn [mbind option_bind].
  destruct (dup2_capture (capture_stdout opt) o.2 1 (WriteEnd 1) t1) as (t2 & -> & H2); [|lia|].
  { intros Hc. destruct (Ho Hc). rewrite H1, (bool_decide_false (o.2 = 0)), andb_false_r, H0 by lia. done. }
  cbn [mbind option_bind].
  destruct (dup2_capture (capture_stderr opt) e.2 2 (WriteEnd 2) t2) as (t3 & -> & H3); [|lia|].
  { intros Hc. destruct (He Hc). rewrite H2, (bool_decide_false (e.2 = 1)), andb_false_r, H1, (bool_decide_false (e.2 = 0)), andb_false_r, H0 by lia. done. }
  cbn [mbind option_bind]. eexists. split; [done|]. intros k. rewrite !exec_table_lookup, H3, H2, H1.
  assert (t0 !! k ≫= (λ x : file * bool, if x.2 then None else Some x) = t !! k ≫= (λ x : file * bool, if x.2 then None else Some x)) as Hk.
  { unfold t0. destruct (decide (k = sr)) as [->|]; [by rewrite lookup_delete_eq, Hs|by rewrite lookup_delete_ne]. }
  destruct (capture_stdin opt), (capture_stdout opt), (capture_stderr opt); repeat case_bool_decide; cbn; try done; lia.
Qed.

(** With descriptor 0 closed in the parent, the pipe for the standard input gets it, [dup2] onto
    itself keeps the mark, and the program starts without a standard input. *)
Lemma child_without_stdin :
  let t : fd_table := <[0 := (ReadEnd 0, true)]> (<[3 := (WriteEnd 0, true)]> (<[4 := (StatusEnd, true)]> {[1 := (Inherited 1, false)]})) in
  (λ t', t' !! 0) <$> child_table (mkOptions true false false) (0, 3) (-1, -1) (-1, -1) 4 t = Some None.
Proof. reflexivity. Qed.

(** ** The exit code *)

(** The exit code of the program, 128 and the number of the signal that ended it, or -1 when the
    child could not be waited for; nothing else. *)
Theorem exit_code_decodes :
  (∀ c, 0 ≤ c < 256 → reaper_code (WtStatus (c * 256)) = c) ∧
  (∀ s core, 1 ≤ s ≤ 126 → core = 0 ∨ core = 128 → reaper_code (WtStatus (s + core)) = 128 + s) ∧
  (∀ w, reaper_code w = -1 ↔ ∀ status, w ≠ WtStatus status).
Proof.
  split_and!.
  - intros c Hc. assert (Forall (λ c, reaper_code (WtStatus (c * 256)) = c) (seqZ 0 256)) as Hall by (apply (bool_decide_unpack _); vm_compute; exact I).
    rewrite Forall_forall in Hall. apply Hall, elem_of_seqZ. lia.
  - intros s core Hs Hcore.
    assert (Forall (λ s, reaper_code (WtStatus (s + 0)) = 128 + s ∧ reaper_code (WtStatus (s + 128)) = 128 + s) (seqZ 1 126)) as Hall by (apply (bool_decide_unpack _); vm_compute; exact I).
    rewrite Forall_forall in Hall. destruct (Hall s) as [H0 H1]; [apply elem_of_seqZ; lia|]. by destruct Hcore as [-> | ->].
  - intros [| |status]; cbn; [naive_solver|naive_solver|]. split; [|intros H; by destruct (H status)].
    intros Heq. exfalso. assert (0 ≤ Z.land status 127) by (apply Z.land_nonneg; lia). assert (0 ≤ WEXITSTATUS status).
    { unfold WEXITSTATUS. apply Z.shiftr_nonneg, Z.land_nonneg. lia. }
    unfold WTERMSIG in Heq. destruct (WIFEXITED status), (WIFSIGNALED status); lia.
Qed.

(** ** The loops of [communicate] *)

(** The pipe takes some of what it is given, or fails. *)
Lemma feed_loop_spec answers data written r w c :
  feed_loop answers data written = Some (r, w, c) → c = r ∧ ∃ rest, written ++ data = w ++ rest ∧ (r = true → rest = []).
Proof.
  revert data written. induction answers as [|n answers IH]; intros data written; destruct data as [|d data]; cbn [feed_loop]; try done.
  - intros [= <- <- <-]. split; [done|]. by exists [].
  - intros [= <- <- <-]. split; [done|]. by exists [].
  - destruct (Z.leb_spec n 0); [intros [= <- <- <-]; split; [done|]; by exists (d :: data)|].
    intros Hf. destruct (IH _ _ Hf) as (-> & rest & Heq & Hr). split; [done|]. exists rest. split; [|done].
    rewrite <- Heq, <- app_assoc. by rewrite take_drop.
Qed.

(** As many answers as there are bytes are enough. *)
Lemma feed_loop_total answers data written : (length data <= length answers)%nat → is_Some (feed_loop answers data written).
Proof.
  revert data written. induction answers as [|n answers IH]; intros data written Hl; destruct data as [|d data]; cbn [feed_loop]; try done; [simpl in Hl; lia|].
  destruct (Z.leb_spec n 0); [done|]. apply IH. rewrite length_drop. simpl in *. lia.
Qed.

(** [feed_stdin] ends, with everything written in order and the pipe closed, or with a part written
    and the pipe open. *)
Theorem feed_stdin_spec answers data :
  (length data <= length answers)%nat →
  ∃ r w, feed_stdin true answers data = Some (r, w, r) ∧ ∃ rest, data = w ++ rest ∧ (r = true → rest = []).
Proof.
  intros Hl. unfold feed_stdin. cbn [negb]. destruct (feed_loop_total answers data [] Hl) as [[[r w] c] Hf]. rewrite Hf.
  destruct (feed_loop_spec _ _ _ _ _ _ Hf) as (-> & rest & Heq & Hr). exists r, w. split; [done|]. by exists rest.
Qed.

(** What a stream delivers until its end or an error. *)
Fixpoint stream_of (answers : list read_answer) : str :=
  match answers with RdBytes s :: answers => s ++ stream_of answers | _ => [] end.
Fixpoint stream_ends (answers : list read_answer) : option bool :=
  match answers with [] => None | RdBytes _ :: answers => stream_ends answers | RdEof :: _ => Some true | RdFails :: _ => Some false end.

Lemma drain_loop_spec answers max_bytes into truncated r :
  stream_ends answers = Some r → (length into <= max_bytes)%nat →
  drain_loop answers max_bytes into truncated =
    Some (r, take max_bytes (into ++ stream_of answers), truncated || bool_decide (max_bytes < length (into ++ stream_of answers))%nat).
Proof.
  revert into truncated. induction answers as [|[s| |] answers IH]; intros into truncated Hr Hl; cbn [drain_loop stream_of stream_ends] in *; [done| | |].
  - case_decide as Hd.
    + assert ((if decide (length into < max_bytes)%nat then max_bytes - length into else 0) = max_bytes - length into)%nat as -> by (case_decide; lia).
      rewrite IH by (done || (rewrite length_app, length_take; lia)). do 2 f_equal; [f_equal|].
      * set (room := (max_bytes - length into)%nat). rewrite <- app_assoc, !(take_app_ge into) by lia. f_equal. fold room.
        rewrite (take_app_le s) by lia. rewrite take_app_le by (rewrite length_take; lia). rewrite take_take. f_equal. lia.
      * rewrite (bool_decide_true (max_bytes < length (into ++ s ++ stream_of answers))%nat) by (rewrite !length_app; lia). by rewrite orb_true_r.
    + rewrite IH by (done || rewrite length_app; lia). by rewrite <- app_assoc.
  - injection Hr as <-. rewrite app_nil_r, take_ge, bool_decide_false, orb_false_r by lia. done.
  - injection Hr as <-. rewrite app_nil_r, take_ge, bool_decide_false, orb_false_r by lia. done.
Qed.

(** [drain_output] keeps the first bytes of the stream, as many as it may, and notes when there were
    more; it reads on to the end all the same, so that the program never blocks on a full pipe. *)
Theorem drain_output_spec answers max_bytes r :
  stream_ends answers = Some r →
  drain_output true answers max_bytes [] false = Some (r, take max_bytes (stream_of answers), bool_decide (max_bytes < length (stream_of answers))%nat).
Proof. intros Hr. unfold drain_output. cbn [negb]. rewrite (drain_loop_spec answers max_bytes [] false r); [done|done|simpl; lia]. Qed.

(** [communicate] cancels its tasks exactly when it fails, and gives the outputs that were drained. *)
Lemma communicate_spec wait feed out err :
  match communicate wait feed out err with
  | (Ok c, cancelled) => cancelled = false ∧ wait = Ok (cm_exit_code c) ∧ feed = Ok (cm_input_closed c) ∧
      ∃ ro re t1 t2, out = Ok (ro, cm_out c, t1) ∧ err = Ok (re, cm_err c, t2) ∧ cm_truncated c = t1 || t2
  | (Throw x, cancelled) => cancelled = true ∧ (wait = Throw x ∨ feed = Throw x ∨ out = Throw x ∨ err = Throw x)
  end.
Proof. destruct wait, feed, out as [[[]]|], err as [[[]]|]; cbn; naive_solver. Qed.

(** The comment of [drain_output] says an error must not pass for the end of the stream; the answer
    that tells them apart is dropped. *)
Lemma read_error_passes code o e :
  communicate (Ok code) (Ok true) (Ok (false, o, false)) (Ok (true, e, false)) = communicate (Ok code) (Ok true) (Ok (true, o, false)) (Ok (true, e, false)).
Proof. reflexivity. Qed.

Definition demo_answers : spawn_answers :=
  mkAnswers (inr (3, 4)) (inr (5, 6)) (inl 24) (inr (7, 8)) (inr 100) [StEintr; StError 2] [WtEintr; WtStatus (127 * 256)].


Lemma child_streams_witness :
  let t : fd_table := <[3 := (ReadEnd 0, true)]> (<[4 := (WriteEnd 0, true)]> (<[5 := (StatusEnd, true)]> {[1 := (Inherited 1, false)]})) in
  ∃ t', child_table (mkOptions true false false) (3, 4) (-1, -1) (-1, -1) 5 t = Some t' ∧ t' !! 0 = Some (ReadEnd 0, false) ∧ t' !! 4 = None.
Proof.
  intros t. destruct (child_streams (mkOptions true false false) (3, 4) (-1, -1) (-1, -1) 5 t) as (t' & Ht & Hk); [by split|].
  exists t'. split; [done|]. by rewrite !Hk.
Defined.

Lemma feed_stdin_spec_witness : ∃ r w, feed_stdin true [2; 1; 5] (lit "abc") = Some (r, w, r) ∧ ∃ rest, lit "abc" = w ++ rest ∧ (r = true → rest = []).
Proof. apply feed_stdin_spec. vm_compute. lia. Defined.

Lemma drain_output_spec_witness :
  drain_output true [RdBytes (lit "ab"); RdBytes (lit "cd"); RdEof] 3 [] false = Some (true, lit "abc", true).
Proof. by rewrite (drain_output_spec _ _ true). Defined.
