(* ===== verification/ProcessWin.v ===== *)
(** * ProcessWin: child processes on Windows

    [Process::create] of [src/include/coro/process.hpp] on Windows: the handles it creates on the way
    to [CreateProcessW] and after it, on every path.  The system calls are arguments; the command line
    is in [WinArgs]. *)

From S2P Require Import Prelude ProcessM.
From stdpp Require Import options.

Local Open Scope Z_scope.

(** [INVALID_HANDLE_VALUE]. *)
Definition INVALID_HANDLE : Z := -1.

(** The answers that [make_pipe] meets. *)
Record win_pipe : Type := mkWinPipe { wp_server : Z + Z; wp_client : Z + Z; wp_connect : option Z; wp_associate : option Z }.

(** [make_pipe]: the end of the parent and that of the child, or the error. *)
Definition make_pipe (capture : bool) (a : win_pipe) (g : ledger) : ledger * (Z + (option Z * Z)) :=
  if negb capture then (g, inr (None, INVALID_HANDLE))
  else
    match wp_server a with
    | inl e => (g, inl e)
    | inr server =>
        let g := lg_open [server] g in
        match wp_client a with
        | inl e => (lg_close [server] g, inl e)
        | inr client =>
            let g := lg_open [client] g in
            match wp_connect a with
            | Some e => (lg_close [server; client] g, inl e)
            | None =>
                match wp_associate a with
                | Some e => (lg_close [server; client] g, inl e)
                | None => (g, inr (Some server, client))
                end
            end
        end
    end.

(** The loops that close the ends of the child. *)
Definition close_valid (hs : list Z) (g : ledger) : ledger := lg_close (filter (λ h, h ≠ INVALID_HANDLE) hs) g.

Record create_answers : Type := mkCreate {
  ca_in : win_pipe;
  ca_out : win_pipe;
  ca_err : win_pipe;
  ca_nul : Z + Z;
  ca_attributes : option Z;
  ca_process : Z + (Z * Z * Z);
  ca_register : option Z;
}.

(** [Process] on Windows: the handle, its number and the pipes. *)
Record win_process : Type := mkWinProcess { wq_proc : option Z; wq_pid : Z; wq_stdin : option Z; wq_stdout : option Z; wq_stderr : option Z }.
Definition win_none : win_process := mkWinProcess None 0 None None None.
Definition wq_handles (p : win_process) : list Z := option_list (wq_proc p) ++ option_list (wq_stdin p) ++ option_list (wq_stdout p) ++ option_list (wq_stderr p).
(** [cleanup], for a process whose end nobody waits for. *)
Definition wq_cleanup (p : win_process) (g : ledger) : ledger := lg_close (wq_handles p) g.

Record created : Type := mkCreated { cr_process : win_process; cr_ledger : ledger; cr_error : option Z; cr_child : option Z; cr_terminated : bool }.

Definition create_failed (out : win_process) (g : ledger) (e : Z) : created := mkCreated win_none (wq_cleanup out g) (Some e) None false.

(** The three pipes, with the ends of the parent so far when one fails. *)
Definition create_pipes (opt : options) (a : create_answers) : ledger * (created + win_process * (Z * Z * Z)) :=
  let '(g, ri) := make_pipe (capture_stdin opt) (ca_in a) (mkLedger [] []) in
  match ri with
  | inl e => (g, inl (create_failed win_none g e))
  | inr (pi, ci) =>
      let '(g, ro) := make_pipe (capture_stdout opt) (ca_out a) g in
      match ro with
      | inl e => (g, inl (create_failed (mkWinProcess None 0 pi None None) (close_valid [ci] g) e))
      | inr (po, co) =>
          let '(g, re) := make_pipe (capture_stderr opt) (ca_err a) g in
          match re with
          | inl e => (g, inl (create_failed (mkWinProcess None 0 pi po None) (close_valid [ci; co] g) e))
          | inr (pe, ce) => (g, inr (mkWinProcess None 0 pi po pe, (ci, co, ce)))
          end
      end
  end.

(** What follows when the three streams of the child are there; [fallback] is the handle of NUL. *)
Definition create_process (out : win_process) (ci co ce fallback : Z) (g : ledger) (a : create_answers) : created :=
  let use h := if decide (h = INVALID_HANDLE) then fallback else h in
  let child := [use ci; use co; use ce] in
  match ca_attributes a with
  | Some e => create_failed out (lg_close (remove_dups child) g) e
  | None =>
      let close_child g := lg_close (filter (λ h, h ≠ INVALID_HANDLE ∧ h ≠ fallback) child) g in
      let close_fallback g := if decide (fallback = INVALID_HANDLE) then g else lg_close [fallback] g in
      match ca_process a with
      | inl e => create_failed out (close_fallback (close_child g)) e
      | inr (proc, thread, pid) =>
          let g := lg_close [thread] (close_fallback (close_child (lg_open [proc; thread] g))) in
          let out := mkWinProcess (Some proc) pid (wq_stdin out) (wq_stdout out) (wq_stderr out) in
          match ca_register a with
          | Some e => mkCreated win_none (wq_cleanup out g) (Some e) (Some pid) true
          | None => mkCreated out g None (Some pid) false
          end
      end
  end.

Definition create (args : list str) (opt : options) (a : create_answers) : created :=
  match args with
  | [] | [] :: _ => create_failed win_none (mkLedger [] []) 87
  | _ =>
      let '(g, r) := create_pipes opt a in
      match r with
      | inl failed => failed
      | inr (out, (ci, co, ce)) =>
          if decide (ci = INVALID_HANDLE ∨ co = INVALID_HANDLE ∨ ce = INVALID_HANDLE) then
            match ca_nul a with
            | inl e => create_failed out (close_valid [ci; co; ce] g) e
            | inr nul => create_process out ci co ce nul (lg_open [nul] g) a
            end
          else create_process out ci co ce INVALID_HANDLE g a
      end
  end.

(** ** The handles *)

Definition win_pipe_ok (a : win_pipe) : Prop :=
  match wp_server a with inr s => s ≠ INVALID_HANDLE | _ => True end ∧ match wp_client a with inr c => c ≠ INVALID_HANDLE | _ => True end.
(** The handles of the children and of NUL. *)
Definition client_handle (a : win_pipe) : list Z := match wp_client a with inr c => [c] | _ => [] end.
Definition clients (a : create_answers) : list Z :=
  client_handle (ca_in a) ++ client_handle (ca_out a) ++ client_handle (ca_err a) ++ match ca_nul a with inr h => [h] | _ => [] end.

Definition handles_of (h : Z) : list Z := if decide (h = INVALID_HANDLE) then [] else [h].

Lemma close_valid_handles hs g : close_valid hs g = lg_close (hs ≫= handles_of) g.
Proof.
  unfold close_valid. f_equal. induction hs as [|h hs IH]; [done|]. rewrite bind_cons. unfold handles_of at 1. case_decide.
  - by rewrite filter_cons_False by (by intros []).
  - by rewrite filter_cons_True, IH.
Qed.

Lemma make_pipe_balanced capture a g held g' r :
  make_pipe capture a g = (g', r) → win_pipe_ok a → balanced held g →
  match r with
  | inl _ => balanced held g'
  | inr (p, c) => balanced (held ++ option_list p ++ handles_of c) g' ∧ (capture = true ↔ is_Some p) ∧ handles_of c `sublist_of` client_handle a
  end.
Proof.
  unfold make_pipe. intros Hm [Hs Hc] Hb. destruct capture; cbn [negb] in Hm; [|injection Hm as <- <-; cbn; rewrite app_nil_r; split; [done|]; split; [unfold is_Some; naive_solver|]; apply sublist_nil_l].
  destruct (wp_server a) as [e|server]; [by injection Hm as <- <-|].
  unfold client_handle. destruct (wp_client a) as [e|client].
  { injection Hm as <- <-. unfold balanced, lg_close, lg_open in *. cbn. rewrite <- Hb, <- app_assoc, (Permutation_app_comm [server]), app_assoc. done. }
  assert (∀ ss, ss = [server; client] → balanced held (lg_close ss (lg_open [client] (lg_open [server] g)))) as Hcl.
  { intros ss ->. unfold balanced, lg_close, lg_open in *. cbn. rewrite <- Hb, <- !app_assoc. apply Permutation_app_head. apply Permutation_app_comm. }
  destruct (wp_connect a); [injection Hm as <- <-; by apply Hcl|]. destruct (wp_associate a); [injection Hm as <- <-; by apply Hcl|].
  injection Hm as <- <-. cbn. unfold handles_of. rewrite decide_False by done. split; [|split; [naive_solver|done]].
  unfold balanced, lg_open in *. cbn. by rewrite <- Hb, <- !app_assoc.
Qed.

(** Handles are valid and different. *)
Record create_ok (a : create_answers) : Prop := {
  ca_ok_distinct : NoDup (clients a);
  ca_ok_in : win_pipe_ok (ca_in a);
  ca_ok_out : win_pipe_ok (ca_out a);
  ca_ok_err : win_pipe_ok (ca_err a);
  ca_ok_nul : match ca_nul a with inr h => h ≠ INVALID_HANDLE | _ => True end;
}.

(** What a failure leaves. *)
Definition failure_ok (r : created) : Prop :=
  balanced [] (cr_ledger r) ∧ cr_process r = win_none ∧ is_Some (cr_error r) ∧ (is_Some (cr_child r) → cr_terminated r = true).

Lemma create_failed_ok out g e : balanced (wq_handles out) g → failure_ok (create_failed out g e).
Proof.
  intros Hb. unfold failure_ok, create_failed, wq_cleanup, balanced, lg_close in *. cbn. rewrite app_nil_r. split_and!; [done..|by eexists|by intros [? [=]]].
Qed.

(** Closing a part of what is held. *)
Lemma close_balanced held hs g : balanced (held ++ hs) g → balanced held (lg_close hs g).
Proof. unfold balanced, lg_close. cbn. intros <-. rewrite <- app_assoc. apply Permutation_app_head, Permutation_app_comm. Qed.
Lemma balanced_perm held held' g : held ≡ₚ held' → balanced held g → balanced held' g.
Proof. unfold balanced. by intros <-. Qed.

Definition children (ci co ce : Z) : list Z := handles_of ci ++ handles_of co ++ handles_of ce.

Lemma create_pipes_spec opt a g r :
  create_pipes opt a = (g, r) → create_ok a →
  match r with
  | inl f => failure_ok f
  | inr (out, (ci, co, ce)) =>
      balanced (wq_handles out ++ children ci co ce) g ∧ wq_proc out = None ∧
      (capture_stdin opt = true ↔ is_Some (wq_stdin out)) ∧ (capture_stdout opt = true ↔ is_Some (wq_stdout out)) ∧ (capture_stderr opt = true ↔ is_Some (wq_stderr out)) ∧
      children ci co ce `sublist_of` client_handle (ca_in a) ++ client_handle (ca_out a) ++ client_handle (ca_err a)
  end.
Proof.
  unfold create_pipes. intros Hc [_ Hi Ho He _]. assert (balanced [] (mkLedger [] [])) as Hb0 by (unfold balanced; done).
  destruct (make_pipe (capture_stdin opt) (ca_in a) (mkLedger [] [])) as [g1 r1] eqn:H1.
  pose proof (make_pipe_balanced _ _ _ [] _ _ H1 Hi Hb0) as Hb1. destruct r1 as [e|[pi ci]]; [injection Hc as <- <-; by apply create_failed_ok|].
  destruct Hb1 as (Hb1 & Hpi & Hsi). cbn [app] in Hb1. destruct (make_pipe (capture_stdout opt) (ca_out a) g1) as [g2 r2] eqn:H2.
  pose proof (make_pipe_balanced _ _ _ _ _ _ H2 Ho Hb1) as Hb2. destruct r2 as [e|[po co]].
  { injection Hc as <- <-. apply create_failed_ok. rewrite close_valid_handles. apply close_balanced. cbn. by rewrite !app_nil_r. }
  destruct Hb2 as (Hb2 & Hpo & Hso). destruct (make_pipe (capture_stderr opt) (ca_err a) g2) as [g3 r3] eqn:H3.
  pose proof (make_pipe_balanced _ _ _ _ _ _ H3 He Hb2) as Hb3. destruct r3 as [e|[pe ce]].
  { injection Hc as <- <-. apply create_failed_ok. rewrite close_valid_handles. apply close_balanced. cbn. rewrite !app_nil_r.
    eapply balanced_perm; [|done]. rewrite <- !app_assoc. apply Permutation_app_head. rewrite !app_assoc. apply Permutation_app_tail, Permutation_app_comm. }
  destruct Hb3 as (Hb3 & Hpe & Hse). injection Hc as <- <-. split_and!; [|done..|by repeat apply sublist_app]. eapply balanced_perm; [|done]. unfold children. cbn.
  destruct pi, po, pe; unfold handles_of; repeat case_decide; cbn; solve_perm.
Qed.

(** What stands for the three streams. *)
Lemma filter_use c fb :
  (c ≠ INVALID_HANDLE → c ≠ fb) →
  filter (λ h, h ≠ INVALID_HANDLE ∧ h ≠ fb) [if decide (c = INVALID_HANDLE) then fb else c] = handles_of c.
Proof.
  intros Hc. unfold handles_of. case_decide as Hd; [rewrite filter_cons_False by tauto; done|].
  rewrite filter_cons_True; [done|]. split; [done|auto].
Qed.

Lemma elem_of_handles h c : h ∈ handles_of c ↔ h = c ∧ c ≠ INVALID_HANDLE.
Proof. unfold handles_of. case_decide; set_solver. Qed.

Lemma child_handles ci co ce fb :
  NoDup (children ci co ce ++ handles_of fb) → (fb = INVALID_HANDLE ↔ ¬ (ci = INVALID_HANDLE ∨ co = INVALID_HANDLE ∨ ce = INVALID_HANDLE)) →
  let use h := if decide (h = INVALID_HANDLE) then fb else h in
  filter (λ h, h ≠ INVALID_HANDLE ∧ h ≠ fb) [use ci; use co; use ce] = children ci co ce ∧
  remove_dups [use ci; use co; use ce] ≡ₚ children ci co ce ++ handles_of fb.
Proof.
  intros Hn Hfb use. assert (∀ c, c ≠ INVALID_HANDLE → c ∈ children ci co ce → c ≠ fb) as Hne.
  { intros c Hc Hin ->. apply NoDup_app in Hn as (_ & Hn & _). apply (Hn fb Hin). by apply elem_of_handles. }
  assert (∀ h, h ∈ children ci co ce ↔ h ≠ INVALID_HANDLE ∧ (h = ci ∨ h = co ∨ h = ce)) as Hch.
  { intros h. unfold children. rewrite !elem_of_app, !elem_of_handles. naive_solver. }
  split.
  - change [use ci; use co; use ce] with ([use ci] ++ [use co] ++ [use ce]). rewrite !filter_app. unfold use, children.
    rewrite !filter_use; [done|..]; intros Hc; apply (Hne _ Hc), Hch; auto.
  - apply NoDup_Permutation; [apply NoDup_remove_dups|done|]. intros h. rewrite elem_of_remove_dups, elem_of_app, Hch, elem_of_handles, !elem_of_cons, elem_of_nil.
    unfold use. clear -Hfb. destruct (decide (ci = INVALID_HANDLE)), (decide (co = INVALID_HANDLE)), (decide (ce = INVALID_HANDLE)); naive_solver.
Qed.

Lemma create_process_spec out ci co ce fb g a :
  balanced (wq_handles out ++ children ci co ce ++ handles_of fb) g → wq_proc out = None →
  NoDup (children ci co ce ++ handles_of fb) → (fb = INVALID_HANDLE ↔ ¬ (ci = INVALID_HANDLE ∨ co = INVALID_HANDLE ∨ ce = INVALID_HANDLE)) →
  let r := create_process out ci co ce fb g a in
  failure_ok r ∨
  cr_error r = None ∧ balanced (wq_handles (cr_process r)) (cr_ledger r) ∧ is_Some (wq_proc (cr_process r)) ∧
  wq_stdin (cr_process r) = wq_stdin out ∧ wq_stdout (cr_process r) = wq_stdout out ∧ wq_stderr (cr_process r) = wq_stderr out.
Proof.
  intros Hb Hp Hn Hfb. destruct (child_handles ci co ce fb Hn Hfb) as [Hf Hr]. cbn zeta in *. unfold create_process. rewrite Hf.
  destruct (ca_attributes a) as [e|].
  { left. apply create_failed_ok, close_balanced. eapply balanced_perm; [|exact Hb]. by rewrite Hr. }
  assert (∀ held g', balanced (held ++ children ci co ce ++ handles_of fb) g' →
    balanced held (if decide (fb = INVALID_HANDLE) then lg_close (children ci co ce) g' else lg_close [fb] (lg_close (children ci co ce) g'))) as Hcl.
  { intros held g' Hg. unfold handles_of in Hg. case_decide; [rewrite app_nil_r in Hg; by apply close_balanced|].
    apply close_balanced, close_balanced. eapply balanced_perm; [|exact Hg]. rewrite <- app_assoc. apply Permutation_app_head, Permutation_app_comm. }
  destruct (ca_process a) as [e|[[proc thread] pid]]; [left; by apply create_failed_ok, Hcl|].
  assert (balanced ((proc :: wq_handles out) ++ [thread]) (if decide (fb = INVALID_HANDLE) then lg_close (children ci co ce) (lg_open [proc; thread] g)
    else lg_close [fb] (lg_close (children ci co ce) (lg_open [proc; thread] g)))) as Hb2.
  { apply Hcl. unfold balanced, lg_open in *. cbn. rewrite <- Hb, <- !app_assoc. apply Permutation_app_head. cbn.
    generalize (children ci co ce), (handles_of fb). intros l1 l2. rewrite (app_assoc l1 l2), (Permutation_app_comm (l1 ++ l2) [proc; thread]).
    generalize (l1 ++ l2). intros l. cbn. by rewrite <- !Permutation_middle. }
  apply close_balanced in Hb2. destruct (ca_register a) as [e|].
  - left. unfold failure_ok, wq_cleanup, wq_handles in *. cbn in *. rewrite Hp in Hb2. cbn in Hb2. split_and!; [|done|by eexists|done].
    by apply (close_balanced []).
  - right. unfold wq_handles in *. cbn in *. rewrite Hp in Hb2. cbn in Hb2. eauto 10.
Qed.

(** On every path of [create], each handle it has opened is closed once or belongs to the process it
    returns; a failure returns an empty process, and a child that was started is terminated. *)
Theorem create_accounts args opt a :
  create_ok a →
  let r := create args opt a in
  lg_closed (cr_ledger r) ++ wq_handles (cr_process r) ≡ₚ lg_opened (cr_ledger r) ∧
  (is_Some (cr_error r) → cr_process r = win_none ∧ (is_Some (cr_child r) → cr_terminated r = true)) ∧
  (cr_error r = None → is_Some (wq_proc (cr_process r)) ∧ (capture_stdin opt = true ↔ is_Some (wq_stdin (cr_process r))) ∧
     (capture_stdout opt = true ↔ is_Some (wq_stdout (cr_process r))) ∧ (capture_stderr opt = true ↔ is_Some (wq_stderr (cr_process r)))).
Proof.
  intros Ha. assert (∀ r, failure_ok r → lg_closed (cr_ledger r) ++ wq_handles (cr_process r) ≡ₚ lg_opened (cr_ledger r) ∧
    (is_Some (cr_error r) → cr_process r = win_none ∧ (is_Some (cr_child r) → cr_terminated r = true)) ∧
    (cr_error r = None → is_Some (wq_proc (cr_process r)) ∧ (capture_stdin opt = true ↔ is_Some (wq_stdin (cr_process r))) ∧
     (capture_stdout opt = true ↔ is_Some (wq_stdout (cr_process r))) ∧ (capture_stderr opt = true ↔ is_Some (wq_stderr (cr_process r))))) as Hfail.
  { intros r (Hb & -> & [e He] & Ht). split; [exact Hb|]. split; [done|]. by rewrite He. }
  cbn zeta. unfold create. destruct args as [|[|c w] args]; [apply Hfail, create_failed_ok; unfold balanced; done..|].
  destruct (create_pipes opt a) as [g r] eqn:Hc. pose proof (create_pipes_spec opt a g r Hc Ha) as Hr.
  destruct r as [f|[out [[ci co] ce]]]; [by apply Hfail|]. destruct Hr as (Hb & Hp & Hi & Ho & He & Hsub).
  assert (∀ r, failure_ok r ∨ cr_error r = None ∧ balanced (wq_handles (cr_process r)) (cr_ledger r) ∧ is_Some (wq_proc (cr_process r)) ∧
    wq_stdin (cr_process r) = wq_stdin out ∧ wq_stdout (cr_process r) = wq_stdout out ∧ wq_stderr (cr_process r) = wq_stderr out →
    lg_closed (cr_ledger r) ++ wq_handles (cr_process r) ≡ₚ lg_opened (cr_ledger r) ∧
    (is_Some (cr_error r) → cr_process r = win_none ∧ (is_Some (cr_child r) → cr_terminated r = true)) ∧
    (cr_error r = None → is_Some (wq_proc (cr_process r)) ∧ (capture_stdin opt = true ↔ is_Some (wq_stdin (cr_process r))) ∧
     (capture_stdout opt = true ↔ is_Some (wq_stdout (cr_process r))) ∧ (capture_stderr opt = true ↔ is_Some (wq_stderr (cr_process r))))) as Hdone.
  { intros r [Hf|(Her & Hbal & Hpr & -> & -> & ->)]; [by apply Hfail|]. split; [exact Hbal|]. rewrite Her. split; [by intros [? [=]]|done]. }
  destruct Ha as [Hd _ _ _ Hnul]. case_decide as Hany.
  - destruct (ca_nul a) as [e|nul] eqn:Hna.
    + apply Hfail, create_failed_ok. rewrite close_valid_handles. apply close_balanced. cbn. by rewrite app_nil_r.
    + apply Hdone, create_process_spec; [|done| |tauto].
      * unfold handles_of. rewrite decide_False by done. unfold balanced, lg_open in *. cbn. by rewrite <- Hb, <- !app_assoc.
      * eapply sublist_NoDup; [exact Hd|]. unfold clients. rewrite Hna, !app_assoc. apply sublist_app; [by rewrite <- app_assoc|].
        unfold handles_of. by rewrite decide_False.
  - apply Hdone, create_process_spec; [|done| |tauto].
    + by rewrite app_nil_r.
    + rewrite app_nil_r. eapply sublist_NoDup; [exact Hd|]. unfold clients. rewrite !app_assoc. apply sublist_inserts_r. by rewrite <- app_assoc.
Qed.

Definition demo_create : create_answers :=
  mkCreate (mkWinPipe (inr 1) (inr 2) None None) (mkWinPipe (inr 3) (inr 4) None None) (mkWinPipe (inl 5) (inl 5) None None) (inr 9) None (inr (20, 21, 7)) (Some 6).

Lemma create_accounts_witness :
  let r := create [lit "x"] (mkOptions true true false) demo_create in
  lg_closed (cr_ledger r) ++ wq_handles (cr_process r) ≡ₚ lg_opened (cr_ledger r).
Proof.
  apply (create_accounts [lit "x"] (mkOptions true true false) demo_create). split; [|by split|by split|by split|done].
  apply (bool_decide_unpack _). vm_compute. exact I.
Defined.
