(* ===== verification/Descriptors.v ===== *)
(** * Descriptors: who holds the descriptors of the process

    What the components that open and close descriptors share: the set of those that are open, the
    call that closes one, and the objects that hold them.  Closing a descriptor that is not open is
    an error of the caller (it may hit one that somebody else has opened in between), so [release]
    is partial. *)

From S2P Require Import Prelude.
From stdpp Require Import options.

Local Open Scope Z_scope.

Abbreviation fd_set := (gset Z).

(** [close] of an open descriptor. *)
Definition release (fd : Z) (t : fd_set) : option fd_set := if decide (fd ∈ t) then Some (t ∖ {[fd]}) else None.
(** A call that returns a descriptor. *)
Definition acquire (fd : Z) (t : fd_set) : fd_set := {[fd]} ∪ t.

#[global] Arguments release _ _ : simpl never.
#[global] Arguments acquire _ _ : simpl never.

(** A descriptor or -1. *)
Definition fd_list (fd : Z) : list Z := if decide (0 ≤ fd) then [fd] else [].
(** [if (fd >= 0) ::close(fd)]. *)
Definition release_valid (fd : Z) (t : fd_set) : option fd_set := if decide (0 ≤ fd) then release fd t else Some t.

(** How often a list names a descriptor. *)
Fixpoint held (x : Z) (l : list Z) : nat :=
  match l with [] => 0%nat | y :: l => ((if decide (x = y) then 1 else 0) + held x l)%nat end.
(** Each open descriptor is held once, and nothing else is; [own] says how often one is held. *)
Definition exact (own : Z → nat) (t : fd_set) : Prop := ∀ x, own x = if decide (x ∈ t) then 1%nat else 0%nat.

Lemma held_app x l k : held x (l ++ k) = (held x l + held x k)%nat.
Proof. induction l as [|y l IH]; cbn; [done|]. rewrite IH. lia. Qed.

#[export] Instance held_perm x : Proper ((≡ₚ) ==> (=)) (held x).
Proof. intros l k Hp. induction Hp; cbn; lia. Qed.

Lemma held_fd_list x fd : held x (fd_list fd) = if decide (0 ≤ fd ∧ x = fd) then 1%nat else 0%nat.
Proof. unfold fd_list. repeat case_decide; cbn; try case_decide; tauto || lia. Qed.

(** ** The objects *)

(** What the objects at a set of addresses hold. *)
Definition map_held {A} (f : A → list Z) (m : gmap nat A) (x : Z) : nat := held x ((map_to_list m).*2 ≫= f).

Section map_held.
Context {A : Type} (f : A → list Z).
Implicit Types (m : gmap nat A).

Lemma map_held_empty x : map_held f ∅ x = 0%nat.
Proof. unfold map_held. by rewrite map_to_list_empty. Qed.

Lemma map_held_insert_new m k a x : m !! k = None → map_held f (<[k := a]> m) x = (held x (f a) + map_held f m x)%nat.
Proof. intros Hk. unfold map_held. rewrite (map_to_list_insert m k a Hk), fmap_cons, bind_cons, held_app. done. Qed.

Lemma map_held_delete m k a x : m !! k = Some a → map_held f m x = (held x (f a) + map_held f (delete k m) x)%nat.
Proof. intros Hk. rewrite <- (insert_delete_id m k a Hk) at 1. by rewrite map_held_insert_new by apply lookup_delete_eq. Qed.

Lemma map_held_insert m k a b x :
  m !! k = Some a → (map_held f (<[k := b]> m) x + held x (f a) = held x (f b) + map_held f m x)%nat.
Proof.
  intros Hk. rewrite (map_held_delete m k a x Hk). rewrite <- insert_delete_eq, map_held_insert_new by apply lookup_delete_eq. lia.
Qed.

Lemma map_held_fmap (g : A → A) m x : (∀ a, f (g a) = f a) → map_held f (g <$> m) x = map_held f m x.
Proof.
  intros Hg. unfold map_held. rewrite map_to_list_fmap. f_equal. induction (map_to_list m) as [|[k a] l IH]; [done|].
  rewrite !fmap_cons, !bind_cons. cbn. by rewrite Hg, IH.
Qed.

(** What one object holds. *)
Lemma map_held_lookup m k a x : m !! k = Some a → (held x (f a) <= map_held f m x)%nat.
Proof. intros Hk. rewrite (map_held_delete m k a x Hk). lia. Qed.

End map_held.

(** ** The table *)

Lemma release_spec fd t : fd ∈ t → ∃ t', release fd t = Some t' ∧ ∀ x, x ∈ t' ↔ x ∈ t ∧ x ≠ fd.
Proof. intros Hf. unfold release. rewrite decide_True by done. eexists. split; [done|]. set_solver. Qed.

(** The table without a descriptor that somebody holds. *)
Lemma release_owned (own own' : Z → nat) fd t :
  exact own t → (∀ x, own x = ((if decide (x = fd) then 1 else 0) + own' x)%nat) →
  ∃ t', release fd t = Some t' ∧ exact own' t'.
Proof.
  intros Ho Hd. pose proof (Ho fd) as Hf. rewrite Hd in Hf. rewrite decide_True in Hf by done. destruct (decide (fd ∈ t)) as [Hin|]; [|lia].
  destruct (release_spec fd t Hin) as (t' & -> & Ht). exists t'. split; [done|]. intros x. specialize (Ho x). rewrite Hd in Ho.
  destruct (decide (x = fd)) as [->|]; [rewrite decide_False by (rewrite Ht; naive_solver); lia|].
  destruct (decide (x ∈ t)), (decide (x ∈ t')) as [Hx|Hx]; rewrite Ht in Hx; tauto || lia.
Qed.

Lemma release_valid_owned (own own' : Z → nat) fd t :
  exact own t → (∀ x, own x = (held x (fd_list fd) + own' x)%nat) →
  ∃ t', release_valid fd t = Some t' ∧ exact own' t'.
Proof.
  unfold release_valid. intros Ho Hd. destruct (decide (0 ≤ fd)).
  - apply (release_owned own own'); [done|]. intros x. rewrite Hd, held_fd_list. repeat case_decide; tauto || lia.
  - exists t. split; [done|]. intros x. rewrite <- Ho, Hd, held_fd_list. case_decide; [tauto|lia].
Qed.

Lemma acquire_owned (own own' : Z → nat) fd t :
  exact own t → fd ∉ t → (∀ x, own' x = ((if decide (x = fd) then 1 else 0) + own x)%nat) →
  exact own' (acquire fd t).
Proof.
  intros Ho Hf Hd x. rewrite Hd, Ho. unfold acquire. destruct (decide (x ∈ {[fd]} ∪ t)) as [Hx|Hx]; repeat case_decide; try done; set_solver.
Qed.
