(* ===== verification/NetM.v ===== *)
(** * NetM: sockets, pipes and files over io_uring

    The awaiters and the objects of [src/include/coro/net_uring.hpp], of the Linux part of
    [src/include/coro/pipe.hpp] with [io::poll], of [src/include/coro/unix.hpp] and of the Linux part
    of [src/include/coro/fs.hpp]: what each [await_suspend] asks for, what each [await_resume] makes
    of the answer, and the operations of the objects on their descriptors; who holds which descriptor
    in any order of these operations is in [NetInv].  The submission
    itself is [UringM]; here it is one of four outcomes, and [suspend_outcome] shows that the calls of
    [UringM] have no other. *)

From S2P Require Import Prelude UringM UringInv Descriptors.
From stdpp Require Import options.

Local Open Scope Z_scope.

(** ** Requests *)

(** The fields of an entry that the calls fill in; [en_arg] is the word for flags. *)
Record entry : Type := mkEntry { en_opcode : io_opcode; en_fd : Z; en_len : Z; en_off : Z; en_arg : Z }.

Definition SOCK_CLOEXEC : Z := 524288.
Definition MSG_NOSIGNAL : Z := 16384.
Definition AT_FDCWD : Z := -100.
Definition u64_max : Z := 2 ^ 64 - 1.
(** [sizeof(sockaddr_in)]. *)
Definition sockaddr_in_size : Z := 16.

(** What becomes of a submission: the kernel takes it, it is refused, there is no room in the queue,
    or the loop has no source for it. *)
Inductive submission : Type := SubTaken | SubRefused (errno : Z) | SubFull | SubNoSource.

Definition op_new : uring_op := mkOp null_handle 0 0 (-1) false.
Definition op_end (result error : Z) (o : uring_op) : uring_op := mkOp (uo_continuation o) result error (uo_fd o) (uo_uring o).
(** The operation after [await_suspend]; [both] is whether the code sets [error] next to [result]
    when nothing is submitted. *)
Definition op_suspend (both : bool) (fd : Z) (s : submission) (o : uring_op) : uring_op :=
  match s with
  | SubTaken => mkOp (uo_continuation o) (uo_result o) (uo_error o) fd true
  | SubRefused e => mkOp (uo_continuation o) (- e) e fd true
  | SubFull => op_end (- ENOBUFS) (if both then ENOBUFS else uo_error o) o
  | SubNoSource => op_end (- ENOTSUP) (if both then ENOTSUP else uo_error o) o
  end.

(** [uring_op_error]. *)
Definition uring_op_error (o : uring_op) : Z :=
  if decide (uo_error o = 0) then (if uo_result o <? 0 then - uo_result o else 0) else uo_error o.

(** The answer of an operation, and the error it notes. *)
Definition answer : Type := Z * option Z.
(** Sockets look at both members, pipes and files at [error]. *)
Definition resume_op (o : uring_op) : answer := let e := uring_op_error o in if decide (e = 0) then (uo_result o, None) else (-1, Some e).
Definition resume_error (o : uring_op) : answer := if decide (uo_error o = 0) then (uo_result o, None) else (-1, Some (uo_error o)).

(** *** [net_uring.hpp] *)

Definition tcp_read_suspend (fd len : Z) (s : submission) (o : uring_op) : entry * uring_op :=
  (mkEntry OpRecv fd (u32 len) 0 0, op_suspend false fd s o).
Definition tcp_read_resume : uring_op → answer := resume_op.
Definition tcp_write_suspend (fd len : Z) (s : submission) (o : uring_op) : entry * uring_op :=
  (mkEntry OpSend fd (u32 len) 0 0, op_suspend false fd s o).
Definition tcp_write_resume : uring_op → answer := resume_op.

(** [connect], given the address as parsed and what [socket] answers: the operation and the socket. *)
Definition tcp_connect (parsed : bool) (sock : Z) : uring_op * Z :=
  if parsed then (op_new, sock) else (op_end (- 22) 0 op_new, -1).
Definition tcp_connect_suspend (fd : Z) (s : submission) (o : uring_op) : option entry * uring_op :=
  if uo_result o <? 0 then (None, o)
  else (Some (mkEntry OpConnect fd 0 sockaddr_in_size 0), op_suspend false fd s o).
(** The stream, the socket the awaiter has left, the socket it closes, and the error. *)
Definition tcp_connect_resume (fd : Z) (o : uring_op) : Z * Z * Z * option Z :=
  let e := uring_op_error o in if decide (e = 0) then (fd, -1, -1, None) else (-1, -1, fd, Some e).

Definition tcp_accept_suspend (fd : Z) (s : submission) (o : uring_op) : entry * uring_op :=
  (mkEntry OpAccept fd 0 0 SOCK_CLOEXEC, op_suspend false fd s o).
(** The stream, the operation, and the error. *)
Definition tcp_accept_resume (o : uring_op) : Z * uring_op * option Z :=
  let e := uring_op_error o in
  if decide (e = 0) then (uo_result o, op_end (-1) (uo_error o) o, None) else (-1, o, Some e).

(** The lengths of a [msghdr] are not cut. *)
Definition udp_recvfrom_suspend (fd len : Z) (s : submission) (o : uring_op) : entry * uring_op :=
  (mkEntry OpRecvmsg fd 1 0 0, op_suspend false fd s o).
(** The sender is stored when there is an answer and somebody wants it. *)
Definition udp_recvfrom_resume (wanted : bool) (from : Z) (o : uring_op) : answer * option Z :=
  let e := uring_op_error o in
  if decide (e = 0) then (uo_result o, None, if wanted then Some from else None) else (-1, Some e, None).
Definition udp_sendto_suspend (fd len : Z) (s : submission) (o : uring_op) : entry * uring_op :=
  (mkEntry OpSendmsg fd 1 0 0, op_suspend false fd s o).
Definition udp_sendto_resume : uring_op → answer := resume_op.

(** *** [pipe.hpp] *)

Definition pipe_read_suspend (fd len : Z) (s : submission) (o : uring_op) : entry * uring_op :=
  (mkEntry OpRead fd (u32 len) u64_max 0, op_suspend true fd s o).
Definition pipe_read_resume : uring_op → answer := resume_error.
Definition pipe_write_suspend (fd len : Z) (s : submission) (o : uring_op) : entry * uring_op :=
  (mkEntry OpWrite fd (u32 len) u64_max 0, op_suspend true fd s o).
Definition pipe_write_resume : uring_op → answer := resume_error.
Definition poll_suspend (fd events : Z) (s : submission) (o : uring_op) : entry * uring_op :=
  (mkEntry OpPollAdd fd 0 0 events, op_suspend true fd s o).
Definition poll_resume (o : uring_op) : answer :=
  if decide (uo_error o = 0) then (if uo_result o <? 0 then (0, Some (- uo_result o)) else (uo_result o, None)) else (0, Some (uo_error o)).

(** *** [unix.hpp] *)

Definition unix_read_suspend (fd len : Z) (s : submission) (o : uring_op) : entry * uring_op :=
  (mkEntry OpRecv fd (u32 len) 0 0, op_suspend true fd s o).
Definition unix_read_resume : uring_op → answer := resume_error.
Definition unix_write_suspend (fd len : Z) (s : submission) (o : uring_op) : entry * uring_op :=
  (mkEntry OpSend fd (u32 len) 0 MSG_NOSIGNAL, op_suspend true fd s o).
Definition unix_write_resume : uring_op → answer := resume_error.
Definition unix_accept_suspend (fd : Z) (s : submission) (o : uring_op) : entry * uring_op :=
  (mkEntry OpAccept fd 0 0 0, op_suspend true fd s o).
Definition unix_accept_resume (o : uring_op) : Z * uring_op * option Z :=
  if decide (uo_error o = 0) then
    (if uo_result o <? 0 then (-1, o, Some (- uo_result o)) else (uo_result o, op_end (-1) (uo_error o) o, None))
  else (-1, o, Some (uo_error o)).

(** *** [fs.hpp] *)

Definition file_read_suspend (fd len offset : Z) (s : submission) (o : uring_op) : entry * uring_op :=
  (mkEntry OpRead fd (u32 len) offset 0, op_suspend true fd s o).
Definition file_read_resume : uring_op → answer := resume_error.
Definition file_write_suspend (fd len offset : Z) (s : submission) (o : uring_op) : entry * uring_op :=
  (mkEntry OpWrite fd (u32 len) offset 0, op_suspend true fd s o).
Definition file_write_resume : uring_op → answer := resume_error.
Definition file_fsync_suspend (fd : Z) (s : submission) (o : uring_op) : entry * uring_op :=
  (mkEntry OpFsync fd 0 0 0, op_suspend true fd s o).
Definition file_fsync_resume (o : uring_op) : bool * option Z :=
  if decide (uo_error o = 0) then (bool_decide (uo_result o = 0), None) else (false, Some (uo_error o)).
(** [open_awaiter] leaves the descriptor of its operation alone. *)
Definition file_open_suspend (flags : Z) (s : submission) (o : uring_op) : entry * uring_op :=
  (mkEntry OpOpenat AT_FDCWD 420 0 flags, op_suspend true (uo_fd o) s o).
Definition file_open_resume (o : uring_op) : Z * uring_op * option Z :=
  (uo_result o, op_end (-1) (uo_error o) o, if decide (uo_error o = 0) then None else Some (uo_error o)).

(** ** Awaiters *)

(** The operations, with the object they are of. *)
Inductive aw_kind : Type :=
  | TcpRead (len : Z) | TcpWrite (len : Z) | TcpConnect | TcpAccept
  | UdpRecvfrom (len : Z) (wanted : bool) | UdpSendto (len : Z)
  | PipeRead (len : Z) | PipeWrite (len : Z) | Poll (fd events : Z)
  | UnixRead (len : Z) | UnixWrite (len : Z) | UnixAccept
  | FileRead (len offset : Z) | FileWrite (len offset : Z) | FileFsync | FileOpen (flags : Z).

(** The answer of these is a descriptor. *)
Definition gives_fd (k : aw_kind) : bool := match k with TcpAccept | UnixAccept | FileOpen _ => true | _ => false end.

Inductive phase : Type := Created | Flying | Done | Resumed.
#[export] Instance phase_eq_dec : EqDecision phase.
Proof. solve_decision. Defined.

(** [aw_fd] is the socket of a [connect_awaiter]; [aw_asked] is whether the kernel has been asked to
    cancel. *)
Record net_awaiter : Type := mkAw { aw_kind_of : aw_kind; aw_obj : nat; aw_fd : Z; aw_op : uring_op; aw_phase : phase; aw_asked : bool }.

Definition aw_set (op : uring_op) (ph : phase) (a : net_awaiter) : net_awaiter := mkAw (aw_kind_of a) (aw_obj a) (aw_fd a) op ph (aw_asked a).
Definition aw_ask (a : net_awaiter) : net_awaiter := mkAw (aw_kind_of a) (aw_obj a) (aw_fd a) (aw_op a) (aw_phase a) true.

(** What a submission makes of the coroutine. *)
Definition phase_after (s : submission) : phase := match s with SubTaken => Flying | _ => Done end.

(** [await_suspend] of each kind, on an object with descriptor [fd]. *)
Definition aw_suspend (fd : Z) (s : submission) (a : net_awaiter) : net_awaiter :=
  let o := aw_op a in
  let go r := aw_set r.2 (phase_after s) a in
  match aw_kind_of a with
  | TcpRead len => go (tcp_read_suspend fd len s o)
  | TcpWrite len => go (tcp_write_suspend fd len s o)
  | TcpConnect =>
      match tcp_connect_suspend (aw_fd a) s o with
      | (None, o) => aw_set o Done a
      | (Some _, o) => aw_set o (phase_after s) a
      end
  | TcpAccept => go (tcp_accept_suspend fd s o)
  | UdpRecvfrom len _ => go (udp_recvfrom_suspend fd len s o)
  | UdpSendto len => go (udp_sendto_suspend fd len s o)
  | PipeRead len => go (pipe_read_suspend fd len s o)
  | PipeWrite len => go (pipe_write_suspend fd len s o)
  | Poll pfd events => go (poll_suspend pfd events s o)
  | UnixRead len => go (unix_read_suspend fd len s o)
  | UnixWrite len => go (unix_write_suspend fd len s o)
  | UnixAccept => go (unix_accept_suspend fd s o)
  | FileRead len offset => go (file_read_suspend fd len offset s o)
  | FileWrite len offset => go (file_write_suspend fd len offset s o)
  | FileFsync => go (file_fsync_suspend fd s o)
  | FileOpen flags => go (file_open_suspend flags s o)
  end.

(** A completion, as [process_cqe] stores it. *)
Definition aw_complete (res : Z) (a : net_awaiter) : net_awaiter := aw_set (op_end res (if res <? 0 then - res else 0) (aw_op a)) Done a.

(** [await_resume] of each kind: the answer, the descriptor of the object it makes if it makes one,
    the descriptor it closes, and the awaiter. *)
Record resumed : Type := mkResumed { re_answer : answer; re_makes : option Z; re_closes : Z; re_awaiter : net_awaiter }.
Definition answers (r : answer) (a : net_awaiter) : resumed := mkResumed r None (-1) (aw_set (aw_op a) Resumed a).
Definition makes (r : Z * uring_op * option Z) (a : net_awaiter) : resumed :=
  mkResumed (r.1.1, r.2) (Some r.1.1) (-1) (aw_set r.1.2 Resumed a).
Definition aw_resume (a : net_awaiter) : resumed :=
  let o := aw_op a in
  match aw_kind_of a with
  | TcpRead _ => answers (tcp_read_resume o) a
  | TcpWrite _ => answers (tcp_write_resume o) a
  | TcpConnect =>
      let '(fd, left_fd, closes, e) := tcp_connect_resume (aw_fd a) o in
      mkResumed (fd, e) (Some fd) closes (mkAw TcpConnect (aw_obj a) left_fd o Resumed (aw_asked a))
  | TcpAccept => makes (tcp_accept_resume o) a
  | UdpRecvfrom _ wanted => answers (udp_recvfrom_resume wanted 0 o).1 a
  | UdpSendto _ => answers (udp_sendto_resume o) a
  | PipeRead _ => answers (pipe_read_resume o) a
  | PipeWrite _ => answers (pipe_write_resume o) a
  | Poll _ _ => answers (poll_resume o) a
  | UnixRead _ => answers (unix_read_resume o) a
  | UnixWrite _ => answers (unix_write_resume o) a
  | UnixAccept => makes (unix_accept_resume o) a
  | FileRead _ _ => answers (file_read_resume o) a
  | FileWrite _ _ => answers (file_write_resume o) a
  | FileFsync => let r := file_fsync_resume o in answers (if r.1 then 0 else -1, r.2) a
  | FileOpen _ => makes (file_open_resume o) a
  end.

(** What the destructor closes, or -1. *)
Definition connect_destroyed (fd : Z) : Z := fd.
Definition accept_destroyed (o : uring_op) : Z :=
  if uo_uring o && bool_decide (uo_error o = 0) && (0 <=? uo_result o) then uo_result o else -1.
Definition aw_destroyed (a : net_awaiter) : Z :=
  match aw_kind_of a with
  | TcpConnect => connect_destroyed (aw_fd a)
  | k => if gives_fd k then accept_destroyed (aw_op a) else -1
  end.

(** ** Objects *)

(** The classes: [TcpStream], [TcpListener], [UdpSocket] and the two of [unix.hpp] are closed alike. *)
Inductive obj_class : Type := ClsSocket | ClsPipe | ClsFile.
#[export] Instance obj_class_eq_dec : EqDecision obj_class.
Proof. solve_decision. Defined.
Record object : Type := mkObj { ob_class : obj_class; ob_fd : Z }.

(** The state: the open descriptors, the objects, the awaiters and the last error of the thread. *)
Record net : Type := mkNet { nt_open : fd_set; nt_objs : gmap nat object; nt_aws : gmap nat net_awaiter; nt_error : Z }.
Implicit Types (n : net) (o p : nat) (a : net_awaiter).

Definition nt_set_open t n : net := mkNet t (nt_objs n) (nt_aws n) (nt_error n).
Definition nt_set_obj o (x : object) n : net := mkNet (nt_open n) (<[o := x]> (nt_objs n)) (nt_aws n) (nt_error n).
Definition nt_set_aw p a n : net := mkNet (nt_open n) (nt_objs n) (<[p := a]> (nt_aws n)) (nt_error n).
Definition nt_note (e : option Z) n : net := mkNet (nt_open n) (nt_objs n) (nt_aws n) (default (nt_error n) e).

(** [io_uring_cancel] of each operation on a descriptor: [cancel_fd_ops] of [UringM]. *)
Definition nt_cancel_fd (fd : Z) n : net :=
  mkNet (nt_open n) (nt_objs n) ((λ a, if decide (uo_uring (aw_op a) = true ∧ uo_fd (aw_op a) = fd) then aw_ask a else a) <$> nt_aws n) (nt_error n).

(** [close] of a descriptor; [None] if it is not open. *)
Definition nt_close_fd (fd : Z) n : option net := t ← release_valid fd (nt_open n); Some (nt_set_open t n).

(** [close] of each class; [shutdown] has no effect on who holds what. *)
Definition socket_close o n : option net :=
  x ← nt_objs n !! o;
  if 0 <=? ob_fd x then n ← nt_close_fd (ob_fd x) (nt_cancel_fd (ob_fd x) n); Some (nt_set_obj o (mkObj (ob_class x) (-1)) n) else Some n.
Definition pipe_close o n : option net :=
  x ← nt_objs n !! o;
  if 0 <=? ob_fd x then n ← nt_close_fd (ob_fd x) (nt_cancel_fd (ob_fd x) n); Some (nt_set_obj o (mkObj (ob_class x) (-1)) n) else Some n.
Definition file_close o n : option net :=
  x ← nt_objs n !! o;
  if 0 <=? ob_fd x then n ← nt_close_fd (ob_fd x) n; Some (nt_set_obj o (mkObj (ob_class x) (-1)) n) else Some n.
Definition obj_close o n : option net :=
  x ← nt_objs n !! o;
  match ob_class x with ClsSocket => socket_close o n | ClsPipe => pipe_close o n | ClsFile => file_close o n end.

(** The constructors and the destructor. *)
Definition obj_move o o' n : option net :=
  x ← nt_objs n !! o; Some (nt_set_obj o (mkObj (ob_class x) (-1)) (nt_set_obj o' x n)).
Definition obj_assign dst src n : option net :=
  if decide (dst = src) then Some n
  else
    n ← obj_close dst n;
    y ← nt_objs n !! src;
    Some (nt_set_obj src (mkObj (ob_class y) (-1)) (nt_set_obj dst y n)).
Definition obj_destroy o n : option net :=
  n ← obj_close o n;
  Some (mkNet (nt_open n) (delete o (nt_objs n)) (nt_aws n) (nt_error n)).

(** What [bind_listen] meets: whether the address parses, the socket or -1, whether [bind] and
    [listen] succeed. *)
Record bind_answers : Type := mkBind { ba_parsed : bool; ba_socket : Z; ba_bound : bool; ba_listens : bool }.
(** [TcpListener::bind_listen]. *)
Definition listener_bind_listen o (b : bind_answers) n : option (bool * net) :=
  n ← socket_close o n;
  if negb (ba_parsed b) then Some (false, n)
  else if ba_socket b <? 0 then Some (false, nt_set_obj o (mkObj ClsSocket (ba_socket b)) n)
  else
    let n := nt_set_open (acquire (ba_socket b) (nt_open n)) (nt_set_obj o (mkObj ClsSocket (ba_socket b)) n) in
    if negb (ba_bound b) then n ← socket_close o n; Some (false, n)
    else if negb (ba_listens b) then n ← socket_close o n; Some (false, n)
    else Some (true, n).
(** [UdpSocket::bind_listen]. *)
Definition udp_bind_listen o (b : bind_answers) n : option (bool * net) :=
  n ← socket_close o n;
  if negb (ba_parsed b) then Some (false, n)
  else if ba_socket b <? 0 then Some (false, nt_set_obj o (mkObj ClsSocket (ba_socket b)) n)
  else
    let n := nt_set_open (acquire (ba_socket b) (nt_open n)) (nt_set_obj o (mkObj ClsSocket (ba_socket b)) n) in
    if negb (ba_bound b) then n ← socket_close o n; Some (false, n) else Some (true, n).

(** [pipe::pair] and [unix_pair], with what [pipe2] or [socketpair] answers: an error, which only the
    first notes, or two descriptors. *)
Definition pipe_pair o1 o2 (r : Z + Z * Z) n : net :=
  match r with
  | inl e => nt_note (Some e) (nt_set_obj o2 (mkObj ClsPipe (-1)) (nt_set_obj o1 (mkObj ClsPipe (-1)) n))
  | inr (fd1, fd2) =>
      nt_set_open (acquire fd2 (acquire fd1 (nt_open n))) (nt_set_obj o2 (mkObj ClsPipe fd2) (nt_set_obj o1 (mkObj ClsPipe fd1) n))
  end.
(** Over two objects that exist: an assignment each. *)
Definition unix_pair o1 o2 (r : option (Z * Z)) n : option (bool * net) :=
  match r with
  | None => Some (false, n)
  | Some (fd1, fd2) =>
      let n := nt_set_open (acquire fd2 (acquire fd1 (nt_open n))) n in
      n ← socket_close o1 n;
      n ← socket_close o2 (nt_set_obj o1 (mkObj ClsSocket fd1) n);
      Some (true, nt_set_obj o2 (mkObj ClsSocket fd2) n)
  end.

(** ** Steps *)

(** The class of the object that a resumed awaiter makes. *)
Definition made_class (k : aw_kind) : obj_class := match k with FileOpen _ => ClsFile | _ => ClsSocket end.

Definition connect_awaiter (parsed : bool) (sock : Z) : net_awaiter :=
  let '(op, fd) := tcp_connect parsed sock in mkAw TcpConnect 0 fd op Created false.
(** The move constructors of [connect_awaiter] and [accept_awaiter]: the one moved to and the one
    moved from. *)
Definition aw_moved a : net_awaiter * net_awaiter :=
  (a, mkAw (aw_kind_of a) (aw_obj a) (-1)
        (mkOp (uo_continuation (aw_op a)) (uo_result (aw_op a)) (uo_error (aw_op a)) (uo_fd (aw_op a)) false) (aw_phase a) (aw_asked a)).

Inductive net_event : Type :=
  | NvObject o (c : obj_class)
  | NvAdopt o (c : obj_class) (fd : Z)
  | NvMove o o'
  | NvAssign o o'
  | NvClose o
  | NvDestroy o
  | NvListen o (b : bind_answers)
  | NvBindUdp o (b : bind_answers)
  | NvPipe o o' (r : Z + Z * Z)
  | NvUnixPair o o' (r : option (Z * Z))
  | NvConnect p (parsed : bool) (sock : Z)
  | NvAwait p (k : aw_kind) o
  | NvMoveAw p p'
  | NvSuspend p (s : submission)
  | NvCancel p
  | NvComplete p (res : Z)
  | NvResume p o
  | NvEnd p.

(** The descriptor that [await_suspend] reads from the object. *)
Definition target_fd a n : Z := match nt_objs n !! aw_obj a with Some x => ob_fd x | None => -1 end.

Definition net_step (e : net_event) n : option net :=
  match e with
  | NvObject o c => Some (nt_set_obj o (mkObj c (-1)) n)
  | NvAdopt o c fd => Some (nt_set_open (acquire fd (nt_open n)) (nt_set_obj o (mkObj c fd) n))
  | NvMove o o' => obj_move o o' n
  | NvAssign o o' => obj_assign o o' n
  | NvClose o => obj_close o n
  | NvDestroy o => obj_destroy o n
  | NvListen o b => '(_, n) ← listener_bind_listen o b n; Some n
  | NvBindUdp o b => '(_, n) ← udp_bind_listen o b n; Some n
  | NvPipe o o' r => Some (pipe_pair o o' r n)
  | NvUnixPair o o' r => '(_, n) ← unix_pair o o' r n; Some n
  | NvConnect p parsed sock =>
      let a := connect_awaiter parsed sock in
      Some (nt_set_aw p a (if decide (0 ≤ aw_fd a) then nt_set_open (acquire (aw_fd a) (nt_open n)) n else n))
  | NvAwait p k o => Some (nt_set_aw p (mkAw k o (-1) op_new Created false) n)
  | NvMoveAw p p' => a ← nt_aws n !! p; Some (nt_set_aw p (aw_moved a).2 (nt_set_aw p' (aw_moved a).1 n))
  | NvSuspend p s => a ← nt_aws n !! p; Some (nt_set_aw p (aw_suspend (target_fd a n) s a) n)
  | NvCancel p => a ← nt_aws n !! p; Some (nt_set_aw p (aw_ask a) n)
  | NvComplete p res =>
      a ← nt_aws n !! p;
      let n := nt_set_aw p (aw_complete res a) n in
      Some (if gives_fd (aw_kind_of a) && (0 <=? res) then nt_set_open (acquire res (nt_open n)) n else n)
  | NvResume p o =>
      a ← nt_aws n !! p;
      let r := aw_resume a in
      n ← nt_close_fd (re_closes r) (nt_set_aw p (re_awaiter r) n);
      let n := nt_note (re_answer r).2 n in
      Some (match re_makes r with Some fd => nt_set_obj o (mkObj (made_class (aw_kind_of a)) fd) n | None => n end)
  | NvEnd p =>
      a ← nt_aws n !! p;
      n ← nt_close_fd (aw_destroyed a) n;
      Some (mkNet (nt_open n) (nt_objs n) (delete p (nt_aws n)) (nt_error n))
  end.

(** ** Answers *)

(** What an operation that failed answers. *)
Definition failure (k : aw_kind) (e : Z) : Z := match k with Poll _ _ => 0 | FileOpen _ => - e | _ => -1 end.
(** What one that was carried out answers. *)
Definition success (k : aw_kind) (sock res : Z) : Z :=
  match k with TcpConnect => sock | FileFsync => if decide (res = 0) then 0 else -1 | _ => res end.
(** An awaiter as it is made. *)
Definition aw_new (k : aw_kind) (sock : Z) : net_awaiter := match k with TcpConnect => connect_awaiter true sock | _ => mkAw k 0 (-1) op_new Created false end.
(** An operation from [co_await] to its answer. *)
Definition aw_run (k : aw_kind) (sock fd : Z) (s : submission) (res : Z) : answer :=
  let a := aw_suspend fd s (aw_new k sock) in
  re_answer (aw_resume (match s with SubTaken => aw_complete res a | _ => a end)).

Lemma uring_op_error_spec (o : uring_op) : uring_op_error o = 0 ↔ uo_error o = 0 ∧ 0 ≤ uo_result o.
Proof. unfold uring_op_error. case_decide; [destruct (Z.ltb_spec (uo_result o) 0)|]; lia. Qed.

(** The kinds whose code sets [error] too, and looks at nothing else. *)
Definition sets_error (k : aw_kind) : bool :=
  match k with TcpRead _ | TcpWrite _ | TcpConnect | TcpAccept | UdpRecvfrom _ _ | UdpSendto _ => false | _ => true end.

#[local] Ltac open_resume :=
  unfold aw_resume, tcp_read_resume, tcp_write_resume, tcp_connect_resume, tcp_accept_resume, udp_recvfrom_resume, udp_sendto_resume,
    pipe_read_resume, pipe_write_resume, poll_resume, unix_read_resume, unix_write_resume, unix_accept_resume, file_read_resume, file_write_resume,
    file_fsync_resume, file_open_resume, resume_op, resume_error.

Lemma uring_op_error_failed (o : uring_op) e : uo_result o = - e → 0 < e → uo_error o = e ∨ uo_error o = 0 → uring_op_error o = e.
Proof. unfold uring_op_error. intros Hr He Ho. destruct (decide (uo_error o = 0)); [|lia]. rewrite Hr. destruct (Z.ltb_spec (- e) 0); lia. Qed.

Lemma resume_failed a e :
  uo_result (aw_op a) = - e → 0 < e → uo_error (aw_op a) = e ∨ uo_error (aw_op a) = 0 ∧ sets_error (aw_kind_of a) = false →
  re_answer (aw_resume a) = (failure (aw_kind_of a) e, Some e).
Proof.
  intros Hr He Ho. assert (uring_op_error (aw_op a) = e) as Hu by (apply uring_op_error_failed; tauto).
  open_resume. rewrite Hu. destruct (aw_kind_of a) eqn:Hk; cbn [sets_error] in Ho;
    try (destruct Ho as [Ho|[_ ?]]; [|done]; rewrite Ho); rewrite ?(decide_False (P := e = 0)) by lia; cbn; rewrite ?Hr; done.
Qed.

Lemma resume_carried_out a :
  0 ≤ uo_result (aw_op a) → uo_error (aw_op a) = 0 → re_answer (aw_resume a) = (success (aw_kind_of a) (aw_fd a) (uo_result (aw_op a)), None).
Proof.
  intros Hr Ho. assert (uring_op_error (aw_op a) = 0) as Hu by (by apply uring_op_error_spec).
  open_resume. rewrite Hu, Ho, (proj2 (Z.ltb_ge _ 0) Hr). destruct (aw_kind_of a) eqn:Hk; try done. cbn. by repeat case_decide.
Qed.

(** The operation after [await_suspend]. *)
Lemma aw_suspend_op k sock fd s :
  let a := aw_suspend fd s (aw_new k sock) in
  aw_kind_of a = k ∧ (k = TcpConnect → aw_fd a = sock) ∧ ∃ fd', aw_op a = op_suspend (sets_error k) fd' s op_new.
Proof. destruct k; (split; [done|]); (split; [done|]); by eexists. Qed.

(** Each operation answers what the kernel completed it with, or fails and notes why: a negative
    completion, a refused submission, a full queue and a missing source never pass for an answer,
    whichever member of the operation the code has set. *)
Theorem await_answers k sock fd s res :
  (∀ e, s = SubRefused e → 0 < e) →
  aw_run k sock fd s res =
    match s with
    | SubTaken => if res <? 0 then (failure k (- res), Some (- res)) else (success k sock res, None)
    | SubRefused e => (failure k e, Some e)
    | SubFull => (failure k ENOBUFS, Some ENOBUFS)
    | SubNoSource => (failure k ENOTSUP, Some ENOTSUP)
    end.
Proof.
  intros Hs. unfold aw_run. destruct (aw_suspend_op k sock fd s) as (Hk & Hc & fd' & Ho). set (a := aw_suspend fd s (aw_new k sock)) in *. clearbody a. subst k.
  destruct s as [|e| |].
  - destruct (Z.ltb_spec res 0) as [Hr|Hr].
    + rewrite (resume_failed _ (- res)); [done|cbn; lia|lia|]. cbn. rewrite (proj2 (Z.ltb_lt res 0) Hr). by left.
    + rewrite resume_carried_out; [|cbn; lia|cbn; by rewrite (proj2 (Z.ltb_ge res 0) Hr)]. cbn [aw_complete aw_set aw_kind_of aw_fd aw_op op_end uo_result].
      f_equal. destruct (aw_kind_of a); try done. by rewrite Hc.
  - apply resume_failed; [by rewrite Ho|auto|rewrite Ho; by left].
  - apply resume_failed; [by rewrite Ho|done|]. rewrite Ho. cbn. destruct (sets_error _); auto.
  - apply resume_failed; [by rewrite Ho|done|]. rewrite Ho. cbn. destruct (sets_error _); auto.
Qed.

(** ** The submission *)

(** [await_suspend] over the queue of [UringM] leaves the operation as [op_suspend] says, and counts
    it as pending exactly when the kernel has it; the coroutine is queued in the other cases. *)
Theorem suspend_outcome log both opcode fd len ans h p (o : uring_op) u :
  ring_ok log u → ur_ops u !! p = Some o →
  let u' := uring_await_suspend both opcode fd len ans h p u in
  ∃ s, ur_ops u' !! p = Some (op_suspend both fd s (mkOp h (uo_result o) (uo_error o) (uo_fd o) (uo_uring o))) ∧
    s ≠ SubNoSource ∧ (∀ e, s = SubRefused e → 0 < e) ∧
    (ur_pending u', ur_scheduled u') = match s with SubTaken => (ur_pending u + 1, ur_scheduled u) | _ => (ur_pending u, ur_scheduled u ++ [h]) end.
Proof.
  intros Hr Ho u'. destruct (await_suspend_spec log both opcode fd len ans h p o u Hr Ho) as [sq _ _ _|sq k l res _ _ _ _ Hres _|_].
  - exists SubTaken. cbn. rewrite lookup_insert_eq. split_and!; done.
  - exists (SubRefused (- res)). cbn. rewrite lookup_insert_eq, Z.opp_involutive. split_and!; try done. intros e [= <-]. lia.
  - exists SubFull. cbn. rewrite lookup_insert_eq. split_and!; done.
Qed.

(** ** What modelling showed *)

(** The result of an operation is 0 until it is completed: the awaiter of an [accept] that is destroyed
    before closes descriptor 0. *)
Lemma accept_destroyed_under_way fd : aw_destroyed (aw_suspend fd SubTaken (mkAw TcpAccept 0 (-1) op_new Created false)) = 0.
Proof. reflexivity. Qed.

(** The kernel gets the length modulo 2^32: reading 2^32 bytes asks for none, and the answer 0 is that
    of a peer that has closed. *)
Lemma read_length_cut fd s (o : uring_op) : en_len (tcp_read_suspend fd (2 ^ 32) s o).1 = 0 ∧ en_len (pipe_read_suspend fd (2 ^ 32) s o).1 = 0.
Proof. done. Qed.

(** The descriptors that [UnixListener] accepts are inherited by children, those of [TcpListener] not. *)
Lemma unix_accept_inherits fd s (o : uring_op) : en_arg (unix_accept_suspend fd s o).1 = 0 ∧ en_arg (tcp_accept_suspend fd s o).1 = SOCK_CLOEXEC.
Proof. done. Qed.

(** A failure of [socket] is forgotten: the connection is asked for on descriptor -1. *)
Lemma connect_forgets_socket s : (tcp_connect_suspend (tcp_connect true (-1)).2 s (tcp_connect true (-1)).1).1 = Some (mkEntry OpConnect (-1) 0 sockaddr_in_size 0).
Proof. reflexivity. Qed.

Lemma await_answers_witness : aw_run (TcpRead 16) 0 5 (SubRefused 11) 0 = (-1, Some 11).
Proof. apply (await_answers (TcpRead 16) 0 5 (SubRefused 11) 0). intros e [= <-]. lia. Defined.

Definition demo_ring : uring := ur_set_ops {[7%nat := op_new]} (mkUring (mkSq 0 0 0 0 4 (replicate 4 nop_sqe)) [] [] false 0 0 ∅ ∅ []).
Lemma suspend_outcome_witness :
  ∃ s, ur_ops (uring_await_suspend false OpRecv 4 16 TakesAll 70 7 demo_ring) !! 7%nat = Some (op_suspend false 4 s (mkOp 70 0 0 (-1) false)).
Proof.
  destruct (suspend_outcome 2 false OpRecv 4 16 TakesAll 70 7 op_new demo_ring) as (s & Hs & _); [|done|by exists s].
  apply (init_ring 2 false). lia.
Defined.
