(* ===== verification/NetInv.v ===== *)
(** * NetInv: who holds the descriptors, and what closing them does

    The invariants of [NetM] in any order of its operations: each open descriptor is held once, none
    is closed twice, and an operation whose descriptor was closed has been asked to end. *)

From S2P Require Import Prelude UringM Descriptors NetM.
From stdpp Require Import options.

Local Open Scope Z_scope.
Implicit Types (n : net) (o p : nat) (a : net_awaiter).

(** ** Who holds what *)

(** A result that is still under way is not there yet. *)
Definition aw_held a : list Z := if bool_decide (aw_phase a = Flying) && gives_fd (aw_kind_of a) then [] else fd_list (aw_destroyed a).
Definition ob_held (x : object) : list Z := fd_list (ob_fd x).
Definition own n (x : Z) : nat := (map_held ob_held (nt_objs n) x + map_held aw_held (nt_aws n) x)%nat.

Record aw_ok a : Prop := {
  ao_created : aw_phase a = Created → uo_uring (aw_op a) = false ∧ uo_error (aw_op a) = 0 ∧ uo_fd (aw_op a) = -1;
  ao_flying : aw_phase a = Flying → uo_uring (aw_op a) = true;
  ao_done : aw_phase a = Done → (uo_uring (aw_op a) = true ∨ uo_result (aw_op a) < 0) ∧ (uo_error (aw_op a) ≠ 0 → uo_result (aw_op a) < 0);
}.
(** [ex] counts what a call has in its hands. *)
Record net_with (ex : Z → nat) n : Prop := {
  no_exact : exact (λ z, (ex z + own n z)%nat) (nt_open n);
  no_aws : map_Forall (λ _, aw_ok) (nt_aws n);
}.
Definition net_ok n : Prop := net_with (λ _, 0%nat) n.

Lemma own_set_obj o x y n z : nt_objs n !! o = Some x → (own (nt_set_obj o y n) z + held z (ob_held x) = held z (ob_held y) + own n z)%nat.
Proof. intros Ho. unfold own. cbn. pose proof (map_held_insert ob_held (nt_objs n) o x y z Ho). lia. Qed.
Lemma own_new_obj o y n z : nt_objs n !! o = None → own (nt_set_obj o y n) z = (held z (ob_held y) + own n z)%nat.
Proof. intros Ho. unfold own. cbn. rewrite map_held_insert_new by done. lia. Qed.
Lemma own_set_aw p a b n z : nt_aws n !! p = Some a → (own (nt_set_aw p b n) z + held z (aw_held a) = held z (aw_held b) + own n z)%nat.
Proof. intros Ho. unfold own. cbn. pose proof (map_held_insert aw_held (nt_aws n) p a b z Ho). lia. Qed.
Lemma own_new_aw p b n z : nt_aws n !! p = None → own (nt_set_aw p b n) z = (held z (aw_held b) + own n z)%nat.
Proof. intros Ho. unfold own. cbn. rewrite map_held_insert_new by done. lia. Qed.
Lemma own_set_open t n z : own (nt_set_open t n) z = own n z.
Proof. done. Qed.
Lemma own_note e n z : own (nt_note e n) z = own n z.
Proof. done. Qed.

Lemma held_nothing z fd : fd < 0 → held z (fd_list fd) = 0%nat.
Proof. intros Hf. rewrite held_fd_list. case_decide; [lia|done]. Qed.
Lemma held_one z fd : 0 ≤ fd → held z (fd_list fd) = if decide (z = fd) then 1%nat else 0%nat.
Proof. intros Hf. rewrite held_fd_list. repeat case_decide; tauto. Qed.

Lemma aw_ask_held a : aw_held (aw_ask a) = aw_held a.
Proof. done. Qed.
Lemma own_cancel fd n z : own (nt_cancel_fd fd n) z = own n z.
Proof. unfold own. cbn. f_equal. apply map_held_fmap. intros a. by case_decide. Qed.
Lemma cancel_aws_ok fd n : map_Forall (λ _, aw_ok) (nt_aws n) → map_Forall (λ _, aw_ok) (nt_aws (nt_cancel_fd fd n)).
Proof.
  intros Ha p a Hp. cbn in Hp. rewrite lookup_fmap in Hp. destruct (nt_aws n !! p) as [b|] eqn:Hb; [|done]. cbn in Hp.
  apply Ha in Hb. injection Hp as <-. case_decide; [|done]. by destruct Hb.
Qed.

(** Closing an object. *)
Lemma close_fd_ok fd n (own0 own' : Z → nat) :
  exact own0 (nt_open n) → (∀ z, own0 z = (held z (fd_list fd) + own' z)%nat) →
  ∃ t, nt_close_fd fd n = Some (nt_set_open t n) ∧ exact own' t.
Proof.
  intros He Hd. destruct (release_valid_owned own0 own' fd (nt_open n) He Hd) as (t & Ht & Hx). unfold nt_close_fd. rewrite Ht. cbn. eauto.
Qed.

Definition closed_obj o n n' : Prop :=
  ∃ x x' g, nt_objs n !! o = Some x ∧ ob_fd x' < 0 ∧ ob_class x' = ob_class x ∧ nt_objs n' = <[o := x']> (nt_objs n) ∧ nt_aws n' = g <$> nt_aws n ∧
    (∀ a, g a = a ∨ g a = aw_ask a) ∧
    (∀ a, ob_class x ≠ ClsFile → 0 ≤ ob_fd x → uo_uring (aw_op a) = true → uo_fd (aw_op a) = ob_fd x → g a = aw_ask a) ∧
    nt_open n' ⊆ nt_open n ∧ (0 ≤ ob_fd x → ob_fd x ∉ nt_open n').

Lemma released_open fd t t' : release_valid fd t = Some t' → t' ⊆ t ∧ (0 ≤ fd → fd ∉ t').
Proof.
  unfold release_valid, release. intros Hr. destruct (decide (0 ≤ fd)); [|injection Hr as <-; done].
  destruct (decide (fd ∈ t)); [|done]. injection Hr as <-. set_solver.
Qed.

Lemma obj_close_closed o n n' : obj_close o n = Some n' → closed_obj o n n'.
Proof.
  unfold obj_close. destruct (nt_objs n !! o) as [x|] eqn:Ho; [|done]. cbn [mbind option_bind]. intros Hc.
  assert (∃ m, (m = nt_cancel_fd (ob_fd x) n ∨ ob_class x = ClsFile ∧ m = n) ∧
    (if 0 <=? ob_fd x then n ← nt_close_fd (ob_fd x) m; Some (nt_set_obj o (mkObj (ob_class x) (-1)) n) else Some n) = Some n') as (m & Hm & Hn).
  { unfold socket_close, pipe_close, file_close in Hc. rewrite Ho in Hc. cbn [mbind option_bind] in Hc. destruct (ob_class x); eauto. }
  destruct (Z.leb_spec 0 (ob_fd x)).
  - unfold nt_close_fd in Hn. destruct (release_valid (ob_fd x) (nt_open m)) as [t|] eqn:Hr; [|done]. cbn [mbind option_bind] in Hn. injection Hn as <-.
    assert (nt_open m = nt_open n) as Ht by (by destruct Hm as [-> | [_ ->]]). rewrite Ht in Hr. destruct (released_open _ _ _ Hr).
    exists x, (mkObj (ob_class x) (-1)). destruct Hm as [-> | [Hcls ->]].
    + exists (λ a, if decide (uo_uring (aw_op a) = true ∧ uo_fd (aw_op a) = ob_fd x) then aw_ask a else a).
      split_and!; try done; [intros a; case_decide; auto|]. intros a _ _ Hu1 Hu2. by rewrite decide_True.
    + exists id. cbn. rewrite map_fmap_id. split_and!; try done; auto.
  - injection Hn as <-. exists x, x, id. rewrite map_fmap_id, insert_id by done. split_and!; try done; auto; intros; lia.
Qed.

Lemma obj_close_with ex o n x :
  net_with ex n → nt_objs n !! o = Some x → ∃ n', obj_close o n = Some n' ∧ net_with ex n' ∧ closed_obj o n n'.
Proof.
  intros [He Ha] Ho. assert (∃ n', obj_close o n = Some n' ∧ net_with ex n') as (n' & Hn & Hw); [|exists n'; auto using obj_close_closed].
  unfold obj_close. rewrite Ho. cbn [mbind option_bind].
  assert (∀ m, (m = nt_cancel_fd (ob_fd x) n ∨ m = n) →
    ∃ n', (if 0 <=? ob_fd x then n ← nt_close_fd (ob_fd x) m; Some (nt_set_obj o (mkObj (ob_class x) (-1)) n) else Some n) = Some n' ∧ net_with ex n') as Hc.
  { intros m Hm. destruct (Z.leb_spec 0 (ob_fd x)); [|exists n; by split].
    assert (nt_objs m = nt_objs n ∧ nt_open m = nt_open n ∧ (∀ z, own m z = own n z) ∧ map_Forall (λ _, aw_ok) (nt_aws m)) as (Hmo & Hmt & Hmw & Hma).
    { destruct Hm as [-> | ->]; [|done]. split_and!; [done|done|intros z; apply own_cancel|by apply cancel_aws_ok]. }
    destruct (close_fd_ok (ob_fd x) m (λ z, (ex z + own m z)%nat) (λ z, (ex z + own (nt_set_obj o (mkObj (ob_class x) (-1)) m) z)%nat)) as (t & Ht & Hx).
    - intros z. by rewrite Hmw, Hmt.
    - intros z. pose proof (own_set_obj o x (mkObj (ob_class x) (-1)) m z) as Hs. rewrite Hmo in Hs. specialize (Hs Ho).
      unfold ob_held in Hs. cbn [ob_fd] in Hs. rewrite (held_nothing z (-1)) in Hs by lia. lia.
    - rewrite Ht. cbn [mbind option_bind]. eexists. split; [done|]. by split. }
  unfold socket_close, pipe_close, file_close. rewrite Ho. cbn [mbind option_bind]. destruct (ob_class x); apply Hc; auto.
Qed.

Lemma obj_close_ok o n x :
  net_ok n → nt_objs n !! o = Some x → ∃ n', obj_close o n = Some n' ∧ net_ok n' ∧ closed_obj o n n'.
Proof. apply obj_close_with. Qed.

(** What [closed_obj] leaves alone. *)
Lemma closed_other o o' n n' : closed_obj o n n' → o' ≠ o → nt_objs n' !! o' = nt_objs n !! o'.
Proof. intros (x & x' & g & _ & _ & _ & -> & _) Hne. by rewrite lookup_insert_ne. Qed.
Lemma closed_self o n n' : closed_obj o n n' → ∃ x', nt_objs n' !! o = Some x' ∧ ob_fd x' < 0.
Proof. intros (x & x' & g & _ & Hn & _ & -> & _). exists x'. by rewrite lookup_insert_eq. Qed.

(** The awaiters. *)
Lemma aw_held_created a : aw_ok a → aw_phase a = Created → aw_held a = match aw_kind_of a with TcpConnect => fd_list (aw_fd a) | _ => [] end.
Proof.
  intros [Hc _ _] Hp. destruct (Hc Hp) as (Hu & _). unfold aw_held, aw_destroyed, accept_destroyed. rewrite Hp, Hu. by destruct (aw_kind_of a).
Qed.

#[local] Ltac aw_case := unfold ENOBUFS, ENOTSUP; intros; try discriminate; repeat split; intros; solve [done | lia | by left | right; lia].

(** The awaiter that is suspended: its operation is under way, or it has an error. *)
Lemma aw_suspend_ok fd s a :
  aw_ok a → aw_phase a = Created → (∀ e, s = SubRefused e → 0 < e) → aw_ok (aw_suspend fd s a) ∧ ∀ z, held z (aw_held (aw_suspend fd s a)) = held z (aw_held a).
Proof.
  intros Hok Hp Hs. rewrite (aw_held_created a Hok Hp). destruct Hok as [Hc _ _]. destruct (Hc Hp) as (Hu & He & _).
  unfold aw_suspend. destruct a as [k ao afd o ph ask]. cbn in *. subst ph. destruct o as [cont res err ofd ur]. cbn in *. subst ur err.
  destruct s as [|e| |]; [|specialize (Hs e eq_refl)| |];
    (destruct k; try (unfold tcp_connect_suspend; cbn; destruct (Z.ltb_spec res 0)); (split; [split; cbn; aw_case|]));
    intros z; unfold aw_held, aw_destroyed, accept_destroyed; cbn; try done; by rewrite (bool_decide_false (e = 0)) by lia.
Qed.

Lemma aw_complete_ok res a :
  aw_ok a → aw_phase a = Flying →
  aw_ok (aw_complete res a) ∧
  ∀ z, held z (aw_held (aw_complete res a)) = (held z (if gives_fd (aw_kind_of a) && (0 <=? res)%Z then [res] else []) + held z (aw_held a))%nat.
Proof.
  intros [_ Hf _] Hp. specialize (Hf Hp). destruct a as [k ao afd o ph ask]. cbn in *. subst ph. destruct o as [cont r err ofd ur]. cbn in *. subst ur.
  split.
  - split; cbn; try done. intros _. split; [by left|]. destruct (Z.ltb_spec res 0); [done|lia].
  - intros z. unfold aw_held, aw_destroyed, accept_destroyed. cbn. rewrite (bool_decide_false (Done = Flying)), (bool_decide_true (Flying = Flying)) by done.
    destruct k; cbn; try done; (destruct (Z.leb_spec 0 res);
      [rewrite (proj2 (Z.ltb_ge res 0)), (bool_decide_true (0 = 0)) by lia|rewrite (proj2 (Z.ltb_lt res 0)), (bool_decide_false (- res = 0)) by lia]);
      cbn [andb]; rewrite ?(held_one z res), ?(held_nothing z (-1)) by lia; cbn; lia.
Qed.

(** The descriptor of an answer that was not taken. *)
Lemma accept_held a :
  gives_fd (aw_kind_of a) = true → aw_phase a ≠ Flying → aw_held a = fd_list (accept_destroyed (aw_op a)).
Proof. intros Hg Hp. unfold aw_held, aw_destroyed. rewrite bool_decide_false by done. by destruct (aw_kind_of a). Qed.

Lemma makes_ok (o' : uring_op) (fd : Z) a :
  gives_fd (aw_kind_of a) = true → aw_ok a → aw_phase a = Done →
  (uo_error (aw_op a) = 0 ∧ 0 ≤ uo_result (aw_op a) ∧ fd = uo_result (aw_op a) ∧ uo_result o' < 0 ∨
   ¬ (uo_error (aw_op a) = 0 ∧ 0 ≤ uo_result (aw_op a)) ∧ fd < 0 ∧ (o' = aw_op a ∨ uo_result o' < 0)) →
  ∀ z, held z (aw_held a) = (held z (fd_list fd) + held z (aw_held (aw_set o' Resumed a)))%nat.
Proof.
  intros Hg [_ _ Hd] Hp Hc z. destruct (Hd Hp) as [Hu _]. rewrite !accept_held by (done || by rewrite Hp). cbn [aw_op aw_set]. unfold accept_destroyed.
  destruct Hc as [(-> & Hr & -> & Ho)|(Hn & Hf & Ho)].
  - destruct Hu as [-> |]; [|lia]. rewrite (proj2 (Z.leb_le 0 _) Hr). cbn. rewrite (proj2 (Z.leb_gt 0 _) Ho), andb_false_r.
    rewrite ?(bool_decide_true (0 = 0)) by done. cbn [andb]. rewrite (held_nothing z (-1)) by lia. lia.
  - rewrite (held_nothing z fd) by done. assert (∀ b, b && bool_decide (uo_error (aw_op a) = 0) && (0 <=? uo_result (aw_op a)) = false) as Hfalse.
    { intros b. destruct (Z.leb_spec 0 (uo_result (aw_op a))); [|by rewrite andb_false_r]. rewrite bool_decide_false by tauto. by rewrite andb_false_r. }
    rewrite Hfalse, (held_nothing z (-1)) by lia. destruct Ho as [-> | Ho]; [by rewrite Hfalse, (held_nothing z (-1)) by lia|].
    by rewrite (proj2 (Z.leb_gt 0 _) Ho), andb_false_r, (held_nothing z (-1)) by lia.
Qed.

Lemma aw_resumed_phase a : aw_phase (re_awaiter (aw_resume a)) = Resumed.
Proof. unfold aw_resume, tcp_connect_resume. destruct a as [[] ao afd o ph ask]; cbn; try done. by case_decide. Qed.

Lemma aw_resume_ok a :
  aw_ok a → aw_phase a = Done →
  aw_ok (re_awaiter (aw_resume a)) ∧
  ∀ z, held z (aw_held a) =
    (held z (fd_list (re_closes (aw_resume a))) + held z (fd_list (default (-1)%Z (re_makes (aw_resume a)))) + held z (aw_held (re_awaiter (aw_resume a))))%nat.
Proof.
  intros Hok Hp. split; [by split; rewrite aw_resumed_phase|]. intros z. pose proof (uring_op_error_spec (aw_op a)) as He. unfold aw_resume.
  destruct (aw_kind_of a) eqn:Hk; try (unfold aw_held, aw_destroyed; cbn; rewrite !Hk; cbn; rewrite ?andb_false_r; cbn; done).
  - unfold tcp_connect_resume. destruct (decide (uring_op_error (aw_op a) = 0)); unfold aw_held, aw_destroyed, connect_destroyed; cbn; rewrite Hk; cbn;
      rewrite ?andb_false_r; cbn; rewrite ?(held_nothing z (-1)) by lia; lia.
  - unfold tcp_accept_resume. destruct (decide (uring_op_error (aw_op a) = 0)); cbn [makes re_closes re_makes re_awaiter default fst snd]; rewrite (held_nothing z (-1)) by lia;
      apply makes_ok; rewrite ?Hk; try done; [left; cbn; split_and!; (lia || done || naive_solver)|right; cbn; split; [tauto|]; split; [lia|by left]].
  - unfold unix_accept_resume. destruct (decide (uo_error (aw_op a) = 0)); [destruct (Z.ltb_spec (uo_result (aw_op a)) 0)|];
      cbn [makes re_closes re_makes re_awaiter default fst snd]; rewrite (held_nothing z (-1)) by lia; apply makes_ok; rewrite ?Hk; try done;
      [right; cbn; split; [lia|]; split; [lia|by left]|left; cbn; split_and!; done || lia|right; cbn; split; [tauto|]; split; [lia|by left]].
  - unfold file_open_resume. cbn [makes re_closes re_makes re_awaiter default fst snd]. rewrite (held_nothing z (-1)) by lia. apply makes_ok; rewrite ?Hk; try done.
    destruct Hok as [_ _ Hd]. destruct (Hd Hp) as [_ Hneg]. cbn. destruct (Z.leb_spec 0 (uo_result (aw_op a))) as [Hr|Hr].
    + left. split_and!; try done. destruct (decide (uo_error (aw_op a) = 0)); [done|]. specialize (Hneg n). lia.
    + right. cbn. split; [lia|]. split; [lia|]. right. done.
Qed.

(** ** Any order of the operations *)

(** A descriptor that the kernel hands out is free, or was given back in the same call. *)
Definition fresh (fd : Z) n : Prop := 0 ≤ fd → fd ∉ nt_open n.
Definition fresh_after o (fd : Z) n : Prop := 0 ≤ fd → fd ∈ nt_open n → ob_fd <$> nt_objs n !! o = Some fd.

(** What the code above keeps to: objects are made at free addresses and used while they exist, an
    awaiter is suspended once and resumed once, and not destroyed while its operation is under way;
    a file is not closed while operations on it are. *)
Definition quiet_file o n : Prop :=
  ∀ x p a, nt_objs n !! o = Some x → ob_class x = ClsFile → nt_aws n !! p = Some a → aw_phase a = Flying → aw_asked a = false → uo_fd (aw_op a) ≠ ob_fd x ∨ ob_fd x < 0.
Definition event_ok (e : net_event) n : Prop :=
  match e with
  | NvObject o _ => nt_objs n !! o = None
  | NvAdopt o _ fd => nt_objs n !! o = None ∧ 0 ≤ fd ∧ fresh fd n
  | NvMove o o' => is_Some (nt_objs n !! o) ∧ nt_objs n !! o' = None
  | NvAssign o o' => is_Some (nt_objs n !! o) ∧ is_Some (nt_objs n !! o') ∧ quiet_file o n
  | NvClose o | NvDestroy o => is_Some (nt_objs n !! o) ∧ quiet_file o n
  | NvListen o b | NvBindUdp o b => (ob_class <$> nt_objs n !! o) = Some ClsSocket ∧ fresh_after o (ba_socket b) n
  | NvPipe o o' r => nt_objs n !! o = None ∧ nt_objs n !! o' = None ∧ o ≠ o' ∧
      match r with inl _ => True | inr (a, b) => 0 ≤ a ∧ 0 ≤ b ∧ a ≠ b ∧ fresh a n ∧ fresh b n end
  | NvUnixPair o o' r => (ob_class <$> nt_objs n !! o) = Some ClsSocket ∧ (ob_class <$> nt_objs n !! o') = Some ClsSocket ∧
      match r with None => True | Some (a, b) => 0 ≤ a ∧ 0 ≤ b ∧ a ≠ b ∧ fresh a n ∧ fresh b n end
  | NvConnect p _ sock => nt_aws n !! p = None ∧ fresh sock n
  | NvAwait p k _ => nt_aws n !! p = None ∧ k ≠ TcpConnect ∧
      match k with Poll fd _ => 0 ≤ fd → ∃ o x, nt_objs n !! o = Some x ∧ ob_fd x = fd | _ => True end
  | NvMoveAw p p' => nt_aws n !! p' = None ∧ ∃ a, nt_aws n !! p = Some a ∧ aw_phase a = Created
  | NvSuspend p s => (∃ a, nt_aws n !! p = Some a ∧ aw_phase a = Created ∧
      match aw_kind_of a with Poll fd _ => 0 ≤ fd → ∃ o x, nt_objs n !! o = Some x ∧ ob_fd x = fd | _ => True end) ∧
      ∀ e, s = SubRefused e → 0 < e
  | NvCancel p => is_Some (nt_aws n !! p)
  | NvComplete p res => ∃ a, nt_aws n !! p = Some a ∧ aw_phase a = Flying ∧ (gives_fd (aw_kind_of a) = true → fresh res n)
  | NvResume p o => (∃ a, nt_aws n !! p = Some a ∧ aw_phase a = Done) ∧ nt_objs n !! o = None
  | NvEnd p => ∃ a, nt_aws n !! p = Some a ∧ aw_phase a ≠ Flying
  end.

Inductive net_reachable : net → Prop :=
  | NrInit : net_reachable (mkNet ∅ ∅ ∅ 0)
  | NrStep e n n' : net_reachable n → event_ok e n → net_step e n = Some n' → net_reachable n'.

(** Changes of one object or awaiter that keep the account. *)
Lemma net_ok_intro n (own' : Z → nat) : exact own' (nt_open n) → (∀ z, own n z = own' z) → map_Forall (λ _, aw_ok) (nt_aws n) → net_ok n.
Proof. intros He Ho Ha. split; [|done]. intros z. cbn. by rewrite Ho. Qed.

Lemma net_ok_new_obj o x n : net_ok n → nt_objs n !! o = None → ob_fd x < 0 → net_ok (nt_set_obj o x n).
Proof.
  intros [He Ha] Ho Hx. apply (net_ok_intro _ (own n)); [done| |done]. intros z. rewrite own_new_obj by done. unfold ob_held. by rewrite held_nothing.
Qed.
Lemma net_ok_set_obj o x y n : net_ok n → nt_objs n !! o = Some x → ob_fd x < 0 → ob_fd y < 0 → net_ok (nt_set_obj o y n).
Proof.
  intros [He Ha] Ho Hx Hy. apply (net_ok_intro _ (own n)); [done| |done]. intros z. pose proof (own_set_obj o x y n z Ho) as Hs.
  unfold ob_held in Hs. rewrite !held_nothing in Hs by done. lia.
Qed.

(** An object takes a new descriptor. *)
Lemma net_ok_acquire fd n m :
  net_ok n → fresh fd n → 0 ≤ fd → nt_open m = nt_open n → nt_aws m = nt_aws n → (∀ z, own m z = ((if decide (z = fd) then 1 else 0) + own n z)%nat) →
  net_ok (nt_set_open (acquire fd (nt_open m)) m).
Proof.
  intros [He Ha] Hf H0 Ht Hw Ho. split; [|cbn; by rewrite Hw]. cbn. rewrite Ht.
  apply (acquire_owned (own n)); [done|by apply Hf|]. intros z. by rewrite own_set_open.
Qed.
Lemma net_ok_adopt_new o c fd n :
  net_ok n → nt_objs n !! o = None → fresh fd n → 0 ≤ fd → net_ok (nt_set_open (acquire fd (nt_open n)) (nt_set_obj o (mkObj c fd) n)).
Proof.
  intros Hok Ho Hf H0. apply (net_ok_acquire fd n (nt_set_obj o (mkObj c fd) n)); try done.
  intros z. rewrite own_new_obj by done. unfold ob_held. cbn [ob_fd]. by rewrite held_one.
Qed.
Lemma net_ok_adopt o x c fd n :
  net_ok n → nt_objs n !! o = Some x → ob_fd x < 0 → fresh fd n → 0 ≤ fd → net_ok (nt_set_open (acquire fd (nt_open n)) (nt_set_obj o (mkObj c fd) n)).
Proof.
  intros Hok Ho Hx Hf H0. apply (net_ok_acquire fd n (nt_set_obj o (mkObj c fd) n)); try done.
  intros z. pose proof (own_set_obj o x (mkObj c fd) n z Ho) as Hs. unfold ob_held in Hs. cbn [ob_fd] in Hs. rewrite (held_one z fd), (held_nothing z (ob_fd x)) in Hs by done. lia.
Qed.

(** What is fresh stays fresh when something is closed. *)
Lemma fresh_closed o fd n n' : closed_obj o n n' → fresh fd n → fresh fd n'.
Proof. intros (x & x' & g & _ & _ & _ & _ & _ & _ & _ & Hs & _) Hf H0. specialize (Hf H0). set_solver. Qed.
Lemma fresh_after_closed o fd n n' : closed_obj o n n' → fresh_after o fd n → fresh fd n'.
Proof.
  intros (x & x' & g & Hx & Hx' & _ & Ho & _ & _ & _ & Hs & Hc) Hf H0 Hin. specialize (Hf H0 (Hs _ Hin)). rewrite Hx in Hf.
  injection Hf as <-. by apply Hc.
Qed.

Lemma socket_close_eq o n x : nt_objs n !! o = Some x → ob_class x = ClsSocket → socket_close o n = obj_close o n.
Proof. intros Ho Hc. unfold obj_close. rewrite Ho. cbn. by rewrite Hc. Qed.

(** The two functions that bind. *)
Lemma net_bind_ok (udp : bool) o b n :
  net_ok n → (ob_class <$> nt_objs n !! o) = Some ClsSocket → fresh_after o (ba_socket b) n →
  ∃ r n', (if udp then udp_bind_listen o b n else listener_bind_listen o b n) = Some (r, n') ∧ net_ok n'.
Proof.
  intros Hok Hcl Hf. destruct (nt_objs n !! o) as [x|] eqn:Ho; [|done]. injection Hcl as Hcl.
  destruct (obj_close_ok o n x Hok Ho) as (n1 & Hc1 & Hok1 & Hcl1). pose proof (fresh_after_closed _ _ _ _ Hcl1 Hf) as Hf1.
  destruct (closed_self _ _ _ Hcl1) as (x1 & Hx1 & Hneg1). set (n2 := nt_set_obj o (mkObj ClsSocket (ba_socket b)) n1).
  assert (0 ≤ ba_socket b → ∃ n', socket_close o (nt_set_open (acquire (ba_socket b) (nt_open n2)) n2) = Some n' ∧ net_ok n') as Hfail.
  { intros H0. pose proof (net_ok_adopt o x1 ClsSocket (ba_socket b) n1 Hok1 Hx1 Hneg1 Hf1 H0) as Hok2.
    assert (nt_objs (nt_set_open (acquire (ba_socket b) (nt_open n2)) n2) !! o = Some (mkObj ClsSocket (ba_socket b))) as Hl by apply lookup_insert_eq.
    rewrite (socket_close_eq _ _ _ Hl eq_refl). destruct (obj_close_ok _ _ _ Hok2 Hl) as (n3 & Hn3 & Hok3 & _). exists n3. by split; [exact Hn3|]. }
  assert (0 ≤ ba_socket b → net_ok (nt_set_open (acquire (ba_socket b) (nt_open n2)) n2)) as Hgood by (intros H0; exact (net_ok_adopt o x1 ClsSocket (ba_socket b) n1 Hok1 Hx1 Hneg1 Hf1 H0)).
  unfold udp_bind_listen, listener_bind_listen. rewrite (socket_close_eq o n x Ho Hcl), Hc1. cbn [mbind option_bind].
  destruct (ba_parsed b); cbn [negb]; [|destruct udp; eauto].
  destruct (Z.ltb_spec (ba_socket b) 0) as [Hn|H0].
  { assert (net_ok n2) by (by apply (net_ok_set_obj o x1)). destruct udp; eauto. }
  destruct (Hfail H0) as (n3 & Hn3 & Hok3). specialize (Hgood H0). fold n2. change (nt_open n1) with (nt_open n2). rewrite Hn3. cbn [mbind option_bind].
  destruct udp; destruct (ba_bound b); cbn [negb]; eauto. destruct (ba_listens b); cbn [negb]; eauto.
Qed.

(** An object that has been closed takes a descriptor that a call has in its hands. *)
Lemma net_with_hand (ex ex' : Z → nat) o x c fd n :
  net_with ex n → (∀ z, ex z = ((if decide (z = fd) then 1 else 0) + ex' z)%nat) → 0 ≤ fd → nt_objs n !! o = Some x → ob_fd x < 0 →
  net_with ex' (nt_set_obj o (mkObj c fd) n).
Proof.
  intros [He Ha] Hx H0 Ho Hn. split; [|done]. intros z. specialize (He z). cbn in *. rewrite Hx in He.
  pose proof (own_set_obj o x (mkObj c fd) n z Ho) as Hs. unfold ob_held in Hs. cbn [ob_fd] in Hs. rewrite (held_one z fd), (held_nothing z (ob_fd x)) in Hs by done.
  rewrite <- He. lia.
Qed.

Lemma unix_pair_ok o o' r n :
  net_ok n → event_ok (NvUnixPair o o' r) n → ∃ b n', unix_pair o o' r n = Some (b, n') ∧ net_ok n'.
Proof.
  intros Hok (Hc1 & Hc2 & Hr). destruct r as [[a b]|]; [|by exists false, n]. destruct Hr as (Ha & Hb & Hne & Hfa & Hfb). cbn [unix_pair]. cbn zeta.
  destruct (nt_objs n !! o) as [x|] eqn:Hx; [|done]. injection Hc1 as Hcx. destruct (nt_objs n !! o') as [y|] eqn:Hy; [|done]. injection Hc2 as Hcy.
  set (one := λ fd z : Z, if decide (z = fd) then 1%nat else 0%nat).
  set (n0 := nt_set_open (acquire b (acquire a (nt_open n))) n).
  assert (net_with (λ z, (one a z + one b z)%nat) n0) as Hw.
  { destruct Hok as [He Hw]. split; [|done]. unfold n0. cbn. apply (acquire_owned (λ z, (one a z + own n z)%nat)); [|unfold acquire, fresh in *; set_solver|].
    - apply (acquire_owned (own n)); [done|by apply Hfa|]. done.
    - intros z. unfold own, one. cbn. lia. }
  assert (nt_objs n0 !! o = Some x) as Hx0 by done. rewrite (socket_close_eq o n0 x Hx0 Hcx).
  destruct (obj_close_with _ o n0 x Hw Hx0) as (n1 & -> & Hw1 & Hcl1). cbn [mbind option_bind].
  destruct (closed_self _ _ _ Hcl1) as (x1 & Hx1 & Hn1). set (n2 := nt_set_obj o (mkObj ClsSocket a) n1).
  assert (net_with (one b) n2) as Hw2 by (apply (net_with_hand _ _ o x1 ClsSocket a n1 Hw1); done).
  assert (∃ y2, nt_objs n2 !! o' = Some y2 ∧ ob_class y2 = ClsSocket) as (y2 & Hy2 & Hcy2).
  { unfold n2. cbn. destruct (decide (o' = o)) as [->|]; [rewrite lookup_insert_eq; eauto|rewrite lookup_insert_ne by done].
    rewrite (closed_other o o' n0 n1) by done. cbn. rewrite Hy. eauto. }
  rewrite (socket_close_eq o' n2 y2 Hy2 Hcy2). destruct (obj_close_with _ o' n2 y2 Hw2 Hy2) as (n3 & -> & Hw3 & Hcl3). cbn [mbind option_bind].
  destruct (closed_self _ _ _ Hcl3) as (y3 & Hy3 & Hn3). eexists _, _. split; [done|].
  apply (net_with_hand _ _ o' y3 ClsSocket b n3 Hw3); [|done..]. intros z. unfold one. lia.
Qed.

Lemma assign_ok o o' n : net_ok n → is_Some (nt_objs n !! o) → is_Some (nt_objs n !! o') → ∃ n', obj_assign o o' n = Some n' ∧ net_ok n'.
Proof.
  intros Hok [x Hx] [y Hy]. unfold obj_assign. case_decide as Hne; [eauto|].
  destruct (obj_close_ok o n x Hok Hx) as (n1 & -> & [He1 Ha1] & Hcl). cbn [mbind option_bind].
  destruct (closed_self _ _ _ Hcl) as (x1 & Hx1 & Hn1). assert (nt_objs n1 !! o' = Some y) as Hy1 by (by rewrite (closed_other o o' n n1)).
  rewrite Hy1. cbn [mbind option_bind]. eexists. split; [done|]. apply (net_ok_intro _ (own n1)); [done| |done]. intros z.
  pose proof (own_set_obj o x1 y n1 z Hx1) as H1. assert (nt_objs (nt_set_obj o y n1) !! o' = Some y) as Hy2 by (cbn; by rewrite lookup_insert_ne).
  pose proof (own_set_obj o' y (mkObj (ob_class y) (-1)) _ z Hy2) as H2. unfold ob_held in *. cbn [ob_fd] in *.
  rewrite (held_nothing z (-1)) in H2 by lia. rewrite (held_nothing z (ob_fd x1)) in H1 by done. lia.
Qed.

Lemma net_move_ok o o' n : net_ok n → is_Some (nt_objs n !! o) → nt_objs n !! o' = None → ∃ n', obj_move o o' n = Some n' ∧ net_ok n'.
Proof.
  intros [He Ha] [x Hx] Ho'. unfold obj_move. rewrite Hx. cbn [mbind option_bind]. eexists. split; [done|]. apply (net_ok_intro _ (own n)); [done| |done]. intros z.
  pose proof (own_new_obj o' x n z Ho') as H1. assert (nt_objs (nt_set_obj o' x n) !! o = Some x) as Hx1.
  { cbn. rewrite lookup_insert_ne; [done|]. intros ->. congruence. }
  pose proof (own_set_obj o x (mkObj (ob_class x) (-1)) _ z Hx1) as H2. unfold ob_held in *. cbn [ob_fd] in *. rewrite (held_nothing z (-1)) in H2 by lia. lia.
Qed.

Lemma destroy_ok o n : net_ok n → is_Some (nt_objs n !! o) → ∃ n', obj_destroy o n = Some n' ∧ net_ok n'.
Proof.
  intros Hok [x Hx]. unfold obj_destroy. destruct (obj_close_ok o n x Hok Hx) as (n1 & -> & [He Ha] & Hcl). cbn [mbind option_bind].
  destruct (closed_self _ _ _ Hcl) as (x1 & Hx1 & Hn1). eexists. split; [done|]. apply (net_ok_intro _ (own n1)); [done| |done]. intros z.
  unfold own. cbn. rewrite (map_held_delete ob_held (nt_objs n1) o x1 z Hx1). unfold ob_held at 2. by rewrite held_nothing.
Qed.

(** The awaiters. *)
Lemma aws_ok_insert p b n : map_Forall (λ _, aw_ok) (nt_aws n) → aw_ok b → map_Forall (λ _, aw_ok) (<[p := b]> (nt_aws n)).
Proof. intros Ha Hb. by apply map_Forall_insert_2. Qed.

Lemma net_ok_set_aw p a b n :
  net_ok n → nt_aws n !! p = Some a → aw_ok b → (∀ z, held z (aw_held b) = held z (aw_held a)) → net_ok (nt_set_aw p b n).
Proof.
  intros [He Ha] Hp Hb Hz. apply (net_ok_intro _ (own n)); [done| |by apply aws_ok_insert]. intros z.
  pose proof (own_set_aw p a b n z Hp) as Hs. rewrite Hz in Hs. lia.
Qed.

Lemma connect_ok p parsed sock n :
  net_ok n → event_ok (NvConnect p parsed sock) n → ∃ n', net_step (NvConnect p parsed sock) n = Some n' ∧ net_ok n'.
Proof.
  intros [He Ha] [Hp Hf]. cbn [net_step]. set (a := connect_awaiter parsed sock). eexists. split; [done|].
  assert (aw_ok a ∧ aw_held a = fd_list (aw_fd a) ∧ (aw_fd a = sock ∨ aw_fd a = -1)) as (Hok & Hh & Hfd).
  { unfold a, connect_awaiter, tcp_connect. destruct parsed; (split; [by split|]); (split; [done|]); cbn; auto. }
  case_decide as H0.
  - destruct Hfd as [Hfd|]; [|lia]. rewrite Hfd in *. split; [|by apply aws_ok_insert]. cbn [nt_set_aw nt_open nt_set_open].
    apply (acquire_owned (own n)); [done|by apply Hf|]. intros z. cbn. rewrite own_new_aw by done. by rewrite Hh, held_one.
  - apply (net_ok_intro _ (own n)); [done| |by apply aws_ok_insert]. intros z. rewrite own_new_aw by done. by rewrite Hh, held_nothing by lia.
Qed.

Lemma complete_ok p res n :
  net_ok n → event_ok (NvComplete p res) n → ∃ n', net_step (NvComplete p res) n = Some n' ∧ net_ok n'.
Proof.
  intros [He Ha] (a & Hp & Hph & Hf). cbn [net_step]. rewrite Hp. cbn [mbind option_bind]. eexists. split; [done|].
  destruct (aw_complete_ok res a (Ha _ _ Hp) Hph) as [Hok Hh]. destruct (gives_fd (aw_kind_of a) && (0 <=? res)%Z) eqn:Hg.
  - apply andb_true_iff in Hg as [Hg H0%Z.leb_le]. split; [|by apply aws_ok_insert]. cbn [nt_set_aw nt_open nt_set_open].
    apply (acquire_owned (own n)); [done|by apply Hf|]. intros z. cbn. rewrite own_set_open. pose proof (own_set_aw p a (aw_complete res a) n z Hp) as Hs.
    rewrite Hh in Hs. cbn in Hs. lia.
  - apply (net_ok_intro _ (own n)); [done| |by apply aws_ok_insert]. intros z. pose proof (own_set_aw p a (aw_complete res a) n z Hp) as Hs.
    rewrite Hh in Hs. cbn in Hs. lia.
Qed.

Lemma resume_ok p o n :
  net_ok n → event_ok (NvResume p o) n → ∃ n', net_step (NvResume p o) n = Some n' ∧ net_ok n'.
Proof.
  intros [He Ha] [(a & Hp & Hph) Ho]. cbn [net_step]. rewrite Hp. cbn [mbind option_bind].
  destruct (aw_resume_ok a (Ha _ _ Hp) Hph) as [Hok Hh]. set (r := aw_resume a) in *.
  set (n1 := nt_set_aw p (re_awaiter r) n). set (fd := default (-1) (re_makes r)) in *.
  destruct (close_fd_ok (re_closes r) n1 (own n) (λ z, (held z (fd_list fd) + own n1 z)%nat)) as (t & Ht & Hx); [done| |].
  { intros z. pose proof (own_set_aw p a (re_awaiter r) n z Hp) as Hs. fold n1 in Hs. rewrite Hh in Hs. lia. }
  rewrite Ht. cbn [mbind option_bind]. eexists. split; [done|]. unfold fd in *. destruct (re_makes r) as [fd'|] eqn:Hm; cbn [default] in Hx.
  - split; [|by apply aws_ok_insert]. intros z. cbn [nt_set_obj nt_note nt_set_open nt_open]. rewrite <- Hx. cbn [Nat.add].
    rewrite own_new_obj by done. rewrite own_note, own_set_open. done.
  - split; [|by apply aws_ok_insert]. intros z. cbn [nt_note nt_set_open nt_open]. rewrite <- Hx, (held_nothing z (-1)) by lia. done.
Qed.

Lemma end_ok p n : net_ok n → event_ok (NvEnd p) n → ∃ n', net_step (NvEnd p) n = Some n' ∧ net_ok n'.
Proof.
  intros [He Ha] (a & Hp & Hph). cbn [net_step]. rewrite Hp. cbn [mbind option_bind].
  set (own' z := (map_held ob_held (nt_objs n) z + map_held aw_held (delete p (nt_aws n)) z)%nat).
  destruct (close_fd_ok (aw_destroyed a) n (own n) own') as (t & Ht & Hx); [done| |].
  { intros z. unfold own, own'. rewrite (map_held_delete aw_held _ p a z Hp). unfold aw_held at 1. rewrite bool_decide_false by done. cbn [andb]. lia. }
  rewrite Ht. cbn [mbind option_bind]. eexists. split; [done|]. split; [by apply Hx|]. cbn. by apply map_Forall_delete.
Qed.

Lemma move_aw_ok p p' n : net_ok n → event_ok (NvMoveAw p p') n → ∃ n', net_step (NvMoveAw p p') n = Some n' ∧ net_ok n'.
Proof.
  intros [He Ha] (Hp' & a & Hp & Hph). cbn [net_step]. rewrite Hp. cbn [mbind option_bind]. eexists. split; [done|].
  pose proof (Ha _ _ Hp) as Hok. assert (aw_ok (aw_moved a).2) as Hok2.
  { destruct Hok as [Hc _ _]. unfold aw_moved. split; cbn; rewrite Hph; try done. intros _. by destruct (Hc Hph). }
  assert (∀ z, held z (aw_held (aw_moved a).2) = 0%nat) as Hz.
  { intros z. rewrite (aw_held_created _ Hok2) by done. cbn. destruct (aw_kind_of a); [done|done|by rewrite held_nothing by lia|done..]. }
  assert (p ≠ p') by congruence.
  apply (net_ok_intro _ (own n)); [done| |].
  - intros z. assert (nt_aws (nt_set_aw p' (aw_moved a).1 n) !! p = Some a) as Hp1 by (cbn; by rewrite lookup_insert_ne).
    pose proof (own_set_aw p a (aw_moved a).2 _ z Hp1) as H1. rewrite Hz, (own_new_aw p' (aw_moved a).1 n z Hp') in H1. change (aw_held (aw_moved a).1) with (aw_held a) in H1. lia.
  - cbn. apply map_Forall_insert_2; [done|]. by apply map_Forall_insert_2.
Qed.

Lemma net_step_ok e n : net_ok n → event_ok e n → ∃ n', net_step e n = Some n' ∧ net_ok n'.
Proof.
  intros Hok Hev. pose proof Hok as [He Ha]. destruct e as [o c|o c fd|o o'|o o'|o|o|o b|o b|o o' r|o o' r|p parsed sock|p k o|p p'|p s|p|p res|p o|p];
    try (by apply connect_ok || by apply move_aw_ok || by apply complete_ok || by apply resume_ok || by apply end_ok); cbn [net_step].
  - eexists. split; [done|]. by apply net_ok_new_obj.
  - destruct Hev as (Ho & H0 & Hf). eexists. split; [done|]. by apply net_ok_adopt_new.
  - destruct Hev. by apply net_move_ok.
  - destruct Hev as (? & ? & _). by apply assign_ok.
  - destruct Hev as [[x Hx] _]. destruct (obj_close_ok o n x Hok Hx) as (n' & ? & ? & _). eauto.
  - destruct Hev. by apply destroy_ok.
  - destruct Hev as [Hc Hf]. destruct (net_bind_ok false o b n Hok Hc Hf) as (r & n' & Hb & Hn). rewrite Hb. cbn. eauto.
  - destruct Hev as [Hc Hf]. destruct (net_bind_ok true o b n Hok Hc Hf) as (r & n' & Hb & Hn). rewrite Hb. cbn. eauto.
  - destruct Hev as (Ho & Ho' & Hne & Hr). eexists. split; [done|]. destruct r as [e|[fd1 fd2]]; cbn [pipe_pair].
    + assert (∀ m, net_ok m → net_ok (nt_note (Some e) m)) as Hnote by (intros m [? ?]; by split). apply Hnote.
      apply (net_ok_new_obj o' (mkObj ClsPipe (-1)) (nt_set_obj o (mkObj ClsPipe (-1)) n)); [by apply net_ok_new_obj| |done]. cbn. by rewrite lookup_insert_ne.
    + destruct Hr as (H1 & H2 & Hd & Hf1 & Hf2).
      apply (net_ok_adopt_new o' ClsPipe fd2 (nt_set_open (acquire fd1 (nt_open n)) (nt_set_obj o (mkObj ClsPipe fd1) n))); [by apply net_ok_adopt_new| | |done].
      * cbn. by rewrite lookup_insert_ne.
      * unfold fresh, acquire in *. cbn. set_solver.
  - destruct (unix_pair_ok o o' r n Hok Hev) as (b & n' & -> & Hn). cbn. eauto.
  - destruct Hev as (Hp & Hk & _). eexists. split; [done|]. assert (aw_ok (mkAw k o (-1) op_new Created false)) as Hnew by (by split).
    apply (net_ok_intro _ (own n)); [done| |by apply aws_ok_insert]. intros z. rewrite own_new_aw by done. rewrite (aw_held_created _ Hnew) by done.
    cbn. by destruct k.
  - destruct Hev as [(a & Hp & Hph & _) Hs]. rewrite Hp. cbn [mbind option_bind]. eexists. split; [done|].
    destruct (aw_suspend_ok (target_fd a n) s a (Ha _ _ Hp) Hph Hs). by apply (net_ok_set_aw p a).
  - destruct Hev as [a Hp]. rewrite Hp. cbn [mbind option_bind]. eexists. split; [done|]. apply (net_ok_set_aw p a); [done|done| |done].
    by destruct (Ha _ _ Hp).
Qed.


(** ** Closing an object ends what waits on it *)

Definition watched n (fd : Z) : Prop := ∃ o x, nt_objs n !! o = Some x ∧ ob_fd x = fd.
(** Under way, and nobody has asked the kernel to end it. *)
Definition unasked a : Prop := aw_phase a = Flying ∧ aw_asked a = false.

Definition keeps n n' : Prop :=
  (∀ p a, nt_aws n' !! p = Some a → unasked a → nt_aws n !! p = Some a) ∧
  (∀ p a, nt_aws n' !! p = Some a → unasked a → 0 ≤ uo_fd (aw_op a) → watched n (uo_fd (aw_op a)) → watched n' (uo_fd (aw_op a))).

Lemma keeps_refl n : keeps n n.
Proof. done. Qed.
Lemma keeps_trans n1 n2 n3 : keeps n1 n2 → keeps n2 n3 → keeps n1 n3.
Proof. intros [Ha Hb] [Hc Hd]. split; [eauto|]. intros p a Hp Hu H0 Hw. apply (Hd p a Hp Hu H0). eapply Hb; eauto. Qed.

Lemma watched_set_obj o x y n fd : nt_objs n !! o = Some x → ob_fd x < 0 → 0 ≤ fd → watched n fd → watched (nt_set_obj o y n) fd.
Proof.
  intros Ho Hx H0 (o' & z & Hz & Hf). exists o', z. cbn. rewrite lookup_insert_ne; [done|]. intros ->. assert (z = x) as -> by congruence. lia.
Qed.
Lemma watched_new_obj o y n fd : nt_objs n !! o = None → watched n fd → watched (nt_set_obj o y n) fd.
Proof. intros Ho (o' & z & Hz & Hf). exists o', z. cbn. rewrite lookup_insert_ne; [done|]. congruence. Qed.

Lemma keeps_set_obj o x y n : nt_objs n !! o = Some x → ob_fd x < 0 → keeps n (nt_set_obj o y n).
Proof. intros Ho Hx. split; [done|]. intros p a _ _ H0. by apply (watched_set_obj o x). Qed.
Lemma keeps_new_obj o y n : nt_objs n !! o = None → keeps n (nt_set_obj o y n).
Proof. intros Ho. split; [done|]. intros p a _ _ _. by apply watched_new_obj. Qed.
Lemma keeps_set_aw p b n : ¬ unasked b → keeps n (nt_set_aw p b n).
Proof.
  intros Hb. split; [|done]. intros q a Hq Hu. cbn in Hq. destruct (decide (q = p)) as [->|]; [|by rewrite lookup_insert_ne in Hq].
  rewrite lookup_insert_eq in Hq. by injection Hq as ->.
Qed.
Lemma keeps_same n n' : nt_objs n' = nt_objs n → nt_aws n' = nt_aws n → keeps n n'.
Proof. intros Ho Ha. unfold keeps, watched. by rewrite Ho, Ha. Qed.

Lemma keeps_close o n n' : map_Forall (λ _, aw_ok) (nt_aws n) → quiet_file o n → closed_obj o n n' → keeps n n'.
Proof.
  intros Ha Hq (x & x' & g & Ho & Hneg & Hcl & Hobjs & Haws & Hg & Hask & _).
  assert (∀ p a, nt_aws n' !! p = Some a → unasked a → nt_aws n !! p = Some a ∧ g a = a) as Hsame.
  { intros p a Hp [Hph Has]. rewrite Haws, lookup_fmap in Hp. destruct (nt_aws n !! p) as [b|]; [|done]. injection Hp as Hp.
    destruct (Hg b) as [Hb|Hb]; rewrite Hb in Hp; subst a; [by rewrite Hb|done]. }
  split; [intros p a Hp Hu; by destruct (Hsame p a Hp Hu)|]. intros p a Hp Hu H0 (o' & y & Hy & Hf). destruct (Hsame p a Hp Hu) as [Hpa Hga]. destruct Hu as [Hph Has].
  exists o', y. rewrite Hobjs, lookup_insert_ne; [done|]. intros <-. assert (y = x) as -> by congruence.
  destruct (decide (ob_class x = ClsFile)) as [Hfile|Hnf].
  - destruct (Hq x p a Ho Hfile Hpa Hph Has); lia.
  - rewrite (Hask a Hnf) in Hga; [|lia|by apply (Ha p a)|by symmetry]. by rewrite <- Hga in Has.
Qed.

(** A closed object that takes a descriptor again. *)
Lemma keeps_close_set o n n' y :
  map_Forall (λ _, aw_ok) (nt_aws n) → quiet_file o n → closed_obj o n n' → keeps n (nt_set_obj o y n').
Proof.
  intros Ha Hq Hc. eapply keeps_trans; [by eapply keeps_close|]. destruct (closed_self _ _ _ Hc) as (x & Hx & Hn). by eapply keeps_set_obj.
Qed.
Lemma quiet_socket o n x : nt_objs n !! o = Some x → ob_class x ≠ ClsFile → quiet_file o n.
Proof. intros Ho Hc y p a Hy. by assert (y = x) as -> by congruence. Qed.

Lemma bind_keeps (udp : bool) o b n r n' :
  net_ok n → (ob_class <$> nt_objs n !! o) = Some ClsSocket →
  (if udp then udp_bind_listen o b n else listener_bind_listen o b n) = Some (r, n') → keeps n n'.
Proof.
  intros Hok Hcl Hb. destruct (nt_objs n !! o) as [x|] eqn:Ho; [|done]. injection Hcl as Hcl. assert (ob_class x ≠ ClsFile) as Hnf by (by rewrite Hcl).
  destruct (obj_close_ok o n x Hok Ho) as (n1 & Hc1 & Hok1 & Hcl1). pose proof (quiet_socket o n x Ho Hnf) as Hq.
  pose proof (keeps_close_set o n n1 (mkObj ClsSocket (ba_socket b)) (no_aws _ _ Hok) Hq Hcl1) as Hk.
  pose proof (keeps_close o n n1 (no_aws _ _ Hok) Hq Hcl1) as Hk1. set (n2 := nt_set_obj o (mkObj ClsSocket (ba_socket b)) n1) in *.
  set (n3 := nt_set_open (acquire (ba_socket b) (nt_open n2)) n2).
  assert (keeps n n3) as Hk3 by (eapply keeps_trans; [exact Hk|by apply keeps_same]).
  assert (∀ m, socket_close o n3 = Some m → keeps n m) as Hfail.
  { intros m Hm. eapply keeps_trans; [exact Hk3|]. assert (nt_objs n3 !! o = Some (mkObj ClsSocket (ba_socket b))) as Hl by apply lookup_insert_eq.
    rewrite (socket_close_eq _ _ _ Hl eq_refl) in Hm.
    eapply keeps_close; [apply Hok1|by eapply quiet_socket|by apply obj_close_closed]. }
  assert (n' = n1 ∨ n' = n2 ∨ n' = n3 ∨ socket_close o n3 = Some n') as [-> |[-> |[-> |Hm]]]; [|done|done|done|by apply Hfail].
  unfold udp_bind_listen, listener_bind_listen in Hb. rewrite (socket_close_eq o n x Ho Hcl), Hc1 in Hb. cbn [mbind option_bind] in Hb.
  fold n2 in Hb. change (nt_open n1) with (nt_open n2) in Hb. fold n3 in Hb.
  destruct udp, (ba_parsed b), (ba_socket b <? 0), (ba_bound b), (ba_listens b); cbn [negb] in Hb;
    try (injection Hb as <- <-; auto); destruct (socket_close o n3) as [m|]; cbn in Hb; simplify_eq; auto.
Qed.

Lemma unix_pair_keeps o o' r n b n' : net_ok n → event_ok (NvUnixPair o o' r) n → unix_pair o o' r n = Some (b, n') → keeps n n'.
Proof.
  intros Hok (Hc1 & Hc2 & _) Hu. destruct r as [[fd1 fd2]|]; [|by injection Hu as <- <-]. cbn [unix_pair] in Hu. cbn zeta in Hu.
  destruct (nt_objs n !! o) as [x|] eqn:Hx; [|done]. injection Hc1 as Hcx. destruct (nt_objs n !! o') as [y|] eqn:Hy; [|done]. injection Hc2 as Hcy.
  set (n0 := nt_set_open _ n) in Hu. rewrite (socket_close_eq o n0 x Hx Hcx) in Hu.
  destruct (obj_close o n0) as [n1|] eqn:Hn1; [|done]. cbn [mbind option_bind] in Hu. apply obj_close_closed in Hn1 as Hcl1.
  set (n2 := nt_set_obj o (mkObj ClsSocket fd1) n1) in Hu.
  assert (ob_class x ≠ ClsFile) as Hnx by (by rewrite Hcx).
  assert (keeps n0 n2) as Hk1 by (apply (keeps_close_set o n0 n1); [apply Hok|by eapply quiet_socket|done]).
  assert (∃ y2, nt_objs n2 !! o' = Some y2 ∧ ob_class y2 = ClsSocket) as (y2 & Hy2 & Hcy2).
  { unfold n2. cbn. destruct (decide (o' = o)) as [->|]; [rewrite lookup_insert_eq; eauto|rewrite lookup_insert_ne by done].
    rewrite (closed_other o o' n0 n1) by done. cbn. rewrite Hy. eauto. }
  rewrite (socket_close_eq o' n2 y2 Hy2 Hcy2) in Hu. destruct (obj_close o' n2) as [n3|] eqn:Hn3; [|done]. cbn [mbind option_bind] in Hu. injection Hu as <- <-.
  apply (keeps_trans _ n0); [by apply keeps_same|]. apply (keeps_trans _ n2); [done|]. assert (ob_class y2 ≠ ClsFile) as Hny by (by rewrite Hcy2).
  apply (keeps_close_set o' n2 n3); [|by eapply quiet_socket|by apply obj_close_closed]. cbn.
  destruct Hcl1 as (? & ? & g & _ & _ & _ & _ & -> & Hg & _). intros p a Hp. rewrite lookup_fmap in Hp. destruct (nt_aws n0 !! p) as [c|] eqn:Hpc; [|done].
  injection Hp as <-. apply (no_aws _ _ Hok) in Hpc. destruct (Hg c) as [-> | ->]; [done|by destruct Hpc].
Qed.

Lemma assign_keeps o o' n n' : net_ok n → quiet_file o n → obj_assign o o' n = Some n' → keeps n n'.
Proof.
  unfold obj_assign. intros Hok Hq Ha. destruct (decide (o = o')); [by injection Ha as <-|]. destruct (obj_close o n) as [n1|] eqn:Hc; [|done]. cbn [mbind option_bind] in Ha.
  apply obj_close_closed in Hc. destruct (nt_objs n1 !! o') as [y|] eqn:Hy; [|done]. cbn [mbind option_bind] in Ha. injection Ha as <-.
  eapply keeps_trans; [by apply (keeps_close o n n1 (no_aws _ _ Hok) Hq)|]. destruct (closed_self _ _ _ Hc) as (x & Hx & Hneg).
  split; [done|]. intros p a _ _ H0 (q & z & Hz & Hf). unfold watched. cbn. destruct (decide (q = o')) as [->|].
  - exists o, z. rewrite lookup_insert_ne by done. rewrite lookup_insert_eq. split; [congruence|done].
  - exists q, z. rewrite !lookup_insert_ne; [done|intros ->; assert (z = x) as -> by congruence; lia|done].
Qed.

Lemma net_move_keeps o o' n n' : nt_objs n !! o' = None → obj_move o o' n = Some n' → keeps n n'.
Proof.
  unfold obj_move. intros Ho' Hm. destruct (nt_objs n !! o) as [x|] eqn:Hx; [|done]. cbn [mbind option_bind] in Hm. injection Hm as <-.
  assert (o ≠ o') by congruence. split; [done|]. intros p a _ _ H0 (q & z & Hz & Hf). unfold watched. cbn. destruct (decide (q = o)) as [->|].
  - exists o', z. rewrite lookup_insert_ne, lookup_insert_eq by done. split; [congruence|done].
  - exists q, z. rewrite !lookup_insert_ne; [done|congruence|done].
Qed.

Definition asked_ok n : Prop :=
  ∀ p a, nt_aws n !! p = Some a → unasked a → 0 ≤ uo_fd (aw_op a) → watched n (uo_fd (aw_op a)) ∨ aw_kind_of a = TcpConnect ∧ aw_fd a = uo_fd (aw_op a).
Lemma asked_keeps n n' : keeps n n' → asked_ok n → asked_ok n'.
Proof. intros [H1 H2] Ha p a Hp Hu H0. destruct (Ha p a (H1 p a Hp Hu) Hu H0); [left; eauto|by right]. Qed.

(** What a suspended operation waits on. *)
Lemma suspend_fd fd s a :
  aw_ok a → aw_phase a = Created → unasked (aw_suspend fd s a) → let a' := aw_suspend fd s a in
  match aw_kind_of a with
  | TcpConnect => aw_kind_of a' = TcpConnect ∧ aw_fd a' = uo_fd (aw_op a')
  | Poll pfd _ => uo_fd (aw_op a') = pfd
  | FileOpen _ => uo_fd (aw_op a') = -1
  | _ => uo_fd (aw_op a') = fd
  end.
Proof.
  intros [Hc _ _] Hp [Hph _]. destruct (Hc Hp) as (Hu & He & Hf). destruct a as [k ao afd o ph ask]. cbn in *. unfold aw_suspend in *. cbn in *.
  destruct k; cbn in *; try (destruct s; by cbn in * ). unfold tcp_connect_suspend in *. destruct (uo_result o <? 0); [done|]. by destruct s.
Qed.

Lemma suspend_asked p s n n' :
  net_ok n → event_ok (NvSuspend p s) n → net_step (NvSuspend p s) n = Some n' → asked_ok n → asked_ok n'.
Proof.
  intros Hok [(a & Hp & Hph & Hpoll) _] Hs Ha. cbn [net_step] in Hs. rewrite Hp in Hs. cbn [mbind option_bind] in Hs. injection Hs as <-.
  intros q b Hq Hu H0. cbn in Hq. destruct (decide (q = p)) as [->|]; [|rewrite lookup_insert_ne in Hq by done; by apply (Ha q b)].
  rewrite lookup_insert_eq in Hq. injection Hq as <-. pose proof (suspend_fd (target_fd a n) s a (no_aws _ _ Hok _ _ Hp) Hph Hu) as Hfd. cbn zeta in Hfd.
  assert (∀ fd, fd = target_fd a n → 0 ≤ fd → watched n fd) as Htarget.
  { intros fd ->. unfold target_fd. destruct (nt_objs n !! aw_obj a) as [x|] eqn:Hx; [|lia]. intros _. by exists (aw_obj a), x. }
  change (watched (nt_set_aw _ _ n)) with (watched n).
  destruct (aw_kind_of a); try (left; by apply Htarget); [by right|left; rewrite Hfd in *; by apply Hpoll|lia].
Qed.

Lemma unasked_resumed a : ¬ unasked (re_awaiter (aw_resume a)).
Proof. intros [Hp _]. by rewrite aw_resumed_phase in Hp. Qed.

Lemma step_asked e n n' : net_ok n → event_ok e n → net_step e n = Some n' → asked_ok n → asked_ok n'.
Proof.
  intros Hok Hev Hs Ha. destruct e as [o c|o c fd|o o'|o o'|o|o|o b|o b|o o' r|o o' r|p parsed sock|p k o|p p'|p s|p|p res|p o|p];
    try (by eapply suspend_asked); cbn [net_step] in Hs; apply (asked_keeps n); try done.
  - injection Hs as <-. by apply keeps_new_obj.
  - injection Hs as <-. destruct Hev. apply (keeps_trans _ (nt_set_obj o (mkObj c fd) n)); [by apply keeps_new_obj|by apply keeps_same].
  - destruct Hev. by eapply net_move_keeps.
  - destruct Hev as (_ & _ & Hq). by eapply assign_keeps.
  - destruct Hev as [_ Hq]. apply (keeps_close o); [apply Hok|done|by apply obj_close_closed].
  - destruct Hev as [_ Hq]. unfold obj_destroy in Hs. destruct (obj_close o n) as [n1|] eqn:Hc; [|done]. cbn in Hs. injection Hs as <-. apply obj_close_closed in Hc.
    eapply keeps_trans; [apply (keeps_close o n n1); [apply Hok|done|done]|]. destruct (closed_self _ _ _ Hc) as (x & Hx & Hneg). split; [done|].
    intros p a _ _ H0 (q & z & Hz & Hf). exists q, z. cbn. rewrite lookup_delete_ne; [done|]. intros ->. assert (z = x) as -> by congruence. lia.
  - destruct Hev as [Hc _]. destruct (listener_bind_listen o b n) as [[r n1]|] eqn:Hb; [|done]. cbn in Hs. injection Hs as <-. by eapply (bind_keeps false).
  - destruct Hev as [Hc _]. destruct (udp_bind_listen o b n) as [[r n1]|] eqn:Hb; [|done]. cbn in Hs. injection Hs as <-. by eapply (bind_keeps true).
  - destruct Hev as (Ho & Ho' & Hne & _). injection Hs as <-. unfold pipe_pair.
    assert (∀ x y, keeps n (nt_set_obj o' y (nt_set_obj o x n))) as Hk.
    { intros x y. apply (keeps_trans _ (nt_set_obj o x n)); [by apply keeps_new_obj|]. apply keeps_new_obj. cbn. by rewrite lookup_insert_ne. }
    destruct r as [e|[fd1 fd2]]; (eapply keeps_trans; [apply Hk|by apply keeps_same]).
  - destruct (unix_pair o o' r n) as [[b n1]|] eqn:Hb; [|done]. cbn in Hs. injection Hs as <-. by eapply unix_pair_keeps.
  - injection Hs as <-. apply (keeps_trans _ (if decide (0 ≤ aw_fd (connect_awaiter parsed sock)) then nt_set_open (acquire (aw_fd (connect_awaiter parsed sock)) (nt_open n)) n else n)).
    + case_decide; by apply keeps_same.
    + apply keeps_set_aw. intros [Hp _]. by destruct parsed.
  - injection Hs as <-. apply keeps_set_aw. by intros [? _].
  - destruct Hev as (_ & a & Hp & Hph). rewrite Hp in Hs. cbn [mbind option_bind] in Hs. injection Hs as <-.
    eapply keeps_trans; [apply (keeps_set_aw p' (aw_moved a).1)|apply keeps_set_aw]; intros [H1 _]; cbn in H1; congruence.
  - destruct (nt_aws n !! p) as [a|]; [|done]. cbn in Hs. injection Hs as <-. apply keeps_set_aw. by intros [_ ?].
  - destruct (nt_aws n !! p) as [a|]; [|done]. cbn [mbind option_bind] in Hs. injection Hs as <-.
    apply (keeps_trans _ (nt_set_aw p (aw_complete res a) n)); [apply keeps_set_aw; by intros [? _]|]. case_match; by apply keeps_same.
  - destruct Hev as [_ Ho]. destruct (nt_aws n !! p) as [a|]; [|done]. cbn [mbind option_bind] in Hs. unfold nt_close_fd in Hs.
    destruct (release_valid _ _) as [t|]; [|done]. cbn [mbind option_bind] in Hs. injection Hs as <-.
    apply (keeps_trans _ (nt_set_aw p (re_awaiter (aw_resume a)) n)); [apply keeps_set_aw, unasked_resumed|].
    destruct (re_makes (aw_resume a)); [|by apply keeps_same]. eapply keeps_trans; [|by apply keeps_new_obj]. by apply keeps_same.
  - destruct (nt_aws n !! p) as [a|]; [|done]. cbn [mbind option_bind] in Hs. unfold nt_close_fd in Hs. destruct (release_valid _ _) as [t|]; [|done].
    cbn [mbind option_bind] in Hs. injection Hs as <-. split; [|done]. intros q b Hq _. cbn in Hq. by apply lookup_delete_Some in Hq as [_ ?].
Qed.

(** An operation under way on a descriptor that has been closed has been asked to end, however the
    objects were moved and their descriptors used again: one that was not asked waits on a
    descriptor that is open and held. *)
Theorem net_close_cancels n p a :
  net_reachable n → nt_aws n !! p = Some a → aw_phase a = Flying → aw_asked a = false → 0 ≤ uo_fd (aw_op a) →
  uo_fd (aw_op a) ∈ nt_open n ∧ (watched n (uo_fd (aw_op a)) ∨ aw_kind_of a = TcpConnect ∧ aw_fd a = uo_fd (aw_op a)).
Proof.
  intros Hr Hp Hph Has H0. assert (net_ok n ∧ asked_ok n) as [Hok Ha].
  { clear -Hr. induction Hr as [|e n1 n2 Hr [Hok Ha] Hev Hs]; [split; [split; [|done]; intros z; unfold own; cbn; by rewrite !map_held_empty|done]|].
    split; [|by eapply step_asked]. destruct (net_step_ok e n1 Hok Hev) as (n' & Hn & ?). congruence. }
  destruct (Ha p a Hp (conj Hph Has) H0) as [Hw|[Hk Hfd]]; (split; [|auto]); pose proof (no_exact _ _ Hok (uo_fd (aw_op a))) as He; cbn in He; case_decide; try done.
  - exfalso. destruct Hw as (o & x & Hx & Hf). pose proof (map_held_lookup ob_held (nt_objs n) o x (uo_fd (aw_op a)) Hx) as Hh.
    unfold ob_held in Hh at 1. rewrite held_one in Hh by lia. rewrite decide_True in Hh by done. unfold own in He. lia.
  - exfalso. pose proof (map_held_lookup aw_held (nt_aws n) p a (uo_fd (aw_op a)) Hp) as Hh.
    unfold aw_held in Hh at 1. rewrite Hk, andb_false_r in Hh. unfold aw_destroyed, connect_destroyed in Hh. rewrite Hk, Hfd, held_one in Hh by lia.
    rewrite decide_True in Hh by done. unfold own in He. lia.
Qed.

(** ** Witnesses *)

(** A listener whose [accept] is cancelled while a connection arrives. *)
Definition demo_events : list net_event :=
  [NvObject 1 ClsSocket; NvListen 1 (mkBind true 3 true true); NvAwait 7 TcpAccept 1; NvSuspend 7 SubTaken; NvComplete 7 4; NvAwait 8 TcpAccept 1; NvSuspend 8 SubTaken].
Definition demo_net (k : nat) : net := foldl (λ n e, default n (net_step e n)) (mkNet ∅ ∅ ∅ 0) (take k demo_events).

Lemma demo_step k e : demo_events !! k = Some e → event_ok e (demo_net k) → net_reachable (demo_net k) → net_reachable (demo_net (S k)).
Proof.
  intros He Hok Hr. unfold demo_net. rewrite (take_S_r _ _ e He), foldl_app. cbn. fold (demo_net k).
  destruct (net_step e (demo_net k)) as [n|] eqn:Hs; [by eapply NrStep|done].
Qed.

Lemma demo_net_reachable : net_reachable (demo_net 7).
Proof.
  eapply (demo_step 6); [done|split; [eexists; by vm_compute|done]|]. eapply (demo_step 5); [done|by vm_compute|].
  eapply (demo_step 4); [done|eexists; split; [by vm_compute|]; split; [done|]; intros _ _; apply (bool_decide_unpack _); vm_compute; exact I|].
  eapply (demo_step 3); [done|split; [eexists; by vm_compute|done]|]. eapply (demo_step 2); [done|by vm_compute|].
  eapply (demo_step 1); [done|split; [by vm_compute|]; intros _ Hin; exfalso; revert Hin; apply (bool_decide_unpack _); vm_compute; exact I|].
  eapply (demo_step 0); [done|by vm_compute|]. apply NrInit.
Qed.


Lemma net_close_cancels_witness : 3 ∈ nt_open (demo_net 7) ∧ (watched (demo_net 7) 3 ∨ TcpAccept = TcpConnect ∧ -1 = 3).
Proof.
  apply (net_close_cancels (demo_net 7) 8 (mkAw TcpAccept 1 (-1) (mkOp null_handle 0 0 3 true) Flying false) demo_net_reachable); [by vm_compute|done|done|done].
Defined.

