(* ===== verification/UnixM.v ===== *)
(** * UnixM: Unix domain sockets

    [src/include/coro/unix.hpp]: addresses, [UnixListener] with the path that it owns, and
    [UnixStream::connect].  The awaiters are in [NetM].  The file system is a map from paths to what
    is there, which others change between the calls. *)

From Stdlib Require Import Ascii.
From S2P Require Import Prelude Descriptors.
From stdpp Require Import options.

Local Open Scope char_scope.
Local Open Scope Z_scope.

(** ** Addresses *)

Definition NUL : ascii := "000"%char.
(** [sizeof(sun_path)], and [offsetof(sockaddr_un, sun_path)]. *)
Definition sun_path_size : nat := 108.
Definition sun_path_offset : nat := 2.

(** [sockaddr_un]: whether [sun_family] is [AF_UNIX], and the bytes of [sun_path]. *)
Record sockaddr_un : Type := mkUn { un_family : bool; un_path : str }.
Definition un_zero : sockaddr_un := mkUn false (replicate sun_path_size NUL).
(** [memcpy] to an offset of the zeroed field. *)
Definition un_copy (off : nat) (s : str) : str := take sun_path_size (replicate off NUL ++ s ++ replicate sun_path_size NUL).

Definition is_abstract (path : str) : bool := bool_decide (head path = Some "@"%char).

(** [make_unix_address]; the second component is whether [errno] is set to [ENAMETOOLONG]. *)
Definition make_unix_address (path : str) : sockaddr_un * bool :=
  if is_abstract path then
    let name_len := (length path - 1)%nat in
    let room := (sun_path_size - 1)%nat in
    let n := if decide (name_len < room)%nat then name_len else room in
    (mkUn true (un_copy 1 (take n (drop 1 path))), false)
  else if decide (sun_path_size <= length path)%nat then (un_zero, true)
  else (mkUn true (un_copy 0 path), false).

(** [strnlen]. *)
Fixpoint strnlen (s : str) (n : nat) {struct n} : nat :=
  match n, s with S n, c :: s => if decide (c = NUL) then 0%nat else S (strnlen s n) | _, _ => 0%nat end.

(** [unix_address_length]; [strlen] stays in the field when a byte of it is zero. *)
Definition unix_address_length (a : sockaddr_un) : nat :=
  if negb (un_family a) then 2%nat
  else if decide (head (un_path a) = Some NUL) then (sun_path_offset + 1 + strnlen (drop 1 (un_path a)) (sun_path_size - 1))%nat
  else (sun_path_offset + strnlen (un_path a) sun_path_size + 1)%nat.

(** What the kernel makes of an address: the bytes of [sun_path] up to the length.  A name that
    begins with a zero byte is abstract; any other ends at its first zero byte. *)
Inductive un_name : Type := UnPath (s : str) | UnAbstract (s : str) | UnUnnamed.
Fixpoint until_nul (s : str) : str :=
  match s with [] => [] | c :: s => if decide (c = NUL) then [] else c :: until_nul s end.
Definition kernel_name (a : sockaddr_un) (len : nat) : un_name :=
  let s := take (len - sun_path_offset) (un_path a) in
  if negb (un_family a) then UnUnnamed
  else match s with
  | [] => UnUnnamed
  | c :: s' => if decide (c = NUL) then UnAbstract s' else UnPath (until_nul s)
  end.
Definition address_name (path : str) : un_name := let a := (make_unix_address path).1 in kernel_name a (unix_address_length a).

(** A path that names what it says: without a zero byte, not empty, and no longer than there is room. *)
Definition well_named (path : str) : Prop := NUL ∉ path ∧ path ≠ [] ∧ (length path <= (if is_abstract path then 108 else 107))%nat.

Lemma strnlen_app s t n : NUL ∉ s → (length s <= n)%nat → head t = Some NUL ∨ n = length s → strnlen (s ++ t) n = length s.
Proof.
  revert n. induction s as [|c s IH]; intros n Hs Hl Ht; cbn [app length] in *.
  - destruct n; [done|]. destruct Ht as [Ht|]; [|done]. destruct t as [|d t]; [done|]. by injection Ht as ->.
  - destruct n; [lia|]. rewrite elem_of_cons in Hs. cbn [strnlen]. rewrite decide_False by naive_solver. f_equal. apply IH; [naive_solver|lia|]. destruct Ht; [by left|right; lia].
Qed.

Lemma until_nul_app s t : NUL ∉ s → head t = Some NUL ∨ t = [] → until_nul (s ++ t) = s.
Proof.
  induction s as [|c s IH]; intros Hs Ht; cbn [app].
  - destruct Ht as [Ht| ->]; [|done]. destruct t; [done|]. by injection Ht as ->.
  - rewrite elem_of_cons in Hs. cbn [until_nul]. rewrite decide_False by naive_solver. f_equal. apply IH; [naive_solver|done].
Qed.

Lemma length_un_copy off s : length (un_copy off s) = sun_path_size.
Proof. unfold un_copy. rewrite length_take, !length_app, !length_replicate. lia. Qed.

(** A name that is good is what the kernel sees: two different names are two different addresses. *)
Theorem unix_address_names path :
  well_named path → (make_unix_address path).2 = false ∧ address_name path = if is_abstract path then UnAbstract (drop 1 path) else UnPath path.
Proof.
  intros (Hn & Hne & Hl). unfold address_name, make_unix_address. destruct (is_abstract path) eqn:Ha.
  - destruct path as [|c name]; [done|]. cbn [drop length] in *. rewrite elem_of_cons in Hn. cbn [Nat.sub]. rewrite Nat.sub_0_r.
    assert ((if decide (length name < sun_path_size - 1)%nat then length name else (sun_path_size - 1)%nat) = length name) as ->.
    { unfold sun_path_size. case_decide; lia. }
    rewrite !skipn_O, take_ge by lia. cbn [fst snd]. split; [done|]. unfold un_copy, unix_address_length, kernel_name. cbn [un_family un_path negb].
    set (pad := replicate sun_path_size NUL). change (replicate 1 NUL ++ name ++ pad) with (NUL :: name ++ pad).
    change (take sun_path_size (NUL :: name ++ pad)) with (NUL :: take 107 (name ++ pad)). cbn [head drop]. rewrite ?skipn_O. rewrite decide_True by done.
    assert (strnlen (take 107 (name ++ pad)) (sun_path_size - 1) = length name) as ->.
    { rewrite take_app_ge by lia. apply strnlen_app; [naive_solver|unfold sun_path_size; lia|].
      destruct (decide (length name = 107%nat)) as [He|]; [right; unfold sun_path_size; lia|left]. unfold pad.
      destruct (107 - length name)%nat as [|k] eqn:Hk; [lia|]. done. }
    replace (sun_path_offset + 1 + length name - sun_path_offset)%nat with (S (length name)) by lia. cbn [take]. rewrite decide_True by done.
    f_equal. rewrite take_take, Nat.min_l by lia. by rewrite take_app_length.
  - rewrite decide_False by (unfold sun_path_size; lia). cbn [fst snd]. split; [done|]. unfold un_copy. cbn [replicate app].
    set (pad := replicate sun_path_size NUL). assert (∃ k, take sun_path_size (path ++ pad) = path ++ NUL :: k) as (k & Hk).
    { rewrite take_app_ge by (unfold sun_path_size; lia). destruct (sun_path_size - length path)%nat as [|m] eqn:Hm; [unfold sun_path_size in Hm; lia|].
      unfold pad. by exists (take m (replicate 107 NUL)). }
    rewrite Hk. unfold unix_address_length, kernel_name. cbn [un_family un_path negb]. destruct path as [|c path]; [done|]. cbn [head app].
    rewrite elem_of_cons in Hn. rewrite decide_False by naive_solver.
    assert (strnlen (c :: path ++ NUL :: k) sun_path_size = length (c :: path)) as ->.
    { apply (strnlen_app (c :: path)); [rewrite elem_of_cons; naive_solver|cbn in *; unfold sun_path_size; lia|by left]. }
    replace (sun_path_offset + length (c :: path) + 1 - sun_path_offset)%nat with (S (length (c :: path))) by lia.
    cbn [length take]. rewrite decide_False by naive_solver. f_equal.
    change (c :: take (S (length path)) (path ++ NUL :: k)) with (take (S (S (length path))) ((c :: path) ++ NUL :: k)).
    rewrite take_app_ge by (cbn; lia). cbn [length]. replace (S (S (length path)) - S (length path))%nat with 1%nat by lia. cbn [take].
    apply (until_nul_app (c :: path)); [rewrite elem_of_cons; naive_solver|by left].
Qed.

(** Names that do not fit are cut when they are abstract: two of them can be the same address. *)
Lemma abstract_names_cut : address_name ("@"%char :: replicate 107 "a"%char ++ ["b"%char]) = address_name ("@"%char :: replicate 107 "a"%char ++ ["c"%char]).
Proof. by vm_compute. Qed.
(** The empty path is the abstract name without a character. *)
Lemma empty_path_abstract : address_name [] = UnAbstract [].
Proof. by vm_compute. Qed.

(** ** The listener *)

(** What [lstat] tells of a path. *)
Record inode : Type := mkInode { in_dev : Z; in_ino : Z; in_sock : bool }.
#[export] Instance inode_eq_dec : EqDecision inode.
Proof. solve_decision. Defined.
Abbreviation file_system := (gmap str inode).

(** [UnixListener], the open descriptors and the file system. *)
Record unix_listener : Type := mkListener { ul_fd : Z; ul_path : str; ul_dev : Z; ul_ino : Z }.
Definition listener_none : unix_listener := mkListener (-1) [] 0 0.
Record unix_state : Type := mkUnix { us_open : fd_set; us_fs : file_system }.

(** The part of [close] that cleans the path up. *)
Definition clean_path (l : unix_listener) (fs : file_system) : file_system :=
  match ul_path l with
  | [] => fs
  | path =>
      let replaced := negb (ul_dev l =? 0) &&
        match fs !! path with Some i => negb (in_dev i =? ul_dev l) || negb (in_ino i =? ul_ino l) | None => true end in
      if replaced then fs
      else match fs !! path with Some i => if in_sock i then delete path fs else fs | None => fs end
  end.
Definition unix_close (l : unix_listener) (s : unix_state) : option (unix_listener * unix_state) :=
  t ← release_valid (ul_fd l) (us_open s);
  Some (listener_none, mkUnix t (clean_path l (us_fs s))).

(** What [bind] meets: the descriptor or the error of [socket], the error of [bind] or what it makes,
    the error of [listen], and whether [lstat] succeeds. *)
Record unix_bind_answers : Type := mkUnixBind { ub_socket : Z + Z; ub_bind : Z + inode; ub_listen : option Z; ub_lstat : bool }.
Definition EADDRINUSE : Z := 98.
Definition ENAMETOOLONG : Z := 36.

(** [bind] of the kernel: it refuses a path that is there. *)
Definition kernel_bind (name : un_name) (made : Z + inode) (fs : file_system) : Z + file_system :=
  match made with
  | inl e => inl e
  | inr i =>
      match name with
      | UnPath p => match fs !! p with Some _ => inl EADDRINUSE | None => inr (<[p := i]> fs) end
      | _ => inr fs
      end
  end.

(** [bind]: whether it succeeds, [errno] if it is set, the listener and the state. *)
Definition unix_bind (path : str) (b : unix_bind_answers) (l : unix_listener) (s : unix_state) : option (bool * option Z * unix_listener * unix_state) :=
  '(l, s) ← unix_close l s;
  if (make_unix_address path).2 then Some (false, Some ENAMETOOLONG, l, s)
  else
    match ub_socket b with
    | inl e => Some (false, Some e, l, s)
    | inr fd =>
        let s := mkUnix (acquire fd (us_open s)) (us_fs s) in
        match kernel_bind (address_name path) (ub_bind b) (us_fs s) with
        | inl e => t ← release fd (us_open s); Some (false, Some e, l, mkUnix t (us_fs s))
        | inr fs =>
            match ub_listen b with
            | Some e =>
                t ← release fd (us_open s);
                Some (false, Some e, l, mkUnix t (if is_abstract path then fs else delete path fs))
            | None =>
                let s := mkUnix (us_open s) fs in
                if is_abstract path then Some (true, None, mkListener fd [] 0 0, s)
                else match (if ub_lstat b then fs !! path else None) with
                     | Some i => Some (true, None, mkListener fd path (in_dev i) (in_ino i), s)
                     | None => Some (true, None, mkListener fd path 0 0, s)
                     end
            end
        end
    end.

(** [bind_abstract]. *)
Definition unix_bind_abstract (name : str) : unix_bind_answers → unix_listener → unix_state → option (bool * option Z * unix_listener * unix_state) :=
  unix_bind (if bool_decide (name = []) || is_abstract name then name else "@"%char :: name).

(** The move assignment. *)
Definition unix_assign (dst src : unix_listener) (s : unix_state) : option (unix_listener * unix_listener * unix_state) :=
  '(_, s) ← unix_close dst s; Some (src, listener_none, s).

(** [bind] of a listener that holds nothing: a failure leaves the descriptors and the file system as
    they were, with [errno] set; a success makes its path and nothing else, and holds the descriptor. *)
Theorem unix_bind_spec path b s :
  well_named path → match ub_socket b with inr fd => 0 ≤ fd ∧ fd ∉ us_open s | _ => True end →
  ∃ ok e l s', unix_bind path b listener_none s = Some (ok, e, l, s') ∧
    if ok then e = None ∧ ub_socket b = inr (ul_fd l) ∧ us_open s' = acquire (ul_fd l) (us_open s) ∧
      (if is_abstract path then us_fs s' = us_fs s ∧ ul_path l = []
       else us_fs s !! path = None ∧ ul_path l = path ∧ ∃ i, ub_bind b = inr i ∧ us_fs s' = <[path := i]> (us_fs s) ∧
         (ul_dev l, ul_ino l) = if ub_lstat b then (in_dev i, in_ino i) else (0, 0))
    else is_Some e ∧ l = listener_none ∧ us_open s' = us_open s ∧ us_fs s' = us_fs s.
Proof.
  intros Hw Hfd. destruct (unix_address_names path Hw) as [Hlen Hname]. unfold unix_bind, unix_close.
  change (release_valid (ul_fd listener_none) (us_open s)) with (Some (us_open s)). cbn. rewrite Hlen, Hname.
  destruct s as [t fs]. cbn in *. destruct (ub_socket b) as [e|fd]; [by eexists _, _, _, _|]. destruct Hfd as [H0 Hfd].
  assert (release fd (acquire fd t) = Some t) as Hrel.
  { unfold release, acquire. rewrite decide_True by set_solver. f_equal. set_solver. }
  cbn. destruct (ub_bind b) as [e|i]; cbn [kernel_bind]; [rewrite Hrel; by eexists _, _, _, _|].
  destruct (is_abstract path).
  - destruct (ub_listen b); [rewrite Hrel; by eexists _, _, _, _|]. eexists _, _, _, _. split; [done|]. cbn. by split_and!.
  - destruct (fs !! path) as [j|] eqn:Hp; [rewrite Hrel; by eexists _, _, _, _|].
    destruct (ub_listen b); [rewrite Hrel; cbn; eexists _, _, _, _; split; [done|]; cbn; split_and!; try done; by rewrite delete_insert_id|].
    rewrite lookup_insert_eq. destruct (ub_lstat b); (eexists _, _, _, _; split; [done|]); cbn; split_and!; try done; by exists i.
Qed.

(** [close] takes away the path only as long as it is the socket that [bind] made: whatever others
    have put there since stays, and no other path changes. *)
Theorem unix_close_spec l i s :
  ul_path l ≠ [] → ul_dev l = in_dev i → ul_ino l = in_ino i → in_dev i ≠ 0 → (0 ≤ ul_fd l → ul_fd l ∈ us_open s) →
  ∃ s', unix_close l s = Some (listener_none, s') ∧
    us_open s' = us_open s ∖ (if decide (0 ≤ ul_fd l) then {[ul_fd l]} else ∅) ∧
    us_fs s' = match us_fs s !! ul_path l with
               | Some j => if decide (in_dev j = in_dev i ∧ in_ino j = in_ino i ∧ in_sock j = true) then delete (ul_path l) (us_fs s) else us_fs s
               | None => us_fs s
               end.
Proof.
  intros Hp Hd Hi H0 Hfd. unfold unix_close, release_valid.
  assert (∃ t, (if decide (0 ≤ ul_fd l) then release (ul_fd l) (us_open s) else Some (us_open s)) = Some t ∧
    t = us_open s ∖ (if decide (0 ≤ ul_fd l) then {[ul_fd l]} else ∅)) as (t & -> & Ht).
  { case_decide; [|eexists; split; [done|set_solver]]. unfold release. rewrite decide_True by auto. eauto. }
  cbn [mbind option_bind]. eexists. split; [done|]. split; [done|]. cbn [us_fs]. unfold clean_path.
  destruct (ul_path l) as [|c path] eqn:Hpath; [done|]. rewrite Hd, Hi, (proj2 (Z.eqb_neq _ _) H0). cbn [negb andb].
  destruct (us_fs s !! (c :: path)) as [j|]; [|done].
  destruct (Z.eqb_spec (in_dev j) (in_dev i)), (Z.eqb_spec (in_ino j) (in_ino i)), (in_sock j) eqn:Hs; cbn [negb orb];
    first [rewrite decide_True by done; done | rewrite decide_False by (intros (? & ? & ?); congruence); done].
Qed.

(** When [lstat] failed after [bind], [close] takes away any socket that is found under the path. *)
Lemma unix_close_unrecorded :
  let other := mkInode 8 99 true in
  (λ r, us_fs r.2 !! lit "/s") <$> unix_close (mkListener (-1) (lit "/s") 0 0) (mkUnix ∅ {[lit "/s" := other]}) = Some None.
Proof. reflexivity. Qed.

(** ** [UnixStream::connect] *)

Definition EINPROGRESS : Z := 115.
Definition EIO : Z := 5.

(** The descriptor or the error of [socket], the error of [connect] on an address of a length, what [poll] gives and leaves in
    [errno] or throws, whether [getsockopt] succeeds, and [so_error]. *)
Record unix_connect_answers : Type := mkUnixConnect {
  uc_socket : Z + Z;
  uc_connect : sockaddr_un → nat → option Z;
  uc_poll : res (Z * Z);
  uc_getsockopt : bool;
  uc_so_error : Z;
}.

(** The stream with [errno], or what is thrown; and the open descriptors. *)
Definition unix_connect (path : str) (c : unix_connect_answers) (t : fd_set) : option (res (Z * option Z) * fd_set) :=
  match uc_socket c with
  | inl e => Some (Ok (-1, Some e), t)
  | inr fd =>
      let t := acquire fd t in
      let addr := (make_unix_address path).1 in
      match uc_connect c addr (unix_address_length addr) with
      | None => Some (Ok (fd, None), t)
      | Some e =>
          if decide (e = EINPROGRESS) then
            match uc_poll c with
            | Throw x => Some (Throw x, t)
            | Ok (revents, err) =>
                let so_error := if decide (revents = 0) then 0 else if uc_getsockopt c then uc_so_error c else 0 in
                if decide (revents = 0 ∨ uc_getsockopt c = false ∨ so_error ≠ 0) then
                  let saved := if decide (so_error = 0) then (if decide (revents = 0) then err else EIO) else so_error in
                  t ← release fd t; Some (Ok (-1, Some saved), t)
                else Some (Ok (fd, None), t)
            end
          else t ← release fd t; Some (Ok (-1, Some e), t)
      end
  end.

(** Unless it is cancelled, [connect] returns a stream that holds the new descriptor, or an empty one
    with [errno] set and the descriptor closed. *)
Theorem unix_connect_accounts path c t :
  match uc_socket c with inr fd => 0 ≤ fd ∧ fd ∉ t | _ => True end → (∃ r, uc_poll c = Ok r) →
  ∃ fd e t', unix_connect path c t = Some (Ok (fd, e), t') ∧
    ((0 ≤ fd ∧ e = None ∧ uc_socket c = inr fd ∧ t' = acquire fd t) ∨ (fd = -1 ∧ is_Some e ∧ t' = t)).
Proof.
  intros Hs [[revents err] Hp]. unfold unix_connect. destruct (uc_socket c) as [e|fd]; [eexists _, _, _; split; [done|]; by right|]. destruct Hs as [H0 Hf].
  assert (release fd (acquire fd t) = Some t) as Hrel by (unfold release, acquire; rewrite decide_True by set_solver; f_equal; set_solver).
  cbn zeta. destruct (uc_connect c _ _) as [e|]; [|eexists _, _, _; split; [done|]; by left]. rewrite Hp.
  destruct (decide (e = EINPROGRESS)); [|rewrite Hrel; eexists _, _, _; split; [done|]; by right].
  destruct (decide _); [rewrite Hrel; eexists _, _, _; split; [done|]; by right|eexists _, _, _; split; [done|]; by left].
Qed.

(** Cancelled while it waits, it loses the descriptor: no object holds it and nothing closes it. *)
Lemma unix_connect_leaks path : unix_connect path (mkUnixConnect (inr 5) (λ _ _, Some EINPROGRESS) (Throw CancelledError) true 0) ∅ = Some (Throw CancelledError, {[5]}).
Proof. by vm_compute. Qed.

(** A path that is too long is refused by [bind], and not by [connect]: the kernel is asked about an
    address without a family, and what it says stands in the place of [ENAMETOOLONG]. *)
Lemma unix_connect_too_long path fd e t :
  (108 <= length path)%nat → is_abstract path = false → 0 ≤ fd → fd ∉ t →
  unix_connect path (mkUnixConnect (inr fd) (λ a len, if un_family a then None else if decide (len = 2%nat) then Some 22 else None) e true 0) t = Some (Ok (-1, Some 22), t).
Proof.
  intros Hl Ha H0 Hf. unfold unix_connect, make_unix_address. cbn [uc_socket uc_connect]. rewrite Ha, decide_True by done. cbn.
  assert (release fd (acquire fd t) = Some t) as -> by (unfold release, acquire; rewrite decide_True by set_solver; f_equal; set_solver). done.
Qed.

(** ** Witnesses *)

Lemma unix_address_names_witness : address_name (lit "/tmp/s") = UnPath (lit "/tmp/s").
Proof. apply (unix_address_names (lit "/tmp/s")). split_and!; [apply (bool_decide_unpack _); vm_compute; exact I|done|vm_compute; lia]. Defined.

Definition demo_inode : inode := mkInode 8 77 true.
Lemma unix_bind_spec_witness :
  ∃ ok e l s', unix_bind (lit "/tmp/s") (mkUnixBind (inr 3) (inr demo_inode) None true) listener_none (mkUnix ∅ ∅) = Some (ok, e, l, s').
Proof.
  destruct (unix_bind_spec (lit "/tmp/s") (mkUnixBind (inr 3) (inr demo_inode) None true) (mkUnix ∅ ∅)) as (ok & e & l & s' & H & _).
  - split_and!; [apply (bool_decide_unpack _); vm_compute; exact I|done|vm_compute; lia].
  - split; [lia|]. apply not_elem_of_empty.
  - by exists ok, e, l, s'.
Defined.

Lemma unix_close_spec_witness :
  ∃ s', unix_close (mkListener 3 (lit "/s") 8 77) (mkUnix {[3]} {[lit "/s" := demo_inode]}) = Some (listener_none, s') ∧ us_open s' = {[3]} ∖ {[3]}.
Proof.
  destruct (unix_close_spec (mkListener 3 (lit "/s") 8 77) demo_inode (mkUnix {[3]} {[lit "/s" := demo_inode]})) as (s' & H & Ho & _); [done|done|done|done| |by exists s'].
  intros _. cbn. by apply elem_of_singleton.
Defined.

Lemma unix_connect_accounts_witness :
  ∃ fd e t', unix_connect (lit "/s") (mkUnixConnect (inr 5) (λ _ _, Some EINPROGRESS) (Ok (4, 0)) true 111) ∅ = Some (Ok (fd, e), t').
Proof.
  destruct (unix_connect_accounts (lit "/s") (mkUnixConnect (inr 5) (λ _ _, Some EINPROGRESS) (Ok (4, 0)) true 111) ∅) as (fd & e & t' & H & _).
  - split; [lia|apply not_elem_of_empty].
  - by exists (4, 0).
  - by exists fd, e, t'.
Defined.
