(* ===== verification/IoErrors.v ===== *)
(** * IoErrors: the errors that operations note

    [src/include/coro/io.hpp]: the last error of a thread and the translation of the codes of Windows
    to those of [errno], with the numbers of both as the headers of Windows and of its C library give
    them. *)

From S2P Require Import Prelude.
From stdpp Require Import options.

Local Open Scope Z_scope.

(** [wsa_to_errno]: the codes of a case, and what they become. *)
Definition errno_cases : list (list Z * Z) :=
  [([0], 0);
   ([5; 10013], 13);      (* ERROR_ACCESS_DENIED, WSAEACCES: EACCES *)
   ([10014], 14);         (* WSAEFAULT: EFAULT *)
   ([87; 10022], 22);     (* ERROR_INVALID_PARAMETER, WSAEINVAL: EINVAL *)
   ([10024], 24);         (* WSAEMFILE: EMFILE *)
   ([10035], 11);         (* WSAEWOULDBLOCK: EAGAIN *)
   ([10036], 16);         (* WSAEINPROGRESS: EBUSY *)
   ([10038], 128);        (* WSAENOTSOCK: ENOTSOCK *)
   ([10048], 100);        (* WSAEADDRINUSE: EADDRINUSE *)
   ([10049], 101);        (* WSAEADDRNOTAVAIL: EADDRNOTAVAIL *)
   ([10047], 102);        (* WSAEAFNOSUPPORT: EAFNOSUPPORT *)
   ([10050], 116);        (* WSAENETDOWN: ENETDOWN *)
   ([10051], 118);        (* WSAENETUNREACH: ENETUNREACH *)
   ([10052], 117);        (* WSAENETRESET: ENETRESET *)
   ([10053], 106);        (* WSAECONNABORTED: ECONNABORTED *)
   ([10054], 108);        (* WSAECONNRESET: ECONNRESET *)
   ([10055], 119);        (* WSAENOBUFS: ENOBUFS *)
   ([10058; 10057], 126); (* WSAESHUTDOWN, WSAENOTCONN: ENOTCONN *)
   ([10060], 138);        (* WSAETIMEDOUT: ETIMEDOUT *)
   ([10061], 107);        (* WSAECONNREFUSED: ECONNREFUSED *)
   ([10064; 10065], 110); (* WSAEHOSTDOWN, WSAEHOSTUNREACH: EHOSTUNREACH *)
   ([995], 4);            (* ERROR_OPERATION_ABORTED: EINTR *)
   ([38], 0);             (* ERROR_HANDLE_EOF *)
   ([2; 3], 2);           (* ERROR_FILE_NOT_FOUND, ERROR_PATH_NOT_FOUND: ENOENT *)
   ([80; 183], 17);       (* ERROR_FILE_EXISTS, ERROR_ALREADY_EXISTS: EEXIST *)
   ([145], 41);           (* ERROR_DIR_NOT_EMPTY: ENOTEMPTY *)
   ([8; 14], 12);         (* ERROR_NOT_ENOUGH_MEMORY, ERROR_OUTOFMEMORY: ENOMEM *)
   ([18], 2);             (* ERROR_NO_MORE_FILES: ENOENT *)
   ([109], 32)].          (* ERROR_BROKEN_PIPE: EPIPE *)
Definition WIN_EIO : Z := 5.
Definition wsa_to_errno (code : Z) : Z :=
  match List.find (λ c, bool_decide (code ∈ c.1)) errno_cases with Some c => c.2 | None => WIN_EIO end.

(** [t_last_error] and [errno] of a thread. *)
Record io_error : Type := mkIoError { ie_last : Z; ie_errno : Z }.
Definition clear_error (e : io_error) : io_error := mkIoError 0 (ie_errno e).
Definition set_error (windows : bool) (code : Z) (e : io_error) : io_error :=
  mkIoError code (if windows then wsa_to_errno code else code).

(** The cases of the switch do not overlap, so their order does not matter. *)
Lemma errno_cases_disjoint : NoDup (concat errno_cases.*1).
Proof. apply (bool_decide_unpack _). vm_compute. exact I. Qed.

Lemma find_case cs code c :
  NoDup (concat cs.*1) → c ∈ cs → code ∈ c.1 → List.find (λ c : list Z * Z, bool_decide (code ∈ c.1)) cs = Some c.
Proof.
  induction cs as [|d cs IH]; [set_solver|]. cbn. rewrite NoDup_app, elem_of_cons. intros (_ & Hd & Hn) Hc Hin. destruct Hc as [->|Hc].
  - by rewrite bool_decide_true.
  - rewrite bool_decide_false; [by apply IH|]. intros Hd'. apply (Hd code Hd'). apply list_elem_of_In, in_concat. exists c.1. split; [|by apply list_elem_of_In].
    apply list_elem_of_In. by apply list_elem_of_fmap_2.
Qed.

(** Each code of a case becomes what the case says, and every other one is an I/O error; the only
    errors that become 0 are none and the end of a file. *)
Theorem wsa_to_errno_spec code :
  (∀ cs e, (cs, e) ∈ errno_cases → code ∈ cs → wsa_to_errno code = e) ∧
  (code ∉ concat errno_cases.*1 → wsa_to_errno code = WIN_EIO) ∧
  (wsa_to_errno code = 0 ↔ code = 0 ∨ code = 38).
Proof.
  assert (∀ cs e, (cs, e) ∈ errno_cases → code ∈ cs → wsa_to_errno code = e) as H1.
  { intros cs e Hc Hin. unfold wsa_to_errno. by rewrite (find_case errno_cases code (cs, e) errno_cases_disjoint Hc Hin). }
  assert (code ∉ concat errno_cases.*1 → wsa_to_errno code = WIN_EIO) as H2.
  { intros Hn. unfold wsa_to_errno. destruct (List.find _ _) as [c|] eqn:Hf; [|done]. exfalso. apply find_some in Hf as [Hc Hin%bool_decide_eq_true].
    apply Hn, list_elem_of_In, in_concat. exists c.1. split; [|by apply list_elem_of_In]. apply in_map. done. }
  split; [done|]. split; [done|]. split.
  - intros H0. destruct (decide (code ∈ concat errno_cases.*1)) as [Hin|Hn]; [|by rewrite (H2 Hn) in H0].
    assert (Forall (λ c, wsa_to_errno c = 0 → c = 0 ∨ c = 38) (concat errno_cases.*1)) as Hall by (apply (bool_decide_unpack _); vm_compute; exact I).
    rewrite Forall_forall in Hall. by apply Hall.
  - by intros [-> | ->].
Qed.

(** The comment of [PipeEnd::write] says [ERROR_NO_DATA], 232, becomes [EPIPE]. *)
Lemma no_data_is_eio : wsa_to_errno 232 = WIN_EIO.
Proof. reflexivity. Qed.

(** [set_error] takes a code of the platform: with [EACCES], 13, it notes an I/O error. *)
Lemma errno_given_to_set_error e : set_error true 13 e = mkIoError 13 WIN_EIO.
Proof. reflexivity. Qed.
