(* ===== verification/FsM.v ===== *)
(** * FsM: files

    [src/include/coro/fs.hpp]: the modes of [open] on both platforms with what the systems make of
    them, [stat], and the loops of [read_all] and [write_all].  The awaiters of [File] are in [NetM]
    and [NetIocp]; here a read or a write is an argument: the answers of the system, given the
    position and the length that the request carries. *)

From Stdlib Require Import Ascii.
From S2P Require Import Prelude IoErrors.
From stdpp Require Import options.

Local Open Scope Z_scope.

(** ** Modes *)

Definition mode : Type := Z.
Definition mode_read : mode := 1.
Definition mode_write : mode := 2.
Definition mode_create : mode := 4.
Definition mode_truncate : mode := 8.
Definition mode_append : mode := 16.
Definition mode_exclusive : mode := 32.
Definition mode_or (a b : mode) : mode := Z.lor a b.
Definition mode_has (a b : mode) : bool := negb (Z.land a b =? 0).

Definition O_WRONLY : Z := 1.
Definition O_RDWR : Z := 2.
Definition O_CREAT : Z := 64.
Definition O_EXCL : Z := 128.
Definition O_TRUNC : Z := 512.
Definition O_APPEND : Z := 1024.
Definition O_CLOEXEC : Z := 524288.

(** The flags of [open] on Linux. *)
Definition open_flags (m : mode) : Z :=
  let rd := mode_has m mode_read in let wr := mode_has m mode_write in let ap := mode_has m mode_append in
  let flags := O_CLOEXEC in
  let flags := if rd && (wr || ap) then Z.lor flags O_RDWR else if wr || ap then Z.lor flags O_WRONLY else flags in
  let flags := if mode_has m mode_create || wr || ap then Z.lor flags O_CREAT else flags in
  let flags := if mode_has m mode_truncate || (wr && negb (mode_has m mode_create) && negb ap) then Z.lor flags O_TRUNC else flags in
  let flags := if ap then Z.lor flags O_APPEND else flags in
  if mode_has m mode_exclusive then Z.lor flags O_EXCL else flags.

Definition GENERIC_READ : Z := 2 ^ 31.
Definition GENERIC_WRITE : Z := 2 ^ 30.
Definition FILE_APPEND_DATA : Z := 4.
Definition CREATE_NEW : Z := 1.
Definition CREATE_ALWAYS : Z := 2.
Definition OPEN_EXISTING : Z := 3.
Definition OPEN_ALWAYS : Z := 4.

(** The access and the creation that [open] asks for on Windows. *)
Definition open_access (m : mode) : Z :=
  let rd := mode_has m mode_read in let wr := mode_has m mode_write in let ap := mode_has m mode_append in
  let access := if rd then GENERIC_READ else 0 in
  let access := if wr && negb ap then Z.lor access GENERIC_WRITE else access in
  if ap then Z.lor access FILE_APPEND_DATA else access.
Definition open_creation (m : mode) : Z :=
  let wr := mode_has m mode_write in let ap := mode_has m mode_append in
  if mode_has m mode_exclusive then CREATE_NEW
  else if mode_has m mode_truncate || (wr && negb (mode_has m mode_create) && negb ap) then CREATE_ALWAYS
  else if wr || ap || mode_has m mode_create then OPEN_ALWAYS
  else OPEN_EXISTING.

(** *** What the systems make of them *)

(** An open file: whether it is there now though it was not before, whether its bytes are gone, and
    what may be done with it. *)
Record opened : Type := mkOpened { op_created : bool; op_truncated : bool; op_read : bool; op_write : bool; op_append : bool }.
Inductive open_result : Type := Opened (o : opened) | NotFound | Exists.
#[export] Instance opened_eq_dec : EqDecision opened.
Proof. solve_decision. Defined.
#[export] Instance open_result_eq_dec : EqDecision open_result.
Proof. solve_decision. Defined.

(** open(2) on a regular file. *)
Definition linux_open (flags : Z) (exists_ : bool) : open_result :=
  let has b := negb (Z.land flags b =? 0) in
  let acc := Z.land flags 3 in
  let o created := Opened (mkOpened created (exists_ && has O_TRUNC) (negb (acc =? O_WRONLY)) (negb (acc =? 0)) (has O_APPEND)) in
  if exists_ then (if has O_CREAT && has O_EXCL then Exists else o false)
  else if has O_CREAT then o true else NotFound.
(** [CreateFileW]. *)
Definition windows_open (access creation : Z) (exists_ : bool) : open_result :=
  let has b := negb (Z.land access b =? 0) in
  let o created truncated := Opened (mkOpened created truncated (has GENERIC_READ) (has GENERIC_WRITE || has FILE_APPEND_DATA) (negb (has GENERIC_WRITE) && has FILE_APPEND_DATA)) in
  if creation =? CREATE_NEW then (if exists_ then Exists else o true false)
  else if creation =? CREATE_ALWAYS then o (negb exists_) exists_
  else if creation =? OPEN_ALWAYS then o (negb exists_) false
  else if exists_ then o false false else NotFound.

Definition open_linux (m : mode) : bool → open_result := linux_open (open_flags m).
Definition open_windows (m : mode) : bool → open_result := windows_open (open_access m) (open_creation m).

(** The comments of [mode]: [write] stands for write, create and truncate, unless it comes with
    [create] or [append]; [append] creates; [exclusive] refuses what is there. *)
Definition open_documented (m : mode) (exists_ : bool) : open_result :=
  let has := mode_has m in
  let creates := has mode_create || has mode_write || has mode_append in
  let truncates := has mode_truncate || (has mode_write && negb (has mode_create) && negb (has mode_append)) in
  if exists_ then
    if has mode_exclusive && creates then Exists
    else Opened (mkOpened false truncates (has mode_read) (has mode_write || has mode_append) (has mode_append))
  else if creates then Opened (mkOpened true false (has mode_read) (has mode_write || has mode_append) (has mode_append))
  else NotFound.

(** The combinations the comments speak of: something is read or written, and [truncate] and
    [exclusive] come with a mode that creates. *)
Definition sensible (m : mode) : bool :=
  let has := mode_has m in
  (has mode_read || has mode_write || has mode_append) &&
  (negb (has mode_truncate || has mode_exclusive) || has mode_create || has mode_write || has mode_append).

Definition modes : list mode := seqZ 0 64.

Lemma modes_checked (P : mode → Prop) (HP : ∀ m, Decision (P m)) m : bool_decide (Forall P modes) = true → 0 ≤ m < 64 → P m.
Proof. intros Hb Hm. apply bool_decide_eq_true in Hb. rewrite Forall_forall in Hb. apply Hb, elem_of_seqZ. lia. Qed.

(** In each sensible mode a file is opened, made, emptied and refused on both platforms as the comments
    say. *)
Theorem open_as_documented m exists_ :
  0 ≤ m < 64 → sensible m = true → open_linux m exists_ = open_documented m exists_ ∧ open_windows m exists_ = open_documented m exists_.
Proof.
  intros Hm Hs. revert exists_. pose (as_documented := λ m b, open_linux m b = open_documented m b ∧ open_windows m b = open_documented m b).
  assert (sensible m = true → as_documented m true ∧ as_documented m false) as H.
  { apply (modes_checked (λ m, sensible m = true → as_documented m true ∧ as_documented m false) _ m); [|done]. vm_compute. reflexivity. }
  intros []; by apply H.
Qed.

(** Elsewhere the platforms differ: [create] alone cannot be read on Windows, and [read] with
    [truncate] or [exclusive] makes a file there that Linux does not find. *)
Lemma create_alone_differs : open_linux mode_create true ≠ open_windows mode_create true.
Proof. done. Qed.
Lemma truncate_read_differs :
  open_linux (mode_or mode_read mode_truncate) false = NotFound ∧
  open_windows (mode_or mode_read mode_truncate) false = Opened (mkOpened true false true false false).
Proof. done. Qed.
Lemma exclusive_read_differs :
  open_linux (mode_or mode_read mode_exclusive) false = NotFound ∧ open_windows (mode_or mode_read mode_exclusive) true = Exists.
Proof. done. Qed.

(** ** [stat] *)

Record stat_info : Type := mkStat { st_size : Z; st_mtime_sec : Z; st_is_dir : bool; st_exists : bool }.
Definition stat_none : stat_info := mkStat 0 0 false false.

(** On Windows, from the attributes and the halves of the size and of the time of the last write. *)
Record win_attributes : Type := mkAttr { wa_directory : bool; wa_size_high : Z; wa_size_low : Z; wa_time_high : Z; wa_time_low : Z }.
Definition u64 (x : Z) : Z := x `mod` 2 ^ 64.
Definition i64 (x : Z) : Z := (x + 2 ^ 63) `mod` 2 ^ 64 - 2 ^ 63.
Definition win_stat (a : Z + win_attributes) (e : io_error) : stat_info * io_error :=
  match a with
  | inl code => (stat_none, set_error true code e)
  | inr a =>
      let quad := Z.lor (Z.shiftl (wa_time_high a) 32) (wa_time_low a) in
      (mkStat (Z.lor (u64 (Z.shiftl (wa_size_high a) 32)) (wa_size_low a)) (i64 (u64 (quad - 116444736000000000) / 10000000)) (wa_directory a) true, e)
  end.
(** On Linux, from the size, the time and the kind that [stat] gives. *)
Definition linux_stat (a : Z + Z * Z * bool) (e : io_error) : stat_info * io_error :=
  match a with
  | inl code => (stat_none, set_error false code e)
  | inr (size, mtime, dir) => (mkStat (u64 size) mtime dir true, e)
  end.

Lemma lor_halves high low : 0 ≤ low < 2 ^ 32 → Z.lor (Z.shiftl high 32) low = high * 2 ^ 32 + low.
Proof.
  intros Hl. rewrite Z.shiftl_mul_pow2 by lia. symmetry. rewrite <- Z.lxor_lor, <- Z.add_nocarry_lxor; [done|..]; apply Z.bits_inj'; intros i Hi;
    rewrite Z.land_spec, Z.bits_0; (destruct (Z.lt_ge_cases i 32); [by rewrite Z.mul_pow2_bits_low by lia|]); rewrite andb_false_iff; right;
    (destruct (decide (low = 0)) as [->|]; [apply Z.bits_0|]; apply Z.bits_above_log2; [lia|]; apply Z.log2_lt_pow2; [lia|]; apply (Z.lt_le_trans _ (2 ^ 32)); [lia|apply Z.pow_le_mono_r; lia]).
Qed.

(** The halves of the size and of the time make up the numbers: the size is exact, and the time is the
    second of a file written since 1970. *)
Theorem win_stat_spec dir size time e :
  0 ≤ size < 2 ^ 64 → 116444736000000000 ≤ time < 2 ^ 63 →
  win_stat (inr (mkAttr dir (size / 2 ^ 32) (size `mod` 2 ^ 32) (time / 2 ^ 32) (time `mod` 2 ^ 32))) e =
    (mkStat size ((time - 116444736000000000) / 10000000) dir true, e).
Proof.
  intros Hs Ht. unfold win_stat. cbn [wa_directory wa_size_high wa_size_low wa_time_high wa_time_low].
  assert (u64 (Z.shiftl (size / 2 ^ 32) 32) = Z.shiftl (size / 2 ^ 32) 32) as ->.
  { unfold u64. rewrite Z.shiftl_mul_pow2 by lia. apply Z.mod_small. pose proof (Z.div_mod size (2 ^ 32)). pose proof (Z.mod_pos_bound size (2 ^ 32)).
    assert (0 ≤ size / 2 ^ 32) by (apply Z.div_pos; lia). lia. }
  rewrite !lor_halves by (apply Z.mod_pos_bound; lia). rewrite !(Z.mul_comm (_ / _)), <- !Z.div_mod by done. do 2 f_equal.
  unfold u64, i64. rewrite (Z.mod_small (time - _)) by lia.
  assert (0 ≤ (time - 116444736000000000) / 10000000 ≤ time) by (split; [apply Z.div_pos; lia|apply Z.div_le_upper_bound; lia]).
  rewrite Z.mod_small by lia. lia.
Qed.

(** A file written before 1970 has a time in the far future. *)
Lemma win_stat_before_1970 : st_mtime_sec (win_stat (inr (mkAttr false 0 0 0 0)) (mkIoError 0 0)).1 = 1833029933770.
Proof. by vm_compute. Qed.

(** ** [read_all] *)

(** The request takes the length modulo 2^32. *)
Definition dword (x : Z) : Z := x `mod` 2 ^ 32.

Section loops.
(** The i-th read, at a position and of a length: the bytes, or the error. *)
Context (rd : nat → Z → Z → Z + str).

(** The loop: the buffer is [out], [off] what was read of it.  [None] is fuel that ran out. *)
Fixpoint read_loop (fuel : nat) (i : nat) (size off : Z) (out : str) : option (Z + Z * str) :=
  match fuel with
  | O => None
  | S fuel =>
      if off <? size then
        match rd i off (dword (size - off)) with
        | inl e => Some (inl e)
        | inr [] => Some (inr (off, out))
        | inr s => read_loop fuel (S i) size (off + Z.of_nat (length s)) (take (Z.to_nat off) out ++ s ++ drop (Z.to_nat off + length s) out)
        end
      else Some (inr (off, out))
  end.

(** [read_all], given what [stat] and [open] answer. *)
Definition read_all (windows : bool) (fuel : nat) (st : stat_info) (open : option Z) (e : io_error) : option (str * io_error) :=
  if negb (st_exists st) || st_is_dir st then Some ([], set_error windows (if st_exists st then 13 else 2) e)
  else match open with
  | Some code => Some ([], set_error windows code e)
  | None =>
      r ← read_loop fuel 0 (st_size st) 0 (replicate (Z.to_nat (st_size st)) "000"%char);
      Some (match r with
      | inl code => ([], set_error windows code e)
      | inr (off, out) => (if off <? Z.of_nat (length out) then take (Z.to_nat off) out else out, e)
      end)
  end.

(** A file that holds [content] while it is read: a read gives some of the bytes that are there, none
    only at the end. *)
Definition reads (content : str) : Prop :=
  ∀ i off len, 0 ≤ off → match rd i off len with
    | inl _ => True
    | inr s => s `prefix_of` drop (Z.to_nat off) content ∧ Z.of_nat (length s) ≤ Z.max 0 len ∧ (0 < len → off < Z.of_nat (length content) → s ≠ [])
    end.

Lemma read_loop_spec content fuel i size off out :
  reads content → size < 2 ^ 31 → 0 ≤ off ≤ size → off ≤ Z.of_nat (length content) → Z.of_nat (length out) = size →
  take (Z.to_nat off) out = take (Z.to_nat off) content → (Z.to_nat (size - off) < fuel)%nat →
  ∃ r, read_loop fuel i size off out = Some r ∧
    match r with
    | inl e => ∃ j off' len, rd j off' len = inl e
    | inr (off', out') => 0 ≤ off' ≤ size ∧ Z.of_nat (length out') = size ∧ take (Z.to_nat off') out' = take (Z.to_nat size) content
    end.
Proof.
  intros Hrd Hsize. revert i off out. induction fuel as [|fuel IH]; intros i off out Hoff Hc Hl Ht Hf; [lia|]. cbn [read_loop].
  destruct (Z.ltb_spec off size) as [Hlt|Hge].
  2:{ eexists. split; [done|]. cbn. assert (off = size) as -> by lia. done. }
  pose proof (Hrd i off (dword (size - off)) (proj1 Hoff)) as Hr. destruct (rd i off (dword (size - off))) as [e|s] eqn:He; [eexists; split; [done|]; cbn; eauto|].
  assert (dword (size - off) = size - off) as Hdw by (unfold dword; apply Z.mod_small; lia). rewrite Hdw in Hr. destruct Hr as ([k Hk] & Hlen & Hne).
  destruct s as [|c s].
  - eexists. split; [done|]. cbn. split; [done|]. split; [done|]. rewrite Ht.
    destruct (decide (off < Z.of_nat (length content))) as [Hin|]; [by destruct (Hne ltac:(lia) Hin)|]. rewrite !take_ge by lia. done.
  - set (t := c :: s) in *. assert (0 < length t)%nat by (subst t; cbn; lia). clearbody t.
    assert (length t + length k = length content - Z.to_nat off)%nat as Hlk by (rewrite <- length_drop, Hk, length_app; lia).
    replace (Z.to_nat (off + Z.of_nat (length t))) with (Z.to_nat off + length t)%nat by lia.
    apply IH.
    + lia.
    + lia.
    + rewrite !length_app, length_take, length_drop. lia.
    + replace (Z.to_nat (off + Z.of_nat (length t))) with (Z.to_nat off + length t)%nat by lia.
      rewrite app_assoc, take_app_le by (rewrite length_app, length_take; lia). rewrite take_ge by (rewrite length_app, length_take; lia).
      rewrite Ht, <- (take_drop (Z.to_nat off) content) at 1. rewrite Hk. rewrite (take_app_le (take _ _)) by (rewrite length_take; lia).
      rewrite take_take, Nat.min_id. rewrite <- (take_drop (Z.to_nat off) content) at 2. rewrite Hk.
      rewrite take_app_ge by (rewrite length_take; lia). f_equal. rewrite length_take.
      replace (Z.to_nat off + length t - Z.to_nat off `min` length content)%nat with (length t) by lia. by rewrite take_app_length.
    + lia.
Qed.
End loops.

Lemma read_loop_fails rd fuel i size off out e : read_loop rd fuel i size off out = Some (inl e) → ∃ j off' len, rd j off' len = inl e.
Proof.
  revert i off out. induction fuel as [|fuel IH]; intros i off out; cbn; [done|]. destruct (off <? size); [|done].
  destruct (rd i off (dword (size - off))) as [e'|[|c s]] eqn:Hr; [intros [= <-]; eauto|done|apply IH].
Qed.

(** C36 [read_all] of a file of less than 2 GB comes back, with all of it as far as [stat] saw it, however
    the reads are cut, or with nothing and the error of a read; a file that was cut short meanwhile
    is given up to its end, without the zeros of the buffer. *)
Theorem file_read_all_spec rd content windows st e :
  reads rd content → st_exists st = true → st_is_dir st = false → 0 ≤ st_size st < 2 ^ 31 →
  ∃ r, read_all rd windows (S (Z.to_nat (st_size st))) st None e = Some r ∧
    (r = (take (Z.to_nat (st_size st)) content, e) ∨ ∃ i off len code, rd i off len = inl code ∧ r = ([], set_error windows code e)).
Proof.
  intros Hrd Hex Hdir Hsize. unfold read_all. rewrite Hex, Hdir. cbn [negb orb].
  destruct (read_loop_spec rd content (S (Z.to_nat (st_size st))) 0 (st_size st) 0 (replicate (Z.to_nat (st_size st)) "000"%char)) as (r & -> & Hr);
    try done; try lia; [rewrite length_replicate; lia|].
  cbn [mbind option_bind]. eexists. split; [done|]. destruct r as [code|[off out]].
  - right. destruct Hr as (i & off & len & Hr). eauto 10.
  - left. destruct Hr as (Hoff & Hlen & Htake). f_equal. destruct (Z.ltb_spec off (Z.of_nat (length out))); [done|]. rewrite <- Htake, take_ge by lia. done.
Qed.

(** Of a file of 4 GB it reads nothing and reports no error. *)
Lemma read_all_4gib rd content windows fuel st e :
  reads rd content → st_exists st = true → st_is_dir st = false → st_size st = 2 ^ 32 → (∃ s, rd 0%nat 0 0 = inr s) →
  read_all rd windows (S fuel) st None e = Some ([], e).
Proof.
  intros Hrd Hex Hdir Hsize [s Hs].
  pose proof (Hrd 0%nat 0 0 ltac:(lia)) as Hr. rewrite Hs in Hr. destruct Hr as (_ & Hl & _). assert (s = []) as -> by (destruct s; [done|cbn in Hl; lia]).
  unfold read_all. rewrite Hex, Hdir, Hsize. cbn [negb orb]. set (out := replicate _ _). cbn [read_loop]. change (0 <? 2 ^ 32) with true. cbn [negb].
  change (dword (2 ^ 32 - 0)) with 0. rewrite Hs. cbn [mbind option_bind]. assert (0 < length out)%nat as Hout by (unfold out; rewrite length_replicate; lia).
  rewrite (proj2 (Z.ltb_lt 0 _)) by lia. done.
Qed.

(** ** [write_all] *)

Section writes.
(** The i-th write, of bytes at a position: how many were taken, or the error. *)
Context (wr : nat → Z → str → Z + Z).

(** The loop, with the writes that were carried out: positions and bytes. *)
Fixpoint write_loop (fuel : nat) (i : nat) (off : Z) (data : str) (done : list (Z * str)) : option (bool * option Z * list (Z * str)) :=
  match fuel with
  | O => None
  | S fuel =>
      if off <? Z.of_nat (length data) then
        let rest := drop (Z.to_nat off) data in
        match wr i off (take (Z.to_nat (dword (Z.of_nat (length rest)))) rest) with
        | inl e => Some (false, Some e, done)
        | inr n => if n <=? 0 then Some (false, None, done) else write_loop fuel (S i) (off + n) data (done ++ [(off, take (Z.to_nat n) rest)])
        end
      else Some (true, None, done)
  end.

(** [write_all], given what [open] answers. *)
Definition write_all (windows : bool) (fuel : nat) (open : option Z) (data : str) (e : io_error) : option (bool * list (Z * str) * io_error) :=
  match open with
  | Some code => Some (false, [], set_error windows code e)
  | None =>
      '(ok, err, done) ← write_loop fuel 0 0 data [];
      Some (ok, done, match err with Some code => set_error windows code e | None => e end)
  end.

(** Writes take no more than they are given. *)
Definition writes : Prop := ∀ i off s, match wr i off s with inl _ => True | inr n => n ≤ Z.of_nat (length s) end.

(** Pieces that follow each other from the start. *)
Inductive pieces : Z → list (Z * str) → Prop :=
  | PcNil : pieces 0 []
  | PcSnoc off l s : pieces off l → pieces (off + Z.of_nat (length s)) (l ++ [(off, s)]).

Lemma write_loop_spec fuel i off data done_ :
  writes → 0 ≤ off ≤ Z.of_nat (length data) → pieces off done_ → concat done_.*2 = take (Z.to_nat off) data → (length data - Z.to_nat off < fuel)%nat →
  ∃ ok e d, write_loop fuel i off data done_ = Some (ok, e, d) ∧
    ∃ off', pieces off' d ∧ concat d.*2 = take (Z.to_nat off') data ∧ (ok = true → off' = Z.of_nat (length data) ∧ e = None) ∧ 0 ≤ off' ≤ Z.of_nat (length data).
Proof.
  intros Hwr. revert i off done_. induction fuel as [|fuel IH]; intros i off done_ Hoff Hp Hc Hf; [lia|]. cbn [write_loop].
  destruct (Z.ltb_spec off (Z.of_nat (length data))) as [Hlt|Hge].
  2:{ eexists _, _, _. split; [done|]. exists off. split; [done|]. split; [done|]. split; [split; [lia|done]|done]. }
  set (rest := drop (Z.to_nat off) data). set (given := take _ rest). pose proof (Hwr i off given) as Hn. destruct (wr i off given) as [e|n].
  { eexists _, _, _. split; [done|]. exists off. split; [done|]. split; [done|]. split; [discriminate|done]. }
  destruct (Z.leb_spec n 0); [eexists _, _, _; split; [done|]; exists off; split; [done|]; split; [done|]; split; [discriminate|done]|].
  assert (length given ≤ length rest)%nat by (unfold given; rewrite length_take; lia).
  assert (length rest = length data - Z.to_nat off)%nat as Hrest by (unfold rest; by rewrite length_drop).
  assert (Z.of_nat (length (take (Z.to_nat n) rest)) = n) as Hlen by (rewrite length_take; lia).
  apply IH; [lia| | |lia].
  - rewrite <- Hlen at 1. by constructor.
  - rewrite fmap_app, concat_app, Hc. cbn. rewrite app_nil_r. unfold rest. rewrite take_take_drop. f_equal. lia.
Qed.
End writes.

(** [write_all] comes back; what was written are pieces of the data that follow each other from the
    start, and all of it when it says so. *)
Theorem file_write_all_spec wr windows data e :
  writes wr →
  ∃ ok done e', write_all wr windows (S (length data)) None data e = Some (ok, done, e') ∧
    ∃ off, pieces off done ∧ concat done.*2 = take (Z.to_nat off) data ∧ (ok = true → concat done.*2 = data ∧ e' = e).
Proof.
  intros Hwr. unfold write_all. destruct (write_loop_spec wr (S (length data)) 0 0 data [] Hwr) as (ok & err & d & -> & off & Hp & Hc & Hok & Hoff);
    [lia|constructor|done|lia|]. cbn [mbind option_bind]. eexists _, _, _. split; [done|]. exists off. split; [done|]. split; [done|].
  intros Ht. destruct (Hok Ht) as [-> ->]. rewrite Hc, Nat2Z.id, firstn_all. done.
Qed.

(** ** Witnesses *)

Lemma open_as_documented_witness : open_linux (mode_or mode_read mode_write) true = Opened (mkOpened false true true true false).
Proof. apply (open_as_documented (mode_or mode_read mode_write) true); [by vm_compute|done]. Defined.

Lemma win_stat_spec_witness :
  win_stat (inr (mkAttr false 1 5 30000000 7)) (mkIoError 0 0) = (mkStat 4294967301 ((30000000 * 2 ^ 32 + 7 - 116444736000000000) / 10000000) false true, mkIoError 0 0).
Proof. apply (win_stat_spec false 4294967301 (30000000 * 2 ^ 32 + 7) (mkIoError 0 0)); lia. Defined.

(** A file of five bytes, read two at a time. *)
Definition five : str := ["h"; "e"; "l"; "l"; "o"]%char.
Definition by_two (i : nat) (off len : Z) : Z + str := inr (take (Z.to_nat (Z.min 2 len)) (drop (Z.to_nat off) five)).

Lemma file_read_all_spec_witness :
  ∃ r, read_all by_two false 6 (mkStat 5 0 false true) None (mkIoError 0 0) = Some r ∧
    (r = (five, mkIoError 0 0) ∨ ∃ i off len code, by_two i off len = inl code ∧ r = ([], set_error false code (mkIoError 0 0))).
Proof.
  apply (file_read_all_spec by_two five false (mkStat 5 0 false true) (mkIoError 0 0)); [|done..].
  intros i off len Hoff. cbn [by_two]. split; [apply prefix_take|]. rewrite length_take, length_drop. change (length five) with 5%nat.
  split; [lia|]. intros Hl Hlt He. apply (f_equal length) in He. rewrite length_take, length_drop in He. change (length five) with 5%nat in He. cbn in He. lia.
Defined.

Lemma file_write_all_spec_witness :
  ∃ ok done e', write_all (λ _ _ s, inr (Z.min 2 (Z.of_nat (length s)))) false 6 None five (mkIoError 0 0) = Some (ok, done, e') ∧
    ∃ off, pieces off done ∧ concat done.*2 = take (Z.to_nat off) five ∧ (ok = true → concat done.*2 = five ∧ e' = mkIoError 0 0).
Proof. apply (file_write_all_spec (λ _ _ s, inr (Z.min 2 (Z.of_nat (length s)))) false five (mkIoError 0 0)). intros i off s. lia. Defined.
