(* ===== verification/TlsM.v ===== *)
(** * TlsM: sessions of TLS over a socket

    [src/src/tls.cpp] and [src/include/coro/tls.hpp].  OpenSSL is an arbitrary [Engine]: what a call
    answers, what it takes of the bytes that came in and what it wants to send.  The two memory BIOs
    are strings.  A session is driven by steps: an operation begins, it calls the engine, the socket
    takes or gives bytes, or its frame is destroyed, by a cancellation for instance; between two awaits
    everything runs at once, except that each call of the engine is a step of its own. *)

From Stdlib Require Import Ascii.
From S2P Require Import Prelude.
From stdpp Require Import options.

Local Open Scope Z_scope.

(** ** The protocols offered *)

(** [set_alpn]: whether a list is accepted. *)
Fixpoint alpn_fits (size : Z) (protocols : list str) : bool :=
  match protocols with
  | [] => true
  | p :: ps =>
      let n := Z.of_nat (length p) in
      if (n =? 0) || (255 <? n) then false
      else if 65535 <? size + (n + 1) then false else alpn_fits (size + (n + 1)) ps
  end.
Definition set_alpn (protocols : list str) : option (list str) := if alpn_fits 0 protocols then Some protocols else None.

(** What a client sends: each name behind its length. *)
Definition alpn_wire (protocols : list str) : str := concat (map (λ p, ascii_of_nat (length p) :: p) protocols).

Inductive alpn_choice : Type := AlpnNoAck | AlpnFatal | AlpnOk (offset size : nat).
#[export] Instance alpn_choice_eq_dec : EqDecision alpn_choice.
Proof. solve_decision. Defined.

(** The inner loop of [select_alpn]: the place of [protocol] in [inp] from [offset] on. *)
Fixpoint alpn_scan (fuel : nat) (inp : str) (protocol : str) (offset : nat) : option (option alpn_choice) :=
  match fuel with
  | O => None
  | S fuel =>
      match inp !! offset with
      | None => Some None
      | Some c =>
          let size := nat_of_ascii c in
          let offset := S offset in
          if ((size =? 0) || (length inp - offset <? size))%nat then Some (Some AlpnFatal)
          else if (size =? length protocol)%nat && bool_decide (take size (drop offset inp) = protocol) then Some (Some (AlpnOk offset size))
          else alpn_scan fuel inp protocol (offset + size)
      end
  end.
Fixpoint alpn_search (inp : str) (protocols : list str) : option alpn_choice :=
  match protocols with
  | [] => Some AlpnFatal
  | p :: ps => r ← alpn_scan (S (length inp)) inp p 0; match r with Some c => Some c | None => alpn_search inp ps end
  end.
Definition select_alpn (protocols : list str) (inp : str) : option alpn_choice :=
  match protocols with [] => Some AlpnNoAck | _ => alpn_search inp protocols end.

(** ** Whom the peer has to be *)

Inductive tls_role : Type := Client | Server.
#[export] Instance tls_role_eq_dec : EqDecision tls_role.
Proof. solve_decision. Defined.

(** What the certificate is compared with. *)
Inductive expected : Type := AnyName | ExpectIp (ip : str) | ExpectHost (host : str).
(** The constructor of [TlsStream]: what it asks OpenSSL to expect and the name it sends, [SNI]; it throws
    on a name it cannot use.  Which names are addresses is an argument. *)
Definition tls_names (is_ip : str → bool) (r : tls_role) (verification : bool) (hostname : str) : option (expected * option str) :=
  if bool_decide (zero ∈ hostname) || (bool_decide (r = Client) && verification && bool_decide (hostname = [])) then None
  else match r with
  | Server => Some (AnyName, None)
  | Client =>
      let host_is_ip := verification && is_ip hostname in
      let check := if verification then (if is_ip hostname then ExpectIp hostname else ExpectHost hostname) else AnyName in
      Some (check, if negb (bool_decide (hostname = [])) && negb host_is_ip then (if is_ip hostname then None else Some hostname) else None)
  end.

(** A client that verifies names always expects one, and never sends an address as a name. *)
Lemma client_is_checked is_ip verification hostname check sni :
  tls_names is_ip Client verification hostname = Some (check, sni) →
  zero ∉ hostname ∧ (verification = true → hostname ≠ [] ∧ check = if is_ip hostname then ExpectIp hostname else ExpectHost hostname) ∧
  (verification = false → check = AnyName) ∧ ∀ name, sni = Some name → name = hostname ∧ name ≠ [] ∧ is_ip name = false.
Proof.
  unfold tls_names. case_bool_decide as Hz; [done|]. cbn [orb]. rewrite (bool_decide_true (Client = Client)) by done. cbn [andb].
  case_bool_decide as Hn; destruct verification, (is_ip hostname) eqn:Hi; cbn; intros [= <- <-] || intros Hx; try done; naive_solver.
Qed.

(** ** Sessions *)

(** What [SSL_get_error] tells apart here. *)
Inductive reason : Type := SSL_NONE | SSL_WANT_READ | SSL_WANT_WRITE | SSL_ZERO_RETURN | SSL_OTHER.
#[export] Instance reason_eq_dec : EqDecision reason.
Proof. solve_decision. Defined.

(** A call of OpenSSL: what it returns and what [SSL_get_error] says of it, the bytes it decrypted, its
    new state, how many bytes it took of those that came in, and what it wants to send. *)
Record answer (E : Type) : Type := mkAnswer { an_rc : Z; an_reason : reason; an_bytes : str; an_engine : E; an_taken : nat; an_out : str }.
Arguments mkAnswer {E} _ _ _ _ _ _.
Arguments an_rc {E} _.
Arguments an_reason {E} _.
Arguments an_bytes {E} _.
Arguments an_engine {E} _.
Arguments an_taken {E} _.
Arguments an_out {E} _.
Class Engine (E : Type) : Type := {
  ssl_do_handshake : E → str → answer E;
  ssl_read : Z → E → str → answer E;
  ssl_write : str → E → str → answer E;
  ssl_shutdown : E → str → answer E;
  ssl_verify_ok : E → bool;
  ssl_has_peer_certificate : E → bool;
}.

(** [TlsStream::impl], with what the stream notes of errors. *)
Record tls (E : Type) : Type := mkTls {
  t_engine : E; t_rbio : str; t_wbio : str; t_role : tls_role;
  t_handshake_done : bool; t_broken : bool; t_closing : bool; t_closed : bool; t_peer_closed : bool; t_busy : bool;
  t_last_error : option string;
}.
Arguments mkTls {E} _ _ _ _ _ _ _ _ _ _ _.
Arguments t_engine {E} _.
Arguments t_rbio {E} _.
Arguments t_wbio {E} _.
Arguments t_role {E} _.
Arguments t_handshake_done {E} _.
Arguments t_broken {E} _.
Arguments t_closing {E} _.
Arguments t_closed {E} _.
Arguments t_peer_closed {E} _.
Arguments t_busy {E} _.
Arguments t_last_error {E} _.

(** The operations with their arguments: the buffer of [read] or [write] may be null. *)
Inductive op : Type := OpHandshake | OpRead (null : bool) (size : Z) | OpWrite (null : bool) (data : str) | OpShutdown.
(** What they answer: [false] or -1, [true], or a count, with the bytes that were read. *)
Inductive outcome : Type := Failed | Yes | Count (n : Z) (bytes : str).
#[export] Instance op_eq_dec : EqDecision op.
Proof. solve_decision. Defined.
#[export] Instance outcome_eq_dec : EqDecision outcome.
Proof. solve_decision. Defined.

Definition INT_MAX : Z := 2147483647.
(** The size of the buffers of the tunnel. *)
Definition chunk : nat := 16384.

Section session.
Context {E : Type} `{!Engine E}.
Implicit Types t : tls E.

Definition tls_flags (done broken closing closed peer_closed busy : bool) t : tls E :=
  mkTls (t_engine t) (t_rbio t) (t_wbio t) (t_role t) done broken closing closed peer_closed busy (t_last_error t).
Definition tls_tunnel (e : E) (rbio wbio : str) t : tls E :=
  mkTls e rbio wbio (t_role t) (t_handshake_done t) (t_broken t) (t_closing t) (t_closed t) (t_peer_closed t) (t_busy t) (t_last_error t).
Definition tls_last (e : option string) t : tls E :=
  mkTls (t_engine t) (t_rbio t) (t_wbio t) (t_role t) (t_handshake_done t) (t_broken t) (t_closing t) (t_closed t) (t_peer_closed t) (t_busy t) e.

(** [TlsStream::set_error]: the session is broken. *)
Definition tls_set_error (where_ : string) t : tls E :=
  tls_last (Some where_) (tls_flags (t_handshake_done t) true (t_closing t) (t_closed t) (t_peer_closed t) (t_busy t) t).
(** [operation], its constructor and its destructor. *)
Definition op_enter t : option (tls E) :=
  if t_busy t then None else Some (tls_flags (t_handshake_done t) (t_broken t) (t_closing t) (t_closed t) (t_peer_closed t) true t).
Definition op_leave (finished : bool) t : tls E :=
  tls_flags (t_handshake_done t) (t_broken t || negb finished) (t_closing t) (t_closed t) (t_peer_closed t) false t.

Definition reusable (valid : bool) t : bool :=
  valid && t_handshake_done t && negb (t_broken t) && negb (t_closing t) && negb (t_closed t) && negb (t_peer_closed t) && negb (t_busy t).
Definition peer_verified t : bool :=
  if negb (t_handshake_done t) || t_broken t || negb (bool_decide (t_role t = Client)) then false
  else ssl_has_peer_certificate (t_engine t) && ssl_verify_ok (t_engine t).

(** The beginning of an operation, up to its loop: it answers, throws, or goes on. *)
Inductive started : Type := Threw | Answered (o : outcome) | Goes.
Definition refused (where_ : string) t : tls E * started := (tls_set_error where_ t, Answered Failed).
Definition finish (o : outcome) t : tls E * started := (op_leave true t, Answered o).
Definition fail (where_ : string) t : tls E * started := (op_leave false (tls_set_error where_ t), Answered Failed).
Definition begin_handshake t : tls E * started :=
  if t_broken t || t_closing t then refused "handshake on an unusable TLS stream" t
  else match op_enter t with
  | None => (t, Threw)
  | Some t => if t_handshake_done t then finish Yes t else (t, Goes)
  end.
Definition begin_read (null : bool) (size : Z) t : tls E * started :=
  if negb (t_handshake_done t) || t_broken t || t_closing t then refused "read on an unusable TLS stream" t
  else match op_enter t with
  | None => (t, Threw)
  | Some t =>
      if (size =? 0) || t_peer_closed t then finish (Count 0 []) t
      else if null then fail "null TLS read buffer" t else (t, Goes)
  end.
Definition begin_write (null : bool) (data : str) t : tls E * started :=
  if negb (t_handshake_done t) || t_broken t || t_closing t || t_peer_closed t then refused "write on an unusable TLS stream" t
  else match op_enter t with
  | None => (t, Threw)
  | Some t =>
      if (Z.of_nat (length data) =? 0) then finish (Count 0 []) t
      else if null then fail "null TLS write buffer" t else (t, Goes)
  end.
Definition begin_shutdown t : tls E * started :=
  if t_broken t || negb (t_handshake_done t) then refused "shutdown on an unusable TLS stream" t
  else match op_enter t with
  | None => (t, Threw)
  | Some t =>
      let t := tls_flags (t_handshake_done t) (t_broken t) true (t_closed t) (t_peer_closed t) (t_busy t) t in
      if t_closed t then finish Yes t else (t, Goes)
  end.
Definition begin (o : op) t : tls E * started :=
  match o with
  | OpHandshake => begin_handshake t
  | OpRead null size => begin_read null size t
  | OpWrite null data => begin_write null data t
  | OpShutdown => begin_shutdown t
  end.

(** The call of OpenSSL, and the reason the code looks at. *)
Definition call (o : op) (t : tls E) : answer E :=
  match o with
  | OpHandshake => ssl_do_handshake (t_engine t) (t_rbio t)
  | OpRead _ size => ssl_read (Z.min size INT_MAX) (t_engine t) (t_rbio t)
  | OpWrite _ data => ssl_write (take (Z.to_nat (Z.min (Z.of_nat (length data)) INT_MAX)) data) (t_engine t) (t_rbio t)
  | OpShutdown => ssl_shutdown (t_engine t) (t_rbio t)
  end.
Definition reason_of (o : op) (a : answer E) : reason :=
  match o with
  | OpHandshake => if an_rc a =? 1 then SSL_NONE else an_reason a
  | OpRead _ _ | OpWrite _ _ => if 0 <? an_rc a then SSL_NONE else an_reason a
  | OpShutdown => if an_rc a <? 0 then an_reason a else SSL_NONE
  end.
Definition goes_on (r : reason) : bool := match r with SSL_NONE | SSL_WANT_READ | SSL_WANT_WRITE => true | _ => false end.
Definition failed_text (o : op) : string :=
  match o with
  | OpHandshake => "TLS handshake failed" | OpRead _ _ => "TLS read failed" | OpWrite _ _ => "TLS write failed" | OpShutdown => "TLS shutdown failed"
  end.
Definition eof_text (o : op) : string :=
  match o with
  | OpHandshake => "peer closed during TLS handshake" | OpRead _ _ => "peer closed without close_notify"
  | OpWrite _ _ => "peer closed during TLS write" | OpShutdown => "peer closed without completing close_notify"
  end.

(** Where an operation is: it calls OpenSSL, the socket takes what is left of a piece of its output, or
    it waits for bytes.  What the call answered is a local of the loop. *)
Inductive phase : Type := PCall | PSend (rest : str) (rc : Z) (r : reason) (bytes : str) | PPull.
Inductive next : Type := NAnswer (o : outcome) | NPhase (p : phase).
Definition answers (p : tls E * started) : tls E * next := match p.2 with Answered o => (p.1, NAnswer o) | _ => (p.1, NAnswer Failed) end.

(** The rest of a round when everything was sent. *)
Definition again (r : reason) t : tls E * next := (t, NPhase (if decide (r = SSL_WANT_READ) then PPull else PCall)).
Definition landed_handshake (rc : Z) (r : reason) t : tls E * next :=
  if rc =? 1 then
    if bool_decide (t_role t = Client) && negb (ssl_verify_ok (t_engine t)) then answers (fail "peer certificate verification failed" t)
    else answers (finish Yes (tls_last None (tls_flags true (t_broken t) (t_closing t) (t_closed t) (t_peer_closed t) (t_busy t) t)))
  else again r t.
Definition landed_read (rc : Z) (r : reason) (bytes : str) t : tls E * next := if 0 <? rc then answers (finish (Count rc bytes) t) else again r t.
Definition landed_write (rc : Z) (r : reason) t : tls E * next := if 0 <? rc then answers (finish (Count rc []) t) else again r t.
Definition landed_shutdown (rc : Z) (r : reason) t : tls E * next :=
  if rc =? 1 then answers (finish Yes (tls_flags (t_handshake_done t) (t_broken t) (t_closing t) true true (t_busy t) t)) else again r t.
Definition landed (o : op) (rc : Z) (r : reason) (bytes : str) t : tls E * next :=
  match o with
  | OpHandshake => landed_handshake rc r t
  | OpRead _ _ => landed_read rc r bytes t
  | OpWrite _ _ => landed_write rc r t
  | OpShutdown => landed_shutdown rc r t
  end.
(** [flush_to_socket], from its test: it takes a piece of what is to be sent, or is done. *)
Definition flush (o : op) (rc : Z) (r : reason) (bytes : str) t : tls E * next :=
  match t_wbio t with
  | [] => landed o rc r bytes t
  | w => (tls_tunnel (t_engine t) (t_rbio t) (drop chunk w) t, NPhase (PSend (take chunk w) rc r bytes))
  end.
(** A round, from the call to the first await. *)
Definition round (o : op) t : tls E * next :=
  let a := call o t in
  let r := reason_of o a in
  let t := tls_tunnel (an_engine a) (drop (an_taken a) (t_rbio t)) (t_wbio t ++ an_out a) t in
  match o, r with
  | OpRead _ _, SSL_ZERO_RETURN =>
      answers (finish (Count 0 []) (tls_flags (t_handshake_done t) (t_broken t) (t_closing t) (t_closed t) true (t_busy t) t))
  | _, _ => if goes_on r then flush o (an_rc a) r (an_bytes a) t else answers (fail (failed_text o) t)
  end.
(** The socket took [n] bytes, or answers an error. *)
Definition sent (o : op) (rest : str) (rc : Z) (r : reason) (bytes : str) (n : Z) t : tls E * next :=
  if n <=? 0 then answers (fail "socket write failed" t)
  else match drop (Z.to_nat n) rest with
  | [] => flush o rc r bytes t
  | rest => (t, NPhase (PSend rest rc r bytes))
  end.
(** [pull_from_socket]: the socket gave bytes, or an error; no bytes are the end. *)
Definition pulled (o : op) (got : option str) t : tls E * next :=
  match got with
  | None => answers (fail (eof_text o) (tls_set_error "socket read failed" t))
  | Some [] => answers (fail (eof_text o) t)
  | Some s => (tls_tunnel (t_engine t) (t_rbio t ++ s) (t_wbio t) t, NPhase PCall)
  end.

(** ** Histories *)

(** What came of the operations; an answer with the state of the engine it came from. *)
Inductive entry : Type := EAnswer (o : op) (out : outcome) (e : E) | EThrew (o : op) | EDropped (o : op).

(** The session, the operation under way, what the socket took and what it gave, what the engine wanted
    to send and what it took, whether it reported the peer's [close_notify], and what operations came
    to. *)
Record sys : Type := mkSys {
  y_tls : tls E; y_cur : option (op * phase); y_sent : str; y_emitted : str; y_got : str; y_eaten : str; y_notified : bool; y_log : list entry;
}.
Inductive event : Type := EvBegin (o : op) | EvCall | EvSent (n : Z) | EvGot (got : option str) | EvDestroy (n : nat).

Definition settle (o : op) (p : tls E * next) (y : sys) : sys :=
  match p.2 with
  | NAnswer out => mkSys p.1 None (y_sent y) (y_emitted y) (y_got y) (y_eaten y) (y_notified y) (y_log y ++ [EAnswer o out (t_engine p.1)])
  | NPhase ph => mkSys p.1 (Some (o, ph)) (y_sent y) (y_emitted y) (y_got y) (y_eaten y) (y_notified y) (y_log y)
  end.

(** The steps; [None] where an event cannot happen. *)
Definition step (ev : event) (y : sys) : option sys :=
  match ev, y_cur y with
  | EvBegin o, cur =>
      let '(t, st) := begin o (y_tls y) in
      let log e := mkSys t cur (y_sent y) (y_emitted y) (y_got y) (y_eaten y) (y_notified y) (y_log y ++ e) in
      Some (match st with
      | Threw => log [EThrew o]
      | Answered out => log [EAnswer o out (t_engine t)]
      | Goes => mkSys t (Some (o, PCall)) (y_sent y) (y_emitted y) (y_got y) (y_eaten y) (y_notified y) (y_log y)
      end)
  | EvCall, Some (o, PCall) =>
      let a := call o (y_tls y) in
      let note := match o with OpRead _ _ => bool_decide (reason_of o a = SSL_ZERO_RETURN) | _ => false end in
      Some (settle o (round o (y_tls y))
        (mkSys (y_tls y) (y_cur y) (y_sent y) (y_emitted y ++ an_out a) (y_got y) (y_eaten y ++ take (an_taken a) (t_rbio (y_tls y))) (y_notified y || note) (y_log y)))
  | EvSent n, Some (o, PSend rest rc r bytes) =>
      if Z.of_nat (length rest) <? n then None
      else Some (settle o (sent o rest rc r bytes n (y_tls y))
        (mkSys (y_tls y) (y_cur y) (y_sent y ++ take (Z.to_nat n) rest) (y_emitted y) (y_got y) (y_eaten y) (y_notified y) (y_log y)))
  | EvGot got, Some (o, PPull) =>
      Some (settle o (pulled o got (y_tls y))
        (mkSys (y_tls y) (y_cur y) (y_sent y) (y_emitted y) (y_got y ++ default [] got) (y_eaten y) (y_notified y) (y_log y)))
  | EvDestroy n, Some (o, ph) =>
      match ph with
      | PCall => None
      | _ =>
          let taken := match ph with PSend rest _ _ _ => take n rest | _ => [] end in
          Some (mkSys (op_leave false (y_tls y)) None (y_sent y ++ taken) (y_emitted y) (y_got y) (y_eaten y) (y_notified y) (y_log y ++ [EDropped o]))
      end
  | _, _ => None
  end.
Fixpoint run (evs : list event) (y : sys) : option sys := match evs with [] => Some y | ev :: evs => y ← step ev y; run evs y end.

(** A new stream. *)
Definition new_tls (r : tls_role) (e : E) : tls E := mkTls e [] [] r false false false false false false None.
Definition start (r : tls_role) (e : E) : sys := mkSys (new_tls r e) None [] [] [] [] false [].

(** ** What holds in every history *)

Definition rest_of (cur : option (op * phase)) : str := match cur with Some (_, PSend rest _ _ _) => rest | _ => [] end.
(** Between pieces, what the engine wanted to send has gone. *)
Definition flushed (cur : option (op * phase)) (t : tls E) : Prop :=
  match cur with Some (_, PSend _ _ _ _) => True | _ => t_wbio t = [] ∨ t_broken t = true ∨ t_peer_closed t = true end.

Definition fine (e : entry) : Prop := match e with EAnswer _ Failed _ | EDropped _ => False | _ => True end.
Definition not_shutdown (e : entry) : Prop := match e with EAnswer OpShutdown _ _ => False | _ => True end.
Definition eof_fine (notified : bool) (e : entry) : Prop :=
  match e with EAnswer (OpRead _ size) (Count n _) _ => n = 0 → size = 0 ∨ notified = true | _ => True end.
Definition verified (r : tls_role) (log : list entry) : Prop :=
  ∃ e, EAnswer OpHandshake Yes e ∈ log ∧ (r = Client → ssl_verify_ok e = true).

Record log_ok (t : tls E) (notified : bool) (log : list entry) : Prop := {
  lo_done : t_handshake_done t = true → verified (t_role t) log;
  lo_fine : t_broken t = false → Forall fine log;
  lo_open : t_broken t = false → t_closing t = false → Forall not_shutdown log;
  lo_eof : Forall (eof_fine notified) log;
}.
Record tls_ok (y : sys) : Prop := {
  ok_busy : t_busy (y_tls y) = bool_decide (is_Some (y_cur y));
  ok_in : y_got y = y_eaten y ++ t_rbio (y_tls y);
  ok_out : ∃ lost, y_emitted y = y_sent y ++ lost ++ rest_of (y_cur y) ++ t_wbio (y_tls y) ∧ (lost ≠ [] → t_broken (y_tls y) = true ∧ y_cur y = None);
  ok_flushed : flushed (y_cur y) (y_tls y);
  ok_peer : t_peer_closed (y_tls y) = true → t_closing (y_tls y) = false → y_notified y = true;
  ok_shut : ∀ ph, y_cur y = Some (OpShutdown, ph) → t_closing (y_tls y) = true;
  ok_log : log_ok (y_tls y) (y_notified y) (y_log y);
}.
(** The same in the middle of a step of [o], with [t] its session and [rest] what the socket still is
    to take. *)
Record mid (o : op) (t : tls E) (rest : str) (y : sys) : Prop := {
  md_busy : t_busy t = true;
  md_in : y_got y = y_eaten y ++ t_rbio t;
  md_out : y_emitted y = y_sent y ++ rest ++ t_wbio t;
  md_peer : t_peer_closed t = true → t_closing t = false → y_notified y = true;
  md_shut : o = OpShutdown → t_closing t = true;
}.

Lemma verified_snoc r log e : verified r log → verified r (log ++ [e]).
Proof. intros (e' & He & Hv). exists e'. split; [|done]. apply elem_of_app. by left. Qed.
Lemma log_snoc t t' n log e :
  log_ok t n log → t_role t' = t_role t → (t_handshake_done t' = true → t_handshake_done t = true) →
  (t_broken t' = false → t_broken t = false ∧ fine e) → (t_broken t' = false → t_closing t' = false → t_closing t = false ∧ not_shutdown e) →
  eof_fine n e → log_ok t' n (log ++ [e]).
Proof.
  intros [Hd Hf Ho He] Hr Hdone Hb Hc Hee. split.
  - intros H. rewrite Hr. by apply verified_snoc, Hd, Hdone.
  - intros H. destruct (Hb H). apply Forall_app. split; [by apply Hf|by apply Forall_singleton].
  - intros H1 H2. destruct (Hb H1), (Hc H1 H2). apply Forall_app. split; [by apply Ho|by apply Forall_singleton].
  - apply Forall_app. split; [done|by apply Forall_singleton].
Qed.
Lemma log_weaken t t' n n' log :
  log_ok t n log → t_role t' = t_role t → (t_handshake_done t' = true → t_handshake_done t = true) → (t_broken t' = false → t_broken t = false) →
  (t_closing t' = false → t_closing t = false) → (n = true → n' = true) → log_ok t' n' log.
Proof.
  intros [Hd Hf Ho He] Hr Hdone Hb Hc Hn. split; [rewrite Hr; auto|auto|auto|].
  eapply Forall_impl; [done|]. intros [[] [] |? |?]; cbn; naive_solver.
Qed.

(** How a step of an operation ends. *)
Lemma settle_fail o t rest y w : mid o t rest y → log_ok t (y_notified y) (y_log y) → tls_ok (settle o (answers (fail w t)) y).
Proof.
  intros [Hb Hi Ho Hp Hs] Hl. unfold settle, answers, fail. cbn. split; cbn; try done.
  - by exists rest.
  - right. left. done.
  - eapply log_snoc; [exact Hl|done|done|done|done|]. by destruct o.
Qed.
Lemma settle_finish o t out y :
  mid o t [] y → t_wbio t = [] ∨ t_peer_closed t = true → log_ok (op_leave true t) (y_notified y) (y_log y ++ [EAnswer o out (t_engine t)]) →
  tls_ok (settle o (answers (finish out t)) y).
Proof.
  intros [Hb Hi Ho Hp Hs] Hw Hl. unfold settle, answers, finish. cbn. split; cbn; try done.
  - exists []. done.
  - naive_solver.
Qed.
Lemma settle_phase o t ph y :
  mid o t (rest_of (Some (o, ph))) y → flushed (Some (o, ph)) t → log_ok t (y_notified y) (y_log y) → tls_ok (settle o (t, NPhase ph) y).
Proof.
  intros [Hb Hi Ho Hp Hs] Hw Hl. unfold settle. cbn. split; cbn -[rest_of flushed]; try done.
  - by exists [].
  - intros ph' [= -> ->]. by apply Hs.
Qed.

Lemma landed_ok o rc r bytes t y :
  mid o t [] y → t_wbio t = [] → log_ok t (y_notified y) (y_log y) → tls_ok (settle o (landed o rc r bytes t) y).
Proof.
  intros Hm Hw Hl. unfold landed, landed_handshake, landed_read, landed_write, landed_shutdown.
  assert (tls_ok (settle o (again r t) y)) as Hagain.
  { apply settle_phase; [by destruct (decide _)|destruct (decide _); by left|done]. }
  destruct o as [|null size|null data|].
  - destruct (rc =? 1); [|done]. destruct (bool_decide _ && negb _) eqn:Hv; [by eapply settle_fail|].
    apply settle_finish; [destruct Hm; by split|by left|]. destruct Hl as [Hd Hf Ho He]. split; cbn.
    + intros _. eexists. split; [apply elem_of_app; right; by apply list_elem_of_singleton|]. intros Hc. cbn. rewrite bool_decide_true in Hv by done.
      by destruct (ssl_verify_ok _).
    + rewrite orb_false_r. intros H. apply Forall_app. split; [by apply Hf|by apply Forall_singleton].
    + rewrite orb_false_r. intros H1 H2. apply Forall_app. split; [by apply Ho|by apply Forall_singleton].
    + apply Forall_app. split; [done|by apply Forall_singleton].
  - destruct (Z.ltb_spec 0 rc); [|done]. apply settle_finish; [done|by left|]. eapply log_snoc; [exact Hl|done|done|..]; cbn; rewrite ?orb_false_r; auto. lia.
  - destruct (Z.ltb_spec 0 rc); [|done]. apply settle_finish; [done|by left|]. eapply log_snoc; [exact Hl|done|done|..]; cbn; rewrite ?orb_false_r; auto.
  - destruct (rc =? 1); [|done]. pose proof (md_shut _ _ _ _ Hm eq_refl) as Hc. apply settle_finish; [destruct Hm; split; cbn; try done; intros; congruence|by left|].
    eapply log_snoc; [exact Hl|done|done|..]; cbn; rewrite ?orb_false_r; try congruence; auto.
Qed.
Lemma flush_ok o rc r bytes t y :
  mid o t [] y → log_ok t (y_notified y) (y_log y) → tls_ok (settle o (flush o rc r bytes t) y).
Proof.
  intros Hm Hl. unfold flush. destruct (t_wbio t) as [|c w] eqn:Hw; [by apply landed_ok|]. rewrite <- Hw.
  apply settle_phase; [|done|eapply log_weaken; [exact Hl|done..]]. destruct Hm as [Hb Hi Ho Hp Hs]. split; try done. cbn -[take drop].
  by rewrite take_drop.
Qed.

(** The steps. *)
Lemma round_ok o y : tls_ok y → y_cur y = Some (o, PCall) → ∀ y', step EvCall y = Some y' → tls_ok y'.
Proof.
  intros [Hb Hi (lost & Ho & Hlost) Hw Hp Hs Hl] Hc y'. unfold step. rewrite Hc. intros [= <-]. rewrite Hc in *.
  assert (lost = []) as -> by (destruct lost; [done|by destruct (Hlost ltac:(done))]). cbn in Ho.
  unfold round. set (a := call o (y_tls y)). set (t := tls_tunnel _ _ _ _). set (note := match o with OpRead _ _ => _ | _ => false end).
  set (y1 := mkSys _ _ _ _ _ _ _ _).
  assert (mid o t [] y1) as Hm.
  { split; cbn; [by rewrite Hb|by rewrite Hi, <- app_assoc, take_drop|by rewrite Ho, <- app_assoc| |by intros ->; eapply Hs].
    intros H1 H2. apply orb_true_iff. left. auto. }
  assert (log_ok t (y_notified y1) (y_log y1)) as Hl1.
  { eapply log_weaken; [exact Hl|done..|]. cbn. intros ->. done. }
  assert (tls_ok (settle o (if goes_on (reason_of o a) then flush o (an_rc a) (reason_of o a) (an_bytes a) t else answers (fail (failed_text o) t)) y1)) as Hrest.
  { destruct (goes_on _); [by apply flush_ok|by eapply settle_fail]. }
  destruct o as [|null size|null data|]; [exact Hrest| |exact Hrest|exact Hrest].
  destruct (reason_of (OpRead null size) a) eqn:Hr; try exact Hrest.
  assert (y_notified y1 = true) as Hn by (unfold y1, note; cbn [y_notified]; by rewrite ?Hr, bool_decide_true, orb_true_r).
  apply settle_finish; [destruct Hm; by split|by right|]. eapply log_snoc; [exact Hl1|done|done|..]; cbn; rewrite ?orb_false_r; auto.
Qed.

Lemma sent_ok n y y' : tls_ok y → step (EvSent n) y = Some y' → tls_ok y'.
Proof.
  intros [Hb Hi (lost & Ho & Hlost) Hw Hp Hs Hl]. unfold step. destruct (y_cur y) as [[o [|rest rc r bytes|]]|] eqn:Hc; try done.
  destruct (Z.ltb_spec (Z.of_nat (length rest)) n) as [|Hn]; [done|]. intros [= <-].
  assert (lost = []) as -> by (destruct lost; [done|by destruct (Hlost ltac:(done))]). cbn in Ho.
  set (y1 := mkSys _ _ _ _ _ _ _ _).
  assert (mid o (y_tls y) (drop (Z.to_nat n) rest) y1) as Hm.
  { split; cbn; [by rewrite Hb|done| |done|by intros ->; eapply Hs]. rewrite Ho, <- !app_assoc. f_equal. by rewrite app_assoc, take_drop. }
  unfold sent. destruct (Z.leb_spec n 0); [by eapply settle_fail|]. destruct (drop (Z.to_nat n) rest) as [|c rest'] eqn:Hd; [by apply flush_ok|].
  by apply settle_phase.
Qed.

Lemma pulled_ok got y y' : tls_ok y → step (EvGot got) y = Some y' → tls_ok y'.
Proof.
  intros [Hb Hi (lost & Ho & Hlost) Hw Hp Hs Hl]. unfold step. destruct (y_cur y) as [[o [|rest rc r bytes|]]|] eqn:Hc; try done. intros [= <-].
  assert (lost = []) as -> by (destruct lost; [done|by destruct (Hlost ltac:(done))]). cbn in Ho, Hw.
  set (y1 := mkSys _ _ _ _ _ _ _ _).
  assert (∀ t, t_busy t = t_busy (y_tls y) → y_got y1 = y_eaten y ++ t_rbio t → t_wbio t = t_wbio (y_tls y) → t_peer_closed t = t_peer_closed (y_tls y) →
    t_closing t = t_closing (y_tls y) → mid o t [] y1) as Hm.
  { intros t H1 H2 H3 H4 H5. split; cbn; [by rewrite H1, Hb|done|by rewrite H3|by rewrite H4, H5|intros ->; rewrite H5; by eapply Hs]. }
  unfold pulled. destruct got as [[|c s]|].
  - eapply settle_fail; [apply Hm; [done| |done..]; cbn; by rewrite app_nil_r|done].
  - apply settle_phase; [apply Hm; [done| |done..]; cbn; by rewrite Hi, <- app_assoc|done|eapply log_weaken; [exact Hl|done..]].
  - eapply settle_fail; [apply Hm; [done| |done..]; cbn; by rewrite app_nil_r|eapply log_weaken; [exact Hl|done..]].
Qed.

Lemma tls_destroy_ok n y y' : tls_ok y → step (EvDestroy n) y = Some y' → tls_ok y'.
Proof.
  intros [Hb Hi (lost & Ho & Hlost) Hw Hp Hs Hl]. unfold step. destruct (y_cur y) as [[o ph]|] eqn:Hc; [|done].
  assert (lost = []) as -> by (destruct lost; [done|by destruct (Hlost ltac:(done))]). cbn in Ho.
  assert (∀ taken left, rest_of (Some (o, ph)) = taken ++ left → tls_ok (mkSys (op_leave false (y_tls y)) None (y_sent y ++ taken) (y_emitted y) (y_got y) (y_eaten y) (y_notified y) (y_log y ++ [EDropped o]))) as H.
  { intros taken left Hr. split; cbn; rewrite ?orb_true_r; try done.
    - exists left. split; [|done]. cbn in Hr. by rewrite Ho, Hr, <- !app_assoc.
    - right. by left.
    - eapply log_snoc; [exact Hl|done|done|..]; cbn; rewrite ?orb_true_r; done. }
  destruct ph as [|rest rc r bytes|]; [done|intros [= <-]; eapply H; cbn; by rewrite take_drop|intros [= <-]; by apply (H [] [])].
Qed.

(** A session between operations whose flags change, and what is noted. *)
Lemma quiet_ok y cur closing broken last e :
  tls_ok y → y_cur y = None → t_broken (y_tls y) = false → (cur = None ∨ ∃ o, cur = Some (o, PCall) ∧ (o = OpShutdown → closing = true)) →
  (t_closing (y_tls y) = true → closing = true) → (broken = false → Forall fine e) → (broken = false → closing = false → Forall not_shutdown e) →
  Forall (eof_fine (y_notified y)) e →
  tls_ok (mkSys (tls_last last (tls_flags (t_handshake_done (y_tls y)) broken closing (t_closed (y_tls y)) (t_peer_closed (y_tls y)) (bool_decide (is_Some cur)) (y_tls y))) cur
    (y_sent y) (y_emitted y) (y_got y) (y_eaten y) (y_notified y) (y_log y ++ e)).
Proof.
  intros [Hb Hi (lost & Ho & Hlost) Hw Hp Hs [Hd Hf Hn He]] Hc Hbr Hcur Hcl Hfe Hne Hee. rewrite Hc in *.
  assert (lost = []) as -> by (destruct lost; [done|by destruct (Hlost ltac:(done)); congruence]).
  assert (closing = false → t_closing (y_tls y) = false) as Hcl' by (intros ->; destruct (t_closing (y_tls y)); [by discriminate Hcl|done]).
  split; cbn -[rest_of flushed]; try done.
  - exists []. split; [|done]. destruct Hcur as [-> |(o & -> & _)]; exact Ho.
  - destruct Hw as [Hw|[Hw|Hw]]; [|congruence|]; destruct Hcur as [-> |(o & -> & _)]; cbn; auto.
  - auto.
  - intros ph ->. destruct Hcur as [|(o & [= <- _] & H)]; [done|by apply H].
  - split; cbn.
    + intros H. destruct (Hd H) as (e' & ? & ?). exists e'. split; [|done]. apply elem_of_app. by left.
    + intros H. apply Forall_app. split; [by apply Hf|by apply Hfe].
    + intros H1 H2. apply Forall_app. split; [by apply Hn; [|apply Hcl']|by apply Hne].
    + by apply Forall_app.
Qed.

Lemma noted_ok y t e :
  tls_ok y → (∃ w, t = tls_set_error w (y_tls y) ∧ ∃ o, e = EAnswer o Failed (t_engine t)) ∨ (t = y_tls y ∧ ∃ o, e = EThrew o) →
  tls_ok (mkSys t (y_cur y) (y_sent y) (y_emitted y) (y_got y) (y_eaten y) (y_notified y) (y_log y ++ [e])).
Proof.
  intros [Hb Hi (lost & Ho & Hlost) Hw Hp Hs Hl] [(w & -> & o & ->)|(-> & o & ->)].
  - split; cbn -[flushed]; try done.
    + exists lost. split; [done|]. intros H. by destruct (Hlost H).
    + unfold flushed. destruct (y_cur y) as [[? []]|]; cbn; auto.
    + eapply log_snoc; [exact Hl|done..|]. by destruct o.
  - split; cbn -[flushed]; try done; [by exists lost|]. eapply log_snoc; [exact Hl|done|done|done|done|done].
Qed.

Lemma answer_ok o y t out closing broken last e :
  tls_ok y → y_cur y = None → t_broken (y_tls y) = false → (t_closing (y_tls y) = true → closing = true) → (broken = false → out ≠ Failed) →
  (broken = false → closing = false → o ≠ OpShutdown) → eof_fine (y_notified y) (EAnswer o out e) →
  t = tls_last last (tls_flags (t_handshake_done (y_tls y)) broken closing (t_closed (y_tls y)) (t_peer_closed (y_tls y)) false (y_tls y)) →
  tls_ok (mkSys t (y_cur y) (y_sent y) (y_emitted y) (y_got y) (y_eaten y) (y_notified y) (y_log y ++ [EAnswer o out e])).
Proof.
  intros Hy Hc Hb Hcl Hf Hn He ->. rewrite Hc. apply (quiet_ok y None closing broken last); try done; [by left|..|by apply Forall_singleton].
  - intros H. apply Forall_singleton. specialize (Hf H). by destruct out.
  - intros H1 H2. apply Forall_singleton. specialize (Hn H1 H2). by destruct o.
Qed.
Lemma goes_ok o y t closing :
  tls_ok y → y_cur y = None → t_broken (y_tls y) = false → (t_closing (y_tls y) = true → closing = true) → (o = OpShutdown → closing = true) →
  t = tls_last (t_last_error (y_tls y)) (tls_flags (t_handshake_done (y_tls y)) false closing (t_closed (y_tls y)) (t_peer_closed (y_tls y)) true (y_tls y)) →
  tls_ok (mkSys t (Some (o, PCall)) (y_sent y) (y_emitted y) (y_got y) (y_eaten y) (y_notified y) (y_log y)).
Proof.
  intros Hy Hc Hb Hcl Hs ->. pose proof (quiet_ok y (Some (o, PCall)) closing false (t_last_error (y_tls y)) []) as H. rewrite app_nil_r in H. apply H; auto.
  right. eauto.
Qed.
Lemma not_busy y : tls_ok y → t_busy (y_tls y) = false → y_cur y = None.
Proof. intros Hy H. pose proof (ok_busy _ Hy) as Hb. rewrite H in Hb. by destruct (y_cur y). Qed.

(** [begin] on a session that is not broken and not busy, operation by operation. *)
Ltac flags_tac := unfold op_leave, tls_set_error, tls_last, tls_flags; cbn; repeat match goal with H : _ (y_tls _) = _ |- _ => rewrite H end; reflexivity.
Ltac begin_tac Hy Hb Hbusy :=
  match goal with
  | |- tls_ok (mkSys (op_leave false _) _ _ _ _ _ _ (_ ++ [EAnswer _ Failed _])) =>
      eapply (answer_ok _ _ _ Failed _ true); [exact Hy|by apply not_busy|exact Hb|..|flags_tac]; first [done|congruence]
  | |- tls_ok (mkSys (op_leave true _) _ _ _ _ _ _ (_ ++ [EAnswer _ ?out _])) =>
      eapply (answer_ok _ _ _ out _ false); [exact Hy|by apply not_busy|exact Hb|..|flags_tac]; try first [done|congruence]
  | |- tls_ok (mkSys _ (Some _) _ _ _ _ _ _) => eapply goes_ok; [exact Hy|by apply not_busy|exact Hb|..|flags_tac]; first [done|congruence]
  end.

Lemma begin_ok o y y' : tls_ok y → step (EvBegin o) y = Some y' → tls_ok y'.
Proof.
  intros Hy. unfold step.
  assert (∀ w, tls_ok (mkSys (tls_set_error w (y_tls y)) (y_cur y) (y_sent y) (y_emitted y) (y_got y) (y_eaten y) (y_notified y)
    (y_log y ++ [EAnswer o Failed (t_engine (y_tls y))]))) as Href by (intros w; apply noted_ok; [done|left; eauto]).
  assert (tls_ok (mkSys (y_tls y) (y_cur y) (y_sent y) (y_emitted y) (y_got y) (y_eaten y) (y_notified y) (y_log y ++ [EThrew o]))) as Hthrew
    by (apply noted_ok; [done|right; eauto]).
  unfold begin, begin_handshake, begin_read, begin_write, begin_shutdown, refused, op_enter, finish, fail.
  destruct (t_broken (y_tls y)) eqn:Hb; [rewrite ?orb_true_r; destruct o; cbn [orb]; intros [= <-]; apply Href|].
  destruct (t_busy (y_tls y)) eqn:Hbusy.
  { rewrite ?orb_false_r. destruct o; cbn [orb]; repeat (match goal with |- context [if ?b then (tls_set_error _ _, _) else _] => destruct b end);
      intros [= <-]; first [apply Href|apply Hthrew]. }
  rewrite ?orb_false_r. destruct o as [|null size|null data|]; cbn [orb].
  - destruct (t_closing _) eqn:Hcl; [intros [= <-]; apply Href|]. cbn [t_handshake_done tls_flags].
    destruct (t_handshake_done _) eqn:Hd; intros [= <-]; begin_tac Hy Hb Hbusy.
  - destruct (t_handshake_done _) eqn:Hd; [|intros [= <-]; apply Href]. destruct (t_closing _) eqn:Hcl; [intros [= <-]; apply Href|]. cbn [t_handshake_done tls_flags negb orb t_peer_closed].
    destruct (size =? 0) eqn:Hs; cbn [orb].
    { intros [= <-]. begin_tac Hy Hb Hbusy. cbn. lia. }
    destruct (t_peer_closed _) eqn:Hp.
    { intros [= <-]. begin_tac Hy Hb Hbusy. cbn. intros _. right. by apply (ok_peer _ Hy). }
    destruct null; intros [= <-]; begin_tac Hy Hb Hbusy.
  - destruct (t_handshake_done _) eqn:Hd; [|intros [= <-]; apply Href]. destruct (t_closing _) eqn:Hcl; [intros [= <-]; apply Href|].
    destruct (t_peer_closed _) eqn:Hp; [intros [= <-]; apply Href|]. cbn [negb orb].
    destruct (Z.of_nat (length data) =? 0); [|destruct null]; intros [= <-]; begin_tac Hy Hb Hbusy.
  - destruct (t_handshake_done _) eqn:Hd; [|intros [= <-]; apply Href]. cbn [negb t_closed tls_flags].
    destruct (t_closed _) eqn:Hcd; intros [= <-]; begin_tac Hy Hb Hbusy.
Qed.

Lemma step_ok ev y y' : tls_ok y → step ev y = Some y' → tls_ok y'.
Proof.
  intros Hy. destruct ev as [o| |n|got|n]; [by apply begin_ok| |by apply sent_ok|by apply pulled_ok|by apply tls_destroy_ok].
  intros Hs. pose proof Hs as H. unfold step in H. destruct (y_cur y) as [[o []]|] eqn:Hc; try done. by eapply round_ok.
Qed.
Lemma run_ok evs y y' : tls_ok y → run evs y = Some y' → tls_ok y'.
Proof.
  revert y. induction evs as [|ev evs IH]; intros y Hy; cbn; [by intros [= <-]|]. destruct (step ev y) as [y1|] eqn:Hs; [|done].
  cbn. apply IH. by eapply step_ok.
Qed.
Lemma tls_start_ok r e : tls_ok (start r e).
Proof. split; cbn; try done; first [by exists []|by left|by split]. Qed.
Lemma reached_ok r e evs y : run evs (start r e) = Some y → tls_ok y.
Proof. apply run_ok, tls_start_ok. Qed.

Lemma role_step ev y y' : step ev y = Some y' → t_role (y_tls y') = t_role (y_tls y).
Proof.
  assert (∀ o p y1, t_role (y_tls (settle o p y1)) = t_role p.1) as Hs by (intros o [t []] y1; done).
  assert (∀ p, (answers p).1 = p.1) as Ha by (intros [t []]; done).
  assert (∀ o rc r bytes t, t_role (landed o rc r bytes t).1 = t_role t) as Hla
    by (intros [] rc r bytes t; unfold landed, landed_handshake, landed_read, landed_write, landed_shutdown; repeat case_match; done).
  assert (∀ o rc r bytes t, t_role (flush o rc r bytes t).1 = t_role t) as Hfl by (intros; unfold flush; destruct (t_wbio t); [apply Hla|done]).
  unfold step. destruct ev as [o| |n|got|n].
  - destruct (begin o (y_tls y)) as [t st] eqn:Hbg. assert (t_role t = t_role (y_tls y)) as <-; [|by destruct st; intros [= <-]].
    unfold begin, begin_handshake, begin_read, begin_write, begin_shutdown, refused, op_enter, finish, fail in Hbg. repeat case_match; simplify_eq; done.
  - destruct (y_cur y) as [[o []]|]; try done. intros [= <-]. rewrite Hs. unfold round. repeat case_match; rewrite ?Ha; cbn; rewrite ?Hfl; done.
  - destruct (y_cur y) as [[o []]|]; try done. case_match; [done|]. intros [= <-]. rewrite Hs. unfold sent. repeat case_match; rewrite ?Ha; cbn; rewrite ?Hfl; done.
  - destruct (y_cur y) as [[o []]|]; try done. intros [= <-]. rewrite Hs. unfold pulled. repeat case_match; rewrite ?Ha; done.
  - destruct (y_cur y) as [[o []]|]; try done; by intros [= <-].
Qed.
Lemma role_kept r e evs y : run evs (start r e) = Some y → t_role (y_tls y) = r.
Proof.
  change r with (t_role (y_tls (start r e))) at 2. generalize (start r e). induction evs as [|ev evs IH]; intros y0; cbn; [by intros [= <-]|].
  destruct (step ev y0) as [y1|] eqn:Hs; [|done]. cbn. intros H. by rewrite (IH _ H), (role_step _ _ _ Hs).
Qed.

(** The tunnel: what the engine has of the socket's bytes is what came first, and the socket took what
    the engine wanted to send in order; nothing of it is lost as long as the session is not broken, and
    between operations all of it was taken. *)
Theorem tls_tunnel_intact r e evs y :
  run evs (start r e) = Some y →
  y_got y = y_eaten y ++ t_rbio (y_tls y) ∧ y_sent y `prefix_of` y_emitted y ∧
  (t_broken (y_tls y) = false → y_emitted y = y_sent y ++ rest_of (y_cur y) ++ t_wbio (y_tls y)) ∧
  (t_broken (y_tls y) = false → t_peer_closed (y_tls y) = false → y_cur y = None → y_sent y = y_emitted y).
Proof.
  intros [Hb Hi (lost & Ho & Hlost) Hw Hp Hs Hl]%reached_ok. split; [done|]. split; [by eexists|].
  assert (t_broken (y_tls y) = false → lost = []) as Hn by (intros H; destruct lost; [done|]; destruct (Hlost ltac:(done)); congruence).
  split; [intros ->%Hn; done|]. intros Hbr Hpc Hc. rewrite Ho, (Hn Hbr), Hc. rewrite Hc in Hw. cbn in *. destruct Hw as [-> |[]]; [|congruence..]. by rewrite app_nil_r.
Qed.

(** C37 A session that may go on being used: its handshake succeeded, of a client with the certificate
    verified; no operation on it failed or was dropped, it was not being closed, nothing is under way and
    nothing is left to send. *)
Theorem tls_reusable r e evs y valid :
  run evs (start r e) = Some y → reusable valid (y_tls y) = true →
  verified r (y_log y) ∧ Forall fine (y_log y) ∧ Forall not_shutdown (y_log y) ∧ y_cur y = None ∧ y_sent y = y_emitted y.
Proof.
  intros Hrun Hre. pose proof (reached_ok _ _ _ _ Hrun) as [Hb Hi (lost & Ho & Hlost) Hw Hp Hs [Hd Hf Hn He]].
  unfold reusable in Hre. rewrite !andb_true_iff, !negb_true_iff in Hre. destruct Hre as ((((((_ & Hdone) & Hbr) & Hcl) & _) & Hpc) & Hbusy).
  assert (y_cur y = None) as Hc by (rewrite Hbusy in Hb; by destruct (y_cur y)). rewrite Hc in *. cbn in *.
  assert (lost = []) as -> by (destruct lost; [done|]; destruct (Hlost ltac:(done)); congruence).
  split; [|split; [by apply Hf|split; [by apply Hn|split; [done|]]]].
  - rewrite <- (role_kept _ _ _ _ Hrun). by apply Hd.
  - rewrite Ho. destruct Hw as [-> |[]]; [|congruence..]. by rewrite app_nil_r.
Qed.

(** A read that was asked for bytes answers 0 only when the engine reported the [close_notify] of the
    peer: a connection that is cut never reads as the end of the stream. *)
Theorem tls_eof_is_notified r e evs y null size bytes e' :
  run evs (start r e) = Some y → EAnswer (OpRead null size) (Count 0 bytes) e' ∈ y_log y → size ≠ 0 → y_notified y = true.
Proof.
  intros Hrun%reached_ok Hin Hs. pose proof (lo_eof _ _ _ (ok_log _ Hrun)) as He. rewrite Forall_forall in He. destruct (He _ Hin eq_refl); done.
Qed.

(** While an operation is under way another one throws, or fails and breaks the session; it does not
    reach the engine or the socket. *)
Theorem tls_exclusive r e evs y o c y' :
  run evs (start r e) = Some y → y_cur y = Some c → step (EvBegin o) y = Some y' →
  y_cur y' = Some c ∧ t_engine (y_tls y') = t_engine (y_tls y) ∧ t_rbio (y_tls y') = t_rbio (y_tls y) ∧ t_wbio (y_tls y') = t_wbio (y_tls y) ∧
  (y_log y' = y_log y ++ [EThrew o] ∧ y_tls y' = y_tls y ∨ (∃ e', y_log y' = y_log y ++ [EAnswer o Failed e']) ∧ t_broken (y_tls y') = true).
Proof.
  intros Hrun%reached_ok Hc. pose proof (ok_busy _ Hrun) as Hb. rewrite Hc in Hb. cbn in Hb. unfold step. rewrite Hc. unfold begin, begin_handshake, begin_read, begin_write, begin_shutdown, refused, op_enter. rewrite Hb.
  destruct o; cbn [orb]; repeat (match goal with |- context [if ?b then (tls_set_error _ _, _) else _] => destruct b end);
    intros [= <-]; cbn; (do 4 (split; [done|])); [right|left|right|left|right|left|right|left]; (split; [by eauto|done]).
Qed.

(** What is broken stays broken: without an operation under way, every later one fails at once, and
    nothing more is sent or read. *)
Theorem tls_broken_final y evs y' :
  t_broken (y_tls y) = true → y_cur y = None → run evs y = Some y' →
  t_broken (y_tls y') = true ∧ y_cur y' = None ∧ y_sent y' = y_sent y ∧ y_got y' = y_got y ∧ t_engine (y_tls y') = t_engine (y_tls y) ∧
  ∃ l, y_log y' = y_log y ++ l ∧ Forall (λ e, ∃ o e', e = EAnswer o Failed e') l.
Proof.
  intros Hb Hc. revert y Hb Hc. induction evs as [|ev evs IH]; intros y Hb Hc; cbn.
  { intros [= <-]. do 5 (split; [done|]). exists []. by rewrite app_nil_r. }
  destruct (step ev y) as [y1|] eqn:Hs; [|done]. cbn. intros Hrun.
  assert (∃ o w, y1 = mkSys (tls_set_error w (y_tls y)) None (y_sent y) (y_emitted y) (y_got y) (y_eaten y) (y_notified y) (y_log y ++ [EAnswer o Failed (t_engine (y_tls y))])) as (o & w & ->).
  { unfold step in Hs. rewrite Hc in Hs. destruct ev as [o| | | |]; try done. unfold begin, begin_handshake, begin_read, begin_write, begin_shutdown, refused in Hs. rewrite Hb, ?orb_true_r in Hs.
    destruct o; cbn [orb] in Hs; injection Hs as <-; eauto. }
  apply IH in Hrun as (? & ? & ? & ? & ? & l & Hl & Hf); [|done|done]. do 5 (split; [done|]). eexists. cbn in Hl. rewrite Hl, <- app_assoc. split; [done|].
  apply Forall_cons. split; [by eauto|done].
Qed.
End session.

(** ** The choice of the protocol *)

Lemma alpn_scan_wire p pre qs fuel :
  Forall (λ q : str, 0 < length q < 256)%nat qs → (length (alpn_wire qs) < fuel)%nat →
  (p ∈ qs ∧ ∃ off, alpn_scan fuel (pre ++ alpn_wire qs) p (length pre) = Some (Some (AlpnOk off (length p))) ∧ take (length p) (drop off (pre ++ alpn_wire qs)) = p) ∨
  (p ∉ qs ∧ alpn_scan fuel (pre ++ alpn_wire qs) p (length pre) = Some None).
Proof.
  revert pre fuel. induction qs as [|q qs IH]; intros pre fuel Hq Hf; (destruct fuel as [|fuel]; [lia|]).
  { right. split; [apply not_elem_of_nil|]. cbn. rewrite app_nil_r. by rewrite lookup_ge_None_2. }
  apply Forall_cons in Hq as [Hlen Hq]. unfold alpn_wire in *. cbn [map concat] in *. set (w := concat (map _ qs)) in *.
  cbn [alpn_scan]. change ((ascii_of_nat (length q) :: q) ++ w) with (ascii_of_nat (length q) :: q ++ w).
  rewrite list_lookup_middle by done. rewrite Ascii.nat_ascii_embedding by lia.
  assert (drop (S (length pre)) (pre ++ ascii_of_nat (length q) :: q ++ w) = q ++ w) as Hd.
  { change (pre ++ ascii_of_nat (length q) :: q ++ w) with (pre ++ [ascii_of_nat (length q)] ++ (q ++ w)). rewrite app_assoc. apply drop_app_length'. rewrite length_app. cbn. lia. }
  rewrite Hd, take_app_length.
  rewrite (proj2 (Nat.eqb_neq (length q) 0)) by lia. cbn [orb].
  rewrite (proj2 (Nat.ltb_ge _ _)) by (rewrite length_app; cbn [length]; rewrite length_app; lia).
  destruct (decide (q = p)) as [->|Hne].
  { left. split; [apply elem_of_cons; by left|]. exists (S (length pre)). rewrite Nat.eqb_refl, bool_decide_true by done. split; [done|]. by rewrite Hd, take_app_length. }
  rewrite (bool_decide_false (q = p)) by done. rewrite andb_false_r.
  replace (S (length pre) + length q)%nat with (length (pre ++ ascii_of_nat (length q) :: q)) by (rewrite length_app; cbn; lia).
  change (ascii_of_nat (length q) :: q ++ w) with ((ascii_of_nat (length q) :: q) ++ w). rewrite (app_assoc pre). cbn [length] in Hf. rewrite length_app in Hf. cbn [length] in Hf.
  destruct (IH (pre ++ ascii_of_nat (length q) :: q) fuel Hq ltac:(lia)) as [(Hin & off & He & Ht)|(Hin & He)]; [left|right].
  - split; [apply elem_of_cons; by right|eauto].
  - split; [|done]. rewrite elem_of_cons. naive_solver.
Qed.

Lemma alpn_fits_lengths size qs : alpn_fits size qs = true → Forall (λ q : str, 0 < length q < 256)%nat qs.
Proof.
  revert size. induction qs as [|q qs IH]; intros size; cbn; [done|]. destruct (_ || _) eqn:Hn; [done|]. destruct (65535 <? _); [done|].
  intros H. apply Forall_cons. split; [|by eapply IH]. apply orb_false_iff in Hn as [H1 H2]. lia.
Qed.

(** C39 The server's choice from what a client with the list [qs] sends is the first of its own protocols
    that the client has, at its place in the list; without one the handshake is refused. *)
Theorem alpn_agrees ps qs :
  is_Some (set_alpn qs) → ps ≠ [] →
  match List.find (λ p, bool_decide (p ∈ qs)) ps with
  | Some p => ∃ off, select_alpn ps (alpn_wire qs) = Some (AlpnOk off (length p)) ∧ take (length p) (drop off (alpn_wire qs)) = p
  | None => select_alpn ps (alpn_wire qs) = Some AlpnFatal
  end.
Proof.
  intros [l Hs] Hps. unfold set_alpn in Hs. destruct (alpn_fits 0 qs) eqn:Hf; [|done]. apply alpn_fits_lengths in Hf.
  assert (select_alpn ps (alpn_wire qs) = alpn_search (alpn_wire qs) ps) as -> by (by destruct ps). clear Hps.
  induction ps as [|p ps IH]; [done|]. cbn [List.find alpn_search].
  destruct (alpn_scan_wire p [] qs (S (length (alpn_wire qs))) Hf ltac:(lia)) as [(Hin & off & He & Ht)|(Hin & He)]; cbn [app length] in He; rewrite He; cbn [mbind option_bind].
  - cbn [app] in Ht. rewrite bool_decide_true by done. eauto.
  - by rewrite bool_decide_false.
Qed.

Lemma alpn_scan_ends inp p fuel offset :
  (length inp - offset < fuel)%nat →
  ∃ r, alpn_scan fuel inp p offset = Some r ∧ ∀ off size, r = Some (AlpnOk off size) → (off + size ≤ length inp)%nat ∧ take size (drop off inp) = p.
Proof.
  revert offset. induction fuel as [|fuel IH]; intros offset Hf; [lia|]. cbn [alpn_scan].
  destruct (inp !! offset) as [c|] eqn:Hc; [|by eexists]. apply lookup_lt_Some in Hc.
  destruct (Nat.eqb_spec (nat_of_ascii c) 0); [by eexists|]. cbn [orb].
  destruct (Nat.ltb_spec (length inp - S offset) (nat_of_ascii c)); [by eexists|].
  destruct (Nat.eqb_spec (nat_of_ascii c) (length p)) as [Hl|]; cbn [andb]; [|apply IH; lia].
  destruct (decide (take (nat_of_ascii c) (drop (S offset) inp) = p)) as [He|]; [rewrite bool_decide_true by done|rewrite bool_decide_false by done; apply IH; lia].
  eexists. split; [done|]. intros off size [= <- <-]. split; [lia|done].
Qed.

(** Whatever bytes come in, the choice ends, and what it points at lies within them and is one of the
    server's protocols. *)
Theorem alpn_in_bounds ps inp :
  ∃ r, select_alpn ps inp = Some r ∧ ∀ off size, r = AlpnOk off size → (off + size ≤ length inp)%nat ∧ take size (drop off inp) ∈ ps.
Proof.
  assert (∃ r, alpn_search inp ps = Some r ∧ ∀ off size, r = AlpnOk off size → (off + size ≤ length inp)%nat ∧ take size (drop off inp) ∈ ps) as H.
  { induction ps as [|p ps (r' & IH & Hr')]; [by eexists|]. cbn [alpn_search].
    destruct (alpn_scan_ends inp p (S (length inp)) 0 ltac:(lia)) as (r & -> & Hr). cbn [mbind option_bind]. destruct r as [r|].
    - eexists. split; [done|]. intros off size ->. destruct (Hr off size eq_refl) as [? ->]. split; [done|]. apply elem_of_cons. by left.
    - rewrite IH. eexists. split; [done|]. intros off size Hos. destruct (Hr' off size Hos). split; [done|]. apply elem_of_cons. by right. }
  destruct ps; [by eexists|exact H].
Qed.

(** [set_alpn] keeps what a client sends within the 16 bits of its length. *)
Lemma alpn_fits_wire size qs : alpn_fits size qs = true → 0 ≤ size ≤ 65535 → size + Z.of_nat (length (alpn_wire qs)) ≤ 65535.
Proof.
  unfold alpn_wire. revert size. induction qs as [|q qs IH]; intros size; cbn; [lia|]. destruct (_ || _); [done|]. destruct (Z.ltb_spec 65535 (size + (Z.of_nat (length q) + 1))); [done|].
  intros Hf Hs. apply IH in Hf; [|lia]. rewrite length_app. lia.
Qed.

(** ** Examples and witnesses *)

(** An engine that needs one byte for the handshake, sends and takes text as it is, and ends with an
    exclamation mark. *)
Definition toy_tls : Type := nat.
#[export] Instance toy_tls_engine : Engine toy_tls := {
  ssl_do_handshake e inp := match inp with
    | [] => mkAnswer (-1) SSL_WANT_READ [] 1%nat 0 (if decide (e = 0)%nat then ["h"%char] else [])
    | _ => mkAnswer 1 SSL_NONE [] 2%nat 1 []
    end;
  ssl_read _ e inp := match inp with
    | [] => mkAnswer (-1) SSL_WANT_READ [] e 0 []
    | c :: _ => if decide (c = "!"%char) then mkAnswer 0 SSL_ZERO_RETURN [] e 0 [] else mkAnswer 1 SSL_NONE [c] e 1 []
    end;
  ssl_write data e inp := mkAnswer (Z.of_nat (length data)) SSL_NONE [] e 0 data;
  ssl_shutdown e inp := mkAnswer 1 SSL_NONE [] e 0 ["!"%char];
  ssl_verify_ok e := (e =? 2)%nat;
  ssl_has_peer_certificate _ := true;
}.

Definition shake : list event := [EvBegin OpHandshake; EvCall; EvSent 1; EvGot (Some ["k"%char]); EvCall].
Definition session_to (evs : list event) : @sys toy_tls := default (start Client 0%nat) (run evs (start Client 0%nat)).
Definition talk : list event := shake ++ [EvBegin (OpWrite false ["a"; "b"]%char); EvCall; EvSent 1; EvSent 1; EvBegin (OpRead false 10); EvCall; EvGot (Some ["x"; "!"]%char); EvCall].

Lemma tls_reusable_witness :
  verified Client (y_log (session_to talk)) ∧ Forall fine (y_log (session_to talk)) ∧ Forall not_shutdown (y_log (session_to talk)) ∧
  y_cur (session_to talk) = None ∧ y_sent (session_to talk) = y_emitted (session_to talk).
Proof. apply (tls_reusable Client 0%nat talk (session_to talk) true); vm_compute; reflexivity. Defined.

Lemma tls_tunnel_intact_witness :
  let y := session_to (take 8 talk) in
  y_got y = y_eaten y ++ t_rbio (y_tls y) ∧ y_sent y `prefix_of` y_emitted y ∧
  (t_broken (y_tls y) = false → y_emitted y = y_sent y ++ rest_of (y_cur y) ++ t_wbio (y_tls y)) ∧
  (t_broken (y_tls y) = false → t_peer_closed (y_tls y) = false → y_cur y = None → y_sent y = y_emitted y).
Proof. apply (tls_tunnel_intact Client 0%nat (take 8 talk)). vm_compute. reflexivity. Defined.

Definition to_eof : list event := talk ++ [EvBegin (OpRead false 10); EvCall].
Lemma tls_eof_is_notified_witness : y_notified (session_to to_eof) = true.
Proof.
  apply (tls_eof_is_notified Client 0%nat to_eof (session_to to_eof) false 10 [] 2%nat); [vm_compute; reflexivity| |done].
  vm_compute. do 3 right. left.
Defined.

Lemma tls_exclusive_witness :
  let y := session_to (take 3 shake) in let y' := default y (step (EvBegin (OpRead false 1)) y) in
  y_cur y' = Some (OpHandshake, PPull) ∧ t_engine (y_tls y') = t_engine (y_tls y) ∧ t_rbio (y_tls y') = t_rbio (y_tls y) ∧ t_wbio (y_tls y') = t_wbio (y_tls y) ∧
  (y_log y' = y_log y ++ [EThrew (OpRead false 1)] ∧ y_tls y' = y_tls y ∨ (∃ e', y_log y' = y_log y ++ [EAnswer (OpRead false 1) Failed e']) ∧ t_broken (y_tls y') = true).
Proof. apply (tls_exclusive Client 0%nat (take 3 shake)); vm_compute; reflexivity. Defined.

Lemma tls_broken_final_witness :
  let y := session_to (shake ++ [EvBegin (OpWrite true ["a"%char])]) in let y' := default y (run [EvBegin OpShutdown; EvBegin (OpRead false 1)] y) in
  t_broken (y_tls y') = true ∧ y_cur y' = None ∧ y_sent y' = y_sent y ∧ y_got y' = y_got y ∧ t_engine (y_tls y') = t_engine (y_tls y) ∧
  ∃ l, y_log y' = y_log y ++ l ∧ Forall (λ e, ∃ o e', e = EAnswer o Failed e') l.
Proof. apply (tls_broken_final _ [EvBegin OpShutdown; EvBegin (OpRead false 1)]); vm_compute; reflexivity. Defined.

Definition h2 : str := ["h"; "2"]%char.
Definition h1 : str := ["h"; "1"]%char.
Lemma alpn_agrees_witness : ∃ off, select_alpn [h2; h1] (alpn_wire [["x"%char]; h1]) = Some (AlpnOk off 2) ∧ take 2 (drop off (alpn_wire [["x"%char]; h1])) = h1.
Proof. apply (alpn_agrees [h2; h1] [["x"%char]; h1]); [by eexists|done]. Defined.

(** An operation that comes too early is answered with -1 and breaks the session for good; a handshake
    under way still answers that it succeeded. *)
Lemma early_read_breaks :
  let y := session_to (take 3 shake ++ [EvBegin (OpRead false 1)] ++ drop 3 shake) in
  y_log y = [EAnswer (OpRead false 1) Failed 1%nat; EAnswer OpHandshake Yes 2%nat] ∧ t_broken (y_tls y) = true.
Proof. vm_compute. done. Qed.
(** A write after the end of the peer's stream breaks the session, and [shutdown] then cannot answer its
    [close_notify]. *)
Lemma write_after_eof_breaks :
  let y := session_to (to_eof ++ [EvBegin (OpWrite false ["a"%char]); EvBegin OpShutdown]) in
  drop 4 (y_log y) = [EAnswer (OpWrite false ["a"%char]) Failed 2%nat; EAnswer OpShutdown Failed 2%nat].
Proof. vm_compute. done. Qed.
