(* ===== verification/NetIocp.v ===== *)
(** * NetIocp: sockets, pipes and files over an I/O completion port

    The awaiters and the objects of [src/include/coro/net_iocp.hpp] and of the Windows parts of
    [src/include/coro/pipe.hpp] and [src/include/coro/fs.hpp]: every operation with its guards and
    errors, which handles it opens and closes, which it associates with the port and which requests it
    counts.  The port itself is [IocpM]; [win_suspend_is_iocp] connects the two.  What the system
    answers is an argument of each operation. *)

From S2P Require Import Prelude IoErrors IocpM Descriptors.
From stdpp Require Import options.

Local Open Scope Z_scope.

Definition ERROR_INVALID_PARAMETER : Z := 87.
Definition ERROR_NOT_SUPPORTED : Z := 50.
Definition ERROR_BROKEN_PIPE : Z := 109.
Definition ERROR_PIPE_NOT_CONNECTED : Z := 233.
Definition ERROR_HANDLE_EOF : Z := 38.
Definition WSAEINVAL : Z := 10022.
Definition WSAEOPNOTSUPP : Z := 10045.

(** ** State *)

Inductive win_class : Type := WStream | WListener | WUdp | WPipe | WFile.
#[export] Instance win_class_eq_dec : EqDecision win_class.
Proof. solve_decision. Defined.
(** A handle is a number, [INVALID_SOCKET] and [INVALID_HANDLE_VALUE] are -1; [wo_accept_ex] is whether a
    listener has the pointer to [AcceptEx]. *)
Record win_object : Type := mkWObj { wo_class : win_class; wo_h : Z; wo_accept_ex : bool }.

(** The operations, with the object they are of. *)
Inductive win_kind : Type :=
  | WRead (len : Z) | WWrite (len : Z) | WConnect | WAccept (attach : bool)
  | WRecvfrom (len : Z) (wanted : bool) | WSendto (len : Z)
  | WPipeRead (len : Z) | WPipeWrite (len : Z) | WReadAt (len offset : Z) | WWriteAt (len offset : Z).
Inductive phase : Type := Created | Flying | Done | Resumed.
#[export] Instance phase_eq_dec : EqDecision phase.
Proof. solve_decision. Defined.

(** [wa_sock] is the socket of a [connect_awaiter], or the [accepted] of an [accept_awaiter]; [wa_on] is
    the handle that the request was made on, and [wa_asked] whether it was cancelled. *)
Record win_awaiter : Type := mkWAw {
  wa_kind : win_kind; wa_obj : nat; wa_sock : Z; wa_connect_ex : bool; wa_error : Z; wa_transferred : Z; wa_phase : phase; wa_on : Z; wa_asked : bool;
}.
(** The open handles, those that are associated with a port, the objects and awaiters, the count of
    requests, the coroutines that were queued, and the error noted last. *)
Record win : Type := mkWin {
  w_open : fd_set; w_assoc : gset Z; w_objs : gmap nat win_object; w_aws : gmap nat win_awaiter; w_pending : Z; w_scheduled : list nat; w_error : Z;
}.
Implicit Types (w : win) (o p : nat) (a : win_awaiter) (x : win_object).

Definition w_set_obj o x w : win := mkWin (w_open w) (w_assoc w) (<[o := x]> (w_objs w)) (w_aws w) (w_pending w) (w_scheduled w) (w_error w).
Definition w_set_aw p a w : win := mkWin (w_open w) (w_assoc w) (w_objs w) (<[p := a]> (w_aws w)) (w_pending w) (w_scheduled w) (w_error w).
Definition w_note (e : Z) w : win := mkWin (w_open w) (w_assoc w) (w_objs w) (w_aws w) (w_pending w) (w_scheduled w) e.
Definition w_queue p w : win := mkWin (w_open w) (w_assoc w) (w_objs w) (w_aws w) (w_pending w) (w_scheduled w ++ [p]) (w_error w).
Definition w_op_start w : win := mkWin (w_open w) (w_assoc w) (w_objs w) (w_aws w) (w_pending w + 1) (w_scheduled w) (w_error w).
(** A call that returns a handle, or -1. *)
Definition w_acquire (h : Z) w : win :=
  if 0 <=? h then mkWin (acquire h (w_open w)) (w_assoc w) (w_objs w) (w_aws w) (w_pending w) (w_scheduled w) (w_error w) else w.
(** [closesocket] or [CloseHandle], of -1 without effect; [None] if it is not open. *)
Definition w_close (h : Z) w : option win :=
  t ← release_valid h (w_open w);
  Some (mkWin t (w_assoc w ∖ {[h]}) (w_objs w) (w_aws w) (w_pending w) (w_scheduled w) (w_error w)).
(** [CancelIoEx] of all requests on a handle. *)
Definition wa_ask a : win_awaiter := mkWAw (wa_kind a) (wa_obj a) (wa_sock a) (wa_connect_ex a) (wa_error a) (wa_transferred a) (wa_phase a) (wa_on a) true.
Definition w_cancel (h : Z) w : win :=
  mkWin (w_open w) (w_assoc w) (w_objs w) ((λ a, if decide (wa_phase a = Flying ∧ wa_on a = h) then wa_ask a else a) <$> w_aws w) (w_pending w) (w_scheduled w) (w_error w).

(** *** The association *)

(** What there is for it: the loop has no port, the system refuses, or nothing is in the way; a handle
    that is associated already is refused. *)
Inductive association : Type := AsNoPort | AsFails (e : Z) | AsFree.
Definition associate (unsupported : Z) (s : association) (h : Z) w : bool * win :=
  match s with
  | AsNoPort => (false, w_note unsupported w)
  | AsFails e => (false, w_note e w)
  | AsFree =>
      if decide (h ∈ w_assoc w) then (false, w_note ERROR_INVALID_PARAMETER w)
      else (true, mkWin (w_open w) ({[h]} ∪ w_assoc w) (w_objs w) (w_aws w) (w_pending w) (w_scheduled w) (w_error w))
  end.
Definition associate_current_iocp : association → Z → win → bool * win := associate WSAEOPNOTSUPP.

(** ** Objects *)

Definition wo_invalid x : win_object := mkWObj (wo_class x) (-1) (wo_accept_ex x).
(** [close] of each class. *)
Definition win_close o w : option win :=
  x ← w_objs w !! o;
  if 0 <=? wo_h x then w ← w_close (wo_h x) (w_cancel (wo_h x) w); Some (w_set_obj o (wo_invalid x) w) else Some w.
(** The destructors: that of a listener does not cancel. *)
Definition win_destroy o w : option win :=
  x ← w_objs w !! o;
  w ← match wo_class x with WListener => w_close (wo_h x) w | _ => win_close o w end;
  Some (mkWin (w_open w) (w_assoc w) (delete o (w_objs w)) (w_aws w) (w_pending w) (w_scheduled w) (w_error w)).
(** The constructors that take a handle over. *)
Definition unsupported (c : win_class) : Z := match c with WPipe | WFile => ERROR_NOT_SUPPORTED | _ => WSAEOPNOTSUPP end.
Definition win_adopt o (c : win_class) (h : Z) (attach : bool) (s : association) w : option win :=
  let w := w_set_obj o (mkWObj c h false) w in
  if (0 <=? h) && attach then
    let '(ok, w) := associate (unsupported c) s h w in
    if ok then Some w else win_close o w
  else Some w.
Definition win_move o o' w : option win := x ← w_objs w !! o; Some (w_set_obj o (mkWObj (wo_class x) (-1) false) (w_set_obj o' x w)).
Definition win_assign dst src w : option win :=
  if decide (dst = src) then Some w
  else
    w ← win_close dst w;
    y ← w_objs w !! src;
    Some (w_set_obj src (mkWObj (wo_class y) (-1) false) (w_set_obj dst y w)).
Definition win_shutdown o w : option win := x ← w_objs w !! o; Some (if 0 <=? wo_h x then w_cancel (wo_h x) w else w).
(** [TcpStream::reattach]. *)
Definition win_reattach o (s : association) w : option (bool * win) :=
  x ← w_objs w !! o;
  if wo_h x <? 0 then Some (false, w)
  else
    let '(ok, w) := associate_current_iocp s (wo_h x) w in
    if ok then Some (true, w) else w ← win_close o w; Some (false, w).

(** What [bind_listen] meets; the errors of the calls are not noted. *)
Record win_bind : Type := mkWBind { wb_winsock : bool; wb_parsed : bool; wb_socket : Z; wb_exclusive : bool; wb_bound : bool; wb_listens : bool; wb_accept_ex : bool; wb_assoc : association }.
Definition win_drop o w : option (bool * win) :=
  x ← w_objs w !! o; w ← w_close (wo_h x) w; Some (false, w_set_obj o (wo_invalid x) w).
(** [TcpListener::bind_listen]. *)
Definition win_bind_listen o (b : win_bind) w : option (bool * win) :=
  if negb (wb_winsock b) then Some (false, w_note WSAEINVAL w)
  else if negb (wb_parsed b) then Some (false, w)
  else
    w ← win_close o w;
    let w := w_acquire (wb_socket b) (w_set_obj o (mkWObj WListener (wb_socket b) false) w) in
    if wb_socket b <? 0 then Some (false, w)
    else if negb (wb_exclusive b) then w ← win_close o w; Some (false, w)
    else if negb (wb_bound b) then win_drop o w
    else if negb (wb_listens b) then win_drop o w
    else if negb (wb_accept_ex b) then w ← win_close o w; Some (false, w)
    else
      let w := w_set_obj o (mkWObj WListener (wb_socket b) true) w in
      let '(ok, w) := associate_current_iocp (wb_assoc b) (wb_socket b) w in
      if ok then Some (true, w) else w ← win_close o w; Some (false, w).
(** [UdpSocket::bind_listen]. *)
Definition win_udp_bind_listen o (b : win_bind) w : option (bool * win) :=
  if negb (wb_winsock b) then Some (false, w_note WSAEINVAL w)
  else if negb (wb_parsed b) then Some (false, w)
  else
    w ← win_close o w;
    let w := w_acquire (wb_socket b) (w_set_obj o (mkWObj WUdp (wb_socket b) false) w) in
    if wb_socket b <? 0 then Some (false, w)
    else if negb (wb_bound b) then w ← win_close o w; Some (false, w)
    else
      let '(ok, w) := associate_current_iocp (wb_assoc b) (wb_socket b) w in
      if ok then Some (true, w) else w ← win_close o w; Some (false, w).

(** [pipe::pair], with the two ends or what went wrong, and the constructors of the ends. *)
Inductive pipe_answer : Type := PipeNoServer (e : Z) | PipeNoClient (server e : Z) | PipeNoConnect (server client e : Z) | PipeMade (server client : Z).
Definition win_pipe_pair o o' (r : pipe_answer) (s s' : association) w : option win :=
  let invalid w := Some (w_set_obj o' (mkWObj WPipe (-1) false) (w_set_obj o (mkWObj WPipe (-1) false) w)) in
  match r with
  | PipeNoServer e => invalid (w_note e w)
  | PipeNoClient server e => w ← w_close server (w_note e (w_acquire server w)); invalid w
  | PipeNoConnect server client e => w ← w_close server (w_note e (w_acquire client (w_acquire server w))); w ← w_close client w; invalid w
  | PipeMade server client => w ← win_adopt o WPipe server true s (w_acquire client (w_acquire server w)); win_adopt o' WPipe client true s' w
  end.
(** [fs::open], with what [CreateFileW] answers. *)
Definition win_open o (r : Z + Z) (s : association) w : option win :=
  match r with
  | inl e => win_adopt o WFile (-1) true s (w_note e w)
  | inr h => win_adopt o WFile h true s (w_acquire h w)
  end.

(** ** Awaiters *)

Definition wa_with (sock : Z) (error : Z) (ph : phase) (on : Z) a : win_awaiter :=
  mkWAw (wa_kind a) (wa_obj a) sock (wa_connect_ex a) error (wa_transferred a) ph on (wa_asked a).
Definition win_awaiter_new (k : win_kind) o : win_awaiter := mkWAw k o (-1) false 0 0 Created (-1) false.

(** What [TcpStream::connect] meets: the address, Winsock, the socket or the error, the error of [bind],
    the association, and whether there is a pointer to [ConnectEx]. *)
Record win_connect : Type := mkWConn { wc_parsed : bool; wc_winsock : bool; wc_socket : Z + Z; wc_bind : option Z; wc_assoc : association; wc_connect_ex : bool }.
Definition connect_new (sock error : Z) (ex : bool) : win_awaiter := mkWAw WConnect 0 sock ex error 0 Created (-1) false.
Definition win_connect_to (c : win_connect) w : option (win_awaiter * win) :=
  if negb (wc_parsed c) then Some (connect_new (-1) WSAEINVAL false, w)
  else if negb (wc_winsock c) then Some (connect_new (-1) WSAEINVAL false, w_note WSAEINVAL w)
  else match wc_socket c with
  | inl e => Some (connect_new (-1) e false, w)
  | inr sock =>
      let w := w_acquire sock w in
      match wc_bind c with
      | Some e => w ← w_close sock w; Some (connect_new (-1) e false, w)
      | None =>
          let '(ok, w) := associate_current_iocp (wc_assoc c) sock w in
          if ok then Some (connect_new sock 0 (wc_connect_ex c), w)
          else w ← w_close sock w; Some (connect_new (-1) WSAEOPNOTSUPP false, w)
      end
  end.

(** What an [await_suspend] comes to: it fails at once with an error, or the request is made on a handle
    and begins, or fails. *)
Inductive attempt : Type := AtError (e : Z) | AtRequest (on : Z) (started : option Z).
(** The call of [await_suspend] of each kind, given the handle of its object: [port] is whether the loop
    has a port, [started] what the call answers, as in [IocpM]. *)
Definition object_attempt (nosup h : Z) (port : bool) (started : option Z) : attempt := if port then AtRequest h started else AtError nosup.
Definition pipe_attempt : Z → bool → option Z → attempt := object_attempt ERROR_NOT_SUPPORTED.
Definition file_attempt : Z → bool → option Z → attempt := object_attempt ERROR_NOT_SUPPORTED.
Definition udp_attempt : Z → bool → option Z → attempt := object_attempt WSAEOPNOTSUPP.
Definition tcp_attempt : Z → bool → option Z → attempt := object_attempt WSAEOPNOTSUPP.
Definition connect_attempt (port : bool) (started : option Z) a : attempt :=
  if negb port then AtError WSAEOPNOTSUPP
  else if (wa_sock a <? 0) || negb (wa_connect_ex a) then AtError (if wa_error a =? 0 then WSAEINVAL else wa_error a)
  else AtRequest (wa_sock a) started.
Definition accept_attempt (accept_ex : bool) (h : Z) (port : bool) (started : option Z) : attempt :=
  if negb port then AtError WSAEOPNOTSUPP else if negb accept_ex then AtError WSAEINVAL else AtRequest h started.
Definition attempt_of (h : Z) (accept_ex : bool) (port : bool) (started : option Z) a : attempt :=
  match wa_kind a with
  | WConnect => connect_attempt port started a
  | WAccept _ => accept_attempt accept_ex h port started
  | WPipeRead _ | WPipeWrite _ => pipe_attempt h port started
  | WReadAt _ _ | WWriteAt _ _ => file_attempt h port started
  | WRecvfrom _ _ | WSendto _ => udp_attempt h port started
  | WRead _ | WWrite _ => tcp_attempt h port started
  end.
(** What a request carries: the length cut to 32 bits, and the halves of the offset. *)
Definition win_request (k : win_kind) : Z * Z * Z :=
  let dword n := n `mod` 2 ^ 32 in
  match k with
  | WRead len | WWrite len | WRecvfrom len _ | WSendto len | WPipeRead len | WPipeWrite len => (dword len, 0, 0)
  | WReadAt len offset | WWriteAt len offset => (dword len, Z.land offset 4294967295, dword (Z.shiftr offset 32))
  | WConnect | WAccept _ => (0, 0, 0)
  end.

(** [await_suspend]: [sock] is the socket that an [accept] makes first. *)
Definition win_suspend p (port : bool) (sock : Z) (started : option Z) w : option win :=
  a ← w_aws w !! p;
  let x := default (mkWObj WStream (-1) false) (w_objs w !! wa_obj a) in
  let accepts := match wa_kind a with WAccept _ => port | _ => false end in
  let w := if accepts then w_acquire sock w else w in
  let a := if accepts then wa_with sock (wa_error a) (wa_phase a) (wa_on a) a else a in
  match attempt_of (wo_h x) (wo_accept_ex x) port started a with
  | AtRequest on None => Some (w_op_start (w_set_aw p (wa_with (wa_sock a) (wa_error a) Flying on a) w))
  | AtError e | AtRequest _ (Some e) =>
      w ← (if accepts then w_close (wa_sock a) w else Some w);
      Some (w_queue p (w_set_aw p (wa_with (if accepts then -1 else wa_sock a) e Done (wa_on a) a) w))
  end.

(** The answer of an operation that is not a connection, and the error it notes. *)
Definition wsa_resume (error transferred : Z) : Z * option Z := if error =? 0 then (transferred, None) else (-1, Some error).
Definition win_pipe_read_resume (error transferred : Z) : Z * option Z :=
  if error =? 0 then (transferred, None)
  else if (error =? ERROR_BROKEN_PIPE) || (error =? ERROR_PIPE_NOT_CONNECTED) then (0, None) else (-1, Some error).
Definition win_read_at_resume (error transferred : Z) : Z * option Z :=
  if error =? 0 then (transferred, None) else if error =? ERROR_HANDLE_EOF then (0, None) else (-1, Some error).
Definition win_answer (k : win_kind) (error transferred : Z) : Z * option Z :=
  match k with
  | WPipeRead _ => win_pipe_read_resume error transferred
  | WReadAt _ _ => win_read_at_resume error transferred
  | _ => wsa_resume error transferred
  end.

(** [await_resume] of [connect], given the error of the last [setsockopt]: a stream at [o]. *)
Definition win_connect_resume p o (context : option Z) w : option win :=
  a ← w_aws w !! p;
  let failed e := w ← w_close (wa_sock a) w; win_adopt o WStream (-1) true AsNoPort (w_note e (w_set_aw p (wa_with (-1) (wa_error a) Resumed (wa_on a) a) w)) in
  if negb (wa_error a =? 0) then failed (wa_error a)
  else match context with
  | Some e => failed e
  | None => win_adopt o WStream (wa_sock a) false AsNoPort (w_set_aw p (wa_with (-1) (wa_error a) Resumed (wa_on a) a) w)
  end.
(** And of [accept], with the association of the new connection. *)
Definition win_accept_resume p o (attach : bool) (context : option Z) (s : association) w : option win :=
  a ← w_aws w !! p;
  let failed e := w ← w_close (wa_sock a) w; win_adopt o WStream (-1) true AsNoPort (w_note e (w_set_aw p (wa_with (-1) (wa_error a) Resumed (wa_on a) a) w)) in
  if negb (wa_error a =? 0) || (wa_sock a <? 0) then failed (if wa_error a =? 0 then WSAEINVAL else wa_error a)
  else match context with
  | Some e => failed e
  | None => win_adopt o WStream (wa_sock a) attach s (w_set_aw p (wa_with (-1) (wa_error a) Resumed (wa_on a) a) w)
  end.
Definition win_resume p o (context : option Z) (s : association) w : option win :=
  a ← w_aws w !! p;
  match wa_kind a with
  | WConnect => win_connect_resume p o context w
  | WAccept attach => win_accept_resume p o attach context s w
  | k =>
      let '(_, e) := win_answer k (wa_error a) (wa_transferred a) in
      let w := match e with Some e => w_note e w | None => w end in
      Some (w_set_aw p (wa_with (wa_sock a) (wa_error a) Resumed (wa_on a) a) w)
  end.
(** [cancel_op], the move constructors, and the destructors. *)
Definition win_cancel_op p w : option win :=
  a ← w_aws w !! p;
  let h := match wa_kind a with WConnect => wa_sock a | _ => wo_h (default (mkWObj WStream (-1) false) (w_objs w !! wa_obj a)) end in
  Some (if (0 <=? h) && bool_decide (wa_phase a = Flying) then w_set_aw p (wa_ask a) w else w).
Definition win_move_awaiter p p' w : option win :=
  a ← w_aws w !! p; Some (w_set_aw p (wa_with (-1) (wa_error a) (wa_phase a) (wa_on a) a) (w_set_aw p' a w)).
Definition win_end p w : option win :=
  a ← w_aws w !! p;
  w ← w_close (wa_sock a) w;
  Some (mkWin (w_open w) (w_assoc w) (w_objs w) (delete p (w_aws w)) (w_pending w) (w_scheduled w) (w_error w)).
(** A packet arrives: what [IocpM.deliver] does for the operation. *)
Definition win_complete p (error bytes : Z) w : option win :=
  a ← w_aws w !! p;
  let a := mkWAw (wa_kind a) (wa_obj a) (wa_sock a) (wa_connect_ex a) error bytes Done (wa_on a) (wa_asked a) in
  Some (mkWin (w_open w) (w_assoc w) (w_objs w) (<[p := a]> (w_aws w)) (w_pending w - 1) (w_scheduled w ++ [p]) (w_error w)).

(** ** Any order of the operations *)

Inductive win_event : Type :=
  | WvObject o (c : win_class)
  | WvAdopt o (c : win_class) (h : Z) (attach : bool) (s : association)
  | WvMove o o' | WvAssign o o' | WvClose o | WvDestroy o | WvShutdown o
  | WvReattach o (s : association)
  | WvListen o (b : win_bind) | WvBindUdp o (b : win_bind)
  | WvPipe o o' (r : pipe_answer) (s s' : association)
  | WvOpen o (r : Z + Z) (s : association)
  | WvConnect p (c : win_connect)
  | WvAwait p (k : win_kind) o
  | WvMoveAw p p' | WvSuspend p (port : bool) (sock : Z) (started : option Z) | WvCancel p
  | WvComplete p (error bytes : Z)
  | WvResume p o (context : option Z) (s : association)
  | WvEnd p.

Definition win_step (e : win_event) w : option win :=
  match e with
  | WvObject o c => Some (w_set_obj o (mkWObj c (-1) false) w)
  | WvAdopt o c h attach s => win_adopt o c h attach s (w_acquire h w)
  | WvMove o o' => win_move o o' w
  | WvAssign o o' => win_assign o o' w
  | WvClose o => win_close o w
  | WvDestroy o => win_destroy o w
  | WvShutdown o => win_shutdown o w
  | WvReattach o s => '(_, w) ← win_reattach o s w; Some w
  | WvListen o b => '(_, w) ← win_bind_listen o b w; Some w
  | WvBindUdp o b => '(_, w) ← win_udp_bind_listen o b w; Some w
  | WvPipe o o' r s s' => win_pipe_pair o o' r s s' w
  | WvOpen o r s => win_open o r s w
  | WvConnect p c => '(a, w) ← win_connect_to c w; Some (w_set_aw p a w)
  | WvAwait p k o => Some (w_set_aw p (win_awaiter_new k o) w)
  | WvMoveAw p p' => win_move_awaiter p p' w
  | WvSuspend p port sock started => win_suspend p port sock started w
  | WvCancel p => win_cancel_op p w
  | WvComplete p error bytes => win_complete p error bytes w
  | WvResume p o context s => win_resume p o context s w
  | WvEnd p => win_end p w
  end.

(** *** The account *)

Definition own w (z : Z) : nat := (map_held (λ x, fd_list (wo_h x)) (w_objs w) z + map_held (λ a, fd_list (wa_sock a)) (w_aws w) z)%nat.
(** One mark for a request under way. *)
Definition mark a : list Z := if decide (wa_phase a = Flying) then [0] else [].
Definition flying w : nat := map_held mark (w_aws w) 0.
(** Each open handle is held once: by an object, an awaiter, or the code under way, which has those of
    [hand]; the requests are counted, and only open handles are associated. *)
Record acc (hand : list Z) w : Prop := {
  ac_exact : exact (λ z, (held z hand + own w z)%nat) (w_open w);
  ac_count : w_pending w = Z.of_nat (flying w);
  ac_assoc : w_assoc w ⊆ w_open w;
}.

Lemma acc_open h hand w : acc (fd_list h ++ hand) w → 0 ≤ h → h ∈ w_open w.
Proof. intros [He _ _] Hh. specialize (He h). cbn in He. rewrite held_app, held_fd_list, decide_True in He by done. case_decide; [done|lia]. Qed.
Lemma acc_same hand w w' :
  acc hand w → w_open w' = w_open w → w_assoc w' = w_assoc w → w_objs w' = w_objs w → w_aws w' = w_aws w → w_pending w' = w_pending w → acc hand w'.
Proof.
  intros [He Hc Ha] Ho Has Hob Haw Hp. split; [|unfold flying in *; congruence|by rewrite Has, Ho].
  intros z. specialize (He z). unfold own in *. by rewrite Ho, Hob, Haw.
Qed.
Lemma acc_note hand e w : acc hand w → acc hand (w_note e w).
Proof. intros H. by apply (acc_same _ w). Qed.
Lemma acc_queue hand p w : acc hand w → acc hand (w_queue p w).
Proof. intros H. by apply (acc_same _ w). Qed.

Lemma acc_acquire h hand w : acc hand w → (0 ≤ h → h ∉ w_open w) → acc (fd_list h ++ hand) (w_acquire h w).
Proof.
  intros [He Hc Ha] Hf. unfold w_acquire. destruct (Z.leb_spec 0 h) as [H0|H0].
  - split; cbn; [|done|unfold acquire; set_solver]. apply (acquire_owned (λ z, (held z hand + own w z)%nat)); [done|by apply Hf|].
    intros z. cbn. rewrite held_app, held_fd_list. change (own _ z) with (own w z). repeat case_decide; tauto || lia.
  - split; [|done|done]. intros z. rewrite <- He. unfold fd_list. rewrite decide_False by lia. done.
Qed.
Lemma w_acquire_objs h w : w_objs (w_acquire h w) = w_objs w.
Proof. unfold w_acquire. by destruct (0 <=? h). Qed.
Lemma w_acquire_aws h w : w_aws (w_acquire h w) = w_aws w.
Proof. unfold w_acquire. by destruct (0 <=? h). Qed.

Lemma w_close_frame h w w' :
  w_close h w = Some w' → w_objs w' = w_objs w ∧ w_aws w' = w_aws w ∧ w_open w' = w_open w ∖ list_to_set (fd_list h).
Proof.
  unfold w_close, release_valid, release, fd_list. destruct (decide (0 ≤ h)); [destruct (decide (h ∈ w_open w)); [|done]|]; cbn; intros [= <-]; cbn.
  - do 2 (split; [done|]). set_solver.
  - do 2 (split; [done|]). set_solver.
Qed.
Lemma acc_close h hand w : acc (fd_list h ++ hand) w → ∃ w', w_close h w = Some w' ∧ acc hand w'.
Proof.
  intros [He Hc Ha]. destruct (release_valid_owned (λ z, (held z (fd_list h ++ hand) + own w z)%nat) (λ z, (held z hand + own w z)%nat) h (w_open w)) as (t & Ht & Hx).
  { done. } { intros z. cbn. rewrite held_app. lia. }
  assert (∃ w', w_close h w = Some w') as [w' Hw] by (unfold w_close; rewrite Ht; by eexists). exists w'. split; [done|].
  pose proof (w_close_frame _ _ _ Hw) as (Ho & Haw & Hop). unfold w_close in Hw. rewrite Ht in Hw. cbn [mbind option_bind] in Hw. injection Hw as <-.
  split; [exact Hx|exact Hc|]. cbn in *. rewrite Hop. unfold fd_list. case_decide; [set_solver|].
  rewrite Hop in Ht. set_solver.
Qed.

Definition vacant o w : Prop := w_objs w !! o = None ∨ ∃ x, w_objs w !! o = Some x ∧ wo_h x < 0.
Lemma fd_list_none h : h < 0 → fd_list h = [].
Proof. intros H. unfold fd_list. by rewrite decide_False by lia. Qed.

Lemma acc_put o x hand w : acc (fd_list (wo_h x) ++ hand) w → vacant o w → acc hand (w_set_obj o x w).
Proof.
  intros [He Hc Ha] Hv. split; [|done|done]. intros z. rewrite <- He, held_app. unfold own. cbn. destruct Hv as [Hv|(y & Hy & Hn)].
  - rewrite map_held_insert_new by done. lia.
  - pose proof (map_held_insert (λ x, fd_list (wo_h x)) (w_objs w) o y x z Hy) as Hs. cbn in Hs. rewrite (fd_list_none (wo_h y)) in Hs by done. cbn in Hs. lia.
Qed.
Lemma acc_take o x y hand w : acc hand w → w_objs w !! o = Some x → wo_h y < 0 → acc (fd_list (wo_h x) ++ hand) (w_set_obj o y w).
Proof.
  intros [He Hc Ha] Hx Hy. split; [|done|done]. intros z. rewrite <- He, held_app. unfold own. cbn.
  pose proof (map_held_insert (λ x, fd_list (wo_h x)) (w_objs w) o x y z Hx) as Hs. cbn in Hs. rewrite (fd_list_none (wo_h y)) in Hs by done. cbn in Hs. lia.
Qed.
Lemma acc_cancel h hand w : acc hand w → acc hand (w_cancel h w).
Proof.
  intros [He Hc Ha]. split; [|unfold flying; cbn; rewrite map_held_fmap; [done|]; intros a; by case_decide|done].
  intros z. rewrite <- He. unfold own. cbn. f_equal. f_equal. apply map_held_fmap. intros a. by case_decide.
Qed.

(** An awaiter that changes. *)
Lemma acc_set_aw p a b hand hand' w :
  acc hand w → w_aws w !! p = Some a → (∀ z, (held z hand' + held z (fd_list (wa_sock b)) = held z hand + held z (fd_list (wa_sock a)))%nat) →
  (wa_phase a = Flying ↔ wa_phase b = Flying) → acc hand' (w_set_aw p b w).
Proof.
  intros [He Hc Ha] Hp Hs Hph. split; [|change (w_pending w = Z.of_nat (flying (w_set_aw p b w))); rewrite Hc; f_equal; unfold flying; cbn|done].
  - intros z. rewrite <- He. unfold own. cbn. pose proof (map_held_insert (λ a, fd_list (wa_sock a)) (w_aws w) p a b z Hp). specialize (Hs z). cbn in *. lia.
  - pose proof (map_held_insert mark (w_aws w) p a b 0 Hp) as Hm. assert (mark a = mark b) as Heq by (unfold mark; repeat case_decide; tauto). rewrite Heq in Hm. lia.
Qed.
Lemma acc_new_aw p b hand w : acc (fd_list (wa_sock b) ++ hand) w → w_aws w !! p = None → wa_phase b ≠ Flying → acc hand (w_set_aw p b w).
Proof.
  intros [He Hc Ha] Hp Hph. split; [|change (w_pending w = Z.of_nat (flying (w_set_aw p b w))); rewrite Hc; f_equal; unfold flying; cbn|done].
  - intros z. rewrite <- He, held_app. unfold own. cbn. rewrite map_held_insert_new by done. lia.
  - rewrite map_held_insert_new by done. unfold mark at 2. by rewrite decide_False.
Qed.

Lemma acc_associate nosup s h hand w :
  acc hand w → h ∈ w_open w → let '(_, w') := associate nosup s h w in acc hand w' ∧ w_objs w' = w_objs w ∧ w_aws w' = w_aws w ∧ w_open w' = w_open w.
Proof.
  intros [He Hc Ha] Hh. unfold associate. destruct s; [by repeat split| by repeat split|]. case_decide; [by repeat split|].
  split; [|done]. split; [done|done|]. cbn. set_solver.
Qed.

(** *** The objects *)

Definition clears o x w w' : Prop :=
  w_objs w' = <[o := if decide (0 ≤ wo_h x) then wo_invalid x else x]> (w_objs w) ∧ w_open w' = w_open w ∖ list_to_set (fd_list (wo_h x)).

Lemma win_close_ok o x hand w : acc hand w → w_objs w !! o = Some x → ∃ w', win_close o w = Some w' ∧ acc hand w' ∧ clears o x w w'.
Proof.
  intros Ha Hx. unfold win_close, clears. rewrite Hx. cbn [mbind option_bind]. destruct (Z.leb_spec 0 (wo_h x)) as [H0|H0].
  - pose proof (acc_take o x (wo_invalid x) hand _ (acc_cancel (wo_h x) hand w Ha) Hx ltac:(cbn; lia)) as Ht.
    apply acc_close in Ht as (w1 & Hc & Ht).
    assert (∃ w2, w_close (wo_h x) (w_cancel (wo_h x) w) = Some w2 ∧ w1 = w_set_obj o (wo_invalid x) w2) as (w2 & Hw2 & ->).
    { unfold w_close in *. cbn [w_open w_set_obj w_cancel] in *. destruct (release_valid _ _); [|done]. cbn in *. injection Hc as <-. by eexists. }
    rewrite Hw2. cbn [mbind option_bind]. eexists. split; [done|]. split; [done|]. apply w_close_frame in Hw2 as (Ho & _ & Hop). cbn. rewrite Ho, Hop, decide_True by done. done.
  - exists w. split; [done|]. split; [done|]. rewrite decide_False, fd_list_none, insert_id by (done || lia). cbn. split; [done|]. set_solver.
Qed.
Lemma clears_vacant o x w w' : clears o x w w' → vacant o w'.
Proof. intros [Ho _]. right. rewrite Ho, lookup_insert_eq. eexists. split; [done|]. case_decide; cbn; lia. Qed.
Lemma clears_other o x w w' o' : clears o x w w' → o' ≠ o → w_objs w' !! o' = w_objs w !! o'.
Proof. intros [-> _] Hne. by rewrite lookup_insert_ne. Qed.
Lemma clears_same o x w w' : clears o x w w' → ∃ x', w_objs w' !! o = Some x' ∧ wo_h x' < 0 ∧ wo_class x' = wo_class x.
Proof. intros [-> _]. rewrite lookup_insert_eq. eexists. split; [done|]. case_decide; cbn; (split; [lia|done]). Qed.

Lemma acc_nothing h hand w : h < 0 → acc hand w → acc (fd_list h ++ hand) w.
Proof. intros Hh. by rewrite fd_list_none. Qed.
Lemma vacant_other o o' x w : o' ≠ o → vacant o w → vacant o (w_set_obj o' x w).
Proof. intros Hne. unfold vacant. cbn. by rewrite lookup_insert_ne by done. Qed.

Lemma win_adopt_ok o c h attach s hand w :
  acc (fd_list h ++ hand) w → vacant o w →
  ∃ w', win_adopt o c h attach s w = Some w' ∧ acc hand w' ∧ (∀ o', o' ≠ o → w_objs w' !! o' = w_objs w !! o').
Proof.
  intros Ha Hv. pose proof (acc_put o (mkWObj c h false) hand w Ha Hv) as Hp. unfold win_adopt. destruct (Z.leb_spec 0 h) as [H0|H0]; cbn [andb].
  2:{ eexists. split; [done|]. split; [done|]. intros o' Ho'. cbn. by rewrite lookup_insert_ne. }
  destruct attach; cbn [andb].
  2:{ eexists. split; [done|]. split; [done|]. intros o' Ho'. cbn. by rewrite lookup_insert_ne. }
  pose proof (acc_associate (unsupported c) s h hand _ Hp (acc_open _ _ _ Ha H0)) as Has. destruct (associate _ _ _ _) as [ok w1]. destruct Has as (Ha1 & Ho1 & _ & _).
  assert (∀ o', o' ≠ o → w_objs w1 !! o' = w_objs w !! o') as Hother by (intros o' Ho'; rewrite Ho1; cbn; by rewrite lookup_insert_ne).
  destruct ok; [by exists w1|]. destruct (win_close_ok o (mkWObj c h false) hand w1 Ha1) as (w2 & Hw2 & Ha2 & Hcl); [rewrite Ho1; apply lookup_insert_eq|].
  exists w2. split; [done|]. split; [done|]. intros o' Ho'. rewrite (clears_other _ _ _ _ _ Hcl Ho'). by apply Hother.
Qed.

Lemma win_destroy_ok o x w : acc [] w → w_objs w !! o = Some x → ∃ w', win_destroy o w = Some w' ∧ acc [] w'.
Proof.
  intros Ha Hx.
  assert (∀ w1 x1 t, acc t w1 → w_objs w1 !! o = Some x1 → acc (fd_list (wo_h x1) ++ t) (mkWin (w_open w1) (w_assoc w1) (delete o (w_objs w1)) (w_aws w1) (w_pending w1) (w_scheduled w1) (w_error w1))) as Hdel.
  { intros w1 x1 t [He Hc Has] Hx1. split; [|done|done]. intros z. rewrite <- He, held_app. unfold own. cbn.
    rewrite (map_held_delete (λ x, fd_list (wo_h x)) (w_objs w1) o x1 z Hx1). lia. }
  unfold win_destroy. rewrite Hx. cbn [mbind option_bind].
  assert (∃ w', (w1 ← win_close o w; Some (mkWin (w_open w1) (w_assoc w1) (delete o (w_objs w1)) (w_aws w1) (w_pending w1) (w_scheduled w1) (w_error w1))) = Some w' ∧ acc [] w') as Hclose.
  { destruct (win_close_ok o x [] w Ha Hx) as (w1 & -> & Ha1 & Hcl). cbn [mbind option_bind]. eexists. split; [done|].
    destruct (clears_same _ _ _ _ Hcl) as (x1 & Hx1 & Hn & _). pose proof (Hdel _ _ _ Ha1 Hx1) as H. by rewrite fd_list_none in H. }
  destruct (wo_class x); try exact Hclose.
  pose proof (Hdel _ _ _ Ha Hx) as H. apply acc_close in H as (w1 & Hw1 & Ha1). unfold w_close in *. cbn [w_open] in Hw1. destruct (release_valid _ _); [|done]. cbn in *. injection Hw1 as <-.
  eexists. split; [done|]. exact Ha1.
Qed.

Lemma win_move_ok o o' x w : acc [] w → w_objs w !! o = Some x → w_objs w !! o' = None → ∃ w', win_move o o' w = Some w' ∧ acc [] w'.
Proof.
  intros Ha Hx Ho'. unfold win_move. rewrite Hx. cbn [mbind option_bind]. eexists. split; [done|]. assert (o ≠ o') by congruence.
  set (y := mkWObj (wo_class x) (-1) false). pose proof (acc_take o x y [] w Ha Hx ltac:(cbn; lia)) as Ht.
  pose proof (acc_put o' x [] (w_set_obj o y w) Ht) as Hp. replace (w_set_obj o y (w_set_obj o' x w)) with (w_set_obj o' x (w_set_obj o y w)).
  - apply Hp. left. cbn. by rewrite lookup_insert_ne.
  - unfold w_set_obj. cbn. f_equal. by apply insert_insert_ne.
Qed.

Lemma win_assign_ok o o' x y w : acc [] w → w_objs w !! o = Some x → w_objs w !! o' = Some y → ∃ w', win_assign o o' w = Some w' ∧ acc [] w'.
Proof.
  intros Ha Hx Hy. unfold win_assign. destruct (decide (o = o')) as [->|Hne]; [by exists w|].
  destruct (win_close_ok o x [] w Ha Hx) as (w1 & -> & Ha1 & Hcl). cbn [mbind option_bind]. rewrite (clears_other _ _ _ _ o' Hcl), Hy by done. cbn [mbind option_bind].
  eexists. split; [done|]. set (z := mkWObj (wo_class y) (-1) false).
  assert (w_objs w1 !! o' = Some y) as Hy1 by (by rewrite (clears_other _ _ _ _ o' Hcl)).
  pose proof (acc_take o' y z [] w1 Ha1 Hy1 ltac:(cbn; lia)) as Ht. pose proof (acc_put o y [] _ Ht (vacant_other _ _ _ _ (not_eq_sym Hne) (clears_vacant _ _ _ _ Hcl))) as Hp.
  replace (w_set_obj o' z (w_set_obj o y w1)) with (w_set_obj o y (w_set_obj o' z w1)); [done|]. unfold w_set_obj. cbn. f_equal. by apply insert_insert_ne.
Qed.

(** Association of an object's handle, or its end. *)
Lemma associate_or_close o x s w :
  acc [] w → w_objs w !! o = Some x → 0 ≤ wo_h x →
  ∃ r w', (let '(ok, w1) := associate_current_iocp s (wo_h x) w in if ok then Some (true, w1) else w2 ← win_close o w1; Some (false, w2)) = Some (r, w') ∧ acc [] w'.
Proof.
  intros Ha Hx H0. assert (wo_h x ∈ w_open w) as Hin.
  { apply (acc_open _ [] (w_set_obj o (wo_invalid x) w)); [|done]. apply acc_take; [done|done|cbn; lia]. }
  pose proof (acc_associate WSAEOPNOTSUPP s (wo_h x) [] w Ha Hin) as Has. unfold associate_current_iocp. destruct (associate _ _ _ _) as [ok w1]. destruct Has as (Ha1 & Ho1 & _).
  destruct ok; [eauto|]. rewrite <- Ho1 in Hx. destruct (win_close_ok o x [] w1 Ha1 Hx) as (w2 & -> & Ha2 & _). cbn [mbind option_bind]. eauto.
Qed.
Lemma win_reattach_ok o x s w : acc [] w → w_objs w !! o = Some x → ∃ r w', win_reattach o s w = Some (r, w') ∧ acc [] w'.
Proof.
  intros Ha Hx. unfold win_reattach. rewrite Hx. cbn [mbind option_bind]. destruct (Z.ltb_spec (wo_h x) 0); [eauto|]. by apply associate_or_close.
Qed.

(** A handle that the system hands out is free, or was given back in the same call. *)
Definition fresh (h : Z) w : Prop := 0 ≤ h → h ∉ w_open w.
Definition fresh_after o (h : Z) w : Prop := 0 ≤ h → h ∈ w_open w → wo_h <$> w_objs w !! o = Some h.

Lemma fresh_cleared o x h w w' : w_objs w !! o = Some x → clears o x w w' → fresh_after o h w → fresh h w'.
Proof.
  intros Hx [_ Hop] Hf H0 Hin. rewrite Hop in Hin. apply elem_of_difference in Hin as [Hin Hn]. specialize (Hf H0 Hin). rewrite Hx in Hf. injection Hf as Hf.
  apply Hn. unfold fd_list. rewrite decide_True by lia. set_solver.
Qed.
Lemma bound_ok o c h ex w :
  acc [] w → vacant o w → fresh h w → acc [] (w_acquire h (w_set_obj o (mkWObj c h ex) w)).
Proof.
  intros Ha Hv Hf. pose proof (acc_acquire h [] w Ha Hf) as Hq. pose proof (acc_put o (mkWObj c h ex) [] _ Hq) as Hp.
  assert (w_set_obj o (mkWObj c h ex) (w_acquire h w) = w_acquire h (w_set_obj o (mkWObj c h ex) w)) as <- by (unfold w_acquire; by destruct (0 <=? h)).
  apply Hp. unfold vacant. by rewrite w_acquire_objs.
Qed.
Lemma win_drop_ok o x w : acc [] w → w_objs w !! o = Some x → ∃ r w', win_drop o w = Some (r, w') ∧ acc [] w'.
Proof.
  intros Ha Hx. unfold win_drop. rewrite Hx. cbn [mbind option_bind]. pose proof (acc_take o x (wo_invalid x) [] w Ha Hx ltac:(cbn; lia)) as Ht.
  apply acc_close in Ht as (w1 & Hc & Ht). unfold w_close in *. cbn [w_open w_set_obj] in Hc. destruct (release_valid _ _); [|done]. cbn in *. injection Hc as <-.
  eexists _, _. split; [done|]. exact Ht.
Qed.

Lemma close_answer o x w (r : bool) : acc [] w → w_objs w !! o = Some x → ∃ r' w', (w1 ← win_close o w; Some (r, w1)) = Some (r', w') ∧ acc [] w'.
Proof. intros Ha Hx. destruct (win_close_ok o x [] w Ha Hx) as (w1 & -> & Ha1 & _). cbn. eauto. Qed.

Lemma win_listen_ok o x b w :
  acc [] w → w_objs w !! o = Some x → fresh_after o (wb_socket b) w → ∃ r w', win_bind_listen o b w = Some (r, w') ∧ acc [] w'.
Proof.
  intros Ha Hx Hf. unfold win_bind_listen. destruct (wb_winsock b); cbn [negb]; [|eexists _, _; split; [done|by apply acc_note]].
  destruct (wb_parsed b); cbn [negb]; [|eauto]. destruct (win_close_ok o x [] w Ha Hx) as (w1 & -> & Ha1 & Hcl). cbn [mbind option_bind].
  pose proof (fresh_cleared o x _ w w1 Hx Hcl Hf) as Hf1.
  pose proof (clears_vacant _ _ _ _ Hcl) as Hv. pose proof (bound_ok o WListener (wb_socket b) false w1 Ha1 Hv Hf1) as Hb.
  set (w2 := w_acquire _ _) in *. assert (w_objs w2 !! o = Some (mkWObj WListener (wb_socket b) false)) as H2 by (unfold w2; rewrite w_acquire_objs; apply lookup_insert_eq).
  destruct (Z.ltb_spec (wb_socket b) 0) as [|H0]; [eauto|]. destruct (wb_exclusive b); cbn [negb]; [|by eapply close_answer].
  destruct (wb_bound b); cbn [negb]; [|by eapply win_drop_ok]. destruct (wb_listens b); cbn [negb]; [|by eapply win_drop_ok].
  destruct (wb_accept_ex b); cbn [negb]; [|by eapply close_answer].
  set (y := mkWObj WListener (wb_socket b) true). assert (acc [] (w_set_obj o y w2)) as Ha3.
  { pose proof (acc_take o _ (mkWObj WListener (-1) true) [] w2 Hb H2 ltac:(cbn; lia)) as Ht. pose proof (acc_put o y [] _ Ht) as Hp.
    unfold w_set_obj in Hp. cbn in Hp. rewrite insert_insert_eq in Hp. apply Hp. right. eexists. cbn. rewrite lookup_insert_eq. split; [done|]. cbn. lia. }
  exact (associate_or_close o y (wb_assoc b) _ Ha3 (lookup_insert_eq _ _ _) H0).
Qed.
Lemma win_udp_ok o x b w :
  acc [] w → w_objs w !! o = Some x → fresh_after o (wb_socket b) w → ∃ r w', win_udp_bind_listen o b w = Some (r, w') ∧ acc [] w'.
Proof.
  intros Ha Hx Hf. unfold win_udp_bind_listen. destruct (wb_winsock b); cbn [negb]; [|eexists _, _; split; [done|by apply acc_note]].
  destruct (wb_parsed b); cbn [negb]; [|eauto]. destruct (win_close_ok o x [] w Ha Hx) as (w1 & -> & Ha1 & Hcl). cbn [mbind option_bind].
  pose proof (fresh_cleared o x _ w w1 Hx Hcl Hf) as Hf1.
  pose proof (clears_vacant _ _ _ _ Hcl) as Hv. pose proof (bound_ok o WUdp (wb_socket b) false w1 Ha1 Hv Hf1) as Hb.
  set (w2 := w_acquire _ _) in *. assert (w_objs w2 !! o = Some (mkWObj WUdp (wb_socket b) false)) as H2 by (unfold w2; rewrite w_acquire_objs; apply lookup_insert_eq).
  destruct (Z.ltb_spec (wb_socket b) 0) as [|H0]; [eauto|]. destruct (wb_bound b); cbn [negb]; [|by eapply close_answer].
  exact (associate_or_close o (mkWObj WUdp (wb_socket b) false) (wb_assoc b) _ Hb H2 H0).
Qed.

Lemma acc_swap h k hand w : acc (fd_list h ++ fd_list k ++ hand) w → acc (fd_list k ++ fd_list h ++ hand) w.
Proof. intros [He Hc Ha]. split; [|done|done]. intros z. rewrite <- He, !held_app. lia. Qed.
Lemma acquire_open h w : w_open w ⊆ w_open (w_acquire h w).
Proof. unfold w_acquire, acquire. destruct (0 <=? h); cbn; set_solver. Qed.
Lemma vacant_same o w w' : w_objs w' = w_objs w → vacant o w → vacant o w'.
Proof. unfold vacant. by intros ->. Qed.

(** Two handles that are new. *)
Lemma acquire_two h k w :
  acc [] w → 0 ≤ h → 0 ≤ k → h ≠ k → fresh h w → fresh k w → acc (fd_list k ++ fd_list h ++ []) (w_acquire k (w_acquire h w)).
Proof.
  intros Ha H0 K0 Hne Hf Kf. apply acc_acquire; [by apply acc_acquire|]. intros _. unfold w_acquire. rewrite (proj2 (Z.leb_le 0 h)) by done.
  unfold acquire. cbn. specialize (Kf K0). set_solver.
Qed.
Lemma invalid_pair o o' w :
  acc [] w → w_objs w !! o = None → w_objs w !! o' = None → o ≠ o' → acc [] (w_set_obj o' (mkWObj WPipe (-1) false) (w_set_obj o (mkWObj WPipe (-1) false) w)).
Proof.
  intros Ha Ho Ho' Hne. apply acc_put; [apply acc_put; [done|by left]|]. left. cbn. by rewrite lookup_insert_ne.
Qed.

Definition pipe_fresh (r : pipe_answer) w : Prop :=
  match r with
  | PipeNoServer _ => True
  | PipeNoClient h _ => 0 ≤ h ∧ fresh h w
  | PipeNoConnect h k _ | PipeMade h k => 0 ≤ h ∧ 0 ≤ k ∧ h ≠ k ∧ fresh h w ∧ fresh k w
  end.
Lemma win_pipe_ok o o' r s s' w :
  acc [] w → w_objs w !! o = None → w_objs w !! o' = None → o ≠ o' → pipe_fresh r w → ∃ w', win_pipe_pair o o' r s s' w = Some w' ∧ acc [] w'.
Proof.
  intros Ha Ho Ho' Hne Hr. assert (∀ w1, acc [] w1 → w_objs w1 = w_objs w →
    ∃ w', Some (w_set_obj o' (mkWObj WPipe (-1) false) (w_set_obj o (mkWObj WPipe (-1) false) w1)) = Some w' ∧ acc [] w') as Hinv.
  { intros w1 Ha1 H1. eexists. split; [done|]. by apply invalid_pair; rewrite ?H1. }
  unfold win_pipe_pair. destruct r as [e|h e|h k e|h k]; cbn in Hr.
  - apply Hinv; [by apply acc_note|done].
  - destruct Hr as (H0 & Hf). pose proof (acc_note _ e _ (acc_acquire h [] w Ha Hf)) as Hq.
    apply acc_close in Hq as (w1 & Hw1 & Ha1). rewrite Hw1. cbn [mbind option_bind]. apply w_close_frame in Hw1 as (H1 & _). apply Hinv; [done|].
    rewrite H1. apply w_acquire_objs.
  - destruct Hr as (H0 & K0 & Hhk & Hf & Kf). pose proof (acc_swap _ _ _ _ (acc_note _ e _ (acquire_two h k w Ha H0 K0 Hhk Hf Kf))) as Hq.
    apply acc_close in Hq as (w1 & Hw1 & Ha1). rewrite Hw1. cbn [mbind option_bind]. apply acc_close in Ha1 as (w2 & Hw2 & Ha2). rewrite Hw2. cbn [mbind option_bind].
    apply w_close_frame in Hw1 as (H1 & _). apply w_close_frame in Hw2 as (H2 & _). apply Hinv; [done|]. rewrite H2, H1. cbn. by rewrite !w_acquire_objs.
  - destruct Hr as (H0 & K0 & Hhk & Hf & Kf). pose proof (acc_swap _ _ _ _ (acquire_two h k w Ha H0 K0 Hhk Hf Kf)) as Hq.
    destruct (win_adopt_ok o WPipe h true s _ _ Hq) as (w1 & Hw1 & Ha1 & Hot); [left; by rewrite !w_acquire_objs|]. rewrite Hw1. cbn [mbind option_bind].
    destruct (win_adopt_ok o' WPipe k true s' _ _ Ha1) as (w2 & -> & Ha2 & _); [left; by rewrite Hot, !w_acquire_objs by done|]. eauto.
Qed.

Lemma win_open_ok o r s w :
  acc [] w → w_objs w !! o = None → (∀ h, r = inr h → fresh h w) → ∃ w', win_open o r s w = Some w' ∧ acc [] w'.
Proof.
  intros Ha Ho Hf. unfold win_open. destruct r as [e|h].
  - destruct (win_adopt_ok o WFile (-1) true s [] (w_note e w)) as (w1 & -> & Ha1 & _); [by apply acc_note|by left|eauto].
  - destruct (win_adopt_ok o WFile h true s [] (w_acquire h w)) as (w1 & -> & Ha1 & _); [apply acc_acquire; [done|by apply Hf]|left; by rewrite w_acquire_objs|eauto].
Qed.

(** *** The awaiters *)

Lemma win_connect_ok c w :
  acc [] w → (∀ h, wc_socket c = inr h → 0 ≤ h ∧ fresh h w) →
  ∃ a w', win_connect_to c w = Some (a, w') ∧ acc (fd_list (wa_sock a)) w' ∧ wa_phase a = Created ∧ w_aws w' = w_aws w.
Proof.
  intros Ha Hf. unfold win_connect_to. destruct (wc_parsed c); cbn [negb]; [|eauto 10]. destruct (wc_winsock c); cbn [negb]; [|eexists _, _; split; [done|split; [by apply acc_note|done]]].
  destruct (wc_socket c) as [e|h]; [eauto 10|]. destruct (Hf h eq_refl) as [H0 Hh]. pose proof (acc_acquire h [] w Ha Hh) as Hq.
  assert (∀ w1 e, acc (fd_list h ++ []) w1 → w_aws w1 = w_aws w →
    ∃ a w', (w2 ← w_close h w1; Some (connect_new (-1) e false, w2)) = Some (a, w') ∧ acc (fd_list (wa_sock a)) w' ∧ wa_phase a = Created ∧ w_aws w' = w_aws w) as Hc.
  { intros w1 e H1 Haw. apply acc_close in H1 as (w2 & Hw2 & Ha2). rewrite Hw2. cbn [mbind option_bind]. apply w_close_frame in Hw2 as (_ & Haw2 & _).
    eexists _, _. split; [done|]. split; [done|]. split; [done|]. by rewrite Haw2. }
  destruct (wc_bind c) as [e|]; [apply Hc; [done|apply w_acquire_aws]|].
  pose proof (acc_associate WSAEOPNOTSUPP (wc_assoc c) h _ _ Hq (acc_open _ _ _ Hq H0)) as Has. unfold associate_current_iocp. destruct (associate _ _ _ _) as [ok w1].
  destruct Has as (Ha1 & _ & Haw & _). rewrite w_acquire_aws in Haw. destruct ok; [|by apply Hc]. eexists _, _. split; [done|]. cbn. rewrite app_nil_r in Ha1. done.
Qed.

Lemma acc_move_hand (h : Z) hand w : acc (fd_list h ++ hand) w ↔ acc (hand ++ fd_list h) w.
Proof. split; intros [He Hc Ha]; (split; [|done|done]); intros z; rewrite <- He, !held_app; lia. Qed.

(** A request begins: it is counted, and its awaiter is under way. *)
Lemma acc_begins p a b hand hand' w :
  acc hand w → w_aws w !! p = Some a → (∀ z, (held z hand' + held z (fd_list (wa_sock b)) = held z hand + held z (fd_list (wa_sock a)))%nat) →
  wa_phase a ≠ Flying → wa_phase b = Flying → acc hand' (w_op_start (w_set_aw p b w)).
Proof.
  intros [He Hc Ha] Hp Hs Hna Hb. split; [|cbn; rewrite Hc; unfold flying; cbn|done].
  - intros z. rewrite <- He. unfold own. cbn. pose proof (map_held_insert (λ a, fd_list (wa_sock a)) (w_aws w) p a b z Hp) as Hm. specialize (Hs z). cbn in Hm. lia.
  - pose proof (map_held_insert mark (w_aws w) p a b 0 Hp) as Hm. assert (mark a = [] ∧ mark b = [0]) as [Hma Hmb] by (unfold mark; rewrite decide_False, decide_True by done; done).
    rewrite Hma, Hmb in Hm. change (held 0 [0]) with 1%nat in Hm. change (held 0 []) with 0%nat in Hm. lia.
Qed.

Lemma suspend_accept_ok p a h (ex : bool) sock started w :
  acc [] w → w_aws w !! p = Some a → wa_phase a = Created → wa_sock a < 0 → fresh sock w →
  let a1 := wa_with sock (wa_error a) (wa_phase a) (wa_on a) a in let w1 := w_acquire sock w in
  ∃ w', match accept_attempt ex h true started with
    | AtRequest on None => Some (w_op_start (w_set_aw p (wa_with sock (wa_error a) Flying on a1) w1))
    | AtError e | AtRequest _ (Some e) => w2 ← w_close sock w1; Some (w_queue p (w_set_aw p (wa_with (-1) e Done (wa_on a) a1) w2))
    end = Some w' ∧ acc [] w'.
Proof.
  intros Ha Hp Hph Hs Hf a1 w1. pose proof (acc_acquire sock [] w Ha Hf) as Hq. fold w1 in Hq. assert (w_aws w1 !! p = Some a) as Hp1 by (unfold w1; by rewrite w_acquire_aws).
  assert (∀ e, ∃ w', (w2 ← w_close sock w1; Some (w_queue p (w_set_aw p (wa_with (-1) e Done (wa_on a) a1) w2))) = Some w' ∧ acc [] w') as Hfail.
  { intros e. apply acc_close in Hq as (w2 & Hw2 & Ha2). rewrite Hw2. cbn [mbind option_bind]. apply w_close_frame in Hw2 as (_ & Haw & _). eexists. split; [done|].
    apply acc_queue, (acc_set_aw p a _ [] [] w2); [done|by rewrite Haw|intros z; cbn; rewrite !fd_list_none by lia; done|cbn; rewrite Hph; done]. }
  unfold accept_attempt. cbn [negb]. destruct ex; cbn [negb]; [|apply Hfail]. destruct started as [e|]; [apply Hfail|]. eexists. split; [done|].
  eapply (acc_begins p a _ (fd_list sock ++ []) []); [done|done| |by rewrite Hph|done]. intros z. cbn. rewrite app_nil_r, (fd_list_none (wa_sock a)) by done. cbn. lia.
Qed.

Lemma win_suspend_ok p a port sock started w :
  acc [] w → w_aws w !! p = Some a → wa_phase a = Created → (match wa_kind a with WAccept _ => wa_sock a < 0 ∧ fresh sock w | _ => True end) →
  ∃ w', win_suspend p port sock started w = Some w' ∧ acc [] w'.
Proof.
  intros Ha Hp Hph Hacc. unfold win_suspend. rewrite Hp. cbn [mbind option_bind]. set (x := default _ _).
  assert (∀ t, ∃ w', match t with
    | AtRequest on None => Some (w_op_start (w_set_aw p (wa_with (wa_sock a) (wa_error a) Flying on a) w))
    | AtError e | AtRequest _ (Some e) => w2 ← Some w; Some (w_queue p (w_set_aw p (wa_with (wa_sock a) e Done (wa_on a) a) w2))
    end = Some w' ∧ acc [] w') as Hplain.
  { intros t. assert (∀ e, acc [] (w_queue p (w_set_aw p (wa_with (wa_sock a) e Done (wa_on a) a) w))) as He.
    { intros e. apply acc_queue, (acc_set_aw p a _ [] [] w); [done|done|done|cbn; by rewrite Hph]. }
    destruct t as [e|on [e|]]; cbn [mbind option_bind]; (eexists; split; [done|]); [apply He|apply He|].
    eapply (acc_begins p a); [done|done|done|by rewrite Hph|done]. }
  unfold attempt_of. destruct (wa_kind a) eqn:Hk; try apply Hplain.
  destruct port; [|apply Hplain]. destruct Hacc as [Hs Hf]. cbn [wa_with wa_sock wa_error wa_on wa_kind]. rewrite Hk.
  exact (suspend_accept_ok p a (wo_h x) (wo_accept_ex x) sock started w Ha Hp Hph Hs Hf).
Qed.

(** A stream at a free address for the socket of an awaiter, which has it no more. *)
Lemma resumed_adopt p o a h attach s w :
  acc [] w → w_aws w !! p = Some a → wa_phase a ≠ Flying → vacant o w → h = wa_sock a →
  ∃ w', win_adopt o WStream h attach s (w_set_aw p (wa_with (-1) (wa_error a) Resumed (wa_on a) a) w) = Some w' ∧ acc [] w'.
Proof.
  intros Ha Hp Hph Hv ->. destruct (win_adopt_ok o WStream (wa_sock a) attach s [] (w_set_aw p (wa_with (-1) (wa_error a) Resumed (wa_on a) a) w)) as (w1 & -> & Ha1 & _); [|done|eauto].
  rewrite app_nil_r. apply (acc_set_aw p a _ [] _ w); [done|done|intros z; cbn; rewrite (fd_list_none (-1)) by lia; cbn; lia|cbn; split; done].
Qed.
Lemma resumed_failed p o a e w :
  acc [] w → w_aws w !! p = Some a → wa_phase a ≠ Flying → vacant o w →
  ∃ w', (w1 ← w_close (wa_sock a) w; win_adopt o WStream (-1) true AsNoPort (w_note e (w_set_aw p (wa_with (-1) (wa_error a) Resumed (wa_on a) a) w1))) = Some w' ∧ acc [] w'.
Proof.
  intros Ha Hp Hph Hv. set (b := wa_with (-1) (wa_error a) Resumed (wa_on a) a).
  assert (acc (fd_list (wa_sock a) ++ []) (w_set_aw p b w)) as Hb.
  { rewrite app_nil_r. apply (acc_set_aw p a _ [] _ w); [done|done|intros z; cbn; rewrite (fd_list_none (-1)) by lia; cbn; lia|cbn; split; done]. }
  apply acc_close in Hb as (w2 & Hw2 & Ha2).
  assert (∃ w1, w_close (wa_sock a) w = Some w1 ∧ w2 = w_set_aw p b w1) as (w1 & Hw1 & ->).
  { unfold w_close in *. cbn [w_open w_set_aw] in Hw2. destruct (release_valid _ _); [|done]. cbn in *. injection Hw2 as <-. by eexists. }
  rewrite Hw1. cbn [mbind option_bind]. apply w_close_frame in Hw1 as (Ho & _ & _).
  destruct (win_adopt_ok o WStream (-1) true AsNoPort [] (w_note e (w_set_aw p b w1))) as (w3 & -> & Ha3 & _); [by apply acc_note|by apply (vacant_same _ w)|eauto].
Qed.

Lemma win_resume_ok p o a context s w :
  acc [] w → w_aws w !! p = Some a → wa_phase a = Done → vacant o w → ∃ w', win_resume p o context s w = Some w' ∧ acc [] w'.
Proof.
  intros Ha Hp Hph Hv. assert (wa_phase a ≠ Flying) as Hnf by (by rewrite Hph). unfold win_resume. rewrite Hp. cbn [mbind option_bind].
  assert (∀ e, ∃ w', Some (w_set_aw p (wa_with (wa_sock a) (wa_error a) Resumed (wa_on a) a) (match e with Some e => w_note e w | None => w end)) = Some w' ∧ acc [] w') as Hplain.
  { intros e. eexists. split; [done|]. eapply (acc_set_aw p a); [by destruct e; [apply acc_note|]|by destruct e|done|cbn; by rewrite Hph]. }
  destruct (wa_kind a) as [len|len| |attach|len wanted|len|len|len|len off|len off]; try (destruct (win_answer _ _ _) as [? e]; apply Hplain).
  - unfold win_connect_resume. rewrite Hp. cbn [mbind option_bind]. destruct (negb (wa_error a =? 0)); [by apply resumed_failed|].
    destruct context; [by apply resumed_failed|by eapply resumed_adopt].
  - unfold win_accept_resume. rewrite Hp. cbn [mbind option_bind]. destruct (negb (wa_error a =? 0) || (wa_sock a <? 0)); [by apply resumed_failed|].
    destruct context; [by apply resumed_failed|by eapply resumed_adopt].
Qed.

Lemma win_move_aw_ok p p' a w :
  acc [] w → w_aws w !! p = Some a → w_aws w !! p' = None → wa_phase a = Created → ∃ w', win_move_awaiter p p' w = Some w' ∧ acc [] w'.
Proof.
  intros Ha Hp Hp' Hph. unfold win_move_awaiter. rewrite Hp. cbn [mbind option_bind]. eexists. split; [done|]. assert (p ≠ p') by congruence.
  set (b := wa_with (-1) (wa_error a) (wa_phase a) (wa_on a) a). assert (acc (fd_list (wa_sock a) ++ []) (w_set_aw p b w)) as Hb.
  { rewrite app_nil_r. apply (acc_set_aw p a _ [] _ w); [done|done|intros z; cbn; rewrite (fd_list_none (-1)) by lia; cbn; lia|cbn; by rewrite Hph]. }
  replace (w_set_aw p b (w_set_aw p' a w)) with (w_set_aw p' a (w_set_aw p b w)).
  - apply acc_new_aw; [done|cbn; by rewrite lookup_insert_ne|by rewrite Hph].
  - unfold w_set_aw. cbn. f_equal. by apply insert_insert_ne.
Qed.

Lemma win_complete_ok p a error bytes w :
  acc [] w → w_aws w !! p = Some a → wa_phase a = Flying → ∃ w', win_complete p error bytes w = Some w' ∧ acc [] w'.
Proof.
  intros [He Hc Ha] Hp Hph. unfold win_complete. rewrite Hp. cbn [mbind option_bind]. eexists. split; [done|].
  set (b := mkWAw _ _ _ _ _ _ _ _ _). split; [|cbn; rewrite Hc; unfold flying; cbn|done].
  - intros z. rewrite <- He. unfold own. cbn. pose proof (map_held_insert (λ a, fd_list (wa_sock a)) (w_aws w) p a b z Hp) as Hm. cbn in Hm. lia.
  - pose proof (map_held_insert mark (w_aws w) p a b 0 Hp) as Hm. assert (mark a = [0] ∧ mark b = []) as [Hma Hmb] by (unfold mark; rewrite decide_True, decide_False by done; done).
    rewrite Hma, Hmb in Hm. change (held 0 [0]) with 1%nat in Hm. change (held 0 []) with 0%nat in Hm. lia.
Qed.

Lemma win_end_ok p a w : acc [] w → w_aws w !! p = Some a → wa_phase a ≠ Flying → ∃ w', win_end p w = Some w' ∧ acc [] w'.
Proof.
  intros [He Hc Ha] Hp Hph. unfold win_end. rewrite Hp. cbn [mbind option_bind].
  set (w0 := mkWin (w_open w) (w_assoc w) (w_objs w) (delete p (w_aws w)) (w_pending w) (w_scheduled w) (w_error w)).
  assert (acc (fd_list (wa_sock a) ++ []) w0) as H0.
  { split; [|cbn; rewrite Hc; unfold flying; cbn|done].
    - intros z. rewrite <- He, held_app. unfold own. cbn. rewrite (map_held_delete (λ a, fd_list (wa_sock a)) (w_aws w) p a z Hp). lia.
    - rewrite (map_held_delete mark (w_aws w) p a 0 Hp). unfold mark at 1. rewrite decide_False by done. done. }
  apply acc_close in H0 as (w1 & Hw1 & Ha1). unfold w_close in *. cbn [w_open w0] in Hw1. destruct (release_valid _ _); [|done]. cbn in *. injection Hw1 as <-.
  eexists. split; [done|]. exact Ha1.
Qed.

(** ** The theorems *)

(** What the code above keeps to: objects are made at free addresses and used while they exist, an
    awaiter is suspended once and resumed once, and not destroyed while its request is under way. *)
Definition win_event_ok (e : win_event) w : Prop :=
  match e with
  | WvObject o _ => w_objs w !! o = None
  | WvAdopt o _ h _ _ => w_objs w !! o = None ∧ fresh h w
  | WvMove o o' => is_Some (w_objs w !! o) ∧ w_objs w !! o' = None
  | WvAssign o o' => is_Some (w_objs w !! o) ∧ is_Some (w_objs w !! o')
  | WvClose o | WvDestroy o | WvShutdown o | WvReattach o _ => is_Some (w_objs w !! o)
  | WvListen o b | WvBindUdp o b => is_Some (w_objs w !! o) ∧ fresh_after o (wb_socket b) w
  | WvPipe o o' r _ _ => w_objs w !! o = None ∧ w_objs w !! o' = None ∧ o ≠ o' ∧ pipe_fresh r w
  | WvOpen o r _ => w_objs w !! o = None ∧ ∀ h, r = inr h → fresh h w
  | WvConnect p c => w_aws w !! p = None ∧ ∀ h, wc_socket c = inr h → 0 ≤ h ∧ fresh h w
  | WvAwait p k _ => w_aws w !! p = None
  | WvMoveAw p p' => (∃ a, w_aws w !! p = Some a ∧ wa_phase a = Created) ∧ w_aws w !! p' = None
  | WvSuspend p _ sock _ => ∃ a, w_aws w !! p = Some a ∧ wa_phase a = Created ∧ match wa_kind a with WAccept _ => wa_sock a < 0 ∧ fresh sock w | _ => True end
  | WvCancel p => is_Some (w_aws w !! p)
  | WvComplete p _ _ => ∃ a, w_aws w !! p = Some a ∧ wa_phase a = Flying
  | WvResume p o _ _ => (∃ a, w_aws w !! p = Some a ∧ wa_phase a = Done) ∧ w_objs w !! o = None
  | WvEnd p => ∃ a, w_aws w !! p = Some a ∧ wa_phase a ≠ Flying
  end.
Definition win_empty : win := mkWin ∅ ∅ ∅ ∅ 0 [] 0.
Inductive win_reachable : win → Prop :=
  | WrInit : win_reachable win_empty
  | WrStep e w w' : win_reachable w → win_event_ok e w → win_step e w = Some w' → win_reachable w'.

Lemma win_step_ok e w : acc [] w → win_event_ok e w → ∃ w', win_step e w = Some w' ∧ acc [] w'.
Proof.
  intros Ha He. destruct e as [o c|o c h att s|o o'|o o'|o|o|o|o s|o b|o b|o o' r s s'|o r s|p c|p k o|p p'|p port sock st|p|p err bytes|p o ctx s|p]; cbn [win_step win_event_ok] in *.
  - eexists. split; [done|]. apply acc_put; [done|by left].
  - destruct He as [Ho Hf]. destruct (win_adopt_ok o c h att s [] (w_acquire h w)) as (w1 & -> & Ha1 & _); [by apply acc_acquire|left; by rewrite w_acquire_objs|eauto].
  - destruct He as [[x Hx] Ho']. by eapply win_move_ok.
  - destruct He as [[x Hx] [y Hy]]. by eapply win_assign_ok.
  - destruct He as [x Hx]. destruct (win_close_ok o x [] w Ha Hx) as (w1 & -> & Ha1 & _). eauto.
  - destruct He as [x Hx]. by eapply win_destroy_ok.
  - destruct He as [x Hx]. unfold win_shutdown. rewrite Hx. cbn [mbind option_bind]. eexists. split; [done|]. destruct (0 <=? wo_h x); [by apply acc_cancel|done].
  - destruct He as [x Hx]. destruct (win_reattach_ok o x s w Ha Hx) as (r & w1 & -> & Ha1). cbn [mbind option_bind]. eauto.
  - destruct He as [[x Hx] Hf]. destruct (win_listen_ok o x b w Ha Hx Hf) as (r & w1 & -> & Ha1). cbn [mbind option_bind]. eauto.
  - destruct He as [[x Hx] Hf]. destruct (win_udp_ok o x b w Ha Hx Hf) as (r & w1 & -> & Ha1). cbn [mbind option_bind]. eauto.
  - destruct He as (Ho & Ho' & Hne & Hr). by apply win_pipe_ok.
  - destruct He as [Ho Hr]. by apply win_open_ok.
  - destruct He as [Hp Hf]. destruct (win_connect_ok c w Ha Hf) as (a & w1 & -> & Ha1 & Hph & Haw). cbn [mbind option_bind]. eexists. split; [done|].
    apply acc_new_aw; [by rewrite app_nil_r|by rewrite Haw|by rewrite Hph].
  - eexists. split; [done|]. by apply acc_new_aw.
  - destruct He as [(a & Hp & Hph) Hp']. by eapply win_move_aw_ok.
  - destruct He as (a & Hp & Hph & Hacc). by eapply win_suspend_ok.
  - destruct He as [a Hp]. unfold win_cancel_op. rewrite Hp. cbn [mbind option_bind]. eexists. split; [done|]. destruct (_ && _); [|done]. by eapply acc_set_aw.
  - destruct He as (a & Hp & Hph). by eapply win_complete_ok.
  - destruct He as [(a & Hp & Hph) Ho]. eapply win_resume_ok; [done|done|done|by left].
  - destruct He as (a & Hp & Hph). by eapply win_end_ok.
Qed.
Lemma win_empty_ok : acc [] win_empty.
Proof. split; [|done|done]. intros z. unfold own. cbn. by rewrite !map_held_empty. Qed.
Lemma win_reachable_ok w : win_reachable w → acc [] w.
Proof. intros Hr. induction Hr as [|e w w' Hr IH He Hs]; [apply win_empty_ok|]. destruct (win_step_ok e w IH He) as (w1 & Hw1 & ?). congruence. Qed.

(** C33 In any order of operations each open handle is held by one object or awaiter, none is closed that is
    not open, only open handles are associated with a port, and the requests that the port counts are
    those whose packet is to come: every awaiter is queued once, by its packet or by its own
    [await_suspend]. *)
Theorem win_handles w e :
  win_reachable w →
  exact (own w) (w_open w) ∧ w_assoc w ⊆ w_open w ∧ w_pending w = Z.of_nat (flying w) ∧ (win_event_ok e w → is_Some (win_step e w)).
Proof.
  intros Hr%win_reachable_ok. split; [exact (ac_exact _ _ Hr)|]. split; [apply Hr|]. split; [apply Hr|].
  intros He. destruct (win_step_ok e w Hr He) as (w' & -> & _). by eexists.
Qed.

(** *** [await_suspend] *)

(** With a port, each [await_suspend] does to it what [IocpM] says of one: the request begins and is
    counted, or the operation has the error and the coroutine is queued, never both. *)
Theorem win_suspend_is_iocp p a sock started w w' h c (i : iocp_op) :
  w_aws w !! p = Some a → wa_phase a = Created → ic_ops c !! p = Some i → io_error i = wa_error a → win_suspend p true sock started w = Some w' →
  ∃ st a', w_aws w' !! p = Some a' ∧ let c' := iocp_await_suspend st h p c in
    ic_pending c' - ic_pending c = w_pending w' - w_pending w ∧ (∃ i', ic_ops c' !! p = Some i' ∧ io_error i' = wa_error a') ∧
    match st with
    | None => wa_phase a' = Flying ∧ ic_kernel c' = ic_kernel c ++ [p] ∧ ic_scheduled c' = ic_scheduled c ∧ w_scheduled w' = w_scheduled w
    | Some e => wa_phase a' = Done ∧ wa_error a' = e ∧ ic_kernel c' = ic_kernel c ∧ ic_scheduled c' = ic_scheduled c ++ [h] ∧ w_scheduled w' = w_scheduled w ++ [p]
    end.
Proof.
  intros Hp Hph Hi He. unfold win_suspend. rewrite Hp. cbn [mbind option_bind]. set (accepts := match wa_kind a with WAccept _ => true | _ => false end).
  set (w1 := if accepts then w_acquire sock w else w). set (a1 := if accepts then _ else a). set (t := attempt_of _ _ _ _ a1).
  assert (w_pending w1 = w_pending w ∧ w_scheduled w1 = w_scheduled w) as [Hpend Hsch] by (unfold w1, w_acquire; destruct accepts, (0 <=? sock); done).
  assert (wa_error a1 = wa_error a) as He1 by (unfold a1; by destruct accepts).
  assert (∀ e, (w2 ← (if accepts then w_close (wa_sock a1) w1 else Some w1); Some (w_queue p (w_set_aw p (wa_with (if accepts then -1 else wa_sock a1) e Done (wa_on a1) a1) w2))) = Some w' →
    ∃ a', w_aws w' !! p = Some a' ∧ wa_phase a' = Done ∧ wa_error a' = e ∧ w_pending w' = w_pending w ∧ w_scheduled w' = w_scheduled w ++ [p]) as Hfail.
  { intros e Hs. assert (∃ w2, w_pending w2 = w_pending w1 ∧ w_scheduled w2 = w_scheduled w1 ∧ w' = w_queue p (w_set_aw p (wa_with (if accepts then -1 else wa_sock a1) e Done (wa_on a1) a1) w2)) as (w2 & H2 & H3 & ->).
    { destruct accepts; cbn [mbind option_bind] in Hs; [|injection Hs as <-; eauto]. unfold w_close in Hs. destruct (release_valid _ _); [|done]. cbn [mbind option_bind] in Hs. injection Hs as <-. eexists. split; [|split; [|reflexivity]]; done. }
    eexists. cbn. rewrite lookup_insert_eq, H2, H3, Hpend, Hsch. done. }
  destruct t as [e|on [e|]].
  - intros (a' & Ha' & H1 & H2 & H3 & H4)%Hfail. exists (Some e), a'. split; [done|]. unfold iocp_await_suspend. rewrite Hi. cbn. rewrite lookup_insert_eq. split; [lia|]. split; [by eexists|]. done.
  - intros (a' & Ha' & H1 & H2 & H3 & H4)%Hfail. exists (Some e), a'. split; [done|]. unfold iocp_await_suspend. rewrite Hi. cbn. rewrite lookup_insert_eq. split; [lia|]. split; [by eexists|]. done.
  - intros [= <-]. exists None. eexists. split; [cbn; apply lookup_insert_eq|]. unfold iocp_await_suspend. rewrite Hi. cbn. rewrite lookup_insert_eq. split; [lia|].
    split; [eexists; split; [done|]; cbn; congruence|]. done.
Qed.

(** *** Answers *)

Definition is_data (k : win_kind) : bool := match k with WConnect | WAccept _ => false | _ => true end.
(** An operation from [co_await] to its answer: what [await_suspend] comes to, and the packet. *)
Definition win_outcome (k : win_kind) (o : nat) (h : Z) (ex port : bool) (started : option Z) (error bytes : Z) : Z * option Z :=
  match attempt_of h ex port started (win_awaiter_new k o) with
  | AtError e | AtRequest _ (Some e) => win_answer k e 0
  | AtRequest _ None => win_answer k error bytes
  end.
(** The errors that are the end of what is read. *)
Definition win_end_error (k : win_kind) (e : Z) : bool :=
  match k with WPipeRead _ => bool_decide (e ∈ [ERROR_BROKEN_PIPE; ERROR_PIPE_NOT_CONNECTED]) | WReadAt _ _ => bool_decide (e = ERROR_HANDLE_EOF) | _ => false end.

(** Each operation answers the bytes of its packet; an error of the call, of the packet or for want of a
    port is answered with -1 and noted, except that the end of a pipe and of a file are answered with
    0. *)
Theorem win_answers k o h ex port started error bytes :
  is_data k = true → (∀ e, started = Some e → e ≠ 0) →
  win_outcome k o h ex port started error bytes =
    let e := if port then default error started else unsupported (match k with WPipeRead _ | WPipeWrite _ => WPipe | WReadAt _ _ | WWriteAt _ _ => WFile | _ => WStream end) in
    if e =? 0 then (bytes, None) else if win_end_error k e then (0, None) else (-1, Some e).
Proof.
  intros Hk Hs. assert (∀ e b, win_answer k e b = if e =? 0 then (b, None) else if win_end_error k e then (0, None) else (-1, Some e)) as Ha.
  { intros e b. destruct k; try done; cbn; unfold wsa_resume, win_pipe_read_resume, win_read_at_resume; destruct (Z.eqb_spec e 0); try done.
    - destruct (Z.eqb_spec e ERROR_BROKEN_PIPE) as [-> |]; [done|]. destruct (Z.eqb_spec e ERROR_PIPE_NOT_CONNECTED) as [-> |]; [done|].
      rewrite bool_decide_false; [done|]. set_solver.
    - destruct (Z.eqb_spec e ERROR_HANDLE_EOF) as [-> |]; [done|]. by rewrite bool_decide_false. }
  unfold win_outcome. destruct port.
  - assert (attempt_of h ex true started (win_awaiter_new k o) = AtRequest h started) as -> by (by destruct k).
    destruct started as [e|]; rewrite Ha; cbn; [|done]. specialize (Hs e eq_refl). by destruct (Z.eqb_spec e 0).
  - destruct k; try done; cbn; by rewrite Ha.
Qed.

(** The halves of an offset are the offset. *)
Lemma win_request_offset len offset :
  0 ≤ offset < 2 ^ 64 → let '(_, lo, hi) := win_request (WReadAt len offset) in hi * 2 ^ 32 + lo = offset.
Proof.
  intros Ho. cbn. change 4294967295 with (Z.ones 32). rewrite Z.land_ones, Z.shiftr_div_pow2 by lia. rewrite (Z.mod_small (offset / 2 ^ 32)).
  - pose proof (Z.div_mod offset (2 ^ 32)). lia.
  - split; [apply Z.div_pos; lia|apply Z.div_lt_upper_bound; lia].
Qed.

(** *** [fsync] *)

(** It runs on a thread of the pool, whose errors are its own: the errors of the loop's thread and of
    the other, and what [FlushFileBuffers] answers. *)
Definition win_fsync (valid : bool) (flush : option Z) (loop pool : IoErrors.io_error) : bool * IoErrors.io_error * IoErrors.io_error :=
  if negb valid then (false, loop, pool)
  else match flush with Some e => (false, loop, IoErrors.set_error true e pool) | None => (true, loop, pool) end.

(** ** What modelling showed *)

(** The error of [fsync] is not in [last_error] of the thread that waits for it. *)
Lemma fsync_error_elsewhere valid flush loop pool : (win_fsync valid flush loop pool).1.2 = loop.
Proof. unfold win_fsync. destruct valid; [|done]. by destruct flush. Qed.

(** [reattach] of a stream that is associated already closes it. *)
Lemma reattach_closes :
  let w := mkWin {[5]} {[5]} {[1%nat := mkWObj WStream 5 false]} ∅ 0 [] 0 in
  win_reattach 1 AsFree w = Some (false, mkWin ∅ ∅ {[1%nat := mkWObj WStream (-1) false]} ∅ 0 [] ERROR_INVALID_PARAMETER).
Proof. vm_compute. reflexivity. Qed.

(** The destructor of a listener closes its handle without the cancellation that [close] asks for. *)
Lemma listener_destructor_keeps_requests :
  let a := mkWAw (WAccept true) 1 6 false 0 0 Flying 5 false in
  let w := mkWin {[5; 6]} {[5]} {[1%nat := mkWObj WListener 5 true]} {[7%nat := a]} 1 [] 0 in
  w_aws <$> win_destroy 1 w = Some {[7%nat := a]} ∧ w_aws <$> win_close 1 w = Some {[7%nat := wa_ask a]}.
Proof. vm_compute. done. Qed.

(** A read of 2^32 bytes asks for none, and its answer 0 is that of a peer that has closed. *)
Lemma win_length_cut : win_request (WRead (2 ^ 32)) = (0, 0, 0).
Proof. done. Qed.

(** ** Witnesses *)

(** A listener accepts a connection that is then read from. *)
Definition demo_win_events : list win_event :=
  [WvObject 1 WListener; WvListen 1 (mkWBind true true 3 true true true true AsFree); WvAwait 7 (WAccept true) 1; WvSuspend 7 true 4 None; WvComplete 7 0 0;
   WvResume 7 2 None AsFree; WvAwait 8 (WRead 10) 2; WvSuspend 8 true (-1) None].
Definition demo_win (k : nat) : win := foldl (λ w e, default w (win_step e w)) win_empty (take k demo_win_events).
Lemma demo_win_step k e : demo_win_events !! k = Some e → win_event_ok e (demo_win k) → win_reachable (demo_win k) → win_reachable (demo_win (S k)).
Proof.
  intros He Hok Hr. unfold demo_win. rewrite (take_S_r _ _ e He), foldl_app. cbn. fold (demo_win k).
  destruct (win_step e (demo_win k)) as [w|] eqn:Hs; [by eapply WrStep|done].
Qed.
#[local] Ltac by_computing := apply (bool_decide_unpack _); vm_compute; exact I.
Lemma demo_win_reachable : win_reachable (demo_win 8).
Proof.
  eapply (demo_win_step 7); [done|eexists; split; [by vm_compute|done]|]. eapply (demo_win_step 6); [done|by vm_compute|].
  eapply (demo_win_step 5); [done|split; [eexists; split; [by vm_compute|done]|by vm_compute]|].
  eapply (demo_win_step 4); [done|eexists; split; [by vm_compute|done]|].
  eapply (demo_win_step 3); [done|eexists; split; [by vm_compute|]; split; [done|]; split; [done|]; intros _; by_computing|].
  eapply (demo_win_step 2); [done|by vm_compute|]. eapply (demo_win_step 1); [done|split; [eexists; by vm_compute|]; intros _ Hin; exfalso; revert Hin; by_computing|].
  eapply (demo_win_step 0); [done|by vm_compute|]. apply WrInit.
Qed.

Lemma win_handles_witness : own (demo_win 8) 4 = 1%nat ∧ w_pending (demo_win 8) = 1 ∧ is_Some (win_step (WvClose 1) (demo_win 8)).
Proof.
  destruct (win_handles (demo_win 8) (WvClose 1) demo_win_reachable) as (He & _ & Hp & Hs). split; [rewrite (He 4); by_computing|]. split; [by vm_compute|].
  apply Hs. eexists. by vm_compute.
Defined.

Lemma win_suspend_is_iocp_witness :
  ∃ st a', w_aws (demo_win 8) !! 8%nat = Some a' ∧ let c' := iocp_await_suspend st 70%nat 8 (mkIocp [] [] 0 {[8%nat := mkIop null_handle 0 0]} []) in
    ic_pending c' - 0 = w_pending (demo_win 8) - w_pending (demo_win 7) ∧ (∃ i', ic_ops c' !! 8%nat = Some i' ∧ io_error i' = wa_error a') ∧
    match st with
    | None => wa_phase a' = Flying ∧ ic_kernel c' = [8%nat] ∧ ic_scheduled c' = [] ∧ w_scheduled (demo_win 8) = w_scheduled (demo_win 7)
    | Some e => wa_phase a' = Done ∧ wa_error a' = e ∧ ic_kernel c' = [] ∧ ic_scheduled c' = [70%nat] ∧ w_scheduled (demo_win 8) = w_scheduled (demo_win 7) ++ [8%nat]
    end.
Proof.
  apply (win_suspend_is_iocp 8 (win_awaiter_new (WRead 10) 2) (-1) None (demo_win 7) (demo_win 8) 70%nat (mkIocp [] [] 0 {[8%nat := mkIop null_handle 0 0]} []) (mkIop null_handle 0 0));
    by vm_compute.
Defined.

Lemma win_answers_witness : win_outcome (WPipeRead 10) 1 5 false true None ERROR_BROKEN_PIPE 0 = (0, None).
Proof. apply (win_answers (WPipeRead 10) 1 5 false true None ERROR_BROKEN_PIPE 0); done. Defined.
