(* ===== verification/DnsM.v ===== *)
(** * DnsM: resolving names

    [src/include/coro/dns.hpp]: what is asked of [getaddrinfo], which of its results become endpoints,
    and where a connection to one of them goes.  The resolver and the conversions of addresses to text
    and back are arguments. *)

From Stdlib Require Import Ascii.
From S2P Require Import Prelude.
From stdpp Require Import options.
#[local] Set Default Proof Using "Type*".

Local Open Scope Z_scope.

Definition AF_INET : Z := 2.
Definition SOCK_STREAM : Z := 1.
(** [sizeof(sockaddr_in)]. *)
Definition sockaddr_in_size : Z := 16.
(** [ntohs] and [htons] of a little-endian machine. *)
Definition swap16 (x : Z) : Z := (x `mod` 256) * 256 + x / 256.
Definition ntohs : Z → Z := swap16.
Definition htons : Z → Z := swap16.

(** A result of [getaddrinfo]: its address, when there is one, with the port in the order of the
    network. *)
Record addrinfo : Type := mkAddrinfo { ai_family : Z; ai_addr : option (Z * Z); ai_addrlen : Z; ai_canonname : option str }.
Record resolved_endpoint : Type := mkEndpoint { re_address : str; re_port : Z; re_canonical_name : str }.

(** What a resolution comes to. *)
Inductive resolution : Type := InvalidArgument | DnsResolutionError (host : str) (rc : Z) | Resolved (eps : list resolved_endpoint).

Section resolver.
(** [getaddrinfo] of a name, a service and a socket type, [inet_ntop] and [inet_pton]. *)
Context (getaddrinfo : str → option str → Z → Z + list addrinfo) (ntop : Z → option str) (pton : str → option Z).

(** The body of the loop over the results: an endpoint or [continue]. *)
Definition endpoint_of (it : addrinfo) : option resolved_endpoint :=
  match ai_addr it with
  | Some (addr, port) =>
      if negb (ai_family it =? AF_INET) || (ai_addrlen it <? sockaddr_in_size) then None
      else match ntop addr with
      | None => None
      | Some peer => Some (mkEndpoint peer (ntohs port) (default [] (ai_canonname it)))
      end
  | None => None
  end.
Fixpoint collect (l : list addrinfo) (out : list resolved_endpoint) : list resolved_endpoint :=
  match l with
  | [] => out
  | it :: l => collect l (match endpoint_of it with Some ep => out ++ [ep] | None => out end)
  end.
(** [resolve_blocking]: a service that is empty is none, and then the socket type is left open. *)
Definition resolve_blocking (host service : str) : resolution :=
  let socktype := if decide (service = []) then 0 else SOCK_STREAM in
  match getaddrinfo host (if decide (service = []) then None else Some service) socktype with
  | inl rc => DnsResolutionError host rc
  | inr l => Resolved (collect l [])
  end.
(** [resolve], which [resolve_with] differs from in its executor only. *)
Definition resolve (host service : str) : resolution :=
  if bool_decide (zero ∈ host) || bool_decide (zero ∈ service) then InvalidArgument else resolve_blocking host service.
(** The address that [connect] gives to [TcpStream::connect], and the one that makes of it: the address
    and the port in the order of the network. *)
Definition connect_address (ip : str) (port : Z) : option (Z * Z) := addr ← pton ip; Some (addr, htons port).
Definition connect (ep : resolved_endpoint) : option (Z * Z) := connect_address (re_address ep) (re_port ep).

Lemma collect_omap l out : collect l out = out ++ omap endpoint_of l.
Proof.
  revert out. induction l as [|it l IH]; intros out; cbn; [by rewrite app_nil_r|]. rewrite IH. destruct (endpoint_of it); [by rewrite <- app_assoc|done].
Qed.
Lemma swap16_twice x : 0 ≤ x < 65536 → swap16 (swap16 x) = x.
Proof.
  intros Hx. unfold swap16. pose proof (Z.div_mod x 256). pose proof (Z.mod_pos_bound x 256). assert (0 ≤ x / 256 < 256) by (split; [apply Z.div_pos; lia|apply Z.div_lt_upper_bound; lia]).
  replace (x `mod` 256 * 256 + x / 256) with (x / 256 + x `mod` 256 * 256) by lia.
  rewrite Z.mod_add, Z.div_add, (Z.mod_small (x / 256)), (Z.div_small (x / 256)) by lia. lia.
Qed.

(** The endpoints of a resolution are the IPv4 results of the system in their order, and connecting to
    one of them goes to the address and the port that the system gave: the text and the two conversions
    of the port give them back. *)
Theorem resolve_then_connect host service eps :
  (∀ a s, ntop a = Some s → pton s = Some a) →
  resolve host service = Resolved eps →
  ∃ l, getaddrinfo host (if decide (service = []) then None else Some service) (if decide (service = []) then 0 else SOCK_STREAM) = inr l ∧
    eps = omap endpoint_of l ∧
    ∀ ep, ep ∈ eps → ∃ it addr port, it ∈ l ∧ ai_addr it = Some (addr, port) ∧ ai_family it = AF_INET ∧ (0 ≤ port < 65536 → connect ep = Some (addr, port)).
Proof.
  intros Hpt. unfold resolve, resolve_blocking. destruct (_ || _); [done|]. destruct (getaddrinfo _ _ _) as [rc|l]; [done|]. intros [= <-].
  exists l. split; [done|]. split; [apply collect_omap|]. intros ep. rewrite collect_omap. cbn [app]. rewrite list_elem_of_omap. intros (it & Hit & Hep).
  unfold endpoint_of in Hep. destruct (ai_addr it) as [[addr port]|] eqn:Ha; [|done]. destruct (Z.eqb_spec (ai_family it) AF_INET) as [Hf|]; [|done]. cbn [negb orb] in Hep.
  destruct (ai_addrlen it <? sockaddr_in_size); [done|]. destruct (ntop addr) as [s|] eqn:Hn; [|done]. injection Hep as <-.
  exists it, addr, port. do 3 (split; [done|]). intros Hp. unfold connect, connect_address. cbn. rewrite (Hpt _ _ Hn). cbn. unfold htons, ntohs. by rewrite swap16_twice.
Qed.

(** A name or a service with a zero in it reaches neither the executor nor the system. *)
Lemma resolve_zero host service : zero ∈ host ∨ zero ∈ service → resolve host service = InvalidArgument.
Proof. intros [H|H]; unfold resolve; rewrite (bool_decide_true _ H), ?orb_true_r; done. Qed.
End resolver.

(** ** Witness *)

(** Two addresses, of which one is of another family. *)
Definition demo_ntop (a : Z) : option str := if decide (a = 7) then Some ["7"%char] else None.
Definition demo_pton (s : str) : option Z := if decide (s = ["7"%char]) then Some 7 else None.
Definition demo_resolver (host : str) (service : option str) (socktype : Z) : Z + list addrinfo :=
  inr [mkAddrinfo 10 (Some (1, 2)) 28 None; mkAddrinfo AF_INET (Some (7, 20480)) 16 None].

Lemma resolve_then_connect_witness :
  ∃ l, demo_resolver ["h"%char] (Some ["8"; "0"]%char) SOCK_STREAM = inr l ∧ [mkEndpoint ["7"%char] 80 []] = omap (endpoint_of demo_ntop) l ∧
    ∀ ep, ep ∈ [mkEndpoint ["7"%char] 80 []] → ∃ it addr port, it ∈ l ∧ ai_addr it = Some (addr, port) ∧ ai_family it = AF_INET ∧ (0 ≤ port < 65536 → connect demo_pton ep = Some (addr, port)).
Proof.
  apply (resolve_then_connect demo_resolver demo_ntop demo_pton ["h"%char] ["8"; "0"]%char [mkEndpoint ["7"%char] 80 []]).
  - intros a s. unfold demo_ntop, demo_pton. destruct (decide (a = 7)) as [->|]; [|done]. intros [= <-]. done.
  - vm_compute. reflexivity.
Defined.
