(* ===== verification/TlsSource.v ===== *)
(** * TlsSource: a buffered reader over a TLS session

    [TlsStream::read] is written as an [AsyncReadable] for [stream_reader].  Here a session whose socket
    gives the pieces of a list is a source in the sense of [StreamIO]: what it still delivers is what the
    engine makes of the bytes that are to come, and the theorems on readers apply to it. *)

From Stdlib Require Import Ascii.
From S2P Require Import Prelude StreamIO TlsM.
From stdpp Require Import options.
#[local] Set Default Proof Using "Type*".

Local Open Scope Z_scope.

(** What is expected of OpenSSL over memory BIOs: the bytes that come in have a plain text, which the
    calls of [SSL_read] give out in order however they are cut, at most as much as was asked for; a call
    that gives nothing wants more bytes, reports the [close_notify], behind which there is no text, or
    fails. *)
Class Decrypts (E : Type) `{Engine E} : Type := {
  plain : E → str → str;
  read_plain n e inp more : 0 < n →
    let a := ssl_read n e inp in
    plain e (inp ++ more) = (if 0 <? an_rc a then an_bytes a else []) ++ plain (an_engine a) (drop (an_taken a) inp ++ more);
  read_count n e inp : 0 < n → let a := ssl_read n e inp in 0 < an_rc a → an_rc a = Z.of_nat (length (an_bytes a)) ∧ an_rc a ≤ n;
  read_reason n e inp : 0 < n → let a := ssl_read n e inp in an_rc a ≤ 0 → an_reason a ≠ SSL_NONE ∧ an_reason a ≠ SSL_WANT_WRITE;
  read_end n e inp more : 0 < n →
    let a := ssl_read n e inp in an_rc a ≤ 0 → an_reason a = SSL_ZERO_RETURN → plain (an_engine a) (drop (an_taken a) inp ++ more) = [];
}.

Section source.
Context {E : Type} `{Decrypts E}.
Implicit Types (t : tls E) (cs : list str).

(** The socket takes all it is given. *)
Fixpoint send_all (fuel : nat) (o : op) (p : tls E * next) : tls E * next :=
  match fuel, p.2 with
  | S fuel, NPhase (PSend rest rc r bytes) => send_all fuel o (sent o rest rc r bytes (Z.of_nat (length rest)) p.1)
  | _, _ => p
  end.
(** The rounds of a read: each asks the socket for its next piece; without one the connection has ended. *)
Fixpoint read_rounds (o : op) cs t : tls E * list str * outcome :=
  let p := round o t in
  let q := send_all (S (length (t_wbio p.1))) o p in
  match q.2 with
  | NAnswer out => (q.1, cs, out)
  | NPhase PPull =>
      match cs with
      | [] => ((pulled o (Some []) q.1).1, [], Failed)
      | c :: cs => let p := pulled o (Some c) q.1 in match p.2 with NAnswer out => (p.1, cs, out) | NPhase _ => read_rounds o cs p.1 end
      end
  | NPhase _ => (q.1, cs, Failed)
  end.
(** [co_await read(buf, n)]. *)
Definition tls_read (n : nat) (s : tls E * list str) : read_result * (tls E * list str) :=
  let answer out t cs := match out with Count _ bytes => (RdData bytes, (t, cs)) | _ => (RdFail, (t, cs)) end in
  let '(t, cs) := s in
  match begin (OpRead false (Z.of_nat n)) t with
  | (t, Threw) => (RdThrow LogicError, (t, cs))
  | (t, Answered out) => answer out t cs
  | (t, Goes) => let '(t, cs, out) := read_rounds (OpRead false (Z.of_nat n)) cs t in answer out t cs
  end.
(** The text that is still to come, nothing behind the [close_notify]. *)
Definition tls_rest (s : tls E * list str) : str :=
  let '(t, cs) := s in if t_peer_closed t then [] else plain (t_engine t) (t_rbio t ++ concat cs).

#[export] Instance tls_source : Source (tls E * list str) := { src_read := tls_read; src_rest := tls_rest }.

(** *** A round *)

(** Two sessions with the same text to come. *)
Definition same_text t t' : Prop := t_engine t' = t_engine t ∧ t_rbio t' = t_rbio t ∧ t_peer_closed t' = t_peer_closed t.
(** Where a round that called with answer [a] may be, from the session [t] after the call. *)
Definition landing (o : op) (a : answer E) t (p : tls E * next) : Prop :=
  same_text t p.1 ∧
  match p.2 with
  | NAnswer out => 0 < an_rc a ∧ out = Count (an_rc a) (an_bytes a)
  | NPhase PPull => an_rc a ≤ 0 ∧ an_reason a = SSL_WANT_READ ∧ t_wbio p.1 = []
  | NPhase (PSend rest rc r bytes) => rest ≠ [] ∧ rc = an_rc a ∧ r = reason_of o a ∧ bytes = an_bytes a
  | NPhase PCall => False
  end.

Lemma flush_lands null size a t t0 :
  let o := OpRead null size in
  (an_rc a ≤ 0 → an_reason a = SSL_WANT_READ) → same_text t0 t → landing o a t0 (flush o (an_rc a) (reason_of o a) (an_bytes a) t).
Proof.
  intros o Hr Hs. unfold flush. destruct (t_wbio t) as [|c w] eqn:Hw.
  2:{ split; [done|]. cbn. done. }
  unfold landed, o, landed_read, again. cbn [reason_of]. destruct (Z.ltb_spec 0 (an_rc a)) as [Hp|Hn].
  - split; [done|]. cbn. by split.
  - rewrite (Hr Hn). cbn [decide]. rewrite decide_True by done. split; [done|]. cbn. auto.
Qed.

Lemma send_all_lands null size a t fuel p :
  let o := OpRead null size in
  (an_rc a ≤ 0 → an_reason a = SSL_WANT_READ) → landing o a t p →
  (length (t_wbio p.1) < fuel)%nat →
  let q := send_all fuel o p in landing o a t q ∧ match q.2 with NPhase (PSend _ _ _ _) => False | _ => True end.
Proof.
  intros o Hr. revert p. induction fuel as [|fuel IH]; intros [t1 nx] Hl Hf; [cbn in Hf; lia|]. cbn in Hf. cbn [send_all snd].
  destruct nx as [out|[|rest rc r bytes|]]; try done. destruct Hl as [Hs (Hne & -> & -> & ->)]. cbn [fst snd] in *.
  unfold sent. destruct (Z.leb_spec (Z.of_nat (length rest)) 0) as [Hz|_]; [destruct rest; [done|cbn in Hz; lia]|].
  rewrite Nat2Z.id, drop_all. set (p := flush o (an_rc a) (reason_of o a) (an_bytes a) t1). pose proof (flush_lands null size a t1 t Hr Hs) as Hl. fold o p in Hl.
  destruct (t_wbio t1) as [|c w] eqn:Hw.
  - assert (send_all fuel o p = p ∧ match p.2 with NPhase (PSend _ _ _ _) => False | _ => True end) as [-> Hp]; [|done].
    unfold p, flush in *. rewrite Hw in *. unfold landed, o, landed_read, again in *. destruct (0 <? an_rc a); [by destruct fuel|]. cbn. destruct (decide _); by destruct fuel.
  - apply IH; [done|]. unfold p, flush. rewrite Hw. cbn [fst t_wbio tls_tunnel]. rewrite length_drop. rewrite ?Hw in Hf. cbn [length] in *. assert (0 < chunk)%nat by (apply Nat.ltb_lt; vm_compute; reflexivity). lia.
Qed.

(** A round of a read of [n] bytes over the bytes [inp] and more that are to come. *)
Lemma round_text null (n : Z) t p :
  let o := OpRead null n in
  0 < n → t_peer_closed t = false → p = round o t →
  let q := send_all (S (length (t_wbio p.1))) o p in
  match q.2 with
  | NAnswer (Count k bytes) => Z.of_nat (length bytes) ≤ n ∧
      (∀ more, plain (t_engine t) (t_rbio t ++ more) = bytes ++ (if t_peer_closed q.1 then [] else plain (t_engine q.1) (t_rbio q.1 ++ more))) ∧ (bytes = [] → t_peer_closed q.1 = true)
  | NAnswer Failed | NPhase PPull => t_peer_closed q.1 = false ∧ ∀ more, plain (t_engine t) (t_rbio t ++ more) = plain (t_engine q.1) (t_rbio q.1 ++ more)
  | _ => False
  end.
Proof.
  intros o Hn Hpc ->. set (a := ssl_read (Z.min n INT_MAX) (t_engine t) (t_rbio t)). assert (0 < Z.min n INT_MAX) as Hm by (unfold INT_MAX; lia).
  pose proof (λ more, read_plain _ (t_engine t) (t_rbio t) more Hm) as Hplain. cbn zeta in Hplain. fold a in Hplain.
  pose proof (read_count _ (t_engine t) (t_rbio t) Hm) as Hcount. cbn zeta in Hcount. fold a in Hcount.
  pose proof (read_reason _ (t_engine t) (t_rbio t) Hm) as Hreason. cbn zeta in Hreason. fold a in Hreason.
  pose proof (λ more, read_end _ (t_engine t) (t_rbio t) more Hm) as Hend. cbn zeta in Hend. fold a in Hend.
  set (t1 := tls_tunnel (an_engine a) (drop (an_taken a) (t_rbio t)) (t_wbio t ++ an_out a) t).
  assert (an_rc a ≤ 0 → reason_of o a = an_reason a) as Hro by (intros Hz; unfold o; cbn; by rewrite (proj2 (Z.ltb_ge 0 _) Hz)).
  assert (0 < an_rc a → reason_of o a = SSL_NONE) as Hrp by (intros Hz; unfold o; cbn; by rewrite (proj2 (Z.ltb_lt 0 _) Hz)).
  assert (round o t = if bool_decide (reason_of o a = SSL_ZERO_RETURN)
    then answers (finish (Count 0 []) (tls_flags (t_handshake_done t1) (t_broken t1) (t_closing t1) (t_closed t1) true (t_busy t1) t1))
    else if goes_on (reason_of o a) then flush o (an_rc a) (reason_of o a) (an_bytes a) t1 else answers (fail (failed_text o) t1)) as ->.
  { unfold round. change (call o t) with a. fold t1. unfold o at 1. destruct (reason_of o a) eqn:Hra; rewrite ?Hra; done. }
  case_bool_decide as Hzr.
  { assert (an_rc a ≤ 0) as Hz by (destruct (Z.le_gt_cases (an_rc a) 0); [done|]; rewrite Hrp in Hzr by lia; done).
    cbn. split; [lia|]. split; [|done]. intros more. rewrite Hplain, (proj2 (Z.ltb_ge 0 _) Hz). cbn. apply Hend; [done|]. by rewrite <- Hro. }
  destruct (goes_on (reason_of o a)) eqn:Hgo.
  - assert (an_rc a ≤ 0 → an_reason a = SSL_WANT_READ) as Hw.
    { intros Hz. destruct (Hreason Hz) as [H1 H2]. rewrite Hro in Hgo by done. by destruct (an_reason a). }
    pose proof (flush_lands null n a t1 t1 Hw ltac:(done)) as Hl. fold o in Hl.
    destruct (send_all_lands null n a t1 (S (length (t_wbio (flush o (an_rc a) (reason_of o a) (an_bytes a) t1).1))) _ Hw Hl ltac:(lia)) as [Hq Hns]. fold o in Hq, Hns.
    cbn zeta. set (q := send_all _ _ _) in *. destruct q as [t2 nx]. destruct Hq as [(He & Hb & Hp) Hnx]. cbn [fst snd] in *.
    assert (∀ more, plain (t_engine t) (t_rbio t ++ more) = (if 0 <? an_rc a then an_bytes a else []) ++ plain (t_engine t2) (t_rbio t2 ++ more)) as Htext
      by (intros more; rewrite He, Hb; apply Hplain).
    assert (t_peer_closed t2 = false) as Hpc2 by (by rewrite Hp).
    destruct nx as [out|[| |]]; try done.
    + destruct Hnx as [Hpos ->]. destruct (Hcount Hpos) as [Hc1 Hc2]. rewrite (proj2 (Z.ltb_lt 0 _) Hpos) in Htext. split; [lia|]. rewrite Hpc2. split; [done|].
      intros Hnil. rewrite Hnil in Hc1. cbn in Hc1. lia.
    + destruct Hnx as (Hz & _). rewrite (proj2 (Z.ltb_ge 0 _) Hz) in Htext. by split.
  - assert (an_rc a ≤ 0) as Hz by (destruct (Z.le_gt_cases (an_rc a) 0); [done|]; rewrite Hrp in Hgo by lia; done).
    cbn. split; [done|]. intros more. rewrite Hplain, (proj2 (Z.ltb_ge 0 _) Hz). done.
Qed.

(** *** The whole read *)

Definition read_fine (n : nat) (s : tls E * list str) (r : read_result * (tls E * list str)) : Prop :=
  match r.1 with
  | RdData bs => (length bs ≤ n)%nat ∧ tls_rest s = bs ++ tls_rest r.2 ∧ (n ≠ 0%nat → bs = [] → tls_rest s = [])
  | _ => tls_rest r.2 = tls_rest s
  end.

Lemma read_rounds_text null n cs t :
  0 < n → t_peer_closed t = false →
  let '(t', cs', out) := read_rounds (OpRead null n) cs t in
  match out with
  | Count k bytes => Z.of_nat (length bytes) ≤ n ∧ tls_rest (t, cs) = bytes ++ tls_rest (t', cs') ∧ (bytes = [] → tls_rest (t', cs') = [])
  | _ => tls_rest (t', cs') = tls_rest (t, cs)
  end.
Proof.
  intros Hn. revert t. induction cs as [|c cs IH]; intros t Hpc; cbn [read_rounds]; pose proof (round_text null n t _ Hn Hpc eq_refl) as Hr; cbn zeta in Hr;
    set (q := send_all _ _ _) in *; destruct q as [t2 nx]; cbn [fst snd] in *; unfold tls_rest; rewrite Hpc.
  - destruct nx as [[| |k bytes]|[| |]]; try done.
    + destruct Hr as [-> Hr]. by rewrite Hr.
    + destruct Hr as (Hl & Hr & Hnil). split; [done|]. split; [apply Hr|]. intros H1. by rewrite (Hnil H1).
    + destruct Hr as [Hp Hr]. cbn. rewrite Hp. by rewrite Hr.
  - destruct nx as [[| |k bytes]|[| |]]; try done.
    + destruct Hr as [-> Hr]. by rewrite Hr.
    + destruct Hr as (Hl & Hr & Hnil). split; [done|]. split; [apply Hr|]. intros H1. by rewrite (Hnil H1).
    + destruct Hr as [Hp Hr]. destruct c as [|b c].
      * cbn. rewrite Hp. by rewrite Hr.
      * cbn [pulled snd fst]. set (t3 := tls_tunnel _ _ _ _). assert (t_peer_closed t3 = false) as Hp3 by done. specialize (IH t3 Hp3).
        destruct (read_rounds (OpRead null n) cs t3) as [[t4 cs4] out]. unfold tls_rest in IH. rewrite Hp3 in IH.
        assert (plain (t_engine t) (t_rbio t ++ concat ((b :: c) :: cs)) = plain (t_engine t3) (t_rbio t3 ++ concat cs)) as ->; [|done].
        rewrite Hr. cbn [t3 t_engine t_rbio tls_tunnel concat]. by rewrite <- app_assoc.
Qed.

Lemma begin_read_text n t :
  match begin (OpRead false (Z.of_nat n)) t with
  | (t', Goes) => same_text t t' ∧ t_peer_closed t' = false ∧ n ≠ 0%nat
  | (t', Answered (Count _ bytes)) => same_text t t' ∧ bytes = [] ∧ (n = 0%nat ∨ t_peer_closed t' = true)
  | (t', _) => same_text t t'
  end.
Proof.
  unfold begin, begin_read, refused, op_enter, finish, fail. destruct (negb (t_handshake_done t) || t_broken t || t_closing t); [done|]. destruct (t_busy t); [done|].
  cbn [t_peer_closed tls_flags]. destruct (Z.eqb_spec (Z.of_nat n) 0); cbn [orb]; [split; [done|]; split; [done|]; left; lia|].
  destruct (t_peer_closed t) eqn:Hp; [split; [done|]; split; [done|]; by right|]. split; [done|]. split; [done|]. lia.
Qed.
Lemma same_rest t t' cs : same_text t t' → tls_rest (t', cs) = tls_rest (t, cs).
Proof. intros (He & Hb & Hp). unfold tls_rest. by rewrite He, Hb, Hp. Qed.

Lemma tls_read_fine n s : read_fine n s (tls_read n s).
Proof.
  destruct s as [t cs]. unfold tls_read. pose proof (begin_read_text n t) as Hb. destruct (begin _ t) as [t1 [|[| |k bytes]|]] eqn:Hbg; try (by apply same_rest).
  - destruct Hb as (Hs & -> & Hc). unfold read_fine. cbn [fst snd length]. rewrite (same_rest t t1 cs Hs). split; [lia|]. split; [done|]. intros Hn _. destruct Hc as [?|Hp]; [lia|].
    rewrite <- (same_rest t t1 cs Hs). unfold tls_rest. by rewrite Hp.
  - destruct Hb as (Hs & Hp & Hn). pose proof (read_rounds_text false (Z.of_nat n) cs t1 ltac:(lia) Hp) as Hr. destruct (read_rounds _ _ _) as [[t2 cs2] out].
    unfold read_fine. rewrite (same_rest t t1 cs Hs) in Hr. destruct out as [| |k bytes]; cbn [fst snd] in *; [exact Hr|exact Hr|].
    destruct Hr as (Hl & Hr & Hnil). split; [lia|]. split; [done|]. intros _ ->. rewrite Hr. cbn. by apply Hnil.
Qed.


#[export] Instance tls_source_laws : SourceLaws (tls E * list str).
Proof.
  split.
  - intros n s bs s' Hr. pose proof (tls_read_fine n s) as H1. cbn in Hr. by rewrite Hr in H1.
  - intros n s s' Hr. pose proof (tls_read_fine n s) as H1. cbn in Hr. by rewrite Hr in H1.
  - intros n s e s' Hr. pose proof (tls_read_fine n s) as H1. cbn in Hr. by rewrite Hr in H1.
Qed.

(** So a buffered reader over TLS gives out the text of the session: what [read_exactly] returns is what
    comes next of it. *)
Lemma tls_read_exactly n (r : reader) (s : tls E * list str) :
  reader_ok r s → ∃ o got r' s', read_exactly n r s = Some (o, got, r', s') ∧ pending r s = got ++ pending r' s' ∧
    match o with Ok _ => length got = n | Throw _ => (length got < n)%nat end.
Proof.
  intros Hr. destruct (read_exactly_spec n r s Hr) as (o & got & r' & s' & He & _ & Hp & Ho). exists o, got, r', s'. split; [done|]. split; [done|].
  destruct o; [done|]. by destruct Ho.
Qed.
End source.

(** ** An engine that decrypts *)

Fixpoint until_mark (inp : str) : str :=
  match inp with [] => [] | c :: inp => if decide (c = "!"%char) then [] else c :: until_mark inp end.
Lemma until_mark_app c inp more : c ≠ "!"%char → until_mark ((c :: inp) ++ more) = c :: until_mark (inp ++ more).
Proof. intros Hc. cbn. by rewrite decide_False. Qed.
(** The engine of the examples of [TlsM]. *)
#[export] Instance toy_decrypts : Decrypts toy_tls.
Proof.
  refine {| plain := λ _, until_mark |}.
  - intros n e inp more Hn. cbn. destruct inp as [|c inp]; [done|]. destruct (decide (c = "!"%char)) as [->|Hc]; cbn; [done|]. by rewrite decide_False.
  - intros n e inp Hn. cbn. destruct inp as [|c inp]; [done|]. destruct (decide (c = "!"%char)); cbn; [done|]. lia.
  - intros n e inp Hn. cbn. destruct inp as [|c inp]; [done|]. destruct (decide (c = "!"%char)); done.
  - intros n e inp more Hn. cbn. destruct inp as [|c inp]; [done|]. destruct (decide (c = "!"%char)) as [->|]; done.
Defined.

(** Ten bytes are asked for, and come one by one. *)
Definition toy_session : tls toy_tls * list str := (y_tls (session_to shake), [["a"; "b"]; ["!"; "c"]]%char).
Lemma toy_reads :
  tls_rest toy_session = ["a"; "b"]%char ∧ (tls_read 10 toy_session).1 = RdData ["a"%char] ∧
  (tls_read 10 (tls_read 10 toy_session).2).1 = RdData ["b"%char] ∧ (tls_read 10 (tls_read 10 (tls_read 10 toy_session).2).2).1 = RdData [].
Proof. vm_compute. done. Qed.
