(* ===== verification/ScheduleM.v ===== *)
(** * ScheduleM: [call_soon], [call_later] and [call_at]

    [src/include/coro/schedule.hpp]: the coroutine [schedule_impl] with its two suspensions, the
    sleep and the callback that is itself a coroutine, wrapped the way every await is (file
    [AwaitM]); the three functions that start it and give its frame away (file [TaskM]).

    A callback is the code it runs: a plain one is a function on the world, one that returns
    [Task<void>] answers the awaiter that [co_await] is applied to, with the destructor of the task.  A callback that returns another
    task is refused by the compiler and has no constructor. *)

From S2P Require Import Prelude ReadyQueue Timers Frames EventLoop Runtime TaskM AwaitM WaitForM.
From stdpp Require Import options.
#[local] Set Default Proof Using "Type*".

Section schedule.
Context {W : Type} `{Runtime W} `{FrameRuntime W}.
Variable io_cancel : nat → W → W.
Implicit Types (w : W) (h my : handle) (p : promise unit) (s : tworld unit W).

(** ** The coroutine *)

Inductive callback : Type :=
  | Plain (call : W → res unit * W)
  | Coroutine (call : W → res (awaiter W unit * (W → W)) * W).

(** [sleep_awaiter], with the location of the token it makes; no hook of its own. *)
Definition sleep_awaiter (tok : loc) (deadline : Z) : awaiter W unit := {|
  aw_self := 0;
  aw_has_cancel_op := false;
  aw_has_on_cancel := false;
  aw_waiter_destroyed := None;
  aw_ready w := (false, w);
  aw_suspend h w := (SVoid, sleep_await_suspend tok h deadline w);
  aw_resume w := (Ok tt, sleep_consume (Some tok) w);
|}.

(** Where the body is; how often it has called the callback is a record of ours. *)
Inductive schedule_pc : Type :=
  | ScInitial
  | ScSleeping (my : handle)
  | ScAwaiting (a : awaiter W unit) (drop : W → W) (my : handle)
  | ScEnded (o : res unit).

Record schedule_state : Type := mkSchedule {
  sc_pc : schedule_pc;
  sc_calls : nat;
}.
Implicit Types (c : schedule_state).

(** [co_await func()] after some of its calls; the task is destroyed at the end. *)
Definition await_over (a : awaiter W unit) (drop : W → W) (n : nat) (r : awaiting unit * promise unit * W) :
    schedule_state * promise unit * W :=
  match r with
  | (Suspended my, p, w) => (mkSchedule (ScAwaiting a drop my) n, p, w)
  | (Ended o, p, w) => (mkSchedule (ScEnded o) n, p, drop w)
  end.

(** [func()], awaited when it is a coroutine. *)
Definition run_callback (cb : callback) h c p w : schedule_state * promise unit * W :=
  let n := S (sc_calls c) in
  match cb with
  | Plain f => let '(o, w) := f w in (mkSchedule (ScEnded o) n, p, w)
  | Coroutine f =>
      match f w with
      | (Throw e, w) => (mkSchedule (ScEnded (Throw e)) n, p, w)
      | (Ok (a, drop), w) => await_over a drop n (co_begin a h p w)
      end
  end.

(** [co_await sleep_awaiter] after some of its calls: at the end its temporary is destroyed, which
    sets the token if [await_suspend] has made one, and the body goes on. *)
Definition sleep_over (cb : callback) (tok : option loc) h c (r : awaiting unit * promise unit * W) :
    schedule_state * promise unit * W :=
  let '(r, p, w) := r in
  match r with
  | Suspended my => (mkSchedule (ScSleeping my) (sc_calls c), p, w)
  | Ended (Throw e) => (mkSchedule (ScEnded (Throw e)) (sc_calls c), p, sleep_consume tok w)
  | Ended (Ok _) => run_callback cb h c p (sleep_consume tok w)
  end.

(** A resumption of the frame [h], up to its next suspension or the end of the body. *)
Definition schedule_impl (cb : callback) (immediate : bool) (tok : loc) (deadline : Z) h c p w :
    schedule_state * promise unit * W :=
  let a := sleep_awaiter tok deadline in
  match sc_pc c with
  | ScInitial =>
      if immediate then run_callback cb h c p w else sleep_over cb None h c (co_begin a h p w)
  | ScSleeping my => sleep_over cb (Some tok) h c (co_resumed a my p w)
  | ScAwaiting b drop my => await_over b drop (sc_calls c) (co_resumed b my p w)
  | ScEnded _ => (c, p, w)
  end.

(** The same in the frames: the loop resumes [h], and a body that ends takes its frame along. *)
Definition schedule_resumed (cb : callback) (immediate : bool) (tok : loc) (deadline : Z) h (cs : schedule_state * tworld unit W) :
    option (schedule_state * tworld unit W) :=
  let '(c, s) := cs in
  p ← tw_frames s !! h;
  let '(c, p, w) := schedule_impl cb immediate tok deadline h c p (tw_w s) in
  let s := tw_set_w w (tw_set_frame h p s) in
  match sc_pc c with
  | ScEnded o => s ← body_ends true (λ x, Ok x) (λ x, x) h o s; Some (c, s)
  | _ => Some (c, s)
  end.

(** ** The three functions

    [t] is the local variable, [h] the new frame. *)

Definition schedule_start (t : nat) h s : option (schedule_state * tworld unit W) :=
  s ← task_start t (task_new t h s);
  s ← task_detach t s;
  s ← task_destroyed io_cancel t s;
  Some (mkSchedule ScInitial 0, s).

Definition call_soon (t : nat) h s : option (bool * Z * (schedule_state * tworld unit W)) :=
  cs ← schedule_start t h s; Some (true, 0%Z, cs).
Definition call_later (t : nat) h (delay : Z) s : option (bool * Z * (schedule_state * tworld unit W)) :=
  cs ← schedule_start t h s; Some (false, sleep_deadline delay (tw_w s), cs).
Definition call_at (t : nat) h (deadline : Z) s : option (bool * Z * (schedule_state * tworld unit W)) :=
  cs ← schedule_start t h s; Some (false, deadline, cs).

(** ** Giving the frame away *)

Definition fresh_promise : promise unit := mkPromise None None null_handle 0 None false false false 0 None None.

(** The function returns with its [Task] gone and the frame, whose owner is nobody, queued on the
    loop of the caller; nothing of the callback has run. *)
Lemma schedule_start_spec t h s :
  tw_tasks s !! t = None → h ≠ null_handle →
  let l := rt_loop (tw_w s) in
  schedule_start t h s =
    Some (mkSchedule ScInitial 0,
          mkTW (tw_tasks s) (<[h := fresh_promise]> (tw_frames s)) (tw_reports s)
            (rt_schedule l h (fr_started l h (tw_w s)))).
Proof.
  intros Ht Hh l. unfold schedule_start, task_start, task_new. simpl. rewrite lookup_insert_eq. simpl.
  rewrite decide_True, lookup_insert_eq by done. simpl. unfold task_detach. simpl. rewrite lookup_insert_eq. simpl.
  rewrite decide_False, lookup_insert_eq by done. simpl. unfold task_destroyed. simpl. rewrite lookup_insert_eq. simpl.
  unfold tw_del_task, launch, tw_set_task, tw_set_frame, tw_set_w, loop_of. simpl.
  by rewrite !insert_insert_eq, delete_insert_id.
Qed.

(** ** What a turn does *)

(** Nobody owns the frame, so nobody can cancel it, and no result is stored in it. *)
Definition detached p : Prop :=
  pr_task p = None ∧ pr_cancelled p = false ∧ pr_result p = None ∧ pr_exception p = None ∧ pr_continuation p = null_handle.

Lemma co_resumed_detached (a : awaiter W unit) my p w : detached p → detached (co_resumed a my p w).1.2.
Proof.
  intros Hp. unfold co_resumed, ca_await_resume. destruct Hp as (Ht & Hc & Hr & He & Hk). simpl. rewrite Hc.
  by destruct (aw_resume a w).
Qed.

Lemma co_begin_detached (a : awaiter W unit) h p w : detached p → detached (co_begin a h p w).1.2.
Proof.
  intros Hp. pose proof Hp as (Ht & Hc & Hr & He & Hk). unfold co_begin, ca_await_ready, ca_await_suspend. rewrite Hc.
  destruct (aw_ready a w) as [[] w1]; [by apply co_resumed_detached|].
  destruct (aw_suspend a h w1) as [[|[]|h'|e] w2]; try done; [by apply co_resumed_detached|].
  destruct (decide (h' = null_handle)) as [->|Hne]; simpl; [by apply co_resumed_detached|by rewrite decide_False].
Qed.

(** The first turn of a delayed call registers the timer and does no more. *)
Lemma schedule_impl_initial cb tok deadline h n p w :
  pr_cancelled p = false →
  schedule_impl cb false tok deadline h (mkSchedule ScInitial n) p w =
    (mkSchedule (ScSleeping h) n, ca_register (sleep_awaiter tok deadline) p, sleep_await_suspend tok h deadline w).
Proof. intros Hc. unfold schedule_impl, co_begin, ca_await_ready. simpl. by rewrite Hc. Qed.

(** The turn after the sleep calls the callback, with the token set. *)
Lemma schedule_impl_slept cb im tok deadline h my n p w :
  pr_cancelled p = false →
  schedule_impl cb im tok deadline h (mkSchedule (ScSleeping my) n) p w =
    run_callback cb h (mkSchedule (ScSleeping my) n) (pr_set_wait false false (pr_cancel_hook p) None p)
      (sleep_consume (Some tok) (sleep_consume (Some tok) w)).
Proof.
  intros Hc. unfold schedule_impl, co_resumed, ca_await_resume. simpl. by rewrite Hc.
Qed.

(** A plain callback is reached in one turn, or in two with a sleep between them, and its end is the
    end of the body. *)
Lemma schedule_plain (f : W → res unit * W) im tok deadline h p w w2 :
  pr_cancelled p = false →
  let turn := schedule_impl (Plain f) im tok deadline h in
  let r1 := turn (mkSchedule ScInitial 0) p w in
  if im then r1 = (mkSchedule (ScEnded (f w).1) 1, p, (f w).2)
  else
    let r2 := turn r1.1.1 r1.1.2 w2 in
    let w3 := sleep_consume (Some tok) (sleep_consume (Some tok) w2) in
    r2.1.1 = mkSchedule (ScEnded (f w3).1) 1 ∧ r2.2 = (f w3).2.
Proof.
  intros Hc. cbv zeta. destruct im.
  - unfold schedule_impl. simpl. by destruct (f w).
  - rewrite schedule_impl_initial by done. cbn [fst snd]. rewrite schedule_impl_slept by done. unfold run_callback.
    destruct (f (sleep_consume (Some tok) (sleep_consume (Some tok) w2))) as [o w3]. done.
Qed.

(** How often the callback has been called by then. *)
Definition calls_at (pc : schedule_pc) : nat := match pc with ScInitial | ScSleeping _ => 0 | _ => 1 end.

Lemma await_over_spec a drop n r :
  detached r.1.2 → detached (await_over a drop n r).1.2 ∧ sc_calls (await_over a drop n r).1.1 = n ∧
  calls_at (sc_pc (await_over a drop n r).1.1) = 1.
Proof. by destruct r as [[[|] p] w]. Qed.

Lemma run_callback_spec cb h c p w :
  detached p → sc_calls c = 0 →
  let r := run_callback cb h c p w in
  detached r.1.2 ∧ sc_calls r.1.1 = 1 ∧ calls_at (sc_pc r.1.1) = 1.
Proof.
  intros Hp Hc. unfold run_callback. rewrite Hc. destruct cb as [f|f]; destruct (f w) as [[x|e] w1]; try done.
  destruct x as [a drop]. by apply await_over_spec, co_begin_detached.
Qed.

Lemma schedule_impl_spec cb im tok deadline h c p w :
  detached p → sc_calls c = calls_at (sc_pc c) →
  let r := schedule_impl cb im tok deadline h c p w in
  detached r.1.2 ∧ sc_calls r.1.1 = calls_at (sc_pc r.1.1).
Proof.
  intros Hp Hc. pose proof Hp as (_ & Hcan & _). destruct c as [[|my|a drop my|o] n]; simpl in Hc; subst n.
  - destruct im; [destruct (run_callback_spec cb h (mkSchedule ScInitial 0) p w Hp eq_refl) as (? & Hx & Hy); by rewrite <- Hy in Hx|].
    by rewrite schedule_impl_initial.
  - rewrite schedule_impl_slept by done.
    destruct (run_callback_spec cb h (mkSchedule (ScSleeping my) 0) (pr_set_wait false false (pr_cancel_hook p) None p)
      (sleep_consume (Some tok) (sleep_consume (Some tok) w)) Hp eq_refl) as (? & Hx & Hy). by rewrite <- Hy in Hx.
  - cbn [schedule_impl sc_pc sc_calls calls_at].
    destruct (await_over_spec a drop 1 _ (co_resumed_detached a my p w Hp)) as (? & Hx & Hy). split; [done|congruence].
  - done.
Qed.

(** The end of a body that nobody owns: its exception is reported and its frame is gone. *)
Lemma detached_ends h o p s :
  tw_frames s !! h = Some p → detached p →
  body_ends true (λ x, Ok x) (λ x, x) h o s =
    Some (mkTW (tw_tasks s) (delete h (tw_frames s))
            (tw_reports s ++ match o with Throw e => [e] | Ok _ => [] end) (fr_finished (loop_of p (tw_w s)) h (tw_w s))).
Proof.
  intros Hp (Ht & Hc & Hr & He & Hk). destruct o as [[]|e]; simpl; unfold body_returns, body_throws; rewrite Hp; simpl;
    unfold final_suspend, store_result, release_handle; simpl; rewrite lookup_insert_eq; simpl; rewrite Ht, ?He; simpl;
    rewrite lookup_insert_eq; simpl; rewrite ?Ht, ?Hk; simpl; unfold destroy_frame; simpl; rewrite lookup_insert_eq; simpl;
    by rewrite ?delete_insert_eq, ?app_nil_r.
Qed.

(** ** A scheduled call among everything else *)

Section history.
Variables (cb : callback) (immediate : bool) (tok : loc) (deadline : Z) (h : handle).

(** The loop resumes the frame, or anything else happens that leaves the frame alone. *)
Inductive schedule_step : schedule_state * tworld unit W → schedule_state * tworld unit W → Prop :=
  | SsTurn cs cs' : schedule_resumed cb immediate tok deadline h cs = Some cs' → schedule_step cs cs'
  | SsOther c s s' : tw_frames s' !! h = tw_frames s !! h → schedule_step (c, s) (c, s').

Record schedule_ok (cs : schedule_state * tworld unit W) : Prop := {
  sk_frame : match sc_pc cs.1 with
    | ScEnded _ => tw_frames cs.2 !! h = None
    | _ => ∃ p, tw_frames cs.2 !! h = Some p ∧ detached p
    end;
  sk_calls : sc_calls cs.1 = calls_at (sc_pc cs.1);
}.

Lemma schedule_turn_ok c s p :
  schedule_ok (c, s) → tw_frames s !! h = Some p →
  ∃ c' s', schedule_resumed cb immediate tok deadline h (c, s) = Some (c', s') ∧ schedule_ok (c', s') ∧
    tw_tasks s' = tw_tasks s ∧ (∀ h', h' ≠ h → tw_frames s' !! h' = tw_frames s !! h') ∧
    tw_reports s' = tw_reports s ++ match sc_pc c' with ScEnded (Throw e) => [e] | _ => [] end.
Proof.
  intros [Hf Hc] Hp. simpl in *. assert (detached p) as Hd.
  { destruct (sc_pc c); [destruct Hf as (p' & Hp' & ?)..|]; congruence. }
  unfold schedule_resumed. rewrite Hp. simpl.
  destruct (schedule_impl_spec cb immediate tok deadline h c p (tw_w s) Hd Hc) as [Hd' Hc'].
  destruct (schedule_impl cb immediate tok deadline h c p (tw_w s)) as [[c' p'] w']. simpl in Hd', Hc'.
  assert (∀ h', h' ≠ h → <[h := p']> (tw_frames s) !! h' = tw_frames s !! h') as Hne by (intros; by rewrite lookup_insert_ne).
  destruct (sc_pc c') eqn:Hpc.
  1-3: eexists c', _; split; [done|]; split; [|by rewrite Hpc, app_nil_r];
    split; simpl; rewrite ?Hpc; [exists p'; by rewrite lookup_insert_eq|done].
  rewrite (detached_ends h _ p') by (simpl; by rewrite ?lookup_insert_eq). simpl.
  eexists c', _. split; [done|]. rewrite Hpc. split.
  - split; simpl; rewrite Hpc; [by rewrite lookup_delete_eq|done].
  - split; [done|]. split; [|by destruct o]. intros h' Hh'. simpl. rewrite lookup_delete_ne by done. auto.
Qed.

Lemma schedule_step_ok cs cs' : schedule_step cs cs' → schedule_ok cs → schedule_ok cs'.
Proof.
  intros Hs Hok. destruct Hs as [[c s] [c' s'] Hr|c s s' Hf].
  - destruct (tw_frames s !! h) as [p|] eqn:Hp; [|unfold schedule_resumed in Hr; by rewrite Hp in Hr].
    destruct (schedule_turn_ok c s p Hok Hp) as (c1 & s1 & Hr1 & Hok1 & _). by simplify_eq.
  - destruct Hok as [Hx Hc]. split; simpl in *; [by rewrite Hf|done].
Qed.

(** However turns of the loop and other steps are ordered, the callback of a scheduled call is called
    at most once, and has been called exactly when the body is past its sleep; the frame exists until
    the body ends and not after; while it exists the loop can resume it; and only the end of the body
    reports an exception, each once. *)
Theorem schedule_once t s c s' cs0 :
  tw_tasks s !! t = None → h ≠ null_handle → schedule_start t h s = Some cs0 →
  rtc schedule_step cs0 (c, s') →
  sc_calls c = calls_at (sc_pc c) ∧
  (is_Some (tw_frames s' !! h) ↔ ∀ o, sc_pc c ≠ ScEnded o) ∧
  (is_Some (tw_frames s' !! h) → ∃ c2 s2, schedule_resumed cb immediate tok deadline h (c, s') = Some (c2, s2) ∧
     tw_reports s2 = tw_reports s' ++ match sc_pc c2 with ScEnded (Throw e) => [e] | _ => [] end).
Proof.
  intros Ht Hh Hs Hr. rewrite schedule_start_spec in Hs by done. injection Hs as <-.
  assert (schedule_ok (c, s')) as Hok.
  { match type of Hr with rtc _ ?x _ => assert (schedule_ok x) as Hinit end.
    { split; [|done]. exists fresh_promise. by simpl; rewrite lookup_insert_eq. }
    revert Hinit Hr. generalize (c, s'). match goal with |- ∀ _, schedule_ok ?x → _ => generalize x end.
    intros x y Hinit Hr. induction Hr; eauto using schedule_step_ok. }
  pose proof Hok as [Hf Hc]. simpl in Hf, Hc. split; [done|]. split.
  - destruct (sc_pc c); (split; [|intros Hx]); try (by intros _ ?); try (by destruct Hf as (p & -> & _)).
    + rewrite Hf. by intros [].
    + exfalso. by eapply Hx.
  - intros [p Hp]. destruct (schedule_turn_ok c s' p Hok Hp) as (c2 & s2 & Hr2 & _ & _ & _ & Hrep). by exists c2, s2.
Qed.
End history.
End schedule.

(** ** On the clock *)

(** The turn that starts a delayed call leaves an entry in the heap of its loop, which the first drain
    at or after the deadline takes and none before; the callback has not been called. *)
Theorem delayed_on_time `{MinSelect} (cb : callback) tok deadline h n p (w : world) g now c' t' ex :
  h ≠ null_handle → pr_cancelled p = false → ft_generation_of h (el_frames (w_loops w (w_cur w))) = Some g →
  let r := schedule_impl cb false tok deadline h (mkSchedule ScInitial n) p w in
  sc_calls r.1.1 = n ∧ sc_pc r.1.1 = ScSleeping h ∧
  (th_drain now (w_cells r.2) (el_timers (w_loops r.2 (w_cur r.2))) [] = (c', t', ex) →
     if decide (deadline ≤ now)%Z then mkReadyEntry h g ∈ ex
     else sleep_entry tok (mkReadyEntry h g) deadline ∈ th_heap t').
Proof.
  intros Hh Hp Hg. rewrite schedule_impl_initial by done. cbv zeta. split; [done|]. split; [done|].
  destruct (sleep_fires tok h deadline w g now c' t' ex Hh Hg) as (_ & Hd & _). exact Hd.
Qed.

(** ** Examples *)

(** A call in 10, made at the time 5 by coroutine 9, whose callback counts in cell 7 and throws. *)
Definition schedule_demo_callback : callback (W := world) :=
  Plain (λ w, (Throw (UserError 3), rt_set_cells (int_store 7 (int_load (rt_cells w) 7 + 1) (rt_cells w)) w)).
Definition schedule_demo_start : option (bool * Z * (schedule_state * tworld unit world)) :=
  call_later (λ _ w, w) 1 20 10 (mkTW ∅ ∅ [] sleep_world).
Definition schedule_demo_turn (cs : schedule_state * tworld unit world) : option (schedule_state * tworld unit world) :=
  schedule_resumed schedule_demo_callback false 4 15 20 cs.

Example schedule_demo_runs :
  (r ← schedule_demo_start; cs ← schedule_demo_turn r.2; cs2 ← schedule_demo_turn cs;
   Some (r.1, sc_calls cs.1, int_load (w_cells (tw_w cs.2)) 7, sc_calls cs2.1, int_load (w_cells (tw_w cs2.2)) 7,
         tw_reports cs2.2, bool_decide (tw_frames cs2.2 !! 20 = None)))
  = Some ((false, 15%Z), 0, 0%Z, 1, 1%Z, [UserError 3], true).
Proof. vm_compute. reflexivity. Qed.

Lemma schedule_once_witness :
  ∃ c s, (r ← schedule_demo_start; schedule_demo_turn r.2) = Some (c, s) ∧ sc_calls c = 0 ∧ is_Some (tw_frames s !! 20).
Proof.
  destruct (r ← schedule_demo_start; schedule_demo_turn r.2) as [[c s]|] eqn:Hr; [|by vm_compute in Hr].
  exists c, s. split; [done|]. unfold schedule_demo_start, call_later, option_bind, mbind in Hr.
  destruct (schedule_start (λ _ w, w) 1 20 (mkTW ∅ ∅ [] sleep_world)) as [cs0|] eqn:Hs; [|by vm_compute in Hs]. simpl in Hr.
  assert (sc_pc c = ScSleeping 20) as Hpc by (vm_compute in Hs; injection Hs as <-; vm_compute in Hr; by injection Hr as <- _).
  destruct (schedule_once (λ _ w, w) schedule_demo_callback false 4 15 20 1 (mkTW ∅ ∅ [] sleep_world) c s cs0
    (lookup_empty 1) ltac:(discriminate) Hs) as (Hc & Hf & _);
    [by apply rtc_once, SsTurn|].
  rewrite Hpc in *. split; [exact Hc|]. by apply Hf.
Defined.

Lemma delayed_on_time_witness :
  ∃ c' t' ex, let r := schedule_impl schedule_demo_callback false 4 15 9 (mkSchedule ScInitial 0) fresh_promise sleep_world in
    th_drain 15 (w_cells r.2) (el_timers (w_loops r.2 1)) [] = (c', t', ex) ∧ mkReadyEntry 9 1 ∈ ex.
Proof.
  cbv zeta. set (r := schedule_impl schedule_demo_callback false 4 15 9 (mkSchedule ScInitial 0) fresh_promise sleep_world).
  destruct (th_drain 15 (w_cells r.2) (el_timers (w_loops r.2 1)) []) as [[c' t'] ex] eqn:Hd. exists c', t', ex. split; [done|].
  destruct (delayed_on_time schedule_demo_callback 4 15 9 0 fresh_promise sleep_world 1 15 c' t' ex) as (_ & _ & Hx);
    [discriminate|reflexivity..|]. exact (Hx Hd).
Defined.
