(* ===== verification/ExceptionsM.v ===== *)
(** * ExceptionsM: the exceptions of the library, what catches them and what they say

    [src/include/coro/exceptions.hpp]: the classes with their bases, the data and the text of each
    exception; [HttpError] of [src/include/coro/http.hpp] and [TlsError] of [src/include/coro/tls.hpp],
    which have a root of their own; the handler of exceptions that nobody waits for, of
    [src/include/coro/task.hpp].

    The other files answer an [exn] of the prelude; [exn_class] says which class each of its
    constructors is. *)

From S2P Require Import Prelude RegistryM ServiceM UnixM HttpMsg.
From Stdlib Require Import Ascii.
From stdpp Require Import options.

(** ** Classes *)

(** The classes of the standard library that these derive from, and those of the library; a class of
    the program that derives from [std::exception] or from nothing. *)
Inductive exn_cls : Type :=
  | ClsException | ClsRuntimeError | ClsLogicError | ClsInvalidArgument | ClsSystemError
  | ClsError
  | ClsDnsResolution | ClsCancelled | ClsTimeout | ClsClosedChannel | ClsBrokenPromise | ClsStructuredConcurrency
  | ClsIncompleteStream | ClsStreamOverflow | ClsQueueShutDown | ClsOverload | ClsExceptionGroup
  | ClsHttp | ClsTls
  | ClsUser (standard : bool).

#[export] Instance exn_cls_eq_dec : EqDecision exn_cls.
Proof. solve_decision. Defined.

(** The base that a class names. *)
Definition cls_base (c : exn_cls) : option exn_cls :=
  match c with
  | ClsException => None
  | ClsRuntimeError | ClsLogicError => Some ClsException
  | ClsInvalidArgument => Some ClsLogicError
  | ClsSystemError | ClsError | ClsHttp | ClsTls => Some ClsRuntimeError
  | ClsUser standard => if standard then Some ClsException else None
  | _ => Some ClsError
  end.

(** A class and its bases; no class has more than three. *)
Fixpoint cls_ancestors (fuel : nat) (c : exn_cls) : list exn_cls :=
  c :: match fuel, cls_base c with S fuel, Some b => cls_ancestors fuel b | _, _ => [] end.

(** [catch (const handler&)] takes an exception of the class [c]. *)
Definition catches (handler c : exn_cls) : bool := bool_decide (handler ∈ cls_ancestors 3 c).

(** A clause: a class, or [catch (...)]. *)
Definition clause_takes (clause : option exn_cls) (c : exn_cls) : bool :=
  match clause with Some handler => catches handler c | None => true end.

(** The clauses of a [try] are tried in order: the index of the one that takes the exception. *)
Fixpoint first_clause (clauses : list (option exn_cls)) (c : exn_cls) : option nat :=
  match clauses with
  | [] => None
  | clause :: clauses => if clause_takes clause c then Some 0 else S <$> first_clause clauses c
  end.

(** ** Exceptions with their data *)

(** [X] is [std::exception_ptr]. *)
Inductive library_exn (X : Type) : Type :=
  | LxError (message : str)
  | LxDnsResolution (host : str) (code : Z) (detail : str)
  | LxCancelled
  | LxTimeout
  | LxClosedChannel (message : str)
  | LxBrokenPromise
  | LxStructuredConcurrency (message : str)
  | LxIncompleteStream (wanted got : nat)
  | LxStreamOverflow (limit : nat)
  | LxQueueShutDown
  | LxOverload (message : str)
  | LxExceptionGroup (members : list X).
Arguments LxError {X}. Arguments LxDnsResolution {X}. Arguments LxCancelled {X}. Arguments LxTimeout {X}.
Arguments LxClosedChannel {X}. Arguments LxBrokenPromise {X}. Arguments LxStructuredConcurrency {X}.
Arguments LxIncompleteStream {X}. Arguments LxStreamOverflow {X}. Arguments LxQueueShutDown {X}.
Arguments LxOverload {X}. Arguments LxExceptionGroup {X}.

Section exceptions.
Context {X : Type}.
Implicit Types (x : library_exn X).

Definition library_class x : exn_cls :=
  match x with
  | LxError _ => ClsError
  | LxDnsResolution _ _ _ => ClsDnsResolution
  | LxCancelled => ClsCancelled
  | LxTimeout => ClsTimeout
  | LxClosedChannel _ => ClsClosedChannel
  | LxBrokenPromise => ClsBrokenPromise
  | LxStructuredConcurrency _ => ClsStructuredConcurrency
  | LxIncompleteStream _ _ => ClsIncompleteStream
  | LxStreamOverflow _ => ClsStreamOverflow
  | LxQueueShutDown => ClsQueueShutDown
  | LxOverload _ => ClsOverload
  | LxExceptionGroup _ => ClsExceptionGroup
  end.

(** The character that delimits a host name in the text. *)
Definition chr_quote : ascii := ascii_of_nat 34.

(** The argument of the constructor of [std::runtime_error]. *)
Definition what x : str :=
  match x with
  | LxError m | LxClosedChannel m | LxStructuredConcurrency m | LxOverload m => m
  | LxDnsResolution host _ detail =>
      lit "resolve " ++ [chr_quote] ++ host ++ [chr_quote] ++ lit " failed: " ++ detail
  | LxCancelled => lit "coroutine cancelled"
  | LxTimeout => lit "operation timed out"
  | LxBrokenPromise => lit "promise destroyed before completion"
  | LxIncompleteStream wanted got =>
      lit "stream ended after " ++ to_string got ++ lit " of " ++ to_string wanted ++ lit " byte(s)"
  | LxStreamOverflow limit => lit "delimiter not found within " ++ to_string limit ++ lit " buffered bytes"
  | LxQueueShutDown => lit "queue has been shut down"
  | LxExceptionGroup members => to_string (length members) ++ lit " exception(s) in group"
  end.

(** [ExceptionGroup::exceptions]. *)
Definition group_exceptions x : list X := match x with LxExceptionGroup members => members | _ => [] end.
End exceptions.

(** ** The handler of exceptions that nobody waits for *)

(** What [detached_exception_handler] writes to [stderr] of an exception with this class and text,
    which it hands over as a C string; [None] is nothing. *)
Definition detached_report (c : exn_cls) (text : str) : option str :=
  match first_clause [Some ClsCancelled; Some ClsException; None] c with
  | Some 0 => None
  | Some 1 => Some (lit "[coro] detached task exception: " ++ until_nul text ++ [chr_LF])
  | _ => Some (lit "[coro] detached task exception: unknown" ++ [chr_LF])
  end.

(** ** The exceptions of the other files *)

(** The exceptions of the program are classes of its own. *)
Definition exn_class (user : Z → bool) (e : exn) : exn_cls :=
  match e with
  | LogicError => ClsLogicError
  | InvalidArgument => ClsInvalidArgument
  | RuntimeError => ClsRuntimeError
  | SystemError => ClsSystemError
  | CancelledError => ClsCancelled
  | TimeoutError => ClsTimeout
  | ClosedChannelError => ClsClosedChannel
  | BrokenPromiseError => ClsBrokenPromise
  | StructuredConcurrencyError => ClsStructuredConcurrency
  | IncompleteStreamError _ _ => ClsIncompleteStream
  | StreamOverflowError _ => ClsStreamOverflow
  | QueueShutDown => ClsQueueShutDown
  | OverloadError => ClsOverload
  | HttpError => ClsHttp
  | UserError code => ClsUser (user code)
  end.

(** ** Who catches what *)

(** [coro::Error], and so [std::runtime_error], takes every exception of the header, and none of the
    other clauses takes one of another class. *)
Theorem library_hierarchy {X} (x y : library_exn X) :
  catches ClsError (library_class x) = true ∧ catches ClsRuntimeError (library_class x) = true ∧
  catches ClsException (library_class x) = true ∧
  (catches (library_class x) (library_class y) = true →
     library_class x = library_class y ∨ library_class x = ClsError).
Proof. destruct x, y; vm_compute; repeat split; intros; auto; discriminate. Qed.

(** The other two roots: a clause for [coro::Error] lets the errors of HTTP and TLS pass, one for
    [std::runtime_error] takes them. *)
Lemma other_roots :
  catches ClsError ClsHttp = false ∧ catches ClsError ClsTls = false ∧
  catches ClsRuntimeError ClsHttp = true ∧ catches ClsRuntimeError ClsTls = true.
Proof. done. Qed.

(** Nothing passes a last clause [catch (...)]. *)
Lemma catch_all_takes clauses c : is_Some (first_clause (clauses ++ [None]) c).
Proof.
  induction clauses as [|clause clauses IH]; simpl; [by eexists|]. case_match; [by eexists|]. by apply fmap_is_Some.
Qed.

(** A detached task is silent exactly when it ends with a cancellation. *)
Lemma detached_report_spec c text :
  detached_report c text = None ↔ c = ClsCancelled.
Proof. destruct c as [| | | | | | | | | | | | | | | | | | |[]]; vm_compute; split; intros; congruence. Qed.

(** The clauses of [connection_handler] and [datagram_handler] are those of the model of the servers:
    an error is reported unless the first clause, for a cancellation, takes the exception. *)
Lemma handler_clauses user e x s :
  sv_errors (handler_ends e (Throw x) s) =
    (if decide (first_clause [Some ClsCancelled; Some ClsException; None] (exn_class user x) = Some 0)
     then sv_errors s else S (sv_errors s)).
Proof. destruct x; try done. simpl. by destruct (user code). Qed.

(** ** What the texts say *)

Lemma digits_then s t s' t' :
  forallb is_digit s = true → forallb is_digit s' = true →
  (∀ c u, t = c :: u → is_digit c = false) → (∀ c u, t' = c :: u → is_digit c = false) →
  s ++ t = s' ++ t' → s = s' ∧ t = t'.
Proof.
  revert s'. induction s as [|c s IH]; intros [|c' s'] Hs Hs' Ht Ht' Heq; simpl in *; [done|..].
  - destruct t as [|d t]; [done|]. injection Heq as -> _. apply andb_true_iff in Hs' as [Hd _]. by rewrite (Ht _ _ eq_refl) in Hd.
  - destruct t' as [|d t']; [done|]. injection Heq as -> _. apply andb_true_iff in Hs as [Hd _]. by rewrite (Ht' _ _ eq_refl) in Hd.
  - injection Heq as -> Heq. apply andb_true_iff in Hs as [_ Hs], Hs' as [_ Hs'].
    destruct (IH s' Hs Hs' Ht Ht' Heq) as [-> ->]. done.
Qed.

Lemma to_string_inj n n' : to_string n = to_string n' → n = n'.
Proof. intros Heq. rewrite <- (proj2 (proj2 (to_string_spec n))), Heq. by apply to_string_spec. Qed.

Lemma number_then n n' c t d t' :
  is_digit c = false → is_digit d = false → to_string n ++ c :: t = to_string n' ++ d :: t' → n = n' ∧ c :: t = d :: t'.
Proof.
  intros Hc Hd Heq. apply digits_then in Heq as [Hn Ht]; [by apply to_string_inj in Hn|apply to_string_spec..| |];
    by intros ? ? [= -> _].
Qed.

(** The texts of the exceptions that carry numbers say them: how much was wanted and how much came, the
    limit, and the number of exceptions in a group. *)
Theorem texts_say_numbers {X} (x y : library_exn X) :
  library_class x = library_class y → what x = what y →
  match x, y with
  | LxIncompleteStream wanted got, LxIncompleteStream wanted' got' => wanted = wanted' ∧ got = got'
  | LxStreamOverflow limit, LxStreamOverflow limit' => limit = limit'
  | LxExceptionGroup es, LxExceptionGroup es' => length es = length es'
  | _, _ => True
  end.
Proof.
  destruct x, y; try done; intros _ Heq; unfold what in Heq.
  - apply app_inv_head in Heq. apply number_then in Heq as [-> Heq]; [|done..].
    apply (app_inv_head (lit " of ")) in Heq. by apply number_then in Heq as [-> _].
  - apply app_inv_head in Heq. by apply number_then in Heq as [-> _].
  - by apply number_then in Heq as [Hl _].
Qed.

(** ** Examples *)

Example what_examples :
  what (X := nat) (LxIncompleteStream 10 4) = lit "stream ended after 4 of 10 byte(s)" ∧
  what (LxExceptionGroup [1; 2]) = lit "2 exception(s) in group" ∧
  detached_report ClsTimeout (what (X := nat) LxTimeout) = Some (lit "[coro] detached task exception: operation timed out" ++ [chr_LF]) ∧
  detached_report (ClsUser false) [] = Some (lit "[coro] detached task exception: unknown" ++ [chr_LF]).
Proof. vm_compute. done. Qed.

Lemma texts_say_numbers_witness :
  ∀ wanted, what (X := nat) (LxIncompleteStream wanted 4) = lit "stream ended after 4 of 10 byte(s)" → wanted = 10.
Proof.
  intros wanted Heq. apply (texts_say_numbers (X := nat) (LxIncompleteStream wanted 4) (LxIncompleteStream 10 4)); [reflexivity|].
  exact Heq.
Defined.
