(* ===== verification/ChannelHandles.v ===== *)
(** * ChannelHandles: the handles of a channel ([channel::sender], [channel::receiver])

    [src/include/coro/channel.hpp]: handles are copied, moved, assigned and destroyed in any order, each
    keeping the count of live handles of its side of the channel it is bound to; the last sender to go
    closes the channel, the last receiver makes sending fail.  The two classes have the same text, so
    an operation here takes the side as an argument.  What is done through a handle, and by the
    awaiters that hold the state without one, is file [ChannelM]. *)

From S2P Require Import Prelude ReadyQueue Timers Frames EventLoop Runtime ChannelM.
From stdpp Require Import options.
#[local] Set Default Proof Using "Type*".

Inductive end_side : Type := SendSide | RecvSide.

#[export] Instance end_side_eq_dec : EqDecision end_side.
Proof. solve_decision. Defined.
#[export] Instance end_side_countable : Countable end_side.
Proof.
  refine (inj_countable' (λ s, match s with SendSide => true | RecvSide => false end)
    (λ b, if b then SendSide else RecvSide) _). by intros [].
Defined.

Create HintDb ends.

Section handles.
Context {A W : Type} `{Runtime W}.
Implicit Types (st : channel A) (w : W) (side : end_side) (o : nat) (c : nat).

Definition live_ends side st : nat := match side with SendSide => ch_live_senders st | RecvSide => ch_live_receivers st end.
Definition end_bump side st : channel A := match side with SendSide => sender_bump st | RecvSide => receiver_bump st end.
Definition end_release side st w : channel A * W :=
  match side with SendSide => sender_release st w | RecvSide => receiver_release st w end.

(** The channel states by their address, and the handle objects by theirs with [state_]; which sides
    of which channels have had a handle made for them is a record of ours. *)
Record handles : Type := mkHandles {
  hs_channels : gmap nat (channel A);
  hs_objects : gmap (end_side * nat) (option nat);
  hs_made : gset (end_side * nat);
  hs_w : W;
}.
Implicit Types (s : handles).

Definition hs_set_channel c st w s : handles := mkHandles (<[c := st]> (hs_channels s)) (hs_objects s) (hs_made s) w.
Definition hs_set_object side o (b : option nat) s : handles :=
  mkHandles (hs_channels s) (<[(side, o) := b]> (hs_objects s)) (hs_made s) (hs_w s).
Definition hs_del_object side o s : handles := mkHandles (hs_channels s) (delete (side, o) (hs_objects s)) (hs_made s) (hs_w s).

(** [bump] and [release] of a handle with this [state_]; [None] is a use of a state that is gone. *)
Definition handle_bump side (b : option nat) s : option handles :=
  match b with
  | None => Some s
  | Some c => st ← hs_channels s !! c; Some (hs_set_channel c (end_bump side st) (hs_w s) s)
  end.
Definition handle_release side o s : option handles :=
  b ← hs_objects s !! (side, o);
  match b with
  | None => Some s
  | Some c =>
      st ← hs_channels s !! c;
      let '(st, w) := end_release side st (hs_w s) in
      Some (hs_set_object side o None (hs_set_channel c st w s))
  end.

(** The constructor of [channel]. *)
Definition channel_made c (capacity : option nat) s : handles :=
  hs_set_channel c (channel_new capacity (hs_w s)) (hs_w s) s.

(** [make_sender] and [make_receiver]. *)
Definition make_end side c o s : option handles :=
  s ← handle_bump side (Some c) (hs_set_object side o (Some c) s);
  Some (mkHandles (hs_channels s) (hs_objects s) ({[(side, c)]} ∪ hs_made s) (hs_w s)).

(** The constructors, assignments and the destructor of a handle. *)
Definition handle_default side o s : handles := hs_set_object side o None s.
Definition handle_copy side o0 o s : option handles :=
  b ← hs_objects s !! (side, o0); handle_bump side b (hs_set_object side o b s).
Definition handle_move side o0 o s : option handles :=
  b ← hs_objects s !! (side, o0); Some (hs_set_object side o0 None (hs_set_object side o b s)).
Definition handle_assign side o0 o s : option handles :=
  if decide (o0 = o) then Some s
  else
    s ← handle_release side o s;
    b ← hs_objects s !! (side, o0);
    handle_bump side b (hs_set_object side o b s).
Definition handle_move_assign side o0 o s : option handles :=
  if decide (o0 = o) then Some s
  else
    s ← handle_release side o s;
    b ← hs_objects s !! (side, o0);
    Some (hs_set_object side o0 None (hs_set_object side o b s)).
Definition handle_destroyed side o s : option handles :=
  s ← handle_release side o s; Some (hs_del_object side o s).

(** [require_bound], and the operation on the state; [valid] and [receiver::closed]. *)
Definition handle_use {R : Type} side o (f : channel A → W → res R * channel A * W) s : option (res R * handles) :=
  b ← hs_objects s !! (side, o);
  match b with
  | None => Some (Throw StructuredConcurrencyError, s)
  | Some c => st ← hs_channels s !! c; let '(r, st, w) := f st (hs_w s) in Some (r, hs_set_channel c st w s)
  end.
Definition handle_valid side o s : bool := match hs_objects s !! (side, o) with Some (Some _) => true | _ => false end.
Definition handle_closed o s : bool :=
  match hs_objects s !! (RecvSide, o) with
  | Some (Some c) => match hs_channels s !! c with Some st => receiver_closed st | None => true end
  | _ => true
  end.

(** ** What is done to a channel but for its handles *)

Inductive channel_use : channel A * W → channel A * W → Prop :=
  | CuSend n h v st w b st' w' : channel_send n h v st w = (b, st', w') → channel_use (st, w) (st', w')
  | CuSendResume n st w r st' w' : send_await_resume n st w = (r, st', w') → channel_use (st, w) (st', w')
  | CuSendDestroyed n st w st' w' : send_awaiter_destroyed n st w = (st', w') → channel_use (st, w) (st', w')
  | CuRecv n h st w b v st' w' : channel_recv n h st w = (b, v, st', w') → channel_use (st, w) (st', w')
  | CuRecvResume n st w v st' : recv_await_resume n st = (v, st') → channel_use (st, w) (st', w)
  | CuRecvDestroyed n st w st' w' : recv_awaiter_destroyed n st w = (st', w') → channel_use (st, w) (st', w')
  | CuTrySend v st w r st' w' : sender_try_send v st w = (r, st', w') → channel_use (st, w) (st', w')
  | CuTryRecv st w v st' w' : receiver_try_recv st w = (v, st', w') → channel_use (st, w) (st', w')
  | CuCommitAccept v st w b st' w' : sender_commit_accept v st w = (b, st', w') → channel_use (st, w) (st', w')
  | CuCommitTake st w v st' w' : receiver_commit_take st w = (v, st', w') → channel_use (st, w) (st', w')
  | CuArmSend n v g tag h st w : channel_use (st, w) (sender_arm_for_select n v g tag h st, w)
  | CuArmRecv n g tag h st w : channel_use (st, w) (receiver_arm_for_select n g tag h st, w)
  | CuDisarmSend n st w st' w' : sender_disarm_for_select n st w = (st', w') → channel_use (st, w) (st', w')
  | CuDisarmRecv n st w : channel_use (st, w) (receiver_disarm_for_select n st, w)
  | CuClose st w st' w' : channel_close st w = (st', w') → channel_use (st, w) (st', w')
  | CuWorld st w w' : channel_use (st, w) (st, w').

(** The counts stay, and what is closed stays closed. *)
Record ends_kept st st' : Prop := {
  ek_live side : live_ends side st' = live_ends side st;
  ek_closed : ch_send_closed st = true → ch_send_closed st' = true;
  ek_gone : ch_all_receivers_gone st' = ch_all_receivers_gone st;
}.

Lemma ends_refl st : ends_kept st st.
Proof. done. Qed.
Lemma ends_trans st1 st2 st3 : ends_kept st1 st2 → ends_kept st2 st3 → ends_kept st1 st3.
Proof. intros [Hl Hc Hg] [Hl' Hc' Hg']. split; [intros side; by rewrite Hl'|auto|congruence]. Qed.
Lemma ends_buffer b st : ends_kept st (ch_set_buffer b st).
Proof. by split; [intros []|..]. Qed.
Lemma ends_senders l m st : ends_kept st (ch_set_senders l m st).
Proof. by split; [intros []|..]. Qed.
Lemma ends_receivers l m st : ends_kept st (ch_set_receivers l m st).
Proof. by split; [intros []|..]. Qed.
#[local] Hint Resolve ends_refl ends_buffer ends_senders ends_receivers : ends.
#[local] Hint Extern 2 (ends_kept ?st (ch_set_buffer _ ?st')) => eapply (ends_trans st st') : ends.
#[local] Hint Extern 2 (ends_kept ?st (ch_set_senders _ _ ?st')) => eapply (ends_trans st st') : ends.
#[local] Hint Extern 2 (ends_kept ?st (ch_set_receivers _ _ ?st')) => eapply (ends_trans st st') : ends.

Lemma ends_deliver_from it st v w : ends_kept st (channel_deliver_from it st v w).1.2.
Proof.
  revert st w. induction it as [|n it IH]; intros st w; simpl; [done|]. destruct (ch_rnodes st !! n) as [x|]; [|apply IH].
  destruct (gate_admit _ _ w) as [[] w1]; simpl; [apply ends_receivers|apply IH].
Qed.
Lemma ends_take st w : ends_kept st (channel_take_pending_sender st w).1.2.
Proof.
  unfold channel_take_pending_sender. repeat case_match; simpl; auto with ends.
Qed.
Lemma ends_promote_from ss st w : ends_kept st (channel_promote_from ss st w).1.
Proof.
  revert st w. induction ss as [|n ss IH]; intros st w; simpl; [done|].
  destruct (channel_has_room st); [|done]. destruct (ch_snodes st !! n) as [x|]; [|done].
  destruct (gate_admit _ _ w) as [[] w1]; [|done]. eapply ends_trans; [|apply IH]. auto with ends.
Qed.
Lemma ends_close st w : ends_kept st (channel_close st w).1.
Proof. unfold channel_close. case_bool_decide; (split; [intros []|..]); done. Qed.
Lemma ends_drop_sender n st w : ends_kept st (channel_drop_sender n st w).1.
Proof. eapply ends_trans; [|apply ends_promote_from]. apply ends_senders. Qed.
Lemma ends_accept v st w : ends_kept st (sender_commit_accept v st w).1.2.
Proof.
  unfold sender_commit_accept. pose proof (ends_deliver_from (ch_receivers st) st v w) as Hd. unfold channel_deliver.
  destruct (channel_deliver_from _ _ _ _) as [[[] st1] w1]; simpl in *; [done|].
  destruct (channel_has_room st1); simpl; [|done]. eapply ends_trans; [done|apply ends_buffer].
Qed.
Lemma ends_return v st w : ends_kept st (channel_return_value st v w).1.2.
Proof.
  unfold channel_return_value. pose proof (ends_deliver_from (ch_receivers st) st v w) as Hd. unfold channel_deliver.
  destruct (channel_deliver_from _ _ _ _) as [[[] st1] w1]; simpl in *; [done|].
  destruct (channel_has_room st1); simpl; [|done]. eapply ends_trans; [done|apply ends_buffer].
Qed.
Lemma ends_pop rest st w : ends_kept st (channel_promote_senders (ch_set_buffer rest st) w).1.
Proof. eapply ends_trans; [apply (ends_buffer rest)|apply ends_promote_from]. Qed.

Lemma ends_send_ready v st w : ends_kept st (send_await_ready v st w).1.2.
Proof. unfold send_await_ready. case_match; [done|apply ends_accept]. Qed.
Lemma ends_send n h v st w : ends_kept st (channel_send n h v st w).1.2.
Proof.
  unfold channel_send. pose proof (ends_send_ready v st w) as He. destruct (send_await_ready v st w) as [[[] st1] w1]; simpl in He; [exact He|].
  unfold send_await_suspend. simpl. destruct (ch_send_closed st1 || ch_all_receivers_gone st1); simpl.
  - pose proof (ends_drop_sender n (ch_set_senders (ch_senders st1 ++ [n])
      (<[n := mkSendNode v h false None (-1)]> (ch_snodes st1)) st1) w1) as Hd.
    destruct (channel_drop_sender _ _ w1) as [st2 w2]. simpl in *. eapply ends_trans; [exact He|]. eapply ends_trans; [apply ends_senders|exact Hd].
  - eapply ends_trans; [exact He|apply ends_senders].
Qed.

Lemma ends_recv_ready st w : ends_kept st (recv_await_ready st w).1.2.
Proof.
  unfold recv_await_ready. destruct (ch_buffer st) as [|x rest].
  - pose proof (ends_take st w) as He. by destruct (channel_take_pending_sender st w) as [[[y|] st1] w1].
  - pose proof (ends_pop rest st w) as He. by destruct (channel_promote_senders _ w) as [st1 w1].
Qed.
Lemma ends_land n v st : ends_kept st (recv_land n v st).
Proof. unfold recv_land. case_match; auto with ends. Qed.
Lemma ends_recv n h st w : ends_kept st (channel_recv n h st w).1.2.
Proof.
  unfold channel_recv. pose proof (ends_recv_ready st w) as He. destruct (recv_await_ready st w) as [[[[] v] st1] w1]; simpl in He; [exact He|].
  eapply ends_trans; [exact He|]. unfold recv_await_suspend.
  set (st2 := ch_set_receivers _ _ st1). assert (ends_kept st1 st2) as H12 by apply ends_receivers. clearbody st2.
  eapply (ends_trans _ st2); [done|]. destruct (ch_buffer st2) as [|x rest].
  - destruct (ch_send_closed st2); [apply ends_receivers|]. pose proof (ends_take st2 w1) as Ht.
    destruct (channel_take_pending_sender st2 w1) as [[[y|] st3] w2]; [|done]. simpl in *. eapply ends_trans; [done|apply ends_land].
  - set (st3 := recv_land _ _ _). assert (ends_kept st2 st3) as H23.
    { eapply ends_trans; [|apply ends_land]. eapply ends_trans; [|apply ends_buffer]. apply ends_receivers. }
    pose proof (ends_promote_from (ch_senders st3) st3 w1) as Hp. unfold channel_promote_senders.
    destruct (channel_promote_from _ st3 w1) as [st4 w2]. by eapply ends_trans.
Qed.

Lemma channel_use_kept p p' : channel_use p p' → ends_kept p.1 p'.1.
Proof.
  destruct 1 as [n h v st w b st' w' Hr|n st w r st' w' Hr|n st w st' w' Hr|n h st w b v st' w' Hr|n st w v st' Hr
    |n st w st' w' Hr|v st w r st' w' Hr|st w v st' w' Hr|v st w b st' w' Hr|st w v st' w' Hr| | |n st w st' w' Hr| |st w st' w' Hr|];
    unfold sender_arm_for_select, receiver_arm_for_select, receiver_disarm_for_select, channel_drop_receiver in *;
    simpl; auto with ends.
  - pose proof (ends_send n h v st w) as Hx. by rewrite Hr in Hx.
  - revert Hr. unfold send_await_resume. destruct (ch_snodes st !! n) as [x|]; [|by intros [= _ <- _]].
    destruct (sd_taken x); [by intros [= _ <- _]|]. pose proof (ends_drop_sender n st w) as Hd.
    destruct (channel_drop_sender n st w) as [st1 w1]. by intros [= _ <- _].
  - revert Hr. unfold send_awaiter_destroyed. destruct (ch_snodes st !! n) as [x|]; [|by intros [= <- _]].
    pose proof (ends_drop_sender n st w) as Hd.
    destruct (sd_taken x); [intros [= <- _]; apply ends_senders|]. destruct (channel_drop_sender n st w) as [st1 w1].
    intros [= <- _]. eapply ends_trans; [done|apply ends_senders].
  - pose proof (ends_recv n h st w) as Hx. by rewrite Hr in Hx.
  - revert Hr. unfold recv_await_resume. destruct (ch_rnodes st !! n) as [x|]; [|by intros [= _ <-]].
    destruct (rv_delivered x); intros [= _ <-]; auto with ends.
  - revert Hr. unfold recv_awaiter_destroyed. destruct (ch_rnodes st !! n) as [x|]; [|by intros [= <- _]].
    destruct (rv_delivered x); [destruct (rv_value x) as [v|]|].
    + pose proof (ends_return v st w) as Hd. destruct (channel_return_value st v w) as [[b st1] w1].
      intros [= <- _]. eapply ends_trans; [done|apply ends_receivers].
    + intros [= <- _]. apply ends_receivers.
    + intros [= <- _]. eapply ends_trans; apply ends_receivers.
  - revert Hr. unfold sender_try_send. case_match; [by intros [= _ <- _]|]. pose proof (ends_accept v st w) as Ha.
    destruct (sender_commit_accept v st w) as [[b st1] w1]. by intros [= _ <- _].
  - revert Hr. unfold receiver_try_recv. destruct (ch_buffer st) as [|x rest].
    + pose proof (ends_take st w) as Ht. intros Hr. by rewrite Hr in Ht.
    + pose proof (ends_pop rest st w) as Hp. destruct (channel_promote_senders _ w) as [st1 w1]. by intros [= _ <- _].
  - pose proof (ends_accept v st w) as Hx. by rewrite Hr in Hx.
  - revert Hr. unfold receiver_commit_take. destruct (ch_buffer st) as [|x rest].
    + pose proof (ends_take st w) as Ht. destruct (channel_take_pending_sender st w) as [[[y|] st1] w1]; [by intros [= _ <- _]|].
      case_match; by intros [= _ <- _].
    + pose proof (ends_pop rest st w) as Hp. destruct (channel_promote_senders _ w) as [st1 w1]. by intros [= _ <- _].
  - pose proof (ends_drop_sender n st w) as Hx. unfold sender_disarm_for_select in Hr. by rewrite Hr in Hx.
  - pose proof (ends_close st w) as Hx. by rewrite Hr in Hx.
Qed.

(** ** Handles in any order *)

Inductive handles_step : handles → handles → Prop :=
  | HsChannel c cap s : hs_channels s !! c = None → handles_step s (channel_made c cap s)
  | HsMake side c o s s' : hs_objects s !! (side, o) = None → make_end side c o s = Some s' → handles_step s s'
  | HsDefault side o s : hs_objects s !! (side, o) = None → handles_step s (handle_default side o s)
  | HsCopy side o0 o s s' : hs_objects s !! (side, o) = None → handle_copy side o0 o s = Some s' → handles_step s s'
  | HsMove side o0 o s s' : hs_objects s !! (side, o) = None → handle_move side o0 o s = Some s' → handles_step s s'
  | HsAssign side o0 o s s' : handle_assign side o0 o s = Some s' → handles_step s s'
  | HsMoveAssign side o0 o s s' : handle_move_assign side o0 o s = Some s' → handles_step s s'
  | HsDestroyed side o s s' : handle_destroyed side o s = Some s' → handles_step s s'
  | HsUse c st st' w' s :
      hs_channels s !! c = Some st → channel_use (st, hs_w s) (st', w') → handles_step s (hs_set_channel c st' w' s).

Definition handles_init w : handles := mkHandles ∅ ∅ ∅ w.

(** The handles of a side of a channel. *)
Definition bound_to side c (x : (end_side * nat) * option nat) : Prop := x.1.1 = side ∧ x.2 = Some c.
#[export] Instance bound_to_dec side c x : Decision (bound_to side c x).
Proof. unfold bound_to. apply _. Defined.
Definition handle_count side c (m : gmap (end_side * nat) (option nat)) : nat := size (filter (bound_to side c) m).
Definition counts_one side c (k : end_side * nat) (b : option nat) : nat := if decide (bound_to side c (k, b)) then 1 else 0.

Lemma handle_count_insert side c k b m :
  m !! k = None → handle_count side c (<[k := b]> m) = counts_one side c k b + handle_count side c m.
Proof.
  intros Hk. unfold handle_count, counts_one. rewrite map_filter_insert, (delete_id m k Hk). case_decide; [|done].
  rewrite map_size_insert_None; [done|]. apply map_lookup_filter_None. by left.
Qed.
Lemma handle_count_delete side c k b m :
  m !! k = Some b → handle_count side c m = counts_one side c k b + handle_count side c (delete k m).
Proof.
  intros Hk. rewrite <- (insert_delete_id m k b Hk) at 1. apply handle_count_insert, lookup_delete_eq.
Qed.
(** An object that changes its channel. *)
Lemma handle_count_update side c k b0 b m :
  m !! k = Some b0 → counts_one side c k b0 + handle_count side c (<[k := b]> m) = counts_one side c k b + handle_count side c m.
Proof.
  intros Hk. rewrite <- insert_delete_eq, handle_count_insert by apply lookup_delete_eq.
  rewrite (handle_count_delete side c k b0 m Hk). lia.
Qed.

Lemma counts_one_none side c k : counts_one side c k None = 0.
Proof. unfold counts_one, bound_to. rewrite decide_False; [done|]. by intros [_ ?]. Qed.
Lemma counts_one_some side c side' o c' : counts_one side c (side', o) (Some c') = if decide (side' = side ∧ c' = c) then 1 else 0.
Proof. unfold counts_one, bound_to. simpl. apply decide_ext. naive_solver. Qed.

(** A side that is over: closed, and without receivers when it is theirs. *)
Definition ended side st : Prop := ch_send_closed st = true ∧ (side = RecvSide → ch_all_receivers_gone st = true).

Record handles_ok s : Prop := {
  ho_live side c st : hs_channels s !! c = Some st → live_ends side st = handle_count side c (hs_objects s);
  ho_bound k c : hs_objects s !! k = Some (Some c) → is_Some (hs_channels s !! c);
  ho_made side c : (side, c) ∈ hs_made s → is_Some (hs_channels s !! c);
  ho_ended side c st : hs_channels s !! c = Some st → (side, c) ∈ hs_made s →
    handle_count side c (hs_objects s) = 0 → ended side st;
}.

Lemma bump_live side side' st : live_ends side (end_bump side' st) = (if decide (side' = side) then 1 else 0) + live_ends side st.
Proof. by destruct side, side'. Qed.
Lemma bump_ended side side' st : ended side st → ended side (end_bump side' st).
Proof. by destruct side'. Qed.

Lemma close_ended st w : ch_send_closed (channel_close st w).1 = true.
Proof. unfold channel_close. by case_bool_decide. Qed.

Lemma end_release_spec side st w n :
  live_ends side st = S n →
  live_ends side (end_release side st w).1 = n ∧
  (∀ side', side' ≠ side → live_ends side' (end_release side st w).1 = live_ends side' st) ∧
  (n = 0 → ended side (end_release side st w).1) ∧
  (∀ side', ended side' st → ended side' (end_release side st w).1).
Proof.
  intros Hl. destruct side; simpl in *; unfold sender_release, receiver_release; simpl; rewrite Hl; simpl; case_decide as Hn; simpl; [subst n| |subst n|].
  - pose proof (ends_close (ch_set_live 0 (ch_live_receivers st) st) w) as [Hx Hc Hg]. split; [apply (Hx SendSide)|].
    split; [intros []; [done|]; intros _; apply (Hx RecvSide)|]. split; [by intros _; split; [apply close_ended|]|].
    intros side' [Hs Hr]. split; [apply close_ended|]. intros Hs'. rewrite Hg. simpl. auto.
  - split; [done|]. split; [by intros []|]. split; [done|]. by intros side' [? ?].
  - unfold channel_note_no_receivers. simpl. set (st0 := ch_set_closed _ true _).
    pose proof (ends_close st0 w) as [Hx Hc Hg]. split; [apply (Hx RecvSide)|].
    split; [intros []; [|done]; intros _; apply (Hx SendSide)|].
    split; [intros _; split; [apply close_ended|by intros _; rewrite Hg]|]. intros side' _. split; [apply close_ended|by intros _; rewrite Hg].
  - split; [done|]. split; [by intros []|]. split; [done|]. by intros side' [? ?].
Qed.

(** An object that is bound to nothing, or does not exist, is bound. *)
Lemma attach_ok side o b s :
  handles_ok s → hs_objects s !! (side, o) = None ∨ hs_objects s !! (side, o) = Some None →
  (∀ c, b = Some c → is_Some (hs_channels s !! c)) →
  ∃ s', handle_bump side b (hs_set_object side o b s) = Some s' ∧ handles_ok s' ∧
    hs_objects s' = <[(side, o) := b]> (hs_objects s) ∧ hs_made s' = hs_made s ∧ dom (hs_channels s') = dom (hs_channels s).
Proof.
  intros [Hl Hb Hm He] Ho Hc.
  assert (∀ side' c', handle_count side' c' (<[(side, o) := b]> (hs_objects s)) =
    counts_one side' c' (side, o) b + handle_count side' c' (hs_objects s)) as Hcount.
  { intros side' c'. destruct Ho as [Ho|Ho]; [by apply handle_count_insert|].
    pose proof (handle_count_update side' c' _ _ b _ Ho) as Hx. by rewrite counts_one_none in Hx. }
  destruct b as [c|]; simpl.
  - destruct (Hc c eq_refl) as [st Hst]. rewrite Hst. simpl. eexists. split; [done|]. split; [|].
    2:{ split; [done|]. split; [done|]. simpl. apply dom_insert_lookup_L. by eexists. }
    constructor; simpl.
    + intros side' c' st'. rewrite lookup_insert_Some. intros [[<- <-]|[Hne Hst']]; rewrite Hcount, counts_one_some.
      * rewrite bump_live, (Hl _ _ _ Hst). repeat case_decide; naive_solver.
      * rewrite decide_False by naive_solver. eauto.
    + intros k c'. rewrite lookup_insert_Some, lookup_insert_is_Some'. naive_solver.
    + intros side' c' Hin. rewrite lookup_insert_is_Some'. right. eauto.
    + intros side' c' st' Hst' Hin. rewrite Hcount. intros Hz. revert Hst'. rewrite lookup_insert_Some.
      intros [[<- <-]|[Hne Hst']]; [apply bump_ended|]; eapply He; eauto; lia.
  - eexists. split; [done|]. split; [|done]. constructor; simpl; try done.
    + intros side' c' st' Hst'. rewrite Hcount, counts_one_none. eauto.
    + intros k c'. rewrite lookup_insert_Some. naive_solver.
    + intros side' c' st' Hst' Hin. rewrite Hcount, counts_one_none. eauto.
Qed.

(** A handle lets go of its channel. *)
Lemma release_ok side o b s :
  handles_ok s → hs_objects s !! (side, o) = Some b →
  ∃ s', handle_release side o s = Some s' ∧ handles_ok s' ∧ hs_objects s' = <[(side, o) := None]> (hs_objects s) ∧
    hs_made s' = hs_made s ∧ dom (hs_channels s') = dom (hs_channels s).
Proof.
  intros Hok Ho. pose proof Hok as [Hl Hb Hm He]. unfold handle_release. rewrite Ho. simpl. destruct b as [c|]; simpl.
  2:{ exists s. by rewrite insert_id. }
  destruct (Hb _ _ Ho) as [st Hst]. rewrite Hst. simpl.
  assert (∀ side' c', counts_one side' c' (side, o) (Some c) + handle_count side' c' (<[(side, o) := None]> (hs_objects s)) =
    handle_count side' c' (hs_objects s)) as Hcount.
  { intros side' c'. pose proof (handle_count_update side' c' _ _ None _ Ho) as Hx. by rewrite counts_one_none in Hx. }
  assert (live_ends side st = S (handle_count side c (<[(side, o) := None]> (hs_objects s)))) as Hlive.
  { rewrite (Hl _ _ _ Hst), <- Hcount, counts_one_some, decide_True by done. done. }
  destruct (end_release_spec side st (hs_w s) _ Hlive) as (H1 & H2 & H3 & H4).
  destruct (end_release side st (hs_w s)) as [st1 w1]. simpl in *. eexists. split; [done|].
  split; [|split; [done|]; split; [done|]; simpl; apply dom_insert_lookup_L; by eexists]. constructor; simpl.
  - intros side' c' st'. rewrite lookup_insert_Some. intros [[<- <-]|[Hne Hst']].
    + destruct (decide (side' = side)) as [->|Hne]; [done|]. rewrite H2, (Hl _ _ _ Hst), <- Hcount, counts_one_some by done.
      rewrite decide_False; [done|]. naive_solver.
    + rewrite (Hl _ _ _ Hst'), <- Hcount, counts_one_some, decide_False by naive_solver. done.
  - intros k c'. rewrite lookup_insert_Some, lookup_insert_is_Some'. intros [[_ ?]|[_ ?]]; [done|eauto].
  - intros side' c' Hin. rewrite lookup_insert_is_Some'. right. eauto.
  - intros side' c' st' Hst' Hin Hz. revert Hst'. rewrite lookup_insert_Some. intros [[<- <-]|[Hne Hst']].
    + destruct (decide (side' = side)) as [->|Hne]; [auto|]. apply H4. eapply He; [done..|].
      rewrite <- Hcount, counts_one_some, decide_False by naive_solver. done.
    + eapply He; [done..|]. rewrite <- Hcount, counts_one_some, decide_False by naive_solver. done.
Qed.

(** The state moves from one object to another. *)
Lemma transfer_ok side o0 o b s :
  handles_ok s → o0 ≠ o → hs_objects s !! (side, o0) = Some b →
  hs_objects s !! (side, o) = None ∨ hs_objects s !! (side, o) = Some None →
  handles_ok (hs_set_object side o0 None (hs_set_object side o b s)).
Proof.
  intros [Hl Hb Hm He] Hne Ho0 Ho.
  assert (∀ side' c', handle_count side' c' (<[(side, o0) := None]> (<[(side, o) := b]> (hs_objects s))) =
    handle_count side' c' (hs_objects s)) as Hcount.
  { intros side' c'. assert (<[(side, o) := b]> (hs_objects s) !! (side, o0) = Some b) as Hx by (rewrite lookup_insert_ne by naive_solver; done).
    pose proof (handle_count_update side' c' _ _ None _ Hx) as Hy. rewrite counts_one_none in Hy.
    assert (handle_count side' c' (<[(side, o) := b]> (hs_objects s)) = counts_one side' c' (side, o) b + handle_count side' c' (hs_objects s)) as Hz.
    { destruct Ho as [Ho|Ho]; [by apply handle_count_insert|].
      pose proof (handle_count_update side' c' _ _ b _ Ho) as Hz. by rewrite counts_one_none in Hz. }
    rewrite Hz in Hy. change (counts_one side' c' (side, o0) b) with (counts_one side' c' (side, o) b) in Hy. lia. }
  constructor; simpl; try done.
  - intros side' c' st'. rewrite Hcount. apply Hl.
  - intros k c'. rewrite !lookup_insert_Some. intros [[_ ?]|[_ [[_ ->]|[_ ?]]]]; [done|eauto..].
  - intros side' c' st'. rewrite Hcount. apply He.
Qed.

Lemma delete_ok side o s :
  handles_ok s → hs_objects s !! (side, o) = Some None → handles_ok (hs_del_object side o s).
Proof.
  intros [Hl Hb Hm He] Ho.
  assert (∀ side' c', handle_count side' c' (delete (side, o) (hs_objects s)) = handle_count side' c' (hs_objects s)) as Hcount.
  { intros side' c'. by rewrite (handle_count_delete side' c' _ _ _ Ho), counts_one_none. }
  constructor; simpl; try done.
  - intros side' c' st'. rewrite Hcount. apply Hl.
  - intros k c'. rewrite lookup_delete_Some. naive_solver.
  - intros side' c' st'. rewrite Hcount. apply He.
Qed.

Lemma made_ok c cap s : handles_ok s → hs_channels s !! c = None → handles_ok (channel_made c cap s).
Proof.
  intros [Hl Hb Hm He] Hc.
  assert (∀ side, handle_count side c (hs_objects s) = 0) as Hcount.
  { intros side. unfold handle_count. apply map_size_empty_iff, map_empty_filter. intros k b Hk [_ Hx]. simpl in Hx. subst b.
    destruct (Hb _ _ Hk) as [st Hst]. congruence. }
  constructor; simpl.
  - intros side c' st'. rewrite lookup_insert_Some. intros [[<- <-]|[_ Hst]]; [rewrite Hcount; by destruct side|eauto].
  - intros k c' Hk. rewrite lookup_insert_is_Some'. right. eauto.
  - intros side c' Hin. rewrite lookup_insert_is_Some'. right. eauto.
  - intros side c' st'. rewrite lookup_insert_Some. intros [[<- _]|[_ Hst]]; [|eauto]. intros Hin.
    destruct (Hm _ _ Hin) as [st Hst]. congruence.
Qed.

Lemma use_ok c st st' w' s :
  handles_ok s → hs_channels s !! c = Some st → channel_use (st, hs_w s) (st', w') → handles_ok (hs_set_channel c st' w' s).
Proof.
  intros [Hl Hb Hm He] Hst [Hx Hc Hg]%channel_use_kept. simpl in *. constructor; simpl.
  - intros side c' st1. rewrite lookup_insert_Some. intros [[<- <-]|[_ Hst1]]; [rewrite Hx|]; eauto.
  - intros k c' Hk. rewrite lookup_insert_is_Some'. right. eauto.
  - intros side c' Hin. rewrite lookup_insert_is_Some'. right. eauto.
  - intros side c' st1. rewrite lookup_insert_Some. intros [[<- <-]|[_ Hst1]]; [|eauto]. intros Hin Hz.
    destruct (He side c st Hst Hin Hz) as [Hsc Hrg]. split; [auto|]. intros Hs. rewrite Hg. auto.
Qed.

Lemma make_end_ok side c o s s' :
  handles_ok s → hs_objects s !! (side, o) = None → make_end side c o s = Some s' → handles_ok s'.
Proof.
  intros Hok Ho Hs'. unfold make_end in Hs'. destruct (hs_channels s !! c) as [st|] eqn:Hst.
  2:{ simpl in Hs'. by rewrite Hst in Hs'. }
  destruct (attach_ok side o (Some c) s Hok (or_introl Ho)) as (s1 & Hs1 & [Hl Hb Hm He] & Hobj & Hmade & Hdom);
    [intros ? [= <-]; by eexists|]. rewrite Hs1 in Hs'. injection Hs' as <-. constructor; simpl; try done.
  - intros side' c' [[= -> ->]%elem_of_singleton|Hin]%elem_of_union; [|eauto]. apply elem_of_dom. rewrite Hdom. apply elem_of_dom. by eexists.
  - intros side' c' st' Hst' [[= -> ->]%elem_of_singleton|Hin]%elem_of_union; [|eauto]. rewrite Hobj. intros Hz. exfalso.
    rewrite handle_count_insert, counts_one_some, decide_True in Hz by done. done.
Qed.

Lemma handle_copy_ok side o0 o b s :
  handles_ok s → hs_objects s !! (side, o0) = Some b → hs_objects s !! (side, o) = None ∨ hs_objects s !! (side, o) = Some None →
  ∃ s', handle_bump side b (hs_set_object side o b s) = Some s' ∧ handles_ok s'.
Proof.
  intros Hok Ho0 Ho. destruct (attach_ok side o b s Hok Ho) as (s' & Hs' & Hok' & _); [|eauto].
  intros c ->. by apply (ho_bound _ Hok _ _ Ho0).
Qed.

Lemma handle_assign_ok side o0 o b0 b s :
  handles_ok s → hs_objects s !! (side, o0) = Some b0 → hs_objects s !! (side, o) = Some b →
  ∃ s', handle_assign side o0 o s = Some s' ∧ handles_ok s'.
Proof.
  intros Hok Ho0 Ho. unfold handle_assign. case_decide as Hne; [eauto|].
  destruct (release_ok side o b s Hok Ho) as (s1 & -> & Hok1 & Hobj & _). simpl.
  assert (hs_objects s1 !! (side, o0) = Some b0) as Ho1 by (rewrite Hobj, lookup_insert_ne by naive_solver; done). rewrite Ho1. simpl.
  apply (handle_copy_ok side o0); [done..|]. right. rewrite Hobj. by rewrite lookup_insert_eq.
Qed.

Lemma handle_move_assign_ok side o0 o b0 b s :
  handles_ok s → hs_objects s !! (side, o0) = Some b0 → hs_objects s !! (side, o) = Some b →
  ∃ s', handle_move_assign side o0 o s = Some s' ∧ handles_ok s'.
Proof.
  intros Hok Ho0 Ho. unfold handle_move_assign. case_decide as Hne; [eauto|].
  destruct (release_ok side o b s Hok Ho) as (s1 & -> & Hok1 & Hobj & _). simpl.
  assert (hs_objects s1 !! (side, o0) = Some b0) as Ho1 by (rewrite Hobj, lookup_insert_ne by naive_solver; done). rewrite Ho1. simpl.
  eexists. split; [done|]. apply transfer_ok; [done..|]. right. rewrite Hobj. by rewrite lookup_insert_eq.
Qed.

Lemma handle_destroyed_ok side o b s :
  handles_ok s → hs_objects s !! (side, o) = Some b → ∃ s', handle_destroyed side o s = Some s' ∧ handles_ok s'.
Proof.
  intros Hok Ho. unfold handle_destroyed. destruct (release_ok side o b s Hok Ho) as (s1 & -> & Hok1 & Hobj & _). simpl.
  eexists. split; [done|]. apply delete_ok; [done|]. rewrite Hobj. by rewrite lookup_insert_eq.
Qed.

Lemma handles_step_ok s s' : handles_step s s' → handles_ok s → handles_ok s'.
Proof.
  intros Hs Hok. destruct Hs as [c cap s Hc|side c o s s' Ho Hs|side o s Ho|side o0 o s s' Ho Hs|side o0 o s s' Ho Hs
    |side o0 o s s' Hs|side o0 o s s' Hs|side o s s' Hs|c st st' w' s Hst Hu].
  - by apply made_ok.
  - by eapply make_end_ok.
  - destruct (attach_ok side o None s Hok (or_introl Ho)) as (s1 & Hs1 & Hok1 & _); [done|]. by injection Hs1 as <-.
  - unfold handle_copy in Hs. destruct (hs_objects s !! (side, o0)) as [b|] eqn:Ho0; [|done]. simpl in Hs.
    destruct (handle_copy_ok side o0 o b s Hok Ho0 (or_introl Ho)) as (s1 & Hs1 & Hok1). congruence.
  - unfold handle_move in Hs. destruct (hs_objects s !! (side, o0)) as [b|] eqn:Ho0; [|done]. injection Hs as <-.
    apply transfer_ok; [done|congruence|done|by left].
  - destruct (decide (o0 = o)) as [->|Hne]; [unfold handle_assign in Hs; rewrite decide_True in Hs by done; by injection Hs as <-|].
    pose proof Hs as Hs1. unfold handle_assign in Hs1. rewrite decide_False in Hs1 by done.
    destruct (hs_objects s !! (side, o)) as [b|] eqn:Ho; [|unfold handle_release in Hs1; by rewrite Ho in Hs1].
    destruct (release_ok side o b s Hok Ho) as (s1 & Hr & _ & Hobj & _). rewrite Hr in Hs1. simpl in Hs1.
    rewrite Hobj, lookup_insert_ne in Hs1 by naive_solver. destruct (hs_objects s !! (side, o0)) as [b0|] eqn:Ho0; [|done].
    destruct (handle_assign_ok side o0 o b0 b s Hok Ho0 Ho) as (s2 & Hs2 & Hok2). congruence.
  - destruct (decide (o0 = o)) as [->|Hne]; [unfold handle_move_assign in Hs; rewrite decide_True in Hs by done; by injection Hs as <-|].
    pose proof Hs as Hs1. unfold handle_move_assign in Hs1. rewrite decide_False in Hs1 by done.
    destruct (hs_objects s !! (side, o)) as [b|] eqn:Ho; [|unfold handle_release in Hs1; by rewrite Ho in Hs1].
    destruct (release_ok side o b s Hok Ho) as (s1 & Hr & _ & Hobj & _). rewrite Hr in Hs1. simpl in Hs1.
    rewrite Hobj, lookup_insert_ne in Hs1 by naive_solver. destruct (hs_objects s !! (side, o0)) as [b0|] eqn:Ho0; [|done].
    destruct (handle_move_assign_ok side o0 o b0 b s Hok Ho0 Ho) as (s2 & Hs2 & Hok2). congruence.
  - destruct (hs_objects s !! (side, o)) as [b|] eqn:Ho; [|unfold handle_destroyed, handle_release in Hs; by rewrite Ho in Hs].
    destruct (handle_destroyed_ok side o b s Hok Ho) as (s1 & Hs1 & Hok1). congruence.
  - by eapply use_ok.
Qed.

Lemma handles_init_ok w : handles_ok (handles_init w).
Proof. constructor; simpl; try done; intros; set_solver. Qed.

Lemma handles_reachable_ok w s : rtc handles_step (handles_init w) s → handles_ok s.
Proof.
  pose proof (handles_init_ok w) as H0. revert H0. generalize (handles_init w). intros s0 H0 Hr.
  induction Hr; eauto using handles_step_ok.
Qed.

(** However handles are made, copied, moved, assigned and destroyed between the other uses of their
    channels, the count of each side is the number of its handles, so that no release takes it below
    zero; a side that has had handles and has none left is over: closed, and for receivers marked as
    gone; and every operation on existing handles finds the state it is bound to. *)
Theorem channel_handles w s :
  rtc handles_step (handles_init w) s →
  (∀ side c st, hs_channels s !! c = Some st →
     live_ends side st = handle_count side c (hs_objects s) ∧
     ((side, c) ∈ hs_made s → live_ends side st = 0 → ended side st)) ∧
  (∀ side o c, hs_objects s !! (side, o) = Some (Some c) → ∃ st, hs_channels s !! c = Some st ∧ 0 < live_ends side st) ∧
  (∀ side o0 o, is_Some (hs_objects s !! (side, o0)) → is_Some (hs_objects s !! (side, o)) →
     is_Some (handle_assign side o0 o s) ∧ is_Some (handle_move_assign side o0 o s) ∧ is_Some (handle_destroyed side o s)).
Proof.
  intros Hok%handles_reachable_ok. pose proof Hok as [Hl Hb Hm He]. split_and!.
  - intros side c st Hst. split; [eauto|]. intros Hin Hz. rewrite (Hl _ _ _ Hst) in Hz. eauto.
  - intros side o c Ho. destruct (Hb _ _ Ho) as [st Hst]. exists st. split; [done|]. rewrite (Hl _ _ _ Hst).
    rewrite (handle_count_delete side c _ _ _ Ho), counts_one_some, decide_True by done. lia.
  - intros side o0 o [b0 Ho0] [b Ho]. destruct (handle_assign_ok side o0 o b0 b s Hok Ho0 Ho) as (? & ? & _).
    destruct (handle_move_assign_ok side o0 o b0 b s Hok Ho0 Ho) as (? & ? & _).
    destruct (handle_destroyed_ok side o b s Hok Ho) as (? & ? & _). split_and!; by eexists.
Qed.
End handles.

(** A default-constructed or moved-from handle is refused, and reads as closed. *)
Lemma unbound_refused {A W R} `{Runtime W} side o (f : channel A → W → res R * channel A * W) (s : handles) :
  hs_objects s !! (side, o) = Some None →
  handle_use side o f s = Some (Throw StructuredConcurrencyError, s) ∧ handle_valid side o s = false ∧
  (side = RecvSide → handle_closed o s = true).
Proof. intros Ho. unfold handle_use, handle_valid, handle_closed. rewrite Ho. split_and!; [done..|]. intros ->. by rewrite Ho. Qed.

(** ** Example: a sender, its copy, the original moved away; the last to go closes the channel. *)

Definition handles_demo : option (handles (A := nat) (W := world)) :=
  s ← make_end SendSide 0 1 (channel_made 0 (Some 2) (handles_init w_demo));
  s ← handle_copy SendSide 1 2 s;
  s ← handle_move SendSide 1 3 s;
  s ← handle_destroyed SendSide 2 s;
  Some s.

Example handles_demo_counts :
  (s ← handles_demo; st ← hs_channels s !! 0;
   s2 ← handle_destroyed SendSide 3 s; st2 ← hs_channels s2 !! 0;
   Some (ch_live_senders st, ch_send_closed st, ch_live_senders st2, ch_send_closed st2)) = Some (1, false, 0, true).
Proof. vm_compute. reflexivity. Qed.

Lemma handles_demo_reach s : handles_demo = Some s → rtc handles_step (handles_init w_demo) s.
Proof.
  unfold handles_demo. intros Hs.
  destruct (make_end SendSide 0 1 (channel_made 0 (Some 2) (handles_init w_demo))) as [s1|] eqn:H1; [|done]. simpl in Hs.
  destruct (handle_copy SendSide 1 2 s1) as [s2|] eqn:H2; [|done]. simpl in Hs.
  destruct (handle_move SendSide 1 3 s2) as [s3|] eqn:H3; [|done]. simpl in Hs.
  destruct (handle_destroyed SendSide 2 s3) as [s4|] eqn:H4; [|done]. injection Hs as <-.
  vm_compute in H1. injection H1 as <-. vm_compute in H2. injection H2 as <-. vm_compute in H3. injection H3 as <-.
  eapply rtc_l; [by apply (HsChannel 0 (Some 2))|]. eapply rtc_l; [by eapply (HsMake SendSide 0 1)|].
  eapply rtc_l; [by eapply (HsCopy SendSide 1 2)|]. eapply rtc_l; [by eapply (HsMove SendSide 1 3)|].
  eapply rtc_once. by eapply (HsDestroyed SendSide 2).
Qed.

Lemma channel_handles_witness :
  ∃ s, handles_demo = Some s ∧ is_Some (handle_destroyed SendSide 3 s) ∧ ∃ st, hs_channels s !! 0 = Some st ∧ 0 < ch_live_senders st.
Proof.
  destruct handles_demo as [s|] eqn:Hs; [|by vm_compute in Hs]. exists s. split; [done|].
  destruct (channel_handles w_demo s (handles_demo_reach s Hs)) as (_ & Hb & Hp).
  assert (hs_objects s !! (SendSide, 3) = Some (Some 0)) as Ho by (vm_compute in Hs; injection Hs as <-; reflexivity).
  split; [by apply (Hp SendSide 3 3); eexists|]. exact (Hb SendSide 3 0 Ho).
Defined.
