(* ===== verification/UdpServerM.v ===== *)
(** * UdpServerM: the UDP server with its configuration and its buffer

    [UdpServer] of [src/tcp_udp/udp_server.hpp] over the phases, the supervisor and the budget of file
    [ServiceM]: what [set_config] and [start] do to the configuration, the port and the buffer into
    which [recvfrom] writes, and the calls of the owner on the whole object. *)

From S2P Require Import Prelude RegistryM ServiceM.
From stdpp Require Import options.

Local Open Scope Z_scope.

(** [Config]; the address is kept for the socket and no test looks at it. *)
Record udp_config : Type := mkUdpConfig {
  uc_port : Z;
  uc_max_datagram_size : Z;
  uc_max_concurrent_handlers : nat;
  uc_max_pending_bytes : Z;
  uc_shutdown_grace : Z;
  uc_cancel_grace : Z;
}.

Definition udp_config_default : udp_config := mkUdpConfig 0 65535 0 0 1000 500.

(** The object: the state it shares with its coroutines, its configuration, the size of [recv_buf_], and
    how often that buffer has been replaced, which is a record of ours. *)
Record udp_object : Type := mkUdpObject {
  uo_server : udp_server;
  uo_config : udp_config;
  uo_handler : bool;
  uo_buffer : Z;
  uo_buffers : nat;
}.
Implicit Types (u : udp_object) (g : udp_config).

Definition uo_set_server x u : udp_object := mkUdpObject x (uo_config u) (uo_handler u) (uo_buffer u) (uo_buffers u).
Definition uo_set_service s u : udp_object := uo_set_server (us_set_service s (uo_server u)) u.
Definition uo_set_config g u : udp_object := mkUdpObject (uo_server u) g (uo_handler u) (uo_buffer u) (uo_buffers u).
Definition uo_service u : service := us_service (uo_server u).

Definition uc_set_port port g : udp_config :=
  mkUdpConfig port (uc_max_datagram_size g) (uc_max_concurrent_handlers g) (uc_max_pending_bytes g) (uc_shutdown_grace g) (uc_cancel_grace g).

Definition udp_object_init : udp_object :=
  mkUdpObject (mkUdp service_init 0 ∅ 0 0) udp_config_default false (uc_max_datagram_size udp_config_default) 0.

Definition udp_set_handler (handler : bool) u : udp_object :=
  mkUdpObject (uo_server u) (uo_config u) handler (uo_buffer u) (uo_buffers u).

Definition udp_set_config g u : res udp_object :=
  if bool_decide (uc_max_datagram_size g = 0) || bool_decide (65535 < uc_max_datagram_size g) then Throw InvalidArgument
  else if bool_decide (uc_shutdown_grace g < 0) || bool_decide (uc_cancel_grace g < 0) then Throw InvalidArgument
  else
    let s := uo_service u in
    let s := sv_set_registry (rg_set_capacity (uc_max_concurrent_handlers g) (sv_registry s)) s in
    Ok (uo_set_service (sv_set_graces (uc_shutdown_grace g) (uc_cancel_grace g) s) (uo_set_config g u)).

(** What the tests at the head of [start] refuse. *)
Definition udp_start_refused u : bool :=
  let s := uo_service u in
  (negb (bool_decide (sv_phase s = idle)) && negb (bool_decide (sv_phase s = stopped))) || negb (uo_handler u) ||
  negb (sv_empty s) || entry_pending (sv_entry s) || supervisor_pending (sv_supervisor s).

(** [start]: [bound] is what [bind_listen] answers, [actual] the port the system says, [thrown] which
    [spawn] throws. *)
Definition udp_start (bound : bool) (actual : Z) (thrown : option (bool * exn)) u : res bool * udp_object :=
  if udp_start_refused u then (Ok false, u)
  else
    let g := uo_config u in
    let u := if bool_decide (uo_buffer u = uc_max_datagram_size g) then u
             else mkUdpObject (uo_server u) g (uo_handler u) (uc_max_datagram_size g) (S (uo_buffers u)) in
    let '(r, s) := ServiceM.start true bound thrown (uc_shutdown_grace g) (uc_cancel_grace g) (uo_service u) in
    let u := uo_set_service s u in
    (r, if bound && negb (bool_decide (actual = 0)) then uo_set_config (uc_set_port actual g) u else u).

Definition udp_start_at (port : Z) (bound : bool) (actual : Z) (thrown : option (bool * exn)) u : res bool * udp_object :=
  udp_start bound actual thrown (uo_set_config (uc_set_port port (uo_config u)) u).

Definition udp_stop_request u : udp_object := uo_set_service (stop_request (uo_service u)) u.
Definition udp_stop u : udp_object := uo_set_service (ServiceM.stop (uo_service u)) u.
Definition udp_shutdown (grace cancel_grace : Z) u : res shutdown_pc * udp_object :=
  let '(r, s) := ServiceM.shutdown grace cancel_grace (uo_service u) in (r, uo_set_service s u).
Definition udp_shutdown_default u : res shutdown_pc * udp_object :=
  udp_shutdown (uc_shutdown_grace (uo_config u)) (uc_cancel_grace (uo_config u)) u.
Definition udp_supervisor_turn (now : Z) u : udp_object := uo_set_service (supervisor_turn now (uo_service u)) u.

(** [recvfrom] returns [n] of a buffer of the size it has now. *)
Definition udp_received (e : nat) (owner : loop_id) (n : Z) u : udp_object :=
  uo_set_server (recv_result e owner (uo_buffer u) (uc_max_pending_bytes (uo_config u)) n (uo_server u)) u.
Definition udp_entry_test u : udp_object := uo_set_service (entry_test (uo_service u)) u.
Definition udp_handler_ends (e : nat) (r : res unit) u : udp_object := uo_set_server (datagram_ends e r (uo_server u)) u.

(** The counters. *)
Definition datagram_count u : nat := sv_handled (uo_service u).
Definition active_handlers u : nat := rg_active (sv_registry (uo_service u)).
Definition pending_bytes u : Z := us_pending_bytes (uo_server u).
Definition dropped_datagrams u : nat := (rg_rejected (sv_registry (uo_service u)) + us_bytes_dropped (uo_server u))%nat.
Definition truncated_datagrams u : nat := us_truncated (uo_server u).

(** ** Every call and turn *)

Inductive udp_object_step : udp_object → udp_object → Prop :=
  | UoHandler b u : udp_object_step u (udp_set_handler b u)
  | UoConfig g u u' :
      0 ≤ uc_max_datagram_size g → 0 ≤ uc_max_pending_bytes g ≤ size_max → udp_set_config g u = Ok u' → udp_object_step u u'
  | UoStart b a th u : udp_object_step u (udp_start b a th u).2
  | UoStartAt p b a th u : udp_object_step u (udp_start_at p b a th u).2
  | UoStopRequest u : udp_object_step u (udp_stop_request u)
  | UoStop u : udp_object_step u (udp_stop u)
  | UoShutdown grace cancel_grace u : udp_object_step u (udp_shutdown grace cancel_grace u).2
  | UoSupervisor now u : supervisor_pending (sv_supervisor (uo_service u)) = true → udp_object_step u (udp_supervisor_turn now u)
  | UoEntryTest u : sv_entry (uo_service u) = EnTest → udp_object_step u (udp_entry_test u)
  | UoReceived e owner n u :
      sv_entry (uo_service u) = EnAwait → rg_info (sv_registry (uo_service u)) !! e = None → n ≤ uo_buffer u →
      udp_object_step u (udp_received e owner n u)
  | UoHandlerEnds e r u : live_task e (uo_service u) → udp_object_step u (udp_handler_ends e r u).

(** ** What holds of it *)

Record udp_object_ok u : Prop := {
  uk_buffer : 1 ≤ uo_buffer u ≤ 65535;
  uk_size : 1 ≤ uc_max_datagram_size (uo_config u) ≤ 65535;
  uk_pending : 0 ≤ uc_max_pending_bytes (uo_config u) ≤ size_max;
  uk_server : udp_ok 0 (uo_server u);
}.

Lemma byte_limit_top limit : 0 ≤ limit ≤ size_max → byte_limit limit ≤ byte_limit 0.
Proof. unfold byte_limit. repeat case_decide; lia. Qed.

(** A step of the service alone. *)
Lemma server_other now s x :
  udp_ok 0 x → service_step now (us_service x) s → same_tasks (us_service x) s → udp_ok 0 (us_set_service s x).
Proof. intros Hok Hs Ht. apply (udp_step_ok 0 0 x); [lia|by eapply UdOther|done]. Qed.

Lemma registry_stop_request s : sv_registry (stop_request s) = sv_registry s.
Proof. unfold stop_request. by case_bool_decide. Qed.
Lemma registry_stop s : sv_registry (ServiceM.stop s) = sv_registry s.
Proof. unfold ServiceM.stop. cbv zeta. case_bool_decide; apply registry_stop_request. Qed.
Lemma registry_shutdown (gr cg : Z) s : sv_registry (ServiceM.shutdown gr cg s).2 = sv_registry s.
Proof. unfold ServiceM.shutdown. repeat case_match; try done. simpl. by rewrite registry_stop_request. Qed.
Lemma registry_start hh b th (gr cg : Z) s : sv_registry (ServiceM.start hh b th gr cg s).2 = sv_registry s.
Proof. unfold ServiceM.start. repeat case_match; done. Qed.
Lemma registry_supervisor_turn now s : sv_registry (supervisor_turn now s) = sv_registry s.
Proof.
  assert (∀ d s, sv_registry (cancel_turn now d s) = sv_registry s) as Hc by (intros; unfold cancel_turn; by case_match).
  assert (∀ d s, sv_registry (drain_turn now d s) = sv_registry s) as Hd.
  { intros d s0. unfold drain_turn. repeat (case_match; try done). by rewrite Hc. }
  unfold supervisor_turn. repeat case_match; auto.
Qed.
Lemma same_tasks_eq s s' : sv_registry s' = sv_registry s → same_tasks s s'.
Proof. intros Hr. unfold same_tasks. by rewrite Hr. Qed.

Lemma udp_start_parts b a th u :
  let u' := (udp_start b a th u).2 in
  (u' = u ∧ udp_start_refused u = true) ∨
  (udp_start_refused u = false ∧
   uo_server u' = us_set_service (ServiceM.start true b th (uc_shutdown_grace (uo_config u)) (uc_cancel_grace (uo_config u)) (uo_service u)).2 (uo_server u) ∧
   uo_buffer u' = uc_max_datagram_size (uo_config u) ∧
   uc_max_datagram_size (uo_config u') = uc_max_datagram_size (uo_config u) ∧
   uc_max_pending_bytes (uo_config u') = uc_max_pending_bytes (uo_config u)).
Proof.
  cbv zeta. unfold udp_start. destruct (udp_start_refused u) eqn:Hr; [by left|right]. split; [done|].
  destruct (bool_decide (uo_buffer u = uc_max_datagram_size (uo_config u))) eqn:Hb; bool_to_prop; unfold uo_service; simpl;
    destruct (ServiceM.start true b th _ _ _) as [r s]; simpl; destruct (b && _); done.
Qed.

Lemma udp_start_ok b a th u : udp_object_ok u → udp_object_ok (udp_start b a th u).2.
Proof.
  intros Hok. destruct (udp_start_parts b a th u) as [[-> _]|(_ & Hs & Hb & Hd & Hp)]; [done|].
  destruct Hok as [Hbuf Hsz Hpd Hsv]. constructor; rewrite ?Hb, ?Hd, ?Hp; [done..|]. rewrite Hs. eapply (server_other 0); [done|apply StStart|].
  apply same_tasks_eq, registry_start.
Qed.

Lemma uo_set_port_ok p u : udp_object_ok u → udp_object_ok (uo_set_config (uc_set_port p (uo_config u)) u).
Proof. intros []; by constructor. Qed.

Lemma udp_object_step_ok u u' : udp_object_step u u' → udp_object_ok u → udp_object_ok u'.
Proof.
  assert (∀ u now s, udp_object_ok u → service_step now (uo_service u) s → sv_registry s = sv_registry (uo_service u) →
    udp_object_ok (uo_set_service s u)) as Hsrv.
  { intros v now s [Hb Hc Hp Hs] Hst Hr. constructor; try done. by eapply server_other, same_tasks_eq. }
  intros Hs Hok. destruct Hs as [b u|g u u' Hg0 Hg1 Hc|b a th u|p b a th u|u|u|grace cancel u|now u Hp|u He|e owner n u He Hi Hn|e r u Hlive].
  - destruct Hok; by constructor.
  - unfold udp_set_config in Hc. case_match eqn:H1; [done|]. case_match eqn:H2; [done|]. injection Hc as <-.
    assert (set_config (uc_max_concurrent_handlers g) (uc_shutdown_grace g) (uc_cancel_grace g) (uo_service u) = Ok
      (sv_set_graces (uc_shutdown_grace g) (uc_cancel_grace g) (sv_set_registry (rg_set_capacity (uc_max_concurrent_handlers g)
        (sv_registry (uo_service u))) (uo_service u)))) as Hset by (unfold set_config; by rewrite H2).
    apply orb_false_iff in H1 as [H1 H1']. bool_to_prop. destruct Hok as [Hb Hcf Hpd Hsv]. constructor; simpl; [done|lia|done|].
    eapply (server_other 0); [done|exact (StConfig 0 _ _ _ _ _ Hset)|done].
  - by apply udp_start_ok.
  - by apply udp_start_ok, uo_set_port_ok.
  - apply (Hsrv u 0); [done|apply StStopRequest|apply registry_stop_request].
  - apply (Hsrv u 0); [done|apply StStop|apply registry_stop].
  - unfold udp_shutdown. pose proof (StShutdown 0 grace cancel (uo_service u)) as Hst. pose proof (registry_shutdown grace cancel (uo_service u)) as Hr.
    destruct (ServiceM.shutdown grace cancel (uo_service u)) as [r s]. by apply (Hsrv u 0).
  - apply (Hsrv u now); [done|by apply StSupervisor|apply registry_supervisor_turn].
  - apply (Hsrv u 0); [done|apply StEntryTest; by left|apply registry_entry_test].
  - destruct Hok as [Hb Hc Hpd Hsv]. constructor; try done. simpl.
    apply (udp_step_ok (uc_max_pending_bytes (uo_config u)) 0 (uo_server u)); [by apply byte_limit_top|by apply UdReceive|done].
  - destruct Hok as [Hb Hc Hpd Hsv]. constructor; try done. simpl. apply (udp_step_ok 0 0 (uo_server u)); [lia|by apply UdHandlerEnds|done].
Qed.

Lemma udp_object_init_ok : udp_object_ok udp_object_init.
Proof.
  constructor; simpl; try lia; [unfold size_max; lia|]. constructor; simpl; [apply service_init_ok| |done|done|vm_compute; discriminate].
  intros e. split; [set_solver|]. rewrite lookup_empty. by intros [].
Qed.

Lemma udp_object_reachable_ok u : rtc udp_object_step udp_object_init u → udp_object_ok u.
Proof.
  pose proof udp_object_init_ok as H0. revert H0. generalize udp_object_init. intros u0 H0 Hr. induction Hr; eauto using udp_object_step_ok.
Qed.

(** Whatever the owner configures and calls, also while datagrams are under way: the buffer has between 1
    and 65535 bytes, and no step replaces it while [recvfrom] may still write to it; the bytes that
    handlers hold are counted exactly, fit in a [size_t], and are none when no handler is left. *)
Theorem udp_object_safe u :
  rtc udp_object_step udp_object_init u →
  1 ≤ uo_buffer u ≤ 65535 ∧
  pending_bytes u = budget_sum (us_budgets (uo_server u)) ∧ pending_bytes u ≤ size_max ∧
  (sv_empty (uo_service u) = true → us_budgets (uo_server u) = ∅) ∧
  ∀ u', udp_object_step u u' → entry_pending (sv_entry (uo_service u)) = true →
    uo_buffer u' = uo_buffer u ∧ uo_buffers u' = uo_buffers u.
Proof.
  intros [Hb Hc Hp [Hok Hl Hsum Hsign Hbd]]%udp_object_reachable_ok. split; [done|]. split; [done|]. split; [by rewrite decide_True in Hbd|].
  split.
  - intros He. apply map_empty. intros e. destruct (us_budgets (uo_server u) !! e) eqn:Hx; [|done].
    assert (is_Some (us_budgets (uo_server u) !! e)) as Hin%Hl by eauto.
    pose proof (quiet_active _ (so_registry _ Hok)) as Ha. rewrite (quiet_empty _ (so_registry _ Hok) He) in Ha.
    symmetry in Ha. apply nil_length_inv in Ha. rewrite Ha in Hin. by apply elem_of_nil in Hin.
  - intros u' Hs He. assert (∀ v b a th, uo_service v = uo_service u → (udp_start b a th v).2 = v) as Hst.
    { intros v b a th Hv. unfold udp_start, udp_start_refused. by rewrite Hv, He, !orb_true_r. }
    destruct Hs; try done.
    + unfold udp_set_config in *. by repeat (case_match; simplify_eq).
    + by rewrite Hst.
    + unfold udp_start_at. by rewrite Hst.
    + unfold udp_shutdown. by destruct (ServiceM.shutdown _ _ _).
Qed.

(** ** Example: a buffer of 100 bytes that a datagram fills, and a start that is refused meanwhile. *)

Definition udp_demo_config : udp_config := mkUdpConfig 0 100 8 0 1000 500.
Definition udp_demo : udp_object :=
  let u := match udp_set_config udp_demo_config (udp_set_handler true udp_object_init) with Ok u => u | Throw _ => udp_object_init end in
  udp_received 7 1 100 (udp_entry_test (udp_start true 8801 None u).2).

Example udp_demo_state :
  (uc_port (uo_config udp_demo), uo_buffer udp_demo, datagram_count udp_demo, active_handlers udp_demo, pending_bytes udp_demo,
   truncated_datagrams udp_demo, dropped_datagrams udp_demo, (udp_start true 0 None udp_demo).1)
  = (8801, 100, 1%nat, 1%nat, 100, 1%nat, 0%nat, Ok false).
Proof. vm_compute. reflexivity. Qed.

Lemma udp_demo_reach : rtc udp_object_step udp_object_init udp_demo.
Proof.
  eapply rtc_l; [apply (UoHandler true)|]. eapply rtc_l; [eapply (UoConfig udp_demo_config); [simpl; lia|unfold size_max; simpl; lia|reflexivity]|].
  eapply rtc_l; [apply (UoStart true 8801 None)|]. eapply rtc_l; [apply UoEntryTest; reflexivity|].
  eapply rtc_once. apply UoReceived; [reflexivity|reflexivity|vm_compute; discriminate].
Qed.

Lemma udp_object_safe_witness :
  pending_bytes udp_demo = 100 ∧ uo_buffer (udp_start true 0 None udp_demo).2 = uo_buffer udp_demo.
Proof.
  destruct (udp_object_safe udp_demo udp_demo_reach) as (_ & Hp & _ & _ & Hn). split; [rewrite Hp; reflexivity|].
  apply (Hn _ (UoStart true 0 None udp_demo)). reflexivity.
Defined.
